(* ===== verification/_CoqProject ===== *)
-Q . S2P
Prelude.v
Bitset.v
Worlds.v
LocalCond.v
HashTable.v
Split.v
WsTree.v
Lineage.v
Choice.v
Condition.v
WsTreeCorrect.v
Completion.v
Store.v
Group.v
TupleConf.v
Argmax.v
Signature.v
Sprout.v
SproutAgg.v
SproutScan.v
SproutRefine.v
SproutProb.v
SigTree.v
SigLists.v
SproutGroup.v
SproutAggCorrect.v
SproutStar.v
SproutJoin.v
SproutPipeline.v
Aconf.v
AconfCorrect.v
Sort.v
DTree.v
DTreeCond.v
DTreeExact.v
Bounds.v
DTreeApprox.v
Appro.v
Presample.v
PipVar.v
PipEqn.v
PipRep.v
PipCompose.v
PipSolve.v
PipBundle.v
PipSample.v
PipCset.v
PipSampler.v
PipCsetCorrect.v
PipSets.v
PipGroups.v
PipIntegrate.v
PipProbability.v
Checks.v
ConfTheorems.v
StoreTheorems.v
DTreeTheorems.v
AconfTheorems.v
ValueTheorems.v
SproutTheorems.v
PipTheorems.v
Findings.v
ParseTree.v
RewriteUtils.v
Supported.v
RepairKey.v
Rewrite.v
Sql.v
SqlFacts.v
ScopeFacts.v
TargetFacts.v
RewriteCorrect.v
RewriteDefined.v
Consistent.v
ConfQuery.v
ConfAnswer.v
ConfValue.v
RepairCorrect.v
RewriteChecks.v
RewriteTheorems.v
