(* ===== verification/Prelude.v ===== *)
(** * MayBMS: confidence computation over U-relations

    MayBMS extends a database server with relations whose tuples carry conditions on
    independent random variables.  A condition column triple (variable, range value,
    probability) is an assignment; a tuple is present in the worlds that agree with
    all its assignments, and the confidence of a group of duplicates is the
    probability of the disjunction of their conditions.  The code modelled here is
    the confidence computation under src/postgresql-8.3.3/src/backend/maybms, with
    its headers under src/include/maybms and the state records of
    src/include/nodes/execnodes.h.  The second subject is the plugin PIP for continuous
    distributions, under src/pip_plugin/src: random variables, symbolic equations and
    comparisons over them, and the probabilities and expectations of rows that carry
    such comparisons.  The third is the rewriting of SQL, in which uncertain relations,
    confidence computations, repair-key and pick-tuples become plain SQL over relations
    with condition columns.

    ** Parts of the program and their files

    - [Bitset]: sets of clause numbers as arrays of 64-bit words (bitset.c).
    - [LocalCond]: the clause array [S], the extendible hash table of variables and
      the local world table (localcond.c, localcond.h).  Every aggregate accumulates
      rows here ([accum], [advance], [updateWorldTable]) and completes the table at
      the end of the group ([getMissingRngs], [computeEntryPointers]).
    - [WsTree]: exact confidence, aggregate conf (ws-tree.c): split the clauses into
      independent parts, choose a variable, condition on each of its values in place.
    - [Sort], [DTree]: the sort, the bucketing bounds, the exact and the approximate
      decomposition tree (d-tree.c).
    - [Aconf]: Monte Carlo confidence, aggregate aconf (aconf.c).
    - [TupleConf]: confidence of one tuple, tconf (tupleconf.c).
    - [Argmax]: the aggregate argmax and the checks of weights (argmax.c).
    - [Signature]: query signatures for hierarchical queries (signature.c): join
      attributes with their subgoals, the hierarchy test [isHQ], the subgoal tree
      [buildSGTree] and the signature tree [buildSigTree] with its attributes; also
      [is_self_join] (rewrite.c) and [nodeGetFields] (rewrite_utils.c).
    - [Sprout], [SproutAgg]: confidence of hierarchical queries (SPROUT.c): the scan
      [processTuple] over sorted lineage, the aggregations that remove stars, their
      [schedule], and the transition and final functions.
    - [Presample]: the generator of sorted random numbers of PIP (list_utils.c).
    - [PipVar]: the interface of double arithmetic, on which the model of PIP is built, with
      an instance of exact numbers, infinities and NaN; variables, the pseudo random generator and the distributions (pvar.c,
      pip.c, dist/).
    - [PipEqn]: equations and atoms as flattened trees in buffers with 16-bit offsets
      (type/eqn.c, type/atom.c, type/atomset.c, sample/solver.c, funcs/pip_eqn.c).
    - [PipBundle]: the sample-first mode, one value per world
      (funcs/pip_value_bundle.c, funcs/pip_world_presence.c).
    - [PipSample]: sample sets, tallies, sampling integration (type/sample_set.c,
      type/conf_tally.c, sample/integration.c).
    - [PipSampler]: sampling under constraints, by rejection or through the inverse
      distribution function, and the expectation under a clause (sample/csampling.c,
      sample/integration.c).
    - [PipCset]: connected sets, the groups of the variables of a clause and the
      probability group by group (list_utils.c, type/atom.c, sample/integration.c).
    - [ParseTree]: parse trees, copies, and the search for function calls in target
      lists (nodes/parsenodes.h, nodes/copyfuncs.c, rewrite.c).  A call has an address,
      since the code keeps pointers to calls and changes what is behind them.
    - [RewriteUtils]: the makers of nodes, the names of condition columns, the numbers of
      triples (rewrite_utils.c); the catalog is a parameter.
    - [Supported]: which statements are certain, need rewriting, are supported
      (supported.c).
    - [RepairKey]: repair-key and pick-tuples (repair_key.c, pick_tuples.c).
    - [Rewrite]: [process_select] and the statements that change tables (rewrite.c,
      rewrite_updates.c).

    The model keeps the C structure.  File-level variables and palloc'ed structures
    are records that the functions take and return; pointers into the world table
    are positions ([wt_entry], [rng_entry]), the lists of the hash table live in a
    finite map of addresses so that several slots can share one list, and marking
    an assignment as used (range value -1) is an update of the clause array.  A
    result of [option] is [None] where the C program would abort, raise an error or
    read out of range, and where the fuel of a recursion is exhausted; the
    termination theorems show that the fuel which the model computes suffices.  The
    rewriting returns an [outcome]: a tree, an error message, undefined behaviour, or
    exhausted fuel.

    ** Theorems

    - Semantics: [Worlds] defines the probability [Pr] of an event under a table of
      independent finite distributions; [Lineage] the event of a clause set.
    - [ConfTheorems]: conf returns exactly [Pr] of the group, and the contracts of
      the split, the choice of a variable and conditioning.  They rest on
      [Lineage], [Choice], [Condition], [WsTreeCorrect], [Completion], [Group].
    - [StoreTheorems]: invariants of hash table and world table, from [HashTable],
      [Split] and [Store].
    - [DTreeTheorems]: soundness of the bounds, the error guarantee of the
      approximation, exactness with error 0, from [DTreeCond], [DTreeExact],
      [Bounds], [DTreeApprox] and [Appro].
    - [AconfTheorems]: range and unbiasedness of the estimator, termination, from
      [AconfCorrect].
    - [SproutTheorems], signatures: [isHQ] decides the hierarchy condition, the subgoal tree ends,
      positions and one-scan signatures; from [SigLists] and [SigTree].
    - [SproutTheorems], confidence: conf of a hierarchical query is [Pr] of its rows, for one-scan
      signatures and for signatures whose first leaf is starred.  [SproutScan]
      abstracts the scan to a machine of open frames, [SproutRefine] shows that
      [processTuple] simulates it, [SproutProb] relates blocks of lineage to [Pr],
      [SproutGroup] runs a whole group; [SproutAggCorrect] is the aggregation of a
      column, [SproutStar] the scan with an aggregated head, [SproutJoin] the lineage
      of a join with a starred column, [SproutPipeline] their composition.
    - [ValueTheorems]: tuple confidence, argmax, bitsets refine finite sets.
    - [PipTheorems]: the properties of PIP.  [Presample] has the invariant of the
      presampler.  [PipRep] says that a buffer represents a tree, [PipCompose] follows
      the operations on buffers (composition, sums, evaluation), [PipSolve] the solver
      and the uniform distribution in exact arithmetic, [PipBundle] and [PipSample] the
      sample sets.  For connected sets, [PipCsetCorrect] is about parents and paths, the
      operations on the forest and the search tree, [PipSets] about partitions;
      [PipGroups] applies them to the variables of a clause, [PipIntegrate] to the atoms of the
      groups, [PipProbability] to probabilities.  [PipSampler] shows that rejection ends,
      how many candidates it counts and what it leaves in the sample set, and which entry
      the next variable is written to after sampling through a distribution function.
    - [Findings]: inputs on which the code does not compute what it should.
    - [RewriteTheorems]: a rewritten select represents the original one in every world.
      [Sql] gives the meaning of selects and of U-relations; [SqlFacts], [ScopeFacts] and
      [TargetFacts] are laws of evaluation, joined rows, stars and condition columns;
      [RewriteCorrect] is the induction over nested selects, [RewriteDefined] shows that
      the rewriting succeeds and that the rewritten select has an answer when the
      original one has; [Consistent] that its rows belong to worlds and that
      [select possible] lists the answers of all worlds.  For confidence queries, [ConfQuery] computes the
      rewritten select and [ConfAnswer] its rows; [ConfValue] shows that all names resolve
      and puts the aggregate of [Group] on top: the value of a key is the probability
      that it is in the answer.  [Sql] also has natural joins and rows numbered from
      sequences, with which [RepairCorrect] runs the selects that repair-key and pick-tuples
      build; the worlds of their results are the repairs and the subsets of the input.
    - [Checks], [RewriteChecks]: decision procedures for the hypotheses and worked
      groups and queries, on which the theorems are instantiated.

    ** Bounds and fuel

    The recursions on clause sets take fuel [indve_fuel], one more than the number
    of clauses times one more than the clause length: every call removes a clause or
    an assignment from the set ([mu]).  [make_room] takes 31 rounds, one per hash
    bit; the table has at most 2^29 slots.  Quicksort takes the length of the range
    plus one.  [buildSGTree] takes one call more than there are lists.  The sampling
    loop of [AA_algorithm] has fuel that exists for every random stream when epsilon and
    delta are positive and delta is below 2; its counters are unbounded here, of type int
    in the code.  Variables are 32-bit integers; range values are non-negative integers
    below the largest 32-bit value.  A walk over a buffer of PIP takes one more than the
    number of its cells ([fuel_of]), a walk over a connected set one more than the number
    of elements.  Rejection sampling stops after ten million trials, so one more than that
    is enough fuel; the loop over
    the inverse distribution function has no limit of its own, and how many trials it
    takes depends on the random stream.

    ** Not modelled

    Probabilities are float4 in the code and exact rationals here, so rounding is
    outside the model ([Argmax], which only compares, uses IEEE values).  Memory
    contexts appear as the flag [groupcxt]; in [Sprout] also as what deleting the context
    of a group takes from the state ([release]), since its column pointers survive and
    dangle: for one-scan signatures conf is proved for the first group that uses a state.
    Allocation failure, printing, statistics and the dispatch of the server are left out.
    log and sqrt are parameters, which may give no number, and rand is a stream; a division
    by zero in [AA_algorithm] gives no number either ([fdiv]), since the infinities and NaN
    of C end in a loop that does not end or in a result that is not a number.  The
    correctness of the decomposition tree is stated for groups in which every variable has
    one range value, and that of conf for rows without repeated variables, as [Findings]
    shows to be necessary.  For hierarchical
    queries the rows must come grouped by the columns of the signature, which the
    rewriting sorts them by, and [complexAggregation] is modelled without a correctness
    theorem.  The meaning of rewritten selects is stated for nested selects without
    set operations, grouping and DISTINCT below the confidence computations, and that of
    confidence queries for one call of conf over key columns in the general case of the
    rewriting.  That every row belongs to a world, and with it [select possible], is stated
    for databases in which the variable of a row of a tuple-independent relation has the
    same value wherever it occurs ([consistent_database]): the checks that the rewriting
    adds skip these relations.  Repair-key is stated for an input without nulls, which the
    natural joins drop.  The exact confidence of comparisons in PIP is stated for linear
    comparisons in which no term is subtracted from another one, on which the solver is
    wrong.  Of PIP, the distributions with transcendental functions (normal, exponential,
    poisson) are parameters, text conversion is left out (most of the parsers reject every
    input, see the findings), and so are the glue of the server functions and
    metropolis.c, which the plugin does not use. *)
From Stdlib Require Export QArith Qcanon Lqa.
From stdpp Require Export base tactics option list list_numbers numbers gmap sets fin_maps fin_sets.

#[global] Set Default Proof Using "Type".

(** ** Exact probabilities

    The type [prob] of the code is float4; the model computes with exact
    rationals in canonical form, so that equality is Leibniz equality. *)

Abbreviation prob := Qc.

Declare Scope prob_scope.
Delimit Scope prob_scope with P.
Open Scope Qc_scope.
Open Scope nat_scope.

#[export] Instance prob_eq_dec : EqDecision prob := Qc_eq_dec.

(** [qc_lra]/[qc_nra] move a goal about canonical rationals to [Q], where
    [lra] and [nra] apply. *)
Lemma this_plus (x y : Qc) : (this (x + y)%Qc == this x + this y)%Q.
Proof. apply Qred_correct. Qed.
Lemma this_mult (x y : Qc) : (this (x * y)%Qc == this x * this y)%Q.
Proof. apply Qred_correct. Qed.
Lemma this_opp (x : Qc) : (this (- x)%Qc == - this x)%Q.
Proof. apply Qred_correct. Qed.
Lemma this_minus (x y : Qc) : (this (x - y)%Qc == this x - this y)%Q.
Proof. unfold Qcminus. rewrite this_plus, this_opp. reflexivity. Qed.
Lemma this_inj (x y : Qc) : x = y <-> (this x == this y)%Q.
Proof. split; [by intros -> | apply Qc_is_canon]. Qed.
Lemma this_ne (x y : Qc) : x <> y <-> ~ (this x == this y)%Q.
Proof. by rewrite this_inj. Qed.

Create Rewrite HintDb qc_db.
#[export] Hint Rewrite this_plus this_mult this_minus this_opp : qc_db.

Ltac qc_to_q :=
  rewrite ?this_ne, ?this_inj in *;
  unfold Qcle, Qclt in *;
  autorewrite with qc_db in *;
  change (this 0%Qc) with 0%Q in *; change (this 1%Qc) with 1%Q in *.
Ltac qc_lra := qc_to_q; lra.
Ltac qc_nra := qc_to_q; nra.


(** ** C loops

    Fallible code returns [option]: [None] is an abort of the C program (an
    out-of-range access, [abort()], [elog(ERROR)]) or exhausted fuel.
    [for_list] runs a loop body over the successive values of the loop variable;
    [for_upto n] is [for (i = 0; i < n; i++)]. *)

Section Loops.
Context {A St : Type}.

Fixpoint for_list (l : list A) (body : A -> St -> option St) (s : St) : option St :=
  match l with
  | [] => Some s
  | a :: l => body a s ≫= for_list l body
  end.

Lemma for_list_app (l1 l2 : list A) (body : A -> St -> option St) (s : St) :
  for_list (l1 ++ l2) body s = for_list l1 body s ≫= for_list l2 body.
Proof.
  revert s. induction l1 as [|a l1 IH]; intros s; [done|]; simpl.
  destruct (body a s) as [s'|]; simpl; [apply IH | done].
Qed.

(** The invariant rule: [P done rest] holds before each round. *)
Lemma for_list_inv (P : list A -> St -> Prop) (l : list A)
    (body : A -> St -> option St) (s : St) :
  P [] s ->
  (forall l1 a l2 s1, l = l1 ++ a :: l2 -> P l1 s1 ->
     exists s2, body a s1 = Some s2 /\ P (l1 ++ [a]) s2) ->
  exists s', for_list l body s = Some s' /\ P l s'.
Proof.
  intros H0 Hstep.
  assert (forall l2 l1 s1, l = l1 ++ l2 -> P l1 s1 ->
            exists s', for_list l2 body s1 = Some s' /\ P l s') as Hgen.
  { induction l2 as [|a l2 IH]; intros l1 s1 Hl HP; simpl.
    - exists s1. rewrite app_nil_r in Hl. by subst.
    - destruct (Hstep l1 a l2 s1 Hl HP) as (s2 & -> & HP2). simpl.
      apply (IH (l1 ++ [a])); [by rewrite <- app_assoc | done]. }
  by apply (Hgen l [] s).
Qed.
End Loops.

Definition for_upto {St} (n : nat) (body : nat -> St -> option St) (s : St) : option St :=
  for_list (seq 0 n) body s.

Lemma for_upto_inv {St} (P : nat -> St -> Prop) (n : nat)
    (body : nat -> St -> option St) (s : St) :
  P 0 s ->
  (forall i s1, i < n -> P i s1 -> exists s2, body i s1 = Some s2 /\ P (S i) s2) ->
  exists s', for_upto n body s = Some s' /\ P n s'.
Proof.
  intros H0 Hstep. unfold for_upto.
  destruct (for_list_inv (fun l s => P (length l) s) (seq 0 n) body s) as (s' & Hs & HP).
  - done.
  - intros l1 a l2 s1 Hl HP.
    assert (Hlen : n = length l1 + S (length l2)).
    { apply (f_equal length) in Hl. rewrite length_seq, length_app in Hl. done. }
    assert (Ha : a = length l1).
    { pose proof (lookup_seq_lt 0 n (length l1) ltac:(lia)) as Hlk.
      rewrite Hl, lookup_app_r, Nat.sub_diag in Hlk by lia. simpl in Hlk. congruence. }
    subst a. destruct (Hstep (length l1) s1 ltac:(lia) HP) as (s2 & Hb & HP2).
    exists s2. split; [done|]. rewrite length_app. simpl. by rewrite Nat.add_1_r.
  - exists s'. rewrite length_seq in HP. done.
Qed.

(** [while (i < n && !p(i)) i++] started at [i]: the first position in
    [i, i + n) where the test [p] holds, [None] when there is none; the test
    itself can fail. *)
Fixpoint search_up (p : nat -> option bool) (n i : nat) : option (option nat) :=
  match n with
  | 0 => Some None
  | S n => b ← p i; if (b : bool) then Some (Some i) else search_up p n (S i)
  end.

Lemma search_up_spec (p : nat -> option bool) (q : nat -> bool) (n i : nat) :
  (forall k, i <= k < i + n -> p k = Some (q k)) ->
  (exists k, search_up p n i = Some (Some k) /\ i <= k < i + n /\ q k = true /\
     (forall j, i <= j < k -> q j = false))
  \/ (search_up p n i = Some None /\ forall j, i <= j < i + n -> q j = false).
Proof.
  revert i. induction n as [|n IH]; intros i Hp; simpl.
  - right. split; [done|]. intros; lia.
  - rewrite (Hp i) by lia. simpl. destruct (q i) eqn:Hq.
    + left. exists i. repeat split; [lia|lia|done|]. intros; lia.
    + destruct (IH (S i)) as [(k & Hs & Hk & Hqk & Hj)|[Hs Hj]].
      { intros k Hk. apply Hp. lia. }
      * left. exists k. repeat split; [done|lia|lia|done|].
        intros j Hjk. destruct (decide (j = i)) as [->|]; [done|]. apply Hj. lia.
      * right. split; [done|]. intros j Hjk.
        destruct (decide (j = i)) as [->|]; [done|]. apply Hj. lia.
Qed.

(** A loop that returns [false] at the first element that fails the test. *)
Fixpoint for_all {A} (l : list A) (p : A -> option bool) : option bool :=
  match l with
  | [] => Some true
  | a :: l => b ← p a; if (b : bool) then for_all l p else Some false
  end.

Lemma for_all_spec {A} (l : list A) (p : A -> option bool) (q : A -> bool) :
  (forall a, a ∈ l -> p a = Some (q a)) -> for_all l p = Some (forallb q l).
Proof.
  induction l as [|a l IH]; intros Hp; [done|]. simpl. rewrite (Hp a) by apply list_elem_of_here. simpl.
  destruct (q a); [|done]. apply IH. intros b Hb. by apply Hp, list_elem_of_further.
Qed.

(** ** Finite sets *)

Lemma size_difference_lt (X T T' : gset nat) (i : nat) :
  T ⊆ T' -> i ∈ X -> i ∉ T -> i ∈ T' -> size (X ∖ T') < size (X ∖ T).
Proof. intros H1 H2 H3 H4. apply subset_size. set_solver. Qed.

Lemma set_other (T : gset nat) (k : nat) :
  k ∈ T -> T <> {[k]} -> exists i, i ∈ T /\ i <> k.
Proof.
  intros Hk Hne. destruct (decide (T ∖ {[k]} = ∅)) as [He|(i & Hi)%set_choose_L].
  - destruct Hne. apply set_eq. intros i. rewrite elem_of_singleton. split; [|by intros ->].
    intros HT. destruct (decide (i = k)); [done|].
    assert (i ∈ T ∖ {[k]}) as Hi by set_solver. rewrite He in Hi. set_solver.
  - exists i. set_solver.
Qed.
