(* ===== verification/Bitset.v ===== *)
(** * Bitset: fixed-capacity bit sets ([bitset.c], [bitset.h])

    A bitset is an array of 64-bit words and a capacity.  The operations are
    translated word by word; [None] is the [abort()] of an out-of-range position
    (macro SEGFAULT) or a read past the word array.  The theorems relate them to
    finite sets of positions: [Rep n X b] says that [b] has capacity [n] and holds
    exactly the positions of [X]. *)
From S2P Require Import Prelude.

(** ** Data *)

Record bitset := mk_bitset { bits : list N; nbits : nat }.

Definition BITSET_BITS : nat := 64.
#[global] Arguments BITSET_BITS : simpl never.
#[local] Arguments Nat.div : simpl never.
#[local] Arguments Nat.modulo : simpl never.
Definition BITSET_MASK (pos : nat) : N := N.shiftl 1 (N.of_nat (pos mod BITSET_BITS)).
Definition BITSET_WORD (set : bitset) (pos : nat) : option N := bits set !! (pos / BITSET_BITS).
Definition BITSET_USED (n : nat) : nat := (n + (BITSET_BITS - 1)) / BITSET_BITS.

Definition set_word (set : bitset) (k : nat) (w : N) : bitset :=
  mk_bitset (<[k := w]> (bits set)) (nbits set).

(** ** Operations *)

(** [palloc] leaves the words uninitialised: [junk] is their arbitrary content. *)
Definition bitset_init (junk : nat -> N) (n : nat) : bitset :=
  mk_bitset ((fun k => N.modulo (junk k) (2 ^ 64)) <$> seq 0 (BITSET_USED n)) n.

Definition bitset_reset (set : bitset) : bitset :=
  mk_bitset (replicate (BITSET_USED (nbits set)) 0%N ++ drop (BITSET_USED (nbits set)) (bits set))
    (nbits set).

Definition bitset_clear_bit (set : bitset) (pos : nat) : option bitset :=
  if nbits set <=? pos then None
  else w ← BITSET_WORD set pos;
       Some (set_word set (pos / BITSET_BITS) (N.land w (N.lnot (BITSET_MASK pos) 64))).

Definition bitset_set_bit (set : bitset) (pos : nat) : option bitset :=
  if nbits set <=? pos then None
  else w ← BITSET_WORD set pos;
       Some (set_word set (pos / BITSET_BITS) (N.lor w (BITSET_MASK pos))).

Definition bitset_test_bit (set : bitset) (pos : nat) : option bool :=
  if nbits set <=? pos then None
  else w ← BITSET_WORD set pos;
       Some (negb (N.eqb (N.land w (BITSET_MASK pos)) 0)).

Definition bitset_set (set : bitset) : option bitset :=
  for_upto (nbits set) (fun i s => bitset_set_bit s i) set.

Definition bitset_count_set (set : bitset) : option nat :=
  for_upto (nbits set)
    (fun i count => b ← bitset_test_bit set i; Some (if (b : bool) then S count else count)) 0.

Definition bitset_copy (from to : bitset) : option bitset :=
  let k := BITSET_USED (nbits to) in
  if (length (bits from) <? k) || (length (bits to) <? k) then None
  else Some (mk_bitset (take k (bits from) ++ drop k (bits to)) (nbits to)).

(** A NULL second operand leaves the first one unchanged. *)
Definition bitset_union (set1 : bitset) (set2 : option bitset) : option bitset :=
  match set2 with
  | None => Some set1
  | Some set2 =>
      for_upto (BITSET_USED (nbits set1))
        (fun i s => w1 ← bits s !! i; w2 ← bits set2 !! i; Some (set_word s i (N.lor w1 w2))) set1
  end.

Definition bitset_complement (junk : nat -> N) (ref_set to_complement : option bitset)
    : option (option bitset) :=
  match ref_set, to_complement with
  | Some ref_set, Some to_complement =>
      Some <$> for_upto (nbits ref_set)
        (fun i res =>
           b1 ← bitset_test_bit ref_set i;
           if (b1 : bool) then
             b2 ← bitset_test_bit to_complement i;
             if (b2 : bool) then Some res else bitset_set_bit res i
           else Some res)
        (bitset_reset (bitset_init junk (nbits ref_set)))
  | _, _ => Some None
  end.

Definition bitset_subtract (from_set what : bitset) : option bitset :=
  for_upto (nbits from_set)
    (fun i s => b ← bitset_test_bit what i; if (b : bool) then bitset_clear_bit s i else Some s)
    from_set.

(** [to_negate] is flipped on the positions of [ref_set]. *)
Definition bitset_negate (ref_set to_negate : bitset) : option bitset :=
  for_upto (nbits ref_set)
    (fun i s =>
       b1 ← bitset_test_bit ref_set i;
       if (b1 : bool) then
         b2 ← bitset_test_bit s i;
         if (b2 : bool) then bitset_clear_bit s i else bitset_set_bit s i
       else Some s)
    to_negate.

Definition bitset_first_bit_set (set : option bitset) : option Z :=
  match set with
  | None => Some (-1)%Z
  | Some set =>
      r ← search_up (bitset_test_bit set) (nbits set) 0;
      Some (match r with Some i => Z.of_nat i | None => (-1)%Z end)
  end.

(** The loop of [bitset_test_singleton]: it stops as soon as two bits were seen. *)
Fixpoint singleton_loop (set : bitset) (fuel i how_many : nat) (pos : Z) : option (nat * Z) :=
  match fuel with
  | 0 => Some (how_many, pos)
  | S fuel =>
      if how_many <? 2 then
        b ← bitset_test_bit set i;
        if (b : bool) then singleton_loop set fuel (S i) (S how_many) (Z.of_nat i)
        else singleton_loop set fuel (S i) how_many pos
      else Some (how_many, pos)
  end.

Definition bitset_test_singleton (set : option bitset) : option Z :=
  match set with
  | None => Some (-1)%Z
  | Some set =>
      '(how_many, pos) ← singleton_loop set (nbits set) 0 0 (-1)%Z;
      Some (if how_many =? 1 then pos else (-1)%Z)
  end.

Definition bitset_test_empty (set : option bitset) : option bool :=
  match set with
  | None => Some true
  | Some set =>
      r ← search_up (fun i => w ← bits set !! i; Some (negb (N.eqb w 0)))
            (BITSET_USED (nbits set)) 0;
      Some (match r with Some _ => false | None => true end)
  end.

(** ** The abstraction *)

Definition bit (b : bitset) (i : nat) : bool :=
  match BITSET_WORD b i with
  | Some w => N.testbit w (N.of_nat (i mod BITSET_BITS))
  | None => false
  end.

Definition bs_ok (b : bitset) : Prop :=
  length (bits b) = BITSET_USED (nbits b) /\ Forall (fun w => (w < 2 ^ 64)%N) (bits b).

(** No bit is set in the padding of the last word: the emptiness test, which
    compares whole words, is exact only then. *)
Definition Clean (b : bitset) : Prop := forall i, nbits b <= i -> bit b i = false.

Definition Rep (n : nat) (X : gset nat) (b : bitset) : Prop :=
  bs_ok b /\ nbits b = n /\ forall i, i ∈ X <-> i < n /\ bit b i = true.

(** ** Words *)

Lemma div_mod_eq (i j : nat) :
  i / BITSET_BITS = j / BITSET_BITS -> i mod BITSET_BITS = j mod BITSET_BITS -> i = j.
Proof.
  unfold BITSET_BITS. intros H1 H2.
  rewrite (Nat.div_mod_eq i 64), (Nat.div_mod_eq j 64). lia.
Qed.

Lemma mask_spec (i k : nat) :
  N.testbit (BITSET_MASK i) (N.of_nat k) = (k =? i mod BITSET_BITS).
Proof.
  unfold BITSET_MASK. rewrite N.shiftl_1_l, N.pow2_bits_eqb.
  destruct (Nat.eqb_spec k (i mod BITSET_BITS)) as [->|Hne].
  - apply N.eqb_refl.
  - apply N.eqb_neq. lia.
Qed.

Lemma land_mask_zero (w : N) (i : nat) :
  negb (N.eqb (N.land w (BITSET_MASK i)) 0) = N.testbit w (N.of_nat (i mod BITSET_BITS)).
Proof.
  destruct (N.testbit w (N.of_nat (i mod BITSET_BITS))) eqn:Hb.
  - apply negb_true_iff, N.eqb_neq. intros H0.
    apply (f_equal (fun v => N.testbit v (N.of_nat (i mod BITSET_BITS)))) in H0.
    rewrite N.land_spec, mask_spec, Nat.eqb_refl, Hb in H0. by rewrite N.bits_0 in H0.
  - apply negb_false_iff, N.eqb_eq, N.bits_inj. intros k.
    rewrite N.land_spec, N.bits_0, <- (N2Nat.id k), mask_spec.
    destruct (Nat.eqb_spec (N.to_nat k) (i mod BITSET_BITS)) as [->|]; [by rewrite Hb|].
    apply andb_false_r.
Qed.

Lemma word_lt_bits (w : N) (k : N) : (w < 2 ^ 64)%N -> (64 <= k)%N -> N.testbit w k = false.
Proof.
  intros Hw Hk. destruct (decide (w = 0%N)) as [->|Hne]; [apply N.bits_0|].
  apply N.bits_above_log2. apply N.log2_lt_pow2; [lia|].
  eapply N.lt_le_trans; [exact Hw|]. apply N.pow_le_mono_r; lia.
Qed.

Lemma lt_of_bits (w : N) : (forall k, (64 <= k)%N -> N.testbit w k = false) -> (w < 2 ^ 64)%N.
Proof.
  intros H. destruct (decide (w = 0%N)) as [->|Hne]; [lia|].
  apply N.log2_lt_pow2; [lia|]. destruct (N.lt_ge_cases (N.log2 w) 64) as [|Hge]; [done|].
  specialize (H _ Hge). by rewrite N.bit_log2 in H.
Qed.

Lemma mask_lt (i : nat) : (BITSET_MASK i < 2 ^ 64)%N.
Proof.
  apply lt_of_bits. intros k Hk. rewrite <- (N2Nat.id k), mask_spec.
  apply Nat.eqb_neq. pose proof (Nat.mod_upper_bound i BITSET_BITS ltac:(done)).
  unfold BITSET_BITS in *. lia.
Qed.

Lemma lor_lt (a b : N) : (a < 2 ^ 64)%N -> (b < 2 ^ 64)%N -> (N.lor a b < 2 ^ 64)%N.
Proof.
  intros Ha Hb. apply lt_of_bits. intros k Hk.
  by rewrite N.lor_spec, !word_lt_bits.
Qed.

Lemma land_lt (a b : N) : (a < 2 ^ 64)%N -> (N.land a b < 2 ^ 64)%N.
Proof. intros Ha. apply lt_of_bits. intros k Hk. by rewrite N.land_spec, word_lt_bits. Qed.

Lemma used_word (n i : nat) : i < n -> i / BITSET_BITS < BITSET_USED n.
Proof.
  unfold BITSET_USED, BITSET_BITS. intros Hi.
  apply Nat.Div0.div_lt_upper_bound.
  pose proof (Nat.div_mod_eq (n + (64 - 1)) 64).
  pose proof (Nat.mod_upper_bound (n + (64 - 1)) 64 ltac:(lia)). lia.
Qed.

Lemma word_in_range (b : bitset) (i : nat) :
  bs_ok b -> i < nbits b -> exists w, BITSET_WORD b i = Some w /\ (w < 2 ^ 64)%N.
Proof.
  intros [Hlen Hall] Hi. unfold BITSET_WORD.
  destruct (lookup_lt_is_Some_2 (bits b) (i / BITSET_BITS)) as [w Hw].
  { rewrite Hlen. by apply used_word. }
  exists w. split; [done|]. by eapply Forall_lookup_1 in Hall.
Qed.

(** Storing a word changes exactly the bits of that word. *)
Lemma set_word_ok (b : bitset) (i : nat) (w : N) :
  bs_ok b -> (w < 2 ^ 64)%N -> bs_ok (set_word b i w).
Proof.
  intros [Hlen Hall] Hw. split; simpl.
  - by rewrite length_insert.
  - by apply Forall_insert.
Qed.

Lemma set_word_bit (b : bitset) (k j : nat) (w : N) :
  k < length (bits b) ->
  bit (set_word b k w) j =
    if j / BITSET_BITS =? k then N.testbit w (N.of_nat (j mod BITSET_BITS)) else bit b j.
Proof.
  intros Hk. unfold bit, BITSET_WORD, set_word; simpl.
  destruct (Nat.eqb_spec (j / BITSET_BITS) k) as [->|Hne].
  - by rewrite list_lookup_insert_eq.
  - by rewrite list_lookup_insert_ne by done.
Qed.

(** ** Specification of the operations

    Each lemma says that the operation succeeds on a represented set and which
    set the result represents; the padding is never touched. *)

Lemma rep_bound (n : nat) (X : gset nat) (b : bitset) (i : nat) : Rep n X b -> i ∈ X -> i < n.
Proof. intros (_ & _ & H) Hi. by apply H. Qed.

Lemma rep_bit (n : nat) (X : gset nat) (b : bitset) (i : nat) :
  Rep n X b -> i < n -> bit b i = bool_decide (i ∈ X).
Proof.
  intros (_ & _ & H) Hi. destruct (bit b i) eqn:Hb; symmetry.
  - apply bool_decide_eq_true, H. done.
  - apply bool_decide_eq_false. rewrite H. intros [_ ?]. congruence.
Qed.

Lemma rep_unique (n : nat) (X Y : gset nat) (b : bitset) : Rep n X b -> Rep n Y b -> X = Y.
Proof. intros (_ & _ & HX) (_ & _ & HY). apply set_eq. intros i. by rewrite HX, HY. Qed.

Lemma bitset_test_bit_spec (n : nat) (X : gset nat) (b : bitset) (i : nat) :
  Rep n X b -> i < n -> bitset_test_bit b i = Some (bool_decide (i ∈ X)).
Proof.
  intros HR Hi. pose proof (rep_bit _ _ _ _ HR Hi) as Hbit.
  destruct HR as (Hok & Hn & HX). subst n. unfold bitset_test_bit.
  rewrite (proj2 (Nat.leb_gt _ _)) by lia.
  destruct (word_in_range _ _ Hok Hi) as (w & Hw & _). rewrite Hw. simpl.
  rewrite land_mask_zero, <- Hbit. unfold bit. by rewrite Hw.
Qed.

Lemma bitset_set_bit_bits (b : bitset) (i : nat) :
  bs_ok b -> i < nbits b ->
  exists b', bitset_set_bit b i = Some b' /\ bs_ok b' /\ nbits b' = nbits b /\
    forall j, bit b' j = (j =? i) || bit b j.
Proof.
  intros Hok Hi. unfold bitset_set_bit. rewrite (proj2 (Nat.leb_gt _ _)) by lia.
  destruct (word_in_range _ _ Hok Hi) as (w & Hw & Hlt). rewrite Hw. simpl.
  eexists. split; [done|]. split; [apply set_word_ok; [done|]; apply lor_lt; [done|apply mask_lt]|].
  split; [done|]. intros j. rewrite set_word_bit by (by apply lookup_lt_Some in Hw).
  destruct (Nat.eqb_spec (j / BITSET_BITS) (i / BITSET_BITS)) as [Hd|Hd].
  - rewrite N.lor_spec, mask_spec, orb_comm. f_equal.
    + destruct (Nat.eqb_spec (j mod BITSET_BITS) (i mod BITSET_BITS)) as [Hm|Hm].
      * rewrite (div_mod_eq j i) by done. by rewrite Nat.eqb_refl.
      * symmetry. apply Nat.eqb_neq. by intros ->.
    + unfold bit, BITSET_WORD in *. by rewrite Hd, Hw.
  - rewrite (proj2 (Nat.eqb_neq j i)); [done|]. by intros ->.
Qed.

Lemma lnot_mask_spec (i j : nat) :
  j / BITSET_BITS = i / BITSET_BITS ->
  N.testbit (N.lnot (BITSET_MASK i) 64) (N.of_nat (j mod BITSET_BITS)) = negb (j =? i).
Proof.
  intros Hd. pose proof (Nat.mod_upper_bound j BITSET_BITS ltac:(done)) as Hb.
  rewrite N.lnot_spec_low by (unfold BITSET_BITS in *; lia). rewrite mask_spec. f_equal.
  destruct (Nat.eqb_spec j i) as [->|Hne]; [apply Nat.eqb_refl|].
  apply Nat.eqb_neq. intros Hm. by apply Hne, div_mod_eq.
Qed.

Lemma bitset_clear_bit_bits (b : bitset) (i : nat) :
  bs_ok b -> i < nbits b ->
  exists b', bitset_clear_bit b i = Some b' /\ bs_ok b' /\ nbits b' = nbits b /\
    forall j, bit b' j = bit b j && negb (j =? i).
Proof.
  intros Hok Hi. unfold bitset_clear_bit. rewrite (proj2 (Nat.leb_gt _ _)) by lia.
  destruct (word_in_range _ _ Hok Hi) as (w & Hw & Hlt). rewrite Hw. simpl.
  eexists. split; [done|]. split; [by apply set_word_ok; [|apply land_lt]|].
  split; [done|]. intros j. rewrite set_word_bit by (by apply lookup_lt_Some in Hw).
  destruct (Nat.eqb_spec (j / BITSET_BITS) (i / BITSET_BITS)) as [Hd|Hd].
  - rewrite N.land_spec, lnot_mask_spec by done. unfold bit, BITSET_WORD in *. by rewrite Hd, Hw.
  - rewrite (proj2 (Nat.eqb_neq j i)); [by rewrite andb_true_r|]. by intros ->.
Qed.

Lemma bitset_set_bit_spec (n : nat) (X : gset nat) (b : bitset) (i : nat) :
  Rep n X b -> i < n ->
  exists b', bitset_set_bit b i = Some b' /\ Rep n ({[i]} ∪ X) b' /\ (Clean b -> Clean b').
Proof.
  intros (Hok & Hn & HX) Hi. subst n.
  destruct (bitset_set_bit_bits b i Hok Hi) as (b' & Hs & Hok' & Hn' & Hbits).
  exists b'. split; [done|]. split; [split_and!; [done|done|]|].
  - intros j. rewrite Hbits, elem_of_union, elem_of_singleton, orb_true_iff, Nat.eqb_eq, HX.
    naive_solver.
  - intros Hc j Hj. rewrite Hbits, Hc by lia. rewrite orb_false_r. apply Nat.eqb_neq. lia.
Qed.

Lemma bitset_clear_bit_spec (n : nat) (X : gset nat) (b : bitset) (i : nat) :
  Rep n X b -> i < n ->
  exists b', bitset_clear_bit b i = Some b' /\ Rep n (X ∖ {[i]}) b' /\ (Clean b -> Clean b').
Proof.
  intros (Hok & Hn & HX) Hi. subst n.
  destruct (bitset_clear_bit_bits b i Hok Hi) as (b' & Hs & Hok' & Hn' & Hbits).
  exists b'. split; [done|]. split; [split_and!; [done|done|]|].
  - intros j. rewrite Hbits, elem_of_difference, elem_of_singleton, andb_true_iff,
      negb_true_iff, Nat.eqb_neq, HX. naive_solver.
  - intros Hc j Hj. by rewrite Hbits, Hc by lia.
Qed.

Lemma bitset_init_ok (junk : nat -> N) (n : nat) : bs_ok (bitset_init junk n).
Proof.
  split; simpl.
  - by rewrite length_fmap, length_seq.
  - apply Forall_fmap, Forall_true. intros k. simpl. apply N.mod_lt. done.
Qed.

Lemma bitset_reset_bits (b : bitset) :
  bs_ok b -> bs_ok (bitset_reset b) /\ nbits (bitset_reset b) = nbits b /\
    forall i, bit (bitset_reset b) i = false.
Proof.
  intros [Hlen _]. unfold bitset_reset. rewrite <- Hlen, drop_all, app_nil_r.
  split; [split|split]; simpl; [by rewrite length_replicate|by apply Forall_replicate|done|].
  intros i. unfold bit, BITSET_WORD; simpl.
  destruct (replicate _ _ !! _) as [w|] eqn:Hw; [|done].
  apply lookup_replicate in Hw as [-> _]. apply N.bits_0.
Qed.

Lemma bitset_reset_spec (b : bitset) :
  bs_ok b -> Rep (nbits b) ∅ (bitset_reset b) /\ Clean (bitset_reset b).
Proof.
  intros Hok. destruct (bitset_reset_bits b Hok) as (Hok' & Hn & Hb).
  split; [split_and!; [done|done|]|].
  - intros i. rewrite Hb. set_solver.
  - intros i _. apply Hb.
Qed.

(** A fresh, cleared set: [bitset_init] followed by [bitset_reset]. *)
Lemma bitset_fresh_spec (junk : nat -> N) (n : nat) :
  Rep n ∅ (bitset_reset (bitset_init junk n)) /\ Clean (bitset_reset (bitset_init junk n)).
Proof. apply (bitset_reset_spec (bitset_init junk n)), bitset_init_ok. Qed.

Definition below (n : nat) : gset nat := list_to_set (seq 0 n).

Lemma elem_of_below (n i : nat) : i ∈ below n <-> i < n.
Proof. unfold below. rewrite elem_of_list_to_set, elem_of_seq. lia. Qed.

Lemma below_S (n : nat) : below (S n) = {[n]} ∪ below n.
Proof.
  apply set_eq. intros i. rewrite elem_of_union, elem_of_singleton, !elem_of_below. lia.
Qed.

Lemma bs_ok_rep (b : bitset) :
  bs_ok b -> Rep (nbits b) (filter (fun i => bit b i = true) (below (nbits b))) b.
Proof.
  intros Hok. split_and!; [done|done|]. intros i.
  rewrite elem_of_filter, elem_of_below. tauto.
Qed.

Lemma bitset_set_spec (b : bitset) :
  bs_ok b -> exists b', bitset_set b = Some b' /\ Rep (nbits b) (below (nbits b)) b'.
Proof.
  intros Hok. unfold bitset_set.
  destruct (for_upto_inv
    (fun i s => exists X, Rep (nbits b) X s /\ below i ⊆ X) (nbits b)
    (fun i s => bitset_set_bit s i) b) as (b' & Hb' & X & HR & HX).
  - eexists. split; [by apply bs_ok_rep|]. by intros i ?%elem_of_below; lia.
  - intros i s Hi (X & HR & HX).
    destruct (bitset_set_bit_spec _ _ _ i HR Hi) as (s' & Hs & HR' & _).
    exists s'. split; [done|]. eexists. split; [exact HR'|]. rewrite below_S. set_solver.
  - exists b'. split; [done|]. replace (below (nbits b)) with X; [done|].
    apply set_eq. intros i. split; [|set_solver].
    intros Hi. apply elem_of_below. by eapply rep_bound.
Qed.

(** A loop over all positions that rebuilds a set [X] into [Y], deciding
    position [i] at round [i]. *)
Lemma loop_rep (n : nat) (X Y : gset nat) (body : nat -> bitset -> option bitset) (b : bitset) :
  Rep n X b ->
  (forall i Z s, i < n -> Rep n Z s -> (forall j, j ∈ Z <-> if decide (j < i) then j ∈ Y else j ∈ X) ->
     exists s', body i s = Some s' /\ (Clean s -> Clean s') /\
       Rep n (if decide (i ∈ Y) then {[i]} ∪ Z else Z ∖ {[i]}) s') ->
  (forall i, i ∈ Y -> i < n) ->
  exists b', for_upto n body b = Some b' /\ Rep n Y b' /\ (Clean b -> Clean b').
Proof.
  intros HR Hstep HY.
  destruct (for_upto_inv (fun i s => (exists Z, Rep n Z s /\
      forall j, j ∈ Z <-> if decide (j < i) then j ∈ Y else j ∈ X) /\ (Clean b -> Clean s))
      n body b) as (b' & Hb & (Z & HZ & HZY) & Hc).
  - split; [|done]. exists X. split; [done|]. intros j. by destruct (decide (j < 0)); [lia|].
  - intros i s Hi [(Z & HZ & HZj) Hc].
    destruct (Hstep i Z s Hi HZ HZj) as (s' & Hs & Hcs & HR').
    exists s'. split; [done|]. split; [|auto]. eexists. split; [exact HR'|].
    intros j. specialize (HZj j).
    destruct (decide (j = i)) as [->|Hne].
    + destruct (decide (i < S i)); [|lia]. destruct (decide (i ∈ Y)); set_solver.
    + replace (decide (j < S i)) with (decide (j < S i)) by done.
      destruct (decide (j < S i)), (decide (j < i)); try lia;
        destruct (decide (i ∈ Y)); set_solver.
  - exists b'. split; [done|]. split; [|done]. replace Y with Z; [done|].
    apply set_eq. intros j. rewrite HZY. destruct (decide (j < n)) as [|Hj]; [done|].
    split; [|by intros ?%HY]. intros Hj'. exfalso. by apply Hj, (rep_bound _ _ _ _ HR).
Qed.

Lemma bitset_subtract_spec (n : nat) (X Y : gset nat) (a b : bitset) :
  Rep n X a -> Rep n Y b ->
  exists a', bitset_subtract a b = Some a' /\ Rep n (X ∖ Y) a' /\ (Clean a -> Clean a').
Proof.
  intros HX HY. unfold bitset_subtract. replace (nbits a) with n by (symmetry; apply HX).
  apply (loop_rep n X); [done| |intros i Hi; apply (rep_bound _ _ _ _ HX); set_solver].
  intros i Z s Hi HZ HZj. rewrite (bitset_test_bit_spec _ _ _ _ HY Hi). simpl.
  specialize (HZj i). destruct (decide (i < i)); [lia|].
  destruct (bitset_clear_bit_spec _ _ _ _ HZ Hi) as (s' & Hs' & HR' & Hc').
  destruct (bool_decide (i ∈ Y)) eqn:E.
  - apply bool_decide_eq_true in E. exists s'. split_and!; [done|done|].
    by destruct (decide (i ∈ X ∖ Y)); [set_solver|].
  - apply bool_decide_eq_false in E. exists s. split_and!; [done|done|].
    destruct (decide (i ∈ X ∖ Y)).
    + replace ({[i]} ∪ Z) with Z by set_solver. done.
    + replace (Z ∖ {[i]}) with Z by set_solver. done.
Qed.

Lemma bitset_negate_spec (n : nat) (X Y : gset nat) (a b : bitset) :
  Rep n X a -> Rep n Y b ->
  exists b', bitset_negate a b = Some b' /\ Rep n ((X ∖ Y) ∪ (Y ∖ X)) b' /\ (Clean b -> Clean b').
Proof.
  intros HX HY. unfold bitset_negate. replace (nbits a) with n by (symmetry; apply HX).
  apply (loop_rep n Y); [done| |intros i [[Hi _]%elem_of_difference|[Hi _]%elem_of_difference]%elem_of_union;
    [exact (rep_bound _ _ _ _ HX Hi)|exact (rep_bound _ _ _ _ HY Hi)]].
  intros i Z s Hi HZ HZj. rewrite (bitset_test_bit_spec _ _ _ _ HX Hi). simpl.
  specialize (HZj i). destruct (decide (i < i)); [lia|].
  destruct (bitset_clear_bit_spec _ _ _ _ HZ Hi) as (sc & Hsc & HRc & Hcc).
  destruct (bitset_set_bit_spec _ _ _ _ HZ Hi) as (st & Hst & HRt & Hct).
  destruct (bool_decide (i ∈ X)) eqn:E;
    [apply bool_decide_eq_true in E|apply bool_decide_eq_false in E].
  - rewrite (bitset_test_bit_spec _ _ _ _ HZ Hi). simpl.
    destruct (bool_decide (i ∈ Z)) eqn:EZ;
      [apply bool_decide_eq_true in EZ|apply bool_decide_eq_false in EZ].
    + exists sc. split_and!; [done|done|]. by destruct (decide _); [set_solver|].
    + exists st. split_and!; [done|done|]. by destruct (decide _); [|set_solver].
  - exists s. split_and!; [done|done|]. destruct (decide _).
    + replace ({[i]} ∪ Z) with Z by set_solver. done.
    + replace (Z ∖ {[i]}) with Z by set_solver. done.
Qed.

(** The union works on whole words, so the padding of the operands is merged. *)
Lemma bitset_union_spec (n : nat) (X Y : gset nat) (a b : bitset) :
  Rep n X a -> Rep n Y b ->
  exists a', bitset_union a (Some b) = Some a' /\ Rep n (X ∪ Y) a' /\
    (Clean a -> Clean b -> Clean a').
Proof.
  intros HX HY. pose proof HX as (HokX & HnX & HX'). pose proof HY as (HokY & HnY & HY').
  simpl. rewrite HnX.
  destruct (for_upto_inv (fun k s => bs_ok s /\ nbits s = n /\
      forall j, bit s j = bit a j || (if decide (j / BITSET_BITS < k) then bit b j else false))
    (BITSET_USED n)
    (fun i s => w1 ← bits s !! i; w2 ← bits b !! i; Some (set_word s i (N.lor w1 w2))) a)
    as (a' & Ha & Hok & Hn & Hbit).
  - split_and!; [done|done|]. intros j. by rewrite orb_false_r.
  - intros k s Hk (Hok & Hn & Hbit).
    destruct (lookup_lt_is_Some_2 (bits s) k) as [w1 Hw1]; [rewrite (proj1 Hok); by rewrite Hn|].
    destruct (lookup_lt_is_Some_2 (bits b) k) as [w2 Hw2]; [rewrite (proj1 HokY); by rewrite HnY|].
    rewrite Hw1, Hw2. simpl. eexists. split; [done|]. split_and!; [|done|].
    + apply set_word_ok; [done|]. apply lor_lt.
      * by eapply Forall_lookup_1 in Hw1; [|apply Hok].
      * by eapply Forall_lookup_1 in Hw2; [|apply HokY].
    + intros j. rewrite set_word_bit by (by apply lookup_lt_Some in Hw1).
      destruct (Nat.eqb_spec (j / BITSET_BITS) k) as [Hjk|Hjk].
      * rewrite N.lor_spec.
        replace (N.testbit w1 (N.of_nat (j mod BITSET_BITS))) with (bit s j)
          by (unfold bit, BITSET_WORD; by rewrite Hjk, Hw1).
        replace (N.testbit w2 (N.of_nat (j mod BITSET_BITS))) with (bit b j)
          by (unfold bit, BITSET_WORD; by rewrite Hjk, Hw2).
        rewrite Hbit. destruct (decide (j / BITSET_BITS < k)); [lia|].
        destruct (decide (j / BITSET_BITS < S k)); [|lia]. by rewrite orb_false_r.
      * rewrite Hbit. by destruct (decide (j / BITSET_BITS < k)),
          (decide (j / BITSET_BITS < S k)); try lia.
  - assert (Hbit' : forall j, bit a' j = bit a j || bit b j).
    { intros j. rewrite Hbit. destruct (decide _) as [|Hj]; [done|].
      replace (bit b j) with false; [done|]. unfold bit, BITSET_WORD.
      rewrite lookup_ge_None_2; [done|]. rewrite (proj1 HokY), HnY. lia. }
    exists a'. split; [exact Ha|]. split; [split_and!; [done|done|]|].
    + intros i. rewrite elem_of_union, HX', HY', Hbit', orb_true_iff. naive_solver.
    + intros Hca Hcb i Hi. rewrite Hbit', Hca, Hcb by lia. done.
Qed.

Lemma bitset_complement_spec (junk : nat -> N) (n : nat) (X Y : gset nat) (a b : bitset) :
  Rep n X a -> Rep n Y b ->
  exists c, bitset_complement junk (Some a) (Some b) = Some (Some c) /\ Rep n (X ∖ Y) c /\ Clean c.
Proof.
  intros HX HY. simpl. replace (nbits a) with n by (symmetry; apply HX).
  destruct (bitset_fresh_spec junk n) as [HR0 Hc0].
  destruct (loop_rep n ∅ (X ∖ Y)
    (fun i res =>
       b1 ← bitset_test_bit a i;
       if (b1 : bool) then
         b2 ← bitset_test_bit b i;
         if (b2 : bool) then Some res else bitset_set_bit res i
       else Some res) _ HR0) as (c & Hc & HR & Hcc).
  - intros i Z s Hi HZ HZj. rewrite (bitset_test_bit_spec _ _ _ _ HX Hi). simpl.
    specialize (HZj i). destruct (decide (i < i)); [lia|].
    destruct (bitset_set_bit_spec _ _ _ _ HZ Hi) as (st & Hst & HRt & Hct).
    assert (HRid : i ∉ X ∖ Y ->
      Rep n (if decide (i ∈ X ∖ Y) then {[i]} ∪ Z else Z ∖ {[i]}) s).
    { intros Hni. destruct (decide _); [done|].
      replace (Z ∖ {[i]}) with Z by set_solver. done. }
    destruct (bool_decide (i ∈ X)) eqn:E;
      [apply bool_decide_eq_true in E|apply bool_decide_eq_false in E].
    + rewrite (bitset_test_bit_spec _ _ _ _ HY Hi). simpl.
      destruct (bool_decide (i ∈ Y)) eqn:EY;
        [apply bool_decide_eq_true in EY|apply bool_decide_eq_false in EY].
      * exists s. split_and!; [done|done|]. apply HRid. set_solver.
      * exists st. split_and!; [done|done|]. by destruct (decide _); [|set_solver].
    + exists s. split_and!; [done|done|]. apply HRid. set_solver.
  - intros i Hi. apply (rep_bound _ _ _ _ HX). set_solver.
  - exists c. rewrite Hc. auto.
Qed.

Lemma bitset_copy_spec (n : nat) (X : gset nat) (from to : bitset) :
  Rep n X from -> bs_ok to -> nbits to = n ->
  exists to', bitset_copy from to = Some to' /\ Rep n X to' /\ (Clean from -> Clean to').
Proof.
  intros (Hok & Hn & HX) Hokt Hnt. unfold bitset_copy.
  assert (Hlf : length (bits from) = BITSET_USED n) by (rewrite (proj1 Hok); by rewrite Hn).
  assert (Hlt : length (bits to) = BITSET_USED n) by (rewrite (proj1 Hokt); by rewrite Hnt).
  rewrite Hnt, Hlf, Hlt, Nat.ltb_irrefl. simpl.
  eexists. split; [done|].
  replace (mk_bitset (take (BITSET_USED n) (bits from) ++ drop (BITSET_USED n) (bits to)) n)
    with from; [done|].
  destruct from as [ws m]; simpl in *. subst m. f_equal.
  by rewrite <- Hlt at 2; rewrite drop_all, app_nil_r, <- Hlf, firstn_all.
Qed.

(** ** Reading a set *)

Lemma bitset_count_set_spec (n : nat) (X : gset nat) (b : bitset) :
  Rep n X b -> bitset_count_set b = Some (size X).
Proof.
  intros HR. unfold bitset_count_set. replace (nbits b) with n by (symmetry; apply HR).
  destruct (for_upto_inv (fun i c => c = size (X ∩ below i)) n
    (fun i count => b ← bitset_test_bit b i;
       Some (if (b : bool) then S count else count)) 0) as (c & -> & ->).
  - replace (X ∩ below 0) with (∅ : gset nat) by (cbn; set_solver). done.
  - intros i c Hi ->. rewrite (bitset_test_bit_spec _ _ _ _ HR Hi). simpl.
    eexists. split; [done|]. rewrite below_S.
    destruct (bool_decide (i ∈ X)) eqn:E;
      [apply bool_decide_eq_true in E|apply bool_decide_eq_false in E].
    + replace (X ∩ ({[i]} ∪ below i)) with ({[i]} ∪ (X ∩ below i)) by set_solver.
      assert (Hd : ({[i]} : gset nat) ## X ∩ below i).
      { intros j ->%elem_of_singleton [_ Hj]%elem_of_intersection.
        apply elem_of_below in Hj. lia. }
      by rewrite (size_union _ _ Hd), size_singleton.
    + by replace (X ∩ ({[i]} ∪ below i)) with (X ∩ below i) by set_solver.
  - do 2 f_equal. apply set_eq. intros i. rewrite elem_of_intersection, elem_of_below.
    split; [tauto|]. intros Hi. split; [done|]. by eapply rep_bound.
Qed.

Lemma bitset_search_spec (n m : nat) (X : gset nat) (b : bitset) :
  Rep n X b -> m <= n ->
  (exists k, search_up (bitset_test_bit b) m 0 = Some (Some k) /\ k < m /\ k ∈ X /\
     forall j, j ∈ X -> k <= j)
  \/ (search_up (bitset_test_bit b) m 0 = Some None /\ forall j, j ∈ X -> m <= j).
Proof.
  intros HR Hm.
  destruct (search_up_spec (bitset_test_bit b) (fun i => bool_decide (i ∈ X)) m 0)
    as [(k & Hs & Hk & Hin & Hj)|[Hs Hj]].
  - intros k Hk. apply (bitset_test_bit_spec _ _ _ _ HR). lia.
  - left. exists k. apply bool_decide_eq_true in Hin. split_and!; [done|lia|done|].
    intros j Hjx. destruct (decide (k <= j)) as [|Hlt]; [done|].
    specialize (Hj j ltac:(lia)). by apply bool_decide_eq_false in Hj.
  - right. split; [done|]. intros j Hjx.
    destruct (decide (m <= j)) as [|Hlt]; [done|].
    specialize (Hj j ltac:(lia)). by apply bool_decide_eq_false in Hj.
Qed.

Lemma bitset_first_bit_set_spec (n : nat) (X : gset nat) (b : bitset) :
  Rep n X b ->
  (X = ∅ /\ bitset_first_bit_set (Some b) = Some (-1)%Z) \/
  (exists k, k ∈ X /\ (forall j, j ∈ X -> k <= j) /\ bitset_first_bit_set (Some b) = Some (Z.of_nat k)).
Proof.
  intros HR. simpl. replace (nbits b) with n by (symmetry; apply HR).
  destruct (bitset_search_spec n n X b HR ltac:(lia)) as [(k & Hs & _ & Hk & Hj)|[Hs Hj]];
    rewrite Hs; simpl.
  - right. by exists k.
  - left. split; [|done]. apply set_eq. intros i. split; [|set_solver].
    intros Hi. specialize (Hj i Hi). pose proof (rep_bound _ _ _ _ HR Hi). lia.
Qed.

Lemma size_below_S (X : gset nat) (i : nat) :
  size (X ∩ below (S i)) = size (X ∩ below i) + (if decide (i ∈ X) then 1 else 0).
Proof.
  rewrite below_S. destruct (decide (i ∈ X)) as [Hi|Hi].
  - replace (X ∩ ({[i]} ∪ below i)) with ((X ∩ below i) ∪ {[i]}) by set_solver.
    assert (Hd : X ∩ below i ## ({[i]} : gset nat)).
    { intros j [_ Hj]%elem_of_intersection ->%elem_of_singleton. apply elem_of_below in Hj. lia. }
    by rewrite (size_union _ _ Hd), size_singleton.
  - replace (X ∩ ({[i]} ∪ below i)) with (X ∩ below i) by set_solver. lia.
Qed.

Lemma singleton_loop_spec (n : nat) (X : gset nat) (b : bitset) (fuel i c : nat) (pos : Z) :
  Rep n X b -> fuel + i = n -> c = size (X ∩ below i) ->
  (c = 1 -> exists k, X ∩ below i = {[k]} /\ pos = Z.of_nat k) ->
  exists c' pos', singleton_loop b fuel i c pos = Some (c', pos') /\
    (c' = 1 -> exists k, X = {[k]} /\ pos' = Z.of_nat k) /\ (c' <> 1 -> size X <> 1).
Proof.
  intros HR. revert i c pos. induction fuel as [|fuel IH]; intros i c pos Hn Hc Hpos; simpl.
  - replace (X ∩ below i) with X in *.
    { exists c, pos. split_and!; [done|done|congruence]. }
    apply set_eq. intros j. rewrite elem_of_intersection, elem_of_below. split; [|tauto].
    intros Hj. split; [done|]. pose proof (rep_bound _ _ _ _ HR Hj). lia.
  - destruct (Nat.ltb_spec c 2) as [Hlt|Hge].
    + rewrite (bitset_test_bit_spec _ _ _ _ HR) by lia. simpl.
      pose proof (size_below_S X i) as HS.
      destruct (bool_decide (i ∈ X)) eqn:E;
        [apply bool_decide_eq_true in E|apply bool_decide_eq_false in E];
        destruct (decide (i ∈ X)); try done; apply IH; try lia.
      * intros Hc1. exists i. split; [|done]. replace c with 0 in * by lia.
        symmetry in Hc. apply size_empty_inv in Hc. rewrite below_S. set_solver.
      * intros Hc1. destruct (Hpos Hc1) as (k & Hk & ->). exists k. split; [|done].
        rewrite below_S. set_solver.
    + exists c, pos. split_and!; [done|lia|]. intros _ HX1.
      assert (size (X ∩ below i) <= size X) by (apply subseteq_size; set_solver). lia.
Qed.

Lemma bitset_test_singleton_spec (n : nat) (X : gset nat) (b : bitset) :
  Rep n X b ->
  (exists k, X = {[k]} /\ bitset_test_singleton (Some b) = Some (Z.of_nat k)) \/
  (size X <> 1 /\ bitset_test_singleton (Some b) = Some (-1)%Z).
Proof.
  intros HR. simpl. replace (nbits b) with n by (symmetry; apply HR).
  destruct (singleton_loop_spec n X b n 0 0 (-1)%Z HR) as (c & pos & -> & H1 & H2);
    [lia| |done|].
  - replace (X ∩ below 0) with (∅ : gset nat) by (cbn; set_solver). done.
  - simpl. destruct (Nat.eqb_spec c 1) as [Hc|Hc].
    + destruct (H1 Hc) as (k & -> & ->). left. by exists k.
    + right. auto.
Qed.

Lemma zero_words_empty (n : nat) (X : gset nat) (b : bitset) :
  Rep n X b -> (forall k w, bits b !! k = Some w -> w = 0%N) -> X = ∅.
Proof.
  intros (Hok & Hn & HX) H0. apply set_eq. intros i. rewrite HX. split; [|set_solver].
  intros [Hi Hb]. unfold bit in Hb. destruct (BITSET_WORD b i) as [w|] eqn:Hw; [|done].
  apply H0 in Hw. subst w. by rewrite N.bits_0 in Hb.
Qed.

Lemma clean_empty_words (n k : nat) (w : N) (b : bitset) :
  Rep n ∅ b -> Clean b -> bits b !! k = Some w -> w = 0%N.
Proof.
  intros HR Hc Hw. pose proof HR as (Hok & Hn & HX).
  apply N.bits_inj_0. intros j. destruct (N.lt_ge_cases j 64) as [Hj|Hj].
  - pose (i := k * BITSET_BITS + N.to_nat j).
    assert (Hid : i / BITSET_BITS = k).
    { unfold i, BITSET_BITS in *. rewrite Nat.div_add_l, Nat.div_small by lia. lia. }
    assert (Him : i mod BITSET_BITS = N.to_nat j).
    { unfold i, BITSET_BITS in *. rewrite Nat.add_comm, Nat.Div0.mod_add, Nat.mod_small by lia. done. }
    assert (Hb : bit b i = N.testbit w j).
    { unfold bit, BITSET_WORD. by rewrite Hid, Hw, Him, N2Nat.id. }
    rewrite <- Hb. destruct (decide (i < n)) as [Hi|Hi].
    + rewrite (rep_bit _ _ _ _ HR Hi). apply bool_decide_eq_false. set_solver.
    + apply Hc. lia.
  - apply word_lt_bits; [|done]. by eapply Forall_lookup_1 in Hw; [|apply Hok].
Qed.

(** The word-wise emptiness test is sound for every set and exact for the ones
    with a clean padding. *)
Lemma bitset_test_empty_spec (n : nat) (X : gset nat) (b : bitset) :
  Rep n X b ->
  exists r, bitset_test_empty (Some b) = Some r /\ (r = true -> X = ∅) /\
    (Clean b -> X = ∅ -> r = true).
Proof.
  intros HR. pose proof HR as (Hok & Hn & HX). simpl.
  destruct (search_up_spec (fun i => w ← bits b !! i; Some (negb (N.eqb w 0)))
    (fun i => match bits b !! i with Some w => negb (N.eqb w 0) | None => false end)
    (BITSET_USED (nbits b)) 0) as [(k & Hs & Hk & Hin & Hj)|[Hs Hj]].
  - intros k Hk. destruct (lookup_lt_is_Some_2 (bits b) k) as [w Hw].
    { rewrite (proj1 Hok). lia. }
    by rewrite Hw.
  - rewrite Hs. simpl. eexists. split; [done|]. split; [done|]. intros Hc ->.
    destruct (bits b !! k) as [w|] eqn:Hw; [|done].
    rewrite (clean_empty_words _ _ _ _ HR Hc Hw) in Hin. done.
  - rewrite Hs. simpl. eexists. split; [done|]. split; [|done]. intros _.
    apply (zero_words_empty _ _ _ HR). intros k w Hw.
    specialize (Hj k). rewrite Hw in Hj. apply lookup_lt_Some in Hw as Hlt.
    rewrite (proj1 Hok) in Hlt. specialize (Hj ltac:(lia)).
    by apply negb_false_iff, N.eqb_eq in Hj.
Qed.
