(* ===== verification/Worlds.v ===== *)
(** * Worlds: the possible-worlds semantics of a U-relation

    The abstract specification the confidence computations are measured against.
    A world assigns a range value to each variable of a world table; the variables
    are independent, so the probability of a world is the product of the
    probabilities of its assignments.  [Pr W ev] is the probability of the event
    [ev] under the world table [W], computed by enumeration. *)
From S2P Require Import Prelude.

(** A world table: each variable with its distribution (range value, probability). *)
Abbreviation dist := (list (Z * Qc)).
Abbreviation wtable := (list (Z * list (Z * Qc))).
Abbreviation world := (gmap Z Z).

Definition wsum (d : dist) (g : Z -> Qc) : Qc :=
  foldr (fun rp acc => (snd rp * g (fst rp) + acc)%Qc) 0%Qc d.

Definition mass (d : dist) : Qc := foldr (fun rp acc => (snd rp + acc)%Qc) 0%Qc d.

Fixpoint expect (W : wtable) (w : world) (f : world -> Qc) : Qc :=
  match W with
  | [] => f w
  | (x, d) :: W => wsum d (fun r => expect W (<[x := r]> w) f)
  end.

Definition ind (b : bool) : Qc := if b then 1%Qc else 0%Qc.

Definition Pr (W : wtable) (ev : world -> bool) : Qc := expect W ∅ (fun w => ind (ev w)).

(** A clause (world-set descriptor) is a conjunction of assignments, a lineage a
    disjunction of clauses. *)
Abbreviation clause := (list (Z * Z)).

Definition sat_lit (l : Z * Z) (w : world) : bool := bool_decide (w !! l.1 = Some l.2).
Definition sat_clause (c : clause) (w : world) : bool := forallb (fun l => sat_lit l w) c.
Definition sat_dnf (cs : list clause) (w : world) : bool := existsb (fun c => sat_clause c w) cs.

(** ** Well-formed distributions *)

Record dist_ok (d : dist) : Prop := {
  dist_nodup : NoDup d.*1;
  dist_nonneg : forall r p, (r, p) ∈ d -> (0 <= p)%Qc;
  dist_mass : mass d = 1%Qc }.

Record wtable_ok (W : wtable) : Prop := {
  wt_nodup : NoDup W.*1;
  wt_dist : forall x d, (x, d) ∈ W -> dist_ok d }.

(** ** Sums *)

Lemma wsum_ext (d : dist) (g h : Z -> Qc) :
  (forall r p, (r, p) ∈ d -> g r = h r) -> wsum d g = wsum d h.
Proof.
  induction d as [|[r p] d IH]; intros H; [done|]; simpl.
  rewrite (H r p) by set_solver. f_equal. apply IH. intros r' p' Hr. apply (H r' p'). set_solver.
Qed.

Lemma wsum_add (d : dist) (g h : Z -> Qc) :
  wsum d (fun r => (g r + h r)%Qc) = (wsum d g + wsum d h)%Qc.
Proof. induction d as [|[r p] d IH]; simpl; [ring|]. rewrite IH. ring. Qed.

Lemma wsum_scale (d : dist) (c : Qc) (g : Z -> Qc) :
  wsum d (fun r => (c * g r)%Qc) = (c * wsum d g)%Qc.
Proof. induction d as [|[r p] d IH]; simpl; [ring|]. rewrite IH. ring. Qed.

Lemma wsum_const (d : dist) (c : Qc) : wsum d (fun _ => c) = (mass d * c)%Qc.
Proof. induction d as [|[r p] d IH]; simpl; [ring|]. rewrite IH. ring. Qed.

Lemma wsum_mono (d : dist) (g h : Z -> Qc) :
  (forall r p, (r, p) ∈ d -> (0 <= p)%Qc /\ (g r <= h r)%Qc) -> (wsum d g <= wsum d h)%Qc.
Proof.
  induction d as [|[r p] d IH]; intros H; simpl; [apply Qcle_refl|].
  destruct (H r p) as [Hp Hg]; [set_solver|].
  assert (wsum d g <= wsum d h)%Qc by (apply IH; intros r' p' Hr; apply (H r' p'); set_solver).
  apply Qcplus_le_compat; [|done]. rewrite !(Qcmult_comm p). by apply Qcmult_le_compat_r.
Qed.

(** Exchanging two independent sums. *)
Lemma wsum_swap (d1 d2 : dist) (g : Z -> Z -> Qc) :
  wsum d1 (fun r => wsum d2 (fun s => g r s)) = wsum d2 (fun s => wsum d1 (fun r => g r s)).
Proof.
  induction d1 as [|[r p] d1 IH]; simpl.
  - by rewrite wsum_const, Qcmult_0_r.
  - rewrite IH, wsum_add. by rewrite (wsum_scale d2 p (fun s => g r s)).
Qed.

(** Only one summand of an indicator of a range value remains. *)
Lemma wsum_point (d : dist) (r : Z) (p : Qc) (g : Z -> Qc) :
  NoDup d.*1 -> (r, p) ∈ d ->
  (forall s, s <> r -> g s = 0%Qc) -> wsum d g = (p * g r)%Qc.
Proof.
  intros Hnd Hin H0. induction d as [|[s q] d IH]; [by apply elem_of_nil in Hin|]; simpl in *.
  apply NoDup_cons in Hnd as [Hs Hnd]. apply elem_of_cons in Hin as [Heq|Hin].
  - injection Heq as <- <-.
    replace (wsum d g) with 0%Qc; [ring|]. clear IH.
    assert (Hz : forall s q, (s, q) ∈ d -> g s = 0%Qc).
    { intros s q Hsq. apply H0. intros ->. apply Hs. by apply (list_elem_of_fmap_2 fst _ (r, q)). }
    rewrite (wsum_ext d g (fun _ => 0%Qc) Hz). by rewrite wsum_const, Qcmult_0_r.
  - rewrite IH by done. rewrite (H0 s); [ring|].
    intros ->. apply Hs. by apply (list_elem_of_fmap_2 fst _ (r, p)).
Qed.

(** ** Expectations *)

Lemma expect_ext (W : wtable) (w : world) (f g : world -> Qc) :
  (forall w, f w = g w) -> expect W w f = expect W w g.
Proof.
  intros H. revert w. induction W as [|[x d] W IH]; intros w; simpl; [apply H|].
  apply wsum_ext. intros; apply IH.
Qed.

Lemma expect_add (W : wtable) (w : world) (f g : world -> Qc) :
  expect W w (fun w => (f w + g w)%Qc) = (expect W w f + expect W w g)%Qc.
Proof.
  revert w. induction W as [|[x d] W IH]; intros w; simpl; [done|].
  rewrite <- wsum_add. apply wsum_ext. intros; apply IH.
Qed.

Lemma expect_scale (W : wtable) (w : world) (c : Qc) (f : world -> Qc) :
  expect W w (fun w => (c * f w)%Qc) = (c * expect W w f)%Qc.
Proof.
  revert w. induction W as [|[x d] W IH]; intros w; simpl; [done|].
  rewrite <- wsum_scale. apply wsum_ext. intros; apply IH.
Qed.

Lemma wtable_ok_cons (x : Z) (d : dist) (W : wtable) :
  wtable_ok ((x, d) :: W) -> (x ∉ W.*1) /\ dist_ok d /\ wtable_ok W.
Proof.
  intros [Hnd Hd]. simpl in Hnd. apply NoDup_cons in Hnd as [Hx Hnd].
  split_and!; [done| |split; [done|]].
  - apply (Hd x d). set_solver.
  - intros y e Hy. apply (Hd y e). set_solver.
Qed.

Lemma expect_const (W : wtable) (w : world) (c : Qc) :
  wtable_ok W -> expect W w (fun _ => c) = c.
Proof.
  revert w. induction W as [|[x d] W IH]; intros w HW; simpl; [done|].
  apply wtable_ok_cons in HW as (_ & Hd & HW).
  rewrite (wsum_ext d _ (fun _ => c)) by (intros; by apply IH).
  rewrite wsum_const, (dist_mass _ Hd). ring.
Qed.

Lemma expect_mono (W : wtable) (w : world) (f g : world -> Qc) :
  wtable_ok W -> (forall w, (f w <= g w)%Qc) -> (expect W w f <= expect W w g)%Qc.
Proof.
  intros HW H. revert w HW. induction W as [|[x d] W IH]; intros w HW; simpl; [apply H|].
  apply wtable_ok_cons in HW as (_ & Hd & HW).
  apply wsum_mono. intros r p Hr. split; [by eapply dist_nonneg|]. by apply IH.
Qed.

(** [ignores f x]: the value of [f] does not depend on variable [x]. *)
Definition ignores {A} (f : world -> A) (x : Z) : Prop :=
  forall w r, f (<[x := r]> w) = f w.

Lemma expect_ignores (W : wtable) (w : world) (f : world -> Qc) (x r : Z) :
  ignores f x -> expect W (<[x := r]> w) f = expect W w f.
Proof.
  intros Hf. revert w. induction W as [|[y d] W IH]; intros w; simpl; [apply Hf|].
  apply wsum_ext. intros s q _. destruct (decide (y = x)) as [->|Hne].
  - by rewrite insert_insert_eq.
  - by rewrite insert_insert_ne by done.
Qed.

(** Fixing a variable that the table does not draw commutes with the draw. *)
Lemma expect_fix (W : wtable) (w : world) (f : world -> Qc) (x r : Z) :
  x ∉ W.*1 -> expect W (<[x := r]> w) f = expect W w (fun w => f (<[x := r]> w)).
Proof.
  revert w. induction W as [|[y d] W IH]; intros w Hx; simpl; [done|].
  apply wsum_ext. intros s q _. simpl in Hx.
  rewrite <- IH by set_solver. rewrite insert_insert_ne; [done|]. set_solver.
Qed.

(** Shannon expansion: condition on the value of one variable. *)
Lemma expect_shannon (W : wtable) (w : world) (f : world -> Qc) (x : Z) (d : dist) :
  wtable_ok W -> (x, d) ∈ W ->
  expect W w f = wsum d (fun r => expect W w (fun w => f (<[x := r]> w))).
Proof.
  revert w. induction W as [|[y e] W IH]; intros w HW Hin; [by apply elem_of_nil in Hin|].
  apply wtable_ok_cons in HW as (Hy & He & HW). apply elem_of_cons in Hin as [Heq|Hin].
  - injection Heq as -> ->. simpl. apply wsum_ext. intros r p _.
    rewrite expect_fix by done.
    set (g := fun w0 : world => f (<[y := r]> w0)).
    assert (Hg : ignores g y) by (intros v s; unfold g; by rewrite insert_insert_eq).
    rewrite (wsum_ext e _ (fun _ => expect W w g)) by (intros; by apply expect_ignores).
    rewrite wsum_const, (dist_mass _ He). ring.
  - simpl. rewrite wsum_swap. apply wsum_ext. intros s q _. by apply IH.
Qed.

(** Independence: the expectation of a product of functions that share no
    variable of the table is the product of the expectations. *)
Lemma expect_indep (W : wtable) (w : world) (f g : world -> Qc) :
  wtable_ok W -> (forall x, x ∈ W.*1 -> ignores f x \/ ignores g x) ->
  expect W w (fun w => (f w * g w)%Qc) = (expect W w f * expect W w g)%Qc.
Proof.
  revert w. induction W as [|[x d] W IH]; intros w HW Hi; simpl; [done|].
  apply wtable_ok_cons in HW as (Hx & Hd & HW).
  rewrite (wsum_ext d _ (fun r => (expect W (<[x:=r]> w) f * expect W (<[x:=r]> w) g)%Qc)).
  2: { intros r p _. apply IH; [done|]. intros y Hy. apply Hi. simpl. set_solver. }
  destruct (Hi x) as [Hf|Hg]; [simpl; set_solver| |].
  - rewrite (wsum_ext d _ (fun r => (expect W w f * expect W (<[x:=r]> w) g)%Qc))
      by (intros; by rewrite (expect_ignores W w f)).
    rewrite (wsum_ext d (fun r => expect W (<[x:=r]> w) f) (fun _ => expect W w f))
      by (intros; by apply expect_ignores).
    rewrite wsum_scale, wsum_const, (dist_mass _ Hd). ring.
  - rewrite (wsum_ext d _ (fun r => (expect W w g * expect W (<[x:=r]> w) f)%Qc))
      by (intros; rewrite (expect_ignores W w g) by done; ring).
    rewrite (wsum_ext d (fun r => expect W (<[x:=r]> w) g) (fun _ => expect W w g))
      by (intros; by apply expect_ignores).
    rewrite wsum_scale, wsum_const, (dist_mass _ Hd). ring.
Qed.

(** ** Probabilities of events *)

Lemma ind_or (a b : bool) : ind (a || b) = (ind a + ind b - ind a * ind b)%Qc.
Proof. destruct a, b; simpl; ring. Qed.

Lemma ind_and (a b : bool) : ind (a && b) = (ind a * ind b)%Qc.
Proof. destruct a, b; simpl; ring. Qed.

Lemma ind_bounds (a : bool) : (0 <= ind a)%Qc /\ (ind a <= 1)%Qc.
Proof. destruct a; simpl; split; qc_lra. Qed.

Lemma ind_le (a b : bool) : (a = true -> b = true) -> (ind a <= ind b)%Qc.
Proof.
  destruct a, b; simpl; intros H; [|by specialize (H eq_refl)| |]; clear H; qc_lra.
Qed.

Section Probability.
Context (W : wtable) (HW : wtable_ok W).

Lemma Pr_ext (a b : world -> bool) : (forall w, a w = b w) -> Pr W a = Pr W b.
Proof. intros H. apply expect_ext. intros w. by rewrite H. Qed.

Lemma Pr_const (b : bool) : Pr W (fun _ => b) = ind b.
Proof using HW. exact (expect_const W ∅ (ind b) HW). Qed.

Lemma Pr_mono (a b : world -> bool) :
  (forall w, a w = true -> b w = true) -> (Pr W a <= Pr W b)%Qc.
Proof using HW. intros H. apply expect_mono; [done|]. intros w. apply ind_le, H. Qed.

Lemma Pr_nonneg (a : world -> bool) : (0 <= Pr W a)%Qc.
Proof using HW.
  change 0%Qc with (ind false). rewrite <- (Pr_const false). by apply Pr_mono.
Qed.

Lemma Pr_le_1 (a : world -> bool) : (Pr W a <= 1)%Qc.
Proof using HW.
  change 1%Qc with (ind true). rewrite <- (Pr_const true). by apply Pr_mono.
Qed.

Lemma Pr_and_indep (a b : world -> bool) :
  (forall x, x ∈ W.*1 -> ignores a x \/ ignores b x) ->
  Pr W (fun w => a w && b w) = (Pr W a * Pr W b)%Qc.
Proof using HW.
  intros H. unfold Pr.
  rewrite (expect_ext W _ _ (fun w => (ind (a w) * ind (b w))%Qc)) by (intros; apply ind_and).
  apply expect_indep; [done|]. intros x Hx.
  destruct (H x Hx) as [Ha|Hb]; [left|right]; intros w r; [by rewrite Ha|by rewrite Hb].
Qed.

(** Inclusion-exclusion for two events. *)
Lemma Pr_or (a b : world -> bool) :
  Pr W (fun w => a w || b w) = (Pr W a + Pr W b - Pr W (fun w => a w && b w))%Qc.
Proof.
  unfold Pr.
  rewrite (expect_ext W _ _ (fun w => (ind (a w) + ((ind (b w)) + (- (1)) * ind (a w && b w)))%Qc)).
  - rewrite !expect_add, expect_scale. ring.
  - intros w. rewrite ind_or, ind_and. ring.
Qed.

Lemma Pr_or_indep (a b : world -> bool) :
  (forall x, x ∈ W.*1 -> ignores a x \/ ignores b x) ->
  Pr W (fun w => a w || b w) = (Pr W a + Pr W b - Pr W a * Pr W b)%Qc.
Proof using HW. intros H. by rewrite Pr_or, Pr_and_indep. Qed.

(** An event that contains a certain one is certain. *)
Lemma Pr_certain (a b : world -> bool) :
  (forall w, a w = true -> b w = true) -> Pr W a = 1%Qc -> Pr W b = 1%Qc.
Proof using HW.
  intros H Ha. pose proof (Pr_mono a b H) as H1. pose proof (Pr_le_1 b) as H2.
  rewrite Ha in H1. by apply Qcle_antisym.
Qed.

Lemma Pr_shannon (ev : world -> bool) (x : Z) (d : dist) :
  (x, d) ∈ W -> Pr W ev = wsum d (fun r => Pr W (fun w => ev (<[x := r]> w))).
Proof using HW. intros H. exact (expect_shannon W ∅ (fun w => ind (ev w)) x d HW H). Qed.
End Probability.

(** ** Clauses *)

Definition lit_in (W : wtable) (x r : Z) (p : Qc) : Prop :=
  exists d, (x, d) ∈ W /\ (r, p) ∈ d.

Lemma sat_lit_insert (l : Z * Z) (w : world) (x r : Z) :
  sat_lit l (<[x := r]> w) = if decide (l.1 = x) then bool_decide (l.2 = r) else sat_lit l w.
Proof.
  unfold sat_lit. destruct (decide (l.1 = x)) as [->|Hne].
  - rewrite lookup_insert_eq. apply bool_decide_ext. naive_solver.
  - by rewrite lookup_insert_ne.
Qed.

Lemma sat_clause_insert_ne (c : clause) (w : world) (x r : Z) :
  x ∉ c.*1 -> sat_clause c (<[x := r]> w) = sat_clause c w.
Proof.
  intros Hx. unfold sat_clause. induction c as [|l c IH]; [done|]; simpl in *.
  rewrite sat_lit_insert, IH by set_solver.
  by destruct (decide (l.1 = x)); [set_solver|].
Qed.

Lemma sat_clause_ignores (c : clause) (x : Z) : x ∉ c.*1 -> ignores (sat_clause c) x.
Proof. intros Hx w r. by apply sat_clause_insert_ne. Qed.

Lemma sat_dnf_ignores (cs : list clause) (x : Z) :
  (forall c, c ∈ cs -> x ∉ c.*1) -> ignores (sat_dnf cs) x.
Proof.
  intros H w r. unfold sat_dnf. induction cs as [|c cs IH]; [done|]; simpl.
  rewrite sat_clause_insert_ne, IH; [done| |]; intros; apply H; set_solver.
Qed.

Lemma sat_dnf_true (cs : list clause) (w : world) :
  sat_dnf cs w = true <-> exists c, c ∈ cs /\ sat_clause c w = true.
Proof.
  unfold sat_dnf. rewrite existsb_exists. setoid_rewrite <- list_elem_of_In. naive_solver.
Qed.

Lemma sat_dnf_app (cs1 cs2 : list clause) (w : world) :
  sat_dnf (cs1 ++ cs2) w = sat_dnf cs1 w || sat_dnf cs2 w.
Proof. apply existsb_app. Qed.

Definition qprod (ps : list Qc) : Qc := foldr Qcmult 1%Qc ps.
#[global] Arguments qprod : simpl never.

Lemma qprod_nil : qprod [] = 1%Qc.
Proof. done. Qed.

Lemma qprod_cons (p : Qc) (l : list Qc) : qprod (p :: l) = (p * qprod l)%Qc.
Proof. done. Qed.

Lemma qprod_app (l1 l2 : list Qc) : qprod (l1 ++ l2) = (qprod l1 * qprod l2)%Qc.
Proof.
  induction l1 as [|p l1 IH]; simpl; [rewrite qprod_nil; ring|]. rewrite !qprod_cons, IH. ring.
Qed.

Lemma qprod_one (p : Qc) : qprod [p] = p.
Proof. rewrite qprod_cons, qprod_nil. ring. Qed.

(** The probability of a clause over distinct variables is the product of the
    probabilities of its assignments. *)
Lemma Pr_clause (W : wtable) (c : clause) (ps : list Qc) :
  wtable_ok W -> NoDup c.*1 -> Forall2 (fun l p => lit_in W l.1 l.2 p) c ps ->
  Pr W (sat_clause c) = qprod ps.
Proof.
  intros HW Hnd HF. induction HF as [|[x r] p c ps (d & Hd & Hr) HF IH].
  - exact (Pr_const W HW true).
  - simpl in *. apply NoDup_cons in Hnd as [Hx Hnd].
    rewrite (Pr_shannon W HW _ x d Hd), (wsum_point d r p); [ |by eapply dist_nodup, wt_dist|done| ].
    + rewrite qprod_cons, <- IH by done. f_equal. apply Pr_ext. intros w.
      unfold sat_clause; simpl. rewrite sat_lit_insert; simpl.
      destruct (decide (x = x)); [|done]. rewrite bool_decide_true by done. simpl.
      by apply sat_clause_insert_ne.
    + intros s Hs. rewrite (Pr_ext W _ (fun _ => false)); [exact (Pr_const W HW false)|].
      intros w. unfold sat_clause; simpl. rewrite sat_lit_insert; simpl.
      destruct (decide (x = x)); [|done]. by rewrite bool_decide_false.
Qed.
