(* ===== verification/LocalCond.v ===== *)
(** * LocalCond: the lineage store ([localcond.c], [localcond.h], [execnodes.h])

    The clauses (world-set descriptors) of the current group of duplicate tuples
    and the local world table built from them: the distinct variables with their
    range values and probabilities, indexed by an extendible hash table whose
    buckets are shared between several slots.

    - [HT] slots hold addresses of buckets in [mheap]: the sharing of a bucket by
      several slots is the aliasing of the C pointers.
    - A C array with a used prefix is the list of its used elements; its allocated
      size is kept in the [_max]/[_size] field, and a write beyond it is [None].
    - Pointers into the (reallocated) tables are indices. *)
From Stdlib Require Strings.String.
From S2P Require Import Prelude.

(** ** Data *)

Definition INIT_NBITS : nat := 10.
Definition WTINITSIZE : nat := 1000.
Definition RNGENTRYSIZE : nat := 3.
Definition LIST_INIT_SIZE : nat := 30.
Definition KEY_NOT_FOUND : Z := -1.
Definition RESERVED_VAR : Z := 0.
Definition RNG_FOR_RESERVED_VAR : Z := 1.
Definition RNG_FOR_RESERVED_VAR_NEGATIVE : Z := 0.
Definition INT32_MAX : Z := 2147483647.

Record rngEntry := mk_rngEntry { re_rng : Z; re_p : prob; re_count : Z }.

Record worldTableEntry := mk_wte {
  wt_var : Z;
  rng_entries : list rngEntry;
  rng_entry_max : nat;
  tau : Z;
  met : bool;
  occur_count : Z }.

Definition rng_entry_count (e : worldTableEntry) : nat := length (rng_entries e).

(** A bucket of the hash table; [ml_items] pairs keys[i] with indices[i]. *)
Record mList := mk_mList {
  ml_size : nat;
  ml_nbits : nat;
  ml_mask : Z;
  ml_items : list (Z * nat) }.

Definition ml_count (l : mList) : nat := length (ml_items l).

Record generalState := mk_state {
  wt_entries : list worldTableEntry;
  wt_entry_max : nat;
  HT : list (option nat);
  mheap : gmap nat mList;
  gs_nbits : nat;
  gs_mask : Z }.

Definition wt_entry_count (s : generalState) : nat := length (wt_entries s).

Record Map := mk_Map {
  var : Z;
  rng : Z;
  neg : Z;
  mprob : prob;
  wt_offset : nat;
  wt_entry : option nat;
  rng_offset : nat;
  rng_entry : option (nat * nat) }.

Record WSD := mk_WSD { data : list Map; wprob : prob }.

(** The file-level variables: the clause array [S] with [NUM_WSDS] used
    elements out of [current_size], and the memory context of the group. *)
Record globals := mk_globals {
  gS : option (list WSD);
  current_size : nat;
  WSD_LEN : nat;
  groupcxt : bool;
  gstate : generalState }.

Definition NUM_WSDS (g : globals) : nat :=
  match gS g with Some l => length l | None => 0 end.

Definition set_rng (m : Map) (r : Z) : Map :=
  mk_Map (var m) r (neg m) (mprob m) (wt_offset m) (wt_entry m) (rng_offset m) (rng_entry m).
Definition set_offsets (m : Map) (wo ro : nat) : Map :=
  mk_Map (var m) (rng m) (neg m) (mprob m) wo (wt_entry m) ro (rng_entry m).
Definition set_pointers (m : Map) (we : nat) (re : nat * nat) : Map :=
  mk_Map (var m) (rng m) (neg m) (mprob m) (wt_offset m) (Some we) (rng_offset m) (Some re).
Definition set_rng_entries (e : worldTableEntry) (l : list rngEntry) : worldTableEntry :=
  mk_wte (wt_var e) l (rng_entry_max e) (tau e) (met e) (occur_count e).
Definition set_wt (s : generalState) (l : list worldTableEntry) : generalState :=
  mk_state l (wt_entry_max s) (HT s) (mheap s) (gs_nbits s) (gs_mask s).

(** ** Clauses *)

Definition create_map (v r n : Z) (p : prob) : Map := mk_Map v r n p 0 None 0 None.

(** ** The hash table *)

(** [1 << nbits] is an [int]: the model stops before it overflows. *)
Definition GETMASK (n : nat) : Z := (2 ^ Z.of_nat n - 1)%Z.
Definition HASHFUNC (key mask : Z) : Z := Z.land key mask.
Definition BUCKETISFULL (l : mList) : bool := ml_count l =? ml_size l.

Definition mlist_make (n : nat) : mList := mk_mList LIST_INIT_SIZE n (GETMASK n) [].

Definition mlappend (l : mList) (key : Z) (index : nat) : option mList :=
  if ml_count l <? ml_size l
  then Some (mk_mList (ml_size l) (ml_nbits l) (ml_mask l) (ml_items l ++ [(key, index)]))
  else None.

Definition search (l : mList) (key : Z) : Z :=
  match list_find (fun ki => ki.1 = key) (ml_items l) with
  | Some (_, (_, index)) => Z.of_nat index
  | None => KEY_NOT_FOUND
  end.

(** Slot [index] of the table, and the bucket it points to. *)
Definition ht_slot (s : generalState) (index : Z) : option (option nat) := HT s !! Z.to_nat index.
Definition ht_bucket (s : generalState) (index : Z) : option (nat * mList) :=
  slot ← ht_slot s index; l ← slot; b ← mheap s !! l; Some (l, b).

Definition set_HT (s : generalState) (ht : list (option nat)) : generalState :=
  mk_state (wt_entries s) (wt_entry_max s) ht (mheap s) (gs_nbits s) (gs_mask s).
Definition set_bucket (s : generalState) (l : nat) (b : mList) : generalState :=
  mk_state (wt_entries s) (wt_entry_max s) (HT s) (<[l := b]> (mheap s)) (gs_nbits s) (gs_mask s).

(** Point every slot that agrees with [index] on the bucket's bits to the
    bucket at address [l]. *)
Definition update_buckets (s : generalState) (index : Z) (l : nat) : option generalState :=
  b ← mheap s !! l;
  let dif := gs_nbits s - ml_nbits b in
  let block_size := (GETMASK (ml_nbits b) + 1)%Z in
  let block_count := (GETMASK dif + 1)%Z in
  for_upto (Z.to_nat block_count)
    (fun i s =>
       let k := Z.to_nat (index + Z.of_nat i * block_size) in
       if k <? length (HT s) then Some (set_HT s (<[k := Some l]> (HT s))) else None) s.

Definition alloc_bucket (s : generalState) (b : mList) : nat * generalState :=
  let l := fresh (dom (mheap s)) in (l, set_bucket s l b).

Definition create_bucket (s : generalState) (index : Z) : option generalState :=
  let '(l, s) := alloc_bucket s (mlist_make INIT_NBITS) in
  update_buckets s index l.

(** Append to the bucket that slot [index] points to. *)
Definition append_at (s : generalState) (index key : Z) (i : nat) : option generalState :=
  '(l, b) ← ht_bucket s index;
  b ← mlappend b key i;
  Some (set_bucket s l b).

Definition expand_hashtable (s : generalState) : option generalState :=
  if 30 <=? gs_nbits s then None
  else Some (mk_state (wt_entries s) (wt_entry_max s) (HT s ++ HT s) (mheap s)
               (S (gs_nbits s)) (GETMASK (S (gs_nbits s)))).

Definition free_bucket (s : generalState) (l : nat) : generalState :=
  mk_state (wt_entries s) (wt_entry_max s) (HT s) (delete l (mheap s)) (gs_nbits s) (gs_mask s).

Definition distribute_elements (s : generalState) (key index : Z) : option generalState :=
  '(old, old_list) ← ht_bucket s index;
  let '(l1, s) := alloc_bucket s (mlist_make (S (ml_nbits old_list))) in
  let '(l2, s) := alloc_bucket s (mlist_make (S (ml_nbits old_list))) in
  let low_index := HASHFUNC key (ml_mask old_list) in
  let high_index := (low_index + 2 ^ Z.of_nat (ml_nbits old_list))%Z in
  s ← update_buckets s low_index l1;
  s ← update_buckets s high_index l2;
  s ← for_upto (ml_size old_list)
        (fun i s =>
           '(k, ix) ← ml_items old_list !! i;
           append_at s (HASHFUNC k (GETMASK (S (ml_nbits old_list)))) k ix) s;
  Some (free_bucket s old).

(** [while (BUCKETISFULL(...)) { if (...) expand; distribute; }]: each round
    uses one more bit of the key in the bucket of [key], so 31 rounds exceed the
    width of the mask. *)
Fixpoint make_room (fuel : nat) (s : generalState) (key : Z) : option generalState :=
  match fuel with
  | 0 => None
  | S fuel =>
      '(_, b) ← ht_bucket s (HASHFUNC key (gs_mask s));
      if BUCKETISFULL b then
        s ← (if ml_nbits b =? gs_nbits s then expand_hashtable s else Some s);
        s ← distribute_elements s key (HASHFUNC key (gs_mask s));
        make_room fuel s key
      else Some s
  end.

(** ** The local world table *)

Definition rngEntryInit (r : Z) (p : prob) (e : worldTableEntry) : option (nat * worldTableEntry) :=
  if rng_entry_count e <? rng_entry_max e then
    let l := rng_entries e ++ [mk_rngEntry r p 0] in
    let mx := if length l =? rng_entry_max e then rng_entry_max e * 2 else rng_entry_max e in
    Some (length l - 1, mk_wte (wt_var e) l mx (tau e) (met e) (occur_count e))
  else None.

Definition wtEntryInit (v : Z) (s : generalState) : option (nat * generalState) :=
  if wt_entry_count s <? wt_entry_max s then
    let l := wt_entries s ++ [mk_wte v [] RNGENTRYSIZE 0 false 0] in
    let mx := if length l =? wt_entry_max s then wt_entry_max s * 2 else wt_entry_max s in
    Some (length l - 1, mk_state l mx (HT s) (mheap s) (gs_nbits s) (gs_mask s))
  else None.

(** Step 1 of [updateWorldTable]: the index of the variable's entry. *)
Definition find_or_create_entry (s : generalState) (v : Z) : option (nat * generalState) :=
  let index := HASHFUNC v (gs_mask s) in
  slot ← ht_slot s index;
  match slot with
  | None =>
      '(wi, s) ← wtEntryInit v s;
      s ← create_bucket s index;
      s ← append_at s index v wi;
      Some (wi, s)
  | Some l =>
      b ← mheap s !! l;
      let wi := search b v in
      if (wi =? KEY_NOT_FOUND)%Z then
        '(wi, s) ← wtEntryInit v s;
        s ← make_room 31 s v;
        s ← append_at s (HASHFUNC v (gs_mask s)) v wi;
        Some (wi, s)
      else Some (Z.to_nat wi, s)
  end.

Definition updateWorldTable (s : generalState) (m : Map) : option (generalState * Map) :=
  '(wi, s) ← find_or_create_entry s (var m);
  e ← wt_entries s !! wi;
  match list_find (fun re => re_rng re = rng m) (rng_entries e) with
  | Some (i, _) => Some (s, set_offsets m wi i)
  | None =>
      '(ro, e) ← rngEntryInit (rng m) (mprob m) e;
      Some (set_wt s (<[wi := e]> (wt_entries s)), set_offsets m wi ro)
  end.

Definition genStateInit (g : globals) : globals :=
  mk_globals (Some []) 100 (WSD_LEN g) (groupcxt g)
    (mk_state [] WTINITSIZE (replicate (Z.to_nat (GETMASK INIT_NBITS + 1)) None) ∅
       INIT_NBITS (GETMASK INIT_NBITS)).

Definition reserve (m : Map) : Map :=
  mk_Map RESERVED_VAR RNG_FOR_RESERVED_VAR (neg m) 1%Qc (wt_offset m) (wt_entry m)
    (rng_offset m) (rng_entry m).

(** The two nested loops of [advance]: a map whose variable already occurs
    earlier in the clause becomes the reserved map. *)
Definition drop_duplicates (n : nat) (d : list Map) : option (list Map) :=
  for_upto (n - 1)
    (fun i d =>
       for_list (seq (S i) (n - S i))
         (fun j d =>
            mi ← d !! i; mj ← d !! j;
            if (var mi =? var mj)%Z then Some (<[j := reserve mj]> d) else Some d) d) d.

(** The last loop of [advance]: probability of the clause and world table. *)
Definition register_maps (n : nat) (s : generalState) (w : WSD) : option (generalState * WSD) :=
  for_upto n
    (fun j '(s, w) =>
       m ← data w !! j;
       '(s, m') ← updateWorldTable s m;
       Some (s, mk_WSD (<[j := m']> (data w)) (wprob w * mprob m)%Qc)) (s, w).

Definition advance (n : nat) (g : globals) (wsd : WSD) : option globals :=
  let g := match gS g with None => genStateInit g | Some _ => g end in
  let size := if current_size g - 1 <=? NUM_WSDS g then current_size g * 2 else current_size g in
  if NUM_WSDS g <? size then
    l ← gS g;
    d ← drop_duplicates n (data wsd);
    '(s, w) ← register_maps n (gstate g) (mk_WSD d (wprob wsd));
    Some (mk_globals (Some (l ++ [w])) size (WSD_LEN g) (groupcxt g) s)
  else None.

(** Sum and maximal range value of one entry. *)
Definition sum_and_max (e : worldTableEntry) (first : rngEntry) : prob * Z :=
  foldl (fun sm re => ((sm.1 + re_p re)%Qc, if (re_rng re >? sm.2)%Z then re_rng re else sm.2))
    (0%Qc, re_rng first) (rng_entries e).

Definition complete_entry (e : worldTableEntry) : option worldTableEntry :=
  first ← rng_entries e !! 0;
  let '(sum, max) := sum_and_max e first in
  if decide (Q2Qc (1 # 100) < sum - 1)%Qc then None
  else if decide (sum < 1)%Qc then
    if (max =? INT32_MAX)%Z then None
    else snd <$> rngEntryInit (max + 1) (1 - sum)%Qc e
  else Some e.

Definition getMissingRngs (s : generalState) : option generalState :=
  l ← mapM complete_entry (wt_entries s);
  Some (set_wt s l).

Definition entry_pointers (wt : list worldTableEntry) (m : Map) : option Map :=
  e ← wt !! wt_offset m;
  Some (set_pointers m (wt_offset m) (wt_offset m, rng_offset m)).

Definition computeEntryPointers (s : generalState) (l : list WSD) : option (list WSD) :=
  mapM (fun w => d ← mapM (entry_pointers (wt_entries s)) (data w); Some (mk_WSD d (wprob w))) l.

Definition reset_entry (e : worldTableEntry) : worldTableEntry :=
  set_rng_entries e ((fun re => mk_rngEntry (re_rng re) (re_p re) 0) <$> rng_entries e).

Definition resetCount (wt : list worldTableEntry) : list worldTableEntry := reset_entry <$> wt.

(** ** The transition function (macro [accum]) *)

(** The arguments of a PostgreSQL function call. *)
Inductive datum := DInt32 (z : Z) | DFloat4 (p : prob) | DVarchar (s : String.string).
Definition PG_GETARG_INT32 (args : list datum) (k : nat) : option Z :=
  d ← args !! k; match d with DInt32 z => Some z | _ => None end.
Definition PG_GETARG_FLOAT4 (args : list datum) (k : nat) : option prob :=
  d ← args !! k; match d with DFloat4 p => Some p | _ => None end.
Definition PG_GETARG_VARCHAR_PP (args : list datum) (k : nat) : option String.string :=
  d ← args !! k; match d with DVarchar s => Some s | _ => None end.

(** The condition columns: [n] triples (variable, range value, probability)
    that start after argument [narg]. *)
Definition fetch_maps (n narg : nat) (args : list datum) : option (list Map) :=
  mapM (fun j =>
          v ← PG_GETARG_INT32 args (narg + 1 + j * 3);
          r ← PG_GETARG_INT32 args (narg + 2 + j * 3);
          p ← PG_GETARG_FLOAT4 args (narg + 3 + j * 3);
          Some (create_map v r 0 p)) (seq 0 n).

Definition accum (n narg : nat) (args : list datum) (g : globals) : option globals :=
  d ← fetch_maps n narg args;
  advance n (mk_globals (gS g) (current_size g) n true (gstate g)) (mk_WSD d 1%Qc).
