(* ===== verification/HashTable.v ===== *)
(** * HashTable: the extendible hash table of [LocalCond]

    The invariant of the table of variables: slots that agree on the bits of a
    bucket share it, a bucket holds exactly the variables of its class, and every
    variable of the local world table is found through its slot.  The operations
    keep it, and [find_or_create_entry] returns the position of the variable. *)
From S2P Require Import Prelude.
From S2P Require Import LocalCond.

Definition cls (n : nat) (k : Z) : Z := (k mod 2 ^ Z.of_nat n)%Z.

Lemma HASHFUNC_cls (k : Z) (n : nat) : HASHFUNC k (GETMASK n) = cls n k.
Proof.
  unfold HASHFUNC, GETMASK, cls. rewrite <- Z.land_ones by lia. f_equal.
  rewrite Z.ones_equiv. lia.
Qed.

Lemma cls_range (n : nat) (k : Z) : (0 <= cls n k < 2 ^ Z.of_nat n)%Z.
Proof. apply Z.mod_pos_bound. lia. Qed.

Lemma cls_small (n : nat) (k : Z) : (0 <= k < 2 ^ Z.of_nat n)%Z -> cls n k = k.
Proof. apply Z.mod_small. Qed.

(** Fewer bits see less. *)
Lemma cls_cls (m n : nat) (k : Z) : m <= n -> cls m (cls n k) = cls m k.
Proof.
  intros H. unfold cls. replace (Z.of_nat n) with (Z.of_nat m + Z.of_nat (n - m))%Z by lia.
  rewrite Z.pow_add_r by lia. rewrite Z.rem_mul_r by lia.
  rewrite (Z.mul_comm _ ((k / _) mod _)), Z.mod_add, Z.mod_mod by lia. done.
Qed.

Definition slot_of (s : generalState) (v : Z) : option (option nat) :=
  ht_slot s (HASHFUNC v (gs_mask s)).

(** ** The invariant *)

(** Bucket [b] under slot [i]. *)
Record bucket_ok (s : generalState) (i : Z) (b : mList) : Prop := {
  bo_nbits : INIT_NBITS <= ml_nbits b <= gs_nbits s;
  bo_mask : ml_mask b = GETMASK (ml_nbits b);
  bo_size : ml_size b = LIST_INIT_SIZE;
  bo_count : ml_count b <= ml_size b;
  bo_nodup : NoDup (ml_items b).*1;
  bo_items : forall k x, (k, x) ∈ ml_items b ->
    cls (ml_nbits b) k = cls (ml_nbits b) i /\ exists e, wt_entries s !! x = Some e /\ wt_var e = k }.

(** The first [n] entries are registered. *)
Record ht_ok (n : nat) (s : generalState) : Prop := {
  ht_length : length (HT s) = Z.to_nat (2 ^ Z.of_nat (gs_nbits s));
  ht_mask : gs_mask s = GETMASK (gs_nbits s);
  ht_min : INIT_NBITS <= gs_nbits s;
  ht_bucket_ok : forall i l, (0 <= i)%Z -> ht_slot s i = Some (Some l) ->
    exists b, mheap s !! l = Some b /\ bucket_ok s i b;
  ht_share : forall i j l b, (0 <= i)%Z -> (0 <= j < 2 ^ Z.of_nat (gs_nbits s))%Z ->
    ht_slot s i = Some (Some l) -> mheap s !! l = Some b ->
    ht_slot s j = Some (Some l) <-> cls (ml_nbits b) j = cls (ml_nbits b) i;
  ht_null : forall i j, (0 <= i)%Z -> (0 <= j < 2 ^ Z.of_nat (gs_nbits s))%Z ->
    ht_slot s i = Some None -> cls INIT_NBITS j = cls INIT_NBITS i -> ht_slot s j = Some None;
  ht_find : forall x e, x < n -> wt_entries s !! x = Some e ->
    exists l b, slot_of s (wt_var e) = Some (Some l) /\ mheap s !! l = Some b /\
      (wt_var e, x) ∈ ml_items b }.

Lemma slot_of_cls (n : nat) (s : generalState) (v : Z) :
  ht_ok n s -> slot_of s v = ht_slot s (cls (gs_nbits s) v).
Proof. intros H. unfold slot_of. by rewrite (ht_mask n s H), HASHFUNC_cls. Qed.

Lemma slot_in_range (n : nat) (s : generalState) (i : Z) :
  ht_ok n s -> (0 <= i < 2 ^ Z.of_nat (gs_nbits s))%Z -> exists o, ht_slot s i = Some o.
Proof.
  intros H Hi. apply lookup_lt_is_Some_2. rewrite (ht_length n s H). lia.
Qed.

Lemma init_slot (g : globals) (i : Z) (o : option nat) :
  ht_slot (gstate (genStateInit g)) i = Some o -> o = None.
Proof. unfold ht_slot, genStateInit; cbn [gstate HT]. by intros (? & _)%lookup_replicate. Qed.

Lemma ht_init (g : globals) : ht_ok 0 (gstate (genStateInit g)).
Proof.
  split.
  - unfold genStateInit; cbn [gstate HT gs_nbits]. by rewrite length_replicate.
  - done.
  - done.
  - by intros i l _ ?%init_slot.
  - by intros i j l b _ _ ?%init_slot.
  - intros i j _ Hj _ _. unfold ht_slot, genStateInit; cbn [gstate HT].
    unfold genStateInit in Hj; cbn [gstate gs_nbits] in Hj.
    apply lookup_replicate. split; [done|].
    change (GETMASK INIT_NBITS + 1)%Z with (2 ^ Z.of_nat INIT_NBITS)%Z.
    revert Hj. generalize (2 ^ Z.of_nat INIT_NBITS)%Z. lia.
  - lia.
Qed.

(** Searching a bucket. *)
Lemma search_spec (b : mList) (v : Z) (x : nat) :
  NoDup (ml_items b).*1 -> (v, x) ∈ ml_items b -> search b v = Z.of_nat x.
Proof.
  intros Hnd Hin. unfold search. destruct (list_find _ _) as [[j [k y]]|] eqn:Hf.
  - apply list_find_Some in Hf as (Hj & Hk & _). simpl in Hk. subst k.
    apply list_elem_of_lookup in Hin as [i Hi].
    assert (i = j) as ->.
    { eapply (NoDup_lookup _ i j v Hnd); rewrite list_lookup_fmap; [by rewrite Hi|by rewrite Hj]. }
    congruence.
  - apply list_find_None in Hf. rewrite Forall_forall in Hf. by destruct (Hf _ Hin).
Qed.

Lemma search_none (b : mList) (v : Z) :
  search b v = KEY_NOT_FOUND -> forall x, (v, x) ∉ ml_items b.
Proof.
  unfold search. destruct (list_find _ _) as [[j [k y]]|] eqn:Hf.
  - unfold KEY_NOT_FOUND. lia.
  - intros _ x Hin. apply list_find_None in Hf. rewrite Forall_forall in Hf. by apply (Hf _ Hin).
Qed.

Lemma search_some (b : mList) (v : Z) :
  search b v <> KEY_NOT_FOUND -> exists x, (v, x) ∈ ml_items b /\ search b v = Z.of_nat x.
Proof.
  unfold search. destruct (list_find _ _) as [[j [k y]]|] eqn:Hf; [|done]. intros _.
  apply list_find_Some in Hf as (Hj & Hk & _). simpl in Hk. subst k. exists y.
  split; [by eapply list_elem_of_lookup_2|done].
Qed.

(** ** Pointing slots to a bucket *)

(** The table after the slots of class [index] were set. *)
Record repointed (s s' : generalState) (n : nat) (index : Z) (l : nat) : Prop := {
  rp_wt : wt_entries s' = wt_entries s;
  rp_max : wt_entry_max s' = wt_entry_max s;
  rp_heap : mheap s' = mheap s;
  rp_nbits : gs_nbits s' = gs_nbits s;
  rp_mask : gs_mask s' = gs_mask s;
  rp_len : length (HT s') = length (HT s);
  rp_slot : forall j, (0 <= j < 2 ^ Z.of_nat (gs_nbits s))%Z ->
    ht_slot s' j = if decide (cls n j = index) then Some (Some l) else ht_slot s j }.

Lemma pow2_split (m n : nat) : m <= n ->
  (2 ^ Z.of_nat n = 2 ^ Z.of_nat (n - m) * 2 ^ Z.of_nat m)%Z.
Proof. intros H. rewrite <- Z.pow_add_r by lia. f_equal. lia. Qed.

Lemma pow2_pos (n : nat) : (0 < 2 ^ Z.of_nat n)%Z.
Proof. apply Z.pow_pos_nonneg; lia. Qed.

(** [j] is in the class of [index] and below its [i]-th multiple. *)
Lemma class_step (n i : nat) (index j : Z) :
  (0 <= index < 2 ^ Z.of_nat n)%Z -> (0 <= j)%Z ->
  (cls n j = index /\ j < index + Z.of_nat (S i) * 2 ^ Z.of_nat n)%Z <->
  (j = index + Z.of_nat i * 2 ^ Z.of_nat n)%Z \/
  (cls n j = index /\ j < index + Z.of_nat i * 2 ^ Z.of_nat n)%Z.
Proof.
  intros Hi Hj. unfold cls. pose proof (pow2_pos n). set (B := (2 ^ Z.of_nat n)%Z) in *.
  pose proof (Z.div_mod j B ltac:(lia)). pose proof (Z.mod_pos_bound j B ltac:(lia)). split.
  - intros [Hc Hlt]. destruct (decide (j / B = Z.of_nat i)%Z); [left; nia|right; split; [done|nia]].
  - intros [-> |[Hc Hlt]]; [|split; [done|nia]]. split; [|nia].
    rewrite Z.mod_add by lia. by apply Z.mod_small.
Qed.

Lemma update_buckets_spec (s : generalState) (index : Z) (l : nat) (b : mList) :
  length (HT s) = Z.to_nat (2 ^ Z.of_nat (gs_nbits s)) ->
  mheap s !! l = Some b -> ml_nbits b <= gs_nbits s ->
  (0 <= index < 2 ^ Z.of_nat (ml_nbits b))%Z ->
  exists s', update_buckets s index l = Some s' /\ repointed s s' (ml_nbits b) index l.
Proof.
  intros Hlen Hb Hle Hidx. unfold update_buckets. rewrite Hb. cbn [mbind option_bind].
  set (n := ml_nbits b) in *. set (N := gs_nbits s) in *.
  replace (GETMASK n + 1)%Z with (2 ^ Z.of_nat n)%Z by (unfold GETMASK; lia).
  replace (GETMASK (N - n) + 1)%Z with (2 ^ Z.of_nat (N - n))%Z by (unfold GETMASK; lia).
  pose proof (pow2_split n N Hle) as Hsplit. pose proof (pow2_pos n). pose proof (pow2_pos (N - n)).
  destruct (for_upto_inv (fun i s1 => exists ht, s1 = set_HT s ht /\ length ht = length (HT s) /\
      forall j, (0 <= j < 2 ^ Z.of_nat N)%Z -> ht !! Z.to_nat j =
        if decide (cls n j = index /\ j < index + Z.of_nat i * 2 ^ Z.of_nat n)%Z
        then Some (Some l) else HT s !! Z.to_nat j)
    (Z.to_nat (2 ^ Z.of_nat (N - n)))
    (fun i s => let k := Z.to_nat (index + Z.of_nat i * 2 ^ Z.of_nat n) in
       if k <? length (HT s) then Some (set_HT s (<[k := Some l]> (HT s))) else None) s)
    as (s' & Hs' & ht & -> & Hl & Hht).
  - exists (HT s). split_and!; [by destruct s|done|]. intros j Hj.
    destruct (decide _) as [[Hc Hlt]|]; [|done]. exfalso. unfold cls in Hc.
    pose proof (Z.mod_le j (2 ^ Z.of_nat n) ltac:(lia) ltac:(lia)). lia.
  - intros i s1 Hi (ht & -> & Hl & Hht). simpl.
    assert (index + Z.of_nat i * 2 ^ Z.of_nat n < 2 ^ Z.of_nat N)%Z by nia.
    rewrite (proj2 (Nat.ltb_lt _ _)) by lia. eexists. split; [done|].
    exists (<[Z.to_nat (index + Z.of_nat i * 2 ^ Z.of_nat n) := Some l]> ht).
    split_and!; [done|by rewrite length_insert|]. intros j Hj.
    destruct (decide (j = index + Z.of_nat i * 2 ^ Z.of_nat n)%Z) as [->|Hne].
    + rewrite list_lookup_insert_eq by lia. rewrite decide_True; [done|].
      apply class_step; [done|lia|by left].
    + rewrite list_lookup_insert_ne by lia. rewrite (Hht j Hj). apply decide_ext.
      rewrite class_step by lia. tauto.
  - eexists. split; [exact Hs'|]. split; [done..|]. intros j Hj.
    change (gs_nbits s) with N in Hj. unfold ht_slot at 1.
    cbn [HT set_HT]. rewrite (Hht j Hj). apply decide_ext.
    pose proof (cls_range n j). unfold cls in *.
    pose proof (Z.div_mod j (2 ^ Z.of_nat n) ltac:(lia)).
    assert (j / 2 ^ Z.of_nat n < 2 ^ Z.of_nat (N - n))%Z by (apply Z.div_lt_upper_bound; [|rewrite Z.mul_comm, <- Hsplit]; lia).
    split; [tauto|]. intros Hc. split; [done|]. nia.
Qed.

(** ** Registering a variable *)

(** The entries may grow and change, but not their variables. *)
Record same_table (s s' : generalState) : Prop := {
  st_HT : HT s' = HT s;
  st_heap : mheap s' = mheap s;
  st_nbits : gs_nbits s' = gs_nbits s;
  st_mask : gs_mask s' = gs_mask s;
  st_vars : (wt_var <$> wt_entries s) `prefix_of` (wt_var <$> wt_entries s') }.

Lemma vars_lookup (s s' : generalState) (x : nat) (e : worldTableEntry) :
  (wt_var <$> wt_entries s) `prefix_of` (wt_var <$> wt_entries s') ->
  wt_entries s !! x = Some e -> exists e', wt_entries s' !! x = Some e' /\ wt_var e' = wt_var e.
Proof.
  intros Hp Hx. assert (Hv : (wt_var <$> wt_entries s) !! x = Some (wt_var e))
    by (by rewrite list_lookup_fmap, Hx).
  apply (prefix_lookup_Some _ _ _ _ Hv) in Hp. rewrite list_lookup_fmap in Hp.
  destruct (wt_entries s' !! x) as [e'|]; [|done]. injection Hp as Hp. by exists e'.
Qed.

Lemma bucket_ok_mono (s s' : generalState) (i : Z) (b : mList) :
  (wt_var <$> wt_entries s) `prefix_of` (wt_var <$> wt_entries s') ->
  gs_nbits s <= gs_nbits s' -> bucket_ok s i b -> bucket_ok s' i b.
Proof.
  intros Hv Hn [H1 H2 H3 H4 H5 H6]. split; [lia|done..|].
  intros k x Hin. destruct (H6 k x Hin) as (Hc & e & He & <-). split; [done|].
  by apply (vars_lookup s s').
Qed.

Lemma ht_ok_same (n : nat) (s s' : generalState) :
  same_table s s' -> n <= length (wt_entries s) -> ht_ok n s -> ht_ok n s'.
Proof.
  intros [E1 E2 E3 E4 Ev] Hn [H1 H2 H3 H4 H5 H6 H7].
  unfold slot_of, ht_slot in *. split; rewrite ?E1, ?E2, ?E3, ?E4; unfold slot_of, ht_slot;
    rewrite ?E1, ?E2, ?E3, ?E4; try done.
  - intros i l Hi Hs. destruct (H4 i l Hi Hs) as (b & Hb & Hok). exists b. split; [done|].
    apply (bucket_ok_mono s); [done|lia|done].
  - intros x e' Hx He'. destruct (lookup_lt_is_Some_2 (wt_entries s) x) as [e He]; [lia|].
    destruct (vars_lookup s s' x e Ev He) as (e2 & He2 & Hv). rewrite He2 in He'.
    injection He' as <-. rewrite Hv. by apply H7.
Qed.

Lemma ht_slot_bucket (s : generalState) (i : Z) (l : nat) (b : mList) :
  ht_slot s i = Some (Some l) -> mheap s !! l = Some b -> ht_bucket s i = Some (l, b).
Proof. intros Hs Hb. unfold ht_bucket. rewrite Hs. simpl. by rewrite Hb. Qed.

(** Appending the next entry to the bucket of its variable. *)
Lemma append_at_spec (n : nat) (s : generalState) (v : Z) (e : worldTableEntry) (l : nat) (b : mList) :
  ht_ok n s -> wt_entries s !! n = Some e -> wt_var e = v ->
  slot_of s v = Some (Some l) -> mheap s !! l = Some b ->
  (forall x, (v, x) ∉ ml_items b) -> BUCKETISFULL b = false ->
  exists s', append_at s (HASHFUNC v (gs_mask s)) v n = Some s' /\ ht_ok (S n) s' /\
    wt_entries s' = wt_entries s /\ wt_entry_max s' = wt_entry_max s /\ gs_nbits s' = gs_nbits s.
Proof.
  intros Hok He Hev Hs Hb Hnot Hfull. pose proof (cls_range (gs_nbits s) v) as Hrange.
  assert (Hsv : ht_slot s (cls (gs_nbits s) v) = Some (Some l)) by (by rewrite <- (slot_of_cls n)).
  destruct (ht_bucket_ok n s Hok _ l (proj1 Hrange) Hsv) as (b' & Hb' & Hbok).
  assert (b' = b) as -> by congruence. clear Hb'.
  unfold append_at. fold (slot_of s v) in Hs. unfold slot_of in Hs.
  rewrite (ht_slot_bucket s _ l b Hs Hb). cbn [mbind option_bind].
  unfold mlappend. unfold BUCKETISFULL in Hfull. apply Nat.eqb_neq in Hfull.
  pose proof (bo_count s _ b Hbok). rewrite (proj2 (Nat.ltb_lt _ _)) by lia. simpl.
  eexists. split; [done|]. split; [|done].
  set (b2 := mk_mList (ml_size b) (ml_nbits b) (ml_mask b) (ml_items b ++ [(v, n)])).
  assert (Hb2 : forall i, (0 <= i)%Z -> ht_slot s i = Some (Some l) -> bucket_ok s i b2).
  { intros i Hi Hsi. destruct (ht_bucket_ok n s Hok i l Hi Hsi) as (b' & Hb' & Hbi).
    assert (b' = b) as -> by congruence. destruct Hbi as [B1 B2 B3 B4 B5 B6].
    assert (Hcl : cls (ml_nbits b) v = cls (ml_nbits b) i).
    { rewrite <- (cls_cls (ml_nbits b) (gs_nbits s) v) by lia.
      by apply (ht_share n s Hok i (cls (gs_nbits s) v) l b Hi Hrange Hsi Hb). }
    split; simpl; [done..| | |].
    - unfold ml_count in *. simpl. rewrite length_app. simpl. lia.
    - rewrite fmap_app. apply NoDup_app. split_and!; [done| |apply NoDup_singleton].
      intros k ((k' & x) & -> & Hin)%list_elem_of_fmap Hk%list_elem_of_singleton.
      simpl in Hk. subst k'. by apply (Hnot x).
    - intros k x [Hin|[= -> ->]%list_elem_of_singleton]%elem_of_app; [by apply B6|].
      split; [done|]. by exists e. }
  destruct Hok as [H1 H2 H3 H4 H5 H6 H7].
  split; [done|done|done| | |done|].
  - intros i l' Hi Hsi. cbn [mheap set_bucket]. destruct (decide (l' = l)) as [->|Hne].
    + exists b2. split; [apply lookup_insert_eq|].
      apply (bucket_ok_mono s); [reflexivity|done|by apply Hb2].
    + destruct (H4 i l' Hi Hsi) as (b' & Hb' & Hbok'). exists b'.
      rewrite lookup_insert_ne by done. split; [done|].
      apply (bucket_ok_mono s); [reflexivity|done|done].
  - intros i j l' b' Hi Hj Hsi Hb'. cbn [mheap set_bucket] in Hb'.
    destruct (decide (l' = l)) as [->|Hne].
    + rewrite lookup_insert_eq in Hb'. injection Hb' as <-. simpl. by apply (H5 i j l b).
    + rewrite lookup_insert_ne in Hb' by done. by apply (H5 i j l' b').
  - intros x e' Hx He'. cbn [wt_entries set_bucket mheap] in *.
    destruct (decide (x = n)) as [->|Hne].
    + exists l, b2. assert (e' = e) as -> by congruence. rewrite Hev. split_and!; [done| |].
      * apply lookup_insert_eq.
      * simpl. apply elem_of_app. right. by apply list_elem_of_singleton.
    + destruct (H7 x e') as (l' & b' & Hs' & Hb' & Hin); [lia|done|].
      destruct (decide (l' = l)) as [->|Hnel].
      * exists l, b2. split_and!; [done|apply lookup_insert_eq|].
        simpl. apply elem_of_app. left. congruence.
      * exists l', b'. by rewrite lookup_insert_ne.
Qed.

Lemma alloc_spec (s : generalState) (b : mList) (l : nat) (s' : generalState) :
  alloc_bucket s b = (l, s') -> s' = set_bucket s l b /\ mheap s !! l = None.
Proof.
  unfold alloc_bucket. intros [= <- <-]. split; [done|].
  apply not_elem_of_dom, is_fresh.
Qed.

(** A fresh bucket for the slots of a NULL class. *)
Lemma create_bucket_spec (n : nat) (s : generalState) (i : Z) :
  ht_ok n s -> (0 <= i < 2 ^ Z.of_nat INIT_NBITS)%Z -> ht_slot s i = Some None ->
  exists s' l, create_bucket s i = Some s' /\ ht_ok n s' /\ wt_entries s' = wt_entries s /\
    wt_entry_max s' = wt_entry_max s /\ gs_nbits s' = gs_nbits s /\ gs_mask s' = gs_mask s /\
    (forall j, (0 <= j < 2 ^ Z.of_nat (gs_nbits s))%Z -> cls INIT_NBITS j = i ->
       ht_slot s' j = Some (Some l)) /\
    mheap s' !! l = Some (mlist_make INIT_NBITS).
Proof.
  intros Hok Hi Hnull. unfold create_bucket.
  destruct (alloc_bucket s (mlist_make INIT_NBITS)) as [l s1] eqn:Ha.
  destruct (alloc_spec _ _ _ _ Ha) as [-> Hfresh].
  set (b0 := mlist_make INIT_NBITS) in *.
  destruct (update_buckets_spec (set_bucket s l b0) i l b0)
    as (s' & -> & [R1 R2 R3 R4 R5 R6 R7]);
    [apply Hok|apply lookup_insert_eq|apply Hok|done|].
  cbn [wt_entries wt_entry_max mheap gs_nbits gs_mask HT set_bucket] in *.
  exists s', l. split; [done|].
  assert (Hin : forall j, (0 <= j < 2 ^ Z.of_nat (gs_nbits s))%Z -> cls INIT_NBITS j = i ->
    ht_slot s' j = Some (Some l)) by (intros j Hj Hc; rewrite R7 by done; by rewrite decide_True).
  assert (Hic : cls INIT_NBITS i = i) by (by apply cls_small).
  assert (Hrange : forall j o, (0 <= j)%Z -> ht_slot s' j = Some o -> (0 <= j < 2 ^ Z.of_nat (gs_nbits s))%Z).
  { intros j o Hj Ho. unfold ht_slot in Ho. apply lookup_lt_Some in Ho.
    rewrite R6, (ht_length n s Hok) in Ho. lia. }
  (* a slot of [s'] holds the new bucket, or is an old slot outside the class *)
  assert (Hcase : forall j o, (0 <= j)%Z -> ht_slot s' j = Some o ->
    (cls INIT_NBITS j = i /\ o = Some l) \/
    (cls INIT_NBITS j <> i /\ ht_slot s j = Some o /\ o <> Some l)).
  { intros j o Hj Ho. rewrite R7 in Ho by (by eapply Hrange).
    destruct (decide (cls (ml_nbits b0) j = i)) as [Hc|Hc].
    - left. split; [exact Hc|congruence].
    - right. split_and!; [exact Hc|exact Ho|]. intros ->.
      destruct (ht_bucket_ok n s Hok j l Hj Ho) as (b & Hb & _). congruence. }
  split; [|by rewrite R3, lookup_insert_eq].
  destruct Hok as [H1 H2 H3 H4 H5 H6 H7].
  split; [by rewrite R6, R4|by rewrite R5, R4|by rewrite R4| | | |].
  - intros j l' Hj Hs'. rewrite R3. destruct (Hcase j _ Hj Hs') as [[Hc [= ->]]|(Hc & Hsj & Hne)].
    + exists b0. split; [apply lookup_insert_eq|].
      split; simpl; try done; [rewrite R4; by split|unfold ml_count; simpl; lia|constructor|].
      by intros k x ?%elem_of_nil.
    + destruct (H4 j l' Hj Hsj) as (b & Hb & Hbok). exists b.
      rewrite lookup_insert_ne by congruence. split; [done|].
      apply (bucket_ok_mono s); [by rewrite R1|lia|done].
  - intros j j' l' b Hj Hj' Hs' Hb. rewrite R4 in Hj'. rewrite R3 in Hb.
    destruct (Hcase j _ Hj Hs') as [[Hc [= ->]]|(Hc & Hsj & Hne)].
    + rewrite lookup_insert_eq in Hb. injection Hb as <-. simpl. rewrite Hc. split.
      * intros Hs2. by destruct (Hcase j' _ (proj1 Hj') Hs2) as [[? _]|(_ & _ & ?)].
      * apply Hin, Hj'.
    + rewrite lookup_insert_ne in Hb by congruence. rewrite <- (H5 j j' l' b Hj Hj' Hsj Hb).
      split.
      * intros Hs2. by destruct (Hcase j' _ (proj1 Hj') Hs2) as [[_ ?]|(_ & ? & _)].
      * intros Hs2. rewrite R7 by done. rewrite decide_False; [done|]. intros Hc'.
        assert (Hn := H6 i j' (proj1 Hi) Hj' Hnull).
        assert (ht_slot s j' = Some None) by (apply Hn; rewrite Hic; exact Hc'). congruence.
  - intros j j' Hj Hj' Hs' Hc'. rewrite R4 in Hj'.
    destruct (Hcase j _ Hj Hs') as [[_ ?]|(Hc & Hsj & _)]; [done|].
    rewrite R7 by done. rewrite decide_False by (by change (ml_nbits b0) with INIT_NBITS; congruence).
    by apply (H6 j j').
  - intros x e Hx He. rewrite R1 in He. destruct (H7 x e Hx He) as (l' & b & Hs & Hb & Hin').
    exists l', b. assert (l' <> l) by congruence. rewrite R3, lookup_insert_ne by done.
    split_and!; [|done..]. unfold slot_of in *. rewrite R5.
    set (j := HASHFUNC (wt_var e) (gs_mask s)) in *.
    assert (Hj : (0 <= j < 2 ^ Z.of_nat (gs_nbits s))%Z)
      by (unfold j; rewrite H2, HASHFUNC_cls; apply cls_range).
    rewrite R7 by done. rewrite decide_False; [done|]. intros Hc.
    assert (ht_slot s j = Some None) by (apply (H6 i j); [apply Hi|done|done|by rewrite Hic]).
    congruence.
Qed.
