(* ===== verification/Split.v ===== *)
(** * Split: growing the hash table

    [expand_hashtable] doubles the table, [distribute_elements] splits a full
    bucket on one more bit; [make_room] repeats them until the bucket of a key has
    room, which takes at most eighteen rounds on 32-bit variables. *)
From S2P Require Import Prelude.
From S2P Require Import LocalCond.
From S2P Require Import HashTable.

(** ** Doubling *)

Lemma expand_slot (s : generalState) (n : nat) (i : Z) :
  ht_ok n s -> (0 <= i < 2 ^ Z.of_nat (S (gs_nbits s)))%Z ->
  (HT s ++ HT s) !! Z.to_nat i = ht_slot s (cls (gs_nbits s) i).
Proof.
  intros Hok Hi. unfold ht_slot, cls. pose proof (ht_length n s Hok) as Hlen.
  pose proof (pow2_pos (gs_nbits s)).
  replace (2 ^ Z.of_nat (S (gs_nbits s)))%Z with (2 * 2 ^ Z.of_nat (gs_nbits s))%Z in Hi
    by (rewrite Nat2Z.inj_succ, Z.pow_succ_r by lia; done).
  destruct (Z.lt_ge_cases i (2 ^ Z.of_nat (gs_nbits s))).
  - rewrite Z.mod_small by lia. apply lookup_app_l. lia.
  - rewrite lookup_app_r by lia. f_equal. rewrite Hlen.
    rewrite (Z.mod_eq i) by lia.
    replace (i / 2 ^ Z.of_nat (gs_nbits s))%Z with 1%Z; [lia|].
    apply Z.div_unique with (i - 2 ^ Z.of_nat (gs_nbits s))%Z; lia.
Qed.

Lemma expand_spec (s : generalState) (n : nat) :
  ht_ok n s -> gs_nbits s < 30 ->
  exists s', expand_hashtable s = Some s' /\ ht_ok n s' /\ gs_nbits s' = S (gs_nbits s) /\
    wt_entries s' = wt_entries s /\ wt_entry_max s' = wt_entry_max s /\ mheap s' = mheap s /\
    forall i, (0 <= i < 2 ^ Z.of_nat (S (gs_nbits s)))%Z -> ht_slot s' i = ht_slot s (cls (gs_nbits s) i).
Proof.
  intros Hok Hlt. unfold expand_hashtable. rewrite (proj2 (Nat.leb_gt _ _)) by lia.
  eexists. split; [done|].
  set (s' := mk_state _ _ _ _ _ _).
  assert (Hslot : forall i, (0 <= i < 2 ^ Z.of_nat (S (gs_nbits s)))%Z ->
    ht_slot s' i = ht_slot s (cls (gs_nbits s) i)) by (intros i Hi; by apply (expand_slot s n)).
  split; [|done].
  assert (Hrange : forall i o, (0 <= i)%Z -> ht_slot s' i = Some o -> (0 <= i < 2 ^ Z.of_nat (S (gs_nbits s)))%Z).
  { intros i o Hi Ho. unfold ht_slot in Ho. apply lookup_lt_Some in Ho. unfold s' in Ho.
    cbn [HT] in Ho. rewrite length_app, (ht_length n s Hok) in Ho.
    rewrite Nat2Z.inj_succ, Z.pow_succ_r by lia. lia. }
  destruct Hok as [H1 H2 H3 H4 H5 H6 H7].
  assert (Hcr := fun i => cls_range (gs_nbits s) i).
  split.
  - unfold s'; cbn [HT gs_nbits]. rewrite length_app, H1, Nat2Z.inj_succ, Z.pow_succ_r by lia. lia.
  - done.
  - unfold s'; cbn [gs_nbits]. lia.
  - intros i l Hi Hs. pose proof (Hrange i _ Hi Hs) as Hr. rewrite (Hslot i Hr) in Hs.
    destruct (H4 _ l (proj1 (Hcr i)) Hs) as (b & Hb & [B1 B2 B3 B4 B5 B6]). exists b. split; [done|].
    split; [unfold s'; cbn [gs_nbits]; lia|done..|].
    intros k x Hin. destruct (B6 k x Hin) as [Hc He]. split; [|done].
    rewrite Hc. apply cls_cls. lia.
  - intros i j l b Hi Hj Hs Hb. pose proof (Hrange i _ Hi Hs) as Hr. rewrite (Hslot i Hr) in Hs.
    change (gs_nbits s') with (S (gs_nbits s)) in Hj. rewrite (Hslot j Hj).
    rewrite (H5 _ (cls (gs_nbits s) j) l b (proj1 (Hcr i)) (Hcr j) Hs Hb).
    destruct (H4 _ l (proj1 (Hcr i)) Hs) as (b' & Hb' & Hbo).
    assert (b' = b) as -> by (unfold s' in Hb; cbn [mheap] in Hb; congruence).
    rewrite !cls_cls by apply Hbo. done.
  - intros i j Hi Hj Hs Hc. pose proof (Hrange i _ Hi Hs) as Hr. rewrite (Hslot i Hr) in Hs.
    change (gs_nbits s') with (S (gs_nbits s)) in Hj. rewrite (Hslot j Hj).
    apply (H6 _ _ (proj1 (Hcr i)) (Hcr j) Hs). by rewrite !cls_cls by done.
  - intros x e Hx He. destruct (H7 x e Hx He) as (l & b & Hs & Hb & Hin). exists l, b.
    split_and!; [|done..]. unfold slot_of. unfold s' at 2; cbn [gs_mask].
    rewrite HASHFUNC_cls. rewrite Hslot by apply cls_range. rewrite cls_cls by lia.
    unfold slot_of in Hs. rewrite H2, HASHFUNC_cls in Hs. done.
Qed.

(** ** Splitting one bucket *)

Definition half (n : nat) (c : Z) (items : list (Z * nat)) : list (Z * nat) :=
  filter (fun kx => cls n kx.1 = c) items.

Lemma low_high (n : nat) (k c : Z) :
  cls n k = c -> cls (S n) k = c \/ cls (S n) k = (c + 2 ^ Z.of_nat n)%Z.
Proof.
  unfold cls. intros <-. pose proof (pow2_pos n).
  replace (2 ^ Z.of_nat (S n))%Z with (2 ^ Z.of_nat n * 2)%Z
    by (rewrite Nat2Z.inj_succ, Z.pow_succ_r by lia; lia).
  rewrite Z.rem_mul_r by lia.
  pose proof (Z.mod_pos_bound (k / 2 ^ Z.of_nat n) 2 ltac:(lia)).
  assert ((k / 2 ^ Z.of_nat n) mod 2 = 0 \/ (k / 2 ^ Z.of_nat n) mod 2 = 1)%Z as [-> | ->] by lia;
    [left|right]; lia.
Qed.

(** The state after a split: the two new buckets and the repointed slots. *)
Record split_state (s s' : generalState) (old l1 l2 : nat) (b : mList) (c : Z) : Prop := {
  ss_wt : wt_entries s' = wt_entries s;
  ss_max : wt_entry_max s' = wt_entry_max s;
  ss_nbits : gs_nbits s' = gs_nbits s;
  ss_mask : gs_mask s' = gs_mask s;
  ss_len : length (HT s') = length (HT s);
  ss_slot : forall j, (0 <= j < 2 ^ Z.of_nat (gs_nbits s))%Z ->
    ht_slot s' j = if decide (cls (S (ml_nbits b)) j = c) then Some (Some l1)
      else if decide (cls (S (ml_nbits b)) j = c + 2 ^ Z.of_nat (ml_nbits b))%Z
      then Some (Some l2) else ht_slot s j;
  ss_fresh : l1 <> l2 /\ mheap s !! l1 = None /\ mheap s !! l2 = None;
  ss_heap : mheap s' = delete old
    (<[l1 := mk_mList LIST_INIT_SIZE (S (ml_nbits b)) (GETMASK (S (ml_nbits b)))
               (half (S (ml_nbits b)) c (ml_items b))]>
    (<[l2 := mk_mList LIST_INIT_SIZE (S (ml_nbits b)) (GETMASK (S (ml_nbits b)))
               (half (S (ml_nbits b)) (c + 2 ^ Z.of_nat (ml_nbits b)) (ml_items b))]> (mheap s))) }.

Lemma half_snoc (n : nat) (c k : Z) (x : nat) (items : list (Z * nat)) :
  half n c (items ++ [(k, x)]) = half n c items ++ (if decide (cls n k = c) then [(k, x)] else []).
Proof. unfold half. rewrite filter_app, filter_cons. simpl. by destruct (decide _). Qed.

Lemma half_length (n : nat) (c : Z) (items : list (Z * nat)) : length (half n c items) <= length items.
Proof. apply length_filter. Qed.

(** One step of the redistribution loop. *)
Lemma append_heap (s : generalState) (i k : Z) (x l : nat) (b : mList) :
  ht_slot s i = Some (Some l) -> mheap s !! l = Some b -> ml_count b < ml_size b ->
  append_at s i k x = Some (set_bucket s l
    (mk_mList (ml_size b) (ml_nbits b) (ml_mask b) (ml_items b ++ [(k, x)]))).
Proof.
  intros Hs Hb Hc. unfold append_at. rewrite (ht_slot_bucket s i l b Hs Hb). simpl.
  unfold mlappend. by rewrite (proj2 (Nat.ltb_lt _ _)).
Qed.

(** The state during the loop, after the items [done] were moved. *)
Definition moved (s1 : generalState) (h : gmap nat mList) (n : nat) (c : Z) (l1 l2 : nat)
    (its : list (Z * nat)) : generalState :=
  mk_state (wt_entries s1) (wt_entry_max s1) (HT s1)
    (<[l1 := mk_mList LIST_INIT_SIZE (S n) (GETMASK (S n)) (half (S n) c its)]>
     (<[l2 := mk_mList LIST_INIT_SIZE (S n) (GETMASK (S n)) (half (S n) (c + 2 ^ Z.of_nat n) its)]> h))
    (gs_nbits s1) (gs_mask s1).

Lemma move_step (s1 : generalState) (h : gmap nat mList) (n : nat) (c : Z) (l1 l2 : nat)
    (its : list (Z * nat)) (k : Z) (x : nat) :
  (forall j, (0 <= j < 2 ^ Z.of_nat (S n))%Z -> j = c -> ht_slot s1 j = Some (Some l1)) ->
  (forall j, (0 <= j < 2 ^ Z.of_nat (S n))%Z -> j = (c + 2 ^ Z.of_nat n)%Z ->
     ht_slot s1 j = Some (Some l2)) ->
  l1 <> l2 -> cls n k = c -> length its < LIST_INIT_SIZE ->
  append_at (moved s1 h n c l1 l2 its) (HASHFUNC k (GETMASK (S n))) k x =
    Some (moved s1 h n c l1 l2 (its ++ [(k, x)])).
Proof.
  intros H1 H2 Hne Hk Hlen. rewrite HASHFUNC_cls. pose proof (cls_range (S n) k) as Hr.
  pose proof (half_length (S n) c its). pose proof (half_length (S n) (c + 2 ^ Z.of_nat n) its).
  pose proof (pow2_pos n).
  destruct (low_high n k c Hk) as [Hc|Hc].
  - rewrite (append_heap (moved s1 h n c l1 l2 its) (cls (S n) k) k x l1 _ (H1 _ Hr Hc)
      (lookup_insert_eq _ _ _)) by (unfold ml_count; simpl; lia).
    unfold moved, set_bucket; simpl. rewrite insert_insert_eq, !half_snoc.
    rewrite decide_True by done. rewrite decide_False by lia. by rewrite app_nil_r.
  - rewrite (append_heap (moved s1 h n c l1 l2 its) (cls (S n) k) k x l2
      (mk_mList LIST_INIT_SIZE (S n) (GETMASK (S n)) (half (S n) (c + 2 ^ Z.of_nat n) its)));
      [|by apply H2|unfold moved; simpl; rewrite lookup_insert_ne by done; apply lookup_insert_eq
       |unfold ml_count; simpl; lia].
    unfold moved, set_bucket; simpl. rewrite insert_insert_ne by done.
    rewrite insert_insert_eq, !half_snoc.
    rewrite (decide_False (P := cls (S n) k = c)) by lia. rewrite decide_True by done.
    by rewrite app_nil_r.
Qed.

Lemma distribute_spec (s : generalState) (n : nat) (key : Z) (old : nat) (b : mList) :
  ht_ok n s -> slot_of s key = Some (Some old) -> mheap s !! old = Some b ->
  BUCKETISFULL b = true -> ml_nbits b < gs_nbits s ->
  exists s' l1 l2, distribute_elements s key (HASHFUNC key (gs_mask s)) = Some s' /\
    split_state s s' old l1 l2 b (cls (ml_nbits b) key).
Proof.
  intros Hok Hs Hb Hfull Hlt. set (c := cls (ml_nbits b) key). set (nb := ml_nbits b) in *.
  pose proof (cls_range nb key) as Hc. fold c in Hc. pose proof (pow2_pos nb).
  assert (HS : (2 ^ Z.of_nat (S nb) = 2 * 2 ^ Z.of_nat nb)%Z)
    by (rewrite Nat2Z.inj_succ, Z.pow_succ_r by lia; done).
  pose proof Hs as Hs0. rewrite (slot_of_cls n) in Hs0 by done.
  destruct (ht_bucket_ok n s Hok _ old (proj1 (cls_range _ _)) Hs0) as (b' & Hb' & Hbo).
  assert (b' = b) as -> by congruence.
  unfold distribute_elements. unfold slot_of in Hs. rewrite (ht_slot_bucket s _ old b Hs Hb).
  cbn [mbind option_bind]. fold nb.
  destruct (alloc_bucket s (mlist_make (S nb))) as [l1 s1] eqn:Ha1.
  destruct (alloc_spec _ _ _ _ Ha1) as [-> Hf1].
  destruct (alloc_bucket (set_bucket s l1 (mlist_make (S nb))) (mlist_make (S nb)))
    as [l2 s2] eqn:Ha2.
  destruct (alloc_spec _ _ _ _ Ha2) as [-> Hf2]. cbn [mheap set_bucket] in Hf2.
  assert (Hne : l1 <> l2) by (intros ->; by rewrite lookup_insert_eq in Hf2).
  rewrite lookup_insert_ne in Hf2 by done.
  rewrite (bo_mask s _ b Hbo). fold nb. rewrite HASHFUNC_cls. fold c.
  set (s2 := set_bucket (set_bucket s l1 _) l2 _).
  destruct (update_buckets_spec s2 c l1 (mlist_make (S nb))) as (s3 & -> & [P1 P2 P3 P4 P5 P6 P7]);
    [apply Hok|unfold s2; simpl; rewrite lookup_insert_ne by done; apply lookup_insert_eq
    |exact Hlt|change (ml_nbits (mlist_make (S nb))) with (S nb); lia|].
  cbn [mbind option_bind].
  destruct (update_buckets_spec s3 (c + 2 ^ Z.of_nat nb) l2 (mlist_make (S nb)))
    as (s4 & -> & [Q1 Q2 Q3 Q4 Q5 Q6 Q7]);
    [rewrite P6, P4; apply Hok|rewrite P3; apply lookup_insert_eq|rewrite P4; exact Hlt
    |change (ml_nbits (mlist_make (S nb))) with (S nb); lia|].
  cbn [mbind option_bind].
  unfold s2 in P1, P2, P3, P4, P5, P6, P7.
  cbn [wt_entries wt_entry_max mheap gs_nbits gs_mask HT set_bucket] in P1, P2, P3, P4, P5, P6, P7.
  change (ml_nbits (mlist_make (S nb))) with (S nb) in P7, Q7.
  rewrite P4 in Q7.
  assert (Hslot : forall j, (0 <= j < 2 ^ Z.of_nat (gs_nbits s))%Z ->
    ht_slot s4 j = if decide (cls (S nb) j = c) then Some (Some l1)
      else if decide (cls (S nb) j = c + 2 ^ Z.of_nat nb)%Z then Some (Some l2) else ht_slot s j).
  { intros j Hj. rewrite Q7, P7 by done.
    destruct (decide (cls (S nb) j = c)); destruct (decide (cls (S nb) j = (c + 2 ^ Z.of_nat nb)%Z));
      [lia|done..]. }
  assert (Hin : forall j, (0 <= j < 2 ^ Z.of_nat (S nb))%Z -> (0 <= j < 2 ^ Z.of_nat (gs_nbits s))%Z).
  { intros j Hj. pose proof (Z.pow_le_mono_r 2 (Z.of_nat (S nb)) (Z.of_nat (gs_nbits s))). lia. }
  destruct (for_upto_inv (fun i st => st = moved s4 (mheap s) nb c l1 l2 (take i (ml_items b)))
    (ml_size b)
    (fun i s => '(k, ix) ← ml_items b !! i; append_at s (HASHFUNC k (GETMASK (S nb))) k ix) s4)
    as (s5 & -> & ->).
  - simpl. unfold moved. destruct s4; simpl in *. f_equal.
    rewrite Q3, P3. by rewrite insert_insert_ne.
  - intros i st Hi ->. unfold BUCKETISFULL in Hfull. apply Nat.eqb_eq in Hfull.
    unfold ml_count in Hfull. destruct (lookup_lt_is_Some_2 (ml_items b) i) as [[k x] Hkx]; [lia|].
    rewrite Hkx. cbn [mbind option_bind].
    destruct (bo_items s _ b Hbo k x (list_elem_of_lookup_2 _ _ _ Hkx)) as [Hk _].
    fold nb in Hk. rewrite cls_cls in Hk by lia. fold c in Hk.
    eexists. split; [apply move_step|by rewrite (take_S_r _ _ _ Hkx)].
    + intros j Hj ->. rewrite Hslot by (by apply Hin). by rewrite decide_True by (by apply cls_small).
    + intros j Hj ->. rewrite Hslot by (by apply Hin). rewrite (cls_small (S nb)) by done.
      rewrite decide_False by lia. by rewrite decide_True.
    + done.
    + done.
    + rewrite length_take. rewrite (bo_size s _ b Hbo) in Hi. lia.
  - cbn [mbind option_bind]. eexists _, l1, l2. split; [done|].
    split; unfold free_bucket, moved; cbn [wt_entries wt_entry_max mheap gs_nbits gs_mask HT];
      [by rewrite Q1|by rewrite Q2|by rewrite Q4|by rewrite Q5, P5|by rewrite Q6|exact Hslot|done|].
    fold nb. unfold BUCKETISFULL in Hfull. apply Nat.eqb_eq in Hfull. unfold ml_count in Hfull.
    rewrite take_ge by lia. done.
Qed.

Lemma elem_of_half (n : nat) (c : Z) (items : list (Z * nat)) (k : Z) (x : nat) :
  (k, x) ∈ half n c items <-> cls n k = c /\ (k, x) ∈ items.
Proof. unfold half. by rewrite list_elem_of_filter. Qed.

Lemma half_nodup (n : nat) (c : Z) (items : list (Z * nat)) :
  NoDup items.*1 -> NoDup (half n c items).*1.
Proof.
  unfold half. induction items as [|[k x] l IH]; csimpl; [done|]. intros [Hk Hnd]%NoDup_cons.
  rewrite filter_cons. destruct (decide _); csimpl; [|auto].
  apply NoDup_cons. split; [|auto]. intros ([k' y] & -> & Hin)%list_elem_of_fmap.
  apply Hk, list_elem_of_fmap. apply list_elem_of_filter in Hin as [_ Hin]. by exists (k', y).
Qed.

Section SplitOk.
Context (s s' : generalState) (n : nat) (key : Z) (old l1 l2 : nat) (b : mList).
Context (Hok : ht_ok n s) (Hold : slot_of s key = Some (Some old)).
Context (Hb : mheap s !! old = Some b) (Hlt : ml_nbits b < gs_nbits s).
Let nb := ml_nbits b.
Let c := cls nb key.
Let b1 := mk_mList LIST_INIT_SIZE (S nb) (GETMASK (S nb)) (half (S nb) c (ml_items b)).
Let b2 := mk_mList LIST_INIT_SIZE (S nb) (GETMASK (S nb))
            (half (S nb) (c + 2 ^ Z.of_nat nb) (ml_items b)).
Context (HS : split_state s s' old l1 l2 b c).

Lemma old_slot : ht_slot s (cls (gs_nbits s) key) = Some (Some old).
Proof using Hok Hold. by rewrite <- (slot_of_cls n). Qed.

Lemma old_bucket : bucket_ok s (cls (gs_nbits s) key) b.
Proof using Hok Hold Hb.
  destruct (ht_bucket_ok n s Hok _ old (proj1 (cls_range _ _)) old_slot) as (b' & Hb' & H).
  congruence.
Qed.

Lemma old_class (j : Z) :
  (0 <= j < 2 ^ Z.of_nat (gs_nbits s))%Z -> ht_slot s j = Some (Some old) <-> cls nb j = c.
Proof using Hok Hold Hb.
  intros Hj. rewrite (ht_share n s Hok _ j old b (proj1 (cls_range _ _)) Hj old_slot Hb).
  unfold c. rewrite cls_cls; [done|]. apply old_bucket.
Qed.

Lemma heap_new (l : nat) :
  mheap s' !! l =
    if decide (l = l1) then Some b1 else if decide (l = l2) then Some b2
    else if decide (l = old) then None else mheap s !! l.
Proof using Hb HS.
  destruct HS as [_ _ _ _ _ _ (Hne & Hf1 & Hf2) ->].
  destruct (decide (l = l1)) as [->|H1].
  { rewrite lookup_delete_ne by congruence. apply lookup_insert_eq. }
  destruct (decide (l = l2)) as [->|H2].
  { rewrite lookup_delete_ne, lookup_insert_ne by congruence. apply lookup_insert_eq. }
  destruct (decide (l = old)) as [->|H3]; [apply lookup_delete_eq|].
  by rewrite lookup_delete_ne, !lookup_insert_ne by congruence.
Qed.

(** The slots after the split, by class. *)
Lemma slot_cases (j : Z) (o : option nat) :
  (0 <= j)%Z -> ht_slot s' j = Some o ->
  (0 <= j < 2 ^ Z.of_nat (gs_nbits s))%Z /\
  ((cls (S nb) j = c /\ o = Some l1) \/
   (cls (S nb) j = (c + 2 ^ Z.of_nat nb)%Z /\ o = Some l2) \/
   (cls nb j <> c /\ ht_slot s j = Some o /\ o <> Some l1 /\ o <> Some l2 /\ o <> Some old)).
Proof using Hok Hold Hb HS.
  clear Hlt. intros Hj Ho.
  assert (Hr : (0 <= j < 2 ^ Z.of_nat (gs_nbits s))%Z).
  { unfold ht_slot in Ho. apply lookup_lt_Some in Ho.
    rewrite (ss_len _ _ _ _ _ _ _ HS), (ht_length n s Hok) in Ho. lia. }
  split; [done|]. rewrite (ss_slot _ _ _ _ _ _ _ HS j Hr) in Ho. fold nb in Ho.
  destruct (decide (cls (S nb) j = c)) as [H1|H1]; [left; split; congruence|].
  destruct (decide (cls (S nb) j = (c + 2 ^ Z.of_nat nb)%Z)) as [H2|H2];
    [right; left; split; congruence|]. right; right.
  assert (Hc : cls nb j <> c) by (intros Hc; by destruct (low_high nb j c Hc)).
  split; [done|]. split; [done|].
  destruct (ss_fresh _ _ _ _ _ _ _ HS) as (_ & Hf1 & Hf2).
  split_and!; intros ->; [| |by apply Hc, (old_class j Hr)];
    destruct (ht_bucket_ok n s Hok j _ Hj Ho) as (b' & Hb' & _); congruence.
Qed.

Lemma new_class (j : Z) :
  cls (S nb) j = c \/ cls (S nb) j = (c + 2 ^ Z.of_nat nb)%Z -> cls nb j = c.
Proof using Type.
  clear HS Hlt Hb Hold Hok. rewrite <- (cls_cls nb (S nb) j) by lia. intros [-> | ->].
  - unfold c. by rewrite cls_cls.
  - unfold cls at 1. replace (c + 2 ^ Z.of_nat nb)%Z with (c + 1 * 2 ^ Z.of_nat nb)%Z by lia.
    rewrite Z.mod_add by (pose proof (pow2_pos nb); lia). fold (cls nb c). unfold c. by rewrite cls_cls.
Qed.

Lemma half_ok (j x : Z) :
  cls (S nb) j = x -> cls nb j = c ->
  bucket_ok s' j (mk_mList LIST_INIT_SIZE (S nb) (GETMASK (S nb)) (half (S nb) x (ml_items b))).
Proof using Hok Hold Hb Hlt HS.
  intros Hj Hc. destruct old_bucket as [B1 B2 B3 B4 B5 B6].
  split; unfold ml_count; cbn [ml_nbits ml_mask ml_size ml_items].
  - rewrite (ss_nbits _ _ _ _ _ _ _ HS). fold nb in B1, Hlt. lia.
  - done.
  - done.
  - pose proof (half_length (S nb) x (ml_items b)). unfold ml_count in B4. lia.
  - by apply half_nodup.
  - intros k y [Hk Hin]%elem_of_half. rewrite Hk, Hj. split; [done|].
    rewrite (ss_wt _ _ _ _ _ _ _ HS). by destruct (B6 k y Hin).
Qed.

Lemma split_ok : ht_ok n s'.
Proof using All.
  assert (Hhe := heap_new). assert (Hsc := slot_cases). assert (Hnc := new_class).
  assert (Hoc := old_class). assert (Hho := half_ok).
  pose proof (ss_fresh _ _ _ _ _ _ _ HS) as (Hne & Hf1 & Hf2).
  pose proof (ss_slot _ _ _ _ _ _ _ HS) as Hsl. fold nb in Hsl.
  pose proof (pow2_pos nb) as Hpos.
  pose proof (old_bucket) as Hob.
  assert (Hnb : INIT_NBITS <= nb) by apply Hob.
  destruct Hok as [H1 H2 H3 H4 H5 H6 H7].
  split; rewrite ?(ss_nbits _ _ _ _ _ _ _ HS), ?(ss_mask _ _ _ _ _ _ _ HS),
    ?(ss_len _ _ _ _ _ _ _ HS); try done.
  - intros i l Hi Hs. rewrite Hhe.
    destruct (Hsc i _ Hi Hs) as [Hr [[Hc [= ->]]|[[Hc [= ->]]|(Hc & Hso & N1 & N2 & N3)]]].
    + rewrite decide_True by done. exists b1. split; [done|]. by apply Hho; [|apply Hnc; left].
    + rewrite decide_False, decide_True by done. exists b2. split; [done|].
      by apply Hho; [|apply Hnc; right].
    + rewrite !decide_False by congruence. destruct (H4 i l Hi Hso) as (b' & Hb' & Hbo).
      exists b'. split; [done|]. apply (bucket_ok_mono s); [|by rewrite (ss_nbits _ _ _ _ _ _ _ HS)|done].
      by rewrite (ss_wt _ _ _ _ _ _ _ HS).
  - intros i j l b' Hi Hj Hs Hl. rewrite Hhe in Hl.
    destruct (Hsc i _ Hi Hs) as [Hr [[Hc [= ->]]|[[Hc [= ->]]|(Hc & Hso & N1 & N2 & N3)]]].
    + rewrite decide_True in Hl by done. injection Hl as <-. cbn [ml_nbits b1]. rewrite Hc. split.
      * intros Hs2. destruct (Hsc j _ (proj1 Hj) Hs2) as [_ [[? _]|[[_ ?]|(_ & _ & ? & _)]]];
          [done|congruence|done].
      * intros Hcj. rewrite Hsl by done. by rewrite decide_True.
    + rewrite decide_False, decide_True in Hl by done. injection Hl as <-. cbn [ml_nbits b2].
      rewrite Hc. split.
      * intros Hs2. destruct (Hsc j _ (proj1 Hj) Hs2) as [_ [[_ ?]|[[? _]|(_ & _ & _ & ? & _)]]];
          [congruence|done|done].
      * intros Hcj. rewrite Hsl by done. rewrite decide_False by (rewrite Hcj; lia).
        by rewrite decide_True.
    + rewrite !decide_False in Hl by congruence. rewrite <- (H5 i j l b' Hi Hj Hso Hl). split.
      * intros Hs2. destruct (Hsc j _ (proj1 Hj) Hs2) as [_ [[_ ?]|[[_ ?]|(_ & ? & _)]]];
          [congruence|congruence|done].
      * intros Hs2. rewrite Hsl by done.
        assert (cls nb j <> c) by (rewrite <- (Hoc j Hj); congruence).
        rewrite !decide_False; [done|intros Hx; by apply H, Hnc; right|intros Hx; by apply H, Hnc; left].
  - intros i j Hi Hj Hs Hc.
    destruct (Hsc i _ Hi Hs) as [Hr [[_ ?]|[[_ ?]|(Hci & Hso & _)]]]; [done..|].
    assert (Hj2 := H6 i j Hi Hj Hso Hc).
    assert (cls nb j <> c) by (rewrite <- (Hoc j Hj); congruence).
    rewrite Hsl by done.
    rewrite !decide_False; [done|intros Hx; by apply H, Hnc; right|intros Hx; by apply H, Hnc; left].
  - intros x e Hx He. rewrite (ss_wt _ _ _ _ _ _ _ HS) in He.
    destruct (H7 x e Hx He) as (l & b' & Hs & Hb' & Hin). unfold slot_of in *.
    rewrite (ss_mask _ _ _ _ _ _ _ HS), H2, HASHFUNC_cls in *.
    set (j := cls (gs_nbits s) (wt_var e)) in *.
    assert (Hj : (0 <= j < 2 ^ Z.of_nat (gs_nbits s))%Z) by apply cls_range.
    rewrite Hsl by done. destruct (decide (l = old)) as [->|Hnl].
    + assert (b' = b) as -> by congruence. pose proof Hs as Hcj. rewrite (Hoc j Hj) in Hcj.
      assert (Hjj : cls (S nb) (wt_var e) = cls (S nb) j).
      { unfold j. rewrite cls_cls; [done|]. exact Hlt. }
      destruct (low_high nb j c Hcj) as [Hx1|Hx1]; rewrite Hx1.
      * rewrite decide_True by done. exists l1, b1. rewrite Hhe, decide_True by done.
        split_and!; [done..|]. apply elem_of_half. by rewrite Hjj.
      * rewrite decide_False by lia. rewrite decide_True by done. exists l2, b2.
        rewrite Hhe, decide_False, decide_True by done.
        split_and!; [done..|]. apply elem_of_half. by rewrite Hjj.
    + assert (cls nb j <> c) by (rewrite <- (Hoc j Hj); congruence).
      rewrite !decide_False; [|intros Hx1; by apply H, Hnc; right|intros Hx1; by apply H, Hnc; left].
      exists l, b'. rewrite Hhe, !decide_False by congruence. done.
Qed.
End SplitOk.

(** ** Termination *)

Definition int32 (z : Z) : Prop := (- 2 ^ 31 <= z < 2 ^ 31)%Z.

(** At most [2 ^ (32 - n)] values of 32 bits agree on the low [n] bits. *)
Lemma class_size (n : nat) (c : Z) (ks : list Z) :
  n <= 32 -> NoDup ks -> Forall int32 ks -> Forall (fun k => cls n k = c) ks ->
  length ks <= Z.to_nat (2 ^ Z.of_nat (32 - n)).
Proof.
  intros Hn Hnd H32 Hc. pose proof (pow2_pos n) as Hp.
  set (f := fun k => ((k + 2 ^ 31) / 2 ^ Z.of_nat n)%Z).
  assert (Hsplit : (2 ^ 32 = 2 ^ Z.of_nat (32 - n) * 2 ^ Z.of_nat n)%Z)
    by (change 32%Z with (Z.of_nat 32); by apply pow2_split).
  assert (Hinj : forall k k', k ∈ ks -> k' ∈ ks -> f k = f k' -> k = k').
  { intros k k' Hk Hk'. rewrite Forall_forall in Hc.
    assert (cls n k = cls n k') as Hkk by (by rewrite (Hc k Hk), (Hc k' Hk')).
    unfold f. intros Hf.
    assert (Hm : ((k + 2 ^ 31) mod 2 ^ Z.of_nat n = (k' + 2 ^ 31) mod 2 ^ Z.of_nat n)%Z).
    { rewrite (Z.add_mod k), (Z.add_mod k') by lia. unfold cls in Hkk. by rewrite Hkk. }
    pose proof (Z.div_mod (k + 2 ^ 31) (2 ^ Z.of_nat n) ltac:(lia)).
    pose proof (Z.div_mod (k' + 2 ^ 31) (2 ^ Z.of_nat n) ltac:(lia)). nia. }
  assert (Hnd' : NoDup (f <$> ks)).
  { clear -Hnd Hinj. induction ks as [|k ks IH]; csimpl; [constructor|].
    apply NoDup_cons in Hnd as [Hk Hnd]. apply NoDup_cons. split.
    - intros (k' & Hf & Hk')%list_elem_of_fmap. apply Hk.
      by rewrite (Hinj k k' (list_elem_of_here _ _) (list_elem_of_further _ _ _ Hk') Hf).
    - apply IH; [done|]. intros k1 k2 H1 H2. apply Hinj; by apply list_elem_of_further. }
  rewrite <- (length_fmap f). rewrite <- (length_seqZ 0 (2 ^ Z.of_nat (32 - n))).
  apply submseteq_length, NoDup_submseteq; [done|].
  intros y (k & -> & Hk)%list_elem_of_fmap. apply elem_of_seqZ. unfold f.
  rewrite Forall_forall in H32. destruct (H32 k Hk).
  split; [apply Z.div_pos; lia|]. rewrite Z.add_0_l.
  apply Z.div_lt_upper_bound; [lia|]. rewrite Z.mul_comm, <- Hsplit. lia.
Qed.

(** A full bucket of 32-bit variables uses at most 27 bits. *)
Lemma full_nbits (s : generalState) (i : Z) (b : mList) :
  bucket_ok s i b -> Forall (fun e => int32 (wt_var e)) (wt_entries s) -> ml_nbits b <= 28 ->
  BUCKETISFULL b = true -> ml_nbits b <= 27.
Proof.
  intros [B1 B2 B3 B4 B5 B6] H32 Hle Hfull. unfold BUCKETISFULL in Hfull. apply Nat.eqb_eq in Hfull.
  assert (Hl : length (ml_items b).*1 <= Z.to_nat (2 ^ Z.of_nat (32 - ml_nbits b))).
  { apply (class_size _ (cls (ml_nbits b) i)); [lia|done| |]; apply Forall_forall.
    - intros k' ([k x] & -> & Hin)%list_elem_of_fmap. destruct (B6 k x Hin) as (_ & e & He & <-).
      rewrite Forall_forall in H32. by apply H32, (list_elem_of_lookup_2 _ x).
    - intros k' ([k x] & -> & Hin)%list_elem_of_fmap. by destruct (B6 k x Hin). }
  rewrite length_fmap in Hl. unfold ml_count in Hfull. rewrite Hfull, B3 in Hl.
  destruct (decide (ml_nbits b = 28)) as [H28|]; [|lia]. rewrite H28 in Hl.
  change (Z.to_nat (2 ^ Z.of_nat (32 - 28))) with 16 in Hl. unfold LIST_INIT_SIZE in Hl. lia.
Qed.

(** What [make_room] keeps of the state. *)
Record roomy (s s' : generalState) (n : nat) (v : Z) (b : mList) : Prop := {
  ro_ok : ht_ok n s';
  ro_wt : wt_entries s' = wt_entries s;
  ro_max : wt_entry_max s' = wt_entry_max s;
  ro_nbits : gs_nbits s' <= 28;
  ro_bucket : exists l' b', slot_of s' v = Some (Some l') /\ mheap s' !! l' = Some b' /\
    BUCKETISFULL b' = false /\ forall x, (v, x) ∈ ml_items b' -> (v, x) ∈ ml_items b }.

(** One round on a full bucket. *)
Lemma split_round (s : generalState) (n : nat) (v : Z) (l : nat) (b : mList) :
  ht_ok n s -> slot_of s v = Some (Some l) -> mheap s !! l = Some b ->
  BUCKETISFULL b = true -> ml_nbits b <= 27 -> gs_nbits s <= 28 ->
  exists s1 s2 l' b', (if ml_nbits b =? gs_nbits s then expand_hashtable s else Some s) = Some s1 /\
    distribute_elements s1 v (HASHFUNC v (gs_mask s1)) = Some s2 /\
    ht_ok n s2 /\ wt_entries s2 = wt_entries s /\ wt_entry_max s2 = wt_entry_max s /\
    gs_nbits s2 <= 28 /\ slot_of s2 v = Some (Some l') /\ mheap s2 !! l' = Some b' /\
    ml_nbits b' = S (ml_nbits b) /\ forall x, (v, x) ∈ ml_items b' -> (v, x) ∈ ml_items b.
Proof.
  intros Hok Hs Hb Hfull H27 H28.
  pose proof Hs as Hs0. rewrite (slot_of_cls n) in Hs0 by done.
  destruct (ht_bucket_ok n s Hok _ l (proj1 (cls_range _ _)) Hs0) as (b0 & Hb0 & Hbo).
  assert (b0 = b) as -> by congruence. destruct (bo_nbits s _ b Hbo) as [Hmin Hmax].
  assert (exists s1, (if ml_nbits b =? gs_nbits s then expand_hashtable s else Some s) = Some s1 /\
    ht_ok n s1 /\ wt_entries s1 = wt_entries s /\ wt_entry_max s1 = wt_entry_max s /\
    gs_nbits s1 <= 28 /\ ml_nbits b < gs_nbits s1 /\ mheap s1 = mheap s /\
    slot_of s1 v = Some (Some l)) as (s1 & E1 & Hok1 & Hw1 & Hm1 & H28' & Hlt & Hh1 & Hs1).
  { destruct (Nat.eqb_spec (ml_nbits b) (gs_nbits s)) as [He|He].
    - destruct (expand_spec s n Hok) as (s1 & -> & Hok1 & Hn1 & Hw & Hm & Hh & Hsl); [lia|].
      exists s1. split_and!; try done; [lia|lia|].
      rewrite (slot_of_cls n), Hn1, Hsl by (done || apply cls_range). by rewrite cls_cls by lia.
    - exists s. split_and!; done || lia. }
  rewrite <- Hh1 in Hb.
  destruct (distribute_spec s1 n v l b Hok1 Hs1 Hb Hfull Hlt) as (s2 & l1 & l2 & E2 & HS).
  pose proof (split_ok s1 s2 n v l l1 l2 b Hok1 Hs1 Hb Hlt HS) as Hok2.
  pose proof (heap_new s1 s2 v l l1 l2 b Hb HS) as Hheap.
  exists s1, s2.
  assert (Hslot := ss_slot _ _ _ _ _ _ _ HS (cls (gs_nbits s1) v) (cls_range _ _)).
  assert (Hv : slot_of s2 v = ht_slot s2 (cls (gs_nbits s1) v)).
  { rewrite (slot_of_cls n) by done. by rewrite (ss_nbits _ _ _ _ _ _ _ HS). }
  destruct (ss_fresh _ _ _ _ _ _ _ HS) as (Hne & _ & _).
  rewrite cls_cls in Hslot by lia. pose proof (pow2_pos (ml_nbits b)).
  destruct (low_high (ml_nbits b) v _ eq_refl) as [Hc|Hc]; rewrite Hc in Hslot.
  - rewrite decide_True in Hslot by done. eexists l1, _. split_and!; [exact E1|exact E2|done|..].
    + by rewrite (ss_wt _ _ _ _ _ _ _ HS).
    + by rewrite (ss_max _ _ _ _ _ _ _ HS).
    + by rewrite (ss_nbits _ _ _ _ _ _ _ HS).
    + by rewrite Hv.
    + by rewrite Hheap, decide_True.
    + done.
    + intros x Hx. by apply elem_of_half in Hx as [_ Hx].
  - rewrite decide_False, decide_True in Hslot by (done || lia). eexists l2, _.
    split_and!; [exact E1|exact E2|done|..].
    + by rewrite (ss_wt _ _ _ _ _ _ _ HS).
    + by rewrite (ss_max _ _ _ _ _ _ _ HS).
    + by rewrite (ss_nbits _ _ _ _ _ _ _ HS).
    + by rewrite Hv.
    + by rewrite Hheap, decide_False, decide_True.
    + done.
    + intros x Hx. by apply elem_of_half in Hx as [_ Hx].
Qed.

Lemma make_room_spec (fuel n : nat) (s : generalState) (v : Z) (l : nat) (b : mList) :
  ht_ok n s -> Forall (fun e => int32 (wt_var e)) (wt_entries s) -> gs_nbits s <= 28 ->
  slot_of s v = Some (Some l) -> mheap s !! l = Some b -> 29 <= fuel + ml_nbits b ->
  exists s', make_room fuel s v = Some s' /\ roomy s s' n v b.
Proof.
  revert s l b. induction fuel as [|fuel IH]; intros s l b Hok H32 H28 Hs Hb Hf;
    pose proof Hs as Hs0; rewrite (slot_of_cls n) in Hs0 by done;
    destruct (ht_bucket_ok n s Hok _ l (proj1 (cls_range _ _)) Hs0) as (b0 & Hb0 & Hbo);
    assert (b0 = b) as -> by congruence; clear Hb0; destruct (bo_nbits s _ b Hbo) as [Hmin Hmax];
    [lia|].
  simpl. unfold slot_of in Hs. rewrite (ht_slot_bucket s _ l b Hs Hb). cbn [mbind option_bind].
  destruct (BUCKETISFULL b) eqn:Hfull.
  2: { exists s. split; [done|]. split; [done..|]. exists l, b. auto. }
  pose proof (full_nbits s _ b Hbo H32 ltac:(lia) Hfull) as H27.
  destruct (split_round s n v l b Hok Hs Hb Hfull H27 H28)
    as (s1 & s2 & l' & b' & -> & E2 & Hok2 & Hw2 & Hm2 & H282 & Hs2 & Hb2 & Hnb2 & Hit).
  cbn [mbind option_bind]. rewrite E2. cbn [mbind option_bind].
  destruct (IH s2 l' b' Hok2) as (s' & Hr & [R1 R2 R3 R4 (l3 & b3 & R5 & R6 & R7 & R8)]);
    [by rewrite Hw2|done|done|done|lia|].
  exists s'. split; [done|]. split; [done|congruence|congruence|done|].
  exists l3, b3. split_and!; [done..|]. auto.
Qed.
