(* ===== verification/WsTree.v ===== *)
(** * WsTree: exact confidence computation ([ws-tree.c])

    [indve_compute_prob] computes the probability of a set of clauses by
    splitting off an independent component and eliminating a variable of it, with
    the clauses temporarily modified in place: the clause array [S] and the counts
    of the world table are threaded as state.  [NUM] is the length of [S]; a
    clause's [data] array has [WSD_LEN] elements, which the loops bounded by
    [WSD_LEN] walk through.  [junk] is the content of freshly allocated bitsets.

    [WsTreeCorrect] proves [indve_compute_prob] correct with respect to
    [Worlds.Pr]. *)
From S2P Require Import Prelude.
From S2P Require Import Bitset.
From S2P Require Import Worlds.
From S2P Require Import LocalCond.

(** ** Comparing clauses *)

(** A NULL pointer is [None]. *)
Definition compare_map (m1 m2 : option Map) : Z :=
  match m1, m2 with
  | Some m1, Some m2 =>
      if (rng m1 =? -1)%Z || (rng m2 =? -1)%Z then 0
      else if (var m1 =? var m2)%Z then
        if (rng m1 =? rng m2)%Z then
          if (neg m1 =? neg m2)%Z then -2 else -1
        else if negb (neg m1 =? neg m2)%Z then 3
        else if negb (neg m1 =? 0)%Z && negb (neg m2 =? 0)%Z then 2
        else -1
      else 0
  | _, _ => 0
  end.

(** 1 (independent) unless some pair of maps compares non-zero. *)
Definition wsd_ind (d1 d2 : WSD) : bool :=
  forallb (fun m1 => forallb (fun m2 => (compare_map (Some m1) (Some m2) =? 0)%Z) (data d2)) (data d1).

Section WsTree.
Context (junk : nat -> N).
Context (NUM : nat).

Definition new_set : bitset := bitset_reset (bitset_init junk NUM).

(** ** Independent partitioning *)

Fixpoint dfs (fuel : nat) (Ss : list WSD) (set set_to_construct : bitset) (idx : nat)
    : option bitset :=
  match fuel with
  | 0 => None
  | Datatypes.S fuel =>
      t ← bitset_set_bit set_to_construct idx;
      for_upto NUM
        (fun j t =>
           b1 ← bitset_test_bit set j;
           if negb b1 then Some t else
           b2 ← bitset_test_bit t j;
           if (b2 : bool) then Some t else
           wi ← Ss !! idx; wj ← Ss !! j;
           if negb (wsd_ind wi wj) && negb (idx =? j) then dfs fuel Ss set t j else Some t) t
  end.

Definition find_independent_split (Ss : list WSD) (set : option bitset) : option (option bitset) :=
  e ← bitset_test_empty set;
  if (e : bool) then Some None
  else
    s ← set;
    i ← search_up (bitset_test_bit s) NUM 0;
    match i with
    | None => None (* elog(ERROR) *)
    | Some i => Some <$> dfs (Datatypes.S NUM) Ss s new_set i
    end.

(** ** Choosing a variable *)

Definition bump_count (wt : list worldTableEntry) (re : option (nat * nat))
    : option (list worldTableEntry) :=
  '(k, r) ← re;
  e ← wt !! k;
  x ← rng_entries e !! r;
  Some (<[k := set_rng_entries e
                 (<[r := mk_rngEntry (re_rng x) (re_p x) (re_count x + 1)]> (rng_entries e))]> wt).

(** The counting loop over the clauses: (set_size, world table). *)
Definition count_loop (Ss : list WSD) (set : bitset) (wt : list worldTableEntry)
    : option (Z * list worldTableEntry) :=
  for_upto NUM
    (fun i '(set_size, wt) =>
       b ← bitset_test_bit set i;
       if negb b then Some (set_size, wt) else
       w ← Ss !! i;
       wt ← for_list (data w)
              (fun m wt => if (0 <=? rng m)%Z then bump_count wt (rng_entry m) else Some wt) wt;
       Some ((set_size + 1)%Z, wt)) (0%Z, wt).

Definition how_many_diff_assignments (e : worldTableEntry) : nat :=
  length (filter (fun re => (0 < re_count re)%Z) (rng_entries e)).
Definition how_many_assignments (e : worldTableEntry) : Z :=
  foldr (fun re acc => if decide (0 < re_count re)%Z then (re_count re + acc)%Z else acc) 0%Z
    (rng_entries e).
Definition count_sum (e : worldTableEntry) : Z :=
  foldr (fun re acc => (re_count re + acc)%Z) 0%Z (rng_entries e).

(** The minlog estimate of one variable; [float8] values that are integers. *)
Definition new_val (set_size : Z) (e : worldTableEntry) : Z :=
  (Z.of_nat (rng_entry_count e) * (set_size - how_many_assignments e) + count_sum e)%Z.

(** The selection loop: the running minimum [val] (-1 when none) and its entry. *)
Definition select_step (set_size : Z) (vr : Z * option nat) (ke : nat * worldTableEntry)
    : Z * option nat :=
  if how_many_diff_assignments ke.2 =? 0 then vr
  else if (vr.1 >? new_val set_size ke.2)%Z || (vr.1 =? -1)%Z
       then (new_val set_size ke.2, Some ke.1) else vr.

Definition select_var (set_size : Z) (wt : list worldTableEntry) : option nat :=
  (foldl (select_step set_size) ((-1)%Z, None) (imap pair wt)).2.

Definition choose_var_minlog (Ss : list WSD) (set : bitset) (wt : list worldTableEntry)
    : option (option nat * list worldTableEntry) :=
  '(set_size, wt) ← count_loop Ss set (resetCount wt);
  Some (select_var set_size wt, wt).

(** ** Conditioning on a variable *)

(** Add position [i] to a set that is allocated on first use. *)
Definition add_to (subset : option bitset) (i : nat) : option (option bitset) :=
  Some <$> bitset_set_bit (default new_set subset) i.

Definition find_wsds_without_var (Ss : list WSD) (set : bitset) (v : Z) : option (option bitset) :=
  for_upto NUM
    (fun i subset =>
       b ← bitset_test_bit set i;
       if negb b then Some subset else
       w ← Ss !! i;
       if forallb (fun m => negb (var m =? v)%Z) (data w) then add_to subset i else Some subset)
    None.

(** Drop map [j] of a clause: rng becomes -1 and the clause loses its probability. *)
Definition drop_map (w : WSD) (j : nat) (m : Map) : WSD :=
  mk_WSD (<[j := set_rng m (-1)]> (data w)) (wprob w / mprob m)%Qc.

Fixpoint with_var_loop (ixs : list nat) (Ss : list WSD) (set : bitset) (v r : Z)
    (subset : option bitset) : option (option bitset * list WSD * bool) :=
  match ixs with
  | [] => Some (subset, Ss, false)
  | i :: ixs =>
      b ← bitset_test_bit set i;
      if negb b then with_var_loop ixs Ss set v r subset else
      w ← Ss !! i;
      match list_find (fun m => var m = v /\ rng m = r) (data w) with
      | None => with_var_loop ixs Ss set v r subset
      | Some (j, m) =>
          subset ← add_to subset i;
          let w' := drop_map w j m in
          if decide (wprob w' = 1%Qc) then Some (subset, <[i := w']> Ss, true)
          else with_var_loop ixs (<[i := w']> Ss) set v r subset
      end
  end.

Definition reset_wsd (w : WSD) (v r : Z) : WSD :=
  mk_WSD ((fun m => if (var m =? v)%Z then set_rng m r else m) <$> data w)
    (foldl (fun p m => if (var m =? v)%Z then (p * mprob m)%Qc else p) (wprob w) (data w)).

Definition reset_wsds_var_rng (Ss : list WSD) (set : bitset) (v r : Z) : option (list WSD) :=
  for_upto NUM
    (fun i Ss =>
       b ← bitset_test_bit set i;
       if negb b then Some Ss else
       w ← Ss !! i;
       Some (<[i := reset_wsd w v r]> Ss)) Ss.

Definition find_wsds_with_var_rng (Ss : list WSD) (set : bitset) (v r : Z)
    : option (option bitset * list WSD) :=
  '(subset, Ss, found_empty_wsd) ← with_var_loop (seq 0 NUM) Ss set v r None;
  if (found_empty_wsd : bool) then
    sub ← subset;
    Ss ← reset_wsds_var_rng Ss sub v r;
    Some (Some (bitset_reset sub), Ss)
  else Some (subset, Ss).

(** ** The recursion *)

Record st := mk_st { st_S : list WSD; st_wt : list worldTableEntry }.

(** One range value of the eliminated variable: the new [p_without_var], the
    contribution [cur_prob] and the state. *)
Definition elim_value (rec : option bitset -> st -> option (prob * st))
    (subset : bitset) (subset_without_var : option bitset) (v r : Z) (p : prob)
    (p_without_var : prob) (s : st) : option (prob * prob * st) :=
  '(subset_var_rng, Ss) ← find_wsds_with_var_rng (st_S s) subset v r;
  let s := mk_st Ss (st_wt s) in
  match subset_var_rng with
  | None =>
      '(pw, s) ← (if decide (p_without_var = (- (1))%Qc)
                   then rec subset_without_var s else Some (p_without_var, s));
      Some (pw, (p * pw)%Qc, s)
  | Some sub =>
      e ← bitset_test_empty (Some sub);
      if (e : bool) then Some (p_without_var, p, s)
      else
        sub ← bitset_union sub subset_without_var;
        '(q, s) ← rec (Some sub) s;
        Ss ← reset_wsds_var_rng (st_S s) sub v r;
        Some (p_without_var, (p * q)%Qc, mk_st Ss (st_wt s))
  end.

(** The loop over the range values of entry [k]; [inl] is the early return. *)
Fixpoint elim_loop (rec : option bitset -> st -> option (prob * st)) (ixs : list nat)
    (k : nat) (subset : bitset) (subset_without_var : option bitset) (v : Z)
    (p_left p_without_var : prob) (s : st) : option (prob * st + prob * st) :=
  match ixs with
  | [] => Some (inr (p_left, s))
  | i :: ixs =>
      e ← st_wt s !! k;
      re ← rng_entries e !! i;
      '(pw, cur_prob, s) ←
        elim_value rec subset subset_without_var v (re_rng re) (re_p re) p_without_var s;
      let p_left := (p_left + cur_prob)%Qc in
      if decide (p_left = 1%Qc) then
        if rng_entry_count e =? 1 then Some (inl (1%Qc, s))
        else elim_loop rec ixs k subset subset_without_var v p_left pw s
      else elim_loop rec ixs k subset subset_without_var v p_left pw s
  end.

(** The probability of the dependent component [subset]. *)
Definition component_prob (rec : option bitset -> st -> option (prob * st))
    (subset : bitset) (s : st) : option (prob * st + prob * st) :=
  pos ← bitset_test_singleton (Some subset);
  if negb (pos =? -1)%Z then
    w ← st_S s !! Z.to_nat pos; Some (inr (wprob w, s))
  else
    '(res, wt) ← choose_var_minlog (st_S s) subset (st_wt s);
    let s := mk_st (st_S s) wt in
    match res with
    | None => Some (inl (1%Qc, s))
    | Some k =>
        e ← wt !! k;
        subset_without_var ← find_wsds_without_var (st_S s) subset (wt_var e);
        elim_loop rec (seq 0 (rng_entry_count e)) k subset subset_without_var (wt_var e)
          0%Qc (- (1))%Qc s
    end.

Fixpoint indve_compute_prob (fuel : nat) (set : option bitset) (s : st) : option (prob * st) :=
  match fuel with
  | 0 => None
  | Datatypes.S fuel =>
      e ← bitset_test_empty set;
      if (e : bool) then Some (0%Qc, s)
      else
        subset ← find_independent_split (st_S s) set;
        sub ← subset;
        left ← component_prob (indve_compute_prob fuel) sub s;
        match left with
        | inl res => Some res
        | inr (p_left, s) =>
            if decide (p_left = 1%Qc) then Some (1%Qc, s)
            else
              set' ← set;
              right ← bitset_negate set' sub;
              '(p_right, s) ← indve_compute_prob fuel (Some right) s;
              Some ((p_left + p_right - p_left * p_right)%Qc, s)
        end
  end.
End WsTree.

(** ** The aggregate functions *)

(** Each level of the recursion removes a clause or an assignment. *)
Definition indve_fuel (NUM wsd_len : nat) : nat := S (NUM * S wsd_len).

Definition conf_final_ge (junk : nat -> N) (g : globals) : option (prob * globals) :=
  if groupcxt g then
    state ← getMissingRngs (gstate g);
    l ← gS g;
    l ← computeEntryPointers state l;
    let NUM := length l in
    set ← bitset_set (bitset_init junk NUM);
    '(result, s) ← indve_compute_prob junk NUM (indve_fuel NUM (WSD_LEN g)) (Some set)
                     (mk_st l (wt_entries state));
    Some (result, mk_globals None (current_size g) (WSD_LEN g) false (set_wt state (st_wt s)))
  else Some (0%Qc, g).

Definition conf_accum1_ge := accum 1 0.
Definition conf_accum2_ge := accum 2 0.
Definition conf_accum3_ge := accum 3 0.
Definition conf_accum4_ge := accum 4 0.
Definition conf_accum5_ge := accum 5 0.
Definition conf_accum6_ge := accum 6 0.
Definition conf_accum7_ge := accum 7 0.
Definition conf_accum8_ge := accum 8 0.
Definition conf_accum9_ge := accum 9 0.
Definition conf_accum10_ge := accum 10 0.
Definition conf_accum11_ge := accum 11 0.
Definition conf_accum12_ge := accum 12 0.
Definition conf_accum13_ge := accum 13 0.
Definition conf_accum14_ge := accum 14 0.
Definition conf_accum15_ge := accum 15 0.
Definition conf_accum16_ge := accum 16 0.
Definition conf_accum17_ge := accum 17 0.
Definition conf_accum18_ge := accum 18 0.
Definition conf_accum19_ge := accum 19 0.
Definition conf_accum20_ge := accum 20 0.
