(* ===== verification/Lineage.v ===== *)
(** * Lineage: the meaning of the clause store

    What the confidence computations rely on: the events that stored clauses
    denote, the well-formedness of clauses with respect to the world table (the
    contract that [LocalCond] establishes and the algorithms preserve), and the
    effect of dropping and restoring an assignment in place. *)
From S2P Require Import Prelude.
From S2P Require Import Bitset.
From S2P Require Import Worlds.
From S2P Require Import LocalCond.
From S2P Require Import WsTree.

(** ** Denotations *)

(** The abstract world table of a local world table: counts and capacities are
    forgotten. *)
Definition shape_entry (e : worldTableEntry) : Z * list (Z * Qc) :=
  (wt_var e, (fun re => (re_rng re, re_p re)) <$> rng_entries e).
Definition shape (wt : list worldTableEntry) : wtable := shape_entry <$> wt.

(** A map whose range value is -1 is dropped. *)
Definition active (m : Map) : Prop := rng m <> (-1)%Z.
#[export] Instance active_dec (m : Map) : Decision (active m) := _.

Definition lits (w : WSD) : clause := (fun m => (var m, rng m)) <$> filter active (data w).

Definition dnf (Ss : list WSD) (X : gset nat) : list clause :=
  lits <$> omap (fun i => Ss !! i) (elements X).

Definition PrS (W : wtable) (Ss : list WSD) (X : gset nat) : Qc := Pr W (sat_dnf (dnf Ss X)).

(** ** Well-formed clauses *)

Record map_ok (W : wtable) (m : Map) : Prop := {
  mo_pos : (0 < mprob m)%Qc;
  mo_rng : rng m = (-1)%Z \/ (0 <= rng m)%Z;
  mo_entry : exists k i d r, rng_entry m = Some (k, i) /\ W !! k = Some (var m, d) /\
    d !! i = Some (r, mprob m) /\ (rng m = (-1)%Z \/ rng m = r);
  mo_wt : wt_entry m = fst <$> rng_entry m }.

Record wsd_ok (W : wtable) (w : WSD) : Prop := {
  wo_nodup : NoDup (var <$> data w);
  wo_maps : Forall (map_ok W) (data w);
  wo_prob : wprob w = qprod (mprob <$> filter active (data w)) }.

(** No variable is dropped in one clause of the set and active in another. *)
Definition coherent (Ss : list WSD) (X : gset nat) : Prop :=
  forall i j wi wj mi mj, i ∈ X -> j ∈ X -> Ss !! i = Some wi -> Ss !! j = Some wj ->
    mi ∈ data wi -> mj ∈ data wj -> var mi = var mj -> rng mi = (-1)%Z -> rng mj = (-1)%Z.

Lemma elem_of_lits (w : WSD) (l : Z * Z) :
  l ∈ lits w <-> exists m, m ∈ data w /\ active m /\ l = (var m, rng m).
Proof.
  unfold lits. rewrite list_elem_of_fmap. setoid_rewrite list_elem_of_filter. naive_solver.
Qed.

Lemma elem_of_lit_vars (w : WSD) (x : Z) :
  x ∈ (lits w).*1 <-> exists m, m ∈ data w /\ active m /\ var m = x.
Proof.
  rewrite list_elem_of_fmap. setoid_rewrite elem_of_lits. split.
  - intros (l & -> & m & Hm & Ha & ->). by exists m.
  - intros (m & Hm & Ha & <-). exists (var m, rng m). split; [done|]. by exists m.
Qed.

Lemma elem_of_dnf (Ss : list WSD) (X : gset nat) (c : clause) :
  c ∈ dnf Ss X <-> exists i w, i ∈ X /\ Ss !! i = Some w /\ c = lits w.
Proof.
  unfold dnf. rewrite list_elem_of_fmap. setoid_rewrite list_elem_of_omap.
  setoid_rewrite elem_of_elements. naive_solver.
Qed.

Lemma sat_dnf_iff (Ss : list WSD) (X : gset nat) (u : world) :
  sat_dnf (dnf Ss X) u = true <->
  exists i w, i ∈ X /\ Ss !! i = Some w /\ sat_clause (lits w) u = true.
Proof. rewrite sat_dnf_true. setoid_rewrite elem_of_dnf. naive_solver. Qed.

Lemma sat_clause_true (w : WSD) (u : world) :
  sat_clause (lits w) u = true <->
  forall m, m ∈ data w -> active m -> u !! var m = Some (rng m).
Proof.
  unfold sat_clause. rewrite forallb_forall. setoid_rewrite <- list_elem_of_In.
  setoid_rewrite elem_of_lits. unfold sat_lit. split.
  - intros H m Hm Ha. specialize (H (var m, rng m)). simpl in H.
    apply bool_decide_eq_true in H; [done|]. by exists m.
  - intros H l (m & Hm & Ha & ->). simpl. by apply bool_decide_eq_true, H.
Qed.

Lemma lits_nodup (W : wtable) (w : WSD) : wsd_ok W w -> NoDup (lits w).*1.
Proof.
  intros [Hnd _ _]. unfold lits. rewrite <- list_fmap_compose.
  change (fst ∘ (fun m => (var m, rng m))) with var.
  revert Hnd. generalize (data w). intros l. induction l as [|m l IH]; simpl; [done|].
  intros [Hm Hnd]%NoDup_cons. rewrite filter_cons. destruct (decide (active m)); [|auto].
  simpl. apply NoDup_cons. split; [|auto].
  intros (m' & Heq & Hm')%list_elem_of_fmap. apply Hm.
  apply list_elem_of_filter in Hm' as [_ Hm']. apply list_elem_of_fmap. by exists m'.
Qed.

(** The probability field of a clause is the probability of its event. *)
Lemma wsd_prob (W : wtable) (w : WSD) :
  wtable_ok W -> wsd_ok W w -> Pr W (sat_clause (lits w)) = wprob w.
Proof.
  intros HW Hok. rewrite (wo_prob _ _ Hok).
  apply Pr_clause; [done|by eapply lits_nodup|].
  unfold lits. apply Forall2_fmap, Forall_Forall2_diag, Forall_forall.
  intros m (Ha & Hm)%list_elem_of_filter. simpl.
  pose proof (wo_maps _ _ Hok) as Hall. rewrite Forall_forall in Hall.
  destruct (mo_entry _ _ (Hall m Hm)) as (k & i & d & r & _ & Hk & Hd & [Hr| ->]); [done|].
  exists d. split; by eapply list_elem_of_lookup_2.
Qed.

Lemma qprod_pos (ps : list Qc) : Forall (fun p => 0 < p)%Qc ps -> (0 < qprod ps)%Qc.
Proof.
  induction 1 as [|p ps Hp _ IH]; [done|]. rewrite qprod_cons. qc_nra.
Qed.

Lemma wprob_pos (W : wtable) (w : WSD) : wsd_ok W w -> (0 < wprob w)%Qc.
Proof.
  intros Hok. rewrite (wo_prob _ _ Hok). apply qprod_pos, Forall_fmap, Forall_forall.
  intros m (_ & Hm)%list_elem_of_filter. simpl.
  pose proof (wo_maps _ _ Hok) as Hall. rewrite Forall_forall in Hall. apply (mo_pos W m), Hall, Hm.
Qed.

(** ** Independence of clauses *)

Lemma compare_map_zero (m1 m2 : Map) :
  compare_map (Some m1) (Some m2) = 0%Z <-> (active m1 -> active m2 -> var m1 <> var m2).
Proof.
  unfold compare_map, active.
  destruct (Z.eqb_spec (rng m1) (-1)), (Z.eqb_spec (rng m2) (-1)); simpl; try tauto.
  destruct (Z.eqb_spec (var m1) (var m2)); [|tauto].
  split; [|tauto].
  destruct (rng m1 =? rng m2)%Z, (neg m1 =? neg m2)%Z, (neg m1 =? 0)%Z, (neg m2 =? 0)%Z;
    simpl; discriminate.
Qed.

Lemma wsd_ind_true (w1 w2 : WSD) :
  wsd_ind w1 w2 = true <-> forall x, x ∈ (lits w1).*1 -> x ∉ (lits w2).*1.
Proof.
  unfold wsd_ind. rewrite forallb_forall. setoid_rewrite forallb_forall.
  setoid_rewrite <- list_elem_of_In. setoid_rewrite Z.eqb_eq.
  setoid_rewrite compare_map_zero. setoid_rewrite elem_of_lit_vars. naive_solver.
Qed.

Lemma wsd_ind_false_active (w1 w2 : WSD) :
  wsd_ind w1 w2 = false -> exists m, m ∈ data w2 /\ active m.
Proof.
  intros H. destruct (filter active (data w2)) as [|m l] eqn:Hf.
  - assert (wsd_ind w1 w2 = true) as H'; [|congruence].
    apply wsd_ind_true. intros x _. unfold lits. rewrite Hf. simpl. apply not_elem_of_nil.
  - exists m. assert (m ∈ filter active (data w2)) as Hm by (rewrite Hf; apply list_elem_of_here).
    apply list_elem_of_filter in Hm. tauto.
Qed.

(** ** Independent components of a clause set

    [dfs] and [find_independent_split] of [WsTree]: the set they return is
    non-empty, inside the given set, and closed under dependence, so the event of
    the component is independent of the event of the rest. *)

(** Run a bit test on a represented set and split on its outcome. *)
Ltac test_bit :=
  match goal with
  | |- context [bitset_test_bit ?b ?i ≫= _] =>
      match goal with
      | H : Rep _ ?X b |- _ =>
          rewrite (bitset_test_bit_spec _ _ _ i H) by (done || lia); simpl;
          destruct (bool_decide_reflect (i ∈ X))
      end
  end; simpl.

Section Partition.
Context (Ss : list WSD).

Definition dep (i j : nat) : Prop :=
  exists wi wj, Ss !! i = Some wi /\ Ss !! j = Some wj /\ wsd_ind wi wj = false.

(** What a run of [dfs] from [idx] adds to [T]: everything added is closed under
    dependence within [X] and, but for [idx], depends on something. *)
Record reached (X T T' : gset nat) (idx : nat) : Prop := {
  re_incl : {[idx]} ∪ T ⊆ T';
  re_sub : T' ⊆ X;
  re_closed : forall i j, i ∈ T' -> i ∉ T -> j ∈ X -> i <> j -> dep i j -> j ∈ T';
  re_linked : forall i, i ∈ T' -> i ∉ T -> i <> idx -> exists k, dep k i }.

(** The same before the loop of [idx] is finished: it has scanned below [n]. *)
Record scanned (X T T' : gset nat) (idx n : nat) : Prop := {
  sc_incl : {[idx]} ∪ T ⊆ T';
  sc_sub : T' ⊆ X;
  sc_here : forall j, j < n -> j ∈ X -> idx <> j -> dep idx j -> j ∈ T';
  sc_closed : forall i j, i ∈ T' -> i ∉ T -> i <> idx -> j ∈ X -> i <> j -> dep i j -> j ∈ T';
  sc_linked : forall i, i ∈ T' -> i ∉ T -> i <> idx -> exists k, dep k i }.

Lemma scanned_skip (X T T' : gset nat) (idx n : nat) :
  scanned X T T' idx n -> (n ∈ X -> idx <> n -> dep idx n -> n ∈ T') ->
  scanned X T T' idx (S n).
Proof.
  intros [H1 H2 H3 H4 H5] Hn. split; try done.
  intros j Hj. destruct (decide (j = n)) as [->|]; [done|]. apply H3. lia.
Qed.

Lemma scanned_call (X T T1 T2 : gset nat) (idx n : nat) :
  scanned X T T1 idx n -> reached X T1 T2 n -> n ∉ T1 -> dep idx n ->
  scanned X T T2 idx (S n).
Proof.
  intros [I1 S1 H1 C1 L1] [I2 S2 C2 L2] Hn Hd. split.
  - set_solver.
  - done.
  - intros j Hj HjX Hne Hdj. destruct (decide (j = n)) as [->|]; [set_solver|].
    assert (j ∈ T1) by (apply H1; [lia|done..]). set_solver.
  - intros i j Hi HiT Hne HjX Hij Hdij. destruct (decide (i ∈ T1)) as [Hi1|Hi1].
    + specialize (C1 i j Hi1 HiT Hne HjX Hij Hdij). set_solver.
    + by apply (C2 i j).
  - intros i Hi HiT Hne. destruct (decide (i ∈ T1)) as [Hi1|Hi1]; [by apply L1|].
    destruct (decide (i = n)) as [->|]; [by exists idx|]. by apply L2.
Qed.

Context (NUM : nat) (Hlen : length Ss = NUM).

Lemma clause_at (i : nat) : i < NUM -> exists w, Ss !! i = Some w.
Proof using Hlen. intros Hi. apply lookup_lt_is_Some_2. lia. Qed.

Lemma scanned_done (X T T' : gset nat) (idx : nat) :
  scanned X T T' idx NUM -> (forall j, j ∈ X -> j < NUM) -> reached X T T' idx.
Proof using Type.
  intros [I1 S1 H1 C1 L1] HX. split; [done..| |done].
  intros i j Hi HiT HjX Hij Hd. destruct (decide (i = idx)) as [->|]; [|by apply (C1 i j)].
  apply H1; [by apply HX|done..].
Qed.

Lemma dfs_spec (X : gset nat) (set : bitset) (fuel : nat) :
  Rep NUM X set ->
  forall (T : gset nat) (t : bitset) (idx : nat),
  Rep NUM T t -> Clean t -> T ⊆ X -> idx ∈ X -> idx ∉ T -> size (X ∖ T) <= fuel ->
  exists t' T', dfs NUM fuel Ss set t idx = Some t' /\ Rep NUM T' t' /\ Clean t' /\
    reached X T T' idx.
Proof using Hlen.
  intros HX. induction fuel as [|fuel IH]; intros T t idx HT Hc HTX Hidx HidxT Hf.
  { assert (size (X ∖ T) = 0) as H0%size_empty_inv by lia. set_solver. }
  assert (Hb : forall j, j ∈ X -> j < NUM) by (intros j; by apply (rep_bound _ _ _ _ HX)).
  simpl. destruct (bitset_set_bit_spec _ _ _ idx HT (Hb _ Hidx)) as (t0 & -> & HT0 & Hc0).
  specialize (Hc0 Hc). simpl.
  edestruct (for_upto_inv (fun n s => exists T1, Rep NUM T1 s /\ Clean s /\
    scanned X T T1 idx n) NUM) as (t' & Ht & T' & HT' & Hc' & Hsc);
    [| |exists t', T'; split_and!; [exact Ht|done|done|by apply scanned_done]].
  { exists ({[idx]} ∪ T). split_and!; [done..|]. split; [done|set_solver|lia| |].
    - intros i j Hi HiT Hne. exfalso. set_solver.
    - intros i Hi HiT Hne. exfalso. set_solver. }
  intros j s Hj (T1 & HT1 & Hc1 & Hsc). simpl.
  test_bit; [|exists s; split; [done|]; exists T1; split_and!; [done..|];
              by apply scanned_skip].
  test_bit; [exists s; split; [done|]; exists T1; split_and!; [done..|];
             by apply scanned_skip|].
  destruct (clause_at idx (Hb _ Hidx)) as [wi Hwi]. destruct (clause_at j Hj) as [wj Hwj].
  rewrite Hwi, Hwj. simpl.
  destruct (wsd_ind wi wj) eqn:Hind; simpl.
  { exists s. split; [done|]. exists T1. split_and!; [done..|]. apply scanned_skip; [done|].
    intros _ _ (w1 & w2 & ? & ? & ?). congruence. }
  destruct (Nat.eqb_spec idx j) as [->|Hne]; simpl.
  { exists s. split; [done|]. exists T1. split_and!; [done..|]. by apply scanned_skip. }
  destruct (IH T1 s j) as (t2 & T2 & Hd & HT2 & Hc2 & Hre); [done|done|apply Hsc|done|done| |].
  { pose proof (sc_incl _ _ _ _ _ Hsc) as Hincl.
    assert (size (X ∖ T1) < size (X ∖ T)); [|lia].
    apply (size_difference_lt X T T1 idx); [|done|done|]; clear -Hincl; set_solver. }
  exists t2. split; [done|]. exists T2. split_and!; [done..|].
  eapply scanned_call; [done..|]. by exists wi, wj.
Qed.

(** The contract of the partitioning step. *)
Record component (X T : gset nat) : Prop := {
  co_ne : T <> ∅;
  co_sub : T ⊆ X;
  co_closed : forall i j, i ∈ T -> j ∈ X -> j ∉ T -> ~ dep i j;
  co_active : size T <> 1 ->
    exists i w m, i ∈ T /\ Ss !! i = Some w /\ m ∈ data w /\ active m }.

Lemma find_independent_split_spec (junk : nat -> N) (X : gset nat) (set : bitset) :
  Rep NUM X set -> X <> ∅ ->
  exists t T, find_independent_split junk NUM Ss (Some set) = Some (Some t) /\
    Rep NUM T t /\ Clean t /\ component X T.
Proof using Hlen.
  intros HX Hne. unfold find_independent_split.
  set (D := dfs NUM (S NUM)).
  destruct (bitset_test_empty_spec _ _ _ HX) as (r & -> & Hr & _). simpl.
  destruct r; [by specialize (Hr eq_refl)|]. simpl.
  destruct (bitset_search_spec NUM NUM X set HX) as [(k & -> & Hk & HkX & _)|[_ H]]; [done| |].
  2: { destruct (set_choose_L X Hne) as [i Hi]. pose proof (H i Hi).
       pose proof (rep_bound _ _ _ _ HX Hi). lia. }
  simpl. destruct (bitset_fresh_spec junk NUM) as [HR0 Hc0].
  destruct (dfs_spec X set (S NUM) HX ∅ (new_set junk NUM) k HR0 Hc0)
    as (t & T & Hd & HT & Hc & [Hi Hs Hcl Hl]); [set_solver|done|set_solver| |].
  { transitivity (size (below NUM)).
    - apply subseteq_size. intros i [Hi _]%elem_of_difference. apply elem_of_below.
      by apply (rep_bound _ _ _ _ HX).
    - unfold below. rewrite size_list_to_set by apply NoDup_seq. rewrite length_seq. lia. }
  fold D in Hd. rewrite Hd. exists t, T. split_and!; [done|done|done|].
  split; [set_solver|done| |].
  - intros i j HiT HjX HjT Hdep. apply HjT, (Hcl i j HiT (not_elem_of_empty i) HjX); [by intros ->|done].
  - intros Hsz. destruct (decide (T = {[k]})) as [->|HTk]; [by rewrite size_singleton in Hsz|].
    destruct (set_other T k) as (i & HiT & Hik); [clear -Hi; set_solver|done|].
    destruct (Hl i HiT (not_elem_of_empty i) Hik) as (j & wj & wi & _ & Hwi & Hw).
    apply wsd_ind_false_active in Hw as (m & Hm & Ha). by exists i, wi, m.
Qed.

(** The event of a component is independent of the event of the rest. *)
Lemma component_indep (X T : gset nat) (x : Z) :
  component X T -> ignores (sat_dnf (dnf Ss T)) x \/ ignores (sat_dnf (dnf Ss (X ∖ T))) x.
Proof.
  intros Hco.
  destruct (decide (Exists (fun c => x ∈ c.*1) (dnf Ss T))) as [He|He].
  - right. apply sat_dnf_ignores. intros c (j & wj & Hj & Hwj & ->)%elem_of_dnf Hx.
    apply Exists_exists in He as (c & (i & wi & Hi & Hwi & ->)%elem_of_dnf & Hxi).
    apply elem_of_difference in Hj as [HjX HjT].
    apply (co_closed _ _ Hco i j Hi HjX HjT). exists wi, wj. split_and!; [done..|].
    apply not_true_iff_false. rewrite wsd_ind_true. intros H. by apply (H x).
  - left. apply sat_dnf_ignores. intros c Hc Hx. apply He, Exists_exists. by exists c.
Qed.

Lemma PrS_split (W : wtable) (X T : gset nat) :
  wtable_ok W -> component X T ->
  PrS W Ss X = (PrS W Ss T + PrS W Ss (X ∖ T) - PrS W Ss T * PrS W Ss (X ∖ T))%Qc.
Proof.
  intros HW Hco. unfold PrS.
  rewrite <- (Pr_or_indep W HW (sat_dnf (dnf Ss T)) (sat_dnf (dnf Ss (X ∖ T)))).
  2: { intros x _. by apply component_indep. }
  apply Pr_ext. intros u. apply eq_true_iff_eq. rewrite orb_true_iff, !sat_dnf_iff.
  pose proof (co_sub _ _ Hco) as Hsub. split.
  - intros (i & w & Hi & ?).
    destruct (decide (i ∈ T)); [left|right]; exists i, w; rewrite ?elem_of_difference; auto.
  - intros [(i & w & Hi & ?)|(i & w & Hi & ?)]; exists i, w; [auto|].
    apply elem_of_difference in Hi as [??]. auto.
Qed.
End Partition.
