(* ===== verification/Choice.v ===== *)
(** * Choice: the variable to eliminate ([choose_var_minlog])

    The counting loop keeps the variables, range values and probabilities of the
    world table and leaves in each range entry the number of active maps that
    point to it; the selection loop picks an entry of least estimate among those
    with a positive count. *)
From S2P Require Import Prelude.
From S2P Require Import Bitset.
From S2P Require Import Worlds.
From S2P Require Import LocalCond.
From S2P Require Import WsTree.
From S2P Require Import Lineage.

Definition count_at (wt : list worldTableEntry) (k i : nat) : Z :=
  match wt !! k ≫= fun e => rng_entries e !! i with
  | Some re => re_count re
  | None => 0%Z
  end.

Lemma shape_lookup (wt : list worldTableEntry) (k : nat) (x : Z) (d : dist) :
  shape wt !! k = Some (x, d) ->
  exists e, wt !! k = Some e /\ wt_var e = x /\
    (fun re => (re_rng re, re_p re)) <$> rng_entries e = d.
Proof.
  unfold shape, shape_entry. rewrite list_lookup_fmap. destruct (wt !! k) as [e|]; [|done].
  intros [= <- <-]. by exists e.
Qed.

Lemma shape_entry_lookup (wt : list worldTableEntry) (k i : nat) (x : Z) (d : dist) (rp : Z * Qc) :
  shape wt !! k = Some (x, d) -> d !! i = Some rp ->
  exists e re, wt !! k = Some e /\ rng_entries e !! i = Some re /\ rp = (re_rng re, re_p re).
Proof.
  intros (e & He & _ & <-)%shape_lookup. rewrite list_lookup_fmap.
  destruct (rng_entries e !! i) as [re|] eqn:Hre; [|done]. intros [= <-]. by exists e, re.
Qed.

Lemma reset_shape (wt : list worldTableEntry) : shape (resetCount wt) = shape wt.
Proof.
  unfold shape, resetCount. rewrite <- list_fmap_compose. apply list_fmap_ext.
  intros k e _. unfold shape_entry; simpl. f_equal. by rewrite <- list_fmap_compose.
Qed.

Lemma reset_count_at (wt : list worldTableEntry) (k i : nat) : count_at (resetCount wt) k i = 0%Z.
Proof.
  unfold count_at, resetCount. rewrite list_lookup_fmap. destruct (wt !! k) as [e|]; [|done].
  simpl. rewrite list_lookup_fmap. by destruct (rng_entries e !! i).
Qed.

(** [counted Q wt]: the counts are the numbers of active maps in [Q], as far as
    their sign is concerned. *)
Record counted (W : wtable) (Q : Map -> Prop) (wt : list worldTableEntry) : Prop := {
  cd_shape : shape wt = W;
  cd_nonneg : forall k i, (0 <= count_at wt k i)%Z;
  cd_pos : forall k i, (0 < count_at wt k i)%Z <->
    exists m, Q m /\ active m /\ rng_entry m = Some (k, i) }.

Lemma counted_ext (W : wtable) (Q Q' : Map -> Prop) (wt : list worldTableEntry) :
  (forall m, Q m <-> Q' m) -> counted W Q wt -> counted W Q' wt.
Proof. intros H [Hs Hn Hp]. split; [done..|]. intros k i. rewrite Hp. by setoid_rewrite H. Qed.

Lemma counted_reset (wt : list worldTableEntry) :
  counted (shape wt) (fun _ => False) (resetCount wt).
Proof.
  split; [apply reset_shape|by intros; rewrite reset_count_at|].
  intros k i. rewrite reset_count_at. split; [lia|by intros (m & [] & _)].
Qed.

Lemma bump_count_spec (W : wtable) (wt : list worldTableEntry) (k i : nat) (x : Z) (d : dist)
    (rp : Z * Qc) :
  shape wt = W -> W !! k = Some (x, d) -> d !! i = Some rp ->
  exists wt', bump_count wt (Some (k, i)) = Some wt' /\ shape wt' = W /\
    forall k' i', count_at wt' k' i' =
      (count_at wt k' i' + (if decide (k' = k /\ i' = i) then 1 else 0))%Z.
Proof.
  intros <- Hk Hi. destruct (shape_entry_lookup _ _ _ _ _ _ Hk Hi) as (e & re & He & Hre & _).
  simpl. rewrite He. simpl. rewrite Hre. simpl. eexists. split; [done|]. split.
  - apply list_eq. intros k'. unfold shape. rewrite !list_lookup_fmap.
    destruct (decide (k' = k)) as [->|Hne].
    + rewrite list_lookup_insert_eq by (by apply lookup_lt_Some in He). rewrite He. simpl.
      unfold shape_entry; simpl. do 2 f_equal. apply list_eq. intros i'.
      rewrite !list_lookup_fmap. destruct (decide (i' = i)) as [->|Hne].
      * rewrite list_lookup_insert_eq by (by apply lookup_lt_Some in Hre). by rewrite Hre.
      * by rewrite list_lookup_insert_ne.
    + by rewrite list_lookup_insert_ne.
  - intros k' i'. unfold count_at. destruct (decide (k' = k)) as [->|Hne].
    + rewrite list_lookup_insert_eq by (by apply lookup_lt_Some in He). rewrite He. simpl.
      destruct (decide (i' = i)) as [->|Hne].
      * rewrite list_lookup_insert_eq by (by apply lookup_lt_Some in Hre). rewrite Hre. simpl.
        by rewrite decide_True.
      * rewrite list_lookup_insert_ne by done. rewrite decide_False by naive_solver. lia.
    + rewrite list_lookup_insert_ne by done. rewrite decide_False by naive_solver. lia.
Qed.

Lemma count_map_spec (W : wtable) (Q : Map -> Prop) (wt : list worldTableEntry) (m : Map) :
  counted W Q wt -> map_ok W m ->
  exists wt', (if (0 <=? rng m)%Z then bump_count wt (rng_entry m) else Some wt) = Some wt' /\
    counted W (fun m' => Q m' \/ m' = m) wt'.
Proof.
  intros [Hs Hn Hp] [_ Hr (k & i & d & r & Hre & Hk & Hi & _) _].
  destruct (Z.leb_spec 0 (rng m)) as [H0|H0].
  - destruct (bump_count_spec W wt k i _ _ _ Hs Hk Hi) as (wt' & Hb & Hs' & Hc).
    rewrite Hre. exists wt'. split; [done|]. split; [done| |].
    + intros k' i'. rewrite Hc. specialize (Hn k' i'). destruct (decide _); lia.
    + intros k' i'. rewrite Hc. specialize (Hn k' i'). specialize (Hp k' i').
      assert (active m) by (unfold active; lia).
      destruct (decide (k' = k /\ i' = i)) as [[-> ->]|Hne].
      * split; [|lia]. intros _. exists m. auto.
      * rewrite Z.add_0_r, Hp. split; [naive_solver|].
        intros (m' & [HQ| ->] & Ha & He); [by exists m'|]. exfalso. apply Hne.
        rewrite Hre in He. by injection He as -> ->.
  - exists wt. split; [done|]. split; [done..|]. intros k' i'. rewrite Hp.
    assert (~ active m) by (unfold active; lia). naive_solver.
Qed.

Lemma count_maps_spec (W : wtable) (Q : Map -> Prop) (ms : list Map) (wt : list worldTableEntry) :
  counted W Q wt -> Forall (map_ok W) ms ->
  exists wt', for_list ms (fun m wt =>
      if (0 <=? rng m)%Z then bump_count wt (rng_entry m) else Some wt) wt = Some wt' /\
    counted W (fun m => Q m \/ m ∈ ms) wt'.
Proof.
  intros HQ Hok. apply (for_list_inv (fun ms => counted W (fun m => Q m \/ m ∈ ms))).
  - eapply counted_ext; [|exact HQ]. set_solver.
  - intros l1 m l2 wt1 -> Hc. rewrite Forall_app, Forall_cons in Hok.
    destruct (count_map_spec W _ wt1 m Hc) as (wt2 & Hb & Hc2); [apply Hok|].
    exists wt2. split; [done|]. eapply counted_ext; [|exact Hc2]. set_solver.
Qed.

(** ** The selection loop *)

Definition candidate (e : worldTableEntry) : Prop := how_many_diff_assignments e <> 0.

Lemma candidate_iff (e : worldTableEntry) :
  candidate e <-> exists i re, rng_entries e !! i = Some re /\ (0 < re_count re)%Z.
Proof.
  unfold candidate, how_many_diff_assignments.
  destruct (filter _ _) as [|re l] eqn:Hf.
  - split; [done|]. intros (i & re & Hre & Hpos).
    assert (re ∈ filter (fun re => (0 < re_count re)%Z) (rng_entries e)) as Hin.
    { apply list_elem_of_filter. split; [done|]. by eapply list_elem_of_lookup_2. }
    rewrite Hf in Hin. by apply elem_of_nil in Hin.
  - split; [|done]. intros _.
    assert (re ∈ filter (fun re => (0 < re_count re)%Z) (rng_entries e)) as Hin
      by (rewrite Hf; apply list_elem_of_here).
    apply list_elem_of_filter in Hin as [Hpos (i & Hi)%list_elem_of_lookup]. by exists i, re.
Qed.

(** The minimum found so far. *)
Definition least (n : Z) (l : list (nat * worldTableEntry)) (vr : Z * option nat) : Prop :=
  match vr.2 with
  | None => vr.1 = (-1)%Z /\ forall k e, (k, e) ∈ l -> ~ candidate e
  | Some k => exists e, (k, e) ∈ l /\ candidate e /\ vr.1 = new_val n e /\
      ((forall k' e', (k', e') ∈ l -> 0 <= new_val n e')%Z ->
       forall k' e', (k', e') ∈ l -> candidate e' -> (new_val n e <= new_val n e')%Z)
  end.

Lemma select_least (n : Z) (l : list (nat * worldTableEntry)) :
  least n l (foldl (select_step n) ((-1)%Z, None) l).
Proof.
  induction l as [|[k e] l IH] using rev_ind; simpl.
  { split; [done|]. by intros k e ?%elem_of_nil. }
  rewrite foldl_snoc. destruct (foldl _ _ l) as [val res]. unfold least, select_step; simpl.
  destruct (Nat.eqb_spec (how_many_diff_assignments e) 0) as [Hd|Hd]; simpl.
  - unfold least in IH; simpl in IH. destruct res as [k0|].
    + destruct IH as (e0 & Hin & Hc & Hv & Hmin). exists e0. split_and!; [set_solver|done..|].
      intros Hnn k' e' [Hl|Hl]%elem_of_app Hc'; [apply (Hmin ltac:(set_solver) k' e' Hl Hc')|].
      apply list_elem_of_singleton in Hl as [= -> ->]. by destruct Hc'.
    + destruct IH as [Hv Hno]. split; [done|]. intros k' e' [Hl|Hl]%elem_of_app; [by eapply Hno|].
      apply list_elem_of_singleton in Hl as [= -> ->]. intros Hc'. by destruct Hc'.
  - destruct (Z.gtb_spec val (new_val n e)) as [Hlt|Hle];
      destruct (Z.eqb_spec val (-1)) as [H1|H1]; simpl;
      unfold least in IH; simpl in IH.
    1-3: exists e; split_and!; [set_solver|done|done|];
      intros Hnn k' e' [Hl|Hl]%elem_of_app Hc';
      [|by apply list_elem_of_singleton in Hl as [= -> ->]];
      destruct res as [k0|]; [|exfalso; by apply (proj2 IH k' e' Hl)];
      destruct IH as (e0 & Hin & Hc & Hv & Hmin);
      specialize (Hmin ltac:(set_solver) k' e' Hl Hc'); 
      specialize (Hnn k0 e0 ltac:(set_solver)); lia.
    destruct res as [k0|]; [|by destruct (proj1 IH)].
    destruct IH as (e0 & Hin & Hc & Hv & Hmin). exists e0. split_and!; [set_solver|done..|].
    intros Hnn k' e' [Hl|Hl]%elem_of_app Hc'; [apply (Hmin ltac:(set_solver) k' e' Hl Hc')|].
    apply list_elem_of_singleton in Hl as [= -> ->]. lia.
Qed.

Lemma elem_of_imap_pair (wt : list worldTableEntry) (k : nat) (e : worldTableEntry) :
  (k, e) ∈ imap pair wt <-> wt !! k = Some e.
Proof.
  rewrite elem_of_lookup_imap. split.
  - intros (i & y & [= -> ->] & H). done.
  - intros H. by exists k, e.
Qed.

Lemma candidate_count (wt : list worldTableEntry) (k : nat) (e : worldTableEntry) :
  wt !! k = Some e -> candidate e <-> exists i, (0 < count_at wt k i)%Z.
Proof.
  intros He. rewrite candidate_iff. unfold count_at. rewrite He. simpl. split.
  - intros (i & re & Hre & H). exists i. by rewrite Hre.
  - intros (i & H). destruct (rng_entries e !! i) as [re|] eqn:Hre; [|lia]. by exists i, re.
Qed.

(** ** The whole function *)

(** The clauses of the set [X] are well formed. *)
Definition clauses_ok (W : wtable) (Ss : list WSD) : Prop := Forall (wsd_ok W) Ss.

Definition occurs (Ss : list WSD) (X : gset nat) (m : Map) : Prop :=
  exists i w, i ∈ X /\ Ss !! i = Some w /\ m ∈ data w.

Section Choice.
Context (NUM : nat) (Ss : list WSD) (W : wtable) (Hlen : length Ss = NUM).
Context (HSs : clauses_ok W Ss).

Lemma count_loop_spec (X : gset nat) (set : bitset) (wt : list worldTableEntry) :
  Rep NUM X set -> shape wt = W ->
  exists n wt', count_loop NUM Ss set (resetCount wt) = Some (n, wt') /\
    counted W (occurs Ss X) wt'.
Proof using Hlen HSs.
  intros HX <-. unfold count_loop.
  edestruct (for_upto_inv (fun i (nw : Z * list worldTableEntry) => counted (shape wt) (occurs Ss (X ∩ below i)) nw.2) NUM)
    as ([n wt'] & Hl & Hc); [| |exists n, wt'; split; [exact Hl|]].
  - simpl. eapply counted_ext; [|apply counted_reset]. intros m.
    split; [done|]. intros (i & w & (_ & Hi%elem_of_below)%elem_of_intersection & _). lia.
  - intros i [n wt1] Hi Hc. simpl in Hc |- *. rewrite below_S.
    destruct (lookup_lt_is_Some_2 Ss i) as [w Hw]; [lia|].
    test_bit.
    + rewrite Hw. simpl.
      destruct (count_maps_spec (shape wt) _ (data w) wt1 Hc) as (wt2 & -> & Hc2).
      { apply wo_maps. unfold clauses_ok in HSs. rewrite Forall_forall in HSs.
        apply HSs. by eapply list_elem_of_lookup_2. }
      simpl. eexists. split; [done|]. simpl. eapply counted_ext; [|exact Hc2]. intros m.
      unfold occurs. setoid_rewrite elem_of_intersection. setoid_rewrite elem_of_union.
      setoid_rewrite elem_of_singleton. split.
      * intros [(j & wj & ? & ? & ?)|Hm]; [exists j, wj; naive_solver|exists i, w; naive_solver].
      * intros (j & wj & (? & [->|?]) & ? & ?); [right; congruence|left; by exists j, wj].
    + eexists. split; [done|]. simpl. eapply counted_ext; [|exact Hc]. intros m.
      unfold occurs. setoid_rewrite elem_of_intersection. setoid_rewrite elem_of_union.
      setoid_rewrite elem_of_singleton. naive_solver.
  - simpl in Hc. eapply counted_ext; [|exact Hc]. intros m. unfold occurs.
    setoid_rewrite elem_of_intersection. setoid_rewrite elem_of_below.
    split; [naive_solver|]. intros (i & w & Hi & ?). exists i, w.
    pose proof (rep_bound _ _ _ _ HX Hi). naive_solver.
Qed.

(** The choice: an entry of an active map, or none when every map is dropped. *)
Lemma choose_var_minlog_spec (X : gset nat) (set : bitset) (wt : list worldTableEntry) :
  Rep NUM X set -> shape wt = W ->
  exists res wt', choose_var_minlog NUM Ss set wt = Some (res, wt') /\ shape wt' = W /\
    match res with
    | None => forall m, occurs Ss X m -> ~ active m
    | Some k => exists m i, occurs Ss X m /\ active m /\ rng_entry m = Some (k, i)
    end.
Proof using Hlen HSs.
  intros HX Hsh. unfold choose_var_minlog.
  destruct (count_loop_spec X set wt HX Hsh) as (n & wt' & -> & [Hs _ Hp]). simpl.
  eexists _, wt'. split; [done|]. split; [done|]. unfold select_var.
  pose proof (select_least n (imap pair wt')) as Hl. unfold least in Hl.
  destruct (foldl _ _ _) as [val [k|]]; simpl in *.
  - destruct Hl as (e & He%elem_of_imap_pair & Hc & _).
    apply (candidate_count wt' k e He) in Hc as (i & (m & Hm)%Hp). by exists m, i.
  - destruct Hl as [_ Hno]. intros m Hm Ha.
    assert (map_ok W m) as [_ _ (k & i & d & r & Hre & Hk & _) _].
    { destruct Hm as (j & w & _ & Hw & Hm). unfold clauses_ok in HSs.
      rewrite Forall_forall in HSs. specialize (HSs w (list_elem_of_lookup_2 _ _ _ Hw)).
      apply wo_maps in HSs. rewrite Forall_forall in HSs. auto. }
    rewrite <- Hs in Hk. apply shape_lookup in Hk as (e & He & _).
    apply (Hno k e); [by apply elem_of_imap_pair|]. apply (candidate_count wt' k e He).
    exists i. apply Hp. by exists m.
Qed.
End Choice.
