(* ===== verification/Condition.v ===== *)
(** * Condition: fixing the value of one variable in place

    [find_wsds_without_var], [find_wsds_with_var_rng] and [reset_wsds_var_rng] of
    [WsTree]: which sets they return, what they do to the clause array, that the
    reset undoes the drop, and that the modified clauses denote the event under
    the condition that the variable has the given value. *)
From S2P Require Import Prelude.
From S2P Require Import Bitset.
From S2P Require Import Worlds.
From S2P Require Import LocalCond.
From S2P Require Import WsTree.
From S2P Require Import Lineage.
From S2P Require Import Choice.

(** A set that is NULL when it is empty. *)
Definition ORep (n : nat) (X : gset nat) (o : option bitset) : Prop :=
  match o with
  | None => X = ∅
  | Some b => Rep n X b /\ (Clean b \/ X <> ∅)
  end.

(** ** One clause *)

Definition dropw (v r : Z) (w : WSD) : WSD :=
  match list_find (fun m => var m = v /\ rng m = r) (data w) with
  | Some (j, m) => drop_map w j m
  | None => w
  end.

Definition mentions (v : Z) (w : WSD) : Prop := v ∈ (var <$> data w).
Definition has_lit (v r : Z) (w : WSD) : Prop := (v, r) ∈ ((fun m => (var m, rng m)) <$> data w).
#[export] Instance mentions_dec v w : Decision (mentions v w).
Proof. unfold mentions. apply _. Defined.
#[export] Instance has_lit_dec v r w : Decision (has_lit v r w).
Proof. unfold has_lit. apply _. Defined.

Lemma has_lit_iff (v r : Z) (w : WSD) :
  has_lit v r w <-> exists m, m ∈ data w /\ var m = v /\ rng m = r.
Proof. unfold has_lit. rewrite list_elem_of_fmap. naive_solver. Qed.

Lemma mentions_iff (v : Z) (w : WSD) : mentions v w <-> exists m, m ∈ data w /\ var m = v.
Proof. unfold mentions. rewrite list_elem_of_fmap. naive_solver. Qed.

Lemma has_lit_mentions (v r : Z) (w : WSD) : has_lit v r w -> mentions v w.
Proof. rewrite has_lit_iff, mentions_iff. naive_solver. Qed.

(** A clause without the literal is found by no search. *)
Lemma list_find_lit (v r : Z) (w : WSD) :
  match list_find (fun m => var m = v /\ rng m = r) (data w) with
  | Some _ => has_lit v r w
  | None => ~ has_lit v r w
  end.
Proof.
  destruct (list_find _ _) as [[j m]|] eqn:Hf.
  - apply list_find_Some in Hf as (Hj & [Hv Hr] & _). apply has_lit_iff. exists m.
    split; [by eapply list_elem_of_lookup_2|done].
  - apply list_find_None in Hf. rewrite Forall_forall in Hf.
    intros (m & Hm & Hvr)%has_lit_iff. by apply (Hf m).
Qed.

(** Where the variable occurs once, the clause splits around its map. *)
Record split_at (v : Z) (w : WSD) (l1 l2 : list Map) (m : Map) : Prop := {
  sp_data : data w = l1 ++ m :: l2;
  sp_var : var m = v;
  sp_left : v ∉ (var <$> l1);
  sp_right : v ∉ (var <$> l2) }.

Lemma nodup_split (v : Z) (w : WSD) (l1 l2 : list Map) (m : Map) :
  NoDup (var <$> data w) -> data w = l1 ++ m :: l2 -> var m = v -> split_at v w l1 l2 m.
Proof.
  intros Hnd Hd Hv. rewrite Hd, fmap_app in Hnd. simpl in Hnd.
  apply NoDup_app in Hnd as (_ & Hl & [Hr _]%NoDup_cons). subst v. split; [done..| |done].
  intros H. apply (Hl _ H). apply list_elem_of_here.
Qed.

Lemma mentions_split (v : Z) (w : WSD) :
  NoDup (var <$> data w) -> mentions v w -> exists l1 l2 m, split_at v w l1 l2 m.
Proof.
  intros Hnd (m & Hm & Hv)%mentions_iff. apply list_elem_of_split in Hm as (l1 & l2 & Hd).
  exists l1, l2, m. by apply nodup_split.
Qed.

Lemma dropw_split (v r : Z) (w : WSD) :
  NoDup (var <$> data w) -> has_lit v r w ->
  exists l1 l2 m, split_at v w l1 l2 m /\ rng m = r /\
    dropw v r w = mk_WSD (l1 ++ set_rng m (-1) :: l2) (wprob w / mprob m)%Qc.
Proof.
  intros Hnd Hl. pose proof (list_find_lit v r w) as Hf. unfold dropw.
  destruct (list_find _ _) as [[j m]|] eqn:He; [|done].
  apply list_find_Some in He as (Hj & [Hv Hr] & _).
  pose proof (take_drop_middle _ _ _ Hj) as Hd.
  exists (take j (data w)), (drop (S j) (data w)), m. split_and!; [by apply nodup_split|done|].
  unfold drop_map. f_equal. rewrite insert_take_drop by (by apply lookup_lt_Some in Hj). done.
Qed.

Lemma dropw_none (v r : Z) (w : WSD) : ~ has_lit v r w -> dropw v r w = w.
Proof.
  intros Hl. pose proof (list_find_lit v r w) as Hf. unfold dropw.
  destruct (list_find _ _) as [[j m]|]; done.
Qed.

(** Dropping an assignment keeps the clause well formed. *)
Lemma dropw_ok (W : wtable) (v r : Z) (w : WSD) :
  wsd_ok W w -> r <> (-1)%Z -> wsd_ok W (dropw v r w).
Proof.
  intros Hok Hr. destruct (decide (has_lit v r w)) as [Hl|Hl]; [|by rewrite dropw_none].
  destruct (dropw_split v r w (wo_nodup _ _ Hok) Hl) as (l1 & l2 & m & [Hd Hv _ _] & Hm & ->).
  destruct Hok as [Hnd Hmaps Hp]. rewrite Hd in *.
  split; simpl.
  - by rewrite fmap_app in *.
  - rewrite Forall_app, Forall_cons in *. destruct Hmaps as (? & [Hpos _ He Hwt] & ?).
    split_and!; [done| |done]. split; simpl; [done|by left| |done].
    destruct He as (k & i & d & r' & ? & ? & ? & _). exists k, i, d, r'. auto.
  - rewrite Hp, !filter_app, !filter_cons.
    rewrite decide_True by (unfold active; congruence). rewrite decide_False by (unfold active; auto).
    rewrite !fmap_app, fmap_cons, !qprod_app, qprod_cons.
    rewrite Forall_app, Forall_cons in Hmaps. destruct Hmaps as (_ & [Hpos _ _ _] & _).
    field. intros H0. rewrite H0 in Hpos. done.
Qed.

Lemma reset_fmap (v r : Z) (l : list Map) :
  v ∉ (var <$> l) -> (fun m => if (var m =? v)%Z then set_rng m r else m) <$> l = l.
Proof.
  intros Hv. induction l as [|m l IH]; csimpl in *; [done|]. apply not_elem_of_cons in Hv as [Hm Hv].
  destruct (Z.eqb_spec (var m) v); [congruence|]. by rewrite IH.
Qed.

Lemma reset_foldl (v : Z) (l : list Map) (p : Qc) :
  v ∉ (var <$> l) ->
  foldl (fun p m => if (var m =? v)%Z then (p * mprob m)%Qc else p) p l = p.
Proof.
  revert p. induction l as [|m l IH]; intros p Hv; simpl in *; [done|].
  apply not_elem_of_cons in Hv as [Hm Hv]. destruct (Z.eqb_spec (var m) v); [congruence|]. auto.
Qed.

Lemma reset_wsd_none (v r : Z) (w : WSD) : ~ mentions v w -> reset_wsd w v r = w.
Proof.
  intros Hv. unfold reset_wsd. rewrite reset_fmap, reset_foldl by done. by destruct w.
Qed.

(** Resetting undoes dropping. *)
Lemma reset_dropw (W : wtable) (v r : Z) (w : WSD) :
  wsd_ok W w -> has_lit v r w -> reset_wsd (dropw v r w) v r = w.
Proof.
  intros Hok Hl.
  destruct (dropw_split v r w (wo_nodup _ _ Hok) Hl) as (l1 & l2 & m & [Hd Hv Hnl Hnr] & Hm & ->).
  unfold reset_wsd; simpl. rewrite fmap_app, foldl_app, fmap_cons. simpl.
  rewrite reset_fmap, (reset_foldl v l1) by done. rewrite reset_fmap, (reset_foldl v l2) by done.
  rewrite Hv, Z.eqb_refl. destruct w as [dw pw]; simpl in *. f_equal.
  - rewrite Hd. f_equal. f_equal. destruct m; unfold set_rng; simpl in *. congruence.
  - pose proof (wo_maps _ _ Hok) as Hmaps. simpl in Hmaps.
    rewrite Hd, Forall_app, Forall_cons in Hmaps. destruct Hmaps as (_ & [Hpos _ _ _] & _).
    field. intros H0. rewrite H0 in Hpos. done.
Qed.

(** ** Meaning *)

Lemma lits_cons_app (l1 l2 : list Map) (m : Map) (p : Qc) (u : world) :
  sat_clause (lits (mk_WSD (l1 ++ m :: l2) p)) u =
  sat_clause (lits (mk_WSD l1 p)) u && sat_clause (lits (mk_WSD [m] p)) u &&
  sat_clause (lits (mk_WSD l2 p)) u.
Proof.
  apply eq_true_iff_eq. rewrite !andb_true_iff, !sat_clause_true. simpl.
  setoid_rewrite elem_of_app. setoid_rewrite elem_of_cons. setoid_rewrite elem_of_nil. naive_solver.
Qed.

Lemma sat_insert_none (v r : Z) (l : list Map) (p : Qc) (u : world) :
  v ∉ (var <$> l) -> sat_clause (lits (mk_WSD l p)) (<[v := r]> u) = sat_clause (lits (mk_WSD l p)) u.
Proof.
  intros Hv. apply sat_clause_insert_ne. intros (m & Hm & _ & He)%elem_of_lit_vars.
  apply Hv. apply list_elem_of_fmap. by exists m.
Qed.

Lemma sat_lits_data (w : WSD) (p : Qc) (u : world) :
  sat_clause (lits w) u = sat_clause (lits (mk_WSD (data w) p)) u.
Proof. done. Qed.

(** The value [r] of [v] under a clause: unaffected without [v], the dropped
    clause where [v] is assigned [r], false where it is assigned another value. *)
Lemma sat_insert (v r : Z) (w : WSD) (u : world) :
  NoDup (var <$> data w) -> r <> (-1)%Z ->
  (forall m, m ∈ data w -> var m = v -> active m) ->
  sat_clause (lits w) (<[v := r]> u) =
    if decide (mentions v w)
    then if decide (has_lit v r w) then sat_clause (lits (dropw v r w)) u else false
    else sat_clause (lits w) u.
Proof.
  intros Hnd Hr Hact. destruct (decide (mentions v w)) as [Hm|Hm].
  2: { rewrite !(sat_lits_data w 0%Qc). by apply sat_insert_none. }
  destruct (decide (has_lit v r w)) as [Hl|Hl].
  - destruct (dropw_split v r w Hnd Hl) as (l1 & l2 & m & [Hd Hv Hnl Hnr] & Hmr & ->).
    rewrite (sat_lits_data w (wprob w / mprob m)%Qc), Hd, !lits_cons_app.
    rewrite (sat_insert_none v r l1), (sat_insert_none v r l2) by done. f_equal. f_equal.
    apply eq_true_iff_eq. rewrite !sat_clause_true. simpl. setoid_rewrite elem_of_cons.
    setoid_rewrite elem_of_nil. split.
    + intros _ m' [-> |[]]. intros H. by destruct H.
    + intros _ m' [-> |[]] _. by rewrite Hv, Hmr, lookup_insert_eq.
  - apply not_true_iff_false. rewrite sat_clause_true. intros H.
    apply mentions_iff in Hm as (m & Hm & Hv). specialize (H m Hm (Hact m Hm Hv)).
    rewrite Hv, lookup_insert_eq in H. injection H as ->. apply Hl, has_lit_iff. by exists m.
Qed.

(** ** The clause array *)

Definition upd_on (f : WSD -> WSD) (D : gset nat) (Ss : list WSD) : list WSD :=
  imap (fun i w => if decide (i ∈ D) then f w else w) Ss.
Definition drop_on (v r : Z) : gset nat -> list WSD -> list WSD := upd_on (dropw v r).
Definition reset_on (v r : Z) : gset nat -> list WSD -> list WSD :=
  upd_on (fun w => reset_wsd w v r).

Lemma upd_on_lookup (f : WSD -> WSD) (D : gset nat) (Ss : list WSD) (i : nat) :
  upd_on f D Ss !! i = (fun w => if decide (i ∈ D) then f w else w) <$> Ss !! i.
Proof. apply list_lookup_imap. Qed.

Lemma upd_on_length (f : WSD -> WSD) (D : gset nat) (Ss : list WSD) :
  length (upd_on f D Ss) = length Ss.
Proof. apply length_imap. Qed.

Lemma upd_on_empty (f : WSD -> WSD) (Ss : list WSD) : upd_on f ∅ Ss = Ss.
Proof. apply list_eq. intros i. rewrite upd_on_lookup. by destruct (Ss !! i). Qed.

Lemma upd_on_insert (f : WSD -> WSD) (D : gset nat) (Ss : list WSD) (i : nat) (w : WSD) :
  Ss !! i = Some w -> i ∉ D -> upd_on f D (<[i := f w]> Ss) = upd_on f ({[i]} ∪ D) Ss.
Proof.
  intros Hw Hi. apply list_eq. intros j. rewrite !upd_on_lookup.
  destruct (decide (j = i)) as [->|Hne].
  - rewrite list_lookup_insert_eq by (by apply lookup_lt_Some in Hw). rewrite Hw. simpl.
    rewrite decide_False, decide_True by set_solver. done.
  - rewrite list_lookup_insert_ne by done. destruct (Ss !! j); [|done]. simpl. f_equal.
    destruct (decide (j ∈ D)); [rewrite decide_True by set_solver|rewrite decide_False by set_solver];
      done.
Qed.

Definition without (v : Z) (Ss : list WSD) (X : gset nat) : gset nat :=
  filter (fun i => match Ss !! i with Some w => bool_decide (~ mentions v w) | None => false end = true) X.
Definition having (v r : Z) (Ss : list WSD) (X : gset nat) : gset nat :=
  filter (fun i => match Ss !! i with Some w => bool_decide (has_lit v r w) | None => false end = true) X.

Lemma elem_of_without (v : Z) (Ss : list WSD) (X : gset nat) (i : nat) (w : WSD) :
  Ss !! i = Some w -> i ∈ without v Ss X <-> i ∈ X /\ ~ mentions v w.
Proof. intros Hw. unfold without. rewrite elem_of_filter, Hw, bool_decide_eq_true. tauto. Qed.

Lemma elem_of_having (v r : Z) (Ss : list WSD) (X : gset nat) (i : nat) (w : WSD) :
  Ss !! i = Some w -> i ∈ having v r Ss X <-> i ∈ X /\ has_lit v r w.
Proof. intros Hw. unfold having. rewrite elem_of_filter, Hw, bool_decide_eq_true. tauto. Qed.

Lemma mentions_forallb (v : Z) (w : WSD) :
  forallb (fun m => negb (var m =? v)%Z) (data w) = negb (bool_decide (mentions v w)).
Proof.
  apply eq_true_iff_eq. rewrite forallb_forall, negb_true_iff, bool_decide_eq_false, mentions_iff.
  setoid_rewrite negb_true_iff. setoid_rewrite Z.eqb_neq. setoid_rewrite <- list_elem_of_In.
  naive_solver.
Qed.

(** The positions processed by the loop: all that have the literal, or those up
    to a clause that became certain. *)
Record processed (Ss : list WSD) (X : gset nat) (ixs : list nat) (v r : Z) (D : gset nat)
    (found_empty : bool) : Prop := {
  pr_in : forall i, i ∈ D -> i ∈ ixs /\ i ∈ having v r Ss X;
  pr_all : found_empty = false -> forall i, i ∈ ixs -> i ∈ having v r Ss X -> i ∈ D;
  pr_empty : found_empty = true ->
    exists i w, i ∈ D /\ Ss !! i = Some w /\ wprob (dropw v r w) = 1%Qc }.

Lemma processed_skip (Ss : list WSD) (X : gset nat) (ixs : list nat) (v r : Z) (D : gset nat)
    (f : bool) (i : nat) :
  processed Ss X ixs v r D f -> i ∉ having v r Ss X -> processed Ss X (i :: ixs) v r D f.
Proof.
  intros [H1 H2 H3] Hi. split; [|intros Hf j [->|Hj]%elem_of_cons Hh; [done|auto]|done].
  intros j Hj. destruct (H1 j Hj). split; [by apply list_elem_of_further|done].
Qed.

Lemma processed_drop (Ss : list WSD) (X : gset nat) (ixs : list nat) (v r : Z) (D : gset nat)
    (f : bool) (i : nat) (w : WSD) :
  i ∉ ixs -> Ss !! i = Some w -> i ∈ having v r Ss X ->
  processed (<[i := dropw v r w]> Ss) X ixs v r D f ->
  processed Ss X (i :: ixs) v r ({[i]} ∪ D) f.
Proof.
  intros Hni Hw Hi [H1 H2 H3].
  assert (Hsame : forall j, j ∈ ixs -> (<[i := dropw v r w]> Ss) !! j = Ss !! j).
  { intros j Hj. apply list_lookup_insert_ne. intros ->. done. }
  assert (Hh : forall j, j ∈ ixs ->
    j ∈ having v r (<[i := dropw v r w]> Ss) X <-> j ∈ having v r Ss X).
  { intros j Hj. unfold having. by rewrite !elem_of_filter, Hsame. }
  split.
  - intros j [->%elem_of_singleton|Hj]%elem_of_union; [split; [apply list_elem_of_here|done]|].
    destruct (H1 j Hj) as [Hjx Hjh]. split; [by apply list_elem_of_further|by apply Hh].
  - intros Hf j [->|Hj]%elem_of_cons Hjh; [set_solver|].
    apply elem_of_union_r, H2; [done..|by apply Hh].
  - intros Hf. destruct (H3 Hf) as (j & wj & Hj & Hwj & Hp).
    exists j, wj. destruct (H1 j Hj) as [Hjx _]. rewrite Hsame in Hwj by done. set_solver.
Qed.

Section Condition.
Context (junk : nat -> N) (NUM : nat).

Lemma add_to_spec (X : gset nat) (o : option bitset) (i : nat) :
  ORep NUM X o -> i < NUM ->
  exists b, add_to junk NUM o i = Some (Some b) /\ Rep NUM ({[i]} ∪ X) b /\ 
    (match o with Some b0 => Clean b0 -> Clean b | None => Clean b end).
Proof.
  intros HX Hi. unfold add_to. destruct o as [b0|]; simpl in *.
  - destruct HX as [HX Hc].
    destruct (bitset_set_bit_spec _ _ _ i HX Hi) as (b & -> & HR & HC). by exists b.
  - subst X. destruct (bitset_fresh_spec junk NUM) as [HR0 HC0].
    destruct (bitset_set_bit_spec _ _ _ i HR0 Hi) as (b & Hb & HR & HC).
    unfold new_set. rewrite Hb. exists b. auto.
Qed.

(** Sets built by [add_to]: clean, and NULL exactly when empty. *)
Definition Built (X : gset nat) (o : option bitset) : Prop :=
  match o with None => X = ∅ | Some b => Rep NUM X b /\ Clean b /\ X <> ∅ end.

Lemma built_orep (X : gset nat) (o : option bitset) : Built X o -> ORep NUM X o.
Proof. destruct o; simpl; [intros (?&?&?); auto|done]. Qed.

Lemma add_to_built (X : gset nat) (o : option bitset) (i : nat) :
  Built X o -> i < NUM ->
  exists o', add_to junk NUM o i = Some o' /\ Built ({[i]} ∪ X) o'.
Proof.
  intros HX Hi. destruct (add_to_spec X o i (built_orep _ _ HX) Hi) as (b & Hb & HR & HC).
  exists (Some b). split; [done|]. simpl. split_and!; [done| |set_solver].
  destruct o; simpl in HX; [apply HC; tauto|done].
Qed.

Lemma find_wsds_without_var_spec (Ss : list WSD) (X : gset nat) (set : bitset) (v : Z) :
  length Ss = NUM -> Rep NUM X set ->
  exists o, find_wsds_without_var junk NUM Ss set v = Some o /\ Built (without v Ss X) o.
Proof.
  intros Hlen HX. unfold find_wsds_without_var.
  edestruct (for_upto_inv (fun i o => Built (without v Ss (X ∩ below i)) o) NUM)
    as (o & Ho & Hb); [| |exists o; split; [exact Ho|]].
  - simpl. apply set_eq. intros i. split; [|set_solver].
    intros (_ & (_ & Hi%elem_of_below)%elem_of_intersection)%elem_of_filter. lia.
  - intros i o Hi Hb. rewrite below_S. destruct (lookup_lt_is_Some_2 Ss i) as [w Hw]; [lia|].
    assert (Hgo : without v Ss (X ∩ ({[i]} ∪ below i)) =
      (if decide (i ∈ X /\ ~ mentions v w) then {[i]} else ∅) ∪ without v Ss (X ∩ below i)).
    { apply set_eq. intros j. unfold without. rewrite elem_of_union, !elem_of_filter.
      rewrite !elem_of_intersection, elem_of_union, elem_of_singleton.
      destruct (decide (j = i)) as [->|Hne].
      - rewrite Hw, bool_decide_eq_true. destruct (decide _); rewrite ?elem_of_singleton, ?elem_of_empty; tauto.
      - destruct (decide _); rewrite ?elem_of_singleton, ?elem_of_empty; tauto. }
    rewrite Hgo. test_bit.
    + rewrite Hw. simpl. rewrite mentions_forallb.
      destruct (bool_decide_reflect (mentions v w)); simpl.
      * exists o. rewrite decide_False by tauto. by rewrite (left_id_L ∅ (∪)).
      * rewrite decide_True by done. by apply add_to_built.
    + exists o. rewrite decide_False by tauto. by rewrite (left_id_L ∅ (∪)).
  - replace X with (X ∩ below NUM); [done|]. apply set_eq. intros i.
    rewrite elem_of_intersection, elem_of_below. pose proof (rep_bound _ _ _ i HX). tauto.
Qed.

Lemma reset_wsds_var_rng_spec (Ss : list WSD) (X : gset nat) (set : bitset) (v r : Z) :
  length Ss = NUM -> Rep NUM X set ->
  reset_wsds_var_rng NUM Ss set v r = Some (reset_on v r X Ss).
Proof.
  clear junk. intros Hlen HX. unfold reset_wsds_var_rng.
  edestruct (for_upto_inv (fun n S1 => S1 = reset_on v r (X ∩ below n) Ss) NUM)
    as (S1 & -> & ->).
  - simpl. replace (X ∩ below 0) with (∅ : gset nat) by (cbn; set_solver).
    symmetry. apply upd_on_empty.
  - intros i S1 Hi ->. rewrite below_S. destruct (lookup_lt_is_Some_2 Ss i) as [w Hw]; [lia|].
    assert (Hni : i ∉ X ∩ below i) by (rewrite elem_of_intersection, elem_of_below; lia).
    test_bit.
    + unfold reset_on. rewrite upd_on_lookup, Hw. simpl. rewrite decide_False by done.
      eexists. split; [done|]. apply list_eq. intros j. rewrite upd_on_lookup.
      destruct (decide (j = i)) as [->|Hne].
      * rewrite list_lookup_insert_eq by (rewrite upd_on_length; lia).
        rewrite Hw. simpl. rewrite decide_True; [done|]. clear -e. set_solver.
      * rewrite list_lookup_insert_ne by done. rewrite upd_on_lookup.
        destruct (Ss !! j); [|done]. simpl. f_equal. apply decide_ext. set_solver.
    + eexists. split; [done|]. f_equal. set_solver.
  - do 2 f_equal. apply set_eq. intros i.
    rewrite elem_of_intersection, elem_of_below. pose proof (rep_bound _ _ _ i HX). tauto.
Qed.

Lemma with_var_loop_spec (X : gset nat) (set : bitset) (v r : Z) (ixs : list nat) :
  Rep NUM X set -> NoDup ixs -> (forall i, i ∈ ixs -> i < NUM) ->
  forall Ss D0 o, length Ss = NUM -> Built D0 o ->
  exists D o' f, with_var_loop junk NUM ixs Ss set v r o = Some (o', drop_on v r D Ss, f) /\
    Built (D ∪ D0) o' /\ processed Ss X ixs v r D f.
Proof.
  intros HX. induction ixs as [|i ixs IH]; intros Hnd Hb Ss D0 o Hlen HD; simpl.
  { exists ∅, o, false. unfold drop_on. rewrite upd_on_empty, (left_id_L ∅ (∪)).
    split_and!; [done..|]. split; [set_solver| |done]. by intros _ i ?%elem_of_nil. }
  apply NoDup_cons in Hnd as [Hi Hnd].
  assert (Hb' : forall j, j ∈ ixs -> j < NUM) by (intros j Hj; by apply Hb, list_elem_of_further).
  specialize (Hb i (list_elem_of_here _ _)). specialize (IH Hnd Hb').
  destruct (lookup_lt_is_Some_2 Ss i) as [w Hw]; [lia|].
  assert (Hskip : i ∉ having v r Ss X ->
    exists D o' f, with_var_loop junk NUM ixs Ss set v r o = Some (o', drop_on v r D Ss, f) /\
      Built (D ∪ D0) o' /\ processed Ss X (i :: ixs) v r D f).
  { intros Hh. destruct (IH Ss D0 o Hlen HD) as (D & o' & f & He & HB & Hp).
    exists D, o', f. split_and!; [done..|by apply processed_skip]. }
  test_bit.
  2: { apply Hskip. rewrite (elem_of_having v r Ss X i w Hw). tauto. }
  rewrite Hw. simpl. pose proof (list_find_lit v r w) as Hlit.
  destruct (list_find _ (data w)) as [[j m]|] eqn:Hf.
  2: { apply Hskip. rewrite (elem_of_having v r Ss X i w Hw). tauto. }
  assert (Hih : i ∈ having v r Ss X) by (by apply (elem_of_having v r Ss X i w Hw)).
  assert (Hdw : drop_map w j m = dropw v r w) by (unfold dropw; by rewrite Hf).
  destruct (add_to_built D0 o i HD Hb) as (o1 & -> & HD1). simpl.
  change (wprob w / mprob m)%Qc with (wprob (drop_map w j m)). rewrite Hdw.
  destruct (decide (wprob (dropw v r w) = 1%Qc)) as [H1|H1].
  - exists {[i]}, o1, true. split_and!.
    + pose proof (upd_on_insert (dropw v r) ∅ Ss i w Hw (not_elem_of_empty i)) as E.
      rewrite upd_on_empty, (right_id_L ∅ (∪)) in E. unfold drop_on. by rewrite <- E.
    + done.
    + split; [|done|].
      * intros k ->%elem_of_singleton. split; [apply list_elem_of_here|done].
      * intros _. exists i, w. set_solver.
  - destruct (IH (<[i := dropw v r w]> Ss) ({[i]} ∪ D0) o1) as (D & o' & f & He & HB & Hp);
      [by rewrite length_insert|done|].
    assert (i ∉ D) by (intros HiD; by apply (pr_in _ _ _ _ _ _ _ Hp) in HiD as [? _]).
    exists ({[i]} ∪ D), o', f. split_and!.
    + rewrite He. do 3 f_equal. by apply upd_on_insert.
    + replace ({[i]} ∪ D ∪ D0) with (D ∪ ({[i]} ∪ D0)); [done|set_solver].
    + by eapply processed_drop.
Qed.

(** The set of the clauses with the literal, which are modified; or none and an
    empty set when one of them became certain. *)
Lemma find_wsds_with_var_rng_spec (W : wtable) (Ss : list WSD) (X : gset nat) (set : bitset)
    (v r : Z) :
  length Ss = NUM -> clauses_ok W Ss -> Rep NUM X set ->
  exists o, (find_wsds_with_var_rng junk NUM Ss set v r =
      Some (o, drop_on v r (having v r Ss X) Ss) /\ Built (having v r Ss X) o) \/
    exists b i w, o = Some b /\ find_wsds_with_var_rng junk NUM Ss set v r = Some (o, Ss) /\
      Rep NUM ∅ b /\ Clean b /\ i ∈ having v r Ss X /\ Ss !! i = Some w /\
      wprob (dropw v r w) = 1%Qc.
Proof.
  intros Hlen Hok HX. unfold find_wsds_with_var_rng.
  destruct (with_var_loop_spec X set v r (seq 0 NUM) HX (NoDup_seq 0 NUM)
    ltac:(intros i Hi; apply elem_of_seq in Hi; lia) Ss ∅ None Hlen eq_refl)
    as (D & o & f & -> & HB & [Hin Hall Hemp]).
  rewrite (right_id_L ∅ (∪)) in HB. destruct f; simpl.
  - destruct (Hemp eq_refl) as (i & w & Hi & Hw & Hp).
    destruct o as [b|]; simpl in HB; [|subst D; by apply not_elem_of_empty in Hi].
    destruct HB as (HR & HC & _). simpl.
    rewrite (reset_wsds_var_rng_spec _ D) by (done || unfold drop_on; by rewrite upd_on_length).
    simpl. exists (Some (bitset_reset b)). right. exists (bitset_reset b), i, w.
    pose proof HR as (Hbok & Hn & _). destruct (bitset_reset_spec b Hbok) as [HR0 HC0].
    rewrite Hn in HR0. split_and!; try done; [|apply Hin, Hi].
    do 2 f_equal. apply list_eq. intros j. unfold reset_on, drop_on. rewrite !upd_on_lookup.
    destruct (Ss !! j) as [wj|] eqn:Hwj; [|done]. simpl. f_equal.
    destruct (decide (j ∈ D)) as [HjD|]; [|done]. apply (reset_dropw W).
    + unfold clauses_ok in Hok. rewrite Forall_forall in Hok. by eapply Hok, list_elem_of_lookup_2.
    + apply Hin in HjD as [_ HjD]. by apply (elem_of_having v r Ss X j wj Hwj).
  - replace (having v r Ss X) with D; [by exists o; left|].
    apply set_eq. intros i. split; [intros Hi; by apply Hin|].
    intros Hi. apply (Hall eq_refl); [|done]. apply elem_of_seq.
    apply elem_of_filter in Hi as [_ Hi]. pose proof (rep_bound _ _ _ i HX Hi). lia.
Qed.
End Condition.

(** ** Meaning of the modified array *)

Section Meaning.
Context (W : wtable) (Ss : list WSD) (X : gset nat) (v : Z).
Context (HW : wtable_ok W) (Hok : clauses_ok W Ss).
(** The variable is dropped in no clause of the set. *)
Context (Hact : forall i w m, i ∈ X -> Ss !! i = Some w -> m ∈ data w -> var m = v -> active m).

Lemma clause_ok (i : nat) (w : WSD) : Ss !! i = Some w -> wsd_ok W w.
Proof using Hok.
  intros Hw. unfold clauses_ok in Hok. rewrite Forall_forall in Hok.
  by eapply Hok, list_elem_of_lookup_2.
Qed.

Lemma having_mentions (r : Z) (i : nat) : i ∈ having v r Ss X -> i ∉ without v Ss X.
Proof.
  unfold having, without. rewrite !elem_of_filter. intros [Hh _] [Hw _].
  destruct (Ss !! i); [|done]. rewrite bool_decide_eq_true in *. by apply Hw, (has_lit_mentions v r).
Qed.

(** The clauses conditioned on [v = r]. *)
Definition cond (r : Z) : gset nat := having v r Ss X ∪ without v Ss X.

Lemma cond_sub (r : Z) : cond r ⊆ X.
Proof. clear. unfold cond, having, without. set_solver. Qed.

Lemma drop_on_lookup (r : Z) (i : nat) (w : WSD) :
  Ss !! i = Some w ->
  drop_on v r (having v r Ss X) Ss !! i =
    Some (if decide (i ∈ having v r Ss X) then dropw v r w else w).
Proof. intros Hw. unfold drop_on. by rewrite upd_on_lookup, Hw. Qed.

Lemma sat_cond (r : Z) (u : world) :
  r <> (-1)%Z ->
  sat_dnf (dnf Ss X) (<[v := r]> u) =
  sat_dnf (dnf (drop_on v r (having v r Ss X) Ss) (cond r)) u.
Proof using Hok Hact.
  intros Hr. apply eq_true_iff_eq. rewrite !sat_dnf_iff. split.
  - intros (i & w & Hi & Hw & Hs).
    rewrite (sat_insert v r w u (wo_nodup _ _ (clause_ok i w Hw)) Hr) in Hs by (intros m; by apply (Hact i w m)).
    eexists i, _. rewrite (drop_on_lookup r i w Hw). split_and!; [|done|].
    + unfold cond. rewrite elem_of_union, (elem_of_having v r Ss X i w Hw),
        (elem_of_without v Ss X i w Hw).
      destruct (decide (mentions v w)); [|by right]. destruct (decide (has_lit v r w)); [by left|done].
    + destruct (decide (mentions v w)) as [Hm|Hm].
      * destruct (decide (has_lit v r w)); [|done].
        by rewrite decide_True by (by apply (elem_of_having v r Ss X i w Hw)).
      * rewrite decide_False; [done|]. rewrite (elem_of_having v r Ss X i w Hw).
        intros [_ Hl]. by apply has_lit_mentions in Hl.
  - intros (i & w' & Hi & Hw' & Hs).
    assert (exists w, Ss !! i = Some w) as [w Hw].
    { apply lookup_lt_is_Some_2. apply lookup_lt_Some in Hw'. unfold drop_on in Hw'.
      by rewrite upd_on_length in Hw'. }
    rewrite (drop_on_lookup r i w Hw) in Hw'. injection Hw' as <-.
    pose proof (cond_sub r i Hi) as HiX.
    exists i, w. split_and!; [done..|].
    rewrite (sat_insert v r w u (wo_nodup _ _ (clause_ok i w Hw)) Hr) by (intros m; by apply (Hact i w m)).
    unfold cond in Hi. rewrite elem_of_union, (elem_of_having v r Ss X i w Hw),
      (elem_of_without v Ss X i w Hw) in Hi.
    destruct (decide (has_lit v r w)) as [Hl|Hl].
    + rewrite decide_True by (by eapply has_lit_mentions).
      by rewrite decide_True in Hs by (by apply (elem_of_having v r Ss X i w Hw)).
    + rewrite decide_False in Hs by (by rewrite (elem_of_having v r Ss X i w Hw); intros [_ ?]).
      rewrite decide_False by tauto. done.
Qed.

Lemma PrS_cond (r : Z) :
  r <> (-1)%Z ->
  Pr W (fun u => sat_dnf (dnf Ss X) (<[v := r]> u)) =
  PrS W (drop_on v r (having v r Ss X) Ss) (cond r).
Proof using Hok Hact. intros Hr. apply Pr_ext. intros u. by apply sat_cond. Qed.

(** A clause that is certain under the condition makes the event certain. *)
Lemma PrS_cond_certain (r : Z) (i : nat) (w : WSD) :
  r <> (-1)%Z -> i ∈ having v r Ss X -> Ss !! i = Some w -> wprob (dropw v r w) = 1%Qc ->
  PrS W (drop_on v r (having v r Ss X) Ss) (cond r) = 1%Qc.
Proof using HW Hok.
  clear Hact. intros Hr Hi Hw Hp.
  apply (Pr_certain W HW (sat_clause (lits (dropw v r w)))).
  - intros u Hs. apply sat_dnf_iff. exists i, (dropw v r w).
    rewrite (drop_on_lookup r i w Hw), decide_True by done. unfold cond. set_solver.
  - rewrite wsd_prob; [done|done|]. apply dropw_ok; [by eapply clause_ok|done].
Qed.

Lemma drop_on_ok (r : Z) (D : gset nat) : r <> (-1)%Z -> clauses_ok W (drop_on v r D Ss).
Proof using Hok.
  intros Hr. unfold clauses_ok. apply Forall_lookup. intros i w'. unfold drop_on.
  rewrite upd_on_lookup. destruct (Ss !! i) as [w|] eqn:Hw; [|done]. simpl. intros [= <-].
  destruct (decide _); [apply dropw_ok; [|done]|]; by eapply clause_ok.
Qed.

(** Without a literal to drop, the clauses are those without the variable. *)
Lemma PrS_without (r : Z) :
  having v r Ss X = ∅ -> PrS W (drop_on v r (having v r Ss X) Ss) (cond r) =
  PrS W Ss (without v Ss X).
Proof.
  intros He. unfold cond. rewrite He. unfold drop_on. by rewrite upd_on_empty, (left_id_L ∅ (∪)).
Qed.

(** After the recursive call the reset restores the array. *)
Lemma reset_cond (r : Z) :
  reset_on v r (cond r) (drop_on v r (having v r Ss X) Ss) = Ss.
Proof using Hok.
  clear Hact HW. apply list_eq. intros i. unfold reset_on, drop_on. rewrite !upd_on_lookup.
  destruct (Ss !! i) as [w|] eqn:Hw; [|done]. simpl. f_equal.
  unfold cond. destruct (decide (i ∈ having v r Ss X)) as [Hh|Hh].
  - rewrite decide_True by set_solver. apply (reset_dropw W); [by eapply clause_ok|].
    by apply (elem_of_having v r Ss X i w Hw).
  - destruct (decide _) as [Hc|]; [|done]. apply reset_wsd_none.
    apply elem_of_union in Hc as [?|Hc]; [done|]. by apply (elem_of_without v Ss X i w Hw) in Hc as [_ Hc].
Qed.
End Meaning.
