(* ===== verification/WsTreeCorrect.v ===== *)
(** * WsTreeCorrect: [indve_compute_prob] computes the probability of the lineage

    Against the possible-worlds semantics of [Worlds]: the recursion returns the
    probability of the clause set, restores the clause array and keeps the world
    table but for its counts; its fuel is bounded by the number of assignments. *)
From S2P Require Import Prelude.
From S2P Require Import Bitset.
From S2P Require Import Worlds.
From S2P Require Import LocalCond.
From S2P Require Import WsTree.
From S2P Require Import Lineage.
From S2P Require Import Choice.
From S2P Require Import Condition.

(** ** Coherence *)

Lemma coherent_sub (Ss : list WSD) (X Y : gset nat) : coherent Ss X -> Y ⊆ X -> coherent Ss Y.
Proof.
  intros Hc HY i j wi wj mi mj Hi Hj. apply Hc; by apply HY.
Qed.

Lemma dropw_maps (v r : Z) (w : WSD) (m : Map) :
  NoDup (var <$> data w) -> has_lit v r w -> m ∈ data (dropw v r w) ->
  (var m = v /\ rng m = (-1)%Z) \/ (var m <> v /\ m ∈ data w).
Proof.
  intros Hnd Hl. destruct (dropw_split v r w Hnd Hl) as (l1 & l2 & m0 & [Hd Hv Hnl Hnr] & _ & ->).
  simpl. rewrite Hd. intros [Hm|[->|Hm]%elem_of_cons]%elem_of_app.
  - right. split; [|set_solver]. intros Hvm. apply Hnl, list_elem_of_fmap. by exists m.
  - left. done.
  - right. split; [|set_solver]. intros Hvm. apply Hnr, list_elem_of_fmap. by exists m.
Qed.

Lemma coherent_cond (W : wtable) (Ss : list WSD) (X : gset nat) (v r : Z) :
  clauses_ok W Ss -> coherent Ss X ->
  coherent (drop_on v r (having v r Ss X) Ss) (cond Ss X v r).
Proof.
  intros Hok Hc.
  assert (Hmap : forall i wi mi, i ∈ cond Ss X v r ->
    drop_on v r (having v r Ss X) Ss !! i = Some wi -> mi ∈ data wi ->
    (var mi = v /\ rng mi = (-1)%Z) \/
    (var mi <> v /\ i ∈ X /\ exists w, Ss !! i = Some w /\ mi ∈ data w)).
  { intros i w' m Hi Hw' Hm. unfold drop_on in Hw'. rewrite upd_on_lookup in Hw'.
    destruct (Ss !! i) as [w|] eqn:Hw; [|done]. simpl in Hw'. injection Hw' as <-.
    pose proof (cond_sub Ss X v r i Hi) as HiX.
    destruct (decide (i ∈ having v r Ss X)) as [Hh|Hh].
    - apply (elem_of_having v r Ss X i w Hw) in Hh as [_ Hl].
      destruct (dropw_maps v r w m (wo_nodup _ _ (clause_ok W Ss Hok i w Hw)) Hl Hm) as [?|[??]];
        [by left|right]. split_and!; [done..|]. by exists w.
    - right. unfold cond in Hi. apply elem_of_union in Hi as [?|Hi]; [done|].
      destruct (proj1 (elem_of_without v Ss X i w Hw) Hi) as [_ Hnm]. split_and!; [|done|by exists w].
      intros Hv. apply Hnm, mentions_iff. by exists m. }
  intros i j wi wj mi mj Hi Hj Hwi Hwj Hmi Hmj Heq Hri.
  destruct (Hmap i wi mi Hi Hwi Hmi) as [[Hvi _]|(Hvi & HiX & w1 & Hw1 & Hm1)],
    (Hmap j wj mj Hj Hwj Hmj) as [[Hvj Hrj]|(Hvj & HjX & w2 & Hw2 & Hm2)]; [done|congruence..|].
  by apply (Hc i j w1 w2 mi mj).
Qed.

(** ** The measure: one per clause and one per active map *)

Definition weight (Ss : list WSD) (i : nat) : nat :=
  match Ss !! i with Some w => S (length (lits w)) | None => 0 end.

Definition mu (Ss : list WSD) (X : gset nat) : nat :=
  sum_list_with (fun i => if decide (i ∈ X) then weight Ss i else 0) (seq 0 (length Ss)).

Lemma sum_list_with_le {A} (f g : A -> nat) (l : list A) :
  (forall x, x ∈ l -> f x <= g x) -> sum_list_with f l <= sum_list_with g l.
Proof.
  induction l as [|x l IH]; intros H; simpl; [done|].
  pose proof (H x (list_elem_of_here _ _)). 
  assert (sum_list_with f l <= sum_list_with g l); [|lia].
  apply IH. intros y Hy. by apply H, list_elem_of_further.
Qed.

Lemma sum_list_with_lt {A} (f g : A -> nat) (l : list A) (x : A) :
  (forall x, x ∈ l -> f x <= g x) -> x ∈ l -> f x < g x -> sum_list_with f l < sum_list_with g l.
Proof.
  intros H Hx Hlt. apply list_elem_of_split in Hx as (l1 & l2 & ->).
  rewrite !sum_list_with_app. simpl.
  pose proof (sum_list_with_le f g l1 ltac:(intros; apply H; set_solver)).
  pose proof (sum_list_with_le f g l2 ltac:(intros; apply H; set_solver)). lia.
Qed.

(** Fewer clauses, or clauses that lost an assignment, have a smaller measure. *)
Lemma mu_lt (Ss Ss' : list WSD) (X Y : gset nat) (i : nat) :
  length Ss' = length Ss -> Y ⊆ X ->
  (forall j, j ∈ Y -> weight Ss' j <= weight Ss j) ->
  i ∈ X -> i < length Ss -> (i ∉ Y \/ weight Ss' i < weight Ss i) -> mu Ss' Y < mu Ss X.
Proof.
  intros Hlen HYX Hle HiX Hi Hlt. unfold mu. rewrite Hlen.
  apply (sum_list_with_lt _ _ _ i).
  - intros j _. destruct (decide (j ∈ Y)) as [Hj|]; [|lia].
    rewrite decide_True by (by apply HYX). by apply Hle.
  - apply elem_of_seq. lia.
  - rewrite (decide_True (P := i ∈ X)) by done.
    assert (0 < weight Ss i) as Hpos.
    { unfold weight. destruct (Ss !! i) eqn:E; [lia|]. apply lookup_ge_None in E. lia. }
    destruct (decide (i ∈ Y)); [|lia]. destruct Hlt; [done|lia].
Qed.

Lemma dropw_lits (W : wtable) (v r : Z) (w : WSD) :
  wsd_ok W w -> r <> (-1)%Z -> has_lit v r w -> length (lits w) = S (length (lits (dropw v r w))).
Proof.
  intros Hok Hr Hl.
  destruct (dropw_split v r w (wo_nodup _ _ Hok) Hl) as (l1 & l2 & m & [Hd _ _ _] & Hm & ->).
  unfold lits. simpl. rewrite Hd, !filter_app, !filter_cons.
  rewrite (decide_True (P := active m)) by (unfold active; congruence).
  rewrite decide_False by (unfold active; auto).
  rewrite !length_fmap, !length_app. simpl. lia.
Qed.

Lemma mu_bound (Ss : list WSD) (X : gset nat) (n : nat) :
  (forall w, w ∈ Ss -> length (data w) <= n) -> mu Ss X <= length Ss * S n.
Proof.
  intros H. unfold mu. transitivity (sum_list_with (fun _ => S n) (seq 0 (length Ss))).
  - apply sum_list_with_le. intros i _. destruct (decide _); [|lia]. unfold weight.
    destruct (Ss !! i) as [w|] eqn:Hw; [|lia].
    specialize (H w (list_elem_of_lookup_2 _ _ _ Hw)). unfold lits. rewrite length_fmap.
    pose proof (length_filter active (data w)). lia.
  - clear. generalize 0. induction (length Ss) as [|k IH]; intros a; simpl; [done|].
    specialize (IH (S a)). lia.
Qed.

(** ** Eliminating a variable *)

(** Range values are non-negative: -1 marks a dropped map. *)
Record table_ok (W : wtable) : Prop := {
  to_wtable : wtable_ok W;
  to_rngs : forall x d r p, (x, d) ∈ W -> (r, p) ∈ d -> (0 <= r)%Z }.

(** What the clause array and the set satisfy at each call. *)
Record lineage_ok (W : wtable) (NUM : nat) (Ss : list WSD) (X : gset nat) : Prop := {
  li_len : length Ss = NUM;
  li_ok : clauses_ok W Ss;
  li_coh : coherent Ss X }.

(** The contract of the recursive calls, for sets of measure below [bound]. *)
Definition rec_ok (W : wtable) (NUM : nat) (rec : option bitset -> st -> option (Qc * st))
    (bound : nat) : Prop :=
  forall Ss X o wt, lineage_ok W NUM Ss X -> ORep NUM X o -> mu Ss X < bound -> shape wt = W ->
    exists wt', rec o (mk_st Ss wt) = Some (PrS W Ss X, mk_st Ss wt') /\ shape wt' = W.

Lemma union_built (NUM : nat) (X Y : gset nat) (b : bitset) (o : option bitset) :
  Built NUM X (Some b) -> Built NUM Y o ->
  exists b', bitset_union b o = Some b' /\ Built NUM (X ∪ Y) (Some b').
Proof.
  intros (HX & Hc & Hne) HY. destruct o as [b2|]; simpl in HY.
  - destruct HY as (HY & Hc2 & _).
    destruct (bitset_union_spec _ _ _ _ _ HX HY) as (b' & Hb & HR & HC).
    exists b'. split_and!; [done|]. split_and!; [done|by apply HC|set_solver].
  - subst Y. exists b. split; [done|]. rewrite (right_id_L ∅ (∪)). done.
Qed.

Lemma wsum_snoc (d : dist) (r : Z) (p : Qc) (g : Z -> Qc) :
  wsum (d ++ [(r, p)]) g = (wsum d g + p * g r)%Qc.
Proof. induction d as [|[s q] d IH]; simpl; [ring|]. rewrite IH. ring. Qed.

Section Elim.
Context (NUM : nat) (W : wtable) (HW : table_ok W).
Context (rec : option bitset -> st -> option (Qc * st)) (bound : nat).
Context (Hrec : rec_ok W NUM rec bound).

(** A component [T], a variable [v] active in it and its distribution. *)
Context (Ss : list WSD) (T : gset nat) (t : bitset) (v : Z) (d : dist).
Context (HL : lineage_ok W NUM Ss T) (HT : Rep NUM T t) (Hmu : mu Ss T <= bound).
Context (Hv : (v, d) ∈ W).
Context (Hact : forall i w m, i ∈ T -> Ss !! i = Some w -> m ∈ data w -> var m = v -> active m).
Context (Hocc : exists i w, i ∈ T /\ Ss !! i = Some w /\ mentions v w).
Context (o : option bitset) (Ho : Built NUM (without v Ss T) o).

(** The cached probability of the clauses without the variable. *)
Definition pw_ok (pw : Qc) : Prop := pw = (- (1))%Qc \/ pw = PrS W Ss (without v Ss T).

Definition given (r : Z) : Qc := Pr W (fun u => sat_dnf (dnf Ss T) (<[v := r]> u)).

Lemma rec_without (wt : list worldTableEntry) :
  shape wt = W -> exists wt', rec o (mk_st Ss wt) =
    Some (PrS W Ss (without v Ss T), mk_st Ss wt') /\ shape wt' = W.
Proof using Hrec HL HT Hmu Hocc Ho.
  intros Hsh. destruct HL as [Hlen Hok Hcoh]. apply Hrec; [|by apply built_orep| |done].
  - split; [done..|]. eapply coherent_sub; [done|]. unfold without. clear. set_solver.
  - eapply Nat.lt_le_trans; [|exact Hmu]. destruct Hocc as (i & w & Hi & Hw & Hm).
    apply (mu_lt _ _ _ _ i); [done| |done|done| |left].
    + unfold without. clear. set_solver.
    + rewrite Hlen. by apply (rep_bound _ _ _ _ HT).
    + rewrite (elem_of_without v Ss T i w Hw). tauto.
Qed.

Lemma rec_cond (r : Z) (b : bitset) (wt : list worldTableEntry) :
  (0 <= r)%Z -> Built NUM (having v r Ss T) (Some b) -> shape wt = W ->
  exists b' wt', bitset_union b o = Some b' /\ Rep NUM (cond Ss T v r) b' /\
    rec (Some b') (mk_st (drop_on v r (having v r Ss T) Ss) wt) =
      Some (given r, mk_st (drop_on v r (having v r Ss T) Ss) wt') /\ shape wt' = W.
Proof using Hrec HL HT Hmu Hact Ho.
  intros Hr Hb Hsh. destruct HL as [Hlen Hok Hcoh].
  destruct (union_built _ _ _ _ _ Hb Ho) as (b' & Hu & HB). exists b'.
  destruct (Hrec (drop_on v r (having v r Ss T) Ss) (cond Ss T v r) (Some b') wt)
    as (wt' & Hrc & Hsh'); [| | |done|].
  - split; [unfold drop_on; by rewrite upd_on_length|apply drop_on_ok; [done|lia]|].
    by eapply coherent_cond.
  - by apply (built_orep NUM (cond Ss T v r) (Some b')).
  - eapply Nat.lt_le_trans; [|exact Hmu]. destruct Hb as (_ & _ & (i & Hi)%set_choose_L).
    assert (HiT : i ∈ T) by (eapply cond_sub; apply elem_of_union_l; exact Hi).
    assert (Hil : i < length Ss) by (rewrite Hlen; by apply (rep_bound _ _ _ _ HT)).
    assert (Hw : forall j w, Ss !! j = Some w -> j ∈ having v r Ss T ->
      length (lits w) = S (length (lits (dropw v r w)))).
    { intros j w Hw Hj. apply (dropw_lits W); [by eapply clause_ok|lia|].
      by apply (elem_of_having v r Ss T j w Hw). }
    apply (mu_lt _ _ _ _ i); [unfold drop_on; by rewrite upd_on_length|apply cond_sub| |done..|right].
    + intros j _. unfold weight. destruct (Ss !! j) as [w|] eqn:Hwj.
      * rewrite (drop_on_lookup Ss T v r j w Hwj). destruct (decide _) as [Hj|]; [|lia].
        specialize (Hw j w Hwj Hj). lia.
      * unfold drop_on. rewrite upd_on_lookup, Hwj. simpl. lia.
    + unfold weight. destruct (lookup_lt_is_Some_2 Ss i Hil) as [w Hwi]. rewrite Hwi.
      rewrite (drop_on_lookup Ss T v r i w Hwi), decide_True by done.
      specialize (Hw i w Hwi Hi). lia.
  - exists wt'. split_and!; [done|apply HB| |done]. rewrite Hrc. do 2 f_equal. symmetry.
    unfold given. apply (PrS_cond W); [done|done|lia].
Qed.

Lemma elim_value_spec (junk : nat -> N) (r : Z) (p pw : Qc) (wt : list worldTableEntry) :
  (0 <= r)%Z -> pw_ok pw -> shape wt = W ->
  exists pw' wt', elim_value junk NUM rec t o v r p pw (mk_st Ss wt) =
      Some (pw', (p * given r)%Qc, mk_st Ss wt') /\ pw_ok pw' /\ shape wt' = W.
Proof using All.
  intros Hr Hpw Hsh. destruct HL as [Hlen Hok Hcoh]. unfold elim_value. simpl.
  destruct (find_wsds_with_var_rng_spec junk NUM W Ss T t v r Hlen Hok HT)
    as (ob & [[-> HB]|(b & i & w & -> & -> & HR & HC & Hi & Hw & Hp)]).
  - simpl. destruct ob as [b|].
    + pose proof HB as (HRb & _ & Hne). destruct (bitset_test_empty_spec _ _ _ HRb)
        as (e & He & Hemp & _). simpl in He. rewrite He. simpl.
      destruct e; [by destruct (Hne (Hemp eq_refl))|].
      destruct (rec_cond r b wt Hr HB Hsh) as (b' & wt' & Hu & HRb' & Hrc & Hsh').
      rewrite Hu. simpl. rewrite Hrc. simpl.
      rewrite (reset_wsds_var_rng_spec NUM _ (cond Ss T v r))
        by (done || unfold drop_on; by rewrite upd_on_length). simpl.
      rewrite (reset_cond W) by done. by exists pw, wt'.
    + simpl in HB. rewrite HB. unfold drop_on. rewrite upd_on_empty.
      assert (Hg : given r = PrS W Ss (without v Ss T)).
      { unfold given. rewrite (PrS_cond W) by (done || lia). by apply PrS_without. }
      destruct (decide (pw = (- (1))%Qc)) as [->|Hne].
      * destruct (rec_without wt Hsh) as (wt' & -> & Hsh'). simpl. rewrite Hg.
        exists (PrS W Ss (without v Ss T)), wt'. split_and!; [done|by right|done].
      * destruct Hpw as [?|Hpw]; [done|]. simpl. exists pw, wt. rewrite Hg, <- Hpw.
        split_and!; [done|by right|done].
  - simpl. destruct (bitset_test_empty_spec _ _ _ HR) as (e & He & _ & Hemp). simpl in He.
    rewrite He. simpl. rewrite (Hemp HC eq_refl). exists pw, wt. split_and!; [|done..].
    do 3 f_equal. unfold given. rewrite (PrS_cond W) by (done || lia).
    rewrite (PrS_cond_certain W Ss T v (to_wtable _ HW) Hok r i w) by (done || lia). ring.
Qed.

Lemma given_total : PrS W Ss T = wsum d given.
Proof using HW Hv. apply (Pr_shannon W (to_wtable _ HW) _ v d Hv). Qed.

Lemma elim_loop_spec (junk : nat -> N) (k n j : nat) (pw : Qc) (wt : list worldTableEntry) :
  W !! k = Some (v, d) -> j + n = length d -> pw_ok pw -> shape wt = W ->
  exists res wt', elim_loop junk NUM rec (seq j n) k t o v (wsum (take j d) given) pw
      (mk_st Ss wt) = Some res /\ shape wt' = W /\
    (res = inr (PrS W Ss T, mk_st Ss wt') \/
     res = inl (1%Qc, mk_st Ss wt') /\ PrS W Ss T = 1%Qc).
Proof using All.
  intros Hk. revert j pw wt. induction n as [|n IH]; intros j pw wt Hj Hpw Hsh.
  { exists (inr (PrS W Ss T, mk_st Ss wt)), wt. split_and!; [|done|by left]. simpl.
    rewrite take_ge by lia. by rewrite given_total. }
  destruct (lookup_lt_is_Some_2 d j) as [[r p] Hd]; [lia|].
  rewrite <- Hsh in Hk. destruct (shape_entry_lookup wt k j v d (r, p) Hk Hd)
    as (e & re & He & Hre & [= -> ->]).
  assert (Hlen : rng_entry_count e = length d).
  { destruct (shape_lookup wt k v d Hk) as (e' & He' & _ & <-). unfold rng_entry_count.
    rewrite length_fmap. congruence. }
  rewrite Hsh in Hk. cbn [seq elim_loop st_wt]. rewrite He. cbn [mbind option_bind].
  rewrite Hre. cbn [mbind option_bind].
  destruct (elim_value_spec junk (re_rng re) (re_p re) pw wt) as (pw' & wt' & -> & Hpw' & Hsh');
    [|done|done|].
  { eapply (to_rngs _ HW); [exact Hv|]. by eapply list_elem_of_lookup_2. }
  cbn [mbind option_bind]. specialize (IH (S j) pw' wt' ltac:(lia) Hpw' Hsh').
  rewrite (take_S_r _ _ _ Hd), wsum_snoc in IH.
  destruct (decide (_ = 1%Qc)) as [H1|H1]; [|exact IH].
  destruct (Nat.eqb_spec (rng_entry_count e) 1) as [Hc|Hc]; [|exact IH].
  exists (inl (1%Qc, mk_st Ss wt')), wt'. split_and!; [done..|right]. split; [done|].
  rewrite given_total, <- H1. rewrite Hc in Hlen. assert (j = 0) as -> by lia.
  destruct d as [|rp [|]]; [done| |done]. simpl in Hd. injection Hd as ->. simpl. ring.
Qed.
End Elim.

(** ** The whole recursion *)

Section Correct.
Context (W : wtable) (HW : table_ok W).

Lemma PrS_singleton (Ss : list WSD) (i : nat) (w : WSD) :
  clauses_ok W Ss -> Ss !! i = Some w -> PrS W Ss {[i]} = wprob w.
Proof using HW.
  intros Hok Hw. rewrite <- (wsd_prob W w (to_wtable _ HW)) by (by eapply clause_ok).
  apply Pr_ext. intros u. apply eq_true_iff_eq. rewrite sat_dnf_iff. split.
  - intros (j & w' & ->%elem_of_singleton & Hw' & Hs). congruence.
  - intros Hs. exists i, w. set_solver.
Qed.

Lemma coherent_active (Ss : list WSD) (T : gset nat) (m0 : Map) :
  coherent Ss T -> occurs Ss T m0 -> active m0 ->
  forall i w m, i ∈ T -> Ss !! i = Some w -> m ∈ data w -> var m = var m0 -> active m.
Proof.
  intros Hc (j & wj & Hj & Hwj & Hm0) Ha i w m Hi Hw Hm Hv Hr.
  apply Ha. by apply (Hc i j w wj m m0).
Qed.

(** The probability of one component, with the recursive calls below [bound]. *)
Lemma component_prob_spec (junk : nat -> N) (NUM : nat) (rec : option bitset -> st -> option (Qc * st)) (bound : nat)
    (Ss : list WSD) (X T : gset nat) (t : bitset) (wt : list worldTableEntry) :
  rec_ok W NUM rec bound -> lineage_ok W NUM Ss T -> Rep NUM T t -> component Ss X T ->
  mu Ss T <= bound -> shape wt = W ->
  exists res wt', component_prob junk NUM rec t (mk_st Ss wt) = Some res /\ shape wt' = W /\
    (res = inr (PrS W Ss T, mk_st Ss wt') \/
     res = inl (1%Qc, mk_st Ss wt') /\ PrS W Ss T = 1%Qc).
Proof using HW.
  intros Hrec HL HT Hco Hmu Hsh. destruct HL as [Hlen Hok Hcoh]. unfold component_prob.
  destruct (bitset_test_singleton_spec _ _ _ HT) as [(i & -> & ->)|[Hsz ->]];
    cbn [mbind option_bind].
  - destruct (lookup_lt_is_Some_2 Ss i) as [w Hw].
    { rewrite Hlen. apply (rep_bound _ _ _ _ HT). set_solver. }
    destruct (Z.eqb_spec (Z.of_nat i) (-1)) as [?|_]; [lia|]. simpl.
    rewrite Nat2Z.id, Hw. simpl. exists (inr (wprob w, mk_st Ss wt)), wt.
    split_and!; [done..|left]. by rewrite (PrS_singleton Ss i w).
  - simpl. destruct (choose_var_minlog_spec NUM Ss W Hlen Hok T t wt HT Hsh)
      as (res & wt1 & -> & Hsh1 & Hres). simpl. destruct res as [k|].
    2: { exfalso. destruct (co_active _ _ _ Hco Hsz) as (i & w & m & Hi & Hw & Hm & Ha).
         apply (Hres m); [|done]. by exists i, w. }
    destruct Hres as (m & ix & Hm & Ha & Hre).
    destruct Hm as (i & w & Hi & Hw & Hm).
    assert (map_ok W m) as [_ _ (k' & i' & d & r & Hre' & Hk & _) _].
    { pose proof (wo_maps _ _ (clause_ok W Ss Hok i w Hw)) as Hall.
      rewrite Forall_forall in Hall. auto. }
    rewrite Hre in Hre'. injection Hre' as <- <-.
    pose proof Hk as Hk'. rewrite <- Hsh1 in Hk'.
    destruct (shape_lookup wt1 k (var m) d Hk') as (e & He & Hev & Hed).
    rewrite He. cbn [mbind option_bind]. rewrite Hev.
    destruct (find_wsds_without_var_spec junk NUM Ss T t (var m) Hlen HT) as (o & -> & Ho).
    cbn [mbind option_bind].
    replace (rng_entry_count e) with (length d)
      by (rewrite <- Hed; unfold rng_entry_count; by rewrite length_fmap).
    apply (elim_loop_spec NUM W HW rec bound Hrec Ss T t (var m) d (Build_lineage_ok _ _ _ _ Hlen Hok Hcoh) HT Hmu);
      [by eapply list_elem_of_lookup_2| | |done|done|done|by left|done].
    + apply (coherent_active Ss T m Hcoh); [by exists i, w|done].
    + exists i, w. split_and!; [done..|]. apply mentions_iff. by exists m.
Qed.

Lemma PrS_mono_one (Ss : list WSD) (X T : gset nat) :
  T ⊆ X -> PrS W Ss T = 1%Qc -> PrS W Ss X = 1%Qc.
Proof using HW.
  intros HTX. apply (Pr_certain W (to_wtable _ HW)). intros u (i & w & Hi & ?)%sat_dnf_iff.
  apply sat_dnf_iff. exists i, w. auto.
Qed.

Lemma PrS_empty (Ss : list WSD) : PrS W Ss ∅ = 0%Qc.
Proof using HW. exact (Pr_const W (to_wtable _ HW) false). Qed.

(** With enough fuel the recursion returns the probability of its set. *)
Lemma indve_rec_ok (junk : nat -> N) (NUM fuel : nat) : rec_ok W NUM (indve_compute_prob junk NUM fuel) fuel.
Proof using HW.
  induction fuel as [|fuel IH]; intros Ss X o wt [Hlen Hok Hcoh] HX Hmu Hsh; [lia|].
  simpl. destruct o as [b|]; cbn [ORep] in HX.
  2: { subst X. simpl. rewrite PrS_empty. by exists wt. }
  destruct HX as [HX Hc].
  destruct (bitset_test_empty_spec _ _ _ HX) as (e & -> & He & Hemp). cbn [mbind option_bind].
  destruct e.
  { rewrite (He eq_refl), PrS_empty. by exists wt. }
  assert (Hne : X <> ∅) by (intros ->; destruct Hc as [Hc|]; [by specialize (Hemp Hc eq_refl)|done]).
  destruct (find_independent_split_spec Ss NUM Hlen junk X b HX Hne)
    as (t & T & -> & HT & HCt & Hco). cbn [mbind option_bind].
  assert (HLT : lineage_ok W NUM Ss T)
    by (split; [done..|eapply coherent_sub; [done|apply Hco]]).
  pose proof (co_sub _ _ _ Hco) as HTX.
  assert (Hlen' : forall i, i ∈ X -> i < length Ss)
    by (intros i Hi; rewrite Hlen; by apply (rep_bound _ _ _ _ HX)).
  assert (HmuT : mu Ss T <= fuel).
  { destruct (decide (T = X)) as [->|HTne]; [lia|].
    assert (exists i, i ∈ X /\ i ∉ T) as (i & Hi & HiT).
    { destruct (decide (X ∖ T = ∅)) as [H0|(i & Hi)%set_choose_L]; [|exists i; set_solver].
      destruct HTne. apply set_eq. intros i. split; [apply HTX|]. intros Hi.
      destruct (decide (i ∈ T)); [done|]. 
      assert (i ∈ X ∖ T) as Hd by set_solver. rewrite H0 in Hd. set_solver. }
    pose proof (mu_lt Ss Ss X T i eq_refl HTX ltac:(lia) Hi (Hlen' i Hi) ltac:(by left)). lia. }
  destruct (component_prob_spec junk NUM (indve_compute_prob junk NUM fuel) fuel Ss X T t wt IH HLT HT Hco HmuT Hsh)
    as (res & wt1 & -> & Hsh1 & [-> |[-> H1]]); cbn [mbind option_bind].
  2: { exists wt1. by rewrite (PrS_mono_one Ss X T). }
  destruct (decide (PrS W Ss T = 1%Qc)) as [H1|H1].
  { exists wt1. by rewrite (PrS_mono_one Ss X T). }
  destruct (bitset_negate_spec _ _ _ _ _ HX HT) as (b' & -> & HR & HC). cbn [mbind option_bind].
  replace ((X ∖ T) ∪ (T ∖ X)) with (X ∖ T) in HR by set_solver.
  destruct (set_choose_L T (co_ne _ _ _ Hco)) as [i Hi].
  destruct (IH Ss (X ∖ T) (Some b') wt1) as (wt2 & -> & Hsh2); [| | |done|].
  - split; [done..|]. eapply coherent_sub; [done|set_solver].
  - split; [done|left; auto].
  - pose proof (mu_lt Ss Ss X (X ∖ T) i eq_refl ltac:(set_solver) ltac:(lia) (HTX i Hi)
      (Hlen' i (HTX i Hi)) ltac:(left; set_solver)). lia.
  - cbn [mbind option_bind]. exists wt2. split; [|done]. do 3 f_equal.
    symmetry. apply PrS_split; [apply HW|done].
Qed.
End Correct.
