(* ===== verification/Completion.v ===== *)
(** * Completion: from the stored clauses to a world table

    The end of a group: [getMissingRngs] gives every variable of the local world
    table a complete distribution, [computeEntryPointers] turns the offsets of the
    maps into pointers, and [conf_final_ge] runs the recursion on the result.
    [store_ok] is the contract between the accumulation and the final function. *)
From S2P Require Import Prelude.
From S2P Require Import Bitset.
From S2P Require Import Worlds.
From S2P Require Import LocalCond.
From S2P Require Import WsTree.
From S2P Require Import Lineage.
From S2P Require Import Choice.
From S2P Require Import Condition.
From S2P Require Import WsTreeCorrect.

(** ** Distributions *)

Definition entry_dist (e : worldTableEntry) : dist :=
  (fun re => (re_rng re, re_p re)) <$> rng_entries e.

Definition max_rng (d : dist) : Z := foldr (fun rp acc => Z.max rp.1 acc) 0%Z d.

(** A distribution that misses probability gets one more range value. *)
Definition complete_dist (d : dist) : dist :=
  if decide (mass d < 1)%Qc then d ++ [((max_rng d + 1)%Z, (1 - mass d)%Qc)] else d.

(** The world table that the accumulated one stands for. *)
Definition complete_table (wt : list worldTableEntry) : wtable :=
  (fun e => (wt_var e, complete_dist (entry_dist e))) <$> wt.

Record entry_ok (e : worldTableEntry) : Prop := {
  eo_some : rng_entries e <> [];
  eo_nodup : NoDup (entry_dist e).*1;
  eo_rngs : forall r p, (r, p) ∈ entry_dist e -> (0 <= r < INT32_MAX)%Z /\ (0 < p)%Qc;
  eo_mass : (mass (entry_dist e) <= 1)%Qc;
  eo_room : rng_entry_count e < rng_entry_max e }.

Lemma max_rng_ge (d : dist) (r : Z) (p : Qc) : (r, p) ∈ d -> (r <= max_rng d)%Z.
Proof.
  induction d as [|[s q] d IH]; simpl; [by intros ?%elem_of_nil|].
  intros [[= -> ->]|H]%elem_of_cons; [lia|]. specialize (IH H). lia.
Qed.

Lemma mass_app (d1 d2 : dist) : mass (d1 ++ d2) = (mass d1 + mass d2)%Qc.
Proof. induction d1 as [|[r p] d1 IH]; simpl; [ring|]. rewrite IH. ring. Qed.

Lemma max_rng_bound (d : dist) (b : Z) :
  (0 <= b)%Z -> (forall r p, (r, p) ∈ d -> (r <= b)%Z) -> (max_rng d <= b)%Z.
Proof.
  intros Hb. induction d as [|[s q] d IH]; simpl; intros H; [done|].
  pose proof (H s q (list_elem_of_here _ _)).
  assert (max_rng d <= b)%Z by (apply IH; intros r p Hr; by apply (H r p), list_elem_of_further). lia.
Qed.

Lemma max_rng_nonneg (d : dist) : (0 <= max_rng d)%Z.
Proof. induction d as [|[s q] d IH]; simpl; lia. Qed.

Lemma complete_dist_ok (d : dist) :
  NoDup d.*1 -> (forall r p, (r, p) ∈ d -> (0 <= r)%Z /\ (0 < p)%Qc) -> (mass d <= 1)%Qc ->
  dist_ok (complete_dist d) /\ forall r p, (r, p) ∈ complete_dist d -> (0 <= r)%Z.
Proof.
  intros Hnd Hrp Hm. unfold complete_dist. destruct (decide (mass d < 1)%Qc) as [Hlt|Hge].
  - split; [split|].
    + rewrite fmap_app. apply NoDup_app. split_and!; [done| |apply NoDup_singleton].
      intros r ((r' & p) & -> & Hin)%list_elem_of_fmap Heq%list_elem_of_singleton.
      pose proof (max_rng_ge d _ p Hin). simpl in *. lia.
    + intros r p [Hin|[= -> ->]%list_elem_of_singleton]%elem_of_app.
      * destruct (Hrp r p Hin). by apply Qclt_le_weak.
      * qc_lra.
    + rewrite mass_app. simpl. ring.
    + intros r p [Hin|[= -> ->]%list_elem_of_singleton]%elem_of_app.
      * by destruct (Hrp r p Hin).
      * pose proof (max_rng_nonneg d). lia.
  - split; [split; [done| |]|].
    + intros r p Hin. destruct (Hrp r p Hin). by apply Qclt_le_weak.
    + apply Qcle_antisym; [done|]. by apply Qcnot_lt_le.
    + intros r p Hin. by destruct (Hrp r p Hin).
Qed.

(** ** The code's completion *)

Lemma sum_and_max_spec (e : worldTableEntry) (first : rngEntry) (rest : list rngEntry) :
  rng_entries e = first :: rest -> (forall r p, (r, p) ∈ entry_dist e -> (0 <= r)%Z) ->
  sum_and_max e first = (mass (entry_dist e), max_rng (entry_dist e)).
Proof.
  intros He Hr. unfold sum_and_max, entry_dist in *.
  assert (Hgen : forall l s m, foldl (fun sm re => ((sm.1 + re_p re)%Qc,
      if (re_rng re >? sm.2)%Z then re_rng re else sm.2)) (s, m) l =
    ((s + mass ((fun re => (re_rng re, re_p re)) <$> l))%Qc,
     foldr (fun rp acc => Z.max rp.1 acc) m ((fun re => (re_rng re, re_p re)) <$> l))).
  { induction l as [|re l IH]; intros s m; csimpl; [f_equal; ring|]. rewrite IH. f_equal; [ring|].
    assert (Hmax : forall (l : dist) a b, foldr (fun rp acc => Z.max rp.1 acc) (Z.max a b) l =
      Z.max a (foldr (fun rp acc => Z.max rp.1 acc) b l)).
    { induction l0 as [|[r p] l0 IHl]; intros a b; simpl; [done|]. rewrite IHl. lia. }
    replace (if (re_rng re >? m)%Z then re_rng re else m) with (Z.max (re_rng re) m);
      [apply Hmax|]. destruct (Z.gtb_spec (re_rng re) m); lia. }
  rewrite Hgen. f_equal; [ring|]. unfold max_rng. rewrite He. csimpl.
  assert (Hf : (0 <= re_rng first)%Z).
  { apply (Hr (re_rng first) (re_p first)). rewrite He. csimpl. apply list_elem_of_here. }
  clear -Hf. induction ((fun re => (re_rng re, re_p re)) <$> rest) as [|[r p] l IH]; simpl; lia.
Qed.

Lemma complete_entry_spec (e : worldTableEntry) :
  entry_ok e ->
  exists e', complete_entry e = Some e' /\ wt_var e' = wt_var e /\
    entry_dist e' = complete_dist (entry_dist e).
Proof.
  intros [Hne Hnd Hrp Hm Hroom]. unfold complete_entry.
  destruct (rng_entries e) as [|first rest] eqn:He; [done|]. cbn [lookup list_lookup mbind option_bind].
  rewrite (sum_and_max_spec e first rest He) by (intros r p Hin; by apply (Hrp r p)).
  rewrite decide_False by (intros H; assert (0 < Q2Qc (1 # 100))%Qc as H1 by done;
      revert H H1; generalize (Q2Qc (1 # 100)); intros c H H1; qc_lra).
  unfold complete_dist.
  destruct (decide (mass (entry_dist e) < 1)%Qc) as [Hlt|Hge]; [|by exists e].
  assert (Hmax : (max_rng (entry_dist e) < INT32_MAX)%Z).
  { assert (max_rng (entry_dist e) <= INT32_MAX - 1)%Z; [|lia].
    apply max_rng_bound; [unfold INT32_MAX; lia|]. intros r p Hin. destruct (Hrp r p Hin). lia. }
  destruct (Z.eqb_spec (max_rng (entry_dist e)) INT32_MAX) as [?|_]; [lia|].
  unfold rngEntryInit. rewrite (proj2 (Nat.ltb_lt _ _)) by done. simpl.
  eexists. split; [done|]. split; [done|]. unfold entry_dist; simpl. by rewrite fmap_app.
Qed.

Lemma getMissingRngs_spec (s : generalState) :
  Forall entry_ok (wt_entries s) ->
  exists s', getMissingRngs s = Some s' /\ shape (wt_entries s') = complete_table (wt_entries s).
Proof.
  intros Hok. unfold getMissingRngs.
  assert (exists l, mapM complete_entry (wt_entries s) = Some l /\
    shape l = complete_table (wt_entries s)) as (l & -> & Hl); [|by eexists].
  induction Hok as [|e wt He _ (l & Hl & Hs)]; [by exists []|]. simpl.
  destruct (complete_entry_spec e He) as (e' & -> & Hv & Hd). simpl. rewrite Hl. simpl.
  eexists. split; [done|]. csimpl. unfold shape in *. csimpl. rewrite Hs. f_equal.
  unfold shape_entry. fold (entry_dist e'). by rewrite Hv, Hd.
Qed.

Lemma complete_dist_lookup (d : dist) (i : nat) (rp : Z * Qc) :
  d !! i = Some rp -> complete_dist d !! i = Some rp.
Proof. intros H. unfold complete_dist. destruct (decide _); [|done]. by apply lookup_app_l_Some. Qed.

(** ** The contract of the accumulation *)

(** A map and the entries its offsets refer to. *)
Record map_ref (wt : list worldTableEntry) (m : Map) : Prop := {
  mr_entry : exists e, wt !! wt_offset m = Some e /\ wt_var e = var m /\
    entry_dist e !! rng_offset m = Some (rng m, mprob m) }.

Record clause_stored (wt : list worldTableEntry) (w : WSD) : Prop := {
  cs_nodup : NoDup (var <$> data w);
  cs_maps : Forall (map_ref wt) (data w);
  cs_prob : wprob w = qprod (mprob <$> data w) }.

Record store_ok (wt : list worldTableEntry) (l : list WSD) : Prop := {
  so_vars : NoDup (wt_var <$> wt);
  so_entries : Forall entry_ok wt;
  so_clauses : Forall (clause_stored wt) l }.

Lemma complete_table_ok (wt : list worldTableEntry) :
  NoDup (wt_var <$> wt) -> Forall entry_ok wt -> table_ok (complete_table wt).
Proof.
  intros Hnd Hok. rewrite Forall_forall in Hok.
  assert (Hd : forall x d, (x, d) ∈ complete_table wt ->
    dist_ok d /\ forall r p, (r, p) ∈ d -> (0 <= r)%Z).
  { intros x d (e & [= -> ->] & He)%list_elem_of_fmap. destruct (Hok e He) as [_ Hn Hrp Hm _].
    apply complete_dist_ok; [done| |done]. intros r p Hin. destruct (Hrp r p Hin). split; [lia|done]. }
  split; [split|].
  - unfold complete_table. rewrite <- list_fmap_compose. exact Hnd.
  - intros x d Hx. by apply (Hd x d Hx).
  - intros x d r p Hx. by apply (Hd x d Hx).
Qed.

Lemma entry_pointers_spec (s' : generalState) (wt : list worldTableEntry) (m : Map) :
  shape (wt_entries s') = complete_table wt -> Forall entry_ok wt -> map_ref wt m ->
  exists m', entry_pointers (wt_entries s') m = Some m' /\ map_ok (complete_table wt) m' /\
    active m' /\ var m' = var m /\ rng m' = rng m /\ mprob m' = mprob m.
Proof.
  intros Hs Hok [(e & He & Hv & Hd)].
  assert (Hk : complete_table wt !! wt_offset m = Some (var m, complete_dist (entry_dist e))).
  { unfold complete_table. rewrite list_lookup_fmap, He. simpl. by rewrite Hv. }
  pose proof Hk as Hk'. rewrite <- Hs in Hk'.
  destruct (shape_lookup _ _ _ _ Hk') as (e' & He' & _). unfold entry_pointers. rewrite He'. simpl.
  eexists. split; [done|].
  rewrite Forall_forall in Hok. destruct (Hok e (list_elem_of_lookup_2 _ _ _ He)) as [_ _ Hrp _ _].
  destruct (Hrp _ _ (list_elem_of_lookup_2 _ _ _ Hd)) as [Hr Hp].
  split; [|by unfold active; simpl; split_and!; [lia|..]].
  split; simpl; [done|right; lia| |done].
  exists (wt_offset m), (rng_offset m), (complete_dist (entry_dist e)), (rng m).
  split_and!; [done|done|by apply complete_dist_lookup|by right].
Qed.

(** The pointers do not change what a clause denotes. *)
Lemma pointers_spec (s' : generalState) (wt : list worldTableEntry) (w : WSD) :
  shape (wt_entries s') = complete_table wt -> Forall entry_ok wt -> clause_stored wt w ->
  exists d, mapM (entry_pointers (wt_entries s')) (data w) = Some d /\
    wsd_ok (complete_table wt) (mk_WSD d (wprob w)) /\ length d = length (data w) /\
    Forall active d /\
    (fun m => (var m, rng m)) <$> d = (fun m => (var m, rng m)) <$> data w.
Proof.
  intros Hs Hok [Hnd Hm Hp].
  assert (exists d, mapM (entry_pointers (wt_entries s')) (data w) = Some d /\
    Forall (map_ok (complete_table wt)) d /\ Forall active d /\
    (fun m => (var m, rng m)) <$> d = (fun m => (var m, rng m)) <$> data w /\
    (mprob <$> d) = (mprob <$> data w)) as (d & -> & Hd & Ha & Hl & Hpr).
  { clear Hnd Hp. induction Hm as [|m l Hm _ (d & Hd & Hall & Ha & Hl & Hpr)]; [by exists []|].
    simpl. destruct (entry_pointers_spec s' wt m Hs Hok Hm) as (m' & -> & Hok' & Ha' & Hv & Hr & Hp').
    simpl. rewrite Hd. simpl. eexists. split; [done|]. csimpl. rewrite Hv, Hr, Hp', Hl, Hpr.
    split_and!; [by constructor|by constructor|done..]. }
  exists d. split_and!; [done| |by apply (f_equal length) in Hl; rewrite !length_fmap in Hl|done..].
  split; simpl; [|done|].
  - apply (f_equal (fmap fst)) in Hl. rewrite <- !list_fmap_compose in Hl.
    replace (var <$> d) with (var <$> data w) by (symmetry; exact Hl). done.
  - replace (filter active d) with d; [by rewrite Hpr|].
    clear -Ha. induction Ha as [|m l Hm _ IH]; [done|]. by rewrite filter_cons_True, <- IH.
Qed.

(** The events that the stored clauses denote. *)
Definition clause_of (w : WSD) : clause := (fun m => (var m, rng m)) <$> data w.

Lemma lits_active (w : WSD) : Forall active (data w) -> lits w = clause_of w.
Proof.
  intros Ha. unfold lits, clause_of. f_equal.
  induction Ha as [|m l Hm _ IH]; [done|]. by rewrite filter_cons_True, IH.
Qed.

Lemma computeEntryPointers_spec (s' : generalState) (wt : list worldTableEntry) (l : list WSD) :
  shape (wt_entries s') = complete_table wt -> Forall entry_ok wt -> Forall (clause_stored wt) l ->
  exists l', computeEntryPointers s' l = Some l' /\ clauses_ok (complete_table wt) l' /\
    Forall (fun w => Forall active (data w)) l' /\ lits <$> l' = clause_of <$> l /\
    ((fun w => length (data w)) <$> l') = ((fun w => length (data w)) <$> l).
Proof.
  intros Hs Hok. unfold computeEntryPointers, clauses_ok.
  induction 1 as [|w l Hw _ (l' & Hl & Hall & Ha & Hlits & Hlen)]; [by exists []|]. simpl.
  destruct (pointers_spec s' wt w Hs Hok Hw) as (d & -> & Hd & Hdl & Hact & Hm). simpl.
  rewrite Hl. simpl. eexists. split; [done|]. csimpl.
  split_and!; [by constructor|by constructor| |by rewrite Hdl, Hlen].
  rewrite lits_active, Hlits by done. unfold clause_of at 1. simpl. by rewrite Hm.
Qed.

Lemma dnf_below (l : list WSD) : dnf l (below (length l)) ≡ₚ lits <$> l.
Proof.
  unfold dnf. apply fmap_Permutation.
  assert (Hp : elements (below (length l)) ≡ₚ seq 0 (length l)).
  { unfold below. apply elements_list_to_set, NoDup_seq. }
  rewrite Hp. clear Hp.
  assert (omap (fun i => l !! i) (seq 0 (length l)) = l) as ->; [|done].
  induction l as [|w l IH] using rev_ind; [done|].
  rewrite length_app. simpl. rewrite Nat.add_1_r, seq_S, omap_app. simpl.
  rewrite lookup_app_r, Nat.sub_diag by lia. simpl. f_equal.
  transitivity (omap (fun i => l !! i) (seq 0 (length l))); [|exact IH].
  assert (Hext : forall ns : list nat, (forall i, i ∈ ns -> i < length l) ->
    omap (fun i => (l ++ [w]) !! i) ns = omap (fun i => l !! i) ns).
  { induction ns as [|n ns IHn]; intros H; [done|]. csimpl.
    rewrite lookup_app_l by (apply H; apply list_elem_of_here).
    rewrite IHn by (intros i Hi; by apply H, list_elem_of_further). done. }
  apply Hext. intros i Hi%elem_of_seq. lia.
Qed.

(** ** The end of a group *)

Theorem conf_final_correct (junk : nat -> N) (g : globals) (l : list WSD) :
  groupcxt g = true -> gS g = Some l -> l <> [] -> store_ok (wt_entries (gstate g)) l ->
  (forall w, w ∈ l -> length (data w) <= WSD_LEN g) ->
  exists g', conf_final_ge junk g =
    Some (Pr (complete_table (wt_entries (gstate g))) (sat_dnf (clause_of <$> l)), g') /\
    groupcxt g' = false /\ gS g' = None.
Proof.
  intros Hg HS Hne [Hvars Hent Hcl] Hwl. unfold conf_final_ge. rewrite Hg.
  destruct (getMissingRngs_spec (gstate g) Hent) as (s' & -> & Hs). cbn [mbind option_bind].
  rewrite HS. cbn [mbind option_bind].
  destruct (computeEntryPointers_spec s' _ l Hs Hent Hcl) as (l' & -> & Hok & Ha & Hlits & Hlen).
  cbn [mbind option_bind].
  destruct (bitset_set_spec (bitset_init junk (length l')) (bitset_init_ok _ _))
    as (b & -> & HR). cbn [mbind option_bind nbits bitset_init] in HR |- *.
  assert (Hll : length l' = length l) by (apply (f_equal length) in Hlits; by rewrite !length_fmap in Hlits).
  destruct (indve_rec_ok (complete_table (wt_entries (gstate g)))
    (complete_table_ok _ Hvars Hent) junk (length l') (indve_fuel (length l') (WSD_LEN g))
    l' (below (length l')) (Some b) (wt_entries s')) as (wt' & -> & _); [| | |done|].
  - split; [done..|]. intros i j wi wj mi mj Hi Hj Hwi Hwj Hmi Hmj _ Hr.
    rewrite Forall_forall in Ha. specialize (Ha wi (list_elem_of_lookup_2 _ _ _ Hwi)).
    rewrite Forall_forall in Ha. by destruct (Ha mi Hmi).
  - split; [done|]. right. intros H0. destruct l' as [|w l']; [by destruct l|].
    assert (0 ∈ below (length (w :: l'))) as H by (apply elem_of_below; simpl; lia).
    rewrite H0 in H. by apply not_elem_of_empty in H.
  - unfold indve_fuel. apply Nat.lt_succ_r, mu_bound. intros w Hw.
    assert (length (data w) ∈ ((fun w => length (data w)) <$> l')) as Hin
      by (apply list_elem_of_fmap; by exists w).
    rewrite Hlen in Hin. apply list_elem_of_fmap in Hin as (w0 & -> & Hw0). by apply Hwl.
  - cbn [mbind option_bind st_wt]. eexists.
    split; [apply f_equal, (f_equal2 pair); [|reflexivity]|done]. unfold PrS.
    apply Pr_ext. intros u. apply eq_true_iff_eq. rewrite !sat_dnf_true.
    setoid_rewrite (dnf_below l'). by rewrite Hlits.
Qed.
