(* ===== verification/Store.v ===== *)
(** * Store: the accumulation keeps the clause store well formed

    [updateWorldTable] and [advance] of [LocalCond], for rows drawn from a global
    world table: each new clause is stored with the offsets of its entries, the
    hash table stays consistent, and nothing is written out of range. *)
From S2P Require Import Prelude.
From S2P Require Import Worlds.
From S2P Require Import LocalCond.
From S2P Require Import HashTable.
From S2P Require Import Split.
From S2P Require Import Lineage.
From S2P Require Import Choice.
From S2P Require Import Completion.

(** ** The state between two rows *)

(** An entry under construction, a part of the distribution of its variable. *)
Record entry_part (W : wtable) (e : worldTableEntry) : Prop := {
  ep_nodup : NoDup (entry_dist e).*1;
  ep_room : rng_entry_count e < rng_entry_max e;
  ep_dist : exists d, (wt_var e, d) ∈ W /\ forall r p, (r, p) ∈ entry_dist e ->
    (r, p) ∈ d /\ (0 < p)%Qc /\ (0 <= r < INT32_MAX)%Z }.

Record state_ok (s : generalState) : Prop := {
  sk_ht : ht_ok (wt_entry_count s) s;
  sk_vars : NoDup (wt_var <$> wt_entries s);
  sk_int32 : Forall (fun e => int32 (wt_var e)) (wt_entries s);
  sk_nbits : gs_nbits s <= 28;
  sk_room : wt_entry_count s < wt_entry_max s }.

(** The slot of a variable can take a bucket: see [slot_of_small]. *)
Definition slot_free (s : generalState) (v : Z) : Prop :=
  slot_of s v <> Some None \/ (cls (gs_nbits s) v < 2 ^ Z.of_nat INIT_NBITS)%Z.

Definition new_entry (v : Z) : worldTableEntry := mk_wte v [] RNGENTRYSIZE 0 false 0.

Lemma wtEntryInit_spec (s : generalState) (v : Z) :
  wt_entry_count s < wt_entry_max s ->
  exists s', wtEntryInit v s = Some (wt_entry_count s, s') /\
    wt_entries s' = wt_entries s ++ [new_entry v] /\ wt_entry_count s' < wt_entry_max s' /\
    same_table s s'.
Proof.
  intros Hlt. unfold wtEntryInit. rewrite (proj2 (Nat.ltb_lt _ _)) by done.
  eexists. split; [do 2 f_equal; rewrite length_app; unfold wt_entry_count; simpl; lia|].
  split; [done|]. split.
  - unfold wt_entry_count in *; simpl. rewrite length_app; simpl.
    destruct (Nat.eqb_spec (length (wt_entries s) + 1) (wt_entry_max s)); lia.
  - split; try done. simpl. rewrite fmap_app. by apply prefix_app_r.
Qed.

Lemma var_absent (s : generalState) (v : Z) (l : nat) (b : mList) :
  ht_ok (wt_entry_count s) s -> slot_of s v = Some (Some l) -> mheap s !! l = Some b ->
  search b v = KEY_NOT_FOUND -> v ∉ (wt_var <$> wt_entries s).
Proof.
  intros Hok Hs Hb Hse Hin. apply list_elem_of_fmap in Hin as (e & -> & He).
  apply list_elem_of_lookup in He as [x Hx].
  destruct (ht_find _ s Hok x e (lookup_lt_Some _ _ _ Hx) Hx) as (l' & b' & Hs' & Hb' & Hin).
  assert (l' = l) as -> by congruence. assert (b' = b) as -> by congruence.
  by apply (search_none b (wt_var e) Hse x).
Qed.

(** Outcome of the first step of [updateWorldTable]. *)
Record located (s s' : generalState) (v : Z) (x : nat) : Prop := {
  lo_ok : state_ok s';
  lo_entry : exists e, wt_entries s' !! x = Some e /\ wt_var e = v;
  lo_entries : wt_entries s' = wt_entries s \/
    ((v ∉ (wt_var <$> wt_entries s)) /\ wt_entries s' = wt_entries s ++ [new_entry v] /\
     x = wt_entry_count s);
  lo_nbits : (forall l b, slot_of s v = Some (Some l) -> mheap s !! l = Some b ->
     v ∉ (ml_items b).*1 -> BUCKETISFULL b = false) -> gs_nbits s' = gs_nbits s }.

Lemma state_ok_new (s s' : generalState) (v : Z) :
  state_ok s -> int32 v -> v ∉ (wt_var <$> wt_entries s) ->
  wt_entries s' = wt_entries s ++ [new_entry v] -> wt_entry_count s' < wt_entry_max s' ->
  ht_ok (S (wt_entry_count s)) s' -> gs_nbits s' <= 28 -> state_ok s'.
Proof.
  intros [H1 H2 H3 H4 H5] Hv Hn Hw Hroom Hht Hnb. split; [| | |done|done].
  - unfold wt_entry_count in *. rewrite Hw, length_app. simpl. by rewrite Nat.add_1_r.
  - rewrite Hw, fmap_app. apply NoDup_app. split_and!; [done| |apply NoDup_singleton].
    intros y Hy ->%list_elem_of_singleton. by apply Hn.
  - rewrite Hw. apply Forall_app. split; [done|]. by constructor.
Qed.

Lemma find_or_create_spec (s : generalState) (v : Z) :
  state_ok s -> int32 v -> slot_free s v ->
  exists x s', find_or_create_entry s v = Some (x, s') /\ located s s' v x.
Proof.
  intros Hok Hv Hfree. pose proof Hok as [Hht Hvars H32 Hnb Hroom].
  pose proof (cls_range (gs_nbits s) v) as Hr.
  destruct (slot_in_range _ s _ Hht Hr) as [o Ho]. pose proof Ho as Ho'.
  rewrite <- (slot_of_cls _ s v Hht) in Ho'. unfold find_or_create_entry.
  pose proof Ho' as Hsl. unfold slot_of in Hsl. rewrite Hsl. cbn [mbind option_bind].
  destruct (wtEntryInit_spec s v Hroom) as (s1 & E1 & Hw1 & Hroom1 & Hsame).
  pose proof (ht_ok_same _ _ _ Hsame (le_n _) Hht) as Hht1.
  pose proof Hsame as [S1 S2 S3 S4 _].
  assert (He1 : wt_entries s1 !! wt_entry_count s = Some (new_entry v)).
  { rewrite Hw1. unfold wt_entry_count. by rewrite lookup_app_r, Nat.sub_diag by lia. }
  assert (Hslot1 : forall w, slot_of s1 w = slot_of s w)
    by (intros w; unfold slot_of, ht_slot; by rewrite S1, S4).
  destruct o as [l|].
  - destruct (ht_bucket_ok _ s Hht _ l (proj1 Hr) Ho) as (b & Hb & Hbo).
    rewrite Hb. cbn [mbind option_bind].
    destruct (Z.eqb_spec (search b v) KEY_NOT_FOUND) as [Hse|Hse].
    + rewrite E1. cbn [mbind option_bind].
      assert (Hab := var_absent s v l b Hht Ho' Hb Hse).
      destruct (make_room_spec 31 (wt_entry_count s) s1 v l b Hht1)
        as (s2 & E2 & [R1 R2 R3 R4 (l' & b' & R5 & R6 & R7 & R8)]);
        [rewrite Hw1; apply Forall_app; split; [done|by constructor]|by rewrite S3
        |by rewrite Hslot1|by rewrite S2|lia|].
      rewrite E2. cbn [mbind option_bind].
      destruct (append_at_spec (wt_entry_count s) s2 v (new_entry v) l' b' R1)
        as (s3 & E3 & Hht3 & Hw3 & Hm3 & Hn3); [by rewrite R2|done|done|done| |done|].
      { intros x Hx. by apply (search_none b v Hse x), R8. }
      rewrite E3. cbn [mbind option_bind]. eexists _, s3. split; [done|].
      assert (Hws : wt_entries s3 = wt_entries s ++ [new_entry v]) by congruence.
      split.
      * apply (state_ok_new s s3 v); [done..| |done|by rewrite Hn3].
        unfold wt_entry_count in *. rewrite Hws, Hm3, R3. by rewrite Hw1 in Hroom1.
      * exists (new_entry v). by rewrite Hw3, R2.
      * right. done.
      * intros Hnf. rewrite Hn3. cbn [make_room] in E2.
        unfold slot_of in Ho'. rewrite <- S4 in Ho'.
        rewrite (ht_slot_bucket s1 _ l b) in E2; [|by unfold ht_slot in *; rewrite S1|by rewrite S2].
        cbn [mbind option_bind] in E2. rewrite (Hnf l b) in E2; [congruence|done|done|].
        intros ([k x] & Hk & Hx)%list_elem_of_fmap. simpl in Hk. subst k.
        by apply (search_none b v Hse x).
    + destruct (search_some b v Hse) as (x & Hin & Hsx).
      destruct (bo_items s _ b Hbo v x Hin) as (_ & e & He & Hev).
      eexists _, s. split; [done|]. rewrite Hsx, Nat2Z.id.
      split; [done|by exists e|by left|done].
  - destruct Hfree as [?|Hsmall]; [done|].
    rewrite E1. cbn [mbind option_bind].
    destruct (create_bucket_spec (wt_entry_count s) s1 (cls (gs_nbits s) v) Hht1)
      as (s2 & l & E2 & Hht2 & Hw2 & Hm2 & Hn2 & Hmk2 & Hsl2 & Hb2); [lia|by unfold ht_slot; rewrite S1|].
    assert (Hh : HASHFUNC v (gs_mask s) = cls (gs_nbits s) v)
      by (by rewrite (ht_mask _ s Hht), HASHFUNC_cls).
    rewrite Hh, E2. cbn [mbind option_bind].
    assert (Hab : v ∉ (wt_var <$> wt_entries s)).
    { intros Hin. apply list_elem_of_fmap in Hin as (e & -> & He).
      apply list_elem_of_lookup in He as [x Hx].
      destruct (ht_find _ s Hht x e (lookup_lt_Some _ _ _ Hx) Hx) as (l' & b' & Hs' & _). congruence. }
    destruct (append_at_spec (wt_entry_count s) s2 v (new_entry v) l (mlist_make INIT_NBITS) Hht2)
      as (s3 & E3 & Hht3 & Hw3 & Hm3 & Hn3); [by rewrite Hw2|done| |done| |done|].
    + rewrite (slot_of_cls _ _ _ Hht2), Hn2, S3. apply Hsl2; [by rewrite S3|].
      rewrite cls_cls by apply Hht. rewrite <- (cls_small INIT_NBITS (cls (gs_nbits s) v)) by lia.
      by rewrite cls_cls by apply Hht.
    + by intros x ?%elem_of_nil.
    + rewrite Hmk2, S4, Hh in E3. rewrite E3. cbn [mbind option_bind].
      eexists _, s3. split; [done|].
      assert (Hws : wt_entries s3 = wt_entries s ++ [new_entry v]) by congruence.
      split.
      * apply (state_ok_new s s3 v); [done..| |done|by rewrite Hn3, Hn2, S3].
        unfold wt_entry_count in *. rewrite Hws, Hm3, Hm2. by rewrite Hw1 in Hroom1.
      * exists (new_entry v). by rewrite Hw3, Hw2.
      * right. done.
      * intros _. congruence.
Qed.

(** ** Registering a map *)

(** The table only grows: entries keep their place, their variable and their
    range values. *)
Definition grows (wt wt' : list worldTableEntry) : Prop :=
  forall x e, wt !! x = Some e -> exists e', wt' !! x = Some e' /\ wt_var e' = wt_var e /\
    entry_dist e `prefix_of` entry_dist e'.

Lemma grows_refl (wt : list worldTableEntry) : grows wt wt.
Proof. intros x e He. by exists e. Qed.

Lemma grows_trans (a b c : list worldTableEntry) : grows a b -> grows b c -> grows a c.
Proof.
  intros H1 H2 x e He. destruct (H1 x e He) as (e1 & He1 & Hv1 & Hp1).
  destruct (H2 x e1 He1) as (e2 & He2 & Hv2 & Hp2). exists e2.
  split_and!; [done|congruence|by etransitivity].
Qed.

Lemma map_ref_grows (wt wt' : list worldTableEntry) (m : Map) :
  grows wt wt' -> map_ref wt m -> map_ref wt' m.
Proof.
  intros Hg [(e & He & Hv & Hd)]. destruct (Hg _ e He) as (e' & He' & Hv' & Hp).
  split. exists e'. split_and!; [done|congruence|by eapply prefix_lookup_Some].
Qed.

(** A map of a row of the relation that [W] describes. *)
Record row_map (W : wtable) (m : Map) : Prop := {
  rm_lit : lit_in W (var m) (rng m) (mprob m);
  rm_pos : (0 < mprob m)%Qc;
  rm_rng : (0 <= rng m < INT32_MAX)%Z;
  rm_var : int32 (var m) }.

Definition filled (e : worldTableEntry) : Prop := rng_entries e <> [].

Record registered (W : wtable) (s s' : generalState) (m m' : Map) : Prop := {
  rg_ok : state_ok s';
  rg_part : Forall (entry_part W) (wt_entries s');
  rg_filled : Forall filled (wt_entries s');
  rg_grows : grows (wt_entries s) (wt_entries s');
  rg_ref : map_ref (wt_entries s') m';
  rg_same : var m' = var m /\ rng m' = rng m /\ mprob m' = mprob m;
  rg_vars : forall v, v ∈ (wt_var <$> wt_entries s') -> v ∈ (wt_var <$> wt_entries s) \/ v = var m;
  rg_nbits : (forall l b, slot_of s (var m) = Some (Some l) -> mheap s !! l = Some b ->
     var m ∉ (ml_items b).*1 -> BUCKETISFULL b = false) -> gs_nbits s' = gs_nbits s }.

Lemma state_ok_entries (s : generalState) (x : nat) (e e' : worldTableEntry) :
  state_ok s -> wt_entries s !! x = Some e -> wt_var e' = wt_var e ->
  state_ok (set_wt s (<[x := e']> (wt_entries s))).
Proof.
  intros [H1 H2 H3 H4 H5] He Hv.
  assert (Hvars : wt_var <$> <[x := e']> (wt_entries s) = wt_var <$> wt_entries s).
  { rewrite list_fmap_insert, Hv. apply list_insert_id. by rewrite list_lookup_fmap, He. }
  split; unfold wt_entry_count in *; simpl; rewrite ?length_insert; [|by rewrite Hvars| |done|done].
  - apply (ht_ok_same _ s); [|done|done]. split; [done..|]. simpl. by rewrite Hvars.
  - apply Forall_insert; [done|]. rewrite Hv. rewrite Forall_forall in H3.
    apply H3. by eapply list_elem_of_lookup_2.
Qed.

Lemma part_new (W : wtable) (v : Z) (d : dist) : (v, d) ∈ W -> entry_part W (new_entry v).
Proof.
  intros Hd. split; [apply NoDup_nil_2|unfold rng_entry_count, new_entry, RNGENTRYSIZE; simpl; lia|].
  exists d. split; [done|]. by intros r p ?%elem_of_nil.
Qed.

(** Appending a range value to an entry. *)
Lemma part_append (W : wtable) (e : worldTableEntry) (r : Z) (p : Qc) :
  wtable_ok W -> entry_part W e -> lit_in W (wt_var e) r p -> (0 < p)%Qc ->
  (0 <= r < INT32_MAX)%Z -> r ∉ (entry_dist e).*1 ->
  exists e', rngEntryInit r p e = Some (rng_entry_count e, e') /\ entry_part W e' /\
    wt_var e' = wt_var e /\ entry_dist e' = entry_dist e ++ [(r, p)] /\ filled e'.
Proof.
  intros HW [Hnd Hroom (d & Hd & Hin)] (d' & Hd' & Hrp) Hp Hr Hnew.
  assert (d' = d) as ->.
  { apply list_elem_of_lookup in Hd as [i Hi]. apply list_elem_of_lookup in Hd' as [j Hj].
    assert (i = j) as ->; [|congruence].
    eapply (NoDup_lookup _ i j (wt_var e) (wt_nodup W HW)); rewrite list_lookup_fmap;
      [by rewrite Hi|by rewrite Hj]. }
  unfold rngEntryInit. rewrite (proj2 (Nat.ltb_lt _ _)) by done.
  eexists. split; [do 2 f_equal; rewrite length_app; unfold rng_entry_count; simpl; lia|].
  assert (Hed : forall mx, entry_dist (mk_wte (wt_var e) (rng_entries e ++ [mk_rngEntry r p 0]) mx
    (tau e) (met e) (occur_count e)) = entry_dist e ++ [(r, p)])
    by (intros mx; unfold entry_dist; simpl; by rewrite fmap_app).
  split; [split|split_and!; [done|by rewrite Hed|]].
  - rewrite Hed, fmap_app. apply NoDup_app. split_and!; [done| |apply NoDup_singleton].
    intros y Hy ->%list_elem_of_singleton. done.
  - unfold rng_entry_count in *; simpl. rewrite length_app; simpl.
    destruct (Nat.eqb_spec (length (rng_entries e) + 1) (rng_entry_max e)); lia.
  - exists d. split; [done|]. rewrite Hed.
    intros r' p' [H|[= -> ->]%list_elem_of_singleton]%elem_of_app; [by apply Hin|done].
  - unfold filled; simpl. by destruct (rng_entries e).
Qed.

(** The range value that is already there has the same probability. *)
Lemma part_lookup (W : wtable) (e : worldTableEntry) (i : nat) (re : rngEntry) (p : Qc) :
  wtable_ok W -> entry_part W e -> rng_entries e !! i = Some re -> lit_in W (wt_var e) (re_rng re) p ->
  re_p re = p.
Proof.
  intros HW [Hnd Hroom (d & Hd & Hin)] Hre (d' & Hd' & Hrp).
  assert (d' = d) as ->.
  { apply list_elem_of_lookup in Hd as [a Ha]. apply list_elem_of_lookup in Hd' as [b Hb].
    assert (a = b) as ->; [|congruence].
    eapply (NoDup_lookup _ a b (wt_var e) (wt_nodup W HW)); rewrite list_lookup_fmap;
      [by rewrite Ha|by rewrite Hb]. }
  assert (H : (re_rng re, re_p re) ∈ entry_dist e).
  { apply list_elem_of_fmap. exists re. split; [done|by eapply list_elem_of_lookup_2]. }
  destruct (Hin _ _ H) as [H' _]. pose proof (dist_nodup d (wt_dist W HW _ d Hd)) as Hndd.
  apply list_elem_of_lookup in H' as [a Ha]. apply list_elem_of_lookup in Hrp as [b Hb].
  assert (a = b) as ->; [|congruence].
  eapply (NoDup_lookup _ a b (re_rng re) Hndd); rewrite list_lookup_fmap; [by rewrite Ha|by rewrite Hb].
Qed.

Lemma list_find_rng (e : worldTableEntry) (r : Z) :
  match list_find (fun re => re_rng re = r) (rng_entries e) with
  | Some (i, re) => rng_entries e !! i = Some re /\ re_rng re = r
  | None => r ∉ (entry_dist e).*1
  end.
Proof.
  destruct (list_find _ _) as [[i re]|] eqn:Hf.
  - apply list_find_Some in Hf as (Hi & Hr & _). done.
  - apply list_find_None in Hf. rewrite Forall_forall in Hf. unfold entry_dist.
    intros (rp & Hr & (re & -> & Hre)%list_elem_of_fmap)%list_elem_of_fmap. by apply (Hf re Hre).
Qed.

Section Register.
Context (W : wtable) (HW : wtable_ok W).

Lemma located_part (s s' : generalState) (x : nat) (m : Map) :
  Forall (entry_part W) (wt_entries s) -> row_map W m -> located s s' (var m) x ->
  Forall (entry_part W) (wt_entries s').
Proof.
  intros Hp Hm Hl. destruct (lo_entries _ _ _ _ Hl) as [->|(_ & -> & _)]; [done|].
  apply Forall_app. split; [done|]. constructor; [|done].
  destruct (rm_lit _ _ Hm) as (d & Hd & _). by eapply part_new.
Qed.

(** Updating entry [x] of the located state. *)
Lemma registered_update (s s1 : generalState) (m : Map) (x ro : nat) (e e' : worldTableEntry) :
  Forall (entry_part W) (wt_entries s) -> Forall filled (wt_entries s) ->
  row_map W m -> located s s1 (var m) x -> wt_entries s1 !! x = Some e ->
  entry_part W e' -> wt_var e' = wt_var e -> entry_dist e `prefix_of` entry_dist e' -> filled e' ->
  entry_dist e' !! ro = Some (rng m, mprob m) ->
  registered W s (set_wt s1 (<[x := e']> (wt_entries s1))) m (set_offsets m x ro).
Proof.
  intros Hp Hf Hm Hl He He' Hv Hpre Hfe Hro.
  pose proof (located_part s s1 x m Hp Hm Hl) as Hp1.
  pose proof (lo_entry _ _ _ _ Hl) as (e0 & He0 & Hev). assert (e0 = e) as -> by congruence.
  pose proof (lookup_lt_Some _ _ _ He) as Hlt.
  split.
  - eapply state_ok_entries; [apply Hl|done|done].
  - simpl. by apply Forall_insert.
  - simpl. apply Forall_lookup. intros y ey. destruct (decide (y = x)) as [->|Hne].
    + rewrite list_lookup_insert_eq by done. by intros [= <-].
    + rewrite list_lookup_insert_ne by done. intros Hy. rewrite Forall_lookup in Hf.
      destruct (lo_entries _ _ _ _ Hl) as [Heq|(_ & Heq & ->)]; rewrite Heq in Hy; [by apply (Hf y)|].
      apply (Hf y). apply lookup_app_Some in Hy as [Hy|[Hge Hy]]; [done|].
      apply list_lookup_singleton_Some in Hy as [Hy _]. unfold wt_entry_count in Hne. lia.
  - intros y ey Hy. simpl.
    assert (wt_entries s1 !! y = Some ey) as Hy1.
    { destruct (lo_entries _ _ _ _ Hl) as [->|(_ & -> & _)]; [done|]. by apply lookup_app_l_Some. }
    destruct (decide (y = x)) as [->|Hne].
    + exists e'. rewrite list_lookup_insert_eq by done. assert (ey = e) as -> by congruence. done.
    + exists ey. by rewrite list_lookup_insert_ne.
  - split. simpl. exists e'. rewrite list_lookup_insert_eq by done. split_and!; [done|congruence|done].
  - done.
  - intros v. simpl. rewrite list_fmap_insert, list_insert_id
      by (rewrite list_lookup_fmap, He; simpl; congruence).
    destruct (lo_entries _ _ _ _ Hl) as [->|(_ & -> & _)]; [by left|].
    rewrite fmap_app. intros [?|Hx%list_elem_of_singleton]%elem_of_app; [by left|by right].
  - intros Hnf. by apply (lo_nbits _ _ _ _ Hl).
Qed.

Lemma updateWorldTable_spec (s : generalState) (m : Map) :
  state_ok s -> Forall (entry_part W) (wt_entries s) -> Forall filled (wt_entries s) ->
  row_map W m -> slot_free s (var m) ->
  exists s' m', updateWorldTable s m = Some (s', m') /\ registered W s s' m m'.
Proof using HW.
  intros Hok Hp Hf Hm Hfree. unfold updateWorldTable.
  destruct (find_or_create_spec s (var m) Hok (rm_var _ _ Hm) Hfree) as (x & s1 & -> & Hl).
  cbn [mbind option_bind]. pose proof (lo_entry _ _ _ _ Hl) as (e & He & Hev).
  rewrite He. cbn [mbind option_bind].
  pose proof (located_part s s1 x m Hp Hm Hl) as Hp1.
  assert (Hpe : entry_part W e) by (rewrite Forall_lookup in Hp1; by eapply Hp1).
  pose proof (rm_lit _ _ Hm) as Hlit. rewrite <- Hev in Hlit.
  pose proof (list_find_rng e (rng m)) as Hfind. destruct (list_find _ _) as [[i re]|].
  - destruct Hfind as [Hi Hr]. eexists _, _. split; [done|].
    rewrite <- Hr in Hlit. pose proof (part_lookup W e i re _ HW Hpe Hi Hlit) as Hpr.
    replace s1 with (set_wt s1 (<[x := e]> (wt_entries s1)))
      by (rewrite list_insert_id by done; by destruct s1).
    apply (registered_update s s1 m x i e e); try done.
    + intros Hnil. by rewrite Hnil in Hi.
    + unfold entry_dist. rewrite list_lookup_fmap, Hi. simpl. by rewrite Hr, Hpr.
  - destruct (part_append W e (rng m) (mprob m) HW Hpe Hlit (rm_pos _ _ Hm) (rm_rng _ _ Hm) Hfind)
      as (e' & -> & Hpe' & Hv' & Hd' & Hfe').
    cbn [mbind option_bind]. eexists _, _. split; [done|].
    apply (registered_update s s1 m x _ e e'); try done.
    + rewrite Hd'. by apply prefix_app_r.
    + rewrite Hd'. rewrite lookup_app_r by (unfold entry_dist; by rewrite length_fmap).
      unfold entry_dist, rng_entry_count. by rewrite length_fmap, Nat.sub_diag.
Qed.
End Register.

(** ** Rows *)

Lemma drop_duplicates_id (n : nat) (d : list Map) :
  length d = n -> NoDup (var <$> d) -> drop_duplicates n d = Some d.
Proof.
  intros Hlen Hnd. unfold drop_duplicates.
  edestruct (for_upto_inv (fun _ d1 => d1 = d) (n - 1)) as (d1 & Hd1 & ->);
    [done| |exact Hd1].
  intros i d1 Hi ->. exists d. split; [|done].
  edestruct (for_list_inv (fun _ d1 => d1 = d) (seq (S i) (n - S i))) as (d1 & Hd1 & ->);
    [done| |exact Hd1].
  intros l1 j l2 d1 Hl ->. exists d. split; [|done].
  assert (j ∈ seq (S i) (n - S i)) as Hj by (rewrite Hl; set_solver).
  apply elem_of_seq in Hj.
  destruct (lookup_lt_is_Some_2 d i) as [mi Hmi]; [lia|].
  destruct (lookup_lt_is_Some_2 d j) as [mj Hmj]; [lia|].
  rewrite Hmi, Hmj. cbn [mbind option_bind].
  destruct (Z.eqb_spec (var mi) (var mj)) as [He|]; [|done]. exfalso.
  assert (i = j); [|lia].
  eapply (NoDup_lookup _ i j (var mi) Hnd); rewrite list_lookup_fmap; [by rewrite Hmi|].
  rewrite Hmj. simpl. congruence.
Qed.

Definition same_literal (m m' : Map) : Prop :=
  var m' = var m /\ rng m' = rng m /\ mprob m' = mprob m.

Section Rows.
Context (W : wtable) (HW : wtable_ok W).
(** The variables of the group; at most a bucket of them share a slot. *)
Context (V : list Z).
Context (Hsmall : forall c, length (filter (fun v => cls INIT_NBITS v = c) (remove_dups V)) <= LIST_INIT_SIZE).

Record store_inv (s : generalState) : Prop := {
  sv_ok : state_ok s;
  sv_part : Forall (entry_part W) (wt_entries s);
  sv_filled : Forall filled (wt_entries s);
  sv_nbits : gs_nbits s = INIT_NBITS;
  sv_vars : forall v, v ∈ (wt_var <$> wt_entries s) -> v ∈ V }.

Lemma bucket_room (s : generalState) (v : Z) (l : nat) (b : mList) :
  store_inv s -> v ∈ V -> slot_of s v = Some (Some l) -> mheap s !! l = Some b ->
  v ∉ (ml_items b).*1 -> BUCKETISFULL b = false.
Proof using Hsmall.
  intros [[Hht Hnd _ _ _] _ _ Hnb HV] Hv Hs Hb Hnot.
  rewrite (slot_of_cls _ s v Hht) in Hs.
  destruct (ht_bucket_ok _ s Hht _ l (proj1 (cls_range _ _)) Hs) as (b' & Hb' & [B1 B2 B3 B4 B5 B6]).
  assert (b' = b) as -> by congruence.
  assert (Hn : ml_nbits b = INIT_NBITS) by lia.
  apply Nat.eqb_neq. rewrite B3. unfold ml_count.
  pose proof (Hsmall (cls INIT_NBITS v)) as Hle.
  assert (length (v :: (ml_items b).*1) <= length (filter (fun w => cls INIT_NBITS w = cls INIT_NBITS v) (remove_dups V))).
  { apply submseteq_length, NoDup_submseteq; [by apply NoDup_cons|].
    intros k [->|Hk]%elem_of_cons; apply list_elem_of_filter; rewrite elem_of_remove_dups;
      [done|].
    apply list_elem_of_fmap in Hk as ([k' x] & -> & Hin). destruct (B6 k' x Hin) as (Hc & e & He & Hev).
    simpl. rewrite Hn in Hc. rewrite Hc, Hnb, cls_cls by done. split; [done|].
    apply HV. rewrite <- Hev. apply list_elem_of_fmap. exists e. split; [done|].
    by eapply list_elem_of_lookup_2. }
  simpl in H. rewrite length_fmap in H. lia.
Qed.

Lemma slot_of_small (s : generalState) (v : Z) : gs_nbits s = INIT_NBITS -> slot_free s v.
Proof using Type. intros Hn. right. rewrite Hn. apply cls_range. Qed.

Lemma store_registered (s s' : generalState) (m m' : Map) :
  store_inv s -> var m ∈ V -> registered W s s' m m' -> store_inv s'.
Proof using Hsmall.
  intros Hs Hv [R1 R2 R3 R4 R5 R6 R7 R8]. split; [done..| |].
  - rewrite R8; [apply Hs|]. intros l b Hsl Hb Hn. by apply (bucket_room s (var m) l b).
  - intros v Hin. destruct (R7 v Hin) as [?| ->]; [by apply (sv_vars s Hs)|done].
Qed.

(** The state of the registration loop after [j] maps. *)
Record registering (s0 : generalState) (d : list Map) (j : nat) (sw : generalState * WSD) : Prop := {
  rl_inv : store_inv sw.1;
  rl_grows : grows (wt_entries s0) (wt_entries sw.1);
  rl_data : exists ms, data sw.2 = ms ++ drop j d /\ Forall2 same_literal (take j d) ms /\
    Forall (map_ref (wt_entries sw.1)) ms;
  rl_prob : wprob sw.2 = qprod (mprob <$> take j d) }.

Lemma register_step (s0 : generalState) (d : list Map) (j : nat) (m : Map) (s : generalState) (w : WSD) :
  registering s0 d j (s, w) -> d !! j = Some m -> row_map W m -> var m ∈ V ->
  exists s' m', data w !! j = Some m /\ updateWorldTable s m = Some (s', m') /\
    registering s0 d (S j) (s', mk_WSD (<[j := m']> (data w)) (wprob w * mprob m)%Qc).
Proof using HW Hsmall.
  intros [Hi Hg (ms & Hd & H2 & Hms) Hp] Hj Hm Hv. simpl in *.
  destruct (updateWorldTable_spec W HW s m (sv_ok s Hi) (sv_part s Hi) (sv_filled s Hi) Hm
    (slot_of_small s (var m) (sv_nbits s Hi))) as (s' & m' & He & Hr).
  pose proof (lookup_lt_Some _ _ _ Hj) as Hlt.
  assert (Hlen : length ms = j).
  { apply Forall2_length in H2. rewrite length_take in H2. lia. }
  pose proof (drop_S d m j Hj) as Hdrop.
  exists s', m'. split_and!; [|done|].
  { rewrite Hd, Hdrop, lookup_app_r by lia. by rewrite Hlen, Nat.sub_diag. }
  split; simpl.
  - by eapply store_registered.
  - eapply grows_trans; [done|]. apply Hr.
  - exists (ms ++ [m']). split_and!.
    + rewrite Hd, Hdrop, insert_app_r_alt by lia. rewrite Hlen, Nat.sub_diag. simpl.
      by rewrite <- app_assoc.
    + rewrite (take_S_r _ _ _ Hj). apply Forall2_app; [done|]. constructor; [apply Hr|done].
    + apply Forall_app. split.
      * eapply Forall_impl; [exact Hms|]. intros m0. apply map_ref_grows, Hr.
      * constructor; [apply Hr|done].
  - rewrite (take_S_r _ _ _ Hj), fmap_app, qprod_app, Hp.
    csimpl. by rewrite qprod_one.
Qed.

Lemma register_maps_spec (n : nat) (s : generalState) (d : list Map) :
  store_inv s -> length d = n -> NoDup (var <$> d) ->
  Forall (row_map W) d -> Forall (fun m => var m ∈ V) d ->
  exists s' w, register_maps n s (mk_WSD d 1%Qc) = Some (s', w) /\ store_inv s' /\
    grows (wt_entries s) (wt_entries s') /\ clause_stored (wt_entries s') w /\
    clause_of w = (fun m => (var m, rng m)) <$> d.
Proof using HW Hsmall.
  intros Hs Hlen Hnd Hrow HV. unfold register_maps.
  edestruct (for_upto_inv (registering s d) n
    (fun j '(s, w) => m ← data w !! j; '(s, m') ← updateWorldTable s m;
       Some (s, mk_WSD (<[j := m']> (data w)) (wprob w * mprob m)%Qc)) (s, mk_WSD d 1%Qc))
    as ([s' w] & Hl & [Hi Hg (ms & Hd & H2 & Hms) Hp]).
  - split; [exact Hs|apply grows_refl| |].
    + exists []. split_and!; [simpl; reflexivity|constructor..].
    + done.
  - intros j [s1 w1] Hj Hreg. destruct (lookup_lt_is_Some_2 d j) as [m Hm]; [lia|].
    rewrite Forall_lookup in Hrow, HV.
    destruct (register_step s d j m s1 w1 Hreg Hm (Hrow _ _ Hm) (HV _ _ Hm))
      as (s2 & m2 & Hdw & Hu & Hr2).
    eexists. split; [|exact Hr2]. rewrite Hdw. cbn [mbind option_bind]. by rewrite Hu.
  - exists s', w. split; [exact Hl|]. simpl in *.
    rewrite drop_ge, app_nil_r in Hd by lia. rewrite take_ge in H2, Hp by lia. subst ms.
    assert (Hmap : forall (B : Type) (f : Map -> B),
      (forall m m', same_literal m m' -> f m' = f m) -> f <$> data w = f <$> d).
    { intros B f Hf. clear -H2 Hf. induction H2 as [|m m' l l' Hm _ IH]; [done|]. csimpl.
      by rewrite IH, (Hf m m'). }
    split_and!; [done|done| |].
    + split; [|done|].
      * rewrite (Hmap _ var); [done|]. by intros m m' (? & _).
      * rewrite Hp, (Hmap _ mprob); [done|]. by intros m m' (_ & _ & ?).
    + unfold clause_of. apply Hmap. intros m m' (-> & -> & _). done.
Qed.
End Rows.
