(* ===== verification/Group.v ===== *)
(** * Group: the confidence of a group of rows, end to end

    A group is a run of the transition function [accum] over the rows of the
    group followed by [conf_final_ge].  The result is the probability, under the
    global world table, that some row of the group is present: the local world
    table that the accumulation builds gives the same probability as the global
    one, although it knows only the range values that occur in the rows. *)
From S2P Require Import Prelude.
From S2P Require Import Bitset.
From S2P Require Import Worlds.
From S2P Require Import LocalCond.
From S2P Require Import HashTable.
From S2P Require Import Split.
From S2P Require Import WsTree.
From S2P Require Import Lineage.
From S2P Require Import Choice.
From S2P Require Import WsTreeCorrect.
From S2P Require Import Completion.
From S2P Require Import Store.

(** ** From the global to the local world table *)

Lemma wsum_app (d1 d2 : dist) (g : Z -> Qc) : wsum (d1 ++ d2) g = (wsum d1 g + wsum d2 g)%Qc.
Proof. induction d1 as [|[r p] d1 IH]; simpl; [ring|]. rewrite IH. ring. Qed.

Lemma wsum_perm (d1 d2 : dist) (g : Z -> Qc) : d1 ≡ₚ d2 -> wsum d1 g = wsum d2 g.
Proof.
  induction 1 as [|[r p] l l' _ IH|[r p] [s q] l|l1 l2 l3 _ IH1 _ IH2]; simpl;
    [done|by rewrite IH|ring|congruence].
Qed.

Lemma mass_perm (d1 d2 : dist) : d1 ≡ₚ d2 -> mass d1 = mass d2.
Proof.
  intros Hp. pose proof (wsum_perm d1 d2 (fun _ => 1%Qc) Hp) as H.
  rewrite !wsum_const, !Qcmult_1_r in H. done.
Qed.

Lemma mass_nonneg (d : dist) : (forall r p, (r, p) ∈ d -> (0 <= p)%Qc) -> (0 <= mass d)%Qc.
Proof.
  induction d as [|[r p] d IH]; simpl; intros H; [apply Qcle_refl|].
  pose proof (H r p (list_elem_of_here _ _)).
  assert (0 <= mass d)%Qc by (apply IH; intros s q Hs; by apply (H s q), list_elem_of_further).
  qc_lra.
Qed.

(** A sum of nothing. *)
Lemma wsum_zero (d : dist) (g : Z -> Qc) :
  (forall r p, (r, p) ∈ d -> (0 <= p)%Qc) -> mass d = 0%Qc -> wsum d g = 0%Qc.
Proof.
  induction d as [|[r p] d IH]; simpl; intros H Hm; [done|].
  pose proof (H r p (list_elem_of_here _ _)) as Hp.
  assert (Hd : forall s q, (s, q) ∈ d -> (0 <= q)%Qc) by (intros s q Hs; by apply (H s q), list_elem_of_further).
  pose proof (mass_nonneg d Hd) as Hmd.
  assert (p = 0%Qc) as -> by qc_lra. rewrite IH; [ring|done|qc_lra].
Qed.

(** The part [d0] of the distribution [d] that a group knows. *)
Record part_of (d0 d : dist) : Prop := {
  po_nodup : NoDup d0.*1;
  po_in : forall r p, (r, p) ∈ d0 -> (r, p) ∈ d }.

Lemma part_of_split (d0 d : dist) : dist_ok d -> part_of d0 d ->
  exists rest, d ≡ₚ d0 ++ rest /\ (forall r p, (r, p) ∈ rest -> (r ∉ d0.*1) /\ (0 <= p)%Qc) /\
    mass d0 = (1 - mass rest)%Qc.
Proof.
  intros [Hnd Hnn Hm] [Hnd0 Hin].
  destruct (submseteq_Permutation d0 d) as [rest Hp].
  { apply NoDup_submseteq; [by eapply NoDup_fmap_1|]. intros [r p]. apply Hin. }
  exists rest. split; [done|]. split.
  - intros r p Hr. split; [|apply (Hnn r p); rewrite Hp, elem_of_app; by right].
    intros H0. rewrite Hp, fmap_app in Hnd. apply NoDup_app in Hnd as (_ & Hd & _).
    apply (Hd r H0). apply list_elem_of_fmap. by exists (r, p).
  - rewrite (mass_perm _ _ Hp), mass_app in Hm. qc_lra.
Qed.

Lemma rest_mass_nonneg (d0 rest : dist) :
  (forall r p, (r, p) ∈ rest -> (r ∉ d0.*1) /\ (0 <= p)%Qc) -> (0 <= mass rest)%Qc.
Proof. intros H. apply mass_nonneg. intros r p Hr. by apply (H r p). Qed.

Lemma part_mass_le (d0 d : dist) : dist_ok d -> part_of d0 d -> (mass d0 <= 1)%Qc.
Proof.
  intros Hok Hpo. destruct (part_of_split d0 d Hok Hpo) as (rest & _ & Hr & ->).
  pose proof (rest_mass_nonneg d0 rest Hr). qc_lra.
Qed.

(** Lumping the unknown range values into one changes no sum of a function that
    does not tell them apart. *)
Lemma wsum_lump (d0 d : dist) (g : Z -> Qc) :
  dist_ok d -> part_of d0 d -> 
  (forall r s, r ∉ d0.*1 -> s ∉ d0.*1 -> g r = g s) ->
  wsum (complete_dist d0) g = wsum d g.
Proof.
  intros Hok Hpo Hg. destruct (part_of_split d0 d Hok Hpo) as (rest & Hp & Hr & Hm).
  rewrite (wsum_perm _ _ _ Hp), wsum_app. unfold complete_dist.
  assert (Hmax : (max_rng d0 + 1)%Z ∉ d0.*1).
  { intros ([r p] & He & Hin)%list_elem_of_fmap. pose proof (max_rng_ge d0 r p Hin). simpl in He. lia. }
  destruct (decide (mass d0 < 1)%Qc) as [Hlt|Hge].
  - rewrite wsum_app. f_equal. simpl.
    rewrite (wsum_ext rest g (fun _ => g (max_rng d0 + 1)%Z)).
    + rewrite wsum_const. rewrite Hm. ring.
    + intros r p Hin. apply Hg; [|done]. by apply (Hr r p).
  - rewrite (wsum_zero rest g); [ring| |].
    + intros r p Hin. by apply (Hr r p).
    + pose proof (rest_mass_nonneg d0 rest Hr). qc_lra.
Qed.

(** What a function of worlds can see: the variables of the local table, and of
    each of them only the known range values. *)
Record sees (L : wtable) (f : world -> Qc) : Prop := {
  se_ignores : forall x, x ∉ L.*1 -> ignores f x;
  se_lumps : forall x d0 w r s, (x, d0) ∈ L -> r ∉ d0.*1 -> s ∉ d0.*1 ->
    f (<[x := r]> w) = f (<[x := s]> w) }.

Lemma expect_constant (W : wtable) (w : world) (f : world -> Qc) :
  wtable_ok W -> (forall x, ignores f x) -> expect W w f = f w.
Proof.
  revert w. induction W as [|[x d] W IH]; intros w HW Hf; simpl; [done|].
  apply wtable_ok_cons in HW as (_ & Hd & HW).
  rewrite (wsum_ext d _ (fun _ => f w)).
  - rewrite wsum_const, (dist_mass d Hd). ring.
  - intros r p _. rewrite IH by done. apply Hf.
Qed.

Lemma sees_insert (L : wtable) (x : Z) (d0 : dist) (f : world -> Qc) (r : Z) :
  x ∉ L.*1 -> sees ((x, d0) :: L) f -> sees L (fun w => f (<[x := r]> w)).
Proof.
  intros Hx [Hi Hl]. split.
  - intros y Hy w s. destruct (decide (y = x)) as [->|Hne].
    + by rewrite insert_insert_eq.
    + rewrite insert_insert_ne by done. apply Hi. simpl. set_solver.
  - intros y d1 w a b Hin Ha Hb.
    assert (y <> x) by (intros ->; apply Hx, list_elem_of_fmap; by exists (x, d1)).
    rewrite !(insert_insert_ne w x y) by done. apply (Hl y d1); [set_solver|done..].
Qed.

Theorem expect_local (W L : wtable) (w : world) (f : world -> Qc) :
  wtable_ok W -> NoDup L.*1 ->
  (forall x d0, (x, d0) ∈ L -> exists d, (x, d) ∈ W /\ part_of d0 d) ->
  sees L f -> expect ((fun xd => (xd.1, complete_dist xd.2)) <$> L) w f = expect W w f.
Proof.
  intros HW. revert w f. induction L as [|[x d0] L IH]; intros w f Hnd Hpart Hsee; csimpl.
  - symmetry. apply expect_constant; [done|]. intros x. apply (se_ignores _ _ Hsee). set_solver.
  - apply NoDup_cons in Hnd as [Hx Hnd].
    destruct (Hpart x d0) as (d & Hd & Hpo); [set_solver|].
    rewrite (expect_shannon W w f x d HW Hd).
    rewrite (wsum_ext (complete_dist d0) _ (fun r => expect W w (fun u => f (<[x := r]> u)))).
    + apply wsum_lump; [by apply (wt_dist W HW x)|done|].
      intros r s Hr Hs. apply expect_ext. intros u. apply (se_lumps _ _ Hsee x d0); [set_solver|done..].
    + intros r p _. rewrite expect_fix.
      * apply IH; [done| |by eapply sees_insert]. intros y d1 Hy. apply Hpart. set_solver.
      * rewrite <- list_fmap_compose. exact Hx.
Qed.

(** ** One row *)

(** A condition column triple: variable, range value, probability. *)
Abbreviation row := (list (Z * Z * Qc)).

Definition row_maps (r : row) : list Map := (fun t => create_map t.1.1 t.1.2 0 t.2) <$> r.
Definition row_clause (r : row) : clause := (fun t => (t.1.1, t.1.2)) <$> r.

(** The arguments of the transition function: the state and the parameters of the
    aggregate, [pre], and the columns of the row. *)
Definition row_args (pre : list datum) (r : row) : list datum :=
  pre ++ mjoin ((fun t => [DInt32 t.1.1; DInt32 t.1.2; DFloat4 t.2]) <$> r).

Lemma args_lookup (pre : list datum) (r : row) (narg j k : nat) (t : Z * Z * Qc) :
  length pre = S narg -> r !! j = Some t -> k < 3 ->
  row_args pre r !! (narg + S k + j * 3) = [DInt32 t.1.1; DInt32 t.1.2; DFloat4 t.2] !! k.
Proof.
  intros Hpre Hj Hk. unfold row_args. rewrite lookup_app_r by lia.
  replace (narg + S k + j * 3 - length pre) with (k + j * 3) by lia. clear pre Hpre.
  revert j Hj. induction r as [|t0 r IH]; intros j; [done|]. csimpl.
  destruct j as [|j]; simpl.
  - intros [= ->]. rewrite Nat.add_0_r. by destruct k as [|[|[|]]]; [..|lia].
  - intros Hj. rewrite <- (IH j Hj). by rewrite !Nat.add_succ_r.
Qed.

Lemma fetch_maps_spec (pre : list datum) (narg : nat) (r : row) :
  length pre = S narg -> fetch_maps (length r) narg (row_args pre r) = Some (row_maps r).
Proof.
  intros Hpre. unfold fetch_maps. apply mapM_Some, Forall2_same_length_lookup_2.
  - unfold row_maps. by rewrite length_seq, length_fmap.
  - intros i j m Hj Hm. apply lookup_seq in Hj as [-> Hj].
    unfold row_maps in Hm. rewrite list_lookup_fmap in Hm.
    destruct (r !! i) as [t|] eqn:Ht; [|done]. injection Hm as <-.
    unfold PG_GETARG_INT32, PG_GETARG_FLOAT4. change (0 + i) with i.
    rewrite (args_lookup pre r narg i 0 t), (args_lookup pre r narg i 1 t),
      (args_lookup pre r narg i 2 t) by (done || lia).
    done.
Qed.

(** A row of the relation: maps of the world table over distinct variables. *)
Record row_ok (W : wtable) (n : nat) (r : row) : Prop := {
  rw_len : length r = n;
  rw_nodup : NoDup (row_clause r).*1;
  rw_maps : Forall (row_map W) (row_maps r) }.

Section Group.
Context (W : wtable) (HW : table_ok W) (n : nat) (V : list Z).
Context (Hsmall : forall c, length (filter (fun v => cls INIT_NBITS v = c) (remove_dups V)) <= LIST_INIT_SIZE).

(** The file-level state after the rows [rs] of a group. *)
Record group_inv (rs : list row) (g : globals) : Prop := {
  gi_cxt : rs <> [] -> groupcxt g = true;
  gi_len : rs <> [] -> WSD_LEN g = n;
  gi_rows : Forall (fun r => length r = n) rs;
  gi_room : NUM_WSDS g < current_size g;
  gi_store : store_inv W V (gstate g);
  gi_clauses : exists l, gS g = Some l /\ Forall (clause_stored (wt_entries (gstate g))) l /\
    clause_of <$> l = row_clause <$> rs }.

Definition opened (g : globals) : globals :=
  match gS g with None => genStateInit g | Some _ => g end.

Lemma opened_inv (g : globals) : gS g = None -> group_inv [] (opened g).
Proof.
  intros Hg. unfold opened. rewrite Hg. split; [done|done|constructor| | |].
  - unfold genStateInit, NUM_WSDS; simpl. lia.
  - unfold genStateInit; cbn [gstate]. split; try done.
    + split; [apply (ht_init g)|apply NoDup_nil_2|apply Forall_nil_2|cbn [gs_nbits]; unfold INIT_NBITS; lia|].
      unfold wt_entry_count, WTINITSIZE; simpl. lia.
    + by intros v ?%elem_of_nil.
  - exists []. split_and!; [done|constructor|done].
Qed.

Lemma stored_grows (wt wt' : list worldTableEntry) (l : list WSD) :
  grows wt wt' -> Forall (clause_stored wt) l -> Forall (clause_stored wt') l.
Proof.
  intros Hg H. eapply Forall_impl; [exact H|]. intros w [H1 H2 H3]. split; [done| |done].
  eapply Forall_impl; [exact H2|]. intros m. by apply map_ref_grows.
Qed.

Lemma advance_spec (rs : list row) (r : row) (g : globals) :
  group_inv rs (opened g) -> row_ok W n r -> (forall t, t ∈ r -> t.1.1 ∈ V) ->
  groupcxt g = true -> WSD_LEN g = n ->
  exists g', advance n g (mk_WSD (row_maps r) 1%Qc) = Some g' /\ group_inv (rs ++ [r]) g'.
Proof using HW Hsmall.
  intros [_ _ Hrows Hroom Hst (l & HS & Hl & Hcl)] [Hlen Hnd Hmaps] HV Hcx Hwl.
  unfold advance. fold (opened g). rewrite HS. cbn [mbind option_bind].
  set (size := if current_size (opened g) - 1 <=? NUM_WSDS (opened g) then _ else _).
  assert (Hsize : S (NUM_WSDS (opened g)) < size).
  { unfold size. destruct (Nat.leb_spec (current_size (opened g) - 1) (NUM_WSDS (opened g))); lia. }
  rewrite (proj2 (Nat.ltb_lt _ _)) by lia.
  assert (Hndv : NoDup (var <$> row_maps r)).
  { unfold row_clause in Hnd. unfold row_maps. rewrite <- list_fmap_compose.
    rewrite <- list_fmap_compose in Hnd. exact Hnd. }
  cbn [data]. rewrite drop_duplicates_id by (done || unfold row_maps; by rewrite length_fmap).
  cbn [mbind option_bind wprob data].
  destruct (register_maps_spec W (to_wtable W HW) V Hsmall n (gstate (opened g)) (row_maps r))
    as (s' & w & Hreg & Hinv & Hgr & Hw & Hcw); [done|unfold row_maps; by rewrite length_fmap|done|done| |].
  { unfold row_maps. apply Forall_fmap, Forall_forall. intros t Ht. by apply HV. }
  rewrite Hreg. cbn [mbind option_bind]. eexists. split; [done|]. split; simpl.
  - intros _. unfold opened. destruct (gS g); done.
  - intros _. unfold opened. destruct (gS g); done.
  - apply Forall_app. split; [done|by constructor].
  - unfold NUM_WSDS in *; simpl. rewrite HS in Hsize. rewrite length_app. simpl. lia.
  - done.
  - exists (l ++ [w]). split_and!; [done| |].
    + apply Forall_app. split; [by eapply stored_grows|by constructor].
    + rewrite !fmap_app, Hcl. f_equal. csimpl. rewrite Hcw. unfold row_maps, row_clause.
      by rewrite <- list_fmap_compose.
Qed.

(** The transition function on the rows of the group, in order. *)
Definition accum_rows (pre : list datum) (rs : list row) (g : globals) : option globals :=
  for_list rs (fun r g => accum n (length pre - 1) (row_args pre r) g) g.

Lemma accum_rows_spec (pre : list datum) (rs : list row) (g : globals) :
  pre <> [] -> gS g = None -> rs <> [] -> Forall (row_ok W n) rs ->
  (forall r t, r ∈ rs -> t ∈ r -> t.1.1 ∈ V) ->
  exists g', accum_rows pre rs g = Some g' /\ group_inv rs g' /\ gS g' <> None.
Proof using HW Hsmall.
  intros Hpre Hg Hne Hok HV. unfold accum_rows.
  edestruct (for_list_inv (fun done g' => group_inv done (opened g') /\ (done <> [] -> gS g' <> None)) rs
    (fun r g => accum n (length pre - 1) (row_args pre r) g)) as (g' & Hg' & Hinv & HS).
  - split; [by apply opened_inv|done].
  - intros l1 r l2 g1 Heq [Hinv _]. unfold accum.
    assert (Hr : row_ok W n r) by (rewrite Forall_forall in Hok; apply Hok; rewrite Heq; set_solver).
    rewrite <- (rw_len _ _ _ Hr).
    rewrite fetch_maps_spec by (destruct pre; simpl in *; [done|lia]). cbn [mbind option_bind].
    rewrite (rw_len _ _ _ Hr).
    destruct (advance_spec l1 r (mk_globals (gS g1) (current_size g1) n true (gstate g1)))
      as (g2 & Ha & Hi2); [|done| |done|done|].
    + destruct g1 as [gs1 cs1 wl1 cx1 st1]. unfold opened in *; simpl in *. destruct gs1.
      * destruct Hinv as [I1 I2 I3 I4 I5 I6]. by split.
      * destruct Hinv as [I1 I2 I3 I4 I5 I6]. split; try done.
    + intros t Ht. apply (HV r t); [rewrite Heq; set_solver|done].
    + exists g2. split; [done|].
      destruct (gi_clauses _ _ Hi2) as (l & Hl & _). unfold opened. rewrite Hl.
      split; [done|congruence].
  - exists g'. split; [exact Hg'|]. split; [|exact (HS Hne)].
    unfold opened in Hinv. destruct (gS g'); [done|by destruct (HS Hne eq_refl)].
Qed.

(** The whole group. *)
Definition conf_group (junk : nat -> N) (rs : list row) (g : globals) : option (Qc * globals) :=
  g ← accum_rows [DInt32 0] rs g; conf_final_ge junk g.

Definition known (wt : list worldTableEntry) : wtable := (fun e => (wt_var e, entry_dist e)) <$> wt.

Lemma known_part (wt : list worldTableEntry) (x : Z) (d0 : dist) :
  Forall (entry_part W) wt -> (x, d0) ∈ known wt -> exists d, (x, d) ∈ W /\ part_of d0 d.
Proof using Type.
  intros Hp (e & [= -> ->] & He)%list_elem_of_fmap. rewrite Forall_forall in Hp.
  destruct (Hp e He) as [Hnd _ (d & Hd & Hin)]. exists d. split; [done|].
  split; [done|]. intros r p H. by apply (Hin r p).
Qed.

(** The lineage of stored clauses only sees the known range values. *)
Lemma lineage_sees (wt : list worldTableEntry) (l : list WSD) :
  NoDup (wt_var <$> wt) -> Forall (clause_stored wt) l ->
  sees (known wt) (fun u => ind (sat_dnf (clause_of <$> l) u)).
Proof using Type.
  intros Hnd Hl.
  assert (Hlit : forall w m, w ∈ l -> m ∈ data w ->
    exists d0, (var m, d0) ∈ known wt /\ rng m ∈ d0.*1).
  { intros w m Hw Hm. rewrite Forall_forall in Hl. pose proof (cs_maps _ _ (Hl w Hw)) as Hms.
    rewrite Forall_forall in Hms. destruct (Hms m Hm) as [(e & He & Hv & Hd)].
    exists (entry_dist e). split.
    - apply list_elem_of_fmap. exists e. rewrite Hv. split; [done|by eapply list_elem_of_lookup_2].
    - apply list_elem_of_fmap. exists (rng m, mprob m).
      split; [done|by eapply list_elem_of_lookup_2]. }
  split.
  - intros x Hx u r. f_equal. apply sat_dnf_ignores.
    intros c (w & -> & Hw)%list_elem_of_fmap (t & -> & (m & -> & Hm)%list_elem_of_fmap)%list_elem_of_fmap.
    destruct (Hlit w m Hw Hm) as (d0 & Hd0 & _). apply Hx, list_elem_of_fmap. by exists (var m, d0).
  - intros x d0 u r s Hx Hr Hs. f_equal.
    apply eq_true_iff_eq. rewrite !sat_dnf_true.
    assert (Hone : forall a b, a ∉ d0.*1 -> b ∉ d0.*1 -> forall c, c ∈ clause_of <$> l ->
      sat_clause c (<[x := a]> u) = true -> sat_clause c (<[x := b]> u) = true).
    { intros a b Ha Hb c (w & -> & Hw)%list_elem_of_fmap. unfold sat_clause.
      rewrite !forallb_forall. setoid_rewrite <- list_elem_of_In.
      intros H t Ht. specialize (H t Ht). apply list_elem_of_fmap in Ht as (m & -> & Hm).
      rewrite sat_lit_insert in *. simpl in *. destruct (decide (var m = x)) as [<-|]; [|done].
      destruct (Hlit w m Hw Hm) as (d1 & Hd1 & Hin).
      assert (d1 = d0) as ->.
      { apply list_elem_of_lookup in Hd1 as [i Hi]. apply list_elem_of_lookup in Hx as [j Hj].
        assert (i = j) as ->; [|congruence].
        unfold known in Hi, Hj. rewrite list_lookup_fmap in Hi, Hj.
        eapply (NoDup_lookup _ i j (var m) Hnd); rewrite list_lookup_fmap.
        - destruct (wt !! i); [|done]. injection Hi as <- _. done.
        - destruct (wt !! j); [|done]. injection Hj as <- _. done. }
      apply bool_decide_eq_true in H. subst a. done. }
    split; intros (c & Hc & Hsat); exists c; (split; [done|]); [by apply (Hone r s)|by apply (Hone s r)].
Qed.

Lemma store_of_inv (s : generalState) (l : list WSD) :
  store_inv W V s -> Forall (clause_stored (wt_entries s)) l -> store_ok (wt_entries s) l.
Proof using HW.
  intros [Hok Hp Hf _ _] Hl. split; [apply Hok| |done].
  rewrite Forall_forall in *. intros e He. destruct (Hp e He) as [H1 H2 (d & Hd & Hin)].
  split; [by apply Hf|done| | |done].
  - intros r p Hr. destruct (Hin r p Hr) as (_ & ? & ?). done.
  - apply (part_mass_le _ d); [by apply (wt_dist W (to_wtable W HW) (wt_var e) d)|].
    split; [done|]. intros r p Hr. by apply (Hin r p).
Qed.

(** The stored clauses under the local table have the probability of the rows
    under the global one. *)
Lemma group_prob (rs : list row) (g : globals) (l : list WSD) :
  group_inv rs g -> gS g = Some l ->
  store_ok (wt_entries (gstate g)) l /\ clause_of <$> l = row_clause <$> rs /\
  (forall w, w ∈ l -> length (data w) = n) /\
  Pr (complete_table (wt_entries (gstate g))) (sat_dnf (clause_of <$> l)) =
    Pr W (sat_dnf (row_clause <$> rs)).
Proof using HW.
  intros [_ _ Hrows _ Hst (l' & Hl' & Hcl & Heq)] Hl.
  rewrite Hl in Hl'. injection Hl' as <-.
  pose proof (store_of_inv _ l Hst Hcl) as Hso. split_and!; [done|done| |].
  - intros w Hw.
    assert (clause_of w ∈ row_clause <$> rs) as Hin
      by (rewrite <- Heq; apply list_elem_of_fmap; by exists w).
    apply list_elem_of_fmap in Hin as (r & Hr & Hrin). rewrite Forall_forall in Hrows.
    apply (f_equal length) in Hr. unfold clause_of, row_clause in Hr. rewrite !length_fmap in Hr.
    rewrite Hr, (Hrows r Hrin). done.
  - rewrite <- Heq. unfold Pr. rewrite <- (expect_local W (known (wt_entries (gstate g)))).
    + unfold complete_table, known. by rewrite <- list_fmap_compose.
    + apply HW.
    + unfold known. rewrite <- list_fmap_compose. exact (so_vars _ _ Hso).
    + intros x d0. apply known_part, Hst.
    + apply lineage_sees; [apply Hso|done].
Qed.

Lemma group_ne (rs : list row) (l : list WSD) :
  rs <> [] -> clause_of <$> l = row_clause <$> rs -> l <> [].
Proof using Type.
  intros Hne Heq ->. apply (f_equal length) in Heq. rewrite !length_fmap in Heq. simpl in Heq.
  by destruct rs.
Qed.

Theorem conf_group_spec (junk : nat -> N) (rs : list row) (g : globals) :
  gS g = None -> rs <> [] -> Forall (row_ok W n) rs ->
  (forall r t, r ∈ rs -> t ∈ r -> t.1.1 ∈ V) ->
  exists g', conf_group junk rs g = Some (Pr W (sat_dnf (row_clause <$> rs)), g') /\
    groupcxt g' = false /\ gS g' = None.
Proof using HW Hsmall.
  intros Hg Hne Hok HV. unfold conf_group.
  destruct (accum_rows_spec [DInt32 0] rs g ltac:(done) Hg Hne Hok HV) as (g1 & -> & Hinv & HS).
  cbn [mbind option_bind]. destruct (gi_clauses _ _ Hinv) as (l & Hl & _).
  destruct (group_prob rs g1 l Hinv Hl) as (Hso & Heq & Hwl & <-).
  apply (conf_final_correct junk g1 l); [by apply (gi_cxt rs)|done|by eapply group_ne|done|].
  intros w Hw. by rewrite (Hwl w Hw), (gi_len _ _ Hinv Hne).
Qed.
End Group.
