(* ===== verification/TupleConf.v ===== *)
(** * TupleConf: the confidence of one tuple ([tupleconf.c])

    [product_ge n] computes the probability of the conjunction of [n] condition
    triples; [product n] multiplies the probabilities of tuple-independent
    relations.  The macro reuses [create_map] of [LocalCond]; a triple that repeats
    an earlier variable is overwritten with the reserved variable, with the
    negative range value when the two contradict each other. *)
From S2P Require Import Prelude.
From S2P Require Import Worlds.
From S2P Require Import LocalCond.

(** ** Operations *)

Definition product (n : nat) (args : list datum) : option Qc :=
  for_upto n (fun i result => p ← PG_GETARG_FLOAT4 args i; Some (result * p)%Qc) 1%Qc.

Definition set_reserved (m : Map) (r : Z) (p : Qc) : Map :=
  mk_Map RESERVED_VAR r (neg m) p (wt_offset m) (wt_entry m) (rng_offset m) (rng_entry m).

(** The body of the nested loops of [product_ge]. *)
Definition reserve_step (i j : nat) (d : list Map) : option (list Map) :=
  mi ← d !! i; mj ← d !! j;
  if (var mi =? var mj)%Z then
    if (rng mi =? rng mj)%Z then Some (<[j := set_reserved mj RNG_FOR_RESERVED_VAR 1%Qc]> d)
    else Some (<[j := set_reserved mj RNG_FOR_RESERVED_VAR_NEGATIVE 0%Qc]> d)
  else Some d.

Definition reserve_duplicates (n : nat) (d : list Map) : option (list Map) :=
  for_upto (n - 1) (fun i d => for_list (seq (S i) (n - S i)) (reserve_step i) d) d.

(** The [n] triples of the arguments. *)
Definition fetch_triples (n : nat) (args : list datum) : option (list Map) :=
  mapM (fun j =>
          v ← PG_GETARG_INT32 args (j * 3);
          r ← PG_GETARG_INT32 args (1 + j * 3);
          p ← PG_GETARG_FLOAT4 args (2 + j * 3);
          Some (create_map v r 0 p)) (seq 0 n).

Definition product_ge (n : nat) (args : list datum) : option Qc :=
  d ← fetch_triples n args;
  d ← reserve_duplicates n d;
  for_upto n (fun i result => m ← d !! i; Some (result * mprob m)%Qc) 1%Qc.

Definition product0 (args : list datum) : option Qc := Some 1%Qc.
Definition product1_ge (args : list datum) : option Qc := PG_GETARG_FLOAT4 args 2.
Definition product2_ge := product_ge 2.
Definition product3_ge := product_ge 3.
Definition product4_ge := product_ge 4.
Definition product5_ge := product_ge 5.
Definition product6_ge := product_ge 6.
Definition product7_ge := product_ge 7.
Definition product8_ge := product_ge 8.
Definition product9_ge := product_ge 9.
Definition product10_ge := product_ge 10.
Definition product1 (args : list datum) : option Qc := PG_GETARG_FLOAT4 args 0.
Definition product2 := product 2.
Definition product3 := product 3.
Definition product4 := product 4.
Definition product5 := product 5.
Definition product6 := product 6.
Definition product7 := product 7.
Definition product8 := product 8.
Definition product9 := product 9.
Definition product10 := product 10.

(** ** Meaning of a conjunction of triples *)

(** The reserved variable does not depend on the world: it has value 1. *)
Definition holds (w : world) (m : Map) : bool :=
  if (var m =? RESERVED_VAR)%Z then (rng m =? RNG_FOR_RESERVED_VAR)%Z
  else bool_decide (w !! var m = Some (rng m)).

Definition all_hold (d : list Map) (w : world) : bool := forallb (holds w) d.

(** A triple of the relation that [W] describes; the reserved one is certain. *)
Definition triple_ok (W : wtable) (m : Map) : Prop :=
  if decide (var m = RESERVED_VAR)
  then mprob m = (if (rng m =? RNG_FOR_RESERVED_VAR)%Z then 1 else 0)%Qc
  else lit_in W (var m) (rng m) (mprob m).

Lemma all_hold_true (d : list Map) (w : world) :
  all_hold d w = true <-> forall k m, d !! k = Some m -> holds w m = true.
Proof.
  unfold all_hold. rewrite forallb_forall. split.
  - intros H k m Hk. apply H, list_elem_of_In. by eapply list_elem_of_lookup_2.
  - intros H m Hm. apply list_elem_of_In, list_elem_of_lookup in Hm as [k Hk]. by eapply H.
Qed.

(** One step keeps the event and the well-formedness, and settles the pair. *)
Record step_ok (W : wtable) (i j : nat) (d d' : list Map) : Prop := {
  so_event : forall w, all_hold d' w = all_hold d w;
  so_triples : Forall (triple_ok W) d';
  so_length : length d' = length d;
  so_other : forall k, k <> j -> d' !! k = d !! k;
  so_kept : forall m m', d !! j = Some m -> d' !! j = Some m' -> var m' = var m \/ var m' = RESERVED_VAR;
  so_pair : forall mi mj, d' !! i = Some mi -> d' !! j = Some mj -> var mi = var mj -> var mj = RESERVED_VAR }.

Lemma reserved_ok (W : wtable) (m : Map) :
  triple_ok W (set_reserved m RNG_FOR_RESERVED_VAR 1%Qc) /\
  triple_ok W (set_reserved m RNG_FOR_RESERVED_VAR_NEGATIVE 0%Qc).
Proof. unfold triple_ok, set_reserved; simpl. done. Qed.

(** Overwriting triple [j] where triple [i] decides it keeps the event. *)
Lemma overwrite_event (d : list Map) (i j : nat) (mi mj m' : Map) :
  d !! i = Some mi -> d !! j = Some mj -> i <> j ->
  (forall w, holds w mi = true -> holds w m' = holds w mj) ->
  forall w, all_hold (<[j := m']> d) w = all_hold d w.
Proof.
  intros Hi Hj Hne H w. apply eq_true_iff_eq. rewrite !all_hold_true.
  pose proof (lookup_lt_Some _ _ _ Hj) as Hlt. split; intros Hall.
  - assert (Hiw : holds w mi = true) by (apply (Hall i); by rewrite list_lookup_insert_ne).
    intros k m Hk. destruct (decide (k = j)) as [->|Hk'].
    + assert (m = mj) as -> by congruence. rewrite <- (H w Hiw).
      apply (Hall j). by apply list_lookup_insert_eq.
    + apply (Hall k). by rewrite list_lookup_insert_ne.
  - assert (Hiw : holds w mi = true) by (by apply (Hall i)).
    intros k m Hk. destruct (decide (k = j)) as [->|Hk'].
    + rewrite list_lookup_insert_eq in Hk by done. injection Hk as <-. rewrite (H w Hiw).
      by apply (Hall j).
    + rewrite list_lookup_insert_ne in Hk by done. by apply (Hall k).
Qed.

(** Two triples over the same variable. *)
Lemma holds_same (w : world) (mi mj : Map) :
  var mi = var mj -> holds w mi = true ->
  (rng mi = rng mj -> holds w mj = true) /\
  (rng mi <> rng mj -> holds w mj = false).
Proof.
  unfold holds. intros <-. destruct (Z.eqb_spec (var mi) RESERVED_VAR).
  - rewrite !Z.eqb_eq, Z.eqb_neq. intros ->. split; congruence.
  - rewrite !bool_decide_eq_true, bool_decide_eq_false. intros ->. split; congruence.
Qed.

Lemma reserve_step_spec (W : wtable) (i j : nat) (d : list Map) :
  Forall (triple_ok W) d -> i < length d -> j < length d -> i <> j ->
  exists d', reserve_step i j d = Some d' /\ step_ok W i j d d'.
Proof.
  intros Hok Hi Hj Hne.
  destruct (lookup_lt_is_Some_2 d i Hi) as [mi Hmi]. destruct (lookup_lt_is_Some_2 d j Hj) as [mj Hmj].
  unfold reserve_step. rewrite Hmi, Hmj. simpl.
  destruct (Z.eqb_spec (var mi) (var mj)) as [Hv|Hv].
  2: { exists d. split; [done|]. split; try done.
       - intros m m' H1 H2. left. congruence.
       - intros mi' mj' H1 H2. congruence. }
  destruct (reserved_ok W mj) as [R1 R0].
  assert (Hgen : forall r p, triple_ok W (set_reserved mj r p) ->
    (forall w, holds w mi = true -> holds w (set_reserved mj r p) = holds w mj) ->
    step_ok W i j d (<[j := set_reserved mj r p]> d)).
  { intros r p Hr Hh. split.
    - by apply (overwrite_event d i j mi mj).
    - by apply Forall_insert.
    - apply length_insert.
    - intros k Hk. by apply list_lookup_insert_ne.
    - intros m m' _. rewrite list_lookup_insert_eq by done. intros [= <-]. by right.
    - intros mi' mj' _. rewrite list_lookup_insert_eq by done. by intros [= <-]. }
  destruct (Z.eqb_spec (rng mi) (rng mj)) as [Hr|Hr]; (eexists; split; [done|]); apply Hgen;
    try done; intros w Hw; destruct (holds_same w mi mj Hv Hw) as [H1 H2].
  - by rewrite (H1 Hr).
  - by rewrite (H2 Hr).
Qed.

(** After the rounds below [i] no later triple repeats an earlier variable. *)
Record settled (W : wtable) (d0 : list Map) (i j : nat) (d : list Map) : Prop := {
  se_event : forall w, all_hold d w = all_hold d0 w;
  se_triples : Forall (triple_ok W) d;
  se_length : length d = length d0;
  se_pairs : forall a b ma mb, a < b -> a < i \/ (a = i /\ b < j) -> d !! a = Some ma ->
    d !! b = Some mb -> var ma = var mb -> var mb = RESERVED_VAR }.

Lemma settled_step (W : wtable) (d0 d d' : list Map) (i j : nat) :
  settled W d0 i j d -> i < j -> step_ok W i j d d' -> settled W d0 i (S j) d'.
Proof.
  intros [E T L P] Hij [E' T' L' O K Q]. split; [intros w; by rewrite E', E|done|congruence|].
  intros a b ma mb Hab Hor Ha Hb Hv.
  assert (Haj : forall k m, d' !! k = Some m -> exists m0, d !! k = Some m0 /\
    (m = m0 \/ (k = j /\ (var m = var m0 \/ var m = RESERVED_VAR)))).
  { intros k m Hk. destruct (decide (k = j)) as [->|Hk'].
    - destruct (lookup_lt_is_Some_2 d j) as [m0 Hm0]; [rewrite <- L'; by eapply lookup_lt_Some|].
      exists m0. split; [done|]. right. split; [done|]. by apply (K m0 m).
    - exists m. rewrite <- O by done. auto. }
  destruct (decide (a = i /\ b = j)) as [[-> ->]|Hne]; [by apply (Q ma mb)|].
  destruct (Haj a ma Ha) as (ma0 & Ha0 & Hma), (Haj b mb Hb) as (mb0 & Hb0 & Hmb).
  assert (Hor' : a < i \/ (a = i /\ b < j)) by lia.
  assert (Hold : var ma0 = var mb0 -> var mb0 = RESERVED_VAR) by (by apply (P a b)).
  destruct Hma as [->|(-> & [Hva|Hva])], Hmb as [->|(-> & [Hvb|Hvb])]; try congruence; try lia.
  all: rewrite Hvb; apply Hold; congruence.
Qed.

Lemma reserve_duplicates_spec (W : wtable) (n : nat) (d0 : list Map) :
  length d0 = n -> Forall (triple_ok W) d0 ->
  exists d, reserve_duplicates n d0 = Some d /\ settled W d0 (n - 1) n d.
Proof.
  intros Hn Hok. unfold reserve_duplicates.
  edestruct (for_upto_inv (fun i d => settled W d0 i (S i) d) (n - 1)) as (d & Hd & Hs).
  - split; [done|done|done|]. intros a b ma mb Hab. lia.
  - intros i d Hi Hs.
    edestruct (for_list_inv (fun l d => settled W d0 i (S i + length l) d) (seq (S i) (n - S i))
      (reserve_step i)) as (d' & Hd' & Hs').
    + simpl. by rewrite Nat.add_0_r.
    + intros l1 j l2 d1 Hl Hs1.
      assert (Hj : j = S i + length l1 /\ j < n).
      { pose proof (f_equal length Hl) as Hlen. rewrite length_seq, length_app in Hlen.
        simpl in Hlen. assert (Hlk : seq (S i) (n - S i) !! length l1 = Some j)
          by (rewrite Hl, lookup_app_r, Nat.sub_diag by lia; done).
        apply lookup_seq in Hlk. lia. }
      destruct (reserve_step_spec W i j d1) as (d2 & Hd2 & Hstep);
        [apply Hs1|rewrite (se_length _ _ _ _ _ Hs1); lia..|lia|].
      exists d2. split; [done|]. rewrite length_app. cbn [length].
      replace (S i + (length l1 + 1)) with (S j) by lia.
      apply (settled_step W d0 d1 d2 i j); [|lia|done]. by rewrite (proj1 Hj).
    + exists d'. split; [exact Hd'|]. rewrite length_seq in Hs'.
      destruct Hs' as [E T L P]. split; [done..|].
      intros a b ma mb Hab Hor Ha Hb. apply (P a b ma mb Hab); [|done..].
      pose proof (lookup_lt_Some _ _ _ Hb). lia.
  - exists d. split; [exact Hd|]. destruct Hs as [E T L P]. split; [done..|].
    intros a b ma mb Hab Hor Ha Hb. apply (P a b ma mb Hab); [|done..].
    pose proof (lookup_lt_Some _ _ _ Hb). lia.
Qed.

(** The product over triples that repeat no variable. *)
Lemma product_event (W : wtable) (d : list Map) :
  wtable_ok W -> Forall (triple_ok W) d ->
  (forall a b ma mb, a < b -> d !! a = Some ma -> d !! b = Some mb -> var ma = var mb ->
     var mb = RESERVED_VAR) ->
  Pr W (all_hold d) = qprod (mprob <$> d).
Proof.
  intros HW Hok Hp.
  set (real := filter (fun m => var m <> RESERVED_VAR) d).
  set (sure := forallb (fun m => negb (var m =? RESERVED_VAR)%Z || (rng m =? RNG_FOR_RESERVED_VAR)%Z) d).
  assert (Hev : forall w, all_hold d w = sure && sat_clause ((fun m => (var m, rng m)) <$> real) w).
  { intros w. unfold all_hold, sure, real. clear Hok Hp. induction d as [|m l IH]; [done|].
    csimpl. rewrite filter_cons, IH. unfold holds.
    destruct (Z.eqb_spec (var m) RESERVED_VAR) as [He|He]; simpl.
    - rewrite decide_False by tauto. by rewrite andb_assoc.
    - rewrite decide_True by done. csimpl. unfold sat_clause at 2. simpl.
      fold (sat_clause ((fun m => (var m, rng m)) <$> filter (fun m => var m <> RESERVED_VAR) l) w).
      unfold sat_lit. simpl. destruct (bool_decide _); simpl; [done|]. by rewrite andb_false_r. }
  assert (Hq : qprod (mprob <$> d) = (ind sure * qprod (mprob <$> real))%Qc).
  { unfold sure, real. clear Hp Hev. induction Hok as [|m l Hm _ IH]; [simpl; by rewrite qprod_nil, Qcmult_1_r|].
    csimpl. rewrite qprod_cons, IH, filter_cons. unfold triple_ok in Hm.
    destruct (Z.eqb_spec (var m) RESERVED_VAR) as [He|He]; simpl.
    - rewrite decide_True in Hm by done. rewrite decide_False by tauto. rewrite Hm.
      destruct (rng m =? RNG_FOR_RESERVED_VAR)%Z; simpl; ring.
    - rewrite (decide_True (P := var m <> RESERVED_VAR)) by done. csimpl. rewrite qprod_cons. ring. }
  assert (Hreal : Pr W (sat_clause ((fun m => (var m, rng m)) <$> real)) = qprod (mprob <$> real)).
  { apply Pr_clause; [done| |].
    - rewrite <- list_fmap_compose. change (fst ∘ (fun m => (var m, rng m))) with var.
      unfold real. clear Hok Hev Hq. induction d as [|m l IH]; [constructor|].
      rewrite filter_cons. assert (Hl : NoDup (var <$> filter (fun m => var m <> RESERVED_VAR) l)).
      { apply IH. intros a b ma mb Hab Ha Hb. by apply (Hp (S a) (S b) ma mb); [lia|..]. }
      destruct (decide (var m <> RESERVED_VAR)) as [Hm|]; [|done]. csimpl. apply NoDup_cons.
      split; [|done]. intros (m' & He & Hin)%list_elem_of_fmap.
      apply list_elem_of_filter in Hin as [Hm' (k & Hk)%list_elem_of_lookup].
      apply Hm'. by apply (Hp 0 (S k) m m'); [lia|..].
    - unfold real. apply Forall2_fmap, Forall_Forall2_diag, Forall_forall.
      intros m (Hm & Hin)%list_elem_of_filter. simpl. rewrite Forall_forall in Hok.
      specialize (Hok m Hin). unfold triple_ok in Hok. by rewrite decide_False in Hok. }
  rewrite Hq, <- Hreal. rewrite (Pr_ext W _ _ Hev). destruct sure; simpl.
  - rewrite Qcmult_1_l. done.
  - rewrite Qcmult_0_l. exact (Pr_const W HW false).
Qed.

Lemma product_loop (n : nat) (d : list Map) :
  length d = n ->
  for_upto n (fun i result => m ← d !! i; Some (result * mprob m)%Qc) 1%Qc = Some (qprod (mprob <$> d)).
Proof.
  intros Hn. destruct (for_upto_inv (fun i p => p = qprod (mprob <$> take i d)) n
    (fun i result => m ← d !! i; Some (result * mprob m)%Qc) 1%Qc) as (p & Hp & Hq).
  - done.
  - intros i p Hi ->. destruct (lookup_lt_is_Some_2 d i) as [m Hm]; [lia|]. rewrite Hm. simpl.
    eexists. split; [done|]. rewrite (take_S_r _ _ _ Hm), fmap_app, qprod_app.
    csimpl. by rewrite qprod_one.
  - rewrite take_ge in Hq by lia. subst p. exact Hp.
Qed.

(** The condition columns of a tuple, and the conjunction they stand for. *)
Definition triple_args (ts : list (Z * Z * Qc)) : list datum :=
  mjoin ((fun t => [DInt32 t.1.1; DInt32 t.1.2; DFloat4 t.2]) <$> ts).
Definition triple_maps (ts : list (Z * Z * Qc)) : list Map :=
  (fun t => create_map t.1.1 t.1.2 0 t.2) <$> ts.

Lemma triple_args_lookup (ts : list (Z * Z * Qc)) (j k : nat) (t : Z * Z * Qc) :
  ts !! j = Some t -> k < 3 ->
  triple_args ts !! (k + j * 3) = [DInt32 t.1.1; DInt32 t.1.2; DFloat4 t.2] !! k.
Proof.
  unfold triple_args. revert j. induction ts as [|t0 ts IH]; intros j; [done|]. csimpl.
  destruct j as [|j]; simpl.
  - intros [= ->] Hk. rewrite Nat.add_0_r. by destruct k as [|[|[|]]]; [..|lia].
  - intros Hj Hk. rewrite <- (IH j Hj Hk). by rewrite !Nat.add_succ_r.
Qed.

Lemma fetch_triples_spec (ts : list (Z * Z * Qc)) :
  fetch_triples (length ts) (triple_args ts) = Some (triple_maps ts).
Proof.
  unfold fetch_triples. apply mapM_Some, Forall2_same_length_lookup_2.
  - unfold triple_maps. by rewrite length_seq, length_fmap.
  - intros i j m Hj Hm. apply lookup_seq in Hj as [-> Hj].
    unfold triple_maps in Hm. rewrite list_lookup_fmap in Hm.
    destruct (ts !! i) as [t|] eqn:Ht; [|done]. injection Hm as <-.
    unfold PG_GETARG_INT32, PG_GETARG_FLOAT4. change (0 + i) with i.
    pose proof (triple_args_lookup ts i 0 t Ht ltac:(lia)) as H0. cbn [Nat.add] in H0. rewrite H0.
    rewrite (triple_args_lookup ts i 1 t Ht), (triple_args_lookup ts i 2 t Ht) by lia. done.
Qed.

Theorem product_ge_spec (W : wtable) (ts : list (Z * Z * Qc)) :
  wtable_ok W -> Forall (triple_ok W) (triple_maps ts) ->
  product_ge (length ts) (triple_args ts) = Some (Pr W (all_hold (triple_maps ts))).
Proof.
  intros HW Hok. unfold product_ge. rewrite fetch_triples_spec. cbn [mbind option_bind].
  assert (Hlen : length (triple_maps ts) = length ts) by (unfold triple_maps; by rewrite length_fmap).
  destruct (reserve_duplicates_spec W (length ts) (triple_maps ts) Hlen Hok)
    as (d & -> & [E T L P]). cbn [mbind option_bind].
  rewrite product_loop by congruence. f_equal.
  rewrite <- (Pr_ext W _ _ E). symmetry. apply product_event; [done|done|].
  intros a b ma mb Hab Ha Hb. apply (P a b ma mb Hab); [|done..].
  pose proof (lookup_lt_Some _ _ _ Hb). lia.
Qed.
