(* ===== verification/Argmax.v ===== *)
(** * Argmax: the aggregate argmax ([argmax.c], [argmaxState] of [execnodes.h])

    Each transition function compares the second argument with the running
    maximum kept in the [argmaxState] of the group and returns the old or the new
    value.  Floats are the IEEE values of [SpecFloat]; the comparison, which is
    the same at both precisions, orders NaN above everything.  The state belongs
    to the hash entry of the group under hashed aggregation, and to the whole
    aggregation node otherwise. *)
From S2P Require Import Prelude.
From Stdlib Require Import SpecFloat.

(** ** Comparisons *)

Definition isnan (f : spec_float) : bool := match f with S754_nan => true | _ => false end.
Definition gtf (a b : spec_float) : bool := match SFcompare a b with Some Gt => true | _ => false end.
Definition ltf (a b : spec_float) : bool := match SFcompare a b with Some Lt => true | _ => false end.

Definition float4_cmp_internal (a b : spec_float) : Z :=
  if isnan a then (if isnan b then 0 else 1)
  else if isnan b then -1
  else if gtf a b then 1 else if ltf a b then -1 else 0.

Definition float8_cmp_internal (a b : spec_float) : Z :=
  if isnan a then (if isnan b then 0 else 1)
  else if isnan b then -1
  else if gtf a b then 1 else if ltf a b then -1 else 0.

(** What the transition functions need of a comparison. *)
Class TotalCmp {T : Type} (cmp : T -> T -> Z) : Prop := {
  cmp_antisym : forall a b, cmp b a = (- cmp a b)%Z;
  cmp_trans : forall a b c, (cmp a b <= 0)%Z -> (cmp b c <= 0)%Z -> (cmp a c <= 0)%Z }.

(** The integer macro compares with [>]. *)
Definition int_cmp (a b : Z) : Z := if (a >? b)%Z then 1 else if (a <? b)%Z then -1 else 0.

#[export] Instance int_cmp_total : TotalCmp int_cmp.
Proof.
  split; unfold int_cmp.
  - intros a b. destruct (Z.gtb_spec a b), (Z.gtb_spec b a), (Z.ltb_spec a b), (Z.ltb_spec b a); lia.
  - intros a b c. destruct (Z.gtb_spec a b), (Z.gtb_spec b c), (Z.gtb_spec a c),
      (Z.ltb_spec a b), (Z.ltb_spec b c), (Z.ltb_spec a c); lia.
Qed.

(** Sign, exponent and mantissa as a triple compared from the left. *)
Definition float_key (f : spec_float) : Z * Z * Z :=
  match f with
  | S754_zero _ => (0, 0, 0)
  | S754_infinity s => (if s then -2 else 2, 0, 0)
  | S754_nan => (3, 0, 0)
  | S754_finite s m e => if s then (-1, - e, Z.neg m) else (1, e, Z.pos m)
  end%Z.

Definition lex (a b : Z * Z * Z) : Z :=
  let '(a1, a2, a3) := a in let '(b1, b2, b3) := b in
  if decide (a1 = b1) then if decide (a2 = b2) then int_cmp a3 b3 else int_cmp a2 b2
  else int_cmp a1 b1.

#[local] Arguments lex : simpl never.

Lemma lex_1 (a1 a2 a3 b1 b2 b3 : Z) :
  a1 <> b1 -> lex (a1, a2, a3) (b1, b2, b3) = int_cmp a1 b1.
Proof. intros H. unfold lex. by rewrite decide_False. Qed.

Lemma lex_2 (a1 a2 a3 b2 b3 : Z) :
  a2 <> b2 -> lex (a1, a2, a3) (a1, b2, b3) = int_cmp a2 b2.
Proof. intros H. unfold lex. by rewrite decide_True, decide_False. Qed.

Lemma lex_3 (a1 a2 a3 b3 : Z) : lex (a1, a2, a3) (a1, a2, b3) = int_cmp a3 b3.
Proof. unfold lex. by rewrite !decide_True. Qed.

Lemma int_cmp_compare (a b : Z) :
  int_cmp a b = match Z.compare a b with Eq => 0 | Lt => -1 | Gt => 1 end%Z.
Proof.
  unfold int_cmp. destruct (Z.compare_spec a b), (Z.gtb_spec a b), (Z.ltb_spec a b); lia.
Qed.

Lemma float_cmp_key (a b : spec_float) : float4_cmp_internal a b = lex (float_key a) (float_key b).
Proof.
  unfold float4_cmp_internal, gtf, ltf.
  destruct a as [s|s| |s m e], b as [t|t| |t n f]; simpl;
    try (destruct s); try (destruct t); simpl; rewrite ?lex_3;
    try (rewrite lex_1 by done); try done.
  - change (Pos.compare_cont Eq m n) with (Pos.compare m n).
    destruct (Z.compare_spec e f) as [->|H|H].
    + rewrite lex_3, int_cmp_compare. simpl. by destruct (Pos.compare m n).
    + rewrite lex_2, int_cmp_compare by lia. by rewrite (proj2 (Z.compare_gt_iff (- e) (- f))) by lia.
    + rewrite lex_2, int_cmp_compare by lia. by rewrite (proj2 (Z.compare_lt_iff (- e) (- f))) by lia.
  - change (Pos.compare_cont Eq m n) with (Pos.compare m n).
    destruct (Z.compare_spec e f) as [->|H|H].
    + rewrite lex_3, int_cmp_compare. simpl. by destruct (Pos.compare m n).
    + rewrite lex_2, int_cmp_compare by lia. by rewrite (proj2 (Z.compare_lt_iff e f)) by lia.
    + rewrite lex_2, int_cmp_compare by lia. by rewrite (proj2 (Z.compare_gt_iff e f)) by lia.
Qed.

Lemma lex_total : TotalCmp lex.
Proof.
  destruct int_cmp_total as [Ha Ht]. 
  assert (Hz : forall a b, int_cmp a b = 0%Z <-> a = b).
  { intros a b. unfold int_cmp. destruct (Z.gtb_spec a b), (Z.ltb_spec a b); lia. }
  split.
  - intros [[a1 a2] a3] [[b1 b2] b3]. unfold lex.
    repeat case_decide; subst; try done; apply Ha.
  - intros [[a1 a2] a3] [[b1 b2] b3] [[c1 c2] c3]. unfold lex, int_cmp.
    repeat case_decide; subst; try done;
      repeat match goal with
      | |- context [Z.gtb ?x ?y] => destruct (Z.gtb_spec x y)
      | |- context [Z.ltb ?x ?y] => destruct (Z.ltb_spec x y)
      end; lia.
Qed.

#[export] Instance float4_cmp_total : TotalCmp float4_cmp_internal.
Proof.
  destruct lex_total as [Ha Ht]. split.
  - intros a b. rewrite !float_cmp_key. apply Ha.
  - intros a b c. rewrite !float_cmp_key. apply Ht.
Qed.

#[export] Instance float8_cmp_total : TotalCmp float8_cmp_internal := float4_cmp_total.

(** ** State *)

Record argmaxState := mk_argmax {
  float4MAX : spec_float;
  float8MAX : spec_float;
  int16MAX : Z;
  int32MAX : Z;
  int64MAX : Z }.

(** [palloc0]: all bits zero. *)
Definition argmax_zero : argmaxState := mk_argmax (S754_zero false) (S754_zero false) 0 0 0.

Definition set_float4MAX (s : argmaxState) (v : spec_float) := mk_argmax v (float8MAX s) (int16MAX s) (int32MAX s) (int64MAX s).
Definition set_float8MAX (s : argmaxState) (v : spec_float) := mk_argmax (float4MAX s) v (int16MAX s) (int32MAX s) (int64MAX s).
Definition set_int16MAX (s : argmaxState) (v : Z) := mk_argmax (float4MAX s) (float8MAX s) v (int32MAX s) (int64MAX s).
Definition set_int32MAX (s : argmaxState) (v : Z) := mk_argmax (float4MAX s) (float8MAX s) (int16MAX s) v (int64MAX s).
Definition set_int64MAX (s : argmaxState) (v : Z) := mk_argmax (float4MAX s) (float8MAX s) (int16MAX s) (int32MAX s) v.

Inductive AggStrategy := AGG_PLAIN | AGG_SORTED | AGG_HASHED.

Record AggState := mk_agg {
  aggstrategy : AggStrategy;
  entry_argmax : argmaxState;
  agg_argmax : argmaxState }.

Definition get_argmax_state (a : AggState) : argmaxState :=
  match aggstrategy a with AGG_HASHED => entry_argmax a | _ => agg_argmax a end.

(** Writing through the pointer that [get_argmax_state] returns. *)
Definition put_argmax_state (a : AggState) (s : argmaxState) : AggState :=
  match aggstrategy a with
  | AGG_HASHED => mk_agg (aggstrategy a) s (agg_argmax a)
  | _ => mk_agg (aggstrategy a) (entry_argmax a) s
  end.

(** ** Transition functions *)

Section Macros.
Context {A T : Type}.
(** The field of the state that holds the maximum. *)
Context (get : argmaxState -> T) (set : argmaxState -> T -> argmaxState).

Definition argmax_float (comp : T -> T -> Z) (a : AggState) (old new : A) (arg2 : T) : A * AggState :=
  let state := get_argmax_state a in
  let arg1 := get state in
  if (comp arg1 arg2 >? 0)%Z then (old, put_argmax_state a (set state arg1))
  else (new, put_argmax_state a (set state arg2)).
End Macros.

Definition argmax_int {A} (get : argmaxState -> Z) (set : argmaxState -> Z -> argmaxState)
    (a : AggState) (old new : A) (arg2 : Z) : A * AggState :=
  let state := get_argmax_state a in
  let arg1 := get state in
  if (arg1 >? arg2)%Z then (old, put_argmax_state a (set state arg1))
  else (new, put_argmax_state a (set state arg2)).

(** A pass-by-reference value is its [Datum]. *)
Definition argmax_int4_int2_accum := @argmax_int Z int16MAX set_int16MAX.
Definition argmax_int4_int4_accum := @argmax_int Z int32MAX set_int32MAX.
Definition argmax_int4_int8_accum := @argmax_int Z int64MAX set_int64MAX.
Definition argmax_int4_float4_accum := @argmax_float Z _ float4MAX set_float4MAX float4_cmp_internal.
Definition argmax_int4_float8_accum := @argmax_float Z _ float8MAX set_float8MAX float8_cmp_internal.
Definition argmax_varchar_int2_accum (Datum : Type) := @argmax_int Datum int16MAX set_int16MAX.
Definition argmax_varchar_int4_accum (Datum : Type) := @argmax_int Datum int32MAX set_int32MAX.
Definition argmax_varchar_int8_accum (Datum : Type) := @argmax_int Datum int64MAX set_int64MAX.
Definition argmax_varchar_float4_accum (Datum : Type) :=
  @argmax_float Datum _ float4MAX set_float4MAX float4_cmp_internal.
Definition argmax_varchar_float8_accum (Datum : Type) :=
  @argmax_float Datum _ float8MAX set_float8MAX float8_cmp_internal.

(** The checks on weights and probabilities; [None] is [elog(ERROR)]. *)
Definition f_zero : spec_float := S754_zero false.
(** 1.0 in binary32, whose mantissa has 24 bits. *)
Definition f_one : spec_float := S754_finite false 8388608 (-23).
Definition test_negative (weight : spec_float) : option spec_float :=
  if (float4_cmp_internal weight f_zero <? 0)%Z then None else Some weight.
Definition test_from_0_to_1 (weight : spec_float) : option spec_float :=
  if (float4_cmp_internal weight f_zero <? 0)%Z || (float4_cmp_internal weight f_one >? 0)%Z
  then None else Some weight.

(** ** A group *)

(** One transition function over the rows of a group, from transition value [old]. *)
Definition argmax_run {A T} (step : AggState -> A -> A -> T -> A * AggState) (a : AggState)
    (old : A) (rows : list (A * T)) : A * AggState :=
  foldl (fun '(old, a) '(new, x) => step a old new x) (old, a) rows.

Class FieldLaws {T} (get : argmaxState -> T) (set : argmaxState -> T -> argmaxState) : Prop :=
  get_set : forall s v, get (set s v) = v.

#[export] Instance float4_field : FieldLaws float4MAX set_float4MAX. Proof. by intros s v. Qed.
#[export] Instance float8_field : FieldLaws float8MAX set_float8MAX. Proof. by intros s v. Qed.
#[export] Instance int16_field : FieldLaws int16MAX set_int16MAX. Proof. by intros s v. Qed.
#[export] Instance int32_field : FieldLaws int32MAX set_int32MAX. Proof. by intros s v. Qed.
#[export] Instance int64_field : FieldLaws int64MAX set_int64MAX. Proof. by intros s v. Qed.

Lemma get_put (a : AggState) (s : argmaxState) : get_argmax_state (put_argmax_state a s) = s.
Proof. unfold get_argmax_state, put_argmax_state. by destruct (aggstrategy a) eqn:H; simpl; rewrite ?H. Qed.

(** What the aggregate returns: the value of the last row with a maximal second
    argument, unless the maximum that was there before the group exceeds them all. *)
Record is_argmax {A T} (cmp : T -> T -> Z) (m0 : T) (old : A) (rows : list (A * T)) (res : A) (m : T)
    : Prop := {
  am_above : forall a x, (a, x) ∈ rows -> (cmp x m <= 0)%Z;
  am_start : (cmp m0 m <= 0)%Z;
  am_value : (res = old /\ m = m0 /\ forall a x, (a, x) ∈ rows -> (cmp x m0 < 0)%Z) \/
    exists l1 l2, rows = l1 ++ (res, m) :: l2 /\ forall a x, (a, x) ∈ l2 -> (cmp x m < 0)%Z }.

Section Run.
Context {A T : Type} (cmp : T -> T -> Z) `{Hcmp : !TotalCmp cmp}.
Context (get : argmaxState -> T) (set : argmaxState -> T -> argmaxState) `{Hf : !FieldLaws get set}.

Lemma cmp_refl (x : T) : cmp x x = 0%Z.
Proof using Hcmp. pose proof (cmp_antisym x x). lia. Qed.

Lemma cmp_lt_trans (x y z : T) : (cmp x y <= 0)%Z -> (cmp y z < 0)%Z -> (cmp x z < 0)%Z.
Proof using Hcmp.
  intros H1 H2. pose proof (cmp_antisym x z). pose proof (cmp_antisym y z).
  destruct (Z.lt_ge_cases (cmp x z) 0); [done|].
  assert (cmp z y <= 0)%Z by (apply (cmp_trans z x y); lia). lia.
Qed.

Lemma argmax_run_snoc (step : AggState -> A -> A -> T -> A * AggState) (a : AggState) (old new : A)
    (x : T) (rows : list (A * T)) :
  argmax_run step a old (rows ++ [(new, x)]) =
    let '(res, a') := argmax_run step a old rows in step a' res new x.
Proof using Type. unfold argmax_run. rewrite foldl_snoc. by destruct (foldl _ _ _). Qed.

Lemma argmax_run_spec (a : AggState) (old : A) (rows : list (A * T)) :
  let '(res, a') := argmax_run (argmax_float get set cmp) a old rows in
  is_argmax cmp (get (get_argmax_state a)) old rows res (get (get_argmax_state a')).
Proof using Hcmp Hf.
  induction rows as [|[new x] rows IH] using rev_ind.
  { simpl. split; [by intros b y ?%elem_of_nil|rewrite cmp_refl; lia|].
    left. split_and!; [done..|]. by intros b y ?%elem_of_nil. }
  rewrite argmax_run_snoc. destruct (argmax_run _ _ _ rows) as [res a'].
  destruct IH as [H1 H2 H3]. unfold argmax_float.
  set (m := get (get_argmax_state a')) in *. set (m0 := get (get_argmax_state a)) in *.
  destruct (Z.gtb_spec (cmp m x) 0) as [Hgt|Hle]; rewrite get_put, get_set.
  - pose proof (cmp_antisym m x) as Hxm. split; [|done|].
    + intros b y [Hin|[= -> ->]%list_elem_of_singleton]%elem_of_app; [by apply (H1 b)|lia].
    + destruct H3 as [(-> & Hm & H3)|(l1 & l2 & -> & H3)].
      * left. split_and!; [done..|].
        intros b y [Hin|[= -> ->]%list_elem_of_singleton]%elem_of_app; [by apply (H3 b)|].
        rewrite <- Hm. lia.
      * right. exists l1, (l2 ++ [(new, x)]). split; [by rewrite <- app_assoc|].
        intros b y [Hin|[= -> ->]%list_elem_of_singleton]%elem_of_app; [by apply (H3 b)|lia].
  - split.
    + intros b y [Hin|[= -> ->]%list_elem_of_singleton]%elem_of_app; [|rewrite cmp_refl; lia].
      apply (cmp_trans y m x); [by apply (H1 b)|done].
    + by apply (cmp_trans m0 m x).
    + right. exists rows, []. split; [done|]. by intros b y ?%elem_of_nil.
Qed.
End Run.

(** The integer macro is the float macro with the integer comparison. *)
Lemma argmax_int_float {A} (get : argmaxState -> Z) (set : argmaxState -> Z -> argmaxState)
    (a : AggState) (old new : A) (x : Z) :
  argmax_int get set a old new x = argmax_float get set int_cmp a old new x.
Proof.
  unfold argmax_int, argmax_float, int_cmp.
  destruct (Z.gtb_spec (get (get_argmax_state a)) x); [done|].
  destruct (Z.ltb_spec (get (get_argmax_state a)) x); done.
Qed.

Lemma argmax_run_ext {A T} (f g : AggState -> A -> A -> T -> A * AggState) (a : AggState) (old : A)
    (rows : list (A * T)) :
  (forall a old new x, f a old new x = g a old new x) -> argmax_run f a old rows = argmax_run g a old rows.
Proof.
  intros H. unfold argmax_run. generalize (old, a). induction rows as [|[n x] rows IH]; intros [o b]; [done|].
  simpl. rewrite H. apply IH.
Qed.

Lemma argmax_int_run_spec {A} (get : argmaxState -> Z) (set : argmaxState -> Z -> argmaxState)
    `{!FieldLaws get set} (a : AggState) (old : A) (rows : list (A * Z)) :
  let '(res, a') := argmax_run (argmax_int get set) a old rows in
  is_argmax int_cmp (get (get_argmax_state a)) old rows res (get (get_argmax_state a')).
Proof.
  rewrite (argmax_run_ext _ (argmax_float get set int_cmp)) by (intros; apply argmax_int_float).
  exact (argmax_run_spec int_cmp get set a old rows).
Qed.
