(* ===== verification/Signature.v ===== *)
(** * Signature: query signatures ([signature.c], [signature.h])

    For a query that may be hierarchical the rewriter collects the join attributes
    of the where clause, each with the list of its subgoals (columns of relations),
    tests the hierarchy, arranges the attributes in a subgoal tree and derives the
    signature tree that the operator of [Sprout] evaluates.

    First-child/right-sibling chains are lists of children.  The catalog of the
    server is a parameter: the columns, the number of attributes and the primary
    key of a relation. *)
From Stdlib Require Import Strings.String.
From S2P Require Import Prelude.
Open Scope nat_scope.
#[local] Set Warnings "-register-all".

(** ** Parse trees *)

(** The nodes of a from clause: a relation (catalog, schema, name, alias), a
    subquery with its alias, or another node. *)
Inductive node :=
  | RangeVar (catalogname schemaname : option string) (relname : string) (alias : option string)
  | RangeSubselect (alias : string)
  | OtherNode.

#[export] Instance node_eq_dec : EqDecision node.
Proof. solve_decision. Defined.

(** Expressions of a where clause: an [A_Expr] (without a name for connectives), a
    column reference, another expression. *)
Inductive expr :=
  | A_Expr (name : option string) (lexpr rexpr : option expr)
  | ColumnRef (cfields : list string)
  | OtherExpr.

(** ** Data *)

Record subGoal := mk_sg { fields : list string; relation : option node }.

(** The subgoals of one join attribute ([sgList->head]); the C list of [sgList]
    cells is a list of these. *)
Abbreviation sgList := (list subGoal).

Inductive sgTreeNode := SgTreeNode (sg_isLeaf : bool) (attrCount : nat) (sglist : list sgList)
  (sg_children : list sgTreeNode).

Definition tree_sglist (t : sgTreeNode) : list sgList := let 'SgTreeNode _ _ l _ := t in l.
Definition tree_attrCount (t : sgTreeNode) : nat := let 'SgTreeNode _ n _ _ := t in n.
Definition tree_children (t : sgTreeNode) : list sgTreeNode := let 'SgTreeNode _ _ _ cs := t in cs.

Inductive colType := NOTAGGREGATED | AGGREGATED.

(** A probability table: representatives with their probabilities. *)
Abbreviation probTable := (list (Z * Qc)).

(** The fields of a [sigNode] other than its links. *)
Record sigInfo := mk_info {
  isLeaf : bool;
  withStar : bool;
  sg : option subGoal;
  type : colType;
  pos : nat;
  domain : nat;
  varsToCombine : nat;
  pt : option probTable }.

Inductive sigNode := SigNode (info : sigInfo) (children : list sigNode).

Definition info_of (t : sigNode) : sigInfo := let 'SigNode i _ := t in i.
Definition firstChildren (t : sigNode) : list sigNode := let 'SigNode _ cs := t in cs.

(** [palloc0]. *)
Definition zero_info : sigInfo := mk_info false false None NOTAGGREGATED 0 0 0 None.
Definition leaf_info (star : bool) (s : subGoal) : sigInfo :=
  mk_info true star (Some s) NOTAGGREGATED 0 0 0 None.
Definition set_pos (i : sigInfo) (n : nat) : sigInfo :=
  mk_info (isLeaf i) (withStar i) (sg i) (type i) n (domain i) (varsToCombine i) (pt i).
Definition set_domain (i : sigInfo) (n : nat) : sigInfo :=
  mk_info (isLeaf i) (withStar i) (sg i) (type i) (pos i) n (varsToCombine i) (pt i).
Definition set_varsToCombine (i : sigInfo) (n : nat) : sigInfo :=
  mk_info (isLeaf i) (withStar i) (sg i) (type i) (pos i) (domain i) n (pt i).
Definition set_pt (i : sigInfo) (p : option probTable) : sigInfo :=
  mk_info (isLeaf i) (withStar i) (sg i) (type i) (pos i) (domain i) (varsToCombine i) p.

(** ** Lists of subgoals *)

(** All fields but the last are the relation; lists of the same length agree on it. *)
Definition same_prefix (f1 f2 : list string) : bool :=
  (length f1 =? length f2) && bool_decide (removelast f1 = removelast f2).

Definition sgInsgList (s : subGoal) (l : sgList) : bool :=
  existsb (fun t => same_prefix (fields t) (fields s)) l.

Inductive sgcmp := SG_EQUAL | SG_GREAT | SG_LESS | SG_DISJOINT | SG_INTERSECT | SG_UNKNOWCMP.

#[export] Instance sgcmp_eq_dec : EqDecision sgcmp.
Proof. solve_decision. Defined.

Definition sgCount (l : sgList) : nat := length l.
Definition sgListCount (l : list sgList) : nat := length l.

Definition joint (l1 l2 : sgList) : nat := length (filter (fun s => sgInsgList s l2 = true) l1).

Definition sgListcmp (l1 l2 : sgList) : sgcmp :=
  let j := joint l1 l2 in
  let c1 := sgCount l1 in
  let c2 := sgCount l2 in
  if (j =? c1) && (j =? c2) then SG_EQUAL
  else if (j =? c1) && (j <? c2) then SG_LESS
  else if (j =? c2) && (j <? c1) then SG_GREAT
  else if j =? 0 then SG_DISJOINT
  else if negb (j =? c2) && negb (j =? c1) then SG_INTERSECT
  else SG_UNKNOWCMP.

Definition getNthList (l : list sgList) (n : nat) : option sgList := l !! n.

Definition rmNthList (l : list sgList) (n : nat) : option (list sgList) :=
  if n <? length l then Some (delete n l) else None.

Definition rmNthLists (l : list sgList) (rm : list bool) (n : nat) : option (list sgList) :=
  '(l, _) ← for_upto n
    (fun i '(l, count) =>
       b ← rm !! i;
       if (b : bool) then l ← rmNthList l (i - count); Some (l, S count) else Some (l, count)) (l, 0);
  Some l.

(** The tests over all pairs of lists, with their early returns. *)
Definition all_pairs (l : list sgList) (test : sgcmp -> bool) : option bool :=
  let count := sgListCount l in
  for_all (seq 0 (count - 1)) (fun i =>
    l1 ← getNthList l i;
    for_all (seq (S i) (count - S i)) (fun j =>
      l2 ← getNthList l j; Some (test (sgListcmp l1 l2)))).

Definition sameLists (l : list sgList) : option bool :=
  if sgListCount l =? 1 then Some true
  else all_pairs l (fun c => bool_decide (c = SG_EQUAL)).

Definition isHQ (l : list sgList) : option bool :=
  all_pairs l (fun c => bool_decide (c <> SG_INTERSECT)).

(** The maximal lists, in reverse order, and the remaining ones. *)
Definition findMax (l : list sgList) : option (list sgList * list sgList) :=
  let count := sgListCount l in
  '(result, rm) ← for_upto count
    (fun i '(result, rm) =>
       l1 ← getNthList l i;
       isMaximal ← for_upto count
         (fun j isMaximal =>
            l2 ← getNthList l j;
            Some (isMaximal && negb (bool_decide (sgListcmp l1 l2 = SG_LESS)))) true;
       if (isMaximal : bool) then Some (l1 :: result, <[i := true]> rm) else Some (result, rm))
    ([], replicate count false);
  rest ← rmNthLists l rm count;
  Some (result, rest).

(** The first list and those not disjoint from it, in reverse order, and the rest. *)
Definition findDisjoint (l : list sgList) : option (list sgList * list sgList) :=
  let count := sgListCount l in
  first ← getNthList l 0;
  '(result, rm) ← for_list (seq 1 (count - 1))
    (fun i '(result, rm) =>
       cmp ← getNthList l i;
       if bool_decide (sgListcmp first cmp <> SG_DISJOINT)
       then Some (cmp :: result, <[i := true]> rm) else Some (result, rm))
    ([first], <[0 := true]> (replicate count false));
  rest ← rmNthLists l rm count;
  Some (result, rest).

(** ** The subgoal tree *)

(** [while (list != NULL)]: the groups of the children, in order. *)
Fixpoint split_children (fuel : nat) (l : list sgList) : option (list (list sgList)) :=
  match l with
  | [] => Some []
  | _ =>
      match fuel with
      | 0 => None
      | S fuel =>
          '(disjointSet, l) ← findDisjoint l;
          gs ← split_children fuel l;
          Some (disjointSet :: gs)
      end
  end.

Fixpoint buildSGTree (fuel : nat) (l : list sgList) (parentSGListCount : nat) : option sgTreeNode :=
  match fuel with
  | 0 => None
  | S fuel =>
      same ← sameLists l;
      if (same : bool) then Some (SgTreeNode true (sgListCount l + parentSGListCount) l [])
      else
        '(sglist, rest) ← findMax l;
        let attrCount := sgListCount sglist + parentSGListCount in
        gs ← split_children (length rest) rest;
        cs ← mapM (fun g => buildSGTree fuel g attrCount) gs;
        Some (SgTreeNode false attrCount sglist cs)
  end.

(** ** Relations and catalog *)

Definition strcmp_opt (a : option string) (b : string) : option bool :=
  a ← a; Some (bool_decide (a = b)).

(** [sameRel]; two optional names agree when both are absent or both are equal. *)
Definition sameRel (n1 n2 : node) : bool :=
  match n1, n2 with
  | RangeVar c1 s1 r1 a1, RangeVar c2 s2 r2 a2 =>
      match a1, a2 with
      | None, Some _ | Some _, None => false
      | Some a1, Some a2 => bool_decide (a1 = a2)
      | None, None => bool_decide (c1 = c2) && bool_decide (s1 = s2) && bool_decide (r1 = r2)
      end
  | RangeSubselect a1, RangeSubselect a2 => bool_decide (a1 = a2)
  | _, _ => false
  end.

(** [nodeGetFields] of rewrite_utils.c. *)
Definition nodeGetFields (n : node) : list string :=
  match n with
  | RangeVar c s r a =>
      match a, c, s with
      | Some a, _, _ => [a]
      | None, None, None => [r]
      | None, None, Some s => [s; r]
      | None, Some c, Some s => [c; s; r]
      | None, Some c, None => [c; EmptyString; r]
      end
  | RangeSubselect a => [a]
  | OtherNode => []
  end ++ ["fake"%string].

Section Catalog.
(** Column names, number of attributes and primary key columns of a relation, and
    its identifier. *)
Context (columns : node -> list string) (natts : node -> nat) (pkeys : node -> list string).
Context (rd_id : node -> N).

(** [getRelation]: the fields, qualified when the column was unqualified, and the
    relation; [None] is a comparison with a missing schema or catalog name. *)
Fixpoint getRelation (flds : list string) (fromClause : list node)
    : option (list string * option node) :=
  match fromClause with
  | [] => Some (flds, None)
  | n :: fromClause =>
      match n with
      | RangeVar cat schema rel alias =>
          match flds with
          | [f0; _] =>
              if bool_decide (default rel alias = f0) then Some (flds, Some n)
              else getRelation flds fromClause
          | [f0; f1; _] =>
              b ← strcmp_opt schema f0;
              if (b : bool) && bool_decide (rel = f1) then Some (flds, Some n)
              else getRelation flds fromClause
          | [f0; f1; f2; _] =>
              b ← strcmp_opt cat f0;
              c ← (if (b : bool) then strcmp_opt schema f1 else Some false);
              if (c : bool) && bool_decide (rel = f2) then Some (flds, Some n)
              else getRelation flds fromClause
          | _ =>
              l ← last flds;
              if bool_decide (l ∈ columns n)
              then Some (option_list cat ++ option_list schema ++ rel :: flds, Some n)
              else getRelation flds fromClause
          end
      | _ => getRelation flds fromClause
      end
  end.

Definition newSubGoal (flds : list string) (fromClause : list node) : option subGoal :=
  '(flds, rel) ← getRelation flds fromClause; Some (mk_sg flds rel).

Definition isSameAttr (l : sgList) (flds : list string) : bool :=
  existsb (fun t =>
    if length (fields t) =? length flds then bool_decide (fields t = flds)
    else bool_decide (last (fields t) = last flds)) l.

Definition addNewSG (l : sgList) (flds : list string) (fromClause : list node) : option sgList :=
  s ← newSubGoal flds fromClause; Some (l ++ [s]).

(** The search of [geneSGList] for a list with one of the two columns: [Some None]
    when no list has one. *)
Fixpoint extend_lists (lf rf : list string) (fromClause : list node) (l : list sgList)
    : option (option (list sgList)) :=
  match l with
  | [] => Some None
  | t :: l =>
      let lIsSame := isSameAttr t lf in
      let rIsSame := isSameAttr t rf in
      if lIsSame && negb rIsSame then t ← addNewSG t rf fromClause; Some (Some (t :: l))
      else if negb lIsSame && rIsSame then t ← addNewSG t lf fromClause; Some (Some (t :: l))
      else if lIsSame || rIsSame then Some (Some (t :: l))
      else r ← extend_lists lf rf fromClause l; Some (option_map (cons t) r)
  end.

(** An expression that is not an [A_Expr] is read as one: undefined. *)
Fixpoint geneSGList_expr (fromClause : list node) (e : expr) (l : list sgList) : option (list sgList) :=
  match e with
  | A_Expr None lexpr rexpr =>
      l ← match lexpr with None => Some [] | Some e => geneSGList_expr fromClause e l end;
      match rexpr with None => Some [] | Some e => geneSGList_expr fromClause e l end
  | A_Expr (Some op) lexpr rexpr =>
      if bool_decide (op = "="%string) then
        lx ← lexpr;
        match lx with
        | ColumnRef lf =>
            rx ← rexpr;
            match rx with
            | ColumnRef rf =>
                r ← extend_lists lf rf fromClause l;
                match r with
                | Some l => Some l
                | None =>
                    lnew ← newSubGoal lf fromClause;
                    rnew ← newSubGoal rf fromClause;
                    Some ([lnew; rnew] :: l)
                end
            | _ => Some l
            end
        | _ => Some l
        end
      else Some l
  | _ => None
  end.

Definition geneSGList (e : option expr) (l : list sgList) (fromClause : list node) : option (list sgList) :=
  match e with None => Some [] | Some e => geneSGList_expr fromClause e l end.

(** The number of attributes, -1 for a subquery. *)
Definition nattr (s : subGoal) : option Z :=
  r ← relation s; Some (match r with RangeVar _ _ _ _ => Z.of_nat (natts r) | _ => -1 end)%Z.

Definition IsPK (s : subGoal) : option bool :=
  attr ← last (fields s);
  r ← relation s;
  Some (match r with RangeVar _ _ _ _ => bool_decide (attr ∈ pkeys r) | _ => false end).

(** [is_self_join] of rewrite.c; the loops stop one relation early. *)
Definition is_self_join (fromClause : list node) : option bool :=
  let n := length fromClause in
  r ← for_all (seq 0 (n - 2)) (fun i =>
    node1 ← fromClause !! i;
    match node1 with
    | RangeVar _ _ _ _ =>
        for_all (seq (S i) (n - 1 - S i)) (fun j =>
          node2 ← fromClause !! j;
          Some (match node2 with
                | RangeVar _ _ _ _ => negb (rd_id node1 =? rd_id node2)%N
                | _ => true
                end))
    | _ => Some true
    end);
  Some (negb r).

(** ** The signature tree *)

(** Does the subgoal occur in the first list of a child? *)
Definition sgInChildSGLists (s : subGoal) (t : sgTreeNode) : option bool :=
  r ← for_all (tree_children t) (fun c =>
        l ← head (tree_sglist c); Some (negb (sgInsgList s l)));
  Some (negb r).

(** One subgoal of the loop of [buildSigTree].  The second component tells that the
    last child was made its own right sibling; the next child that is linked
    overwrites the link. *)
Definition sig_step (t : sgTreeNode) (s : subGoal) (st : list sigNode * bool)
    : option (list sigNode * bool) :=
  let '(cs, stuck) := st in
  inChild ← sgInChildSGLists s t;
  if (inChild : bool) then Some (cs, match cs with [] => stuck | _ => true end)
  else
    n ← nattr s;
    k ← (if (Z.of_nat (tree_attrCount t) =? n)%Z then Some true else IsPK s);
    Some (cs ++ [SigNode (leaf_info (negb k) s) []], false).

(** The children that [buildSigTree] gives the node; [None] also when their chain
    ends in a cycle. *)
Fixpoint buildSigTree (t : sgTreeNode) : option (list sigNode) :=
  match t with
  | SgTreeNode _ _ [] _ => Some []
  | SgTreeNode _ _ (sgs :: _) kids =>
      '(cs, stuck) ← for_list sgs (sig_step t) ([], false);
      subs ← (fix build (kids : list sgTreeNode) : option (list sigNode) :=
                match kids with
                | [] => Some []
                | k :: kids => cs ← buildSigTree k; l ← build kids; Some (SigNode zero_info cs :: l)
                end) kids;
      match subs with
      | [] => if (stuck : bool) then None else Some cs
      | _ => Some (cs ++ subs)
      end
  end.

Fixpoint relIsJoined (rel : node) (t : sgTreeNode) : option bool :=
  match t with
  | SgTreeNode _ _ [] kids =>
      (fix joined (kids : list sgTreeNode) : option bool :=
         match kids with
         | [] => Some false
         | k :: kids => b ← relIsJoined rel k; if (b : bool) then Some true else joined kids
         end) kids
  | SgTreeNode _ _ (sgs :: _) _ =>
      r ← for_all sgs (fun s => n ← relation s; Some (negb (sameRel n rel)));
      Some (negb r)
  end.

Definition nonJoined (sgRoot : sgTreeNode) (frlist : list node) : option (list sigNode) :=
  for_list frlist
    (fun n leaves =>
       b ← relIsJoined n sgRoot;
       Some (if (b : bool) then leaves
             else leaves ++ [SigNode (leaf_info true (mk_sg (nodeGetFields n) (Some n))) []])) [].

Definition addNonJoinedRelation (sgRoot : sgTreeNode) (oldRoot : sigNode) (frlist : list node)
    : option sigNode :=
  leaves ← nonJoined sgRoot frlist;
  match leaves with
  | [] => Some oldRoot
  | _ =>
      let result := if tree_attrCount sgRoot =? 0 then oldRoot else SigNode zero_info [oldRoot] in
      Some (SigNode (info_of result) (leaves ++ firstChildren result))
  end.

(** ** Attributes of the signature tree *)

Fixpoint derivePos (t : sigNode) (n : nat) : sigNode * nat :=
  let 'SigNode i cs := t in
  if isLeaf i then (SigNode (set_pos i n) cs, S n)
  else
    let '(cs, n) := (fix derive (cs : list sigNode) (n : nat) : list sigNode * nat :=
      match cs with
      | [] => ([], n)
      | c :: cs => let '(c, n) := derivePos c n in let '(cs, n) := derive cs n in (c :: cs, n)
      end) cs n in
    (SigNode i cs, n).

Fixpoint leafDescendentCount (t : sigNode) : nat :=
  let 'SigNode i cs := t in
  if isLeaf i then 1 else sum_list_with leafDescendentCount cs.

(** The first child, when it is a leaf, gets a number computed from its siblings. *)
Definition on_first (f : sigInfo -> nat -> sigInfo) (count : list sigNode -> nat) (cs : list sigNode)
    : list sigNode :=
  match cs with
  | SigNode i kids :: siblings =>
      (if isLeaf i then SigNode (f i (count siblings)) kids else SigNode i kids) :: siblings
  | [] => []
  end.

Fixpoint calSib (t : sigNode) : sigNode :=
  let 'SigNode i cs := t in SigNode i (on_first set_varsToCombine length (calSib <$> cs)).

Fixpoint calDomain (t : sigNode) : sigNode :=
  let 'SigNode i cs := t in
  SigNode i (on_first set_domain (sum_list_with leafDescendentCount) (calDomain <$> cs)).

Fixpoint is1Scan (t : sigNode) : option bool :=
  let 'SigNode i cs := t in
  if isLeaf i then Some true
  else
    b ← (fix scan (cs : list sigNode) : option bool :=
           match cs with
           | [] => Some true
           | c :: cs => b ← is1Scan c; if (b : bool) then scan cs else Some false
           end) cs;
    if (b : bool) then c ← head cs; Some (isLeaf (info_of c) && negb (withStar (info_of c)))
    else Some false.

(** The array that [fillLeafNode] fills. *)
Fixpoint fillLeafNode (t : sigNode) : list sigInfo :=
  let 'SigNode i cs := t in if isLeaf i then [i] else mjoin (fillLeafNode <$> cs).

Fixpoint getVarOrder (t : sigNode) (l : list (list string)) : option (list (list string)) :=
  let 'SigNode i cs := t in
  if isLeaf i then s ← sg i; Some (l ++ [fields s])
  else (fix order (cs : list sigNode) (l : list (list string)) : option (list (list string)) :=
          match cs with
          | [] => Some l
          | c :: cs => l ← getVarOrder c l; order cs l
          end) cs l.

(** ** The whole processing *)

Definition decorate (t : sigNode) : sigNode := calDomain (calSib (derivePos t 0).1).

(** [sgTreeRoot], [sigTreeRoot], [isOneScan] and [relList]. *)
Record signature := mk_signature {
  sgTreeRoot : sgTreeNode;
  sigTreeRoot : sigNode;
  isOneScan : bool;
  relList : list node }.

Definition ProcessSignature (fromClause : list node) (l : list sgList) : option signature :=
  sgRoot ← buildSGTree (S (length l)) l 0;
  cs ← buildSigTree sgRoot;
  sigRoot ← addNonJoinedRelation sgRoot (SigNode zero_info cs) fromClause;
  let sigRoot := decorate sigRoot in
  b ← is1Scan sigRoot;
  Some (mk_signature sgRoot sigRoot b fromClause).
End Catalog.
