(* ===== verification/Sprout.v ===== *)
(** * Sprout: confidence of hierarchical queries ([SPROUT.c])

    The operator scans the lineage of a group, sorted by the columns of the
    signature, once per aggregation that makes the signature one-scan and once more
    for the result.  [processTuple] keeps per column the disjunction that is being
    accumulated ([sum]), per block head the disjunction of its closed blocks
    ([tempSum]), the column that currently accumulates ([cursor]) and a stack of
    finished probabilities ([readySumList]).  The jumps of the C code into the loop
    bodies ([goto finish], [goto insert], [goto newBlock]) are calls of the
    functions [finish], [insert] and [newBlock]. *)
From S2P Require Import Prelude.
From S2P Require Import LocalCond.
From S2P Require Import Argmax.
From S2P Require Import Signature.

(** ** Columns *)

Definition HASHTABLESIZE : Z := 10000000.

(** The disjunction of two independent events. *)
Definition indeEventConjunc (a b : Qc) : Qc := (1 - (1 - a) * (1 - b))%Qc.

(** [None]: the probability table is missing. *)
Definition isAValidVar (info : sigInfo) (v : Z) : option bool :=
  match type info with
  | NOTAGGREGATED => Some true
  | AGGREGATED =>
      t ← pt info;
      Some (match t with [] => false | (repre, _) :: _ => bool_decide (repre = v) end)
  end.

(** The head of the table of an aggregated column is consumed. *)
Definition lookup (info : sigInfo) (v : Z) (probability : Qc) : option (Qc * sigInfo) :=
  match type info with
  | NOTAGGREGATED => Some (probability, info)
  | AGGREGATED =>
      t ← pt info;
      match t with
      | [] => None
      | (_, p) :: rest => Some (p, set_pt info (Some rest))
      end
  end.

(** [getProduct] pops the probabilities of the descendant columns. *)
Fixpoint pop_product (n : nat) (p : Qc) (plist : list Qc) : option (Qc * list Qc) :=
  match n with
  | 0 => Some (p, plist)
  | S n => match plist with [] => None | x :: plist => pop_product n (p * x)%Qc plist end
  end.

Definition getProduct (info : sigInfo) (p : Qc) (plist : list Qc) : option (Qc * list Qc) :=
  pop_product (varsToCombine info) p plist.

Definition insertIntoReadySumList (head : list Qc) (sum : Qc) : list Qc := sum :: head.

(** Storing into an array: out of range is an error. *)
Definition store {A} (l : list A) (i : nat) (x : A) : option (list A) :=
  if i <? length l then Some (<[i := x]> l) else None.

(** ** The lineage *)

Record varprob := mk_varprob { vp_vars : list Z; vp_probs : list Qc }.
Record lineageTable := mk_lineage { lt_tuples : list varprob; lt_cursor : nat }.

Definition addVarProb (vp : varprob) (l : lineageTable) : lineageTable :=
  mk_lineage (lt_tuples l ++ [vp]) (lt_cursor l).
Definition storeLineage (l : lineageTable) (vars : list Z) (probs : list Qc) : lineageTable :=
  addVarProb (mk_varprob vars probs) l.
Definition resetLineageCursor (l : lineageTable) : lineageTable := mk_lineage (lt_tuples l) 0.
Definition getNextTuple (l : lineageTable) : option varprob * lineageTable :=
  match lt_tuples l !! lt_cursor l with
  | Some t => (Some t, mk_lineage (lt_tuples l) (S (lt_cursor l)))
  | None => (None, l)
  end.

(** The columns at the given positions. *)
Definition fetch (t : varprob) (ps : list nat) : option (list Z * list Qc) :=
  vs ← mapM (fun p => vp_vars t !! p) ps;
  qs ← mapM (fun p => vp_probs t !! p) ps;
  Some (vs, qs).

(** ** The state of a one-scan computation *)

Record stateData := mk_stateData {
  NoOfVars : nat;
  sd_vars : list sigInfo;
  sd_counter : nat;
  sd_calculating : bool;
  sd_curTuple : list Z;
  sd_curTupleProb : list Qc;
  sd_sum : list Qc;
  sd_tempSum : list Qc;
  sd_preTuple : list Z;
  sd_cursor : nat;
  sd_readySumList : list Qc }.

(** The state that [palloc0] allocates. *)
Definition zero_state : stateData := mk_stateData 0 [] 0 false [] [] [] [] [] 0 [].

Definition set_vars (s : stateData) (n : nat) (v : list sigInfo) : stateData :=
  mk_stateData n v (sd_counter s) (sd_calculating s) (sd_curTuple s) (sd_curTupleProb s) (sd_sum s)
    (sd_tempSum s) (sd_preTuple s) (sd_cursor s) (sd_readySumList s).
Definition set_counter (s : stateData) (n : nat) : stateData :=
  mk_stateData (NoOfVars s) (sd_vars s) n (sd_calculating s) (sd_curTuple s) (sd_curTupleProb s)
    (sd_sum s) (sd_tempSum s) (sd_preTuple s) (sd_cursor s) (sd_readySumList s).
Definition set_calculating (s : stateData) (b : bool) : stateData :=
  mk_stateData (NoOfVars s) (sd_vars s) (sd_counter s) b (sd_curTuple s) (sd_curTupleProb s)
    (sd_sum s) (sd_tempSum s) (sd_preTuple s) (sd_cursor s) (sd_readySumList s).
Definition set_cur (s : stateData) (vs : list Z) (qs : list Qc) : stateData :=
  mk_stateData (NoOfVars s) (sd_vars s) (sd_counter s) (sd_calculating s) vs qs (sd_sum s)
    (sd_tempSum s) (sd_preTuple s) (sd_cursor s) (sd_readySumList s).
Definition set_sums (s : stateData) (sum temp : list Qc) : stateData :=
  mk_stateData (NoOfVars s) (sd_vars s) (sd_counter s) (sd_calculating s) (sd_curTuple s)
    (sd_curTupleProb s) sum temp (sd_preTuple s) (sd_cursor s) (sd_readySumList s).
Definition set_cursor (s : stateData) (n : nat) : stateData :=
  mk_stateData (NoOfVars s) (sd_vars s) (sd_counter s) (sd_calculating s) (sd_curTuple s)
    (sd_curTupleProb s) (sd_sum s) (sd_tempSum s) (sd_preTuple s) n (sd_readySumList s).
Definition set_ready (s : stateData) (l : list Qc) : stateData :=
  mk_stateData (NoOfVars s) (sd_vars s) (sd_counter s) (sd_calculating s) (sd_curTuple s)
    (sd_curTupleProb s) (sd_sum s) (sd_tempSum s) (sd_preTuple s) (sd_cursor s) l.
(** [memcpy(preTuple, curTuple, ...)]. *)
Definition save_tuple (s : stateData) : stateData :=
  mk_stateData (NoOfVars s) (sd_vars s) (sd_counter s) (sd_calculating s) (sd_curTuple s)
    (sd_curTupleProb s) (sd_sum s) (sd_tempSum s) (sd_curTuple s) (sd_cursor s) (sd_readySumList s).

(** The current probability of column [i]. *)
Definition lookup_at (s : stateData) (i : nat) : option (Qc * stateData) :=
  info ← sd_vars s !! i;
  v ← sd_curTuple s !! i;
  p ← sd_curTupleProb s !! i;
  '(q, info) ← lookup info v p;
  Some (q, set_vars s (NoOfVars s) (<[i := info]> (sd_vars s))).

(** [sum[i] = lookup(...)]. *)
Definition reset_sum (i : nat) (s : stateData) : option stateData :=
  '(q, s) ← lookup_at s i;
  sum ← store (sd_sum s) i q;
  Some (set_sums s sum (sd_tempSum s)).

(** [sum[i] = indeEventConjunc(sum[i], lookup(...))]. *)
Definition accumulate_sum (i : nat) (s : stateData) : option stateData :=
  '(q, s) ← lookup_at s i;
  x ← sd_sum s !! i;
  sum ← store (sd_sum s) i (indeEventConjunc x q);
  Some (set_sums s sum (sd_tempSum s)).

(** [product = getProduct(...); tempSum[i] = indeEventConjunc(tempSum[i], product)]. *)
Definition close_block (i : nat) (s : stateData) : option stateData :=
  info ← sd_vars s !! i;
  x ← sd_sum s !! i;
  t ← sd_tempSum s !! i;
  '(product, ready) ← getProduct info x (sd_readySumList s);
  temp ← store (sd_tempSum s) i (indeEventConjunc t product);
  Some (set_ready (set_sums s (sd_sum s) temp) ready).

(** Column [j] of the loop from the cursor down: its probability is final. *)
Definition finish_column (j : nat) (s : stateData) : option stateData :=
  info ← sd_vars s !! j;
  if domain info =? 0 then
    x ← sd_sum s !! j;
    Some (set_ready s (insertIntoReadySumList (sd_readySumList s) x))
  else
    s ← close_block j s;
    t ← sd_tempSum s !! j;
    temp ← store (sd_tempSum s) j 0%Qc;
    Some (set_ready (set_sums s (sd_sum s) temp) (insertIntoReadySumList (sd_readySumList s) t)).

(** [for (j = cursor; j > i; j--)]. *)
Definition close_columns (i : nat) (s : stateData) : option stateData :=
  for_list (rev (seq (S i) (sd_cursor s - i))) finish_column s.

(** The code at [finish]: column [i] is the first that changed. *)
Definition finish (finalProb : bool) (i : nat) (s : stateData) : option (stateData * option Qc) :=
  s ← close_columns i s;
  info ← sd_vars s !! i;
  if (0 <? domain info) || (NoOfVars s =? 1) then
    s ← close_block i s;
    if finalProb then r ← sd_tempSum s !! 0; Some (s, Some r)
    else
      let s := set_cursor s (i + domain info) in
      s ← (if sd_calculating s then for_list (seq i (S (domain info))) reset_sum s else Some s);
      Some (save_tuple s, None)
  else
    s ← accumulate_sum i s;
    Some (save_tuple (set_cursor s i), None).

Definition newBlock (s : stateData) : option stateData :=
  s ← for_upto (NoOfVars s) reset_sum s;
  Some (save_tuple (set_cursor (set_calculating s true) (NoOfVars s - 1))).

(** Does column [i] change to a valid variable? *)
Definition changed (s : stateData) (i : nat) : option bool :=
  c ← sd_curTuple s !! i;
  p ← sd_preTuple s !! i;
  if bool_decide (c = p) then Some false else info ← sd_vars s !! i; isAValidVar info c.

(** The loop over the columns up to the cursor. *)
Definition update_columns (s : stateData) : option (stateData * option Qc) :=
  r ← search_up (changed s) (S (sd_cursor s)) 0;
  match r with
  | None => Some (save_tuple s, None)
  | Some i =>
      if i =? sd_cursor s then s ← accumulate_sum i s; Some (save_tuple s, None)
      else finish false i s
  end.

(** One tuple, or the end of the group when [finalProb] is set: the state, and the
    probability when it is required. *)
Definition processTuple (finalProb : bool) (s : stateData) : option (stateData * option Qc) :=
  if finalProb then
    if sd_calculating s then finish true 0 s
    else r ← sd_tempSum s !! 0; Some (s, Some r)
  else
    let s := set_counter s (S (sd_counter s)) in
    if sd_counter s =? 1 then
      let zeros := replicate (NoOfVars s) 0%Qc in
      s ← newBlock (set_ready (set_sums s zeros zeros) []);
      Some (s, None)
    else
      c ← sd_curTuple s !! 0;
      p ← sd_preTuple s !! 0;
      if bool_decide (c = p) then
        if sd_calculating s then update_columns s else Some (s, None)
      else
        info ← sd_vars s !! 0;
        valid ← isAValidVar info c;
        if (valid : bool) then
          if sd_calculating s then update_columns s
          else s ← newBlock s; Some (s, None)
        else if sd_calculating s then finish false 0 (set_calculating s false)
        else Some (s, None).

(** ** The scan for the result *)

Fixpoint scan_tuples (ps : list nat) (ts : list varprob) (s : stateData) : option stateData :=
  match ts with
  | [] => Some s
  | t :: ts =>
      '(vs, qs) ← fetch t ps;
      '(s, _) ← processTuple false (set_cur s vs qs);
      scan_tuples ps ts s
  end.

Definition oneScan (s : stateData) (root : sigNode) (l : lineageTable) : option (Qc * stateData) :=
  let sig := fillLeafNode root in
  let s := set_vars (set_counter s 0) (leafDescendentCount root) sig in
  s ← scan_tuples (pos <$> sig) (drop (lt_cursor l) (lt_tuples l)) s;
  '(s, r) ← processTuple true s;
  Some (default 1%Qc r, s).
