(* ===== verification/SproutAgg.v ===== *)
(** * SproutAgg: aggregations, schedule and the aggregate functions ([SPROUT.c])

    When the signature is not one-scan, starred columns are first aggregated into
    probability tables: [simpleAggregation] for a leaf, [complexAggregation] for a
    subtree, in the order that [schedule] finds.  The last part is the interface to
    the executor: transition and final functions. *)
From S2P Require Import Prelude.
From S2P Require Import LocalCond.
From S2P Require Import Argmax.
From S2P Require Import Signature.
From S2P Require Import Sprout.

(** ** Hash tables from variables to entries of a probability table *)

(** An entry holds a position in the table, [None] for a null pointer. *)
Record varEntry := mk_varEntry { ve_var : Z; ve_pte : option nat }.
Abbreviation varTable := (gmap Z (list varEntry)).

Definition hashFunction (v : Z) : Z := Z.rem v HASHTABLESIZE.

(** A negative variable hashes in front of the array. *)
Definition ht_index (v : Z) : option Z :=
  let h := hashFunction v in if (h <? 0)%Z then None else Some h.

Definition getPTEFromHT (ht : varTable) (v : Z) : option (option nat) :=
  h ← ht_index v;
  Some (match list_find (fun e => ve_var e = v) (default [] (ht !! h)) with
        | Some (_, e) => ve_pte e
        | None => None
        end).

Definition insertIntoVarList (l : list varEntry) (e : varEntry) : list varEntry := l ++ [e].
Definition newVarEntry (v : Z) (pte : option nat) (ht : varTable) : option varTable :=
  h ← ht_index v;
  Some (<[h := insertIntoVarList (default [] (ht !! h)) (mk_varEntry v pte)]> ht).

Definition insertIntoProbTable (t : probTable) (e : Z * Qc) : probTable := t ++ [e].

(** [pte->probability = indeEventConjunc(pte->probability, p)]. *)
Definition add_to_entry (t : probTable) (pte : option nat) (p : Qc) : option probTable :=
  k ← pte;
  e ← t !! k;
  Some (<[k := (e.1, indeEventConjunc e.2 p)]> t).

(** Is the variable of a column new?  [pre] is the previous value, none before the
    first tuple. *)
Definition is_new (info : sigInfo) (ht : varTable) (v : Z) (pre : option Z) : option bool :=
  match pre with
  | None => Some true
  | Some pre =>
      if bool_decide (v = pre) then Some false
      else
        valid ← isAValidVar info v;
        if (valid : bool) then e ← getPTEFromHT ht v; Some (negb (bool_decide (is_Some e)))
        else Some false
  end.

(** ** Aggregating one column *)

Record simpleState := mk_simple {
  sm_var0 : sigInfo;
  sm_pt : probTable;
  sm_ht0 : varTable;
  sm_ht1 : varTable;
  sm_pre : option (Z * Z) }.

Definition simple_round (info1 : sigInfo) (x y : Z) (p : Qc) (s : simpleState) : option simpleState :=
  newX ← is_new (sm_var0 s) (sm_ht0 s) x (fst <$> sm_pre s);
  newY ← is_new info1 (sm_ht1 s) y (snd <$> sm_pre s);
  match (newX : bool), (newY : bool) with
  | true, true =>
      '(q, v0) ← lookup (sm_var0 s) x p;
      let k := length (sm_pt s) in
      h1 ← newVarEntry y (Some k) (sm_ht1 s);
      h0 ← newVarEntry x (Some k) (sm_ht0 s);
      Some (mk_simple v0 (insertIntoProbTable (sm_pt s) (x, q)) h0 h1 (Some (x, y)))
  | true, false =>
      pte ← getPTEFromHT (sm_ht1 s) y;
      h0 ← newVarEntry x pte (sm_ht0 s);
      '(q, v0) ← lookup (sm_var0 s) x p;
      t ← add_to_entry (sm_pt s) pte q;
      Some (mk_simple v0 t h0 (sm_ht1 s) (Some (x, y)))
  | false, true =>
      pte ← getPTEFromHT (sm_ht0 s) x;
      h1 ← newVarEntry y pte (sm_ht1 s);
      Some (mk_simple (sm_var0 s) (sm_pt s) (sm_ht0 s) h1 (Some (x, y)))
  | false, false => Some (mk_simple (sm_var0 s) (sm_pt s) (sm_ht0 s) (sm_ht1 s) (Some (x, y)))
  end.

Definition simple_tuple (info1 : sigInfo) (t : varprob) (s : simpleState) : option simpleState :=
  x ← vp_vars t !! pos (sm_var0 s);
  p ← vp_probs t !! pos (sm_var0 s);
  y ← vp_vars t !! pos info1;
  simple_round info1 x y p s.

(** The table attached to the first column, and the reset lineage. *)
Definition simpleAggregation (info0 info1 : sigInfo) (l : lineageTable)
    : option (probTable * lineageTable) :=
  s ← for_list (drop (lt_cursor l) (lt_tuples l)) (simple_tuple info1) (mk_simple info0 [] ∅ ∅ None);
  Some (sm_pt s, resetLineageCursor l).

(** ** Aggregating a subtree *)

(** The columns of the subtree followed by the first column to its right; the
    scan state is that of a one-scan computation. *)
Record complexState := mk_complex {
  cx_scan : stateData;
  cx_pt : probTable;
  cx_ht0 : varTable;
  cx_ht1 : varTable }.

Definition set_scan (c : complexState) (s : stateData) : complexState :=
  mk_complex s (cx_pt c) (cx_ht0 c) (cx_ht1 c).
Definition posY (s : stateData) : nat := NoOfVars s - 1.

(** The code at [insert], up to the test for the end: column [i] is closed, a block
    of the representative column goes to its table entry. *)
Definition insert_block (i : nat) (c : complexState) : option complexState :=
  if i =? 0 then
    pre ← sd_preTuple (cx_scan c) !! 0;
    pte ← getPTEFromHT (cx_ht0 c) pre;
    info ← sd_vars (cx_scan c) !! 0;
    x ← sd_sum (cx_scan c) !! 0;
    '(product, ready) ← getProduct info x (sd_readySumList (cx_scan c));
    t ← add_to_entry (cx_pt c) pte product;
    Some (mk_complex (set_ready (cx_scan c) ready) t (cx_ht0 c) (cx_ht1 c))
  else s ← close_block i (cx_scan c); Some (set_scan c s).

Definition insert_tuple (i : nat) (c : complexState) : option complexState :=
  s ← close_columns i (cx_scan c);
  let c := set_scan c s in
  info ← sd_vars s !! i;
  if (0 <? domain info) || (NoOfVars s =? 1) then
    c ← insert_block i c;
    let s := set_cursor (cx_scan c) (i + domain info) in
    s ← for_list (seq i (S (domain info))) reset_sum s;
    Some (set_scan c s)
  else
    s ← accumulate_sum i s;
    Some (set_scan c (set_cursor s i)).

(** The end of the lineage; without a domain the C loop would not end. *)
Definition insert_end (c : complexState) : option complexState :=
  s ← close_columns 0 (cx_scan c);
  info ← sd_vars s !! 0;
  if (0 <? domain info) || (NoOfVars s =? 1) then insert_block 0 (set_scan c s) else None.

(** Enter new variables into the tables. *)
Definition enter_vars (newX newY : bool) (x y : Z) (c : complexState) : option complexState :=
  match newX, newY with
  | true, true =>
      let k := length (cx_pt c) in
      h1 ← newVarEntry y (Some k) (cx_ht1 c);
      h0 ← newVarEntry x (Some k) (cx_ht0 c);
      Some (mk_complex (cx_scan c) (insertIntoProbTable (cx_pt c) (x, 0%Qc)) h0 h1)
  | true, false =>
      pte ← getPTEFromHT (cx_ht1 c) y;
      h0 ← newVarEntry x pte (cx_ht0 c);
      Some (mk_complex (cx_scan c) (cx_pt c) h0 (cx_ht1 c))
  | false, true =>
      pte ← getPTEFromHT (cx_ht0 c) x;
      h1 ← newVarEntry y pte (cx_ht1 c);
      Some (mk_complex (cx_scan c) (cx_pt c) (cx_ht0 c) h1)
  | false, false => Some c
  end.

(** [sum[i] = lookup(...); tempSum[i] = 0] for the columns of the subtree. *)
Definition start_columns (s : stateData) : option stateData :=
  for_upto (posY s)
    (fun i s => s ← reset_sum i s; temp ← store (sd_tempSum s) i 0%Qc; Some (set_sums s (sd_sum s) temp)) s.

(** The loop over the columns up to the cursor. *)
Definition complex_columns (c : complexState) : option complexState :=
  let s := cx_scan c in
  r ← search_up (changed s) (S (sd_cursor s)) 0;
  match r with
  | None => Some c
  | Some i => if i =? sd_cursor s then s ← accumulate_sum i s; Some (set_scan c s) else insert_tuple i c
  end.

(** One tuple: [first] for the first of the lineage. *)
Definition complex_round (first : bool) (c : complexState) : option complexState :=
  let s := cx_scan c in
  x ← sd_curTuple s !! 0;
  y ← sd_curTuple s !! posY s;
  let pre k := if first then None else sd_preTuple s !! k in
  info0 ← sd_vars s !! 0;
  infoY ← sd_vars s !! posY s;
  newX ← is_new info0 (cx_ht0 c) x (pre 0);
  newY ← is_new infoY (cx_ht1 c) y (pre (posY s));
  c ← enter_vars newX newY x y c;
  c ← (if first then
         s ← start_columns (set_calculating (cx_scan c) true);
         complex_columns (set_scan c (save_tuple s))
       else if bool_decide (pre 0 = Some x) then
         if sd_calculating (cx_scan c) then complex_columns c else Some c
       else if sd_calculating (cx_scan c) then insert_tuple 0 c
       else
         let c := set_scan c (set_calculating (cx_scan c) newX) in
         if (newX : bool) then complex_columns c else Some c);
  s ← (if (newX : bool) then start_columns (cx_scan c) else Some (cx_scan c));
  Some (set_scan c (save_tuple s)).

Fixpoint complex_tuples (ps : list nat) (first : bool) (ts : list varprob) (c : complexState)
    : option complexState :=
  match ts with
  | [] => Some c
  | t :: ts =>
      '(vs, qs) ← fetch t ps;
      c ← complex_round first (set_scan c (set_cur (cx_scan c) vs qs));
      complex_tuples ps false ts c
  end.

(** [None] in the first component: the lineage is empty and no table is attached. *)
Definition complexAggregation (vars : list sigInfo) (l : lineageTable)
    : option (option probTable * lineageTable) :=
  let n := length vars in
  let zeros := replicate n 0%Qc in
  let s := set_cursor (set_sums (set_vars zero_state n vars) zeros zeros) (n - 2) in
  match drop (lt_cursor l) (lt_tuples l) with
  | [] => Some (None, resetLineageCursor l)
  | ts =>
      c ← complex_tuples (pos <$> vars) true ts (mk_complex s [] ∅ ∅);
      c ← insert_end c;
      Some (Some (cx_pt c), resetLineageCursor l)
  end.

(** ** The schedule *)

Fixpoint get1stLeafChild (t : sigNode) : option sigInfo :=
  let 'SigNode i cs := t in
  if isLeaf i then Some i else match cs with [] => None | c :: _ => get1stLeafChild c end.

(** The aggregated first child: a leaf without star; what was below it is not read
    again. *)
Definition aggregated (i : sigInfo) (p : nat) (d v : nat) (t : option probTable) : sigInfo :=
  mk_info true false (sg i) AGGREGATED p d v t.

Definition aggregate_first (c : sigNode) (siblings : list sigNode) (l : lineageTable)
    : option (sigNode * lineageTable) :=
  next ← head siblings;
  y ← get1stLeafChild next;
  let 'SigNode i kids := c in
  if isLeaf i then
    '(t, l) ← simpleAggregation i y l;
    Some (SigNode (aggregated i (pos i) (domain i) (varsToCombine i) (Some t)) kids, l)
  else
    '(t, l) ← complexAggregation (fillLeafNode c ++ [y]) l;
    firstDesc ← get1stLeafChild c;
    let t := match t with Some t => Some t | None => pt firstDesc end in
    Some (SigNode (aggregated i (pos firstDesc) (domain firstDesc) (domain firstDesc) t) kids, l).

Fixpoint schedule (t : sigNode) (l : lineageTable) : option (sigNode * lineageTable) :=
  let 'SigNode i cs := t in
  b ← is1Scan t;
  if (b : bool) then Some (t, l)
  else
    '(cs, l) ← (fix children (cs : list sigNode) (l : lineageTable)
                    : option (list sigNode * lineageTable) :=
      match cs with
      | [] => Some ([], l)
      | c :: cs =>
          b ← is1Scan c;
          '(c, l) ← (if (b : bool) then Some (c, l) else schedule c l);
          '(cs, l) ← children cs l;
          Some (c :: cs, l)
      end) cs l;
    b ← is1Scan (SigNode i cs);
    if (b : bool) then Some (SigNode i cs, l)
    else
      match cs with
      | [] => None
      | c :: siblings =>
          '(c, l) ← aggregate_first c siblings l;
          Some (calDomain (calSib (SigNode i (c :: siblings))), l)
      end.

(** ** The aggregate functions *)

(** The state of the aggregation node; with hashing each group has its own. *)
Record sproutAgg := mk_sprout {
  sp_groupcxt : bool;
  sp_signature : signature;
  sp_aggstrategy : AggStrategy;
  sp_entry : stateData * lineageTable;
  sp_node : stateData * lineageTable }.

Definition getStateAndLineage (a : sproutAgg) : stateData * lineageTable :=
  match sp_aggstrategy a with AGG_HASHED => sp_entry a | _ => sp_node a end.

Definition putStateAndLineage (a : sproutAgg) (sl : stateData * lineageTable) : sproutAgg :=
  match sp_aggstrategy a with
  | AGG_HASHED => mk_sprout (sp_groupcxt a) (sp_signature a) (sp_aggstrategy a) sl (sp_node a)
  | _ => mk_sprout (sp_groupcxt a) (sp_signature a) (sp_aggstrategy a) (sp_entry a) sl
  end.

Definition set_context (a : sproutAgg) (b : bool) (g : signature) : sproutAgg :=
  mk_sprout b g (sp_aggstrategy a) (sp_entry a) (sp_node a).

Definition advance (a : sproutAgg) (n : nat) (vars : list Z) (probs : list Qc) : option sproutAgg :=
  let '(s, l) := getStateAndLineage a in
  if isOneScan (sp_signature a) then
    let s := if NoOfVars s =? 0 then set_vars s n (fillLeafNode (sigTreeRoot (sp_signature a))) else s in
    '(s, _) ← processTuple false (set_cur s vars probs);
    Some (putStateAndLineage a (s, l))
  else Some (putStateAndLineage a (s, storeLineage l vars probs)).

(** Macro [accumulate]: the pairs of condition columns. *)
Definition accumulate (n : nat) (args : list datum) (a : sproutAgg) : option sproutAgg :=
  vars ← mapM (fun i => PG_GETARG_INT32 args (1 + i * 2)) (seq 0 n);
  probs ← mapM (fun i => PG_GETARG_FLOAT4 args (2 + i * 2)) (seq 0 n);
  advance (set_context a true (sp_signature a)) n vars probs.

Definition conf_accum0 (args : list datum) : option Qc := Some 1%Qc.
Definition conf_accum1 (args : list datum) : option Qc :=
  a ← PG_GETARG_FLOAT4 args 0; b ← PG_GETARG_FLOAT4 args 2; Some (a + b - a * b)%Qc.
Definition conf_accum2 := accumulate 2.
Definition conf_accum3 := accumulate 3.
Definition conf_accum4 := accumulate 4.
Definition conf_accum5 := accumulate 5.
Definition conf_accum6 := accumulate 6.
Definition conf_accum7 := accumulate 7.
Definition conf_accum8 := accumulate 8.
Definition conf_accum9 := accumulate 9.
Definition conf_accum10 := accumulate 10.

Section Final.
(** The catalog, for the signature that is built again. *)
Context (natts : node -> nat) (pkeys : node -> list String.string).

Definition rebuild (g : signature) : option signature :=
  cs ← buildSigTree natts pkeys (sgTreeRoot g);
  root ← addNonJoinedRelation (sgTreeRoot g) (SigNode zero_info cs) (relList g);
  Some (mk_signature (sgTreeRoot g) (decorate root) (isOneScan g) (relList g)).

(** [MemoryContextDelete(groupcxt)].  The context of the group holds the arrays of
    [vars], [curTuple], [curTupleProb], [sum], [tempSum], [preTuple] and the list of
    finished probabilities: their pointers stay in the state and dangle, so no read of
    them has a value.  The scalars, [NoOfVars] among them, are in the node's state. *)
Definition release (s : stateData) : stateData :=
  mk_stateData (NoOfVars s) [] (sd_counter s) (sd_calculating s) [] [] [] [] [] (sd_cursor s) [].

Definition conf_final (a : sproutAgg) : option (Qc * sproutAgg) :=
  if sp_groupcxt a then
    let '(s, l) := getStateAndLineage a in
    let g := sp_signature a in
    if isOneScan g then
      '(s, r) ← processTuple true s;
      Some (default 1%Qc r, set_context (putStateAndLineage a (release (set_counter s 0), l)) false g)
    else
      '(root, l) ← schedule (sigTreeRoot g) l;
      '(result, s) ← oneScan s root l;
      g ← rebuild g;
      Some (result, set_context (putStateAndLineage a (release s, mk_lineage [] 0)) false g)
  else Some (0%Qc, a).
End Final.
