(* ===== verification/SproutScan.v ===== *)
(** * SproutScan: the one-scan computation on hierarchical lineage

    A one-scan signature is a tree of columns: a head column and subtrees.  Lineage
    of that shape is a list of blocks, a value of the head column with lineage for
    every subtree, and its tuples are, block by block, the products of the tuples
    below.  The scan is abstracted to a machine with one frame per active column;
    the theorem of this file is that running it over the tuples ends with the
    probability of the blocks. *)
From S2P Require Import Prelude.
From S2P Require Import Worlds.
From S2P Require Import Signature.
From S2P Require Import Sprout.

(** ** Column trees and lineage *)

#[local] Set Warnings "-register-all".
Inductive tree := T (cs : list tree).
Inductive block := B (x : Z) (p : Qc) (ls : list (list block)).

Lemma tree_ind' (P : tree -> Prop) : (forall cs, Forall P cs -> P (T cs)) -> forall t, P t.
Proof.
  intros H. fix IH 1. intros [cs]. apply H. induction cs as [|c cs IHcs]; constructor; [apply IH|done].
Qed.

Fixpoint size (t : tree) : nat := let 'T cs := t in S (sum_list_with size cs).
Definition forest_size (cs : list tree) : nat := sum_list_with size cs.

(** Number of descendant columns and of subtrees, per column. *)
Fixpoint tcols (t : tree) : list (nat * nat) :=
  let 'T cs := t in (sum_list_with size cs, length cs) :: mjoin (tcols <$> cs).
Definition forest_cols (cs : list tree) : list (nat * nat) := mjoin (tcols <$> cs).

Abbreviation arow := (list (Z * Qc)).

(** Every choice of one tuple per list, the first list varying slowest. *)
Fixpoint cross (l : list (list arow)) : list arow :=
  match l with
  | [] => [[]]
  | r :: l => a ← r; (app a <$> cross l)
  end.

Fixpoint block_rows (b : block) : list arow :=
  let 'B x p ls := b in cons (x, p) <$> cross ((fun l => mjoin (block_rows <$> l)) <$> ls).
Definition rows_of (bs : list block) : list arow := mjoin (block_rows <$> bs).
Definition forest_rows (ls : list (list block)) : list arow := cross (rows_of <$> ls).

Fixpoint block_prob (b : block) : Qc :=
  let 'B x p ls := b in
  (p * qprod ((fun l => 1 - qprod ((fun b => 1 - block_prob b) <$> l)) <$> ls))%Qc.
Definition blocks_prob (bs : list block) : Qc := (1 - qprod ((fun b => 1 - block_prob b) <$> bs))%Qc.

Definition bvar (b : block) : Z := let 'B x _ _ := b in x.
Definition bprob (b : block) : Qc := let 'B _ p _ := b in p.
Definition bsub (b : block) : list (list block) := let 'B _ _ ls := b in ls.

(** Lineage of the shape of a tree; no head value occurs twice in a list of blocks. *)
Fixpoint shaped (t : tree) (bs : list block) : Prop :=
  let 'T cs := t in
  bs <> [] /\ NoDup (bvar <$> bs) /\
  Forall (fun b => (fix all (cs : list tree) (ls : list (list block)) : Prop :=
    match cs, ls with
    | [], [] => True
    | c :: cs, l :: ls => shaped c l /\ all cs ls
    | _, _ => False
    end) cs (bsub b)) bs.

Lemma shaped_unfold (cs : list tree) (bs : list block) :
  shaped (T cs) bs <->
  bs <> [] /\ NoDup (bvar <$> bs) /\ Forall (fun b => Forall2 shaped cs (bsub b)) bs.
Proof.
  assert (Hall : forall ls, (fix all (cs : list tree) (ls : list (list block)) : Prop :=
    match cs, ls with
    | [], [] => True
    | c :: cs, l :: ls => shaped c l /\ all cs ls
    | _, _ => False
    end) cs ls <-> Forall2 shaped cs ls).
  { induction cs as [|c cs IH]; intros [|l ls]; simpl; split; try done; try (by inversion 1).
    - intros [H1 H2]. constructor; [done|by apply IH].
    - intros H. apply Forall2_cons in H as [H1 H2]. split; [done|by apply IH]. }
  simpl. by setoid_rewrite Hall.
Qed.

Lemma block_rows_eq (x : Z) (p : Qc) (ls : list (list block)) :
  block_rows (B x p ls) = cons (x, p) <$> forest_rows ls.
Proof. done. Qed.
Lemma block_prob_eq (x : Z) (p : Qc) (ls : list (list block)) :
  block_prob (B x p ls) = (p * qprod (blocks_prob <$> ls))%Qc.
Proof. done. Qed.

(** ** The machine

    Frames are listed from the cursor column to column 0; each has the disjunction
    that is being accumulated and that of its closed blocks. *)

Record machine := mk_machine { frames : list (Qc * Qc); ready : list Qc }.

Section Machine.
Context (cols : list (nat * nat)).

Definition close_top (m : machine) : option machine :=
  match frames m with
  | [] => None
  | (x, t) :: fs =>
      '(d, v) ← cols !! length fs;
      if d =? 0 then Some (mk_machine fs (x :: ready m))
      else '(product, r) ← pop_product v x (ready m);
           Some (mk_machine fs (indeEventConjunc t product :: r))
  end.

Fixpoint close_n (k : nat) (m : machine) : option machine :=
  match k with
  | 0 => Some m
  | S k => m ← close_top m; close_n k m
  end.

(** Close the columns from the cursor down to column [n]. *)
Definition close_to (n : nat) (m : machine) : option machine := close_n (length (frames m) - n) m.

Definition fresh_frames (ps : list Qc) : list (Qc * Qc) := rev ((fun p => (p, 0%Qc)) <$> ps).

(** Column [i], the last active one, changes. *)
Definition touch (i : nat) (ps : list Qc) (m : machine) : option machine :=
  match frames m with
  | [] => None
  | (x, t) :: fs =>
      '(d, v) ← cols !! i;
      p ← ps !! i;
      if d =? 0 then Some (mk_machine ((indeEventConjunc x p, t) :: fs) (ready m))
      else '(product, r) ← pop_product v x (ready m);
           Some (mk_machine (fresh_frames (take d (drop (S i) ps)) ++
                             (p, indeEventConjunc t product) :: fs) r)
  end.

Definition change (i : nat) (ps : list Qc) (m : machine) : option machine :=
  m ← close_to (S i) m; touch i ps m.

(** The first column at which two tuples differ. *)
Fixpoint first_diff (u v : list Z) : option nat :=
  match u, v with
  | x :: u, y :: v => if decide (x = y) then S <$> first_diff u v else Some 0
  | _, _ => None
  end.

(** One tuple after the tuple [fst pm]. *)
Definition mstep (r : arow) (pm : list Z * machine) : option (list Z * machine) :=
  let '(pre, m) := pm in
  match first_diff (take (length (frames m)) pre) (take (length (frames m)) r.*1) with
  | None => Some (r.*1, m)
  | Some i => m ← change i r.*2 m; Some (r.*1, m)
  end.

Definition mrun (R : list arow) (pm : list Z * machine) : option (list Z * machine) :=
  for_list R mstep pm.

(** *** Closing *)

Lemma close_top_length (m m' : machine) :
  close_top m = Some m' -> length (frames m) = S (length (frames m')).
Proof.
  unfold close_top. destruct (frames m) as [|[x t] fs]; [done|]. simpl.
  destruct (cols !! length fs) as [[d v]|]; [|done]. simpl.
  destruct (d =? 0); [by intros [= <-]|].
  destruct (pop_product v x (ready m)) as [[product r]|]; [|done]. by intros [= <-].
Qed.

Lemma close_n_length (k : nat) (m m' : machine) :
  close_n k m = Some m' -> length (frames m) = k + length (frames m').
Proof.
  revert m. induction k as [|k IH]; intros m; simpl; [by intros [= ->]|].
  destruct (close_top m) as [m1|] eqn:Hm; [|done]. simpl. intros H%IH.
  apply close_top_length in Hm. lia.
Qed.

Lemma close_n_add (k j : nat) (m : machine) : close_n (k + j) m = close_n k m ≫= close_n j.
Proof.
  revert m. induction k as [|k IH]; intros m; [done|]. simpl.
  destruct (close_top m) as [m1|]; [apply IH|done].
Qed.

Lemma close_to_trans (a b : nat) (m : machine) :
  a <= b -> close_to a m = close_to b m ≫= close_to a.
Proof.
  intros Hab. unfold close_to.
  replace (length (frames m) - a) with ((length (frames m) - b) + ((length (frames m) `min` b) - a)) by lia.
  rewrite close_n_add. destruct (close_n _ m) as [m'|] eqn:Hm; [|done]. simpl.
  f_equal. apply close_n_length in Hm. lia.
Qed.

Lemma close_to_id (a : nat) (m : machine) : length (frames m) <= a -> close_to a m = Some m.
Proof. intros H. unfold close_to. by replace (length (frames m) - a) with 0 by lia. Qed.

(** Closing down to [length fs] leaves at least these frames. *)
Lemma close_to_length (a : nat) (m m' : machine) :
  close_to a m = Some m' -> length (frames m') = length (frames m) `min` a.
Proof. unfold close_to. intros H%close_n_length. lia. Qed.

Lemma close_to_top (x t : Qc) (fs : list (Qc * Qc)) (k : list Qc) :
  close_to (length fs) (mk_machine ((x, t) :: fs) k) = close_top (mk_machine ((x, t) :: fs) k).
Proof.
  unfold close_to. cbn [frames length]. replace (S (length fs) - length fs) with 1 by lia.
  cbn [close_n]. by destruct (close_top _).
Qed.

(** A change at column [i] depends on what is left after closing the columns behind. *)
Lemma change_closed (i : nat) (ps : list Qc) (m m' : machine) :
  close_to (S i) m = Some m' -> change i ps m = touch i ps m'.
Proof. unfold change. by intros ->. Qed.

End Machine.

(** *** Steps *)

Lemma first_diff_at (l s s' : list Z) (x y : Z) (n : nat) :
  length l < n -> x <> y ->
  first_diff (take n (l ++ x :: s)) (take n (l ++ y :: s')) = Some (length l).
Proof.
  intros Hn Hxy. revert n Hn. induction l as [|z l IH]; intros [|n] Hn; simpl in *; try lia.
  - by rewrite decide_False by done.
  - rewrite decide_True by done. by rewrite IH by lia.
Qed.

Lemma first_diff_same (l s s' : list Z) (n : nat) :
  n <= length l -> first_diff (take n (l ++ s)) (take n (l ++ s')) = None.
Proof.
  intros Hn. rewrite !take_app_le by done. generalize (take n l). clear. intros l.
  induction l as [|z l IH]; [done|]. simpl. rewrite decide_True by done. by rewrite IH.
Qed.

(** A tuple that agrees with its predecessor up to the cursor changes nothing. *)
Lemma mstep_same (cols : list (nat * nat)) (u : arow) (s : arow) (pv : list Z) (m : machine) :
  u.*1 `prefix_of` pv -> length (frames m) <= length u ->
  mstep cols (u ++ s) (pv, m) = Some ((u ++ s).*1, m).
Proof.
  intros [s' ->] Hm. unfold mstep. rewrite fmap_app.
  by rewrite first_diff_same by (by rewrite length_fmap).
Qed.

Lemma mstep_change (cols : list (nat * nat)) (u : arow) (x y : Z) (p : Qc) (s : arow) (pv : list Z)
    (m : machine) :
  (u.*1 ++ [y]) `prefix_of` pv -> x <> y -> length u < length (frames m) ->
  mstep cols (u ++ (x, p) :: s) (pv, m) =
  m ← change cols (length u) (u ++ (x, p) :: s).*2 m; Some ((u ++ (x, p) :: s).*1, m).
Proof.
  intros [s' ->] Hxy Hm. unfold mstep. rewrite <- app_assoc, fmap_app. simpl.
  rewrite first_diff_at; [by rewrite length_fmap|by rewrite length_fmap|by intros ->].
Qed.

Lemma mrun_app (cols : list (nat * nat)) (R1 R2 : list arow) (pm : list Z * machine) :
  mrun cols (R1 ++ R2) pm = mrun cols R1 pm ≫= mrun cols R2.
Proof. apply for_list_app. Qed.

(** ** Scans

    [grouped u ws R]: the tuples [R] have the prefix [u], and behind it go through
    [ws] in order, each value in one or more tuples. *)

Definition starts (u : arow) (r : arow) : Prop := u `prefix_of` r.

Inductive grouped (u : arow) : list arow -> list arow -> Prop :=
  | grouped_nil : grouped u [] []
  | grouped_cons w ws g R :
      g <> [] -> Forall (starts (u ++ w)) g -> grouped u ws R -> grouped u (w :: ws) (g ++ R).

Lemma grouped_app (u : arow) (ws1 ws2 R : list arow) :
  grouped u (ws1 ++ ws2) R ->
  exists R1 R2, R = R1 ++ R2 /\ grouped u ws1 R1 /\ grouped u ws2 R2.
Proof.
  revert R. induction ws1 as [|w ws1 IH]; intros R H; simpl in H.
  - exists [], R. split; [done|]. split; [constructor|done].
  - inversion H as [|? ? g R' Hg Hs HR']; subst.
    destruct (IH R' HR') as (R1 & R2 & -> & H1 & H2).
    exists (g ++ R1), R2. rewrite app_assoc. split; [done|]. split; [by constructor|done].
Qed.

Lemma grouped_prefix (u w : arow) (ws R : list arow) :
  grouped u ((app w) <$> ws) R -> grouped (u ++ w) ws R.
Proof.
  revert R. induction ws as [|v ws IH]; intros R H; inversion H; subst; constructor; try done.
  - by rewrite <- app_assoc.
  - by apply IH.
Qed.

Lemma grouped_starts (u : arow) (ws R : list arow) : grouped u ws R -> Forall (starts u) R.
Proof.
  induction 1 as [|w ws g R _ Hs _ IH]; [constructor|]. apply Forall_app. split; [|done].
  eapply Forall_impl; [exact Hs|]. intros r. apply prefix_app_l.
Qed.

(** Only the values of the front columns are looked at. *)
Lemma grouped_front (u w : arow) (ws R : list arow) :
  ws <> [] -> grouped u ((app w) <$> ws) R -> R <> [] /\ Forall (starts (u ++ w)) R.
Proof.
  intros Hne H%grouped_prefix. split; [|by eapply grouped_starts].
  destruct H as [|v ws' g R Hg]; [done|]. by destruct g.
Qed.

Lemma grouped_fronts (u : arow) (ws vs R : list arow) :
  vs <> [] -> grouped u (w ← ws; (app w <$> vs)) R -> grouped u ws R.
Proof.
  intros Hvs. revert R. induction ws as [|w ws IH]; intros R H; simpl in H; [done|].
  apply grouped_app in H as (R1 & R2 & -> & H1 & H2).
  apply grouped_front in H1 as [H1 H1']; [|done]. by constructor; [..|apply IH].
Qed.

(** *** Shape of rows *)

Lemma length_tcols (t : tree) : length (tcols t) = size t.
Proof.
  induction t as [cs IH] using tree_ind'. simpl. f_equal.
  induction IH as [|c cs Hc _ IH]; [done|]. csimpl. by rewrite length_app, Hc, IH.
Qed.

Lemma size_pos (t : tree) : 0 < size t.
Proof. destruct t. simpl. lia. Qed.

Lemma cross_length (ns : list nat) (l : list (list arow)) :
  Forall2 (fun n r => Forall (fun w => length w = n) r) ns l ->
  Forall (fun w => length w = sum_list ns) (cross l).
Proof.
  induction 1 as [|n r ns l Hr _ IH]; simpl; [by repeat constructor|].
  apply Forall_forall. intros w (a & (v & -> & Hv)%list_elem_of_fmap & Ha)%list_elem_of_bind.
  rewrite length_app. rewrite Forall_forall in Hr, IH. by rewrite (Hr a), (IH v).
Qed.

Lemma sum_list_fmap {A} (f : A -> nat) (l : list A) : sum_list (f <$> l) = sum_list_with f l.
Proof. induction l as [|a l IH]; [done|]. csimpl. by rewrite IH. Qed.

Lemma rows_of_ok (t : tree) (bs : list block) :
  shaped t bs -> rows_of bs <> [] /\ Forall (fun w => length w = size t) (rows_of bs).
Proof.
  revert bs. induction t as [cs IH] using tree_ind'. intros bs (Hne & _ & Hbs)%shaped_unfold.
  assert (Hb : forall b, b ∈ bs -> block_rows b <> [] /\
             Forall (fun w => length w = S (forest_size cs)) (block_rows b)).
  { rewrite Forall_forall in Hbs. intros [x p ls] Hb. specialize (Hbs _ Hb). simpl in Hbs.
    rewrite block_rows_eq.
    assert (Hl : Forall2 (fun c l => rows_of l <> [] /\ Forall (fun w => length w = size c) (rows_of l)) cs ls).
    { clear Hb Hne. induction Hbs as [|c l cs ls Hc _ IHf]; constructor; inversion IH; subst; auto. }
    clear IH Hbs Hb. split.
    - cut (forest_rows ls <> []); [by destruct (forest_rows ls)|]. unfold forest_rows.
      induction Hl as [|c l cs ls [Hc _] _ IHf]; [done|]. csimpl.
      destruct (rows_of l) as [|w ws]; [done|]. simpl. by destruct (cross (rows_of <$> ls)).
    - apply Forall_fmap. eapply Forall_impl.
      + apply (cross_length (size <$> cs)). apply Forall2_fmap. eapply Forall2_impl; [exact Hl|].
        by intros c l [_ H].
      + intros w Hw. simpl. by rewrite Hw, sum_list_fmap. }
  split.
  - destruct bs as [|b bs]; [done|]. unfold rows_of. csimpl.
    destruct (Hb b) as [Hr _]; [apply list_elem_of_here|]. by destruct (block_rows b).
  - apply Forall_forall. intros w (l & Hw & (b & -> & Hin)%list_elem_of_fmap)%list_elem_of_join.
    destruct (Hb b Hin) as [_ Hr]. rewrite Forall_forall in Hr. by apply Hr.
Qed.

Lemma forest_rows_ok (cs : list tree) (ls : list (list block)) :
  Forall2 shaped cs ls ->
  forest_rows ls <> [] /\ Forall (fun w => length w = forest_size cs) (forest_rows ls).
Proof.
  intros H. split.
  - induction H as [|c l cs ls Hc _ IH]; [done|]. unfold forest_rows. csimpl.
    apply rows_of_ok in Hc as [Hc _]. destruct (rows_of l) as [|w ws]; [done|]. simpl.
    unfold forest_rows in IH. by destruct (cross (rows_of <$> ls)).
  - eapply Forall_impl; [apply (cross_length (size <$> cs))|].
    + apply Forall2_fmap. eapply Forall2_impl; [exact H|]. intros c l Hc. by apply rows_of_ok.
    + intros w Hw. simpl in Hw. by rewrite Hw, sum_list_fmap.
Qed.

Lemma forest_rows_cons (l : list block) (ls : list (list block)) :
  forest_rows (l :: ls) = w ← rows_of l; (app w <$> forest_rows ls).
Proof. done. Qed.

(** ** The scan of a tree *)

(** Tuples that agree in the active columns. *)
Lemma mrun_same (cols : list (nat * nat)) (u : arow) (g : list arow) (pv : list Z) (m : machine) :
  Forall (starts u) g -> u.*1 `prefix_of` pv -> length (frames m) <= length u ->
  exists pv', mrun cols g (pv, m) = Some (pv', m) /\ u.*1 `prefix_of` pv'.
Proof.
  intros Hg. revert pv. induction Hg as [|r g [s ->] _ IH]; intros pv Hpv Hm; [by exists pv|].
  unfold mrun. cbn [for_list]. rewrite mstep_same by done. cbn [mbind option_bind].
  apply IH; [|done]. exists (s.*1). by rewrite fmap_app.
Qed.

Lemma mrun_prefix (cols : list (nat * nat)) (u : arow) (R : list arow) (pv pv' : list Z) (m m' : machine) :
  Forall (starts u) R -> u.*1 `prefix_of` pv -> mrun cols R (pv, m) = Some (pv', m') ->
  u.*1 `prefix_of` pv'.
Proof.
  intros HR. revert pv m. induction HR as [|r R [s ->] _ IH]; intros pv m Hpv; unfold mrun; cbn [for_list].
  - by intros [= <- _].
  - destruct (mstep cols (u ++ s) (pv, m)) as [[pv1 m1]|] eqn:Hs; [|done]. cbn [mbind option_bind].
    apply IH. unfold mstep in Hs. destruct (first_diff _ _) as [i|].
    + destruct (change _ _ _ _); [|done]. injection Hs as <- <-. exists (s.*1). by rewrite fmap_app.
    + injection Hs as <- <-. exists (s.*1). by rewrite fmap_app.
Qed.

Section Scan.
Context (cols : list (nat * nat)).

Definition cols_at (a : nat) (l : list (nat * nat)) : Prop :=
  forall i, i < length l -> cols !! (a + i) = l !! i.

Lemma cols_at_app (a : nat) (l1 l2 : list (nat * nat)) :
  cols_at a (l1 ++ l2) -> cols_at a l1 /\ cols_at (a + length l1) l2.
Proof.
  intros H. split; intros i Hi.
  - rewrite H by (rewrite length_app; lia). by rewrite lookup_app_l.
  - rewrite <- Nat.add_assoc, H by (rewrite length_app; lia).
    rewrite lookup_app_r by lia. f_equal. lia.
Qed.

(** The machine with the first tuple of a tree (forest) taken up ends the scan of the
    others with its probability on top of the ready list. *)
Definition tree_scan (t : tree) : Prop :=
  forall bs u fs K m pv w0 ws R,
  shaped t bs -> cols_at (length u) (tcols t) -> length fs = length u ->
  rows_of bs = w0 :: ws ->
  close_to cols (length u + size t) m = Some (mk_machine (fresh_frames w0.*2 ++ fs) K) ->
  (u ++ w0).*1 `prefix_of` pv -> grouped u ws R ->
  exists m' pv', mrun cols R (pv, m) = Some (pv', m') /\
    close_to cols (length u) m' = Some (mk_machine fs (blocks_prob bs :: K)).

Definition forest_scan (cs : list tree) : Prop :=
  forall ls u fs K m pv w0 ws R,
  Forall2 shaped cs ls -> cols_at (length u) (forest_cols cs) -> length fs = length u ->
  forest_rows ls = w0 :: ws ->
  close_to cols (length u + forest_size cs) m = Some (mk_machine (fresh_frames w0.*2 ++ fs) K) ->
  (u ++ w0).*1 `prefix_of` pv -> grouped u ws R ->
  exists m' pv', mrun cols R (pv, m) = Some (pv', m') /\
    close_to cols (length u) m' = Some (mk_machine fs ((blocks_prob <$> ls) ++ K)).

Lemma fresh_frames_app (p q : list Qc) : fresh_frames (p ++ q) = fresh_frames q ++ fresh_frames p.
Proof. unfold fresh_frames. by rewrite fmap_app, rev_app_distr. Qed.

Lemma length_fresh_frames (p : list Qc) : length (fresh_frames p) = length p.
Proof. unfold fresh_frames. by rewrite length_rev, length_fmap. Qed.

Lemma forest_scan_intro (cs : list tree) : Forall tree_scan cs -> forest_scan cs.
Proof.
  induction 1 as [|c cs Hc _ IH]; intros ls u fs K m pv w0 ws R Hls Hcols Hfs Hrows Hm Hpv HR.
  - inversion Hls; subst. unfold forest_rows in Hrows. simpl in Hrows. injection Hrows as <- <-.
    inversion HR; subst. exists m, pv. split; [done|]. by rewrite Nat.add_0_r in Hm.
  - inversion Hls as [|? l ? ls' Hl Hls']; subst. unfold forest_cols in Hcols. csimpl.
    apply cols_at_app in Hcols as [Hcols1 Hcols2]. rewrite length_tcols in Hcols2.
    rewrite forest_rows_cons in Hrows.
    destruct (rows_of_ok _ _ Hl) as [Hne1 Hlen1]. destruct (forest_rows_ok _ _ Hls') as [Hne2 Hlen2].
    destruct (rows_of l) as [|v0 vs] eqn:Hv; [done|]. destruct (forest_rows ls') as [|z0 zs] eqn:Hz; [done|].
    inversion Hlen1; subst. simpl in Hrows. injection Hrows as <- <-.
    apply grouped_app in HR as (R1 & R2 & -> & HR1%grouped_prefix & HR2%(grouped_fronts u vs (z0 :: zs))); [|done].
    assert (Hstarts : Forall (starts (u ++ v0)) R1) by (by eapply grouped_starts).
    destruct (IH ls' (u ++ v0) (fresh_frames v0.*2 ++ fs) K m pv z0 zs R1) as (m1 & pv1 & Hrun1 & Hm1); try done.
    { rewrite length_app. by replace (length v0) with (size c). }
    { rewrite !length_app, length_fresh_frames, length_fmap. lia. }
    { rewrite length_app. simpl in Hm. rewrite <- Nat.add_assoc. replace (length v0) with (size c).
      rewrite fmap_app, fresh_frames_app, <- app_assoc in Hm. done. }
    { by rewrite <- app_assoc. }
    destruct (Hc l u fs ((blocks_prob <$> ls') ++ K) m1 pv1 v0 vs R2) as (m2 & pv2 & Hrun2 & Hm2); try done.
    { rewrite length_app in Hm1. by replace (length v0) with (size c) in Hm1. }
    { eapply mrun_prefix; [exact Hstarts| |exact Hrun1]. etrans; [|exact Hpv].
      exists (z0.*1). by rewrite !fmap_app, <- !app_assoc. }
    exists m2, pv2. split; [|done]. by rewrite mrun_app, Hrun1.
Qed.

(** *** Blocks

    The frame of the head column: [Q] is the product of the complements of the
    closed blocks, [p] the probability of the head of the open block. *)

Definition head_frame (cs : list tree) (Q p : Qc) : Qc * Qc :=
  match cs with [] => (1 - Q * (1 - p), 0)%Qc | _ => (p, 1 - Q)%Qc end.

Definition block_state (cs : list tree) (Q p : Qc) (ls : list (list block)) (fs : list (Qc * Qc))
    (K : list Qc) : machine :=
  mk_machine (head_frame cs Q p :: fs) ((blocks_prob <$> ls) ++ K).

Lemma pop_product_app (l : list Qc) (p : Qc) (K : list Qc) :
  pop_product (length l) p (l ++ K) = Some ((p * qprod l)%Qc, K).
Proof.
  revert p. induction l as [|x l IH]; intros p; simpl; [by rewrite qprod_nil, Qcmult_1_r|].
  rewrite IH, qprod_cons. do 2 f_equal. ring.
Qed.

Lemma head_frame_nil (Q p : Qc) : head_frame [] Q p = ((1 - Q * (1 - p))%Qc, 0%Qc).
Proof. done. Qed.

Lemma forest_size_0 (cs : list tree) : (forest_size cs =? 0) = match cs with [] => true | _ => false end.
Proof. destruct cs as [|[cs'] cs]; done. Qed.

Lemma block_close (cs : list tree) (Q : Qc) (b : block) (fs : list (Qc * Qc)) (K : list Qc) :
  cols !! length fs = Some (forest_size cs, length cs) -> length (bsub b) = length cs ->
  close_top cols (block_state cs Q (bprob b) (bsub b) fs K)
  = Some (mk_machine fs ((1 - Q * (1 - block_prob b))%Qc :: K)).
Proof.
  intros Hc Hl. destruct b as [x p ls]. rewrite block_prob_eq. simpl in Hl |- *.
  unfold close_top, block_state. simpl. destruct (head_frame cs Q p) as [y t] eqn:Hf.
  rewrite Hc. simpl. rewrite forest_size_0. destruct cs as [|c cs].
  - destruct ls; [|done]. injection Hf as <- <-. simpl. rewrite qprod_nil. by rewrite Qcmult_1_r.
  - injection Hf as <- <-. rewrite <- Hl, <- (length_fmap blocks_prob), pop_product_app. simpl.
    do 3 f_equal. unfold indeEventConjunc. ring.
Qed.

Lemma block_touch (cs : list tree) (Q : Qc) (b : block) (p : Qc) (fs : list (Qc * Qc)) (K : list Qc)
    (us vs ss : list Qc) :
  cols !! length us = Some (forest_size cs, length cs) -> length (bsub b) = length cs ->
  length vs = forest_size cs ->
  touch cols (length us) (us ++ p :: vs ++ ss) (block_state cs Q (bprob b) (bsub b) fs K)
  = Some (mk_machine (fresh_frames vs ++ head_frame cs (Q * (1 - block_prob b)) p :: fs) K).
Proof.
  intros Hc Hl Hv. destruct b as [x q ls]. rewrite block_prob_eq. simpl in Hl |- *.
  unfold touch, block_state. simpl. destruct (head_frame cs Q q) as [y t] eqn:Hf.
  rewrite Hc. simpl. rewrite list_lookup_middle by done. simpl. rewrite forest_size_0.
  destruct cs as [|c cs].
  - destruct ls; [|done]. destruct vs; [|done]. injection Hf as <- <-. simpl. rewrite qprod_nil.
    do 4 f_equal. unfold indeEventConjunc. ring.
  - injection Hf as <- <-. rewrite <- Hl, <- (length_fmap blocks_prob), pop_product_app. simpl.
    replace (drop (S (length us)) (us ++ p :: vs ++ ss)) with (vs ++ ss).
    2: { rewrite <- Nat.add_1_r, <- drop_drop, drop_app_length. done. }
    rewrite take_app_length' by done. do 4 f_equal. unfold indeEventConjunc. f_equal. ring.
Qed.

(** One block whose first tuple has been taken up. *)
Lemma block_scan (cs : list tree) (b : block) (u : arow) (Q : Qc) (fs : list (Qc * Qc)) (K : list Qc)
    (m : machine) (pv : list Z) (v0 : arow) (vs R : list arow) :
  forest_scan cs -> Forall2 shaped cs (bsub b) ->
  cols_at (length u) ((forest_size cs, length cs) :: forest_cols cs) -> length fs = length u ->
  forest_rows (bsub b) = v0 :: vs ->
  close_to cols (length u + S (forest_size cs)) m
    = Some (mk_machine (fresh_frames v0.*2 ++ head_frame cs Q (bprob b) :: fs) K) ->
  (u ++ (bvar b, bprob b) :: v0).*1 `prefix_of` pv -> grouped u (cons (bvar b, bprob b) <$> vs) R ->
  exists m' pv', mrun cols R (pv, m) = Some (pv', m') /\
    close_to cols (S (length u)) m' = Some (block_state cs Q (bprob b) (bsub b) fs K) /\
    (u.*1 ++ [bvar b]) `prefix_of` pv'.
Proof.
  intros Hcs Hb Hcols Hfs Hrows Hm Hpv HR.
  apply (grouped_prefix u [(bvar b, bprob b)]) in HR.
  assert (Hstarts : Forall (starts (u ++ [(bvar b, bprob b)])) R) by (by eapply grouped_starts).
  destruct (cols_at_app (length u) [(forest_size cs, length cs)] (forest_cols cs) Hcols) as [_ Hcols2].
  assert (Hu1 : length (u ++ [(bvar b, bprob b)]) = S (length u)) by (rewrite length_app; simpl; lia).
  destruct (Hcs (bsub b) (u ++ [(bvar b, bprob b)]) (head_frame cs Q (bprob b) :: fs) K m pv v0 vs R)
    as (m' & pv' & Hrun & Hm'); try done.
  { rewrite Hu1. by rewrite Nat.add_1_r in Hcols2. }
  { rewrite Hu1. simpl. by rewrite Hfs. }
  { rewrite Hu1. by rewrite Nat.add_succ_comm. }
  { by rewrite <- app_assoc. }
  rewrite Hu1 in Hm'. exists m', pv'. split_and!; [done..|].
  replace (u.*1 ++ [bvar b]) with (u ++ [(bvar b, bprob b)]).*1 by (by rewrite fmap_app).
  eapply mrun_prefix; [exact Hstarts| |exact Hrun]. etrans; [|exact Hpv].
  exists (v0.*1). by rewrite !fmap_app, <- !app_assoc.
Qed.

(** The blocks behind an open one. *)
Lemma blocks_scan (cs : list tree) (u : arow) (fs : list (Qc * Qc)) (K : list Qc) (bs : list block) :
  forest_scan cs ->
  cols_at (length u) ((forest_size cs, length cs) :: forest_cols cs) -> length fs = length u ->
  forall b Q m pv R, NoDup (bvar b :: (bvar <$> bs)) ->
  length (bsub b) = length cs -> Forall (fun b => Forall2 shaped cs (bsub b)) bs ->
  close_to cols (S (length u)) m = Some (block_state cs Q (bprob b) (bsub b) fs K) ->
  (u.*1 ++ [bvar b]) `prefix_of` pv -> grouped u (rows_of bs) R ->
  exists m' pv', mrun cols R (pv, m) = Some (pv', m') /\
    close_to cols (length u) m' = Some (mk_machine fs
      ((1 - Q * (1 - block_prob b) * qprod ((fun b => 1 - block_prob b) <$> bs))%Qc :: K)).
Proof.
  intros Hcs Hcols Hfs.
  assert (Hc : cols !! length u = Some (forest_size cs, length cs)).
  { specialize (Hcols 0 ltac:(simpl; lia)). by rewrite Nat.add_0_r in Hcols. }
  induction bs as [|b' bs IH]; intros b Q m pv R Hnd Hlb Hbs Hm Hpv HR.
  - inversion HR; subst. exists m, pv. split; [done|].
    rewrite (close_to_trans cols _ (S (length u))), Hm by lia. cbn [mbind option_bind].
    rewrite <- Hfs in Hc |- *.
    assert (Htop : close_to cols (length fs) (block_state cs Q (bprob b) (bsub b) fs K)
                   = close_top cols (block_state cs Q (bprob b) (bsub b) fs K)).
    { unfold block_state. destruct (head_frame cs Q (bprob b)). by rewrite close_to_top. }
    rewrite Htop, block_close by done.
    csimpl. rewrite qprod_nil. by rewrite Qcmult_1_r.
  - inversion Hbs as [|? ? Hb' Hbs']; subst.
    destruct (forest_rows_ok _ _ Hb') as [Hne Hlen].
    destruct (forest_rows (bsub b')) as [|v0 vs] eqn:Hv; [done|]. inversion Hlen; subst.
    unfold rows_of in HR. csimpl. apply grouped_app in HR as (R1 & R2 & -> & HR1 & HR2).
    assert (Hb'eq : b' = B (bvar b') (bprob b') (bsub b')) by (by destruct b').
    rewrite Hb'eq, block_rows_eq, Hv, fmap_cons in HR1.
    inversion HR1 as [|? ? g R1' Hg Hstarts HR1']; subst.
    destruct g as [|r g]; [done|]. inversion Hstarts as [|? ? [s Hs] Hstarts']; subst.
    set (x' := bvar b') in *. set (p' := bprob b') in *.
    assert (Hxx : x' <> bvar b) by (intros He; inversion Hnd as [|? ? Hn]; subst; apply Hn; csimpl; rewrite <- He; apply list_elem_of_here).
    assert (Hlm : length u < length (frames m)).
    { apply close_to_length in Hm. unfold block_state in Hm. simpl in Hm. lia. }
    set (m1 := mk_machine (fresh_frames v0.*2 ++ head_frame cs (Q * (1 - block_prob b)) p' :: fs) K).
    assert (Hlm1 : length (frames m1) = length u + S (forest_size cs)).
    { simpl. rewrite length_app, length_fresh_frames, length_fmap. simpl. lia. }
    assert (Hstep : mstep cols (u ++ (x', p') :: v0 ++ s) (pv, m) = Some ((u ++ (x', p') :: v0 ++ s).*1, m1)).
    { rewrite (mstep_change cols u x' (bvar b)) by done.
      rewrite (change_closed cols _ _ _ _ Hm). rewrite !fmap_app, !fmap_cons, !fmap_app. cbn [fst snd].
      replace (length u) with (length u.*2) in Hc |- * by (by rewrite length_fmap).
      by rewrite block_touch by (done || by rewrite length_fmap). }
    destruct (mrun_same cols (u ++ (x', p') :: v0) g (u ++ (x', p') :: v0 ++ s).*1 m1) as (pv1 & Hrun1 & Hpv1).
    { done. }
    { exists (s.*1). by rewrite !fmap_app, !fmap_cons, !fmap_app, <- !app_assoc. }
    { rewrite Hlm1, length_app. simpl. lia. }
    destruct (block_scan cs b' u (Q * (1 - block_prob b)) fs K m1 pv1 v0 vs R1')
      as (m2 & pv2 & Hrun2 & Hm2 & Hpv2); try done.
    { rewrite close_to_id; [done|]. by rewrite Hlm1. }
    destruct (IH b' (Q * (1 - block_prob b))%Qc m2 pv2 R2) as (m3 & pv3 & Hrun3 & Hm3); try done.
    { csimpl. by inversion Hnd. }
    { by eapply eq_sym, Forall2_length. }
    exists m3, pv3. split.
    + rewrite !mrun_app, <- (app_assoc u). unfold mrun in *. cbn [app for_list].
      rewrite Hstep. cbn [mbind option_bind]. rewrite Hrun1. cbn [mbind option_bind].
      by rewrite Hrun2.
    + rewrite Hm3. csimpl. rewrite qprod_cons. by rewrite Qcmult_assoc.
Qed.

Theorem tree_scans (t : tree) : tree_scan t.
Proof.
  induction t as [cs IH%forest_scan_intro] using tree_ind'.
  intros bs u fs K m pv w0 ws R (Hne & Hnd & Hbs)%shaped_unfold Hcols Hfs Hrows Hm Hpv HR.
  destruct bs as [|b bs]; [done|]. inversion Hbs as [|? ? Hb Hbs']; subst.
  unfold rows_of in Hrows. csimpl in Hrows. assert (Hbeq : b = B (bvar b) (bprob b) (bsub b)) by (by destruct b).
  rewrite Hbeq, block_rows_eq in Hrows.
  destruct (forest_rows_ok _ _ Hb) as [Hne' _].
  destruct (forest_rows (bsub b)) as [|v0 vs] eqn:Hv; [done|]. csimpl in Hrows. injection Hrows as <- <-.
  apply grouped_app in HR as (R1 & R2 & -> & HR1 & HR2).
  change ((bvar b, bprob b) :: v0).*2 with ([bprob b] ++ v0.*2) in Hm.
  destruct (block_scan cs b u 1%Qc fs K m pv v0 vs R1) as (m1 & pv1 & Hrun1 & Hm1 & Hpv1); try done.
  { rewrite (fresh_frames_app [bprob b] v0.*2) in Hm. rewrite <- app_assoc in Hm.
    replace (head_frame cs 1 (bprob b)) with (bprob b, 0%Qc) by (destruct cs; simpl; f_equal; ring).
    exact Hm. }
  destruct (blocks_scan cs u fs K bs IH Hcols Hfs b 1%Qc m1 pv1 R2) as (m2 & pv2 & Hrun2 & Hm2); try done.
  { by eapply eq_sym, Forall2_length. }
  exists m2, pv2. split; [by rewrite mrun_app, Hrun1|]. rewrite Hm2. unfold blocks_prob. csimpl.
  rewrite qprod_cons. do 3 f_equal. ring.
Qed.
End Scan.
