(* ===== verification/SproutRefine.v ===== *)
(** * SproutRefine: [processTuple] implements the machine

    The arrays [sum] and [tempSum] up to the cursor are the frames of the machine of
    [SproutScan]; behind the cursor [tempSum] is zero.  This relation is preserved by
    every tuple, and at the end of the group the result is the top of the closed
    machine. *)
From S2P Require Import Prelude.
From S2P Require Import Worlds.
From S2P Require Import Signature.
From S2P Require Import Sprout.
From S2P Require Import SproutScan.

(** ** Column descriptions *)

Definition cols_of (infos : list sigInfo) : list (nat * nat) :=
  (fun i => (domain i, varsToCombine i)) <$> infos.

(** Descendants lie inside the list, and the last one of a column is a leaf. *)
Definition wf_cols (cols : list (nat * nat)) : Prop :=
  forall i d v, cols !! i = Some (d, v) -> exists v', cols !! (i + d) = Some (0, v').

Lemma wf_cols_forest (cs : list tree) :
  Forall (fun c => wf_cols (tcols c)) cs -> wf_cols (forest_cols cs).
Proof.
  induction 1 as [|c cs Hc _ IH]; intros i d v Hi; [done|]. unfold forest_cols in *. csimpl.
  apply lookup_app_Some in Hi as [Hi|[Hlen Hi]].
  - destruct (Hc i d v Hi) as [v' Hv]. exists v'. by apply lookup_app_l_Some.
  - destruct (IH _ d v Hi) as [v' Hv]. exists v'. rewrite lookup_app_r by lia. by rewrite <- Hv; f_equal; lia.
Qed.

Lemma tcols_last (t : tree) : exists v, tcols t !! (size t - 1) = Some (0, v).
Proof.
  induction t as [cs IH] using tree_ind'. destruct cs as [|c cs]; [by exists 0|].
  revert IH. simpl. rewrite Nat.sub_0_r. generalize (S (length cs)). intros v.
  assert (Hgen : forall cs c, Forall (fun t => exists v, tcols t !! (size t - 1) = Some (0, v)) (c :: cs) ->
    exists v', mjoin (tcols <$> (c :: cs)) !! (size c + sum_list_with size cs - 1) = Some (0, v')).
  { clear. induction cs as [|c' cs IH]; intros c H; inversion H as [|? ? Hc Hcs]; subst; csimpl.
    - destruct Hc as [v Hv]. exists v. rewrite Nat.add_0_r, app_nil_r. done.
    - destruct (IH c' Hcs) as [v Hv]. exists v. pose proof (size_pos c'). pose proof (size_pos c).
      rewrite lookup_app_r by (rewrite length_tcols; lia). rewrite length_tcols.
      replace (size c + (size c' + sum_list_with size cs) - 1 - size c)
        with (size c' + sum_list_with size cs - 1) by lia. done. }
  intros IH. destruct (Hgen cs c IH) as [v' Hv]. exists v'.
  pose proof (size_pos c). destruct (size c + sum_list_with size cs) eqn:He; [lia|].
  simpl in *. by rewrite Nat.sub_0_r in Hv.
Qed.

Lemma wf_tcols (t : tree) : wf_cols (tcols t).
Proof.
  induction t as [cs IH] using tree_ind'. intros [|i] d v Hi.
  - pose proof (tcols_last (T cs)) as [v' Hv]. simpl in Hi. injection Hi as <- <-. exists v'.
    simpl in Hv |- *. by rewrite Nat.sub_0_r in Hv.
  - apply wf_cols_forest in IH. apply (IH i d v Hi).
Qed.

Lemma first_diff_spec (u v : list Z) :
  length u = length v ->
  (exists i x y, first_diff u v = Some i /\ u !! i = Some x /\ v !! i = Some y /\ x <> y /\
     forall j, j < i -> u !! j = v !! j)
  \/ (first_diff u v = None /\ u = v).
Proof.
  revert v. induction u as [|x u IH]; intros [|y v] H; try done; [by right|]. simpl.
  destruct (decide (x = y)) as [->|Hne].
  - injection H as H. destruct (IH v H) as [(i & x' & y' & Hd & Hx & Hy & Hxy & Hj)|[Hd ->]].
    + left. exists (S i), x', y'. rewrite Hd. split_and!; try done.
      intros [|j] Hlt; [done|]. apply Hj. lia.
    + right. by rewrite Hd.
  - left. exists 0, x, y. split_and!; try done. intros; lia.
Qed.

(** ** The relation *)

Section Refine.
Context (h : nat) (infos : list sigInfo).
(** The first [h] columns may be aggregated; no tuple changes them. *)
Hypothesis Htype : Forall (fun i => type i = NOTAGGREGATED) (drop h infos).
Hypothesis Hwf : wf_cols (cols_of infos).

Abbreviation cols := (cols_of infos).
Abbreviation n := (length infos).

Record static (s : stateData) : Prop := {
  st_vars : sd_vars s = infos;
  st_n : NoOfVars s = n }.

(** [k] columns are active. *)
Record core (k : nat) (s : stateData) (m : machine) : Prop := {
  co_static : static s;
  co_sum : length (sd_sum s) = n;
  co_temp : length (sd_tempSum s) = n;
  co_k : length (frames m) = k;
  co_frames : forall i x t, rev (frames m) !! i = Some (x, t) ->
    sd_sum s !! i = Some x /\ sd_tempSum s !! i = Some t;
  co_zero : forall i d v, cols !! i = Some (d, v) -> k <= i \/ d = 0 -> sd_tempSum s !! i = Some 0%Qc;
  co_ready : sd_readySumList s = ready m }.

Record sim (s : stateData) (pm : list Z * machine) : Prop := {
  si_core : core (S (sd_cursor s)) s pm.2;
  si_leaf : exists v, cols !! sd_cursor s = Some (0, v);
  si_counter : 0 < sd_counter s;
  si_calc : sd_calculating s = true;
  si_pre : sd_preTuple s = pm.1;
  si_len : length pm.1 = n }.

Lemma cols_lookup (i d v : nat) :
  cols !! i = Some (d, v) ->
  exists info, infos !! i = Some info /\ domain info = d /\ varsToCombine info = v.
Proof.
  unfold cols_of. rewrite list_lookup_fmap. destruct (infos !! i) as [info|] eqn:Hi; [|done].
  intros [= <- <-]. by exists info.
Qed.

Lemma plain_type (i : nat) (info : sigInfo) :
  h <= i -> infos !! i = Some info -> type info = NOTAGGREGATED.
Proof using Htype.
  intros Hh Hi. apply (Forall_lookup_1 _ _ (i - h) _ Htype). rewrite lookup_drop. by rewrite <- Hi; f_equal; lia.
Qed.

Lemma cols_is_Some (i : nat) : i < n -> exists d v, cols !! i = Some (d, v).
Proof.
  intros Hi. apply lookup_lt_is_Some in Hi as [info Hi]. unfold cols_of.
  rewrite list_lookup_fmap, Hi. simpl. eauto.
Qed.

Lemma cols_lt (i d v : nat) : cols !! i = Some (d, v) -> i < n.
Proof. intros H. apply lookup_lt_Some in H. unfold cols_of in H. by rewrite length_fmap in H. Qed.

(** *** Single operations *)

Lemma lookup_at_eq (s : stateData) (i : nat) (x : Z) (p : Qc) :
  static s -> h <= i < n -> sd_curTuple s !! i = Some x -> sd_curTupleProb s !! i = Some p ->
  lookup_at s i = Some (p, s).
Proof using Htype.
  intros [Hv Hn] [Hh Hi] Hx Hp. unfold lookup_at. apply lookup_lt_is_Some in Hi as [info Hi].
  rewrite Hv, Hi, Hx, Hp. cbn [mbind option_bind]. unfold lookup.
  rewrite (plain_type i info Hh Hi). cbn [mbind option_bind].
  rewrite list_insert_id by done. destruct s. simpl in *. by subst.
Qed.

Lemma store_eq {A} (l : list A) (i : nat) (x : A) : i < length l -> store l i x = Some (<[i := x]> l).
Proof. intros H. unfold store. by apply Nat.ltb_lt in H as ->. Qed.

Lemma reset_sum_eq (s : stateData) (i : nat) (x : Z) (p : Qc) :
  static s -> h <= i < n -> length (sd_sum s) = n ->
  sd_curTuple s !! i = Some x -> sd_curTupleProb s !! i = Some p ->
  reset_sum i s = Some (set_sums s (<[i := p]> (sd_sum s)) (sd_tempSum s)).
Proof using Htype.
  intros Hs Hi Hlen Hx Hp. unfold reset_sum. rewrite (lookup_at_eq s i x p) by done.
  cbn [mbind option_bind]. rewrite store_eq by lia. done.
Qed.

Lemma accumulate_sum_eq (s : stateData) (i : nat) (x : Z) (p y : Qc) :
  static s -> h <= i -> sd_sum s !! i = Some y -> length (sd_sum s) = n ->
  sd_curTuple s !! i = Some x -> sd_curTupleProb s !! i = Some p ->
  accumulate_sum i s = Some (set_sums s (<[i := indeEventConjunc y p]> (sd_sum s)) (sd_tempSum s)).
Proof using Htype.
  intros Hs Hh Hy Hlen Hx Hp. pose proof (lookup_lt_Some _ _ _ Hy) as Hi.
  unfold accumulate_sum. rewrite (lookup_at_eq s i x p) by (done || lia).
  cbn [mbind option_bind]. rewrite Hy. cbn [mbind option_bind]. by rewrite store_eq by lia.
Qed.

(** [sum] is loaded with the current probabilities. *)
Definition overlay (ps l : list Qc) (i c : nat) : list Qc :=
  take i l ++ take c (drop i ps) ++ drop (i + c) l.

Lemma overlay_lookup (ps l : list Qc) (i c k : nat) :
  length ps = length l -> i + c <= length l ->
  overlay ps l i c !! k = if decide (i <= k < i + c) then ps !! k else l !! k.
Proof.
  intros Hlen Hc. unfold overlay. destruct (decide (k < i)) as [Hk|Hk].
  - rewrite decide_False by lia. rewrite lookup_app_l by (rewrite length_take; lia).
    by rewrite lookup_take_lt.
  - rewrite lookup_app_r by (rewrite length_take; lia). rewrite length_take_le by lia.
    destruct (decide (k < i + c)) as [Hk2|Hk2].
    + rewrite decide_True by lia. rewrite lookup_app_l by (rewrite length_take, length_drop; lia).
      rewrite lookup_take_lt by lia. rewrite lookup_drop. f_equal. lia.
    + rewrite decide_False by lia. rewrite lookup_app_r by (rewrite length_take, length_drop; lia).
      rewrite length_take_le by (rewrite length_drop; lia). rewrite lookup_drop. f_equal. lia.
Qed.

Lemma overlay_length (ps l : list Qc) (i c : nat) :
  length ps = length l -> i + c <= length l -> length (overlay ps l i c) = length l.
Proof.
  intros H1 H2. unfold overlay. rewrite !length_app, !length_take, !length_drop. lia.
Qed.

Lemma overlay_0 (ps l : list Qc) (i : nat) : overlay ps l i 0 = l.
Proof. unfold overlay. rewrite Nat.add_0_r. apply take_drop. Qed.

Lemma reset_loop (s : stateData) (i c : nat) :
  static s -> h <= i -> i + c <= n -> length (sd_sum s) = n ->
  length (sd_curTuple s) = n -> length (sd_curTupleProb s) = n ->
  for_list (seq i c) reset_sum s =
    Some (set_sums s (overlay (sd_curTupleProb s) (sd_sum s) i c) (sd_tempSum s)).
Proof using Htype.
  intros Hs Hh Hc Hlen Hv Hp. induction c as [|c IH].
  - simpl. rewrite overlay_0. by destruct s.
  - rewrite seq_S, for_list_app, IH by lia. cbn [mbind option_bind for_list].
    destruct (lookup_lt_is_Some_2 (sd_curTuple s) (i + c)) as [x Hx]; [lia|].
    destruct (lookup_lt_is_Some_2 (sd_curTupleProb s) (i + c)) as [p Hpp]; [lia|].
    rewrite (reset_sum_eq _ (i + c) x p).
    2: { by destruct Hs. }
    2: lia.
    2: { cbn [set_sums sd_sum]. rewrite overlay_length; lia. }
    2: done.
    2: done.
    cbn [mbind option_bind set_sums sd_sum sd_tempSum]. do 2 f_equal.
    apply list_eq. intros k. rewrite list_lookup_insert. rewrite !overlay_lookup, overlay_length by lia.
    repeat case_decide; try lia; try done. naive_solver.
Qed.

Lemma close_block_eq (s : stateData) (i d v : nat) (x t product : Qc) (r : list Qc) :
  static s -> length (sd_tempSum s) = n ->
  cols !! i = Some (d, v) -> sd_sum s !! i = Some x -> sd_tempSum s !! i = Some t ->
  pop_product v x (sd_readySumList s) = Some (product, r) ->
  close_block i s =
    Some (set_ready (set_sums s (sd_sum s) (<[i := indeEventConjunc t product]> (sd_tempSum s))) r).
Proof.
  intros [Hv Hn] Hlen Hc Hx Ht Hp. apply cols_lookup in Hc as (info & Hi & Hd & Hvc).
  pose proof (lookup_lt_Some _ _ _ Ht). unfold close_block. rewrite Hv, Hi, Hx, Ht. cbn [mbind option_bind].
  unfold getProduct. rewrite Hvc, Hp. cbn [mbind option_bind]. by rewrite store_eq by lia.
Qed.

(** *** Closing columns *)

(** Everything but the sums, [tempSum] and the ready list. *)
Definition keeps (s s' : stateData) : Prop :=
  sd_cursor s' = sd_cursor s /\ sd_counter s' = sd_counter s /\ sd_calculating s' = sd_calculating s /\
  sd_curTuple s' = sd_curTuple s /\ sd_curTupleProb s' = sd_curTupleProb s /\
  sd_preTuple s' = sd_preTuple s.

Lemma core_top (j : nat) (s : stateData) (x t : Qc) (fs : list (Qc * Qc)) (r : list Qc) :
  core (S j) s (mk_machine ((x, t) :: fs) r) ->
  length fs = j /\ sd_sum s !! j = Some x /\ sd_tempSum s !! j = Some t /\ j < n.
Proof.
  intros [_ Hs Ht Hk Hf _ _]. simpl in *. assert (Hj : length fs = j) by lia.
  destruct (Hf j x t) as [H1 H2].
  { rewrite lookup_app_r; rewrite length_rev; [|lia]. by rewrite Hj, Nat.sub_diag. }
  pose proof (lookup_lt_Some _ _ _ H1). split_and!; (done || lia).
Qed.

(** The top frame is dropped. *)
Lemma core_pop (j : nat) (s : stateData) (x t : Qc) (fs : list (Qc * Qc)) (r r' : list Qc) (temp' : list Qc) :
  core (S j) s (mk_machine ((x, t) :: fs) r) ->
  length temp' = n -> temp' !! j = Some 0%Qc ->
  (forall i, i <> j -> temp' !! i = sd_tempSum s !! i) ->
  core j (set_ready (set_sums s (sd_sum s) temp') r') (mk_machine fs r').
Proof.
  intros Hco Hlen Hj Hother. pose proof (core_top _ _ _ _ _ _ Hco) as (Hfs & _ & _ & _).
  destruct Hco as [Hst Hs Ht Hk Hf Hz Hr]. constructor; simpl in *; try done.
  - by destruct Hst.
  - intros i y u Hi. pose proof (lookup_lt_Some _ _ _ Hi) as Hlt. rewrite length_rev in Hlt.
    rewrite Hother by lia. apply Hf. by apply lookup_app_l_Some.
  - intros i d v Hc Hid. destruct (decide (i = j)) as [->|Hne]; [done|].
    rewrite Hother by done. apply (Hz i d v Hc). destruct Hid; [left; lia|by right].
Qed.

Lemma finish_column_core (j : nat) (s : stateData) (m m' : machine) :
  core (S j) s m -> close_top cols m = Some m' ->
  exists s', finish_column j s = Some s' /\ core j s' m' /\ keeps s s'.
Proof.
  intros Hco Hm. unfold close_top in Hm. destruct m as [[|[x t] fs] r]; [done|]. simpl in Hm.
  destruct (core_top _ _ _ _ _ _ Hco) as (Hfs & Hx & Ht & Hj). rewrite Hfs in Hm.
  destruct (cols !! j) as [[d v]|] eqn:Hc; [|done]. cbn [mbind option_bind] in Hm.
  destruct (cols_lookup _ _ _ Hc) as (info & Hi & Hd & Hv).
  pose proof (co_static _ _ _ Hco) as Hst. pose proof (co_ready _ _ _ Hco) as Hr. simpl in Hr.
  unfold finish_column. rewrite (st_vars _ Hst), Hi. cbn [mbind option_bind]. rewrite Hd.
  destruct (d =? 0) eqn:Hd0.
  - apply Nat.eqb_eq in Hd0. injection Hm as <-. rewrite Hx. cbn [mbind option_bind].
    assert (Ht0 : sd_tempSum s !! j = Some 0%Qc) by (apply (co_zero _ _ _ Hco j d v Hc); by right).
    eexists. split; [done|]. split; [|done]. unfold insertIntoReadySumList. rewrite Hr.
    replace s with (set_sums s (sd_sum s) (sd_tempSum s)) at 1 by (by destruct s).
    eapply core_pop; [done|apply Hco|done|done].
  - destruct (pop_product v x r) as [[product r']|] eqn:Hp; [|done]. cbn [mbind option_bind] in Hm.
    injection Hm as <-. rewrite (close_block_eq s j d v x t product r') by (done || apply Hco || by rewrite Hr).
    cbn [mbind option_bind set_ready set_sums sd_sum sd_tempSum sd_readySumList].
    rewrite list_lookup_insert_eq by (rewrite (co_temp _ _ _ Hco); lia). cbn [mbind option_bind].
    rewrite store_eq by (rewrite length_insert, (co_temp _ _ _ Hco); lia). cbn [mbind option_bind].
    eexists. split; [done|]. split; [|done].
    set (temp' := <[j:=0%Qc]> (<[j:=indeEventConjunc t product]> (sd_tempSum s)) : list Qc).
    apply (core_pop j s x t fs r _ temp'); [done|..]; unfold temp'.
    + rewrite !length_insert. apply Hco.
    + apply list_lookup_insert_eq. rewrite length_insert, (co_temp _ _ _ Hco). lia.
    + intros i Hne. by rewrite !list_lookup_insert_ne by done.
Qed.

Lemma close_list_core (i c : nat) (s : stateData) (m m' : machine) :
  core (i + c) s m -> close_n cols c m = Some m' ->
  exists s', for_list (rev (seq i c)) finish_column s = Some s' /\ core i s' m' /\ keeps s s'.
Proof.
  revert s m. induction c as [|c IH]; intros s m Hco Hm.
  - injection Hm as <-. exists s. rewrite Nat.add_0_r in Hco. by split_and!.
  - cbn [close_n] in Hm. destruct (close_top cols m) as [m1|] eqn:Hm1; [|done]. simpl in Hm.
    rewrite Nat.add_succ_r in Hco.
    destruct (finish_column_core _ _ _ _ Hco Hm1) as (s1 & Hs1 & Hco1 & Hk1).
    destruct (IH s1 m1 Hco1 Hm) as (s2 & Hs2 & Hco2 & Hk2).
    exists s2. rewrite seq_S, rev_app_distr. cbn [rev app for_list]. rewrite Hs1. cbn [mbind option_bind].
    split_and!; try done. unfold keeps in *. naive_solver congruence.
Qed.

Lemma close_columns_core (i : nat) (s : stateData) (m m' : machine) :
  core (S (sd_cursor s)) s m -> i <= sd_cursor s -> close_to cols (S i) m = Some m' ->
  exists s', close_columns i s = Some s' /\ core (S i) s' m' /\ keeps s s'.
Proof.
  intros Hco Hi Hm. unfold close_columns. apply (close_list_core (S i) _ s m).
  - by replace (S i + (sd_cursor s - i)) with (S (sd_cursor s)) by lia.
  - unfold close_to in Hm. rewrite (co_k _ _ _ Hco) in Hm. exact Hm.
Qed.

(** *** The changed column *)

(** Accumulating in a leaf column. *)
Lemma accumulate_core (i : nat) (s : stateData) (x t p : Qc) (y : Z) (fs : list (Qc * Qc)) (r : list Qc) :
  core (S i) s (mk_machine ((x, t) :: fs) r) -> h <= i ->
  sd_curTuple s !! i = Some y -> sd_curTupleProb s !! i = Some p ->
  exists s', accumulate_sum i s = Some s' /\
    core (S i) s' (mk_machine ((indeEventConjunc x p, t) :: fs) r) /\ keeps s s'.
Proof using Htype.
  intros Hco Hh Hy Hp. destruct (core_top _ _ _ _ _ _ Hco) as (Hfs & Hx & Ht & Hi).
  destruct Hco as [Hst Hs Hte Hk Hf Hz Hr]. simpl in *.
  rewrite (accumulate_sum_eq s i y p x) by done. eexists. split; [done|]. split; [|done].
  constructor; simpl; try done.
  - by destruct Hst.
  - by rewrite length_insert.
  - intros j z u Hj. apply lookup_app_Some in Hj as [Hj|[Hlen Hj]].
    + pose proof (lookup_lt_Some _ _ _ Hj) as Hlt. rewrite length_rev in Hlt.
      rewrite list_lookup_insert_ne by lia. apply Hf. by apply lookup_app_l_Some.
    + rewrite length_rev in Hlen, Hj. apply list_lookup_singleton_Some in Hj as [Hj [= <- <-]].
      replace j with i by lia. split; [|done]. apply list_lookup_insert_eq. lia.
Qed.

(** Opening the next block: the columns [i .. i+d] are loaded. *)
Lemma open_core (i d v : nat) (s : stateData) (t t' : Qc) (x : Qc) (fs : list (Qc * Qc)) (r r' : list Qc) :
  core (S i) s (mk_machine ((x, t) :: fs) r) -> cols !! i = Some (d, v) -> d <> 0 ->
  length (sd_curTuple s) = n -> length (sd_curTupleProb s) = n ->
  forall p, sd_curTupleProb s !! i = Some p ->
  core (S (i + d))
    (set_sums (set_ready (set_sums s (sd_sum s) (<[i := t']> (sd_tempSum s))) r')
       (overlay (sd_curTupleProb s) (sd_sum s) i (S d)) (<[i := t']> (sd_tempSum s)))
    (mk_machine (fresh_frames (take d (drop (S i) (sd_curTupleProb s))) ++ (p, t') :: fs) r').
Proof using Hwf.
  intros Hco Hc Hd Hlv Hlp p Hp. destruct (core_top _ _ _ _ _ _ Hco) as (Hfs & Hx & Ht & Hi).
  destruct (Hwf i d v Hc) as [v' Hv']. apply cols_lt in Hv'.
  destruct Hco as [Hst Hs Hte Hk Hf Hz Hr]. simpl in *.
  constructor; simpl; try done.
  - by destruct Hst.
  - rewrite overlay_length; lia.
  - by rewrite length_insert.
  - rewrite length_app, length_fresh_frames, length_take, length_drop. simpl. lia.
  - intros j z u Hj. rewrite overlay_lookup by lia. unfold fresh_frames in Hj.
    rewrite rev_app_distr, rev_involutive in Hj. simpl in Hj. rewrite <- app_assoc in Hj.
    apply lookup_app_Some in Hj as [Hj|[Hlen Hj]].
    + pose proof (lookup_lt_Some _ _ _ Hj) as Hlt. rewrite length_rev in Hlt.
      rewrite decide_False by lia. rewrite list_lookup_insert_ne by lia. apply Hf. by apply lookup_app_l_Some.
    + rewrite length_rev in Hlen, Hj. destruct (j - length fs) as [|k] eqn:Hk2; simpl in Hj.
      * injection Hj as <- <-. replace j with i by lia. rewrite decide_True by lia. split; [done|].
        apply list_lookup_insert_eq. lia.
      * rewrite list_lookup_fmap in Hj. destruct (take d _ !! k) as [q|] eqn:Hq; [|done].
        simpl in Hj. injection Hj as <- <-. apply lookup_take_Some in Hq as [Hq Hkd].
        rewrite lookup_drop in Hq. rewrite decide_True by lia. split; [by rewrite <- Hq; f_equal; lia|].
        rewrite list_lookup_insert_ne by lia.
        destruct (cols_is_Some j) as (d' & v'' & Hc'); [lia|]. apply (Hz j d' v'' Hc'). left. lia.
  - intros j d' v'' Hc' Hj. rewrite list_lookup_insert_ne.
    + apply (Hz j d' v'' Hc'). destruct Hj; [left; lia|by right].
    + intros ->. rewrite Hc in Hc'. injection Hc' as <- <-. destruct Hj; lia.
Qed.

(** *** One tuple *)

Lemma core_save (k c : nat) (s : stateData) (m : machine) :
  core k s m -> core k (save_tuple (set_cursor s c)) m.
Proof. intros [[H1 H2] Hs Ht Hk Hf Hz Hr]. by constructor. Qed.

Lemma finish_sim (i : nat) (s : stateData) (m m' : machine) (ps : list Qc) :
  core (S (sd_cursor s)) s m -> sd_cursor s < n -> h <= i < sd_cursor s ->
  0 < sd_counter s -> sd_calculating s = true ->
  length (sd_curTuple s) = n -> sd_curTupleProb s = ps -> length ps = n ->
  change cols i ps m = Some m' ->
  exists s', finish false i s = Some (s', None) /\ sim s' (sd_curTuple s, m').
Proof using Htype Hwf.
  intros Hco Hcur [Hh Hi] Hcnt Hcalc Hlv Hps Hlp Hch. unfold change in Hch.
  destruct (close_to cols (S i) m) as [m1|] eqn:Hm1; [|done]. cbn [mbind option_bind] in Hch.
  destruct (close_columns_core i s m m1 Hco ltac:(lia) Hm1) as (s1 & Hs1 & Hco1 & Hk).
  unfold keeps in Hk. destruct Hk as (_ & Hkc & Hkl & Hkv & Hkp & _).
  destruct m1 as [[|[x t] fs] r]; [done|]. unfold touch in Hch. simpl in Hch.
  destruct (core_top _ _ _ _ _ _ Hco1) as (Hfs & Hx & Ht & Hin).
  destruct (cols !! i) as [[d v]|] eqn:Hc; [|done]. destruct (ps !! i) as [p|] eqn:Hp; [|done].
  cbn [mbind option_bind] in Hch. unfold finish. rewrite Hs1. cbn [mbind option_bind].
  destruct (cols_lookup _ _ _ Hc) as (info & Hinfo & Hd & Hv).
  pose proof (co_static _ _ _ Hco1) as Hst1. rewrite (st_vars _ Hst1), (st_n _ Hst1), Hinfo.
  cbn [mbind option_bind]. rewrite Hd. replace (n =? 1) with false by (symmetry; apply Nat.eqb_neq; lia).
  rewrite orb_false_r. destruct (lookup_lt_is_Some_2 (sd_curTuple s) i) as [y Hy]; [lia|].
  destruct (Nat.eq_dec d 0) as [->|Hd0].
  - simpl in Hch |- *. injection Hch as <-.
    destruct (accumulate_core i s1 x t p y fs r Hco1 Hh) as (s2 & Hs2 & Hco2 & Hk2); [by rewrite Hkv|by rewrite Hkp, Hps|].
    rewrite Hs2. cbn [mbind option_bind]. eexists. split; [done|].
    unfold keeps in Hk2. destruct Hk2 as (_ & Hkc2 & Hkl2 & Hkv2 & _).
    constructor; cbn [save_tuple set_cursor sd_cursor sd_counter sd_calculating sd_preTuple sd_curTuple fst snd].
    + by apply core_save.
    + by exists v.
    + by rewrite Hkc2, Hkc.
    + by rewrite Hkl2, Hkl.
    + by rewrite Hkv2, Hkv.
    + done.
  - apply Nat.eqb_neq in Hd0 as Hd1. rewrite Hd1 in Hch.
    destruct (pop_product v x r) as [[product r']|] eqn:Hpr; [|done]. cbn [mbind option_bind] in Hch.
    injection Hch as <-. replace (0 <? d) with true by (symmetry; apply Nat.ltb_lt; lia).
    rewrite (close_block_eq s1 i d v x t product r');
      [|done|apply Hco1|done|done|done|by rewrite (co_ready _ _ _ Hco1)].
    cbn [mbind option_bind]. destruct (Hwf i d v Hc) as [v' Hv']. pose proof (cols_lt _ _ _ Hv') as Hid.
    cbn [set_cursor set_ready set_sums sd_calculating]. rewrite Hkl, Hcalc.
    rewrite reset_loop; cbn [set_cursor set_ready set_sums sd_sum sd_curTuple sd_curTupleProb];
      [|by destruct Hst1|lia|lia|apply Hco1|by rewrite Hkv|by rewrite Hkp, Hps].
    cbn [mbind option_bind]. eexists. split; [done|].
    constructor; cbn [save_tuple set_cursor set_sums set_ready sd_cursor sd_counter sd_calculating sd_preTuple sd_curTuple fst snd].
    + pose proof (open_core i d v s1 t (indeEventConjunc t product) x fs r r' Hco1 Hc Hd0
        ltac:(by rewrite Hkv) ltac:(by rewrite Hkp, Hps) p ltac:(by rewrite Hkp, Hps)) as Ho.
      rewrite Hkp, Hps in Ho |- *. apply (core_save _ (i + d)) in Ho. exact Ho.
    + by exists v'.
    + by rewrite Hkc.
    + by rewrite Hkl.
    + done.
    + done.
Qed.

(** The column loop finds the first difference. *)
Lemma search_changed (s : stateData) (pre cur : list Z) :
  static s -> sd_curTuple s = cur -> sd_preTuple s = pre -> length pre = n -> length cur = n ->
  take h cur = take h pre -> sd_cursor s < n ->
  search_up (changed s) (S (sd_cursor s)) 0 =
    Some (first_diff (take (S (sd_cursor s)) pre) (take (S (sd_cursor s)) cur)).
Proof using Htype.
  intros Hst Hv Hp Hlp Hlc Hsame Hcur. set (c := S (sd_cursor s)).
  set (q := fun i => negb (bool_decide (cur !! i = pre !! i))).
  assert (Hq : forall k, 0 <= k < 0 + c -> changed s k = Some (q k)).
  { intros k Hk. destruct (lookup_lt_is_Some_2 cur k) as [x Hx]; [lia|].
    destruct (lookup_lt_is_Some_2 pre k) as [y Hy]; [lia|].
    destruct (lookup_lt_is_Some_2 infos k) as [info Hi]; [lia|].
    unfold changed, q. rewrite Hv, Hp, Hx, Hy. cbn [mbind option_bind].
    destruct (decide (h <= k)) as [Hh|Hh].
    - rewrite (st_vars _ Hst), Hi. cbn [mbind option_bind]. unfold isAValidVar.
      rewrite (plain_type k info Hh Hi). repeat case_bool_decide; naive_solver.
    - assert (Hxy : take h cur !! k = take h pre !! k) by (by rewrite Hsame).
      rewrite !lookup_take_lt in Hxy by lia. rewrite Hx, Hy in Hxy. injection Hxy as ->.
      by rewrite !bool_decide_eq_true_2 by done. }
  assert (Hl : length (take c pre) = length (take c cur)) by (rewrite !length_take; lia).
  destruct (first_diff_spec _ _ Hl) as [(i & x & y & -> & Hx & Hy & Hxy & Hj)|[-> He]];
    destruct (search_up_spec (changed s) q c 0 Hq) as [(k & -> & Hk & Hqk & Hlt)|[-> Hall]].
  - do 2 f_equal. apply lookup_take_Some in Hx as [Hx Hic], Hy as [Hy _].
    unfold q in Hqk. apply negb_true_iff, bool_decide_eq_false in Hqk.
    destruct (lt_eq_lt_dec k i) as [[Hki|]|Hki]; [|done|].
    + specialize (Hj k Hki). rewrite !lookup_take_lt in Hj by lia. congruence.
    + specialize (Hlt i ltac:(lia)). unfold q in Hlt. apply negb_false_iff, bool_decide_eq_true in Hlt. congruence.
  - apply lookup_take_Some in Hx as [Hx Hic], Hy as [Hy _].
    specialize (Hall i ltac:(lia)). unfold q in Hall. apply negb_false_iff, bool_decide_eq_true in Hall. congruence.
  - unfold q in Hqk. apply negb_true_iff, bool_decide_eq_false in Hqk. destruct Hqk.
    assert (Hk2 : take c pre !! k = take c cur !! k) by (by rewrite He).
    rewrite !lookup_take_lt in Hk2 by lia. done.
  - done.
Qed.

(** The columns up to the cursor, whatever happens to column 0. *)
Lemma update_sim (s : stateData) (pre : list Z) (m m' : machine) (r : arow) :
  sim s (pre, m) -> length r = n -> take h r.*1 = take h pre -> sd_curTuple s = r.*1 -> sd_curTupleProb s = r.*2 ->
  forall pv', mstep cols r (pre, m) = Some (pv', m') ->
  exists s', update_columns s = Some (s', None) /\ sim s' (pv', m').
Proof using Htype Hwf.
  intros [Hco [vl Hleaf] Hcnt Hcalc Hpre Hlen] Hlr Hsame Hcv Hcp pv' Hst. simpl in *.
  pose proof (cols_lt _ _ _ Hleaf) as Hcn. unfold mstep in Hst. rewrite (co_k _ _ _ Hco) in Hst.
  unfold update_columns.
  rewrite (search_changed s pre r.*1) by (done || apply Hco || by rewrite ?length_fmap).
  cbn [mbind option_bind].
  destruct (first_diff _ _) as [i|] eqn:Hd.
  - destruct (change cols i r.*2 m) as [m1|] eqn:Hch; [|done]. injection Hst as <- <-.
    assert (Hi : h <= i < S (sd_cursor s)).
    { destruct (first_diff_spec (take (S (sd_cursor s)) pre) (take (S (sd_cursor s)) r.*1))
        as [(k & x & y & Hk & Hx & Hy & Hxy & _)|[Hk _]]; [rewrite !length_take, length_fmap; lia| |congruence].
      apply lookup_take_Some in Hx as [Hx ?], Hy as [Hy _]. assert (k = i) as -> by congruence. split; [|lia].
      destruct (decide (h <= i)) as [|Hh]; [done|]. exfalso. apply Hxy.
      assert (He : take h r.*1 !! i = take h pre !! i) by (by rewrite Hsame).
      rewrite !lookup_take_lt in He by lia. congruence. }
    destruct (Nat.eqb_spec i (sd_cursor s)) as [->|Hne].
    + unfold change in Hch. rewrite close_to_id in Hch by (rewrite (co_k _ _ _ Hco); lia).
      cbn [mbind option_bind] in Hch. unfold touch in Hch. destruct m as [[|[x t] fs] rd]; [done|]. simpl in Hch.
      rewrite Hleaf in Hch. cbn [mbind option_bind] in Hch.
      destruct (r.*2 !! sd_cursor s) as [p|] eqn:Hp; [|done]. simpl in Hch. injection Hch as <-.
      destruct (lookup_lt_is_Some_2 r.*1 (sd_cursor s)) as [y Hy]; [by rewrite length_fmap, Hlr|].
      destruct (accumulate_core (sd_cursor s) s x t p y fs rd Hco ltac:(lia)) as (s2 & -> & Hco2 & Hk2);
        [by rewrite Hcv|by rewrite Hcp|].
      cbn [mbind option_bind]. eexists. split; [done|].
      unfold keeps in Hk2. destruct Hk2 as (Hkk & Hkc & Hkl & Hkv & _).
      constructor; cbn [save_tuple sd_cursor sd_counter sd_calculating sd_preTuple fst snd].
      * rewrite Hkk. apply (core_save _ (sd_cursor s2)) in Hco2. by destruct s2.
      * rewrite Hkk. by exists vl.
      * by rewrite Hkc.
      * by rewrite Hkl.
      * by rewrite Hkv, Hcv.
      * by rewrite length_fmap.
    + destruct (finish_sim i s m m1 r.*2) as (s' & Hs' & Hsim); try done; try lia.
      { by rewrite Hcv, length_fmap. }
      { by rewrite length_fmap. }
      exists s'. by rewrite <- Hcv.
  - injection Hst as <- <-. eexists. split; [done|].
    constructor; cbn [save_tuple sd_cursor sd_counter sd_calculating sd_preTuple fst snd]; try done.
    + apply (core_save _ (sd_cursor s)) in Hco. by destruct s.
    + by exists vl.
    + by rewrite length_fmap.
Qed.

(** The simulation step. *)
Theorem process_sim (s : stateData) (pre pre' : list Z) (m m' : machine) (r : arow) :
  sim s (pre, m) -> length r = n -> take h r.*1 = take h pre -> mstep cols r (pre, m) = Some (pre', m') ->
  exists s', processTuple false (set_cur s r.*1 r.*2) = Some (s', None) /\ sim s' (pre', m').
Proof using Htype Hwf.
  intros Hsim Hlr Hsame Hst. pose proof Hsim as [Hco [vl Hleaf] Hcnt Hcalc Hpre Hlen]. simpl in *.
  pose proof (cols_lt _ _ _ Hleaf) as Hcn. unfold processTuple.
  cbn [set_counter set_cur sd_counter sd_curTuple sd_preTuple sd_vars sd_calculating].
  destruct (lookup_lt_is_Some_2 r.*1 0) as [x Hx]; [rewrite length_fmap; lia|].
  destruct (lookup_lt_is_Some_2 pre 0) as [y Hy]; [lia|].
  destruct (lookup_lt_is_Some_2 infos 0) as [info Hi]; [lia|].
  rewrite Hpre, Hx, Hy, Hcalc. cbn [mbind option_bind].
  rewrite (st_vars _ (co_static _ _ _ Hco)), Hi. cbn [mbind option_bind].
  destruct (update_sim (set_counter (set_cur s r.*1 r.*2) (S (sd_counter s))) pre m m' r) with (pv' := pre')
    as (s' & Hu & Hs'); try done.
  { destruct Hco as [[H1 H2] H3 H4 H5 H6 H7 H8]. constructor; simpl; [by constructor|by exists vl|lia|done..]. }
  exists s'. split; [|done].
  unfold set_counter, set_cur in Hu |- *. simpl in Hu |- *.
  destruct (Nat.eqb_spec (sd_counter s) 0); [lia|].
  destruct (bool_decide_reflect (x = y)) as [_|Hxy]; [done|].
  destruct (decide (h = 0)) as [Hh|Hh].
  - unfold isAValidVar. by rewrite (plain_type 0 info ltac:(lia) Hi).
  - exfalso. apply Hxy. destruct h as [|h']; [done|].
    destruct (r.*1) as [|x' xs]; [done|]. destruct pre as [|y' ys]; [done|]. simpl in *. congruence.
Qed.

(** *** The first tuple and the end of the group *)

Lemma lookup_fresh (ps : list Qc) (i : nat) (x t : Qc) :
  rev (fresh_frames ps) !! i = Some (x, t) -> ps !! i = Some x /\ t = 0%Qc.
Proof.
  unfold fresh_frames. rewrite rev_involutive, list_lookup_fmap.
  destruct (ps !! i) as [q|]; [|done]. by intros [= -> <-].
Qed.

Lemma first_sim (s : stateData) (r : arow) (v : nat) :
  h = 0 -> static s -> sd_counter s = 0 -> length r = n -> cols !! (n - 1) = Some (0, v) ->
  exists s', processTuple false (set_cur s r.*1 r.*2) = Some (s', None) /\
    sim s' (r.*1, mk_machine (fresh_frames r.*2) []).
Proof using Htype.
  intros Hh [Hv Hn] Hcnt Hlr Hleaf. pose proof (cols_lt _ _ _ Hleaf) as Hpos.
  unfold processTuple. cbn [set_counter set_cur sd_counter NoOfVars]. rewrite Hcnt. cbn [Nat.eqb].
  unfold newBlock, for_upto. cbn [set_ready set_sums set_counter set_cur NoOfVars]. rewrite !Hn.
  rewrite reset_loop; cbn [sd_sum sd_curTuple sd_curTupleProb sd_tempSum];
    [|by constructor|lia|lia|by simpl; rewrite length_replicate|by simpl; rewrite length_fmap|by simpl; rewrite length_fmap].
  cbn [mbind option_bind]. eexists. split; [done|].
  assert (Hsum : forall i, i < n -> overlay r.*2 (replicate n 0%Qc) 0 n !! i = r.*2 !! i).
  { intros i Hi. rewrite overlay_lookup by (rewrite ?length_replicate, ?length_fmap; lia).
    by rewrite decide_True by lia. }
  assert (Hlen : length (overlay r.*2 (replicate n 0%Qc) 0 n) = n).
  { rewrite overlay_length; rewrite ?length_replicate, ?length_fmap; lia. }
  constructor; simpl.
  - constructor; simpl.
    + by constructor.
    + done.
    + by rewrite length_replicate.
    + rewrite length_fresh_frames, length_fmap, Hn. lia.
    + intros i x t [Hx ->]%lookup_fresh. pose proof (lookup_lt_Some _ _ _ Hx) as Hi.
      rewrite length_fmap in Hi. rewrite Hsum by lia. split; [done|]. apply lookup_replicate_2. lia.
    + intros i d v' Hc _. apply lookup_replicate_2. by apply cols_lt in Hc.
    + done.
  - exists v. by rewrite Hn.
  - lia.
  - done.
  - done.
  - by rewrite length_fmap.
Qed.

Lemma final_sim (s : stateData) (pre : list Z) (m : machine) (q : Qc) (d v : nat) :
  sim s (pre, m) -> close_to cols 0 m = Some (mk_machine [] [q]) ->
  cols !! 0 = Some (d, v) -> (d = 0 -> v = 0 /\ n = 1) ->
  exists s', processTuple true s = Some (s', Some q) /\ static s'.
Proof.
  intros [Hco [vl Hleaf] _ Hcalc _ _] Hm Hc Hd0. simpl in *. unfold processTuple. rewrite Hcalc.
  rewrite (close_to_trans cols 0 1) in Hm by lia.
  destruct (close_to cols 1 m) as [m1|] eqn:Hm1; [|done]. cbn [mbind option_bind] in Hm.
  destruct (close_columns_core 0 s m m1 Hco ltac:(lia) Hm1) as (s1 & Hs1 & Hco1 & _).
  unfold finish. rewrite Hs1. cbn [mbind option_bind].
  destruct m1 as [[|[x t] fs] r]; [by apply co_k in Hco1|].
  destruct (core_top _ _ _ _ _ _ Hco1) as (Hfs & Hx & Ht & Hin). destruct fs; [|done].
  pose proof (close_to_top cols x t [] r) as Htop. cbn [length] in Htop. rewrite Htop in Hm. unfold close_top in Hm. cbn [frames length ready] in Hm.
  rewrite Hc in Hm. cbn [mbind option_bind] in Hm.
  destruct (cols_lookup _ _ _ Hc) as (info & Hinfo & Hd & Hv).
  pose proof (co_static _ _ _ Hco1) as Hst1. rewrite (st_vars _ Hst1), (st_n _ Hst1), Hinfo.
  cbn [mbind option_bind]. rewrite Hd.
  assert (Hcond : (0 <? d) || (n =? 1) = true).
  { destruct (Nat.eq_dec d 0) as [->|]; [destruct (Hd0 eq_refl) as [_ ->]; done|].
    by replace (0 <? d) with true by (symmetry; apply Nat.ltb_lt; lia). }
  rewrite Hcond.
  assert (Hpop : exists product, pop_product v x r = Some (product, []) /\ indeEventConjunc t product = q).
  { destruct (Nat.eqb_spec d 0) as [->|_].
    - destruct (Hd0 eq_refl) as [-> _]. injection Hm as <- <-. exists x. split; [done|].
      pose proof (co_zero _ _ _ Hco1 0 0 0 Hc ltac:(by right)) as Ht0. rewrite Ht in Ht0.
      injection Ht0 as ->. unfold indeEventConjunc. ring.
    - destruct (pop_product v x r) as [[product r']|]; [|done]. simpl in Hm. injection Hm as <- ->. by exists product. }
  destruct Hpop as (product & Hpop & <-).
  rewrite (close_block_eq s1 0 d v x t product []);
    [|done|apply Hco1|done|done|done|by rewrite (co_ready _ _ _ Hco1)].
  cbn [mbind option_bind set_ready set_sums sd_tempSum].
  rewrite list_lookup_insert_eq by (rewrite (co_temp _ _ _ Hco1); lia). cbn [mbind option_bind].
  eexists. split; [done|]. by destruct Hst1.
Qed.

(** ** The scan of a group *)

Definition process_row (r : arow) (s : stateData) : option stateData :=
  '(s, _) ← processTuple false (set_cur s r.*1 r.*2); Some s.

Lemma process_row_eq (r : arow) (s s' : stateData) (o : option Qc) :
  processTuple false (set_cur s r.*1 r.*2) = Some (s', o) -> process_row r s = Some s'.
Proof. unfold process_row. by intros ->. Qed.

(** A round in which the column array stays in place. *)
Definition static_row (r : arow) (s : stateData) : option stateData :=
  s ← process_row r s; if decide (NoOfVars s = n) then Some s else None.

Lemma static_row_eq (r : arow) (s s' : stateData) (o : option Qc) (pm : list Z * machine) :
  processTuple false (set_cur s r.*1 r.*2) = Some (s', o) -> sim s' pm -> static_row r s = Some s'.
Proof.
  intros Hp Hs. unfold static_row. rewrite (process_row_eq _ _ _ _ Hp). cbn [mbind option_bind].
  rewrite decide_True; [done|]. apply Hs.
Qed.

Lemma run_sim (R : list arow) (s : stateData) (pre pre' : list Z) (m m' : machine) :
  sim s (pre, m) -> Forall (fun r => length r = n) R -> Forall (fun r => take h r.*1 = take h pre) R -> mrun cols R (pre, m) = Some (pre', m') ->
  exists s', for_list R static_row s = Some s' /\ sim s' (pre', m').
Proof using Htype Hwf.
  intros Hs HR. revert s pre m Hs. induction HR as [|r R Hr _ IH]; intros s pre m Hs Hpre Hm; unfold mrun in Hm;
    cbn [for_list] in Hm |- *.
  - injection Hm as -> ->. by exists s.
  - destruct (mstep cols r (pre, m)) as [[pre1 m1]|] eqn:Hst; [|done]. cbn [mbind option_bind] in Hm.
    apply Forall_cons in Hpre as [Hpr Hpre].
    destruct (process_sim s pre pre1 m m1 r Hs Hr Hpr Hst) as (s1 & Hp & Hs1).
    rewrite (static_row_eq _ _ _ _ _ Hp Hs1). cbn [mbind option_bind]. apply (IH s1 pre1 m1); [done| |done].
    assert (Hp1 : pre1 = r.*1).
    { unfold mstep in Hst. destruct (first_diff _ _); [|by injection Hst].
      destruct (change _ _ _ _); [|done]. by injection Hst. }
    eapply Forall_impl; [exact Hpre|]. simpl. intros r' Hr'. by rewrite Hr', Hp1.
Qed.

(** The first column of a tree; only a single column has no descendants. *)
Lemma first_col (t : tree) :
  cols = tcols t -> exists d v, cols !! 0 = Some (d, v) /\ (d = 0 -> v = 0 /\ n = 1).
Proof.
  intros Hc. assert (Hn : n = size t).
  { rewrite <- length_tcols, <- Hc. unfold cols_of. by rewrite length_fmap. }
  destruct t as [cs]. exists (sum_list_with size cs), (length cs). rewrite Hc. split; [done|]. intros Hd.
  destruct cs as [|c cs]; [by rewrite Hn|]. exfalso. simpl in Hd. pose proof (size_pos c). lia.
Qed.

Lemma scan_result (t : tree) (bs : list block) (R : list arow) (s : stateData) :
  cols = tcols t -> shaped t bs -> grouped [] (rows_of bs) R -> Forall (fun r => length r = n) R ->
  static s -> sd_counter s = 0 -> h = 0 ->
  exists s1 s2, for_list R static_row s = Some s1 /\
    processTuple true s1 = Some (s2, Some (blocks_prob bs)) /\ static s2.
Proof using Htype Hwf.
  intros Hcols Hsh HR Hlen Hst Hcnt. destruct (rows_of_ok _ _ Hsh) as [Hne Hlw].
  assert (Hn : n = size t).
  { rewrite <- length_tcols, <- Hcols. unfold cols_of. by rewrite length_fmap. }
  destruct (rows_of bs) as [|w0 ws] eqn:Hrows; [done|]. inversion HR as [|? ? g R' Hg Hs HR']; subst.
  destruct g as [|r0 g]; [done|]. inversion Hs as [|? ? [sf Hsf] Hs']; subst.
  inversion Hlen as [|? ? Hl0 Hlen']; subst. inversion Hlw as [|? ? Hlw0 _]; subst.
  assert (sf = []) as ->.
  { rewrite length_app in Hl0. simpl in Hl0. destruct sf; [done|]. simpl in Hl0. lia. }
  rewrite app_nil_r in *. simpl in Hs', Hl0.
  destruct (tcols_last t) as [v Hv]. rewrite <- Hn, <- Hcols in Hv.
  intros Hh. destruct (first_sim s w0 v Hh Hst Hcnt Hl0 Hv) as (s1 & Hp1 & Hsim1).
  destruct (mrun_same cols w0 g w0.*1 (mk_machine (fresh_frames w0.*2) [])) as (pv1 & Hr1 & Hpv1); try done.
  { cbn [frames]. by rewrite length_fresh_frames, length_fmap. }
  destruct (tree_scans cols t bs [] [] [] (mk_machine (fresh_frames w0.*2) []) pv1 w0 ws R')
    as (m2 & pv2 & Hr2 & Hm2); try done.
  { intros i _. by rewrite Hcols. }
  { rewrite close_to_id; [by rewrite app_nil_r|]. cbn [frames]. rewrite length_fresh_frames, length_fmap. simpl. lia. }
  destruct (run_sim (g ++ R') s1 w0.*1 pv2 (mk_machine (fresh_frames w0.*2) []) m2) as (s2 & Hrun & Hsim2); try done.
  { apply Forall_forall. intros r _. by rewrite Hh. }
  { rewrite mrun_app, Hr1. exact Hr2. }
  destruct (first_col t Hcols) as (d & v0 & Hc0 & Hd0).
  destruct (final_sim s2 pv2 m2 (blocks_prob bs) d v0 Hsim2 Hm2 Hc0 Hd0) as (s3 & Hp3 & Hst3).
  exists s2, s3. split_and!; try done. cbn [app for_list]. by rewrite (static_row_eq _ _ _ _ _ Hp1 Hsim1).
Qed.
End Refine.

Lemma static_run (infos : list sigInfo) (R : list arow) (s s' : stateData) :
  for_list R (static_row infos) s = Some s' -> for_list R process_row s = Some s'.
Proof.
  revert s. induction R as [|r R IH]; intros s H; cbn [for_list] in H |- *; [done|].
  unfold static_row in H at 2. destruct (process_row r s) as [s1|]; [|done]. cbn [mbind option_bind] in H |- *.
  destruct (decide _); [|done]. by apply IH.
Qed.
