(* ===== verification/SproutProb.v ===== *)
(** * SproutProb: hierarchical lineage and probability

    The tuples of hierarchical lineage, read as a disjunction of conjunctions of
    presence of the base tuples, have the probability that the recursion over the
    blocks computes, when no base tuple occurs in two blocks. *)
From S2P Require Import Prelude.
From S2P Require Import Worlds.
From S2P Require Import Signature.
From S2P Require Import Sprout.
From S2P Require Import SproutScan.

Lemma block_ind' (P : block -> Prop) :
  (forall x p ls, Forall (Forall P) ls -> P (B x p ls)) -> forall b, P b.
Proof.
  intros H. fix IH 1. intros [x p ls]. apply H. induction ls as [|l ls IHls]; constructor; [|done].
  induction l as [|b l IHl]; constructor; [apply IH|done].
Qed.

(** The base tuples of a block with their probabilities. *)
Fixpoint base (b : block) : arow :=
  let 'B x p ls := b in (x, p) :: mjoin ((fun l => mjoin (base <$> l)) <$> ls).
Definition bases (bs : list block) : arow := mjoin (base <$> bs).

Section Event.
(** The range value with which the base tuple of a variable is present. *)
Context (val : Z -> Z).

Definition present (xp : Z * Qc) : Z * Z := (xp.1, val xp.1).
Definition row_lits (r : arow) : clause := present <$> r.

Fixpoint block_event (b : block) (w : world) : bool :=
  let 'B x p ls := b in
  sat_lit (x, val x) w && forallb (fun l => existsb (fun b => block_event b w) l) ls.
Definition blocks_event (bs : list block) (w : world) : bool := existsb (fun b => block_event b w) bs.

Lemma row_lits_app (r1 r2 : arow) (w : world) :
  sat_clause (row_lits (r1 ++ r2)) w = sat_clause (row_lits r1) w && sat_clause (row_lits r2) w.
Proof. unfold row_lits, sat_clause. by rewrite fmap_app, forallb_app. Qed.

Definition sat_rows (R : list arow) (w : world) : bool := sat_dnf (row_lits <$> R) w.

Lemma sat_rows_app (R1 R2 : list arow) (w : world) :
  sat_rows (R1 ++ R2) w = sat_rows R1 w || sat_rows R2 w.
Proof. unfold sat_rows, sat_dnf. by rewrite fmap_app, existsb_app. Qed.

Lemma sat_rows_prefix (r : arow) (R : list arow) (w : world) :
  sat_rows (app r <$> R) w = sat_clause (row_lits r) w && sat_rows R w.
Proof.
  induction R as [|r' R IH]; [by rewrite andb_false_r|]. unfold sat_rows, sat_dnf in *. csimpl.
  rewrite IH, row_lits_app. by destruct (sat_clause (row_lits r) w).
Qed.

Lemma sat_rows_bind (R1 R2 : list arow) (w : world) :
  sat_rows (r ← R1; (app r <$> R2)) w = sat_rows R1 w && sat_rows R2 w.
Proof.
  induction R1 as [|r R1 IH]; [done|]. rewrite bind_cons, sat_rows_app, IH, sat_rows_prefix.
  unfold sat_rows, sat_dnf. csimpl. by rewrite andb_orb_distrib_l.
Qed.

Lemma sat_cross (l : list (list arow)) (w : world) :
  sat_rows (cross l) w = forallb (fun R => sat_rows R w) l.
Proof. induction l as [|R l IH]; [done|]. cbn [cross]. rewrite sat_rows_bind, IH. done. Qed.

Lemma sat_rows_join (l : list (list arow)) (w : world) :
  sat_rows (mjoin l) w = existsb (fun R => sat_rows R w) l.
Proof. induction l as [|R l IH]; [done|]. csimpl. by rewrite sat_rows_app, IH. Qed.

Lemma existsb_fmap {A B} (f : A -> B) (p : B -> bool) (l : list A) :
  existsb p (f <$> l) = existsb (fun a => p (f a)) l.
Proof. induction l as [|a l IH]; [done|]. csimpl. by rewrite IH. Qed.

Lemma sat_block_rows (b : block) (w : world) : sat_rows (block_rows b) w = block_event b w.
Proof.
  induction b as [x p ls IH] using block_ind'. rewrite block_rows_eq. cbn [block_event].
  change (cons (x, p) <$> forest_rows ls) with (app [(x, p)] <$> forest_rows ls).
  rewrite sat_rows_prefix. unfold forest_rows. rewrite sat_cross. unfold sat_clause. csimpl.
  rewrite andb_true_r. unfold present. simpl. f_equal.
  induction IH as [|l ls Hl _ IHl]; [done|]. csimpl. rewrite IHl. f_equal.
  unfold rows_of. rewrite sat_rows_join, existsb_fmap. clear IHl.
  induction Hl as [|b l Hb _ IHl]; [done|]. simpl. by rewrite Hb, IHl.
Qed.

Lemma sat_rows_of (bs : list block) (w : world) : sat_rows (rows_of bs) w = blocks_event bs w.
Proof.
  unfold rows_of, blocks_event. rewrite sat_rows_join, existsb_fmap.
  induction bs as [|b bs IH]; [done|]. simpl. by rewrite sat_block_rows, IH.
Qed.

(** ** Independence *)

Lemma block_event_ignores (b : block) (x : Z) : x ∉ (base b).*1 -> ignores (block_event b) x.
Proof.
  induction b as [y p ls IH] using block_ind'. intros Hx w r. cbn [block_event base] in *.
  rewrite fmap_cons in Hx. apply not_elem_of_cons in Hx as [Hne Hx]. f_equal.
  - rewrite sat_lit_insert. by rewrite decide_False.
  - induction IH as [|l ls Hl _ IHl]; [done|]. csimpl in Hx. rewrite fmap_app in Hx.
    apply not_elem_of_app in Hx as [Hx1 Hx2]. simpl. f_equal; [|by apply IHl]. clear IHl Hx2.
    induction Hl as [|b l Hb _ IHl]; [done|]. csimpl in Hx1. rewrite fmap_app in Hx1.
    apply not_elem_of_app in Hx1 as [Hx1 Hx2]. simpl. f_equal; [by apply Hb|by apply IHl].
Qed.

Lemma blocks_event_ignores (bs : list block) (x : Z) : x ∉ (bases bs).*1 -> ignores (blocks_event bs) x.
Proof.
  intros Hx w r. unfold blocks_event, bases in *. induction bs as [|b bs IH]; [done|].
  csimpl in Hx. rewrite fmap_app in Hx. apply not_elem_of_app in Hx as [Hx1 Hx2]. simpl.
  f_equal; [by apply block_event_ignores|by apply IH].
Qed.

Lemma forest_event_ignores (ls : list (list block)) (x : Z) :
  x ∉ (mjoin (bases <$> ls)).*1 -> ignores (fun w => forallb (fun l => blocks_event l w) ls) x.
Proof.
  intros Hx w r. induction ls as [|l ls IH]; [done|].
  csimpl in Hx. rewrite fmap_app in Hx. apply not_elem_of_app in Hx as [Hx1 Hx2]. simpl.
  f_equal; [by apply blocks_event_ignores|by apply IH].
Qed.

(** Of two lists without common variables, one does not mention [x]. *)
Lemma split_vars (l1 l2 : arow) (x : Z) :
  NoDup (l1 ++ l2).*1 -> x ∉ l1.*1 \/ x ∉ l2.*1.
Proof.
  rewrite fmap_app. intros (_ & H & _)%NoDup_app. destruct (decide (x ∈ l1.*1)); [|by left].
  right. by apply H.
Qed.

Section World.
Context (W : wtable) (HW : wtable_ok W).

Definition known (xp : Z * Qc) : Prop := lit_in W xp.1 (val xp.1) xp.2.

Lemma blocks_prob_eq (bs : list block) :
  Forall (fun b => Pr W (block_event b) = block_prob b) bs -> NoDup (bases bs).*1 ->
  Pr W (blocks_event bs) = blocks_prob bs.
Proof using HW.
  unfold blocks_prob. induction 1 as [|b bs Hb _ IH]; intros Hnd.
  - unfold blocks_event. simpl. rewrite (Pr_const W HW false). simpl. rewrite qprod_nil. ring.
  - unfold bases in Hnd. csimpl in Hnd. pose proof Hnd as Hnd'. rewrite fmap_app in Hnd'.
    apply NoDup_app in Hnd' as (_ & _ & Hnd2).
    change (blocks_event (b :: bs)) with (fun w => block_event b w || blocks_event bs w).
    rewrite Pr_or_indep; [|done|].
    + rewrite Hb, IH by done. csimpl. rewrite qprod_cons. ring.
    + intros x _. destruct (split_vars _ _ x Hnd); [left; by apply block_event_ignores|right].
      by apply blocks_event_ignores.
Qed.

Lemma forest_prob_eq (ls : list (list block)) :
  Forall (fun l => Pr W (blocks_event l) = blocks_prob l) ls -> NoDup (mjoin (bases <$> ls)).*1 ->
  Pr W (fun w => forallb (fun l => blocks_event l w) ls) = qprod (blocks_prob <$> ls).
Proof using HW.
  induction 1 as [|l ls Hl _ IH]; intros Hnd.
  - simpl. rewrite (Pr_const W HW true), qprod_nil. done.
  - csimpl in Hnd. pose proof Hnd as Hnd'. rewrite fmap_app in Hnd'.
    apply NoDup_app in Hnd' as (_ & _ & Hnd2). cbn [forallb].
    rewrite (Pr_and_indep W HW (blocks_event l) (fun w => forallb (fun l => blocks_event l w) ls)).
    + rewrite Hl, IH by done. csimpl. by rewrite qprod_cons.
    + intros x _. destruct (split_vars _ _ x Hnd); [left; by apply blocks_event_ignores|right].
      by apply forest_event_ignores.
Qed.

Lemma Pr_block (b : block) :
  NoDup (base b).*1 -> Forall known (base b) -> Pr W (block_event b) = block_prob b.
Proof using HW.
  induction b as [x p ls IH] using block_ind'. intros Hnd Hk. cbn [base] in *.
  rewrite fmap_cons in Hnd. apply NoDup_cons in Hnd as [Hx Hnd]. inversion Hk as [|? ? Hkx Hkl]; subst.
  change (mjoin ((fun l => mjoin (base <$> l)) <$> ls)) with (mjoin (bases <$> ls)) in *.
  rewrite block_prob_eq, <- (forest_prob_eq ls).
  - change (block_event (B x p ls)) with
      (fun w => sat_lit (x, val x) w && forallb (fun l => blocks_event l w) ls).
    rewrite (Pr_and_indep W HW (sat_lit (x, val x)) (fun w => forallb (fun l => blocks_event l w) ls)).
    + f_equal. rewrite (Pr_ext W _ (sat_clause [(x, val x)])).
      2: { intros w. unfold sat_clause. simpl. by rewrite andb_true_r. }
      rewrite (Pr_clause W [(x, val x)] [p] HW); [by rewrite qprod_one|by apply NoDup_singleton|].
      by repeat constructor.
    + intros y _. destruct (decide (y = x)) as [->|Hne].
      * right. by apply forest_event_ignores.
      * left. intros w r. rewrite sat_lit_insert. by rewrite decide_False.
  - clear Hx Hk Hkx. induction IH as [|l ls Hl _ IHl]; [constructor|]. csimpl in Hnd. csimpl in Hkl.
    rewrite fmap_app in Hnd. apply NoDup_app in Hnd as (Hnd1 & _ & Hnd2).
    apply Forall_app in Hkl as [Hk1 Hk2]. constructor; [|by apply IHl].
    apply blocks_prob_eq; [|done]. clear IHl Hnd2 Hk2. unfold bases in *.
    induction Hl as [|b l Hb _ IHl]; [constructor|]. csimpl in Hnd1. csimpl in Hk1.
    rewrite fmap_app in Hnd1. apply NoDup_app in Hnd1 as (Hnd1 & _ & Hnd2).
    apply Forall_app in Hk1 as [Hk1 Hk2]. constructor; [by apply Hb|by apply IHl].
  - done.
Qed.

(** The probability of the lineage. *)
Theorem Pr_rows_of (bs : list block) :
  NoDup (bases bs).*1 -> Forall known (bases bs) ->
  Pr W (sat_rows (rows_of bs)) = blocks_prob bs.
Proof using HW.
  intros Hnd Hk. rewrite (Pr_ext W _ _ (sat_rows_of bs)). apply blocks_prob_eq; [|done].
  unfold bases in *. induction bs as [|b bs IH]; [constructor|]. csimpl in Hnd. csimpl in Hk.
  rewrite fmap_app in Hnd. apply NoDup_app in Hnd as (Hnd1 & _ & Hnd2).
  apply Forall_app in Hk as [Hk1 Hk2]. constructor; [by apply Pr_block|by apply IH].
Qed.
End World.
End Event.
