(* ===== verification/SigTree.v ===== *)
(** * SigTree: properties of signature trees

    The numbers that [derivePos], [calSib] and [calDomain] attach to the leaves, and
    the column tree of a one-scan signature. *)
From Stdlib Require Import Strings.String.
From S2P Require Import Prelude.
From S2P Require Import Signature.
From S2P Require Import SproutScan.
From S2P Require Import SproutRefine.
Open Scope nat_scope.

Lemma sigNode_ind' (P : sigNode -> Prop) :
  (forall i cs, Forall P cs -> P (SigNode i cs)) -> forall t, P t.
Proof.
  intros H. fix IH 1. intros [i cs]. apply H. induction cs as [|c cs IHcs]; constructor; [apply IH|done].
Qed.

Lemma sg_tree_ind' (P : sgTreeNode -> Prop) :
  (forall b n l cs, Forall P cs -> P (SgTreeNode b n l cs)) -> forall t, P t.
Proof.
  intros H. fix IH 1. intros [b n l cs]. apply H. induction cs as [|c cs IHcs]; constructor; [apply IH|done].
Qed.

Lemma leafDescendentCount_fill (t : sigNode) : leafDescendentCount t = length (fillLeafNode t).
Proof.
  induction t as [i cs IH] using sigNode_ind'. simpl. destruct (isLeaf i); [done|].
  induction IH as [|c cs Hc _ IH]; [done|]. csimpl. by rewrite length_app, Hc, IH.
Qed.

Lemma leaves_fill (cs : list sigNode) :
  sum_list_with leafDescendentCount cs = length (mjoin (fillLeafNode <$> cs)).
Proof.
  induction cs as [|c cs IH]; [done|]. csimpl. by rewrite length_app, IH, leafDescendentCount_fill.
Qed.

(** ** What the attributes do not change *)

(** The tree without positions, counts and tables. *)
Definition skel_info (i : sigInfo) : sigInfo :=
  mk_info (isLeaf i) (withStar i) (sg i) NOTAGGREGATED 0 0 0 None.
Fixpoint skel (t : sigNode) : sigNode := let 'SigNode i cs := t in SigNode (skel_info i) (skel <$> cs).

Lemma is1Scan_skel (t : sigNode) : is1Scan (skel t) = is1Scan t.
Proof.
  induction t as [i cs IH] using sigNode_ind'. simpl. destruct (isLeaf i); [done|].
  assert (Hall : (fix scan (cs : list sigNode) : option bool :=
           match cs with
           | [] => Some true
           | c :: cs => b ← is1Scan c; if (b : bool) then scan cs else Some false
           end) (skel <$> cs) = (fix scan (cs : list sigNode) : option bool :=
           match cs with
           | [] => Some true
           | c :: cs => b ← is1Scan c; if (b : bool) then scan cs else Some false
           end) cs).
  { induction IH as [|c cs Hc _ IH]; [done|]. csimpl. by rewrite Hc, IH. }
  rewrite Hall. by destruct cs as [|[j kids] cs].
Qed.

Lemma leafDescendentCount_skel (t : sigNode) : leafDescendentCount (skel t) = leafDescendentCount t.
Proof.
  induction t as [i cs IH] using sigNode_ind'. simpl. destruct (isLeaf i); [done|].
  induction IH as [|c cs Hc _ IH]; [done|]. csimpl. by rewrite Hc, IH.
Qed.

Lemma getVarOrder_skel (t : sigNode) (l : list (list string)) : getVarOrder (skel t) l = getVarOrder t l.
Proof.
  revert l. induction t as [i cs IH] using sigNode_ind'. intros l. simpl. destruct (isLeaf i); [done|].
  revert l. induction IH as [|c cs Hc _ IH]; intros l; [done|]. csimpl. rewrite Hc.
  destruct (getVarOrder c l); simpl; [apply IH|done].
Qed.

Lemma on_first_skel (f : sigInfo -> nat -> sigInfo) (count : list sigNode -> nat) (cs : list sigNode) :
  (forall i n, skel_info (f i n) = skel_info i) -> skel <$> on_first f count cs = skel <$> cs.
Proof.
  intros Hf. destruct cs as [|[i kids] cs]; [done|]. simpl. destruct (isLeaf i); [|done]. simpl.
  by rewrite Hf.
Qed.

Lemma calSib_skel (t : sigNode) : skel (calSib t) = skel t.
Proof.
  induction t as [i cs IH] using sigNode_ind'. simpl. f_equal. rewrite on_first_skel by done.
  rewrite <- list_fmap_compose. by apply Forall_fmap_ext.
Qed.

Lemma calDomain_skel (t : sigNode) : skel (calDomain t) = skel t.
Proof.
  induction t as [i cs IH] using sigNode_ind'. simpl. f_equal. rewrite on_first_skel by done.
  rewrite <- list_fmap_compose. by apply Forall_fmap_ext.
Qed.

(** [derivePos] over the children. *)
Definition derive_list : list sigNode -> nat -> list sigNode * nat :=
  fix derive (cs : list sigNode) (n : nat) : list sigNode * nat :=
    match cs with
    | [] => ([], n)
    | c :: cs => let '(c, n) := derivePos c n in let '(cs, n) := derive cs n in (c :: cs, n)
    end.

Lemma derivePos_node (i : sigInfo) (cs : list sigNode) (n : nat) :
  derivePos (SigNode i cs) n =
  if isLeaf i then (SigNode (set_pos i n) cs, S n)
  else (SigNode i (derive_list cs n).1, (derive_list cs n).2).
Proof. simpl. destruct (isLeaf i); [done|]. fold derive_list. by destruct (derive_list cs n). Qed.

Lemma derive_list_cons (c : sigNode) (cs : list sigNode) (n : nat) :
  derive_list (c :: cs) n =
  ((derivePos c n).1 :: (derive_list cs (derivePos c n).2).1, (derive_list cs (derivePos c n).2).2).
Proof. simpl. destruct (derivePos c n) as [c' n']. simpl. by destruct (derive_list cs n'). Qed.

Lemma derivePos_skel (t : sigNode) (n : nat) : skel (derivePos t n).1 = skel t.
Proof.
  revert n. induction t as [i cs IH] using sigNode_ind'. intros n. rewrite derivePos_node.
  destruct (isLeaf i); [done|]. simpl. f_equal. revert n.
  induction IH as [|c cs Hc _ IH]; intros n; [done|]. rewrite derive_list_cons. csimpl. by rewrite Hc, IH.
Qed.

(** Leaves get consecutive positions from left to right. *)
Definition number (n : nat) (l : list sigInfo) : list sigInfo := imap (fun k i => set_pos i (n + k)) l.

Lemma number_app (n : nat) (l1 l2 : list sigInfo) :
  number n (l1 ++ l2) = number n l1 ++ number (n + length l1) l2.
Proof.
  unfold number. rewrite imap_app. f_equal. apply imap_ext. intros k i _. f_equal. lia.
Qed.

Lemma derivePos_fill (t : sigNode) (n : nat) :
  fillLeafNode (derivePos t n).1 = number n (fillLeafNode t) /\
  (derivePos t n).2 = n + length (fillLeafNode t).
Proof.
  revert n. induction t as [i cs IH] using sigNode_ind'. intros n. rewrite derivePos_node.
  cbn [fillLeafNode]. destruct (isLeaf i) eqn:Hl; cbn [fst snd fillLeafNode].
  - cbn [set_pos isLeaf]. rewrite Hl. unfold number. simpl. rewrite Nat.add_0_r. split; [done|lia].
  - rewrite Hl. revert n. induction IH as [|c cs Hc _ IH]; intros n; [simpl; split; [done|lia]|].
    rewrite derive_list_cons. csimpl. destruct (Hc n) as [Hc1 Hc2]. destruct (IH (derivePos c n).2) as [H1 H2].
    rewrite Hc1, H1, H2, Hc2, number_app, length_app. split; [done|lia].
Qed.

(** ** The column tree of a one-scan signature *)

(** The head column is the first child; the other children are its subtrees. *)
Fixpoint sig_tree (t : sigNode) : tree :=
  let 'SigNode i cs := t in
  if isLeaf i then T [] else match cs with [] => T [] | _ :: cs => T (sig_tree <$> cs) end.

Lemma sig_tree_skel (t : sigNode) : sig_tree (skel t) = sig_tree t.
Proof.
  induction t as [i cs IH] using sigNode_ind'. simpl. destruct (isLeaf i); [done|].
  destruct cs as [|c cs]; [done|]. csimpl. f_equal. inversion IH; subst.
  rewrite <- list_fmap_compose. by apply Forall_fmap_ext.
Qed.

(** A fresh leaf. *)
Definition fresh (i : sigInfo) : Prop := domain i = 0 /\ varsToCombine i = 0 /\ type i = NOTAGGREGATED.

Definition attributes (t : sigNode) : sigNode := calDomain (calSib t).

Lemma attributes_skel (t : sigNode) : skel (attributes t) = skel t.
Proof. unfold attributes. by rewrite calDomain_skel, calSib_skel. Qed.

Lemma is1Scan_node (i : sigInfo) (cs : list sigNode) :
  is1Scan (SigNode i cs) = Some true -> isLeaf i = false ->
  exists j kids sibs, cs = SigNode j kids :: sibs /\ isLeaf j = true /\ withStar j = false /\
    Forall (fun c => is1Scan c = Some true) cs.
Proof.
  intros H Hl. cbn [is1Scan] in H. rewrite Hl in H.
  assert (Hall : forall cs, (fix scan (cs : list sigNode) : option bool :=
           match cs with
           | [] => Some true
           | c :: cs => b ← is1Scan c; if (b : bool) then scan cs else Some false
           end) cs = Some true -> Forall (fun c => is1Scan c = Some true) cs).
  { clear. induction cs as [|c cs IH]; intros H; [constructor|].
    destruct (is1Scan c) as [[]|] eqn:Hc; simpl in H; try done. constructor; [done|by apply IH]. }
  destruct ((fix scan (cs : list sigNode) : option bool := _) cs) as [[]|] eqn:Hs; simpl in H; try done.
  destruct cs as [|[j kids] sibs]; [done|]. simpl in H. injection H as [Hj Hw]%andb_true_iff.
  exists j, kids, sibs. split_and!; try done; [by apply negb_true_iff|by apply Hall].
Qed.

(** One-scan trees whose counts are computed again: the first leaf of a node may have
    been counted before. *)
#[local] Set Warnings "-register-all".
Inductive scan_ok : sigNode -> Prop :=
  | scan_ok_leaf i cs : isLeaf i = true -> fresh i -> scan_ok (SigNode i cs)
  | scan_ok_node i j kids sibs : isLeaf i = false -> isLeaf j = true -> type j = NOTAGGREGATED ->
      Forall scan_ok sibs -> scan_ok (SigNode i (SigNode j kids :: sibs)).

Lemma scan_ok_ind' (P : sigNode -> Prop) :
  (forall i cs, isLeaf i = true -> fresh i -> P (SigNode i cs)) ->
  (forall i j kids sibs, isLeaf i = false -> isLeaf j = true -> type j = NOTAGGREGATED ->
     Forall scan_ok sibs -> Forall P sibs -> P (SigNode i (SigNode j kids :: sibs))) ->
  forall t, scan_ok t -> P t.
Proof.
  intros H1 H2. fix IH 2. intros t [i cs Hl Hf|i j kids sibs Hl Hj Ht Hs]; [by apply H1|].
  apply H2; try done. induction Hs as [|c cs Hc _ IHs]; constructor; [by apply IH|done].
Qed.

Lemma fresh_scan_ok (t : sigNode) :
  is1Scan t = Some true -> Forall fresh (fillLeafNode t) -> scan_ok t.
Proof.
  induction t as [i cs IH] using sigNode_ind'. intros H1 Hf. cbn [fillLeafNode] in Hf.
  destruct (isLeaf i) eqn:Hl.
  - apply Forall_cons in Hf as [Hf _]. by apply scan_ok_leaf.
  - destruct (is1Scan_node _ _ H1 Hl) as (j & kids & sibs & -> & Hj & _ & Hall).
    apply Forall_cons in IH as [_ IHs]. apply Forall_cons in Hall as [_ Halls].
    csimpl in Hf. rewrite Hj in Hf. simpl in Hf. apply Forall_cons in Hf as [(_ & _ & Ht) Hfs].
    apply scan_ok_node; try done. clear H1. induction IHs as [|c cs Hc _ IHc]; [constructor|].
    apply Forall_cons in Halls as [Hc1 Halls]. csimpl in Hfs. apply Forall_app in Hfs as [Hf1 Hf2].
    constructor; [by apply Hc|by apply IHc].
Qed.

Definition kids_of (kids : list sigNode) : list sigNode :=
  on_first set_domain (sum_list_with leafDescendentCount)
    (calDomain <$> on_first set_varsToCombine length (calSib <$> kids)).

(** The counts of a node whose first child is a leaf. *)
Lemma attributes_node (i j : sigInfo) (kids sibs : list sigNode) :
  isLeaf j = true ->
  attributes (SigNode i (SigNode j kids :: sibs)) =
    SigNode i (SigNode (set_domain (set_varsToCombine j (length sibs))
      (sum_list_with leafDescendentCount (attributes <$> sibs))) (kids_of kids) :: (attributes <$> sibs)).
Proof.
  intros Hj. unfold attributes. simpl. rewrite Hj. simpl. rewrite Hj. rewrite length_fmap.
  by rewrite <- list_fmap_compose.
Qed.

Lemma attributes_leaf (i : sigInfo) (cs : list sigNode) :
  exists cs', attributes (SigNode i cs) = SigNode i cs'.
Proof. unfold attributes. simpl. by eexists. Qed.

Lemma scan_ok_attributes (t : sigNode) : scan_ok t -> scan_ok (attributes t).
Proof.
  induction 1 as [i cs Hl Hf|i j kids sibs Hl Hj Ht Hs IH] using scan_ok_ind'.
  - destruct (attributes_leaf i cs) as [cs' ->]. by apply scan_ok_leaf.
  - rewrite attributes_node by done. apply scan_ok_node; try done. by apply Forall_fmap.
Qed.

Lemma cols_scan_ok (t : sigNode) :
  scan_ok t ->
  cols_of (fillLeafNode (attributes t)) = tcols (sig_tree t) /\
  Forall (fun i => type i = NOTAGGREGATED) (fillLeafNode (attributes t)).
Proof.
  induction 1 as [i cs Hl (Hd & Hv & Ht)|i j kids sibs Hl Hj Ht _ IH] using scan_ok_ind'.
  - destruct (attributes_leaf i cs) as [cs' ->]. cbn [fillLeafNode sig_tree]. rewrite Hl.
    unfold cols_of. csimpl. rewrite Hd, Hv. split; [done|]. by repeat constructor.
  - rewrite attributes_node by done. cbn [fillLeafNode sig_tree]. rewrite Hl. csimpl. rewrite Hj. simpl.
    assert (Hs : cols_of (mjoin (fillLeafNode <$> (attributes <$> sibs))) = mjoin (tcols <$> (sig_tree <$> sibs)) /\
               Forall (fun i => type i = NOTAGGREGATED) (mjoin (fillLeafNode <$> (attributes <$> sibs)))).
    { induction IH as [|c cs [Hc1 Hc2] _ [IH1 IH2]]; [by split|]. csimpl. unfold cols_of in *.
      rewrite fmap_app, Hc1, IH1. split; [done|]. by apply Forall_app. }
    destruct Hs as [Hs1 Hs2]. unfold cols_of in Hs1 |- *. csimpl. rewrite Hs1. split.
    + f_equal. f_equal; [|by rewrite length_fmap].
      rewrite leaves_fill, <- (length_fmap (fun i => (domain i, varsToCombine i))), Hs1.
      clear. induction sibs as [|c cs IH]; [done|]. csimpl. by rewrite length_app, length_tcols, IH.
    + by constructor.
Qed.

Theorem cols_attributes (t : sigNode) :
  is1Scan t = Some true -> Forall fresh (fillLeafNode t) ->
  cols_of (fillLeafNode (attributes t)) = tcols (sig_tree t) /\
  Forall (fun i => type i = NOTAGGREGATED) (fillLeafNode (attributes t)).
Proof. intros H1 Hf. apply cols_scan_ok. by apply fresh_scan_ok. Qed.

(** For the decorated signature of [ProcessSignature]. *)
Theorem cols_decorate (t : sigNode) :
  is1Scan (decorate t) = Some true -> Forall fresh (fillLeafNode t) ->
  cols_of (fillLeafNode (decorate t)) = tcols (sig_tree t) /\
  Forall (fun i => type i = NOTAGGREGATED) (fillLeafNode (decorate t)).
Proof.
  intros H Hf. change (decorate t) with (attributes (derivePos t 0).1) in *.
  rewrite <- is1Scan_skel, attributes_skel, derivePos_skel, is1Scan_skel in H.
  destruct (cols_attributes (derivePos t 0).1) as [H1 H2].
  - by rewrite <- is1Scan_skel, derivePos_skel, is1Scan_skel.
  - rewrite (proj1 (derivePos_fill t 0)). unfold number. apply Forall_forall.
    intros i (k & j & -> & Hj)%elem_of_lookup_imap. rewrite Forall_forall in Hf.
    apply list_elem_of_lookup_2 in Hj. by apply (Hf j Hj).
  - split; [|done]. rewrite H1, <- sig_tree_skel, derivePos_skel. by rewrite sig_tree_skel.
Qed.

(** ** The leaves of a processed signature *)

(** A leaf as [buildSigTree] and [addNonJoinedRelation] make it. *)
Definition new_leaf (i : sigInfo) : Prop := fresh i /\ is_Some (sg i).

Lemma new_leaf_info (b : bool) (s : subGoal) : new_leaf (leaf_info b s).
Proof. split; [done|]. by exists s. Qed.

Lemma getVarOrder_leaves (t : sigNode) (l : list (list string)) :
  Forall (fun i => is_Some (sg i)) (fillLeafNode t) ->
  exists fs, getVarOrder t l = Some (l ++ fs) /\
    Forall2 (fun i f => exists s, sg i = Some s /\ f = fields s) (fillLeafNode t) fs.
Proof.
  revert l. induction t as [i cs IH] using sigNode_ind'. intros l Hs. simpl in Hs |- *.
  destruct (isLeaf i).
  - inversion Hs as [|? ? [s Hi] _]; subst. rewrite Hi. exists [fields s]. split; [done|].
    repeat constructor. by exists s.
  - revert l. induction IH as [|c cs Hc _ IH]; intros l; csimpl; csimpl in Hs.
    + exists []. by rewrite app_nil_r.
    + apply Forall_app in Hs as [Hs1 Hs2]. destruct (Hc l Hs1) as (f1 & H1 & HF1).
      rewrite H1. destruct (IH Hs2 (l ++ f1)) as (f2 & H2 & HF2). cbn [mbind option_bind].
      exists (f1 ++ f2). rewrite app_assoc. split; [exact H2|]. by apply Forall2_app.
Qed.

Section Build.
Context (natts : node -> nat) (pkeys : node -> list string).

Lemma sig_step_leaves (t : sgTreeNode) (sgs : list subGoal) (st st' : list sigNode * bool) :
  for_list sgs (sig_step natts pkeys t) st = Some st' ->
  Forall new_leaf (mjoin (fillLeafNode <$> st.1)) -> Forall new_leaf (mjoin (fillLeafNode <$> st'.1)).
Proof.
  revert st. induction sgs as [|s sgs IH]; intros [cs b] H Hf; cbn [for_list] in H; [by injection H as <-|].
  destruct (sig_step natts pkeys t s (cs, b)) as [[cs1 b1]|] eqn:Hs; [|done]. cbn [mbind option_bind] in H.
  apply (IH (cs1, b1) H). unfold sig_step in Hs.
  destruct (sgInChildSGLists s t) as [b'|]; [|done]. cbn [mbind option_bind] in Hs. destruct b'.
  - by injection Hs as <- _.
  - destruct (nattr natts s); [|done]. cbn [mbind option_bind] in Hs.
    destruct (if (_ =? _)%Z then _ else _); [|done]. injection Hs as <- _. cbn [fst] in *.
    rewrite fmap_app, join_app. apply Forall_app. split; [done|]. simpl. by repeat constructor.
Qed.

(** The children of a node, over the list of its subtrees. *)
Definition build_kids : list sgTreeNode -> option (list sigNode) :=
  fix build (kids : list sgTreeNode) : option (list sigNode) :=
    match kids with
    | [] => Some []
    | k :: kids => cs ← buildSigTree natts pkeys k; l ← build kids; Some (SigNode zero_info cs :: l)
    end.

Lemma buildSigTree_leaves (t : sgTreeNode) (cs : list sigNode) :
  buildSigTree natts pkeys t = Some cs -> Forall new_leaf (mjoin (fillLeafNode <$> cs)).
Proof.
  revert cs. induction t as [b n l kids IH] using sg_tree_ind'. intros cs.
  cbn [buildSigTree]. destruct l as [|sgs l]; [by intros [= <-]|].
  destruct (for_list sgs _ _) as [[cs0 stuck]|] eqn:Hs; [|done]. cbn [mbind option_bind].
  apply sig_step_leaves in Hs; [|done]. cbn [fst] in Hs. fold build_kids.
  assert (Hk : forall subs, build_kids kids = Some subs -> Forall new_leaf (mjoin (fillLeafNode <$> subs))).
  { clear Hs. induction IH as [|k kids Hk _ IHk]; intros subs H; simpl in H; [by injection H as <-|].
    destruct (buildSigTree natts pkeys k) as [ks|] eqn:Hb; [|done]. cbn [mbind option_bind] in H.
    fold build_kids in H. destruct (build_kids kids) as [subs'|]; [|done]. injection H as <-.
    csimpl. apply Forall_app. split; [by apply Hk|by apply IHk]. }
  destruct (build_kids kids) as [subs|]; [|done]. cbn [mbind option_bind]. specialize (Hk subs eq_refl).
  destruct subs as [|s subs].
  - destruct stuck; [done|]. by intros [= <-].
  - intros [= <-]. rewrite fmap_app, join_app. by apply Forall_app.
Qed.

Lemma nonJoined_leaves (sgRoot : sgTreeNode) (fr : list node) (l l' : list sigNode) :
  for_list fr (fun n leaves =>
       b ← relIsJoined n sgRoot;
       Some (if (b : bool) then leaves
             else leaves ++ [SigNode (leaf_info true (mk_sg (nodeGetFields n) (Some n))) []])) l = Some l' ->
  Forall new_leaf (mjoin (fillLeafNode <$> l)) -> Forall new_leaf (mjoin (fillLeafNode <$> l')).
Proof.
  revert l. induction fr as [|n fr IH]; intros l H Hf; cbn [for_list] in H; [by injection H as <-|].
  destruct (relIsJoined n sgRoot) as [b|]; [|done]. cbn [mbind option_bind] in H. apply (IH _ H).
  destruct b; [done|]. rewrite fmap_app, join_app. apply Forall_app. split; [done|].
  simpl. repeat constructor. by eexists.
Qed.

Lemma addNonJoined_leaves (sgRoot : sgTreeNode) (cs : list sigNode) (fr : list node) (root : sigNode) :
  addNonJoinedRelation sgRoot (SigNode zero_info cs) fr = Some root ->
  Forall new_leaf (mjoin (fillLeafNode <$> cs)) -> Forall new_leaf (fillLeafNode root).
Proof.
  intros H Hf. unfold addNonJoinedRelation, nonJoined in H.
  destruct (for_list fr _ []) as [leaves|] eqn:Hl; [|done]. cbn [mbind option_bind] in H.
  apply nonJoined_leaves in Hl; [|constructor].
  destruct leaves as [|x leaves]; [by injection H as <-|]. injection H as <-.
  destruct (tree_attrCount sgRoot =? 0).
  - change (Forall new_leaf (mjoin (fillLeafNode <$> ((x :: leaves) ++ cs)))).
    rewrite fmap_app, join_app. by apply Forall_app.
  - change (Forall new_leaf (mjoin (fillLeafNode <$> ((x :: leaves) ++ [SigNode zero_info cs])))).
    rewrite fmap_app, join_app. apply Forall_app. split; [done|]. csimpl. by rewrite app_nil_r.
Qed.

Lemma process_leaves (fr : list node) (l : list sgList) (g : signature) :
  ProcessSignature natts pkeys fr l = Some g ->
  exists raw, sigTreeRoot g = decorate raw /\ is1Scan (decorate raw) = Some (isOneScan g) /\
    Forall new_leaf (fillLeafNode raw).
Proof.
  unfold ProcessSignature. destruct (buildSGTree _ l 0) as [t|]; [|done]. cbn [mbind option_bind].
  destruct (buildSigTree natts pkeys t) as [cs|] eqn:Hb; [|done]. cbn [mbind option_bind].
  destruct (addNonJoinedRelation t (SigNode zero_info cs) fr) as [root|] eqn:Ha; [|done]. cbn [mbind option_bind].
  destruct (is1Scan (decorate root)) as [b|] eqn:H1; [|done]. intros [= <-].
  exists root. split_and!; try done. eapply addNonJoined_leaves; [done|]. by eapply buildSigTree_leaves.
Qed.
End Build.

(** What the leaves keep of their positions and subgoals under [decorate]. *)
Lemma skel_fill (t : sigNode) : skel_info <$> fillLeafNode t = fillLeafNode (skel t).
Proof.
  induction t as [i cs IH] using sigNode_ind'. simpl. destruct (isLeaf i); [done|].
  induction IH as [|c cs Hc _ IH]; [done|]. csimpl. by rewrite fmap_app, Hc, IH.
Qed.

Lemma decorate_skel (t : sigNode) : skel (decorate t) = skel t.
Proof. change (decorate t) with (attributes (derivePos t 0).1). by rewrite attributes_skel, derivePos_skel. Qed.

Lemma pos_on_first (f : sigInfo -> nat -> sigInfo) (count : list sigNode -> nat) (cs : list sigNode) :
  (forall i n, pos (f i n) = pos i /\ isLeaf (f i n) = isLeaf i) ->
  pos <$> mjoin (fillLeafNode <$> on_first f count cs) = pos <$> mjoin (fillLeafNode <$> cs).
Proof.
  intros Hf. destruct cs as [|[i kids] cs]; [done|]. simpl. destruct (isLeaf i) eqn:Hl; [|by csimpl; rewrite Hl].
  csimpl. destruct (Hf i (count cs)) as [H1 H2]. rewrite H2, Hl. simpl. by rewrite H1.
Qed.

Lemma pos_cal (f : sigInfo -> nat -> sigInfo) (count : list sigNode -> nat) (cal : sigNode -> sigNode)
    (t : sigNode) :
  (forall i n, pos (f i n) = pos i /\ isLeaf (f i n) = isLeaf i) ->
  (forall i cs, cal (SigNode i cs) = SigNode i (on_first f count (cal <$> cs))) ->
  pos <$> fillLeafNode (cal t) = pos <$> fillLeafNode t.
Proof.
  intros Hf Hcal. induction t as [i cs IH] using sigNode_ind'. rewrite Hcal. cbn [fillLeafNode].
  destruct (isLeaf i); [done|]. rewrite pos_on_first by done.
  induction IH as [|c cs Hc _ IH]; [done|]. csimpl. by rewrite !fmap_app, Hc, IH.
Qed.

Lemma decorate_pos (t : sigNode) : pos <$> fillLeafNode (decorate t) = seq 0 (leafDescendentCount t).
Proof.
  unfold decorate.
  rewrite (pos_cal set_domain (sum_list_with leafDescendentCount) calDomain) by done.
  rewrite (pos_cal set_varsToCombine length calSib) by done.
  rewrite (proj1 (derivePos_fill t 0)), leafDescendentCount_fill. unfold number.
  rewrite fmap_imap. apply list_eq. intros k. rewrite list_lookup_imap.
  destruct (decide (k < length (fillLeafNode t))) as [Hk|Hk].
  - destruct (lookup_lt_is_Some_2 _ _ Hk) as [i Hi]. rewrite Hi. simpl. by rewrite lookup_seq_lt.
  - rewrite (lookup_ge_None_2 (fillLeafNode t)) by lia. rewrite (lookup_ge_None_2 (seq _ _)); [done|]. rewrite length_seq. lia.
Qed.
