(* ===== verification/SigLists.v ===== *)
(** * SigLists: properties of subgoal lists

    The comparison of subgoal lists as a comparison of sets of relations, the loops
    over lists as filters, and the size arguments for the subgoal tree. *)
From Stdlib Require Import Strings.String.
From stdpp Require Import strings.
From S2P Require Import Prelude.
From S2P Require Import Signature.
From S2P Require Import SigTree.
Open Scope nat_scope.

(** ** Comparison *)

(** The relation of a subgoal, as [sgInsgList] reads it. *)
Definition rel_key (s : subGoal) : nat * list string := (length (fields s), removelast (fields s)).
Definition keys (l : sgList) : gset (nat * list string) := list_to_set (rel_key <$> l).

Lemma same_prefix_spec (s t : subGoal) :
  same_prefix (fields t) (fields s) = true <-> rel_key t = rel_key s.
Proof.
  unfold same_prefix, rel_key. rewrite andb_true_iff, Nat.eqb_eq, bool_decide_eq_true.
  split; [by intros [-> ->]|by intros [= -> ->]].
Qed.

Lemma sgInsgList_spec (s : subGoal) (l : sgList) : sgInsgList s l = true <-> rel_key s ∈ keys l.
Proof.
  unfold sgInsgList, keys. rewrite existsb_exists, elem_of_list_to_set, list_elem_of_fmap.
  setoid_rewrite same_prefix_spec. setoid_rewrite <- list_elem_of_In.
  split; intros (t & H1 & H2); exists t; by split.
Qed.

(** Every subgoal of the first list has its relation in the second. *)
Definition covered (l1 l2 : sgList) : Prop := keys l1 ⊆ keys l2.

Lemma elem_of_keys (k : nat * list string) (l : sgList) : k ∈ keys l <-> exists s, s ∈ l /\ k = rel_key s.
Proof. unfold keys. rewrite elem_of_list_to_set, list_elem_of_fmap. split; intros (s & H1 & H2); exists s; by split. Qed.

Lemma joint_le (l1 l2 : sgList) : joint l1 l2 <= length l1.
Proof. apply length_filter. Qed.

Lemma keys_nil : keys [] = ∅.
Proof. done. Qed.
Lemma keys_cons (s : subGoal) (l : sgList) : keys (s :: l) = {[rel_key s]} ∪ keys l.
Proof. done. Qed.

Lemma union_sub (k : nat * list string) (X Y : gset (nat * list string)) :
  ({[k]} ∪ X) ⊆ Y <-> k ∈ Y /\ X ⊆ Y.
Proof. set_solver. Qed.
Lemma union_disjoint (k : nat * list string) (X Y : gset (nat * list string)) :
  disjoint ({[k]} ∪ X) Y <-> (k ∉ Y) /\ disjoint X Y.
Proof. set_solver. Qed.

Lemma joint_cons (s : subGoal) (l1 l2 : sgList) :
  joint (s :: l1) l2 = if decide (rel_key s ∈ keys l2) then S (joint l1 l2) else joint l1 l2.
Proof.
  unfold joint. rewrite filter_cons.
  destruct (decide (sgInsgList s l2 = true)) as [H|H], (decide (rel_key s ∈ keys l2)) as [H'|H'];
    rewrite sgInsgList_spec in H; done.
Qed.

Lemma joint_full (l1 l2 : sgList) : joint l1 l2 = length l1 <-> covered l1 l2.
Proof.
  unfold covered. induction l1 as [|s l1 IH].
  - rewrite keys_nil. split; [|done]. intros _. apply empty_subseteq.
  - rewrite keys_cons, union_sub, joint_cons, <- IH. pose proof (joint_le l1 l2). simpl.
    case_decide; split.
    + intros ?. split; [done|lia].
    + intros [_ ?]. lia.
    + intros ?. lia.
    + by intros [? _].
Qed.

Lemma joint_empty (l1 l2 : sgList) : joint l1 l2 = 0 <-> keys l1 ## keys l2.
Proof.
  induction l1 as [|s l1 IH].
  - rewrite keys_nil. split; [|done]. intros _. apply disjoint_empty_l.
  - rewrite keys_cons, union_disjoint, joint_cons, <- IH. case_decide; split.
    + lia.
    + by intros [? _].
    + by intros ?.
    + by intros [_ ?].
Qed.

(** [SG_LESS] is a strict inclusion, whatever the lists. *)
Lemma sg_less_covered (l1 l2 : sgList) :
  sgListcmp l1 l2 = SG_LESS <-> covered l1 l2 /\ length l1 < length l2.
Proof.
  rewrite <- joint_full. unfold sgListcmp, sgCount. pose proof (joint_le l1 l2).
  destruct (Nat.eqb_spec (joint l1 l2) (length l1)), (Nat.eqb_spec (joint l1 l2) (length l2)),
    (Nat.ltb_spec (joint l1 l2) (length l2)), (Nat.ltb_spec (joint l1 l2) (length l1)),
    (Nat.eqb_spec (joint l1 l2) 0); simpl; split; intros; (done || lia || naive_solver lia).
Qed.

(** With one subgoal per relation the lists are compared as sets. *)
Definition distinct_rels (l : sgList) : Prop := NoDup (rel_key <$> l).

Lemma size_keys (l : sgList) : distinct_rels l -> size (keys l) = length l.
Proof.
  intros H. unfold keys. rewrite size_list_to_set by done. by rewrite length_fmap.
Qed.

Lemma joint_size (l1 l2 : sgList) : distinct_rels l1 -> joint l1 l2 = size (keys l1 ∩ keys l2).
Proof.
  intros H. unfold joint. set (f := filter (fun s => sgInsgList s l2 = true) l1).
  assert (Hf : distinct_rels f).
  { unfold f, distinct_rels in *. induction l1 as [|s l1 IH]; [done|]. rewrite filter_cons. csimpl in H.
    apply NoDup_cons in H as [Hs H]. destruct (decide _); [|by apply IH]. csimpl.
    apply NoDup_cons. split; [|by apply IH]. intros (t & Ht & [_ Hin]%list_elem_of_filter)%list_elem_of_fmap.
    apply Hs. rewrite Ht. by apply list_elem_of_fmap_2. }
  rewrite <- size_keys by done. f_equal. apply set_eq. intros k.
  rewrite elem_of_intersection, !elem_of_keys. split.
  - intros (s & [Hs Hin]%list_elem_of_filter & ->). apply sgInsgList_spec, elem_of_keys in Hs as (t & Ht & Hk).
    split; [by exists s|by exists t].
  - intros [(s & Hs & ->) Hk]. exists s. split; [|done]. apply list_elem_of_filter. split; [|done].
    by apply sgInsgList_spec, elem_of_keys.
Qed.

(** The reference comparison of two sets. *)
Definition set_relation (K1 K2 : gset (nat * list string)) (c : sgcmp) : Prop :=
  match c with
  | SG_EQUAL => K1 = K2
  | SG_LESS => K1 ⊂ K2
  | SG_GREAT => K2 ⊂ K1
  | SG_DISJOINT => K1 ## K2 /\ K1 <> ∅ /\ K2 <> ∅
  | SG_INTERSECT => ~ K1 ## K2 /\ ~ K1 ⊆ K2 /\ ~ K2 ⊆ K1
  | SG_UNKNOWCMP => False
  end.

Lemma inter_full (K1 K2 : gset (nat * list string)) : size (K1 ∩ K2) = size K1 <-> K1 ⊆ K2.
Proof.
  split.
  - intros H. assert (He : K1 ∩ K2 = K1) by (apply leibniz_equiv, set_subseteq_size_equiv; [set_solver|lia]).
    set_solver.
  - intros H. f_equal. set_solver.
Qed.

Lemma inter_le (K1 K2 : gset (nat * list string)) : size (K1 ∩ K2) <= size K1 /\ size (K1 ∩ K2) <= size K2.
Proof. split; apply subseteq_size; set_solver. Qed.

Lemma cmp_set_relation (l1 l2 : sgList) :
  distinct_rels l1 -> distinct_rels l2 -> set_relation (keys l1) (keys l2) (sgListcmp l1 l2).
Proof.
  intros H1 H2. unfold sgListcmp, sgCount. rewrite joint_size by done.
  rewrite <- (size_keys l1), <- (size_keys l2) by done.
  generalize (keys l1) (keys l2). clear. intros K1 K2.
  pose proof (inter_full K1 K2) as Hf1. pose proof (inter_full K2 K1) as Hf2.
  rewrite (intersection_comm_L K2 K1) in Hf2. pose proof (inter_le K1 K2) as [Hle1 Hle2].
  assert (H0 : size (K1 ∩ K2) = 0 <-> K1 ## K2).
  { rewrite size_empty_iff. set_solver. }
  assert (Hn1 : size K1 = 0 <-> K1 = ∅) by (rewrite size_empty_iff; by rewrite leibniz_equiv_iff).
  assert (Hn2 : size K2 = 0 <-> K2 = ∅) by (rewrite size_empty_iff; by rewrite leibniz_equiv_iff).
  revert Hle1 Hle2 Hf1 Hf2 H0 Hn1 Hn2. generalize (size (K1 ∩ K2)) (size K1) (size K2). intros j c1 c2.
  intros Hle1 Hle2 Hf1 Hf2 H0 Hn1 Hn2.
  destruct (Nat.eqb_spec j c1) as [E1|E1], (Nat.eqb_spec j c2) as [E2|E2]; simpl.
  - apply set_eq. apply Hf1 in E1. apply Hf2 in E2. set_solver.
  - replace (j <? c2) with true by (symmetry; apply Nat.ltb_lt; lia). simpl.
    split; [by apply Hf1|]. rewrite <- Hf2. done.
  - replace (j <? c1) with true by (symmetry; apply Nat.ltb_lt; lia). simpl.
    split; [by apply Hf2|]. rewrite <- Hf1. done.
  - destruct (Nat.eqb_spec j 0) as [E0|E0]; simpl.
    + split_and!; [by apply H0|rewrite <- Hn1; lia|rewrite <- Hn2; lia].
    + rewrite <- H0, <- Hf1, <- Hf2. done.
Qed.

(** ** Loops over lists *)

(** The elements that are not marked. *)
Definition unmarked (l : list sgList) (rm : list bool) : list sgList :=
  fst <$> filter (fun p => p.2 = false) (zip l rm).

Lemma delete_middle_eq {A} (l1 : list A) (x : A) (l2 : list A) (k : nat) :
  k = length l1 -> delete k (l1 ++ x :: l2) = l1 ++ l2.
Proof. intros ->. apply delete_middle. Qed.

Lemma unmarked_snoc (l : list sgList) (rm : list bool) (i : nat) (x : sgList) (b : bool) :
  l !! i = Some x -> rm !! i = Some b ->
  unmarked (take (S i) l) (take (S i) rm) = unmarked (take i l) (take i rm) ++ (if b then [] else [x]).
Proof.
  intros Hx Hb. unfold unmarked. rewrite (take_S_r _ _ _ Hx), (take_S_r _ _ _ Hb).
  rewrite zip_with_app by (rewrite !length_take; apply lookup_lt_Some in Hx, Hb; lia).
  rewrite filter_app, fmap_app. f_equal. simpl. rewrite filter_cons. by destruct b.
Qed.

Lemma rmNthLists_spec (l : list sgList) (rm : list bool) :
  length rm = length l -> rmNthLists l rm (length l) = Some (unmarked l rm).
Proof.
  intros Hlen. unfold rmNthLists.
  destruct (for_upto_inv (fun i (st : list sgList * nat) =>
      st.1 = unmarked (take i l) (take i rm) ++ drop i l /\
      st.2 + length (unmarked (take i l) (take i rm)) = i) (length l)
    (fun i '(l, count) => b ← rm !! i;
       if (b : bool) then l ← rmNthList l (i - count); Some (l, S count) else Some (l, count)) (l, 0))
    as ([l' c] & -> & Hl & _).
  - split; [|done]. by rewrite drop_0.
  - intros i [l1 c] Hi [Hl1 Hc]. cbn [fst snd] in Hl1, Hc. subst l1.
    destruct (lookup_lt_is_Some_2 rm i) as [b Hb]; [lia|]. destruct (lookup_lt_is_Some_2 l i) as [x Hx]; [lia|].
    rewrite Hb. cbn [mbind option_bind]. rewrite (unmarked_snoc _ _ _ _ _ Hx Hb).
    rewrite (drop_S _ _ _ Hx). set (u := unmarked (take i l) (take i rm)) in *.
    destruct b.
    + unfold rmNthList. rewrite length_app. simpl.
      replace (i - c <? length u + S (length (drop (S i) l))) with true by (symmetry; apply Nat.ltb_lt; lia).
      cbn [mbind option_bind]. eexists. split; [done|]. simpl. rewrite app_nil_r.
      split; [apply delete_middle_eq; lia|lia].
    + eexists. split; [done|]. simpl. rewrite <- app_assoc, length_app. simpl. split; [done|lia].
  - cbn [fst] in Hl. simpl. by rewrite Hl, !take_ge, drop_all, app_nil_r by lia.
Qed.

(** Marking by a test. *)
Lemma unmarked_test (l : list sgList) (q : sgList -> bool) :
  unmarked l (q <$> l) = filter (fun x => q x = false) l.
Proof.
  unfold unmarked. induction l as [|x l IH]; [done|]. csimpl. rewrite filter_cons, filter_cons. simpl.
  by destruct (q x); simpl; rewrite <- IH.
Qed.

(** A loop over all positions is a fold. *)
Lemma for_upto_foldl {A St} (l : list A) (f : St -> A -> St) (a : St) :
  for_upto (length l) (fun j acc => x ← l !! j; Some (f acc x)) a = Some (foldl f a l).
Proof.
  destruct (for_upto_inv (fun i acc => acc = foldl f a (take i l)) (length l)
    (fun j acc => x ← l !! j; Some (f acc x)) a) as (acc & -> & ->).
  - done.
  - intros i acc Hi ->. destruct (lookup_lt_is_Some_2 l i) as [x Hx]; [done|].
    rewrite Hx. eexists. split; [done|]. by rewrite (take_S_r _ _ _ Hx), foldl_app.
  - by rewrite take_ge by done.
Qed.

Lemma foldl_andb {A} (p : A -> bool) (b : bool) (l : list A) :
  foldl (fun acc x => acc && p x) b l = b && forallb p l.
Proof.
  revert b. induction l as [|x l IH]; intros b; simpl; [by rewrite andb_true_r|].
  by rewrite IH, andb_assoc.
Qed.

Definition is_max (l : list sgList) (x : sgList) : bool :=
  forallb (fun y => negb (bool_decide (sgListcmp x y = SG_LESS))) l.

Lemma filter_snoc {A} (q : A -> bool) (l : list A) (x : A) :
  filter (fun x => q x = true) (l ++ [x]) =
  filter (fun x => q x = true) l ++ (if q x then [x] else []).
Proof. rewrite filter_app, filter_cons. by destruct (q x). Qed.

(** Marking and collecting, element by element. *)
Lemma mark_insert (q : sgList -> bool) (l : list sgList) (i : nat) (x : sgList) (k : nat) :
  l !! i = Some x -> k = length l - i ->
  <[i := true]> ((q <$> take i l) ++ replicate k false) = (q <$> take i l) ++ true :: replicate (k - 1) false.
Proof.
  intros Hx ->. pose proof (lookup_lt_Some _ _ _ Hx) as Hi.
  rewrite insert_app_r_alt by (rewrite length_fmap, length_take; lia).
  rewrite length_fmap, length_take_le, Nat.sub_diag by lia.
  destruct (length l - i) as [|k] eqn:Hk; [lia|]. simpl. by rewrite Nat.sub_0_r.
Qed.

Lemma mark_skip (q : sgList -> bool) (l : list sgList) (i k : nat) :
  i < length l -> k = length l - i ->
  (q <$> take i l) ++ replicate k false = (q <$> take i l) ++ false :: replicate (k - 1) false.
Proof.
  intros Hi ->. destruct (length l - i) as [|k] eqn:Hk; [lia|]. simpl. by rewrite Nat.sub_0_r.
Qed.

Theorem findMax_spec (l : list sgList) :
  findMax l = Some (rev (filter (fun x => is_max l x = true) l), filter (fun x => is_max l x = false) l).
Proof.
  unfold findMax, sgListCount, getNthList.
  destruct (for_upto_inv (fun i (st : list sgList * list bool) =>
      st.1 = rev (filter (fun x => is_max l x = true) (take i l)) /\
      st.2 = (is_max l <$> take i l) ++ replicate (length l - i) false) (length l)
    (fun i '(result, rm) =>
       l1 ← l !! i;
       isMaximal ← for_upto (length l)
         (fun j isMaximal => l2 ← l !! j; Some (isMaximal && negb (bool_decide (sgListcmp l1 l2 = SG_LESS)))) true;
       if (isMaximal : bool) then Some (l1 :: result, <[i := true]> rm) else Some (result, rm))
    ([], replicate (length l) false)) as ([result rm] & -> & Hr & Hm).
  - by rewrite Nat.sub_0_r.
  - intros i [result rm] Hi [Hr Hm]. cbn [fst snd] in Hr, Hm. subst result rm.
    destruct (lookup_lt_is_Some_2 l i) as [x Hx]; [lia|]. rewrite Hx. cbn [mbind option_bind].
    rewrite (for_upto_foldl l (fun acc y => acc && negb (bool_decide (sgListcmp x y = SG_LESS)))), foldl_andb.
    cbn [mbind option_bind andb]. fold (is_max l x).
    rewrite (take_S_r _ _ _ Hx), filter_snoc, rev_app_distr, fmap_app, <- app_assoc.
    replace (length l - S i) with (length l - i - 1) by lia. csimpl.
    destruct (is_max l x) eqn:Hq; eexists; (split; [done|]); cbn [fst snd rev app]; (split; [done|]).
    + by eapply mark_insert.
    + by apply mark_skip.
  - cbn [fst snd] in Hr, Hm. cbn [mbind option_bind]. rewrite take_ge, Nat.sub_diag, app_nil_r in * by done.
    subst. rewrite rmNthLists_spec by (by rewrite length_fmap). cbn [mbind option_bind].
    by rewrite unmarked_test.
Qed.

Definition joins (first x : sgList) : bool := bool_decide (sgListcmp first x <> SG_DISJOINT).

Theorem findDisjoint_spec (first : sgList) (l : list sgList) :
  findDisjoint (first :: l) =
    Some (rev (filter (fun x => joins first x = true) l) ++ [first], filter (fun x => joins first x = false) l).
Proof.
  unfold findDisjoint, sgListCount, getNthList. cbn [length].
  assert (Hfirst : (first :: l) !! 0 = Some first) by done. rewrite Hfirst. cbn [mbind option_bind].
  replace (S (length l) - 1) with (length l) by lia.
  cbn [replicate insert list_insert].
  destruct (for_list_inv (fun dn (st : list sgList * list bool) =>
      st.1 = rev (filter (fun x => joins first x = true) (take (length dn) l)) ++ [first] /\
      st.2 = true :: (joins first <$> take (length dn) l) ++ replicate (length l - length dn) false)
    (seq 1 (length l))
    (fun i '(result, rm) =>
       cmp ← (first :: l) !! i;
       if bool_decide (sgListcmp first cmp <> SG_DISJOINT)
       then Some (cmp :: result, <[i := true]> rm) else Some (result, rm))
    ([first], true :: replicate (length l) false)) as ([result rm] & Hrun & Hr & Hm).
  - by rewrite Nat.sub_0_r.
  - intros l1 a l2 [result rm] Hl [Hr Hm]. cbn [fst snd] in Hr, Hm. subst result rm.
    assert (Ha : a = S (length l1) /\ length l1 < length l).
    { pose proof (f_equal length Hl) as Hlen. rewrite length_seq, length_app in Hlen. simpl in Hlen.
      assert (Hlk : seq 1 (length l) !! length l1 = Some a) by (rewrite Hl; by apply list_lookup_middle).
      apply lookup_seq in Hlk. lia. }
    destruct Ha as [-> Hi].
    destruct (lookup_lt_is_Some_2 l (length l1)) as [x Hx]; [lia|].
    assert (Hx' : (first :: l) !! S (length l1) = Some x) by done. rewrite Hx'. cbn [mbind option_bind].
    rewrite length_app. cbn [length]. rewrite Nat.add_1_r.
    rewrite (take_S_r _ _ _ Hx), filter_snoc, rev_app_distr, fmap_app, <- !app_assoc.
    replace (length l - S (length l1)) with (length l - length l1 - 1) by lia. csimpl.
    fold (joins first x). unfold joins at 1 2. 
    destruct (bool_decide (sgListcmp first x <> SG_DISJOINT)) eqn:Hq; fold (joins first x) in Hq; rewrite ?Hq;
      eexists; (split; [done|]); cbn [fst snd rev app]; (split; [done|]).
    + cbn [insert list_insert]. f_equal. by eapply mark_insert.
    + f_equal. by apply mark_skip.
  - cbn [fst snd] in Hr, Hm. rewrite length_seq, take_ge, Nat.sub_diag, app_nil_r in * by done.
    rewrite Hrun. cbn [mbind option_bind]. subst.
    change (S (length l)) with (length (first :: l)).
    rewrite rmNthLists_spec by (simpl; by rewrite !length_fmap). cbn [mbind option_bind]. unfold unmarked. simpl. rewrite filter_cons. simpl.
    by rewrite <- unmarked_test.
Qed.

(** ** Tests over pairs *)

Definition pairwise (test : sgcmp -> bool) (l : list sgList) : Prop :=
  forall i j a b, i < j -> l !! i = Some a -> l !! j = Some b -> test (sgListcmp a b) = true.

Lemma all_pairs_spec (l : list sgList) (test : sgcmp -> bool) :
  exists b, all_pairs l test = Some b /\ (b = true <-> pairwise test l).
Proof.
  unfold all_pairs, sgListCount, getNthList.
  set (q := fun i j => match l !! i, l !! j with
                       | Some a, Some b => test (sgListcmp a b)
                       | _, _ => true
                       end).
  rewrite (for_all_spec _ _ (fun i => forallb (q i) (seq (S i) (length l - S i)))).
  2: { intros i Hi%elem_of_seq. destruct (lookup_lt_is_Some_2 l i) as [a Ha]; [lia|]. rewrite Ha.
       cbn [mbind option_bind]. apply for_all_spec. intros j Hj%elem_of_seq.
       destruct (lookup_lt_is_Some_2 l j) as [b Hb]; [lia|]. unfold q. by rewrite Ha, Hb. }
  eexists. split; [done|]. rewrite forallb_forall. split.
  - intros H i j a b Hij Ha Hb. pose proof (lookup_lt_Some _ _ _ Hb).
    specialize (H i). rewrite in_seq, forallb_forall in H. specialize (H ltac:(lia) j).
    rewrite in_seq in H. specialize (H ltac:(lia)). unfold q in H. by rewrite Ha, Hb in H.
  - intros H i Hi%in_seq. apply forallb_forall. intros j Hj%in_seq. unfold q.
    destruct (l !! i) as [a|] eqn:Ha; [|done]. destruct (l !! j) as [b|] eqn:Hb; [|done].
    apply (H i j); (done || lia).
Qed.

Lemma sameLists_spec (l : list sgList) : exists b, sameLists l = Some b.
Proof.
  unfold sameLists. destruct (_ =? 1); [by eexists|].
  destruct (all_pairs_spec l (fun c => bool_decide (c = SG_EQUAL))) as (b & Hb & _). by exists b.
Qed.

(** ** The subgoal tree *)

(** All lists of a tree. *)
Fixpoint tree_lists (t : sgTreeNode) : list sgList :=
  let 'SgTreeNode _ _ l cs := t in l ++ mjoin (tree_lists <$> cs).

Lemma filter_split {A} (q : A -> bool) (l : list A) :
  filter (fun x => q x = true) l ++ filter (fun x => q x = false) l ≡ₚ l.
Proof.
  induction l as [|x l IH]; [done|]. rewrite !filter_cons. destruct (q x); simpl; [by rewrite IH|].
  by rewrite <- Permutation_middle, IH.
Qed.

(** Some list is not below another one. *)
Lemma is_max_exists (l : list sgList) : l <> [] -> exists x, x ∈ l /\ is_max l x = true.
Proof.
  intros Hne.
  assert (Hbig : exists x, x ∈ l /\ forall y, y ∈ l -> length y <= length x).
  { clear -Hne. induction l as [|x l IH]; [done|]. destruct l as [|z l].
    - exists x. split; [apply list_elem_of_here|]. intros y ->%list_elem_of_singleton. done.
    - destruct IH as (m & Hm & Hmax); [done|]. destruct (decide (length m <= length x)) as [Hle|Hle].
      + exists x. split; [apply list_elem_of_here|]. intros y [->|Hy]%elem_of_cons; [done|].
        specialize (Hmax y Hy). lia.
      + exists m. split; [by apply list_elem_of_further|]. intros y [->|Hy]%elem_of_cons; [lia|by apply Hmax]. }
  destruct Hbig as (x & Hx & Hmax). exists x. split; [done|]. unfold is_max. apply forallb_forall.
  intros y Hy%list_elem_of_In. apply negb_true_iff, bool_decide_eq_false. rewrite sg_less_covered.
  intros [_ Hlt]. specialize (Hmax y Hy). lia.
Qed.

Lemma rest_shorter (l : list sgList) :
  l <> [] -> length (filter (fun x => is_max l x = false) l) < length l.
Proof.
  intros H. pose proof (Permutation_length (filter_split (is_max l) l)) as Hp. rewrite length_app in Hp.
  destruct (is_max_exists l H) as (x & Hx & Hm).
  assert (Hin : x ∈ filter (fun x => is_max l x = true) l) by (by apply list_elem_of_filter).
  destruct (filter (fun x => is_max l x = true) l); [by apply elem_of_nil in Hin|]. simpl in Hp. lia.
Qed.

Lemma split_children_spec (fuel : nat) (l : list sgList) :
  length l <= fuel ->
  exists gs, split_children fuel l = Some gs /\ mjoin gs ≡ₚ l /\ Forall (fun g => length g <= length l) gs.
Proof.
  revert l. induction fuel as [|fuel IH]; intros [|x l] Hf; simpl in Hf; try lia.
  - exists []. by split_and!.
  - exists []. by split_and!.
  - cbn [split_children]. rewrite findDisjoint_spec. cbn [mbind option_bind].
    pose proof (filter_split (joins x) l) as Hp.
    destruct (IH (filter (fun y => joins x y = false) l)) as (gs & -> & Hgs & Hle).
    { etrans; [apply length_filter|lia]. }
    cbn [mbind option_bind]. eexists. split; [done|]. split.
    + csimpl. rewrite Hgs, <- Permutation_rev, <- app_assoc. simpl.
      rewrite <- Permutation_middle. by rewrite Hp.
    + constructor.
      * rewrite length_app, length_rev. simpl. rewrite Nat.add_1_r.
        apply le_n_S, length_filter.
      * eapply Forall_impl; [exact Hle|]. simpl. intros g Hg.
        pose proof (length_filter (fun y => joins x y = false) l). lia.
Qed.

Lemma mapM_total {A B} (f : A -> option B) (R : A -> B -> Prop) (l : list A) :
  Forall (fun a => exists b, f a = Some b /\ R a b) l ->
  exists k, mapM f l = Some k /\ Forall2 R l k.
Proof.
  induction 1 as [|a l (b & Hb & HR) _ (k & Hk & IH)]; [by exists []|].
  exists (b :: k). simpl. rewrite Hb. cbn [mbind option_bind]. rewrite Hk. by split; [|constructor].
Qed.

(** With one more round than lists the tree is built, and it holds exactly the lists. *)
Theorem buildSGTree_total (fuel : nat) (l : list sgList) (n : nat) :
  length l < fuel -> exists t, buildSGTree fuel l n = Some t /\ tree_lists t ≡ₚ l.
Proof.
  revert l n. induction fuel as [|fuel IH]; intros l n Hf; [lia|]. cbn [buildSGTree].
  destruct (sameLists_spec l) as [[] Hs]; rewrite Hs; cbn [mbind option_bind].
  - eexists. split; [done|]. simpl. by rewrite app_nil_r.
  - rewrite findMax_spec. cbn [mbind option_bind].
    assert (Hne : l <> []) by (by intros ->).
    pose proof (rest_shorter l Hne) as Hlt. pose proof (filter_split (is_max l) l) as Hp.
    set (rest := filter (fun x => is_max l x = false) l) in *.
    destruct (split_children_spec (length rest) rest) as (gs & -> & Hgs & Hle); [done|].
    cbn [mbind option_bind].
    destruct (mapM_total (fun g => buildSGTree fuel g (sgListCount (rev (filter (fun x => is_max l x = true) l)) + n))
      (fun g t => tree_lists t ≡ₚ g) gs) as (cs & Hcs & Hall).
    { eapply Forall_impl; [exact Hle|]. simpl. intros g Hg. apply IH. lia. }
    rewrite Hcs. cbn [mbind option_bind]. eexists. split; [done|]. cbn [tree_lists].
    etrans; [|exact Hp]. rewrite <- Permutation_rev, <- Hgs. apply Permutation_app_head. clear -Hall.
    induction Hall as [|g t gs ts Ht _ IHa]; [done|]. csimpl. by rewrite Ht, IHa.
Qed.

(** *** Children lie below their parent *)

Lemma covered_trans (l1 l2 l3 : sgList) : covered l1 l2 -> covered l2 l3 -> covered l1 l3.
Proof. unfold covered. intros H1 H2 k Hk. by apply H2, H1. Qed.

Lemma not_max_below (l : list sgList) (x : sgList) :
  x ∈ l -> is_max l x = false ->
  exists y, y ∈ l /\ is_max l y = true /\ sgListcmp x y = SG_LESS.
Proof.
  remember (sum_list_with length l - length x) as m eqn:Hm. revert x Hm.
  induction m as [m IH] using lt_wf_ind. intros x Hm Hx Hmax.
  assert (Hex : exists y, y ∈ l /\ sgListcmp x y = SG_LESS).
  { unfold is_max in Hmax. apply not_true_iff_false in Hmax. rewrite forallb_forall in Hmax.
    destruct (decide (Exists (fun y => sgListcmp x y = SG_LESS) l)) as [He|He].
    - apply Exists_exists in He as (y & Hy & H). by exists y.
    - destruct Hmax. intros y Hy%list_elem_of_In. apply negb_true_iff, bool_decide_eq_false.
      intros H. apply He, Exists_exists. by exists y. }
  destruct Hex as (y & Hy & Hlt). destruct (is_max l y) eqn:Hmy; [by exists y|].
  pose proof (proj1 (sg_less_covered x y) Hlt) as [Hc1 Hl1].
  assert (Hbound : length y <= sum_list_with length l).
  { clear -Hy. induction l as [|z l IHl]; [by apply elem_of_nil in Hy|].
    simpl. apply elem_of_cons in Hy as [->|Hy]; [lia|]. specialize (IHl Hy). lia. }
  destruct (IH (sum_list_with length l - length y)) with (x := y) as (z & Hz & Hmz & Hlz); try done; [lia|].
  exists z. split_and!; try done. apply sg_less_covered in Hlz as [Hc2 Hl2]. apply sg_less_covered.
  split; [by eapply covered_trans|lia].
Qed.

(** Every list below a node is strictly below one of the lists of the node. *)
#[local] Set Warnings "-register-all".
Inductive nested : sgTreeNode -> Prop :=
  | nested_node b n l cs :
      Forall nested cs ->
      (forall x, x ∈ mjoin (tree_lists <$> cs) -> exists y, y ∈ l /\ sgListcmp x y = SG_LESS) ->
      nested (SgTreeNode b n l cs).

Theorem buildSGTree_nested (fuel : nat) (l : list sgList) (n : nat) (t : sgTreeNode) :
  length l < fuel -> buildSGTree fuel l n = Some t -> nested t.
Proof.
  revert l n t. induction fuel as [|fuel IH]; intros l n t Hf; [lia|]. cbn [buildSGTree].
  destruct (sameLists_spec l) as [[] Hs]; rewrite Hs; cbn [mbind option_bind].
  - intros [= <-]. constructor; [done|]. intros x Hx. by apply elem_of_nil in Hx.
  - rewrite findMax_spec. cbn [mbind option_bind].
    assert (Hne : l <> []) by (by intros ->).
    pose proof (rest_shorter l Hne) as Hlt.
    set (rest := filter (fun x => is_max l x = false) l) in *.
    destruct (split_children_spec (length rest) rest) as (gs & -> & Hgs & Hle); [done|].
    cbn [mbind option_bind]. set (k := sgListCount _ + n).
    destruct (mapM_total (fun g => buildSGTree fuel g k) (fun g t => tree_lists t ≡ₚ g /\ nested t) gs)
      as (cs & Hcs & Hall).
    { eapply Forall_impl; [exact Hle|]. simpl. intros g Hg.
      destruct (buildSGTree_total fuel g k) as (t' & Ht' & Hp); [lia|]. exists t'. split_and!; try done.
      apply (IH g k); [lia|done]. }
    rewrite Hcs. cbn [mbind option_bind]. intros [= <-].
    assert (Hp : mjoin (tree_lists <$> cs) ≡ₚ rest).
    { rewrite <- Hgs. clear -Hall. induction Hall as [|g t gs ts [Ht _] _ IHa]; [done|]. csimpl. by rewrite Ht, IHa. }
    constructor.
    + clear -Hall. induction Hall as [|g t gs ts [_ Ht] _ IHa]; by constructor.
    + intros x Hx. rewrite Hp in Hx. apply list_elem_of_filter in Hx as [Hmx Hx].
      destruct (not_max_below l x Hx Hmx) as (y & Hy & Hmy & Hxy). exists y. split; [|done].
      rewrite <- Permutation_rev. by apply list_elem_of_filter.
Qed.
