(* ===== verification/SproutGroup.v ===== *)
(** * SproutGroup: a group through the operator

    The transition functions over the rows of a group followed by [conf_final], and
    the scan of a stored lineage, both for a one-scan signature. *)
From Stdlib Require Import Strings.String.
From S2P Require Import Prelude.
From S2P Require Import Worlds.
From S2P Require Import LocalCond.
From S2P Require Import Argmax.
From S2P Require Import Signature.
From S2P Require Import Sprout.
From S2P Require Import SproutAgg.
From S2P Require Import SproutScan.
From S2P Require Import SproutRefine.
From S2P Require Import SproutProb.
From S2P Require Import SigTree.
Open Scope nat_scope.

(** The arguments of a transition function: the state and the condition columns. *)
Definition var_args (r : arow) : list datum :=
  DInt32 0 :: mjoin ((fun xp => [DInt32 xp.1; DFloat4 xp.2]) <$> r).

Lemma var_args_lookup (r : arow) (i k : nat) (xp : Z * Qc) :
  r !! i = Some xp -> k < 2 -> var_args r !! (S k + i * 2) = [DInt32 xp.1; DFloat4 xp.2] !! k.
Proof.
  intros Hi Hk. unfold var_args. rewrite Nat.add_succ_l. cbn [lookup list_lookup].
  revert i Hi. induction r as [|xp' r IH]; intros [|i] Hi; try done.
  - injection Hi as ->. rewrite Nat.add_0_r. by destruct k as [|[|]]; [| |lia].
  - csimpl. rewrite <- (IH i Hi). by rewrite !Nat.add_succ_r.
Qed.

Lemma accumulate_args (n : nat) (r : arow) (a : sproutAgg) :
  length r = n ->
  accumulate n (var_args r) a = advance (set_context a true (sp_signature a)) n r.*1 r.*2.
Proof.
  intros <-. unfold accumulate.
  assert (Hv : mapM (fun i => PG_GETARG_INT32 (var_args r) (1 + i * 2)) (seq 0 (length r)) = Some r.*1).
  { apply mapM_Some, Forall2_same_length_lookup_2; [by rewrite length_seq, length_fmap|].
    intros i j x Hj Hx. apply lookup_seq in Hj as [-> _]. rewrite list_lookup_fmap in Hx.
    destruct (r !! i) as [xp|] eqn:Hi; [|done]. injection Hx as <-.
    unfold PG_GETARG_INT32. change (0 + i) with i. by rewrite (var_args_lookup r i 0 xp) by (done || lia). }
  assert (Hp : mapM (fun i => PG_GETARG_FLOAT4 (var_args r) (2 + i * 2)) (seq 0 (length r)) = Some r.*2).
  { apply mapM_Some, Forall2_same_length_lookup_2; [by rewrite length_seq, length_fmap|].
    intros i j x Hj Hx. apply lookup_seq in Hj as [-> _]. rewrite list_lookup_fmap in Hx.
    destruct (r !! i) as [xp|] eqn:Hi; [|done]. injection Hx as <-.
    unfold PG_GETARG_FLOAT4. change (0 + i) with i. by rewrite (var_args_lookup r i 1 xp) by (done || lia). }
  rewrite Hv. cbn [mbind option_bind]. rewrite Hp. done.
Qed.

(** Several tuples of the lineage are the same tuple. *)
Lemma grouped_sat (val : Z -> Z) (k : nat) (ws R : list arow) (u : world) :
  grouped [] ws R -> Forall (fun w => length w = k) ws -> Forall (fun r => length r = k) R ->
  sat_rows val R u = sat_rows val ws u.
Proof.
  induction 1 as [|w ws g R Hg Hs _ IH]; intros Hw HR; [done|]. inversion Hw; subst.
  apply Forall_app in HR as [HRg HR]. rewrite sat_rows_app, IH by done.
  change (w :: ws) with ([w] ++ ws). rewrite sat_rows_app. f_equal. clear IH HR.
  assert (Hsame : Forall (fun r => r = w) g).
  { apply Forall_forall. intros r Hr. rewrite Forall_forall in Hs, HRg.
    destruct (Hs r Hr) as [t ->]. specialize (HRg _ Hr). simpl in HRg |- *. rewrite length_app in HRg.
    destruct t; [by rewrite app_nil_r|]. simpl in HRg. lia. }
  destruct g as [|r g]; [done|]. clear Hg Hs HRg. apply Forall_cons in Hsame as [-> Hrest].
  induction Hrest as [|r' g -> _ IH]; [done|].
  change (w :: w :: g) with ([w] ++ w :: g). rewrite sat_rows_app, IH. by destruct (sat_rows val [w] u).
Qed.

Section Group.
Context (natts : node -> nat) (pkeys : node -> list string) (g : signature).
Abbreviation infos := (fillLeafNode (sigTreeRoot g)).
Abbreviation n := (length (fillLeafNode (sigTreeRoot g))).

(** What the theorems need of the signature; [ProcessSignature] gives it. *)
Record one_scan_ok : Prop := {
  os_one : isOneScan g = true;
  os_type : Forall (fun i => type i = NOTAGGREGATED) infos;
  os_cols : cols_of infos = tcols (sig_tree (sigTreeRoot g)) }.

Lemma os_wf : one_scan_ok -> wf_cols (cols_of infos).
Proof. intros H. rewrite (os_cols H). apply wf_tcols. Qed.

Lemma os_length : one_scan_ok -> n = size (sig_tree (sigTreeRoot g)).
Proof. intros H. rewrite <- length_tcols, <- (os_cols H). unfold cols_of. by rewrite length_fmap. Qed.

(** The state that the aggregation node allocates for a group: nothing counted and the
    columns not fetched yet. *)
Definition fresh_state (s : stateData) : Prop := sd_counter s = 0 /\ NoOfVars s = 0.
Definition fresh_agg (a : sproutAgg) : Prop :=
  sp_signature a = g /\ fresh_state (getStateAndLineage a).1.

Definition effective (s : stateData) : stateData := if NoOfVars s =? 0 then set_vars s n infos else s.

Lemma read_put (a : sproutAgg) (sl : stateData * lineageTable) :
  getStateAndLineage (putStateAndLineage a sl) = sl.
Proof. destruct a as [b sg st e d]. by destruct st. Qed.

Lemma put_put (a : sproutAgg) (sl sl' : stateData * lineageTable) :
  putStateAndLineage (putStateAndLineage a sl) sl' = putStateAndLineage a sl'.
Proof. destruct a as [b sg st e d]. by destruct st. Qed.

Lemma put_signature (a : sproutAgg) (sl : stateData * lineageTable) :
  sp_signature (putStateAndLineage a sl) = sp_signature a.
Proof. destruct a as [b sg st e d]. by destruct st. Qed.

Lemma put_context (a : sproutAgg) (b : bool) (g' : signature) (sl : stateData * lineageTable) :
  putStateAndLineage (set_context a b g') sl = set_context (putStateAndLineage a sl) b g'.
Proof. destruct a as [b' sg st e d]. by destruct st. Qed.

Lemma get_context (a : sproutAgg) (b : bool) (g' : signature) :
  getStateAndLineage (set_context a b g') = getStateAndLineage a.
Proof. destruct a as [b' sg st e d]. by destruct st. Qed.

Lemma accumulate_row (a : sproutAgg) (r : arow) (s s' : stateData) (l : lineageTable) :
  isOneScan g = true -> sp_signature a = g -> getStateAndLineage a = (s, l) -> length r = n ->
  process_row r (effective s) = Some s' ->
  accumulate n (var_args r) a = Some (set_context (putStateAndLineage a (s', l)) true g).
Proof.
  intros H1 Hg Ha Hr Hs. rewrite accumulate_args by done. unfold advance.
  rewrite get_context, Ha. cbn [sp_signature set_context]. rewrite Hg, H1.
  fold (effective s). unfold process_row in Hs.
  destruct (processTuple false _) as [[s1 o]|]; [|done]. cbn [mbind option_bind] in Hs |- *.
  injection Hs as ->. by rewrite put_context.
Qed.

(** The rounds of a group. *)
Lemma accumulate_rows (R : list arow) (a : sproutAgg) (s s' : stateData) (l : lineageTable) :
  isOneScan g = true -> sp_signature a = g -> getStateAndLineage a = (s, l) -> NoOfVars s = n -> n <> 0 ->
  Forall (fun r => length r = n) R -> for_list R (static_row infos) s = Some s' ->
  sp_groupcxt a = true ->
  for_list R (fun r => accumulate n (var_args r)) a = Some (set_context (putStateAndLineage a (s', l)) true g).
Proof.
  intros H1 Hg Ha Hn Hn0 HR. revert a s Hg Ha Hn.
  induction HR as [|r R Hr _ IH]; intros a s Hg Ha Hn Hs Hc; cbn [for_list] in Hs |- *.
  - injection Hs as ->. f_equal. destruct a as [b sg st e d]. simplify_eq/=. destruct st; unfold getStateAndLineage in Ha; by simplify_eq/=.
  - unfold static_row in Hs at 2. destruct (process_row r s) as [s1|] eqn:Hp; [|done].
    cbn [mbind option_bind] in Hs. destruct (decide (NoOfVars s1 = n)) as [Hn1|]; [|done].
    cbn [mbind option_bind] in Hs.
    rewrite (accumulate_row a r s s1 l H1 Hg Ha Hr).
    2: { unfold effective. by replace (NoOfVars s =? 0) with false by (symmetry; apply Nat.eqb_neq; lia). }
    cbn [mbind option_bind]. rewrite (IH _ s1); try done.
    + by rewrite put_context, put_put.
    + by rewrite get_context, read_put.
Qed.

(** The first row of a group fetches the columns. *)
Lemma effective_static (s : stateData) : fresh_state s -> static infos (effective s) /\ sd_counter (effective s) = 0.
Proof. intros [Hc Hs]. unfold effective. rewrite Hs. by split; [constructor|]. Qed.

(** A released state has its number of columns but no columns: the first row of a
    further group follows a dangling pointer. *)
Lemma released_fails (s : stateData) (vs : list Z) (qs : list Qc) :
  NoOfVars s <> 0 -> sd_counter s = 0 -> processTuple false (set_cur (release s) vs qs) = None.
Proof.
  destruct s as [k vars c cal cur curp sum temp pre cu rs]. simpl. intros Hk ->.
  destruct k as [|k]; [done|]. reflexivity.
Qed.

Lemma accumulate_released (a : sproutAgg) (r : arow) (s : stateData) (l : lineageTable) :
  isOneScan g = true -> sp_signature a = g -> getStateAndLineage a = (release s, l) ->
  NoOfVars s <> 0 -> sd_counter s = 0 -> length r = n -> accumulate n (var_args r) a = None.
Proof.
  intros H1 Hg Ha Hn Hc Hr. rewrite accumulate_args by done. unfold advance.
  rewrite get_context, Ha. cbn [sp_signature set_context NoOfVars release]. rewrite Hg, H1.
  replace (NoOfVars s =? 0) with false by (symmetry; by apply Nat.eqb_neq).
  by rewrite released_fails.
Qed.

Context (val : Z -> Z) (W : wtable) (HW : wtable_ok W).

Lemma group_probability (a : sproutAgg) (bs : list block) (R : list arow) :
  one_scan_ok -> fresh_agg a ->
  shaped (sig_tree (sigTreeRoot g)) bs -> grouped [] (rows_of bs) R -> Forall (fun r => length r = n) R ->
  NoDup (bases bs).*1 -> Forall (known val W) (bases bs) ->
  exists a1 a2, for_list R (fun r => accumulate n (var_args r)) a = Some a1 /\
    conf_final natts pkeys a1 = Some (Pr W (sat_rows val R), a2) /\
    sp_signature a2 = g /\ sp_groupcxt a2 = false /\
    forall r, length r = n -> accumulate n (var_args r) a2 = None.
Proof using HW.
  intros Hok [Hg Hf] Hsh HR Hlen Hnd Hk. pose proof (os_length Hok) as Hn.
  pose proof (size_pos (sig_tree (sigTreeRoot g))) as Hpos.
  destruct (getStateAndLineage a) as [s l] eqn:Ha. cbn [fst] in Hf.
  destruct (effective_static s Hf) as [Hst Hc].
  destruct (scan_result 0 infos (os_type Hok) (os_wf Hok) _ bs R (effective s) (os_cols Hok) Hsh HR Hlen Hst Hc eq_refl)
    as (s1 & s2 & Hrun & Hfin & Hst2).
  destruct (rows_of_ok _ _ Hsh) as [Hne Hlw]. rewrite <- Hn in Hlw.
  assert (HP : Pr W (sat_rows val R) = blocks_prob bs).
  { rewrite <- (Pr_rows_of val W HW bs Hnd Hk). apply Pr_ext. intros u.
    by apply (grouped_sat val n (rows_of bs) R). }
  rewrite HP. destruct R as [|r R].
  { inversion HR as [He|w ws g' R' Hg' _ _ He1 He2]; [by rewrite <- He in Hne|].
    by destruct g'. }
  inversion Hlen as [|? ? Hr HlR]; subst. cbn [for_list] in Hrun |- *.
  unfold static_row in Hrun at 2. destruct (process_row r (effective s)) as [s0|] eqn:Hp; [|done].
  cbn [mbind option_bind] in Hrun. destruct (decide (NoOfVars s0 = n)) as [Hn0|]; [|done].
  cbn [mbind option_bind] in Hrun.
  rewrite (accumulate_row a r s s0 l (os_one Hok) Hg Ha Hr Hp). cbn [mbind option_bind].
  rewrite (accumulate_rows R _ s0 s1 l (os_one Hok));
    [|done|by rewrite get_context, read_put|done|lia|done|done|done].
  eexists. eexists. split; [done|]. unfold conf_final. cbn [set_context sp_groupcxt].
  rewrite !get_context, read_put. cbn [sp_signature set_context]. rewrite (os_one Hok), Hfin.
  cbn [mbind option_bind default]. split_and!; [done..|]. intros r' Hr'.
  eapply (accumulate_released _ r' (set_counter s2 0)); try done.
  - exact (os_one Hok).
  - by rewrite get_context, read_put.
  - cbn [NoOfVars set_counter]. destruct Hst2 as [_ ->]. lia.
Qed.
End Group.

(** ** The scan of a stored lineage *)

Lemma scan_tuples_rows (ps : list nat) (ts : list varprob) (R : list arow) (s : stateData) :
  mapM (fun t => fetch t ps) ts = Some ((fun r => (r.*1, r.*2)) <$> R) ->
  scan_tuples ps ts s = for_list R process_row s.
Proof.
  revert R s. induction ts as [|t ts IH]; intros R s H; cbn [mapM] in H.
  - destruct R; [done|]. done.
  - destruct (fetch t ps) as [[vs qs]|] eqn:Hf; [|done]. cbn [mbind option_bind] in H.
    destruct (mapM (fun t => fetch t ps) ts) as [rows|] eqn:Hm; [|done]. cbn [mbind option_bind] in H.
    destruct R as [|r R]; [done|]. injection H as -> -> ->.
    cbn [scan_tuples for_list]. rewrite Hf. cbn [mbind option_bind]. unfold process_row at 2.
    destruct (processTuple false _) as [[s1 o]|]; [|done]. cbn [mbind option_bind]. by apply IH.
Qed.

Lemma oneScan_probability (val : Z -> Z) (W : wtable) (root : sigNode) (t : tree) (s : stateData)
    (l : lineageTable) (bs : list block) (R : list arow) :
  wtable_ok W ->
  cols_of (fillLeafNode root) = tcols t -> Forall (fun i => type i = NOTAGGREGATED) (fillLeafNode root) ->
  mapM (fun v => fetch v (pos <$> fillLeafNode root)) (drop (lt_cursor l) (lt_tuples l))
    = Some ((fun r => (r.*1, r.*2)) <$> R) ->
  shaped t bs -> grouped [] (rows_of bs) R -> Forall (fun r => length r = size t) R ->
  NoDup (bases bs).*1 -> Forall (known val W) (bases bs) ->
  exists s', oneScan s root l = Some (Pr W (sat_rows val R), s').
Proof.
  intros HW Hc Ht Hm Hsh HR Hlen Hnd Hk.
  assert (Hn : length (fillLeafNode root) = size t).
  { rewrite <- length_tcols, <- Hc. unfold cols_of. by rewrite length_fmap. }
  assert (Hwf : wf_cols (cols_of (fillLeafNode root))) by (rewrite Hc; apply wf_tcols).
  unfold oneScan. set (s0 := set_vars (set_counter s 0) (leafDescendentCount root) (fillLeafNode root)).
  destruct (scan_result 0 (fillLeafNode root) Ht Hwf t bs R s0 Hc Hsh HR) as (s1 & s2 & Hrun & Hfin & _).
  - by rewrite Hn.
  - constructor; [done|]. apply leafDescendentCount_fill.
  - done.
  - done.
  - rewrite (scan_tuples_rows _ _ R) by done. rewrite (static_run _ _ _ _ Hrun). cbn [mbind option_bind].
    rewrite Hfin. cbn [mbind option_bind default]. eexists. do 3 f_equal.
    rewrite <- (Pr_rows_of val W HW bs Hnd Hk). apply Pr_ext. intros u. symmetry.
    apply (grouped_sat val (size t) (rows_of bs) R); [done| |done]. by apply rows_of_ok.
Qed.
