(* ===== verification/SproutAggCorrect.v ===== *)
(** * SproutAggCorrect: aggregating a column

    The hash tables of variables as finite maps, and the table that
    [simpleAggregation] builds: per group of the right column the disjunction of the
    distinct variables of the left one. *)
From S2P Require Import Prelude.
From S2P Require Import Worlds.
From S2P Require Import Signature.
From S2P Require Import Sprout.
From S2P Require Import SproutAgg.

(** ** The hash table *)

Lemma ht_index_nonneg (v : Z) : (0 <= v)%Z -> exists h, ht_index v = Some h.
Proof.
  intros Hv. unfold ht_index, hashFunction. pose proof (Z.rem_nonneg v HASHTABLESIZE ltac:(done) Hv).
  destruct (Z.ltb_spec (Z.rem v HASHTABLESIZE) 0); [lia|]. by eexists.
Qed.

(** The empty table has no entry. *)
Lemma getPTE_empty (v : Z) : (0 <= v)%Z -> getPTEFromHT ∅ v = Some None.
Proof. intros Hv. unfold getPTEFromHT. by destruct (ht_index_nonneg v Hv) as [h ->]. Qed.

(** No null pointer is stored. *)
Definition clean (ht : varTable) : Prop := forall h l e, ht !! h = Some l -> e ∈ l -> is_Some (ve_pte e).

Lemma newVarEntry_total (v : Z) (k : nat) (ht : varTable) :
  (0 <= v)%Z -> clean ht -> exists ht', newVarEntry v (Some k) ht = Some ht' /\ clean ht'.
Proof.
  intros Hv Hc. destruct (ht_index_nonneg v Hv) as [hv Ehv]. unfold newVarEntry. rewrite Ehv.
  eexists. split; [done|]. intros h l e Hl He. apply lookup_insert_Some in Hl as [[<- <-]|[_ Hl]].
  - unfold insertIntoVarList in He. apply elem_of_app in He as [He|He%list_elem_of_singleton]; [|by subst].
    destruct (ht !! hv) as [l|] eqn:Hl; [|by apply elem_of_nil in He]. by apply (Hc hv l).
  - by apply (Hc h l).
Qed.

(** Entering a variable that is not there. *)
Lemma getPTE_new (v w : Z) (k : nat) (ht ht' : varTable) :
  (0 <= v)%Z -> (0 <= w)%Z -> getPTEFromHT ht v = Some None ->
  clean ht ->
  newVarEntry v (Some k) ht = Some ht' ->
  getPTEFromHT ht' w = if decide (w = v) then Some (Some k) else getPTEFromHT ht w.
Proof.
  intros Hv Hw Hnone Hsome Hnew. destruct (ht_index_nonneg v Hv) as [hv Ehv].
  destruct (ht_index_nonneg w Hw) as [hw Ehw].
  unfold newVarEntry in Hnew. rewrite Ehv in Hnew. cbn [mbind option_bind] in Hnew. injection Hnew as <-.
  unfold getPTEFromHT in Hnone |- *. rewrite Ehv in Hnone. rewrite Ehw. cbn [mbind option_bind] in Hnone |- *.
  assert (Hfind : list_find (fun e => ve_var e = v) (default [] (ht !! hv)) = None).
  { destruct (list_find _ (default [] (ht !! hv))) as [[i e]|] eqn:Hf; [|done]. exfalso.
    apply list_find_Some in Hf as (Hi & _ & _). injection Hnone as He.
    destruct (ht !! hv) as [l|] eqn:Hl; [|done]. apply list_elem_of_lookup_2 in Hi.
    destruct (Hsome hv l e Hl Hi) as [? ?]. congruence. }
  destruct (decide (hw = hv)) as [->|Hne].
  - rewrite lookup_insert_eq. simpl. unfold insertIntoVarList. destruct (decide (w = v)) as [->|Hwv].
    + rewrite list_find_app_r by done. simpl. by rewrite decide_True.
    + f_equal. destruct (list_find (fun e => ve_var e = w) (default [] (ht !! hv))) as [[i e]|] eqn:Hf.
      * by erewrite list_find_app_l by done.
      * rewrite list_find_app_r by done. simpl. by rewrite decide_False.
  - rewrite lookup_insert_ne by done. destruct (decide (w = v)) as [->|]; [congruence|done].
Qed.

(** ** First occurrences *)

Section First.
Context {A : Type} (key : A -> Z).

Definition occ_step (acc : list A) (a : A) : list A :=
  if decide (key a ∈ key <$> acc) then acc else acc ++ [a].
Definition occ (l : list A) : list A := foldl occ_step [] l.

Lemma occ_snoc (l : list A) (a : A) : occ (l ++ [a]) = occ_step (occ l) a.
Proof. unfold occ. by rewrite foldl_app. Qed.

Lemma occ_keys (l : list A) (k : Z) : k ∈ key <$> occ l <-> k ∈ key <$> l.
Proof.
  induction l as [|a l IH] using rev_ind; [done|]. rewrite occ_snoc. unfold occ_step.
  rewrite fmap_app, elem_of_app, <- IH. simpl. rewrite list_elem_of_singleton.
  destruct (decide (key a ∈ key <$> occ l)) as [H|H].
  - split; [by left|]. by intros [?| ->].
  - rewrite fmap_app, elem_of_app. simpl. by rewrite list_elem_of_singleton.
Qed.

Lemma occ_NoDup (l : list A) : NoDup (key <$> occ l).
Proof.
  induction l as [|a l IH] using rev_ind; [constructor|]. rewrite occ_snoc. unfold occ_step.
  destruct (decide (key a ∈ key <$> occ l)) as [H|H]; [done|]. rewrite fmap_app. apply NoDup_app.
  split_and!; [done| |by apply NoDup_singleton]. intros k Hk ->%list_elem_of_singleton. done.
Qed.

Lemma occ_known (l : list A) (a : A) : key a ∈ key <$> l -> occ (l ++ [a]) = occ l.
Proof. intros H. rewrite occ_snoc. unfold occ_step. by rewrite decide_True by (by apply occ_keys). Qed.

Lemma occ_new (l : list A) (a : A) : key a ∉ key <$> l -> occ (l ++ [a]) = occ l ++ [a].
Proof. intros H. rewrite occ_snoc. unfold occ_step. by rewrite decide_False by (by rewrite occ_keys). Qed.
End First.

(** ** The table of [simpleAggregation] *)

(** The variable and the probability of the left column and the variable of the
    right one. *)
Record triple := mk_triple { tx : Z; tp : Qc; ty : Z }.

Section Simple.
(** The group of a tuple, such as the value of the join attribute. *)
Context (grp : triple -> Z).

(** The disjunction of the left variables of group [y]. *)
Definition disjunction (y : Z) (l : list triple) : Qc :=
  (1 - qprod ((fun t => 1 - tp t) <$> filter (fun t => grp t = y) l))%Qc.
Definition agg_entry (l : list triple) (g : triple) : Z * Qc := (tx g, disjunction (grp g) (occ tx l)).
(** One entry per group, in the order of first occurrence. *)
Definition agg_table (l : list triple) : probTable := agg_entry l <$> occ grp l.

Lemma disjunction_snoc (y : Z) (l : list triple) (t : triple) :
  disjunction y (l ++ [t]) =
  if decide (grp t = y) then indeEventConjunc (disjunction y l) (tp t) else disjunction y l.
Proof.
  unfold disjunction, indeEventConjunc. rewrite filter_app, fmap_app, qprod_app, filter_cons.
  destruct (decide (grp t = y)); csimpl; [rewrite qprod_one|rewrite qprod_nil]; ring.
Qed.

Lemma disjunction_none (y : Z) (l : list triple) : y ∉ grp <$> l -> disjunction y l = 0%Qc.
Proof.
  intros H. unfold disjunction. replace (filter (fun t => grp t = y) l) with (@nil triple).
  - csimpl. rewrite qprod_nil. ring.
  - symmetry. induction l as [|t l IH]; [done|]. csimpl in H.
    apply not_elem_of_cons in H as [Hne H]. rewrite filter_cons_False by done. by apply IH.
Qed.

Context (info0 info1 : sigInfo).
Hypothesis (H0 : type info0 = NOTAGGREGATED) (H1 : type info1 = NOTAGGREGATED).

(** A hash table knows the keys of the prefix and the entries of their groups. *)
Record table_of (key : triple -> Z) (l : list triple) (ht : varTable) : Prop := {
  to_clean : clean ht;
  to_known : forall t, t ∈ l -> exists k g, getPTEFromHT ht (key t) = Some (Some k) /\
    occ grp l !! k = Some g /\ grp g = grp t;
  to_new : forall v, (0 <= v)%Z -> v ∉ key <$> l -> getPTEFromHT ht v = Some None }.

Record simple_inv (l : list triple) (s : simpleState) : Prop := {
  si_var0 : sm_var0 s = info0;
  si_pt : sm_pt s = agg_table l;
  si_ht0 : table_of tx l (sm_ht0 s);
  si_ht1 : table_of ty l (sm_ht1 s);
  si_last : sm_pre s = (fun t => (tx t, ty t)) <$> last l }.

Lemma is_new_spec (info : sigInfo) (key : triple -> Z) (l : list triple) (ht : varTable) (t : triple)
    (pre : option Z) :
  type info = NOTAGGREGATED -> table_of key l ht -> (0 <= key t)%Z -> pre = key <$> last l ->
  is_new info ht (key t) pre = Some (bool_decide (key t ∉ key <$> l)).
Proof.
  intros Ht [_ Hk Hn] Hpos ->. unfold is_new. destruct (last l) as [t'|] eqn:Hl; simpl.
  - assert (Hin : t' ∈ l) by (by apply last_Some_elem_of).
    destruct (bool_decide_reflect (key t = key t')) as [He|He].
    + rewrite bool_decide_eq_false_2; [done|]. intros H. apply H. rewrite He. by apply list_elem_of_fmap_2.
    + unfold isAValidVar. rewrite Ht. cbn [mbind option_bind].
      destruct (decide (key t ∈ key <$> l)) as [Hi|Hi].
      * pose proof Hi as (t2 & E & H2)%list_elem_of_fmap. destruct (Hk t2 H2) as (k & g & Hg & _).
        rewrite E, Hg. cbn [mbind option_bind]. rewrite <- E.
        rewrite (bool_decide_eq_true_2 (is_Some _)) by (by eexists).
        rewrite bool_decide_eq_false_2; [done|]. by intros H.
      * rewrite Hn by done. cbn [mbind option_bind]. rewrite (bool_decide_eq_true_2 (_ ∉ _)) by done.
        rewrite bool_decide_eq_false_2; [done|]. by intros [? ?].
  - apply last_None in Hl as ->. by rewrite bool_decide_eq_true_2 by (intros H; by apply elem_of_nil in H).
Qed.

(** A known tuple changes neither table. *)
Lemma table_of_known (key : triple -> Z) (l : list triple) (ht : varTable) (t t' : triple) :
  table_of key l ht -> t' ∈ l -> key t' = key t -> grp t' = grp t -> table_of key (l ++ [t]) ht.
Proof.
  intros [Hc Hk Hn] Hin Hkey Hty. assert (Hocc : occ grp (l ++ [t]) = occ grp l).
  { apply occ_known. rewrite <- Hty. by apply list_elem_of_fmap_2. }
  constructor; [done| |].
  - rewrite Hocc. intros u [Hu|Hu%list_elem_of_singleton]%elem_of_app; [by apply Hk|subst u].
    destruct (Hk t' Hin) as (k & g & H & H' & H''). exists k, g. rewrite <- Hkey. split_and!; congruence.
  - intros v Hv Hnin. apply Hn; [done|]. rewrite fmap_app in Hnin. by apply not_elem_of_app in Hnin as [? _].
Qed.

(** A tuple with a new key is entered with the entry [k] of its group. *)
Lemma table_of_enter (key : triple -> Z) (l : list triple) (ht ht' : varTable) (t g : triple) (k : nat) :
  table_of key l ht -> (0 <= key t)%Z -> (forall u, u ∈ l -> (0 <= key u)%Z) -> key t ∉ key <$> l ->
  newVarEntry (key t) (Some k) ht = Some ht' -> clean ht' ->
  (forall i u, occ grp l !! i = Some u -> occ grp (l ++ [t]) !! i = Some u) ->
  occ grp (l ++ [t]) !! k = Some g -> grp g = grp t -> table_of key (l ++ [t]) ht'.
Proof.
  intros [Hc Hk Hn] Hpos Hall Hnin Hnew Hc' Hocc Hg Hty. pose proof (Hn _ Hpos Hnin) as Hnone.
  constructor; [done| |].
  - intros u [Hu|Hu%list_elem_of_singleton]%elem_of_app.
    + destruct (Hk u Hu) as (j & g' & Hj & Hg' & Hty'). exists j, g'.
      rewrite (getPTE_new (key t) (key u) k ht ht') by (done || by apply Hall).
      rewrite decide_False; [by split_and!; [|apply Hocc|]|].
      intros He. apply Hnin. rewrite <- He. by apply list_elem_of_fmap_2.
    + subst u. exists k, g. rewrite (getPTE_new (key t) (key t) k ht ht') by done.
      by rewrite decide_True.
  - intros v Hv Hvn. rewrite fmap_app in Hvn. apply not_elem_of_app in Hvn as [Hv1 Hv2].
    rewrite (getPTE_new (key t) v k ht ht') by done.
    rewrite decide_False; [by apply Hn|]. intros ->. apply Hv2. by apply list_elem_of_here.
Qed.

(** The table after a tuple with a new left variable. *)
Lemma agg_table_new (l : list triple) (t : triple) :
  tx t ∉ tx <$> l -> grp t ∉ grp <$> l -> agg_table (l ++ [t]) = agg_table l ++ [(tx t, tp t)].
Proof.
  intros Hx Hy. unfold agg_table. rewrite occ_new by done. rewrite fmap_app. f_equal.
  - apply list_fmap_ext. intros i g Hg. unfold agg_entry. f_equal. rewrite occ_new by done.
    rewrite disjunction_snoc, decide_False; [done|]. intros He. apply Hy. rewrite He.
    rewrite <- occ_keys. apply list_elem_of_fmap_2. by eapply list_elem_of_lookup_2.
  - simpl. unfold agg_entry. rewrite (occ_new tx) by done. rewrite disjunction_snoc, decide_True by done.
    rewrite disjunction_none.
    + unfold indeEventConjunc. do 2 f_equal. ring.
    + intros (u & He & Hu)%list_elem_of_fmap. apply Hy. rewrite He. apply list_elem_of_fmap_2.
      revert Hu. clear. induction l as [|a l IH] using rev_ind; [done|]. rewrite occ_snoc. unfold occ_step.
      destruct (decide _); rewrite !elem_of_app; [naive_solver|]. naive_solver.
Qed.

Lemma agg_table_add (l : list triple) (t g : triple) (k : nat) :
  tx t ∉ tx <$> l -> occ grp l !! k = Some g -> grp g = grp t ->
  add_to_entry (agg_table l) (Some k) (tp t) = Some (agg_table (l ++ [t])).
Proof.
  intros Hx Hg Hty. unfold add_to_entry. cbn [mbind option_bind]. unfold agg_table.
  rewrite list_lookup_fmap, Hg. cbn [fmap option_fmap option_map mbind option_bind].
  f_equal. rewrite (occ_known grp).
  2: { rewrite <- Hty, <- occ_keys. apply list_elem_of_fmap_2. by eapply list_elem_of_lookup_2. }
  apply list_eq. intros i. rewrite list_lookup_insert, length_fmap, !list_lookup_fmap.
  pose proof (lookup_lt_Some _ _ _ Hg) as Hlt.
  destruct (decide (k = i /\ k < length (occ grp l))) as [[<- _]|Hne].
  - rewrite Hg. simpl. unfold agg_entry. simpl. rewrite (occ_new tx) by done.
    by rewrite disjunction_snoc, decide_True by done.
  - destruct (occ grp l !! i) as [g'|] eqn:Hg'; [|done]. simpl. unfold agg_entry. do 2 f_equal.
    rewrite (occ_new tx) by done. rewrite disjunction_snoc, decide_False; [done|].
    intros He. destruct Hne. split; [|done].
    eapply (NoDup_lookup _ k i (grp g)); [apply (occ_NoDup grp l)|..]; rewrite list_lookup_fmap.
    + by rewrite Hg.
    + rewrite Hg'. simpl. by rewrite <- He, Hty.
Qed.

(** Every variable lies in one group, and a group that has been seen is recognised by
    one of its variables. *)
Definition recognised (l : list triple) (t : triple) : Prop :=
  (forall u, u ∈ l -> tx u = tx t -> grp u = grp t) /\
  (forall u, u ∈ l -> ty u = ty t -> grp u = grp t) /\
  (grp t ∈ grp <$> l -> tx t ∈ tx <$> l \/ ty t ∈ ty <$> l).

Lemma simple_round_spec (l : list triple) (t : triple) (s : simpleState) :
  Forall (fun u => 0 <= tx u /\ 0 <= ty u)%Z (l ++ [t]) -> recognised l t -> simple_inv l s ->
  exists s', simple_round info1 (tx t) (ty t) (tp t) s = Some s' /\ simple_inv (l ++ [t]) s'.
Proof using H0 H1.
  intros [Hl Ht]%Forall_app (Hgx & Hgy & Hconn) [Hv Hpt Hh0 Hh1 Hlast]. apply Forall_singleton in Ht as [Hx Hy].
  assert (Hxs : forall u, u ∈ l -> (0 <= tx u)%Z) by (intros u Hu; rewrite Forall_forall in Hl; by apply Hl).
  assert (Hys : forall u, u ∈ l -> (0 <= ty u)%Z) by (intros u Hu; rewrite Forall_forall in Hl; by apply Hl).
  unfold simple_round. rewrite Hv.
  rewrite (is_new_spec info0 tx l _ t) by (done || by rewrite Hlast; destruct (last l)).
  cbn [mbind option_bind].
  rewrite (is_new_spec info1 ty l _ t) by (done || by rewrite Hlast; destruct (last l)).
  cbn [mbind option_bind].
  assert (Hlk : lookup info0 (tx t) (tp t) = Some (tp t, info0)) by (unfold lookup; by rewrite H0).
  destruct (bool_decide_reflect (tx t ∉ tx <$> l)) as [Hxn|Hxk].
  - destruct (bool_decide_reflect (ty t ∉ ty <$> l)) as [Hyn|Hyk].
    + rewrite Hlk. cbn [mbind option_bind]. assert (Hgn : grp t ∉ grp <$> l) by (by intros [?|?]%Hconn).
      assert (Hocc : occ grp (l ++ [t]) = occ grp l ++ [t]) by (by apply occ_new).
      assert (Hlen : length (sm_pt s) = length (occ grp l)) by (rewrite Hpt; apply length_fmap).
      destruct (newVarEntry_total (ty t) (length (sm_pt s)) (sm_ht1 s) Hy) as (h1 & E1 & Hc1); [apply Hh1|].
      destruct (newVarEntry_total (tx t) (length (sm_pt s)) (sm_ht0 s) Hx) as (h0 & E0 & Hc0); [apply Hh0|].
      rewrite E1. cbn [mbind option_bind]. rewrite E0. cbn [mbind option_bind].
      assert (Hkeep : forall i u, occ grp l !! i = Some u -> occ grp (l ++ [t]) !! i = Some u)
        by (intros i u Hi; rewrite Hocc; by apply lookup_app_l_Some).
      assert (Hg : occ grp (l ++ [t]) !! length (sm_pt s) = Some t)
        by (rewrite Hocc, Hlen; by apply list_lookup_middle).
      eexists. split; [done|]. constructor; cbn [sm_var0 sm_pt sm_ht0 sm_ht1 sm_pre]; try done.
      * rewrite Hpt. unfold insertIntoProbTable. by rewrite agg_table_new.
      * by eapply (table_of_enter tx l (sm_ht0 s) h0 t t).
      * by eapply (table_of_enter ty l (sm_ht1 s) h1 t t).
      * by rewrite last_snoc.
    + apply dec_stable in Hyk. pose proof Hyk as (u & Hu & Hin)%list_elem_of_fmap.
      destruct (to_known _ _ _ Hh1 u Hin) as (k & g & Hk & Hg & Hgu).
      rewrite Hu, Hk. cbn [mbind option_bind].
      destruct (newVarEntry_total (tx t) k (sm_ht0 s) Hx) as (h0 & E0 & Hc0); [apply Hh0|].
      rewrite E0. cbn [mbind option_bind]. rewrite Hlk. cbn [mbind option_bind].
      assert (Hut : grp u = grp t) by (by apply Hgy). assert (Hgt : grp g = grp t) by congruence.
      rewrite Hpt, (agg_table_add l t g k) by done. cbn [mbind option_bind].
      assert (Hocc : occ grp (l ++ [t]) = occ grp l)
        by (apply occ_known; rewrite <- Hut; by apply list_elem_of_fmap_2).
      eexists. split; [done|]. constructor; cbn [sm_var0 sm_pt sm_ht0 sm_ht1 sm_pre]; try done.
      * eapply (table_of_enter tx l (sm_ht0 s) h0 t g k); try done; by rewrite Hocc.
      * by eapply (table_of_known ty l _ t u).
      * rewrite last_snoc. simpl. by rewrite Hu.
  - apply dec_stable in Hxk. pose proof Hxk as (u & Hu & Hin)%list_elem_of_fmap.
    assert (Hut : grp u = grp t) by (by apply Hgx).
    assert (Hgk : grp t ∈ grp <$> l) by (rewrite <- Hut; by apply list_elem_of_fmap_2).
    assert (Htab : agg_table l = agg_table (l ++ [t])).
    { unfold agg_table. rewrite (occ_known grp) by done. apply list_fmap_ext.
      intros i g _. unfold agg_entry. by rewrite (occ_known tx). }
    destruct (bool_decide_reflect (ty t ∉ ty <$> l)) as [Hyn|Hyk].
    + destruct (to_known _ _ _ Hh0 u Hin) as (k & g & Hk & Hg & Hgu).
      rewrite Hu, Hk. cbn [mbind option_bind].
      destruct (newVarEntry_total (ty t) k (sm_ht1 s) Hy) as (h1 & E1 & Hc1); [apply Hh1|].
      rewrite E1. cbn [mbind option_bind].
      assert (Hocc : occ grp (l ++ [t]) = occ grp l) by (by apply occ_known).
      eexists. split; [done|]. constructor; cbn [sm_var0 sm_pt sm_ht0 sm_ht1 sm_pre]; try done.
      * by rewrite Hpt.
      * by eapply (table_of_known tx l _ t u).
      * eapply (table_of_enter ty l (sm_ht1 s) h1 t g k); try done; rewrite ?Hocc; (done || congruence).
      * rewrite last_snoc. simpl. by rewrite Hu.
    + apply dec_stable in Hyk. pose proof Hyk as (u' & Hu' & Hin')%list_elem_of_fmap.
      eexists. split; [done|]. constructor; cbn [sm_var0 sm_pt sm_ht0 sm_ht1 sm_pre].
      * done.
      * by rewrite Hpt.
      * by eapply (table_of_known tx l _ t u).
      * eapply (table_of_known ty l _ t u'); (done || by apply Hgy).
      * by rewrite last_snoc.
Qed.

(** The columns that the aggregation reads. *)
Definition read_triple (v : varprob) : option triple :=
  x ← vp_vars v !! pos info0; p ← vp_probs v !! pos info0; y ← vp_vars v !! pos info1;
  Some (mk_triple x p y).

Lemma simple_tuples_spec (vs : list varprob) (l ts : list triple) (s : simpleState) :
  mapM read_triple vs = Some ts ->
  Forall (fun u => 0 <= tx u /\ 0 <= ty u)%Z (l ++ ts) ->
  (forall l1 t l2, l ++ ts = l1 ++ t :: l2 -> length l <= length l1 -> recognised l1 t) ->
  simple_inv l s ->
  exists s', for_list vs (simple_tuple info1) s = Some s' /\ simple_inv (l ++ ts) s'.
Proof using H0 H1.
  revert l ts s. induction vs as [|v vs IH]; intros l ts s Hm Hpos Hfun Hs; cbn [mapM] in Hm.
  - injection Hm as <-. exists s. by rewrite app_nil_r.
  - destruct (read_triple v) as [t|] eqn:Ht; [|done]. cbn [mbind option_bind] in Hm.
    destruct (mapM read_triple vs) as [ts'|] eqn:Hts; [|done]. injection Hm as <-.
    change (t :: ts') with ([t] ++ ts') in *. rewrite app_assoc in *. cbn [for_list].
    assert (Hround : simple_tuple info1 v s = simple_round info1 (tx t) (ty t) (tp t) s).
    { unfold simple_tuple. rewrite (si_var0 _ _ Hs). unfold read_triple in Ht.
      destruct (vp_vars v !! pos info0) as [x|]; [|done]. cbn [mbind option_bind] in Ht |- *.
      destruct (vp_probs v !! pos info0) as [p|]; [|done]. cbn [mbind option_bind] in Ht |- *.
      destruct (vp_vars v !! pos info1) as [y|]; [|done]. by injection Ht as <-. }
    destruct (simple_round_spec l t s) as (s1 & E & Hs1); [|..|done|].
    + by apply Forall_app in Hpos as [? _].
    + by apply (Hfun l t ts'); [rewrite <- app_assoc|].
    + rewrite Hround, E. cbn [mbind option_bind]. apply IH; [done|done| |done].
      intros l1 t' l2 He Hlen. apply (Hfun l1 t' l2 He). rewrite length_app in Hlen. lia.
Qed.

(** [simpleAggregation] succeeds and attaches the table of the groups. *)
Theorem simpleAggregation_spec (lt : lineageTable) (ts : list triple) :
  mapM read_triple (drop (lt_cursor lt) (lt_tuples lt)) = Some ts ->
  Forall (fun u => 0 <= tx u /\ 0 <= ty u)%Z ts ->
  (forall l1 t l2, ts = l1 ++ t :: l2 -> recognised l1 t) ->
  simpleAggregation info0 info1 lt = Some (agg_table ts, resetLineageCursor lt).
Proof using H0 H1.
  intros Hm Hpos Hfun. unfold simpleAggregation.
  destruct (simple_tuples_spec _ [] ts (mk_simple info0 [] ∅ ∅ None) Hm Hpos) as (s & E & Hs).
  - intros l1 t l2 He _. by apply (Hfun l1 t l2).
  - assert (Hempty : forall key, table_of key [] ∅).
    { intros key. constructor; [done|intros t Ht; by apply elem_of_nil in Ht|]. intros v Hv _. by apply getPTE_empty. }
    by constructor.
  - rewrite E. cbn [mbind option_bind]. by rewrite (si_pt _ _ Hs).
Qed.
End Simple.
