(* ===== verification/SproutStar.v ===== *)
(** * SproutStar: the scan with an aggregated head column

    After an aggregation the first column of the signature has a probability table.
    A tuple opens a block when its first variable is the representative at the head
    of the table; tuples with another first variable are skipped.  Between the
    blocks the operator is paused. *)
From S2P Require Import Prelude.
From S2P Require Import Worlds.
From S2P Require Import Signature.
From S2P Require Import Sprout.
From S2P Require Import SproutScan.
From S2P Require Import SproutRefine.

Section Star.
Context (info0 : sigInfo) (others : list sigInfo) (cs : list tree).
Hypothesis Hagg : type info0 = AGGREGATED.
Hypothesis Hplain : Forall (fun i => type i = NOTAGGREGATED) others.
Hypothesis Hcols : cols_of (info0 :: others) = tcols (T cs).
Hypothesis Hcs : cs <> [].

(** The columns while the table [tb] remains. *)
Definition infos (tb : probTable) : list sigInfo := set_pt info0 (Some tb) :: others.
Abbreviation cols := (cols_of (info0 :: others)).
Abbreviation n := (S (length others)).

Lemma cols_infos (tb : probTable) : cols_of (infos tb) = cols.
Proof. done. Qed.

Lemma drop_infos (tb : probTable) : Forall (fun i => type i = NOTAGGREGATED) (drop 1 (infos tb)).
Proof using Hplain. done. Qed.

Lemma wf_infos (tb : probTable) : wf_cols (cols_of (infos tb)).
Proof using Hcols. rewrite cols_infos, Hcols. apply wf_tcols. Qed.

Lemma col_0 : cols !! 0 = Some (length others, length cs) /\ 0 < length others.
Proof using Hcols Hcs.
  assert (Hn : n = size (T cs)) by (rewrite <- length_tcols, <- Hcols; unfold cols_of; by rewrite length_fmap).
  rewrite Hcols. simpl in Hn |- *. injection Hn as Hn. split; [by rewrite Hn|].
  destruct cs as [|c cs']; [done|]. rewrite Hn. simpl. pose proof (size_pos c). lia.
Qed.

(** *** Reading the table *)

Lemma reset_head (x y : Z) (q p : Qc) (tb : probTable) (s : stateData) :
  static (infos ((x, q) :: tb)) s -> length (sd_sum s) = n ->
  sd_curTuple s !! 0 = Some y -> sd_curTupleProb s !! 0 = Some p ->
  reset_sum 0 s = Some (set_sums (set_vars s n (infos tb)) (<[0 := q]> (sd_sum s)) (sd_tempSum s)).
Proof using Hagg.
  intros [Hv Hn] Hlen Hy Hp. unfold reset_sum, lookup_at. rewrite Hv, Hn, Hy, Hp.
  change (infos ((x, q) :: tb) !! 0) with (Some (set_pt info0 (Some ((x, q) :: tb)))).
  cbn [mbind option_bind]. unfold Sprout.lookup.
  change (type (set_pt info0 (Some ((x, q) :: tb)))) with (type info0). rewrite Hagg.
  cbn [set_pt pt mbind option_bind].
  rewrite store_eq by (simpl; lia). done.
Qed.

Lemma reset_all (x y : Z) (q p : Qc) (tb : probTable) (s : stateData) (c : nat) :
  static (infos ((x, q) :: tb)) s -> length (sd_sum s) = n -> S c <= n ->
  sd_curTuple s !! 0 = Some y -> length (sd_curTuple s) = n ->
  sd_curTupleProb s !! 0 = Some p -> length (sd_curTupleProb s) = n ->
  for_list (seq 0 (S c)) reset_sum s =
    Some (set_sums (set_vars s n (infos tb))
      (overlay (q :: tl (sd_curTupleProb s)) (sd_sum s) 0 (S c)) (sd_tempSum s)).
Proof using Hagg Hplain.
  intros Hst Hlen Hc Hy Hlv Hp Hlp. cbn [seq for_list]. rewrite (reset_head x y q p tb s) by done.
  cbn [mbind option_bind].
  rewrite (reset_loop 1 (infos tb) (drop_infos tb)); cbn [set_sums set_vars sd_sum sd_tempSum sd_curTuple sd_curTupleProb];
    [|by constructor|lia|simpl; lia|by rewrite length_insert|done|done].
  unfold set_sums, set_vars. cbn. do 2 f_equal. apply list_eq. intros k.
  destruct (sd_curTupleProb s) as [|p0 ps] eqn:Hps; [done|].
  rewrite !overlay_lookup by (rewrite ?length_insert; simpl in *; lia).
  rewrite list_lookup_insert. destruct k as [|k]; repeat case_decide; try lia; try done; simpl in *; try lia.
Qed.

(** *** Opening and closing blocks *)

(** Outside of blocks: [t] is the disjunction of the closed ones. *)
Record paused (tb : probTable) (s : stateData) (t : Qc) : Prop := {
  pa_static : static (infos tb) s;
  pa_counter : 0 < sd_counter s;
  pa_calc : sd_calculating s = false;
  pa_sum : length (sd_sum s) = n;
  pa_temp : length (sd_tempSum s) = n;
  pa_head : sd_tempSum s !! 0 = Some t;
  pa_zero : forall i, 0 < i < n -> sd_tempSum s !! i = Some 0%Qc;
  pa_ready : sd_readySumList s = [];
  pa_pre : exists y, sd_preTuple s !! 0 = Some y /\ y ∉ tb.*1 }.

(** The frames when a block opens. *)
Definition opened (q t : Qc) (ps : list Qc) : machine := mk_machine (fresh_frames (tl ps) ++ [(q, t)]) [].

(** The state that a loaded block has, for a given [sum]. *)
Lemma opened_core (tb : probTable) (s : stateData) (q t : Qc) (ps sum temp : list Qc) :
  static (infos tb) s -> sd_sum s = sum -> sd_tempSum s = temp -> sd_readySumList s = [] ->
  length ps = n -> length sum = n -> length temp = n ->
  (forall k, k < n -> sum !! k = (q :: tl ps) !! k) ->
  temp !! 0 = Some t -> (forall i, 0 < i < n -> temp !! i = Some 0%Qc) ->
  core (infos tb) n s (opened q t ps).
Proof using Hcols Hcs.
  intros Hst Hsum Htemp Hready Hlp Hls Hlt Hk H0 Hz. destruct col_0 as [Hc0 _].
  destruct ps as [|p ps]; [done|]. simpl in Hlp. injection Hlp as Hlp.
  constructor; rewrite ?Hsum, ?Htemp; try done.
  - unfold opened. cbn [frames]. rewrite length_app, length_fresh_frames. simpl. lia.
  - intros i x u Hi. unfold opened in Hi. cbn [frames tl] in Hi. rewrite rev_app_distr in Hi. simpl in Hi.
    destruct i as [|i]; simpl in Hi.
    + injection Hi as <- <-. split; [|done]. by rewrite Hk by lia.
    + apply lookup_fresh in Hi as [Hi ->]. pose proof (lookup_lt_Some _ _ _ Hi). rewrite Hk by lia.
      split; [done|]. apply Hz. lia.
  - intros i d v Hc Hi. destruct (decide (i = 0)) as [->|Hne].
    + rewrite cols_infos, Hc0 in Hc. injection Hc as <- <-. destruct Hi as [Hi|Hi]; [lia|].
      destruct col_0 as [_ ?]. lia.
    + apply Hz. apply cols_lt in Hc. simpl in Hc. lia.
Qed.

Lemma last_leaf (tb : probTable) : exists v, cols_of (infos tb) !! (n - 1) = Some (0, v).
Proof using Hcols.
  assert (Hn : n = size (T cs)) by (rewrite <- length_tcols, <- Hcols; unfold cols_of; by rewrite length_fmap).
  rewrite cols_infos, Hcols, Hn. apply tcols_last.
Qed.

(** Loading all columns for a block. *)
Lemma load_block (x : Z) (q t : Qc) (tb : probTable) (s : stateData) (r : arow) :
  static (infos ((x, q) :: tb)) s -> sd_curTuple s = r.*1 -> sd_curTupleProb s = r.*2 -> length r = n ->
  length (sd_sum s) = n -> length (sd_tempSum s) = n -> sd_readySumList s = [] -> 0 < sd_counter s ->
  sd_tempSum s !! 0 = Some t -> (forall i, 0 < i < n -> sd_tempSum s !! i = Some 0%Qc) ->
  exists s', for_list (seq 0 n) reset_sum s = Some s' /\
    NoOfVars s' = n /\ sd_calculating s' = sd_calculating s /\ sd_cursor s' = sd_cursor s /\
    forall s2, s2 = save_tuple (set_cursor (set_calculating s' true) (n - 1)) ->
    sim (infos tb) s2 (r.*1, opened q t r.*2).
Proof using Hagg Hplain Hcols Hcs.
  intros Hst Hv Hp Hlr Hls Hlt Hready Hcnt H0 Hz.
  destruct (lookup_lt_is_Some_2 r.*1 0) as [y Hy]; [rewrite length_fmap; lia|].
  destruct (lookup_lt_is_Some_2 r.*2 0) as [p Hp0]; [rewrite length_fmap; lia|].
  rewrite (reset_all x y q p tb s (length others));
    [|done|done|lia|by rewrite Hv|by rewrite Hv, length_fmap|by rewrite Hp|by rewrite Hp, length_fmap].
  eexists. split; [done|]. do 3 (split; [done|]). intros s2 ->.
  destruct (last_leaf tb) as [v Hleaf].
  assert (Hlen : length (q :: tl (sd_curTupleProb s)) = length (sd_sum s)).
  { rewrite Hls, Hp. destruct r; [done|]. simpl in *. by rewrite length_fmap. }
  constructor; cbn [fst snd].
  - replace (S (sd_cursor _)) with n by (simpl; lia).
    apply (opened_core tb _ q t r.*2 (overlay (q :: tl (sd_curTupleProb s)) (sd_sum s) 0 n) (sd_tempSum s)); try done.
    + by rewrite length_fmap.
    + rewrite overlay_length; lia.
    + intros k Hk. rewrite overlay_lookup by lia. rewrite decide_True by lia. by rewrite Hp.
  - exists v. simpl in Hleaf |- *. by rewrite Nat.sub_0_r in Hleaf |- *.
  - exact Hcnt.
  - done.
  - simpl. done.
  - by rewrite length_fmap.
Qed.

(** The branches of [processTuple] that open a block. *)
Lemma process_first (s : stateData) (r : arow) :
  sd_counter s = 0 ->
  processTuple false (set_cur s r.*1 r.*2) =
  s ← newBlock (set_ready (set_sums (set_counter (set_cur s r.*1 r.*2) 1) (replicate (NoOfVars s) 0%Qc)
        (replicate (NoOfVars s) 0%Qc)) []);
  Some (s, None).
Proof. intros Hc. unfold processTuple. cbn [set_counter set_cur sd_counter]. by rewrite Hc. Qed.

Lemma newBlock_load (x : Z) (q t : Qc) (tb : probTable) (s : stateData) (r : arow) :
  static (infos ((x, q) :: tb)) s -> sd_curTuple s = r.*1 -> sd_curTupleProb s = r.*2 -> length r = n ->
  length (sd_sum s) = n -> length (sd_tempSum s) = n -> sd_readySumList s = [] -> 0 < sd_counter s ->
  sd_tempSum s !! 0 = Some t -> (forall i, 0 < i < n -> sd_tempSum s !! i = Some 0%Qc) ->
  exists s', newBlock s = Some s' /\ sim (infos tb) s' (r.*1, opened q t r.*2).
Proof using Hagg Hplain Hcols Hcs.
  intros Hst Hv Hp Hlr Hls Hlt Hready Hcnt H0 Hz.
  destruct (load_block x q t tb s r) as (s' & Hl & Hn & _ & _ & Hs); try done.
  unfold newBlock, for_upto. rewrite (st_n _ _ Hst).
  change (length (infos ((x, q) :: tb))) with n. rewrite Hl. cbn [mbind option_bind].
  eexists. split; [done|]. apply Hs. by rewrite Hn.
Qed.

(** The first tuple of the group. *)
Lemma open_first (x : Z) (q : Qc) (tb : probTable) (s : stateData) (r : arow) :
  static (infos ((x, q) :: tb)) s -> sd_counter s = 0 -> length r = n ->
  exists s', processTuple false (set_cur s r.*1 r.*2) = Some (s', None) /\
    sim (infos tb) s' (r.*1, opened q 0 r.*2).
Proof using Hagg Hplain Hcols Hcs.
  intros Hst Hcnt Hlr. rewrite process_first by done.
  assert (Hn : NoOfVars s = n) by (by destruct Hst). rewrite Hn.
  edestruct (newBlock_load x q 0%Qc tb (set_ready (set_sums (set_counter (set_cur s r.*1 r.*2) 1)
    (replicate n 0%Qc) (replicate n 0%Qc)) []) r) as (s' & -> & Hs); cbn [set_ready set_sums set_counter set_cur
      sd_curTuple sd_curTupleProb sd_sum sd_tempSum sd_readySumList sd_counter]; try done.
  - by destruct Hst.
  - by rewrite length_replicate.
  - by rewrite length_replicate.
  - lia.
  - intros i Hi. apply lookup_replicate_2. lia.
  - by exists s'.
Qed.

(** The next representative after a pause. *)
Lemma open_paused (x : Z) (q t : Qc) (tb : probTable) (s : stateData) (r : arow) :
  paused ((x, q) :: tb) s t -> length r = n -> r.*1 !! 0 = Some x ->
  exists s', processTuple false (set_cur s r.*1 r.*2) = Some (s', None) /\
    sim (infos tb) s' (r.*1, opened q t r.*2).
Proof using Hagg Hplain Hcols Hcs.
  intros [Hst Hcnt Hcalc Hls Hlt H0 Hz Hready (y & Hy & Hnin)] Hlr Hx.
  unfold processTuple. cbn [set_counter set_cur sd_counter sd_curTuple sd_preTuple sd_vars sd_calculating].
  destruct (Nat.eqb_spec (S (sd_counter s)) 1) as [|_]; [lia|].
  rewrite Hx, Hy, Hcalc. cbn [mbind option_bind].
  assert (Hxy : x <> y) by (intros ->; apply Hnin; simpl; apply list_elem_of_here).
  rewrite bool_decide_eq_false_2 by done. rewrite (st_vars _ _ Hst).
  change (infos ((x, q) :: tb) !! 0) with (Some (set_pt info0 (Some ((x, q) :: tb)))).
  cbn [mbind option_bind]. unfold isAValidVar.
  change (type (set_pt info0 (Some ((x, q) :: tb)))) with (type info0). rewrite Hagg.
  cbn [set_pt pt mbind option_bind]. rewrite bool_decide_eq_true_2 by done.
  edestruct (newBlock_load x q t tb (set_counter (set_cur s r.*1 r.*2) (S (sd_counter s))) r)
    as (s' & Hn & Hs); cbn [set_counter set_cur sd_curTuple sd_curTupleProb sd_sum sd_tempSum sd_readySumList sd_counter];
    try done; [by destruct Hst|lia|].
  unfold set_counter, set_cur in Hn |- *. cbn in Hn |- *. rewrite Hn. cbn [mbind option_bind]. by exists s'.
Qed.

(** Closing everything behind the head and the block of the head. *)
Lemma close_head (tb : probTable) (s : stateData) (m : machine) (y t product : Qc) (K : list Qc) :
  core (infos tb) (S (sd_cursor s)) s m -> close_to cols 1 m = Some (mk_machine [(y, t)] K) ->
  pop_product (length cs) y K = Some (product, []) ->
  exists s1 s2, close_columns 0 s = Some s1 /\ close_block 0 s1 = Some s2 /\
    static (infos tb) s1 /\ static (infos tb) s2 /\ keeps s s2 /\ length (sd_sum s2) = n /\ length (sd_tempSum s2) = n /\
    sd_tempSum s2 !! 0 = Some (indeEventConjunc t product) /\
    (forall i, 0 < i < n -> sd_tempSum s2 !! i = Some 0%Qc) /\ sd_readySumList s2 = [].
Proof using Hcols Hcs.
  intros Hco Hm Hpop. destruct col_0 as [Hc0 _].
  destruct (close_columns_core (infos tb) 0 s m _ Hco ltac:(lia) Hm) as (s1 & Hs1 & Hco1 & Hk).
  destruct (core_top _ _ _ _ _ _ _ Hco1) as (_ & Hx & Ht & _).
  pose proof (close_block_eq (infos tb) s1 0 (length others) (length cs) y t product []
    (co_static _ _ _ _ Hco1) (co_temp _ _ _ _ Hco1) Hc0 Hx Ht) as Hcb.
  rewrite (co_ready _ _ _ _ Hco1) in Hcb. specialize (Hcb Hpop).
  eexists s1, _. split; [exact Hs1|]. split; [exact Hcb|].
  pose proof (co_temp _ _ _ _ Hco1) as Hlt. change (length (infos tb)) with n in Hlt.
  split_and!.
  - apply Hco1.
  - by destruct Hco1 as [[? ?] _ _ _ _ _ _].
  - exact Hk.
  - apply Hco1.
  - simpl. by rewrite length_insert.
  - simpl. apply list_lookup_insert_eq. lia.
  - intros i Hi. simpl. rewrite list_lookup_insert_ne by lia.
    destruct (cols_is_Some (infos tb) i) as (d & v & Hc); [simpl; lia|].
    apply (co_zero _ _ _ _ Hco1 i d v Hc). left. lia.
  - done.
Qed.

(** What [finish] does at the head, without and with a next block. *)
Lemma finish_head (tb : probTable) (s s1 s2 : stateData) :
  static (infos tb) s1 -> close_columns 0 s = Some s1 -> close_block 0 s1 = Some s2 ->
  finish false 0 s =
    s3 ← (if sd_calculating s2 then for_list (seq 0 n) reset_sum (set_cursor s2 (length others))
          else Some (set_cursor s2 (length others)));
    Some (save_tuple s3, None).
Proof using Hcols Hcs.
  intros Hst H1 H2. destruct col_0 as [Hc0 Hpos]. unfold finish. rewrite H1. cbn [mbind option_bind].
  destruct (cols_lookup (infos tb) 0 _ _ Hc0) as (info & Hi & Hd & _).
  rewrite (st_vars _ _ Hst), Hi. cbn [mbind option_bind]. rewrite Hd.
  replace (0 <? length others) with true by (symmetry; by apply Nat.ltb_lt). cbn [orb].
  rewrite H2. done.
Qed.

(** A tuple that changes the head while a block is open. *)
Lemma process_change (tb : probTable) (s : stateData) (pre : list Z) (m : machine) (r : arow) (x y : Z) :
  sim (infos tb) s (pre, m) -> r.*1 !! 0 = Some x -> pre !! 0 = Some y -> x <> y ->
  processTuple false (set_cur s r.*1 r.*2) =
    let s' := set_counter (set_cur s r.*1 r.*2) (S (sd_counter s)) in
    if bool_decide (head tb.*1 = Some x) then update_columns s' else finish false 0 (set_calculating s' false).
Proof using Hagg.
  intros [Hco _ Hcnt Hcalc Hpre _] Hx Hy Hxy. simpl in Hpre. unfold processTuple.
  cbn [set_counter set_cur sd_counter sd_curTuple sd_preTuple sd_vars sd_calculating].
  destruct (Nat.eqb_spec (S (sd_counter s)) 1) as [|_]; [lia|].
  rewrite Hpre, Hx, Hy, Hcalc. cbn [mbind option_bind].
  rewrite bool_decide_eq_false_2 by done. rewrite (st_vars _ _ (co_static _ _ _ _ Hco)).
  change (infos tb !! 0) with (Some (set_pt info0 (Some tb))).
  cbn [mbind option_bind]. unfold isAValidVar.
  change (type (set_pt info0 (Some tb))) with (type info0). rewrite Hagg. cbn [set_pt pt mbind option_bind].
  destruct tb as [|[x' q] tb]; [done|]. cbn [fmap list_fmap head].
  destruct (decide (x' = x)) as [->|Hne].
  - by rewrite !bool_decide_eq_true_2 by done.
  - rewrite !bool_decide_eq_false_2; [done|by intros [= ?]|done].
Qed.

Lemma cursor_pos (tb : probTable) (s : stateData) (pm : list Z * machine) :
  sim (infos tb) s pm -> 0 < sd_cursor s < n.
Proof using Hcols Hcs.
  intros [_ [v Hl] _ _ _ _]. destruct col_0 as [Hc0 Hpos]. split; [|by apply cols_lt in Hl].
  destruct (decide (sd_cursor s = 0)) as [E|]; [|lia]. rewrite cols_infos, E, Hc0 in Hl. injection Hl as H _. lia.
Qed.

(** The next representative while a block is open. *)
Lemma next_valid (x : Z) (q y t product : Qc) (tb : probTable) (s : stateData) (pre : list Z)
    (m : machine) (K : list Qc) (r : arow) :
  sim (infos ((x, q) :: tb)) s (pre, m) -> close_to cols 1 m = Some (mk_machine [(y, t)] K) ->
  pop_product (length cs) y K = Some (product, []) ->
  length r = n -> r.*1 !! 0 = Some x -> pre !! 0 <> Some x ->
  exists s', processTuple false (set_cur s r.*1 r.*2) = Some (s', None) /\
    sim (infos tb) s' (r.*1, opened q (indeEventConjunc t product) r.*2).
Proof using Hagg Hplain Hcols Hcs.
  intros Hs Hm Hpop Hlr Hx Hpx. pose proof (cursor_pos _ _ _ Hs) as Hcur.
  pose proof Hs as [Hco _ Hcnt Hcalc Hpre Hlp]. simpl in Hpre, Hlp.
  destruct (lookup_lt_is_Some_2 pre 0) as [z Hz]; [lia|].
  assert (Hxz : x <> z) by (intros ->; by rewrite Hz in Hpx).
  rewrite (process_change _ s pre m r x z Hs Hx Hz Hxz). cbv zeta.
  rewrite bool_decide_eq_true_2 by done. set (s' := set_counter (set_cur s r.*1 r.*2) (S (sd_counter s))).
  assert (Hco' : core (infos ((x, q) :: tb)) (S (sd_cursor s')) s' m).
  { destruct Hco as [[H1 H2] H3 H4 H5 H6 H7 H8]. by constructor. }
  unfold update_columns. cbn [search_up].
  assert (Hch : changed s' 0 = Some true).
  { unfold changed. cbn [s' set_counter set_cur sd_curTuple sd_preTuple sd_vars]. rewrite Hpre, Hx, Hz.
    cbn [mbind option_bind]. rewrite bool_decide_eq_false_2 by done.
    rewrite (st_vars _ _ (co_static _ _ _ _ Hco)).
    change (infos ((x, q) :: tb) !! 0) with (Some (set_pt info0 (Some ((x, q) :: tb)))).
    cbn [mbind option_bind]. unfold isAValidVar.
    change (type (set_pt info0 (Some ((x, q) :: tb)))) with (type info0). rewrite Hagg.
    cbn [set_pt pt mbind option_bind]. by rewrite bool_decide_eq_true_2. }
  rewrite Hch. cbn [mbind option_bind].
  destruct (Nat.eqb_spec 0 (sd_cursor s')) as [E|_]; [simpl in E; lia|].
  destruct (close_head _ s' m y t product K Hco' Hm Hpop)
    as (s1 & s2 & H1 & H2 & Hst1 & Hst2 & Hk & Hl1 & Hl2 & H0 & Hz0 & Hr).
  rewrite (finish_head _ s' s1 s2 Hst1 H1 H2). unfold keeps in Hk. destruct Hk as (_ & Hkc & Hkl & Hkv & Hkp & _).
  rewrite Hkl. change (sd_calculating s') with (sd_calculating s). rewrite Hcalc.
  destruct (load_block x q (indeEventConjunc t product) tb (set_cursor s2 (length others)) r)
    as (s3 & Hl & Hn3 & Hc3 & Hk3 & Hs3); try done.
  { by destruct Hst2. }
  { simpl. rewrite Hkc. simpl. lia. }
  rewrite Hl. cbn [mbind option_bind]. eexists. split; [done|]. apply Hs3.
  cbn [set_cursor sd_cursor sd_calculating] in Hk3, Hc3. rewrite Hkl in Hc3.
  change (sd_calculating s') with (sd_calculating s) in Hc3. rewrite Hcalc in Hc3.
  destruct s3. cbn in Hk3, Hc3 |- *. subst. unfold save_tuple, set_cursor, set_calculating. cbn. f_equal. lia.
Qed.

(** A tuple that does not belong to the next block ends the open one. *)
Lemma pause (y t product : Qc) (tb : probTable) (s : stateData) (pre : list Z) (m : machine) (K : list Qc)
    (r : arow) (x : Z) :
  sim (infos tb) s (pre, m) -> close_to cols 1 m = Some (mk_machine [(y, t)] K) ->
  pop_product (length cs) y K = Some (product, []) ->
  length r = n -> r.*1 !! 0 = Some x -> x ∉ tb.*1 -> pre !! 0 <> Some x ->
  exists s', processTuple false (set_cur s r.*1 r.*2) = Some (s', None) /\
    paused tb s' (indeEventConjunc t product).
Proof using Hagg Hcols Hcs.
  intros Hs Hm Hpop Hlr Hx Hnin Hpx.
  pose proof Hs as [Hco _ Hcnt Hcalc Hpre Hlp]. simpl in Hpre, Hlp.
  destruct (lookup_lt_is_Some_2 pre 0) as [z Hz]; [lia|].
  assert (Hxz : x <> z) by (intros ->; by rewrite Hz in Hpx).
  rewrite (process_change _ s pre m r x z Hs Hx Hz Hxz). cbv zeta.
  rewrite bool_decide_eq_false_2.
  2: { intros He. apply Hnin. destruct (tb.*1); [done|]. injection He as ->. apply list_elem_of_here. }
  set (s' := set_calculating (set_counter (set_cur s r.*1 r.*2) (S (sd_counter s))) false).
  assert (Hco' : core (infos tb) (S (sd_cursor s')) s' m).
  { destruct Hco as [[H1 H2] H3 H4 H5 H6 H7 H8]. by constructor. }
  destruct (close_head _ s' m y t product K Hco' Hm Hpop)
    as (s1 & s2 & H1 & H2 & Hst1 & Hst2 & Hk & Hl1 & Hl2 & H0 & Hz0 & Hr).
  rewrite (finish_head _ s' s1 s2 Hst1 H1 H2). unfold keeps in Hk. destruct Hk as (_ & Hkc & Hkl & Hkv & Hkp & _).
  rewrite Hkl. change (sd_calculating s') with false. cbn [mbind option_bind].
  eexists. split; [done|]. constructor; simpl; try done.
  - by destruct Hst2.
  - rewrite Hkc. simpl. lia.
  - exists x. by rewrite Hkv.
Qed.

(** Tuples are skipped until the next representative. *)
Lemma skip (tb : probTable) (s : stateData) (t : Qc) (r : arow) (x : Z) :
  paused tb s t -> r.*1 !! 0 = Some x -> x ∉ tb.*1 ->
  exists s', processTuple false (set_cur s r.*1 r.*2) = Some (s', None) /\ paused tb s' t.
Proof using Hagg.
  intros [Hst Hcnt Hcalc Hls Hlt H0 Hz Hready (y & Hy & Hnin)] Hx Hxn.
  unfold processTuple. cbn [set_counter set_cur sd_counter sd_curTuple sd_preTuple sd_vars sd_calculating].
  destruct (Nat.eqb_spec (S (sd_counter s)) 1) as [|_]; [lia|].
  rewrite Hx, Hy, Hcalc. cbn [mbind option_bind].
  assert (Hp : paused tb (set_counter (set_cur s r.*1 r.*2) (S (sd_counter s))) t).
  { constructor; simpl; try done; [by destruct Hst|lia|by exists y]. }
  destruct (bool_decide (x = y)); [by eexists|]. rewrite (st_vars _ _ Hst).
  change (infos tb !! 0) with (Some (set_pt info0 (Some tb))).
  cbn [mbind option_bind]. unfold isAValidVar.
  change (type (set_pt info0 (Some tb))) with (type info0). rewrite Hagg. cbn [set_pt pt mbind option_bind].
  destruct tb as [|[x' q] tb]; [by eexists|].
  rewrite bool_decide_eq_false_2; [by eexists|]. intros ->. apply Hxn. simpl. apply list_elem_of_here.
Qed.

(** *** A block and what follows it *)

Lemma block_run (x : Z) (p0 q t : Qc) (tb : probTable) (s : stateData) (w0 : arow) (ls : list (list block))
    (ws g R : list arow) :
  sim (infos tb) s (((x, p0) :: w0).*1, opened q t ((x, p0) :: w0).*2) ->
  Forall2 shaped cs ls -> forest_rows ls = w0 :: ws ->
  Forall (starts ((x, p0) :: w0)) g -> grouped [(x, p0)] ws R ->
  Forall (fun r => length r = n) (g ++ R) ->
  exists s' pv m, for_list (g ++ R) process_row s = Some s' /\ sim (infos tb) s' (pv, m) /\
    close_to cols 1 m = Some (mk_machine [(q, t)] (blocks_prob <$> ls)) /\ pv !! 0 = Some x.
Proof using Hplain Hcols.
  intros Hs Hls Hw Hg HR Hlen.
  assert (Hn : n = S (forest_size cs)).
  { transitivity (size (T cs)); [|done]. rewrite <- length_tcols, <- Hcols. unfold cols_of. by rewrite length_fmap. }
  destruct (forest_rows_ok cs ls Hls) as [_ Hlw]. rewrite Hw in Hlw. apply Forall_cons in Hlw as [Hlw0 _].
  set (m0 := opened q t ((x, p0) :: w0).*2) in *.
  assert (Hm0 : m0 = mk_machine (fresh_frames w0.*2 ++ [(q, t)]) []) by done.
  assert (Hl0 : length (frames m0) = S (length w0)).
  { rewrite Hm0. cbn [frames]. rewrite length_app, length_fresh_frames, length_fmap. simpl. lia. }
  destruct (mrun_same cols ((x, p0) :: w0) g ((x, p0) :: w0).*1 m0 Hg) as (pv1 & Hr1 & Hpv1); [done|rewrite Hl0; simpl; lia|].
  destruct (forest_scan_intro cols cs) with (ls := ls) (u := [(x, p0)]) (fs := [(q, t)]) (K := @nil Qc)
    (m := m0) (pv := pv1) (w0 := w0) (ws := ws) (R := R) as (m' & pv' & Hr2 & Hm'); try done.
  { apply Forall_forall. intros c _. apply tree_scans. }
  { intros i Hi. rewrite Hcols. done. }
  { rewrite close_to_id; [done|]. rewrite Hl0. simpl. lia. }
  assert (Hst : Forall (starts [(x, p0)]) (g ++ R)).
  { apply Forall_app. split; [|by eapply grouped_starts]. eapply Forall_impl; [exact Hg|].
    intros r. unfold starts. intros Hpre. etrans; [|exact Hpre]. by exists w0. }
  assert (Hrun : mrun (cols_of (infos tb)) (g ++ R) (((x, p0) :: w0).*1, m0) = Some (pv', m')).
  { rewrite cols_infos, mrun_app, Hr1. exact Hr2. }
  destruct (run_sim 1 (infos tb) (drop_infos tb) (wf_infos tb) (g ++ R) s _ pv' m0 m' Hs Hlen) as (s' & Hf & Hs'); [|done|].
  { eapply Forall_impl; [exact Hst|]. intros r [k ->]. done. }
  exists s', pv', m'. split_and!; [by eapply static_run|done|by rewrite app_nil_r in Hm'|].
  destruct (mrun_prefix cols [(x, p0)] (g ++ R) ((x, p0) :: w0).*1 pv' m0 m' Hst) as [k ->]; [by eexists|done|done].
Qed.

(** After a block: [Q] is the product of the complements of the blocks so far. *)
Definition done_state (tb : probTable) (s : stateData) (Q : Qc) : Prop :=
  (exists pv m y t K product x, sim (infos tb) s (pv, m) /\ close_to cols 1 m = Some (mk_machine [(y, t)] K) /\
     pop_product (length cs) y K = Some (product, []) /\ indeEventConjunc t product = (1 - Q)%Qc /\
     pv !! 0 = Some x /\ x ∉ tb.*1) \/
  paused tb s (1 - Q)%Qc.

(** The rows of a block, with the probability [p0] of its first variable in the
    lineage, followed by rows of other variables of its group. *)
Inductive segments : list block -> list arow -> Prop :=
  | segments_nil : segments [] []
  | segments_cons x q ls bs p0 Rv I R :
      grouped [(x, p0)] (forest_rows ls) Rv ->
      Forall (fun r => exists y, r.*1 !! 0 = Some y /\ y <> x /\ y ∉ bvar <$> bs) I ->
      segments bs R -> segments (B x q ls :: bs) (Rv ++ I ++ R).

Definition table (bs : list block) : probTable := (fun b => (bvar b, bprob b)) <$> bs.

Lemma table_vars (bs : list block) : (table bs).*1 = bvar <$> bs.
Proof. unfold table. by rewrite <- list_fmap_compose. Qed.

Lemma block_rest (x : Z) (p0 q Q : Qc) (tb : probTable) (s : stateData) (w0 : arow) (ls : list (list block))
    (ws g R : list arow) :
  x ∉ tb.*1 ->
  sim (infos tb) s (((x, p0) :: w0).*1, opened q (1 - Q)%Qc ((x, p0) :: w0).*2) ->
  Forall2 shaped cs ls -> forest_rows ls = w0 :: ws ->
  Forall (starts ((x, p0) :: w0)) g -> grouped [(x, p0)] ws R ->
  Forall (fun r => length r = n) (g ++ R) ->
  exists s', for_list (g ++ R) process_row s = Some s' /\ sd_preTuple s' !! 0 = Some x /\
    done_state tb s' (Q * (1 - block_prob (B x q ls)))%Qc.
Proof using Hplain Hcols.
  intros Hx Hs Hls Hw Hg HR Hlen.
  destruct (block_run x p0 q (1 - Q)%Qc tb s w0 ls ws g R) as (s' & pv & m & Hf & Hs' & Hm & Hpv); try done.
  exists s'. split; [done|]. split; [by rewrite (si_pre _ _ _ Hs')|]. left.
  exists pv, m, q, (1 - Q)%Qc, (blocks_prob <$> ls), (q * qprod (blocks_prob <$> ls))%Qc, x. split_and!; try done.
  - rewrite (Forall2_length _ _ _ Hls), <- (length_fmap blocks_prob ls).
    rewrite <- (app_nil_r (blocks_prob <$> ls)) at 2. apply pop_product_app.
  - rewrite block_prob_eq. unfold indeEventConjunc. ring.
Qed.

(** The first row of a group of rows of a block. *)
Lemma grouped_first (x : Z) (p0 : Qc) (w0 : arow) (ws Rv : list arow) :
  length w0 = length others -> Forall (fun r => length r = n) Rv -> grouped [(x, p0)] (w0 :: ws) Rv ->
  exists g R, Rv = ((x, p0) :: w0) :: g ++ R /\ Forall (starts ((x, p0) :: w0)) g /\ grouped [(x, p0)] ws R.
Proof.
  intros Hw Hlen HR. inversion HR as [|? ? g R Hg Hs HR']; subst. destruct g as [|r g]; [done|].
  apply Forall_cons in Hs as [[k Hk] Hs]. simpl in Hlen. apply Forall_cons in Hlen as [Hr _].
  exists g, R. simpl in Hk. split_and!; try done. f_equal. destruct k as [|a k]; [by rewrite Hk, app_nil_r|].
  rewrite Hk in Hr. simpl in Hr. rewrite length_app in Hr. simpl in Hr. lia.
Qed.

Lemma forest_others (ls : list (list block)) :
  Forall2 shaped cs ls -> exists w0 ws, forest_rows ls = w0 :: ws /\ length w0 = length others.
Proof using Hcols.
  intros Hls. assert (Hn : n = S (forest_size cs)).
  { transitivity (size (T cs)); [|done]. rewrite <- length_tcols, <- Hcols. unfold cols_of. by rewrite length_fmap. }
  destruct (forest_rows_ok cs ls Hls) as [Hne Hl]. destruct (forest_rows ls) as [|w0 ws]; [done|].
  exists w0, ws. split; [done|]. apply Forall_cons in Hl as [-> _]. lia.
Qed.

(** Rows that are not of the next block. *)
Lemma skip_rows (tb : probTable) (I : list arow) (s : stateData) (Q : Qc) (x0 : Z) :
  Forall (fun r => length r = n) I ->
  Forall (fun r => exists y, r.*1 !! 0 = Some y /\ y <> x0 /\ y ∉ tb.*1) I ->
  sd_preTuple s !! 0 = Some x0 ->
  done_state tb s Q -> exists s', for_list I process_row s = Some s' /\ done_state tb s' Q.
Proof using Hagg Hcols Hcs.
  intros Hlen HI Hsim Hd. destruct HI as [|r I (y & Hy & Hyx & Hyn) HI]; [by exists s|].
  apply Forall_cons in Hlen as [Hr Hlen]. cbn [for_list].
  assert (Hp : exists s1, process_row r s = Some s1 /\ paused tb s1 (1 - Q)%Qc).
  { destruct Hd as [(pv & m & z & t & K & product & x & Hs & Hm & Hpop & Hq & Hpv & _)|Hp].
    - destruct (pause z t product tb s pv m K r y Hs Hm Hpop Hr Hy Hyn) as (s1 & H1 & Hp1).
      { pose proof (si_pre _ _ _ Hs) as E. simpl in E. rewrite <- E, Hsim. by intros [= ->]. }
      exists s1. split; [by eapply process_row_eq|]. by rewrite <- Hq.
    - destruct (skip tb s _ r y Hp Hy Hyn) as (s1 & H1 & Hp1). exists s1. split; [by eapply process_row_eq|done]. }
  destruct Hp as (s1 & -> & Hp1). cbn [mbind option_bind]. clear Hd Hsim Hr Hy Hyn s. revert s1 Hp1.
  induction HI as [|r' I (z & Hz & _ & Hzn) HI IH]; intros s1 Hp1; [exists s1; by split; [|right]|].
  apply Forall_cons in Hlen as [_ Hlen]. cbn [for_list].
  destruct (skip tb s1 _ r' z Hp1 Hz Hzn) as (s2 & H2 & Hp2). rewrite (process_row_eq _ _ _ _ H2).
  cbn [mbind option_bind]. by apply IH.
Qed.

(** The row that opens a block. *)
Lemma open_next (x : Z) (q Q : Qc) (tb : probTable) (s : stateData) (r : arow) :
  done_state ((x, q) :: tb) s Q -> length r = n -> r.*1 !! 0 = Some x ->
  exists s', process_row r s = Some s' /\ sim (infos tb) s' (r.*1, opened q (1 - Q)%Qc r.*2).
Proof using Hagg Hplain Hcols Hcs.
  intros [(pv & m & z & t & K & product & x' & Hs & Hm & Hpop & Hq & Hpv & Hnin)|Hp] Hr Hx.
  - destruct (next_valid x q z t product tb s pv m K r Hs Hm Hpop Hr Hx) as (s' & H & Hs').
    { rewrite Hpv. intros [= ->]. apply Hnin. simpl. apply list_elem_of_here. }
    exists s'. split; [by eapply process_row_eq|]. by rewrite <- Hq.
  - destruct (open_paused x q _ tb s r Hp Hr Hx) as (s' & H & Hs'). exists s'.
    split; [by eapply process_row_eq|done].
Qed.

(** A block that has been opened, the rows that are skipped and the next blocks. *)
Lemma segments_run (bs : list block) (R : list arow) :
  segments bs R -> Forall (fun r => length r = n) R -> NoDup (bvar <$> bs) ->
  Forall (fun b => Forall2 shaped cs (bsub b)) bs ->
  forall s Q, (bs <> [] -> (forall r x, head R = Some r -> r.*1 !! 0 = Some x -> 
     exists s', process_row r s = Some s' /\ forall q tb, table bs = (x, q) :: tb ->
       sim (infos tb) s' (r.*1, opened q (1 - Q)%Qc r.*2))) ->
  (bs = [] -> done_state [] s Q) ->
  exists s', for_list R process_row s = Some s' /\
    done_state [] s' (Q * qprod ((fun b => 1 - block_prob b) <$> bs))%Qc.
Proof using Hagg Hplain Hcols Hcs.
  induction 1 as [|x q ls bs p0 Rv I R HRv HI Hseg IH]; intros Hlen Hnd Hbs s Q Hopen Hnil.
  - exists s. split; [done|]. csimpl. rewrite qprod_nil, Qcmult_1_r. by apply Hnil.
  - apply Forall_cons in Hbs as [Hb Hbs]. simpl in Hb. csimpl in Hnd. apply NoDup_cons in Hnd as [Hx Hnd].
    apply Forall_app in Hlen as [HlRv Hlen]. apply Forall_app in Hlen as [HlI HlR].
    destruct (forest_others ls Hb) as (w0 & ws & Hw & Hlw). rewrite Hw in HRv.
    destruct (grouped_first x p0 w0 ws Rv Hlw HlRv HRv) as (g & Rv' & -> & Hg & HRv').
    apply Forall_cons in HlRv as [Hr HlRv].
    destruct (Hopen ltac:(done) ((x, p0) :: w0) x eq_refl eq_refl) as (s1 & Hp1 & Hs1).
    specialize (Hs1 q (table bs) eq_refl).
    destruct (block_rest x p0 q Q (table bs) s1 w0 ls ws g Rv') as (s2 & Hf2 & Hpre2 & Hd2); try done.
    { by rewrite table_vars. }
    destruct (skip_rows (table bs) I s2 (Q * (1 - block_prob (B x q ls)))%Qc x) as (s3 & Hf3 & Hd3); try done.
    { by rewrite table_vars. }
    destruct (IH HlR Hnd Hbs s3 (Q * (1 - block_prob (B x q ls)))%Qc) as (s4 & Hf4 & Hd4).
    { intros Hne r x' Hhead Hx'. destruct R as [|r0 R]; [done|]. injection Hhead as ->.
      apply Forall_cons in HlR as [Hr' _]. destruct bs as [|b bs]; [done|].
      assert (Hxb : x' = bvar b).
      { inversion Hseg as [|x1 q1 ls1 bs1 p1 Rv1 I1 R1 HRv1 HI1 Hseg1 He1 He2]; subst. simpl.
        apply Forall_cons in Hbs as [Hb1 _]. simpl in Hb1.
        destruct (forest_others ls1 Hb1) as (w1 & ws1 & Hw1 & _). rewrite Hw1 in HRv1.
        inversion HRv1 as [|? ? g1 R2 Hg1 Hs2 _ Hw2 Hg2]; subst. destruct g1 as [|r1 g1]; [done|].
        apply Forall_cons in Hs2 as [[k ->] _]. simpl in He2. injection He2 as <- _. by injection Hx'. }
      subst x'. destruct (open_next (bvar b) (bprob b) _ (table bs) s3 r Hd3 Hr' Hx') as (s' & Hp' & Hs').
      exists s'. split; [done|]. intros q' tb' [= <- <-]. done. }
    { intros ->. done. }
    exists s4. split.
    + cbn [app for_list]. rewrite Hp1. cbn [mbind option_bind]. rewrite for_list_app, Hf2.
      cbn [mbind option_bind]. rewrite for_list_app, Hf3. cbn [mbind option_bind]. done.
    + csimpl. rewrite qprod_cons, Qcmult_assoc. done.
Qed.

(** The end of the group. *)
Lemma done_final (s : stateData) (Q : Qc) :
  done_state [] s Q -> exists s', processTuple true s = Some (s', Some (1 - Q)%Qc).
Proof using Hcols Hcs.
  intros [(pv & m & z & t & K & product & x & Hs & Hm & Hpop & Hq & _)|[_ _ Hc _ _ H0 _ _ _]].
  - destruct col_0 as [Hc0 Hpos].
    destruct (final_sim (infos []) s pv m (1 - Q)%Qc (length others) (length cs) Hs) as (s' & H & _); [|done|lia|by exists s'].
    rewrite cols_infos, (close_to_trans cols 0 1), Hm by lia. cbn [mbind option_bind].
    pose proof (close_to_top cols z t [] K) as Htop. cbn [length] in Htop. rewrite Htop. unfold close_top.
    cbn [frames length]. rewrite Hc0. cbn [mbind option_bind].
    destruct (Nat.eqb_spec (length others) 0) as [|_]; [lia|]. cbn [ready]. rewrite Hpop. cbn [mbind option_bind].
    by rewrite Hq.
  - exists s. unfold processTuple. by rewrite Hc, H0.
Qed.

(** The whole scan. *)
Theorem star_scan (bs : list block) (R : list arow) (s : stateData) :
  shaped (T cs) bs -> segments bs R -> Forall (fun r => length r = n) R ->
  static (infos (table bs)) s -> sd_counter s = 0 ->
  exists s1 s2, for_list R process_row s = Some s1 /\ processTuple true s1 = Some (s2, Some (blocks_prob bs)).
Proof using Hagg Hplain Hcols Hcs.
  intros (Hne & Hnd & Hbs)%shaped_unfold Hseg Hlen Hst Hcnt.
  destruct (segments_run bs R Hseg Hlen Hnd Hbs s 1%Qc) as (s1 & Hf & Hd).
  - intros _ r x Hhead Hx. destruct R as [|r0 R]; [done|]. injection Hhead as ->.
    apply Forall_cons in Hlen as [Hr _]. destruct bs as [|b bs]; [done|].
    destruct (open_first (bvar b) (bprob b) (table bs) s r Hst Hcnt Hr) as (s' & Hp & Hs').
    exists s'. split; [by eapply process_row_eq|]. intros q tb [= _ <- <-].
    by replace (1 - 1)%Qc with 0%Qc by ring.
  - done.
  - destruct (done_final s1 _ Hd) as (s2 & H2). exists s1, s2. split; [done|]. rewrite H2.
    unfold blocks_prob. do 3 f_equal. ring.
Qed.
End Star.
