(* ===== verification/SproutJoin.v ===== *)
(** * SproutJoin: lineage of a join whose first column is starred

    A group of the join has several variables of the starred column and, for the
    subtrees to its right, lineage of their shape; its tuples are all combinations.
    The aggregation of the starred column gives one table entry per group, the scan
    of the rest one block per group, and together they give the probability. *)
From S2P Require Import Prelude.
From S2P Require Import Worlds.
From S2P Require Import Signature.
From S2P Require Import Sprout.
From S2P Require Import SproutAgg.
From S2P Require Import SproutScan.
From S2P Require Import SproutRefine.
From S2P Require Import SproutProb.
From S2P Require Import SproutAggCorrect.
From S2P Require Import SproutStar.

(** ** First occurrences in runs *)

(** The first elements of the lists of a list, which are not empty. *)
Definition heads {A} (Ls : list (list A)) : list A := omap head Ls.

Section Runs.
Context {A : Type} (key : A -> Z).

(** Every list has one key. *)
Definition run (k : Z) (L : list A) : Prop := L <> [] /\ Forall (fun a => key a = k) L.

Lemma foldl_known (acc : list A) (L : list A) :
  Forall (fun a => key a ∈ key <$> acc) L -> foldl (occ_step key) acc L = acc.
Proof.
  induction 1 as [|a L Ha _ IH]; [done|]. simpl. unfold occ_step at 2. by rewrite decide_True.
Qed.

Lemma occ_runs_acc (ks : list Z) (Ls : list (list A)) (acc : list A) :
  Forall2 run ks Ls -> NoDup ks -> (forall k, k ∈ ks -> k ∉ key <$> acc) ->
  foldl (occ_step key) acc (mjoin Ls) = acc ++ heads Ls.
Proof.
  intros H. revert acc. induction H as [|k L ks Ls [Hne HL] _ IH]; intros acc Hnd Hacc; [by rewrite app_nil_r|].
  apply NoDup_cons in Hnd as [Hk Hnd]. destruct L as [|a L]; [done|]. apply Forall_cons in HL as [<- HL].
  change (mjoin ((a :: L) :: Ls)) with ((a :: L) ++ mjoin Ls). rewrite foldl_app. cbn [foldl].
  assert (Hstep : occ_step key acc a = acc ++ [a]).
  { unfold occ_step. by rewrite decide_False by (apply Hacc, list_elem_of_here). }
  rewrite Hstep.
  rewrite (foldl_known (acc ++ [a]) L).
  - rewrite IH; [|done|].
    + by rewrite <- app_assoc.
    + intros k' Hk'. rewrite fmap_app, not_elem_of_app. split; [by apply Hacc, list_elem_of_further|].
      intros ->%list_elem_of_singleton. done.
  - eapply Forall_impl; [exact HL|]. intros a' ->. rewrite fmap_app, elem_of_app. right. apply list_elem_of_here.
Qed.

Lemma occ_runs (ks : list Z) (Ls : list (list A)) :
  Forall2 run ks Ls -> NoDup ks -> occ key (mjoin Ls) = heads Ls.
Proof. intros H Hnd. unfold occ. apply (occ_runs_acc ks Ls []); [done..|]. intros k _ Hk. by apply elem_of_nil in Hk. Qed.

(** Selecting one key out of lists with one key each. *)
Lemma filter_run (k k' : Z) (L : list A) :
  Forall (fun a => key a = k) L -> filter (fun a => key a = k') L = if decide (k = k') then L else [].
Proof.
  induction 1 as [|a L Ha _ IH]; [by destruct (decide _)|]. rewrite filter_cons, IH, Ha. by destruct (decide _).
Qed.

Lemma filter_runs (ks : list Z) (Ls : list (list A)) (i : nat) (k : Z) (L : list A) :
  Forall2 (fun k L => Forall (fun a => key a = k) L) ks Ls -> NoDup ks ->
  ks !! i = Some k -> Ls !! i = Some L -> filter (fun a => key a = k) (mjoin Ls) = L.
Proof.
  intros H. revert i. induction H as [|k0 L0 ks Ls HL HF IH]; intros [|i] Hnd Hk HLi; try done; simpl in *.
  - injection Hk as ->. injection HLi as ->. apply NoDup_cons in Hnd as [Hn _].
    rewrite filter_app, (filter_run k k L HL), decide_True by done.
    replace (filter (fun a => key a = k) (mjoin Ls)) with (@nil A); [by rewrite app_nil_r|].
    symmetry. clear IH. induction HF as [|k1 L1 ks Ls H1 _ IH]; [done|]. csimpl.
    apply not_elem_of_cons in Hn as [Hne Hn]. rewrite filter_app, (filter_run k1 k L1 H1), decide_False by done.
    by apply IH.
  - apply NoDup_cons in Hnd as [Hn Hnd]. rewrite filter_app, (filter_run k0 k L0 HL), decide_False.
    + by apply (IH i).
    + intros ->. apply Hn. by eapply list_elem_of_lookup_2.
Qed.
End Runs.

(** ** Groups of the join *)

Record sgroup := mk_sgroup { lefts : list (Z * Qc); rights : list (list block) }.

Definition left_blocks (g : sgroup) : list block := (fun xp => B xp.1 xp.2 []) <$> lefts g.
(** All combinations. *)
Definition group_rows (g : sgroup) : list arow := forest_rows (left_blocks g :: rights g).
Definition join_rows (gs : list sgroup) : list arow := mjoin (group_rows <$> gs).
Definition group_base (g : sgroup) : arow := lefts g ++ mjoin (bases <$> rights g).

(** The representative of a group, and the block that stands for it. *)
Definition repr (g : sgroup) : Z := default 0%Z (fst <$> head (lefts g)).
Definition group_block (g : sgroup) : block := B (repr g) (blocks_prob (left_blocks g)) (rights g).

Definition group_ok (cs : list tree) (g : sgroup) : Prop := lefts g <> [] /\ Forall2 shaped cs (rights g).

Lemma bases_left (g : sgroup) : bases (left_blocks g) = lefts g.
Proof.
  unfold bases, left_blocks. induction (lefts g) as [|[x p] l IH]; [done|]. csimpl. by rewrite IH.
Qed.

Lemma rows_left (g : sgroup) : rows_of (left_blocks g) = (fun xp => [xp]) <$> lefts g.
Proof.
  unfold rows_of, left_blocks. induction (lefts g) as [|[x p] l IH]; [done|]. csimpl. by rewrite IH.
Qed.

Lemma group_rows_eq (g : sgroup) :
  group_rows g = xp ← lefts g; (app [xp] <$> forest_rows (rights g)).
Proof.
  unfold group_rows. rewrite forest_rows_cons, rows_left. induction (lefts g) as [|xp l IH]; [done|].
  rewrite fmap_cons, !bind_cons. by rewrite IH.
Qed.

(** The tuples of a group, by the variable of the left column. *)
Lemma grouped_runs (ls : arow) (ws R : list arow) :
  grouped [] (xp ← ls; (app [xp] <$> ws)) R ->
  exists Rs, R = mjoin Rs /\ Forall2 (fun xp Rv => grouped [xp] ws Rv) ls Rs.
Proof.
  revert R. induction ls as [|xp ls IH]; intros R H.
  - inversion H; subst. by exists [].
  - rewrite bind_cons in H. apply grouped_app in H as (R1 & R2 & -> & H1 & H2).
    apply (grouped_prefix [] [xp]) in H1. destruct (IH R2 H2) as (Rs & -> & HRs).
    exists (R1 :: Rs). split; [done|]. by constructor.
Qed.

Lemma join_runs (gs : list sgroup) (R : list arow) :
  grouped [] (join_rows gs) R ->
  exists RRs, R = mjoin (mjoin <$> RRs) /\
    Forall2 (fun g Rs => Forall2 (fun xp Rv => grouped [xp] (forest_rows (rights g)) Rv) (lefts g) Rs) gs RRs.
Proof.
  revert R. induction gs as [|g gs IH]; intros R H.
  - inversion H; subst. by exists [].
  - unfold join_rows in H. rewrite fmap_cons in H. change (mjoin (?a :: ?b)) with (a ++ mjoin b) in H.
    apply grouped_app in H as (R1 & R2 & -> & H1 & H2). rewrite group_rows_eq in H1.
    destruct (grouped_runs _ _ _ H1) as (Rs & -> & HRs). destruct (IH R2 H2) as (RRs & -> & HRRs).
    exists (Rs :: RRs). split; [done|]. by constructor.
Qed.

(** *** The tuples as triples *)

Definition triple_of (r : arow) : triple :=
  match r with
  | (x, p) :: (y, _) :: _ => mk_triple x p y
  | _ => mk_triple 0 0 0
  end.
Definition first_var (ws : list arow) : Z := default 0%Z (w ← head ws; fst <$> head w).

(** Tuples are made of base tuples. *)
Lemma cross_elem (l : list (list arow)) (bs : list arow) (w : arow) (a : Z * Qc) :
  Forall2 (fun R b => forall r a, r ∈ R -> a ∈ r -> a ∈ b) l bs -> w ∈ cross l -> a ∈ w -> a ∈ mjoin bs.
Proof.
  intros H. revert w. induction H as [|R b l bs HR _ IH]; intros w Hw Ha; simpl in Hw.
  - apply list_elem_of_singleton in Hw as ->. by apply elem_of_nil in Ha.
  - apply list_elem_of_bind in Hw as (r & Hw & Hr). apply list_elem_of_fmap in Hw as (v & -> & Hv).
    csimpl. apply elem_of_app in Ha as [Ha|Ha]; apply elem_of_app; [left; by eapply HR|right; by eapply IH].
Qed.

Lemma block_rows_base (b : block) (r : arow) (a : Z * Qc) : r ∈ block_rows b -> a ∈ r -> a ∈ base b.
Proof.
  revert r a. induction b as [x p ls IH] using block_ind'. intros r a Hr Ha. rewrite block_rows_eq in Hr.
  apply list_elem_of_fmap in Hr as (w & -> & Hw). cbn [base].
  apply elem_of_cons in Ha as [->|Ha]; [apply list_elem_of_here|apply list_elem_of_further].
  apply (cross_elem (rows_of <$> ls) (bases <$> ls) w a); [|done|done]. apply Forall2_fmap.
  apply Forall_Forall2_diag. eapply Forall_impl; [exact IH|]. simpl. intros l Hl r' a' Hr' Ha'.
  unfold rows_of in Hr'. apply list_elem_of_join in Hr' as (R & Hr' & HR).
  apply list_elem_of_fmap in HR as (b & -> & Hb). unfold bases. apply list_elem_of_join.
  exists (base b). split; [|by apply list_elem_of_fmap_2]. rewrite Forall_forall in Hl. by apply (Hl b Hb r').
Qed.

Lemma forest_rows_base (ls : list (list block)) (w : arow) (a : Z * Qc) :
  w ∈ forest_rows ls -> a ∈ w -> a ∈ mjoin (bases <$> ls).
Proof.
  intros Hw Ha. apply (cross_elem (rows_of <$> ls) (bases <$> ls) w a); [|done|done]. apply Forall2_fmap.
  apply Forall_Forall2_diag, Forall_forall. intros l _ r a' Hr Ha'.
  unfold rows_of in Hr. apply list_elem_of_join in Hr as (R & Hr & HR).
  apply list_elem_of_fmap in HR as (b & -> & Hb). unfold bases. apply list_elem_of_join.
  exists (base b). split; [by eapply block_rows_base|by apply list_elem_of_fmap_2].
Qed.

Section Join.
Context (cs : list tree).
Hypothesis Hcs : cs <> [].

(** The tuples of a run: the left variable, and right variables of the group. *)
Record run_ok (xp : Z * Qc) (ls : list (list block)) (ts : list triple) : Prop := {
  ro_first : exists ts', ts = mk_triple xp.1 xp.2 (first_var (forest_rows ls)) :: ts';
  ro_all : Forall (fun t => tx t = xp.1 /\ tp t = xp.2 /\ ty t ∈ (mjoin (bases <$> ls)).*1) ts }.

Lemma row_triple (xp : Z * Qc) (ls : list (list block)) (w : arow) (r : arow) :
  Forall2 shaped cs ls -> w ∈ forest_rows ls -> starts (xp :: w) r ->
  exists y q w', w = (y, q) :: w' /\ triple_of r = mk_triple xp.1 xp.2 y /\ y ∈ (mjoin (bases <$> ls)).*1.
Proof using Hcs.
  intros Hls Hw [k ->]. destruct (forest_rows_ok cs ls Hls) as [_ Hl]. rewrite Forall_forall in Hl.
  specialize (Hl w Hw). destruct w as [|[y q] w].
  { exfalso. destruct cs as [|c cs']; [done|]. simpl in Hl. pose proof (size_pos c). lia. }
  exists y, q, w. destruct xp as [x p]. split_and!; [done|done|].
  apply (list_elem_of_fmap_2 fst _ (y, q)). apply (forest_rows_base ls ((y, q) :: w)); [done|apply list_elem_of_here].
Qed.

Lemma grouped_run_ok (xp : Z * Qc) (ls : list (list block)) (Rv : list arow) :
  Forall2 shaped cs ls -> grouped [xp] (forest_rows ls) Rv -> run_ok xp ls (triple_of <$> Rv).
Proof using Hcs.
  intros Hls HR.
  assert (Hall : forall ws R, (forall w, w ∈ ws -> w ∈ forest_rows ls) -> grouped [xp] ws R ->
    Forall (fun t => tx t = xp.1 /\ tp t = xp.2 /\ ty t ∈ (mjoin (bases <$> ls)).*1) (triple_of <$> R)).
  { intros ws R Hin H. revert Hin. induction H as [|w ws g R _ Hg _ IH]; intros Hin; [constructor|].
    rewrite fmap_app. apply Forall_app. split; [|by apply IH; intros; apply Hin, list_elem_of_further].
    apply Forall_fmap. eapply Forall_impl; [exact Hg|]. simpl. intros r Hr.
    destruct (row_triple xp ls w r Hls) as (y & q & w' & _ & -> & Hy); [apply Hin, list_elem_of_here|done|]. done. }
  constructor; [|by apply (Hall (forest_rows ls))].
  destruct (forest_rows_ok cs ls Hls) as [Hne _]. destruct (forest_rows ls) as [|w ws] eqn:Hw; [done|].
  inversion HR as [|? ? g R Hg Hs _]; subst. destruct g as [|r g]; [done|]. apply Forall_cons in Hs as [Hr _].
  destruct (row_triple xp ls w r Hls) as (y & q & w' & -> & Ht & _); [rewrite Hw; apply list_elem_of_here|done|].
  exists (triple_of <$> g ++ R). csimpl. by rewrite Ht.
Qed.

(** *** The table of the groups *)

Lemma join_join {A} (l : list (list (list A))) : mjoin (mjoin <$> l) = mjoin (mjoin l).
Proof. induction l as [|x l IH]; [done|]. csimpl. by rewrite join_app, IH. Qed.

Lemma fmap_join {A B} (f : A -> B) (l : list (list A)) : f <$> mjoin l = mjoin (fmap f <$> l).
Proof. induction l as [|x l IH]; [done|]. csimpl. by rewrite fmap_app, IH. Qed.

Lemma NoDup_join_index {A B} (f : A -> list B) (l : list A) (i j : nat) (a b : A) (x : B) :
  NoDup (mjoin (f <$> l)) -> l !! i = Some a -> l !! j = Some b -> x ∈ f a -> x ∈ f b -> i = j.
Proof.
  revert i j. induction l as [|c l IH]; intros i j Hnd Hi Hj Ha Hb; [done|]. csimpl in Hnd.
  apply NoDup_app in Hnd as (_ & Hd & Hnd).
  assert (Hin : forall k d, l !! k = Some d -> x ∈ f d -> x ∈ mjoin (f <$> l)).
  { intros k d Hk Hd'. apply list_elem_of_join. exists (f d). split; [done|].
    apply list_elem_of_fmap_2. by eapply list_elem_of_lookup_2. }
  destruct i as [|i], j as [|j]; simpl in Hi, Hj.
  - done.
  - injection Hi as ->. destruct (Hd x Ha). by eapply Hin.
  - injection Hj as ->. destruct (Hd x Hb). by eapply Hin.
  - f_equal. by apply (IH i j).
Qed.

Context (gs : list sgroup) (TTs : list (list (list triple))).
Hypothesis Hruns :
  Forall2 (fun g Ts => Forall2 (fun xp T => run_ok xp (rights g) T) (lefts g) Ts) gs TTs.
Hypothesis Hok : Forall (group_ok cs) gs.
Hypothesis Hnd : NoDup (mjoin (group_base <$> gs)).*1.

Definition grp (t : triple) : Z :=
  match list_find (fun g => tx t ∈ (lefts g).*1) gs with Some (_, g) => repr g | None => (-1)%Z end.

Lemma Hnd' : NoDup (mjoin ((fun g => (group_base g).*1) <$> gs)).
Proof using Hnd. rewrite fmap_join, <- list_fmap_compose in Hnd. exact Hnd. Qed.

Lemma left_base (g : sgroup) (x : Z) : x ∈ (lefts g).*1 -> x ∈ (group_base g).*1.
Proof. intros H. unfold group_base. rewrite fmap_app. apply elem_of_app. by left. Qed.
Lemma right_base (g : sgroup) (x : Z) : x ∈ (mjoin (bases <$> rights g)).*1 -> x ∈ (group_base g).*1.
Proof. intros H. unfold group_base. rewrite fmap_app. apply elem_of_app. by right. Qed.

(** Of two groups with a common base tuple. *)
Lemma same_group (i j : nat) (g g' : sgroup) (x : Z) :
  gs !! i = Some g -> gs !! j = Some g' -> x ∈ (group_base g).*1 -> x ∈ (group_base g').*1 -> i = j.
Proof using Hnd. intros Hi Hj. by apply (NoDup_join_index (fun g => (group_base g).*1) gs i j g g' x Hnd'). Qed.

Lemma grp_of (i : nat) (g : sgroup) (t : triple) :
  gs !! i = Some g -> tx t ∈ (lefts g).*1 -> grp t = repr g.
Proof using Hnd.
  intros Hi Hx. unfold grp. destruct (list_find _ gs) as [[j g']|] eqn:Hf.
  - apply list_find_Some in Hf as (Hj & Hx' & _).
    assert (j = i) as -> by (by apply (same_group j i g' g (tx t)); [..|by apply left_base|by apply left_base]).
    congruence.
  - exfalso. eapply list_find_None in Hf. rewrite Forall_forall in Hf. apply (Hf g); [|done].
    by eapply list_elem_of_lookup_2.
Qed.

Lemma repr_left (g : sgroup) : g ∈ gs -> repr g ∈ (lefts g).*1.
Proof using Hok.
  intros Hg. rewrite Forall_forall in Hok. destruct (Hok g Hg) as [Hne _]. unfold repr.
  destruct (lefts g) as [|xp l]; [done|]. simpl. apply list_elem_of_here.
Qed.

Lemma repr_NoDup : NoDup (repr <$> gs).
Proof using Hnd Hok.
  apply NoDup_alt. intros i j x Hi Hj. rewrite list_lookup_fmap in Hi, Hj.
  destruct (gs !! i) as [g|] eqn:Hgi; [|done]. destruct (gs !! j) as [g'|] eqn:Hgj; [|done].
  injection Hi as <-. injection Hj as Hj.
  apply (same_group i j g g' (repr g)); try done; apply left_base.
  - apply repr_left. by eapply list_elem_of_lookup_2.
  - rewrite <- Hj. apply repr_left. by eapply list_elem_of_lookup_2.
Qed.

Lemma lefts_NoDup : NoDup (mjoin ((fun g => (lefts g).*1) <$> gs)).
Proof using Hnd.
  pose proof Hnd' as H. clear Hok Hruns Hnd. induction gs as [|g l IH]; [constructor|]. csimpl in H. csimpl.
  apply NoDup_app in H as (H1 & H2 & H3). unfold group_base in H1. rewrite fmap_app in H1.
  apply NoDup_app in H1 as (H1 & _ & _). apply NoDup_app. split_and!; [done| |by apply IH].
  intros x Hx Hx'. apply (H2 x); [by apply left_base|].
  apply list_elem_of_join in Hx' as (L & HL & (g' & -> & Hg')%list_elem_of_fmap).
  apply list_elem_of_join. exists ((group_base g').*1).
  split; [by apply left_base|by apply (list_elem_of_fmap_2 (fun g => (group_base g).*1))].
Qed.

(** The first triple of each left variable. *)
Definition reps (g : sgroup) : list triple :=
  (fun xp => mk_triple xp.1 xp.2 (first_var (forest_rows (rights g)))) <$> lefts g.

Lemma group_heads (g : sgroup) (Ts : list (list triple)) :
  Forall2 (fun xp T => run_ok xp (rights g) T) (lefts g) Ts ->
  Forall2 (run tx) (lefts g).*1 Ts /\ heads Ts = reps g.
Proof.
  unfold reps. induction 1 as [|xp T l Ts [[ts' Hf] Ha] _ [IH1 IH2]]; [by split; [constructor|]|].
  split.
  - csimpl. constructor; [|done]. split; [by rewrite Hf|]. eapply Forall_impl; [exact Ha|]. by intros t [-> _].
  - unfold heads in *. rewrite Hf. csimpl. by rewrite IH2.
Qed.

(** The triples by group. *)
Definition tuples : list (list triple) := @mjoin list _ triple <$> TTs.

Lemma occ_left : occ tx (mjoin tuples) = mjoin (reps <$> gs).
Proof using Hruns Hnd.
  unfold tuples. rewrite join_join, (occ_runs tx (mjoin ((fun g => (lefts g).*1) <$> gs)) (mjoin TTs)).
  - revert Hruns. clear. intros Hr. induction Hr as [|g Ts l TTs' HT _ IH]; [done|].
    destruct (group_heads g Ts HT) as [_ Hh]. rewrite fmap_cons.
    change (mjoin (Ts :: TTs')) with (Ts ++ mjoin TTs').
    change (mjoin (reps g :: (reps <$> l))) with (reps g ++ mjoin (reps <$> l)).
    rewrite <- Hh, <- IH. unfold heads. by rewrite omap_app.
  - revert Hruns. clear. intros Hr. induction Hr as [|g Ts l TTs' HT _ IH]; [constructor|]. csimpl.
    apply Forall2_app; [|done]. by apply group_heads.
  - apply lefts_NoDup.
Qed.

(** The triples of a group. *)
Lemma group_triples (i : nat) (g : sgroup) (Ts : list (list triple)) :
  gs !! i = Some g -> Forall2 (fun xp T => run_ok xp (rights g) T) (lefts g) Ts ->
  Forall (fun t => tx t ∈ (lefts g).*1 /\ ty t ∈ (mjoin (bases <$> rights g)).*1) (mjoin Ts).
Proof.
  intros _ H. induction H as [|xp T l Ts' [_ Ha] _ IH]; [constructor|]. csimpl. apply Forall_app. split.
  - eapply Forall_impl; [exact Ha|]. intros t (-> & _ & Hy). split; [apply list_elem_of_here|done].
  - eapply Forall_impl; [exact IH|]. intros t [Hx Hy]. split; [by apply list_elem_of_further|done].
Qed.

Lemma Forall2_elem {A B} (P : A -> B -> Prop) (l : list A) (k : list B) :
  Forall2 P l k -> Forall2 (fun a b => a ∈ l /\ P a b) l k.
Proof.
  induction 1 as [|a b l k H _ IH]; constructor; [split; [apply list_elem_of_here|done]|].
  eapply Forall2_impl; [exact IH|]. intros a' b' [H1 H2]. split; [by apply list_elem_of_further|done].
Qed.

Lemma grp_elem (g : sgroup) (t : triple) : g ∈ gs -> tx t ∈ (lefts g).*1 -> grp t = repr g.
Proof using Hnd. intros (i & Hi)%list_elem_of_lookup. by apply (grp_of i). Qed.

(** The tuples of a group form one run of the grouping. *)
Lemma group_runs : Forall2 (fun g Ts =>
    run grp (repr g) (mjoin Ts) /\ (exists t L, mjoin Ts = t :: L /\ tx t = repr g)) gs TTs.
Proof using Hruns Hok Hnd.
  eapply Forall2_impl; [exact (Forall2_elem _ _ _ Hruns)|]. intros g Ts [Hg HT].
  rewrite Forall_forall in Hok. destruct (Hok g Hg) as [Hne _].
  pose proof (proj1 (list_elem_of_lookup _ _) Hg) as [i Hi].
  pose proof (group_triples i g Ts Hi HT) as Hall.
  assert (Hfirst : exists t L, mjoin Ts = t :: L /\ tx t = repr g).
  { unfold repr. inversion HT as [He|xp T l Ts' [[ts' Hf] _] _ He1 He2]; [by rewrite <- He in Hne|].
    subst. csimpl. by eexists _, _. }
  split; [|done]. destruct Hfirst as (t & L & HL & _). split; [by rewrite HL|].
  eapply Forall_impl; [exact Hall|]. intros t' [Hx _]. by apply grp_elem.
Qed.

Lemma occ_groups :
  occ grp (mjoin tuples) = heads tuples /\
  Forall2 (fun g t => tx t = repr g /\ grp t = repr g) gs (heads tuples).
Proof using Hruns Hok Hnd.
  pose proof group_runs as Hr. split.
  - apply (occ_runs grp (repr <$> gs)); [|apply repr_NoDup]. apply Forall2_fmap.
    eapply Forall2_impl; [exact Hr|]. by intros g Ts [H _].
  - clear Hruns. unfold tuples. set (key := grp) in *. clearbody key. clear Hok Hnd. revert Hr.
    induction 1 as [|g T gs' Ts [[_ Hrun] (t & L & HL & Ht)] _ IH]; [constructor|].
    unfold heads in *. csimpl. rewrite HL in Hrun |- *. simpl. constructor; [|done].
    apply Forall_cons in Hrun as [Hg _]. done.
Qed.

Lemma reps_prob (g : sgroup) :
  (1 - qprod ((fun t => 1 - tp t)%Qc <$> reps g))%Qc = blocks_prob (left_blocks g).
Proof.
  unfold blocks_prob, reps, left_blocks. f_equal. f_equal. f_equal. rewrite <- !list_fmap_compose.
  apply list_fmap_ext. intros i [x p] _. simpl. by rewrite qprod_nil, Qcmult_1_r.
Qed.

(** The aggregation gives every group its representative and the disjunction of its
    left variables: the heads of the blocks. *)
Lemma agg_table_groups : agg_table grp (mjoin tuples) = table (group_block <$> gs).
Proof using Hruns Hok Hnd.
  unfold agg_table. destruct occ_groups as [-> Hh]. unfold table. rewrite <- list_fmap_compose.
  assert (Hdis : Forall (fun g => disjunction grp (repr g) (mjoin (reps <$> gs)) = blocks_prob (left_blocks g)) gs).
  { apply Forall_forall. intros g Hg. pose proof Hg as [i Hi]%list_elem_of_lookup. rewrite <- reps_prob.
    unfold disjunction. rewrite (filter_runs grp (repr <$> gs) (reps <$> gs) i (repr g) (reps g)); try done.
    - apply Forall2_fmap, Forall_Forall2_diag, Forall_forall. intros g' Hg'. unfold reps.
      apply Forall_fmap, Forall_forall. intros xp Hxp. simpl. apply grp_elem; [done|]. simpl. by apply list_elem_of_fmap_2.
    - apply repr_NoDup.
    - by rewrite list_lookup_fmap, Hi.
    - by rewrite list_lookup_fmap, Hi. }
  unfold agg_entry. rewrite occ_left. revert Hh Hdis. generalize (mjoin (reps <$> gs)) (heads tuples).
  intros L hs Hh Hdis. set (key := grp) in *. clearbody key. clear Hok Hnd Hruns.
  induction Hh as [|g t gs' hs [H1 H2] _ IH]; [done|]. apply Forall_cons in Hdis as [Hd Hdis].
  csimpl. rewrite IH by done. by rewrite H1, H2, Hd.
Qed.

(** *** Groups are recognised *)

Definition conn (pre : list triple) (t : triple) : Prop :=
  grp t ∈ grp <$> pre -> tx t ∈ tx <$> pre \/ ty t ∈ ty <$> pre.
Definition all_conn (pre ts : list triple) : Prop :=
  forall l1 t l2, ts = l1 ++ t :: l2 -> conn (pre ++ l1) t.

Lemma all_conn_nil (pre : list triple) : all_conn pre [].
Proof. intros l1 t l2 H. by destruct l1. Qed.

Lemma all_conn_app (pre ts1 ts2 : list triple) :
  all_conn pre ts1 -> all_conn (pre ++ ts1) ts2 -> all_conn pre (ts1 ++ ts2).
Proof.
  intros H1 H2 l1 t l2 H. apply app_eq_app in H as (k & [[E1 E2]|[E1 E2]]); subst.
  - destruct k as [|t' k].
    + simpl in E2. pose proof (H2 [] t l2 (eq_sym E2)) as H. by rewrite !app_nil_r in H.
    + injection E2 as -> E2. by apply (H1 l1 t' k).
  - rewrite app_assoc. by apply (H2 k t l2).
Qed.

Lemma run_conn (pre T ts' : list triple) (t0 : triple) (x : Z) :
  T = t0 :: ts' -> Forall (fun t => tx t = x) T -> conn pre t0 -> all_conn pre T.
Proof.
  intros -> [Hx0 Hx]%Forall_cons Hc [|t1 l1] t l2 H; injection H as -> H; [by rewrite app_nil_r|].
  intros _. left. rewrite fmap_app, elem_of_app. right. csimpl.
  assert (Ht : tx t = x).
  { rewrite Forall_forall in Hx. apply Hx. rewrite H. apply elem_of_app. right. apply list_elem_of_here. }
  rewrite Ht, Hx0. apply list_elem_of_here.
Qed.

(** Runs of a group of which the first right variable is known. *)
Lemma runs_conn (ls : list (list block)) (l : list (Z * Qc)) (Ts : list (list triple)) (pre : list triple) :
  Forall2 (fun xp T => run_ok xp ls T) l Ts -> first_var (forest_rows ls) ∈ ty <$> pre ->
  all_conn pre (mjoin Ts).
Proof.
  intros H. revert pre. induction H as [|xp T l Ts [[ts' Hf] Ha] _ IH]; intros pre Hy; [apply all_conn_nil|].
  csimpl. apply all_conn_app.
  - eapply (run_conn pre T ts' _ xp.1 Hf).
    + eapply Forall_impl; [exact Ha|]. by intros t [-> _].
    + intros _. right. done.
  - apply IH. rewrite fmap_app, elem_of_app. by left.
Qed.

Lemma group_conn (g : sgroup) (Ts : list (list triple)) (pre : list triple) :
  Forall2 (fun xp T => run_ok xp (rights g) T) (lefts g) Ts ->
  Forall (fun t => grp t = repr g) (mjoin Ts) -> repr g ∉ grp <$> pre -> all_conn pre (mjoin Ts).
Proof.
  intros H Hg Hn. destruct H as [|xp T l Ts [[ts' Hf] Ha] HTs]; [apply all_conn_nil|].
  csimpl. csimpl in Hg. apply Forall_app in Hg as [Hg _]. apply all_conn_app.
  - eapply (run_conn pre T ts' _ xp.1 Hf).
    + eapply Forall_impl; [exact Ha|]. by intros t [-> _].
    + intros Hin. rewrite Hf in Hg. apply Forall_cons in Hg as [Hg _]. by rewrite Hg in Hin.
  - eapply runs_conn; [exact HTs|]. rewrite Hf, fmap_app, elem_of_app. right. csimpl. apply list_elem_of_here.
Qed.

Lemma groups_conn : all_conn [] (mjoin tuples).
Proof using Hruns Hok Hnd.
  pose proof repr_NoDup as Hr. pose proof group_runs as Hg.
  assert (Hgen : forall l Ts pre, Forall2 (fun g Ts => Forall2 (fun xp T => run_ok xp (rights g) T) (lefts g) Ts) l Ts ->
    Forall2 (fun g Ts => run grp (repr g) (mjoin Ts) /\ (exists t L, mjoin Ts = t :: L /\ tx t = repr g)) l Ts ->
    NoDup (repr <$> l) -> (forall g, g ∈ l -> repr g ∉ grp <$> pre) ->
    all_conn pre (mjoin (@mjoin list _ triple <$> Ts))).
  { intros l Ts pre H. revert pre. induction H as [|g T l Ts HT _ IH]; intros pre Hgr Hndl Hpre; [apply all_conn_nil|].
    apply Forall2_cons in Hgr as [[[_ Hall] _] Hgr]. csimpl in Hndl. apply NoDup_cons in Hndl as [Hgn Hndl].
    csimpl. apply all_conn_app.
    - apply (group_conn g); [done|done|]. apply Hpre, list_elem_of_here.
    - apply IH; [done|done|]. intros g' Hg'. rewrite fmap_app, not_elem_of_app. split.
      + by apply Hpre, list_elem_of_further.
      + intros (t & Ht & Hin)%list_elem_of_fmap. rewrite Forall_forall in Hall. rewrite (Hall t Hin) in Ht.
        apply Hgn. rewrite <- Ht. by apply list_elem_of_fmap_2. }
  apply (Hgen gs TTs []); try done. intros g _ H. by apply elem_of_nil in H.
Qed.

Lemma tuple_group (t : triple) :
  t ∈ mjoin tuples ->
  exists i g, gs !! i = Some g /\ tx t ∈ (lefts g).*1 /\ ty t ∈ (mjoin (bases <$> rights g)).*1.
Proof using Hruns.
  intros (L & Ht & HL)%list_elem_of_join. apply list_elem_of_fmap in HL as (Ts & -> & HTs).
  apply list_elem_of_lookup in HTs as [i Hi].
  destruct (Forall2_lookup_r _ _ _ _ _ Hruns Hi) as (g & Hg & HT). exists i, g. split; [done|].
  pose proof (group_triples i g Ts Hg HT) as Hall. rewrite Forall_forall in Hall. by apply Hall.
Qed.

Lemma groups_recognised (l1 : list triple) (t : triple) (l2 : list triple) :
  mjoin tuples = l1 ++ t :: l2 -> recognised grp l1 t.
Proof using Hruns Hok Hnd.
  intros H. split_and!.
  - intros u _ Hx. unfold grp. by rewrite Hx.
  - intros u Hu Hy. assert (Hut : u ∈ mjoin tuples) by (rewrite H; apply elem_of_app; by left).
    assert (Htt : t ∈ mjoin tuples) by (rewrite H; apply elem_of_app; right; apply list_elem_of_here).
    destruct (tuple_group u Hut) as (i & g & Hi & Hxu & Hyu). destruct (tuple_group t Htt) as (j & g' & Hj & Hxt & Hyt).
    rewrite Hy in Hyu. assert (i = j) as -> by (by apply (same_group i j g g' (ty t)); [..|apply right_base|apply right_base]).
    assert (g = g') as -> by congruence. by rewrite (grp_of j g' u), (grp_of j g' t).
  - apply (groups_conn l1 t l2 H).
Qed.
End Join.

(** ** The tuples of the groups as segments of the scan *)

Lemma join_NoDup_cons (g : sgroup) (gs : list sgroup) :
  NoDup (mjoin (group_base <$> (g :: gs))).*1 ->
  NoDup (group_base g).*1 /\ NoDup (mjoin (group_base <$> gs)).*1 /\
  (forall x, x ∈ (group_base g).*1 -> x ∉ (mjoin (group_base <$> gs)).*1).
Proof. csimpl. rewrite fmap_app. intros (H1 & H2 & H3)%NoDup_app. by split_and!. Qed.

Lemma repr_base (cs : list tree) (gs : list sgroup) (x : Z) :
  Forall (group_ok cs) gs -> x ∈ repr <$> gs -> x ∈ (mjoin (group_base <$> gs)).*1.
Proof.
  intros Hok (g & -> & Hg)%list_elem_of_fmap. rewrite fmap_join, <- list_fmap_compose.
  apply list_elem_of_join. exists ((fmap fst ∘ group_base) g).
  split; [apply left_base; by eapply repr_left|by apply list_elem_of_fmap_2].
Qed.

Lemma runs_vars (ws : list arow) (l : list (Z * Qc)) (Rs : list (list arow)) :
  Forall2 (fun xp Rv => grouped [xp] ws Rv) l Rs ->
  Forall (fun r => exists xp k, r = xp :: k /\ xp ∈ l) (mjoin Rs).
Proof.
  induction 1 as [|xp Rv l Rs HRv _ IH]; [constructor|]. csimpl. apply Forall_app. split.
  - eapply Forall_impl; [exact (grouped_starts _ _ _ HRv)|]. intros r [k ->].
    exists xp, k. split; [done|apply list_elem_of_here].
  - eapply Forall_impl; [exact IH|]. intros r (xp' & k & -> & Hin). exists xp', k.
    split; [done|by apply list_elem_of_further].
Qed.

Lemma join_segments (cs : list tree) (gs : list sgroup) (RRs : list (list (list arow))) :
  Forall (group_ok cs) gs -> NoDup (mjoin (group_base <$> gs)).*1 ->
  Forall2 (fun g Rs => Forall2 (fun xp Rv => grouped [xp] (forest_rows (rights g)) Rv) (lefts g) Rs) gs RRs ->
  segments (group_block <$> gs) (mjoin (@mjoin list _ arow <$> RRs)).
Proof.
  intros Hok Hnd H. revert Hok Hnd. induction H as [|g Rs gs RRs HRs _ IH]; intros Hok Hnd; [constructor|].
  apply join_NoDup_cons in Hnd as (Hng & Hnd & Hdis). apply Forall_cons in Hok as [[Hne _] Hok].
  specialize (IH Hok Hnd).
  destruct (lefts g) as [|[x p0] l] eqn:Hl; [done|].
  apply Forall2_cons_inv_l in HRs as (Rv & Rs' & HRv & HRs & ->).
  assert (Hb : group_block g = B x (blocks_prob (left_blocks g)) (rights g)).
  { unfold group_block, repr. by rewrite Hl. }
  rewrite !fmap_cons, Hb.
  change (mjoin (@mjoin list _ arow (Rv :: Rs') :: (@mjoin list _ arow <$> RRs)))
    with ((Rv ++ mjoin Rs') ++ mjoin (@mjoin list _ arow <$> RRs)).
  rewrite <- app_assoc.
  apply (segments_cons x _ (rights g) (group_block <$> gs) p0); [done| |done].
  eapply Forall_impl; [exact (runs_vars _ _ _ HRs)|]. simpl. intros r (xp & k & -> & Hin).
  exists xp.1. split; [done|]. unfold group_base in Hng, Hdis. rewrite Hl in Hng, Hdis.
  assert (Hxp : xp.1 ∈ l.*1) by (by apply list_elem_of_fmap_2). split.
  - intros He. rewrite fmap_app, fmap_cons in Hng. apply NoDup_app in Hng as (Hng & _ & _).
    apply NoDup_cons in Hng as [Hng _]. by rewrite He in Hxp.
  - rewrite <- list_fmap_compose. change (bvar ∘ group_block) with repr. intros Hr.
    apply (Hdis xp.1).
    + rewrite fmap_app, fmap_cons. apply elem_of_app. left. by apply list_elem_of_further.
    + by eapply repr_base.
Qed.

Lemma join_shaped (cs : list tree) (gs : list sgroup) :
  gs <> [] -> Forall (group_ok cs) gs -> NoDup (mjoin (group_base <$> gs)).*1 ->
  shaped (T cs) (group_block <$> gs).
Proof.
  intros Hne Hok Hnd. apply shaped_unfold. split_and!.
  - by destruct gs.
  - rewrite <- list_fmap_compose. change (bvar ∘ group_block) with repr. by eapply repr_NoDup.
  - apply Forall_fmap. eapply Forall_impl; [exact Hok|]. by intros g [_ H].
Qed.

(** ** The probability of the join *)

Section Probability.
Context (val : Z -> Z) (W : wtable) (HW : wtable_ok W).

Definition group_event (g : sgroup) (u : world) : bool :=
  forallb (fun l => blocks_event val l u) (left_blocks g :: rights g).

Lemma sat_join (gs : list sgroup) (u : world) :
  sat_rows val (join_rows gs) u = existsb (fun g => group_event g u) gs.
Proof.
  unfold join_rows. rewrite sat_rows_join, existsb_fmap. induction gs as [|g gs IH]; [done|].
  cbn [existsb]. rewrite IH. f_equal. unfold group_rows, forest_rows, group_event. rewrite sat_cross.
  generalize (left_blocks g :: rights g). intros ls. induction ls as [|l ls IHl]; [done|].
  csimpl. by rewrite sat_rows_of, IHl.
Qed.

Lemma group_base_eq (g : sgroup) : group_base g = mjoin (bases <$> (left_blocks g :: rights g)).
Proof. csimpl. by rewrite bases_left. Qed.

Lemma list_prob (bs : list block) :
  NoDup (bases bs).*1 -> Forall (known val W) (bases bs) -> Pr W (blocks_event val bs) = blocks_prob bs.
Proof using HW.
  intros Hnd Hk. rewrite <- (Pr_rows_of val W HW bs Hnd Hk). apply Pr_ext. intros u. by rewrite sat_rows_of.
Qed.

Lemma group_block_prob (g : sgroup) :
  NoDup (group_base g).*1 -> Forall (known val W) (group_base g) ->
  Pr W (group_event g) = block_prob (group_block g).
Proof using HW.
  rewrite group_base_eq. intros Hnd Hk. unfold group_event, group_block. rewrite block_prob_eq.
  rewrite (forest_prob_eq val W HW); [by rewrite fmap_cons, qprod_cons| |done].
  revert Hnd Hk. generalize (left_blocks g :: rights g). induction l as [|l ls IH]; intros Hnd Hk; [constructor|].
  csimpl in Hnd. csimpl in Hk. rewrite fmap_app in Hnd. apply NoDup_app in Hnd as (H1 & _ & H2).
  apply Forall_app in Hk as [Hk1 Hk2]. constructor; [by apply list_prob|by apply IH].
Qed.

Theorem Pr_join (gs : list sgroup) :
  NoDup (mjoin (group_base <$> gs)).*1 -> Forall (known val W) (mjoin (group_base <$> gs)) ->
  Pr W (sat_rows val (join_rows gs)) = blocks_prob (group_block <$> gs).
Proof using HW.
  intros Hnd Hk. rewrite (Pr_ext W _ _ (sat_join gs)). unfold blocks_prob.
  induction gs as [|g gs IH].
  - simpl. rewrite (Pr_const W HW false). csimpl. rewrite qprod_nil. simpl. ring.
  - apply join_NoDup_cons in Hnd as (Hng & Hnd & Hdis). csimpl in Hk. apply Forall_app in Hk as [Hk1 Hk2].
    change (fun u => existsb (fun g => group_event g u) (g :: gs))
      with (fun u => group_event g u || existsb (fun g => group_event g u) gs).
    rewrite (Pr_or_indep W HW (group_event g) (fun u => existsb (fun g => group_event g u) gs)).
    + rewrite group_block_prob, IH by done. csimpl. rewrite qprod_cons. ring.
    + intros x _. destruct (decide (x ∈ (group_base g).*1)) as [Hx|Hx].
      * right. specialize (Hdis x Hx). clear -Hdis. induction gs as [|g' gs IH]; [done|].
        csimpl in Hdis. rewrite fmap_app in Hdis. apply not_elem_of_app in Hdis as [H1 H2].
        intros u r. cbn [existsb]. rewrite (IH H2 u r). f_equal.
        rewrite group_base_eq in H1. by apply (forest_event_ignores val (left_blocks g' :: rights g') x H1).
      * left. rewrite group_base_eq in Hx. by apply (forest_event_ignores val (left_blocks g :: rights g) x Hx).
Qed.
End Probability.
