(* ===== verification/SproutPipeline.v ===== *)
(** * SproutPipeline: aggregation, schedule and scan together

    A group of a query whose signature starts with a starred leaf: the rows are
    stored, [schedule] aggregates the leaf, [oneScan] computes the probability with
    the aggregated column, and the signature is rebuilt for the next group. *)
From Stdlib Require Import Strings.String.
From S2P Require Import Prelude.
From S2P Require Import Worlds.
From S2P Require Import LocalCond.
From S2P Require Import Argmax.
From S2P Require Import Signature.
From S2P Require Import Sprout.
From S2P Require Import SproutAgg.
From S2P Require Import SproutScan.
From S2P Require Import SproutRefine.
From S2P Require Import SproutProb.
From S2P Require Import SigTree.
From S2P Require Import SproutGroup.
From S2P Require Import SproutAggCorrect.
From S2P Require Import SproutStar.
From S2P Require Import SproutJoin.
Open Scope nat_scope.
Open Scope list_scope.

(** ** The schedule *)

Lemma get1stLeafChild_head (t : sigNode) :
  is1Scan t = Some true -> exists y rest, get1stLeafChild t = Some y /\ fillLeafNode t = y :: rest.
Proof.
  destruct t as [i cs]. intros H. cbn [get1stLeafChild fillLeafNode]. destruct (isLeaf i) eqn:Hl.
  - by eexists _, _.
  - destruct (is1Scan_node _ _ H Hl) as (j & kids & sibs & -> & Hj & _ & _).
    cbn [get1stLeafChild]. rewrite Hj. csimpl. rewrite Hj. by eexists _, _.
Qed.

(** The root after the aggregation of its first leaf, before the counts. *)
Definition starred_root (i j : sigInfo) (kids sibs : list sigNode) (t : probTable) : sigNode :=
  SigNode i (SigNode (aggregated j (pos j) (domain j) (varsToCombine j) (Some t)) kids :: sibs).

Lemma schedule_starred (i j : sigInfo) (kids sibs : list sigNode) (s1 : sigNode) (y : sigInfo)
    (t : probTable) (l l' : lineageTable) :
  isLeaf i = false -> isLeaf j = true -> withStar j = true ->
  Forall (fun c => is1Scan c = Some true) sibs -> head sibs = Some s1 -> get1stLeafChild s1 = Some y ->
  simpleAggregation j y l = Some (t, l') ->
  schedule (SigNode i (SigNode j kids :: sibs)) l = Some (attributes (starred_root i j kids sibs t), l').
Proof.
  intros Hi Hj Hw Hs Hhead Hy Ha.
  assert (Hscan : (fix scan (cs : list sigNode) : option bool :=
           match cs with
           | [] => Some true
           | c :: cs => b ← is1Scan c; if (b : bool) then scan cs else Some false
           end) sibs = Some true).
  { clear Hhead. induction Hs as [|c cs Hc _ IH]; [done|]. by rewrite Hc. }
  assert (H1 : is1Scan (SigNode i (SigNode j kids :: sibs)) = Some false).
  { cbn [is1Scan]. rewrite Hi, Hj. cbn [mbind option_bind]. rewrite Hscan. cbn [mbind option_bind head info_of].
    by rewrite Hj, Hw. }
  assert (Hchildren : (fix children (cs : list sigNode) (l : lineageTable)
                    : option (list sigNode * lineageTable) :=
      match cs with
      | [] => Some ([], l)
      | c :: cs =>
          b ← is1Scan c;
          '(c, l) ← (if (b : bool) then Some (c, l) else schedule c l);
          '(cs, l) ← children cs l;
          Some (c :: cs, l)
      end) sibs l = Some (sibs, l)).
  { clear Hhead H1 Hscan. induction Hs as [|c cs Hc _ IH]; [done|]. rewrite Hc. cbn [mbind option_bind].
    by rewrite IH. }
  assert (Hjscan : is1Scan (SigNode j kids) = Some true) by (cbn [is1Scan]; by rewrite Hj).
  cbn [schedule]. rewrite H1. cbn [mbind option_bind]. rewrite Hjscan. cbn [mbind option_bind].
  rewrite Hchildren. cbn [mbind option_bind]. rewrite H1. cbn [mbind option_bind].
  unfold aggregate_first. rewrite Hhead. cbn [mbind option_bind]. rewrite Hy. cbn [mbind option_bind].
  rewrite Hj, Ha. done.
Qed.

(** ** Columns and positions *)

Lemma attributes_cols (i j : sigInfo) (kids sibs : list sigNode) :
  isLeaf i = false -> isLeaf j = true -> Forall scan_ok sibs ->
  exists info0 others, fillLeafNode (attributes (SigNode i (SigNode j kids :: sibs))) = info0 :: others /\
    type info0 = type j /\ pt info0 = pt j /\
    cols_of (info0 :: others) = tcols (T (sig_tree <$> sibs)) /\
    Forall (fun i => type i = NOTAGGREGATED) others.
Proof.
  intros Hi Hj Hs. rewrite attributes_node by done. cbn [fillLeafNode]. rewrite Hi. csimpl. rewrite Hj.
  eexists _, (mjoin (fillLeafNode <$> (attributes <$> sibs))). split; [done|]. do 2 (split; [done|]).
  assert (Hcs : cols_of (mjoin (fillLeafNode <$> (attributes <$> sibs))) = mjoin (tcols <$> (sig_tree <$> sibs)) /\
               Forall (fun i => type i = NOTAGGREGATED) (mjoin (fillLeafNode <$> (attributes <$> sibs)))).
  { induction Hs as [|c cs Hc _ [IH1 IH2]]; [by split|]. csimpl. unfold cols_of in *.
    destruct (cols_scan_ok c Hc) as [Hc1 Hc2]. unfold cols_of in Hc1.
    rewrite fmap_app, Hc1, IH1. split; [done|]. by apply Forall_app. }
  destruct Hcs as [H1 H2]. split; [|done]. unfold cols_of in *. csimpl. rewrite H1. f_equal. f_equal.
  - rewrite leaves_fill, <- (length_fmap (fun i => (domain i, varsToCombine i))), H1.
    clear. induction sibs as [|c cs IH]; [done|]. csimpl. by rewrite length_app, length_tcols, IH.
  - by rewrite length_fmap.
Qed.

Lemma attributes_pos (t : sigNode) : pos <$> fillLeafNode (attributes t) = pos <$> fillLeafNode t.
Proof.
  unfold attributes. rewrite (pos_cal set_domain (sum_list_with leafDescendentCount) calDomain) by done.
  by rewrite (pos_cal set_varsToCombine length calSib).
Qed.

(** Tuples of the lineage that are read in order. *)
Lemma mapM_seq {A} (l : list A) : mapM (fun p => l !! p) (seq 0 (length l)) = Some l.
Proof.
  apply mapM_Some, Forall2_same_length_lookup_2; [by rewrite length_seq|].
  intros i j x Hj Hx. apply lookup_seq in Hj as [-> _]. done.
Qed.

Definition as_tuple (r : arow) : varprob := mk_varprob r.*1 r.*2.

Lemma fetch_tuples (n : nat) (R : list arow) :
  Forall (fun r => length r = n) R ->
  mapM (fun v => fetch v (seq 0 n)) (as_tuple <$> R) = Some ((fun r => (r.*1, r.*2)) <$> R).
Proof.
  induction 1 as [|r R Hr _ IH]; [done|]. rewrite !fmap_cons. cbn [mapM]. rewrite IH.
  unfold fetch at 1. cbn [as_tuple vp_vars vp_probs].
  replace n with (length r.*1) at 1 by (by rewrite length_fmap). rewrite mapM_seq. cbn [mbind option_bind].
  replace n with (length r.*2) by (by rewrite length_fmap). by rewrite mapM_seq.
Qed.

(** What a processed signature that starts with a leaf looks like. *)
Lemma decorated_root (raw : sigNode) (i j : sigInfo) (kids sibs : list sigNode) :
  decorate raw = SigNode i (SigNode j kids :: sibs) -> isLeaf i = false -> isLeaf j = true ->
  Forall (fun c => is1Scan c = Some true) sibs -> Forall fresh (fillLeafNode raw) ->
  Forall scan_ok sibs /\ type j = NOTAGGREGATED.
Proof.
  intros Hr Hi Hj Hs Hf. set (raw1 := (derivePos raw 0).1).
  assert (Hroot : attributes raw1 = SigNode i (SigNode j kids :: sibs)) by done.
  assert (Hf1 : Forall fresh (fillLeafNode raw1)).
  { unfold raw1. rewrite (proj1 (derivePos_fill raw 0)). unfold number. apply Forall_forall.
    intros i' (k & j' & -> & Hj')%elem_of_lookup_imap. rewrite Forall_forall in Hf.
    apply list_elem_of_lookup_2 in Hj'. by apply (Hf j' Hj'). }
  clearbody raw1. clear Hr Hf raw.
  assert (Hsk : skel raw1 = SigNode (skel_info i) (SigNode (skel_info j) (skel <$> kids) :: (skel <$> sibs))).
  { rewrite <- attributes_skel, Hroot. done. }
  destruct raw1 as [i1 [|[j1 kids1] sibs1]]; [done|]. injection Hsk as Hi1 _ _ Hj1 _ _ _ _.
  rewrite Hj in Hj1. rewrite Hi in Hi1.
  rewrite attributes_node in Hroot by done. injection Hroot as <- <- _ <-.
  cbn [fillLeafNode] in Hf1. rewrite Hi in Hf1. csimpl in Hf1. rewrite Hj1 in Hf1. simpl in Hf1.
  apply Forall_cons in Hf1 as [(_ & _ & Ht) Hf1]. split; [|exact Ht].
  clear -Hs Hf1. induction sibs1 as [|c cs IH]; [constructor|]. csimpl in Hs. csimpl in Hf1. csimpl.
  apply Forall_cons in Hs as [Hc Hs]. apply Forall_app in Hf1 as [Hfc Hf1]. constructor; [|by apply IH].
  apply scan_ok_attributes, fresh_scan_ok; [|done].
  by rewrite <- is1Scan_skel, attributes_skel, is1Scan_skel in Hc.
Qed.

(** ** Storing the rows *)

Lemma store_rows (g : signature) (n : nat) (R : list arow) (a : sproutAgg) (s : stateData) (ts : list varprob) :
  isOneScan g = false -> sp_signature a = g -> getStateAndLineage a = (s, mk_lineage ts 0) ->
  Forall (fun r => length r = n) R -> R <> [] ->
  for_list R (fun r => accumulate n (var_args r)) a =
    Some (set_context (putStateAndLineage a (s, mk_lineage (ts ++ (as_tuple <$> R)) 0)) true g).
Proof.
  intros H1. assert (Hone : forall r a ts, sp_signature a = g -> getStateAndLineage a = (s, mk_lineage ts 0) ->
    length r = n -> accumulate n (var_args r) a =
      Some (set_context (putStateAndLineage a (s, mk_lineage (ts ++ [as_tuple r]) 0)) true g)).
  { intros r b us Hg Hb Hr. rewrite accumulate_args by done. unfold advance. rewrite get_context, Hb.
    cbn [sp_signature set_context]. rewrite Hg, H1. by rewrite put_context. }
  intros Hg Ha HR. revert a ts Hg Ha. induction HR as [|r R Hr HR IH]; intros a ts Hg Ha Hne; [done|].
  cbn [for_list]. rewrite (Hone r a ts Hg Ha Hr). cbn [mbind option_bind]. destruct R as [|r' R].
  - done.
  - rewrite (IH _ (ts ++ [as_tuple r])); [|done|by rewrite get_context, read_put|done].
    rewrite put_context, put_put, <- app_assoc. done.
Qed.

(** ** The final function *)

Lemma rebuild_process (natts : node -> nat) (pkeys : node -> list string) (fr : list node) (l : list sgList)
    (g : signature) :
  ProcessSignature natts pkeys fr l = Some g -> rebuild natts pkeys g = Some g.
Proof.
  unfold ProcessSignature, rebuild. destruct (buildSGTree _ l 0) as [t|]; [|done]. cbn [mbind option_bind].
  destruct (buildSigTree natts pkeys t) as [cs|] eqn:Hb; [|done]. cbn [mbind option_bind].
  destruct (addNonJoinedRelation t (SigNode zero_info cs) fr) as [root|] eqn:Ha; [|done]. cbn [mbind option_bind].
  destruct (is1Scan (decorate root)) as [b|] eqn:H1; [|done]. intros [= <-]. cbn [sgTreeRoot relList isOneScan].
  rewrite Hb. cbn [mbind option_bind]. rewrite Ha. done.
Qed.

Lemma star_one_scan (i j : sigInfo) (kids sibs : list sigNode) (b : bool) :
  isLeaf i = false -> isLeaf j = true -> withStar j = true ->
  is1Scan (SigNode i (SigNode j kids :: sibs)) = Some b -> b = false.
Proof.
  intros Hi Hj Hw H. destruct b; [|done].
  destruct (is1Scan_node _ _ H Hi) as (j' & kids' & sibs' & [= <- _ _] & _ & Hw' & _). congruence.
Qed.

(** The triples that the aggregation reads are those of the rows. *)
Lemma read_rows (j y : sigInfo) (n : nat) (R : list arow) :
  pos j = 0 -> pos y = 1 -> 2 <= n -> Forall (fun r => length r = n) R ->
  mapM (read_triple j y) (as_tuple <$> R) = Some (triple_of <$> R).
Proof.
  intros Hj Hy Hn. induction 1 as [|r R Hr _ IH]; [done|]. rewrite !fmap_cons. cbn [mapM]. rewrite IH.
  unfold read_triple at 1. rewrite Hj, Hy. destruct r as [|[x p] [|[z q] r]]; simpl in Hr; [lia|lia|]. done.
Qed.

Section Starred.
Context (natts : node -> nat) (pkeys : node -> list string) (fr : list node) (l : list sgList) (g : signature).
Context (i j : sigInfo) (kids sibs : list sigNode).
Hypothesis Hprocess : ProcessSignature natts pkeys fr l = Some g.
Hypothesis Hroot : sigTreeRoot g = SigNode i (SigNode j kids :: sibs).
Hypothesis (Hi : isLeaf i = false) (Hj : isLeaf j = true) (Hw : withStar j = true).
Hypothesis (Hne : sibs <> []) (Hsibs : Forall (fun c => is1Scan c = Some true) sibs).

Abbreviation n := (leafDescendentCount (sigTreeRoot g)).
Abbreviation cs := (sig_tree <$> sibs).

Lemma starred_facts :
  isOneScan g = false /\ Forall scan_ok sibs /\ type j = NOTAGGREGATED /\
  pos <$> fillLeafNode (sigTreeRoot g) = seq 0 n.
Proof using Hprocess Hroot Hi Hj Hw Hsibs.
  destruct (process_leaves natts pkeys fr l g Hprocess) as (raw & Hraw & H1 & Hl).
  pose proof H1 as H1'. rewrite <- Hraw, Hroot in H1'. apply star_one_scan in H1'; try done.
  assert (Hf : Forall fresh (fillLeafNode raw)) by (eapply Forall_impl; [exact Hl|]; by intros k [? _]).
  assert (Hdec : decorate raw = SigNode i (SigNode j kids :: sibs)) by (by rewrite <- Hraw).
  destruct (decorated_root raw i j kids sibs Hdec Hi Hj Hsibs Hf) as [Hs Ht].
  split_and!; try done. rewrite Hraw, decorate_pos.
  by rewrite <- (leafDescendentCount_skel (decorate raw)), decorate_skel, leafDescendentCount_skel.
Qed.

Lemma starred_count : n = S (forest_size cs).
Proof using Hprocess Hroot Hi Hj Hw Hsibs.
  destruct starred_facts as (_ & Hs & _ & _). rewrite leafDescendentCount_fill, Hroot. cbn [fillLeafNode]. rewrite Hi.
  csimpl. rewrite Hj. simpl. f_equal. unfold forest_size. clear -Hs.
  induction Hs as [|c cs' Hc _ IH]; [done|]. csimpl. rewrite length_app, IH. f_equal.
  destruct (cols_scan_ok c Hc) as [Hcols _]. rewrite <- length_tcols, <- Hcols. unfold cols_of.
  rewrite length_fmap, <- (length_fmap pos (fillLeafNode c)), <- attributes_pos. by rewrite length_fmap.
Qed.

(** The right neighbour of the starred leaf. *)
Lemma starred_right : exists s1 y, head sibs = Some s1 /\ get1stLeafChild s1 = Some y /\
  type y = NOTAGGREGATED /\ pos j = 0 /\ pos y = 1.
Proof using Hprocess Hroot Hi Hj Hw Hsibs Hne.
  destruct starred_facts as (_ & Hs & _ & Hpos). pose proof starred_count as Hn.
  pose proof Hsibs as H1. pose proof Hne as Hne'. revert Hs Hpos Hn H1 Hne'. rewrite Hroot. clear -Hi Hj.
  intros Hs Hpos Hn H1 Hne. destruct sibs as [|s1 rest]; [done|].
  apply Forall_cons in Hs as [Hs1 _]. apply Forall_cons in H1 as [H1 _].
  destruct (get1stLeafChild_head s1 H1) as (y & ys & Hy & Hfill). exists s1, y.
  rewrite Hn in Hpos. cbn [fillLeafNode] in Hpos. rewrite Hi in Hpos. csimpl in Hpos.
  rewrite Hj, Hfill in Hpos. simpl in Hpos. injection Hpos as Hpj Hpos. pose proof (size_pos (sig_tree s1)).
  split_and!; try done.
  - destruct Hs1 as [i' cs' Hl' (_ & _ & Ht)|i' j' kids' sibs' Hl' Hj' Ht' _].
    + cbn [fillLeafNode] in Hfill. rewrite Hl' in Hfill. by injection Hfill as <- _.
    + cbn [fillLeafNode] in Hfill. rewrite Hl' in Hfill. csimpl in Hfill. rewrite Hj' in Hfill. by injection Hfill as <- _.
  - unfold forest_size in Hpos. csimpl in Hpos. destruct (size (sig_tree s1)); [lia|]. simpl in Hpos. by injection Hpos.
Qed.

Context (val : Z -> Z) (W : wtable) (HW : wtable_ok W).

(** The scan after the aggregation. *)
Lemma starred_scan (s : stateData) (gs : list sgroup) (R : list arow) :
  gs <> [] -> Forall (group_ok cs) gs -> NoDup (mjoin (group_base <$> gs)).*1 ->
  grouped [] (join_rows gs) R -> Forall (fun r => length r = n) R ->
  exists s', oneScan s (attributes (starred_root i j kids sibs (table (group_block <$> gs))))
      (mk_lineage (as_tuple <$> R) 0) = Some (blocks_prob (group_block <$> gs), s').
Proof using Hprocess Hroot Hi Hj Hw Hsibs Hne.
  intros Hgs Hok Hnd HR Hlen. destruct starred_facts as (_ & Hs & _ & Hpos).
  set (root := attributes (starred_root i j kids sibs (table (group_block <$> gs)))).
  destruct (attributes_cols i (aggregated j (pos j) (domain j) (varsToCombine j) (Some (table (group_block <$> gs))))
    kids sibs Hi eq_refl Hs) as (info0 & others & Hfill & Htype & Hpt & Hcols & Hplain).
  change (attributes _) with root in Hfill.
  assert (Hcsne : cs <> []) by (intros H; apply Hne; by apply fmap_nil_inv in H).
  assert (Hn : S (length others) = n).
  { rewrite starred_count. change (S (length others)) with (length (info0 :: others)).
    rewrite <- (length_fmap (fun i => (domain i, varsToCombine i)) (info0 :: others)).
    change ((fun i => (domain i, varsToCombine i)) <$> info0 :: others) with (cols_of (info0 :: others)).
    by rewrite Hcols, length_tcols. }
  assert (Hposr : pos <$> fillLeafNode root = seq 0 n).
  { unfold root. rewrite attributes_pos, <- Hpos, Hroot. unfold starred_root. cbn [fillLeafNode]. rewrite Hi.
    csimpl. by rewrite Hj. }
  assert (Hinfos : fillLeafNode root = infos info0 others (table (group_block <$> gs))).
  { rewrite Hfill. unfold infos. f_equal. simpl in Hpt. destruct info0. simpl in *. by rewrite Hpt. }
  unfold oneScan. rewrite Hposr. cbn [lt_cursor lt_tuples]. rewrite drop_0.
  rewrite (scan_tuples_rows _ _ R) by (by apply fetch_tuples).
  destruct (join_runs gs R HR) as (RRs & -> & HRRs).
  destruct (star_scan info0 others cs Htype Hplain Hcols Hcsne (group_block <$> gs)
    (mjoin (@mjoin list _ arow <$> RRs)) (set_vars (set_counter s 0) (leafDescendentCount root) (fillLeafNode root)))
    as (s1 & s2 & Hrun & Hfin).
  - by apply join_shaped.
  - by apply join_segments with (cs := cs).
  - by rewrite Hn.
  - constructor; [exact Hinfos|]. cbn [NoOfVars set_vars]. rewrite leafDescendentCount_fill. by rewrite Hinfos.
  - done.
  - rewrite Hrun. cbn [mbind option_bind]. rewrite Hfin. by eexists.
Qed.

(** The aggregation of the starred leaf. *)
Lemma starred_aggregation (y : sigInfo) (gs : list sgroup) (R : list arow) :
  type y = NOTAGGREGATED -> pos j = 0 -> pos y = 1 ->
  Forall (group_ok cs) gs -> NoDup (mjoin (group_base <$> gs)).*1 ->
  Forall (fun xp => 0 <= xp.1)%Z (mjoin (group_base <$> gs)) ->
  grouped [] (join_rows gs) R -> Forall (fun r => length r = n) R ->
  simpleAggregation j y (mk_lineage (as_tuple <$> R) 0)
    = Some (table (group_block <$> gs), mk_lineage (as_tuple <$> R) 0).
Proof using Hprocess Hroot Hi Hj Hw Hsibs Hne.
  intros Hy Hpj Hpy Hok Hnd Hnn HR Hlen. destruct starred_facts as (_ & Hs & Htj & _).
  assert (Hcsne : cs <> []) by (intros H; apply Hne; by apply fmap_nil_inv in H).
  assert (H2 : 2 <= n).
  { rewrite starred_count. revert Hcsne. clear. destruct cs as [|c l]; [done|]. intros _.
    unfold forest_size. simpl. pose proof (size_pos c). lia. }
  destruct (join_runs gs R HR) as (RRs & HRR & HRRs).
  set (TTs := (fun Rs : list (list arow) => (fun Rv : list arow => triple_of <$> Rv) <$> Rs) <$> RRs).
  assert (Hts : triple_of <$> R = mjoin (tuples TTs)).
  { rewrite HRR, fmap_join. unfold tuples, TTs. f_equal. rewrite <- !list_fmap_compose.
    apply list_fmap_ext. intros k Rs _. simpl. apply fmap_join. }
  assert (Hruns : Forall2 (fun g Ts => Forall2 (fun xp T => run_ok xp (rights g) T) (lefts g) Ts) gs TTs).
  { unfold TTs. apply Forall2_fmap_r. eapply Forall2_impl; [exact (Forall2_elem _ _ _ HRRs)|].
    intros g' Rs [Hg' HRs]. simpl. rewrite Forall_forall in Hok. destruct (Hok g' Hg') as [_ Hsh].
    apply Forall2_fmap_r. eapply Forall2_impl; [exact HRs|]. simpl. intros xp Rv HRv.
    by apply (grouped_run_ok cs). }
  rewrite (simpleAggregation_spec (grp gs) j y Htj Hy (mk_lineage (as_tuple <$> R) 0) (triple_of <$> R)).
  - rewrite Hts, (agg_table_groups cs gs TTs Hruns Hok Hnd). done.
  - cbn [lt_cursor lt_tuples]. rewrite drop_0. by apply (read_rows j y n).
  - rewrite Hts. apply Forall_forall. intros t Ht.
    destruct (tuple_group gs TTs Hruns t Ht) as (k & g' & Hk & Hx & Hyt).
    assert (Hin : forall x, x ∈ (group_base g').*1 -> (0 <= x)%Z).
    { intros x (xp & -> & Hxp)%list_elem_of_fmap. rewrite Forall_forall in Hnn. apply Hnn.
      apply list_elem_of_join. exists (group_base g'). split; [done|]. apply list_elem_of_fmap_2.
      by eapply list_elem_of_lookup_2. }
    split; apply Hin; [by apply left_base|by apply right_base].
  - rewrite Hts. intros l1 t l2 He. by apply (groups_recognised cs gs TTs Hruns Hok Hnd l1 t l2).
Qed.

Theorem starred_group (a : sproutAgg) (gs : list sgroup) (R : list arow) :
  sp_signature a = g -> (getStateAndLineage a).2 = mk_lineage [] 0 ->
  gs <> [] -> Forall (group_ok cs) gs -> NoDup (mjoin (group_base <$> gs)).*1 ->
  Forall (fun xp => 0 <= xp.1)%Z (mjoin (group_base <$> gs)) ->
  Forall (known val W) (mjoin (group_base <$> gs)) ->
  grouped [] (join_rows gs) R -> Forall (fun r => length r = n) R ->
  exists a1 a2, for_list R (fun r => accumulate n (var_args r)) a = Some a1 /\
    conf_final natts pkeys a1 = Some (Pr W (sat_rows val R), a2) /\
    sp_signature a2 = g /\ (getStateAndLineage a2).2 = mk_lineage [] 0 /\ sp_groupcxt a2 = false.
Proof using Hprocess Hroot Hi Hj Hw Hsibs Hne HW.
  intros Hg Ha Hgs Hok Hnd Hnn Hk HR Hlen. destruct starred_facts as (H1 & Hs & Htj & Hpos).
  destruct starred_right as (s1 & y & Hhead & Hy & Hty & Hpj & Hpy).
  destruct (getStateAndLineage a) as [s lt] eqn:Ea. simpl in Ha. subst lt.
  assert (HP : Pr W (sat_rows val R) = blocks_prob (group_block <$> gs)).
  { rewrite <- (Pr_join val W HW gs Hnd Hk). apply Pr_ext. intros u.
    apply (grouped_sat val n (join_rows gs) R u HR); [|done].
    rewrite starred_count. apply Forall_forall. intros w (L & Hwl & HL)%list_elem_of_join.
    apply list_elem_of_fmap in HL as (g' & -> & Hg'). rewrite group_rows_eq in Hwl.
    apply list_elem_of_bind in Hwl as (xp & Hwl & _). apply list_elem_of_fmap in Hwl as (v & -> & Hv).
    rewrite Forall_forall in Hok. destruct (Hok g' Hg') as [_ Hsh].
    destruct (forest_rows_ok cs _ Hsh) as [_ Hl]. rewrite Forall_forall in Hl. simpl. f_equal. by apply Hl. }
  assert (HRne : R <> []).
  { intros ->. destruct (join_runs gs [] HR) as (RRs & He & HRRs). destruct HRRs as [|g' Rs gs' RRs' HRs _]; [done|].
    apply Forall_cons in Hok as [[Hl Hsh] _]. inversion HRs as [He1 He2|xp Rv ls Rs' HRv _ He1 He2]; [by rewrite <- He1 in Hl|].
    subst Rs. csimpl in He. apply eq_sym, app_eq_nil in He as [He _]. apply app_eq_nil in He as [-> _].
    destruct (forest_rows_ok cs _ Hsh) as [Hfr _]. remember (forest_rows (rights g')) as ws eqn:Hws.
    remember ([] : list arow) as R' eqn:HR' in HRv. destruct HRv as [|w ws gg R Hgg]; [done|].
    by apply app_eq_nil in HR' as [-> _]. }
  destruct (starred_scan s gs R Hgs Hok Hnd HR Hlen) as (s' & Hscan).
  rewrite (store_rows g n R a s [] H1 Hg Ea Hlen HRne). eexists. eexists. split; [done|].
  unfold conf_final. cbn [set_context sp_groupcxt]. rewrite get_context, read_put.
  cbn [sp_signature set_context]. rewrite H1, Hroot. cbn [app].
  rewrite (schedule_starred i j kids sibs s1 y (table (group_block <$> gs)) _ (mk_lineage (as_tuple <$> R) 0));
    [|done..|by apply starred_aggregation].
  cbn [mbind option_bind].
  rewrite Hscan. cbn [mbind option_bind].
  rewrite (rebuild_process natts pkeys fr l g Hprocess). cbn [mbind option_bind]. rewrite HP.
  rewrite put_context, put_put. split; [reflexivity|]. split; [reflexivity|].
  split; [|reflexivity]. by rewrite !get_context, read_put.
Qed.
End Starred.
