(* ===== verification/Aconf.v ===== *)
(** * Aconf: approximate confidence by Monte Carlo simulation ([aconf.c])

    The estimator is written once, over an abstract way to draw: [choose] draws a
    clause from the bag of clause weights, [choose_2] a range value of an entry.
    With the two C functions on a stream of [rand] values it is
    [compute_estimator]; with exact expectations in their place it is the expected
    value of the estimator, for which unbiasedness is proved.  [AA_algorithm] is
    modelled over exact rationals, with the logarithm and the square root of
    [math.h] as parameters. *)
From S2P Require Import Prelude.
From S2P Require Import Worlds.
From S2P Require Import LocalCond.
From S2P Require Import Lineage.
From S2P Require Import Completion.
From S2P Require Import Choice.
From Stdlib Require Import Qround.

Definition RAND_MAX : Z := 2147483647.
Definition Zq (z : Z) : Qc := Q2Qc (inject_Z z).

(** ** Drawing *)

(** The loops of [choose_with_distribution] and [choose_with_distribution_2]:
    the first position whose accumulated weight reaches [pick]. *)
Fixpoint pick_loop (pick offset : Qc) (i : nat) (distrib : list Qc) : option nat :=
  match distrib with
  | [] => None
  | d :: distrib =>
      let offset := (offset + d * Zq RAND_MAX)%Qc in
      if decide (pick <= offset)%Qc then Some i else pick_loop pick offset (S i) distrib
  end.

Definition choose_with_distribution (rand : Z) (distrib : list Qc) : Z :=
  match pick_loop (Zq rand) 0%Qc 0 distrib with
  | Some i => Z.of_nat i
  | None => Z.of_nat (length distrib) - 1
  end.

Definition choose_with_distribution_2 (rand : Z) (e : worldTableEntry) : option Z :=
  let i := match pick_loop (Zq rand) 0%Qc 0 (re_p <$> rng_entries e) with
           | Some i => i
           | None => rng_entry_count e - 1
           end in
  re_rng <$> rng_entries e !! i.

Definition set_tau (e : worldTableEntry) (t : Z) : worldTableEntry :=
  mk_wte (wt_var e) (rng_entries e) (rng_entry_max e) t (met e) (occur_count e).

(** ** The estimator *)

(** The value that clause [w] gives to variable [v]: the last one, -1 if none. *)
Definition value_in (w : WSD) (v : Z) : Z :=
  foldl (fun Cij m => if (var m =? v)%Z then rng m else Cij) (-1)%Z (data w).

Fixpoint clause_satisfied (wt : list worldTableEntry) (ms : list Map) : option bool :=
  match ms with
  | [] => Some true
  | m :: ms =>
      k ← wt_entry m;
      e ← wt !! k;
      if (tau e =? rng m)%Z then clause_satisfied wt ms else Some false
  end.

Definition count_satisfied (wt : list worldTableEntry) (l : list WSD) : option nat :=
  for_list l (fun w c => b ← clause_satisfied wt (data w); Some (if (b : bool) then S c else c)) 0.

Section Estimator.
Context {K : Type}.
Context (choose : list Qc -> (Z -> K) -> K).
Context (choose_2 : worldTableEntry -> (Z -> K) -> K).
Context (abort : K).

(** The truth assignment: the clause's values, the other variables drawn. *)
Fixpoint assign_tau (w : WSD) (wt : list worldTableEntry) (k : list worldTableEntry -> K) : K :=
  match wt with
  | [] => k []
  | e :: wt =>
      let Cij := value_in w (wt_var e) in
      if (Cij =? -1)%Z
      then choose_2 e (fun t => assign_tau w wt (fun wt' => k (set_tau e t :: wt')))
      else assign_tau w wt (fun wt' => k (set_tau e Cij :: wt'))
  end.

(** A count of zero would divide by zero. *)
Definition estimator (l : list WSD) (clause_bag_prob : list Qc) (wt : list worldTableEntry)
    (k : Qc -> list worldTableEntry -> K) : K :=
  choose clause_bag_prob (fun i =>
    match (if (i <? 0)%Z then None else l !! Z.to_nat i) with
    | None => abort
    | Some w =>
        assign_tau w wt (fun wt' =>
          match count_satisfied wt' l with
          | Some (S c) => k (1 / Zq (Z.of_nat (S c)))%Qc wt'
          | _ => abort
          end)
    end).
End Estimator.

(** *** With [rand]: a stream of values and the number of them used so far *)

Section Rand.
Context (rand : nat -> Z).

Definition run (A : Type) : Type := nat -> option (A * nat).

Definition draw {A} (distrib : list Qc) (k : Z -> run A) : run A :=
  fun n => k (choose_with_distribution (rand n) distrib) (S n).

Definition draw_2 {A} (e : worldTableEntry) (k : Z -> run A) : run A :=
  fun n => t ← choose_with_distribution_2 (rand n) e; k t (S n).

(** The state of a simulation: the world table, whose [tau] fields change. *)
Definition compute_estimator (l : list WSD) (clause_bag_prob : list Qc)
    (wt : list worldTableEntry) : run (Qc * list worldTableEntry) :=
  estimator draw draw_2 (fun _ => None) l clause_bag_prob wt (fun q wt' n => Some ((q, wt'), n)).
End Rand.

(** *** In expectation *)

Fixpoint expect_index (ps : list Qc) (i : nat) (k : Z -> Qc) : Qc :=
  match ps with
  | [] => 0%Qc
  | p :: ps => (p * k (Z.of_nat i) + expect_index ps (S i) k)%Qc
  end.

Definition expected_estimate (l : list WSD) (clause_bag_prob : list Qc)
    (wt : list worldTableEntry) : Qc :=
  estimator (fun ps k => expect_index ps 0 k) (fun e k => wsum (entry_dist e) k) 0%Qc
    l clause_bag_prob wt (fun q _ => q).

(** ** The optimal Monte Carlo algorithm *)

(** A float division that gives a number.  [None] stands for the infinities and NaN of
    a division by zero, with which the algorithm does not compute a number any more. *)
Definition fdiv (a b : Qc) : option Qc := if decide (b = 0%Qc) then None else Some (a / b)%Qc.

Section AA.
(** [log] and [sqrt] give [None] where those of C give an infinity or NaN. *)
Context (rand : nat -> Z) (log sqrt : Qc -> option Qc) (epsilon delta : Qc).
Context (l : list WSD) (clause_bag_prob : list Qc).

Definition e_const : Qc := Q2Qc (2718281828459 # 1000000000000).
Definition q (z : Z) : Qc := Zq z.

Definition upsilon : option Qc :=
  x ← fdiv (q 2) delta;
  lg ← log x;
  fdiv (q 4 * (e_const - q 2) * lg)%Qc (epsilon * epsilon)%Qc.
Definition upsilon2 : option Qc :=
  s ← sqrt epsilon;
  l15 ← log (Q2Qc (3 # 2));
  x ← fdiv (q 2) delta;
  lg ← log x;
  y ← fdiv (q 2 * (q 1 + s) * (q 1 + q 2 * s) * (q 1 + l15))%Qc lg;
  u ← upsilon;
  Some (y * u)%Qc.

Definition epsilon_sra : option Qc :=
  s ← sqrt epsilon; Some (if decide (Q2Qc (1 # 2) < s)%Qc then Q2Qc (1 # 2) else s).
Definition delta_sra : Qc := (delta / q 3)%Qc.
Definition upsilon_sra : option Qc :=
  x ← fdiv (q 2) delta_sra;
  lg ← log x;
  e ← epsilon_sra;
  fdiv (q 4 * (e_const - q 2) * lg)%Qc (e * e)%Qc.
Definition upsilon1_sra : option Qc :=
  e ← epsilon_sra; u ← upsilon_sra; Some (q 1 + (q 1 + e) * u)%Qc.

Record sim := mk_sim { sim_wt : list worldTableEntry; sim_pos : nat }.

Definition estimate (s : sim) : option (Qc * sim) :=
  '((x, wt), n) ← compute_estimator rand l clause_bag_prob (sim_wt s) (sim_pos s);
  Some (x, mk_sim wt n).

(** Step 1: [while (S < upsilon1) { N++; S += ...; }]. *)
Fixpoint stopping_rule (fuel : nat) (bound : Qc) (N : Z) (Ssum : Qc) (s : sim)
    : option (Z * Qc * sim) :=
  if decide (Ssum < bound)%Qc then
    match fuel with
    | 0 => None
    | S fuel => '(x, s) ← estimate s; stopping_rule fuel bound (N + 1) (Ssum + x) s
    end
  else Some (N, Ssum, s).

(** Step 2: the sum of half the squared differences of [n] pairs. *)
Definition variance_loop (n : nat) (s : sim) : option (Qc * sim) :=
  for_upto n
    (fun _ '(Ssum, s) =>
       '(x, s) ← estimate s;
       '(y, s) ← estimate s;
       Some ((Ssum + (x - y) * (x - y) / q 2)%Qc, s)) (0%Qc, s).

(** Step 3: the sum of [n] estimates. *)
Definition mean_loop (n : nat) (s : sim) : option (Qc * sim) :=
  for_upto n (fun _ '(Ssum, s) => '(x, s) ← estimate s; Some ((Ssum + x)%Qc, s)) (0%Qc, s).

(** [for (i = 1; i <= N; i++)] and [for (i = 0; i < N; i++)] with a float [N]. *)
Definition floor_count (N : Qc) : nat := Z.to_nat (Qfloor N).
Definition ceil_count (N : Qc) : nat := Z.to_nat (Qceiling N).
Definition ceil (N : Qc) : Qc := Zq (Qceiling N).

(** An infinite bound of step 1 is never reached: then no fuel gives a result.  In step
    2 the quotient of an empty sum is NaN, which is not greater than anything. *)
Definition AA_algorithm (fuel : nat) (s : sim) : option (Qc * sim) :=
  upsilon2 ← upsilon2;
  upsilon1_sra ← upsilon1_sra;
  '(N1, _, s) ← stopping_rule fuel upsilon1_sra 0 0%Qc s;
  mu_hat ← fdiv upsilon1_sra (Zq N1);
  n2 ← fdiv (upsilon2 * epsilon)%Qc mu_hat;
  let N2 := ceil n2 in
  '(S2, s) ← variance_loop (floor_count N2) s;
  let rho_hat := match fdiv S2 N2 with
                 | Some m => if decide (epsilon * mu_hat < m)%Qc then m else (epsilon * mu_hat)%Qc
                 | None => (epsilon * mu_hat)%Qc
                 end in
  N3 ← fdiv (upsilon2 * rho_hat)%Qc (mu_hat * mu_hat)%Qc;
  '(S3, s) ← mean_loop (ceil_count N3) s;
  r ← fdiv S3 N3;
  Some (r, s).
End AA.

(** ** The aggregate *)

Definition bag_sum (l : list WSD) : Qc := foldl (fun nM w => (nM + wprob w)%Qc) 0%Qc l.

(** The file-level state of the aggregate: the globals of the clause store and
    the two parameters that the transition function sets. *)
Record aconf_globals := mk_aconf { ac_g : globals; ac_epsilon : Qc; ac_delta : Qc }.

Definition aconf_accum (n : nat) (args : list datum) (a : aconf_globals) : option aconf_globals :=
  eps ← PG_GETARG_FLOAT4 args 1;
  del ← PG_GETARG_FLOAT4 args 2;
  g ← accum n 2 args (ac_g a);
  Some (mk_aconf g eps del).

Definition aconf_accum0 (a : aconf_globals) : option aconf_globals := Some a.
Definition aconf_accum1 := aconf_accum 1.
Definition aconf_accum2 := aconf_accum 2.
Definition aconf_accum3 := aconf_accum 3.
Definition aconf_accum4 := aconf_accum 4.
Definition aconf_accum5 := aconf_accum 5.
Definition aconf_accum6 := aconf_accum 6.
Definition aconf_accum7 := aconf_accum 7.
Definition aconf_accum8 := aconf_accum 8.
Definition aconf_accum9 := aconf_accum 9.
Definition aconf_accum10 := aconf_accum 10.

Definition aconf_final (rand : nat -> Z) (log sqrt : Qc -> option Qc) (fuel pos : nat) (a : aconf_globals)
    : option (Qc * globals) :=
  let g := ac_g a in
  if groupcxt g then
    state ← getMissingRngs (gstate g);
    l ← gS g;
    l ← computeEntryPointers state l;
    let nM := bag_sum l in
    let clause_bag_prob := (fun w => (wprob w / nM)%Qc) <$> l in
    '(result, s) ← AA_algorithm rand log sqrt (ac_epsilon a) (ac_delta a) l clause_bag_prob fuel
                     (mk_sim (wt_entries state) pos);
    Some ((result * nM)%Qc, mk_globals None (current_size g) (WSD_LEN g) false (set_wt state (sim_wt s)))
  else Some (0%Qc, g).
