(* ===== verification/AconfCorrect.v ===== *)
(** * AconfCorrect: the estimator and the simulation

    Every estimate is the reciprocal of a number of satisfied clauses, which
    includes the drawn one; its expectation is the probability of the lineage
    divided by the bag sum of the clause weights; the stopping rule ends after at
    most [upsilon1 * NUM] estimates, and the simulation returns a result. *)
From S2P Require Import Prelude.
From S2P Require Import Worlds.
From S2P Require Import LocalCond.
From S2P Require Import Lineage.
From S2P Require Import Choice.
From S2P Require Import Completion.
From S2P Require Import Aconf.
From Stdlib Require Import Qround.

(** ** Worlds given by the [tau] fields *)

Definition world_from (u : world) (wt : list worldTableEntry) : world :=
  foldl (fun w e => <[wt_var e := tau e]> w) u wt.
Definition world_of (wt : list worldTableEntry) : world := world_from ∅ wt.

Lemma world_from_notin (u : world) (wt : list worldTableEntry) (x : Z) :
  x ∉ (wt_var <$> wt) -> world_from u wt !! x = u !! x.
Proof.
  revert u. induction wt as [|e wt IH]; intros u Hx; [done|]. csimpl in *.
  apply not_elem_of_cons in Hx as [Hne Hx]. unfold world_from in *. simpl. rewrite IH by done.
  by rewrite lookup_insert_ne.
Qed.

Lemma world_from_lookup (u : world) (wt : list worldTableEntry) (e : worldTableEntry) :
  NoDup (wt_var <$> wt) -> e ∈ wt -> world_from u wt !! wt_var e = Some (tau e).
Proof.
  revert u. induction wt as [|e0 wt IH]; intros u Hnd; [by intros ?%elem_of_nil|]. csimpl in *.
  apply NoDup_cons in Hnd as [Hn Hnd]. intros [->|He]%elem_of_cons.
  - unfold world_from; simpl. fold (world_from (<[wt_var e0 := tau e0]> u) wt).
    rewrite world_from_notin by done. apply lookup_insert_eq.
  - by apply (IH (<[wt_var e0 := tau e0]> u)).
Qed.

#[local] Arguments world_from : simpl never.

(** ** What a simulation needs of the clause store *)

(** A clause with pointers into a table of shape [W]. *)
Record clause_ptr (W : wtable) (w : WSD) : Prop := {
  cp_nodup : NoDup (var <$> data w);
  cp_maps : forall m, m ∈ data w -> rng m <> (-1)%Z /\
    exists k d, wt_entry m = Some k /\ W !! k = Some (var m, d) }.

Lemma shape_vars (wt : list worldTableEntry) : (shape wt).*1 = wt_var <$> wt.
Proof. unfold shape. rewrite <- list_fmap_compose. done. Qed.

Lemma value_in_none (w : WSD) (v : Z) : v ∉ (var <$> data w) -> value_in w v = (-1)%Z.
Proof.
  unfold value_in. generalize (-1)%Z. induction (data w) as [|m l IH]; intros a Hv; csimpl in *; [done|].
  apply not_elem_of_cons in Hv as [Hm Hv]. destruct (Z.eqb_spec (var m) v); [congruence|]. by apply IH.
Qed.

Lemma value_in_some (w : WSD) (m : Map) :
  NoDup (var <$> data w) -> m ∈ data w -> value_in w (var m) = rng m.
Proof.
  unfold value_in. generalize (-1)%Z. induction (data w) as [|m0 l IH]; intros a Hnd; csimpl in *;
    [by intros ?%elem_of_nil|].
  apply NoDup_cons in Hnd as [Hn Hnd]. intros [->|Hm]%elem_of_cons; [|by apply IH].
  rewrite Z.eqb_refl. clear IH. revert Hn. generalize (rng m0).
  induction l as [|m1 l IH]; intros b Hn; csimpl in *; [done|].
  apply not_elem_of_cons in Hn as [H1 Hn]. destruct (Z.eqb_spec (var m1) (var m0)); [congruence|].
  apply IH; [|done]. by apply NoDup_cons in Hnd as [_ ?].
Qed.

(** A clause constrains a variable when its value is not -1. *)
Lemma value_in_sat (W : wtable) (w : WSD) (u : world) :
  clause_ptr W w ->
  sat_clause (clause_of w) u = true <->
  forall x, x ∈ W.*1 -> value_in w x <> (-1)%Z -> u !! x = Some (value_in w x).
Proof.
  intros [Hnd Hm]. unfold sat_clause. rewrite forallb_forall. setoid_rewrite <- list_elem_of_In. split.
  - intros H x _ Hx. destruct (decide (x ∈ (var <$> data w))) as [Hin|Hin];
      [|by rewrite value_in_none in Hx].
    apply list_elem_of_fmap in Hin as (m & -> & Hin). rewrite value_in_some by done.
    specialize (H (var m, rng m)). unfold sat_lit in H. simpl in H.
    apply bool_decide_eq_true in H; [done|]. unfold clause_of. apply list_elem_of_fmap. by exists m.
  - intros H t (m & -> & Hin)%list_elem_of_fmap. unfold sat_lit. simpl. apply bool_decide_eq_true.
    destruct (Hm m Hin) as (Hr & k & d & _ & Hk).
    rewrite (H (var m)); [by rewrite value_in_some| |by rewrite value_in_some].
    apply list_elem_of_fmap. exists (var m, d). split; [done|by eapply list_elem_of_lookup_2].
Qed.

Lemma clause_satisfied_spec (wt : list worldTableEntry) (w : WSD) :
  NoDup (wt_var <$> wt) -> clause_ptr (shape wt) w ->
  clause_satisfied wt (data w) = Some (sat_clause (clause_of w) (world_of wt)).
Proof.
  intros Hnd [_ Hm]. unfold clause_of. induction (data w) as [|m l IH]; [done|]. csimpl.
  destruct (Hm m (list_elem_of_here _ _)) as (_ & k & d & Hk & Hs).
  destruct (shape_lookup wt k _ _ Hs) as (e & He & Hv & _). rewrite Hk. simpl. rewrite He. simpl.
  assert (Hu : world_of wt !! var m = Some (tau e)).
  { rewrite <- Hv. apply world_from_lookup; [done|by eapply list_elem_of_lookup_2]. }
  unfold sat_clause; simpl. fold (sat_clause ((fun m => (var m, rng m)) <$> l) (world_of wt)).
  unfold sat_lit; simpl. rewrite Hu. destruct (Z.eqb_spec (tau e) (rng m)) as [Ht|Ht].
  - rewrite bool_decide_true by congruence. simpl. apply IH. intros m' Hm'.
    by apply Hm, list_elem_of_further.
  - by rewrite bool_decide_false by congruence.
Qed.

(** The number of clauses that a world satisfies. *)
Definition csat (l : list WSD) (u : world) : nat :=
  length (filter (fun w => sat_clause (clause_of w) u = true) l).

Lemma csat_cons (l : list WSD) (w : WSD) (u : world) :
  csat (w :: l) u = (if sat_clause (clause_of w) u then S (csat l u) else csat l u).
Proof. unfold csat. rewrite filter_cons. by destruct (sat_clause (clause_of w) u). Qed.

Lemma csat_snoc (l : list WSD) (w : WSD) (u : world) :
  csat (l ++ [w]) u = (if sat_clause (clause_of w) u then S (csat l u) else csat l u).
Proof.
  unfold csat. rewrite filter_app, length_app, filter_cons.
  destruct (sat_clause (clause_of w) u); simpl; lia.
Qed.

Lemma count_satisfied_spec (wt : list worldTableEntry) (l : list WSD) :
  NoDup (wt_var <$> wt) -> Forall (clause_ptr (shape wt)) l ->
  count_satisfied wt l = Some (csat l (world_of wt)).
Proof.
  intros Hnd Hl. unfold count_satisfied.
  destruct (for_list_inv (fun l1 c => c = csat l1 (world_of wt)) l
    (fun w c => b ← clause_satisfied wt (data w); Some (if (b : bool) then S c else c)) 0)
    as (c & -> & ->); [done| |done].
  intros l1 w l2 c -> ->. rewrite Forall_app, Forall_cons in Hl. destruct Hl as (_ & Hw & _).
  rewrite clause_satisfied_spec by done. simpl. eexists. split; [done|]. by rewrite csat_snoc.
Qed.

Lemma csat_pos (l : list WSD) (w : WSD) (u : world) :
  w ∈ l -> sat_clause (clause_of w) u = true -> 0 < csat l u.
Proof.
  intros Hw Hs. unfold csat.
  assert (Hin : w ∈ filter (fun w => sat_clause (clause_of w) u = true) l) by (by apply list_elem_of_filter).
  destruct (filter _ _); [by apply elem_of_nil in Hin|]. simpl. lia.
Qed.

Lemma csat_le (l : list WSD) (u : world) : csat l u <= length l.
Proof. apply length_filter. Qed.

(** ** Draws *)

Lemma pick_loop_range (pick offset : Qc) (i j : nat) (distrib : list Qc) :
  pick_loop pick offset i distrib = Some j -> i <= j < i + length distrib.
Proof.
  revert offset i. induction distrib as [|d distrib IH]; intros offset i; simpl; [done|].
  destruct (decide _); [intros [= ->]; lia|]. intros H%IH. lia.
Qed.

Lemma choose_range (r : Z) (distrib : list Qc) :
  distrib <> [] -> (0 <= choose_with_distribution r distrib < Z.of_nat (length distrib))%Z.
Proof.
  intros Hne. unfold choose_with_distribution. destruct (pick_loop _ _ _ _) as [j|] eqn:Hp.
  - apply pick_loop_range in Hp. lia.
  - destruct distrib; [done|]. simpl. lia.
Qed.

Lemma choose_2_some (r : Z) (e : worldTableEntry) :
  rng_entries e <> [] -> exists t, choose_with_distribution_2 r e = Some t /\ t ∈ (entry_dist e).*1.
Proof.
  intros Hne. unfold choose_with_distribution_2.
  set (i := match pick_loop _ _ _ _ with Some i => i | None => _ end).
  assert (Hi : i < rng_entry_count e).
  { unfold i, rng_entry_count. destruct (pick_loop _ _ _ _) as [j|] eqn:Hp.
    - apply pick_loop_range in Hp. rewrite length_fmap in Hp. lia.
    - destruct (rng_entries e); [done|]. simpl. lia. }
  destruct (lookup_lt_is_Some_2 (rng_entries e) i Hi) as [re Hre]. rewrite Hre. simpl.
  exists (re_rng re). split; [done|]. unfold entry_dist. apply list_elem_of_fmap.
  exists (re_rng re, re_p re). split; [done|]. apply list_elem_of_fmap. exists re.
  split; [done|by eapply list_elem_of_lookup_2].
Qed.

Lemma shape_set_tau (e : worldTableEntry) (t : Z) : shape_entry (set_tau e t) = shape_entry e.
Proof. done. Qed.

(** ** The estimator with [rand] *)

(** A completed assignment: the same table, with the values of the clause. *)
Record assigned (w : WSD) (wt wt' : list worldTableEntry) : Prop := {
  ag_shape : shape wt' = shape wt;
  ag_tau : forall e, e ∈ wt' -> value_in w (wt_var e) <> (-1)%Z -> tau e = value_in w (wt_var e) }.

Definition filled_table (wt : list worldTableEntry) : Prop := Forall (fun e => rng_entries e <> []) wt.

Lemma assign_rand {A} (rand : nat -> Z) (w : WSD) (wt : list worldTableEntry)
    (k : list worldTableEntry -> run A) (n : nat) :
  filled_table wt ->
  exists wt' n', assign_tau (draw_2 rand) w wt k n = k wt' n' /\ assigned w wt wt'.
Proof.
  intros Hf. revert k n. induction Hf as [|e wt He Hf IH]; intros k n; simpl.
  { exists [], n. split; [done|]. split; [done|]. by intros e ?%elem_of_nil. }
  assert (Hcons : forall t wt', assigned w wt wt' ->
    (value_in w (wt_var e) <> (-1)%Z -> t = value_in w (wt_var e)) ->
    assigned w (e :: wt) (set_tau e t :: wt')).
  { intros t wt' [H1 H2] Ht. split; [unfold shape in *; csimpl; by rewrite H1|].
    intros e' [->|He']%elem_of_cons; [exact Ht|by apply H2]. }
  destruct (Z.eqb_spec (value_in w (wt_var e)) (-1)) as [Hv|Hv].
  - unfold draw_2 at 1. destruct (choose_2_some (rand n) e He) as (t & -> & _). simpl.
    destruct (IH (fun wt' => k (set_tau e t :: wt')) (S n)) as (wt' & n' & -> & Ha).
    exists (set_tau e t :: wt'), n'. split; [done|]. by apply Hcons.
  - destruct (IH (fun wt' => k (set_tau e (value_in w (wt_var e)) :: wt')) n) as (wt' & n' & -> & Ha).
    eexists (_ :: wt'), n'. split; [done|]. by apply Hcons.
Qed.

Lemma assigned_sat (w : WSD) (wt wt' : list worldTableEntry) :
  NoDup (wt_var <$> wt) -> clause_ptr (shape wt) w -> assigned w wt wt' ->
  sat_clause (clause_of w) (world_of wt') = true.
Proof.
  intros Hnd Hw [Hs Ht]. apply (value_in_sat (shape wt)); [done|].
  intros x Hx Hv. rewrite <- Hs, shape_vars in Hx.
  apply list_elem_of_fmap in Hx as (e & -> & He). rewrite <- (Ht e He Hv).
  apply world_from_lookup; [|done]. by rewrite <- shape_vars, Hs, shape_vars.
Qed.

Lemma compute_estimator_spec (rand : nat -> Z) (l : list WSD) (ps : list Qc)
    (wt : list worldTableEntry) (n : nat) :
  NoDup (wt_var <$> wt) -> filled_table wt -> Forall (clause_ptr (shape wt)) l ->
  l <> [] -> length ps = length l ->
  exists wt' n', compute_estimator rand l ps wt n =
      Some ((1 / Zq (Z.of_nat (csat l (world_of wt'))))%Qc, wt', n') /\
    shape wt' = shape wt /\ 1 <= csat l (world_of wt') <= length l.
Proof.
  intros Hnd Hf Hl Hne Hps. unfold compute_estimator, estimator, draw at 1.
  assert (Hpne : ps <> []) by (intros ->; by destruct l).
  pose proof (choose_range (rand n) ps Hpne) as Hr. set (i := choose_with_distribution (rand n) ps) in *.
  destruct (Z.ltb_spec i 0); [lia|].
  destruct (lookup_lt_is_Some_2 l (Z.to_nat i)) as [w Hw]; [lia|]. rewrite Hw.
  pose proof Hl as Hl'. rewrite Forall_forall in Hl'.
  pose proof (Hl' w (list_elem_of_lookup_2 _ _ _ Hw)) as Hwp.
  destruct (assign_rand rand w wt (fun wt' =>
    match count_satisfied wt' l with
    | Some (S c) => fun n0 : nat => Some ((1 / Zq (Z.of_nat (S c)))%Qc, wt', n0)
    | _ => fun _ => None
    end) (S n) Hf) as (wt' & n' & -> & Ha).
  pose proof (ag_shape _ _ _ Ha) as Hs.
  assert (Hnd' : NoDup (wt_var <$> wt')) by (by rewrite <- shape_vars, Hs, shape_vars).
  rewrite count_satisfied_spec by (done || by rewrite Hs).
  pose proof (csat_pos l w (world_of wt') (list_elem_of_lookup_2 _ _ _ Hw)
    (assigned_sat w wt wt' Hnd Hwp Ha)) as Hpos.
  pose proof (csat_le l (world_of wt')).
  destruct (csat l (world_of wt')) as [|c] eqn:Hc; [lia|].
  exists wt', n'. rewrite Hc. split_and!; [done|done|lia|lia].
Qed.

(** ** The estimator in expectation *)

Lemma Zq_S (c : nat) : Zq (Z.of_nat (S c)) = (Zq (Z.of_nat c) + 1)%Qc.
Proof.
  apply Qc_is_canon. unfold Zq. rewrite this_plus. simpl.
  rewrite !Qred_correct. rewrite Nat2Z.inj_succ. unfold Z.succ. rewrite inject_Z_plus. reflexivity.
Qed.

Lemma Zq_pos (c : nat) : (0 < Zq (Z.of_nat (S c)))%Qc.
Proof.
  induction c as [|c IH]; [done|]. rewrite Zq_S. 
  revert IH. generalize (Zq (Z.of_nat (S c))). intros x Hx. qc_lra.
Qed.

Section Unbiased.
Context (l : list WSD) (wt0 : list worldTableEntry).
Context (Hnd : NoDup (wt_var <$> wt0)) (HW : wtable_ok (shape wt0)).
Context (Hl : Forall (clause_ptr (shape wt0)) l).

Let draw_e (e : worldTableEntry) (k : Z -> Qc) : Qc := wsum (entry_dist e) k.

(** [w] constrains the variables of [wt] as the world [u] says. *)
Definition agree (w : WSD) (wt : list worldTableEntry) (u : world) : bool :=
  forallb (fun e => (value_in w (wt_var e) =? -1)%Z
    || bool_decide (u !! wt_var e = Some (value_in w (wt_var e)))) wt.

(** The product of the probabilities of the values that [w] fixes. *)
Fixpoint fixed_weight (w : WSD) (wt : list worldTableEntry) : Qc :=
  match wt with
  | [] => 1%Qc
  | e :: wt =>
      ((if (value_in w (wt_var e) =? -1)%Z then 1
        else wsum (entry_dist e) (fun r => ind (bool_decide (r = value_in w (wt_var e)))))
       * fixed_weight w wt)%Qc
  end.

Lemma agree_insert (w : WSD) (wt : list worldTableEntry) (u : world) (x r : Z) :
  x ∉ (wt_var <$> wt) -> agree w wt (<[x := r]> u) = agree w wt u.
Proof using Type.
  clear. induction wt as [|e wt IH]; intros Hx; csimpl in *; [done|].
  apply not_elem_of_cons in Hx as [Hne Hx]. rewrite IH by done. by rewrite lookup_insert_ne.
Qed.

(** Drawing the free variables of [w] is conditioning on [w]. *)
Lemma assign_expect (w : WSD) (wt : list worldTableEntry) (u : world) (g : world -> Qc) :
  NoDup (wt_var <$> wt) ->
  (fixed_weight w wt * assign_tau draw_e w wt (fun wt' => g (world_from u wt')))%Qc =
  expect (shape wt) u (fun v => (ind (agree w wt v) * g v)%Qc).
Proof using Type.
  clear. revert u g. induction wt as [|e wt IH]; intros u g Hnd;
    [unfold world_from; simpl; ring|].
  csimpl in Hnd. apply NoDup_cons in Hnd as [Hx Hnd].
  assert (Hxs : wt_var e ∉ (shape wt).*1) by (by rewrite shape_vars).
  simpl. fold (shape wt). fold (entry_dist e). fold (agree w wt).
  set (c := value_in w (wt_var e)).
  assert (Hstep : forall t, (fixed_weight w wt * assign_tau draw_e w wt
      (fun wt' => g (world_from u (set_tau e t :: wt'))))%Qc =
    expect (shape wt) (<[wt_var e := t]> u) (fun v => (ind (agree w wt v) * g v)%Qc))
    by (intros t; by apply (IH (<[wt_var e := t]> u) g)).
  destruct (Z.eqb_spec c (-1)) as [Hc|Hc].
  - rewrite Qcmult_1_l. unfold draw_e at 1. rewrite <- wsum_scale. apply wsum_ext. intros t p _.
    rewrite Hstep. apply expect_ext. intros v. done.
  - rewrite <- Qcmult_assoc, Hstep. 
    rewrite (wsum_ext _ (fun r => expect (shape wt) (<[wt_var e:=r]> u) _)
      (fun r => (expect (shape wt) (<[wt_var e := c]> u) (fun v => (ind (agree w wt v) * g v)%Qc)
        * ind (bool_decide (r = c)))%Qc)).
    + rewrite wsum_scale. ring.
    + intros r p _. rewrite !expect_fix by done. rewrite Qcmult_comm, <- expect_scale.
      apply expect_ext. intros v. rewrite lookup_insert_eq. simpl.
      rewrite (bool_decide_ext (Some r = Some c) (r = c)) by naive_solver.
      rewrite ind_and. destruct (bool_decide_reflect (r = c)) as [->|]; simpl; ring.
Qed.

Lemma agree_sat (w : WSD) (u : world) : w ∈ l -> agree w wt0 u = sat_clause (clause_of w) u.
Proof using Hl.
  intros Hw. rewrite Forall_forall in Hl. apply eq_true_iff_eq.
  rewrite (value_in_sat (shape wt0)) by (by apply Hl). unfold agree. rewrite forallb_forall.
  setoid_rewrite <- list_elem_of_In. rewrite shape_vars. split.
  - intros H x (e & -> & He)%list_elem_of_fmap Hv. specialize (H e He).
    apply orb_true_iff in H as [H|H]; [by apply Z.eqb_eq in H|by apply bool_decide_eq_true in H].
  - intros H e He. apply orb_true_iff. destruct (Z.eqb_spec (value_in w (wt_var e)) (-1)); [by left|right].
    apply bool_decide_eq_true, H; [|done]. apply list_elem_of_fmap. by exists e.
Qed.

Lemma assign_ext (w : WSD) (wt : list worldTableEntry) (k k' : list worldTableEntry -> Qc) :
  (forall wt', shape wt' = shape wt -> k wt' = k' wt') ->
  assign_tau draw_e w wt k = assign_tau draw_e w wt k'.
Proof using Type.
  clear. revert k k'. induction wt as [|e wt IH]; intros k k' H; simpl; [by apply H|].
  assert (Hcons : forall t wt', shape wt' = shape wt ->
    k (set_tau e t :: wt') = k' (set_tau e t :: wt')).
  { intros t wt' Hs. apply H. unfold shape in *. csimpl. by rewrite Hs. }
  destruct (_ =? -1)%Z; [|apply IH; by apply Hcons].
  apply wsum_ext. intros t p _. apply IH; by apply Hcons.
Qed.

Lemma assign_one (w : WSD) (wt : list worldTableEntry) :
  Forall (fun e => mass (entry_dist e) = 1%Qc) wt -> assign_tau draw_e w wt (fun _ => 1%Qc) = 1%Qc.
Proof using Type.
  clear. induction 1 as [|e wt He _ IH]; simpl; [done|].
  destruct (_ =? -1)%Z; [|done]. unfold draw_e at 1.
  rewrite (wsum_ext _ _ (fun _ => 1%Qc)) by (intros; apply IH).
  rewrite wsum_const, He. ring.
Qed.

Lemma table_masses : Forall (fun e => mass (entry_dist e) = 1%Qc) wt0.
Proof using HW.
  apply Forall_forall. intros e He. apply (dist_mass _), (wt_dist _ HW (wt_var e)).
  unfold shape. apply list_elem_of_fmap. by exists e.
Qed.

(** The weight of a clause times its expected estimate. *)
Lemma weighted_estimate (w : WSD) (g : world -> Qc) :
  w ∈ l ->
  (Pr (shape wt0) (sat_clause (clause_of w)) *
     assign_tau draw_e w wt0 (fun wt' => g (world_of wt')))%Qc =
  expect (shape wt0) ∅ (fun v => (ind (sat_clause (clause_of w) v) * g v)%Qc).
Proof using Hnd HW Hl.
  intros Hw.
  assert (Hf : Pr (shape wt0) (sat_clause (clause_of w)) = fixed_weight w wt0).
  { pose proof (assign_expect w wt0 ∅ (fun _ => 1%Qc) Hnd) as H.
    cbn beta in H. rewrite (assign_one w wt0 table_masses), Qcmult_1_r in H. rewrite H.
    apply expect_ext. intros v. rewrite agree_sat by done. ring. }
  rewrite Hf. unfold world_of. rewrite assign_expect by done.
  apply expect_ext. intros v. by rewrite agree_sat.
Qed.

Definition share (u : world) : Qc :=
  match csat l u with S c => (1 / Zq (Z.of_nat (S c)))%Qc | 0 => 0%Qc end.

(** The estimates of the clauses that a world satisfies sum to one. *)
Lemma share_sum (u : world) :
  (foldr (fun w acc => ind (sat_clause (clause_of w) u) * share u + acc)%Qc 0%Qc l)
  = ind (sat_dnf (clause_of <$> l) u).
Proof using Type.
  clear. assert (Hgen : forall (s : Qc) ws, foldr (fun w acc => ind (sat_clause (clause_of w) u) * s + acc)%Qc 0%Qc ws =
    (Zq (Z.of_nat (csat ws u)) * s)%Qc).
  { intros s. induction ws as [|w ws IH]; [change (Zq (Z.of_nat (csat [] u))) with 0%Qc; simpl; ring|].
    simpl. rewrite IH, csat_cons. destruct (sat_clause (clause_of w) u); [rewrite Zq_S|]; simpl; ring. }
  rewrite Hgen. unfold share. destruct (csat l u) as [|c] eqn:Hc.
  - change (Zq (Z.of_nat 0)) with 0%Qc. rewrite Qcmult_0_l.
    destruct (sat_dnf _ u) eqn:Hs; [|done]. exfalso.
    apply sat_dnf_true in Hs as (c & (w & -> & Hw)%list_elem_of_fmap & Hs).
    pose proof (csat_pos l w u Hw Hs). lia.
  - assert (Hs : sat_dnf (clause_of <$> l) u = true).
    { unfold csat in Hc. destruct (filter _ l) as [|w ws] eqn:Hf; [done|].
      assert (Hw : w ∈ filter (fun w => sat_clause (clause_of w) u = true) l)
        by (rewrite Hf; apply list_elem_of_here).
      apply list_elem_of_filter in Hw as [Hsat Hw]. apply sat_dnf_true.
      exists (clause_of w). split; [|done]. apply list_elem_of_fmap. by exists w. }
    rewrite Hs. simpl ind. pose proof (Zq_pos c) as Hp.
    field. intros H0. rewrite H0 in Hp. done.
Qed.

Lemma expect_index_list (f : WSD -> Qc) (h : option WSD -> Qc) (l1 l2 : list WSD) :
  expect_index (f <$> l2) (length l1)
    (fun i => h (if (i <? 0)%Z then None else (l1 ++ l2) !! Z.to_nat i)) =
  foldr (fun w acc => f w * h (Some w) + acc)%Qc 0%Qc l2.
Proof using Type.
  clear. revert l1. induction l2 as [|w l2 IH]; intros l1; [done|]. csimpl.
  destruct (Z.ltb_spec (Z.of_nat (length l1)) 0); [lia|].
  rewrite Nat2Z.id, lookup_app_r, Nat.sub_diag by lia. simpl. f_equal.
  specialize (IH (l1 ++ [w])). rewrite length_app, Nat.add_1_r in IH.
  rewrite <- app_assoc in IH. exact IH.
Qed.

Lemma foldr_expect (ws : list WSD) (F : WSD -> world -> Qc) :
  foldr (fun w acc => expect (shape wt0) ∅ (F w) + acc)%Qc 0%Qc ws =
  expect (shape wt0) ∅ (fun u => foldr (fun w acc => F w u + acc)%Qc 0%Qc ws).
Proof using HW.
  induction ws as [|w ws IH]; simpl; [symmetry; exact (expect_const (shape wt0) ∅ 0%Qc HW)|].
  by rewrite IH, expect_add.
Qed.

(** The expected estimate is the probability of the lineage over the bag sum. *)
Theorem expected_estimate_spec :
  (forall w, w ∈ l -> wprob w = Pr (shape wt0) (sat_clause (clause_of w))) ->
  bag_sum l <> 0%Qc ->
  (expected_estimate l ((fun w => (wprob w / bag_sum l)%Qc) <$> l) wt0 * bag_sum l)%Qc =
  Pr (shape wt0) (sat_dnf (clause_of <$> l)).
Proof using Hnd HW Hl.
  intros Hp Hn. unfold expected_estimate, estimator.
  set (h := fun o : option WSD => match o with
    | Some w => assign_tau draw_e w wt0 (fun wt' => share (world_of wt'))
    | None => 0%Qc end).
  set (ps := (fun w => (wprob w / bag_sum l)%Qc)).
  transitivity (expect_index (ps <$> l) 0 (fun i => h (if (i <? 0)%Z then None else ([] ++ l) !! Z.to_nat i)) * bag_sum l)%Qc.
  - f_equal. assert (Hext : forall qs i (k k' : Z -> Qc), (forall z, k z = k' z) ->
      expect_index qs i k = expect_index qs i k').
    { induction qs as [|p qs IH]; intros i k k' H; simpl; [done|]. by rewrite H, (IH (S i) k k' H). }
    apply Hext. intros z. simpl. destruct (if (z <? 0)%Z then _ else _) as [w|]; [|done].
    simpl. apply assign_ext. intros wt' Hs. unfold share.
    rewrite count_satisfied_spec; [done| |by rewrite Hs].
    by rewrite <- shape_vars, Hs, shape_vars.
  - pose proof (expect_index_list ps h [] l) as E. cbn [length] in E. rewrite E. clear E.
    assert (Hsum : forall ws, (forall w, w ∈ ws -> w ∈ l) ->
      (foldr (fun w acc => ps w * h (Some w) + acc)%Qc 0%Qc ws * bag_sum l)%Qc =
      foldr (fun w acc => expect (shape wt0) ∅
        (fun u => (ind (sat_clause (clause_of w) u) * share u)%Qc) + acc)%Qc 0%Qc ws).
    { induction ws as [|w ws IH]; intros Hws; cbn [foldr]; [ring|].
      rewrite <- IH by (intros w' Hw'; by apply Hws, list_elem_of_further).
      rewrite <- (weighted_estimate w share) by (apply Hws, list_elem_of_here).
      rewrite <- Hp by (apply Hws, list_elem_of_here). 
      generalize (foldr (fun w acc => ps w * h (Some w) + acc)%Qc 0%Qc ws). intros x.
      change (h (Some w)) with (assign_tau draw_e w wt0 (fun wt' => share (world_of wt'))).
      generalize (assign_tau draw_e w wt0 (fun wt' => share (world_of wt'))). intros y.
      unfold ps. field. done. }
    rewrite Hsum by done. rewrite foldr_expect. apply expect_ext. intros u. apply share_sum.
Qed.
End Unbiased.

(** ** The simulation *)

(** A store on which the simulation runs, whatever its [tau] fields are. *)
Record sim_ok (W : wtable) (l : list WSD) (ps : list Qc) (wt : list worldTableEntry) : Prop := {
  sm_shape : shape wt = W;
  sm_vars : NoDup (wt_var <$> wt);
  sm_filled : filled_table wt;
  sm_clauses : Forall (clause_ptr W) l;
  sm_some : l <> [];
  sm_len : length ps = length l }.

Lemma filled_shape (wt wt' : list worldTableEntry) :
  shape wt' = shape wt -> filled_table wt -> filled_table wt'.
Proof.
  unfold filled_table. revert wt'. induction wt as [|e wt IH]; intros [|e' wt'] Hs Hf; try done.
  unfold shape in Hs. csimpl in Hs. injection Hs as Hv Hd Hs. apply Forall_cons in Hf as [He Hf].
  constructor; [|by apply IH]. intros Hnil. rewrite Hnil in Hd. by destruct (rng_entries e).
Qed.

Lemma sim_ok_shape (W : wtable) (l : list WSD) (ps : list Qc) (wt wt' : list worldTableEntry) :
  sim_ok W l ps wt -> shape wt' = shape wt -> sim_ok W l ps wt'.
Proof.
  intros [H1 H2 H3 H4 H5 H6] Hs. split; [congruence| |by eapply filled_shape|done..].
  by rewrite <- shape_vars, Hs, shape_vars.
Qed.

Lemma Zq_mono (a b : Z) : (a <= b)%Z -> (Zq a <= Zq b)%Qc.
Proof. intros H. unfold Qcle, Zq. simpl. rewrite !Qred_correct. by rewrite <- Zle_Qle. Qed.

Lemma recip_mult (a : Qc) : (0 < a)%Qc -> (1 / a * a)%Qc = 1%Qc.
Proof. intros Ha. field. intros ->. done. Qed.

Lemma recip_pos (a : Qc) : (0 < a)%Qc -> (0 < 1 / a)%Qc.
Proof.
  intros Ha. pose proof (recip_mult a Ha) as E. revert E. generalize (1 / a)%Qc. intros x E.
  destruct (Qclt_le_dec 0 x) as [|Hle]; [done|]. exfalso. qc_nra.
Qed.

Lemma recip_le (a b : Qc) : (0 < a)%Qc -> (a <= b)%Qc -> (1 / b <= 1 / a)%Qc.
Proof.
  intros Ha Hab. assert (Hb : (0 < b)%Qc) by qc_lra.
  pose proof (recip_mult a Ha) as Ea. pose proof (recip_mult b Hb) as Eb.
  pose proof (recip_pos a Ha) as Pa. pose proof (recip_pos b Hb) as Pb.
  revert Ea Eb Pa Pb. generalize (1 / a)%Qc (1 / b)%Qc. intros x y Ea Eb Px Py.
  destruct (Qclt_le_dec x y) as [Hlt|]; [|done]. exfalso.
  assert (H1 : (x * b < y * b)%Qc) by (apply Qcmult_lt_compat_r; done).
  assert (H2 : (a * x <= b * x)%Qc) by (apply Qcmult_le_compat_r; [done|by apply Qclt_le_weak]).
  rewrite (Qcmult_comm a), Ea, (Qcmult_comm b) in H2. rewrite Eb in H1. qc_lra.
Qed.

Lemma Qcmult_pos_pos (a b : Qc) : (0 < a)%Qc -> (0 < b)%Qc -> (0 < a * b)%Qc.
Proof. intros Ha Hb. qc_nra. Qed.

(** Dividing by a positive number gives a number. *)
Lemma fdiv_nonzero (a b : Qc) : (0 < b)%Qc -> exists x, fdiv a b = Some x.
Proof. intros Hb. unfold fdiv. destruct (decide (b = 0%Qc)) as [->|]; [done|by eexists]. Qed.

Lemma fdiv_pos (a b : Qc) : (0 < a)%Qc -> (0 < b)%Qc -> exists x, fdiv a b = Some x /\ (0 < x)%Qc.
Proof.
  intros Ha Hb. unfold fdiv. destruct (decide (b = 0%Qc)) as [->|Hne]; [done|]. eexists. split; [done|].
  replace (a / b)%Qc with (a * (1 / b))%Qc by (by field). by apply Qcmult_pos_pos, recip_pos.
Qed.

(** What the algorithm relies on of the functions of the C library. *)
Record log_sqrt_ok (log sqrt : Qc -> option Qc) : Prop := {
  log_pos : forall x, (1 < x)%Qc -> exists y, log x = Some y /\ (0 < y)%Qc;
  sqrt_pos : forall x, (0 < x)%Qc -> exists y, sqrt x = Some y /\ (0 < y)%Qc }.

(** The bounds of the loops are positive numbers. *)
Section Bounds.
Context (log sqrt : Qc -> option Qc) (Hls : log_sqrt_ok log sqrt) (epsilon delta : Qc).
Context (He : (0 < epsilon)%Qc) (Hd : (0 < delta)%Qc) (Hd2 : (delta < q 2)%Qc).

Lemma log_quotient (d : Qc) : (0 < d)%Qc -> (d < q 2)%Qc ->
  exists x lg, fdiv (q 2) d = Some x /\ log x = Some lg /\ (0 < lg)%Qc.
Proof using Hls.
  intros H0 H2. unfold fdiv. destruct (decide (d = 0%Qc)) as [->|Hne]; [done|].
  destruct (log_pos _ _ Hls (q 2 / d)%Qc) as (lg & Hl & Hp); [|by exists (q 2 / d)%Qc, lg].
  destruct (Qclt_le_dec 1 (q 2 / d)) as [|Hle]; [done|]. exfalso.
  apply (Qcmult_le_compat_r _ _ d) in Hle; [|by apply Qclt_le_weak].
  replace (q 2 / d * d)%Qc with (q 2) in Hle by (by field). rewrite Qcmult_1_l in Hle.
  by apply Qcle_not_lt in Hle.
Qed.

Lemma e_pos : (0 < q 4 * (e_const - q 2))%Qc.
Proof. reflexivity. Qed.

Lemma upsilon2_pos : exists u2, upsilon2 log sqrt epsilon delta = Some u2 /\ (0 < u2)%Qc.
Proof using Hls He Hd Hd2.
  unfold upsilon2, upsilon. destruct (sqrt_pos _ _ Hls epsilon He) as (s & -> & Hs).
  destruct (log_pos _ _ Hls (Q2Qc (3 # 2))) as (l15 & -> & Hl15); [reflexivity|].
  destruct (log_quotient delta Hd Hd2) as (x & lg & -> & Hlg & Hp). cbn [mbind option_bind].
  rewrite !Hlg. cbn [mbind option_bind].
  destruct (fdiv_pos (q 2 * (q 1 + s) * (q 1 + q 2 * s) * (q 1 + l15)) lg) as (y & -> & Hy); [|done|].
  { assert (Hq : (0 < q 2)%Qc /\ (0 < q 1)%Qc) by (split; reflexivity). destruct Hq as [Hq2 Hq1].
    assert (Hplus : forall a b, (0 < a)%Qc -> (0 < b)%Qc -> (0 < a + b)%Qc) by (intros; qc_lra).
    repeat apply Qcmult_pos_pos; try done; apply Hplus; try done. by apply Qcmult_pos_pos. }
  cbn [mbind option_bind].
  destruct (fdiv_pos (q 4 * (e_const - q 2) * lg) (epsilon * epsilon)) as (u & -> & Hu);
    [apply Qcmult_pos_pos; [exact e_pos|done]|by apply Qcmult_pos_pos|].
  cbn [mbind option_bind]. eexists. split; [done|]. by apply Qcmult_pos_pos.
Qed.

Lemma epsilon_sra_pos : exists e, epsilon_sra sqrt epsilon = Some e /\ (0 < e)%Qc.
Proof using Hls He.
  unfold epsilon_sra. destruct (sqrt_pos _ _ Hls epsilon He) as (s & -> & Hs). cbn [mbind option_bind].
  eexists. split; [done|]. destruct (decide _); [reflexivity|done].
Qed.

Lemma third : (/ q 3)%Qc = Q2Qc (1 # 3).
Proof. apply Qc_is_canon. reflexivity. Qed.

Lemma upsilon1_sra_pos : exists bound, upsilon1_sra log sqrt epsilon delta = Some bound /\ (0 < bound)%Qc.
Proof using Hls He Hd Hd2.
  unfold upsilon1_sra, upsilon_sra. destruct epsilon_sra_pos as (e & -> & Hep). cbn [mbind option_bind].
  destruct (log_quotient (delta_sra delta)) as (x & lg & -> & Hlg & Hp).
  { unfold delta_sra, Qcdiv. rewrite third. by apply Qcmult_pos_pos. }
  { unfold delta_sra, Qcdiv. rewrite third. change (q 2) with (Q2Qc 2) in *. qc_to_q. change (this (Q2Qc 2)) with 2%Q in *.
    change (this (Q2Qc (1 # 3))) with (1 # 3)%Q. lra. }
  cbn [mbind option_bind]. rewrite Hlg. cbn [mbind option_bind].
  destruct (fdiv_pos (q 4 * (e_const - q 2) * lg) (e * e)) as (u & -> & Hu);
    [apply Qcmult_pos_pos; [exact e_pos|done]|by apply Qcmult_pos_pos|].
  cbn [mbind option_bind]. eexists. split; [done|]. change (q 1) with 1%Qc.
  assert (H1 : (0 < 1 + e)%Qc) by qc_lra. pose proof (Qcmult_pos_pos _ _ H1 Hu) as H2.
  revert H2. generalize ((1 + e) * u)%Qc. intros z Hz. qc_lra.
Qed.
End Bounds.

Section Simulation.
Context (rand : nat -> Z) (W : wtable) (l : list WSD) (ps : list Qc).

Lemma estimate_spec (s : sim) :
  sim_ok W l ps (sim_wt s) ->
  exists x s', estimate rand l ps s = Some (x, s') /\ sim_ok W l ps (sim_wt s') /\
    (1 / Zq (Z.of_nat (length l)) <= x)%Qc /\ (x <= 1)%Qc.
Proof.
  intros Hok. pose proof Hok as [H1 H2 H3 H4 H5 H6]. unfold estimate.
  destruct (compute_estimator_spec rand l ps (sim_wt s) (sim_pos s)) as (wt' & n' & -> & Hs & Hc);
    [done|done|by rewrite H1|done|done|]. cbn [mbind option_bind].
  eexists _, _. split; [done|]. cbn [sim_wt]. split; [by eapply sim_ok_shape|].
  destruct Hc as [Hc1 Hcn]. destruct (csat l (world_of wt')) as [|c]; [lia|].
  destruct (length l) as [|n]; [lia|].
  pose proof (Zq_pos c) as Hp. pose proof (Zq_pos n) as Hpn.
  pose proof (Zq_mono (Z.of_nat (S c)) (Z.of_nat (S n)) ltac:(lia)) as Hle.
  pose proof (Zq_mono 1 (Z.of_nat (S c)) ltac:(lia)) as Hle1. change (Zq 1) with 1%Qc in Hle1.
  split; [by apply recip_le|]. change 1%Qc with (1 / 1)%Qc at 2. by apply recip_le.
Qed.

(** Each round adds at least one over the number of clauses. *)
Lemma stopping_rule_spec (bound : Qc) (fuel : nat) (N : Z) (Ssum : Qc) (s : sim) :
  sim_ok W l ps (sim_wt s) ->
  (bound <= Ssum + Zq (Z.of_nat fuel) * (1 / Zq (Z.of_nat (length l))))%Qc ->
  exists N' S' s', stopping_rule rand l ps fuel bound N Ssum s = Some (N', S', s') /\
    sim_ok W l ps (sim_wt s') /\ (bound <= S')%Qc /\ (N <= N' <= N + Z.of_nat fuel)%Z /\
    (S' - Ssum <= Zq (N' - N))%Qc.
Proof.
  revert N Ssum s. induction fuel as [|fuel IH]; intros N Ssum s Hok Hb; cbn [stopping_rule].
  - change (Zq (Z.of_nat 0)) with 0%Qc in Hb. rewrite Qcmult_0_l, Qcplus_0_r in Hb.
    destruct (decide (Ssum < bound)%Qc) as [Hlt|]; [by apply Qcle_not_lt in Hb|].
    exists N, Ssum, s. rewrite Z.sub_diag. change (Zq 0) with 0%Qc.
    split_and!; [done|done|done|lia|lia|]. clear. qc_lra.
  - destruct (decide (Ssum < bound)%Qc) as [Hlt|Hge].
    2: { exists N, Ssum, s. rewrite Z.sub_diag. change (Zq 0) with 0%Qc.
         split_and!; [done|done|by apply Qcnot_lt_le|lia|lia|]. clear. qc_lra. }
    destruct (estimate_spec s Hok) as (x & s1 & -> & Hok1 & Hx1 & Hx2). cbn [mbind option_bind].
    destruct (IH (N + 1)%Z (Ssum + x)%Qc s1 Hok1) as (N' & S' & s' & Hs & Hok' & Hb' & HN & HS).
    + rewrite Zq_S in Hb. revert Hb Hx1. clear.
      generalize (Zq (Z.of_nat fuel)) (1 / Zq (Z.of_nat (length l)))%Qc. intros a b.
      replace ((a + 1) * b)%Qc with (a * b + b)%Qc by ring. generalize (a * b)%Qc. intros. qc_lra.
    + exists N', S', s'. split_and!; [done|done|done|lia|lia|].
      assert (Hz : Zq (N' - N) = (Zq (N' - (N + 1)) + 1)%Qc).
      { replace (N' - N)%Z with (Z.of_nat (S (Z.to_nat (N' - (N + 1))))) by lia.
        rewrite Zq_S. by rewrite Z2Nat.id by lia. }
      rewrite Hz. revert HS Hx2. clear. generalize (Zq (N' - (N + 1))). intros z. intros. qc_lra.
Qed.

Lemma variance_loop_spec (n : nat) (s : sim) :
  sim_ok W l ps (sim_wt s) ->
  exists S2 s', variance_loop rand l ps n s = Some (S2, s') /\ sim_ok W l ps (sim_wt s').
Proof.
  intros Hok. unfold variance_loop.
  destruct (for_upto_inv (fun _ (r : Qc * sim) => sim_ok W l ps (sim_wt r.2)) n
    (fun _ '(Ssum, s) => '(x, s) ← estimate rand l ps s; '(y, s) ← estimate rand l ps s;
       Some ((Ssum + (x - y) * (x - y) / q 2)%Qc, s)) (0%Qc, s)) as ([S2 s'] & H & Hok'); [done| |eauto].
  intros i [S1 s1] _ H1. simpl in H1.
  destruct (estimate_spec s1 H1) as (x & s2 & E2 & H2 & _). rewrite E2. cbn [mbind option_bind].
  destruct (estimate_spec s2 H2) as (y & s3 & E3 & H3 & _). rewrite E3. cbn [mbind option_bind].
  eexists. split; [done|]. done.
Qed.

(** A mean of [n] estimates lies between zero and [n]. *)
Lemma mean_loop_spec (n : nat) (s : sim) :
  sim_ok W l ps (sim_wt s) ->
  exists S3 s', mean_loop rand l ps n s = Some (S3, s') /\ sim_ok W l ps (sim_wt s') /\
    (0 <= S3)%Qc /\ (S3 <= Zq (Z.of_nat n))%Qc.
Proof.
  intros Hok. unfold mean_loop.
  destruct (for_upto_inv (fun i (r : Qc * sim) => sim_ok W l ps (sim_wt r.2) /\
      (0 <= r.1)%Qc /\ (r.1 <= Zq (Z.of_nat i))%Qc) n
    (fun _ '(Ssum, s) => '(x, s) ← estimate rand l ps s; Some ((Ssum + x)%Qc, s)) (0%Qc, s))
    as ([S3 s'] & H & Hok' & H0 & Hn); [done| |by exists S3, s'].
  intros i [S1 s1] _ (H1 & H0 & Hi). simpl in *.
  destruct (estimate_spec s1 H1) as (x & s2 & E2 & H2 & Hx1 & Hx2). rewrite E2.
  cbn [mbind option_bind]. eexists. split; [done|]. simpl. rewrite Zq_S. split; [done|].
  assert (Hx0 : (0 <= x)%Qc).
  { eapply Qcle_trans; [|exact Hx1]. pose proof (sm_some _ _ _ _ Hok) as Hl.
    destruct l as [|w l']; [done|]. simpl length. pose proof (Zq_pos (length l')) as Hp.
    by apply Qclt_le_weak, recip_pos. }
  revert H0 Hi Hx0 Hx2. generalize (Zq (Z.of_nat i)). clear. intros z. intros. split; qc_lra.
Qed.

(** The whole algorithm returns a result when the fuel covers step 1. *)
Lemma AA_algorithm_spec (log sqrt : Qc -> option Qc) (epsilon delta bound u2 : Qc) (fuel : nat) (s : sim) :
  sim_ok W l ps (sim_wt s) -> (0 < epsilon)%Qc ->
  upsilon1_sra log sqrt epsilon delta = Some bound -> (0 < bound)%Qc ->
  upsilon2 log sqrt epsilon delta = Some u2 -> (0 < u2)%Qc ->
  (bound <= Zq (Z.of_nat fuel) * (1 / Zq (Z.of_nat (length l))))%Qc ->
  exists r s', AA_algorithm rand log sqrt epsilon delta l ps fuel s = Some (r, s') /\
    sim_ok W l ps (sim_wt s').
Proof.
  intros Hok He Hb Hb0 Hu2 Hu0 Hf. unfold AA_algorithm. rewrite Hu2, Hb. cbn [mbind option_bind].
  destruct (stopping_rule_spec bound fuel 0 0%Qc s Hok) as (N1 & S1 & s1 & -> & Hok1 & HS1 & _ & HN1);
    [by rewrite Qcplus_0_l|]. cbn [mbind option_bind].
  assert (HN0 : (0 < Zq N1)%Qc) by (rewrite Z.sub_0_r in HN1; revert HN1; generalize (Zq N1); intros; qc_lra).
  destruct (fdiv_pos bound (Zq N1) Hb0 HN0) as (mu & -> & Hmu). cbn [mbind option_bind].
  destruct (fdiv_pos (u2 * epsilon) mu) as (n2 & -> & _); [by apply Qcmult_pos_pos|done|].
  cbn [mbind option_bind].
  destruct (variance_loop_spec (floor_count (ceil n2)) s1 Hok1) as (S2 & s2 & -> & Hok2).
  cbn [mbind option_bind]. set (rho := match fdiv S2 (ceil n2) with Some m => _ | None => _ end).
  assert (Hrho : (0 < rho)%Qc).
  { pose proof (Qcmult_pos_pos _ _ He Hmu) as Hem. unfold rho. destruct (fdiv S2 (ceil n2)) as [m|]; [|done].
    destruct (decide (epsilon * mu < m)%Qc); [by apply Qclt_trans with (epsilon * mu)%Qc|done]. }
  destruct (fdiv_pos (u2 * rho) (mu * mu)) as (N3 & -> & HN3); [by apply Qcmult_pos_pos..|].
  cbn [mbind option_bind].
  destruct (mean_loop_spec (ceil_count N3) s2 Hok2) as (S3 & s3 & -> & Hok3 & _).
  cbn [mbind option_bind]. destruct (fdiv_nonzero S3 N3 HN3) as (r & ->). cbn [mbind option_bind].
  exists r, s3. by split.
Qed.
End Simulation.

(** ** The final function *)

Section Final.
Context (wt : list worldTableEntry) (l : list WSD) (Hso : store_ok wt l).

Lemma filled_complete (wt' : list worldTableEntry) :
  shape wt' = complete_table wt -> filled_table wt'.
Proof using Hso.
  intros Hs. pose proof (so_entries _ _ Hso) as He. clear Hso. revert wt' Hs.
  induction He as [|e wt0 He _ IH]; intros [|e' wt'] Hs; try done; [constructor|].
  unfold shape, complete_table in Hs. csimpl in Hs. injection Hs as Hv Hd Hs.
  constructor; [|by apply IH]. intros Hnil. rewrite Hnil in Hd. simpl in Hd.
  unfold complete_dist in Hd. pose proof (eo_some _ He) as Hne.
  destruct (decide _); unfold entry_dist in Hd; destruct (rng_entries e); done.
Qed.

Lemma pointer_entry (s' : generalState) (m m' : Map) :
  shape (wt_entries s') = complete_table wt -> map_ref wt m ->
  entry_pointers (wt_entries s') m = Some m' ->
  var m' = var m /\ rng m' = rng m /\ exists k d, wt_entry m' = Some k /\ complete_table wt !! k = Some (var m, d).
Proof.
  intros Hs [(e & He & Hv & _)] Hp. unfold entry_pointers in Hp.
  destruct (wt_entries s' !! wt_offset m); [|done]. injection Hp as <-. split_and!; [done..|].
  eexists _, _. split; [done|]. unfold complete_table. rewrite list_lookup_fmap, He. simpl.
  by rewrite Hv.
Qed.

Lemma pointers_ptr (s' : generalState) (l' : list WSD) :
  shape (wt_entries s') = complete_table wt -> computeEntryPointers s' l = Some l' ->
  Forall (clause_ptr (complete_table wt)) l'.
Proof using Hso.
  intros Hs Hl. unfold computeEntryPointers in Hl. apply mapM_Some in Hl.
  pose proof (so_clauses _ _ Hso) as Hcl. pose proof (so_entries _ _ Hso) as Hent.
  rewrite Forall_forall in Hent. clear Hso. revert Hcl.
  induction Hl as [|w w' l0 l0' Hw _ IH]; intros Hcl; [constructor|].
  apply Forall_cons in Hcl as [[Hnd Hms Hp] Hcl]. constructor; [|by apply IH].
  destruct (mapM _ (data w)) as [d|] eqn:Hd; [|done]. injection Hw as <-.
  apply mapM_Some in Hd.
  assert (Hall : forall m', m' ∈ d -> exists m, m ∈ data w /\ entry_pointers (wt_entries s') m = Some m').
  { clear -Hd. induction Hd as [|m m' ms ms' Hm _ IH]; intros m0; [by intros ?%elem_of_nil|].
    intros [->|Hin]%elem_of_cons; [exists m; split; [apply list_elem_of_here|done]|].
    destruct (IH m0 Hin) as (m1 & ? & ?). exists m1. split; [by apply list_elem_of_further|done]. }
  rewrite Forall_forall in Hms. split; simpl.
  - replace (var <$> d) with (var <$> data w); [done|]. clear -Hd.
    induction Hd as [|m m' ms ms' Hm _ IH]; [done|]. csimpl. rewrite IH. f_equal.
    unfold entry_pointers in Hm. destruct (wt_entries s' !! _); [|done]. by injection Hm as <-.
  - intros m' Hm'. destruct (Hall m' Hm') as (m & Hm & Hep).
    destruct (pointer_entry s' m m' Hs (Hms m Hm) Hep) as (-> & -> & k & d0 & Hk & Hc).
    split; [|by exists k, d0]. destruct (Hms m Hm) as [(e & He & _ & Hrp)].
    destruct (eo_rngs _ (Hent e (list_elem_of_lookup_2 _ _ _ He)) _ _ (list_elem_of_lookup_2 _ _ _ Hrp))
      as [Hr _]. lia.
Qed.
End Final.

(** What [aconf_final] computes before the simulation. *)
Lemma aconf_prepare (s : generalState) (l : list WSD) :
  store_ok (wt_entries s) l -> l <> [] ->
  exists s' l', getMissingRngs s = Some s' /\ computeEntryPointers s' l = Some l' /\
    shape (wt_entries s') = complete_table (wt_entries s) /\ clause_of <$> l' = clause_of <$> l /\
    clauses_ok (complete_table (wt_entries s)) l' /\ Forall (fun w => Forall active (data w)) l' /\
    forall ps, length ps = length l' -> sim_ok (complete_table (wt_entries s)) l' ps (wt_entries s').
Proof.
  intros Hso Hne. destruct (getMissingRngs_spec s (so_entries _ _ Hso)) as (s' & Hg & Hs).
  destruct (computeEntryPointers_spec s' _ l Hs (so_entries _ _ Hso) (so_clauses _ _ Hso))
    as (l' & Hl & Hok & Ha & Hlits & _).
  exists s', l'. split_and!; [done|done|done| |done|done|].
  - rewrite <- Hlits. clear -Ha. induction Ha as [|w ws Hw _ IH]; [done|]. csimpl.
    rewrite <- (lits_active w Hw). by rewrite IH.
  - intros ps Hps. split; [done| |by apply (filled_complete _ l Hso)|by apply (pointers_ptr _ l Hso s')| |done].
    + rewrite <- shape_vars, Hs. unfold complete_table. rewrite <- list_fmap_compose.
      exact (so_vars _ _ Hso).
    + intros ->. apply (f_equal length) in Hlits. rewrite !length_fmap in Hlits. by destruct l.
Qed.

Lemma bag_sum_pos (W : wtable) (l : list WSD) :
  l <> [] -> clauses_ok W l -> (0 < bag_sum l)%Qc.
Proof.
  intros Hne Hok. unfold bag_sum.
  assert (Hgen : forall a, (0 <= a)%Qc -> l <> [] -> (0 < foldl (fun nM w => (nM + wprob w)%Qc) a l)%Qc).
  { clear Hne. induction Hok as [|w l Hw Hok IH]; intros a Ha Hne; [done|]. simpl.
    pose proof (wprob_pos W w Hw) as Hp. destruct l as [|w' l']; [simpl; qc_lra|].
    apply IH; [qc_lra|done]. }
  by apply Hgen.
Qed.

Lemma aconf_final_spec (rand : nat -> Z) (log sqrt : Qc -> option Qc) (fuel pos : nat) (a : aconf_globals)
    (l : list WSD) (bound : Qc) :
  groupcxt (ac_g a) = true -> gS (ac_g a) = Some l -> l <> [] ->
  store_ok (wt_entries (gstate (ac_g a))) l -> log_sqrt_ok log sqrt ->
  (0 < ac_epsilon a)%Qc -> (0 < ac_delta a)%Qc -> (ac_delta a < q 2)%Qc ->
  upsilon1_sra log sqrt (ac_epsilon a) (ac_delta a) = Some bound ->
  (bound <= Zq (Z.of_nat fuel) * (1 / Zq (Z.of_nat (length l))))%Qc ->
  exists r g', aconf_final rand log sqrt fuel pos a = Some (r, g') /\
    groupcxt g' = false /\ gS g' = None.
Proof.
  intros Hg HS Hne Hso Hls He Hd Hd2 Hb Hf. unfold aconf_final. rewrite Hg.
  destruct (aconf_prepare (gstate (ac_g a)) l Hso Hne)
    as (s' & l' & -> & Hl & Hs & Hcl & Hok & _ & Hsim).
  cbn [mbind option_bind]. rewrite HS. cbn [mbind option_bind]. rewrite Hl. cbn [mbind option_bind].
  set (ps := (fun w => (wprob w / bag_sum l')%Qc) <$> l').
  assert (Hlen : length l' = length l)
    by (apply (f_equal length) in Hcl; by rewrite !length_fmap in Hcl).
  destruct (upsilon1_sra_pos log sqrt Hls _ _ He Hd Hd2) as (bound' & Hb' & Hb0).
  rewrite Hb in Hb'. injection Hb' as <-.
  destruct (upsilon2_pos log sqrt Hls _ _ He Hd Hd2) as (u2 & Hu2 & Hu0).
  destruct (AA_algorithm_spec rand (complete_table (wt_entries (gstate (ac_g a)))) l' ps log sqrt
    (ac_epsilon a) (ac_delta a) bound u2 fuel (mk_sim (wt_entries s') pos)) as (r & s2 & -> & _); try done.
  - apply Hsim. unfold ps. by rewrite length_fmap.
  - by rewrite Hlen.
  - cbn [mbind option_bind]. eexists _, _. by split.
Qed.

(** The estimator that the simulation averages is unbiased. *)
Theorem aconf_unbiased (s : generalState) (l : list WSD) :
  l <> [] -> store_ok (wt_entries s) l ->
  exists s' l', getMissingRngs s = Some s' /\ computeEntryPointers s' l = Some l' /\
    (expected_estimate l' ((fun w => (wprob w / bag_sum l')%Qc) <$> l') (wt_entries s') * bag_sum l')%Qc
    = Pr (complete_table (wt_entries s)) (sat_dnf (clause_of <$> l)).
Proof.
  intros Hne Hso.
  destruct (aconf_prepare s l Hso Hne) as (s' & l' & Hg & Hl & Hs & Hcl & Hok & Ha & Hsim).
  exists s', l'. split_and!; [done|done|].
  pose proof (complete_table_ok _ (so_vars _ _ Hso) (so_entries _ _ Hso)) as [HW _].
  destruct (Hsim ((fun w => (wprob w / bag_sum l')%Qc) <$> l')) as [H1 H2 H3 H4 H5 H6];
    [by rewrite length_fmap|].
  rewrite expected_estimate_spec; [by rewrite Hs, Hcl|done|by rewrite Hs|by rewrite Hs| |].
  - intros w Hw. rewrite Hs. rewrite Forall_forall in Ha. rewrite <- lits_active by (by apply Ha).
    symmetry. apply wsd_prob; [done|]. unfold clauses_ok in Hok. rewrite Forall_forall in Hok. by apply Hok.
  - pose proof (bag_sum_pos _ l' H5 Hok) as Hp. intros H0. by rewrite H0 in Hp.
Qed.
