(* ===== verification/Sort.v ===== *)
(** * Sort: the quicksort of the clauses ([d-tree.c])

    [conf_appro_final_ge] sorts the clause array by decreasing probability before
    it builds a decomposition tree, with the median of medians as the pivot.
    Indices are C [int]s, here [Z] ([right] is [left - 1] for an empty range);
    an access outside of the array is [None]. *)
From S2P Require Import Prelude.
From S2P Require Import Bitset.
From S2P Require Import Worlds.
From S2P Require Import LocalCond.

Definition get (array : list WSD) (i : Z) : option WSD :=
  if (i <? 0)%Z then None else array !! Z.to_nat i.

Definition swap (array : list WSD) (a b : Z) : option (list WSD) :=
  tmp ← get array a;
  xb ← get array b;
  Some (<[Z.to_nat b := tmp]> (<[Z.to_nat a := xb]> array)).

(** The values of [i] in [for (i = lo; i <= hi; i += st)]. *)
Definition stepping (lo hi st : Z) : list Z :=
  (fun k => (lo + Z.of_nat k * st)%Z) <$> seq 0 (Z.to_nat ((hi - lo) / st + 1)).

(** The inner loop: the position of the greatest probability from [i] on. *)
Definition find_min_index (array : list WSD) (i right shift : Z) : option Z :=
  w ← get array i;
  fst <$> for_list (stepping i right shift)
    (fun j '(minIndex, minValue) =>
       w ← get array j;
       Some (if decide (minValue < wprob w)%Qc then (j, wprob w) else (minIndex, minValue)))
    (i, wprob w).

(** The median position and the partially sorted array. *)
Definition findMedianIndex (array : list WSD) (left right shift : Z) : option (Z * list WSD) :=
  let groups := ((right - left) / shift + 1)%Z in
  let k := (left + groups / 2 * shift)%Z in
  array ← for_list (stepping left k shift)
            (fun i array => minIndex ← find_min_index array i right shift; swap array i minIndex)
            array;
  Some (k, array).

(** One round of [while (shift <= (right - left))]. *)
Definition median_round (array : list WSD) (left right shift : Z) : option (list WSD) :=
  for_list (stepping left right (shift * 5))
    (fun i array =>
       let endIndex := if (i + shift * 5 - 1 <? right)%Z then (i + shift * 5 - 1)%Z else right in
       '(medianIndex, array) ← findMedianIndex array i endIndex shift;
       swap array i medianIndex) array.

Fixpoint median_loop (fuel : nat) (array : list WSD) (left right shift : Z) : option (list WSD) :=
  match fuel with
  | 0 => None
  | S fuel =>
      if (shift <=? right - left)%Z then
        array ← median_round array left right shift;
        median_loop fuel array left right (shift * 5)
      else Some array
  end.

(** Its result, the probability of the median, is not used. *)
Definition findMedianOfMedians (array : list WSD) (left right : Z) : option (prob * list WSD) :=
  array ← (if (left =? right)%Z then Some array
           else median_loop (S (Z.to_nat (right - left + 1))) array left right 1);
  w ← get array left;
  Some (wprob w, array).

Definition partition (array : list WSD) (left right : Z) : option (Z * list WSD) :=
  '(_, array) ← findMedianOfMedians array left right;
  w ← get array left;
  let pivotValue := wprob w in
  array ← swap array left right;
  '(index, array) ←
     for_list (stepping left (right - 1) 1)
       (fun i '(index, array) =>
          w ← get array i;
          if decide (pivotValue < wprob w)%Qc then
            array ← swap array i index; Some ((index + 1)%Z, array)
          else Some (index, array)) (left, array);
  array ← swap array right index;
  Some (index, array).

Fixpoint quicksort (fuel : nat) (array : list WSD) (left right : Z) : option (list WSD) :=
  match fuel with
  | 0 => None
  | S fuel =>
      if (right <=? left)%Z then Some array
      else
        '(index, array) ← partition array left right;
        array ← quicksort fuel array left (index - 1);
        quicksort fuel array (index + 1) right
  end.

(** ** Permutations of a range *)

(** [a'] is [a] with the elements between positions [l] and [r] rearranged. *)
Record permutes (l r : Z) (a a' : list WSD) : Prop := {
  pm_perm : a' ≡ₚ a;
  pm_out : forall k : nat, ~ (l <= Z.of_nat k <= r)%Z -> a' !! k = a !! k;
  pm_in : forall P : WSD -> Prop,
    (forall (k : nat) x, (l <= Z.of_nat k <= r)%Z -> a !! k = Some x -> P x) ->
    forall (k : nat) x, (l <= Z.of_nat k <= r)%Z -> a' !! k = Some x -> P x }.

Lemma permutes_refl (l r : Z) (a : list WSD) : permutes l r a a.
Proof. by split. Qed.

Lemma permutes_trans (l r : Z) (a b c : list WSD) :
  permutes l r a b -> permutes l r b c -> permutes l r a c.
Proof.
  intros [H1 H2 H3] [G1 G2 G3]. split; [by rewrite G1|intros; rewrite G2, H2; done|].
  intros P HP. by apply G3, H3.
Qed.

Lemma permutes_length (l r : Z) (a b : list WSD) : permutes l r a b -> length b = length a.
Proof. intros [H _ _]. by rewrite H. Qed.

(** A rearrangement of a part is one of the whole. *)
Lemma permutes_weaken (l r l' r' : Z) (a b : list WSD) :
  (l' <= l)%Z -> (r <= r')%Z -> permutes l r a b -> permutes l' r' a b.
Proof.
  intros Hl Hr [H1 H2 H3]. split; [done|intros k Hk; apply H2; lia|].
  intros P HP k x Hk Hx. destruct (decide (l <= Z.of_nat k <= r)%Z) as [Hin|Hin].
  - apply (H3 P) with k; [|done..]. intros j y Hj. apply HP. lia.
  - rewrite H2 in Hx by done. by apply (HP k).
Qed.

Lemma get_some (a : list WSD) (i : Z) :
  (0 <= i < Z.of_nat (length a))%Z -> exists w, get a i = Some w /\ a !! Z.to_nat i = Some w.
Proof.
  intros Hi. unfold get. destruct (Z.ltb_spec i 0%Z); [lia|].
  destruct (lookup_lt_is_Some_2 a (Z.to_nat i)) as [w Hw]; [lia|]. by exists w.
Qed.

Lemma swap_spec (l r : Z) (a : list WSD) (i j : Z) :
  (0 <= l)%Z -> (r < Z.of_nat (length a))%Z -> (l <= i <= r)%Z -> (l <= j <= r)%Z ->
  exists a', swap a i j = Some a' /\ permutes l r a a' /\
    a' !! Z.to_nat i = a !! Z.to_nat j /\ a' !! Z.to_nat j = a !! Z.to_nat i /\
    forall k, k <> Z.to_nat i -> k <> Z.to_nat j -> a' !! k = a !! k.
Proof.
  intros Hl Hr Hi Hj. unfold swap.
  destruct (get_some a i) as (x & -> & Hx); [lia|]. destruct (get_some a j) as (y & -> & Hy); [lia|].
  simpl. eexists. split; [done|].
  assert (Hlt : Z.to_nat i < length a /\ Z.to_nat j < length a) by lia.
  assert (Hi' : <[Z.to_nat j:=x]> (<[Z.to_nat i:=y]> a) !! Z.to_nat i = a !! Z.to_nat j).
  { destruct (decide (Z.to_nat j = Z.to_nat i)) as [He|Hne].
    - rewrite He, list_lookup_insert_eq by (rewrite length_insert; lia). congruence.
    - rewrite list_lookup_insert_ne, list_lookup_insert_eq by lia. done. }
  assert (Hj' : <[Z.to_nat j:=x]> (<[Z.to_nat i:=y]> a) !! Z.to_nat j = a !! Z.to_nat i).
  { rewrite list_lookup_insert_eq by (rewrite length_insert; lia). done. }
  assert (Ho : forall k, k <> Z.to_nat i -> k <> Z.to_nat j ->
    <[Z.to_nat j:=x]> (<[Z.to_nat i:=y]> a) !! k = a !! k)
    by (intros k ? ?; by rewrite !list_lookup_insert_ne).
  split_and!; [split|done..].
  - by apply Permutation_insert_swap.
  - intros k Hk. apply Ho; lia.
  - intros P HP k z Hk Hz. destruct (decide (k = Z.to_nat i)) as [->|H1].
    { rewrite Hi' in Hz. apply (HP (Z.to_nat j) z); [lia|done]. }
    destruct (decide (k = Z.to_nat j)) as [->|H2].
    { rewrite Hj' in Hz. apply (HP (Z.to_nat i) z); [lia|done]. }
    rewrite Ho in Hz by done. by apply (HP k).
Qed.

Lemma stepping_in (lo hi st i : Z) :
  (0 < st)%Z -> i ∈ stepping lo hi st -> (lo <= i <= hi)%Z.
Proof.
  intros Hst (k & -> & Hk%elem_of_seq)%list_elem_of_fmap.
  pose proof (Z.mul_div_le (hi - lo)%Z st Hst). nia.
Qed.

(** A loop whose body rearranges the range rearranges the range. *)
Lemma for_permutes (l r : Z) (ixs : list Z) (body : Z -> list WSD -> option (list WSD)) (a : list WSD) :
  (forall i b, i ∈ ixs -> permutes l r a b -> exists b', body i b = Some b' /\ permutes l r b b') ->
  exists a', for_list ixs body a = Some a' /\ permutes l r a a'.
Proof.
  intros Hb. apply (for_list_inv (fun _ b => permutes l r a b)); [apply permutes_refl|].
  intros l1 i l2 b -> Hp. destruct (Hb i b) as (b' & Hb' & Hp'); [set_solver|done|].
  exists b'. split; [done|]. by eapply permutes_trans.
Qed.

(** ** The median of medians *)

Lemma find_min_index_spec (a : list WSD) (i right shift : Z) :
  (0 <= i <= right)%Z -> (right < Z.of_nat (length a))%Z -> (0 < shift)%Z ->
  exists m, find_min_index a i right shift = Some m /\ (i <= m <= right)%Z.
Proof.
  intros Hi Hr Hs. unfold find_min_index. destruct (get_some a i) as (w & -> & _); [lia|]. simpl.
  edestruct (for_list_inv (fun _ (mv : Z * Qc) => (i <= mv.1 <= right)%Z) (stepping i right shift))
    as ([m v] & Hm & Hb); [| |exists m; split; [by rewrite Hm|exact Hb]].
  - simpl. lia.
  - intros l1 j l2 [m v] Hst Hm.
    assert (j ∈ stepping i right shift) as Hj%stepping_in by (rewrite Hst; set_solver); [|done].
    destruct (get_some a j) as (wj & -> & _); [lia|]. simpl.
    eexists. split; [done|]. destruct (decide _); simpl in *; lia.
Qed.

Lemma findMedianIndex_spec (a : list WSD) (left right shift : Z) :
  (0 <= left <= right)%Z -> (right < Z.of_nat (length a))%Z -> (0 < shift)%Z ->
  exists k a', findMedianIndex a left right shift = Some (k, a') /\ (left <= k <= right)%Z /\
    permutes left right a a'.
Proof.
  intros Hl Hr Hs. unfold findMedianIndex.
  assert (Hk : (left <= left + ((right - left) / shift + 1) / 2 * shift <= right)%Z).
  { pose proof (Z.div_pos (right - left)%Z shift ltac:(lia) Hs).
    pose proof (Z.mul_div_le (right - left)%Z shift Hs).
    assert (0 <= ((right - left) / shift + 1) / 2 <= (right - left) / shift)%Z.
    { split; [apply Z.div_pos; lia|]. destruct (decide ((right - left) / shift = 0)%Z) as [->|];
        [done|]. apply Z.div_le_upper_bound; lia. }
    nia. }
  destruct (for_permutes left right
    (stepping left (left + ((right - left) / shift + 1) / 2 * shift) shift)
    (fun i array => minIndex ← find_min_index array i right shift; swap array i minIndex) a)
    as (a' & -> & Hp).
  { intros i b Hi Hb. apply stepping_in in Hi; [|done]. pose proof (permutes_length _ _ _ _ Hb).
    destruct (find_min_index_spec b i right shift) as (m & -> & Hm); [lia..|].
    cbn [mbind option_bind].
    destruct (swap_spec left right b i m) as (b' & -> & Hp & _); [lia..|]. by exists b'. }
  cbn [mbind option_bind]. eexists _, a'. split_and!; [done|lia|lia|done].
Qed.

Lemma median_round_spec (a : list WSD) (left right shift : Z) :
  (0 <= left <= right)%Z -> (right < Z.of_nat (length a))%Z -> (0 < shift)%Z ->
  exists a', median_round a left right shift = Some a' /\ permutes left right a a'.
Proof.
  intros Hl Hr Hs. unfold median_round. apply for_permutes.
  intros i b Hi Hb. apply stepping_in in Hi; [|lia]. pose proof (permutes_length _ _ _ _ Hb).
  set (e := if (i + shift * 5 - 1 <? right)%Z then (i + shift * 5 - 1)%Z else right).
  assert (He : (i <= e <= right)%Z) by (unfold e; destruct (Z.ltb_spec (i + shift * 5 - 1)%Z right); lia).
  destruct (findMedianIndex_spec b i e shift) as (k & b1 & -> & Hk & Hp1); [lia..|].
  cbn [mbind option_bind]. pose proof (permutes_length _ _ _ _ Hp1).
  destruct (swap_spec left right b1 i k) as (b2 & -> & Hp2 & _); [lia..|]. exists b2. split; [done|].
  eapply permutes_trans; [|exact Hp2]. eapply permutes_weaken; [| |exact Hp1]; lia.
Qed.

Lemma median_loop_spec (fuel : nat) (a : list WSD) (left right shift : Z) :
  (0 <= left <= right)%Z -> (right < Z.of_nat (length a))%Z -> (0 < shift)%Z ->
  (right - left < shift + Z.of_nat fuel)%Z ->
  exists a', median_loop (S fuel) a left right shift = Some a' /\ permutes left right a a'.
Proof.
  revert a shift. induction fuel as [|fuel IH]; intros a shift Hl Hr Hs Hf; cbn [median_loop];
    destruct (Z.leb_spec shift (right - left)%Z); [lia|exists a; split; [done|apply permutes_refl]| |
      exists a; split; [done|apply permutes_refl]].
  destruct (median_round_spec a left right shift) as (b & -> & Hb); [lia..|]. cbn [mbind option_bind].
  pose proof (permutes_length _ _ _ _ Hb).
  destruct (IH b (shift * 5)%Z) as (c & Hc & Hp); [lia..|]. exists c. split; [exact Hc|].
  by eapply permutes_trans.
Qed.

Lemma findMedianOfMedians_spec (a : list WSD) (left right : Z) :
  (0 <= left <= right)%Z -> (right < Z.of_nat (length a))%Z ->
  exists p a', findMedianOfMedians a left right = Some (p, a') /\ permutes left right a a'.
Proof.
  intros Hl Hr. unfold findMedianOfMedians.
  assert (exists b, (if (left =? right)%Z then Some a
      else median_loop (S (Z.to_nat (right - left + 1))) a left right 1) = Some b /\ permutes left right a b) as (b & -> & Hb).
  { destruct (Z.eqb_spec left right); [exists a; split; [done|apply permutes_refl]|].
    apply median_loop_spec; lia. }
  cbn [mbind option_bind]. pose proof (permutes_length _ _ _ _ Hb).
  destruct (get_some b left) as (w & -> & _); [lia|]. cbn [mbind option_bind]. by exists (wprob w), b.
Qed.

(** ** Partitioning *)

(** Every element of the range satisfies [P]. *)
Definition all_in (l r : Z) (P : WSD -> Prop) (a : list WSD) : Prop :=
  forall (k : nat) x, (l <= Z.of_nat k <= r)%Z -> a !! k = Some x -> P x.

(** The loop invariant: greater elements up to [index], the others up to [i],
    the pivot at the end. *)
Record part_inv (left right : Z) (p : prob) (a0 : list WSD) (i index : Z) (a : list WSD) : Prop := {
  pi_perm : permutes left right a0 a;
  pi_index : (left <= index <= i)%Z;
  pi_great : all_in left (index - 1) (fun w => p < wprob w)%Qc a;
  pi_less : all_in index (i - 1) (fun w => wprob w <= p)%Qc a;
  pi_pivot : exists w, a !! Z.to_nat right = Some w /\ wprob w = p }.

Lemma part_step (left right : Z) (p : prob) (a0 : list WSD) (i index : Z) (a : list WSD) :
  (0 <= left)%Z -> (left <= i < right)%Z -> (right < Z.of_nat (length a0))%Z ->
  part_inv left right p a0 i index a ->
  exists index' a',
    (w ← get a i; if decide (p < wprob w)%Qc then a' ← swap a i index; Some ((index + 1)%Z, a')
                  else Some (index, a)) = Some (index', a') /\ part_inv left right p a0 (i + 1) index' a'.
Proof.
  intros Hl Hi Hr [Hp Hx Hg Hs (wp & Hw & Hwp)]. pose proof (permutes_length _ _ _ _ Hp) as Hlen.
  destruct (get_some a i) as (w & -> & Hwi); [lia|]. cbn [mbind option_bind].
  destruct (decide (p < wprob w)%Qc) as [Hlt|Hge].
  - destruct (swap_spec left right a i index) as (b & -> & Hpb & Hbi & Hbx & Hbo); [lia..|].
    cbn [mbind option_bind]. exists (index + 1)%Z, b. split; [done|]. split.
    + by eapply permutes_trans.
    + lia.
    + intros k x Hk Hkx. destruct (decide (k = Z.to_nat index)) as [->|Hne].
      { rewrite Hbx, Hwi in Hkx. by injection Hkx as <-. }
      rewrite Hbo in Hkx by lia. apply (Hg k); [lia|done].
    + intros k x Hk Hkx. destruct (decide (k = Z.to_nat i)) as [->|Hne].
      { rewrite Hbi in Hkx. destruct (decide (index = i)) as [->|]; [lia|].
        apply (Hs (Z.to_nat index)); [lia|done]. }
      rewrite Hbo in Hkx by lia. apply (Hs k); [lia|done].
    + exists wp. rewrite Hbo by lia. done.
  - exists index, a. split; [done|]. split; [done|lia|done| |by exists wp].
    intros k x Hk Hkx. destruct (decide (k = Z.to_nat i)) as [->|Hne]; [|apply (Hs k); [lia|done]].
    rewrite Hwi in Hkx. injection Hkx as <-. by apply Qcnot_lt_le.
Qed.

Lemma stepping_one (lo hi : Z) :
  stepping lo hi 1 = (fun k => (lo + Z.of_nat k)%Z) <$> seq 0 (Z.to_nat (hi - lo + 1)).
Proof.
  unfold stepping. rewrite Z.div_1_r. apply list_fmap_ext. intros i k _. lia.
Qed.

Lemma part_loop_spec (left right : Z) (p : prob) (a0 a : list WSD) :
  (0 <= left <= right)%Z -> (right < Z.of_nat (length a0))%Z ->
  part_inv left right p a0 left left a ->
  exists index a',
    for_list (stepping left (right - 1) 1)
      (fun i '(index, array) =>
          w ← get array i;
          if decide (p < wprob w)%Qc then
            array ← swap array i index; Some ((index + 1)%Z, array)
          else Some (index, array)) (left, a) = Some (index, a') /\ part_inv left right p a0 right index a'.
Proof.
  intros Hl Hr H0. rewrite stepping_one.
  edestruct (for_list_inv (fun l (ia : Z * list WSD) =>
      part_inv left right p a0 (left + Z.of_nat (length l)) ia.1 ia.2)
    ((fun k => (left + Z.of_nat k)%Z) <$> seq 0 (Z.to_nat (right - 1 - left + 1))))
    as ([index a'] & Hf & Hinv);
    [| |exists index, a'; split; [exact Hf|]].
  - simpl. by rewrite Z.add_0_r.
  - intros l1 i l2 [index b] Hsplit Hinv. simpl in Hinv.
    assert (i = (left + Z.of_nat (length l1))%Z /\ (i < right)%Z) as [Hi Hir].
    { pose proof (f_equal (fun l => l !! length l1) Hsplit) as Hlk.
      simpl in Hlk. rewrite lookup_app_r, Nat.sub_diag in Hlk by lia. simpl in Hlk.
      rewrite list_lookup_fmap in Hlk.
      destruct (seq _ _ !! _) as [n|] eqn:Hn; [|done]. apply lookup_seq in Hn as [-> Hn].
      simpl in Hlk. injection Hlk as <-. lia. }
    rewrite <- Hi in Hinv.
    destruct (part_step left right p a0 i index b) as (x' & b' & -> & Hinv'); [lia..|done|].
    eexists. split; [done|]. rewrite length_app. simpl.
    replace (left + Z.of_nat (length l1 + 1))%Z with (i + 1)%Z by lia. done.
  - rewrite length_fmap, length_seq in Hinv. simpl in Hinv.
    by replace (left + Z.of_nat (Z.to_nat (right - 1 - left + 1)))%Z with right in Hinv by lia.
Qed.

(** The contract of a partitioning step. *)
Record partitioned (left right index : Z) (a a' : list WSD) (p : prob) : Prop := {
  pt_perm : permutes left right a a';
  pt_index : (left <= index <= right)%Z;
  pt_great : all_in left (index - 1) (fun w => p < wprob w)%Qc a';
  pt_pivot : exists w, a' !! Z.to_nat index = Some w /\ wprob w = p;
  pt_less : all_in (index + 1) right (fun w => wprob w <= p)%Qc a' }.

Lemma partition_spec (a : list WSD) (left right : Z) :
  (0 <= left < right)%Z -> (right < Z.of_nat (length a))%Z ->
  exists index a' p, partition a left right = Some (index, a') /\ partitioned left right index a a' p.
Proof.
  intros Hl Hr. unfold partition.
  destruct (findMedianOfMedians_spec a left right) as (p0 & b & -> & Hb); [lia..|].
  cbn [mbind option_bind]. pose proof (permutes_length _ _ _ _ Hb).
  destruct (get_some b left) as (w & -> & Hw); [lia|]. cbn [mbind option_bind].
  destruct (swap_spec left right b left right) as (c & -> & Hc & _ & Hcr & _); [lia..|].
  cbn [mbind option_bind]. rewrite Hw in Hcr.
  assert (Hac : permutes left right a c) by (by eapply permutes_trans).
  destruct (part_loop_spec left right (wprob w) a c) as (index & d & -> & [Hd Hx Hg Hs (wp & Hwp & Hpp)]);
    [lia..| |].
  { split; [done|lia|intros k x; lia|intros k x; lia|by exists w]. }
  cbn [mbind option_bind]. pose proof (permutes_length _ _ _ _ Hd).
  destruct (swap_spec left right d right index) as (e & -> & He & Her & Hex & Heo); [lia..|].
  cbn [mbind option_bind]. exists index, e, (wprob w). split; [done|]. split.
  - by eapply permutes_trans.
  - lia.
  - intros k x Hk Hkx. rewrite Heo in Hkx by lia. apply (Hg k); [lia|done].
  - exists wp. by rewrite Hex.
  - intros k x Hk Hkx. destruct (decide (k = Z.to_nat right)) as [->|Hne].
    + rewrite Her in Hkx. apply (Hs (Z.to_nat index)); [lia|done].
    + rewrite Heo in Hkx by lia. apply (Hs k); [lia|done].
Qed.

(** ** The sort *)

Definition descending (l r : Z) (a : list WSD) : Prop :=
  forall (i j : nat) x y, (l <= Z.of_nat i)%Z -> i < j -> (Z.of_nat j <= r)%Z ->
    a !! i = Some x -> a !! j = Some y -> (wprob y <= wprob x)%Qc.

Lemma descending_outside (l r l' r' : Z) (a b : list WSD) :
  permutes l' r' a b -> (r < l' \/ r' < l)%Z -> descending l r a -> descending l r b.
Proof.
  intros [_ Ho _] Hd Ha i j x y Hi Hij Hj Hx Hy. rewrite Ho in Hx, Hy by lia. by apply (Ha i j).
Qed.

(** Sorted parts around a pivot are sorted. *)
Lemma descending_join (l r index : Z) (a : list WSD) (p : prob) :
  (0 <= l <= index)%Z ->
  all_in l (index - 1) (fun w => p < wprob w)%Qc a ->
  (exists w, a !! Z.to_nat index = Some w /\ wprob w = p) ->
  all_in (index + 1) r (fun w => wprob w <= p)%Qc a ->
  descending l (index - 1) a -> descending (index + 1) r a -> descending l r a.
Proof.
  intros Hl Hg (w & Hw & <-) Hs D1 D2 i j x y Hi Hij Hj Hx Hy.
  assert (Hge : (Z.of_nat i <= index)%Z -> (wprob w <= wprob x)%Qc).
  { intros Hle. destruct (decide (i = Z.to_nat index)) as [->|]; [|apply Qclt_le_weak, (Hg i); [lia|done]].
    rewrite Hw in Hx. injection Hx as ->. apply Qcle_refl. }
  assert (Hle : (index <= Z.of_nat j)%Z -> (wprob y <= wprob w)%Qc).
  { intros Hle. destruct (decide (j = Z.to_nat index)) as [->|]; [|apply (Hs j); [lia|done]].
    rewrite Hw in Hy. injection Hy as ->. apply Qcle_refl. }
  destruct (Z.lt_ge_cases (Z.of_nat j) index); [apply (D1 i j); (lia || done)|].
  destruct (Z.lt_ge_cases index (Z.of_nat i)); [apply (D2 i j); (lia || done)|].
  eapply Qcle_trans; [apply Hle|apply Hge]; lia.
Qed.

Lemma quicksort_range (fuel : nat) (a : list WSD) (left right : Z) :
  (0 <= left)%Z -> (right < Z.of_nat (length a))%Z -> (right - left < Z.of_nat fuel)%Z ->
  exists a', quicksort (S fuel) a left right = Some a' /\ permutes left right a a' /\ descending left right a'.
Proof.
  revert a left right. induction fuel as [|fuel IH]; intros a left right Hl Hr Hf;
    cbn [quicksort]; destruct (Z.leb_spec right left) as [Hle|Hlt];
    try (exists a; split_and!; [done|apply permutes_refl|intros i j; lia]); [lia|].
  destruct (partition_spec a left right) as (index & b & p & -> & [Hp Hx Hg Hv Hs]); [lia..|].
  cbn [mbind option_bind]. pose proof (permutes_length _ _ _ _ Hp).
  destruct (IH b left (index - 1)%Z) as (c & Hc & Hpc & Hdc); [lia..|].
  cbn [quicksort] in Hc |- *. rewrite Hc. cbn [mbind option_bind].
  pose proof (permutes_length _ _ _ _ Hpc).
  destruct (IH c (index + 1)%Z right) as (d & Hd & Hpd & Hdd); [lia..|].
  cbn [quicksort] in Hd. rewrite Hd. exists d. split; [done|]. split.
  - eapply permutes_trans; [exact Hp|]. eapply permutes_trans.
    + eapply permutes_weaken; [| |exact Hpc]; lia.
    + eapply permutes_weaken; [| |exact Hpd]; lia.
  - apply (descending_join left right index d p); [lia| | | | |done].
    + intros k x Hk Hkx. rewrite (pm_out _ _ _ _ Hpd) in Hkx by lia.
      exact (pm_in _ _ _ _ Hpc _ Hg k x Hk Hkx).
    + destruct Hv as (w & Hw & Hpw). exists w.
      rewrite (pm_out _ _ _ _ Hpd), (pm_out _ _ _ _ Hpc) by lia. done.
    + refine (pm_in _ _ _ _ Hpd _ _). intros k x Hk Hkx. rewrite (pm_out _ _ _ _ Hpc) in Hkx by lia.
      exact (Hs k x Hk Hkx).
    + eapply descending_outside; [exact Hpd|lia|done].
Qed.
