(* ===== verification/DTree.v ===== *)
(** * DTree: approximate confidence by decomposition trees ([d-tree.c])

    The bucketing bounds, the variable heuristic, the union that removes subsumed
    clauses, the sort of the clauses, the exact and the approximate recursion and
    the final function.  The partitioning and conditioning functions that the file
    shares textually with [ws-tree.c] are those of [WsTree]; its own
    [find_wsds_with_var_rng], which drops every matching map, is defined here. *)
From Stdlib Require Strings.String Strings.Ascii.
Import Stdlib.Strings.Ascii.AsciiSyntax.
From S2P Require Import Prelude.
From S2P Require Import Bitset.
From S2P Require Import Worlds.
From S2P Require Import LocalCond.
From S2P Require Import Sort.
From S2P Require WsTree.

(** ** Functions that the file has in common with [ws-tree.c] *)

Definition compare_map := WsTree.compare_map.
Definition wsd_ind := WsTree.wsd_ind.
Definition dfs := WsTree.dfs.
Definition find_independent_split := WsTree.find_independent_split.
Definition find_wsds_without_var := WsTree.find_wsds_without_var.
Definition reset_wsds_var_rng := WsTree.reset_wsds_var_rng.

(** ** Bucketing *)

Record bucket_info := mk_bucket {
  bk_capacity : nat;
  bk_vars : list Z;
  bk_prob : Qc }.

Record buckets := mk_buckets {
  bs_capacity : nat;
  bucket_list : list bucket_info }.

Definition exists_in_bucket (w : WSD) (b : bucket_info) : bool :=
  existsb (fun v => existsb (fun m => negb (rng m =? -1)%Z && (var m =? v)%Z) (data w)) (bk_vars b).

Definition add_var_to_bucket (v : Z) (b : bucket_info) : option bucket_info :=
  if length (bk_vars b) <? bk_capacity b then
    let vars := bk_vars b ++ [v] in
    Some (mk_bucket (if bk_capacity b =? length vars then bk_capacity b * 2 else bk_capacity b)
            vars (bk_prob b))
  else None.

Definition add_to_bucket (w : WSD) (b : bucket_info) : option bucket_info :=
  b ← for_list (data w)
        (fun m b => if (rng m =? -1)%Z then Some b else add_var_to_bucket (var m) b) b;
  Some (mk_bucket (bk_capacity b) (bk_vars b) (bk_prob b + wprob w - bk_prob b * wprob w)%Qc).

Definition add_new_bucket (w : WSD) (bs : buckets) : option buckets :=
  if length (bucket_list bs) <? bs_capacity bs then
    b ← add_to_bucket w (mk_bucket (length (data w)) [] 0%Qc);
    let l := bucket_list bs ++ [b] in
    Some (mk_buckets (if bs_capacity bs =? length l then bs_capacity bs * 2 else bs_capacity bs) l)
  else None.

Section DTree.
Context (junk : nat -> N) (NUM : nat).

(** The first bucket that the clause shares no variable with, or a new one. *)
Definition place_clause (w : WSD) (bs : buckets) : option buckets :=
  match list_find (fun b => exists_in_bucket w b = false) (bucket_list bs) with
  | Some (j, b) =>
      b ← add_to_bucket w b;
      Some (mk_buckets (bs_capacity bs) (<[j := b]> (bucket_list bs)))
  | None => add_new_bucket w bs
  end.

(** Maximum and sum of the bucket probabilities. *)
Definition bucket_bounds (l : list bucket_info) : Qc * Qc :=
  foldl (fun '(max, sum) b =>
           (if decide (max < bk_prob b)%Qc then bk_prob b else max, (sum + bk_prob b)%Qc))
    (0%Qc, 0%Qc) l.

(** (upper, lower). *)
Definition compute_upper_and_lower_bounds (set : option bitset) (Ss : list WSD) : option (Qc * Qc) :=
  match set with
  | None => Some (0%Qc, 0%Qc)
  | Some set =>
      bs ← for_upto NUM
             (fun i bs =>
                b ← bitset_test_bit set i;
                if (b : bool) then w ← Ss !! i; place_clause w bs else Some bs)
             (mk_buckets 10 []);
      let '(max, sum) := bucket_bounds (bucket_list bs) in
      Some (if decide (1 < sum)%Qc then 1%Qc else sum, max)
  end.

(** ** Choosing a variable *)

Definition set_occur (e : worldTableEntry) (n : Z) : worldTableEntry :=
  mk_wte (wt_var e) (rng_entries e) (rng_entry_max e) (tau e) (met e) n.

Record occ := mk_occ {
  oc_wt : list worldTableEntry;
  same_column_max : Z;
  same_column_max_wt_entry : option nat;
  other_columns_max : Z;
  other_columns_max_wt_entry : option nat;
  new_var_col : Z }.

(** One map, in column [j]. *)
Definition occur_step (latest_var_col : Z) (j : nat) (m : Map) (o : occ) : option occ :=
  if (rng m <? 0)%Z then Some o else
  k ← wt_entry m;
  e ← oc_wt o !! k;
  let c := (occur_count e + 1)%Z in
  let wt := <[k := set_occur e c]> (oc_wt o) in
  if (Z.of_nat j =? latest_var_col)%Z then
    if (c >? same_column_max o)%Z
    then Some (mk_occ wt c (Some k) (other_columns_max o) (other_columns_max_wt_entry o) (Z.of_nat j))
    else Some (mk_occ wt (same_column_max o) (same_column_max_wt_entry o) (other_columns_max o)
                 (other_columns_max_wt_entry o) (new_var_col o))
  else if (same_column_max o =? -1)%Z then
    if (c >? other_columns_max o)%Z
    then Some (mk_occ wt (same_column_max o) (same_column_max_wt_entry o) c (Some k) (Z.of_nat j))
    else Some (mk_occ wt (same_column_max o) (same_column_max_wt_entry o) (other_columns_max o)
                 (other_columns_max_wt_entry o) (new_var_col o))
  else Some (mk_occ wt (same_column_max o) (same_column_max_wt_entry o) (other_columns_max o)
               (other_columns_max_wt_entry o) (new_var_col o)).

(** The chosen entry, the column of the choice ([col] if none was made) and
    the world table. *)
Definition choose_var_max_occur_same_column (Ss : list WSD) (set : bitset)
    (wt : list worldTableEntry) (latest_var_col col : Z)
    : option (option nat * Z * list worldTableEntry) :=
  o ← for_upto NUM
        (fun i o =>
           b ← bitset_test_bit set i;
           if (b : bool) then
             w ← Ss !! i;
             for_list (imap pair (data w)) (fun jm o => occur_step latest_var_col jm.1 jm.2 o) o
           else Some o)
        (mk_occ ((fun e => set_occur e 0) <$> wt) (-1) None (-1) None col);
  Some (if (same_column_max o =? -1)%Z then other_columns_max_wt_entry o else same_column_max_wt_entry o,
        new_var_col o, oc_wt o).

(** ** Conditioning: every matching map of a clause is dropped *)

(** (subset, clause, found an empty clause) after the maps of clause [i]. *)
Definition drop_matching (i : nat) (v r : Z) (w : WSD) (subset : option bitset)
    : option (option bitset * WSD * bool) :=
  for_upto (length (data w))
    (fun j '(subset, w, found) =>
       m ← data w !! j;
       if (var m =? v)%Z && (rng m =? r)%Z then
         subset ← WsTree.add_to junk NUM subset i;
         let w := WsTree.drop_map w j m in
         Some (subset, w, found || bool_decide (wprob w = 1%Qc))
       else Some (subset, w, found)) (subset, w, false).

Fixpoint with_var_loop (ixs : list nat) (Ss : list WSD) (set : bitset) (v r : Z)
    (subset : option bitset) : option (option bitset * list WSD * bool) :=
  match ixs with
  | [] => Some (subset, Ss, false)
  | i :: ixs =>
      b ← bitset_test_bit set i;
      if negb b then with_var_loop ixs Ss set v r subset else
      w ← Ss !! i;
      '(subset, w, found) ← drop_matching i v r w subset;
      if (found : bool) then Some (subset, <[i := w]> Ss, true)
      else with_var_loop ixs (<[i := w]> Ss) set v r subset
  end.

Definition find_wsds_with_var_rng (Ss : list WSD) (set : bitset) (v r : Z)
    : option (option bitset * list WSD) :=
  '(subset, Ss, found_empty_wsd) ← with_var_loop (seq 0 NUM) Ss set v r None;
  if (found_empty_wsd : bool) then
    sub ← subset;
    Ss ← reset_wsds_var_rng NUM Ss sub v r;
    Some (Some (bitset_reset sub), Ss)
  else Some (subset, Ss).

(** ** Union without subsumed clauses *)

(** Every variable of [wi] that is not dropped occurs in [wj]; the range values
    are not compared. *)
Definition vars_found (wi wj : WSD) : bool :=
  forallb (fun m => (rng m =? -1)%Z || existsb (fun m' => (var m =? var m')%Z) (data wj)) (data wi).

Definition bitset_union_removing_subsumption (Ss : list WSD) (set1 : bitset) (set2 : option bitset)
    : option bitset :=
  match set2 with
  | None => Some set1
  | Some set2 =>
      temp_set ← bitset_copy set2 (bitset_init junk NUM);
      temp_set ← for_upto NUM
        (fun i temp_set =>
           b1 ← bitset_test_bit set1 i;
           if negb b1 then Some temp_set else
           for_upto NUM
             (fun j temp_set =>
                b2 ← bitset_test_bit temp_set j;
                if negb b2 then Some temp_set else
                wi ← Ss !! i; wj ← Ss !! j;
                if vars_found wi wj then bitset_clear_bit temp_set j else Some temp_set)
             temp_set) temp_set;
      bitset_union set1 (Some temp_set)
  end.
End DTree.

(** ** Exact computation *)

Section Exact.
Context (junk : nat -> N) (NUM : nat).

Record dst := mk_dst {
  ds_S : list WSD;
  ds_wt : list worldTableEntry;
  has_satisfied_stopping_condition : bool }.

Definition set_S (s : dst) (l : list WSD) : dst :=
  mk_dst l (ds_wt s) (has_satisfied_stopping_condition s).

(** One range value: the new [p_without_var], the contribution and the state. *)
Definition exact_value (rec : option bitset -> Z -> dst -> option (prob * dst))
    (subset : bitset) (subset_without_var : option bitset) (v r : Z) (p : prob)
    (new_var_column : Z) (p_without_var : prob) (s : dst) : option (prob * prob * dst) :=
  '(subset_var_rng, l) ← find_wsds_with_var_rng junk NUM (ds_S s) subset v r;
  let s := set_S s l in
  match subset_var_rng with
  | None =>
      '(pw, s) ← (if decide (p_without_var = (- (1))%Qc)
                   then rec subset_without_var new_var_column s else Some (p_without_var, s));
      Some (pw, (p * pw)%Qc, s)
  | Some sub =>
      e ← bitset_test_empty (Some sub);
      if (e : bool) then Some (p_without_var, p, s)
      else
        sub ← bitset_union_removing_subsumption junk NUM (ds_S s) sub subset_without_var;
        '(q, s) ← rec (Some sub) new_var_column s;
        l ← reset_wsds_var_rng NUM (ds_S s) sub v r;
        Some (p_without_var, (p * q)%Qc, set_S s l)
  end.

(** The loop over the range values; [inl] is the early return. *)
Fixpoint exact_loop (rec : option bitset -> Z -> dst -> option (prob * dst)) (ixs : list nat)
    (k : nat) (subset : bitset) (subset_without_var : option bitset) (v new_var_column : Z)
    (p_left p_without_var : prob) (s : dst) : option (prob * dst + prob * dst) :=
  match ixs with
  | [] => Some (inr (p_left, s))
  | i :: ixs =>
      e ← ds_wt s !! k;
      re ← rng_entries e !! i;
      '(pw, cur_prob, s) ← exact_value rec subset subset_without_var v (re_rng re) (re_p re)
                             new_var_column p_without_var s;
      let p_left := (p_left + cur_prob)%Qc in
      if decide (p_left = 1%Qc) then
        if rng_entry_count e =? 1 then Some (inl (1%Qc, s))
        else exact_loop rec ixs k subset subset_without_var v new_var_column p_left pw s
      else exact_loop rec ixs k subset subset_without_var v new_var_column p_left pw s
  end.

(** The left part. *)
Definition exact_component (rec : option bitset -> Z -> dst -> option (prob * dst))
    (subset : bitset) (latest_var_column : Z) (s : dst) : option (prob * dst + prob * dst) :=
  pos ← bitset_test_singleton (Some subset);
  if negb (pos =? -1)%Z then
    w ← ds_S s !! Z.to_nat pos; Some (inr (wprob w, s))
  else
    '(res, new_var_column, wt) ←
      choose_var_max_occur_same_column NUM (ds_S s) subset (ds_wt s) latest_var_column 0;
    let s := mk_dst (ds_S s) wt (has_satisfied_stopping_condition s) in
    match res with
    | None => Some (inl (1%Qc, s))
    | Some k =>
        e ← wt !! k;
        subset_without_var ← find_wsds_without_var junk NUM (ds_S s) subset (wt_var e);
        exact_loop rec (seq 0 (rng_entry_count e)) k subset subset_without_var (wt_var e)
          new_var_column 0%Qc (- (1))%Qc s
    end.

Fixpoint decomposition_tree_exact (fuel : nat) (set : option bitset) (latest_var_column : Z)
    (s : dst) : option (prob * dst) :=
  match fuel with
  | 0 => None
  | S fuel =>
      e ← bitset_test_empty set;
      if (e : bool) then Some (0%Qc, s)
      else
        subset ← find_independent_split junk NUM (ds_S s) set;
        sub ← subset;
        left ← exact_component (decomposition_tree_exact fuel) sub latest_var_column s;
        match left with
        | inl res => Some res
        | inr (p_left, s) =>
            if decide (p_left = 1%Qc) then Some (1%Qc, s)
            else
              set' ← set;
              right ← bitset_negate set' sub;
              '(p_right, s) ← decomposition_tree_exact fuel (Some right) latest_var_column s;
              Some ((p_left + p_right - p_left * p_right)%Qc, s)
        end
  end.
End Exact.

(** ** Approximate computation *)

Record bound_information := mk_bound_information {
  coefficient_upper : Qc;
  constant_upper : Qc;
  coefficient_lower : Qc;
  constant_lower : Qc;
  condition_coefficient_upper : Qc;
  condition_constant_upper : Qc }.

(** [SUBSET_VAR_RNG_IS_NULL], [_IS_EMPTY], [_SHOULD_UNION]. *)
Inductive subset_state :=
  SUBSET_VAR_RNG_IS_NULL | SUBSET_VAR_RNG_IS_EMPTY | SUBSET_VAR_RNG_SHOULD_UNION.

(** One element of the three arrays of the first round. *)
Record leaf := mk_leaf {
  upper_bounds : Qc;
  lower_bounds : Qc;
  state_of_subset_var_rng : subset_state }.

(** [num / den <= c] on IEEE doubles: a quotient by zero is infinite or not a
    number, and only minus infinity satisfies the test. *)
Definition quotient_le (num den c : Qc) : bool :=
  if decide (den = 0%Qc) then bool_decide (num < 0)%Qc else bool_decide (num / den <= c)%Qc.

(** [p + q - p * q] under the coefficient and the constant of the whole tree. *)
Definition whole_bound (coefficient constant p q : Qc) : Qc :=
  (coefficient * (p + q - p * q) + constant)%Qc.

Section Approximate.
Context (junk : nat -> N) (NUM : nat).
(** The file-level variables of the current call. *)
Context (is_relative : bool) (stopping_number : Qc).

(** The stopping condition, and the test whether a leaf may be closed. *)
Definition stop_test (whole_upper whole_lower : Qc) : bool :=
  if is_relative then quotient_le (whole_upper - whole_lower) whole_lower stopping_number
  else bool_decide (whole_upper - whole_lower <= stopping_number)%Qc.

Definition close_test (condition_whole_upper whole_lower path_prob : Qc) (l : leaf) : bool :=
  if is_relative then
    quotient_le (condition_whole_upper - whole_lower) whole_lower stopping_number &&
    quotient_le ((upper_bounds l - lower_bounds l) * path_prob) whole_lower
      (Q2Qc (1 # 1000) * stopping_number)
  else
    bool_decide (condition_whole_upper - whole_lower <= stopping_number)%Qc &&
    bool_decide ((upper_bounds l - lower_bounds l) * path_prob <=
      Q2Qc (1 # 1000) * stopping_number)%Qc.

Definition sum_upper (ls : list leaf) : Qc := foldl (fun acc l => (acc + upper_bounds l)%Qc) 0%Qc ls.
Definition sum_lower (ls : list leaf) : Qc := foldl (fun acc l => (acc + lower_bounds l)%Qc) 0%Qc ls.

(** Upper bounds of the range values before [i], lower bounds of those after. *)
Definition condition_sum (ls : list leaf) (i : nat) : Qc :=
  foldl (fun acc jl => if jl.1 <? i then (acc + upper_bounds jl.2)%Qc
                       else if i <? jl.1 then (acc + lower_bounds jl.2)%Qc else acc)
    0%Qc (imap pair ls).

(** *** First round: bounds for every range value *)

Definition first_round_value (subset : bitset) (subset_without_var : option bitset) (v r : Z)
    (cur_prob : Qc) (wob : Qc * Qc) (l : list WSD) : option (leaf * (Qc * Qc) * list WSD) :=
  '(subset_var_rng, l) ← find_wsds_with_var_rng junk NUM l subset v r;
  match subset_var_rng with
  | None =>
      wob ← (if decide (wob.1 = (- (1))%Qc)
             then compute_upper_and_lower_bounds NUM subset_without_var l else Some wob);
      Some (mk_leaf (cur_prob * wob.1) (cur_prob * wob.2) SUBSET_VAR_RNG_IS_NULL, wob, l)
  | Some sub =>
      e ← bitset_test_empty (Some sub);
      if (e : bool) then Some (mk_leaf cur_prob cur_prob SUBSET_VAR_RNG_IS_EMPTY, wob, l)
      else
        sub ← bitset_union sub subset_without_var;
        '(u, lo) ← compute_upper_and_lower_bounds NUM (Some sub) l;
        l ← reset_wsds_var_rng NUM l sub v r;
        Some (mk_leaf (u * cur_prob) (lo * cur_prob) SUBSET_VAR_RNG_SHOULD_UNION, wob, l)
  end.

(** (bounds so far, bounds without the variable, clauses). *)
Definition first_round (rng_entry : list rngEntry) (subset : bitset)
    (subset_without_var : option bitset) (v : Z) (l : list WSD) : option (list leaf * list WSD) :=
  '(ls, _, l) ← for_list rng_entry
     (fun re '(ls, wob, l) =>
        '(lf, wob, l) ← first_round_value subset subset_without_var v (re_rng re) (re_p re) wob l;
        Some (ls ++ [lf], wob, l)) ([], ((- (1))%Qc, (- (1))%Qc), l);
  Some (ls, l).

(** *** Second round: refine or close *)

(** The coefficients and constants passed down to refine leaf [i]. *)
Definition next_leaf_info (bi : bound_information) (ls : list leaf) (i : nat) (lf : leaf)
    (cur_prob p_right_upper p_right_lower : Qc) : bound_information :=
  let aggregate_upper_without_itself := (sum_upper ls - upper_bounds lf)%Qc in
  let aggregate_lower_without_itself := (sum_lower ls - lower_bounds lf)%Qc in
  let c := condition_sum ls i in
  let cl := (coefficient_lower bi * (1 - p_right_lower) * cur_prob)%Qc in
  mk_bound_information
    (coefficient_upper bi * (1 - p_right_upper) * cur_prob)
    (constant_upper bi + coefficient_upper bi *
       (p_right_upper + aggregate_upper_without_itself -
        p_right_upper * aggregate_upper_without_itself))
    cl
    (constant_lower bi + coefficient_lower bi *
       (p_right_lower + aggregate_lower_without_itself -
        p_right_lower * aggregate_lower_without_itself))
    cl
    (condition_constant_upper bi + condition_coefficient_upper bi *
       (p_right_lower + c - p_right_lower * c)).

Definition approx_rec := option bitset -> Qc -> bound_information -> Z -> dst ->
  option (Qc * Qc * dst).

(** Refine one leaf: new upper and lower bound. *)
Definition refine_leaf (rec : approx_rec) (subset : bitset) (subset_without_var : option bitset)
    (v r : Z) (cur_prob path_prob : Qc) (bi : bound_information) (latest_var_column : Z)
    (lf : leaf) (s : dst) : option (leaf * dst) :=
  match state_of_subset_var_rng lf with
  | SUBSET_VAR_RNG_IS_NULL =>
      '(u, lo, s) ← rec subset_without_var (path_prob * cur_prob)%Qc bi latest_var_column s;
      Some (mk_leaf (u * cur_prob) (lo * cur_prob) SUBSET_VAR_RNG_IS_NULL, s)
  | SUBSET_VAR_RNG_IS_EMPTY => Some (lf, s)
  | SUBSET_VAR_RNG_SHOULD_UNION =>
      '(subset_var_rng, l) ← find_wsds_with_var_rng junk NUM (ds_S s) subset v r;
      sub ← subset_var_rng;
      sub ← bitset_union_removing_subsumption junk NUM l sub subset_without_var;
      '(u, lo, s) ← rec (Some sub) (path_prob * cur_prob)%Qc bi latest_var_column (set_S s l);
      l ← reset_wsds_var_rng NUM (ds_S s) sub v r;
      Some (mk_leaf (u * cur_prob) (lo * cur_prob) SUBSET_VAR_RNG_SHOULD_UNION, set_S s l)
  end.

Definition set_stop (s : dst) (b : bool) : dst :=
  mk_dst (ds_S s) (ds_wt s) (has_satisfied_stopping_condition s || b).

(** The loop over the range values, with its [break]s. *)
Fixpoint second_round (rec : approx_rec) (ixs : list nat) (k : nat) (subset : bitset)
    (subset_without_var : option bitset) (v : Z) (path_prob : Qc) (bi : bound_information)
    (latest_var_column : Z) (p_right_upper p_right_lower : Qc) (ls : list leaf) (s : dst)
    : option (list leaf * dst) :=
  match ixs with
  | [] => Some (ls, s)
  | i :: ixs =>
      let go := second_round rec ixs k subset subset_without_var v path_prob bi latest_var_column
                  p_right_upper p_right_lower in
      let whole_upper := whole_bound (coefficient_upper bi) (constant_upper bi) (sum_upper ls) p_right_upper in
      let whole_lower := whole_bound (coefficient_lower bi) (constant_lower bi) (sum_lower ls) p_right_lower in
      let condition_whole_upper :=
        whole_bound (condition_coefficient_upper bi) (condition_constant_upper bi)
          (condition_sum ls i) p_right_lower in
      if stop_test whole_upper whole_lower then Some (ls, set_stop s true)
      else
        lf ← ls !! i;
        if close_test condition_whole_upper whole_lower path_prob lf then go ls s
        else
          e ← ds_wt s !! k;
          re ← rng_entries e !! i;
          '(lf, s) ← refine_leaf rec subset subset_without_var v (re_rng re) (re_p re) path_prob
                       (next_leaf_info bi ls i lf (re_p re) p_right_upper p_right_lower)
                       latest_var_column lf s;
          let ls := <[i := lf]> ls in
          if has_satisfied_stopping_condition s then Some (ls, s) else go ls s
  end.

(** The left part: (upper, lower); [inl] is the return without a variable. *)
Definition approx_left (rec : approx_rec) (subset : bitset) (path_prob : Qc)
    (bi : bound_information) (latest_var_column : Z) (p_right_upper p_right_lower : Qc) (s : dst)
    : option (Qc * Qc * dst + Qc * Qc * dst) :=
  pos ← bitset_test_singleton (Some subset);
  if negb (pos =? -1)%Z then
    w ← ds_S s !! Z.to_nat pos; Some (inr (wprob w, wprob w, s))
  else
    '(res, _, wt) ←
      choose_var_max_occur_same_column NUM (ds_S s) subset (ds_wt s) latest_var_column 0;
    let s := mk_dst (ds_S s) wt (has_satisfied_stopping_condition s) in
    match res with
    | None => Some (inl (1%Qc, 1%Qc, s))
    | Some k =>
        e ← wt !! k;
        subset_without_var ← find_wsds_without_var junk NUM (ds_S s) subset (wt_var e);
        '(ls, l) ← first_round (rng_entries e) subset subset_without_var (wt_var e) (ds_S s);
        '(ls, s) ← second_round rec (seq 0 (rng_entry_count e)) k subset subset_without_var
                     (wt_var e) path_prob bi latest_var_column p_right_upper p_right_lower
                     ls (set_S s l);
        Some (inr (sum_upper ls, sum_lower ls, s))
    end.

(** The coefficients and constants passed down to refine the right part. *)
Definition next_right_info (bi : bound_information) (p_left_upper p_left_lower : Qc)
    : bound_information :=
  let cu := (coefficient_upper bi * (1 - p_left_upper))%Qc in
  let ku := (constant_upper bi + coefficient_upper bi * p_left_upper)%Qc in
  mk_bound_information cu ku
    (coefficient_lower bi * (1 - p_left_lower))
    (constant_lower bi + coefficient_lower bi * p_left_lower)
    cu ku.

(** (upper, lower) and the state. *)
Fixpoint decomposition_tree_approximate (fuel : nat) (set : option bitset) (path_prob : Qc)
    (bi : bound_information) (latest_var_column : Z) (s : dst) : option (Qc * Qc * dst) :=
  match fuel with
  | 0 => None
  | S fuel =>
      let rec := decomposition_tree_approximate fuel in
      e ← bitset_test_empty set;
      if (e : bool) then Some (0%Qc, 0%Qc, s)
      else
        subset ← find_independent_split junk NUM (ds_S s) set;
        subset ← subset;
        set ← set;
        subset ← bitset_negate set subset;
        '(p_right_upper, p_right_lower) ← compute_upper_and_lower_bounds NUM (Some subset) (ds_S s);
        subset ← bitset_negate set subset;
        left ← approx_left rec subset path_prob bi latest_var_column p_right_upper p_right_lower s;
        match left with
        | inl res => Some res
        | inr (p_left_upper, p_left_lower, s) =>
            let whole_upper :=
              whole_bound (coefficient_upper bi) (constant_upper bi) p_left_upper p_right_upper in
            let whole_lower :=
              whole_bound (coefficient_lower bi) (constant_lower bi) p_left_lower p_right_lower in
            let s := set_stop s (stop_test whole_upper whole_lower) in
            '(p_right_upper, p_right_lower, s) ←
              (if negb (has_satisfied_stopping_condition s) && negb (bool_decide (p_right_lower = 0%Qc))
               then
                 subset ← bitset_negate set subset;
                 rec (Some subset) path_prob (next_right_info bi p_left_upper p_left_lower)
                   latest_var_column s
               else Some (p_right_upper, p_right_lower, s));
            Some ((p_left_upper + p_right_upper - p_left_upper * p_right_upper)%Qc,
                  (p_left_lower + p_right_lower - p_left_lower * p_right_lower)%Qc, s)
        end
  end.
End Approximate.

(** ** The aggregate functions *)

(** The file-level variables set by the transition function. *)
Record appro_globals := mk_appro {
  ag_store : globals;
  appro_approach : String.string;
  appro_epsilon : Qc }.

Definition conf_appro_accum (n : nat) (args : list datum) (g : appro_globals) : option appro_globals :=
  source ← PG_GETARG_VARCHAR_PP args 1;
  eps ← PG_GETARG_FLOAT4 args 2;
  st ← accum n 2 args (ag_store g);
  Some (mk_appro st source eps).

Definition conf_appro_accum1_ge := conf_appro_accum 1.
Definition conf_appro_accum2_ge := conf_appro_accum 2.
Definition conf_appro_accum3_ge := conf_appro_accum 3.
Definition conf_appro_accum4_ge := conf_appro_accum 4.
Definition conf_appro_accum5_ge := conf_appro_accum 5.
Definition conf_appro_accum6_ge := conf_appro_accum 6.
Definition conf_appro_accum7_ge := conf_appro_accum 7.
Definition conf_appro_accum8_ge := conf_appro_accum 8.
Definition conf_appro_accum9_ge := conf_appro_accum 9.
Definition conf_appro_accum10_ge := conf_appro_accum 10.

(** [strncmp(appro_approach, ..., 1)]: 'R' or 'A'; [None] is the reported error. *)
Definition approach_of (s : String.string) : option bool :=
  match String.get 0 s with
  | Some c =>
      if Ascii.eqb c "R" then Some true else if Ascii.eqb c "A" then Some false else None
  | None => None
  end.

(** The approximate result from the final bounds. *)
Definition approx_result (is_relative : bool) (eps upper lower : Qc) : Qc :=
  if is_relative then ((upper * (1 - eps) + lower * (1 + eps)) / Q2Qc 2)%Qc
  else ((upper + lower) / Q2Qc 2)%Qc.

Definition stopping_number_of (is_relative : bool) (eps : Qc) : Qc :=
  if is_relative then (Q2Qc 2 * eps / (1 - eps))%Qc else (Q2Qc 2 * eps)%Qc.

Definition initial_info : bound_information := mk_bound_information 1 0 1 0 1 0.

(** Bounds of the sorted clauses, refined unless they are close enough:
    (upper, lower) and the state. *)
Definition approximate_bounds (junk : nat -> N) (NUM : nat) (is_relative : bool) (eps : Qc)
    (fuel : nat) (set : bitset) (l : list WSD) (wt : list worldTableEntry) : option (Qc * Qc * dst) :=
  let stopping_number := stopping_number_of is_relative eps in
  l ← quicksort (S (length l)) l 0 (Z.of_nat NUM - 1);
  '(upper, lower) ← compute_upper_and_lower_bounds NUM (Some set) l;
  if stop_test is_relative stopping_number upper lower then Some (upper, lower, mk_dst l wt true)
  else decomposition_tree_approximate junk NUM is_relative stopping_number fuel (Some set) 1
         initial_info (-1) (mk_dst l wt false).

(** The end of a group: [inl] is the error of an unknown approach. *)
Definition conf_appro_final_ge (junk : nat -> N) (g : appro_globals)
    : option (appro_globals + prob * appro_globals) :=
  let st := ag_store g in
  let freed state := mk_appro (mk_globals None (current_size st) (WSD_LEN st) false state)
                       (appro_approach g) (appro_epsilon g) in
  if groupcxt st then
    match approach_of (appro_approach g) with
    | None => Some (inl (freed (gstate st)))
    | Some is_relative =>
        state ← getMissingRngs (gstate st);
        l ← gS st;
        l ← computeEntryPointers state l;
        let NUM := length l in
        let fuel := WsTree.indve_fuel NUM (WSD_LEN st) in
        set ← bitset_set (bitset_init junk NUM);
        if decide (0 < appro_epsilon g)%Qc then
          '(upper, lower, s) ← approximate_bounds junk NUM is_relative (appro_epsilon g) fuel set l
                                 (wt_entries state);
          Some (inr (approx_result is_relative (appro_epsilon g) upper lower,
                     freed (set_wt state (ds_wt s))))
        else
          '(upper, lower) ← compute_upper_and_lower_bounds NUM (Some set) l;
          if decide (0 < upper - lower)%Qc then
            '(result, s) ← decomposition_tree_exact junk NUM fuel (Some set) (-1)
                             (mk_dst l (wt_entries state) false);
            Some (inr (result, freed (set_wt state (ds_wt s))))
          else Some (inr (upper, freed state))
    end
  else Some (inr (0%Qc, g)).
