(* ===== verification/DTreeCond.v ===== *)
(** * DTreeCond: choosing a variable and conditioning in [d-tree.c]

    The variable heuristic returns an entry of an active map when there is one;
    the conditioning function agrees with that of [WsTree] on clauses with
    distinct variables; the union that removes subsumed clauses keeps the event
    of the union when every variable occurs with one range value. *)
From S2P Require Import Prelude.
From S2P Require Import Bitset.
From S2P Require Import Worlds.
From S2P Require Import LocalCond.
From S2P Require Import Lineage.
From S2P Require Import Choice.
From S2P Require Import Condition.
From S2P Require Import WsTreeCorrect.
From S2P Require Import DTree.

(** ** The variable with most occurrences *)

(** A running maximum over counts and the entry it belongs to. *)
Definition picked (Q : Map -> Prop) (mx : Z) (entry : option nat) : Prop :=
  (mx = (-1)%Z /\ entry = None) \/
  ((0 < mx)%Z /\ exists k m i, entry = Some k /\ Q m /\ active m /\ rng_entry m = Some (k, i)).

Record occ_ok (W : wtable) (Q : Map -> Prop) (o : occ) : Prop := {
  ok_shape : shape (oc_wt o) = W;
  ok_counts : Forall (fun e => 0 <= occur_count e)%Z (oc_wt o);
  ok_same : picked Q (same_column_max o) (same_column_max_wt_entry o);
  ok_other : picked Q (other_columns_max o) (other_columns_max_wt_entry o);
  ok_some : forall m, Q m -> active m ->
    same_column_max o <> (-1)%Z \/ other_columns_max o <> (-1)%Z }.

Lemma picked_mono (Q Q' : Map -> Prop) (mx : Z) (entry : option nat) :
  (forall m, Q m -> Q' m) -> picked Q mx entry -> picked Q' mx entry.
Proof. intros H [?|(? & k & m & i & ? & ? & ?)]; [by left|right]. split; [done|]. exists k, m, i. auto. Qed.

Lemma occ_ok_ext (W : wtable) (Q Q' : Map -> Prop) (o : occ) :
  (forall m, Q m <-> Q' m) -> occ_ok W Q o -> occ_ok W Q' o.
Proof.
  intros H [Hs Hc H1 H2 H3]. split; [done|done| | |intros m Hm; by apply H3, H];
    (eapply picked_mono; [|done]); intros m; apply H.
Qed.

Lemma set_occur_shape (wt : list worldTableEntry) (k : nat) (e : worldTableEntry) (n : Z) :
  wt !! k = Some e -> shape (<[k := set_occur e n]> wt) = shape wt.
Proof.
  intros He. unfold shape. rewrite list_fmap_insert.
  change (shape_entry (set_occur e n)) with (shape_entry e).
  apply list_insert_id. by rewrite list_lookup_fmap, He.
Qed.

Lemma occur_step_spec (W : wtable) (Q : Map -> Prop) (col : Z) (j : nat) (m : Map) (o : occ) :
  occ_ok W Q o -> map_ok W m ->
  exists o', occur_step col j m o = Some o' /\ occ_ok W (fun m' => Q m' \/ m' = m) o'.
Proof.
  intros [Hs Hc H1 H2 H3] [_ Hr (k & i & d & r & Hre & Hk & _) Hwe]. unfold occur_step.
  assert (M1 : picked (fun m' => Q m' \/ m' = m) (same_column_max o) (same_column_max_wt_entry o))
    by (eapply picked_mono; [|exact H1]; auto).
  assert (M2 : picked (fun m' => Q m' \/ m' = m) (other_columns_max o) (other_columns_max_wt_entry o))
    by (eapply picked_mono; [|exact H2]; auto).
  destruct (Z.ltb_spec (rng m) 0) as [Hneg|Hpos].
  { exists o. split; [done|]. split; [done..|]. intros m' [HQ| ->] Ha; [by apply (H3 m')|].
    unfold active in Ha. lia. }
  rewrite Hwe, Hre. cbn [fmap option_fmap option_map mbind option_bind fst].
  rewrite <- Hs in Hk. destruct (shape_lookup _ _ _ _ Hk) as (e & He & _). rewrite He.
  cbn [mbind option_bind].
  assert (He0 : (0 <= occur_count e)%Z)
    by (rewrite Forall_forall in Hc; by apply Hc, (list_elem_of_lookup_2 _ k)).
  assert (Ha : active m) by (unfold active; lia).
  set (wt := <[k := set_occur e (occur_count e + 1)]> (oc_wt o)).
  assert (Hs' : shape wt = W) by (unfold wt; by rewrite (set_occur_shape _ _ e)).
  assert (Hc' : Forall (fun e => 0 <= occur_count e)%Z wt) by (apply Forall_insert; simpl; [done|lia]).
  assert (Hk' : picked (fun m' => Q m' \/ m' = m) (occur_count e + 1) (Some k))
    by (right; split; [lia|]; exists k, m, i; auto).
  destruct (Z.eqb_spec (Z.of_nat j) col).
  - destruct (Z.gtb_spec (occur_count e + 1) (same_column_max o)).
    all: eexists; split; [done|]; split; simpl; [done..|]; intros; left; lia.
  - destruct (Z.eqb_spec (same_column_max o) (-1)).
    + destruct (Z.gtb_spec (occur_count e + 1) (other_columns_max o)).
      all: eexists; split; [done|]; split; simpl; [done..|]; intros; right; lia.
    + eexists; split; [done|]; split; simpl; [done..|]. intros; by left.
Qed.

Section Choose.
Context (NUM : nat) (Ss : list WSD) (W : wtable) (Hlen : length Ss = NUM) (HSs : clauses_ok W Ss).

Lemma occur_maps_spec (Q : Map -> Prop) (col : Z) (w : WSD) (o : occ) :
  occ_ok W Q o -> Forall (map_ok W) (data w) ->
  exists o', for_list (imap pair (data w)) (fun jm o => occur_step col jm.1 jm.2 o) o = Some o' /\
    occ_ok W (fun m => Q m \/ m ∈ data w) o'.
Proof.
  clear. intros HQ Hok.
  destruct (for_list_inv (fun l o => occ_ok W (fun m => Q m \/ m ∈ l.*2) o) (imap pair (data w))
    (fun jm o => occur_step col jm.1 jm.2 o) o) as (o' & Ho & HO).
  - eapply occ_ok_ext; [|exact HQ]. intros m. simpl. split; [auto|by intros [?|?%elem_of_nil]].
  - intros l1 [j m] l2 o1 Hl HO.
    assert (m ∈ data w) as Hm.
    { assert ((j, m) ∈ imap pair (data w)) as Hin by (rewrite Hl; set_solver).
      apply elem_of_lookup_imap in Hin as (i & y & [= -> ->] & Hy). by eapply list_elem_of_lookup_2. }
    rewrite Forall_forall in Hok.
    destruct (occur_step_spec W _ col j m o1 HO (Hok m Hm)) as (o2 & Ho2 & HO2).
    exists o2. split; [done|]. eapply occ_ok_ext; [|exact HO2]. intros m'.
    rewrite fmap_app, elem_of_app. simpl. rewrite list_elem_of_singleton. tauto.
  - exists o'. split; [done|]. eapply occ_ok_ext; [|exact HO]. intros m.
    replace (imap pair (data w)).*2 with (data w); [done|].
    apply list_eq. intros i. rewrite list_lookup_fmap, list_lookup_imap. by destruct (data w !! i).
Qed.

(** The choice: the entry of an active map, or none when every map is dropped. *)
Lemma choose_max_occur_spec (X : gset nat) (set : bitset) (wt : list worldTableEntry) (col c0 : Z) :
  Rep NUM X set -> shape wt = W ->
  exists res col' wt', choose_var_max_occur_same_column NUM Ss set wt col c0 = Some (res, col', wt') /\
    shape wt' = W /\
    match res with
    | None => forall m, occurs Ss X m -> ~ active m
    | Some k => exists m i, occurs Ss X m /\ active m /\ rng_entry m = Some (k, i)
    end.
Proof using Hlen HSs.
  intros HX Hsh. unfold choose_var_max_occur_same_column.
  edestruct (for_upto_inv (fun i o => occ_ok W (occurs Ss (X ∩ below i)) o) NUM)
    as (o & -> & HO).
  - split; simpl.
    + rewrite <- Hsh. unfold shape. rewrite <- list_fmap_compose. by apply list_fmap_ext.
    + apply Forall_fmap, Forall_forall. intros e _. simpl. done.
    + by left.
    + by left.
    + intros m (i & w & (_ & Hi%elem_of_below)%elem_of_intersection & _). lia.
  - intros i o Hi HO. simpl. rewrite below_S.
    destruct (lookup_lt_is_Some_2 Ss i) as [w Hw]; [lia|].
    test_bit.
    + rewrite Hw. cbn [mbind option_bind].
      destruct (occur_maps_spec _ col w o HO) as (o' & -> & HO').
      { apply wo_maps. unfold clauses_ok in HSs. rewrite Forall_forall in HSs.
        apply HSs. by eapply list_elem_of_lookup_2. }
      exists o'. split; [done|]. eapply occ_ok_ext; [|exact HO']. intros m.
      unfold occurs. setoid_rewrite elem_of_intersection. setoid_rewrite elem_of_union.
      setoid_rewrite elem_of_singleton. split.
      * intros [(j & wj & ? & ? & ?)|Hm]; [exists j, wj; naive_solver|exists i, w; naive_solver].
      * intros (j & wj & (? & [->|?]) & ? & ?); [right; congruence|left; by exists j, wj].
    + exists o. split; [done|]. eapply occ_ok_ext; [|exact HO]. intros m.
      unfold occurs. setoid_rewrite elem_of_intersection. setoid_rewrite elem_of_union.
      setoid_rewrite elem_of_singleton. naive_solver.
  - cbn [mbind option_bind].
    assert (HQ : forall m, occurs Ss (X ∩ below NUM) m <-> occurs Ss X m).
    { intros m. unfold occurs. setoid_rewrite elem_of_intersection. setoid_rewrite elem_of_below.
      split; [naive_solver|]. intros (i & w & Hi & ?). exists i, w.
      pose proof (rep_bound _ _ _ _ HX Hi). naive_solver. }
    apply (occ_ok_ext _ _ _ _ HQ) in HO as [Hs _ H1 H2 H3].
    eexists _, _, (oc_wt o). split; [done|]. split; [done|].
    destruct (Z.eqb_spec (same_column_max o) (-1)) as [Hm|Hm].
    + destruct H2 as [[H2 ->]|(_ & k & m & i & -> & ?)]; [|by exists m, i].
      intros m HQm Ha. by destruct (H3 m HQm Ha).
    + destruct H1 as [[??]|(_ & k & m & i & -> & ?)]; [done|by exists m, i].
Qed.
End Choose.

(** ** Conditioning *)

Lemma drop_matching_skip (junk : nat -> N) (NUM i : nat) (v r : Z) (w : WSD)
    (js : list nat) (subset : option bitset) (found : bool) :
  (forall j m, j ∈ js -> data w !! j = Some m -> ~ (var m = v /\ rng m = r)) ->
  (forall j, j ∈ js -> j < length (data w)) ->
  for_list js
    (fun j '(subset, w, found) =>
       m ← data w !! j;
       if (var m =? v)%Z && (rng m =? r)%Z then
         subset ← WsTree.add_to junk NUM subset i;
         let w := WsTree.drop_map w j m in
         Some (subset, w, found || bool_decide (wprob w = 1%Qc))
       else Some (subset, w, found)) (subset, w, found) = Some (subset, w, found).
Proof.
  induction js as [|j js IH]; intros Hno Hb; simpl; [done|].
  destruct (lookup_lt_is_Some_2 (data w) j) as [m Hm]; [apply Hb, list_elem_of_here|].
  rewrite Hm. cbn [mbind option_bind].
  assert ((var m =? v)%Z && (rng m =? r)%Z = false) as ->.
  { apply not_true_iff_false. rewrite andb_true_iff, !Z.eqb_eq.
    apply (Hno j m); [apply list_elem_of_here|done]. }
  cbn [mbind option_bind]. apply IH.
  - intros k m' Hk. apply Hno. by apply list_elem_of_further.
  - intros k Hk. apply Hb. by apply list_elem_of_further.
Qed.

(** At most one map of the clause matches: the same step as in [WsTree]. *)
Lemma drop_matching_spec (junk : nat -> N) (NUM i : nat) (v r : Z) (w : WSD) (subset : option bitset) :
  NoDup (var <$> data w) -> r <> (-1)%Z ->
  drop_matching junk NUM i v r w subset =
    if decide (has_lit v r w) then
      subset ← WsTree.add_to junk NUM subset i;
      Some (subset, dropw v r w, bool_decide (wprob (dropw v r w) = 1%Qc))
    else Some (subset, w, false).
Proof.
  intros Hnd Hr. unfold drop_matching, for_upto. destruct (decide (has_lit v r w)) as [Hl|Hl].
  - destruct (dropw_split v r w Hnd Hl) as (l1 & l2 & m & [Hd Hv Hnl Hnr] & Hm & Hdw).
    assert (Hj : data w !! length l1 = Some m) by (rewrite Hd, lookup_app_r, Nat.sub_diag by lia; done).
    assert (Hdm : WsTree.drop_map w (length l1) m = dropw v r w).
    { rewrite Hdw. unfold WsTree.drop_map. f_equal. rewrite Hd, insert_app_r_alt, Nat.sub_diag by lia. done. }
    assert (Hsplit : seq 0 (length (data w)) =
      seq 0 (length l1) ++ [length l1] ++ seq (S (length l1)) (length l2)).
    { rewrite Hd, length_app. simpl. rewrite seq_app. done. }
    rewrite Hsplit, for_list_app, drop_matching_skip; cbn [mbind option_bind app for_list].
    2: { intros j m' Hj'%elem_of_seq Hm' [Hv' _]. rewrite Hd, lookup_app_l in Hm' by lia.
         apply Hnl, list_elem_of_fmap. exists m'. split; [done|]. by eapply list_elem_of_lookup_2. }
    2: { intros j Hj'%elem_of_seq. rewrite Hd, length_app. lia. }
    rewrite Hj. cbn [mbind option_bind]. rewrite Hv, Hm, !Z.eqb_refl. cbn [andb].
    destruct (WsTree.add_to junk NUM subset i) as [subset'|]; cbn [mbind option_bind]; [|done].
    rewrite Hdm, orb_false_l.
    rewrite drop_matching_skip; [done| |].
    + intros j m' Hj'%elem_of_seq Hm' [Hv' _]. rewrite Hdw in Hm'. simpl in Hm'.
      rewrite lookup_app_r, lookup_cons in Hm' by lia.
      destruct (j - length l1) as [|n] eqn:En; [lia|].
      apply Hnr, list_elem_of_fmap. exists m'. split; [done|]. by eapply list_elem_of_lookup_2.
    + intros j Hj'%elem_of_seq. rewrite Hdw. simpl. rewrite length_app. simpl. lia.
  - apply drop_matching_skip.
    + intros j m _ Hm Hvr. apply Hl, has_lit_iff. exists m. split; [by eapply list_elem_of_lookup_2|done].
    + intros j Hj%elem_of_seq. lia.
Qed.

Lemma dropw_vars (v r : Z) (w : WSD) : var <$> data (dropw v r w) = var <$> data w.
Proof.
  unfold dropw. destruct (list_find _ _) as [[j m]|] eqn:Hf; [|done].
  apply list_find_Some in Hf as (Hj & _). unfold WsTree.drop_map; simpl. rewrite list_fmap_insert.
  apply list_insert_id. rewrite list_lookup_fmap, Hj. done.
Qed.

Lemma with_var_loop_eq (junk : nat -> N) (NUM : nat) (ixs : list nat) (Ss : list WSD) (set : bitset)
    (v r : Z) (subset : option bitset) :
  Forall (fun w => NoDup (var <$> data w)) Ss -> r <> (-1)%Z ->
  with_var_loop junk NUM ixs Ss set v r subset = WsTree.with_var_loop junk NUM ixs Ss set v r subset.
Proof.
  intros Hnd Hr. revert Ss Hnd subset. induction ixs as [|i ixs IH]; intros Ss Hnd subset; simpl; [done|].
  destruct (bitset_test_bit set i) as [[]|]; simpl; [|by apply IH|done].
  destruct (Ss !! i) as [w|] eqn:Hw; simpl; [|done].
  pose proof (proj1 (Forall_lookup _ _) Hnd i w Hw) as Hndw. simpl in Hndw.
  rewrite drop_matching_spec by done. pose proof (list_find_lit v r w) as Hlit.
  destruct (list_find _ (data w)) as [[j m]|] eqn:Hf.
  - rewrite decide_True by done. destruct (WsTree.add_to junk NUM subset i) as [o|]; simpl; [|done].
    assert (Hdw : WsTree.drop_map w j m = dropw v r w) by (unfold dropw; by rewrite Hf).
    change (wprob w / mprob m)%Qc with (wprob (WsTree.drop_map w j m)). rewrite Hdw.
    case_bool_decide as H1; [by rewrite decide_True|]. rewrite decide_False by done.
    apply IH. apply Forall_insert; [done|]. by rewrite dropw_vars.
  - rewrite decide_False by done. simpl. rewrite list_insert_id by done. by apply IH.
Qed.

(** On clauses with distinct variables the two versions of the function agree. *)
Lemma find_wsds_with_var_rng_eq (junk : nat -> N) (NUM : nat) (Ss : list WSD) (set : bitset) (v r : Z) :
  Forall (fun w => NoDup (var <$> data w)) Ss -> r <> (-1)%Z ->
  find_wsds_with_var_rng junk NUM Ss set v r = WsTree.find_wsds_with_var_rng junk NUM Ss set v r.
Proof.
  intros Hnd Hr. unfold find_wsds_with_var_rng, WsTree.find_wsds_with_var_rng.
  by rewrite with_var_loop_eq.
Qed.

Lemma clauses_nodup (W : wtable) (Ss : list WSD) :
  clauses_ok W Ss -> Forall (fun w => NoDup (var <$> data w)) Ss.
Proof. intros H. apply (Forall_impl _ _ _ H). intros w Hw. apply (wo_nodup _ _ Hw). Qed.

(** ** Subsumption *)

Lemma vars_found_true (wi wj : WSD) :
  vars_found wi wj = true <-> forall m, m ∈ data wi -> active m -> mentions (var m) wj.
Proof.
  unfold vars_found. rewrite forallb_forall. setoid_rewrite orb_true_iff.
  setoid_rewrite existsb_exists. setoid_rewrite Z.eqb_eq. setoid_rewrite <- list_elem_of_In.
  setoid_rewrite mentions_iff. unfold active. split.
  - intros H m Hm Ha. destruct (H m Hm) as [?|(m' & ? & ?)]; [done|by exists m'].
  - intros H m Hm. destruct (decide (rng m = (-1)%Z)) as [|Ha]; [by left|right].
    destruct (H m Hm Ha) as (m' & ? & ?). by exists m'.
Qed.

(** Clause [j] mentions every active variable of clause [i]. *)
Definition covers (Ss : list WSD) (i j : nat) : Prop :=
  exists wi wj, Ss !! i = Some wi /\ Ss !! j = Some wj /\ vars_found wi wj = true.

(** What is left of the second set. *)
Record pruned (Ss : list WSD) (X1 X2 Z : gset nat) : Prop := {
  pr_sub : Z ⊆ X2;
  pr_gone : forall j, j ∈ X2 -> j ∉ Z -> exists i, i ∈ X1 /\ covers Ss i j }.

Lemma prune_row_spec (NUM : nat) (Ss : list WSD) (X1 X2 Z : gset nat) (i : nat) (t : bitset) (wi : WSD) :
  length Ss = NUM -> Rep NUM Z t -> Clean t -> pruned Ss X1 X2 Z -> i ∈ X1 -> Ss !! i = Some wi ->
  exists t' Z', for_upto NUM
      (fun j temp_set =>
         b2 ← bitset_test_bit temp_set j;
         if negb b2 then Some temp_set else
         wi ← Ss !! i; wj ← Ss !! j;
         if vars_found wi wj then bitset_clear_bit temp_set j else Some temp_set) t = Some t' /\
    Rep NUM Z' t' /\ Clean t' /\ pruned Ss X1 X2 Z'.
Proof.
  intros Hlen HR HC HP Hi Hwi.
  edestruct (for_upto_inv (fun _ t => exists Z', Rep NUM Z' t /\ Clean t /\ pruned Ss X1 X2 Z') NUM)
    as (t' & -> & Z' & H); [by exists Z| |by exists t', Z'].
  intros j t1 Hj (Z1 & HR1 & HC1 & HP1). test_bit; [|exists t1; eauto].
  rewrite Hwi. simpl. destruct (lookup_lt_is_Some_2 Ss j) as [wj Hwj]; [lia|]. rewrite Hwj. simpl.
  destruct (vars_found wi wj) eqn:Hv; [|exists t1; eauto].
  destruct (bitset_clear_bit_spec _ _ _ j HR1 Hj) as (t2 & -> & HR2 & HC2).
  exists t2. split; [done|]. exists (Z1 ∖ {[j]}). split_and!; [done|auto|].
  destruct HP1 as [Hs Hg]. split; [set_solver|].
  intros k Hk Hnk. destruct (decide (k ∈ Z1)) as [Hk1|Hk1]; [|auto].
  rewrite elem_of_difference, elem_of_singleton in Hnk. assert (k = j) as -> by (destruct (decide (k = j)); tauto). exists i. split; [done|]. by exists wi, wj.
Qed.

Lemma union_subsumption_spec (NUM : nat) (junk : nat -> N) (Ss : list WSD) (X1 X2 : gset nat)
    (b : bitset) (o : option bitset) :
  length Ss = NUM -> Built NUM X1 (Some b) -> Built NUM X2 o ->
  exists b' Z, bitset_union_removing_subsumption junk NUM Ss b o = Some b' /\
    Built NUM (X1 ∪ Z) (Some b') /\ pruned Ss X1 X2 Z.
Proof.
  intros Hlen (HR1 & HC1 & Hne) HX2. unfold bitset_union_removing_subsumption.
  destruct o as [b2|]; simpl in HX2.
  2: { subst X2. exists b, ∅. rewrite (right_id_L ∅ (∪)). split_and!; [done|done|]. by split. }
  destruct HX2 as (HR2 & HC2 & _).
  destruct (bitset_copy_spec NUM X2 b2 (bitset_init junk NUM) HR2 (bitset_init_ok _ _) eq_refl)
    as (t0 & -> & HR0 & HC0). cbn [mbind option_bind].
  edestruct (for_upto_inv (fun _ t => exists Z, Rep NUM Z t /\ Clean t /\ pruned Ss X1 X2 Z) NUM)
    as (t & -> & Z & HR & HC & HP).
  - exists X2. split_and!; [done|auto|]. by split.
  - intros i t Hi (Z & HR & HC & HP). test_bit; [|exists t; eauto].
    destruct (lookup_lt_is_Some_2 Ss i) as [wi Hwi]; [lia|].
    destruct (prune_row_spec NUM Ss X1 X2 Z i t wi Hlen HR HC HP e Hwi) as (t' & Z' & -> & H).
    exists t'. split; [done|]. by exists Z'.
  - cbn [mbind option_bind].
    destruct (bitset_union_spec _ _ _ _ _ HR1 HR) as (b' & -> & HRb & HCb).
    exists b', Z. split_and!; [done| |done]. split_and!; [done|auto|set_solver].
Qed.

(** Every variable occurs with at most one range value. *)
Definition single_valued (Ss : list WSD) (X : gset nat) : Prop :=
  forall i j wi wj mi mj, i ∈ X -> j ∈ X -> Ss !! i = Some wi -> Ss !! j = Some wj ->
    mi ∈ data wi -> mj ∈ data wj -> active mi -> active mj -> var mi = var mj -> rng mi = rng mj.

Lemma single_valued_sub (Ss : list WSD) (X Y : gset nat) :
  single_valued Ss X -> Y ⊆ X -> single_valued Ss Y.
Proof. intros Hs HY i j wi wj mi mj Hi Hj. apply Hs; by apply HY. Qed.

(** A covered clause then implies the covering one: dropping it keeps the event. *)
Lemma covers_implies (Ss : list WSD) (X : gset nat) (i j : nat) (u : world) (wj : WSD) :
  single_valued Ss X -> coherent Ss X -> i ∈ X -> j ∈ X -> covers Ss i j ->
  Ss !! j = Some wj -> sat_clause (lits wj) u = true ->
  exists wi, Ss !! i = Some wi /\ sat_clause (lits wi) u = true.
Proof.
  intros Hs Hc Hi Hj (wi & wj' & Hwi & Hwj & Hv) Hwj' Hsat. rewrite Hwj in Hwj'. injection Hwj' as ->.
  exists wi. split; [done|]. rewrite vars_found_true in Hv. rewrite sat_clause_true in *.
  intros m Hm Ha. destruct (proj1 (mentions_iff _ _) (Hv m Hm Ha)) as (m' & Hm' & Hvm).
  assert (Ha' : active m') by (intros Hr; apply Ha; by apply (Hc j i wj wi m' m)).
  rewrite <- Hvm, (Hsat m' Hm' Ha'). f_equal. by apply (Hs j i wj wi m' m).
Qed.

Lemma PrS_pruned (W : wtable) (Ss : list WSD) (X1 X2 Z : gset nat) :
  single_valued Ss (X1 ∪ X2) -> coherent Ss (X1 ∪ X2) -> pruned Ss X1 X2 Z ->
  PrS W Ss (X1 ∪ Z) = PrS W Ss (X1 ∪ X2).
Proof.
  intros Hs Hc [Hsub Hgone]. apply Pr_ext. intros u. apply eq_true_iff_eq. rewrite !sat_dnf_iff. split.
  - intros (i & w & Hi & ?). exists i, w. split; [|done]. clear -Hi Hsub. set_solver.
  - intros (j & w & Hj & Hw & Hsat). destruct (decide (j ∈ X1 ∪ Z)) as [|Hn]; [by exists j, w|].
    assert (j ∈ X2 /\ (j ∉ Z)) as [H2 Hz] by (clear -Hj Hn; set_solver).
    destruct (Hgone j H2 Hz) as (i & Hi & Hcov).
    destruct (covers_implies Ss _ i j u w Hs Hc (elem_of_union_l _ _ _ Hi) Hj Hcov Hw Hsat) as (wi & ? & ?).
    exists i, wi. split; [by apply elem_of_union_l|done].
Qed.
