(* ===== verification/DTreeExact.v ===== *)
(** * DTreeExact: [decomposition_tree_exact] computes the probability

    For lineage in which every variable occurs with one range value
    (tuple-independent relations), the exact recursion of [DTree] returns the
    probability of its set.  The first part is shared with the approximate
    recursion: what conditioning on one range value does to the clauses. *)
From S2P Require Import Prelude.
From S2P Require Import Bitset.
From S2P Require Import Worlds.
From S2P Require Import LocalCond.
From S2P Require Import Lineage.
From S2P Require Import Choice.
From S2P Require Import Condition.
From S2P Require Import WsTreeCorrect.
From S2P Require Import DTree.
From S2P Require Import DTreeCond.

(** What the clause array and the set satisfy at each call. *)
Record dlineage_ok (W : wtable) (NUM wl : nat) (Ss : list WSD) (X : gset nat) : Prop := {
  dl_line : lineage_ok W NUM Ss X;
  dl_single : single_valued Ss X;
  dl_wl : forall w, w ∈ Ss -> length (data w) = wl }.

Lemma dlineage_sub (W : wtable) (NUM wl : nat) (Ss : list WSD) (X Y : gset nat) :
  dlineage_ok W NUM wl Ss X -> Y ⊆ X -> dlineage_ok W NUM wl Ss Y.
Proof.
  intros [[H1 H2 H3] H4 H5] HY. split; [split; [done|done|]| |done].
  - by eapply coherent_sub.
  - by eapply single_valued_sub.
Qed.

Section Cond.
Context (W : wtable) (HW : table_ok W) (NUM wl : nat) (junk : nat -> N).
Context (Ss : list WSD) (T : gset nat) (t : bitset) (v : Z) (d : dist).
Context (HL : dlineage_ok W NUM wl Ss T) (HT : Rep NUM T t).
Context (Hact : forall i w m, i ∈ T -> Ss !! i = Some w -> m ∈ data w -> var m = v -> active m).

(** The clauses with [v = r] dropped. *)
Definition conditioned (r : Z) : list WSD := drop_on v r (having v r Ss T) Ss.

Lemma conditioned_maps (r : Z) (i : nat) (w' : WSD) (m : Map) :
  conditioned r !! i = Some w' -> m ∈ data w' -> active m ->
  exists w, Ss !! i = Some w /\ m ∈ data w.
Proof using HL.
  unfold conditioned, drop_on. rewrite upd_on_lookup. destruct (Ss !! i) as [w|] eqn:Hw; [|done].
  simpl. intros [= <-] Hm Ha. exists w. split; [done|].
  destruct (decide (i ∈ having v r Ss T)) as [Hh|]; [|done].
  apply (elem_of_having v r Ss T i w Hw) in Hh as [_ Hl].
  destruct (dropw_maps v r w m) as [[_ Hr]|[_ ?]]; [|done|done|by destruct Ha|done].
  apply (wo_nodup W), (clause_ok W Ss (li_ok _ _ _ _ (dl_line _ _ _ _ _ HL)) i w Hw).
Qed.

Lemma conditioned_ok (r : Z) (Y : gset nat) :
  (0 <= r)%Z -> Y ⊆ cond Ss T v r -> dlineage_ok W NUM wl (conditioned r) Y.
Proof using HL.
  intros Hr HY. pose proof HL as [[Hlen Hok Hcoh] Hs Hw].
  apply (dlineage_sub _ _ _ _ (cond Ss T v r)); [|done]. split; [split| |].
  - unfold conditioned, drop_on. by rewrite upd_on_length.
  - apply drop_on_ok; [done|lia].
  - by eapply coherent_cond.
  - intros i j wi wj mi mj Hi Hj Hwi Hwj Hmi Hmj Hai Haj.
    destruct (conditioned_maps r i wi mi Hwi Hmi Hai) as (w1 & ? & ?).
    destruct (conditioned_maps r j wj mj Hwj Hmj Haj) as (w2 & ? & ?).
    by apply (Hs i j w1 w2); [eapply cond_sub|eapply cond_sub|..].
  - intros w' (i & Hi)%list_elem_of_lookup. unfold conditioned, drop_on in Hi.
    rewrite upd_on_lookup in Hi. destruct (Ss !! i) as [w|] eqn:Hwi; [|done].
    simpl in Hi. injection Hi as <-. apply list_elem_of_lookup_2 in Hwi.
    destruct (decide _); [|by apply Hw]. rewrite <- (Hw w Hwi), <- (length_fmap var).
    by rewrite dropw_vars, length_fmap.
Qed.

(** Conditioning makes the measure smaller. *)
Lemma mu_cond (r : Z) (Y : gset nat) :
  (0 <= r)%Z -> having v r Ss T <> ∅ -> Y ⊆ cond Ss T v r -> mu (conditioned r) Y < mu Ss T.
Proof using HL HT.
  clear Hact junk. pose proof HL as [[Hlen Hok _] _ _]. intros Hr (i & Hi)%set_choose_L HY.
  assert (HiT : i ∈ T) by (eapply cond_sub; apply elem_of_union_l; exact Hi).
  assert (Hil : i < length Ss) by (rewrite Hlen; by apply (rep_bound _ _ _ _ HT)).
  assert (Hw : forall j w, Ss !! j = Some w -> j ∈ having v r Ss T ->
    length (lits w) = S (length (lits (dropw v r w)))).
  { intros j w Hw Hj. apply (dropw_lits W); [by eapply clause_ok|lia|].
    by apply (elem_of_having v r Ss T j w Hw). }
  unfold conditioned.
  apply (mu_lt _ _ _ _ i); [unfold drop_on; by rewrite upd_on_length| | |done..|right].
  - intros j Hj. by eapply cond_sub, HY.
  - intros j _. unfold weight. destruct (Ss !! j) as [w|] eqn:Hwj.
    + rewrite (drop_on_lookup Ss T v r j w Hwj). destruct (decide _) as [Hj|]; [|lia].
      specialize (Hw j w Hwj Hj). lia.
    + unfold drop_on. rewrite upd_on_lookup, Hwj. simpl. lia.
  - unfold weight. destruct (lookup_lt_is_Some_2 Ss i Hil) as [w Hwi]. rewrite Hwi.
    rewrite (drop_on_lookup Ss T v r i w Hwi), decide_True by done.
    specialize (Hw i w Hwi Hi). lia.
Qed.

Lemma mu_without : (exists i w, i ∈ T /\ Ss !! i = Some w /\ mentions v w) ->
  mu Ss (without v Ss T) < mu Ss T.
Proof using HL HT.
  clear Hact junk. pose proof HL as [[Hlen Hok _] _ _]. intros (i & w & Hi & Hw & Hm).
  apply (mu_lt _ _ _ _ i); [done| |done|done| |left].
  - unfold without. clear. set_solver.
  - rewrite Hlen. by apply (rep_bound _ _ _ _ HT).
  - rewrite (elem_of_without v Ss T i w Hw). tauto.
Qed.

(** Resetting on any set between the dropped clauses and all of them. *)
Lemma reset_between (r : Z) (Y : gset nat) (b : bitset) :
  Rep NUM Y b -> having v r Ss T ⊆ Y -> Y ⊆ cond Ss T v r ->
  reset_wsds_var_rng NUM (conditioned r) b v r = Some Ss.
Proof using HL.
  clear Hact junk. pose proof HL as [[Hlen Hok _] _ _]. intros HR HhY HYc.
  unfold reset_wsds_var_rng.
  rewrite (reset_wsds_var_rng_spec NUM (conditioned r) Y b) by
    (done || unfold conditioned, drop_on; by rewrite upd_on_length).
  f_equal. rewrite <- (reset_cond W Ss T v Hok r). unfold conditioned.
  apply list_eq. intros i. unfold reset_on, drop_on. rewrite !upd_on_lookup.
  destruct (Ss !! i) as [w|] eqn:Hw; [|done]. simpl. f_equal.
  destruct (decide (i ∈ Y)) as [HiY|HiY].
  - rewrite (decide_True (P := i ∈ cond Ss T v r)) by (by apply HYc). done.
  - rewrite decide_False by (intros Hh; by apply HiY, HhY).
    destruct (decide (i ∈ cond Ss T v r)) as [Hc|]; [|done]. symmetry. apply reset_wsd_none.
    unfold cond in Hc. apply elem_of_union in Hc as [Hc|Hc]; [by destruct HiY; apply HhY|].
    by apply (elem_of_without v Ss T i w Hw).
Qed.

(** What [find_wsds_with_var_rng] returns. *)
Inductive with_var_result (r : Z) : option bitset -> list WSD -> Prop :=
  | wv_none : having v r Ss T = ∅ -> with_var_result r None Ss
  | wv_certain b : bitset_test_empty (Some b) = Some true -> given W Ss T v r = 1%Qc ->
      with_var_result r (Some b) Ss
  | wv_some b : bitset_test_empty (Some b) = Some false -> Built NUM (having v r Ss T) (Some b) ->
      with_var_result r (Some b) (conditioned r).

Lemma find_with_var_spec (r : Z) :
  (0 <= r)%Z ->
  exists o l, find_wsds_with_var_rng junk NUM Ss t v r = Some (o, l) /\ with_var_result r o l.
Proof using HW HL HT Hact.
  intros Hr. pose proof HL as [[Hlen Hok Hcoh] _ _].
  rewrite find_wsds_with_var_rng_eq by (by eapply clauses_nodup || lia).
  destruct (find_wsds_with_var_rng_spec junk NUM W Ss T t v r Hlen Hok HT)
    as (ob & [[-> HB]|(b & i & w & -> & -> & HR & HC & Hi & Hw & Hp)]).
  - destruct ob as [b|]; eexists _, _; (split; [done|]).
    + apply wv_some; [|done]. destruct HB as (HRb & _ & Hne).
      destruct (bitset_test_empty_spec _ _ _ HRb) as (e & He & Hemp & _). rewrite He.
      destruct e; [by destruct (Hne (Hemp eq_refl))|done].
    + simpl in HB. rewrite HB. unfold drop_on. rewrite upd_on_empty. by apply wv_none.
  - eexists _, _. split; [done|]. apply wv_certain.
    + destruct (bitset_test_empty_spec _ _ _ HR) as (e & He & _ & Hemp). rewrite He.
      by rewrite (Hemp HC eq_refl).
    + unfold given. rewrite (PrS_cond W) by (done || lia).
      by apply (PrS_cond_certain W Ss T v (to_wtable _ HW) Hok r i w); [lia|..].
Qed.

Lemma given_without (r : Z) :
  (0 <= r)%Z -> having v r Ss T = ∅ -> given W Ss T v r = PrS W Ss (without v Ss T).
Proof using HL Hact.
  intros Hr He. pose proof HL as [[Hlen Hok Hcoh] _ _].
  unfold given. rewrite (PrS_cond W) by (done || lia). by apply PrS_without.
Qed.

Lemma given_cond (r : Z) :
  (0 <= r)%Z -> given W Ss T v r = PrS W (conditioned r) (cond Ss T v r).
Proof using HL Hact.
  intros Hr. pose proof HL as [[Hlen Hok Hcoh] _ _]. apply (PrS_cond W); [done|done|lia].
Qed.

(** The pruned union denotes the same event and has all that recursion needs. *)
Lemma pruned_cond (r : Z) (b : bitset) (o : option bitset) :
  (0 <= r)%Z -> Built NUM (having v r Ss T) (Some b) -> Built NUM (without v Ss T) o ->
  exists b' Y, bitset_union_removing_subsumption junk NUM (conditioned r) b o = Some b' /\
    Rep NUM Y b' /\ Clean b' /\ dlineage_ok W NUM wl (conditioned r) Y /\
    mu (conditioned r) Y < mu Ss T /\ PrS W (conditioned r) Y = given W Ss T v r /\
    reset_wsds_var_rng NUM (conditioned r) b' v r = Some Ss.
Proof using HL HT Hact.
  intros Hr Hb Ho.
  pose proof (conditioned_ok r (cond Ss T v r) Hr ltac:(done)) as [[Hlen Hok Hcoh] Hsv _].
  destruct (union_subsumption_spec NUM junk (conditioned r) _ _ b o Hlen Hb Ho)
    as (b' & Z & Hu & (HR & HC & _) & HP).
  exists b', (having v r Ss T ∪ Z). split_and!; [done..| | | |].
  - apply conditioned_ok; [done|]. destruct HP as [Hs _]. unfold cond. clear -Hs. set_solver.
  - apply mu_cond; [done|apply Hb|]. destruct HP as [Hs _]. unfold cond. clear -Hs. set_solver.
  - rewrite given_cond by done. by apply PrS_pruned.
  - apply (reset_between r _ b' HR); destruct HP as [Hs _]; unfold cond; clear -Hs; set_solver.
Qed.
End Cond.

(** ** Eliminating a variable *)

Definition exact_ok (W : wtable) (NUM wl : nat)
    (rec : option bitset -> Z -> dst -> option (prob * dst)) (bound : nat) : Prop :=
  forall Ss X o col wt stop, dlineage_ok W NUM wl Ss X -> ORep NUM X o -> mu Ss X < bound ->
    shape wt = W ->
    exists wt', rec o col (mk_dst Ss wt stop) = Some (PrS W Ss X, mk_dst Ss wt' stop) /\ shape wt' = W.

Section Elim.
Context (W : wtable) (HW : table_ok W) (NUM wl : nat) (junk : nat -> N).
Context (rec : option bitset -> Z -> dst -> option (prob * dst)) (bound : nat).
Context (Hrec : exact_ok W NUM wl rec bound).
Context (Ss : list WSD) (T : gset nat) (t : bitset) (v : Z) (d : dist).
Context (HL : dlineage_ok W NUM wl Ss T) (HT : Rep NUM T t) (Hmu : mu Ss T <= bound).
Context (Hv : (v, d) ∈ W).
Context (Hact : forall i w m, i ∈ T -> Ss !! i = Some w -> m ∈ data w -> var m = v -> active m).
Context (Hocc : exists i w, i ∈ T /\ Ss !! i = Some w /\ mentions v w).
Context (o : option bitset) (Ho : Built NUM (without v Ss T) o).
Context (col : Z) (stop : bool).

Lemma exact_value_spec (r : Z) (p pw : Qc) (wt : list worldTableEntry) :
  (0 <= r)%Z -> pw_ok W Ss T v pw -> shape wt = W ->
  exists pw' wt', exact_value junk NUM rec t o v r p col pw (mk_dst Ss wt stop) =
      Some (pw', (p * given W Ss T v r)%Qc, mk_dst Ss wt' stop) /\ pw_ok W Ss T v pw' /\ shape wt' = W.
Proof using All.
  intros Hr Hpw Hsh. unfold exact_value. simpl.
  destruct (find_with_var_spec W HW NUM wl junk Ss T t v HL HT Hact r Hr)
    as (ob & l & -> & [He|b He Hg|b He Hb]); cbn [mbind option_bind].
  - rewrite (given_without W NUM wl Ss T v HL Hact r Hr He).
    destruct (decide (pw = (- (1))%Qc)) as [->|Hne].
    + destruct (Hrec Ss (without v Ss T) o col wt stop) as (wt' & Hrc & Hsh').
      * eapply dlineage_sub; [exact HL|]. unfold without. clear. set_solver.
      * by apply built_orep.
      * pose proof (mu_without W NUM wl Ss T t v HL HT Hocc). lia.
      * done.
      * unfold set_S. simpl. rewrite Hrc. cbn [mbind option_bind]. eexists _, wt'.
        split_and!; [done|by right|done].
    + destruct Hpw as [?|Hpw]; [done|]. cbn [mbind option_bind]. exists pw, wt. rewrite <- Hpw.
      split_and!; [done|by right|done].
  - simpl in He. rewrite He. cbn [mbind option_bind]. exists pw, wt. rewrite Hg.
    split_and!; [|done..]. do 3 f_equal. ring.
  - simpl in He. rewrite He. cbn [mbind option_bind].
    destruct (pruned_cond W NUM wl junk Ss T t v HL HT Hact r b o Hr Hb Ho)
      as (b' & Y & Hu & HR & HC & HLY & HmuY & HP & Hreset).
    unfold set_S. simpl. rewrite Hu. cbn [mbind option_bind].
    destruct (Hrec (conditioned Ss T v r) Y (Some b') col wt stop) as (wt' & Hrc & Hsh');
      [done|split; [done|by left]|lia|done|].
    rewrite Hrc. cbn [mbind option_bind]. simpl. rewrite Hreset. cbn [mbind option_bind]. exists pw, wt'.
    rewrite HP. by split_and!.
Qed.

Lemma exact_loop_spec (k n j : nat) (pw : Qc) (wt : list worldTableEntry) :
  W !! k = Some (v, d) -> j + n = length d -> pw_ok W Ss T v pw -> shape wt = W ->
  exists res wt', exact_loop junk NUM rec (seq j n) k t o v col (wsum (take j d) (given W Ss T v)) pw
      (mk_dst Ss wt stop) = Some res /\ shape wt' = W /\
    (res = inr (PrS W Ss T, mk_dst Ss wt' stop) \/
     res = inl (1%Qc, mk_dst Ss wt' stop) /\ PrS W Ss T = 1%Qc).
Proof using All.
  intros Hk. revert j pw wt. induction n as [|n IH]; intros j pw wt Hj Hpw Hsh.
  { exists (inr (PrS W Ss T, mk_dst Ss wt stop)), wt. split_and!; [|done|by left]. simpl.
    rewrite take_ge by lia. by rewrite (given_total W HW Ss T v d Hv). }
  destruct (lookup_lt_is_Some_2 d j) as [[r p] Hd]; [lia|].
  rewrite <- Hsh in Hk. destruct (shape_entry_lookup wt k j v d (r, p) Hk Hd)
    as (e & re & He & Hre & [= -> ->]).
  assert (Hlen : rng_entry_count e = length d).
  { destruct (shape_lookup wt k v d Hk) as (e' & He' & _ & <-). unfold rng_entry_count.
    rewrite length_fmap. congruence. }
  rewrite Hsh in Hk. cbn [seq exact_loop ds_wt]. rewrite He. cbn [mbind option_bind].
  rewrite Hre. cbn [mbind option_bind].
  destruct (exact_value_spec (re_rng re) (re_p re) pw wt) as (pw' & wt' & -> & Hpw' & Hsh');
    [|done|done|].
  { eapply (to_rngs _ HW); [exact Hv|]. by eapply list_elem_of_lookup_2. }
  cbn [mbind option_bind]. specialize (IH (S j) pw' wt' ltac:(lia) Hpw' Hsh').
  rewrite (take_S_r _ _ _ Hd), wsum_snoc in IH.
  destruct (decide (_ = 1%Qc)) as [H1|H1]; [|exact IH].
  destruct (Nat.eqb_spec (rng_entry_count e) 1) as [Hc|Hc]; [|exact IH].
  exists (inl (1%Qc, mk_dst Ss wt' stop)), wt'. split_and!; [done..|right]. split; [done|].
  rewrite (given_total W HW Ss T v d Hv), <- H1. rewrite Hc in Hlen. assert (j = 0) as -> by lia.
  destruct d as [|rp [|]]; [done| |done]. simpl in Hd. injection Hd as ->. simpl. ring.
Qed.
End Elim.

(** ** The recursion *)

Lemma negate_sub (X T : gset nat) : T ⊆ X -> (X ∖ T) ∪ (T ∖ X) = X ∖ T.
Proof. set_solver. Qed.

Lemma difference_sub (X T : gset nat) : X ∖ T ⊆ X.
Proof. set_solver. Qed.

(** Both parts of a split are smaller than the whole, or the left one is the whole. *)
Lemma mu_split (W : wtable) (NUM wl : nat) (Ss : list WSD) (X T : gset nat) (b : bitset) :
  dlineage_ok W NUM wl Ss X -> Rep NUM X b -> component Ss X T ->
  mu Ss T <= mu Ss X /\ mu Ss (X ∖ T) < mu Ss X.
Proof.
  intros [[Hlen _ _] _ _] HX Hco. pose proof (co_sub _ _ _ Hco) as HTX.
  assert (Hlen' : forall i, i ∈ X -> i < length Ss)
    by (intros i Hi; rewrite Hlen; by apply (rep_bound _ _ _ _ HX)).
  split.
  - unfold mu. apply sum_list_with_le. intros i _. destruct (decide (i ∈ T)) as [Hi|]; [|lia].
    by rewrite decide_True by (by apply HTX).
  - destruct (set_choose_L T (co_ne _ _ _ Hco)) as [i Hi].
    apply (mu_lt Ss Ss X (X ∖ T) i); [done|clear; set_solver|lia|auto|auto|left; clear -Hi; set_solver].
Qed.

Section Correct.
Context (W : wtable) (HW : table_ok W) (NUM wl : nat) (junk : nat -> N).

(** The chosen variable of a component, with what elimination needs. *)
Lemma choice_spec (Ss : list WSD) (X T : gset nat) (t : bitset) (wt : list worldTableEntry) (col c0 : Z) :
  dlineage_ok W NUM wl Ss T -> Rep NUM T t -> component Ss X T -> size T <> 1 -> shape wt = W ->
  exists k col' wt' e d o,
    choose_var_max_occur_same_column NUM Ss t wt col c0 = Some (Some k, col', wt') /\
    shape wt' = W /\ wt' !! k = Some e /\ W !! k = Some (wt_var e, d) /\
    (fun re => (re_rng re, re_p re)) <$> rng_entries e = d /\
    find_wsds_without_var junk NUM Ss t (wt_var e) = Some o /\
    Built NUM (without (wt_var e) Ss T) o /\
    (forall i w m, i ∈ T -> Ss !! i = Some w -> m ∈ data w -> var m = wt_var e -> active m) /\
    (exists i w, i ∈ T /\ Ss !! i = Some w /\ mentions (wt_var e) w).
Proof.
  clear HW. intros [[Hlen Hok Hcoh] _ _] HT Hco Hsz Hsh.
  destruct (choose_max_occur_spec NUM Ss W Hlen Hok T t wt col c0 HT Hsh)
    as (res & col' & wt1 & Hc & Hsh1 & Hres). destruct res as [k|].
  2: { exfalso. destruct (co_active _ _ _ Hco Hsz) as (i & w & m & Hi & Hw & Hm & Ha).
       apply (Hres m); [|done]. by exists i, w. }
  destruct Hres as (m & ix & (i & w & Hi & Hw & Hm) & Ha & Hre).
  assert (map_ok W m) as [_ _ (k' & i' & d & r & Hre' & Hk & _) _].
  { pose proof (wo_maps _ _ (clause_ok W Ss Hok i w Hw)) as Hall.
    rewrite Forall_forall in Hall. auto. }
  rewrite Hre in Hre'. injection Hre' as <- <-. pose proof Hk as Hk'. rewrite <- Hsh1 in Hk'.
  destruct (shape_lookup wt1 k (var m) d Hk') as (e & He & Hev & Hed).
  destruct (find_wsds_without_var_spec junk NUM Ss T t (wt_var e) Hlen HT) as (o & Ho & HBo).
  exists k, col', wt1, e, d, o. rewrite Hev in *. split_and!; try done.
  - apply (coherent_active Ss T m Hcoh); [by exists i, w|done].
  - exists i, w. split_and!; [done..|]. apply mentions_iff. by exists m.
Qed.

Lemma exact_component_spec (rec : option bitset -> Z -> dst -> option (prob * dst)) (bound : nat)
    (Ss : list WSD) (X T : gset nat) (t : bitset) (col : Z) (wt : list worldTableEntry) (stop : bool) :
  exact_ok W NUM wl rec bound -> dlineage_ok W NUM wl Ss T -> Rep NUM T t -> component Ss X T ->
  mu Ss T <= bound -> shape wt = W ->
  exists res wt', exact_component junk NUM rec t col (mk_dst Ss wt stop) = Some res /\ shape wt' = W /\
    (res = inr (PrS W Ss T, mk_dst Ss wt' stop) \/
     res = inl (1%Qc, mk_dst Ss wt' stop) /\ PrS W Ss T = 1%Qc).
Proof using HW.
  intros Hrec HL HT Hco Hmu Hsh. pose proof HL as [[Hlen Hok Hcoh] _ _]. unfold exact_component.
  destruct (bitset_test_singleton_spec _ _ _ HT) as [(i & -> & ->)|[Hsz ->]];
    cbn [mbind option_bind].
  - destruct (lookup_lt_is_Some_2 Ss i) as [w Hw].
    { rewrite Hlen. apply (rep_bound _ _ _ _ HT). set_solver. }
    destruct (Z.eqb_spec (Z.of_nat i) (-1)) as [?|_]; [lia|]. simpl.
    rewrite Nat2Z.id, Hw. simpl. exists (inr (wprob w, mk_dst Ss wt stop)), wt.
    split_and!; [done..|left]. by rewrite (PrS_singleton W HW Ss i w).
  - simpl. destruct (choice_spec Ss X T t wt col 0 HL HT Hco Hsz Hsh)
      as (k & col' & wt1 & e & d & o & -> & Hsh1 & He & Hk & Hed & Ho & HBo & Hact & Hocc).
    cbn [mbind option_bind]. rewrite He. cbn [mbind option_bind ds_S]. rewrite Ho.
    cbn [mbind option_bind].
    replace (rng_entry_count e) with (length d)
      by (rewrite <- Hed; unfold rng_entry_count; by rewrite length_fmap).
    apply (exact_loop_spec W HW NUM wl junk rec bound Hrec Ss T t (wt_var e) d HL HT Hmu);
      [by eapply list_elem_of_lookup_2|done|done|done|done|done|by left|done].
Qed.

(** With enough fuel the exact recursion returns the probability of its set. *)
Lemma exact_rec_ok (fuel : nat) : exact_ok W NUM wl (decomposition_tree_exact junk NUM fuel) fuel.
Proof using HW.
  induction fuel as [|fuel IH]; intros Ss X o col wt stop HL HX Hmu Hsh; [lia|].
  pose proof HL as [[Hlen Hok Hcoh] _ _]. simpl. destruct o as [b|]; cbn [ORep] in HX.
  2: { subst X. simpl. rewrite (PrS_empty W HW). by exists wt. }
  destruct HX as [HX Hc].
  destruct (bitset_test_empty_spec _ _ _ HX) as (e & -> & He & Hemp). cbn [mbind option_bind].
  destruct e.
  { rewrite (He eq_refl), (PrS_empty W HW). by exists wt. }
  assert (Hne : X <> ∅) by (intros ->; destruct Hc as [Hc|]; [by specialize (Hemp Hc eq_refl)|done]).
  unfold find_independent_split.
  destruct (find_independent_split_spec Ss NUM Hlen junk X b HX Hne)
    as (t & T & -> & HT & HCt & Hco). cbn [mbind option_bind].
  assert (HLT : dlineage_ok W NUM wl Ss T) by (eapply dlineage_sub; [done|apply Hco]).
  destruct (mu_split W NUM wl Ss X T b HL HX Hco) as [HmuT HmuR].
  destruct (exact_component_spec (decomposition_tree_exact junk NUM fuel) fuel Ss X T t col wt stop
    IH HLT HT Hco ltac:(lia) Hsh) as (res & wt1 & -> & Hsh1 & [-> |[-> H1]]); cbn [mbind option_bind].
  2: { exists wt1. by rewrite (PrS_mono_one W HW Ss X T) by (done || apply Hco). }
  destruct (decide (PrS W Ss T = 1%Qc)) as [H1|H1].
  { exists wt1. by rewrite (PrS_mono_one W HW Ss X T) by (done || apply Hco). }
  destruct (bitset_negate_spec _ _ _ _ _ HX HT) as (b' & -> & HR & HC). cbn [mbind option_bind].
  rewrite (negate_sub X T) in HR by apply Hco.
  destruct (IH Ss (X ∖ T) (Some b') col wt1 stop) as (wt2 & -> & Hsh2); [| |lia|done|].
  - eapply dlineage_sub; [exact HL|]. apply difference_sub.
  - split; [done|left; auto].
  - cbn [mbind option_bind]. exists wt2. split; [|done]. do 3 f_equal.
    symmetry. apply PrS_split; [apply HW|done].
Qed.
End Correct.
