(* ===== verification/Bounds.v ===== *)
(** * Bounds: the bucketing bounds enclose the probability

    [compute_upper_and_lower_bounds] of [DTree] puts every clause of a set into
    the first bucket that it shares no variable with.  The clauses of a bucket are
    independent, so the bucket's probability is that of its disjunction; the
    greatest of them is a lower bound and their sum an upper bound of the
    probability of the set. *)
From S2P Require Import Prelude.
From S2P Require Import Bitset.
From S2P Require Import Worlds.
From S2P Require Import LocalCond.
From S2P Require Import Lineage.
From S2P Require Import Choice.
From S2P Require Import Condition.
From S2P Require Import WsTreeCorrect.
From S2P Require Import Sort.
From S2P Require Import DTree.

(** ** Probabilities of clause sets *)

Section Sets.
Context (W : wtable) (HW : wtable_ok W) (Ss : list WSD).

Lemma PrS_bounds (X : gset nat) : (0 <= PrS W Ss X)%Qc /\ (PrS W Ss X <= 1)%Qc.
Proof using HW. split; [by apply Pr_nonneg|by apply Pr_le_1]. Qed.

Lemma PrS_mono (X Y : gset nat) : X ⊆ Y -> (PrS W Ss X <= PrS W Ss Y)%Qc.
Proof using HW.
  intros HXY. apply Pr_mono; [done|]. intros u (i & w & Hi & ?)%sat_dnf_iff.
  apply sat_dnf_iff. exists i, w. auto.
Qed.

Lemma sat_union (X Y : gset nat) (u : world) :
  sat_dnf (dnf Ss (X ∪ Y)) u = sat_dnf (dnf Ss X) u || sat_dnf (dnf Ss Y) u.
Proof.
  apply eq_true_iff_eq. rewrite orb_true_iff, !sat_dnf_iff.
  setoid_rewrite elem_of_union. naive_solver.
Qed.

Lemma PrS_union_le (X Y : gset nat) : (PrS W Ss (X ∪ Y) <= PrS W Ss X + PrS W Ss Y)%Qc.
Proof using HW.
  unfold PrS. rewrite (Pr_ext W _ _ (sat_union X Y)), Pr_or.
  pose proof (Pr_nonneg W HW (fun u => sat_dnf (dnf Ss X) u && sat_dnf (dnf Ss Y) u)). qc_lra.
Qed.

Lemma PrS_no_clause : PrS W Ss ∅ = 0%Qc.
Proof using HW. exact (Pr_const W HW false). Qed.

Lemma PrS_union_list_le (Xs : list (gset nat)) :
  (PrS W Ss (⋃ Xs) <= foldr (fun X acc => PrS W Ss X + acc) 0 Xs)%Qc.
Proof using HW.
  induction Xs as [|X Xs IH]; simpl.
  - rewrite PrS_no_clause. apply Qcle_refl.
  - pose proof (PrS_union_le X (⋃ Xs)). qc_lra.
Qed.

(** The variables that occur actively in the clauses of a set. *)
Definition set_vars (X : gset nat) (x : Z) : Prop :=
  exists i w, i ∈ X /\ Ss !! i = Some w /\ x ∈ (lits w).*1.

(** A clause that shares no variable with a set is independent of it. *)
Lemma PrS_add (X : gset nat) (i : nat) (w : WSD) :
  Forall (wsd_ok W) Ss -> Ss !! i = Some w ->
  (forall x, x ∈ (lits w).*1 -> ~ set_vars X x) ->
  PrS W Ss ({[i]} ∪ X) = (PrS W Ss X + wprob w - PrS W Ss X * wprob w)%Qc.
Proof using HW.
  intros Hok Hw Hdis. unfold PrS at 1. rewrite (Pr_ext W _ _ (sat_union _ _)).
  rewrite Pr_or_indep.
  - assert (Pr W (sat_dnf (dnf Ss {[i]})) = wprob w) as ->; [|unfold PrS; ring].
    rewrite <- (wsd_prob W w HW) by (rewrite Forall_forall in Hok; by eapply Hok, list_elem_of_lookup_2).
    apply Pr_ext. intros u. apply eq_true_iff_eq. rewrite sat_dnf_iff. split.
    + intros (j & w' & ->%elem_of_singleton & Hw' & Hs). congruence.
    + intros Hs. exists i, w. set_solver.
  - done.
  - intros x _. destruct (decide (x ∈ (lits w).*1)) as [Hx|Hx]; [right|left];
      apply sat_dnf_ignores; intros c (j & wj & Hj & Hwj & ->)%elem_of_dnf.
    + intros Hxj. apply (Hdis x Hx). by exists j, wj.
    + apply elem_of_singleton in Hj as ->. congruence.
Qed.
End Sets.

(** ** Buckets *)

Section Buckets.
Context (W : wtable) (HW : wtable_ok W) (Ss : list WSD) (wl : nat).
Context (Hok : Forall (wsd_ok W) Ss) (Hwl : forall w, w ∈ Ss -> length (data w) = wl).

(** The bucket [b] holds the clauses [B]. *)
Record bucket_rep (B : gset nat) (b : bucket_info) : Prop := {
  br_vars : forall x, x ∈ bk_vars b <-> set_vars Ss B x;
  br_prob : bk_prob b = PrS W Ss B;
  br_room : length (bk_vars b) < bk_capacity b \/ wl = 0 }.

Lemma exists_in_bucket_false (w : WSD) (b : bucket_info) :
  exists_in_bucket w b = false <-> forall x, x ∈ bk_vars b -> x ∉ (lits w).*1.
Proof.
  rewrite <- not_true_iff_false. unfold exists_in_bucket. rewrite existsb_exists.
  setoid_rewrite existsb_exists. setoid_rewrite <- list_elem_of_In.
  setoid_rewrite andb_true_iff. setoid_rewrite negb_true_iff. setoid_rewrite Z.eqb_neq.
  setoid_rewrite Z.eqb_eq. setoid_rewrite elem_of_lit_vars. unfold active. naive_solver.
Qed.

Lemma add_vars_spec (ms : list Map) (b : bucket_info) :
  length (bk_vars b) < bk_capacity b \/ ms = [] ->
  exists b', for_list ms
      (fun m b => if (rng m =? -1)%Z then Some b else add_var_to_bucket (var m) b) b = Some b' /\
    bk_vars b' = bk_vars b ++ (var <$> filter active ms) /\ bk_prob b' = bk_prob b /\
    (length (bk_vars b') < bk_capacity b' \/ ms = []).
Proof.
  clear. revert b. induction ms as [|m ms IH]; intros b Hroom; simpl.
  { exists b. rewrite app_nil_r. auto. }
  destruct Hroom as [Hroom|]; [|done]. rewrite filter_cons. unfold active at 1.
  destruct (Z.eqb_spec (rng m) (-1)) as [Hr|Hr].
  - cbn [mbind option_bind]. destruct (IH b) as (b' & Hb & Hv & Hp & Hc); [by left|].
    exists b'. rewrite decide_False by auto. split_and!; [done..|].
    destruct Hc as [?| ->]; [by left|]. left. simpl in Hb. by injection Hb as <-.
  - unfold add_var_to_bucket. rewrite (proj2 (Nat.ltb_lt _ _)) by done. cbn [mbind option_bind].
    set (b1 := mk_bucket _ _ _).
    assert (Hb1 : length (bk_vars b1) < bk_capacity b1).
    { unfold b1; simpl. rewrite length_app; simpl. destruct (Nat.eqb_spec (bk_capacity b) (length (bk_vars b) + 1)); lia. }
    destruct (IH b1) as (b' & Hb & Hv & Hp & Hc); [by left|].
    exists b'. rewrite decide_True by done. split_and!; [done| |done|].
    + rewrite Hv. unfold b1; simpl. by rewrite <- app_assoc.
    + destruct Hc as [?| ->]; [by left|]. left. simpl in Hb. by injection Hb as <-.
Qed.

(** Adding a clause to a bucket that it is independent of. *)
Lemma add_to_bucket_spec (B : gset nat) (b : bucket_info) (i : nat) (w : WSD) :
  bucket_rep B b -> Ss !! i = Some w -> exists_in_bucket w b = false ->
  exists b', add_to_bucket w b = Some b' /\ bucket_rep ({[i]} ∪ B) b'.
Proof using HW Hok Hwl.
  intros [Hv Hp Hr] Hw Hex. rewrite exists_in_bucket_false in Hex. unfold add_to_bucket.
  assert (Hlen : length (data w) = wl) by (by eapply Hwl, list_elem_of_lookup_2).
  destruct (add_vars_spec (data w) b) as (b1 & -> & Hv1 & Hp1 & Hc1).
  { destruct Hr; [by left|right]. apply nil_length_inv. lia. }
  cbn [mbind option_bind]. eexists. split; [done|]. split; simpl.
  - intros x. rewrite Hv1, elem_of_app, Hv. unfold set_vars.
    assert (Hx : x ∈ var <$> filter active (data w) <-> x ∈ (lits w).*1).
    { unfold lits. rewrite <- list_fmap_compose. done. }
    rewrite Hx. split.
    + intros [(j & wj & ? & ? & ?)|?].
      * exists j, wj. split_and!; [by apply elem_of_union_r|done..].
      * exists i, w. split_and!; [by apply elem_of_union_l, elem_of_singleton|done..].
    + intros (j & wj & [->%elem_of_singleton|Hj]%elem_of_union & Hwj & Hxj);
        [right; congruence|left; by exists j, wj].
  - rewrite Hp1, Hp. symmetry. apply PrS_add; [done..|].
    intros x Hxw Hxv. apply (Hex x); [by apply Hv|done].
  - destruct Hc1 as [?|Hd]; [by left|right]. by rewrite Hd in Hlen.
Qed.

(** Every processed clause is in some bucket. *)
Record buckets_rep (X : gset nat) (Bs : list (gset nat)) (bs : buckets) : Prop := {
  bs_all : Forall2 bucket_rep Bs (bucket_list bs);
  bs_union : ⋃ Bs = X;
  bs_room : length (bucket_list bs) < bs_capacity bs }.

Lemma empty_bucket_rep (w : WSD) :
  w ∈ Ss -> bucket_rep ∅ (mk_bucket (length (data w)) [] 0%Qc).
Proof using HW Hwl.
  intros Hw. split; simpl.
  - intros x. split; [by intros ?%elem_of_nil|]. intros (i & wi & Hi & _). by apply not_elem_of_empty in Hi.
  - symmetry. by apply (PrS_no_clause W HW).
  - rewrite (Hwl w Hw). lia.
Qed.

Lemma union_list_insert (Bs : list (gset nat)) (j i : nat) (B : gset nat) :
  Bs !! j = Some B -> ⋃ (<[j := {[i]} ∪ B]> Bs) = {[i]} ∪ ⋃ Bs.
Proof.
  clear. revert j. induction Bs as [|B' Bs IH]; intros [|j] Hj; simpl in *; [done..| |].
  - injection Hj as ->. clear. set_solver.
  - rewrite (IH j Hj). clear. set_solver.
Qed.

Lemma place_clause_spec (X : gset nat) (Bs : list (gset nat)) (bs : buckets) (i : nat) (w : WSD) :
  buckets_rep X Bs bs -> Ss !! i = Some w ->
  exists bs' Bs', place_clause w bs = Some bs' /\ buckets_rep ({[i]} ∪ X) Bs' bs'.
Proof using HW Hok Hwl.
  intros [Hall Hun Hroom] Hw. unfold place_clause.
  destruct (list_find _ (bucket_list bs)) as [[j b]|] eqn:Hf.
  - apply list_find_Some in Hf as (Hj & Hex & _).
    destruct (Forall2_lookup_r _ _ _ _ _ Hall Hj) as (B & HB & Hrep).
    destruct (add_to_bucket_spec B b i w Hrep Hw Hex) as (b' & -> & Hrep').
    cbn [mbind option_bind]. eexists _, (<[j := {[i]} ∪ B]> Bs). split; [done|]. split; simpl.
    + by apply Forall2_insert.
    + by rewrite (union_list_insert Bs j i B HB), Hun.
    + by rewrite length_insert.
  - unfold add_new_bucket. rewrite (proj2 (Nat.ltb_lt _ _)) by done.
    destruct (add_to_bucket_spec ∅ (mk_bucket (length (data w)) [] 0%Qc) i w) as (b' & -> & Hrep');
      [apply empty_bucket_rep; by eapply list_elem_of_lookup_2|done| |].
    { apply exists_in_bucket_false. simpl. by intros x ?%elem_of_nil. }
    cbn [mbind option_bind]. eexists _, (Bs ++ [{[i]} ∪ ∅]). split; [done|]. split; simpl.
    + apply Forall2_app; [done|]. by constructor.
    + rewrite union_list_app_L, Hun. simpl. clear. set_solver.
    + rewrite length_app. simpl.
      destruct (Nat.eqb_spec (bs_capacity bs) (length (bucket_list bs) + 1)); lia.
Qed.

(** ** The bounds *)

Lemma bucket_bounds_spec (l : list bucket_info) :
  (forall b, b ∈ l -> (0 <= bk_prob b)%Qc) ->
  exists max, bucket_bounds l = (max, foldr (fun b acc => bk_prob b + acc) 0 l)%Qc /\
    (0 <= max)%Qc /\ (max = 0%Qc \/ exists b, b ∈ l /\ max = bk_prob b).
Proof.
  clear. intros Hpos. unfold bucket_bounds.
  assert (Hgen : forall l m s, (0 <= m)%Qc -> exists max,
    foldl (fun '(max, sum) b => (if decide (max < bk_prob b)%Qc then bk_prob b else max,
             (sum + bk_prob b)%Qc)) (m, s) l =
    (max, s + foldr (fun b acc => bk_prob b + acc) 0 l)%Qc /\ (0 <= max)%Qc /\
    (max = m \/ exists b, b ∈ l /\ max = bk_prob b)).
  { clear. induction l as [|b l IH]; intros m s Hm; simpl.
    - exists m. split_and!; [f_equal; ring|done|by left].
    - destruct (IH (if decide (m < bk_prob b)%Qc then bk_prob b else m) (s + bk_prob b)%Qc)
        as (max & Hf & Hmax & Hor).
      { destruct (decide _) as [H|H]; [|done]. qc_lra. }
      exists max. rewrite Hf. split_and!; [f_equal; ring|done|].
      destruct Hor as [->|(b' & Hb' & ->)]; [|right; exists b'; split; [by apply list_elem_of_further|done]].
      destruct (decide _); [right; exists b; split; [apply list_elem_of_here|done]|by left]. }
  destruct (Hgen l 0%Qc 0%Qc (Qcle_refl 0)) as (max & Hf & Hmax & Hor).
  exists max. rewrite Hf. split_and!; [f_equal; ring|done|done].
Qed.

Lemma compute_bounds_spec (NUM : nat) (X : gset nat) (set : bitset) :
  length Ss = NUM -> Rep NUM X set ->
  exists u l, compute_upper_and_lower_bounds NUM (Some set) Ss = Some (u, l) /\
    (0 <= l)%Qc /\ (l <= PrS W Ss X)%Qc /\ (PrS W Ss X <= u)%Qc /\ (u <= 1)%Qc.
Proof using HW Hok Hwl.
  intros Hlen HX. unfold compute_upper_and_lower_bounds.
  edestruct (for_upto_inv (fun i bs => exists Bs, buckets_rep (X ∩ below i) Bs bs) NUM)
    as (bs & -> & Bs & Hrep).
  - exists []. split; simpl; [constructor| |lia]. cbn. clear. set_solver.
  - intros i bs Hi (Bs & Hrep). rewrite below_S.
    destruct (lookup_lt_is_Some_2 Ss i) as [w Hw]; [lia|]. test_bit.
    + rewrite Hw. cbn [mbind option_bind].
      destruct (place_clause_spec _ _ _ i w Hrep Hw) as (bs' & Bs' & -> & Hrep').
      exists bs'. split; [done|]. exists Bs'.
      replace (X ∩ ({[i]} ∪ below i)) with ({[i]} ∪ X ∩ below i); [done|].
      clear -e. set_solver.
    + exists bs. split; [done|]. exists Bs.
      replace (X ∩ ({[i]} ∪ below i)) with (X ∩ below i); [done|]. clear -n. set_solver.
  - cbn [mbind option_bind].
    assert (HXn : X ∩ below NUM = X).
    { apply set_eq. intros i. rewrite elem_of_intersection, elem_of_below.
      pose proof (rep_bound _ _ _ i HX). tauto. }
    rewrite HXn in Hrep. destruct Hrep as [Hall Hun _].
    assert (Hb : forall b, b ∈ bucket_list bs -> exists B, B ⊆ X /\ bk_prob b = PrS W Ss B).
    { intros b (j & Hj)%list_elem_of_lookup.
      destruct (Forall2_lookup_r _ _ _ _ _ Hall Hj) as (B & HB & [_ Hp _]). exists B.
      split; [|done]. rewrite <- Hun. apply list_elem_of_lookup_2 in HB.
      clear -HB. intros x Hx. apply elem_of_union_list. by exists B. }
    destruct (bucket_bounds_spec (bucket_list bs)) as (max & -> & Hmax & Hor).
    { intros b (B & _ & ->)%Hb. by apply PrS_bounds. }
    pose proof (PrS_bounds W HW Ss X) as [HP0 HP1].
    set (sum := foldr _ _ _).
    assert (Hsum : (PrS W Ss X <= sum)%Qc).
    { rewrite <- Hun. eapply Qcle_trans; [apply (PrS_union_list_le W HW)|].
      unfold sum. clear -Hall. induction Hall as [|B b Bs l [_ Hp _] _ IH]; simpl; [apply Qcle_refl|].
      rewrite Hp. by apply Qcplus_le_compat; [apply Qcle_refl|]. }
    eexists _, max. split; [done|]. split_and!; [done| | |].
    + destruct Hor as [->|(b & (B & HB & Hp)%Hb & ->)]; [done|]. rewrite Hp. by apply PrS_mono.
    + by destruct (decide (1 < sum)%Qc).
    + destruct (decide (1 < sum)%Qc); [apply Qcle_refl|by apply Qcnot_lt_le].
Qed.
End Buckets.
