(* ===== verification/DTreeApprox.v ===== *)
(** * DTreeApprox: the approximate recursion keeps sound bounds

    [decomposition_tree_approximate] of [DTree] returns bounds that enclose the
    probability of its set, restores the clauses, and sets the flag
    [has_satisfied_stopping_condition] only when the bounds it returns, put into
    the coefficients and constants of its caller, pass the stopping test of the
    whole tree.  As in [DTreeExact], every variable has one range value in the
    lineage. *)
From S2P Require Import Prelude.
From S2P Require Import Bitset.
From S2P Require Import Worlds.
From S2P Require Import LocalCond.
From S2P Require Import Lineage.
From S2P Require Import Choice.
From S2P Require Import Condition.
From S2P Require Import WsTreeCorrect.
From S2P Require Import DTree.
From S2P Require Import DTreeCond.
From S2P Require Import DTreeExact.
From S2P Require Import Bounds.

(** [l] and [u] are probabilities that enclose [p]. *)
Record sound (u l p : Qc) : Prop := {
  so_zero : (0 <= l)%Qc;
  so_lower : (l <= p)%Qc;
  so_upper : (p <= u)%Qc;
  so_one : (u <= 1)%Qc }.

Lemma sound_exact (p : Qc) : (0 <= p)%Qc -> (p <= 1)%Qc -> sound p p p.
Proof. intros. split; try done; apply Qcle_refl. Qed.

(** Independent disjunction is monotone in both bounds. *)
Lemma sound_or (u1 l1 p1 u2 l2 p2 : Qc) :
  sound u1 l1 p1 -> sound u2 l2 p2 ->
  sound (u1 + u2 - u1 * u2) (l1 + l2 - l1 * l2) (p1 + p2 - p1 * p2).
Proof.
  intros [A1 A2 A3 A4] [B1 B2 B3 B4].
  split; qc_to_q; nra.
Qed.

(** ** Sums over the leaves *)

Lemma foldl_add {A} (f : A -> Qc) (l : list A) (a : Qc) :
  foldl (fun acc x => (acc + f x)%Qc) a l = (a + foldr (fun x acc => (f x + acc)%Qc) 0%Qc l)%Qc.
Proof. revert a. induction l as [|x l IH]; intros a; simpl; [ring|]. rewrite IH. ring. Qed.

Lemma foldr_insert {A} (f : A -> Qc) (l : list A) (i : nat) (x y : A) :
  l !! i = Some x ->
  foldr (fun x acc => (f x + acc)%Qc) 0%Qc (<[i := y]> l) =
    (foldr (fun x acc => (f x + acc)%Qc) 0%Qc l - f x + f y)%Qc.
Proof.
  revert i. induction l as [|z l IH]; intros [|i] Hi; simpl in *; [done..| |].
  - injection Hi as ->. ring.
  - rewrite (IH i Hi). ring.
Qed.

Lemma sum_upper_insert (ls : list leaf) (i : nat) (x y : leaf) :
  ls !! i = Some x -> sum_upper (<[i := y]> ls) = (sum_upper ls - upper_bounds x + upper_bounds y)%Qc.
Proof. intros Hi. unfold sum_upper. rewrite !foldl_add, (foldr_insert _ _ _ _ _ Hi). ring. Qed.

Lemma sum_lower_insert (ls : list leaf) (i : nat) (x y : leaf) :
  ls !! i = Some x -> sum_lower (<[i := y]> ls) = (sum_lower ls - lower_bounds x + lower_bounds y)%Qc.
Proof. intros Hi. unfold sum_lower. rewrite !foldl_add, (foldr_insert _ _ _ _ _ Hi). ring. Qed.

Lemma difference_twice (X T : gset nat) : T ⊆ X -> X ∖ (X ∖ T) = T.
Proof.
  intros HT. apply set_eq. intros i. rewrite !elem_of_difference.
  destruct (decide (i ∈ T)) as [Hi|Hi]; [specialize (HT i Hi)|]; tauto.
Qed.

(** ** One node *)

Section Node.
Context (W : wtable) (HW : table_ok W) (NUM wl : nat) (junk : nat -> N).
Context (is_relative : bool) (stopping_number : Qc).
Abbreviation stops := (stop_test is_relative stopping_number).

(** The stopping test of the whole tree for the bounds of a part. *)
Definition stops_with (bi : bound_information) (u l : Qc) : bool :=
  stops (coefficient_upper bi * u + constant_upper bi) (coefficient_lower bi * l + constant_lower bi).

(** The contract of the recursive calls. *)
Definition approx_ok (rec : approx_rec) (bound : nat) : Prop :=
  forall Ss X o pp bi col wt, dlineage_ok W NUM wl Ss X -> ORep NUM X o -> mu Ss X < bound ->
    shape wt = W ->
    exists u l wt' stop, rec o pp bi col (mk_dst Ss wt false) = Some (u, l, mk_dst Ss wt' stop) /\
      shape wt' = W /\ sound u l (PrS W Ss X) /\ (stop = true -> stops_with bi u l = true).

Section Elim.
Context (rec : approx_rec) (bound : nat) (Hrec : approx_ok rec bound).
Context (Ss : list WSD) (T : gset nat) (t : bitset) (v : Z) (d : dist).
Context (HL : dlineage_ok W NUM wl Ss T) (HT : Rep NUM T t) (Hmu : mu Ss T <= bound).
Context (Hv : (v, d) ∈ W).
Context (Hact : forall i w m, i ∈ T -> Ss !! i = Some w -> m ∈ data w -> var m = v -> active m).
Context (Hocc : exists i w, i ∈ T /\ Ss !! i = Some w /\ mentions v w).
Context (o : option bitset) (Ho : Built NUM (without v Ss T) o).

(** The bounds and the state of the leaf of range value [rp]. *)
Record leaf_ok (rp : Z * Qc) (lf : leaf) : Prop := {
  lo_bounds : exists u l, sound u l (given W Ss T v rp.1) /\
    upper_bounds lf = (u * rp.2)%Qc /\ lower_bounds lf = (l * rp.2)%Qc;
  lo_state : match state_of_subset_var_rng lf with
             | SUBSET_VAR_RNG_IS_NULL => having v rp.1 Ss T = ∅
             | SUBSET_VAR_RNG_IS_EMPTY => True
             | SUBSET_VAR_RNG_SHOULD_UNION =>
                 exists b, find_wsds_with_var_rng junk NUM Ss t v rp.1 =
                   Some (Some b, conditioned Ss T v rp.1) /\
                   Built NUM (having v rp.1 Ss T) (Some b)
             end }.

Definition wob_ok (wob : Qc * Qc) : Prop :=
  wob.1 = (- (1))%Qc \/ sound wob.1 wob.2 (PrS W Ss (without v Ss T)).

Lemma bounds_sound (l : list WSD) (X : gset nat) (b : bitset) :
  dlineage_ok W NUM wl l X -> Rep NUM X b ->
  exists u lo, compute_upper_and_lower_bounds NUM (Some b) l = Some (u, lo) /\
    sound u lo (PrS W l X).
Proof using HW.
  clear -HW. intros [[Hlen Hok _] _ Hwl] HR.
  destruct (compute_bounds_spec W (to_wtable _ HW) l wl Hok Hwl NUM X b Hlen HR)
    as (u & lo & Hc & ? & ? & ? & ?).
  exists u, lo. split; [done|]. by split.
Qed.

Lemma bounds_without : exists u lo, compute_upper_and_lower_bounds NUM o Ss = Some (u, lo) /\
  sound u lo (PrS W Ss (without v Ss T)).
Proof using HW HL Ho.
  clear -HW HL Ho. destruct o as [b|].
  - apply bounds_sound; [|apply Ho]. eapply dlineage_sub; [exact HL|].
    unfold without. clear. set_solver.
  - simpl in Ho. rewrite Ho, (PrS_empty W HW). exists 0%Qc, 0%Qc. split; [done|]. by apply sound_exact.
Qed.

Lemma first_round_value_spec (r : Z) (p : Qc) (wob : Qc * Qc) :
  (0 <= r)%Z -> wob_ok wob ->
  exists lf wob', first_round_value junk NUM t o v r p wob Ss = Some (lf, wob', Ss) /\
    wob_ok wob' /\ leaf_ok (r, p) lf.
Proof using HW HL HT Hact Ho.
  intros Hr Hwob. unfold first_round_value.
  destruct (find_with_var_spec W HW NUM wl junk Ss T t v HL HT Hact r Hr)
    as (ob & l & Hf & Hres); rewrite Hf; destruct Hres as [He|b He Hg|b He Hb]; cbn [mbind option_bind].
  - assert (exists wob', (if decide (wob.1 = (- (1))%Qc)
             then compute_upper_and_lower_bounds NUM o Ss else Some wob) = Some wob' /\
      sound wob'.1 wob'.2 (PrS W Ss (without v Ss T))) as (wob' & -> & Hs).
    { destruct (decide _) as [|Hne]; [|exists wob; split; [done|by destruct Hwob]].
      destruct bounds_without as (u & lo & Hc & Hs). by exists (u, lo). }
    cbn [mbind option_bind]. eexists _, wob'. split; [done|]. split; [by right|]. split; [|done].
    exists wob'.1, wob'.2. simpl. rewrite (given_without W NUM wl Ss T v HL Hact r Hr He).
    split; [done|]. split; ring.
  - rewrite He. cbn [mbind option_bind]. eexists _, wob. split; [done|]. split; [done|].
    split; [|done]. exists 1%Qc, 1%Qc. simpl. rewrite Hg.
    split; [by apply sound_exact|]. split; ring.
  - rewrite He. cbn [mbind option_bind].
    destruct (union_built _ _ _ _ _ Hb Ho) as (b' & Hu & (HRb & HCb & _)). rewrite Hu.
    cbn [mbind option_bind].
    destruct (bounds_sound (conditioned Ss T v r) _ b'
      (conditioned_ok W NUM wl Ss T v HL r _ Hr ltac:(done)) HRb) as (u & lo & -> & Hs).
    cbn [mbind option_bind].
    rewrite (reset_between W NUM wl Ss T v HL r (cond Ss T v r) b') by (done || apply union_subseteq_l).
    cbn [mbind option_bind]. eexists _, wob. split; [done|]. split; [done|]. split.
    + exists u, lo. simpl. rewrite (given_cond W NUM wl Ss T v HL Hact r Hr). auto.
    + simpl. by exists b.
Qed.

Lemma first_round_spec (rng_entry : list rngEntry) :
  (fun re => (re_rng re, re_p re)) <$> rng_entry = d ->
  (forall r p, (r, p) ∈ d -> (0 <= r)%Z) ->
  exists ls, first_round junk NUM rng_entry t o v Ss = Some (ls, Ss) /\ Forall2 leaf_ok d ls.
Proof using HW HL HT Hact Ho.
  clear Hv Hrec Hmu Hocc. intros Hd Hpos. unfold first_round.
  edestruct (for_list_inv (fun l (a : list leaf * (Qc * Qc) * list WSD) =>
      Forall2 leaf_ok ((fun re => (re_rng re, re_p re)) <$> l) a.1.1 /\ wob_ok a.1.2 /\ a.2 = Ss)
    rng_entry) as ([[ls wob] l] & Hf & HF & _ & Hl);
    [| |rewrite Hf; cbn [mbind option_bind]; simpl in *; exists ls; rewrite <- Hd; by subst l].
  - simpl. split_and!; [constructor|by left|done].
  - intros l1 re l2 [[ls wob] l] Hl (HF & Hwob & Hs). simpl in HF, Hwob, Hs. subst l.
    destruct (first_round_value_spec (re_rng re) (re_p re) wob) as (lf & wob' & Hv1 & Hwob' & Hlf);
      [|done|].
    { apply (Hpos _ (re_p re)). rewrite <- Hd. apply list_elem_of_fmap. exists re.
      split; [done|]. rewrite Hl. set_solver. }
    rewrite Hv1. cbn [mbind option_bind]. eexists. split; [done|]. simpl.
    split_and!; [|done|done]. rewrite fmap_app. apply Forall2_app; [done|].
    constructor; [done|constructor].
Qed.

(** The bounds of the leaves sum up to bounds of the component. *)
Lemma leaves_sound (ls : list leaf) :
  dist_ok d -> Forall2 leaf_ok d ls -> sound (sum_upper ls) (sum_lower ls) (PrS W Ss T).
Proof using HW Hv.
  intros [_ Hnn Hmass] HF. rewrite (given_total W HW Ss T v d Hv).
  unfold sum_upper, sum_lower. rewrite !foldl_add, !Qcplus_0_l.
  assert (Hb : (0 <= foldr (fun x acc => (lower_bounds x + acc)%Qc) 0%Qc ls)%Qc /\
    (foldr (fun x acc => (lower_bounds x + acc)%Qc) 0%Qc ls <= wsum d (given W Ss T v))%Qc /\
    (wsum d (given W Ss T v) <= foldr (fun x acc => (upper_bounds x + acc)%Qc) 0%Qc ls)%Qc /\
    (foldr (fun x acc => (upper_bounds x + acc)%Qc) 0%Qc ls <= mass d)%Qc).
  { clear Hmass Hv. induction HF as [|[r p] lf d' ls [(u & l & [S1 S2 S3 S4] & Hu & Hl) _] _ IH];
      simpl; [split_and!; apply Qcle_refl|].
    destruct IH as (I1 & I2 & I3 & I4); [intros r' p' Hr'; apply (Hnn r' p'); by apply list_elem_of_further|].
    assert (0 <= p)%Qc as Hp by (apply (Hnn r p), list_elem_of_here).
    simpl in *. rewrite Hu, Hl. clear Hu Hl.
    generalize dependent (given W Ss T v r). intros g S2 S3.
    revert I1 I2 I3 I4. generalize (wsum d' (given W Ss T v)) as a. intros a I1 I2 I3 I4.
    split_and!; qc_to_q; nra. }
  rewrite Hmass in Hb. by split; apply Hb.
Qed.

Lemma refine_leaf_spec (r : Z) (p pp : Qc) (bi : bound_information) (col : Z) (lf : leaf)
    (wt : list worldTableEntry) :
  (0 <= r)%Z -> leaf_ok (r, p) lf -> shape wt = W ->
  exists lf' wt' stop, refine_leaf junk NUM rec t o v r p pp bi col lf (mk_dst Ss wt false) =
      Some (lf', mk_dst Ss wt' stop) /\ shape wt' = W /\ leaf_ok (r, p) lf' /\
    (stop = true -> exists u l, upper_bounds lf' = (u * p)%Qc /\ lower_bounds lf' = (l * p)%Qc /\
       stops_with bi u l = true).
Proof using HW HL HT Hact Ho Hrec Hmu Hocc.
  intros Hr Hlf Hsh. pose proof (lo_state _ _ Hlf) as Hst. unfold refine_leaf.
  destruct (state_of_subset_var_rng lf); simpl in Hst.
  - destruct (Hrec Ss (without v Ss T) o (pp * p)%Qc bi col wt)
      as (u & l & wt' & stop & -> & Hsh' & Hs & Hstop).
    + eapply dlineage_sub; [exact HL|]. unfold without. clear. set_solver.
    + by apply built_orep.
    + pose proof (mu_without W NUM wl Ss T t v HL HT Hocc). lia.
    + done.
    + cbn [mbind option_bind]. eexists _, wt', stop. split_and!; [done|done| |].
      * split; [|done]. exists u, l. simpl. by rewrite (given_without W NUM wl Ss T v HL Hact r Hr Hst).
      * intros H. exists u, l. auto.
  - exists lf, wt, false. by split_and!.
  - destruct Hst as (b & Hf & Hb). cbn [ds_S]. rewrite Hf. cbn [mbind option_bind].
    destruct (pruned_cond W NUM wl junk Ss T t v HL HT Hact r b o Hr Hb Ho)
      as (b' & Y & Hu & HR & HC & HLY & HmuY & HP & Hreset).
    rewrite Hu. cbn [mbind option_bind].
    change (set_S (mk_dst Ss wt false) ?l) with (mk_dst l wt false).
    destruct (Hrec (conditioned Ss T v r) Y (Some b') (pp * p)%Qc bi col wt)
      as (u & l & wt' & stop & -> & Hsh' & Hs & Hstop);
      [done|split; [done|by left]|lia|done|].
    cbn [mbind option_bind ds_S]. rewrite Hreset. cbn [mbind option_bind].
    eexists _, wt', stop. split_and!; [done|done| |].
    + split; simpl; [exists u, l; by rewrite <- HP|by exists b].
    + intros H. exists u, l. auto.
Qed.

Lemma second_round_spec (k n j : nat) (pp : Qc) (bi : bound_information) (col : Z)
    (pru prl : Qc) (ls : list leaf) (wt : list worldTableEntry) :
  W !! k = Some (v, d) -> j + n = length d -> Forall2 leaf_ok d ls -> shape wt = W ->
  exists ls' wt' stop,
    second_round junk NUM is_relative stopping_number rec (seq j n) k t o v pp bi col pru prl ls
      (mk_dst Ss wt false) = Some (ls', mk_dst Ss wt' stop) /\ shape wt' = W /\
    Forall2 leaf_ok d ls' /\
    (stop = true -> stops (whole_bound (coefficient_upper bi) (constant_upper bi) (sum_upper ls') pru)
       (whole_bound (coefficient_lower bi) (constant_lower bi) (sum_lower ls') prl) = true).
Proof using All.
  intros Hk. revert j ls wt. induction n as [|n IH]; intros j ls wt Hj HF Hsh.
  { exists ls, wt, false. by split_and!. }
  cbn [seq second_round].
  destruct (stops _ _) eqn:Hstop.
  { exists ls, wt, true. split_and!; [done..|]. by intros _. }
  destruct (lookup_lt_is_Some_2 d j) as [[r p] Hd]; [lia|].
  destruct (Forall2_lookup_l _ _ _ _ _ HF Hd) as (lf & Hlf & Hok). rewrite Hlf.
  cbn [mbind option_bind].
  destruct (close_test _ _ _ _ _ _) eqn:Hclose; [apply IH; [lia|done..]|].
  pose proof Hk as Hk'. rewrite <- Hsh in Hk'. destruct (shape_entry_lookup wt k j v d (r, p) Hk' Hd)
    as (e & re & He & Hre & [= Hrr Hpp]). cbn [ds_wt]. rewrite He.
  cbn [mbind option_bind]. rewrite Hre. cbn [mbind option_bind]. rewrite <- Hrr, <- Hpp.
  assert (Hr : (0 <= r)%Z) by (eapply (to_rngs _ HW); [exact Hv|by eapply list_elem_of_lookup_2]).
  destruct (refine_leaf_spec r p pp (next_leaf_info bi ls j lf p pru prl) col lf wt Hr Hok Hsh)
    as (lf' & wt' & stop & -> & Hsh' & Hok' & Hs). cbn [mbind option_bind].
  assert (HF' : Forall2 leaf_ok d (<[j := lf']> ls)).
  { rewrite <- (list_insert_id d j (r, p) Hd). by apply Forall2_insert. }
  cbn [has_satisfied_stopping_condition]. destruct stop; [|apply IH; [lia|done..]].
  exists (<[j := lf']> ls), wt', true. split_and!; [done..|]. intros _.
  destruct (Hs eq_refl) as (u & l & Hu & Hl & <-). unfold stops_with, whole_bound, next_leaf_info.
  cbn [coefficient_upper constant_upper coefficient_lower constant_lower].
  rewrite (sum_upper_insert _ _ _ _ Hlf), (sum_lower_insert _ _ _ _ Hlf), Hu, Hl.
  f_equal; ring.
Qed.
End Elim.

Lemma approx_left_spec (rec : approx_rec) (bound : nat) (Ss : list WSD) (X T : gset nat) (t : bitset)
    (pp : Qc) (bi : bound_information) (col : Z) (pru prl : Qc) (wt : list worldTableEntry) :
  approx_ok rec bound -> dlineage_ok W NUM wl Ss T -> Rep NUM T t -> component Ss X T ->
  mu Ss T <= bound -> shape wt = W ->
  exists u l wt' stop,
    approx_left junk NUM is_relative stopping_number rec t pp bi col pru prl (mk_dst Ss wt false) =
      Some (inr (u, l, mk_dst Ss wt' stop)) /\ shape wt' = W /\ sound u l (PrS W Ss T) /\
    (stop = true -> stops (whole_bound (coefficient_upper bi) (constant_upper bi) u pru)
       (whole_bound (coefficient_lower bi) (constant_lower bi) l prl) = true).
Proof using HW.
  intros Hrec HL HT Hco Hmu Hsh. pose proof HL as [[Hlen Hok Hcoh] _ _]. unfold approx_left.
  destruct (bitset_test_singleton_spec _ _ _ HT) as [(i & -> & ->)|[Hsz ->]];
    cbn [mbind option_bind].
  - destruct (lookup_lt_is_Some_2 Ss i) as [w Hw].
    { rewrite Hlen. apply (rep_bound _ _ _ _ HT). set_solver. }
    destruct (Z.eqb_spec (Z.of_nat i) (-1)) as [?|_]; [lia|]. simpl.
    rewrite Nat2Z.id, Hw. simpl. exists (wprob w), (wprob w), wt, false.
    split_and!; [done..| |done]. rewrite <- (PrS_singleton W HW Ss i w) by done.
    apply sound_exact; apply (PrS_bounds W (to_wtable _ HW)).
  - simpl. destruct (choice_spec W NUM wl junk Ss X T t wt col 0 HL HT Hco Hsz Hsh)
      as (k & col' & wt1 & e & d & o & -> & Hsh1 & He & Hk & Hed & Ho & HBo & Hact & Hocc).
    cbn [mbind option_bind]. rewrite He. cbn [mbind option_bind ds_S]. rewrite Ho.
    cbn [mbind option_bind].
    assert (Hv : (wt_var e, d) ∈ W) by (by eapply list_elem_of_lookup_2).
    destruct (first_round_spec Ss T t (wt_var e) d HL HT Hact o HBo (rng_entries e) Hed
      ltac:(intros r p Hr; by eapply (to_rngs _ HW))) as (ls & -> & HF).
    cbn [mbind option_bind].
    change (set_S (mk_dst Ss wt1 false) ?l) with (mk_dst l wt1 false).
    replace (rng_entry_count e) with (length d)
      by (rewrite <- Hed; unfold rng_entry_count; by rewrite length_fmap).
    destruct (second_round_spec rec bound Hrec Ss T t (wt_var e) d HL HT Hmu Hv Hact Hocc o HBo
      k (length d) 0 pp bi col pru prl ls wt1 Hk eq_refl HF Hsh1)
      as (ls' & wt2 & stop & -> & Hsh2 & HF' & Hstop).
    cbn [mbind option_bind]. exists (sum_upper ls'), (sum_lower ls'), wt2, stop.
    split_and!; [done..| |done]. eapply leaves_sound; [exact Hv| |exact HF'].
    eapply wt_dist; [apply HW|exact Hv].
Qed.

(** With enough fuel the approximate recursion returns sound bounds. *)
Lemma approx_rec_ok (fuel : nat) :
  approx_ok (decomposition_tree_approximate junk NUM is_relative stopping_number fuel) fuel.
Proof using HW.
  induction fuel as [|fuel IH]; intros Ss X o pp bi col wt HL HX Hmu Hsh; [lia|].
  pose proof HL as [[Hlen Hok Hcoh] _ _]. cbn [decomposition_tree_approximate].
  destruct o as [b|]; cbn [ORep] in HX.
  2: { subst X. simpl. rewrite (PrS_empty W HW). exists 0%Qc, 0%Qc, wt, false.
       split_and!; [done..| |done]. by apply sound_exact. }
  destruct HX as [HX Hc].
  destruct (bitset_test_empty_spec _ _ _ HX) as (e & -> & He & Hemp). cbn [mbind option_bind].
  destruct e.
  { rewrite (He eq_refl), (PrS_empty W HW). exists 0%Qc, 0%Qc, wt, false.
    split_and!; [done..| |done]. by apply sound_exact. }
  assert (Hne : X <> ∅) by (intros ->; destruct Hc as [Hc|]; [by specialize (Hemp Hc eq_refl)|done]).
  unfold find_independent_split. cbn [ds_S].
  destruct (find_independent_split_spec Ss NUM Hlen junk X b HX Hne)
    as (t & T & -> & HT & HCt & Hco). cbn [mbind option_bind].
  assert (HLT : dlineage_ok W NUM wl Ss T) by (eapply dlineage_sub; [exact HL|apply Hco]).
  assert (HLR : dlineage_ok W NUM wl Ss (X ∖ T)) by (eapply dlineage_sub; [exact HL|apply difference_sub]).
  destruct (mu_split W NUM wl Ss X T b HL HX Hco) as [HmuT HmuR].
  destruct (bitset_negate_spec _ _ _ _ _ HX HT) as (b1 & -> & HR1 & HC1). cbn [mbind option_bind].
  rewrite (negate_sub X T) in HR1 by apply Hco.
  destruct (bounds_sound Ss _ b1 HLR HR1) as (pru & prl & -> & Hsr). cbn [mbind option_bind].
  destruct (bitset_negate_spec _ _ _ _ _ HX HR1) as (b2 & -> & HR2 & HC2). cbn [mbind option_bind].
  rewrite (negate_sub X (X ∖ T)) in HR2 by apply difference_sub.
  rewrite (difference_twice X T) in HR2 by apply Hco.
  destruct (approx_left_spec (decomposition_tree_approximate junk NUM is_relative stopping_number fuel)
    fuel Ss X T b2 pp bi col pru prl wt IH HLT HR2 Hco ltac:(lia) Hsh)
    as (u & l & wt1 & stop1 & -> & Hsh1 & Hsl & Hstop1). cbn [mbind option_bind].
  rewrite (PrS_split Ss W X T) by (apply HW || done).
  unfold set_stop. cbn [ds_S ds_wt has_satisfied_stopping_condition].
  set (wb := stops _ _).
  assert (Hwb : stop1 || wb = true -> wb = true) by (destruct stop1; [intros _; by apply Hstop1|done]).
  destruct (stop1 || wb) eqn:Hst; cbn [negb andb].
  - cbn [mbind option_bind]. eexists _, _, wt1, true. split_and!; [done|done|by apply sound_or|].
    intros _. unfold stops_with. rewrite <- (Hwb eq_refl). unfold wb, whole_bound. done.
  - destruct (bool_decide (prl = 0%Qc)) eqn:Hz; cbn [negb mbind option_bind].
    + eexists _, _, wt1, false. split_and!; [done|done|by apply sound_or|done].
    + destruct (bitset_negate_spec _ _ _ _ _ HX HR2) as (b3 & -> & HR3 & HC3). cbn [mbind option_bind].
      rewrite (negate_sub X T) in HR3 by apply Hco.
      destruct (IH Ss (X ∖ T) (Some b3) pp (next_right_info bi u l) col wt1)
        as (u2 & l2 & wt2 & stop2 & -> & Hsh2 & Hs2 & Hstop2); [done|split; [done|left; auto]|lia|done|].
      cbn [mbind option_bind]. eexists _, _, wt2, stop2. split_and!; [done|done|by apply sound_or|].
      intros H. rewrite <- (Hstop2 H). unfold stops_with, next_right_info.
      cbn [coefficient_upper constant_upper coefficient_lower constant_lower]. f_equal; ring.
Qed.
End Node.
