(* ===== verification/Appro.v ===== *)
(** * Appro: the approximate aggregate of a group, end to end

    A run of [conf_appro_accum] over the rows of a group followed by
    [conf_appro_final_ge].  For rows in which every variable occurs with one range
    value, the aggregate with epsilon 0 returns the probability that some row is
    present; with a positive epsilon it returns a value computed from bounds that
    enclose this probability, within the requested error when the stopping
    condition was reached. *)
From Stdlib Require Strings.String.
From S2P Require Import Prelude.
From S2P Require Import Bitset.
From S2P Require Import Worlds.
From S2P Require Import LocalCond.
From S2P Require Import Lineage.
From S2P Require Import Choice.
From S2P Require Import Condition.
From S2P Require Import WsTreeCorrect.
From S2P Require Import HashTable.
From S2P Require Import Completion.
From S2P Require Import Store.
From S2P Require Import Group.
From S2P Require Import Sort.
From S2P Require Import DTree.
From S2P Require Import DTreeCond.
From S2P Require Import DTreeExact.
From S2P Require Import Bounds.
From S2P Require Import DTreeApprox.

(** ** The clauses at the end of a group *)

(** Every variable occurs with one range value. *)
Definition single_rng (cs : list clause) : Prop :=
  forall c1 c2 x r1 r2, c1 ∈ cs -> c2 ∈ cs -> (x, r1) ∈ c1 -> (x, r2) ∈ c2 -> r1 = r2.

(** Well-formed clauses with nothing dropped. *)
Record fresh_clauses (W : wtable) (wl : nat) (l : list WSD) : Prop := {
  fc_ok : clauses_ok W l;
  fc_active : Forall (fun w => Forall active (data w)) l;
  fc_single : single_rng (lits <$> l);
  fc_wl : Forall (fun w => length (data w) = wl) l }.

Lemma fresh_perm (W : wtable) (wl : nat) (l l' : list WSD) :
  l' ≡ₚ l -> fresh_clauses W wl l -> fresh_clauses W wl l'.
Proof.
  intros Hp [H1 H2 H3 H4]. unfold clauses_ok in *. split; unfold clauses_ok; rewrite ?Hp; [done..| |done].
  intros c1 c2 x r1 r2. rewrite Hp. apply H3.
Qed.

Lemma fresh_lineage (W : wtable) (wl : nat) (l : list WSD) :
  fresh_clauses W wl l -> dlineage_ok W (length l) wl l (below (length l)).
Proof.
  intros [H1 H2 H3 H4]. rewrite Forall_forall in H2, H4. split; [split; [done|done|]| |done].
  - intros i j wi wj mi mj _ _ Hwi _ Hmi _ _ Hr.
    specialize (H2 wi (list_elem_of_lookup_2 _ _ _ Hwi)). rewrite Forall_forall in H2.
    by destruct (H2 mi Hmi).
  - intros i j wi wj mi mj _ _ Hwi Hwj Hmi Hmj Hai Haj Hv.
    apply (H3 (lits wi) (lits wj) (var mi)).
    + apply list_elem_of_fmap. exists wi. split; [done|by eapply list_elem_of_lookup_2].
    + apply list_elem_of_fmap. exists wj. split; [done|by eapply list_elem_of_lookup_2].
    + apply elem_of_lits. by exists mi.
    + apply elem_of_lits. exists mj. by rewrite Hv.
Qed.

Lemma Pr_perm (W : wtable) (cs cs' : list clause) :
  cs ≡ₚ cs' -> Pr W (sat_dnf cs) = Pr W (sat_dnf cs').
Proof.
  intros Hp. apply Pr_ext. intros u. apply eq_true_iff_eq. rewrite !sat_dnf_true.
  by setoid_rewrite Hp.
Qed.

Lemma PrS_all (W : wtable) (l : list WSD) :
  PrS W l (below (length l)) = Pr W (sat_dnf (lits <$> l)).
Proof. apply Pr_perm, dnf_below. Qed.

Lemma below_orep (l : list WSD) (b : bitset) :
  l <> [] -> Rep (length l) (below (length l)) b -> ORep (length l) (below (length l)) (Some b).
Proof.
  intros Hne HR. split; [done|]. right. intros H0. destruct l as [|w l]; [done|].
  assert (0 ∈ below (length (w :: l))) as H by (apply elem_of_below; simpl; lia).
  rewrite H0 in H. by apply not_elem_of_empty in H.
Qed.

Lemma fresh_mu (W : wtable) (wl : nat) (l : list WSD) (X : gset nat) :
  fresh_clauses W wl l -> mu l X < WsTree.indve_fuel (length l) wl.
Proof.
  intros [_ _ _ Hwl]. rewrite Forall_forall in Hwl. unfold WsTree.indve_fuel.
  apply Nat.lt_succ_r, mu_bound. intros w Hw. by rewrite (Hwl w Hw).
Qed.

(** ** The result from the bounds *)

(** The stopping condition makes the result an epsilon-approximation. *)
Definition within (is_relative : bool) (eps p result : Qc) : Prop :=
  if is_relative then ((1 - eps) * p <= result /\ result <= (1 + eps) * p)%Qc
  else (p - eps <= result /\ result <= p + eps)%Qc.

Lemma two_half (x : Qc) : (x / Q2Qc 2)%Qc = (Q2Qc (1 # 2) * x)%Qc.
Proof. unfold Qcdiv. rewrite Qcmult_comm. f_equal. Qed.

Lemma this_half : (this (Q2Qc (1 # 2)) == 1 # 2)%Q.
Proof. reflexivity. Qed.

Lemma result_absolute (eps u l p : Qc) :
  sound u l p -> stop_test false (stopping_number_of false eps) u l = true ->
  within false eps p (approx_result false eps u l).
Proof.
  intros [H1 H2 H3 H4] Hs. unfold stop_test, stopping_number_of in Hs.
  apply bool_decide_eq_true in Hs. unfold within, approx_result. rewrite two_half.
  unfold Qcle in *. rewrite ?this_mult, ?this_minus, ?this_plus, ?this_half in *.
  change (this (Q2Qc 2)) with 2%Q in Hs. split; lra.
Qed.

Lemma result_relative (eps u l p : Qc) :
  (0 < eps)%Qc -> (eps < 1)%Qc -> sound u l p ->
  stop_test true (stopping_number_of true eps) u l = true ->
  within true eps p (approx_result true eps u l).
Proof.
  intros He He1 [H1 H2 H3 H4] Hs. unfold stop_test, quotient_le, stopping_number_of in Hs.
  destruct (decide (l = 0%Qc)) as [->|Hl].
  { apply bool_decide_eq_true in Hs. exfalso. qc_lra. }
  apply bool_decide_eq_true in Hs.
  assert (Hlp : (0 < l)%Qc) by (apply Qcnot_le_lt; intros Hle; apply Hl; by apply Qcle_antisym).
  assert (Hne1 : (1 - eps <> 0)%Qc) by (clear -He1; qc_lra).
  assert (Hmul : ((u - l) * (1 - eps) <= Q2Qc 2 * eps * l)%Qc).
  { assert (Hd : (0 < l * (1 - eps))%Qc).
    { clear -Hlp He1. qc_to_q. nra. }
    apply (Qcmult_le_compat_r _ _ (l * (1 - eps))%Qc) in Hs; [|by apply Qclt_le_weak].
    replace ((u - l) / l * (l * (1 - eps)))%Qc with ((u - l) * (1 - eps))%Qc in Hs by (field; done).
    replace (Q2Qc 2 * eps / (1 - eps) * (l * (1 - eps)))%Qc with (Q2Qc 2 * eps * l)%Qc in Hs; [done|].
    field. exact Hne1. }
  unfold within, approx_result. rewrite two_half. clear Hs Hl.
  unfold Qcle, Qclt in *. rewrite ?this_mult, ?this_minus, ?this_plus, ?this_half in *.
  rewrite ?this_mult, ?this_minus, ?this_plus in *.
  change (this (Q2Qc 2)) with 2%Q in *. change (this 1%Qc) with 1%Q in *. change (this 0%Qc) with 0%Q in *.
  split; nra.
Qed.

(** The result as the code computes it: a mean of the bounds. *)
Lemma approx_result_double (is_relative : bool) (eps u l : Qc) :
  (approx_result is_relative eps u l * Q2Qc 2 = if is_relative then u * (1 - eps) + l * (1 + eps) else u + l)%Qc.
Proof. unfold approx_result. destruct is_relative; by field. Qed.

(** The steps of [approximate_bounds]: sort, bound, refine. *)
Lemma approximate_bounds_steps (junk : nat -> N) (NUM : nat) (is_relative : bool) (eps : Qc) (fuel : nat)
    (b : bitset) (l : list WSD) (wt : list worldTableEntry) (u lo : Qc) (s : dst) :
  approximate_bounds junk NUM is_relative eps fuel b l wt = Some (u, lo, s) ->
  exists q u0 lo0, quicksort (S (length l)) l 0 (Z.of_nat NUM - 1) = Some q /\
    compute_upper_and_lower_bounds NUM (Some b) q = Some (u0, lo0) /\
    if stop_test is_relative (stopping_number_of is_relative eps) u0 lo0
    then u = u0 /\ lo = lo0 /\ s = mk_dst q wt true
    else decomposition_tree_approximate junk NUM is_relative (stopping_number_of is_relative eps) fuel (Some b) 1
           initial_info (-1) (mk_dst q wt false) = Some (u, lo, s).
Proof.
  unfold approximate_bounds. intros (q & Hq & ([u0 lo0] & Hb & H)%bind_Some)%bind_Some.
  exists q, u0, lo0. split_and!; [done..|]. destruct (stop_test _ _ u0 lo0); [by injection H|done].
Qed.

(** ** Bounds and exact value of the clauses *)

Section Final.
Context (W : wtable) (HW : table_ok W) (wl : nat) (junk : nat -> N).

Lemma approximate_bounds_spec (l : list WSD) (b : bitset) (wt : list worldTableEntry)
    (is_relative : bool) (eps : Qc) :
  l <> [] -> fresh_clauses W wl l -> Rep (length l) (below (length l)) b -> shape wt = W ->
  exists u lo s, approximate_bounds junk (length l) is_relative eps
      (WsTree.indve_fuel (length l) wl) b l wt = Some (u, lo, s) /\
    sound u lo (Pr W (sat_dnf (lits <$> l))) /\
    (has_satisfied_stopping_condition s = true ->
     stop_test is_relative (stopping_number_of is_relative eps) u lo = true).
Proof using HW.
  intros Hne Hf HR Hsh. unfold approximate_bounds.
  destruct (quicksort_range (length l) l 0 (Z.of_nat (length l) - 1)) as (l' & -> & Hp & _); [lia..|].
  cbn [mbind option_bind]. apply pm_perm in Hp as Hperm.
  assert (Hlen : length l' = length l) by (by rewrite Hperm).
  pose proof (fresh_perm W wl l l' Hperm Hf) as Hf'.
  pose proof (fresh_lineage W wl l' Hf') as HL. rewrite Hlen in HL.
  assert (HP : PrS W l' (below (length l)) = Pr W (sat_dnf (lits <$> l))).
  { rewrite <- Hlen, PrS_all. apply Pr_perm. by rewrite Hperm. }
  destruct (bounds_sound W HW (length l) wl l' _ b HL HR) as (u & lo & -> & Hs).
  cbn [mbind option_bind]. rewrite HP in Hs.
  destruct (stop_test _ _ u lo) eqn:Hstop; [by exists u, lo, (mk_dst l' wt true)|].
  destruct (approx_rec_ok W HW (length l) wl junk is_relative (stopping_number_of is_relative eps)
    (WsTree.indve_fuel (length l) wl) l' (below (length l)) (Some b) 1%Qc initial_info (-1)%Z wt)
    as (u2 & lo2 & wt2 & stop & -> & _ & Hs2 & Hst); [done|by apply below_orep| |done|].
  { rewrite <- Hlen. by eapply fresh_mu. }
  rewrite HP in Hs2. eexists _, _, _. split; [done|]. split; [done|]. intros H.
  specialize (Hst H). unfold stops_with, initial_info in Hst.
  cbn [coefficient_upper constant_upper coefficient_lower constant_lower] in Hst.
  rewrite !Qcmult_1_l, !Qcplus_0_r in Hst. done.
Qed.

(** With bounds that meet there is nothing to compute. *)
Lemma exact_value_of (l : list WSD) (b : bitset) (wt : list worldTableEntry) :
  l <> [] -> fresh_clauses W wl l -> Rep (length l) (below (length l)) b -> shape wt = W ->
  exists u lo, compute_upper_and_lower_bounds (length l) (Some b) l = Some (u, lo) /\
    (u - lo <= 0 -> u = Pr W (sat_dnf (lits <$> l)))%Qc /\
    exists wt', decomposition_tree_exact junk (length l) (WsTree.indve_fuel (length l) wl) (Some b) (-1)
      (mk_dst l wt false) = Some (Pr W (sat_dnf (lits <$> l)), mk_dst l wt' false).
Proof using HW.
  intros Hne Hf HR Hsh. pose proof (fresh_lineage W wl l Hf) as HL.
  destruct (bounds_sound W HW (length l) wl l _ b HL HR) as (u & lo & -> & [_ H2 H3 _]).
  rewrite PrS_all in H2, H3. exists u, lo. split; [done|]. split.
  - intros Hle. apply Qcle_antisym; [|done]. qc_lra.
  - destruct (exact_rec_ok W HW (length l) wl junk (WsTree.indve_fuel (length l) wl) l
      (below (length l)) (Some b) (-1)%Z wt false) as (wt' & -> & _);
      [done|by apply below_orep|by eapply fresh_mu|done|].
    rewrite PrS_all. by exists wt'.
Qed.
End Final.

(** ** The end of a group *)

(** The completed table and the pointers give fresh clauses. *)
Lemma prepare_spec (s : generalState) (l : list WSD) (wl : nat) :
  store_ok (wt_entries s) l -> (forall w, w ∈ l -> length (data w) = wl) ->
  single_rng (clause_of <$> l) ->
  exists s' l', getMissingRngs s = Some s' /\ computeEntryPointers s' l = Some l' /\
    shape (wt_entries s') = complete_table (wt_entries s) /\ length l' = length l /\
    fresh_clauses (complete_table (wt_entries s)) wl l' /\ lits <$> l' = clause_of <$> l.
Proof.
  intros [Hvars Hent Hcl] Hwl Hsr. destruct (getMissingRngs_spec s Hent) as (s' & -> & Hs).
  destruct (computeEntryPointers_spec s' _ l Hs Hent Hcl) as (l' & Hc & Hok & Ha & Hlits & Hlen).
  exists s', l'. split_and!; [done|done|done| |split; [done|done|by rewrite Hlits|]|done].
  - apply (f_equal length) in Hlits. by rewrite !length_fmap in Hlits.
  - apply Forall_forall. intros w Hw.
    assert (length (data w) ∈ ((fun w => length (data w)) <$> l')) as Hin
      by (apply list_elem_of_fmap; by exists w).
    rewrite Hlen in Hin. apply list_elem_of_fmap in Hin as (w0 & -> & Hw0). by apply Hwl.
Qed.

(** What the final function approximates: the clauses with their pointers, the set of
    all of them and the completed world table of an accumulated store. *)
Definition appro_inputs (junk : nat -> N) (st : globals) (l : list WSD) (b : bitset)
    (wt : list worldTableEntry) : Prop :=
  exists state l0, getMissingRngs (gstate st) = Some state /\ gS st = Some l0 /\
    computeEntryPointers state l0 = Some l /\ bitset_set (bitset_init junk (length l)) = Some b /\
    wt = wt_entries state.

Definition lineage_prob (g : globals) (l : list WSD) : Qc :=
  Pr (complete_table (wt_entries (gstate g))) (sat_dnf (clause_of <$> l)).

Lemma conf_appro_final_spec (junk : nat -> N) (g : appro_globals) (l : list WSD) (rel : bool) :
  groupcxt (ag_store g) = true -> gS (ag_store g) = Some l -> l <> [] ->
  store_ok (wt_entries (gstate (ag_store g))) l ->
  (forall w, w ∈ l -> length (data w) = WSD_LEN (ag_store g)) ->
  single_rng (clause_of <$> l) -> approach_of (appro_approach g) = Some rel ->
  exists result g', conf_appro_final_ge junk g = Some (inr (result, g')) /\
    groupcxt (ag_store g') = false /\ gS (ag_store g') = None /\
    if decide (0 < appro_epsilon g)%Qc then
      exists l' b wt u lo s, appro_inputs junk (ag_store g) l' b wt /\
        result = approx_result rel (appro_epsilon g) u lo /\
        approximate_bounds junk (length l') rel (appro_epsilon g)
          (WsTree.indve_fuel (length l') (WSD_LEN (ag_store g))) b l' wt = Some (u, lo, s) /\
        sound u lo (lineage_prob (ag_store g) l) /\
        (has_satisfied_stopping_condition s = true ->
         stop_test rel (stopping_number_of rel (appro_epsilon g)) u lo = true)
    else result = lineage_prob (ag_store g) l.
Proof.
  intros Hg HS Hne Hst Hwl Hsr Ha. unfold conf_appro_final_ge, lineage_prob. rewrite Hg, Ha.
  destruct (prepare_spec (gstate (ag_store g)) l (WSD_LEN (ag_store g)) Hst Hwl Hsr)
    as (s' & l' & Hm & Hc & Hsh & Hlen & Hf & Hlits). rewrite Hm. cbn [mbind option_bind].
  rewrite HS. cbn [mbind option_bind]. rewrite Hc. cbn [mbind option_bind].
  set (W := complete_table (wt_entries (gstate (ag_store g)))) in *.
  assert (HW : table_ok W) by (apply complete_table_ok; apply Hst).
  assert (Hne' : l' <> []) by (intros ->; by destruct l).
  destruct (bitset_set_spec (bitset_init junk (length l')) (bitset_init_ok _ _))
    as (b & Hb & HR). rewrite Hb. cbn [mbind option_bind nbits bitset_init] in HR |- *.
  destruct (decide (0 < appro_epsilon g)%Qc) as [He|He].
  - destruct (approximate_bounds_spec W HW (WSD_LEN (ag_store g)) junk l' b (wt_entries s') rel
      (appro_epsilon g) Hne' Hf HR Hsh) as (u & lo & s & Hab & Hs & Hstop).
    rewrite Hab. cbn [mbind option_bind]. eexists _, _. split; [done|]. split; [done|]. split; [done|].
    exists l', b, (wt_entries s'), u, lo, s. rewrite <- Hlits. split_and!; try done. by exists s', l.
  - destruct (exact_value_of W HW (WSD_LEN (ag_store g)) junk l' b (wt_entries s') Hne' Hf HR Hsh)
      as (u & lo & -> & Hu & wt' & Hex).
    cbn [mbind option_bind]. rewrite <- Hlits.
    destruct (decide (0 < u - lo)%Qc) as [Hlt|Hge].
    + rewrite Hex. cbn [mbind option_bind]. eexists _, _. by split_and!.
    + eexists _, _. split; [done|]. split; [done|]. split; [done|]. apply Hu. by apply Qcnot_lt_le.
Qed.

(** ** A whole group *)

Section Group.
Context (W : wtable) (HW : table_ok W) (n : nat) (V : list Z).
Context (Hsmall : forall c, length (filter (fun v => cls INIT_NBITS v = c) (remove_dups V)) <= LIST_INIT_SIZE).

Definition appro_args (approach : String.string) (eps : Qc) : list datum :=
  [DInt32 0; DVarchar approach; DFloat4 eps].

Definition appro_rows (approach : String.string) (eps : Qc) (rs : list row) (g : appro_globals)
    : option appro_globals :=
  for_list rs (fun r g => conf_appro_accum n (row_args (appro_args approach eps) r) g) g.

Definition appro_group (junk : nat -> N) (approach : String.string) (eps : Qc) (rs : list row)
    (g : appro_globals) : option (appro_globals + prob * appro_globals) :=
  g ← appro_rows approach eps rs g; conf_appro_final_ge junk g.

Lemma appro_accum_eq (approach : String.string) (eps : Qc) (r : row) (g : appro_globals) :
  conf_appro_accum n (row_args (appro_args approach eps) r) g =
    st ← accum n 2 (row_args (appro_args approach eps) r) (ag_store g); Some (mk_appro st approach eps).
Proof. done. Qed.

(** The rows are accumulated as for exact confidence. *)
Lemma appro_rows_eq (approach : String.string) (eps : Qc) (rs : list row) (g : appro_globals) :
  rs <> [] ->
  appro_rows approach eps rs g =
    st ← accum_rows n (appro_args approach eps) rs (ag_store g); Some (mk_appro st approach eps).
Proof.
  unfold appro_rows, accum_rows. change (length (appro_args approach eps) - 1) with 2.
  revert g. induction rs as [|r rs IH]; intros g Hne; [done|]. cbn [for_list].
  rewrite appro_accum_eq. destruct (accum n 2 _ (ag_store g)) as [st|]; cbn [mbind option_bind]; [|done].
  destruct rs as [|r' rs]; [done|]. by rewrite IH.
Qed.

Lemma appro_group_spec (junk : nat -> N) (approach : String.string) (rel : bool) (eps : Qc)
    (rs : list row) (g : appro_globals) :
  approach_of approach = Some rel -> gS (ag_store g) = None -> rs <> [] ->
  Forall (row_ok W n) rs -> (forall r t, r ∈ rs -> t ∈ r -> t.1.1 ∈ V) ->
  single_rng (row_clause <$> rs) ->
  exists g1 result g', appro_rows approach eps rs g = Some g1 /\
    conf_appro_final_ge junk g1 = Some (inr (result, g')) /\
    groupcxt (ag_store g') = false /\ gS (ag_store g') = None /\
    if decide (0 < eps)%Qc then
      exists l b wt u lo s, appro_inputs junk (ag_store g1) l b wt /\ result = approx_result rel eps u lo /\
        approximate_bounds junk (length l) rel eps (WsTree.indve_fuel (length l) n) b l wt =
          Some (u, lo, s) /\
        sound u lo (Pr W (sat_dnf (row_clause <$> rs))) /\
        (has_satisfied_stopping_condition s = true ->
         stop_test rel (stopping_number_of rel eps) u lo = true)
    else result = Pr W (sat_dnf (row_clause <$> rs)).
Proof using HW Hsmall.
  intros Ha Hg Hne Hok HV Hsr. rewrite appro_rows_eq by done.
  destruct (accum_rows_spec W HW n V Hsmall (appro_args approach eps) rs (ag_store g) ltac:(done)
    Hg Hne Hok HV) as (g1 & -> & Hinv & HS).
  cbn [mbind option_bind]. destruct (gi_clauses _ _ _ _ _ Hinv) as (l & Hl & _).
  destruct (group_prob W HW n V rs g1 l Hinv Hl) as (Hso & Heq & Hwl & HP).
  rewrite <- HP.
  destruct (conf_appro_final_spec junk (mk_appro g1 approach eps) l rel)
    as (result & g2 & Hfin & Hcx & HS2 & Hres);
    [by apply (gi_cxt _ _ _ _ _ Hinv)|done|by eapply group_ne|done| | |done|].
  - intros w Hw. simpl. by rewrite (Hwl w Hw), (gi_len _ _ _ _ _ Hinv Hne).
  - by rewrite Heq.
  - eexists _, result, g2. split; [done|]. split_and!; [done..|]. simpl in Hres. unfold lineage_prob in Hres.
    destruct (decide (0 < eps)%Qc); [|done].
    destruct Hres as (l' & b & wt & u & lo & s & Hin & H1 & H2 & H3 & H4).
    rewrite (gi_len _ _ _ _ _ Hinv Hne) in H2.
    exists l', b, wt, u, lo, s. by split_and!.
Qed.
End Group.
