(* ===== verification/Presample.v ===== *)
(** * Presample: sorted random integers ([list_utils.c] of the PIP plugin)

    The presampler hands out a given number of random 32-bit integers in ascending
    order, drawing their bits on demand: a trie of which only the path to the current
    number and, per bit, the count of numbers with that bit set are kept.

    [random] is a stream of values of the generator of the C library; the state counts
    the values used. *)
From Stdlib Require Import Sorted.
From S2P Require Import Prelude.

Definition PIP_PRESAMPLE_BITS : nat := 32.

(** The last field is the number of calls of [random]. *)
Record pip_presample_tree := mk_tree {
  trackback : list Z;
  path : Z;
  curr_count : Z;
  rand : Z;
  rand_pos : Z;
  draws : nat }.

Definition set_path (t : pip_presample_tree) (p : Z) : pip_presample_tree :=
  mk_tree (trackback t) p (curr_count t) (rand t) (rand_pos t) (draws t).
Definition set_count (t : pip_presample_tree) (c : Z) : pip_presample_tree :=
  mk_tree (trackback t) (path t) c (rand t) (rand_pos t) (draws t).
Definition set_rand (t : pip_presample_tree) (r p : Z) (d : nat) : pip_presample_tree :=
  mk_tree (trackback t) (path t) (curr_count t) r p d.
Definition set_trackback (t : pip_presample_tree) (i : nat) (n : Z) : option pip_presample_tree :=
  if i <? length (trackback t)
  then Some (mk_tree (<[i := n]> (trackback t)) (path t) (curr_count t) (rand t) (rand_pos t) (draws t))
  else None.

(** [bzero]. *)
Definition zero_tree (d : nat) : pip_presample_tree :=
  mk_tree (replicate PIP_PRESAMPLE_BITS 0%Z) 0 0 0 0 d.

Section Presampler.
Context (random : nat -> Z).

(** The macro [GET_BIT]; a [long] has 64 bits. *)
Definition GET_BIT (t : pip_presample_tree) : Z * pip_presample_tree :=
  if (63 <=? rand_pos t)%Z then (Z.land (random (draws t)) 1, set_rand t (random (draws t)) 1 (S (draws t)))
  else (Z.land (Z.shiftr (rand t) (rand_pos t)) 1, set_rand t (rand t) (rand_pos t + 1) (draws t)).

Fixpoint count_bits (n : nat) (cnt : Z) (t : pip_presample_tree) : Z * pip_presample_tree :=
  match n with
  | 0 => (cnt, t)
  | S n => let '(b, t) := GET_BIT t in count_bits n (cnt + b) t
  end.

Definition pip_presample_tree_count_bits (t : pip_presample_tree) (size : Z) : Z * pip_presample_tree :=
  count_bits (Z.to_nat size) 0 t.

(** The numbers with bit [i] set are counted and set aside. *)
Definition defer_bit (i : nat) (t : pip_presample_tree) : option pip_presample_tree :=
  let '(n, t) := pip_presample_tree_count_bits t (curr_count t) in
  t ← set_trackback t i n;
  Some (set_count t (curr_count t - n)).

Definition pip_presample_tree_init (size : Z) (d : nat) : option pip_presample_tree :=
  for_list (rev (seq 0 PIP_PRESAMPLE_BITS)) defer_bit (set_count (set_rand (zero_tree d) 0 64 d) size).

Definition pip_presample_tree_load (tb : list Z) (p c : Z) (d : nat) : pip_presample_tree :=
  mk_tree tb p c 0 8 d.
Definition pip_presample_tree_save (t : pip_presample_tree) : list Z * Z * Z :=
  (trackback t, path t, curr_count t).

(** One level below the bit that was set: when no number is left without the bit, go
    on with those that have it. *)
Definition descend_bit (i : nat) (t : pip_presample_tree) : option pip_presample_tree :=
  t ← defer_bit i t;
  if (curr_count t <=? 0)%Z then
    n ← trackback t !! i;
    Some (set_count (set_path t (Z.lor (path t) (Z.shiftl 1 (Z.of_nat i)))) n)
  else Some t.

Fixpoint pip_presample_tree_find_next (t : pip_presample_tree) (bit : nat)
    : option (bool * pip_presample_tree) :=
  match bit with
  | 0 =>
      if Z.testbit (path t) 0 then Some (true, t)
      else
        n ← trackback t !! 0;
        let t := set_count (set_path t (Z.lor (path t) 1)) n in
        Some ((curr_count t <=? 0)%Z, t)
  | S low =>
      '(exhausted, t) ← pip_presample_tree_find_next t low;
      if (exhausted : bool) then
        n ← trackback t !! bit;
        if Z.testbit (path t) (Z.of_nat bit) || (n =? 0)%Z then Some (true, t)
        else
          let p := Z.shiftl (Z.lor (Z.shiftr (path t) (Z.of_nat bit)) 1) (Z.of_nat bit) in
          t ← for_list (rev (seq 0 bit)) descend_bit (set_count (set_path t p) n);
          Some (false, t)
      else Some (false, t)
  end.

Definition pip_presample_tree_curr (t : pip_presample_tree) : Z := path t.
Definition pip_presample_tree_curr_float (t : pip_presample_tree) : Qc :=
  (Q2Qc (inject_Z (path t)) / Q2Qc (inject_Z (2 ^ Z.of_nat PIP_PRESAMPLE_BITS)))%Qc.

(** [done] is the value of the variable of the caller; it is written when the numbers
    of a leaf are used up only. *)
Definition pip_presample_tree_next (done : bool) (t : pip_presample_tree)
    : option (Z * bool * pip_presample_tree) :=
  if (curr_count t <=? 0)%Z then
    '(done, t) ← pip_presample_tree_find_next t (PIP_PRESAMPLE_BITS - 1);
    if (done : bool) then Some (0%Z, true, t) else Some (path t, false, set_count t (curr_count t - 1))
  else Some (path t, done, set_count t (curr_count t - 1)).

Definition pip_presample_tree_next_float (done : bool) (t : pip_presample_tree)
    : option (Qc * bool * pip_presample_tree) :=
  '(p, done, t) ← pip_presample_tree_next done t;
  Some ((Q2Qc (inject_Z p) / Q2Qc (inject_Z (2 ^ Z.of_nat PIP_PRESAMPLE_BITS)))%Qc, done, t).

(** The server functions on generators ([funcs/pip_presampler.c]).  [isdone] has no
    initial value in the code: [junk]. *)
Definition pip_presampler_create (size : Z) (d : nat) : option pip_presample_tree :=
  pip_presample_tree_init size d.
Definition pip_presampler_advance (junk : bool) (t : pip_presample_tree) : option (option pip_presample_tree) :=
  '(_, isdone, output) ← pip_presample_tree_next junk t;
  Some (if (isdone : bool) then None else Some output).
Definition pip_presampler_get (t : pip_presample_tree) : Qc := pip_presample_tree_curr_float t.

(** The generator as it is read back after it was stored. *)
Definition stored (t : pip_presample_tree) : pip_presample_tree :=
  let '(tb, p, c) := pip_presample_tree_save t in pip_presample_tree_load tb p c (draws t).

(** A caller that asks for numbers until there are no more, at most [fuel] times;
    [reload k] tells whether it stores the generator before call [k]. *)
Fixpoint samples (reload : nat -> bool) (fuel k : nat) (t : pip_presample_tree) : option (list Z) :=
  match fuel with
  | 0 => None
  | S fuel =>
      '(p, done, t) ← pip_presample_tree_next false (if reload k then stored t else t);
      if (done : bool) then Some [] else l ← samples reload fuel (S k) t; Some (p :: l)
  end.
End Presampler.

(** ** The presampler hands out all its numbers in order

    The numbers still to come are the current ones and, for every clear bit of the
    path, the ones set aside for that bit.  Every operation keeps their number, or
    takes one away, and the path never decreases. *)

Open Scope Z_scope.

(** ** Bits *)

Lemma le_lor (p q : Z) : 0 <= p -> 0 <= q -> p <= Z.lor p q.
Proof.
  intros Hp Hq. apply Z.ldiff_le; [by apply Z.lor_nonneg|]. apply Z.bits_inj'. intros n _.
  rewrite Z.ldiff_spec, Z.lor_spec, Z.bits_0. by destruct (Z.testbit p n), (Z.testbit q n).
Qed.

Lemma testbit_one (k : Z) : 0 <= k -> Z.testbit 1 k = bool_decide (k = 0).
Proof.
  intros Hk. case_bool_decide as H; [by rewrite H|]. change 1 with (2 ^ 0). apply Z.pow2_bits_false. lia.
Qed.

Lemma testbit_set (p : Z) (i j : nat) :
  Z.testbit (Z.lor p (Z.shiftl 1 (Z.of_nat i))) (Z.of_nat j)
    = Z.testbit p (Z.of_nat j) || bool_decide (i = j).
Proof.
  rewrite Z.lor_spec, Z.shiftl_spec by lia. f_equal. destruct (decide (i <= j)%nat).
  - rewrite testbit_one by lia. apply bool_decide_ext. lia.
  - rewrite Z.testbit_neg_r by lia. symmetry. apply bool_decide_eq_false. lia.
Qed.

(** The path after bit [b] is set and the lower bits are cleared. *)
Definition advanced (p : Z) (b : nat) : Z := Z.shiftl (Z.lor (Z.shiftr p (Z.of_nat b)) 1) (Z.of_nat b).

Lemma testbit_advanced (p : Z) (b j : nat) :
  Z.testbit (advanced p b) (Z.of_nat j)
    = bool_decide (b <= j)%nat && (Z.testbit p (Z.of_nat j) || bool_decide (b = j)).
Proof.
  unfold advanced. rewrite Z.shiftl_spec by lia. destruct (decide (b <= j)%nat) as [Hj|Hj].
  - rewrite bool_decide_true by done. rewrite Z.lor_spec, Z.shiftr_spec, testbit_one by lia.
    replace (Z.of_nat j - Z.of_nat b + Z.of_nat b) with (Z.of_nat j) by lia. simpl. f_equal.
    apply bool_decide_ext. lia.
  - rewrite bool_decide_false by done. rewrite Z.testbit_neg_r by lia. done.
Qed.

Lemma advanced_nonneg (p : Z) (b : nat) : 0 <= p -> 0 <= advanced p b.
Proof. intros Hp. apply Z.shiftl_nonneg, Z.lor_nonneg. split; [by apply Z.shiftr_nonneg|done]. Qed.

Lemma advanced_gt (p : Z) (b : nat) :
  0 <= p -> Z.testbit p (Z.of_nat b) = false -> p < advanced p b.
Proof.
  intros Hp Hb. unfold advanced. rewrite Z.shiftl_mul_pow2 by lia.
  set (k := Z.shiftr p (Z.of_nat b)). assert (Hk : 0 <= k) by by apply Z.shiftr_nonneg.
  assert (k < Z.lor k 1).
  { pose proof (le_lor k 1 Hk ltac:(lia)) as Hle. destruct (decide (k = Z.lor k 1)) as [He|]; [|lia].
    apply (f_equal (fun x => Z.testbit x 0)) in He. rewrite Z.lor_spec in He. unfold k in He.
    rewrite Z.shiftr_spec, Z.add_0_l, Hb in He by lia. done. }
  pose proof (Z.mul_succ_div_gt p (2 ^ Z.of_nat b) ltac:(lia)) as Hd.
  rewrite <- Z.shiftr_div_pow2 in Hd by lia. fold k in Hd. nia.
Qed.

(** ** The numbers still to come *)

Definition tb (t : pip_presample_tree) (i : nat) : Z := default 0 (trackback t !! i).
Definition bit (t : pip_presample_tree) (i : nat) : bool := Z.testbit (path t) (Z.of_nat i).
Definition aside (t : pip_presample_tree) (i : nat) : Z := if bit t i then 0 else tb t i.

Fixpoint pending (t : pip_presample_tree) (n : nat) : Z :=
  match n with O => 0 | S n => pending t n + aside t n end.

Definition remaining (t : pip_presample_tree) : Z := curr_count t + pending t PIP_PRESAMPLE_BITS.

Record tree_ok (t : pip_presample_tree) : Prop := {
  ok_length : length (trackback t) = PIP_PRESAMPLE_BITS;
  ok_count : 0 <= curr_count t;
  ok_aside : forall i, 0 <= tb t i;
  ok_path : 0 <= path t;
  ok_bits : forall i, (PIP_PRESAMPLE_BITS <= i)%nat -> bit t i = false }.

Lemma path_bound (t : pip_presample_tree) : tree_ok t -> 0 <= path t < 2 ^ Z.of_nat PIP_PRESAMPLE_BITS.
Proof.
  intros [_ _ _ Hp Hb]. apply Z.bounded_iff_bits_nonneg'; [done|done|]. intros l Hl.
  specialize (Hb (Z.to_nat l)). unfold bit in Hb. rewrite Z2Nat.id in Hb by lia. apply Hb. lia.
Qed.

Lemma pending_nonneg (t : pip_presample_tree) (n : nat) : tree_ok t -> 0 <= pending t n.
Proof.
  intros Hok. induction n as [|n IH]; simpl; [lia|]. unfold aside.
  pose proof (ok_aside t Hok n). destruct (bit t n); lia.
Qed.

Lemma pending_ext (t t' : pip_presample_tree) (n : nat) :
  (forall i, (i < n)%nat -> aside t i = aside t' i) -> pending t n = pending t' n.
Proof.
  induction n as [|n IH]; intros H; simpl; [done|]. rewrite IH by (intros; apply H; lia). by rewrite (H n) by lia.
Qed.

Lemma tb_lookup (t : pip_presample_tree) (i : nat) :
  tree_ok t -> (i < PIP_PRESAMPLE_BITS)%nat -> trackback t !! i = Some (tb t i).
Proof.
  intros Hok Hi. unfold tb. destruct (lookup_lt_is_Some_2 (trackback t) i) as [x ->]; [|done].
  by rewrite (ok_length t Hok).
Qed.

(** ** Random bits *)

Section Random.
Context (random : nat -> Z).

(** A step that touches the random number only. *)
Definition same_tree (t t' : pip_presample_tree) : Prop :=
  trackback t' = trackback t /\ path t' = path t /\ curr_count t' = curr_count t.

Lemma get_bit_spec (t : pip_presample_tree) :
  exists b t', GET_BIT random t = (b, t') /\ 0 <= b <= 1 /\ same_tree t t'.
Proof.
  unfold GET_BIT. assert (H : forall x, 0 <= Z.land x 1 <= 1).
  { intros x. pose proof (Z.land_ones x 1 ltac:(done)) as E. change (Z.ones 1) with 1 in E. rewrite E. pose proof (Z.mod_pos_bound x (2 ^ 1) ltac:(done)). lia. }
  destruct (63 <=? rand_pos t); eexists _, _; (split; [done|]); by split; [apply H|].
Qed.

Lemma count_bits_spec (n : nat) (cnt : Z) (t : pip_presample_tree) :
  exists c t', count_bits random n cnt t = (c, t') /\ cnt <= c <= cnt + Z.of_nat n /\ same_tree t t'.
Proof.
  revert cnt t. induction n as [|n IH]; intros cnt t; cbn [count_bits].
  - exists cnt, t. split_and!; done || lia.
  - destruct (get_bit_spec t) as (b & t1 & -> & Hb & H1).
    destruct (IH (cnt + b) t1) as (c & t2 & -> & Hc & H2). exists c, t2. split_and!; [done|lia|lia|].
    destruct H1 as (?&?&?), H2 as (?&?&?). split_and!; congruence.
Qed.

(** Everything but the entry of the bit and the count stays; their sum is the count. *)
Lemma defer_bit_spec (i : nat) (t : pip_presample_tree) :
  tree_ok t -> (i < PIP_PRESAMPLE_BITS)%nat ->
  exists t', defer_bit random i t = Some t' /\ tree_ok t' /\ path t' = path t /\
    curr_count t' + tb t' i = curr_count t /\ forall j, j <> i -> tb t' j = tb t j.
Proof.
  intros Hok Hi. unfold defer_bit, pip_presample_tree_count_bits.
  destruct (count_bits_spec (Z.to_nat (curr_count t)) 0 t) as (c & t1 & -> & Hc & Htb & Hp & Hcc).
  pose proof (ok_count t Hok). rewrite Z2Nat.id in Hc by done.
  assert (Hlen : (i < length (trackback t))%nat) by by rewrite (ok_length t Hok).
  unfold set_trackback. rewrite Htb, (proj2 (Nat.ltb_lt _ _)) by done. cbn [mbind option_bind].
  assert (Hi' : default 0 (<[i := c]> (trackback t) !! i) = c) by by rewrite list_lookup_insert_eq.
  assert (Hj : forall j, j <> i -> default 0 (<[i := c]> (trackback t) !! j) = tb t j).
  { intros j Hj. by rewrite list_lookup_insert_ne. }
  eexists. split; [done|]. unfold tb at 1 2, set_count. simpl. split_and!; [|done|lia|done].
  constructor; simpl.
  - rewrite length_insert. apply Hok.
  - lia.
  - intros j. unfold tb. simpl. destruct (decide (j = i)) as [->|Hne]; [lia|]. rewrite Hj by done. apply Hok.
  - rewrite Hp. apply Hok.
  - intros j Hb. unfold bit. simpl. rewrite Hp. by apply Hok.
Qed.

Lemma down_cons {St} (n : nat) (body : nat -> St -> option St) (s : St) :
  for_list (rev (seq 0 (S n))) body s = body n s ≫= for_list (rev (seq 0 n)) body.
Proof. by rewrite seq_S, rev_app_distr. Qed.

(** *** The initial split *)

Lemma init_spec (n : nat) (t : pip_presample_tree) :
  (n <= PIP_PRESAMPLE_BITS)%nat -> tree_ok t -> (forall i, (i < n)%nat -> bit t i = false) ->
  exists t', for_list (rev (seq 0 n)) (defer_bit random) t = Some t' /\ tree_ok t' /\ path t' = path t /\
    (forall j, (n <= j)%nat -> tb t' j = tb t j) /\ curr_count t' + pending t' n = curr_count t.
Proof.
  revert t. induction n as [|n IH]; intros t Hn Hok Hb.
  - exists t. split_and!; done || lia || (simpl; lia).
  - rewrite down_cons. destruct (defer_bit_spec n t Hok ltac:(lia)) as (t1 & -> & Hok1 & Hp1 & Hc1 & Ht1).
    cbn [mbind option_bind].
    destruct (IH t1) as (t2 & -> & Hok2 & Hp2 & Ht2 & Hc2); [lia|done| |].
    { intros i Hi. unfold bit. rewrite Hp1. apply Hb. lia. }
    exists t2. split_and!; [done|done|congruence| |].
    + intros j Hj. rewrite Ht2 by lia. apply Ht1. lia.
    + simpl. unfold aside, bit. rewrite Hp2, Hp1. fold (bit t n). rewrite (Hb n), Ht2 by lia. lia.
Qed.

(** *** Below a bit that was just set *)

Lemma set_bit_ok (t : pip_presample_tree) (i : nat) (n : Z) :
  tree_ok t -> (i < PIP_PRESAMPLE_BITS)%nat -> 0 <= n ->
  tree_ok (set_count (set_path t (Z.lor (path t) (Z.shiftl 1 (Z.of_nat i)))) n).
Proof.
  intros Hok Hi Hn. constructor; simpl; try apply Hok; [done| |].
  - apply Z.lor_nonneg. split; [apply Hok|]. by apply Z.shiftl_nonneg.
  - intros j Hj. unfold bit. simpl. rewrite testbit_set, bool_decide_false by lia.
    rewrite orb_false_r. by apply Hok.
Qed.

Lemma descend_eq (i : nat) (t : pip_presample_tree) :
  descend_bit random i t =
    (t ← defer_bit random i t;
     if curr_count t <=? 0 then
       n ← trackback t !! i;
       Some (set_count (set_path t (Z.lor (path t) (Z.shiftl 1 (Z.of_nat i)))) n)
     else Some t).
Proof. done. Qed.

Lemma descend_spec (n : nat) (t : pip_presample_tree) :
  (n <= PIP_PRESAMPLE_BITS)%nat -> tree_ok t -> 0 < curr_count t -> (forall i, (i < n)%nat -> bit t i = false) ->
  exists t', for_list (rev (seq 0 n)) (descend_bit random) t = Some t' /\ tree_ok t' /\ 0 < curr_count t' /\
    path t <= path t' /\ (forall j, (n <= j)%nat -> tb t' j = tb t j /\ bit t' j = bit t j) /\
    curr_count t' + pending t' n = curr_count t.
Proof.
  revert t. induction n as [|n IH]; intros t Hn Hok Hc Hb.
  - exists t. split_and!; done || lia || (simpl; lia).
  - rewrite down_cons. rewrite descend_eq.
    destruct (defer_bit_spec n t Hok ltac:(lia)) as (t1 & -> & Hok1 & Hp1 & Hc1 & Ht1). cbn [mbind option_bind].
    pose proof (ok_count t1 Hok1). destruct (Z.leb_spec (curr_count t1) 0).
    + rewrite (tb_lookup t1 n Hok1) by lia. cbn [mbind option_bind].
      set (t2 := set_count _ _).
      assert (Hok2 : tree_ok t2) by (apply set_bit_ok; [done|lia|lia]).
      assert (Hbit : forall j, bit t2 j = bit t j || bool_decide (n = j)).
      { intros j. unfold t2, bit. simpl. by rewrite Hp1, testbit_set. }
      assert (Htb : forall j, tb t2 j = tb t1 j) by done.
      destruct (IH t2) as (t3 & -> & Hok3 & Hc3 & Hp3 & Hs3 & Hr3); [lia|done|simpl; lia| |].
      { intros i Hi. rewrite Hbit, (Hb i), bool_decide_false by lia. done. }
      exists t3. split_and!; [done|done|done| | |].
      * etrans; [|exact Hp3]. unfold t2. simpl. rewrite Hp1. apply le_lor; [apply Hok|]. by apply Z.shiftl_nonneg.
      * intros j Hj. destruct (Hs3 j ltac:(lia)) as [-> ->]. rewrite Htb, Ht1, Hbit, bool_decide_false by lia.
        by rewrite orb_false_r.
      * simpl pending. unfold aside. destruct (Hs3 n ltac:(lia)) as [_ ->].
        rewrite Hbit, bool_decide_true, orb_true_r by done. simpl in Hr3. lia.
    + cbn [mbind option_bind]. assert (Hbit : forall j, bit t1 j = bit t j) by (intros j; unfold bit; by rewrite Hp1).
      destruct (IH t1) as (t3 & -> & Hok3 & Hc3 & Hp3 & Hs3 & Hr3); [lia|done|lia| |].
      { intros i Hi. rewrite Hbit. apply Hb. lia. }
      exists t3. split_and!; [done|done|done|by rewrite <- Hp1| |].
      * intros j Hj. destruct (Hs3 j ltac:(lia)) as [-> ->]. rewrite Ht1, Hbit by lia. done.
      * simpl pending. unfold aside. destruct (Hs3 n ltac:(lia)) as [-> ->]. rewrite Hbit, (Hb n) by lia. lia.
Qed.

(** *** The next leaf *)

Lemma advanced_ok (t : pip_presample_tree) (b : nat) (n : Z) :
  tree_ok t -> (b < PIP_PRESAMPLE_BITS)%nat -> 0 <= n -> tree_ok (set_count (set_path t (advanced (path t) b)) n).
Proof.
  intros Hok Hb Hn. constructor; simpl; try apply Hok; [done| |].
  - apply advanced_nonneg, Hok.
  - intros j Hj. unfold bit. simpl. rewrite testbit_advanced.
    rewrite (bool_decide_false (b = j)), orb_false_r by lia. pose proof (ok_bits t Hok j Hj) as H.
    unfold bit in H. by rewrite H, andb_false_r.
Qed.

Lemma find_next_spec (b : nat) (t : pip_presample_tree) :
  (b < PIP_PRESAMPLE_BITS)%nat -> tree_ok t -> curr_count t = 0 ->
  exists d t', pip_presample_tree_find_next random t b = Some (d, t') /\ tree_ok t' /\ path t <= path t' /\
    (forall j, (b < j)%nat -> tb t' j = tb t j /\ bit t' j = bit t j) /\
    if (d : bool) then pending t (S b) = 0 /\ curr_count t' = 0
    else 0 < curr_count t' /\ curr_count t' + pending t' (S b) = pending t (S b).
Proof.
  revert t. induction b as [|b IH]; intros t Hb Hok Hc; cbn [pip_presample_tree_find_next].
  - change (Z.testbit (path t) 0) with (bit t 0). destruct (bit t 0) eqn:Hbit.
    + exists true, t. split_and!; [done|done|lia|done| |done]. simpl. unfold aside. by rewrite Hbit.
    + rewrite (tb_lookup t 0 Hok) by done. cbn [mbind option_bind].
      pose proof (ok_aside t Hok 0) as Hn. pose proof (set_bit_ok t 0 (tb t 0) Hok ltac:(lia) Hn) as Hok'.
      change (Z.shiftl 1 (Z.of_nat 0)) with 1 in Hok'. eexists _, _. split; [done|]. split; [done|].
      assert (Hbits : forall j, bit (set_count (set_path t (Z.lor (path t) 1)) (tb t 0)) j = bit t j || bool_decide (0%nat = j)).
      { intros j. unfold bit. simpl. apply (testbit_set (path t) 0 j). }
      split; [|split].
      * simpl. apply le_lor; [apply Hok|done].
      * intros j Hj. rewrite Hbits, bool_decide_false by lia. by rewrite orb_false_r.
      * simpl pending. unfold aside at 1 2 3. rewrite Hbits, Hbit. simpl.
        destruct (Z.leb_spec (tb t 0) 0); lia.
  - destruct (IH t ltac:(lia) Hok Hc) as (d & t1 & -> & Hok1 & Hp1 & Hs1 & Hd). cbn [mbind option_bind].
    destruct (Hs1 (S b) ltac:(lia)) as [Htb Hbit].
    destruct d.
    + destruct Hd as [Hpend Hc1]. rewrite (tb_lookup t1 (S b) Hok1) by done. cbn [mbind option_bind].
      change (Z.testbit (path t1) (Z.of_nat (S b))) with (bit t1 (S b)).
      destruct (bit t1 (S b) || (tb t1 (S b) =? 0)) eqn:Hex.
      * exists true, t1. split_and!; [done|done|done|intros; apply Hs1; lia| |done].
        change (pending t (S (S b))) with (pending t (S b) + aside t (S b)). rewrite Hpend. unfold aside.
        rewrite <- Hbit, <- Htb. destruct (bit t1 (S b)); [done|]. simpl in Hex. apply Z.eqb_eq in Hex. lia.
      * apply orb_false_iff in Hex as [Hb1 Hne]. apply Z.eqb_neq in Hne. pose proof (ok_aside t1 Hok1 (S b)) as Hn.
        fold (advanced (path t1) (S b)). set (t2 := set_count _ _).
        assert (Hok2 : tree_ok t2) by (apply advanced_ok; [done|lia|done]).
        assert (Hbits : forall j, bit t2 j = bool_decide (S b <= j)%nat && (bit t1 j || bool_decide (S b = j))).
        { intros j. unfold t2, bit. simpl. apply testbit_advanced. }
        destruct (descend_spec (S b) t2) as (t3 & -> & Hok3 & Hc3 & Hp3 & Hs3 & Hr3); [lia|done|simpl; lia| |].
        { intros i Hi. rewrite Hbits, bool_decide_false by lia. done. }
        exists false, t3. cbn [mbind option_bind].
        pose proof (advanced_gt (path t1) (S b) (ok_path t1 Hok1) Hb1).
        split_and!; [done|done| | |done|].
        -- simpl in Hp3. lia.
        -- intros j Hj. destruct (Hs3 j ltac:(lia)) as [-> ->]. destruct (Hs1 j ltac:(lia)) as [Htj Hbj].
           rewrite Hbits, bool_decide_true, (bool_decide_false (S b = j)), orb_false_r by lia. done.
        -- change (pending t3 (S (S b))) with (pending t3 (S b) + aside t3 (S b)).
           change (pending t (S (S b))) with (pending t (S b) + aside t (S b)). rewrite Hpend.
           unfold aside. destruct (Hs3 (S b) ltac:(lia)) as [_ ->]. rewrite <- Hbit, <- Htb, Hb1, Hbits.
           rewrite !bool_decide_true, orb_true_r by lia. simpl in Hr3 |- *. lia.
    + destruct Hd as [Hc1 Hr1]. exists false, t1. split_and!; [done|done|done|intros; apply Hs1; lia|done|].
      change (pending t1 (S (S b))) with (pending t1 (S b) + aside t1 (S b)).
      change (pending t (S (S b))) with (pending t (S b) + aside t (S b)).
      unfold aside. rewrite Hbit, Htb. lia.
Qed.

(** *** The next number *)

Lemma count_ok (t : pip_presample_tree) (c : Z) : tree_ok t -> 0 <= c -> tree_ok (set_count t c).
Proof. intros [? ? ? ? ?] Hc. by constructor. Qed.

Lemma remaining_take (t : pip_presample_tree) : remaining (set_count t (curr_count t - 1)) = remaining t - 1.
Proof.
  unfold remaining. rewrite (pending_ext _ t) by done. simpl. lia.
Qed.

Lemma next_spec (d : bool) (t : pip_presample_tree) :
  tree_ok t -> 0 < remaining t ->
  exists d' t', pip_presample_tree_next random d t = Some (path t', d', t') /\ (d = false -> d' = false) /\
    tree_ok t' /\ remaining t' = remaining t - 1 /\ path t <= path t'.
Proof.
  intros Hok Hr. unfold pip_presample_tree_next. pose proof (ok_count t Hok).
  destruct (Z.leb_spec (curr_count t) 0) as [Hc|Hc].
  - assert (Hc0 : curr_count t = 0) by lia.
    destruct (find_next_spec (PIP_PRESAMPLE_BITS - 1) t ltac:(by apply Nat.ltb_lt) Hok Hc0) as (d' & t1 & -> & Hok1 & Hp1 & _ & Hd).
    cbn [mbind option_bind]. change (S (PIP_PRESAMPLE_BITS - 1)) with PIP_PRESAMPLE_BITS in Hd.
    unfold remaining in Hr. destruct d'; [lia|]. destruct Hd as [Hc1 Hr1].
    exists false, (set_count t1 (curr_count t1 - 1)). split; [done|]. split; [done|].
    split; [apply count_ok; [done|lia]|]. rewrite remaining_take. unfold remaining. split; [lia|done].
  - exists d, (set_count t (curr_count t - 1)). split; [done|]. split; [done|].
    split; [apply count_ok; [done|lia]|]. rewrite remaining_take.
    split; [done|]. simpl. lia.
Qed.

Lemma next_done (d : bool) (t : pip_presample_tree) :
  tree_ok t -> remaining t = 0 ->
  exists t', pip_presample_tree_next random d t = Some (0, true, t').
Proof.
  intros Hok Hr. unfold pip_presample_tree_next. pose proof (ok_count t Hok).
  pose proof (pending_nonneg t PIP_PRESAMPLE_BITS Hok). unfold remaining in Hr.
  rewrite (proj2 (Z.leb_le _ _)) by lia.
  destruct (find_next_spec (PIP_PRESAMPLE_BITS - 1) t ltac:(by apply Nat.ltb_lt) Hok ltac:(lia)) as (d' & t1 & -> & Hok1 & _ & _ & Hd).
  cbn [mbind option_bind]. change (S (PIP_PRESAMPLE_BITS - 1)) with PIP_PRESAMPLE_BITS in Hd.
  destruct d'; [by eexists|]. pose proof (pending_nonneg t1 PIP_PRESAMPLE_BITS Hok1). lia.
Qed.

Lemma stored_ok (t : pip_presample_tree) :
  tree_ok t -> tree_ok (stored t) /\ remaining (stored t) = remaining t /\ path (stored t) = path t.
Proof.
  intros [? ? ? ? ?]. split; [by constructor|]. split; [|done]. unfold remaining. by rewrite (pending_ext _ t).
Qed.

Lemma samples_spec (reload : nat -> bool) (fuel k : nat) (t : pip_presample_tree) :
  tree_ok t -> (Z.to_nat (remaining t) < fuel)%nat ->
  exists l, samples random reload fuel k t = Some l /\ Z.of_nat (length l) = remaining t /\ Sorted Z.le l /\
    Forall (fun x => path t <= x < 2 ^ Z.of_nat PIP_PRESAMPLE_BITS) l.
Proof.
  revert k t. induction fuel as [|fuel IH]; intros k t0 Hok0 Hf; [lia|]. cbn [samples].
  assert (exists t, (if reload k then stored t0 else t0) = t /\ tree_ok t /\ remaining t = remaining t0 /\ path t = path t0)
    as (t & -> & Hok & Hrt & Hpt).
  { destruct (reload k); eexists; (split; [done|]); [by apply stored_ok|done]. }
  rewrite <- Hrt, <- Hpt in *. clear Hok0.
  assert (Hr : 0 <= remaining t).
  { unfold remaining. pose proof (pending_nonneg t PIP_PRESAMPLE_BITS Hok). pose proof (ok_count t Hok). lia. }
  destruct (decide (remaining t = 0)) as [H0|H0].
  - destruct (next_done false t Hok H0) as (t' & ->). cbn [mbind option_bind]. exists [].
    split_and!; [done|done|constructor|constructor].
  - destruct (next_spec false t Hok ltac:(lia)) as (d & t' & -> & Hd & Hok' & Hr' & Hp). rewrite Hd by done.
    cbn [mbind option_bind]. destruct (IH (S k) t' Hok' ltac:(lia)) as (l & -> & Hlen & Hs & HF).
    cbn [mbind option_bind]. exists (path t' :: l). split_and!; [done|simpl; lia| |].
    + constructor; [done|]. destruct HF; constructor. lia.
    + constructor; [pose proof (path_bound t' Hok'); lia|]. eapply Forall_impl; [exact HF|]. simpl. lia.
Qed.

Lemma init_tree_ok (size : Z) (d : nat) :
  0 <= size ->
  exists t, pip_presample_tree_init random size d = Some t /\ tree_ok t /\ path t = 0 /\ remaining t = size.
Proof.
  intros Hs. unfold pip_presample_tree_init.
  destruct (init_spec PIP_PRESAMPLE_BITS (set_count (set_rand (zero_tree d) 0 64 d) size)) as (t & -> & Hok & Hp & _ & Hr).
  - done.
  - constructor; [done|done| |done|].
    + intros i. change (0 <= default 0 (replicate PIP_PRESAMPLE_BITS 0 !! i)).
      destruct (_ !! i) eqn:E; [|done]. by apply lookup_replicate in E as [-> _].
    + intros i _. apply Z.bits_0.
  - intros i _. apply Z.bits_0.
  - by exists t.
Qed.
End Random.

(** ** Bits that are not random *)

(** [random] has 31 bits, and the higher ones of the 63 that are used are zero. *)
Lemma get_bit_high (random : nat -> Z) (t : pip_presample_tree) :
  0 <= rand t < 2 ^ 31 -> 31 <= rand_pos t < 63 ->
  GET_BIT random t = (0, set_rand t (rand t) (rand_pos t + 1) (draws t)).
Proof.
  intros Hr Hp. unfold GET_BIT. destruct (Z.leb_spec 63 (rand_pos t)); [lia|]. f_equal.
  rewrite Z.shiftr_div_pow2, Z.div_small; [done| |lia].
  split; [lia|]. eapply Z.lt_le_trans; [apply Hr|]. apply Z.pow_le_mono_r; lia.
Qed.

Lemma count_bits_zero (random : nat -> Z) (n : nat) (cnt : Z) (t : pip_presample_tree) :
  rand t = 0 -> 0 <= rand_pos t -> rand_pos t + Z.of_nat n <= 63 ->
  fst (count_bits random n cnt t) = cnt.
Proof.
  revert cnt t. induction n as [|n IH]; intros cnt t Hr H0 Hn; [done|]. cbn [count_bits]. unfold GET_BIT.
  destruct (Z.leb_spec 63 (rand_pos t)); [lia|]. rewrite Hr, Z.shiftr_0_l. change (Z.land 0 1) with 0.
  rewrite IH; simpl; lia || done.
Qed.
