(* ===== verification/PipVar.v ===== *)
(** * PipVar: the numbers of the PIP plugin

    The plugin computes with doubles.  Its definitions are stated for any type with
    the operations of [Float8], so that what does not depend on rounding holds for
    IEEE doubles as well; [ext] has exact rationals, infinities and NaN. *)
From Stdlib Require Import Strings.String.
From S2P Require Import Prelude.

Class Float8 (F : Type) := {
  fl_zero : F;
  fl_one : F;
  fl_of_Z : Z -> F;
  fl_nan : F;
  fl_inf : F;
  fl_minf : F;
  fl_add : F -> F -> F;
  fl_sub : F -> F -> F;
  fl_mul : F -> F -> F;
  fl_div : F -> F -> F;
  fl_gt : F -> F -> bool;
  fl_eq : F -> F -> bool;
  isnan : F -> bool }.

Inductive ext := Fin (q : Qc) | PInf | MInf | NaN.

Definition ext_opp (x : ext) : ext :=
  match x with Fin q => Fin (- q) | PInf => MInf | MInf => PInf | NaN => NaN end.

Definition ext_add (x y : ext) : ext :=
  match x, y with
  | Fin p, Fin q => Fin (p + q)
  | NaN, _ | _, NaN => NaN
  | PInf, MInf | MInf, PInf => NaN
  | PInf, _ | _, PInf => PInf
  | MInf, _ | _, MInf => MInf
  end.

(** The sign of an infinite result. *)
Definition ext_sign (x : ext) : comparison :=
  match x with Fin q => (q ?= 0)%Qc | PInf => Gt | MInf => Lt | NaN => Eq end.
Definition signed_inf (c d : comparison) : ext :=
  match c, d with
  | Eq, _ | _, Eq => NaN
  | Gt, Gt | Lt, Lt => PInf
  | _, _ => MInf
  end.

Definition ext_mul (x y : ext) : ext :=
  match x, y with
  | Fin p, Fin q => Fin (p * q)
  | NaN, _ | _, NaN => NaN
  | _, _ => signed_inf (ext_sign x) (ext_sign y)
  end.

Definition ext_div (x y : ext) : ext :=
  match x, y with
  | NaN, _ | _, NaN => NaN
  | Fin p, Fin q => if decide (q = 0%Qc) then signed_inf (ext_sign x) Gt else Fin (p / q)
  | Fin _, _ => Fin 0
  | _, Fin q => signed_inf (ext_sign x) (if decide (q < 0)%Qc then Lt else Gt)
  | _, _ => NaN
  end.

Definition ext_gt (x y : ext) : bool :=
  match x, y with
  | NaN, _ | _, NaN => false
  | Fin p, Fin q => bool_decide (q < p)%Qc
  | PInf, PInf | MInf, _ => false
  | PInf, _ | Fin _, MInf => true
  | Fin _, PInf => false
  end.

Definition ext_eq (x y : ext) : bool :=
  match x, y with
  | Fin p, Fin q => bool_decide (p = q)
  | PInf, PInf | MInf, MInf => true
  | _, _ => false
  end.

#[export] Instance ext_float8 : Float8 ext := {
  fl_zero := Fin 0;
  fl_one := Fin 1;
  fl_of_Z z := Fin (Q2Qc (inject_Z z));
  fl_nan := NaN;
  fl_inf := PInf;
  fl_minf := MInf;
  fl_add := ext_add;
  fl_sub x y := ext_add x (ext_opp y);
  fl_mul := ext_mul;
  fl_div := ext_div;
  fl_gt := ext_gt;
  fl_eq := ext_eq;
  isnan x := match x with NaN => true | _ => false end }.

(** ** Random variables of the PIP plugin ([pvar.c], [pip.c], [dist/])

    A variable has a group (its distribution), a number, a subscript and the parameters
    of the distribution.  The table of distributions is that of [disttable.c]; the
    uniform and the zero distribution are modelled, the others, which need
    transcendental functions, are entries of the table that stay parameters. *)

Open Scope Z_scope.

(** ** Integers *)

Definition int64 (z : Z) : Z := (z + 2 ^ 63) mod 2 ^ 64 - 2 ^ 63.

Definition int32 (z : Z) : Z := (z + 2 ^ 31) mod 2 ^ 32 - 2 ^ 31.

Definition RANDOM_MAX : Z := 2 ^ 31 - 1.

(** [v ^= v >> n] and [v ^= v << n] on [int64]. *)
Definition xorshr (v n : Z) : Z := Z.lxor v (Z.shiftr v n).
Definition xorshl (v n : Z) : Z := Z.lxor v (int64 (Z.shiftl v n)).

Definition pip_prng_step (v : Z) : Z :=
  let v := int64 (v * 3935559000370003845 + 2691343689449507681) in
  let v := xorshr (xorshl (xorshr v 21) 37) 4 in
  let v := int64 (v * 4768777413237032717) in
  xorshr (xorshl (xorshr v 20) 41) 5.

(** The value and the new seed, which are equal. *)
Definition pip_prng_int (seed : Z) : Z * Z := (pip_prng_step seed, pip_prng_step seed).

(** ** Variables *)

(** [group_state] holds doubles. *)
Record pip_var (F : Type) := mk_var {
  variable : Z;
  group : Z;
  subscript : Z;
  group_state : list F }.
Arguments mk_var {F}.
Arguments variable {F}.
Arguments group {F}.
Arguments subscript {F}.
Arguments group_state {F}.

Definition sizeof_pip_var : Z := 32.
Definition VARSIZE_var {F} (v : pip_var F) : Z := sizeof_pip_var + 8 * Z.of_nat (length (group_state v)).

(** The parts of an entry of the table that are called; [None] is a null pointer. *)
Record pip_functable_entry (F : Type) := mk_dist {
  dist_name : string;
  dist_gen : pip_var F -> Z -> F;
  dist_pdf : option (pip_var F -> F -> F);
  dist_cdf : option (pip_var F -> F -> F);
  dist_icdf : option (pip_var F -> F -> F) }.
Arguments mk_dist {F}.
Arguments dist_name {F}.
Arguments dist_gen {F}.
Arguments dist_pdf {F}.
Arguments dist_cdf {F}.
Arguments dist_icdf {F}.

Section Vars.
Context {F : Type} `{Float8 F}.

Definition pip_var_id_eq (a b : pip_var F) : bool := (group a =? group b) && (variable a =? variable b).
Definition pip_var_eq (a b : pip_var F) : bool := pip_var_id_eq a b.

Definition pip_variable_sort (a b : pip_var F) : Z :=
  if group b <? group a then 1
  else if group a <? group b then -1
  else if variable b <? variable a then 1
  else if variable a <? variable b then -1
  else 0.

Definition pip_prng_float (seed : Z) : F * Z :=
  let '(r, seed) := pip_prng_int seed in
  (fl_mul (fl_div fl_one (fl_of_Z RANDOM_MAX)) (fl_of_Z (Z.land r RANDOM_MAX)), seed).

Context (pip_distributions : list (pip_functable_entry F)).
Definition pip_distribution_count : Z := Z.of_nat (length pip_distributions).

(** The entry of a valid group; the array access is in range then. *)
Definition dist_of (v : pip_var F) : option (pip_functable_entry F) :=
  if (pip_distribution_count <=? group v) || (group v <? 0) then None
  else pip_distributions !! Z.to_nat (group v).

Definition pip_var_gen_wseed (v : pip_var F) (seed : Z) : F :=
  match dist_of v with None => fl_nan | Some e => dist_gen e v seed end.
Definition pip_var_gen (v : pip_var F) (random : Z) : F := pip_var_gen_wseed v random.
Definition pip_var_gen_w_name_and_seed (v : pip_var F) (seed : Z) : F :=
  pip_var_gen_wseed v (Z.lxor seed (pip_prng_step (variable v))).

(** A member of the table entry, NaN when there is none. *)
Definition call (f : pip_functable_entry F -> option (pip_var F -> F -> F)) (v : pip_var F) (x : F) : F :=
  match dist_of v with
  | None => fl_nan
  | Some e => match f e with Some g => g v x | None => fl_nan end
  end.
Definition pip_var_pdf : pip_var F -> F -> F := call dist_pdf.
Definition pip_var_cdf : pip_var F -> F -> F := call dist_cdf.
Definition pip_var_icdf : pip_var F -> F -> F := call dist_icdf.

Definition pip_var_gen_w_range (v : pip_var F) (random : Z) (low high : F) : F :=
  if fl_gt fl_zero low || fl_gt high fl_one || fl_gt low high then fl_nan
  else pip_var_icdf v (fl_add (fl_mul (fst (pip_prng_float random)) (fl_sub high low)) low).

(** The macros of [dist.h]; a negative group reads in front of the table. *)
Definition PVAR_HAS_CDF (v : pip_var F) : option bool :=
  if group v <? pip_distribution_count then
    if group v <? 0 then None else e ← pip_distributions !! Z.to_nat (group v); Some (bool_decide (is_Some (dist_cdf e)))
  else Some false.

Fixpoint group_index (name : string) (l : list (pip_functable_entry F)) (i : Z) : Z :=
  match l with
  | [] => -1
  | e :: l => if bool_decide (dist_name e = name) then i else group_index name l (i + 1)
  end.
Definition pip_group_lookup (name : string) : Z := group_index name pip_distributions 0.
End Vars.

(** ** Distributions *)

Section Distributions.
Context {F : Type} `{Float8 F}.

(** The two parameters; a missing one is read past the end of the variable. *)
Definition param (v : pip_var F) (i : nat) : F := nth i (group_state v) fl_nan.

Definition pip_uniform_init (v : pip_var F) (low high : F) : pip_var F :=
  mk_var (variable v) (group v) (subscript v) (if fl_gt low high then [high; low] else [low; high]).
Definition pip_uniform_gen (v : pip_var F) (seed : Z) : F :=
  fl_add (param v 0) (fl_mul (fst (pip_prng_float seed)) (fl_sub (param v 1) (param v 0))).
Definition fl_ge (x y : F) : bool := fl_gt x y || fl_eq x y.
Definition pip_uniform_pdf (v : pip_var F) (point : F) : F :=
  if fl_ge point (param v 1) || fl_ge (param v 0) point then fl_zero
  else fl_div fl_one (fl_sub (param v 1) (param v 0)).
Definition pip_uniform_cdf (v : pip_var F) (point : F) : F :=
  if fl_ge point (param v 1) then fl_one
  else if fl_gt (param v 0) point then fl_zero
  else fl_div (fl_sub point (param v 0)) (fl_sub (param v 1) (param v 0)).
Definition pip_uniform_icdf (v : pip_var F) (point : F) : F :=
  fl_add (fl_mul point (fl_sub (param v 1) (param v 0))) (param v 0).

Definition uniform : pip_functable_entry F :=
  mk_dist "Uniform" pip_uniform_gen (Some pip_uniform_pdf) (Some pip_uniform_cdf) (Some pip_uniform_icdf).

Definition pip_zero_gen (v : pip_var F) (seed : Z) : F := fl_zero.
Definition pip_zero_pdf (v : pip_var F) (point : F) : F := if fl_eq point fl_zero then fl_one else fl_zero.
Definition zero : pip_functable_entry F := mk_dist "Zero" pip_zero_gen (Some pip_zero_pdf) None None.

(** The table, the other distributions given. *)
Definition table (exponential normal poisson : pip_functable_entry F) : list (pip_functable_entry F) :=
  [zero; exponential; normal; poisson; uniform].
End Distributions.
