(* ===== verification/PipEqn.v ===== *)
(** * PipEqn: flattened equations and atoms ([eqn.c], [atom.c], [atomset.c], [solver.c])

    An equation over random variables is a tree stored in one buffer; pointers are
    16-bit offsets from the start of the data.  A buffer is a finite map from byte
    addresses to the structures that start there, and reading anything else is an
    error.  An atom [left > right] is a buffer of its own, with a header, that may be
    embedded in the buffer of an equation. *)
From S2P Require Import Prelude.
From S2P Require Import PipVar.
Open Scope Z_scope.

(** ** Data *)

Definition int16 (z : Z) : Z := (z + 2 ^ 15) mod 2 ^ 16 - 2 ^ 15.

(** Sizes of the structures on a 64-bit machine. *)
Definition sizeof_pip_eqn : Z := 4.
Definition sizeof_component : Z := 40.
Definition sizeof_pip_atom : Z := 8.

Inductive component_type :=
  T_CONST | T_VAR | T_MULT | T_ADD | T_NEGA | T_CNSTRT | T_SUB.

#[export] Instance component_type_eq_dec : EqDecision component_type.
Proof. solve_decision. Defined.

Inductive pip_eqn_component (F : Type) :=
  | PIP_EQN_CONST (c : F)
  | PIP_EQN_VAR (v : pip_var F)
  | PIP_EQN_MULT (ptr_left ptr_right : Z)
  | PIP_EQN_ADD (ptr_left ptr_right : Z)
  | PIP_EQN_NEGA (ptr : Z)
  | PIP_EQN_CNSTRT (ptr_left ptr_right : Z)
  | PIP_EQN_SUB (ptr sub : Z).
Arguments PIP_EQN_CONST {F}.
Arguments PIP_EQN_VAR {F}.
Arguments PIP_EQN_MULT {F}.
Arguments PIP_EQN_ADD {F}.
Arguments PIP_EQN_NEGA {F}.
Arguments PIP_EQN_CNSTRT {F}.
Arguments PIP_EQN_SUB {F}.

(** What starts at an address: a component, or the header of an atom (its size and
    pointers). *)
Inductive cell (F : Type) :=
  | Component (c : pip_eqn_component F)
  | AtomHeader (size ptr_left ptr_right : Z).
Arguments Component {F}.
Arguments AtomHeader {F}.

Abbreviation mem F := (gmap Z (cell F)).

(** [VARSIZE] and the data. *)
Record pip_eqn (F : Type) := mk_eqn { eqn_varsize : Z; eqn_data : mem F }.
Arguments mk_eqn {F}.
Arguments eqn_varsize {F}.
Arguments eqn_data {F}.

Record pip_atom (F : Type) := mk_atom {
  atom_varsize : Z;
  ptr_left : Z;
  ptr_right : Z;
  atom_data : mem F }.
Arguments mk_atom {F}.
Arguments atom_varsize {F}.
Arguments ptr_left {F}.
Arguments ptr_right {F}.
Arguments atom_data {F}.

(** Atoms behind a cache of [cachesize] bytes, as the list that the sizes delimit. *)
Record pip_atomset (F : Type) := mk_atomset {
  probability : F;
  cachesize : Z;
  count : Z;
  set_data : list (pip_atom F) }.
Arguments mk_atomset {F}.
Arguments probability {F}.
Arguments cachesize {F}.
Arguments count {F}.
Arguments set_data {F}.

(** ** Memory *)

(** [memcpy(data + off, src, ...)]. *)
Definition copy_at {F} (off : Z) (src dst : mem F) : mem F := kmap (Z.add off) src ∪ dst.

Definition read {F} (m : mem F) (a : Z) : option (pip_eqn_component F) :=
  match m !! a with Some (Component c) => Some c | _ => None end.

Definition read_atom {F} (m : mem F) (a : Z) : option (Z * Z * Z) :=
  match m !! a with Some (AtomHeader n l r) => Some (n, l, r) | _ => None end.

(** A component of a type with [val.branch]. *)
Definition make_branch {F} (ty : component_type) (l r : Z) : option (pip_eqn_component F) :=
  match ty with
  | T_MULT => Some (PIP_EQN_MULT l r)
  | T_ADD => Some (PIP_EQN_ADD l r)
  | T_CNSTRT => Some (PIP_EQN_CNSTRT l r)
  | _ => None
  end.

Definition branch_of {F} (c : pip_eqn_component F) : option (component_type * Z * Z) :=
  match c with
  | PIP_EQN_MULT l r => Some (T_MULT, l, r)
  | PIP_EQN_ADD l r => Some (T_ADD, l, r)
  | PIP_EQN_CNSTRT l r => Some (T_CNSTRT, l, r)
  | _ => None
  end.

(** [ptr += shift] for the pointers of the component at [a]. *)
Definition shift_component {F} (m : mem F) (a s : Z) : option (mem F) :=
  c ← read m a;
  Some (<[a := Component match c with
    | PIP_EQN_MULT l r => PIP_EQN_MULT (int16 (l + s)) (int16 (r + s))
    | PIP_EQN_ADD l r => PIP_EQN_ADD (int16 (l + s)) (int16 (r + s))
    | PIP_EQN_NEGA p => PIP_EQN_NEGA (int16 (p + s))
    | PIP_EQN_CNSTRT l r => PIP_EQN_CNSTRT (int16 (l + s)) (int16 (r + s))
    | c => c
    end]> m).

(** [cmp->val.branch.ptr_right], read after the left subtree was changed. *)
Definition right_of {F} (m : mem F) (a : Z) : option Z :=
  c ← read m a; '(_, _, r) ← branch_of c; Some r.

Fixpoint pip_eqn_cmpnt_update_pointers {F} (fuel : nat) (base offset s : Z) (m : mem F) : option (mem F) :=
  match fuel with
  | O => None
  | S fuel =>
      c ← read m (base + offset);
      match c with
      | PIP_EQN_CONST _ | PIP_EQN_VAR _ | PIP_EQN_SUB _ _ => Some m
      | PIP_EQN_MULT l _ | PIP_EQN_ADD l _ =>
          m ← pip_eqn_cmpnt_update_pointers fuel base l s m;
          r ← right_of m (base + offset);
          m ← pip_eqn_cmpnt_update_pointers fuel base r s m;
          shift_component m (base + offset) s
      | PIP_EQN_NEGA p =>
          m ← pip_eqn_cmpnt_update_pointers fuel base p s m;
          shift_component m (base + offset) s
      | PIP_EQN_CNSTRT l _ =>
          m ← pip_eqn_cmpnt_update_pointers fuel base l s m;
          shift_component m (base + offset) s
      end
  end.

(** Fuel for a buffer: every component on a path has its own address. *)
Definition fuel_of {F} (m : mem F) : nat := S (size m).

(** [memcpy] of a tree and the correction of its pointers. *)
Definition place {F} (off : Z) (src dst : mem F) : option (mem F) :=
  let m := copy_at off src dst in pip_eqn_cmpnt_update_pointers (fuel_of m) off 0 off m.

(** The check at the end of the composing functions. *)
Definition finish {F} (strpos eqn_size : Z) (m : mem F) : option (pip_eqn F) :=
  if eqn_size - sizeof_pip_eqn <? strpos then None else Some (mk_eqn eqn_size m).

Section Equations.
Context {F : Type} `{Float8 F}.

(** ** Construction *)

Definition pip_eqn_for_var (v : pip_var F) : pip_eqn F :=
  mk_eqn (VARSIZE_var v + sizeof_component - sizeof_pip_var + sizeof_pip_eqn) {[0 := Component (PIP_EQN_VAR v)]}.

Definition pip_var_for_eqn (e : pip_eqn F) : option (option (pip_var F)) :=
  c ← read (eqn_data e) 0; Some (match c with PIP_EQN_VAR v => Some v | _ => None end).

Definition pip_eqn_compose_ee (ty : component_type) (l r : pip_eqn F) : option (pip_eqn F) :=
  let eqn_size := eqn_varsize l + eqn_varsize r - sizeof_pip_eqn + sizeof_component in
  let pos_l := sizeof_component in
  let pos_r := pos_l + eqn_varsize l - sizeof_pip_eqn in
  m ← place pos_l (eqn_data l) ∅;
  m ← place pos_r (eqn_data r) m;
  node ← make_branch ty (int16 pos_l) (int16 pos_r);
  finish (pos_r + eqn_varsize r - sizeof_pip_eqn) eqn_size (<[0 := Component node]> m).

(** The constant is the left operand, whatever the order of the arguments. *)
Definition pip_eqn_compose_ef (ty : component_type) (l : pip_eqn F) (r : F) : option (pip_eqn F) :=
  let eqn_size := eqn_varsize l + 2 * sizeof_component in
  let pos_c := sizeof_component in
  let pos_e := pos_c + sizeof_component in
  m ← place pos_e (eqn_data l) {[pos_c := Component (PIP_EQN_CONST r)]};
  node ← make_branch ty (int16 pos_c) (int16 pos_e);
  finish (pos_e + eqn_varsize l - sizeof_pip_eqn) eqn_size (<[0 := Component node]> m).

Definition pip_eqn_compose_one (ty : component_type) (child : pip_eqn F) : option (pip_eqn F) :=
  let eqn_size := eqn_varsize child + 2 * sizeof_component in
  m ← place sizeof_component (eqn_data child) ∅;
  node ← (match ty with T_NEGA => Some (PIP_EQN_NEGA (int16 sizeof_component)) | _ => None end);
  finish (sizeof_component + eqn_varsize child - sizeof_pip_eqn) eqn_size (<[0 := Component node]> m).

Definition pip_eqn_compose_sub (child : pip_eqn F) (sub : Z) : option (pip_eqn F) :=
  let eqn_size := eqn_varsize child + 2 * sizeof_component in
  m ← place sizeof_component (eqn_data child) ∅;
  finish (sizeof_component + eqn_varsize child - sizeof_pip_eqn) eqn_size
    (<[0 := Component (PIP_EQN_SUB (int16 sizeof_component) sub)]> m).

(** A slot of [size] bytes at the end of a sum (or product), at the returned offset. *)
Definition pip_eqn_append_slot_ee (ty : component_type) (source : pip_eqn F) (size : Z)
    : option (pip_eqn F * Z) :=
  let eqn_size := eqn_varsize source + sizeof_component + size in
  top ← read (eqn_data source) 0;
  match branch_of top with
  | Some (t, l, r) =>
      if decide (t = ty) then
        let strpos := eqn_varsize source - sizeof_pip_eqn in
        let offset := strpos + sizeof_component in
        bottom ← make_branch ty r (int16 offset);
        top ← make_branch ty l (int16 strpos);
        Some (mk_eqn eqn_size (<[0 := Component top]> (<[strpos := Component bottom]> (eqn_data source))), offset)
      else
        let offset := sizeof_component + eqn_varsize source - sizeof_pip_eqn in
        m ← place sizeof_component (eqn_data source) ∅;
        top ← make_branch ty (int16 sizeof_component) (int16 offset);
        Some (mk_eqn eqn_size (<[0 := Component top]> m), offset)
  | None =>
      let offset := sizeof_component + eqn_varsize source - sizeof_pip_eqn in
      m ← place sizeof_component (eqn_data source) ∅;
      top ← make_branch ty (int16 sizeof_component) (int16 offset);
      Some (mk_eqn eqn_size (<[0 := Component top]> m), offset)
  end.

(** [memcpy] of an atom with its header. *)
Definition copy_atom (off : Z) (a : pip_atom F) (m : mem F) : mem F :=
  <[off := AtomHeader (atom_varsize a) (ptr_left a) (ptr_right a)]>
    (copy_at (off + sizeof_pip_atom) (atom_data a) m).

Definition pip_eqn_fill_in_constraints (m : mem F) (offset : Z) (atoms : list (pip_atom F)) : mem F * Z :=
  foldl (fun '(m, offset) a =>
    let next := offset + sizeof_component + atom_varsize a in
    (copy_atom (offset + sizeof_component) a
       (<[offset := Component (PIP_EQN_CNSTRT (int16 next) (int16 (offset + sizeof_component)))]> m), next))
    (m, offset) atoms.

(** [pip_eqn_compile_sum] of funcs/pip_eqn.c, with the atoms of the row. *)
Definition pip_eqn_compile_sum (left right : pip_eqn F) (atoms : list (pip_atom F)) : option (pip_eqn F) :=
  let size := eqn_varsize right - sizeof_pip_eqn + foldr (fun a n => sizeof_component + atom_varsize a + n) 0 atoms in
  '(left, i) ← pip_eqn_append_slot_ee T_ADD left size;
  let '(m, off) := pip_eqn_fill_in_constraints (eqn_data left) i atoms in
  m ← place off (eqn_data right) m;
  Some (mk_eqn (eqn_varsize left) m).

Definition pip_atom_compose_cmpnt (left : mem F) (left_size : Z) (right : mem F) (right_size : Z)
    : option (pip_atom F) :=
  m ← place left_size right (copy_at 0 left ∅);
  Some (mk_atom (left_size + right_size + sizeof_pip_atom) 0 (int16 left_size) m).

Definition pip_atom_compose (l r : pip_eqn F) : option (pip_atom F) :=
  pip_atom_compose_cmpnt (eqn_data l) (eqn_varsize l - sizeof_pip_eqn)
    (eqn_data r) (eqn_varsize r - sizeof_pip_eqn).

Definition const_component (x : F) : mem F := {[0 := Component (PIP_EQN_CONST x)]}.
Definition pip_atom_compose_gtf (l : pip_eqn F) (r : F) : option (pip_atom F) :=
  pip_atom_compose_cmpnt (eqn_data l) (eqn_varsize l - sizeof_pip_eqn) (const_component r) sizeof_component.
Definition pip_atom_compose_ltf (l : F) (r : pip_eqn F) : option (pip_atom F) :=
  pip_atom_compose_cmpnt (const_component l) sizeof_component (eqn_data r) (eqn_varsize r - sizeof_pip_eqn).

(** *** The operators of funcs/pip_eqn.c *)

Definition fl_opp (x : F) : F := fl_sub fl_zero x.
Definition pip_eqn_sum_ee (x y : pip_eqn F) := pip_eqn_compose_ee T_ADD x y.
Definition pip_eqn_sum_ef (x : pip_eqn F) (y : F) := pip_eqn_compose_ef T_ADD x y.
Definition pip_eqn_sum_fe (x : F) (y : pip_eqn F) := pip_eqn_compose_ef T_ADD y x.
Definition pip_eqn_mul_ee (x y : pip_eqn F) := pip_eqn_compose_ee T_MULT x y.
Definition pip_eqn_mul_ef (x : pip_eqn F) (y : F) := pip_eqn_compose_ef T_MULT x y.
Definition pip_eqn_mul_fe (x : F) (y : pip_eqn F) := pip_eqn_compose_ef T_MULT y x.
Definition pip_eqn_neg (x : pip_eqn F) := pip_eqn_compose_one T_NEGA x.
Definition pip_eqn_sub_ee (x y : pip_eqn F) : option (pip_eqn F) :=
  n ← pip_eqn_compose_one T_NEGA y; pip_eqn_compose_ee T_ADD x n.
Definition pip_eqn_sub_ef (x : pip_eqn F) (y : F) := pip_eqn_compose_ef T_ADD x (fl_opp y).
Definition pip_eqn_sub_fe (x : F) (y : pip_eqn F) : option (pip_eqn F) :=
  n ← pip_eqn_compose_one T_NEGA y; pip_eqn_compose_ef T_ADD n x.

(** ** Evaluation

    [val] gives the value of a variable: in the world of a seed, or in a sample. *)

Fixpoint pip_eqn_cmpnt_evaluate (fuel : nat) (val : pip_var F -> F) (m : mem F) (base offset : Z) : option F :=
  match fuel with
  | O => None
  | S fuel =>
      c ← read m (base + offset);
      match c with
      | PIP_EQN_CONST x => Some x
      | PIP_EQN_VAR v => Some (val v)
      | PIP_EQN_MULT l r =>
          x ← pip_eqn_cmpnt_evaluate fuel val m base l;
          y ← pip_eqn_cmpnt_evaluate fuel val m base r;
          Some (fl_mul x y)
      | PIP_EQN_ADD l r =>
          x ← pip_eqn_cmpnt_evaluate fuel val m base l;
          y ← pip_eqn_cmpnt_evaluate fuel val m base r;
          Some (fl_add x y)
      | PIP_EQN_NEGA p => x ← pip_eqn_cmpnt_evaluate fuel val m base p; Some (fl_sub fl_zero x)
      | PIP_EQN_CNSTRT l r =>
          '(_, pl, pr) ← read_atom m (base + r);
          let data := base + r + sizeof_pip_atom in
          x ← pip_eqn_cmpnt_evaluate fuel val m data pl;
          y ← pip_eqn_cmpnt_evaluate fuel val m data pr;
          if fl_gt x y then pip_eqn_cmpnt_evaluate fuel val m base l else Some fl_zero
      | PIP_EQN_SUB _ _ => Some fl_zero
      end
  end.

Definition pip_eqn_evaluate (val : pip_var F -> F) (e : pip_eqn F) : option F :=
  pip_eqn_cmpnt_evaluate (fuel_of (eqn_data e)) val (eqn_data e) 0 0.

Definition pip_atom_evaluate (val : pip_var F -> F) (a : pip_atom F) : option bool :=
  x ← pip_eqn_cmpnt_evaluate (fuel_of (atom_data a)) val (atom_data a) 0 (ptr_left a);
  y ← pip_eqn_cmpnt_evaluate (fuel_of (atom_data a)) val (atom_data a) 0 (ptr_right a);
  Some (fl_gt x y).

Section Seed.
Context (pip_distributions : list (pip_functable_entry F)) (seed : Z).
Definition seed_val (v : pip_var F) : F := pip_var_gen_w_name_and_seed pip_distributions v seed.
Definition pip_eqn_evaluate_seed : pip_eqn F -> option F := pip_eqn_evaluate seed_val.
Definition pip_atom_evaluate_seed : pip_atom F -> option bool := pip_atom_evaluate seed_val.
End Seed.

(** ** Structure *)

Fixpoint pip_eqn_cmpnt_has_var (fuel : nat) (m : mem F) (base offset : Z) (v : pip_var F) : option bool :=
  match fuel with
  | O => None
  | S fuel =>
      c ← read m (base + offset);
      match c with
      | PIP_EQN_CONST _ | PIP_EQN_SUB _ _ => Some false
      | PIP_EQN_VAR w => Some (pip_var_eq v w)
      | PIP_EQN_MULT l r | PIP_EQN_ADD l r =>
          b ← pip_eqn_cmpnt_has_var fuel m base l v;
          if (b : bool) then Some true else pip_eqn_cmpnt_has_var fuel m base r v
      | PIP_EQN_NEGA p => pip_eqn_cmpnt_has_var fuel m base p v
      | PIP_EQN_CNSTRT l r =>
          b ← pip_eqn_cmpnt_has_var fuel m base l v;
          if (b : bool) then Some true
          else
            '(_, pl, pr) ← read_atom m (base + r);
            let data := base + r + sizeof_pip_atom in
            b ← pip_eqn_cmpnt_has_var fuel m data pl v;
            if (b : bool) then Some true else pip_eqn_cmpnt_has_var fuel m data pr v
      end
  end.

(** 1 for the left side, -1 for the right side only, 0 for neither. *)
Definition pip_atom_has_var (a : pip_atom F) (v : pip_var F) : option Z :=
  b ← pip_eqn_cmpnt_has_var (fuel_of (atom_data a)) (atom_data a) 0 (ptr_left a) v;
  if (b : bool) then Some 1
  else
    b ← pip_eqn_cmpnt_has_var (fuel_of (atom_data a)) (atom_data a) 0 (ptr_right a) v;
    Some (if (b : bool) then -1 else 0).

Fixpoint pip_eqn_cmpnt_identical_structure (fuel : nat) (lm : mem F) (lo : Z) (rm : mem F) (ro : Z) : option bool :=
  match fuel with
  | O => None
  | S fuel =>
      lc ← read lm lo;
      rc ← read rm ro;
      match lc, rc with
      | PIP_EQN_CONST x, PIP_EQN_CONST y => Some (fl_eq x y)
      | PIP_EQN_VAR v, PIP_EQN_VAR w => Some (pip_var_eq v w)
      | PIP_EQN_MULT l1 r1, PIP_EQN_MULT l2 r2 | PIP_EQN_ADD l1 r1, PIP_EQN_ADD l2 r2 =>
          b ← pip_eqn_cmpnt_identical_structure fuel lm l1 rm l2;
          if (b : bool) then pip_eqn_cmpnt_identical_structure fuel lm r1 rm r2 else Some false
      | PIP_EQN_NEGA p, PIP_EQN_NEGA q => pip_eqn_cmpnt_identical_structure fuel lm p rm q
      | _, _ => Some false
      end
  end.

Definition pip_eqn_structural_equals (l r : pip_eqn F) : option bool :=
  pip_eqn_cmpnt_identical_structure (fuel_of (eqn_data l)) (eqn_data l) 0 (eqn_data r) 0.

(** ** Linear equations in one variable

    The accumulators [c] and [mu] are passed by reference: [c + mu * var]. *)

Definition nonzero (x : F) : bool := negb (fl_eq x fl_zero).

Fixpoint pip_eqn_cmpnt_simplify_1var (fuel : nat) (m : mem F) (offset : Z) (c mu : F) (v : pip_var F)
    : option (bool * F * F) :=
  match fuel with
  | O => None
  | S fuel =>
      cmp ← read m offset;
      match cmp with
      | PIP_EQN_CONST x => Some (true, fl_add c x, mu)
      | PIP_EQN_VAR w => if pip_var_eq w v then Some (true, c, fl_add mu fl_one) else Some (false, c, mu)
      | PIP_EQN_MULT l r =>
          '(b, lc, lm) ← pip_eqn_cmpnt_simplify_1var fuel m l fl_zero fl_zero v;
          if (b : bool) then
            '(b, rc, rm) ← pip_eqn_cmpnt_simplify_1var fuel m r fl_zero fl_zero v;
            if (b : bool) then
              if nonzero lm && nonzero rm then Some (false, c, mu)
              else Some (true, fl_add c (fl_mul rc lc), fl_add mu (fl_add (fl_mul lm rc) (fl_mul rm lc)))
            else Some (false, c, mu)
          else Some (false, c, mu)
      | PIP_EQN_ADD l r =>
          '(b, c, mu) ← pip_eqn_cmpnt_simplify_1var fuel m l c mu v;
          if (b : bool) then pip_eqn_cmpnt_simplify_1var fuel m r c mu v else Some (false, c, mu)
      | PIP_EQN_NEGA p =>
          '(b, pc, pm) ← pip_eqn_cmpnt_simplify_1var fuel m p fl_zero fl_zero v;
          if (b : bool) then Some (true, fl_sub fl_zero pc, fl_sub fl_zero pm) else Some (false, c, mu)
      | PIP_EQN_CNSTRT _ _ | PIP_EQN_SUB _ _ => Some (false, c, mu)
      end
  end.

(** The bound, NaN when there is none, and whether it is an upper bound, which is
    written with a bound only. *)
Definition pip_solve_bound (a : pip_atom F) (v : pip_var F) : option (F * option bool) :=
  '(b, lc, lm) ← pip_eqn_cmpnt_simplify_1var (fuel_of (atom_data a)) (atom_data a) (ptr_left a) fl_zero fl_zero v;
  if (b : bool) then
    '(b, rc, rm) ← pip_eqn_cmpnt_simplify_1var (fuel_of (atom_data a)) (atom_data a) (ptr_right a) fl_zero fl_zero v;
    if (b : bool) then
      let lm := fl_sub lm rm in
      if fl_eq lm fl_zero then Some (fl_nan, None)
      else Some (fl_div (fl_sub rc lc) lm, Some (fl_gt fl_zero lm))
    else Some (fl_nan, None)
  else Some (fl_nan, None).

(** The loop of [pip_solve_cdf_bounds]: the bounds with their flags, [None] in the inner
    option for its [return false]. *)
Fixpoint bounds_loop (atoms : list (pip_atom F)) (v : pip_var F) (tight : bool) (lo hi : F) (has_lo has_hi : bool)
    : option (option (F * F * bool * bool)) :=
  match atoms with
  | [] => Some (Some (lo, hi, has_lo, has_hi))
  | a :: atoms =>
      '(x, isupper) ← pip_solve_bound a v;
      if isnan x then if tight then Some None else bounds_loop atoms v tight lo hi has_lo has_hi
      else
        up ← isupper;
        if (up : bool) then
          if fl_gt hi x then bounds_loop atoms v tight lo x has_lo true
          else bounds_loop atoms v tight lo hi has_lo has_hi
        else
          if fl_gt x lo then bounds_loop atoms v tight x hi true has_hi
          else bounds_loop atoms v tight lo hi has_lo has_hi
  end.

Section Solver.
Context (pip_distributions : list (pip_functable_entry F)).

Definition pip_solve_cdf_bounds (atoms : list (pip_atom F)) (v : pip_var F) (tight : bool) : option (option (F * F)) :=
  has_cdf ← PVAR_HAS_CDF pip_distributions v;
  if (has_cdf : bool) then
    r ← bounds_loop atoms v tight fl_minf fl_inf false false;
    Some (option_map (fun '(lo, hi, has_lo, has_hi) =>
      ((if (has_lo : bool) then pip_var_cdf pip_distributions v lo else fl_zero),
       (if (has_hi : bool) then pip_var_cdf pip_distributions v hi else fl_one))) r)
  else Some None.

(** [pip_integrate_by_cdf] of sample/integration.c. *)
Definition pip_integrate_by_cdf (atoms : list (pip_atom F)) (v : pip_var F) : option F :=
  r ← pip_solve_cdf_bounds atoms v true;
  Some (match r with
        | Some (lo, hi) => if fl_gt hi lo then fl_sub hi lo else fl_zero
        | None => fl_nan
        end).
End Solver.

(** ** Sets of atoms *)

Definition pip_atomset_create (oldset : option (pip_atomset F)) (clause : list (pip_atom F)) (cache : Z) : pip_atomset F :=
  match oldset with
  | Some old =>
      mk_atomset fl_nan (if cachesize old <? cache then cache else cachesize old)
        (count old + Z.of_nat (length clause)) (set_data old ++ clause)
  | None => mk_atomset fl_nan cache (Z.of_nat (length clause)) clause
  end.
Definition pip_atomset_from_clause (clause : list (pip_atom F)) (cache : Z) : pip_atomset F :=
  pip_atomset_create None clause cache.
Definition pip_atomset_by_appending (old : pip_atomset F) (clause : list (pip_atom F)) : pip_atomset F :=
  pip_atomset_create (Some old) clause 0.
Definition pip_atomset_to_clause (s : pip_atomset F) : option (list (pip_atom F)) :=
  mapM (fun i => set_data s !! i) (seq 0 (Z.to_nat (count s))).

(** The seed of these two is a 32-bit [int]. *)
Section AtomsetSeed.
Context (pip_distributions : list (pip_functable_entry F)) (seed : Z).
Definition pip_atomset_satisfied_seed (s : pip_atomset F) : option bool :=
  for_all (seq 0 (Z.to_nat (count s))) (fun i => a ← set_data s !! i; pip_atom_evaluate_seed pip_distributions (int32 seed) a).
Definition pip_atomset_unsatisfied_seed (s : pip_atomset F) : option bool :=
  for_all (seq 0 (Z.to_nat (count s)))
    (fun i => a ← set_data s !! i; b ← pip_atom_evaluate_seed pip_distributions (int32 seed) a; Some (negb b)).
End AtomsetSeed.
End Equations.
