(* ===== verification/PipRep.v ===== *)
(** * PipRep: buffers as trees

    [holds m b o t X] says that the buffer [m], read with base [b], has the tree [t] at
    offset [o], in the structures at the addresses [X], none of which is shared.  The
    relation survives changes elsewhere and moves with [memcpy], and
    [pip_eqn_cmpnt_update_pointers] repairs the pointers after a move. *)
From S2P Require Import Prelude.
From S2P Require Import PipVar.
From S2P Require Import PipEqn.
Open Scope Z_scope.

(** ** Trees *)

(** A subscripted variable is a leaf: what is below it is never read. *)
Inductive eqn (F : Type) :=
  | Const (c : F)
  | Var (v : pip_var F)
  | Mult (l r : eqn F)
  | Add (l r : eqn F)
  | Nega (e : eqn F)
  | Cnstrt (e l r : eqn F)
  | Sub (sub : Z).
Arguments Const {F}.
Arguments Var {F}.
Arguments Mult {F}.
Arguments Add {F}.
Arguments Nega {F}.
Arguments Cnstrt {F}.
Arguments Sub {F}.

Fixpoint height {F} (t : eqn F) : nat :=
  match t with
  | Const _ | Var _ | Sub _ => 1
  | Mult l r | Add l r => S (height l `max` height r)
  | Nega e => S (height e)
  | Cnstrt e l r => S (height e `max` (height l `max` height r))
  end.

(** ** Representation *)

Inductive holds {F} (m : mem F) (b o : Z) : eqn F -> gset Z -> Prop :=
  | holds_const c :
      m !! (b + o) = Some (Component (PIP_EQN_CONST c)) -> holds m b o (Const c) {[b + o]}
  | holds_var v :
      m !! (b + o) = Some (Component (PIP_EQN_VAR v)) -> holds m b o (Var v) {[b + o]}
  | holds_sub p k :
      m !! (b + o) = Some (Component (PIP_EQN_SUB p k)) -> holds m b o (Sub k) {[b + o]}
  | holds_mult l r tl tr X Y :
      m !! (b + o) = Some (Component (PIP_EQN_MULT l r)) ->
      holds m b l tl X -> holds m b r tr Y -> X ## Y -> b + o ∉ X ∪ Y ->
      holds m b o (Mult tl tr) ({[b + o]} ∪ (X ∪ Y))
  | holds_add l r tl tr X Y :
      m !! (b + o) = Some (Component (PIP_EQN_ADD l r)) ->
      holds m b l tl X -> holds m b r tr Y -> X ## Y -> b + o ∉ X ∪ Y ->
      holds m b o (Add tl tr) ({[b + o]} ∪ (X ∪ Y))
  | holds_nega p t X :
      m !! (b + o) = Some (Component (PIP_EQN_NEGA p)) -> holds m b p t X -> b + o ∉ X ->
      holds m b o (Nega t) ({[b + o]} ∪ X)
  | holds_cnstrt l r n pl pr t tl tr X Y Z :
      m !! (b + o) = Some (Component (PIP_EQN_CNSTRT l r)) ->
      m !! (b + r) = Some (AtomHeader n pl pr) ->
      holds m b l t X -> holds m (b + r + sizeof_pip_atom) pl tl Y -> holds m (b + r + sizeof_pip_atom) pr tr Z ->
      X ## {[b + r]} ∪ (Y ∪ Z) -> b + o ∉ X ∪ ({[b + r]} ∪ (Y ∪ Z)) ->
      holds m b o (Cnstrt t tl tr) ({[b + o]} ∪ (X ∪ ({[b + r]} ∪ (Y ∪ Z)))).

Section Holds.
Context {F : Type}.
Implicit Types (m : mem F) (t : eqn F).

Lemma holds_frame m m' b o t X :
  holds m b o t X -> (forall a, a ∈ X -> m' !! a = m !! a) -> holds m' b o t X.
Proof.
  intros Hh. induction Hh; intros Hm.
  1-3: econstructor; by rewrite Hm by set_solver.
  - econstructor; try done; [by rewrite Hm by set_solver|apply IHHh1|apply IHHh2]; intros; apply Hm; set_solver.
  - econstructor; try done; [by rewrite Hm by set_solver|apply IHHh1|apply IHHh2]; intros; apply Hm; set_solver.
  - econstructor; try done; [by rewrite Hm by set_solver|apply IHHh]; intros; apply Hm; set_solver.
  - econstructor; try done; [by rewrite Hm by set_solver|rewrite Hm by set_solver; eassumption|apply IHHh1|apply IHHh2|apply IHHh3];
      intros; apply Hm; set_solver.
Qed.

Lemma holds_root m b o t X : holds m b o t X -> b + o ∈ X.
Proof. intros []; set_solver. Qed.

Lemma holds_dom m b o t X : holds m b o t X -> X ⊆ dom m.
Proof.
  assert (Hin : forall a c, m !! a = Some c -> {[a]} ⊆ dom m).
  { intros a c Ha. apply singleton_subseteq_l, elem_of_dom. by eexists. }
  induction 1; repeat apply union_least; eauto.
Qed.

(** Enough fuel: the addresses on a path are distinct. *)
Lemma holds_height m b o t X : holds m b o t X -> (height t <= size X)%nat.
Proof.
  assert (Hunion : forall (X Y : gset Z), (size X <= size (X ∪ Y))%nat /\ (size Y <= size (X ∪ Y))%nat).
  { intros A B. split; apply subseteq_size; set_solver. }
  assert (Hroot : forall (a : Z) (X : gset Z), a ∉ X -> size ({[a]} ∪ X) = S (size X)).
  { intros a A Ha. rewrite size_union by set_solver. by rewrite size_singleton. }
  induction 1; cbn [height]; rewrite ?size_singleton; try done.
  - rewrite Hroot by done. pose proof (Hunion X Y). lia.
  - rewrite Hroot by done. pose proof (Hunion X Y). lia.
  - rewrite Hroot by done. lia.
  - rewrite Hroot by done. pose proof (Hunion X ({[b + r]} ∪ (Y ∪ Z))). pose proof (Hunion {[b + r]} (Y ∪ Z)).
    pose proof (Hunion Y Z). lia.
Qed.

Lemma holds_fuel m b o t X : holds m b o t X -> (height t < fuel_of m)%nat.
Proof.
  intros Hh. pose proof (holds_height _ _ _ _ _ Hh). pose proof (subseteq_size _ _ (holds_dom _ _ _ _ _ Hh)).
  rewrite size_dom in *. unfold fuel_of. lia.
Qed.

(** ** Moving *)

Definition moved (s : Z) (X : gset Z) : gset Z := set_map (Z.add s) X.

#[local] Instance add_inj (s : Z) : Inj (=) (=) (Z.add s).
Proof. intros x y. lia. Qed.

Lemma elem_of_moved s (X : gset Z) a : a ∈ moved s X <-> a - s ∈ X.
Proof.
  unfold moved. rewrite elem_of_map. split.
  - intros (x & -> & Hx). by replace (s + x - s) with x by lia.
  - intros Ha. exists (a - s). split; [lia|done].
Qed.

Lemma copy_at_in s m m0 a c : m !! a = Some c -> copy_at s m m0 !! (s + a) = Some c.
Proof. intros Ha. apply lookup_union_Some_l. by rewrite lookup_kmap by apply _. Qed.

Lemma copy_at_out s m m0 a : (forall x, m !! x <> None -> a <> s + x) -> copy_at s m m0 !! a = m0 !! a.
Proof.
  intros Ha. apply lookup_union_r. destruct (kmap (Z.add s) m !! a) eqn:E; [|done].
  apply lookup_kmap_Some in E as (x & -> & Hx); [|apply _]. exfalso. by apply (Ha x); [rewrite Hx|].
Qed.

Lemma holds_copy s m m0 b o t X :
  holds m b o t X -> holds (copy_at s m m0) (s + b) o t (moved s X).
Proof.
  assert (Hs : forall a : Z, moved s {[a]} = {[s + a]}) by (intros a; unfold moved; apply leibniz_equiv, set_map_singleton).
  assert (Hu : forall X Y : gset Z, moved s (X ∪ Y) = moved s X ∪ moved s Y) by (intros A B; unfold moved; apply leibniz_equiv, set_map_union).
  assert (Hd : forall X Y : gset Z, X ## Y -> moved s X ## moved s Y).
  { intros A B HAB x HA HB. rewrite elem_of_moved in HA, HB. by apply (HAB (x - s)). }
  assert (Hn : forall (a : Z) (X : gset Z), a ∉ X -> s + a ∉ moved s X).
  { intros a A HA. rewrite elem_of_moved. by replace (s + a - s) with a by lia. }
  assert (Hc : forall a c, m !! a = Some c -> copy_at s m m0 !! (s + a) = Some c) by (intros; by apply copy_at_in).
  assert (Hc' : forall b' o' c, m !! (b' + o') = Some c -> copy_at s m m0 !! (s + b' + o') = Some c).
  { intros b' o' c Hb. rewrite <- Z.add_assoc. by apply Hc. }
  assert (Hn' : forall b' o' X, b' + o' ∉ X -> s + b' + o' ∉ moved s X).
  { intros b' o' A HA. rewrite <- Z.add_assoc. by apply Hn. }
  induction 1; rewrite ?Hu, ?Hs, ?(Z.add_assoc s).
  - constructor. by apply Hc'.
  - constructor. by apply Hc'.
  - econstructor. by apply Hc'.
  - econstructor; [by apply Hc'|done|done|by apply Hd|]. rewrite <- Hu. by apply Hn'.
  - econstructor; [by apply Hc'|done|done|by apply Hd|]. rewrite <- Hu. by apply Hn'.
  - econstructor; [by apply Hc'|done|]. by apply Hn'.
  - rewrite !(Z.add_assoc s) in IHholds2, IHholds3.
    econstructor; [by apply Hc'|by apply Hc'|done|done|done| |].
    + rewrite <- Z.add_assoc, <- (Hs (b + r)), <- !Hu. by apply Hd.
    + rewrite <- (Z.add_assoc s b r), <- (Hs (b + r)), <- !Hu. by apply Hn'.
Qed.

(** ** Pointers *)

Lemma int16_id (z : Z) : 0 <= z < 2 ^ 15 -> int16 z = z.
Proof. intros Hz. unfold int16. rewrite Z.mod_small; lia. Qed.

(** The structures of the tree lie in [n] bytes from the base. *)
Definition within (b n : Z) (X : gset Z) : Prop := forall a, a ∈ X -> b <= a < b + n.

Lemma read_component m a c : m !! a = Some (Component c) -> read m a = Some c.
Proof. intros Ha. unfold read. by rewrite Ha. Qed.

Lemma within_ptr b n s X p : within b n X -> b + p ∈ X -> 0 <= s -> n + s <= 2 ^ 15 -> int16 (p + s) = p + s.
Proof. intros Hw Hp Hs Hn. apply int16_id. specialize (Hw _ Hp). lia. Qed.

(** Products and sums are treated alike. *)
Definition bin (mul : bool) : Z -> Z -> pip_eqn_component F := if mul then PIP_EQN_MULT else PIP_EQN_ADD.
Definition Bin (mul : bool) : eqn F -> eqn F -> eqn F := if mul then Mult else Add.

Lemma holds_bin mul m b o l r tl tr X Y :
  m !! (b + o) = Some (Component (bin mul l r)) ->
  holds m b l tl X -> holds m b r tr Y -> X ## Y -> b + o ∉ X ∪ Y ->
  holds m b o (Bin mul tl tr) ({[b + o]} ∪ (X ∪ Y)).
Proof. destruct mul; [apply holds_mult|apply holds_add]. Qed.

Lemma holds_bin_inv mul m b o tl tr U :
  holds m b o (Bin mul tl tr) U ->
  exists l r X Y, U = {[b + o]} ∪ (X ∪ Y) /\ m !! (b + o) = Some (Component (bin mul l r)) /\
    holds m b l tl X /\ holds m b r tr Y /\ X ## Y /\ b + o ∉ X ∪ Y.
Proof. destruct mul; inversion 1; subst; eexists _, _, _, _; split_and!; done. Qed.

Lemma update_bin mul m b o l r s fuel :
  m !! (b + o) = Some (Component (bin mul l r)) ->
  pip_eqn_cmpnt_update_pointers (S fuel) b o s m =
    (m ← pip_eqn_cmpnt_update_pointers fuel b l s m;
     r ← right_of m (b + o);
     m ← pip_eqn_cmpnt_update_pointers fuel b r s m;
     shift_component m (b + o) s).
Proof. intros Hc. cbn [pip_eqn_cmpnt_update_pointers]. rewrite (read_component _ _ _ Hc). by destruct mul. Qed.

Lemma right_of_bin mul m a l r : m !! a = Some (Component (bin mul l r)) -> right_of m a = Some r.
Proof. intros Hc. unfold right_of. rewrite (read_component _ _ _ Hc). by destruct mul. Qed.

Lemma shift_bin mul m a l r s :
  m !! a = Some (Component (bin mul l r)) ->
  shift_component m a s = Some (<[a := Component (bin mul (int16 (l + s)) (int16 (r + s)))]> m).
Proof. intros Hc. unfold shift_component. rewrite (read_component _ _ _ Hc). by destruct mul. Qed.

(** What [pip_eqn_cmpnt_update_pointers] does to a tree. *)
Definition updates (s : Z) (t : eqn F) : Prop := forall m b o X n fuel,
  holds m b o t X -> within b n X -> 0 <= s -> n + s <= 2 ^ 15 -> (height t <= fuel)%nat ->
  exists m', pip_eqn_cmpnt_update_pointers fuel b o s m = Some m' /\
    holds m' (b - s) (o + s) t X /\ forall a, a ∉ X -> m' !! a = m !! a.

Lemma base_shift b o s : b - s + (o + s) = b + o.
Proof. lia. Qed.

Lemma within_sub b n X Y : within b n Y -> X ⊆ Y -> within b n X.
Proof. intros Hw HX a Ha. by apply Hw, HX. Qed.

Lemma updates_bin mul s tl tr : updates s tl -> updates s tr -> updates s (Bin mul tl tr).
Proof.
  intros IHl IHr m b o U n fuel Hh Hw Hs Hn Hf.
  assert (height (Bin mul tl tr) = S (height tl `max` height tr)) as Hht by by destruct mul.
  destruct fuel as [|fuel]; [lia|].
  apply holds_bin_inv in Hh as (l & r & X & Y & -> & Hc & Hl & Hr & Hd & Hni).
  rewrite (update_bin mul _ _ _ l r) by done.
  destruct (IHl m b l X n fuel) as (m1 & -> & Hl1 & Hf1); [done|eapply within_sub; [done|set_solver]|done|done|lia|].
  cbn [mbind option_bind].
  assert (Hc1 : m1 !! (b + o) = Some (Component (bin mul l r))) by by rewrite Hf1 by set_solver.
  rewrite (right_of_bin mul _ _ l r) by done. cbn [mbind option_bind].
  destruct (IHr m1 b r Y n fuel) as (m2 & -> & Hr2 & Hf2); [|eapply within_sub; [done|set_solver]|done|done|lia|].
  { eapply holds_frame; [exact Hr|]. intros a Ha. apply Hf1. set_solver. }
  cbn [mbind option_bind]. rewrite (shift_bin mul _ _ l r) by by rewrite Hf2 by set_solver.
  pose proof (holds_root _ _ _ _ _ Hl). pose proof (holds_root _ _ _ _ _ Hr).
  rewrite !(within_ptr b n s _ _ Hw) by (done || set_solver). eexists. split; [done|]. split.
  - rewrite <- (base_shift b o s). apply (holds_bin mul _ _ _ (l + s) (r + s)); rewrite ?base_shift;
      [by rewrite lookup_insert_eq| | |done|done].
    + eapply holds_frame; [exact Hl1|]. intros a Ha. rewrite lookup_insert_ne by set_solver. apply Hf2. set_solver.
    + eapply holds_frame; [exact Hr2|]. intros a Ha. rewrite lookup_insert_ne by set_solver. done.
  - intros a Ha. rewrite lookup_insert_ne by set_solver. rewrite Hf2, Hf1 by set_solver. done.
Qed.

Lemma updates_nega s t : updates s t -> updates s (Nega t).
Proof.
  intros IH m b o U n fuel Hh Hw Hs Hn Hf. cbn [height] in Hf. destruct fuel as [|fuel]; [lia|].
  inversion Hh as [| | | | |p t' X' Hc Ht Hni|]; subst.
  cbn [pip_eqn_cmpnt_update_pointers]. rewrite (read_component _ _ _ Hc). cbn [mbind option_bind].
  destruct (IH m b p X' n fuel) as (m1 & -> & Ht1 & Hf1); [done|eapply within_sub; [done|set_solver]|done|done|lia|].
  cbn [mbind option_bind]. unfold shift_component.
  rewrite (read_component _ _ (PIP_EQN_NEGA p)) by by rewrite Hf1 by set_solver.
  cbn [mbind option_bind]. pose proof (holds_root _ _ _ _ _ Ht).
  rewrite (within_ptr b n s _ _ Hw) by (done || set_solver). eexists. split; [done|]. split.
  - rewrite <- (base_shift b o s). apply (holds_nega _ _ _ (p + s)); rewrite ?base_shift; [by rewrite lookup_insert_eq| |done].
    eapply holds_frame; [exact Ht1|]. intros a Ha. rewrite lookup_insert_ne by set_solver. done.
  - intros a Ha. rewrite lookup_insert_ne by set_solver. by rewrite Hf1 by set_solver.
Qed.

(** The atom keeps its own pointers, which are relative to its data. *)
Lemma updates_cnstrt s t tl tr : updates s t -> updates s (Cnstrt t tl tr).
Proof.
  intros IH m b o U n fuel Hh Hw Hs Hn Hf. cbn [height] in Hf. destruct fuel as [|fuel]; [lia|].
  inversion Hh as [| | | | | |l r na pl pr t' tl' tr' X Y Z Hc Ha Ht Hl Hr Hd Hni]; subst.
  cbn [pip_eqn_cmpnt_update_pointers]. rewrite (read_component _ _ _ Hc). cbn [mbind option_bind].
  destruct (IH m b l X n fuel) as (m1 & -> & Ht1 & Hf1); [done|eapply within_sub; [done|set_solver]|done|done|lia|].
  cbn [mbind option_bind]. unfold shift_component.
  rewrite (read_component _ _ (PIP_EQN_CNSTRT l r)) by by rewrite Hf1 by set_solver.
  cbn [mbind option_bind]. pose proof (holds_root _ _ _ _ _ Ht).
  rewrite !(within_ptr b n s _ _ Hw) by (done || set_solver). eexists. split; [done|].
  assert (Hout : forall a, a ∉ {[b + o]} ∪ X ->
    <[b + o := Component (PIP_EQN_CNSTRT (l + s) (r + s))]> m1 !! a = m !! a).
  { intros a Ha'. rewrite lookup_insert_ne by set_solver. apply Hf1. set_solver. }
  split; [|intros a Ha'; apply Hout; set_solver].
  rewrite <- (base_shift b o s), <- (base_shift b r s).
  apply (holds_cnstrt _ _ _ (l + s) (r + s) na pl pr); rewrite ?base_shift; [by rewrite lookup_insert_eq| | | | |done|done].
  - rewrite Hout by set_solver. exact Ha.
  - eapply holds_frame; [exact Ht1|]. intros a Ha'. rewrite lookup_insert_ne by set_solver. done.
  - eapply holds_frame; [exact Hl|]. intros a Ha'. apply Hout. set_solver.
  - eapply holds_frame; [exact Hr|]. intros a Ha'. apply Hout. set_solver.
Qed.

Lemma update_pointers_spec s t : updates s t.
Proof.
  assert (Hleaf : forall t, (forall m b o X, holds m b o t X -> exists c,
      m !! (b + o) = Some (Component c) /\ (forall m' b' o', m' !! (b' + o') = Some (Component c) -> b' + o' = b + o -> holds m' b' o' t X) /\
      match c with PIP_EQN_CONST _ | PIP_EQN_VAR _ | PIP_EQN_SUB _ _ => True | _ => False end) -> updates s t).
  { intros u Hu m b o X n fuel Hh Hw Hs Hn Hf. destruct (Hu _ _ _ _ Hh) as (c & Hc & Hholds & Hcase).
    destruct fuel as [|fuel]; [by destruct u; simpl in Hf; lia|].
    cbn [pip_eqn_cmpnt_update_pointers]. rewrite (read_component _ _ _ Hc). exists m.
    split; [by destruct c|]. split; [|done]. apply Hholds; [by rewrite base_shift|apply base_shift]. }
  induction t as [c|v|tl IHl tr IHr|tl IHl tr IHr|t IH|t IH tl _ tr _|k].
  - apply Hleaf. intros m b o X Hh. inversion Hh as [c' Hc| | | | | |]; subst. eexists. split_and!; [exact Hc| |done].
    intros m' b' o' H' <-. by constructor.
  - apply Hleaf. intros m b o X Hh. inversion Hh as [|v' Hc| | | | |]; subst. eexists. split_and!; [exact Hc| |done].
    intros m' b' o' H' <-. by constructor.
  - by apply (updates_bin true).
  - by apply (updates_bin false).
  - by apply updates_nega.
  - by apply updates_cnstrt.
  - apply Hleaf. intros m b o X Hh. inversion Hh as [| |p k' Hc| | | |]; subst. eexists. split_and!; [exact Hc| |done].
    intros m' b' o' H' <-. by econstructor.
Qed.
End Holds.
