(* ===== verification/PipCompose.v ===== *)
(** * PipCompose: composing equations and atoms

    The functions that build buffers implement the constructors of trees, as long as
    all offsets fit into 16 bits. *)
From S2P Require Import Prelude.
From S2P Require Import PipVar.
From S2P Require Import PipEqn.
From S2P Require Import PipRep.

Open Scope Z_scope.

Section Compose.
Context {F : Type} `{Float8 F}.
Implicit Types (m : mem F) (t : eqn F) (e : pip_eqn F).

(** A buffer of [n] bytes of data. *)
Definition data_ok (m : mem F) (n : Z) (t : eqn F) : Prop :=
  (exists X, holds m 0 0 t X) /\ forall a, a ∈ dom m -> 0 <= a < n.

Definition eqn_ok (e : pip_eqn F) (t : eqn F) : Prop := data_ok (eqn_data e) (eqn_varsize e - sizeof_pip_eqn) t.

Definition atom_ok (a : pip_atom F) (tl tr : eqn F) : Prop :=
  (exists X Y, holds (atom_data a) 0 (ptr_left a) tl X /\ holds (atom_data a) 0 (ptr_right a) tr Y /\ X ## Y) /\
  forall x, x ∈ dom (atom_data a) -> 0 <= x < atom_varsize a - sizeof_pip_atom.

Definition ty_of (mul : bool) : component_type := if mul then T_MULT else T_ADD.

Lemma data_ok_pos m n t : data_ok m n t -> 0 < n.
Proof. intros [[X Hh] Hd]. pose proof (Hd 0 (holds_dom _ _ _ _ _ Hh _ (holds_root _ _ _ _ _ Hh))). lia. Qed.

(** ** Placing a tree *)

Lemma place_spec off src dst t n :
  data_ok src n t -> 0 <= off -> n + off <= 2 ^ 15 ->
  exists m X, place off src dst = Some m /\ holds m 0 off t X /\ (forall a, a ∈ X -> off <= a < off + n) /\
    (forall a, a < off \/ off + n <= a -> m !! a = dst !! a) /\
    (forall a, a ∈ dom m -> a ∈ dom dst \/ off <= a < off + n).
Proof.
  intros [[X Hh] Hd] Hoff Hn. unfold place.
  pose proof (holds_copy off _ dst _ _ _ _ Hh) as Hc. rewrite Z.add_0_r in Hc.
  assert (Hw : within off n (moved off X)).
  { intros a Ha. apply elem_of_moved in Ha. specialize (Hd _ (holds_dom _ _ _ _ _ Hh _ Ha)). lia. }
  destruct (update_pointers_spec off t (copy_at off src dst) off 0 (moved off X) n (fuel_of (copy_at off src dst)))
    as (m & -> & Hm & Hf); [done..|pose proof (holds_fuel _ _ _ _ _ Hc); lia|].
  rewrite Z.sub_diag, Z.add_0_l in Hm. exists m, (moved off X). split_and!; [done|done|exact Hw| |].
  - intros a Ha. rewrite Hf.
    + apply copy_at_out. intros x Hx ->. assert (x ∈ dom src) as Hxd.
      { apply elem_of_dom. destruct (src !! x); [by eexists|done]. }
      specialize (Hd x Hxd). lia.
    + intros HaX. specialize (Hw a HaX). lia.
  - intros a Ha. destruct (decide (off <= a < off + n)) as [|Hout]; [by right|left].
    apply elem_of_dom in Ha as [c Hc']. apply elem_of_dom. exists c. rewrite <- Hc'. symmetry. rewrite Hf.
    + apply copy_at_out. intros x Hx ->. assert (x ∈ dom src) as Hxd.
      { apply elem_of_dom. destruct (src !! x); [by eexists|done]. }
      specialize (Hd x Hxd). lia.
    + intros HaX. specialize (Hw a HaX). lia.
Qed.

(** Adding a root below which nothing changes. *)
Lemma holds_insert m b o t X a c : holds m b o t X -> a ∉ X -> holds (<[a := c]> m) b o t X.
Proof. intros Hh Ha. eapply holds_frame; [exact Hh|]. intros x Hx. rewrite lookup_insert_ne; set_solver. Qed.

Lemma dom_insert_in m a c x : x ∈ dom (<[a := c]> m) -> x = a \/ x ∈ dom m.
Proof. rewrite dom_insert. set_solver. Qed.

(** ** Equations *)

Lemma for_var_ok (v : pip_var F) : eqn_ok (pip_eqn_for_var v) (Var v).
Proof.
  split.
  - exists {[0 + 0]}. apply holds_var. apply lookup_singleton_eq.
  - intros a Ha. simpl in Ha. rewrite dom_singleton in Ha. apply elem_of_singleton in Ha as ->.
    unfold pip_eqn_for_var, VARSIZE_var, sizeof_pip_var, sizeof_component, sizeof_pip_eqn. simpl. lia.
Qed.

Lemma make_bin mul (l r : Z) : make_branch (ty_of mul) l r = Some (bin mul l r : pip_eqn_component F).
Proof. by destruct mul. Qed.

Lemma finish_ok (m : mem F) strpos size : strpos <= size - sizeof_pip_eqn -> finish strpos size m = Some (mk_eqn size m).
Proof. intros Hs. unfold finish. by rewrite (proj2 (Z.ltb_ge _ _)). Qed.

Lemma compose_ee_spec mul (l r : pip_eqn F) (tl tr : eqn F) :
  eqn_ok l tl -> eqn_ok r tr -> sizeof_component + eqn_varsize l + eqn_varsize r <= 2 ^ 15 ->
  exists e, pip_eqn_compose_ee (ty_of mul) l r = Some e /\ eqn_ok e (Bin mul tl tr) /\
    eqn_varsize e = eqn_varsize l + eqn_varsize r + sizeof_component - sizeof_pip_eqn.
Proof.
  intros Hl Hr Hsize. pose proof (data_ok_pos _ _ _ Hl). pose proof (data_ok_pos _ _ _ Hr).
  unfold sizeof_pip_eqn, sizeof_component in *. unfold pip_eqn_compose_ee, sizeof_pip_eqn, sizeof_component.
  destruct (place_spec 40 (eqn_data l) ∅ tl _ Hl) as (m1 & X & -> & HX & HXb & Hout1 & Hd1); unfold sizeof_pip_eqn in *; [lia..|].
  cbn [mbind option_bind].
  destruct (place_spec (40 + eqn_varsize l - 4) (eqn_data r) m1 tr _ Hr) as (m2 & Y & -> & HY & HYb & Hout2 & Hd2);
    unfold sizeof_pip_eqn in *; [lia..|].
  cbn [mbind option_bind]. rewrite make_bin. cbn [mbind option_bind]. rewrite !int16_id by lia.
  rewrite finish_ok by (unfold sizeof_pip_eqn; lia). eexists. split; [done|]. split; [|simpl; lia]. split.
  - eexists. apply (holds_bin mul _ 0 0 40 (40 + eqn_varsize l - 4)); [by rewrite Z.add_0_r; simpl; rewrite lookup_insert_eq| | | |].
    + apply holds_insert; [|intros Ha; specialize (HXb _ Ha); lia].
      eapply holds_frame; [exact HX|]. intros a Ha. specialize (HXb _ Ha). apply Hout2. lia.
    + apply holds_insert; [exact HY|]. intros Ha. specialize (HYb _ Ha). lia.
    + intros a Ha Hb. specialize (HXb _ Ha). specialize (HYb _ Hb). lia.
    + intros [Ha|Ha]%elem_of_union; [specialize (HXb _ Ha)|specialize (HYb _ Ha)]; lia.
  - simpl. unfold sizeof_pip_eqn. intros a [->|[[Ha|Ha]%Hd1|Ha]%Hd2]%dom_insert_in; [lia| |lia|lia].
    by rewrite dom_empty in Ha.
Qed.

(** The constant becomes the left operand. *)
Lemma compose_ef_spec mul (l : pip_eqn F) (r : F) (tl : eqn F) :
  eqn_ok l tl -> 2 * sizeof_component + eqn_varsize l <= 2 ^ 15 ->
  exists e, pip_eqn_compose_ef (ty_of mul) l r = Some e /\ eqn_ok e (Bin mul (Const r) tl) /\
    eqn_varsize e = eqn_varsize l + 2 * sizeof_component.
Proof.
  intros Hl Hsize. pose proof (data_ok_pos _ _ _ Hl).
  unfold sizeof_pip_eqn, sizeof_component in *. unfold pip_eqn_compose_ef, sizeof_pip_eqn, sizeof_component.
  destruct (place_spec (40 + 40) (eqn_data l) {[40 := Component (PIP_EQN_CONST r)]} tl _ Hl)
    as (m1 & X & -> & HX & HXb & Hout1 & Hd1); unfold sizeof_pip_eqn in *; [lia..|].
  cbn [mbind option_bind]. rewrite make_bin. cbn [mbind option_bind]. rewrite !int16_id by lia.
  rewrite finish_ok by (unfold sizeof_pip_eqn; lia). eexists. split; [done|]. split; [|simpl; lia].
  assert (Hdis : forall a, a ∈ ({[0 + 40]} : gset Z) -> a ∉ X).
  { intros a ->%elem_of_singleton Ha. specialize (HXb _ Ha). lia. }
  split.
  - eexists. apply (holds_bin mul _ 0 0 40 (40 + 40)); [by rewrite Z.add_0_r; simpl; rewrite lookup_insert_eq| | |exact Hdis|].
    + apply holds_insert; [|set_solver]. apply holds_const. rewrite Hout1 by lia. apply lookup_singleton_eq.
    + apply holds_insert; [exact HX|]. intros Ha. specialize (HXb _ Ha). lia.
    + intros [Ha|Ha]%elem_of_union; [set_solver|specialize (HXb _ Ha); lia].
  - simpl. unfold sizeof_pip_eqn. intros a [->|[Ha|Ha]%Hd1]%dom_insert_in; [lia| |lia].
    rewrite dom_singleton in Ha. apply elem_of_singleton in Ha. lia.
Qed.

Lemma compose_one_spec (child : pip_eqn F) (t : eqn F) :
  eqn_ok child t -> 2 * sizeof_component + eqn_varsize child <= 2 ^ 15 ->
  exists e, pip_eqn_compose_one T_NEGA child = Some e /\ eqn_ok e (Nega t) /\
    eqn_varsize e = eqn_varsize child + 2 * sizeof_component.
Proof.
  intros Hc Hsize. pose proof (data_ok_pos _ _ _ Hc).
  unfold sizeof_pip_eqn, sizeof_component in *. unfold pip_eqn_compose_one, sizeof_pip_eqn, sizeof_component.
  destruct (place_spec 40 (eqn_data child) ∅ t _ Hc) as (m1 & X & -> & HX & HXb & Hout1 & Hd1); unfold sizeof_pip_eqn in *; [lia..|].
  cbn [mbind option_bind]. rewrite int16_id by lia. rewrite finish_ok by (unfold sizeof_pip_eqn; lia).
  eexists. split; [done|]. split; [|simpl; lia]. split.
  - eexists. apply (holds_nega _ 0 0 40); [by rewrite Z.add_0_r; simpl; rewrite lookup_insert_eq| |].
    + apply holds_insert; [exact HX|]. intros Ha. specialize (HXb _ Ha). lia.
    + intros Ha. specialize (HXb _ Ha). lia.
  - simpl. unfold sizeof_pip_eqn. intros a [->|[Ha|Ha]%Hd1]%dom_insert_in; [lia| |lia]. by rewrite dom_empty in Ha.
Qed.

Lemma compose_sub_spec (child : pip_eqn F) (t : eqn F) k :
  eqn_ok child t -> 2 * sizeof_component + eqn_varsize child <= 2 ^ 15 ->
  exists e, pip_eqn_compose_sub child k = Some e /\ eqn_ok e (Sub k).
Proof.
  intros Hc Hsize. pose proof (data_ok_pos _ _ _ Hc).
  unfold sizeof_pip_eqn, sizeof_component in *. unfold pip_eqn_compose_sub, sizeof_pip_eqn, sizeof_component.
  destruct (place_spec 40 (eqn_data child) ∅ t _ Hc) as (m1 & X & -> & HX & HXb & Hout1 & Hd1); unfold sizeof_pip_eqn in *; [lia..|].
  cbn [mbind option_bind]. rewrite int16_id by lia. rewrite finish_ok by (unfold sizeof_pip_eqn; lia).
  eexists. split; [done|]. split.
  - eexists. apply (holds_sub _ 0 0 40). by rewrite Z.add_0_r; simpl; rewrite lookup_insert_eq.
  - simpl. unfold sizeof_pip_eqn. intros a [->|[Ha|Ha]%Hd1]%dom_insert_in; [lia| |lia]. by rewrite dom_empty in Ha.
Qed.

(** ** Atoms *)

Lemma atom_compose_spec (lm rm : mem F) (ln rn : Z) (tl tr : eqn F) :
  data_ok lm ln tl -> data_ok rm rn tr -> ln + rn <= 2 ^ 15 ->
  exists a, pip_atom_compose_cmpnt lm ln rm rn = Some a /\ atom_ok a tl tr /\
    atom_varsize a = ln + rn + sizeof_pip_atom.
Proof.
  intros Hl Hr Hsize. pose proof (data_ok_pos _ _ _ Hl). pose proof (data_ok_pos _ _ _ Hr).
  unfold pip_atom_compose_cmpnt.
  destruct (place_spec ln rm (copy_at 0 lm ∅) tr _ Hr) as (m1 & Y & -> & HY & HYb & Hout & Hd1); [lia..|].
  cbn [mbind option_bind]. rewrite int16_id by lia. eexists. split; [done|]. split; [|done].
  destruct Hl as [[X HX] Hdl]. pose proof (holds_copy 0 _ ∅ _ _ _ _ HX) as HX'.
  assert (HXb : forall a, a ∈ moved 0 X -> 0 <= a < ln).
  { intros a Ha. apply elem_of_moved in Ha. rewrite Z.sub_0_r in Ha. by apply Hdl, (holds_dom _ _ _ _ _ HX). }
  split.
  - eexists _, _. split_and!; [|exact HY|].
    + eapply holds_frame; [exact HX'|]. intros a Ha. apply Hout. specialize (HXb _ Ha). lia.
    + intros a Ha Hb. specialize (HXb _ Ha). specialize (HYb _ Hb). lia.
  - simpl. intros a [Ha|Ha]%Hd1; [|lia]. unfold copy_at in Ha. rewrite dom_union in Ha.
    apply elem_of_union in Ha as [Ha|Ha]; [|by rewrite dom_empty in Ha].
    apply elem_of_dom in Ha as [c Ha]. apply lookup_kmap_Some in Ha as (x & -> & Hx); [|intros ? ?; lia].
    assert (0 <= x < ln) by (apply Hdl, elem_of_dom; by eexists). lia.
Qed.

Lemma const_component_ok (x : F) : data_ok (const_component x) sizeof_component (Const x).
Proof.
  split.
  - exists {[0 + 0]}. apply holds_const. apply lookup_singleton_eq.
  - intros a Ha. unfold const_component in Ha. rewrite dom_singleton in Ha.
    apply elem_of_singleton in Ha as ->. unfold sizeof_component. lia.
Qed.
End Compose.

(** ** The sum aggregate

    A row of the sum is appended to the equation of the rows before it: a slot at the
    end of its chain of sums, filled with the constraints of the row, each around the
    next, and the equation of the row at last. *)

Open Scope Z_scope.

(** The tree with a new summand (or factor) [s]. *)
Definition slot {F} (mul : bool) (t s : eqn F) : eqn F :=
  match mul, t with
  | false, Add a b => Add a (Add b s)
  | true, Mult a b => Mult a (Mult b s)
  | _, _ => Bin mul t s
  end.

(** [s] under constraints. *)
Definition constr {F} (cs : list (eqn F * eqn F)) (s : eqn F) : eqn F :=
  foldr (fun '(l, r) t => Cnstrt t l r) s cs.

Section Sum.
Context {F : Type} `{Float8 F}.
Implicit Types (m : mem F) (t : eqn F) (e : pip_eqn F).

(** ** The slot *)

(** [m] becomes a representation of [f s] when [s] is put at [off], the end. *)
Definition hole (m : mem F) (off : Z) (f : eqn F -> eqn F) : Prop := forall m' s X,
  (forall a, a < off -> m' !! a = m !! a) -> holds m' 0 off s X -> (forall a, a ∈ X -> off <= a) ->
  exists Y, holds m' 0 0 (f s) Y.

Definition slot_ok (off : Z) (e : pip_eqn F) (f : eqn F -> eqn F) : Prop :=
  hole (eqn_data e) off f /\ 0 <= off /\ forall a, a ∈ dom (eqn_data e) -> 0 <= a < off.

Lemma branch_other mul (c : pip_eqn_component F) :
  (exists l r, c = bin mul l r) \/
  (match branch_of c with Some (ty, _, _) => ty <> ty_of mul | None => True end).
Proof.
  destruct c, mul; simpl; auto; first [left; by eexists _, _|right; discriminate].
Qed.

Lemma append_slot_new mul e t size :
  eqn_ok e t -> sizeof_component + eqn_varsize e <= 2 ^ 15 ->
  exists m, place sizeof_component (eqn_data e) ∅ = Some m /\
    let off := sizeof_component + eqn_varsize e - sizeof_pip_eqn in
    slot_ok off (mk_eqn size (<[0 := Component (bin mul (int16 sizeof_component) (int16 off))]> m)) (Bin mul t).
Proof.
  intros He Hsize. pose proof (data_ok_pos _ _ _ He).
  unfold sizeof_pip_eqn, sizeof_component in *.
  destruct (place_spec 40 (eqn_data e) ∅ t _ He) as (m1 & X & -> & HX & HXb & Hout1 & Hd1); unfold sizeof_pip_eqn in *; [lia..|].
  exists m1. split; [done|]. cbn zeta. rewrite !int16_id by lia. split; [|split; [lia|]].
  - intros m' s Y Heq HY HYb. eexists. apply (holds_bin mul m' 0 0 40 (40 + eqn_varsize e - 4)); [|exact (holds_frame _ m' _ _ _ _ HX ltac:(
      intros a Ha; specialize (HXb _ Ha); rewrite Heq by lia; simpl; rewrite lookup_insert_ne; [done|lia]))|exact HY| |].
    + rewrite Z.add_0_r, Heq by lia. simpl. by rewrite lookup_insert_eq.
    + intros a Ha Hb. specialize (HXb _ Ha). specialize (HYb _ Hb). lia.
    + intros [Ha|Ha]%elem_of_union; [specialize (HXb _ Ha)|specialize (HYb _ Ha)]; lia.
  - simpl. intros a [->|[Ha|Ha]%Hd1]%dom_insert_in; [lia| |lia]. by rewrite dom_empty in Ha.
Qed.

(** The new node takes the old right operand; the top node points to it. *)
Lemma append_slot_chain mul e (a b : eqn F) l r size :
  eqn_ok e (Bin mul a b) -> eqn_data e !! 0 = Some (Component (bin mul l r)) ->
  sizeof_component + eqn_varsize e <= 2 ^ 15 ->
  let strpos := eqn_varsize e - sizeof_pip_eqn in
  slot_ok (strpos + sizeof_component)
    (mk_eqn size (<[0 := Component (bin mul l (int16 strpos))]>
      (<[strpos := Component (bin mul r (int16 (strpos + sizeof_component)))]> (eqn_data e))))
    (fun s => Bin mul a (Bin mul b s)).
Proof.
  intros He Hc Hsize strpos. pose proof (data_ok_pos _ _ _ He) as Hpos. destruct He as [[U HU] Hd].
  fold strpos in Hd, Hpos.
  apply holds_bin_inv in HU as (l' & r' & X & Y & -> & Hc' & HX & HY & Hdis & Hni).
  change (0 + 0) with 0 in *. rewrite Hc in Hc'. injection Hc' as Heq.
  assert (l' = l /\ r' = r) as [-> ->] by (destruct mul; by injection Heq).
  pose proof (holds_dom _ _ _ _ _ HX) as HXd. pose proof (holds_dom _ _ _ _ _ HY) as HYd.
  unfold sizeof_pip_eqn, sizeof_component in *. rewrite !int16_id by lia. split; [|split; [lia|]].
  - intros m' s Z Hm HZ HZb.
    assert (Hkeep : forall x, x ∈ X ∪ Y -> m' !! x = eqn_data e !! x).
    { intros x Hx. assert (x ∈ dom (eqn_data e)) as Hxd by set_solver.
      rewrite Hm by (specialize (Hd _ Hxd); lia). simpl. rewrite lookup_insert_ne by set_solver.
      rewrite lookup_insert_ne; [done|specialize (Hd _ Hxd); lia]. }
    assert (HXlt : forall x, x ∈ X ∪ Y -> 0 <= x < strpos) by (intros x Hx; apply Hd; set_solver).
    eexists. apply (holds_bin mul m' 0 0 l strpos).
    + rewrite Z.add_0_r, Hm by lia. simpl. by rewrite lookup_insert_eq.
    + eapply holds_frame; [exact HX|]. set_solver.
    + apply (holds_bin mul m' 0 strpos r (strpos + 40)); [|eapply holds_frame; [exact HY|set_solver]|exact HZ| |].
      * rewrite Z.add_0_l, Hm by lia. simpl. rewrite lookup_insert_ne by lia. by rewrite lookup_insert_eq.
      * intros x Hx Hz. specialize (HXlt x ltac:(set_solver)). specialize (HZb _ Hz). lia.
      * intros [Hx|Hz]%elem_of_union; [specialize (HXlt (0 + strpos) ltac:(set_solver))|specialize (HZb _ Hz)]; lia.
    + rewrite Z.add_0_l. intros x Hx. specialize (HXlt x ltac:(set_solver)).
      intros [->%elem_of_singleton|[Hy|Hz]%elem_of_union]%elem_of_union; [lia|set_solver|specialize (HZb _ Hz); lia].
    + change (0 + 0) with 0; rewrite !Z.add_0_l. rewrite !elem_of_union, elem_of_singleton.
      intros [Hx|[Hx|[Hx|Hz]]]; [set_solver|lia|set_solver|specialize (HZb _ Hz); lia].
  - simpl. intros x [->|[->|Hx]%dom_insert_in]%dom_insert_in; [lia|lia|specialize (Hd _ Hx); lia].
Qed.

Lemma append_slot_spec mul e t size :
  eqn_ok e t -> sizeof_component + eqn_varsize e <= 2 ^ 15 ->
  exists e' off, pip_eqn_append_slot_ee (ty_of mul) e size = Some (e', off) /\ slot_ok off e' (slot mul t) /\
    off = eqn_varsize e + sizeof_component - sizeof_pip_eqn /\
    eqn_varsize e' = eqn_varsize e + sizeof_component + size.
Proof.
  intros He Hsize. pose proof He as [[U HU] Hd]. unfold pip_eqn_append_slot_ee.
  assert (exists top, eqn_data e !! 0 = Some (Component top)) as [top Htop].
  { inversion HU; subst; rewrite Z.add_0_r in *; eauto. }
  rewrite (read_component _ _ _ Htop). cbn [mbind option_bind].
  destruct (append_slot_new mul e t (eqn_varsize e + sizeof_component + size) He Hsize) as (m & Hm & Hslot).
  destruct (branch_other mul top) as [(l & r & ->)|Hother].
  - assert (exists a b, t = Bin mul a b) as (a & b & ->).
    { destruct mul; inversion HU; subst; rewrite Z.add_0_r in *; simplify_eq; by eexists _, _. }
    assert (branch_of (bin mul l r : pip_eqn_component F) = Some (ty_of mul, l, r)) as -> by by destruct mul.
    rewrite decide_True by done. rewrite !make_bin. cbn [mbind option_bind]. rewrite ?make_bin. cbn [mbind option_bind].
    eexists _, _. split; [done|]. split_and!; [|lia|done].
    replace (slot mul (Bin mul a b)) with (fun s => Bin mul a (Bin mul b s)) by by destruct mul.
    by apply append_slot_chain.
  - assert (slot mul t = Bin mul t) as ->.
    { destruct mul, t; try done; inversion HU; subst; rewrite Z.add_0_r in *; simplify_eq; done. }
    rewrite Hm. cbn [mbind option_bind]. rewrite make_bin. cbn [mbind option_bind].
    assert (HH : exists e' off,
      Some (mk_eqn (eqn_varsize e + sizeof_component + size)
        (<[0 := Component (bin mul (int16 sizeof_component) (int16 (sizeof_component + eqn_varsize e - sizeof_pip_eqn)))]> m),
        sizeof_component + eqn_varsize e - sizeof_pip_eqn) = Some (e', off) /\ slot_ok off e' (Bin mul t) /\
      off = eqn_varsize e + sizeof_component - sizeof_pip_eqn /\ eqn_varsize e' = eqn_varsize e + sizeof_component + size).
    { eexists _, _. split; [done|]. split_and!; [exact Hslot|lia|done]. }
    destruct (branch_of top) as [[[ty l] r]|]; [by rewrite decide_False by done|exact HH].
Qed.

(** ** The constraints *)

Definition atoms_size (atoms : list (pip_atom F)) : Z :=
  foldr (fun a n => sizeof_component + atom_varsize a + n) 0 atoms.

Lemma atom_ok_pos (a : pip_atom F) tl tr : atom_ok a tl tr -> sizeof_pip_atom < atom_varsize a.
Proof.
  intros [(X & Y & HX & _) Hd].
  pose proof (Hd _ (holds_dom _ _ _ _ _ HX _ (holds_root _ _ _ _ _ HX))). lia.
Qed.

(** An atom copied with its header. *)
Lemma copy_atom_spec (a : pip_atom F) tl tr b m :
  atom_ok a tl tr ->
  exists Y Z, copy_atom b a m !! b = Some (AtomHeader (atom_varsize a) (ptr_left a) (ptr_right a)) /\
    holds (copy_atom b a m) (b + sizeof_pip_atom) (ptr_left a) tl Y /\
    holds (copy_atom b a m) (b + sizeof_pip_atom) (ptr_right a) tr Z /\ Y ## Z /\
    (forall x, x ∈ Y ∪ Z -> b < x < b + atom_varsize a) /\
    (forall x, x < b \/ b + atom_varsize a <= x -> copy_atom b a m !! x = m !! x) /\
    (forall x, x ∈ dom (copy_atom b a m) -> x ∈ dom m \/ b <= x < b + atom_varsize a).
Proof.
  intros Ha. pose proof (atom_ok_pos _ _ _ Ha) as Hpos. destruct Ha as [(Y & Z & HY & HZ & Hdis) Hd].
  unfold sizeof_pip_atom in *. unfold copy_atom, sizeof_pip_atom.
  pose proof (holds_copy (b + 8) _ m _ _ _ _ HY) as HY'. pose proof (holds_copy (b + 8) _ m _ _ _ _ HZ) as HZ'.
  rewrite Z.add_0_r in HY', HZ'.
  assert (Hb : forall U x, U ⊆ dom (atom_data a) -> x ∈ moved (b + 8) U -> b + 8 <= x < b + atom_varsize a).
  { intros U x HU Hx%elem_of_moved. specialize (Hd _ (HU _ Hx)). lia. }
  assert (Hin : forall x c, atom_data a !! x = Some c -> 0 <= x < atom_varsize a - 8).
  { intros x c Hx. apply Hd, elem_of_dom. by eexists. }
  exists (moved (b + 8) Y), (moved (b + 8) Z). split_and!.
  - by rewrite lookup_insert_eq.
  - apply holds_insert; [exact HY'|]. intros Hx. apply Hb in Hx; [lia|by eapply holds_dom].
  - apply holds_insert; [exact HZ'|]. intros Hx. apply Hb in Hx; [lia|by eapply holds_dom].
  - intros x Hx Hz. rewrite elem_of_moved in Hx, Hz. by apply (Hdis (x - (b + 8))).
  - intros x [Hx|Hx]%elem_of_union; apply Hb in Hx; try lia; by eapply holds_dom.
  - intros x Hx. rewrite lookup_insert_ne by lia. apply copy_at_out. intros y Hy ->.
    destruct (atom_data a !! y) eqn:E; [|done]. apply Hin in E. lia.
  - intros x [->|Hx]%dom_insert_in; [lia|]. unfold copy_at in Hx. rewrite dom_union in Hx.
    apply elem_of_union in Hx as [Hx|Hx]; [right|by left].
    apply elem_of_dom in Hx as [c Hx]. apply lookup_kmap_Some in Hx as (y & -> & Hy); [|intros ? ?; lia].
    apply Hin in Hy. lia.
Qed.

Definition constraint_of (a : pip_atom F) (c : eqn F * eqn F) : Prop := atom_ok a (fst c) (snd c).

Lemma atoms_size_nonneg atoms cs : Forall2 constraint_of atoms cs -> 0 <= atoms_size atoms.
Proof.
  induction 1 as [|a [tl tr] atoms cs Ha HF IH]; [done|].
  change (atoms_size (a :: atoms)) with (sizeof_component + atom_varsize a + atoms_size atoms).
  pose proof (atom_ok_pos _ _ _ Ha). unfold sizeof_component, sizeof_pip_atom in *. lia.
Qed.

Lemma fill_in_spec atoms cs m off :
  Forall2 constraint_of atoms cs -> 0 <= off -> off + atoms_size atoms < 2 ^ 15 ->
  (forall x, x ∈ dom m -> 0 <= x < off) ->
  exists m', pip_eqn_fill_in_constraints m off atoms = (m', off + atoms_size atoms) /\
    (forall x, x < off -> m' !! x = m !! x) /\
    (forall x, x ∈ dom m' -> 0 <= x < off + atoms_size atoms) /\
    forall m'' s X, (forall x, x < off + atoms_size atoms -> m'' !! x = m' !! x) ->
      holds m'' 0 (off + atoms_size atoms) s X -> (forall x, x ∈ X -> off + atoms_size atoms <= x) ->
      exists Y, holds m'' 0 off (constr cs s) Y /\ forall x, x ∈ Y -> off <= x.
Proof.
  intros HF. revert m off. induction HF as [|a [tl tr] atoms cs Ha HF IH]; intros m off Hoff Hmax Hd.
  { exists m. cbn [atoms_size foldr] in *. rewrite Z.add_0_r in *. split_and!; try done.
    intros m'' s X _ HX HXb. by exists X. }
  pose proof (atom_ok_pos _ _ _ Ha) as Hpos. cbn [fst snd] in Hpos.
  pose proof (atoms_size_nonneg _ _ HF) as Hrest.
  change (atoms_size (a :: atoms)) with (sizeof_component + atom_varsize a + atoms_size atoms) in *.
  unfold sizeof_component, sizeof_pip_atom in *.
  set (node := Component (F := F) (PIP_EQN_CNSTRT (int16 (off + 40 + atom_varsize a)) (int16 (off + 40)))).
  destruct (copy_atom_spec a tl tr (off + 40) (<[off := node]> m) Ha) as (Y & Z & Hh & HY & HZ & Hdis & Hb & Hout & Hdc).
  set (m1 := copy_atom (off + 40) a (<[off := node]> m)) in *.
  destruct (IH m1 (off + 40 + atom_varsize a)) as (m' & Hm' & Hlow & Hdom & Hfill); [lia|lia| |].
  { intros x [[->|Hx]%dom_insert_in|Hx]%Hdc; [lia|specialize (Hd _ Hx); lia|lia]. }
  exists m'. split_and!.
  - cbn [pip_eqn_fill_in_constraints foldl]. unfold sizeof_component. fold node m1.
    unfold pip_eqn_fill_in_constraints, sizeof_component in Hm'. rewrite Hm'. f_equal. lia.
  - intros x Hx. rewrite Hlow by lia. rewrite Hout by lia. by rewrite lookup_insert_ne by lia.
  - intros x Hx. specialize (Hdom _ Hx). lia.
  - intros m'' s X Hm HX HXb.
    replace (off + (40 + atom_varsize a + atoms_size atoms)) with (off + 40 + atom_varsize a + atoms_size atoms) in * by lia.
    destruct (Hfill m'' s X Hm HX HXb) as (U & HU & HUb).
    assert (Heq : forall x, x < off + 40 + atom_varsize a -> m'' !! x = m1 !! x).
    { intros x Hx. rewrite Hm by lia. by rewrite Hlow by lia. }
    eexists. split.
    + apply (holds_cnstrt m'' 0 off (off + 40 + atom_varsize a) (off + 40) (atom_varsize a) (ptr_left a) (ptr_right a)).
      * rewrite Z.add_0_l, Heq by lia. rewrite Hout by lia. rewrite lookup_insert_eq. unfold node. by rewrite !int16_id by lia.
      * rewrite Z.add_0_l, Heq by lia. exact Hh.
      * exact HU.
      * rewrite Z.add_0_l. eapply holds_frame; [exact HY|]. intros x Hx. apply Heq. specialize (Hb x ltac:(set_solver)). lia.
      * rewrite Z.add_0_l. eapply holds_frame; [exact HZ|]. intros x Hx. apply Heq. specialize (Hb x ltac:(set_solver)). lia.
      * intros x Hx. specialize (HUb _ Hx). rewrite elem_of_union, elem_of_singleton.
        intros [->|Hyz]; [lia|]. specialize (Hb _ Hyz). lia.
      * rewrite !elem_of_union, elem_of_singleton. intros [Hx|[Hx|Hx]]; [specialize (HUb _ Hx); lia|lia|].
        specialize (Hb (0 + off) ltac:(set_solver)). lia.
    + intros x [->%elem_of_singleton|[Hx|[->%elem_of_singleton|Hx]%elem_of_union]%elem_of_union]%elem_of_union;
        [lia|specialize (HUb _ Hx); lia|lia|specialize (Hb _ Hx); lia].
Qed.

(** ** The aggregate *)

Lemma compile_sum_spec (left right : pip_eqn F) (tl tr : eqn F) atoms cs :
  eqn_ok left tl -> eqn_ok right tr -> Forall2 constraint_of atoms cs ->
  eqn_varsize left + eqn_varsize right + sizeof_component + atoms_size atoms <= 2 ^ 15 ->
  exists e, pip_eqn_compile_sum left right atoms = Some e /\ eqn_ok e (slot false tl (constr cs tr)) /\
    eqn_varsize e = eqn_varsize left + eqn_varsize right + sizeof_component + atoms_size atoms - sizeof_pip_eqn.
Proof.
  intros Hl Hr HF Hsize. pose proof (data_ok_pos _ _ _ Hl) as Hpl. pose proof (data_ok_pos _ _ _ Hr) as Hpr.
  pose proof (atoms_size_nonneg _ _ HF) as Hrest.
  unfold pip_eqn_compile_sum. fold (atoms_size atoms). unfold sizeof_pip_eqn in *.
  destruct (append_slot_spec false left tl (eqn_varsize right - 4 + atoms_size atoms) Hl)
    as (e & off & Happ & (Hhole & Hoff & Hd) & -> & Hvar); [unfold sizeof_component in *; lia|].
  change (ty_of false) with T_ADD in Happ. rewrite Happ. cbn [mbind option_bind]. clear Happ.
  unfold sizeof_pip_eqn, sizeof_component in *.
  destruct (fill_in_spec atoms cs (eqn_data e) (eqn_varsize left + 40 - 4) HF) as (m & -> & Hlow & Hdom & Hfill);
    [lia|lia|exact Hd|]. cbn [mbind option_bind].
  destruct (place_spec (eqn_varsize left + 40 - 4 + atoms_size atoms) (eqn_data right) m tr _ Hr)
    as (m2 & X & -> & HX & HXb & Hout & Hd2); [lia|unfold sizeof_pip_eqn; lia|]. cbn [mbind option_bind].
  unfold sizeof_pip_eqn in *. eexists. split; [done|]. split; [|simpl; lia].
  destruct (Hfill m2 tr X) as (Y & HY & HYb); [intros x Hx; apply Hout; lia|done|intros x Hx; specialize (HXb _ Hx); lia|].
  split.
  - destruct (Hhole m2 (constr cs tr) Y) as (Z & HZ); [|done|done|by exists Z].
    intros x Hx. rewrite Hout by lia. by apply Hlow.
  - simpl. unfold sizeof_pip_eqn. intros x [Hx|Hx]%Hd2; [specialize (Hdom _ Hx)|]; lia.
Qed.
End Sum.

(** ** Values and variables of equations

    The functions that walk a buffer compute functions of its tree: the value under a
    valuation of the variables, whether a variable occurs, and equality of structure. *)

Open Scope Z_scope.

Section Eval.
Context {F : Type} `{Float8 F}.
Implicit Types (m : mem F) (t : eqn F) (e : pip_eqn F) (v : pip_var F).

(** ** Functions of trees *)

Fixpoint value (val : pip_var F -> F) (t : eqn F) : F :=
  match t with
  | Const x => x
  | Var v => val v
  | Mult l r => fl_mul (value val l) (value val r)
  | Add l r => fl_add (value val l) (value val r)
  | Nega t => fl_sub fl_zero (value val t)
  | Cnstrt t l r => if fl_gt (value val l) (value val r) then value val t else fl_zero
  | Sub _ => fl_zero
  end.

Fixpoint occurs (v : pip_var F) (t : eqn F) : bool :=
  match t with
  | Const _ | Sub _ => false
  | Var w => pip_var_eq v w
  | Mult l r | Add l r => occurs v l || occurs v r
  | Nega t => occurs v t
  | Cnstrt t l r => occurs v t || (occurs v l || occurs v r)
  end.

Fixpoint identical (s t : eqn F) : bool :=
  match s, t with
  | Const x, Const y => fl_eq x y
  | Var v, Var w => pip_var_eq v w
  | Mult a b, Mult c d | Add a b, Add c d => identical a c && identical b d
  | Nega s, Nega t => identical s t
  | _, _ => false
  end.

(** ** Evaluation *)

Lemma evaluate_cmpnt_spec val m b o t X : holds m b o t X ->
  forall fuel, (height t <= fuel)%nat -> pip_eqn_cmpnt_evaluate fuel val m b o = Some (value val t).
Proof.
  induction 1 as [b o c Hc|b o w Hc|b o p k Hc|b o l r tl tr X Y Hc Hl IHl Hr IHr _ _|b o l r tl tr X Y Hc Hl IHl Hr IHr _ _
    |b o p t X Hc Ht IH _|b o l r n pl pr t tl tr X Y Z Hc Ha Ht IH Hl IHl Hr IHr _ _];
    intros fuel Hf; (destruct fuel as [|fuel]; [simpl in Hf; lia|]); cbn [pip_eqn_cmpnt_evaluate height value] in *;
    rewrite (read_component _ _ _ Hc); cbn [mbind option_bind]; try done.
  - rewrite IHl by lia. cbn [mbind option_bind]. by rewrite IHr by lia.
  - rewrite IHl by lia. cbn [mbind option_bind]. by rewrite IHr by lia.
  - by rewrite IH by lia.
  - unfold read_atom. rewrite Ha. cbn [mbind option_bind]. rewrite IHl by lia. cbn [mbind option_bind].
    rewrite IHr by lia. cbn [mbind option_bind]. by rewrite IH by lia; destruct (fl_gt _ _).
Qed.

Lemma evaluate_spec val e t : eqn_ok e t -> pip_eqn_evaluate val e = Some (value val t).
Proof.
  intros [[X Hh] _]. apply (evaluate_cmpnt_spec _ _ _ _ _ _ Hh). pose proof (holds_fuel _ _ _ _ _ Hh). lia.
Qed.

Lemma atom_evaluate_spec val (a : pip_atom F) tl tr :
  atom_ok a tl tr -> pip_atom_evaluate val a = Some (fl_gt (value val tl) (value val tr)).
Proof.
  intros [(X & Y & HX & HY & _) _]. unfold pip_atom_evaluate.
  pose proof (holds_fuel _ _ _ _ _ HX). pose proof (holds_fuel _ _ _ _ _ HY).
  rewrite (evaluate_cmpnt_spec _ _ _ _ _ _ HX) by lia. cbn [mbind option_bind].
  by rewrite (evaluate_cmpnt_spec _ _ _ _ _ _ HY) by lia.
Qed.

(** Several atoms at once. *)
Definition all_hold (val : pip_var F -> F) (atoms : list (pip_atom F)) : bool :=
  forallb (fun a => bool_decide (pip_atom_evaluate val a = Some true)) atoms.

(** An atom with some sides. *)
Definition valid_atom (a : pip_atom F) : Prop := exists tl tr, atom_ok a tl tr.

Lemma valid_atom_evaluate val a : valid_atom a ->
  pip_atom_evaluate val a = Some (bool_decide (pip_atom_evaluate val a = Some true)).
Proof.
  intros (tl & tr & Ha). rewrite (atom_evaluate_spec val a tl tr Ha). by destruct (fl_gt _ _).
Qed.

Lemma for_all_hold val atoms : Forall valid_atom atoms ->
  for_all atoms (pip_atom_evaluate val) = Some (all_hold val atoms).
Proof. intros HF. apply for_all_spec. intros a Ha. apply valid_atom_evaluate. by eapply Forall_forall. Qed.

(** ** Occurrence *)

Lemma has_var_cmpnt_spec v m b o t X : holds m b o t X ->
  forall fuel, (height t <= fuel)%nat -> pip_eqn_cmpnt_has_var fuel m b o v = Some (occurs v t).
Proof.
  induction 1 as [b o c Hc|b o w Hc|b o p k Hc|b o l r tl tr X Y Hc Hl IHl Hr IHr _ _|b o l r tl tr X Y Hc Hl IHl Hr IHr _ _
    |b o p t X Hc Ht IH _|b o l r n pl pr t tl tr X Y Z Hc Ha Ht IH Hl IHl Hr IHr _ _];
    intros fuel Hf; (destruct fuel as [|fuel]; [simpl in Hf; lia|]); cbn [pip_eqn_cmpnt_has_var height occurs] in *;
    rewrite (read_component _ _ _ Hc); cbn [mbind option_bind]; try done.
  - rewrite IHl by lia. cbn [mbind option_bind]. by destruct (occurs v tl); [|rewrite IHr by lia].
  - rewrite IHl by lia. cbn [mbind option_bind]. by destruct (occurs v tl); [|rewrite IHr by lia].
  - by rewrite IH by lia.
  - rewrite IH by lia. cbn [mbind option_bind]. destruct (occurs v t); [done|]. unfold read_atom. rewrite Ha.
    cbn [mbind option_bind]. rewrite IHl by lia. cbn [mbind option_bind].
    by destruct (occurs v tl); [|rewrite IHr by lia].
Qed.

Lemma atom_has_var_spec v (a : pip_atom F) tl tr :
  atom_ok a tl tr -> pip_atom_has_var a v = Some (if occurs v tl then 1 else if occurs v tr then -1 else 0).
Proof.
  intros [(X & Y & HX & HY & _) _]. unfold pip_atom_has_var.
  pose proof (holds_fuel _ _ _ _ _ HX). pose proof (holds_fuel _ _ _ _ _ HY).
  rewrite (has_var_cmpnt_spec _ _ _ _ _ _ HX) by lia. cbn [mbind option_bind]. destruct (occurs v tl); [done|].
  by rewrite (has_var_cmpnt_spec _ _ _ _ _ _ HY) by lia.
Qed.

(** A variable that does not occur does not influence the value. *)
Lemma occurs_value v t (val val' : pip_var F -> F) :
  occurs v t = false -> (forall w, pip_var_eq v w = false -> val w = val' w) -> value val t = value val' t.
Proof.
  intros Ho Hv. induction t as [c|w|l IHl r IHr|l IHl r IHr|t IH|t IH l IHl r IHr|k]; cbn [value occurs] in *; try done.
  - by apply Hv.
  - apply orb_false_iff in Ho as [? ?]. by rewrite IHl, IHr.
  - apply orb_false_iff in Ho as [? ?]. by rewrite IHl, IHr.
  - by rewrite IH.
  - apply orb_false_iff in Ho as [? [? ?]%orb_false_iff]. by rewrite IH, IHl, IHr.
Qed.

(** ** Structure *)

Lemma identical_cmpnt_spec lm lo s X : holds lm 0 lo s X -> forall rm ro t Y fuel, holds rm 0 ro t Y ->
  (height s <= fuel)%nat -> pip_eqn_cmpnt_identical_structure fuel lm lo rm ro = Some (identical s t).
Proof.
  intros Hs. remember 0 as b eqn:Eb. revert Eb.
  induction Hs as [b o c Hc|b o w Hc|b o p k Hc|b o l r tl tr X Y Hc Hl IHl Hr IHr _ _|b o l r tl tr X Y Hc Hl IHl Hr IHr _ _
    |b o p t X Hc Ht IH _|b o l r n pl pr t tl tr X Y Z Hc Ha Ht IH Hl IHl Hr IHr _ _];
    intros -> rm ro u U fuel Hu Hf; (destruct fuel as [|fuel]; [simpl in Hf; lia|]);
    cbn [pip_eqn_cmpnt_identical_structure height] in *; rewrite Z.add_0_l in Hc; rewrite (read_component _ _ _ Hc);
    cbn [mbind option_bind]; inversion Hu; subst; rewrite ?Z.add_0_l in *;
    match goal with Hr : rm !! _ = Some (Component _) |- _ => rewrite (read_component _ _ _ Hr) end;
    cbn [mbind option_bind identical]; try done.
  - erewrite IHl by (done || lia). cbn [mbind option_bind]. destruct (identical _ _); [|done]. by eapply IHr; (done || lia).
  - erewrite IHl by (done || lia). cbn [mbind option_bind]. destruct (identical _ _); [|done]. by eapply IHr; (done || lia).
  - by eapply IH; (done || lia).
Qed.

Lemma structural_equals_spec (l r : pip_eqn F) tl tr :
  eqn_ok l tl -> eqn_ok r tr -> pip_eqn_structural_equals l r = Some (identical tl tr).
Proof.
  intros [[X Hl] _] [[Y Hr] _]. apply (identical_cmpnt_spec _ _ _ _ Hl _ _ _ _ _ Hr).
  pose proof (holds_fuel _ _ _ _ _ Hl). lia.
Qed.
End Eval.

(** ** Exact arithmetic *)

Lemma ext_add_assoc (x y z : ext) : ext_add x (ext_add y z) = ext_add (ext_add x y) z.
Proof. destruct x, y, z; simpl; try done. f_equal. ring. Qed.

Lemma ext_eq_spec (x y : ext) : ext_eq x y = true -> x = y.
Proof. destruct x, y; simpl; try done. intros ->%bool_decide_eq_true_1. done. Qed.

(** Identical equations have the same value when the valuation depends on the
    identity of a variable only. *)
Lemma identical_value (val : pip_var ext -> ext) (s t : eqn ext) :
  (forall v w, pip_var_eq v w = true -> val v = val w) -> identical s t = true -> value val s = value val t.
Proof.
  intros Hv. revert t. induction s as [c|v|a IHa b IHb|a IHa b IHb|s IH|s _ a _ b _|k]; intros [d|w|c' d|c' d|t|t c' d|k'];
    cbn [identical value]; try done.
  - apply ext_eq_spec.
  - apply Hv.
  - intros [? ?]%andb_true_iff. by rewrite (IHa c'), (IHb d).
  - intros [? ?]%andb_true_iff. by rewrite (IHa c'), (IHb d).
  - intros ?. by rewrite (IH t).
Qed.

Lemma ext_add_comm (x y : ext) : ext_add x y = ext_add y x.
Proof. destruct x, y; simpl; try done. f_equal. ring. Qed.

(** A row contributes when all its constraints hold. *)
Lemma value_constr {F} `{Float8 F} (val : pip_var F -> F) cs t :
  value val (constr cs t) =
    if forallb (fun '(l, r) => fl_gt (value val l) (value val r)) cs then value val t else fl_zero.
Proof.
  induction cs as [|[l r] cs IH]; [done|]. cbn [constr foldr forallb value]. fold (constr cs t). rewrite IH.
  by destruct (fl_gt _ _), (forallb _ _).
Qed.

Lemma value_slot (val : pip_var ext -> ext) (t s : eqn ext) :
  value val (slot false t s) = ext_add (value val t) (value val s).
Proof. destruct t; try done. cbn [slot value]. apply ext_add_assoc. Qed.
