(* ===== verification/PipSolve.v ===== *)
(** * PipSolve: solving for one variable, in exact arithmetic

    [pip_eqn_cmpnt_simplify_1var] writes an equation as [c + mu * x].  It is right on
    [clean] trees: a negation overwrites the accumulators, so it may stand only where
    they are still zero.  Atoms that are linear give bounds of the variable, bounds an
    interval, and the distribution function the probability of it. *)
From S2P Require Import Prelude.
From S2P Require Import PipVar.
From S2P Require Import PipEqn.
From S2P Require Import PipRep.
From S2P Require Import PipCompose.
Open Scope Z_scope.

(** ** Linear equations *)

(** [z]: the accumulators are zero.  Constants are finite. *)
Fixpoint clean (z : bool) (t : eqn ext) : bool :=
  match t with
  | Const c => match c with Fin _ => true | _ => false end
  | Var _ | Cnstrt _ _ _ | Sub _ => true
  | Mult l r => clean true l && clean true r
  | Add l r => clean z l && clean false r
  | Nega t => z && clean true t
  end.

(** [v], and any variable that the code takes for it, has the value [x]. *)
Definition has_value (val : pip_var ext -> ext) (v : pip_var ext) (x : Qc) : Prop :=
  forall w, pip_var_eq w v = true -> val w = Fin x.

(** [p + q * x] exceeds [c + mu * x] by the value of the tree. *)
Definition linear (v : pip_var ext) (t : eqn ext) (c mu p q : Qc) : Prop :=
  forall val x, has_value val v x -> exists y, value val t = Fin y /\ (p + q * x = c + mu * x + y)%Qc.

Definition simplified (v : pip_var ext) (t : eqn ext) (c mu : Qc) (r : option (bool * ext * ext)) : Prop :=
  exists b c' mu', r = Some (b, c', mu') /\
    (b = true -> exists p q, c' = Fin p /\ mu' = Fin q /\ linear v t c mu p q).

Lemma simplified_fail v t c mu c' mu' : simplified v t c mu (Some (false, c', mu')).
Proof. exists false, c', mu'. by split. Qed.

Lemma simplified_ok v t c mu p q : linear v t c mu p q -> simplified v t c mu (Some (true, Fin p, Fin q)).
Proof. intros Hl. exists true, (Fin p), (Fin q). split; [done|]. intros _. by exists p, q. Qed.

Lemma nonzero_Fin (q : Qc) : nonzero (Fin q) = negb (bool_decide (q = 0%Qc)).
Proof. done. Qed.

Lemma linear_mult v tl tr lc lm rc rm c mu :
  linear v tl 0 0 lc lm -> linear v tr 0 0 rc rm -> lm = 0%Qc \/ rm = 0%Qc ->
  linear v (Mult tl tr) c mu (c + rc * lc) (mu + (lm * rc + rm * lc)).
Proof.
  intros Hl Hr Hz val x Hv. destruct (Hl val x Hv) as (a & Ha & Hla), (Hr val x Hv) as (b & Hb & Hrb).
  exists (a * b)%Qc. cbn [value]. rewrite Ha, Hb. split; [done|].
  assert (a = lc + lm * x)%Qc as -> by (rewrite Hla; ring).
  assert (b = rc + rm * x)%Qc as -> by (rewrite Hrb; ring).
  destruct Hz as [-> | ->]; ring.
Qed.

Lemma simplify_spec v m b o t X : holds m b o t X -> b = 0 ->
  forall fuel z c mu, (height t <= fuel)%nat -> clean z t = true -> (z = true -> c = 0%Qc /\ mu = 0%Qc) ->
  simplified v t c mu (pip_eqn_cmpnt_simplify_1var fuel m o (Fin c) (Fin mu) v).
Proof.
  induction 1 as [b o c' Hc|b o w Hc|b o p k Hc|b o l r tl tr X Y Hc Hl IHl Hr IHr _ _|b o l r tl tr X Y Hc Hl IHl Hr IHr _ _
    |b o p t X Hc Ht IH _|b o l r n pl pr t tl tr X Y Z Hc Ha Ht IH Hl IHl Hr IHr _ _];
    intros -> fuel z c mu Hf Hclean Hz; (destruct fuel as [|fuel]; [simpl in Hf; lia|]);
    cbn [pip_eqn_cmpnt_simplify_1var height] in *; rewrite Z.add_0_l in Hc; rewrite (read_component _ _ _ Hc);
    cbn [mbind option_bind clean] in *; try apply simplified_fail.
  - destruct c' as [c'| | |]; try done. apply simplified_ok. intros val x _. exists c'. split; [done|]. ring.
  - destruct (pip_var_eq w v) eqn:E; [|apply simplified_fail]. apply simplified_ok. intros val x Hv. exists x.
    split; [by apply Hv|]. ring.
  - apply andb_true_iff in Hclean as [Hcl Hcr].
    destruct (IHl eq_refl fuel true 0%Qc 0%Qc ltac:(lia) Hcl ltac:(done)) as (bl & lc & lm & Heq & Hbl).
    change (Fin 0) with (fl_zero : ext) in Heq. rewrite Heq. cbn [mbind option_bind]. destruct bl; [|apply simplified_fail].
    destruct (Hbl eq_refl) as (plc & plm & -> & -> & Hlin).
    destruct (IHr eq_refl fuel true 0%Qc 0%Qc ltac:(lia) Hcr ltac:(done)) as (br & rc & rm & Heqr & Hbr).
    change (Fin 0) with (fl_zero : ext) in Heqr. rewrite Heqr. cbn [mbind option_bind]. destruct br; [|apply simplified_fail].
    destruct (Hbr eq_refl) as (prc & prm & -> & -> & Hrin). rewrite !nonzero_Fin.
    do 2 case_bool_decide; cbn [negb andb]; try apply simplified_fail; apply simplified_ok; apply linear_mult; auto.
  - apply andb_true_iff in Hclean as [Hcl Hcr].
    destruct (IHl eq_refl fuel z c mu ltac:(lia) Hcl Hz) as (bl & lc & lm & -> & Hbl).
    cbn [mbind option_bind]. destruct bl; [|apply simplified_fail]. destruct (Hbl eq_refl) as (p & q & -> & -> & Hlin).
    destruct (IHr eq_refl fuel false p q ltac:(lia) Hcr ltac:(done)) as (br & rc & rm & -> & Hbr).
    exists br, rc, rm. split; [done|]. intros Hb. destruct (Hbr Hb) as (p' & q' & -> & -> & Hrin). exists p', q'.
    split_and!; [done..|]. intros val x Hv. destruct (Hlin val x Hv) as (y & Hy & Hey), (Hrin val x Hv) as (y' & Hy' & Hey').
    exists (y + y')%Qc. cbn [value]. rewrite Hy, Hy'. split; [done|]. rewrite Hey', Hey. ring.
  - apply andb_true_iff in Hclean as [-> Hc']. destruct (Hz eq_refl) as [-> ->].
    destruct (IH eq_refl fuel true 0%Qc 0%Qc ltac:(lia) Hc' ltac:(done)) as (br & rc & rm & Heqr & Hbr).
    change (Fin 0) with (fl_zero : ext) in Heqr. rewrite Heqr. cbn [mbind option_bind]. destruct br; [|apply simplified_fail].
    destruct (Hbr eq_refl) as (p' & q' & -> & -> & Hlin). apply simplified_ok. intros val x Hv.
    destruct (Hlin val x Hv) as (y & Hy & Hey). exists (- y)%Qc. cbn [value]. rewrite Hy. simpl.
    split; [f_equal; ring|]. assert (y = p' + q' * x)%Qc as -> by (rewrite Hey; ring). ring.
Qed.

(** The tree as [p + q * v], when it is linear in [v] and has no other variable. *)
Fixpoint coefficients (v : pip_var ext) (t : eqn ext) : option (Qc * Qc) :=
  match t with
  | Const (Fin c) => Some (c, 0%Qc)
  | Const _ => None
  | Var w => if pip_var_eq w v then Some (0%Qc, 1%Qc) else None
  | Mult l r =>
      '(lc, lm) ← coefficients v l;
      '(rc, rm) ← coefficients v r;
      if bool_decide (lm = 0%Qc) || bool_decide (rm = 0%Qc) then Some ((rc * lc)%Qc, (lm * rc + rm * lc)%Qc) else None
  | Add l r =>
      '(lc, lm) ← coefficients v l;
      '(rc, rm) ← coefficients v r;
      Some ((lc + rc)%Qc, (lm + rm)%Qc)
  | Nega t => '(c, m) ← coefficients v t; Some ((- c)%Qc, (- m)%Qc)
  | Cnstrt _ _ _ | Sub _ => None
  end.

(** The solver finds the coefficients of a clean tree. *)
Lemma simplify_coefficients v m b o t X : holds m b o t X -> b = 0 ->
  forall fuel z c mu p q, (height t <= fuel)%nat -> clean z t = true -> (z = true -> c = 0%Qc /\ mu = 0%Qc) ->
  coefficients v t = Some (p, q) ->
  pip_eqn_cmpnt_simplify_1var fuel m o (Fin c) (Fin mu) v = Some (true, Fin (c + p), Fin (mu + q)).
Proof.
  induction 1 as [b o c' Hc|b o w Hc|b o p' k Hc|b o l r tl tr X Y Hc Hl IHl Hr IHr _ _|b o l r tl tr X Y Hc Hl IHl Hr IHr _ _
    |b o p' t X Hc Ht IH _|b o l r n pl pr t tl tr X Y Z Hc Ha Ht IH Hl IHl Hr IHr _ _];
    intros -> fuel z c mu p q Hf Hclean Hz Hco; (destruct fuel as [|fuel]; [simpl in Hf; lia|]);
    cbn [pip_eqn_cmpnt_simplify_1var height] in *; rewrite Z.add_0_l in Hc; rewrite (read_component _ _ _ Hc);
    cbn [mbind option_bind clean coefficients] in *; try done.
  - destruct c' as [c'| | |]; try done. injection Hco as <- <-. by rewrite Qcplus_0_r.
  - destruct (pip_var_eq w v); [|done]. injection Hco as <- <-. by rewrite Qcplus_0_r.
  - apply andb_true_iff in Hclean as [Hcl Hcr].
    apply bind_Some in Hco as ([lc lm] & El & ([rc rm] & Er & Hco)%bind_Some).
    pose proof (IHl eq_refl fuel true 0%Qc 0%Qc lc lm ltac:(lia) Hcl ltac:(done) El) as Heql.
    pose proof (IHr eq_refl fuel true 0%Qc 0%Qc rc rm ltac:(lia) Hcr ltac:(done) Er) as Heqr.
    rewrite !Qcplus_0_l in Heql, Heqr. change (Fin 0) with (fl_zero : ext) in Heql, Heqr.
    rewrite Heql. cbn [mbind option_bind]. rewrite Heqr. cbn [mbind option_bind]. rewrite !nonzero_Fin.
    rewrite <- negb_orb. destruct (bool_decide (lm = 0%Qc) || bool_decide (rm = 0%Qc)); [|done].
    injection Hco as <- <-. done.
  - apply andb_true_iff in Hclean as [Hcl Hcr].
    apply bind_Some in Hco as ([lc lm] & El & ([rc rm] & Er & [= <- <-])%bind_Some).
    rewrite (IHl eq_refl fuel z c mu lc lm ltac:(lia) Hcl Hz El). cbn [mbind option_bind].
    rewrite (IHr eq_refl fuel false _ _ rc rm ltac:(lia) Hcr ltac:(done) Er). by rewrite !Qcplus_assoc.
  - apply andb_true_iff in Hclean as [-> Hc']. destruct (Hz eq_refl) as [-> ->].
    apply bind_Some in Hco as ([c1 m1] & E & [= <- <-]).
    pose proof (IH eq_refl fuel true 0%Qc 0%Qc c1 m1 ltac:(lia) Hc' ltac:(done) E) as Heq.
    rewrite !Qcplus_0_l in Heq. change (Fin 0) with (fl_zero : ext) in Heq. rewrite Heq. cbn [mbind option_bind].
    cbn [fl_sub fl_zero ext_float8 ext_add ext_opp]. done.
Qed.

(** ** Bounds *)

Definition atom_clean (tl tr : eqn ext) : bool := clean true tl && clean true tr.

(** An atom of the buffer with two clean sides. *)
Definition clean_atom (a : pip_atom ext) : Prop := exists tl tr, atom_ok a tl tr /\ atom_clean tl tr = true.

(** The atom says that the variable is below or above the bound. *)
Definition bounds_var (a : pip_atom ext) (v : pip_var ext) (q : Qc) (up : bool) : Prop :=
  forall val x, has_value val v x ->
    pip_atom_evaluate val a = Some (if up then bool_decide (x < q)%Qc else bool_decide (q < x)%Qc).

Lemma Qc_lt_mult_pos (k x y : Qc) : (0 < k -> x < y <-> k * x < k * y)%Qc.
Proof. intros Hk. split; intros Hxy; qc_nra. Qed.

Lemma bool_decide_iff (P Q : Prop) `{Decision P, Decision Q} : (P <-> Q) -> bool_decide P = bool_decide Q.
Proof. intros HPQ. by apply bool_decide_ext. Qed.

(** [lc + lm x > rc + rm x], solved for [x]. *)
Lemma solve_pos (lc lm rc rm x : Qc) : (0 < lm - rm)%Qc ->
  (rc + rm * x < lc + lm * x)%Qc <-> ((rc - lc) / (lm - rm) < x)%Qc.
Proof.
  intros Hk. rewrite (Qc_lt_mult_pos (lm - rm) _ x) by done. rewrite Qcmult_div_r by (intros E; rewrite E in Hk; by apply Qclt_not_eq in Hk).
  split; intros; qc_lra.
Qed.

Lemma solve_neg (lc lm rc rm x : Qc) : (lm - rm < 0)%Qc ->
  (rc + rm * x < lc + lm * x)%Qc <-> (x < (rc - lc) / (lm - rm))%Qc.
Proof.
  intros Hk. assert (Hn : (0 < - (lm - rm))%Qc) by qc_lra.
  assert (Hne : (lm - rm)%Qc <> 0%Qc) by (intros E; rewrite E in Hk; by apply Qclt_not_eq in Hk).
  rewrite (Qc_lt_mult_pos (- (lm - rm)) x) by done.
  replace (- (lm - rm) * ((rc - lc) / (lm - rm)))%Qc with (- ((lm - rm) * ((rc - lc) / (lm - rm))))%Qc by ring.
  rewrite Qcmult_div_r by done. split; intros; qc_lra.
Qed.

Lemma solve_bound_spec a v : clean_atom a -> exists r, pip_solve_bound a v = Some r /\
  (isnan (fst r) = true \/ exists q up, r = (Fin q, Some up) /\ bounds_var a v q up).
Proof.
  intros (tl & tr & Ha & [Hcl Hcr]%andb_true_iff). pose proof Ha as [(X & Y & HX & HY & _) _]. unfold pip_solve_bound.
  assert (Hside : forall o t U, holds (atom_data a) 0 o t U -> clean true t = true ->
    simplified v t 0 0 (pip_eqn_cmpnt_simplify_1var (fuel_of (atom_data a)) (atom_data a) o fl_zero fl_zero v)).
  { intros o t U Hh Hc. pose proof (holds_fuel _ _ _ _ _ Hh). by apply (simplify_spec v _ _ _ _ _ Hh eq_refl _ true 0%Qc 0%Qc); [lia|..]. }
  destruct (Hside _ _ _ HX Hcl) as (bl & lc & lm & -> & Hbl), (Hside _ _ _ HY Hcr) as (br & rc & rm & -> & Hbr).
  cbn [mbind option_bind]. destruct bl; [|by eexists; split; [done|left]].
  destruct br; [|by eexists; split; [done|left]]. cbn [mbind option_bind].
  destruct (Hbl eq_refl) as (plc & plm & -> & -> & Hl), (Hbr eq_refl) as (prc & prm & -> & -> & Hr).
  cbn [fl_sub ext_float8 ext_add ext_opp fl_eq ext_eq fl_zero].
  case_bool_decide as Hz; [by eexists; split; [done|left]|].
  eexists. split; [done|]. right. cbn [fl_div ext_float8 ext_div fl_gt ext_gt fl_zero]. rewrite decide_False by done.
  eexists _, _. split; [done|]. intros val x Hv. rewrite (atom_evaluate_spec val a tl tr Ha).
  destruct (Hl val x Hv) as (y & -> & Hy), (Hr val x Hv) as (y' & -> & Hy').
  assert (y = plc + plm * x)%Qc as -> by (rewrite Hy; ring). assert (y' = prc + prm * x)%Qc as -> by (rewrite Hy'; ring).
  f_equal. cbn [fl_gt ext_float8 ext_gt]. change (plm + - prm)%Qc with (plm - prm)%Qc in *.
  change (prc + - plc)%Qc with (prc - plc)%Qc. destruct (decide (plm - prm < 0)%Qc) as [Hneg|Hneg]; [rewrite (bool_decide_eq_true_2 _ Hneg)|rewrite (bool_decide_eq_false_2 _ Hneg)].
  - apply bool_decide_iff. by apply solve_neg.
  - apply bool_decide_iff, solve_pos. clear -Hz Hneg.
    destruct (Qclt_le_dec 0 (plm - prm)) as [|Hle]; [done|]. apply Qcle_lt_or_eq in Hle as [?|?]; [by destruct Hneg|done].
Qed.

(** The two sides are linear in the variable, which does not cancel out. *)
Definition linear_sides (v : pip_var ext) (c : eqn ext * eqn ext) : Prop :=
  exists lc lm rc rm, coefficients v (fst c) = Some (lc, lm) /\ coefficients v (snd c) = Some (rc, rm) /\ lm <> rm.

(** Then the solver finds a bound. *)
Lemma linear_solved a v c : atom_ok a (fst c) (snd c) -> atom_clean (fst c) (snd c) = true -> linear_sides v c ->
  exists q up, pip_solve_bound a v = Some (Fin q, Some up).
Proof.
  intros [(X & Y & HX & HY & _) _] [Hcl Hcr]%andb_true_iff (lc & lm & rc & rm & El & Er & Hne).
  unfold pip_solve_bound. pose proof (holds_fuel _ _ _ _ _ HX). pose proof (holds_fuel _ _ _ _ _ HY).
  change fl_zero with (Fin 0).
  rewrite (simplify_coefficients v _ _ _ _ _ HX eq_refl _ true 0%Qc 0%Qc lc lm) by (done || lia). cbn [mbind option_bind].
  rewrite (simplify_coefficients v _ _ _ _ _ HY eq_refl _ true 0%Qc 0%Qc rc rm) by (done || lia). cbn [mbind option_bind].
  rewrite !Qcplus_0_l. cbn [fl_sub ext_float8 ext_add ext_opp fl_eq ext_eq].
  assert (Hd : (lm + - rm)%Qc <> 0%Qc).
  { intros E. apply Hne. replace lm with (lm + - rm + rm)%Qc by ring. rewrite E. ring. }
  rewrite (bool_decide_eq_false_2 _ Hd). cbn [fl_div ext_float8 ext_div]. rewrite decide_False by done. by eexists _, _.
Qed.

(** On [k - x > d], with the negation after the constant, the constant is lost. *)
Lemma negation_bound (a : pip_atom ext) v k d :
  atom_ok a (Add (Const (Fin k)) (Nega (Var v))) (Const (Fin d)) -> pip_solve_bound a v = Some (Fin (- d), Some true).
Proof.
  intros [(X & Y & HX & HY & _) _]. unfold pip_solve_bound.
  pose proof (holds_fuel _ _ _ _ _ HX) as Hf. cbn [height] in Hf.
  destruct (fuel_of (atom_data a)) as [|[|[|fuel]]]; [simpl in Hf; lia..|].
  inversion HX as [| | | |l r tl tr U V Hc Hl Hr _ _| |]; subst.
  inversion Hl as [c Hcl| | | | | |]; subst. inversion Hr as [| | | | |p t W Hn Hv _|]; subst.
  inversion Hv as [|w Hw| | | | |]; subst. inversion HY as [c Hd| | | | | |]; subst. rewrite Z.add_0_l in *.
  assert (pip_var_eq v v = true) as Hvv by (unfold pip_var_eq, pip_var_id_eq; by rewrite !Z.eqb_refl).
  do 7 (cbn [pip_eqn_cmpnt_simplify_1var];
    rewrite ?(read_component _ _ _ Hc), ?(read_component _ _ _ Hcl), ?(read_component _ _ _ Hn), ?(read_component _ _ _ Hw),
      ?(read_component _ _ _ Hd), ?Hvv; cbn [mbind option_bind]).
  cbn [fl_add fl_sub fl_zero fl_one fl_eq fl_div fl_gt ext_float8 ext_add ext_opp ext_eq ext_gt ext_div].
  replace (0 + - (0 + 1) + - 0)%Qc with (-(1))%Qc by ring.
  rewrite (bool_decide_eq_false_2 (-(1) = 0)%Qc) by by apply this_ne.
  rewrite decide_False by by apply this_ne. rewrite bool_decide_eq_true_2 by by apply Qclt_alt.
  do 3 f_equal. field. by apply this_ne.
Qed.

(** ** Intervals *)

Definition in_interval (lo hi : ext) (x : Qc) : bool := ext_gt (Fin x) lo && ext_gt hi (Fin x).

(** A bound is finite exactly when its flag is set. *)
Definition bound_ok (none b : ext) (has : bool) : Prop := if has then exists q, b = Fin q else b = none.

Definition encloses (v : pip_var ext) (atoms : list (pip_atom ext)) (tight : bool) (lo hi lo' hi' : ext) : Prop :=
  forall val x, has_value val v x ->
    (in_interval lo hi x && all_hold val atoms = true -> in_interval lo' hi' x = true) /\
    (tight = true -> in_interval lo' hi' x = true -> in_interval lo hi x && all_hold val atoms = true).

Lemma encloses_skip v a atoms lo hi lo' hi' :
  encloses v atoms false lo hi lo' hi' -> encloses v (a :: atoms) false lo hi lo' hi'.
Proof.
  intros He val x Hv. destruct (He val x Hv) as [H1 _]. split; [|done]. cbn [all_hold forallb].
  intros [Hi [_ Ha]%andb_true_iff]%andb_true_iff. apply H1. unfold all_hold. by rewrite Hi, Ha.
Qed.

(** One more atom: [lo1] and [hi1] are the bounds that take it into account. *)
Lemma encloses_cons v a atoms tight lo hi lo1 hi1 lo' hi' q up :
  bounds_var a v q up ->
  (forall x, in_interval lo1 hi1 x =
    in_interval lo hi x && (if up then bool_decide (x < q)%Qc else bool_decide (q < x)%Qc)) ->
  encloses v atoms tight lo1 hi1 lo' hi' -> encloses v (a :: atoms) tight lo hi lo' hi'.
Proof.
  intros Hb Hi He val x Hv. specialize (Hb val x Hv).
  assert (Heq : in_interval lo hi x && all_hold val (a :: atoms) = in_interval lo1 hi1 x && all_hold val atoms).
  { rewrite Hi. cbn [all_hold forallb]. rewrite Hb. fold (all_hold val atoms). rewrite <- andb_assoc. f_equal. f_equal.
    by destruct (if up then _ else _). }
  rewrite Heq. by apply He.
Qed.

Lemma Qc_ltb (x y : Qc) : bool_decide (x < y)%Qc = true <-> (x < y)%Qc.
Proof. apply bool_decide_eq_true. Qed.

Lemma bool_eq_iff (a b : bool) : (a = true <-> b = true) -> a = b.
Proof. destruct a, b; intros [H1 H2]; try done; [by rewrite H1|by rewrite H2]. Qed.

Lemma upper_tighter lo hi (q x : Qc) hh : bound_ok PInf hi hh -> ext_gt hi (Fin q) = true ->
  in_interval lo (Fin q) x = in_interval lo hi x && bool_decide (x < q)%Qc.
Proof.
  intros Hok Hgt. unfold in_interval. rewrite <- andb_assoc. f_equal. cbn [ext_gt]. apply bool_eq_iff.
  rewrite andb_true_iff, !Qc_ltb. destruct hh; [destruct Hok as [p ->]|rewrite Hok in *]; cbn [ext_gt] in *; [|tauto].
  rewrite !Qc_ltb in *. split; [intros; split; qc_lra|tauto].
Qed.

Lemma upper_same lo hi (q x : Qc) hh : bound_ok PInf hi hh -> ext_gt hi (Fin q) = false ->
  in_interval lo hi x = in_interval lo hi x && bool_decide (x < q)%Qc.
Proof.
  intros Hok Hgt. unfold in_interval. rewrite <- andb_assoc. f_equal. apply bool_eq_iff.
  rewrite andb_true_iff, Qc_ltb. destruct hh; [destruct Hok as [p ->]|rewrite Hok in *]; cbn [ext_gt] in *; [|done].
  apply bool_decide_eq_false in Hgt. rewrite Qc_ltb. split; [intros; split; [done|]|tauto]. qc_lra.
Qed.

Lemma lower_tighter lo hi (q x : Qc) hl : bound_ok MInf lo hl -> ext_gt (Fin q) lo = true ->
  in_interval (Fin q) hi x = in_interval lo hi x && bool_decide (q < x)%Qc.
Proof.
  intros Hok Hgt. unfold in_interval. rewrite <- andb_assoc, (andb_comm _ (bool_decide _)), andb_assoc. f_equal.
  cbn [ext_gt]. apply bool_eq_iff.
  rewrite andb_true_iff, !Qc_ltb. destruct hl; [destruct Hok as [p ->]|rewrite Hok in *]; cbn [ext_gt] in *; [|tauto].
  rewrite !Qc_ltb in *. split; [intros; split; qc_lra|tauto].
Qed.

Lemma lower_same lo hi (q x : Qc) hl : bound_ok MInf lo hl -> ext_gt (Fin q) lo = false ->
  in_interval lo hi x = in_interval lo hi x && bool_decide (q < x)%Qc.
Proof.
  intros Hok Hgt. unfold in_interval. rewrite <- andb_assoc, (andb_comm _ (bool_decide _)), andb_assoc. f_equal.
  apply bool_eq_iff.
  rewrite andb_true_iff, Qc_ltb. destruct hl; [destruct Hok as [p ->]|rewrite Hok in *]; cbn [ext_gt] in *; [|done].
  apply bool_decide_eq_false in Hgt. rewrite Qc_ltb. split; [intros; split; [done|]|tauto]. qc_lra.
Qed.

(** No bound of the variable. *)
Definition unsolved (v : pip_var ext) (a : pip_atom ext) : Prop := forall q up, pip_solve_bound a v <> Some (Fin q, Some up).

Lemma bounds_loop_spec v tight atoms : Forall clean_atom atoms -> forall lo hi hl hh,
  bound_ok MInf lo hl -> bound_ok PInf hi hh ->
  exists r, bounds_loop atoms v tight lo hi hl hh = Some r /\
    match r with
    | None => tight = true /\ Exists (unsolved v) atoms
    | Some (lo', hi', hl', hh') => bound_ok MInf lo' hl' /\ bound_ok PInf hi' hh' /\ encloses v atoms tight lo hi lo' hi'
    end.
Proof.
  induction 1 as [|a atoms Ha HF IH]; intros lo hi hl hh Hlo Hhi.
  { eexists. split; [done|]. split_and!; [done..|]. intros val x _. cbn [all_hold forallb]. by rewrite andb_true_r. }
  cbn [bounds_loop]. destruct (solve_bound_spec a v Ha) as ([y up] & Heq & Hcase).
  rewrite Heq. cbn [mbind option_bind fst] in *.
  destruct Hcase as [Hnan|(q & up' & [= -> ->] & Hb)].
  { rewrite Hnan. destruct tight.
    { eexists. split; [done|]. split; [done|]. apply Exists_cons_hd. intros q up' Hq. rewrite Heq in Hq.
      injection Hq as -> _. done. } destruct (IH lo hi hl hh Hlo Hhi) as (r & -> & Hr).
    eexists. split; [done|]. destruct r as [[[[lo' hi'] hl'] hh']|]; [|destruct Hr; discriminate]. destruct Hr as (? & ? & ?).
    split_and!; [done..|]. by apply encloses_skip. }
  cbn [isnan ext_float8 mbind option_bind fl_gt].
  assert (Hgo : forall lo1 hi1 hl1 hh1, bound_ok MInf lo1 hl1 -> bound_ok PInf hi1 hh1 ->
    (forall x, in_interval lo1 hi1 x =
      in_interval lo hi x && (if up' then bool_decide (x < q)%Qc else bool_decide (q < x)%Qc)) ->
    exists r, bounds_loop atoms v tight lo1 hi1 hl1 hh1 = Some r /\
      match r with
      | None => tight = true /\ Exists (unsolved v) (a :: atoms)
      | Some (lo', hi', hl', hh') =>
          bound_ok MInf lo' hl' /\ bound_ok PInf hi' hh' /\ encloses v (a :: atoms) tight lo hi lo' hi'
      end).
  { intros lo1 hi1 hl1 hh1 Hlo1 Hhi1 Hin. destruct (IH lo1 hi1 hl1 hh1 Hlo1 Hhi1) as (r & -> & Hr). eexists.
    split; [done|]. destruct r as [[[[lo' hi'] hl'] hh']|]; [|destruct Hr; split; [done|by apply Exists_cons_tl]].
    destruct Hr as (? & ? & ?). split_and!; [done..|]. by eapply encloses_cons. }
  destruct up'.
  - destruct (ext_gt hi (Fin q)) eqn:E; apply Hgo; try done; [by exists q|..]; intros x;
      [by eapply upper_tighter|by eapply upper_same].
  - destruct (ext_gt (Fin q) lo) eqn:E; apply Hgo; try done; [by exists q|..]; intros x;
      [by eapply lower_tighter|by eapply lower_same].
Qed.

(** ** Probabilities *)

(** The part of [(lo, hi)] in [[a, b]]. *)
Definition clamp (a b : Qc) (x : ext) : Qc :=
  match x with
  | Fin q => if bool_decide (q < a)%Qc then a else if bool_decide (b < q)%Qc then b else q
  | PInf => b
  | _ => a
  end.
Definition overlap (a b : Qc) (lo hi : ext) : Qc :=
  if bool_decide (clamp a b lo < clamp a b hi)%Qc then (clamp a b hi - clamp a b lo)%Qc else 0%Qc.

(** A variable with the uniform distribution on [[a, b]]. *)
Definition uniform_var (v : pip_var ext) (a b : Qc) : Prop := group v = 4 /\ group_state v = [Fin a; Fin b] /\ (a < b)%Qc.

Lemma uniform_ne (a b : Qc) : (a < b)%Qc -> (b - a)%Qc <> 0%Qc.
Proof. intros Hab E. assert (a = b) as -> by (replace b with (b - a + a)%Qc by ring; rewrite E; ring). by apply Qclt_not_eq in Hab. Qed.

Lemma uniform_cdf_Fin v a b q : uniform_var v a b ->
  pip_uniform_cdf v (Fin q) = Fin ((clamp a b (Fin q) - a) / (b - a))%Qc.
Proof.
  intros (_ & Hs & Hab). pose proof (uniform_ne a b Hab) as Hne. unfold pip_uniform_cdf, param, fl_ge. rewrite Hs.
  cbn [nth fl_gt fl_eq ext_float8 ext_gt ext_eq fl_one fl_zero fl_div fl_sub ext_div ext_add ext_opp clamp].
  destruct (decide (q < a)%Qc) as [H1|H1].
  { rewrite (bool_decide_eq_true_2 _ H1). rewrite (bool_decide_eq_false_2 (b < q)%Qc) by qc_lra.
    rewrite (bool_decide_eq_false_2 (q = b)) by (intros ->; qc_lra). cbn [orb]. f_equal. field. exact Hne. }
  rewrite (bool_decide_eq_false_2 _ H1). destruct (decide (b < q)%Qc) as [H2|H2].
  { rewrite (bool_decide_eq_true_2 _ H2). cbn [orb]. f_equal. field. exact Hne. }
  rewrite (bool_decide_eq_false_2 _ H2). cbn [orb]. case_bool_decide as H3.
  { subst q. f_equal. field. exact Hne. }
  rewrite decide_False by exact Hne. done.
Qed.

Section Integrate.
Context (exponential normal poisson : pip_functable_entry ext).

Lemma uniform_dist v : group v = 4 -> dist_of (table exponential normal poisson) v = Some uniform.
Proof. intros Hg. unfold dist_of. by rewrite Hg. Qed.

Lemma uniform_has_cdf v : group v = 4 -> PVAR_HAS_CDF (table exponential normal poisson) v = Some true.
Proof. intros Hg. unfold PVAR_HAS_CDF. by rewrite Hg. Qed.

Lemma uniform_bound v a b none (x : ext) has d : uniform_var v a b -> bound_ok none x has ->
  (none = MInf /\ d = fl_zero \/ none = PInf /\ d = fl_one) ->
  (if has then pip_var_cdf (table exponential normal poisson) v x else d) = Fin ((clamp a b x - a) / (b - a))%Qc.
Proof.
  intros Hu Hok Hd. pose proof Hu as (Hg & _ & Hab). pose proof (uniform_ne a b Hab) as Hne. destruct has.
  - destruct Hok as [q ->]. unfold pip_var_cdf, call. rewrite uniform_dist by done. cbn [dist_cdf uniform].
    by apply uniform_cdf_Fin.
  - rewrite Hok. destruct Hd as [[-> ->]|[-> ->]]; cbn [clamp fl_zero fl_one ext_float8]; f_equal; field; exact Hne.
Qed.

Lemma integrate_uniform v a b atoms : uniform_var v a b -> Forall clean_atom atoms ->
  exists r, pip_integrate_by_cdf (table exponential normal poisson) atoms v = Some r /\
    ((r = NaN /\ Exists (unsolved v) atoms) \/ exists lo hi, r = Fin (overlap a b lo hi / (b - a)) /\
      forall val x, has_value val v x -> all_hold val atoms = in_interval lo hi x).
Proof.
  intros Hu HF. pose proof Hu as (Hg & _ & Hab). pose proof (uniform_ne a b Hab) as Hne.
  unfold pip_integrate_by_cdf, pip_solve_cdf_bounds. rewrite uniform_has_cdf by done. cbn [mbind option_bind].
  destruct (bounds_loop_spec v true atoms HF MInf PInf false false eq_refl eq_refl) as (r & Hr & Hcase).
  change fl_minf with MInf. change fl_inf with PInf. rewrite Hr. cbn [mbind option_bind].
  destruct r as [[[[lo hi] hl] hh]|]; [|destruct Hcase; by eexists; split; [done|left]]. destruct Hcase as (Hlo & Hhi & He).
  cbn [option_map]. rewrite (uniform_bound v a b MInf lo hl fl_zero) by auto.
  rewrite (uniform_bound v a b PInf hi hh fl_one) by auto. eexists. split; [done|]. right. exists lo, hi. split.
  - cbn [fl_gt fl_sub fl_zero ext_float8 ext_gt ext_add ext_opp]. unfold overlap.
    assert (Hiff : ((clamp a b lo - a) / (b - a) < (clamp a b hi - a) / (b - a))%Qc <-> (clamp a b lo < clamp a b hi)%Qc).
    { rewrite (Qc_lt_mult_pos (b - a) (_ / _)%Qc) by qc_lra. rewrite !Qcmult_div_r by done. split; intros; qc_lra. }
    case_bool_decide as H1; case_bool_decide as H2; try tauto; f_equal; field; exact Hne.
  - intros val x Hv. destruct (He val x Hv) as [H1 H2]. apply bool_eq_iff. split.
    + intros Ha. apply H1. by rewrite Ha.
    + intros Hi. by apply H2 in Hi as [_ Ha]%andb_true_iff.
Qed.
End Integrate.

(** ** The uniform distribution *)

Lemma clamp_in (a b q : Qc) : (a <= q)%Qc -> (q <= b)%Qc -> clamp a b (Fin q) = q.
Proof. intros H1 H2. cbn [clamp]. rewrite !bool_decide_eq_false_2 by qc_lra. done. Qed.

Lemma uniform_icdf_Fin v a b p : uniform_var v a b -> pip_uniform_icdf v (Fin p) = Fin (p * (b - a) + a)%Qc.
Proof. intros (_ & Hs & _). unfold pip_uniform_icdf, param. by rewrite Hs. Qed.

Lemma uniform_cdf_icdf v a b p : uniform_var v a b -> (0 <= p)%Qc -> (p <= 1)%Qc ->
  pip_uniform_cdf v (pip_uniform_icdf v (Fin p)) = Fin p.
Proof.
  intros Hu H0 H1. pose proof Hu as (_ & _ & Hab). rewrite (uniform_icdf_Fin v a b p Hu), (uniform_cdf_Fin v a b _ Hu).
  rewrite clamp_in by qc_nra. f_equal. field. by apply uniform_ne.
Qed.

Lemma uniform_icdf_cdf v a b q : uniform_var v a b -> (a <= q)%Qc -> (q <= b)%Qc ->
  pip_uniform_icdf v (pip_uniform_cdf v (Fin q)) = Fin q.
Proof.
  intros Hu H0 H1. pose proof Hu as (_ & _ & Hab). rewrite (uniform_cdf_Fin v a b _ Hu), (uniform_icdf_Fin v a b _ Hu).
  rewrite clamp_in by done. f_equal. field. by apply uniform_ne.
Qed.

(** ** Random numbers *)

Lemma land_random_max (z : Z) : 0 <= Z.land z RANDOM_MAX <= RANDOM_MAX.
Proof.
  unfold RANDOM_MAX. change (2 ^ 31 - 1) with (Z.ones 31). rewrite Z.land_ones by lia.
  pose proof (Z.mod_pos_bound z (2 ^ 31)). change (Z.ones 31) with (2 ^ 31 - 1). lia.
Qed.

Lemma prng_float_range (seed : Z) : exists q, fst (pip_prng_float (F := ext) seed) = Fin q /\ (0 <= q)%Qc /\ (q <= 1)%Qc.
Proof.
  pose proof (land_random_max (pip_prng_step seed)) as [H0 H1]. unfold pip_prng_float, pip_prng_int. cbn [fst].
  set (n := Z.land (pip_prng_step seed) RANDOM_MAX) in *. cbn [fl_mul fl_div fl_one fl_of_Z ext_float8 ext_div ext_mul].
  rewrite decide_False by by apply this_ne.
  set (u := Q2Qc (inject_Z RANDOM_MAX)). set (x := Q2Qc (inject_Z n)).
  assert (Hu : u <> 0%Qc) by by apply this_ne. eexists. split; [reflexivity|].
  assert (Hx0 : (0 <= x)%Qc) by (unfold x, Qcle; simpl; rewrite !Qred_correct; unfold Qle; simpl; lia).
  assert (Hxu : (x <= u)%Qc).
  { unfold x, u, Qcle. simpl. rewrite !Qred_correct. unfold Qle. simpl. lia. }
  assert (Hp : (0 < u)%Qc) by by unfold u.
  assert (Heq : (u * (1 / u * x) = x)%Qc) by (field; exact Hu).
  set (y := (1 / u * x)%Qc) in *. split; qc_nra.
Qed.

Lemma uniform_gen_range v a b seed : uniform_var v a b -> exists q, pip_uniform_gen v seed = Fin q /\ (a <= q)%Qc /\ (q <= b)%Qc.
Proof.
  intros (_ & Hs & Hab). unfold pip_uniform_gen, param. rewrite Hs. destruct (prng_float_range seed) as (q & -> & H0 & H1).
  eexists. split; [reflexivity|]. split; qc_nra.
Qed.
