(* ===== verification/PipBundle.v ===== *)
(** * PipBundle: value bundles and world presence ([type/value_bundle.c],
    [funcs/pip_value_bundle.c], [funcs/pip_world_presence.c])

    The sample-first mode fixes a number of worlds.  A bundle has the value of a
    variable or expression in each; a presence has a bit per world, the first world in
    the highest bit of the first byte, that says whether a row exists there. *)
From S2P Require Import Prelude.
From S2P Require Import PipVar.
From S2P Require Import PipEqn.

Open Scope Z_scope.

(** ** Data *)

(** [data] is an array of bytes. *)
Record pip_world_presence := mk_wp { worldcount : Z; wp_data : list Z }.

(** The variable is not kept: no operation reads it again. *)
Record pip_value_bundle (F : Type) := mk_vb { vb_seed : Z; vb_worldcount : Z; vb_val : list F }.
Arguments mk_vb {F}.
Arguments vb_seed {F}.
Arguments vb_worldcount {F}.
Arguments vb_val {F}.

(** An array access; out of range is an error. *)
Definition at_index {A} (l : list A) (i : Z) : option A := if i <? 0 then None else l !! Z.to_nat i.
Definition store_at {A} (l : list A) (i : Z) (x : A) : option (list A) :=
  if i <? 0 then None else if (Z.to_nat i <? length l)%nat then Some (<[Z.to_nat i := x]> l) else None.

(** [for(i = low; i < high; i++)]. *)
Definition range (low high : Z) : list Z := map (fun k => low + Z.of_nat k) (seq 0 (Z.to_nat (high - low))).
Definition loop {St} (low high : Z) (body : Z -> St -> option St) (s : St) : option St :=
  foldl (fun s i => s ← s; body i s) (Some s) (range low high).

(** ** World presence *)

Definition presence_bytes (len : Z) : Z := Z.quot (len + 7) 8.

(** A negative number of bytes is an error of the allocator or of [memset]. *)
Definition alloc_presence (len byte : Z) : option pip_world_presence :=
  if presence_bytes len <? 0 then None else Some (mk_wp len (replicate (Z.to_nat (presence_bytes len)) byte)).

Definition pip_world_presence_create (len : Z) : option pip_world_presence := alloc_presence len 255.

(** The two forms of the input function that do not read bits: [?n] and [!n]. *)
Definition pip_world_presence_in_fresh (full : bool) (len : Z) : option pip_world_presence :=
  alloc_presence len (if full then 255 else 0).

(** [(wp->data[i/8] >> (7-(i%8))) & 0x01]. *)
Definition world_bit (wp : pip_world_presence) (i : Z) : option Z :=
  b ← at_index (wp_data wp) (Z.quot i 8); Some (Z.land (Z.shiftr b (7 - Z.rem i 8)) 1).

Definition UNSET_WORLDBIT (wp : pip_world_presence) (i : Z) : option pip_world_presence :=
  b ← at_index (wp_data wp) (Z.quot i 8);
  d ← store_at (wp_data wp) (Z.quot i 8) (Z.land b (Z.land (Z.lnot (Z.shiftl 1 (7 - Z.rem i 8))) 255));
  Some (mk_wp (worldcount wp) d).

Definition MIN (a b : Z) : Z := if b <? a then b else a.

Definition pip_world_presence_union (wp1 wp2 : pip_world_presence) : option pip_world_presence :=
  d ← loop 0 (Z.quot (MIN (worldcount wp1) (worldcount wp2) + 7) 8)
    (fun i d => b1 ← at_index d i; b2 ← at_index (wp_data wp2) i; store_at d i (Z.lor b1 b2)) (wp_data wp1);
  Some (mk_wp (worldcount wp1) d).

Definition count_worlds (wp : pip_world_presence) : option Z :=
  loop 0 (worldcount wp) (fun i cnt => b ← world_bit wp i; Some (cnt + b)) 0.

(** The output function writes a nibble per four worlds. *)
Definition presence_nibbles (wp : pip_world_presence) : option (list Z) :=
  loop 0 (Z.quot (worldcount wp + 3) 4)
    (fun i out => b ← at_index (wp_data wp) (Z.quot i 2);
      Some (out ++ [Z.land (Z.shiftr b (4 * Z.rem (i + 1) 2)) 15])) [].

(** The loop of the input function that reads them back: [c] counts worlds, and the
    nibble is shifted into [data[c/2]]. *)
Definition presence_of_nibbles (len : Z) (nibbles : list Z) : option pip_world_presence :=
  wp ← alloc_presence len 0;
  d ← loop 0 (Z.quot (len + 3) 4)
    (fun k d => let c := 4 * k in
      b ← at_index d (Z.quot c 2);
      n ← at_index nibbles (Z.quot c 4);
      store_at d (Z.quot c 2) (Z.lor (Z.land (Z.shiftl b 4) 255) n)) (wp_data wp);
  Some (mk_wp len d).

Section Bundles.
Context {F : Type} `{Float8 F}.

Definition pip_world_presence_count (wp : pip_world_presence) : option F :=
  cnt ← count_worlds wp; Some (fl_div (fl_of_Z cnt) (fl_of_Z (worldcount wp))).

(** ** Value bundles *)

Context (pip_distributions : list (pip_functable_entry F)).

(** Without a variable the values are zero. *)
Definition pip_value_bundle_alloc (var : option (pip_var F)) (worldcount seed : Z) : pip_value_bundle F :=
  mk_vb seed worldcount
    match var with
    | None => replicate (Z.to_nat worldcount) fl_zero
    | Some v => map (fun i => pip_var_gen_wseed pip_distributions v (Z.lxor seed (int64 (Z.shiftl (pip_prng_step i) 32))))
        (range 0 worldcount)
    end.

(** [random()] gives the seed; the equation must be a variable. *)
Definition pip_value_bundle_create (e : pip_eqn F) (worldcount random : Z) : option (pip_value_bundle F) :=
  v ← pip_var_for_eqn e; v ← v; Some (pip_value_bundle_alloc (Some v) worldcount random).

Definition fl_le (x y : F) : bool := fl_gt y x || fl_eq x y.

Definition CMP_FUNC (wp : pip_world_presence) (left_val right_val : Z -> option F) : option pip_world_presence :=
  loop 0 (worldcount wp)
    (fun i wp => x ← left_val i; y ← right_val i; if fl_le x y then UNSET_WORLDBIT wp i else Some wp) wp.

Definition PIP_VB_VAL (vb : pip_value_bundle F) (i : Z) : option F := at_index (vb_val vb) i.

Definition pip_value_bundle_cmp_vv (wp : pip_world_presence) (l r : pip_value_bundle F) :=
  CMP_FUNC wp (PIP_VB_VAL l) (PIP_VB_VAL r).
Definition pip_value_bundle_cmp_vi (wp : pip_world_presence) (l : pip_value_bundle F) (r : Z) :=
  CMP_FUNC wp (PIP_VB_VAL l) (fun _ => Some (fl_of_Z r)).
Definition pip_value_bundle_cmp_iv (wp : pip_world_presence) (l : Z) (r : pip_value_bundle F) :=
  CMP_FUNC wp (fun _ => Some (fl_of_Z l)) (PIP_VB_VAL r).
Definition pip_value_bundle_cmp_vf (wp : pip_world_presence) (l : pip_value_bundle F) (r : F) :=
  CMP_FUNC wp (PIP_VB_VAL l) (fun _ => Some r).
Definition pip_value_bundle_cmp_fv (wp : pip_world_presence) (l : F) (r : pip_value_bundle F) :=
  CMP_FUNC wp (fun _ => Some l) (PIP_VB_VAL r).

Definition UPDATE_FUNC (comp : Z -> option F) (worldcount : Z) : option (pip_value_bundle F) :=
  let result := pip_value_bundle_alloc None worldcount 0 in
  d ← loop 0 worldcount (fun i d => x ← comp i; store_at d i x) (vb_val result);
  Some (mk_vb 0 worldcount d).

Definition pip_value_bundle_add_vf (vb : pip_value_bundle F) (cmp : F) :=
  UPDATE_FUNC (fun i => x ← PIP_VB_VAL vb i; Some (fl_add x cmp)) (vb_worldcount vb).
Definition pip_value_bundle_mul_vf (vb : pip_value_bundle F) (cmp : F) :=
  UPDATE_FUNC (fun i => x ← PIP_VB_VAL vb i; Some (fl_mul x cmp)) (vb_worldcount vb).
Definition pip_value_bundle_mul_vv (l r : pip_value_bundle F) :=
  UPDATE_FUNC (fun i => x ← PIP_VB_VAL l i; y ← PIP_VB_VAL r i; Some (fl_mul x y)) (vb_worldcount l).

(** The outer option is an error, the inner one an SQL null.  A null on the right only
    is dereferenced. *)
Definition pip_value_bundle_add_vv (l r : option (pip_value_bundle F)) (wp : option pip_world_presence)
    : option (option (pip_value_bundle F)) :=
  match l, r with
  | None, None => Some None
  | _, _ =>
      let valbundle_l :=
        match l, r with
        | None, Some r => pip_value_bundle_alloc None (vb_worldcount r) 0
        | Some l, _ => l
        | None, None => mk_vb 0 0 []
        end in
      vb ← UPDATE_FUNC (fun i =>
        b ← match wp with None => Some true | Some wp => b ← world_bit wp i; Some (negb (b =? 0)) end;
        x ← PIP_VB_VAL valbundle_l i;
        if (b : bool) then r ← r; y ← PIP_VB_VAL r i; Some (fl_add x y) else Some x)
        (vb_worldcount valbundle_l);
      Some (Some vb)
  end.

Definition pip_value_bundle_expect (vb : pip_value_bundle F) (wp : option pip_world_presence) (bounds : option (Z * Z))
    : option F :=
  let '(low, high) := default (0, vb_worldcount vb) bounds in
  '(result, cnt) ← loop low high (fun i '(result, cnt) =>
    b ← match wp with None => Some true | Some wp => b ← world_bit wp i; Some (negb (b =? 0)) end;
    if (b : bool) then x ← PIP_VB_VAL vb i; Some (fl_add result x, cnt + 1) else Some (result, cnt)) (fl_zero, 0);
  Some (if cnt >? 0 then fl_div result (fl_of_Z (high - low)) else result).

Definition pip_value_bundle_max (l r : pip_value_bundle F) : option (pip_value_bundle F) :=
  d ← loop 0 (vb_worldcount l)
    (fun i d => x ← at_index d i; y ← PIP_VB_VAL r i; if fl_gt y x then store_at d i y else Some d) (vb_val l);
  Some (mk_vb (vb_seed l) (vb_worldcount l) d).
End Bundles.

(** ** Bits and values per world

    World presence as a set of worlds and bundles as functions of the world: the
    operations act world by world. *)

Open Scope Z_scope.

(** ** Loops and arrays *)

Lemma range_snoc low high : low <= high -> range low (high + 1) = range low high ++ [high].
Proof.
  intros Hle. unfold range. replace (high + 1 - low) with (Z.succ (high - low)) by lia.
  rewrite Z2Nat.inj_succ by lia. rewrite seq_S, map_app. cbn [map Nat.add]. do 2 f_equal. lia.
Qed.

Lemma elem_of_range low high i : i ∈ range low high <-> low <= i < high.
Proof.
  unfold range. rewrite list_elem_of_fmap. split.
  - intros (k & -> & Hk%elem_of_seq). lia.
  - intros Hi. exists (Z.to_nat (i - low)). split; [lia|]. apply elem_of_seq. lia.
Qed.

Lemma loop_step {St} low high (body : Z -> St -> option St) s : low <= high ->
  loop low (high + 1) body s = (s ← loop low high body s; body high s).
Proof. intros Hle. unfold loop. by rewrite range_snoc, foldl_app. Qed.

Lemma loop_invariant {St} (P : Z -> St -> Prop) low high (body : Z -> St -> option St) s :
  low <= high -> P low s ->
  (forall i s, low <= i < high -> P i s -> exists s', body i s = Some s' /\ P (i + 1) s') ->
  exists s', loop low high body s = Some s' /\ P high s'.
Proof.
  intros Hle Hs Hstep. assert (Hgo : forall n, (n <= Z.to_nat (high - low))%nat ->
    exists s', loop low (low + Z.of_nat n) body s = Some s' /\ P (low + Z.of_nat n) s').
  { induction n as [|n IH]; intros Hn.
    - exists s. rewrite Z.add_0_r. split; [|done]. unfold loop, range. by rewrite Z.sub_diag.
    - destruct IH as (s' & Hs' & HP); [lia|]. destruct (Hstep (low + Z.of_nat n) s') as (s'' & Hb & HP'); [lia|done|].
      exists s''. replace (low + Z.of_nat (S n)) with (low + Z.of_nat n + 1) by lia. split; [|done].
      rewrite loop_step by lia. by rewrite Hs'. }
  destruct (Hgo (Z.to_nat (high - low))) as (s' & H1 & H2); [done|].
  replace (low + Z.of_nat (Z.to_nat (high - low))) with high in * by lia. by exists s'.
Qed.

Lemma at_index_nth {A} (l : list A) (i : Z) d : 0 <= i < Z.of_nat (length l) -> at_index l i = Some (nth (Z.to_nat i) l d).
Proof.
  intros Hi. unfold at_index. rewrite (proj2 (Z.ltb_ge _ _)) by lia.
  destruct (lookup_lt_is_Some_2 l (Z.to_nat i)) as [x Hx]; [lia|]. rewrite Hx. f_equal. symmetry. by apply nth_lookup_Some.
Qed.

Lemma store_at_Some {A} (l : list A) (i : Z) x : 0 <= i < Z.of_nat (length l) -> store_at l i x = Some (<[Z.to_nat i := x]> l).
Proof.
  intros Hi. unfold store_at. rewrite (proj2 (Z.ltb_ge _ _)) by lia. by rewrite (proj2 (Nat.ltb_lt _ _)) by lia.
Qed.

Lemma nth_insert {A} (l : list A) (i j : nat) x d : (i < length l)%nat -> nth j (<[i := x]> l) d = if decide (j = i) then x else nth j l d.
Proof.
  intros Hi. rewrite !nth_lookup. case_decide as Hd.
  - subst j. by rewrite list_lookup_insert_eq.
  - by rewrite list_lookup_insert_ne by done.
Qed.

Lemma filter_ext_in {A} (P Q : A -> Prop) `{forall x, Decision (P x)} `{forall x, Decision (Q x)} (l : list A) :
  (forall x, x ∈ l -> P x <-> Q x) -> filter P l = filter Q l.
Proof.
  induction l as [|x l IH]; intros HPQ; [done|]. rewrite !filter_cons, IH by (intros y Hy; apply HPQ; set_solver).
  assert (HPx : P x <-> Q x) by (apply HPQ; set_solver). by do 2 case_decide; try tauto.
Qed.

Lemma Forall2_snoc_ind {A B} (R : A -> B -> Prop) (P : list A -> list B -> Prop) :
  P [] [] -> (forall x y l k, R x y -> Forall2 R l k -> P l k -> P (l ++ [x]) (k ++ [y])) ->
  forall l k, Forall2 R l k -> P l k.
Proof.
  intros Hnil Hsnoc l. induction l as [|x l IH] using rev_ind; intros k HF.
  - by inversion HF.
  - apply Forall2_app_inv_l in HF as (k1 & k2 & H1 & H2 & ->). inversion H2 as [|? y ? ? Hxy Hn]; subst. inversion Hn; subst.
    apply Hsnoc; auto.
Qed.

(** ** Presence *)

(** Whether the row exists in a world. *)
Definition present (wp : pip_world_presence) (i : Z) : bool :=
  Z.testbit (nth (Z.to_nat (i / 8)) (wp_data wp) 0) (7 - i mod 8).

Definition byte (b : Z) : Prop := 0 <= b < 256.

Definition wp_ok (wp : pip_world_presence) : Prop :=
  0 <= worldcount wp /\ Z.of_nat (length (wp_data wp)) = (worldcount wp + 7) / 8.

Lemma world_byte (w i : Z) : 0 <= i < w -> 0 <= i / 8 < (w + 7) / 8.
Proof.
  intros Hi. pose proof (Z.div_mod i 8). pose proof (Z.div_mod (w + 7) 8).
  pose proof (Z.mod_pos_bound i 8). pose proof (Z.mod_pos_bound (w + 7) 8). lia.
Qed.

Lemma world_index wp i : wp_ok wp -> 0 <= i < worldcount wp ->
  Z.quot i 8 = i / 8 /\ Z.rem i 8 = i mod 8 /\ 0 <= i / 8 < Z.of_nat (length (wp_data wp)) /\ 0 <= i mod 8 < 8.
Proof.
  intros [Hw Hlen] Hi. rewrite Z.quot_div_nonneg, Z.rem_mod_nonneg by lia. rewrite Hlen.
  pose proof (Z.mod_pos_bound i 8). pose proof (world_byte _ _ Hi). split_and!; lia.
Qed.

Lemma land_1_testbit b k : 0 <= k -> Z.land (Z.shiftr b k) 1 = Z.b2z (Z.testbit b k).
Proof.
  intros Hk. change 1 with (Z.ones 1). rewrite Z.land_ones by lia. change (2 ^ 1) with 2.
  rewrite <- Z.bit0_mod, Z.shiftr_spec by lia. by rewrite Z.add_0_l.
Qed.

Lemma world_bit_present wp i : wp_ok wp -> 0 <= i < worldcount wp -> world_bit wp i = Some (Z.b2z (present wp i)).
Proof.
  intros Hok Hi. destruct (world_index wp i Hok Hi) as (Hq & Hr & Hin & Hm). unfold world_bit, present.
  rewrite Hq, Hr. rewrite (at_index_nth _ _ 0) by done. cbn [mbind option_bind]. by rewrite land_1_testbit by lia.
Qed.

Lemma b2z_nonzero (b : bool) : negb (Z.b2z b =? 0) = b.
Proof. by destruct b. Qed.

(** Distinct worlds have distinct bits. *)
Lemma same_bit i j : 0 <= i -> 0 <= j -> Z.to_nat (i / 8) = Z.to_nat (j / 8) -> 7 - i mod 8 = 7 - j mod 8 -> i = j.
Proof.
  intros Hi Hj Hq Hr. pose proof (Z.div_mod i 8). pose proof (Z.div_mod j 8).
  pose proof (Z.div_pos i 8). pose proof (Z.div_pos j 8). lia.
Qed.

Lemma unset_bit b k m : 0 <= k < 8 -> 0 <= m < 8 ->
  Z.testbit (Z.land b (Z.land (Z.lnot (Z.shiftl 1 m)) 255)) k = Z.testbit b k && negb (k =? m).
Proof.
  intros Hk Hm. rewrite !Z.land_spec, Z.lnot_spec by lia. change 255 with (Z.ones 8).
  rewrite Z.ones_spec_low by lia. rewrite andb_true_r, Z.shiftl_1_l, Z.pow2_bits_eqb by lia. by rewrite (Z.eqb_sym m).
Qed.

Lemma UNSET_spec wp i : wp_ok wp -> 0 <= i < worldcount wp ->
  exists wp', UNSET_WORLDBIT wp i = Some wp' /\ wp_ok wp' /\ worldcount wp' = worldcount wp /\
    forall j, 0 <= j < worldcount wp -> present wp' j = present wp j && negb (j =? i).
Proof.
  intros Hok Hi. destruct (world_index wp i Hok Hi) as (Hq & Hr & Hin & Hm). unfold UNSET_WORLDBIT.
  rewrite Hq, Hr. rewrite (at_index_nth _ _ 0) by done. cbn [mbind option_bind].
  rewrite store_at_Some by done. cbn [mbind option_bind]. eexists. split; [done|]. split_and!; [|done|].
  - destruct Hok. split; [done|]. cbn [wp_data worldcount]. by rewrite length_insert.
  - intros j Hj. destruct (world_index wp j Hok Hj) as (_ & _ & Hin' & Hm'). unfold present. cbn [wp_data].
    rewrite nth_insert by lia. case_decide as Hd.
    + rewrite unset_bit by lia. rewrite <- Hd. f_equal. f_equal. destruct (Z.eqb_spec j i) as [->|Hne]; [by rewrite Z.eqb_refl|].
      apply Z.eqb_neq. intros Hb. apply Hne. apply same_bit; [lia|lia|done|done].
    + rewrite (proj2 (Z.eqb_neq j i)); [by rewrite andb_true_r|]. by intros ->.
Qed.

Lemma present_create len : 0 <= len -> exists wp, pip_world_presence_create len = Some wp /\ wp_ok wp /\
  worldcount wp = len /\ forall i, 0 <= i < len -> present wp i = true.
Proof.
  intros Hlen. unfold pip_world_presence_create, alloc_presence, presence_bytes.
  rewrite Z.quot_div_nonneg by lia. pose proof (Z.div_pos (len + 7) 8). rewrite (proj2 (Z.ltb_ge _ _)) by lia.
  eexists. split; [done|]. split_and!; [|done|].
  - split; [done|]. cbn [wp_data worldcount]. rewrite length_replicate. lia.
  - intros i Hi. unfold present. cbn [wp_data]. rewrite (nth_lookup_Some _ _ _ 255).
    + change 255 with (Z.ones 8). apply Z.ones_spec_low. pose proof (Z.mod_pos_bound i 8). lia.
    + apply lookup_replicate. split; [done|]. pose proof (world_byte _ _ Hi). lia.
Qed.

Lemma count_worlds_spec wp : wp_ok wp ->
  count_worlds wp = Some (Z.of_nat (length (filter (fun i => present wp i = true) (range 0 (worldcount wp))))).
Proof.
  intros Hok. unfold count_worlds.
  destruct (loop_invariant (fun k cnt => cnt = Z.of_nat (length (filter (fun i => present wp i = true) (range 0 k))))
    0 (worldcount wp) (fun i cnt => b ← world_bit wp i; Some (cnt + b)) 0) as (cnt & -> & ->); [by destruct Hok|done| |done].
  intros i cnt Hi ->. rewrite world_bit_present by done. eexists. split; [done|]. rewrite range_snoc by lia.
  rewrite filter_app, length_app. cbn [filter list_filter]. destruct (present wp i) eqn:E; simpl; lia.
Qed.

Lemma union_spec wp1 wp2 : wp_ok wp1 -> wp_ok wp2 -> worldcount wp1 = worldcount wp2 ->
  exists wp, pip_world_presence_union wp1 wp2 = Some wp /\ wp_ok wp /\ worldcount wp = worldcount wp1 /\
    forall i, 0 <= i < worldcount wp1 -> present wp i = present wp1 i || present wp2 i.
Proof.
  intros Hok1 Hok2 Hw. unfold pip_world_presence_union. assert (MIN (worldcount wp1) (worldcount wp2) = worldcount wp1) as ->.
  { unfold MIN. destruct (Z.ltb_spec (worldcount wp2) (worldcount wp1)); lia. }
  destruct Hok1 as [H1 Hl1], Hok2 as [H2 Hl2]. rewrite Z.quot_div_nonneg by lia.
  set (n := (worldcount wp1 + 7) / 8) in *. rewrite <- Hw in Hl2. fold n in Hl2.
  destruct (loop_invariant (fun k d => length d = length (wp_data wp1) /\ forall j, (j < length (wp_data wp1))%nat ->
      nth j d 0 = if (Z.of_nat j <? k) then Z.lor (nth j (wp_data wp1) 0) (nth j (wp_data wp2) 0) else nth j (wp_data wp1) 0)
    0 n (fun i d => b1 ← at_index d i; b2 ← at_index (wp_data wp2) i; store_at d i (Z.lor b1 b2)) (wp_data wp1))
    as (d & -> & Hd & Hnth); [lia| | |].
  - split; [done|]. intros j Hj. by rewrite (proj2 (Z.ltb_ge _ _)) by lia.
  - intros i d Hi [Hd Hnth]. rewrite (at_index_nth _ _ 0), (at_index_nth _ _ 0) by lia. cbn [mbind option_bind].
    rewrite store_at_Some by lia. eexists. split; [done|]. split; [by rewrite length_insert|]. intros j Hj.
    rewrite nth_insert by lia. rewrite Hnth by lia. rewrite (proj2 (Z.ltb_ge (Z.of_nat (Z.to_nat i)) i)) by lia.
    case_decide as Hji; [subst j; by rewrite (proj2 (Z.ltb_lt _ _)) by lia|]. rewrite Hnth by done.
    destruct (Z.ltb_spec (Z.of_nat j) i), (Z.ltb_spec (Z.of_nat j) (i + 1)); try done; lia.
  - cbn [mbind option_bind]. eexists. split; [done|]. split_and!; [|done|].
    + split; [done|]. cbn [wp_data worldcount]. fold n. lia.
    + intros i Hi. unfold present. cbn [wp_data]. pose proof (world_byte _ _ Hi) as Hin. fold n in Hin.
      rewrite Hnth by lia. rewrite (proj2 (Z.ltb_lt _ _)) by lia. by rewrite Z.lor_spec.
Qed.

Section Values.
Context {F : Type} `{Float8 F}.

(** A bundle with a value per world. *)
Definition has_values (n : Z) (vb : pip_value_bundle F) (f : Z -> F) : Prop :=
  vb_worldcount vb = n /\ forall i, 0 <= i < n -> PIP_VB_VAL vb i = Some (f i).

(** ** Comparisons *)

Lemma CMP_spec wp lv rv (f g : Z -> F) :
  wp_ok wp -> (forall i, 0 <= i < worldcount wp -> lv i = Some (f i) /\ rv i = Some (g i)) ->
  exists wp', CMP_FUNC wp lv rv = Some wp' /\ wp_ok wp' /\ worldcount wp' = worldcount wp /\
    forall i, 0 <= i < worldcount wp -> present wp' i = present wp i && negb (fl_le (f i) (g i)).
Proof.
  intros Hok Hv. pose proof Hok as [Hw _]. unfold CMP_FUNC.
  destruct (loop_invariant (fun k wp' => wp_ok wp' /\ worldcount wp' = worldcount wp /\
      forall i, 0 <= i < worldcount wp ->
        present wp' i = if i <? k then present wp i && negb (fl_le (f i) (g i)) else present wp i)
    0 (worldcount wp) (fun i wp => x ← lv i; y ← rv i; if fl_le x y then UNSET_WORLDBIT wp i else Some wp) wp)
    as (wp' & -> & Hok' & Hw' & Hp); [done| | |].
  - split_and!; [done|done|]. intros i Hi. by rewrite (proj2 (Z.ltb_ge _ _)) by lia.
  - intros i wp1 Hi (Hok1 & Hw1 & Hp1). destruct (Hv i Hi) as [-> ->]. cbn [mbind option_bind].
    assert (Hother : forall j, j <> i -> (j <? i + 1) = (j <? i)).
    { intros j Hj. destruct (Z.ltb_spec j (i + 1)), (Z.ltb_spec j i); lia. }
    destruct (fl_le (f i) (g i)) eqn:E.
    + destruct (UNSET_spec wp1 i Hok1) as (wp2 & Hu & Hok2 & Hw2 & Hp2); [lia|]. exists wp2. split; [done|].
      split_and!; [done|congruence|]. intros j Hj. rewrite Hp2, Hp1 by lia. destruct (Z.eqb_spec j i) as [->|Hne].
      * rewrite (proj2 (Z.ltb_lt i (i + 1))) by lia. rewrite E. by rewrite !andb_false_r.
      * rewrite andb_true_r. by rewrite Hother.
    + exists wp1. split; [done|]. split_and!; [done|done|]. intros j Hj. rewrite Hp1 by done.
      destruct (Z.eq_dec j i) as [->|Hne]; [|by rewrite Hother].
      rewrite (proj2 (Z.ltb_lt i (i + 1))), (proj2 (Z.ltb_ge i i)) by lia. rewrite E. by rewrite andb_true_r.
  - exists wp'. split_and!; [done|by destruct Hok'..|done|]. intros i Hi. rewrite Hp by done. by rewrite (proj2 (Z.ltb_lt _ _)) by lia.
Qed.

(** ** Arithmetic *)

Lemma UPDATE_spec pds comp n (f : Z -> F) : 0 <= n -> (forall i, 0 <= i < n -> comp i = Some (f i)) ->
  exists vb, UPDATE_FUNC pds comp n = Some vb /\ has_values n vb f.
Proof.
  intros Hn Hc. unfold UPDATE_FUNC. cbn [vb_val pip_value_bundle_alloc].
  destruct (loop_invariant (fun k d => Z.of_nat (length d) = n /\ forall i, 0 <= i < k -> at_index d i = Some (f i))
    0 n (fun i d => x ← comp i; store_at d i x) (replicate (Z.to_nat n) fl_zero)) as (d & -> & Hd & Hv); [done| | |].
  - split; [rewrite length_replicate; lia|]. intros i Hi. lia.
  - intros i d Hi [Hd Hv]. rewrite Hc by done. cbn [mbind option_bind]. rewrite store_at_Some by lia.
    eexists. split; [done|]. split; [by rewrite length_insert|]. intros j Hj.
    rewrite (at_index_nth _ _ fl_zero) by (rewrite length_insert; lia). rewrite nth_insert by lia.
    case_decide as Hd'; [f_equal; f_equal; lia|].
    rewrite <- (at_index_nth _ _ fl_zero) by lia. apply Hv. lia.
  - eexists. split; [done|]. split; [done|]. exact Hv.
Qed.

Definition row_value (x y : F) (b : bool) : F := if b then fl_add x y else x.

Lemma add_vv_spec pds (acc : option (pip_value_bundle F)) (r : pip_value_bundle F) wp n (f g : Z -> F) :
  wp_ok wp -> worldcount wp = n -> has_values n r g ->
  match acc with Some l => has_values n l f | None => forall i, 0 <= i < n -> f i = fl_zero end ->
  exists vb, pip_value_bundle_add_vv pds acc (Some r) (Some wp) = Some (Some vb) /\
    has_values n vb (fun i => row_value (f i) (g i) (present wp i)).
Proof.
  intros Hok Hw [Hrw Hr] Hl. pose proof Hok as [Hn _]. unfold pip_value_bundle_add_vv.
  set (vl := match acc with Some l => l | None => pip_value_bundle_alloc pds None (vb_worldcount r) 0 end).
  assert (Hvl : has_values n vl f).
  { unfold vl. destruct acc as [l|]; [done|]. split; [done|]. intros i Hi. unfold PIP_VB_VAL. cbn [vb_val pip_value_bundle_alloc].
    rewrite (at_index_nth _ _ fl_zero) by (rewrite length_replicate; lia). rewrite Hl by done. f_equal.
    apply nth_lookup_Some, lookup_replicate. split; [done|lia]. }
  destruct Hvl as [Hvw Hv].
  assert (exists vb, UPDATE_FUNC pds (fun i =>
    b ← (b ← world_bit wp i; Some (negb (b =? 0)));
    x ← PIP_VB_VAL vl i;
    if (b : bool) then r ← Some r; y ← PIP_VB_VAL r i; Some (fl_add x y) else Some x) (vb_worldcount vl) = Some vb /\
    has_values n vb (fun i => row_value (f i) (g i) (present wp i))) as (vb & Hvb & Hspec).
  { rewrite Hvw. apply UPDATE_spec; [lia|]. intros i Hi. rewrite world_bit_present by (done || lia). cbn [mbind option_bind].
    rewrite b2z_nonzero, Hv by done. cbn [mbind option_bind]. unfold row_value. destruct (present wp i); [|done].
    by rewrite Hr. }
  exists vb. split; [|exact Hspec]. destruct acc as [l|]; by rewrite Hvb.
Qed.

(** ** Expectation *)

Lemma expect_spec vb n (f : Z -> F) : 0 < n -> has_values n vb f ->
  pip_value_bundle_expect vb None None = Some (fl_div (foldl fl_add fl_zero (map f (range 0 n))) (fl_of_Z n)).
Proof.
  intros Hn [Hw Hv]. unfold pip_value_bundle_expect. cbn [default]. rewrite Hw.
  destruct (loop_invariant (fun k '(result, cnt) => result = foldl fl_add fl_zero (map f (range 0 k)) /\ cnt = k) 0 n
    (fun i '(result, cnt) => b ← Some true;
      if (b : bool) then x ← PIP_VB_VAL vb i; Some (fl_add result x, cnt + 1) else Some (result, cnt)) (fl_zero, 0))
    as ([result cnt] & Hloop & -> & ->); [lia|done| |].
  - intros i [result cnt] Hi [-> ->]. cbn [mbind option_bind]. rewrite Hv by done. cbn [mbind option_bind].
    eexists. split; [done|]. split; [|done]. rewrite range_snoc by lia. by rewrite map_app, foldl_app.
  - cbn [mbind option_bind] in *. rewrite Hloop. cbn [mbind option_bind]. rewrite Z.sub_0_r.
    by rewrite (proj2 (Z.gtb_lt _ _)) by lia.
Qed.

(** ** The sample-first pipeline *)

(** The presence of a row that starts in all worlds and is filtered by comparisons. *)
Definition filtered (n : Z) (cs : list (pip_value_bundle F * pip_value_bundle F)) : option pip_world_presence :=
  foldl (fun wp '(l, r) => wp ← wp; pip_value_bundle_cmp_vv wp l r) (pip_world_presence_create n) cs.

(** The sum aggregate over rows with a value and a presence. *)
Definition summed pds (rows : list (pip_value_bundle F * pip_world_presence)) : option (option (pip_value_bundle F)) :=
  foldl (fun acc '(vb, wp) => acc ← acc; pip_value_bundle_add_vv pds acc (Some vb) (Some wp)) (Some None) rows.

Lemma filtered_spec n cs (vals : list ((Z -> F) * (Z -> F))) :
  0 <= n -> Forall2 (fun c v => has_values n (fst c) (fst v) /\ has_values n (snd c) (snd v)) cs vals ->
  exists wp, filtered n cs = Some wp /\ wp_ok wp /\ worldcount wp = n /\
    forall i, 0 <= i < n -> present wp i = forallb (fun '(f, g) => negb (fl_le (f i) (g i))) vals.
Proof.
  intros Hn. revert cs vals. apply Forall2_snoc_ind; [|intros [l r] [f g] cs vals [Hl Hr] HF IH].
  - destruct (present_create n Hn) as (wp & ? & ? & ? & ?). by exists wp.
  - destruct IH as (wp & Hwp & Hok & Hw & Hp). unfold filtered in *. rewrite foldl_app, Hwp. cbn [foldl mbind option_bind].
    cbn [fst snd] in *. destruct Hl as [_ Hl], Hr as [_ Hr].
    destruct (CMP_spec wp (PIP_VB_VAL l) (PIP_VB_VAL r) f g Hok) as (wp' & Hc & Hok' & Hw' & Hp').
    { intros i Hi. rewrite Hw in Hi. by rewrite Hl, Hr. }
    exists wp'. split_and!; [exact Hc|by destruct Hok'..|congruence|]. intros i Hi. rewrite Hp' by lia. rewrite Hp by done.
    rewrite forallb_app. cbn [forallb]. by rewrite andb_true_r.
Qed.

(** One row more. *)
Definition row_step (i : Z) (x : F) (row : (Z -> F) * pip_world_presence) : F := row_value x (fst row i) (present (snd row) i).

Lemma summed_spec pds n rows (vals : list (Z -> F)) : rows <> [] ->
  Forall2 (fun row f => has_values n (fst row) f /\ wp_ok (snd row) /\ worldcount (snd row) = n) rows vals ->
  exists vb, summed pds rows = Some (Some vb) /\
    has_values n vb (fun i => foldl (row_step i) fl_zero (zip vals (map snd rows))).
Proof.
  intros Hne HF. assert (Hgo : exists acc, summed pds rows = Some acc /\
    (rows <> [] -> acc <> None) /\
    let f := fun i => foldl (row_step i) fl_zero (zip vals (map snd rows)) in
    match acc with Some l => has_values n l f | None => forall i, 0 <= i < n -> f i = fl_zero end).
  { clear Hne. revert rows vals HF. apply Forall2_snoc_ind; [|intros [vb wp] f rows vals (Hv & Hok & Hw) HF IH].
    - by exists None.
    - destruct IH as (acc & Hacc & _ & Hspec). unfold summed in *. rewrite foldl_app, Hacc. cbn [foldl mbind option_bind].
      cbn [fst snd] in *. destruct (add_vv_spec pds acc vb wp n _ f Hok Hw Hv Hspec) as (vb' & -> & Hv' & Hval).
      exists (Some vb'). split; [done|]. split; [done|]. split; [done|]. intros i Hi. rewrite Hval by done. f_equal.
      rewrite map_app, zip_with_app by (rewrite length_map; symmetry; by eapply Forall2_length).
      by rewrite foldl_app. }
  destruct Hgo as ([vb|] & Hacc & Hnn & Hspec); [by exists vb|by destruct Hnn].
Qed.
End Values.
