(* ===== verification/PipSample.v ===== *)
(** * PipSample: sample sets, tallies and integration by sampling
    ([type/sample_set.c], [type/conf_tally.c], [sample/integration.c],
    [funcs/integration.c])

    A sample set keeps values of chosen variables in a number of samples; any other
    variable has the value that its name and the seed of the sample determine. *)
From S2P Require Import Prelude.
From S2P Require Import PipVar.
From S2P Require Import PipEqn.
From S2P Require Import PipBundle.
From S2P Require Import PipRep.
From S2P Require Import PipCompose.

Open Scope Z_scope.

(** ** Data *)

Record pip_var_id := mk_vid { vid_variable : Z; vid_group : Z }.

Record pip_sample_mapping (F : Type) := mk_mapping { map_var : pip_var_id; map_val : list F }.
Arguments mk_mapping {F}.
Arguments map_var {F}.
Arguments map_val {F}.

Record pip_sample_set (F : Type) := mk_set {
  sample_cnt : Z;
  var_cnt : Z;
  ssid : Z;
  set_seed : Z;
  mappings : list (pip_sample_mapping F) }.
Arguments mk_set {F}.
Arguments sample_cnt {F}.
Arguments var_cnt {F}.
Arguments ssid {F}.
Arguments set_seed {F}.
Arguments mappings {F}.

Record pip_conf_tally_group := mk_group { group_ssid : Z; group_samples : Z }.
Record pip_conf_tally := mk_tally { TALLY_GROUP : list pip_conf_tally_group; tally_samples : Z; TALLY_COUNT : list Z }.

Definition vid {F} (v : pip_var F) : pip_var_id := mk_vid (variable v) (group v).
Definition vid_eq (a b : pip_var_id) : bool := (vid_group a =? vid_group b) && (vid_variable a =? vid_variable b).

Section Samples.
Context {F : Type} `{Float8 F}.
Context (pip_distributions : list (pip_functable_entry F)).
Implicit Types (set : pip_sample_set F).

(** ** Sample sets *)

(** The names are not initialised; [garbage] is what the allocator left there. *)
Definition pip_sample_set_create (garbage : Z -> pip_var_id) (pip_global_ssid random sample_count var_count : Z)
    : pip_sample_set F * Z :=
  (mk_set sample_count var_count pip_global_ssid random
     (map (fun i => mk_mapping (garbage i) (replicate (Z.to_nat sample_count) fl_nan)) (range 0 var_count)),
   pip_global_ssid + 1).

Definition SAMPLE_SET_ENTRY set (id : Z) : option (pip_sample_mapping F) := at_index (mappings set) id.

Definition update_entry set (id : Z) (f : pip_sample_mapping F -> option (pip_sample_mapping F)) : option (pip_sample_set F) :=
  m ← SAMPLE_SET_ENTRY set id;
  m ← f m;
  l ← store_at (mappings set) id m;
  Some (mk_set (sample_cnt set) (var_cnt set) (ssid set) (set_seed set) l).

Fixpoint find_id (l : list (pip_sample_mapping F)) (var : pip_var_id) (i : Z) : Z :=
  match l with
  | [] => -1
  | m :: l => if vid_eq (map_var m) var then i else find_id l var (i + 1)
  end.
Definition pip_sample_var_to_id set (var : pip_var_id) : Z := find_id (mappings set) var 0.

Definition pip_sample_name_set set (var : Z) (name : pip_var_id) : option (pip_sample_set F) :=
  update_entry set var (fun m => Some (mk_mapping name (map_val m))).
Definition pip_sample_name_get set (var : Z) : option pip_var_id := m ← SAMPLE_SET_ENTRY set var; Some (map_var m).
Definition pip_sample_name_is set (var : Z) (name : pip_var_id) : option bool :=
  m ← SAMPLE_SET_ENTRY set var; Some (vid_eq (map_var m) name).
Definition pip_sample_val_set_by_id set (var sample : Z) (val : F) : option (pip_sample_set F) :=
  update_entry set var (fun m => l ← store_at (map_val m) sample val; Some (mk_mapping (map_var m) l)).
Definition pip_sample_val_get_by_id set (var sample : Z) : option F :=
  m ← SAMPLE_SET_ENTRY set var; at_index (map_val m) sample.

Definition pip_sample_val_set set (var : pip_var_id) (sample : Z) (val : F) : option (pip_sample_set F) :=
  let id := pip_sample_var_to_id set var in
  if 0 <=? id then pip_sample_val_set_by_id set id sample val else Some set.
Definition pip_sample_val_get set (var : pip_var_id) (sample : Z) : option F :=
  let id := pip_sample_var_to_id set var in
  if 0 <=? id then pip_sample_val_get_by_id set id sample else Some fl_nan.

Definition pip_sample_seed set (sample : Z) : Z := pip_prng_step (Z.lxor (set_seed set) (pip_prng_step sample)).

(** The seed passes through an [int]. *)
Definition pip_sample_var_val set (sample : Z) (v : pip_var F) : option F :=
  val ← pip_sample_val_get set (vid v) sample;
  if isnan val then Some (pip_var_gen_w_name_and_seed pip_distributions v (int32 (pip_sample_seed set sample)))
  else Some val.

(** [pip_eqn_evaluate_sample] and [pip_atom_evaluate_sample] evaluate with this.  An
    index out of range is taken as an error, even if no variable is read. *)
Definition sample_val set (sample : Z) (v : pip_var F) : F := default fl_nan (pip_sample_var_val set sample v).
Definition in_range set (sample : Z) : bool :=
  (0 <=? sample) && forallb (fun m => sample <? Z.of_nat (length (map_val m))) (mappings set).
Definition pip_eqn_evaluate_sample (e : pip_eqn F) set (sample : Z) : option F :=
  if in_range set sample then pip_eqn_evaluate (sample_val set sample) e else None.
Definition pip_atom_evaluate_sample (a : pip_atom F) set (sample : Z) : option bool :=
  if in_range set sample then pip_atom_evaluate (sample_val set sample) a else None.

Definition pip_sample_test_clause set (sample : Z) (clause : list (pip_atom F)) : option bool :=
  for_all clause (fun a => pip_atom_evaluate_sample a set sample).

(** Both aggregates evaluate with the seed of the sample, not with the set. *)
Definition vector_step (better : F -> F -> F) (e : pip_eqn F) (clause : list (pip_atom F)) (i : Z) set
    : option (pip_sample_set F) :=
  let seed := pip_sample_seed set i in
  ok ← for_all clause (pip_atom_evaluate_seed pip_distributions seed);
  old ← pip_sample_val_get_by_id set 0 i;
  if (ok : bool) then
    val ← pip_eqn_evaluate_seed pip_distributions seed e;
    pip_sample_val_set_by_id set 0 i (if isnan old then val else better old val)
  else if isnan old then pip_sample_val_set_by_id set 0 i fl_zero
  else Some set.
Definition pip_sample_set_vector_max (e : pip_eqn F) set (clause : list (pip_atom F)) : option (pip_sample_set F) :=
  loop 0 (sample_cnt set) (vector_step (fun old val => if fl_gt val old then val else old) e clause) set.
Definition pip_sample_set_vector_sum (e : pip_eqn F) set (clause : list (pip_atom F)) : option (pip_sample_set F) :=
  loop 0 (sample_cnt set) (vector_step fl_add e clause) set.

Definition pip_sample_set_expect set : option F :=
  r ← loop 0 (sample_cnt set) (fun i r => x ← pip_sample_val_get_by_id set 0 i; Some (fl_add r x)) fl_zero;
  Some (fl_div r (fl_of_Z (sample_cnt set))).

(** ** Tallies *)

Definition pip_conf_tally_create (sample_count group_count : Z) : pip_conf_tally :=
  mk_tally (replicate (Z.to_nat group_count) (mk_group 0 0)) sample_count (replicate (Z.to_nat sample_count) 0).

Definition pip_conf_tally_addgroup (old : pip_conf_tally) (ssid group_count : Z) : pip_conf_tally :=
  mk_tally (TALLY_GROUP old ++ [mk_group ssid group_count]) (tally_samples old + group_count)
    (TALLY_COUNT old ++ replicate (Z.to_nat group_count) 0).

(** The position of a sample among the counts. *)
Fixpoint tally_position (groups : list pip_conf_tally_group) (ssid curr_id : Z) : option Z :=
  match groups with
  | [] => None
  | g :: groups => if group_ssid g =? ssid then Some curr_id else tally_position groups ssid (curr_id + group_samples g)
  end.

(** The boolean is the result; storing out of range is an error. *)
Definition pip_conf_tally_up (t : pip_conf_tally) (ssid sample_id : Z) : option (bool * pip_conf_tally) :=
  match tally_position (TALLY_GROUP t) ssid sample_id with
  | None => Some (false, t)
  | Some i =>
      c ← at_index (TALLY_COUNT t) i;
      l ← store_at (TALLY_COUNT t) i (int32 (c + 1));
      Some (true, mk_tally (TALLY_GROUP t) (tally_samples t) l)
  end.

(** A zero count is reported with [elog(ERROR)]. *)
Definition pip_conf_tally_compute_result (t : pip_conf_tally) : option F :=
  accum ← loop 0 (tally_samples t) (fun i accum =>
    c ← at_index (TALLY_COUNT t) i;
    if c =? 0 then None else Some (fl_add accum (fl_div fl_one (fl_of_Z c)))) fl_zero;
  Some (fl_div accum (fl_of_Z (tally_samples t))).

(** The aggregate [pip_atom_conf_sample_g] for one row. *)
Definition pip_atom_conf_sample_g (t : pip_conf_tally) (clause : list (pip_atom F)) (samples : pip_sample_set F)
    : option pip_conf_tally :=
  loop 0 (sample_cnt samples) (fun i t =>
    ok ← pip_sample_test_clause samples i clause;
    if (ok : bool) then
      '(found, t') ← pip_conf_tally_up t (ssid samples) i;
      if (found : bool) then Some t'
      else
        '(_, t) ← pip_conf_tally_up (pip_conf_tally_addgroup t (ssid samples) (sample_cnt samples)) (ssid samples) i;
        Some t
    else Some t) t.

(** ** Integration *)

(** Whether a draw is counted; [constraints] are inverted atoms. *)
Definition counted (clause : list (pip_atom F)) (constraints : option (pip_atomset F)) (seed : Z) : option bool :=
  ok ← for_all clause (pip_atom_evaluate_seed pip_distributions seed);
  if (ok : bool) then
    match constraints with
    | Some c => if 0 <? count c then pip_atomset_unsatisfied_seed pip_distributions seed c else Some true
    | None => Some true
    end
  else Some false.

(** [random k] is the [k]-th value of [random()]. *)
Definition pip_integrate_by_sampling (random : nat -> Z) (clause : list (pip_atom F)) (num_samples : Z)
    (constraints : option (pip_atomset F)) : option F :=
  cnt ← loop 0 num_samples (fun i cnt =>
    b ← counted clause constraints (random (Z.to_nat i)); Some (if (b : bool) then cnt + 1 else cnt)) 0;
  Some (fl_div (fl_of_Z cnt) (fl_of_Z num_samples)).

Definition pip_compute_expectation_conditionless (random : nat -> Z) (e : pip_eqn F) (samples : Z) : option F :=
  val ← loop 0 samples (fun i val =>
    x ← pip_eqn_evaluate_seed pip_distributions (random (Z.to_nat i)) e; Some (fl_add val x)) fl_zero;
  Some (fl_div val (fl_of_Z samples)).
End Samples.

(** ** Samples, tallies and estimates *)

Open Scope Z_scope.

(** ** Integration by sampling *)

Section Sampling.
Context {F : Type} `{Float8 F}.
Context (pip_distributions : list (pip_functable_entry F)).

(** Constraints hold when none of their atoms does, and when there are none. *)
Definition none_holds (val : pip_var F -> F) (atoms : list (pip_atom F)) : bool :=
  forallb (fun a => negb (bool_decide (pip_atom_evaluate val a = Some true))) atoms.

Definition set_ok (s : pip_atomset F) : Prop :=
  count s = Z.of_nat (length (set_data s)) /\ Forall valid_atom (set_data s).

Lemma int32_id (z : Z) : - 2 ^ 31 <= z < 2 ^ 31 -> int32 z = z.
Proof. intros Hz. unfold int32. rewrite Z.mod_small by lia. lia. Qed.

(** Walking the atoms by their index is walking the list. *)
Lemma for_all_index {A} (l : list A) (p : A -> option bool) :
  for_all (seq 0 (length l)) (fun i => a ← l !! i; p a) = for_all l p.
Proof.
  induction l as [|a l IH] using rev_ind; [done|]. rewrite length_app. cbn [length]. rewrite Nat.add_1_r, seq_S.
  assert (Happ : forall B (f : B -> option bool) l1 l2,
    for_all (l1 ++ l2) f = (b ← for_all l1 f; if (b : bool) then for_all l2 f else Some false)).
  { clear. intros B f l1 l2. induction l1 as [|x l1 IH]; [by cbn; destruct (for_all l2 f)|]. cbn [app for_all].
    destruct (f x) as [[|]|]; [exact IH|done|done]. }
  rewrite !Happ. assert (Hpre : for_all (seq 0 (length l)) (fun i => a0 ← (l ++ [a]) !! i; p a0) = for_all l p).
  { rewrite <- IH. assert (Hext : forall (q r : nat -> option bool) l0, (forall i, i ∈ l0 -> q i = r i) -> for_all l0 q = for_all l0 r).
    { clear. intros q r l0 Hqr. induction l0 as [|x l0 IH]; [done|]. cbn [for_all]. rewrite Hqr by set_solver.
      destruct (r x) as [[|]|]; [|done|done]. apply IH. set_solver. }
    apply Hext. intros i Hi%elem_of_seq. by rewrite lookup_app_l by lia. }
  rewrite Hpre. destruct (for_all l p) as [[|]|]; [|done|done]. cbn [mbind option_bind for_all Nat.add].
  rewrite lookup_app_r by lia. by rewrite Nat.sub_diag.
Qed.

Lemma atomset_satisfied_spec seed s : set_ok s -> - 2 ^ 31 <= seed < 2 ^ 31 ->
  pip_atomset_satisfied_seed pip_distributions seed s = Some (all_hold (seed_val pip_distributions seed) (set_data s)).
Proof.
  intros [Hc HF] Hs. unfold pip_atomset_satisfied_seed. rewrite Hc, Nat2Z.id, int32_id by done. rewrite for_all_index.
  by apply for_all_hold.
Qed.

Lemma atomset_unsatisfied_spec seed s : set_ok s -> - 2 ^ 31 <= seed < 2 ^ 31 ->
  pip_atomset_unsatisfied_seed pip_distributions seed s = Some (none_holds (seed_val pip_distributions seed) (set_data s)).
Proof.
  intros [Hc HF] Hs. unfold pip_atomset_unsatisfied_seed. rewrite Hc, Nat2Z.id, int32_id by done.
  rewrite (for_all_index (set_data s) (fun a => b ← pip_atom_evaluate_seed pip_distributions seed a; Some (negb b))).
  apply for_all_spec. intros a Ha. assert (Hv : valid_atom a) by by apply (proj1 (Forall_forall _ _) HF).
  unfold pip_atom_evaluate_seed. rewrite (valid_atom_evaluate _ a Hv) at 1. done.
Qed.

(** The constraints of a conditioned probability. *)
Definition constrained (val : pip_var F -> F) (constraints : option (pip_atomset F)) : bool :=
  match constraints with Some s => none_holds val (set_data s) | None => true end.

Lemma counted_spec clause constraints seed :
  Forall valid_atom clause -> (forall s, constraints = Some s -> set_ok s) -> 0 <= seed < 2 ^ 31 ->
  counted pip_distributions clause constraints seed =
    Some (all_hold (seed_val pip_distributions seed) clause && constrained (seed_val pip_distributions seed) constraints).
Proof.
  intros HF Hs Hr. unfold counted, pip_atom_evaluate_seed. rewrite (for_all_hold (seed_val pip_distributions seed)) by done. cbn [mbind option_bind].
  destruct (all_hold _ clause); [|done]. destruct constraints as [s|]; [|done]. specialize (Hs s eq_refl).
  destruct (Z.ltb_spec 0 (count s)) as [Hlt|Hge].
  - rewrite atomset_unsatisfied_spec by (done || lia). done.
  - destruct Hs as [Hc _]. assert (set_data s = []) as Hnil by (destruct (set_data s); [done|simpl in Hc; lia]).
    cbn [constrained]. by rewrite Hnil.
Qed.

(** Draws that are counted. *)
Definition hits (random : nat -> Z) (clause : list (pip_atom F)) (constraints : option (pip_atomset F)) (n : Z) : list Z :=
  filter (fun i => let val := seed_val pip_distributions (random (Z.to_nat i)) in
    all_hold val clause && constrained val constraints = true) (range 0 n).

Lemma integrate_by_sampling_spec random clause n constraints :
  0 <= n -> (forall k, 0 <= random k < 2 ^ 31) -> Forall valid_atom clause ->
  (forall s, constraints = Some s -> set_ok s) ->
  pip_integrate_by_sampling pip_distributions random clause n constraints =
    Some (fl_div (fl_of_Z (Z.of_nat (length (hits random clause constraints n)))) (fl_of_Z n)).
Proof.
  intros Hn Hr HF Hs. unfold pip_integrate_by_sampling.
  destruct (loop_invariant (fun k cnt => cnt = Z.of_nat (length (hits random clause constraints k))) 0 n
    (fun i cnt => b ← counted pip_distributions clause constraints (random (Z.to_nat i));
      Some (if (b : bool) then cnt + 1 else cnt)) 0) as (cnt & -> & ->); [done|done| |done].
  intros i cnt Hi ->. rewrite counted_spec by done. eexists. split; [done|]. unfold hits. rewrite range_snoc by lia.
  rewrite filter_app, length_app, filter_cons, filter_nil. cbn zeta.
  destruct (_ && _); [rewrite decide_True by done|rewrite decide_False by done]; simpl; lia.
Qed.

Lemma expectation_conditionless_spec random e t n : 0 <= n -> eqn_ok e t ->
  pip_compute_expectation_conditionless pip_distributions random e n =
    Some (fl_div (foldl fl_add fl_zero (map (fun i => value (seed_val pip_distributions (random (Z.to_nat i))) t) (range 0 n)))
      (fl_of_Z n)).
Proof.
  intros Hn He. unfold pip_compute_expectation_conditionless.
  destruct (loop_invariant (fun k v => v = foldl fl_add fl_zero
      (map (fun i => value (seed_val pip_distributions (random (Z.to_nat i))) t) (range 0 k))) 0 n
    (fun i val => x ← pip_eqn_evaluate_seed pip_distributions (random (Z.to_nat i)) e; Some (fl_add val x)) fl_zero)
    as (cnt & -> & ->); [done|done| |done].
  intros i v Hi ->. unfold pip_eqn_evaluate_seed. rewrite (evaluate_spec _ _ _ He). eexists. split; [done|].
  rewrite range_snoc by lia. by rewrite map_app, foldl_app.
Qed.
End Sampling.

(** ** Sample sets *)

Lemma at_index_insert {A} (l : list A) (i j : Z) x : 0 <= i < Z.of_nat (length l) -> 
  at_index (<[Z.to_nat i := x]> l) j = if decide (j = i) then Some x else at_index l j.
Proof.
  intros Hi. unfold at_index. case_decide as Hd.
  - subst j. rewrite (proj2 (Z.ltb_ge _ _)) by lia. apply list_lookup_insert_eq. lia.
  - destruct (Z.ltb_spec j 0); [done|]. apply list_lookup_insert_ne. lia.
Qed.

Lemma at_index_Some {A} (l : list A) i x : at_index l i = Some x -> 0 <= i < Z.of_nat (length l).
Proof.
  unfold at_index. destruct (Z.ltb_spec i 0); [done|]. intros Hl%lookup_lt_Some. lia.
Qed.

Section Sets.
Context {F : Type} `{Float8 F}.
Implicit Types (set : pip_sample_set F).

Lemma sample_read_write set id s old x : pip_sample_val_get_by_id set id s = Some old ->
  exists set', pip_sample_val_set_by_id set id s x = Some set' /\
    forall id' s', pip_sample_val_get_by_id set' id' s' =
      if decide (id' = id /\ s' = s) then Some x else pip_sample_val_get_by_id set id' s'.
Proof.
  unfold pip_sample_val_get_by_id, pip_sample_val_set_by_id, update_entry, SAMPLE_SET_ENTRY. intros Hold.
  destruct (at_index (mappings set) id) as [m|] eqn:Em; [|done]. cbn [mbind option_bind] in *.
  pose proof (at_index_Some _ _ _ Em). pose proof (at_index_Some _ _ _ Hold).
  rewrite !store_at_Some by done. cbn [mbind option_bind]. rewrite store_at_Some by done. cbn [mbind option_bind].
  eexists. split; [done|]. intros id' s'. cbn [mappings]. rewrite at_index_insert by done.
  destruct (decide (id' = id)) as [->|Hne].
  - rewrite Em. cbn [mbind option_bind map_val]. rewrite at_index_insert by done.
    destruct (decide (s' = s)) as [->|Hs]; [by rewrite decide_True|]. rewrite decide_False by tauto. done.
  - rewrite decide_False by tauto. done.
Qed.

(** Finding the entry of a variable. *)
Lemma find_id_spec (l : list (pip_sample_mapping F)) v i : 0 <= i ->
  (find_id l v i = -1 /\ Forall (fun m => vid_eq (map_var m) v = false) l) \/
  (exists k m, find_id l v i = i + Z.of_nat k /\ l !! k = Some m /\ vid_eq (map_var m) v = true).
Proof.
  revert i. induction l as [|m l IH]; intros i Hi; [by left|]. cbn [find_id]. destruct (vid_eq (map_var m) v) eqn:E.
  - right. exists 0%nat, m. split_and!; [lia|done|done].
  - destruct (IH (i + 1) ltac:(lia)) as [[-> HF]|(k & m' & -> & Hk & Hv)]; [left; by split; [|constructor]|].
    right. exists (S k), m'. split_and!; [lia|done|done].
Qed.
End Sets.

(** ** Tallies *)

(** The count of a sample of a set; 0 when the set has no group. *)
Definition tally_of (t : pip_conf_tally) (s i : Z) : Z :=
  match tally_position (TALLY_GROUP t) s i with Some p => nth (Z.to_nat p) (TALLY_COUNT t) 0 | None => 0 end.

Definition groups_size (l : list pip_conf_tally_group) : Z := foldr (fun g n => group_samples g + n) 0 l.

(** The group sizes add up to the number of counts, a set has the size [n s]. *)
Definition tally_ok (n : Z -> Z) (t : pip_conf_tally) : Prop :=
  Forall (fun g => 0 <= group_samples g /\ group_samples g = n (group_ssid g)) (TALLY_GROUP t) /\
  Z.of_nat (length (TALLY_COUNT t)) = groups_size (TALLY_GROUP t) /\ tally_samples t = groups_size (TALLY_GROUP t).

Lemma groups_size_nonneg n l : Forall (fun g => 0 <= group_samples g /\ group_samples g = n (group_ssid g)) l -> 0 <= groups_size l.
Proof. induction 1 as [|g l [Hg _] HF IH]; [done|]. change (groups_size (g :: l)) with (group_samples g + groups_size l). lia. Qed.

(** Positions of different samples are different. *)
Lemma tally_position_spec n l s c : Forall (fun g => 0 <= group_samples g /\ group_samples g = n (group_ssid g)) l ->
  (tally_position l s c = None /\ Forall (fun g => group_ssid g <> s) l) \/
  (exists o, (forall i, tally_position l s i = Some (o + i)) /\ 0 <= o /\ o + n s <= groups_size l /\ 0 <= n s).
Proof.
  intros HF. revert c. induction HF as [|g l [Hg Hn] HF IH]; intros c; [by left|].
  change (groups_size (g :: l)) with (group_samples g + groups_size l). pose proof (groups_size_nonneg n l HF).
  cbn [tally_position]. destruct (Z.eqb_spec (group_ssid g) s) as [<-|Hne].
  - right. exists 0. split_and!; [done|done|lia|lia].
  - destruct (IH (c + group_samples g)) as [[-> HF']|(o & Ho & H1 & H2 & H3)]; [left; by split; [|constructor]|].
    right. exists (group_samples g + o). split_and!; [|lia|lia|lia]. intros i. rewrite Ho. f_equal. lia.
Qed.

Lemma tally_position_disjoint n l s1 s2 o1 o2 i1 i2 :
  Forall (fun g => 0 <= group_samples g /\ group_samples g = n (group_ssid g)) l ->
  (forall i, tally_position l s1 i = Some (o1 + i)) -> (forall i, tally_position l s2 i = Some (o2 + i)) ->
  0 <= i1 < n s1 -> 0 <= i2 < n s2 -> o1 + i1 = o2 + i2 -> s1 = s2 /\ i1 = i2.
Proof.
  intros HF. revert o1 o2. induction HF as [|g l [Hg Hn] HF IH]; intros o1 o2 H1 H2 Hi1 Hi2 Heq; [by specialize (H1 0)|].
  cbn [tally_position] in *.
  assert (Hlater : forall s o, (forall i, tally_position l s (i + group_samples g) = Some (o + i)) -> group_samples g <= o).
  { intros s o Ho. destruct (tally_position_spec n l s (0 + group_samples g) HF) as [[Hno _]|(o' & Ho' & ? & _)].
    - specialize (Ho 0). congruence.
    - specialize (Ho 0). rewrite Ho' in Ho. injection Ho. lia. }
  destruct (Z.eqb_spec (group_ssid g) s1) as [<-|Hne1], (Z.eqb_spec (group_ssid g) s2) as [<-|Hne2].
  - specialize (H1 0). specialize (H2 0). injection H1. injection H2. intros. split; [done|lia].
  - specialize (H1 0). injection H1 as H1. specialize (Hlater _ _ H2). lia.
  - specialize (H2 0). injection H2 as H2. specialize (Hlater _ _ H1). lia.
  - apply (IH (o1 - group_samples g) (o2 - group_samples g)); [| |done|done|lia].
    + intros i. specialize (H1 (i - group_samples g)). replace (i - group_samples g + group_samples g) with i in H1 by lia.
      rewrite H1. f_equal. lia.
    + intros i. specialize (H2 (i - group_samples g)). replace (i - group_samples g + group_samples g) with i in H2 by lia.
      rewrite H2. f_equal. lia.
Qed.

Lemma tally_of_position t s i o : (forall i, tally_position (TALLY_GROUP t) s i = Some (o + i)) ->
  tally_of t s i = nth (Z.to_nat (o + i)) (TALLY_COUNT t) 0.
Proof. intros Ho. unfold tally_of. by rewrite Ho. Qed.

(** Counting one sample. *)
Lemma tally_up_spec n t s i : tally_ok n t -> 0 <= i < n s -> 0 <= tally_of t s i < 2 ^ 31 - 1 ->
  (Forall (fun g => group_ssid g <> s) (TALLY_GROUP t) /\ pip_conf_tally_up t s i = Some (false, t)) \/
  (exists t', pip_conf_tally_up t s i = Some (true, t') /\ tally_ok n t' /\ TALLY_GROUP t' = TALLY_GROUP t /\
    forall s' i', 0 <= i' < n s' ->
      tally_of t' s' i' = tally_of t s' i' + (if decide (s' = s /\ i' = i) then 1 else 0)).
Proof.
  intros (HF & Hlen & Hs) Hi Hc. unfold pip_conf_tally_up.
  destruct (tally_position_spec n _ s i HF) as [[-> Hno]|(o & Ho & H0 & H1 & H2)]; [by left|right].
  rewrite (tally_of_position t s i o Ho) in Hc. rewrite Ho.
  rewrite (at_index_nth _ _ 0) by lia. cbn [mbind option_bind]. rewrite store_at_Some by lia. cbn [mbind option_bind].
  eexists. split; [done|]. split_and!; [|done|].
  - split_and!; [done| |done]. cbn [TALLY_COUNT TALLY_GROUP]. by rewrite length_insert.
  - intros s' i' Hi'. destruct (tally_position_spec n _ s' i' HF) as [[Hno _]|(o' & Ho' & H3 & H4 & H5)].
    + unfold tally_of. cbn [TALLY_GROUP]. rewrite Hno. rewrite decide_False; [done|]. intros [-> ->]. rewrite Ho in Hno. done.
    + rewrite (tally_of_position t s' i' o' Ho'). rewrite (tally_of_position (mk_tally _ _ _) s' i' o') by exact Ho'.
      cbn [TALLY_COUNT]. rewrite nth_insert by lia. destruct (decide (s' = s /\ i' = i)) as [[-> ->]|Hne].
      * specialize (Ho 0). specialize (Ho' 0). assert (o' = o) as -> by (rewrite Ho in Ho'; injection Ho'; lia).
        rewrite decide_True by done. apply int32_id. lia.
      * rewrite decide_False; [lia|]. intros Heq.
        destruct (tally_position_disjoint n _ s' s o' o i' i HF Ho' Ho Hi' Hi) as [-> ->]; [lia|by destruct Hne].
Qed.

Lemma tally_position_app l g s i :
  tally_position (l ++ [g]) s i =
    match tally_position l s i with
    | Some p => Some p
    | None => if group_ssid g =? s then Some (i + groups_size l) else None
    end.
Proof.
  revert i. induction l as [|h l IH]; intros i.
  - cbn [app tally_position groups_size foldr]. by rewrite Z.add_0_r.
  - cbn [app tally_position]. destruct (group_ssid h =? s); [done|]. rewrite IH.
    change (groups_size (h :: l)) with (group_samples h + groups_size l). by rewrite Z.add_assoc.
Qed.

Lemma groups_size_app l g : groups_size (l ++ [g]) = groups_size l + group_samples g.
Proof.
  induction l as [|h l IH]; [cbn; lia|].
  change (group_samples h + groups_size (l ++ [g]) = group_samples h + groups_size l + group_samples g). lia.
Qed.

(** A new group starts with zero counts. *)
Lemma addgroup_spec n t s : tally_ok n t -> 0 <= n s -> Forall (fun g => group_ssid g <> s) (TALLY_GROUP t) ->
  tally_ok n (pip_conf_tally_addgroup t s (n s)) /\
  (forall s' i, 0 <= i < n s' -> tally_of (pip_conf_tally_addgroup t s (n s)) s' i = tally_of t s' i) /\
  exists p, tally_position (TALLY_GROUP (pip_conf_tally_addgroup t s (n s))) s 0 = Some p.
Proof.
  intros (HF & Hlen & Hs) Hn Hno. assert (Hnone : forall c, tally_position (TALLY_GROUP t) s c = None).
  { clear -Hno. induction Hno as [|g l Hg _ IH]; [done|]. intros c. cbn [tally_position]. by rewrite (proj2 (Z.eqb_neq _ _)). }
  split_and!.
  - split_and!; cbn [TALLY_GROUP TALLY_COUNT tally_samples pip_conf_tally_addgroup].
    + apply Forall_app. split; [done|]. by constructor.
    + rewrite length_app, length_replicate, groups_size_app. cbn [group_samples]. lia.
    + rewrite groups_size_app. cbn [group_samples]. lia.
  - intros s' i Hi. unfold tally_of. cbn [TALLY_GROUP TALLY_COUNT pip_conf_tally_addgroup]. rewrite tally_position_app.
    destruct (tally_position_spec n _ s' i HF) as [[-> Hno']|(o & Ho & H1 & H2 & H3)].
    + cbn [group_ssid]. destruct (Z.eqb_spec s s') as [->|]; [|done].
      rewrite app_nth2 by lia. rewrite nth_lookup. destruct (replicate _ 0 !! _) eqn:E; [|done]. by apply lookup_replicate in E as [-> _].
    + rewrite Ho. rewrite app_nth1 by lia. done.
  - cbn [TALLY_GROUP pip_conf_tally_addgroup]. rewrite tally_position_app, Hnone. cbn [group_ssid]. rewrite Z.eqb_refl. by eexists.
Qed.

(** One more sample of the set is done, and was counted. *)
Lemma tally_advance n t t1 w k (holds : Z -> bool) : holds k = true ->
  (forall s i, 0 <= i < n s ->
    tally_of t1 s i = tally_of t s i + (if decide (s = w /\ i < k /\ holds i = true) then 1 else 0)) ->
  forall t2 t3, (forall s i, 0 <= i < n s -> tally_of t2 s i = tally_of t1 s i) ->
  (forall s i, 0 <= i < n s -> tally_of t3 s i = tally_of t2 s i + (if decide (s = w /\ i = k) then 1 else 0)) ->
  forall s i, 0 <= i < n s ->
    tally_of t3 s i = tally_of t s i + (if decide (s = w /\ i < k + 1 /\ holds i = true) then 1 else 0).
Proof.
  intros Hk Ht1 t2 t3 H12 H23 s i Hi. rewrite H23, H12, Ht1 by done.
  destruct (decide (s = w /\ i = k)) as [[-> ->]|Hne].
  - rewrite decide_False by lia. rewrite decide_True by (split_and!; [done|lia|done]). lia.
  - destruct (decide (s = w /\ i < k + 1 /\ holds i = true)) as [(-> & Hlt & Hh)|Hno].
    + rewrite decide_True; [lia|]. split_and!; [done| |done]. assert (i <> k) by (intros ->; tauto). lia.
    + rewrite decide_False; [lia|]. intros (? & ? & ?). apply Hno. split_and!; [done|lia|done].
Qed.

(** The aggregate: every sample of the set in which the clause holds is counted once. *)
Lemma conf_sample_g_spec {F} `{Float8 F} pds n t clause (set : pip_sample_set F) (holds : Z -> bool) :
  tally_ok n t -> 0 <= sample_cnt set -> n (ssid set) = sample_cnt set ->
  (forall i, 0 <= i < sample_cnt set -> pip_sample_test_clause pds set i clause = Some (holds i)) ->
  (forall i, 0 <= i < sample_cnt set -> 0 <= tally_of t (ssid set) i < 2 ^ 31 - 1) ->
  exists t', pip_atom_conf_sample_g pds t clause set = Some t' /\ tally_ok n t' /\
    forall s i, 0 <= i < n s ->
      tally_of t' s i = tally_of t s i + (if decide (s = ssid set /\ holds i = true) then 1 else 0).
Proof.
  intros Hok Hcnt Hn Htest Hrange. unfold pip_atom_conf_sample_g.
  destruct (loop_invariant (fun k t' => tally_ok n t' /\ forall s i, 0 <= i < n s ->
      tally_of t' s i = tally_of t s i + (if decide (s = ssid set /\ i < k /\ holds i = true) then 1 else 0))
    0 (sample_cnt set) (fun i t =>
      ok ← pip_sample_test_clause pds set i clause;
      if (ok : bool) then
        '(found, t') ← pip_conf_tally_up t (ssid set) i;
        if (found : bool) then Some t'
        else
          '(_, t) ← pip_conf_tally_up (pip_conf_tally_addgroup t (ssid set) (sample_cnt set)) (ssid set) i;
          Some t
      else Some t) t) as (t' & -> & Hok' & Ht'); [done| | |].
  - split; [done|]. intros s i Hi. rewrite decide_False by lia. lia.
  - intros k t1 Hk [Hok1 Ht1]. rewrite Htest by done. cbn [mbind option_bind]. destruct (holds k) eqn:Eh.
    + assert (Hk1 : tally_of t1 (ssid set) k = tally_of t (ssid set) k).
      { rewrite Ht1 by lia. rewrite decide_False by lia. lia. }
      pose proof (tally_advance n t t1 (ssid set) k holds Eh Ht1) as Hgo.
      destruct (tally_up_spec n t1 (ssid set) k Hok1) as [[Hno ->]|(t2 & -> & Hok2 & _ & Ht2)]; [lia|rewrite Hk1; by apply Hrange| |].
      * cbn [mbind option_bind]. rewrite <- Hn. destruct (addgroup_spec n t1 (ssid set) Hok1) as (Hoka & Hta & p & Hp); [lia|done|].
        destruct (tally_up_spec n _ (ssid set) k Hoka) as [[Hno' _]|(t3 & -> & Hok3 & _ & Ht3)];
          [lia|rewrite Hta by lia; rewrite Hk1; by apply Hrange| |].
        -- exfalso. clear -Hno' Hp. revert Hp. generalize 0. induction Hno' as [|g l Hg _ IH]; intros c Hp; [done|].
           cbn [tally_position] in Hp. rewrite (proj2 (Z.eqb_neq _ _)) in Hp by done. by eapply IH.
        -- cbn [mbind option_bind]. exists t3. split; [done|]. split; [done|]. by eapply Hgo.
      * cbn [mbind option_bind]. exists t2. split; [done|]. split; [done|]. by eapply Hgo.
    + exists t1. split; [done|]. split; [done|]. intros s i Hi. rewrite Ht1 by done. f_equal.
      destruct (decide (s = ssid set /\ i < k /\ holds i = true)) as [(-> & Hlt & Hh)|Hno].
      * by rewrite decide_True by (split_and!; [done|lia|done]).
      * rewrite decide_False; [done|]. intros (-> & Hlt & Hh). apply Hno. split_and!; [done| |done].
        assert (i <> k) by (intros ->; congruence). lia.
  - exists t'. split; [done|]. split; [done|]. intros s i Hi. rewrite Ht' by done. f_equal.
    destruct (decide (s = ssid set /\ holds i = true)) as [[-> Hh]|Hno].
    + by rewrite decide_True by (split_and!; [done|lia|done]).
    + rewrite decide_False; [done|]. tauto.
Qed.
