(* ===== verification/PipCset.v ===== *)
(** * PipCset: connected sets and the integration of clauses ([list_utils.c],
    [type/atom.c], [type/eqn.c], [sample/integration.c])

    A connected set keeps its items in a binary tree and partitions them with a
    union-find forest: union by size, path compression unless the set is locked, and a
    list of children per element, over which a group is walked.  Elements are known by
    their address.  The variables of a clause are put into such a set, variables of one
    atom in one group, and the groups are integrated on their own. *)
From S2P Require Import Prelude.
From S2P Require Import PipVar.
From S2P Require Import PipEqn.
From S2P Require Import PipSample.
Open Scope Z_scope.

Definition uint32 (z : Z) : Z := z mod 2 ^ 32.

(** ** Data *)

Inductive sort_tree :=
  | SLeaf
  | SNode (sort_left : sort_tree) (element : nat) (sort_right : sort_tree).

(** The intrusive list of the children is a list of addresses. *)
Record pip_cset_element (A : Type) := mk_element {
  group_root : option nat;
  group_children : list nat;
  group_size : Z;
  item : A }.
Arguments mk_element {A}.
Arguments group_root {A}.
Arguments group_children {A}.
Arguments group_size {A}.
Arguments item {A}.

Abbreviation elements A := (gmap nat (pip_cset_element A)).

Record pip_cset (A : Type) := mk_cset {
  sort_root : sort_tree;
  els : elements A;
  cset_size : Z;
  locked : bool }.
Arguments mk_cset {A}.
Arguments sort_root {A}.
Arguments els {A}.
Arguments cset_size {A}.
Arguments locked {A}.

Definition set_root {A} (r : option nat) (x : pip_cset_element A) := mk_element r (group_children x) (group_size x) (item x).
Definition set_children {A} (l : list nat) (x : pip_cset_element A) := mk_element (group_root x) l (group_size x) (item x).
Definition set_size {A} (n : Z) (x : pip_cset_element A) := mk_element (group_root x) (group_children x) n (item x).

Section Cset.
Context {A : Type} (cmp : A -> A -> Z).
Implicit Types (es : elements A) (set : pip_cset A).

Definition pip_cset_init : pip_cset A := mk_cset SLeaf ∅ 0 false.

(** Applying [f] to the element at [e]. *)
Definition with_element es (e : nat) (f : pip_cset_element A -> pip_cset_element A) : option (elements A) :=
  x ← es !! e; Some (<[e := f x]> es).

(** ** Items *)

(** The inner option says whether the item is in the set. *)
Fixpoint pip_cset_find_node es (t : sort_tree) (i : A) : option (option nat) :=
  match t with
  | SLeaf => Some None
  | SNode l e r =>
      x ← es !! e;
      let c := cmp (item x) i in
      if 0 <? c then pip_cset_find_node es r i
      else if c <? 0 then pip_cset_find_node es l i
      else Some (Some e)
  end.

(** A new leaf where [pip_cset_find_node] ends. *)
Fixpoint insert_node es (t : sort_tree) (i : A) (new : nat) : option sort_tree :=
  match t with
  | SLeaf => Some (SNode SLeaf new SLeaf)
  | SNode l e r =>
      x ← es !! e;
      let c := cmp (item x) i in
      if 0 <? c then r ← insert_node es r i new; Some (SNode l e r)
      else if c <? 0 then l ← insert_node es l i new; Some (SNode l e r)
      else Some t
  end.

(** Elements are never removed, so their number is a fresh address. *)
Definition pip_cset_add set (i : A) : option (bool * pip_cset A) :=
  found ← pip_cset_find_node (els set) (sort_root set) i;
  match found with
  | Some _ => Some (false, set)
  | None =>
      let new := size (els set) in
      t ← insert_node (els set) (sort_root set) i new;
      Some (true, mk_cset t (<[new := mk_element None [] 1 i]> (els set)) (uint32 (cset_size set + 1)) (locked set))
  end.

Definition pip_cset_get set (i : A) : option (option A) :=
  found ← pip_cset_find_node (els set) (sort_root set) i;
  match found with
  | None => Some None
  | Some e => x ← els set !! e; Some (Some (item x))
  end.

Definition pip_cset_test set (i : A) : option bool :=
  found ← pip_cset_find_node (els set) (sort_root set) i;
  Some (match found with None => true | Some _ => false end).

Definition pip_cset_lock set : pip_cset A := mk_cset (sort_root set) (els set) (cset_size set) true.
Definition pip_cset_size set : Z := cset_size set.

(** ** Groups *)

(** [pip_list_remove], [pip_list_append] and the new parent. *)
Definition compress es (e parent root : nat) : option (elements A) :=
  es ← with_element es parent (fun x => set_children (filter (fun c => c <> e) (group_children x)) x);
  es ← with_element es root (fun x => set_children (group_children x ++ [e]) x);
  with_element es e (set_root (Some root)).

Fixpoint pip_cset_find_group_root (fuel : nat) (locked : bool) es (e : nat) : option (nat * elements A) :=
  match fuel with
  | O => None
  | S fuel =>
      x ← es !! e;
      match group_root x with
      | None => Some (e, es)
      | Some parent =>
          '(root, es) ← pip_cset_find_group_root fuel locked es parent;
          if negb locked && negb (root =? parent)%nat then
            es ← compress es e parent root; Some (root, es)
          else Some (root, es)
      end
  end.

Definition find_root (locked : bool) es (e : nat) : option (nat * elements A) :=
  pip_cset_find_group_root (S (size es)) locked es e.

(** Making [child] a child of [root]. *)
Definition attach es (child root : nat) (child_size : Z) : option (elements A) :=
  es ← with_element es child (set_root (Some root));
  es ← with_element es root (fun x => set_children (group_children x ++ [child]) x);
  with_element es root (fun x => set_size (uint32 (group_size x + child_size)) x).

Definition pip_cset_link set (a b : A) : option (pip_cset A) :=
  ea ← pip_cset_find_node (els set) (sort_root set) a;
  eb ← pip_cset_find_node (els set) (sort_root set) b;
  match ea, eb with
  | Some ea, Some eb =>
      if locked set then Some set
      else
        '(ra, es) ← find_root false (els set) ea;
        '(rb, es) ← find_root false es eb;
        if (ra =? rb)%nat then Some (mk_cset (sort_root set) es (cset_size set) (locked set))
        else
          xa ← es !! ra;
          xb ← es !! rb;
          es ← (if group_size xa <? group_size xb then attach es ra rb (group_size xa)
                else attach es rb ra (group_size xb));
          Some (mk_cset (sort_root set) es (cset_size set) (locked set))
  | _, _ => Some set
  end.

(** The paths may be compressed; items that are not in the set are dereferenced. *)
Definition pip_cset_test_link set (a b : A) : option (bool * pip_cset A) :=
  ea ← pip_cset_find_node (els set) (sort_root set) a;
  eb ← pip_cset_find_node (els set) (sort_root set) b;
  ea ← ea; eb ← eb;
  '(ra, es) ← find_root (locked set) (els set) ea;
  '(rb, es) ← find_root (locked set) es eb;
  Some ((ra =? rb)%nat, mk_cset (sort_root set) es (cset_size set) (locked set)).

Definition pip_cset_group_size set (e : nat) : option (Z * pip_cset A) :=
  '(r, es) ← find_root (locked set) (els set) e;
  x ← es !! r;
  Some (group_size x, mk_cset (sort_root set) es (cset_size set) (locked set)).

(** ** Iteration *)

Fixpoint in_order (t : sort_tree) : list nat :=
  match t with SLeaf => [] | SNode l e r => in_order l ++ e :: in_order r end.

(** The iterators stop with an error when [func] fails; iterating over the elements of
    an empty set dereferences the missing root. *)
Section Iterate.
Context {St : Type}.

Definition pip_cset_iterate_elements set (func : A -> St -> option St) (s : St) : option St :=
  match sort_root set with
  | SLeaf => None
  | t => foldl (fun s e => s ← s; x ← els set !! e; func (item x) s) (Some s) (in_order t)
  end.

(** [func] may compress paths on the way. *)
Definition pip_cset_iterate_roots set (func : nat -> St * pip_cset A -> option (St * pip_cset A)) (s : St)
    : option (St * pip_cset A) :=
  foldl (fun s e => '(s, set) ← s; x ← els set !! e;
      match group_root x with None => func e (s, set) | Some _ => Some (s, set) end)
    (Some (s, set)) (in_order (sort_root set)).

Fixpoint pip_cset_group_dfs (fuel : nat) es (func : A -> St -> option St) (curr : nat) (s : St) : option St :=
  match fuel with
  | O => None
  | S fuel =>
      x ← es !! curr;
      s ← func (item x) s;
      foldl (fun s c => s ← s; pip_cset_group_dfs fuel es func c s) (Some s) (group_children x)
  end.

Definition pip_cset_iterate_group set (func : A -> St -> option St) (e : nat) (s : St) : option (St * pip_cset A) :=
  '(r, es) ← find_root (locked set) (els set) e;
  s ← pip_cset_group_dfs (S (size es)) es func r s;
  Some (s, mk_cset (sort_root set) es (cset_size set) (locked set)).
End Iterate.
End Cset.

(** ** The variables of a clause *)

Section Clauses.
Context {F : Type} `{Float8 F}.
Abbreviation vset := (pip_cset (pip_var F)).

(** Linking when both variables exist. *)
Definition link_both (set : vset) (l r : option (pip_var F)) : option vset :=
  match l, r with Some l, Some r => pip_cset_link pip_variable_sort set l r | _, _ => Some set end.
Definition first_of (l r : option (pip_var F)) : option (pip_var F) := match l with Some _ => l | None => r end.

Fixpoint pip_eqn_cmpnt_to_cset (fuel : nat) (m : mem F) (base offset : Z) (set : vset) : option (option (pip_var F) * vset) :=
  match fuel with
  | O => None
  | S fuel =>
      c ← read m (base + offset);
      match c with
      | PIP_EQN_CONST _ | PIP_EQN_SUB _ _ => Some (None, set)
      | PIP_EQN_VAR v => '(_, set) ← pip_cset_add pip_variable_sort set v; Some (Some v, set)
      | PIP_EQN_MULT l r | PIP_EQN_ADD l r =>
          '(lv, set) ← pip_eqn_cmpnt_to_cset fuel m base l set;
          '(rv, set) ← pip_eqn_cmpnt_to_cset fuel m base r set;
          set ← link_both set lv rv;
          Some (first_of lv rv, set)
      | PIP_EQN_NEGA p => pip_eqn_cmpnt_to_cset fuel m base p set
      | PIP_EQN_CNSTRT l r =>
          '(_, pl, pr) ← read_atom m (base + r);
          let data := base + r + sizeof_pip_atom in
          '(lv, set) ← pip_eqn_cmpnt_to_cset fuel m base l set;
          '(rv, set) ← pip_eqn_cmpnt_to_cset fuel m data pr set;
          set ← link_both set lv rv;
          let rv := first_of lv rv in
          '(lv, set) ← pip_eqn_cmpnt_to_cset fuel m data pl set;
          set ← link_both set lv rv;
          Some (first_of lv rv, set)
      end
  end.

(** Without sampling groups the sides are linked even when one has no variable, which
    dereferences a null pointer unless the tree is empty. *)
Definition atom_to_cset (pip_use_sampling_groups : bool) (a : pip_atom F) (set : vset) : option vset :=
  '(lv, set) ← pip_eqn_cmpnt_to_cset (fuel_of (atom_data a)) (atom_data a) 0 (ptr_left a) set;
  '(rv, set) ← pip_eqn_cmpnt_to_cset (fuel_of (atom_data a)) (atom_data a) 0 (ptr_right a) set;
  if pip_use_sampling_groups then link_both set lv rv
  else match lv, rv with
       | Some l, Some r => pip_cset_link pip_variable_sort set l r
       | _, _ => match sort_root set with SLeaf => Some set | _ => None end
       end.

Definition pip_clause_to_cset (pip_use_sampling_groups : bool) (clause : list (pip_atom F)) : option vset :=
  foldl (fun set a => set ← set; atom_to_cset pip_use_sampling_groups a set) (Some pip_cset_init) clause.

(** ** Sorting the atoms of a group *)

Definition swap_atoms (l : list (pip_atom F)) (i j : nat) : option (list (pip_atom F)) :=
  x ← l !! i; y ← l !! j; Some (<[j := x]> (<[i := y]> l)).

(** The loop over the clause from [i] on; the atoms before [complete] are done. *)
Fixpoint gather_loop (n i : nat) (v : pip_var F) (clause : list (pip_atom F)) (complete : nat)
    : option (list (pip_atom F) * nat) :=
  match n with
  | O => Some (clause, complete)
  | S n =>
      a ← clause !! i;
      h ← pip_atom_has_var a v;
      if h =? 0 then gather_loop n (S i) v clause complete
      else
        clause ← (if (i =? complete)%nat then Some clause else swap_atoms clause i complete);
        gather_loop n (S i) v clause (S complete)
  end.

Definition pip_gather_atoms (v : pip_var F) (info : list (pip_atom F) * nat) : option (list (pip_atom F) * nat) :=
  let '(clause, complete) := info in gather_loop (length clause - complete) complete v clause complete.

Definition pip_group_atoms (set : vset) (group : nat) (clause : list (pip_atom F)) (atoms_complete : nat)
    : option (list (pip_atom F) * nat * vset) :=
  pip_cset_iterate_group set pip_gather_atoms group (clause, atoms_complete).

(** ** Integration *)

Context (pip_distributions : list (pip_functable_entry F)) (random : nat -> Z).

(** The state of [pip_compute_prob_group], with the number of draws so far. *)
Record pip_prob_comp_info := mk_info {
  info_clause : list (pip_atom F);
  clause_sorted : nat;
  result : F;
  draws : nat }.

Definition later (k : nat) : nat -> Z := fun i => random (k + i)%nat.

(** [None] for [elog(ERROR)] on an empty group. *)
Definition pip_compute_prob_group (constraints : option (pip_atomset F)) (samples : Z) (group : nat)
    (state : pip_prob_comp_info * vset) : option (pip_prob_comp_info * vset) :=
  let '(info, set) := state in
  let first := clause_sorted info in
  '(clause, sorted, set) ← pip_group_atoms set group (info_clause info) first;
  '(n, set) ← pip_cset_group_size set group;
  let atoms := take (sorted - first) (drop first clause) in
  let sample :=
    x ← pip_integrate_by_sampling pip_distributions (later (draws info)) atoms samples constraints;
    Some (mk_info clause sorted (fl_mul (result info) x) (draws info + Z.to_nat samples), set) in
  if n =? 0 then None
  else if n =? 1 then
    match constraints with
    | Some _ => sample
    | None =>
        x ← els set !! group;
        let v := item x in
        has_cdf ← PVAR_HAS_CDF pip_distributions v;
        if (has_cdf : bool) then
          r ← pip_integrate_by_cdf pip_distributions atoms v;
          if isnan r then sample else Some (mk_info clause sorted (fl_mul (result info) r) (draws info), set)
        else sample
    end
  else sample.

Definition pip_compute_conditioned_probability (constraints : option (pip_atomset F)) (use_groups : bool)
    (clause : list (pip_atom F)) (samples : Z) : option F :=
  vars ← pip_clause_to_cset use_groups clause;
  '(info, _) ← pip_cset_iterate_roots vars (pip_compute_prob_group constraints samples) (mk_info clause 0 fl_one 0);
  Some (result info).

Definition pip_compute_independent_probability : bool -> list (pip_atom F) -> Z -> option F :=
  pip_compute_conditioned_probability None.
End Clauses.
