(* ===== verification/PipSampler.v ===== *)
(** * PipSampler: sampling under constraints ([sample/csampling.c],
    [sample/integration.c])

    The groups of the variables of a clause are sampled one after the other, by
    rejection or, for a single variable, through its inverse distribution function.  The
    state has the number of values of [random] drawn so far.  A write of a name or a
    value past the end of the sample set is an error. *)
From S2P Require Import Prelude.
From S2P Require Import PipVar.
From S2P Require Import PipEqn.
From S2P Require Import PipRep.
From S2P Require Import PipCompose.
From S2P Require Import PipSample.
From S2P Require Import PipBundle.
From S2P Require Import PipCset.
Open Scope Z_scope.

Section Sampler.
Context {F : Type} `{Float8 F}.
Context (pip_distributions : list (pip_functable_entry F)) (random : nat -> Z).

Abbreviation vset := (pip_cset (pip_var F)).

Record pip_sampler_state := mk_sampler {
  sampler_samples : pip_sample_set F;
  curr_sample : Z;
  sampler_clause : list (pip_atom F);
  first_atom : nat;
  last_atom : nat;
  first_var : Z;
  last_var : Z;
  probability : F;
  draws_made : nat }.
Implicit Types (state : pip_sampler_state) (set : vset) (group : nat).

Definition with_samples s state := mk_sampler s (curr_sample state) (sampler_clause state) (first_atom state)
  (last_atom state) (first_var state) (last_var state) (probability state) (draws_made state).
Definition with_curr_sample i state := mk_sampler (sampler_samples state) i (sampler_clause state) (first_atom state)
  (last_atom state) (first_var state) (last_var state) (probability state) (draws_made state).
Definition with_atoms clause first last state := mk_sampler (sampler_samples state) (curr_sample state) clause first last
  (first_var state) (last_var state) (probability state) (draws_made state).
Definition with_vars first last state := mk_sampler (sampler_samples state) (curr_sample state) (sampler_clause state)
  (first_atom state) (last_atom state) first last (probability state) (draws_made state).
Definition with_probability p state := mk_sampler (sampler_samples state) (curr_sample state) (sampler_clause state)
  (first_atom state) (last_atom state) (first_var state) (last_var state) p (draws_made state).
Definition draw_random state : Z * pip_sampler_state := (random (draws_made state),
  mk_sampler (sampler_samples state) (curr_sample state) (sampler_clause state) (first_atom state)
    (last_atom state) (first_var state) (last_var state) (probability state) (S (draws_made state))).

(** The atoms of the group that is sampled. *)
Definition group_clause state : list (pip_atom F) :=
  take (last_atom state - first_atom state) (drop (first_atom state) (sampler_clause state)).

(** [pip_sample_test_clause] on them, for the sample at hand. *)
Definition accepted state : option bool :=
  pip_sample_test_clause pip_distributions (sampler_samples state) (curr_sample state) (group_clause state).

(** ** Sampling by rejection *)

Definition sample_one (var : pip_var F) state : option pip_sampler_state :=
  let '(r, state) := draw_random state in
  s ← pip_sample_val_set_by_id (sampler_samples state) (last_var state) (curr_sample state) (pip_var_gen pip_distributions var r);
  Some (with_vars (first_var state) (last_var state + 1) (with_samples s state)).

(** A candidate for the sample at hand. *)
Definition draw_candidate group (st : pip_sampler_state * vset) : option (pip_sampler_state * vset) :=
  let '(state, set) := st in
  pip_cset_iterate_group set sample_one group (with_vars (first_var state) (first_var state) state).

Definition MAX_TRIALS : Z := 10000000.

(** The [do] loop with the number of trials; after ten million trials in all, the first
    candidate of every sample is taken. *)
Fixpoint rejection_trials (fuel : nat) group (st : pip_sampler_state * vset) (cnt : Z)
    : option (pip_sampler_state * vset * Z) :=
  match fuel with
  | O => None
  | S fuel =>
      '(state, set) ← draw_candidate group st;
      let cnt := int32 (cnt + 1) in
      ok ← accepted state;
      if negb ok && (cnt <? MAX_TRIALS) then rejection_trials fuel group (state, set) cnt
      else Some (state, set, cnt)
  end.

(** The [for] loop, over the rest of the samples. *)
Fixpoint rejection_samples (fuel n : nat) group (st : pip_sampler_state * vset) (cnt : Z)
    : option (pip_sampler_state * vset * Z) :=
  match n with
  | O => Some (st, cnt)
  | S n =>
      '(state, set, cnt) ← rejection_trials fuel group st cnt;
      rejection_samples fuel n group (with_curr_sample (curr_sample state + 1) state, set) cnt
  end.

Definition rejection_sample (fuel : nat) group (st : pip_sampler_state * vset) : option (pip_sampler_state * vset) :=
  let total := sample_cnt (sampler_samples st.1) in
  '(state, set, cnt) ← rejection_samples fuel (Z.to_nat (total - curr_sample st.1)) group st 0;
  Some (if 0 <? total
        then with_probability (fl_mul (probability state) (fl_div (fl_of_Z total) (fl_of_Z cnt))) state
        else state, set).

(** ** Sampling through the inverse distribution function *)

Definition PVAR_HAS_ICDF (v : pip_var F) : option bool :=
  if group v <? pip_distribution_count pip_distributions then
    if group v <? 0 then None
    else e ← pip_distributions !! Z.to_nat (group v); Some (bool_decide (is_Some (dist_icdf e)))
  else Some false.

Definition PVAR_HAS_2WAY_CDF (v : pip_var F) : option bool :=
  b ← PVAR_HAS_CDF pip_distributions v;
  if (b : bool) then PVAR_HAS_ICDF v else Some false.

(** The [do] loop; [None] inside when the value is not a number. *)
Fixpoint cdf_trials (fuel : nat) (var : pip_var F) (low high : F) state (cnt : Z)
    : option (option (pip_sampler_state * Z) * pip_sampler_state) :=
  match fuel with
  | O => None
  | S fuel =>
      let '(r, state) := draw_random state in
      let sample := pip_var_gen_w_range pip_distributions var r low high in
      if isnan sample then Some (None, state)
      else
        s ← pip_sample_val_set (sampler_samples state) (vid var) (curr_sample state) sample;
        let state := with_samples s state in
        let cnt := int32 (cnt + 1) in
        ok ← accepted state;
        if negb ok then cdf_trials fuel var low high state cnt else Some (Some (state, cnt), state)
  end.

Fixpoint cdf_samples (fuel n : nat) (var : pip_var F) (low high : F) state (cnt : Z)
    : option (option (pip_sampler_state * Z) * pip_sampler_state) :=
  match n with
  | O => Some (Some (state, cnt), state)
  | S n =>
      '(r, state) ← cdf_trials fuel var low high state cnt;
      match r with
      | None => Some (None, state)
      | Some (state, cnt) => cdf_samples fuel n var low high (with_curr_sample (curr_sample state + 1) state) cnt
      end
  end.

(** Whether the variable could be sampled in this way. *)
Definition cdf_sample_var (fuel : nat) (var : pip_var F) state : option (bool * pip_sampler_state) :=
  let first_sample := curr_sample state in
  let total := sample_cnt (sampler_samples state) in
  has ← PVAR_HAS_2WAY_CDF var;
  if (has : bool) then
    bounds ← pip_solve_cdf_bounds pip_distributions (group_clause state) var false;
    match bounds with
    | None => Some (false, state)
    | Some (low, high) =>
        '(r, state) ← cdf_samples fuel (Z.to_nat (total - first_sample)) var low high state 0;
        match r with
        | None => Some (false, with_curr_sample first_sample state)
        | Some (state, cnt) =>
            let state := if 0 <? total
              then with_probability (fl_mul (fl_sub high low) (fl_div (fl_of_Z cnt) (fl_of_Z total))) state
              else state in
            Some (true, with_vars (first_var state) (last_var state + 1) state)
        end
    end
  else Some (false, state).

(** ** Groups *)

Definition populate_sample_vars (item : pip_var F) state : option pip_sampler_state :=
  s ← pip_sample_name_set (sampler_samples state) (last_var state) (vid item);
  Some (with_vars (first_var state) (last_var state + 1) (with_samples s state)).

(** [pip_runtime_enable_cdf_sampling] is the flag. *)
Definition sample_lineage_group (fuel : nat) (enable_cdf : bool) group (st : pip_sampler_state * vset)
    : option (pip_sampler_state * vset) :=
  let '(state, set) := st in
  '(clause, last, set) ← pip_group_atoms set group (sampler_clause state) (last_atom state);
  let state := with_atoms clause (last_atom state) last state in
  let state := with_curr_sample 0 (with_vars (last_var state) (last_var state) state) in
  '(state, set) ← pip_cset_iterate_group set populate_sample_vars group state;
  '(n, set) ← pip_cset_group_size set group;
  if (n =? 1) && enable_cdf then
    x ← els set !! group;
    '(done, state) ← cdf_sample_var fuel (item x) state;
    if (done : bool) then Some (state, set) else rejection_sample fuel group (state, set)
  else rejection_sample fuel group (state, set).

(** The sample set, the probability and the number of draws; [None] inside for no
    samples.  [garbage] is what the allocator leaves in the names. *)
Definition pip_sample_by_clause (fuel : nat) (enable_cdf use_groups : bool) (garbage : Z -> pip_var_id) (ssid : Z)
    (clause : list (pip_atom F)) (sample_cnt : Z) : option (option (pip_sample_set F * F * nat)) :=
  if sample_cnt <=? 0 then Some None
  else
    varset ← pip_clause_to_cset use_groups clause;
    let varset := pip_cset_lock varset in
    let state := mk_sampler (pip_sample_set_create garbage ssid (random 0%nat) sample_cnt (pip_cset_size varset)).1
      0 clause 0 0 0 0 fl_one 1 in
    '(state, _) ← pip_cset_iterate_roots varset (sample_lineage_group fuel enable_cdf) state;
    Some (Some (sampler_samples state, probability state, draws_made state)).

(** The expectation of an equation under a clause; without samples the code reads an
    uninitialised probability. *)
Definition pip_compute_expectation (fuel : nat) (enable_cdf use_groups : bool) (garbage : Z -> pip_var_id) (ssid : Z)
    (e : pip_eqn F) (clause : list (pip_atom F)) (samples : Z) : option F :=
  match clause with
  | [] => pip_compute_expectation_conditionless pip_distributions random e samples
  | _ =>
      r ← pip_sample_by_clause fuel enable_cdf use_groups garbage ssid clause (int32 samples);
      '(set, probability, _) ← r;
      val ← loop 0 samples (fun i val => x ← pip_eqn_evaluate_sample pip_distributions e set i; Some (fl_add val x)) fl_zero;
      Some (fl_mul (fl_div val (fl_of_Z samples)) probability)
  end.
End Sampler.

(** ** What a group of samples reads *)

Section Frames.
Context {F : Type} `{Float8 F}.
Implicit Types (s : pip_sample_set F).

(** Two sets that differ at most in the samples of [P]. *)
Record changes (P : Z -> Prop) s s' : Prop := {
  ch_cnt : sample_cnt s' = sample_cnt s;
  ch_seed : set_seed s' = set_seed s;
  ch_vals : Forall2 (fun m m' => map_var m' = map_var m /\ length (map_val m') = length (map_val m) /\
    forall j, ~ P j -> at_index (map_val m') j = at_index (map_val m) j) (mappings s) (mappings s') }.

Lemma changes_refl (P : Z -> Prop) s : changes P s s.
Proof. split; [done..|]. apply Forall_Forall2_diag, Forall_forall. by intros m _. Qed.

Lemma changes_trans (P : Z -> Prop) s1 s2 s3 : changes P s1 s2 -> changes P s2 s3 -> changes P s1 s3.
Proof.
  intros [C1 S1 V1] [C2 S2 V2]. split; [congruence..|]. eapply Forall2_trans; [|exact V1|exact V2].
  intros m1 m2 m3 (N1 & L1 & H1) (N2 & L2 & H2). split_and!; [congruence..|]. intros j Hj. by rewrite H2, H1.
Qed.

Lemma changes_weaken (P Q : Z -> Prop) s s' : (forall j, P j -> Q j) -> changes P s s' -> changes Q s s'.
Proof.
  intros HPQ [C S V]. split; [done..|]. eapply Forall2_impl; [exact V|]. intros m m' (N & L & Hj). split_and!; [done..|].
  intros j Hq. apply Hj. auto.
Qed.

Lemma val_set_changes s s' (id i : Z) (x : F) : pip_sample_val_set_by_id s id i x = Some s' -> changes (eq i) s s'.
Proof.
  unfold pip_sample_val_set_by_id, update_entry, SAMPLE_SET_ENTRY.
  intros (m & Hm & (m' & (l & Hl & [= <-])%bind_Some & (l' & Hl' & [= <-])%bind_Some)%bind_Some)%bind_Some.
  split; [done..|]. cbn [mappings]. unfold store_at in Hl, Hl'. unfold at_index in Hm.
  destruct (id <? 0) eqn:Eid; [done|]. destruct (i <? 0) eqn:Ei; [done|].
  destruct (Z.to_nat id <? length (mappings s))%nat eqn:El'; [|done]. injection Hl' as <-.
  destruct (Z.to_nat i <? length (map_val m))%nat eqn:El; [|done]. injection Hl as <-.
  apply Forall2_same_length_lookup. rewrite length_insert. split; [done|]. intros k m1 m2 H1 H2.
  destruct (decide (k = Z.to_nat id)) as [->|Hk].
  - rewrite list_lookup_insert_eq in H2 by by apply Nat.ltb_lt. injection H2 as <-. rewrite Hm in H1. injection H1 as <-.
    cbn [map_var map_val]. rewrite length_insert. split_and!; [done..|]. intros j Hj. unfold at_index.
    destruct (j <? 0) eqn:Ej; [done|]. rewrite list_lookup_insert_ne by (apply Z.ltb_ge in Ei, Ej; lia). done.
  - rewrite list_lookup_insert_ne in H2 by done. rewrite H1 in H2. by injection H2 as <-.
Qed.

Lemma find_id_names (l l' : list (pip_sample_mapping F)) (v : pip_var_id) (i : Z) :
  Forall2 (fun m m' => map_var m' = map_var m) l l' -> find_id l' v i = find_id l v i.
Proof. intros Hl. revert i. induction Hl as [|m m' l l' Hm _ IH]; intros i; [done|]. simpl. by rewrite Hm, IH. Qed.

Section Evaluation.
Context (pip_distributions : list (pip_functable_entry F)).

Lemma sample_val_changes (P : Z -> Prop) s s' (j : Z) (v : pip_var F) :
  changes P s s' -> ~ P j -> sample_val pip_distributions s' j v = sample_val pip_distributions s j v.
Proof.
  intros [C S V] Hj. unfold sample_val, pip_sample_var_val, pip_sample_val_get, pip_sample_var_to_id, pip_sample_seed.
  rewrite (find_id_names (mappings s) (mappings s')), S.
  2: { eapply Forall2_impl; [exact V|]. by intros m m' []. }
  assert (Hget : forall id, pip_sample_val_get_by_id s' id j = pip_sample_val_get_by_id s id j).
  { intros id. unfold pip_sample_val_get_by_id, SAMPLE_SET_ENTRY.
    assert (He : at_index (mappings s') id = None /\ at_index (mappings s) id = None \/
      exists m m', at_index (mappings s') id = Some m' /\ at_index (mappings s) id = Some m /\
        at_index (map_val m') j = at_index (map_val m) j).
    { unfold at_index at 1 2 3 4. destruct (id <? 0); [by left|]. destruct (mappings s !! Z.to_nat id) as [m|] eqn:Hm.
      - right. destruct (Forall2_lookup_l _ _ _ _ _ V Hm) as (m' & Hm' & _ & _ & Hv). exists m, m'. by rewrite (Hv j Hj).
      - left. split; [|done]. apply lookup_ge_None_2. rewrite <- (Forall2_length _ _ _ V). by apply lookup_ge_None_1. }
    destruct He as [[-> ->]|(m & m' & -> & -> & Hv)]; [done|exact Hv]. }
  by rewrite Hget.
Qed.

Lemma evaluate_ext (fuel : nat) (val val' : pip_var F -> F) (m : mem F) (base offset : Z) :
  (forall v, val v = val' v) -> pip_eqn_cmpnt_evaluate fuel val m base offset = pip_eqn_cmpnt_evaluate fuel val' m base offset.
Proof.
  intros Hv. revert base offset. induction fuel as [|fuel IH]; intros base offset; [done|]. cbn [pip_eqn_cmpnt_evaluate].
  destruct (read m (base + offset)) as [[]|]; cbn [mbind option_bind]; rewrite ?IH, ?Hv; try done.
  destruct (read_atom m _) as [[[? ?] ?]|]; cbn [mbind option_bind]; [|done]. by rewrite !IH.
Qed.

Lemma test_clause_changes (P : Z -> Prop) s s' (j : Z) (clause : list (pip_atom F)) :
  changes P s s' -> ~ P j ->
  pip_sample_test_clause pip_distributions s' j clause = pip_sample_test_clause pip_distributions s j clause.
Proof.
  intros Hc Hj. unfold pip_sample_test_clause.
  assert (Hin : in_range s' j = in_range s j).
  { unfold in_range. f_equal. pose proof (ch_vals _ _ _ Hc) as V.
    induction V as [|m m' l l' (_ & Hl & _) _ IH]; [done|]. simpl. by rewrite Hl, IH. }
  assert (Ha : forall a, pip_atom_evaluate_sample pip_distributions a s' j = pip_atom_evaluate_sample pip_distributions a s j).
  { intros a. unfold pip_atom_evaluate_sample, pip_atom_evaluate. rewrite Hin. destruct (in_range s j); [|done].
    rewrite !(evaluate_ext _ (sample_val pip_distributions s' j) (sample_val pip_distributions s j))
      by (intros v; by apply (sample_val_changes P)). done. }
  induction clause as [|a clause IH]; [done|]. simpl. rewrite Ha. by destruct (pip_atom_evaluate_sample pip_distributions a s j) as [[]|].
Qed.
End Evaluation.
End Frames.

(** ** Rejection sampling *)

(** A relation that the steps preserve holds around an iteration. *)
Lemma iterate_group_relates {A St} (R : St -> St -> Prop) (set set' : pip_cset A) (func : A -> St -> option St)
    (e : nat) (s s' : St) :
  (forall x, R x x) -> (forall x y z, R x y -> R y z -> R x z) ->
  (forall a x y, func a x = Some y -> R x y) ->
  pip_cset_iterate_group set func e s = Some (s', set') -> R s s'.
Proof.
  intros Hrefl Htrans Hfunc. unfold pip_cset_iterate_group. destruct (find_root _ _ _) as [[r es]|]; [|done].
  cbn [mbind option_bind]. intros (s1 & Hdfs & [= <- _])%bind_Some. revert r s s1 Hdfs.
  induction (S (size es)) as [|fuel IH]; intros r s s1; [done|]. cbn [pip_cset_group_dfs].
  intros (x & _ & (s2 & Hs2 & Hfold)%bind_Some)%bind_Some. apply (Htrans _ s2); [by eapply Hfunc|]. clear Hs2.
  revert s2 Hfold. induction (group_children x) as [|c l IHl]; intros s2; simpl; [intros [= <-]; apply Hrefl|].
  destruct (pip_cset_group_dfs fuel es func c s2) as [s3|] eqn:E.
  - intros Hfold. apply (Htrans _ s3); [by apply (IH c)|by apply IHl].
  - intros Hfold. exfalso. clear -Hfold. induction l as [|c' l IHl']; [done|]. by apply IHl'.
Qed.

Section Rejection.
Context {F : Type} `{Float8 F}.
Context (pip_distributions : list (pip_functable_entry F)) (random : nat -> Z).
Abbreviation vset := (pip_cset (pip_var F)).
Implicit Types (state : @pip_sampler_state F) (set : vset).

(** What a candidate for the sample at hand changes. *)
Record same_sampler (P : Z -> Prop) state state' : Prop := {
  sm_samples : changes P (sampler_samples state) (sampler_samples state');
  sm_clause : sampler_clause state' = sampler_clause state;
  sm_first : first_atom state' = first_atom state;
  sm_last : last_atom state' = last_atom state;
  sm_var : first_var state' = first_var state;
  sm_probability : probability state' = probability state }.

Lemma same_sampler_refl (P : Z -> Prop) state : same_sampler P state state.
Proof. split; [apply changes_refl|done..]. Qed.

Lemma same_sampler_trans (P : Z -> Prop) state1 state2 state3 :
  same_sampler P state1 state2 -> same_sampler P state2 state3 -> same_sampler P state1 state3.
Proof. intros [] []. split; [by eapply changes_trans|congruence..]. Qed.

Lemma same_sampler_weaken (P Q : Z -> Prop) state state' :
  (forall j, P j -> Q j) -> same_sampler P state state' -> same_sampler Q state state'.
Proof. intros HPQ []. split; [by eapply changes_weaken|done..]. Qed.

Lemma group_clause_same (P : Z -> Prop) state state' :
  same_sampler P state state' -> group_clause state' = group_clause state.
Proof. intros [_ Hc Hf Hl _ _]. unfold group_clause. by rewrite Hc, Hf, Hl. Qed.

Lemma sample_one_same (var : pip_var F) state state' :
  sample_one pip_distributions random var state = Some state' ->
  curr_sample state' = curr_sample state /\ same_sampler (eq (curr_sample state)) state state'.
Proof.
  unfold sample_one, draw_random. cbn [mbind option_bind sampler_samples last_var curr_sample]. intros (s & Hs & [= <-])%bind_Some.
  split; [done|]. split; try done. by eapply val_set_changes.
Qed.

Lemma candidate_same (group : nat) state set state' set' :
  draw_candidate pip_distributions random group (state, set) = Some (state', set') ->
  curr_sample state' = curr_sample state /\ same_sampler (eq (curr_sample state)) state state'.
Proof.
  unfold draw_candidate. intros Hit.
  set (R := fun x y : @pip_sampler_state F =>
    curr_sample x = curr_sample state -> curr_sample y = curr_sample state /\ same_sampler (eq (curr_sample state)) x y).
  assert (HR : R (with_vars (first_var state) (first_var state) state) state').
  { apply (iterate_group_relates R set set' (sample_one pip_distributions random) group); [..|exact Hit].
    - intros x Hx. split; [done|apply same_sampler_refl].
    - intros x y z Hxy Hyz Hx. destruct (Hxy Hx) as [Hy H1], (Hyz Hy) as [Hz H2]. split; [done|by eapply same_sampler_trans].
    - intros v x y Hy Hx. destruct (sample_one_same v x y Hy) as [Hc Hs]. rewrite Hx in Hc, Hs. by split. }
  destruct (HR eq_refl) as [Hc [Hs Hcl Hf Hl Hv Hp]]. split; [done|]. by split.
Qed.

Lemma rejection_trials_spec (fuel group : nat) state set (cnt : Z) state' set' (cnt' : Z) :
  0 <= cnt < 2 ^ 31 - 1 ->
  rejection_trials pip_distributions random fuel group (state, set) cnt = Some (state', set', cnt') ->
  curr_sample state' = curr_sample state /\ same_sampler (eq (curr_sample state)) state state' /\
  cnt < cnt' <= Z.max (cnt + 1) MAX_TRIALS /\ (cnt' < MAX_TRIALS -> accepted pip_distributions state' = Some true).
Proof.
  revert state set cnt. induction fuel as [|fuel IH]; intros state set cnt Hcnt; [done|]. cbn [rejection_trials].
  assert (Hi : int32 (cnt + 1) = cnt + 1) by (unfold int32; rewrite Z.mod_small; lia). rewrite Hi.
  intros ([state1 set1] & Hc & (ok & Hok & Hrest)%bind_Some)%bind_Some.
  destruct (candidate_same group state set state1 set1 Hc) as [Hcur Hsame].
  destruct (negb ok && (cnt + 1 <? MAX_TRIALS)) eqn:Eb.
  - apply andb_prop in Eb as [_ Hlt%Z.ltb_lt]. unfold MAX_TRIALS in *.
    destruct (IH state1 set1 (cnt + 1)) as (Hcur' & Hsame' & Hb & Hacc); [lia|done|].
    rewrite Hcur in Hcur', Hsame'. split_and!; [done|by eapply same_sampler_trans|lia..|done].
  - injection Hrest as -> -> <-. split_and!; [done..|lia|lia|]. intros Hlt.
    apply andb_false_iff in Eb as [Eb|Eb]; [|apply Z.ltb_ge in Eb; lia]. rewrite Hok. by destruct ok.
Qed.

Lemma rejection_samples_spec (fuel n group : nat) state set (cnt : Z) state' set' (cnt' : Z) :
  0 <= cnt -> Z.max cnt MAX_TRIALS + Z.of_nat n < 2 ^ 31 ->
  rejection_samples pip_distributions random fuel n group (state, set) cnt = Some (state', set', cnt') ->
  curr_sample state' = curr_sample state + Z.of_nat n /\
  same_sampler (fun j => curr_sample state <= j < curr_sample state + Z.of_nat n) state state' /\
  cnt + Z.of_nat n <= cnt' /\
  (cnt' < MAX_TRIALS -> forall i, curr_sample state <= i < curr_sample state + Z.of_nat n ->
     pip_sample_test_clause pip_distributions (sampler_samples state') i (group_clause state) = Some true).
Proof.
  revert state set cnt. induction n as [|n IH]; intros state set cnt Hcnt Hmax; cbn [rejection_samples]; intros Hrun.
  - injection Hrun as -> -> <-. split_and!; [lia|apply same_sampler_refl|lia|]. intros _ i Hi. lia.
  - apply bind_Some in Hrun as ([[state1 set1] cnt1] & Htr & Hrest).
    destruct (rejection_trials_spec fuel group state set cnt state1 set1 cnt1) as (Hcur & Hsame & Hb & Hacc); [unfold MAX_TRIALS in *; lia|done|].
    destruct (IH (with_curr_sample (curr_sample state1 + 1) state1) set1 cnt1) as (Hcur' & Hsame' & Hb' & Hacc'); [lia|lia|done|].
    cbn [curr_sample with_curr_sample] in *. rewrite Hcur in *. set (c := curr_sample state) in *.
    assert (Hsame1 : same_sampler (fun j => c + 1 <= j < c + 1 + Z.of_nat n) state1 state') by (destruct Hsame'; by split).
    split_and!; [lia| |lia|].
    + apply (same_sampler_trans _ _ state1); [|eapply same_sampler_weaken; [|exact Hsame1]; intros j Hj; cbv beta in *; lia].
      eapply same_sampler_weaken; [|exact Hsame]. intros j <-. cbv beta. lia.
    + intros Hlt i Hi. destruct (decide (i = c)) as [->|Hne].
      * rewrite (test_clause_changes pip_distributions _ _ _ c _ (sm_samples _ _ _ Hsame1)) by (cbn; lia).
        unfold accepted in Hacc. rewrite Hcur in Hacc. rewrite <- (group_clause_same _ _ _ Hsame).
        apply Hacc. lia.
      * rewrite <- (group_clause_same _ _ _ Hsame). change (group_clause state1) with
          (group_clause (with_curr_sample (c + 1) state1)). apply Hacc'; [done|lia].
Qed.

(** The trials for the sample at hand, [cnt] candidates having been drawn for the samples
    before: [k] candidates, all rejected but the last, which is accepted or reaches the
    limit. *)
Inductive trials (group : nat) : Z -> pip_sampler_state * vset -> nat -> pip_sampler_state * vset -> Prop :=
  | trial_ends cnt st st' ok : draw_candidate pip_distributions random group st = Some st' ->
      accepted pip_distributions st'.1 = Some ok -> ok = true \/ MAX_TRIALS <= cnt + 1 -> trials group cnt st 1 st'
  | trial_rejected cnt st st1 k st' : draw_candidate pip_distributions random group st = Some st1 ->
      accepted pip_distributions st1.1 = Some false -> cnt + 1 < MAX_TRIALS ->
      trials group (cnt + 1) st1 k st' -> trials group cnt st (S k) st'.

(** The samples one after the other, with the number of candidates of each. *)
Inductive sampled (group : nat) : Z -> pip_sampler_state * vset -> list nat -> pip_sampler_state * vset -> Prop :=
  | sampled_all cnt st : sampled group cnt st [] st
  | sampled_next cnt st k st1 ks st' : trials group cnt st k st1 ->
      sampled group (cnt + Z.of_nat k) (with_curr_sample (curr_sample st1.1 + 1) st1.1, st1.2) ks st' ->
      sampled group cnt st (k :: ks) st'.

Lemma rejection_trials_run (fuel group : nat) (st : pip_sampler_state * vset) (cnt : Z) state' set' (cnt' : Z) :
  0 <= cnt < 2 ^ 31 - 1 ->
  rejection_trials pip_distributions random fuel group st cnt = Some (state', set', cnt') ->
  exists k, cnt' = cnt + Z.of_nat k /\ trials group cnt st k (state', set').
Proof.
  revert st cnt. induction fuel as [|fuel IH]; intros st cnt Hcnt; [done|]. cbn [rejection_trials].
  assert (Hi : int32 (cnt + 1) = cnt + 1) by (unfold int32; rewrite Z.mod_small; lia). rewrite Hi.
  intros ([state1 set1] & Hc & (ok & Hok & Hrest)%bind_Some)%bind_Some.
  destruct (negb ok && (cnt + 1 <? MAX_TRIALS)) eqn:Eb.
  - apply andb_prop in Eb as [Hno%negb_true_iff Hlt%Z.ltb_lt]. subst ok. unfold MAX_TRIALS in Hlt.
    destruct (IH (state1, set1) (cnt + 1)) as (k & -> & Hk); [lia|done|]. exists (S k). split; [lia|].
    by apply (trial_rejected group cnt st (state1, set1)).
  - injection Hrest as -> -> <-. exists 1%nat. split; [lia|]. apply (trial_ends group cnt st _ ok); [done..|].
    apply andb_false_iff in Eb as [Eb|Eb]; [left; by destruct ok|right; by apply Z.ltb_ge].
Qed.

Lemma rejection_samples_run (fuel n group : nat) (st st' : pip_sampler_state * vset) (cnt cnt' : Z) :
  0 <= cnt -> Z.max cnt MAX_TRIALS + Z.of_nat n < 2 ^ 31 ->
  rejection_samples pip_distributions random fuel n group st cnt = Some (st', cnt') ->
  exists ks, length ks = n /\ cnt' = cnt + Z.of_nat (sum_list ks) /\ sampled group cnt st ks st'.
Proof.
  revert st cnt. induction n as [|n IH]; intros st cnt Hcnt Hmax; cbn [rejection_samples]; intros Hrun.
  - injection Hrun as -> <-. exists []. split_and!; [done|simpl; lia|constructor].
  - apply bind_Some in Hrun as ([[state1 set1] cnt1] & Htr & Hrest). destruct st as [state set].
    destruct (rejection_trials_spec fuel group state set cnt state1 set1 cnt1) as (_ & _ & Hb & _);
      [unfold MAX_TRIALS in *; lia|done|].
    destruct (rejection_trials_run fuel group (state, set) cnt state1 set1 cnt1) as (k & -> & Hk);
      [unfold MAX_TRIALS in *; lia|done|].
    destruct (IH (with_curr_sample (curr_sample state1 + 1) state1, set1) (cnt + Z.of_nat k)) as (ks & Hlen & -> & Hks);
      [lia|lia|done|].
    exists (k :: ks). cbn [length sum_list sum_list_with]. split_and!; [by rewrite Hlen|simpl; lia|].
    by apply (sampled_next group cnt _ k (state1, set1)).
Qed.

(** The states that the loops come to. *)
Inductive sampling_reaches (group : nat) (st : pip_sampler_state * vset) : pip_sampler_state * vset -> Prop :=
  | reaches_start : sampling_reaches group st st
  | reaches_candidate st1 st2 : sampling_reaches group st st1 -> draw_candidate pip_distributions random group st1 = Some st2 ->
      sampling_reaches group st st2
  | reaches_next st1 : sampling_reaches group st st1 ->
      sampling_reaches group st (with_curr_sample (curr_sample st1.1 + 1) st1.1, st1.2).

(** The next candidate, or the test of its atoms, accesses what is not there. *)
Definition candidate_fails (group : nat) (st : pip_sampler_state * vset) : Prop :=
  match draw_candidate pip_distributions random group st with
  | None => True
  | Some st' => accepted pip_distributions st'.1 = None
  end.

(** The loops end: with more fuel than trials they return, unless an access fails. *)
Lemma rejection_trials_total (fuel group : nat) (start st : pip_sampler_state * vset) (cnt : Z) :
  0 <= cnt < 2 ^ 31 - 1 -> MAX_TRIALS - cnt < Z.of_nat fuel -> (0 < fuel)%nat -> sampling_reaches group start st ->
  (exists state set cnt', rejection_trials pip_distributions random fuel group st cnt = Some (state, set, cnt') /\
     sampling_reaches group start (state, set)) \/
  exists st', sampling_reaches group start st' /\ candidate_fails group st'.
Proof.
  revert st cnt. induction fuel as [|fuel IH]; intros st cnt Hcnt Hfuel Hpos Hst; [lia|]. cbn [rejection_trials].
  destruct (draw_candidate pip_distributions random group st) as [[state set]|] eqn:Hc;
    [|right; exists st; split; [done|by unfold candidate_fails; rewrite Hc]].
  cbn [mbind option_bind]. destruct (accepted pip_distributions state) as [ok|] eqn:Ha;
    [|right; exists st; split; [done|by unfold candidate_fails; rewrite Hc]].
  cbn [mbind option_bind]. assert (Hst' : sampling_reaches group start (state, set)) by by eapply reaches_candidate.
  assert (Hi : int32 (cnt + 1) = cnt + 1) by (unfold int32; rewrite Z.mod_small; lia). rewrite Hi.
  destruct (negb ok && (cnt + 1 <? MAX_TRIALS)) eqn:Eb; [|left; by eauto].
  apply andb_prop in Eb as [_ Hlt%Z.ltb_lt]. unfold MAX_TRIALS in *. apply IH; [lia..|done].
Qed.

Lemma rejection_samples_total (fuel n group : nat) (start st : pip_sampler_state * vset) (cnt : Z) :
  0 <= cnt -> Z.max cnt MAX_TRIALS + Z.of_nat n < 2 ^ 31 -> MAX_TRIALS < Z.of_nat fuel -> sampling_reaches group start st ->
  is_Some (rejection_samples pip_distributions random fuel n group st cnt) \/
  exists st', sampling_reaches group start st' /\ candidate_fails group st'.
Proof.
  intros Hcnt Hmax Hfuel. revert st cnt Hcnt Hmax. induction n as [|n IH]; intros st cnt Hcnt Hmax Hst; [left; by eexists|].
  cbn [rejection_samples]. assert (Hm : MAX_TRIALS = 10000000) by done.
  destruct (rejection_trials_total fuel group start st cnt) as [(state & set & cnt' & Ht & Hst')|Hfail]; [lia..|done| |by right].
  rewrite Ht. cbn [mbind option_bind]. destruct st as [state0 set0].
  destruct (rejection_trials_spec fuel group state0 set0 cnt state set cnt') as (_ & _ & Hb & _); [lia|done|].
  apply IH; [lia..|]. by apply (reaches_next group start (state, set)).
Qed.
End Rejection.

(** ** Sampling a single variable through its distribution function *)

(** A group of one variable is walked in one step. *)
Lemma single_iterate {A St} (set : pip_cset A) (func : A -> St -> option St) (r : nat) (v : A) (s : St) :
  els set !! r = Some (mk_element None [] 1 v) ->
  pip_cset_iterate_group set func r s = (s ← func v s; Some (s, set)).
Proof.
  intros Hr. unfold pip_cset_iterate_group, find_root. cbn [pip_cset_find_group_root]. rewrite Hr.
  cbn [mbind option_bind group_root pip_cset_group_dfs]. rewrite Hr. cbn [mbind option_bind item group_children foldl].
  destruct (func v s) as [s'|]; [|done]. cbn [mbind option_bind]. by destruct set.
Qed.

Lemma single_size {A} (set : pip_cset A) (r : nat) (v : A) :
  els set !! r = Some (mk_element None [] 1 v) -> pip_cset_group_size set r = Some (1, set).
Proof.
  intros Hr. unfold pip_cset_group_size, find_root. cbn [pip_cset_find_group_root]. rewrite Hr.
  cbn [mbind option_bind group_root]. rewrite Hr. cbn [mbind option_bind group_size]. by destruct set.
Qed.

Section Names.
Context {F : Type} `{Float8 F}.
Implicit Types (s : pip_sample_set F).

Lemma at_index_map {A B} (f : A -> B) (l l' : list A) (i : Z) :
  Forall2 (fun a a' => f a' = f a) l l' -> f <$> at_index l' i = f <$> at_index l i.
Proof.
  intros Hl. unfold at_index. destruct (i <? 0); [done|].
  destruct (l !! Z.to_nat i) as [a|] eqn:Ha.
  - destruct (Forall2_lookup_l _ _ _ _ _ Hl Ha) as (a' & -> & Hf). cbn. by rewrite Hf.
  - rewrite (proj2 (lookup_ge_None l' _)); [done|]. rewrite <- (Forall2_length _ _ _ Hl). by apply lookup_ge_None.
Qed.

(** Changing values keeps the names and their number. *)
Lemma changes_names (P : Z -> Prop) s s' : changes P s s' ->
  length (mappings s') = length (mappings s) /\ forall i, pip_sample_name_get s' i = pip_sample_name_get s i.
Proof.
  intros [_ _ V]. split; [symmetry; by eapply Forall2_length|]. intros i.
  unfold pip_sample_name_get, SAMPLE_SET_ENTRY.
  assert (Hm : map_var <$> at_index (mappings s') i = map_var <$> at_index (mappings s) i).
  { apply at_index_map. eapply Forall2_impl; [exact V|]. by intros m m' []. }
  by destruct (at_index (mappings s') i), (at_index (mappings s) i).
Qed.

(** Naming entry [i] writes entry [i] only, and fails just when there is none. *)
Lemma name_set_spec s (i : Z) (name : pip_var_id) :
  match pip_sample_name_set s i name with
  | Some s' => 0 <= i < Z.of_nat (length (mappings s)) /\ length (mappings s') = length (mappings s) /\
      forall j, pip_sample_name_get s' j = if decide (j = i) then Some name else pip_sample_name_get s j
  | None => ~ 0 <= i < Z.of_nat (length (mappings s))
  end.
Proof.
  unfold pip_sample_name_set, update_entry, pip_sample_name_get, SAMPLE_SET_ENTRY, store_at, at_index.
  destruct (Z.ltb_spec i 0) as [Hi|Hi]; [cbn [mbind option_bind]; lia|].
  destruct (mappings s !! Z.to_nat i) as [m|] eqn:Hm; cbn [mbind option_bind].
  - apply lookup_lt_Some in Hm as Hlt. rewrite (proj2 (Nat.ltb_lt _ _) Hlt). cbn [mbind option_bind mappings].
    split_and!; [lia|lia|by rewrite length_insert|]. intros j. destruct (decide (j = i)) as [->|Hne].
    + rewrite (proj2 (Z.ltb_ge i 0) Hi), list_lookup_insert_eq by done. done.
    + destruct (Z.ltb_spec j 0); [done|]. by rewrite list_lookup_insert_ne by lia.
  - apply lookup_ge_None in Hm. lia.
Qed.
End Names.

Section Cdf.
Context {F : Type} `{Float8 F}.
Context (pip_distributions : list (pip_functable_entry F)) (random : nat -> Z).
Abbreviation vset := (pip_cset (pip_var F)).
Implicit Types (state : @pip_sampler_state F) (set : vset).

(** The loops write values of samples only. *)
Definition same_vars state state' : Prop :=
  last_var state' = last_var state /\ changes (fun _ => True) (sampler_samples state) (sampler_samples state').

Lemma cdf_trials_same (fuel : nat) (var : pip_var F) (low high : F) state (cnt : Z) state' cnt' state'' :
  cdf_trials pip_distributions random fuel var low high state cnt = Some (Some (state', cnt'), state'') -> same_vars state state'.
Proof.
  revert state cnt. induction fuel as [|fuel IH]; intros state cnt; [done|]. cbn [cdf_trials draw_random].
  destruct (isnan _); [by intros [=]|]. intros (s & Hs & (ok & _ & Hrest)%bind_Some)%bind_Some.
  assert (Hc : changes (fun _ => True) (sampler_samples state) s).
  { unfold pip_sample_val_set in Hs. destruct (0 <=? _); [|injection Hs as <-; apply changes_refl].
    eapply changes_weaken; [|by eapply val_set_changes]. done. }
  destruct (negb ok).
  - apply IH in Hrest as [Hl Hch]. split; [exact Hl|]. eapply changes_trans; [exact Hc|exact Hch].
  - injection Hrest as <- _ _. by split.
Qed.

Lemma cdf_samples_same (fuel n : nat) (var : pip_var F) (low high : F) state (cnt : Z) state' cnt' state'' :
  cdf_samples pip_distributions random fuel n var low high state cnt = Some (Some (state', cnt'), state'') -> same_vars state state'.
Proof.
  revert state cnt. induction n as [|n IH]; intros state cnt; cbn [cdf_samples].
  - intros [= <- _ _]. split; [done|apply changes_refl].
  - intros ([[[state1 cnt1]|] state2] & Ht & Hrest)%bind_Some; [|done]. apply cdf_trials_same in Ht as [Hl Hc].
    apply IH in Hrest as [Hl' Hc']. split; [by rewrite Hl'|]. eapply changes_trans; [exact Hc|exact Hc'].
Qed.

(** After a variable has been sampled in this way the next entry is skipped. *)
Lemma cdf_sample_var_last (fuel : nat) (var : pip_var F) state state' :
  cdf_sample_var pip_distributions random fuel var state = Some (true, state') ->
  last_var state' = last_var state + 1 /\ changes (fun _ => True) (sampler_samples state) (sampler_samples state').
Proof.
  unfold cdf_sample_var. intros (has & _ & Hrest)%bind_Some. destruct has; [|done].
  apply bind_Some in Hrest as ([[low high]|] & _ & Hrest); [|done].
  apply bind_Some in Hrest as ([[[state1 cnt]|] state2] & Hs & Hrest); [|done].
  apply cdf_samples_same in Hs as [Hl Hc]. destruct (0 <? _); injection Hrest as <-; cbn; by rewrite <- Hl.
Qed.

(** The state of a group when its one variable has been named. *)
Definition named_state clause (last : nat) s state : pip_sampler_state :=
  with_vars (last_var state) (last_var state + 1) (with_samples s (with_curr_sample 0
    (with_vars (last_var state) (last_var state) (with_atoms clause (last_atom state) last state)))).

Lemma single_group (fuel r : nat) (v : pip_var F) state set clause (last : nat) s state' :
  els set !! r = Some (mk_element None [] 1 v) ->
  pip_gather_atoms v (sampler_clause state, last_atom state) = Some (clause, last) ->
  pip_sample_name_set (sampler_samples state) (last_var state) (vid v) = Some s ->
  cdf_sample_var pip_distributions random fuel v (named_state clause last s state) = Some (true, state') ->
  sample_lineage_group pip_distributions random fuel true r (state, set) = Some (state', set).
Proof.
  intros Hr Hg Hs Hc. unfold sample_lineage_group, pip_group_atoms. rewrite (single_iterate set _ r v _ Hr), Hg.
  cbn [mbind option_bind]. rewrite (single_iterate set _ r v _ Hr). unfold populate_sample_vars.
  cbn [sampler_samples last_var with_atoms with_vars with_curr_sample]. rewrite Hs. cbn [mbind option_bind].
  rewrite (single_size set r v Hr). cbn [mbind option_bind Z.eqb Pos.eqb andb]. rewrite Hr.
  cbn [mbind option_bind item]. unfold named_state in Hc.
  cbn [last_var first_var with_atoms with_vars with_samples with_curr_sample] in *. by rewrite Hc.
Qed.

Lemma populate_overrun (v : pip_var F) state :
  Z.of_nat (length (mappings (sampler_samples state))) <= last_var state -> populate_sample_vars v state = None.
Proof.
  intros Hle. unfold populate_sample_vars. pose proof (name_set_spec (sampler_samples state) (last_var state) (vid v)) as Hn.
  destruct (pip_sample_name_set _ _ _); [lia|done].
Qed.

(** No group can be named when the index is past the last entry. *)
Lemma group_overrun (fuel : nat) (enable : bool) (r : nat) state set :
  Z.of_nat (length (mappings (sampler_samples state))) <= last_var state ->
  sample_lineage_group pip_distributions random fuel enable r (state, set) = None.
Proof.
  intros Hle. unfold sample_lineage_group. destruct (pip_group_atoms set r _ _) as [[[clause last] set1]|]; [|done].
  cbn [mbind option_bind]. unfold pip_cset_iterate_group. destruct (find_root _ _ _) as [[r' es]|]; [|done].
  cbn [mbind option_bind pip_cset_group_dfs]. destruct (es !! r') as [x|]; [|done].
  cbn [mbind option_bind]. by rewrite populate_overrun.
Qed.
End Cdf.
