(* ===== verification/PipCsetCorrect.v ===== *)
(** * PipCsetCorrect: the union-find forest

    The parents of the elements as a finite map: paths, roots, and what compressing a
    path and linking two roots do to them. *)
From S2P Require Import Prelude.
From S2P Require Import PipVar.
From S2P Require Import PipEqn.
From S2P Require Import PipSample.
From S2P Require Import PipCset.

(** The parent of an element; [None] for a root. *)
Abbreviation parents := (gmap nat (option nat)).

Section Parents.
Implicit Types (R : parents) (e c p r x y : nat) (depth : nat -> nat).

Inductive below (R : parents) : nat -> nat -> Prop :=
  | below_refl e : e ∈ dom R -> below R e e
  | below_step c p e : R !! c = Some (Some p) -> below R p e -> below R c e.

Definition reaches R y r : Prop := below R y r /\ R !! r = Some None.

(** The depth decreases towards the root. *)
Definition acyclic R depth : Prop := forall c p, R !! c = Some (Some p) -> p ∈ dom R /\ (depth p < depth c)%nat.

Lemma below_dom R y e : below R y e -> y ∈ dom R /\ e ∈ dom R.
Proof. induction 1; [done|]. split; [|by destruct IHbelow]. apply elem_of_dom. by eexists. Qed.

Lemma below_trans R x y e : below R x y -> below R y e -> below R x e.
Proof. induction 1; [done|]. intros. eapply below_step; eauto. Qed.

Lemma below_depth R depth y e : acyclic R depth -> below R y e -> y = e \/ (depth e < depth y)%nat.
Proof.
  intros Ha. induction 1 as [|c p e Hc _ IH]; [by left|]. right. destruct (Ha _ _ Hc) as [_ Hlt].
  destruct IH as [->|]; lia.
Qed.

Lemma below_root R r e : R !! r = Some None -> below R r e -> r = e.
Proof. intros Hr. inversion 1; [done|congruence]. Qed.

Lemma reaches_step R c p r : R !! c = Some (Some p) -> reaches R c r <-> reaches R p r.
Proof.
  intros Hc. split.
  - intros [Hb Hr]. split; [|done]. inversion Hb; congruence.
  - intros [Hb Hr]. split; [|done]. by eapply below_step.
Qed.

Lemma reaches_root R r r' : R !! r = Some None -> reaches R r r' <-> r' = r.
Proof.
  intros Hr. split.
  - intros [Hb _]. symmetry. by eapply below_root.
  - intros ->. split; [|done]. apply below_refl, elem_of_dom. by eexists.
Qed.

Lemma reaches_fun R y r r' : reaches R y r -> reaches R y r' -> r = r'.
Proof.
  intros [Hb Hr]. revert Hr. induction Hb as [e|c p e Hc _ IH]; intros Hr.
  - intros Hr'. symmetry. by apply (reaches_root R e r').
  - rewrite (reaches_step R c p r' Hc). by apply IH.
Qed.

(** Two elements above another are comparable. *)
Lemma below_linear R y e e' : below R y e -> below R y e' -> below R e e' \/ below R e' e.
Proof.
  induction 1 as [e|c p e Hc Hb IH]; [by left|]. intros Hb'. inversion Hb'; subst.
  - right. by eapply below_step.
  - apply IH. congruence.
Qed.

(** ** Induction towards the root and towards the leaves *)

Definition lower R depth e : nat := size (filter (fun x => (depth x <= depth e)%nat) (dom R)).
Definition higher R depth e : nat := size (filter (fun x => (depth e <= depth x)%nat) (dom R)).

Lemma lower_parent R depth c p : acyclic R depth -> R !! c = Some (Some p) -> (lower R depth p < lower R depth c)%nat.
Proof.
  intros Ha Hc. destruct (Ha _ _ Hc) as [Hp Hlt]. apply subset_size. split.
  - intros x. rewrite !elem_of_filter. intros [? ?]. split; [lia|done].
  - intros Hs. assert (c ∈ filter (fun x => (depth x <= depth c)%nat) (dom R)) as Hin.
    { apply elem_of_filter. split; [lia|]. apply elem_of_dom. by eexists. }
    apply Hs, elem_of_filter in Hin as [? _]. lia.
Qed.

Lemma higher_child R depth c p : acyclic R depth -> R !! c = Some (Some p) -> (higher R depth c < higher R depth p)%nat.
Proof.
  intros Ha Hc. destruct (Ha _ _ Hc) as [Hp Hlt]. apply subset_size. split.
  - intros x. rewrite !elem_of_filter. intros [? ?]. split; [lia|done].
  - intros Hs. assert (p ∈ filter (fun x => (depth p <= depth x)%nat) (dom R)) as Hin by (apply elem_of_filter; by split; [lia|]).
    apply Hs, elem_of_filter in Hin as [? _]. lia.
Qed.

Lemma lower_bound R depth e : (lower R depth e <= size R)%nat.
Proof. unfold lower. rewrite <- size_dom. apply subseteq_size. set_solver. Qed.
Lemma higher_bound R depth e : (higher R depth e <= size R)%nat.
Proof. unfold higher. rewrite <- size_dom. apply subseteq_size. set_solver. Qed.

Lemma reaches_total R depth e : acyclic R depth -> e ∈ dom R -> exists r, reaches R e r.
Proof.
  intros Ha. remember (depth e) as n eqn:En. revert e En. induction n as [n IH] using lt_wf_ind. intros e -> He. apply elem_of_dom in He as [[p|] Hp].
  - destruct (Ha _ _ Hp) as [Hpd Hlt]. destruct (IH _ Hlt p eq_refl Hpd) as [r Hr]. exists r. by apply (reaches_step R e p r Hp).
  - exists e. by apply reaches_root.
Qed.

(** ** Compression *)

Lemma compress_acyclic R depth e p r : acyclic R depth -> R !! e = Some (Some p) -> reaches R p r -> acyclic (<[e := Some r]> R) depth.
Proof.
  intros Ha He [Hb Hr] c q. rewrite dom_insert. destruct (decide (c = e)) as [->|Hne].
  - rewrite lookup_insert_eq. intros [= <-]. split; [apply elem_of_union_r; by eapply below_dom|].
    destruct (Ha _ _ He) as [_ Hlt]. destruct (below_depth R depth p r Ha Hb) as [->|]; lia.
  - rewrite lookup_insert_ne by done. intros Hc. destruct (Ha _ _ Hc). split; [by apply elem_of_union_r|done].
Qed.

Lemma compress_reaches R depth e p r : acyclic R depth -> R !! e = Some (Some p) -> reaches R p r -> 
  forall y s, reaches (<[e := Some r]> R) y s <-> reaches R y s.
Proof.
  intros Ha He Hr. assert (Ha' := compress_acyclic R depth e p r Ha He Hr).
  assert (Hroot : <[e := Some r]> R !! r = Some None).
  { destruct Hr as [_ Hr]. rewrite lookup_insert_ne; [done|]. intros ->. congruence. }
  assert (Hto : forall y s, reaches R y s -> reaches (<[e := Some r]> R) y s).
  { intros y s [Hb Hs]. revert Hs. induction Hb as [x Hx|c q x Hc Hb IH]; intros Hs.
    - apply reaches_root; [|done]. rewrite lookup_insert_ne; [done|]. intros ->. congruence.
    - destruct (decide (c = e)) as [->|Hne].
      + assert (q = p) as -> by congruence. assert (x = r) as -> by (eapply reaches_fun; [by split|done]).
        apply (reaches_step _ e r r); [by rewrite lookup_insert_eq|]. by apply reaches_root.
      + apply (reaches_step _ c q x); [by rewrite lookup_insert_ne|]. by apply IH. }
  intros y s. split; [|apply Hto]. intros Hys. assert (Hy : y ∈ dom R).
  { destruct Hys as [Hb _]. apply below_dom in Hb as [Hy _]. rewrite dom_insert in Hy. 
    apply elem_of_union in Hy as [->%elem_of_singleton|]; [apply elem_of_dom; by eexists|done]. }
  destruct (reaches_total R depth y Ha Hy) as [s' Hs']. assert (s' = s) as -> by (eapply reaches_fun; [by apply Hto|done]). done.
Qed.

(** ** Linking *)

Lemma attach_reaches R depth a b : acyclic R depth -> R !! a = Some None -> R !! b = Some None -> a <> b ->
  forall y s, reaches (<[a := Some b]> R) y s <-> exists r, reaches R y r /\ s = if decide (r = a) then b else r.
Proof.
  intros Ha Hra Hrb Hab. assert (Hb' : <[a := Some b]> R !! b = Some None) by by rewrite lookup_insert_ne.
  assert (Hto : forall y r, reaches R y r -> reaches (<[a := Some b]> R) y (if decide (r = a) then b else r)).
  { intros y r [Hb Hs]. revert Hs. induction Hb as [x Hx|c q x Hc Hb IH]; intros Hs.
    - case_decide as Hd; [subst x|].
      + apply (reaches_step _ a b b); [by rewrite lookup_insert_eq|]. by apply reaches_root.
      + apply reaches_root; [|done]. by rewrite lookup_insert_ne.
    - eapply reaches_step; [|by apply IH]. rewrite lookup_insert_ne; [done|]. intros ->. congruence. }
  intros y s. split.
  - intros Hys. assert (Hy : y ∈ dom R).
    { destruct Hys as [Hb _]. apply below_dom in Hb as [Hy _]. rewrite dom_insert in Hy.
      apply elem_of_union in Hy as [->%elem_of_singleton|]; [apply elem_of_dom; by eexists|done]. }
    destruct (reaches_total R depth y Ha Hy) as [r Hr]. exists r. split; [done|]. eapply reaches_fun; [done|by apply Hto].
  - intros (r & Hr & ->). by apply Hto.
Qed.

(** The elements of the linked group move down; [in_a] recognises them. *)
Lemma attach_acyclic R depth a b (in_a : nat -> bool) : acyclic R depth -> R !! a = Some None -> R !! b = Some None -> a <> b ->
  (forall y, y ∈ dom R -> in_a y = true <-> reaches R y a) ->
  acyclic (<[a := Some b]> R) (fun x => if in_a x then S (depth x + depth b) else depth x).
Proof.
  intros Ha Hra Hrb Hab Hin c q. rewrite dom_insert. destruct (decide (c = a)) as [->|Hne].
  - rewrite lookup_insert_eq. intros [= <-]. assert (Hbd : b ∈ dom R) by (apply elem_of_dom; by eexists).
    split; [by apply elem_of_union_r|]. assert (in_a b = false) as ->.
    { destruct (in_a b) eqn:E; [|done]. apply (Hin b Hbd) in E. apply (reaches_root R b a Hrb) in E. done. }
    assert (Had : a ∈ dom R) by (apply elem_of_dom; by eexists).
    assert (in_a a = true) as -> by (apply (Hin a Had); by apply reaches_root). lia.
  - rewrite lookup_insert_ne by done. intros Hc. destruct (Ha _ _ Hc) as [Hq Hlt]. split; [by apply elem_of_union_r|].
    assert (Hcd : c ∈ dom R) by (apply elem_of_dom; by eexists).
    assert (in_a q = in_a c) as ->.
    { destruct (in_a c) eqn:E.
      - apply (Hin q Hq). apply (Hin c Hcd) in E. by apply (reaches_step R c q a Hc).
      - destruct (in_a q) eqn:E'; [|done]. apply (Hin q Hq), (reaches_step R c q a Hc), (Hin c Hcd) in E'. congruence. }
    destruct (in_a c); lia.
Qed.

(** ** A new root *)

Lemma add_acyclic R depth n : acyclic R depth -> n ∉ dom R -> acyclic (<[n := None]> R) depth.
Proof.
  intros Ha Hn c q. rewrite dom_insert. destruct (decide (c = n)) as [->|Hne]; [by rewrite lookup_insert_eq|].
  rewrite lookup_insert_ne by done. intros Hc. destruct (Ha _ _ Hc). split; [by apply elem_of_union_r|done].
Qed.

Lemma add_reaches R depth n : acyclic R depth -> n ∉ dom R ->
  forall y s, reaches (<[n := None]> R) y s <-> reaches R y s \/ (y = n /\ s = n).
Proof.
  intros Ha Hn y s.
  assert (Hne : forall x, x ∈ dom R -> <[n := None]> R !! x = R !! x).
  { intros x Hx. rewrite lookup_insert_ne; [done|]. by intros ->. }
  assert (Hto : forall x r, reaches R x r -> reaches (<[n := None]> R) x r).
  { intros x r [Hb Hr]. revert Hr. induction Hb as [x Hx|c q x Hc Hb IH]; intros Hr.
    - apply reaches_root; [by rewrite Hne|done].
    - apply (reaches_step _ c q x); [|by apply IH]. rewrite Hne; [done|]. apply elem_of_dom. by eexists. }
  split.
  - intros Hys. destruct (decide (y = n)) as [->|Hyn].
    { right. split; [done|]. eapply reaches_root; [|exact Hys]. by rewrite lookup_insert_eq. }
    left. assert (Hy : y ∈ dom R).
    { destruct Hys as [Hb _]. apply below_dom in Hb as [Hy _]. rewrite dom_insert in Hy. set_solver. }
    destruct (reaches_total R depth y Ha Hy) as [r Hr]. by rewrite (reaches_fun _ _ _ _ Hys (Hto _ _ Hr)).
  - intros [Hr|[-> ->]]; [by apply Hto|]. apply reaches_root; [by rewrite lookup_insert_eq|done].
Qed.

End Parents.

(** ** The forest of a connected set

    The forest of the elements, with the lists of children that mirror it, keeps its
    shape under [pip_cset_find_group_root] and [pip_cset_link]; walking a group visits
    its elements once each. *)

(** ** The forest of the elements *)

Section Forest.
Context {A : Type}.
Implicit Types (es : elements A) (e c p r : nat).

Definition parents_of es : parents := group_root <$> es.
Definition data_of es : gmap nat (A * Z) := (fun x => (item x, group_size x)) <$> es.

Definition children_ok es : Prop := forall p y, es !! p = Some y ->
  NoDup (group_children y) /\ forall c, c ∈ group_children y <-> parents_of es !! c = Some (Some p).

Definition forest es (depth : nat -> nat) : Prop := acyclic (parents_of es) depth /\ children_ok es.

Lemma parents_lookup es e x : es !! e = Some x -> parents_of es !! e = Some (group_root x).
Proof. intros He. unfold parents_of. by rewrite lookup_fmap, He. Qed.

Lemma parents_dom es : dom (parents_of es) = dom es.
Proof. apply leibniz_equiv, dom_fmap. Qed.

Lemma parents_size es : size (parents_of es) = size es.
Proof. apply map_size_fmap. Qed.

Lemma with_element_Some es e x f : es !! e = Some x -> with_element es e f = Some (<[e := f x]> es).
Proof. intros He. unfold with_element. by rewrite He. Qed.

Lemma parents_insert es e x : parents_of (<[e := x]> es) = <[e := group_root x]> (parents_of es).
Proof. apply fmap_insert. Qed.

Lemma parents_insert_same es e x y : es !! e = Some x -> group_root y = group_root x -> parents_of (<[e := y]> es) = parents_of es.
Proof. intros He Hr. rewrite (parents_insert es e y), Hr. apply insert_id. by apply parents_lookup. Qed.

Lemma data_insert_same es e x y : es !! e = Some x -> item y = item x -> group_size y = group_size x ->
  data_of (<[e := y]> es) = data_of es.
Proof.
  intros He Hi Hs. unfold data_of. rewrite fmap_insert, Hi, Hs. apply insert_id. by rewrite lookup_fmap, He.
Qed.

(** Giving [e] the parent [r] and moving it between the lists of children. *)
Lemma children_moved es es' e r (old : option nat) x :
  es !! e = Some x -> group_root x = old -> old <> Some r -> parents_of es' = <[e := Some r]> (parents_of es) -> children_ok es ->
  (forall q y, es' !! q = Some y -> exists z, es !! q = Some z /\
    group_children y = if decide (q = r) then group_children z ++ [e]
      else if decide (Some q = old) then filter (fun c => c <> e) (group_children z) else group_children z) ->
  children_ok es'.
Proof.
  intros He Hold Hne HR Hok Hch q y Hq. destruct (Hch q y Hq) as (z & Hz & Hy). destruct (Hok q z Hz) as [Hnd Hin].
  rewrite HR, Hy. assert (Hep : parents_of es !! e = Some old) by by rewrite (parents_lookup _ _ _ He), Hold.
  assert (Hother : forall c, c <> e -> c ∈ group_children z <-> <[e := Some r]> (parents_of es) !! c = Some (Some q)).
  { intros c Hc. rewrite lookup_insert_ne by done. apply Hin. }
  destruct (decide (q = r)) as [->|Hqr]; [|destruct (decide (Some q = old)) as [Hqo|Hqo]].
  - assert (Hni : e ∉ group_children z) by (intros Hi; apply Hin in Hi; congruence). split.
    + apply NoDup_app. split_and!; [done| |apply NoDup_singleton]. intros c Hc ->%list_elem_of_singleton. done.
    + intros c. rewrite elem_of_app, list_elem_of_singleton. destruct (decide (c = e)) as [->|Hc].
      * rewrite lookup_insert_eq. split; [done|by right].
      * rewrite <- Hother by done. split; [intros [?|?]; done|by left].
  - split; [by apply NoDup_filter|]. intros c. rewrite list_elem_of_filter. destruct (decide (c = e)) as [->|Hc].
    + rewrite lookup_insert_eq. split; [by intros [? _]|]. intros [= ->]. done.
    + rewrite <- Hother by done. tauto.
  - split; [done|]. intros c. destruct (decide (c = e)) as [->|Hc]; [|by apply Hother].
    rewrite lookup_insert_eq, Hin, Hep. split; intros [= ?]; congruence.
Qed.

Lemma compress_spec es depth e x p r : forest es depth -> es !! e = Some x -> group_root x = Some p ->
  reaches (parents_of es) p r -> r <> p ->
  exists es', compress es e p r = Some es' /\ parents_of es' = <[e := Some r]> (parents_of es) /\
    data_of es' = data_of es /\ children_ok es'.
Proof.
  intros [Ha Hok] He Hp Hr Hne. pose proof (parents_lookup _ _ _ He) as HRe. rewrite Hp in HRe.
  destruct (Ha _ _ HRe) as [Hpd Hlt]. rewrite parents_dom in Hpd. apply elem_of_dom in Hpd as [yp Hyp].
  destruct Hr as [Hb Hrr]. assert (exists yr, es !! r = Some yr) as [yr Hyr].
  { apply elem_of_dom. rewrite <- parents_dom. by eapply below_dom. }
  assert (Hep : e <> p) by (intros ->; lia).
  assert (Her : e <> r) by (intros ->; congruence).
  unfold compress. rewrite (with_element_Some es p yp) by done. cbn [mbind option_bind].
  rewrite (with_element_Some _ r yr) by by rewrite lookup_insert_ne. cbn [mbind option_bind].
  rewrite (with_element_Some _ e x) by by rewrite !lookup_insert_ne.
  eexists. split; [done|].
  set (es1 := <[p := set_children (filter (fun c => c <> e) (group_children yp)) yp]> es).
  set (es2 := <[r := set_children (group_children yr ++ [e]) yr]> es1).
  assert (Hes1 : es1 !! r = Some yr) by (unfold es1; by rewrite lookup_insert_ne).
  assert (Hes2 : es2 !! e = Some x) by (unfold es2, es1; by rewrite !lookup_insert_ne).
  assert (HR2 : parents_of es2 = parents_of es).
  { unfold es2. rewrite (parents_insert_same es1 r yr) by done. unfold es1. by rewrite (parents_insert_same es p yp). }
  assert (HR3 : parents_of (<[e := set_root (Some r) x]> es2) = <[e := Some r]> (parents_of es)).
  { by rewrite (parents_insert es2 e _), HR2. }
  split_and!; [done| |].
  - rewrite (data_insert_same es2 e x) by done. unfold es2. rewrite (data_insert_same es1 r yr) by done.
    unfold es1. by rewrite (data_insert_same es p yp).
  - apply (children_moved es _ e r (Some p) x); [done|done|congruence|exact HR3|done|].
    intros q y Hq. destruct (decide (q = e)) as [->|Hqe].
    { rewrite lookup_insert_eq in Hq. injection Hq as <-. exists x. split; [done|].
      rewrite !decide_False by congruence. done. }
    rewrite lookup_insert_ne in Hq by done. unfold es2 in Hq. destruct (decide (q = r)) as [->|Hqr].
    { rewrite lookup_insert_eq in Hq. injection Hq as <-. by exists yr. }
    rewrite lookup_insert_ne in Hq by done. unfold es1 in Hq. destruct (decide (Some q = Some p)) as [[= ->]|Hqp].
    { rewrite lookup_insert_eq in Hq. injection Hq as <-. by exists yp. }
    rewrite lookup_insert_ne in Hq by congruence. by exists y.
Qed.

(** ** Finding the root *)

(** The same groups, with the same data. *)
Definition same_groups es es' : Prop :=
  data_of es' = data_of es /\ forall y r, reaches (parents_of es') y r <-> reaches (parents_of es) y r.

Lemma same_groups_refl es : same_groups es es.
Proof. done. Qed.
Lemma same_groups_trans es1 es2 es3 : same_groups es1 es2 -> same_groups es2 es3 -> same_groups es1 es3.
Proof. intros [H1 H2] [H3 H4]. split; [congruence|]. intros y r. rewrite H4. apply H2. Qed.

Lemma same_groups_dom es es' : same_groups es es' -> dom es' = dom es.
Proof.
  intros [Hd _]. assert (Hdom : forall es0 : elements A, dom (data_of es0) = dom es0) by (intros; apply leibniz_equiv, dom_fmap).
  by rewrite <- (Hdom es), <- (Hdom es'), Hd.
Qed.

Lemma same_groups_size es es' : same_groups es es' -> size es' = size es.
Proof. intros Hs. by rewrite <- !size_dom, (same_groups_dom es es'). Qed.

Lemma find_group_root_spec depth lk es fuel e :
  forest es depth -> e ∈ dom es -> (lower (parents_of es) depth e < fuel)%nat ->
  exists r es', pip_cset_find_group_root fuel lk es e = Some (r, es') /\ reaches (parents_of es) e r /\
    forest es' depth /\ same_groups es es' /\ (lk = true -> es' = es) /\
    forall y, (depth e < depth y)%nat -> parents_of es' !! y = parents_of es !! y.
Proof.
  revert e. induction fuel as [|fuel IH]; intros e Hf He Hfuel; [lia|]. apply elem_of_dom in He as [x Hx].
  pose proof (parents_lookup _ _ _ Hx) as HR. cbn [pip_cset_find_group_root]. rewrite Hx. cbn [mbind option_bind].
  destruct (group_root x) as [p|] eqn:Ep.
  2: { exists e, es. split_and!; try done; by apply reaches_root. }
  pose proof Hf as [Ha Hok]. destruct (Ha _ _ HR) as [Hpd Hlt]. rewrite parents_dom in Hpd.
  pose proof (lower_parent _ _ _ _ Ha HR). destruct (IH p Hf Hpd) as (r & es1 & -> & Hr & Hf1 & Hs1 & Hl1 & Hd1); [lia|].
  cbn [mbind option_bind].
  assert (Hre : reaches (parents_of es) e r) by by apply (reaches_step _ e p r HR).
  destruct (negb lk && negb (r =? p)%nat) eqn:Eb.
  2: { exists r, es1. split_and!; [done|exact Hre|done|done|done|]. intros y Hy. apply Hd1. lia. }
  apply andb_true_iff in Eb as [Elk Erp]. apply negb_true_iff in Elk as ->. apply negb_true_iff, Nat.eqb_neq in Erp.
  pose proof Hf1 as [Ha1 Hok1]. assert (HR1 : parents_of es1 !! e = Some (Some p)) by by rewrite Hd1.
  assert (exists x1, es1 !! e = Some x1 /\ group_root x1 = Some p) as (x1 & Hx1 & Hp1).
  { unfold parents_of in HR1. rewrite lookup_fmap in HR1. destruct (es1 !! e) as [x1|]; [|done]. exists x1. split; [done|].
    by injection HR1. }
  assert (Hr1 : reaches (parents_of es1) p r) by by apply Hs1.
  destruct (compress_spec es1 depth e x1 p r Hf1 Hx1 Hp1 Hr1 Erp) as (es2 & -> & HR2 & Hd2 & Hok2).
  cbn [mbind option_bind]. exists r, es2. split_and!; [done|exact Hre| | |done|].
  - split; [|done]. rewrite HR2. by eapply compress_acyclic.
  - eapply same_groups_trans; [exact Hs1|]. split; [done|]. rewrite HR2. by eapply compress_reaches.
  - intros y Hy. rewrite HR2, lookup_insert_ne by (intros ->; lia). apply Hd1. lia.
Qed.

Lemma find_root_spec depth lk es e : forest es depth -> e ∈ dom es ->
  exists r es', find_root lk es e = Some (r, es') /\ reaches (parents_of es) e r /\
    forest es' depth /\ same_groups es es' /\ (lk = true -> es' = es).
Proof.
  intros Hf He. destruct (find_group_root_spec depth lk es (S (size es)) e Hf He) as (r & es' & H1 & H2 & H3 & H4 & H5 & _).
  - pose proof (lower_bound (parents_of es) depth e). rewrite parents_size in *. lia.
  - by exists r, es'.
Qed.

(** A root is its own root, and nothing changes. *)
Lemma find_root_root lk es e : parents_of es !! e = Some None -> find_root lk es e = Some (e, es).
Proof.
  intros He. unfold parents_of in He. rewrite lookup_fmap in He. destruct (es !! e) as [x|] eqn:Ex; [|done].
  injection He as He. unfold find_root. cbn [pip_cset_find_group_root]. rewrite Ex. cbn [mbind option_bind]. by rewrite He.
Qed.

(** ** Linking two roots *)

Lemma attach_spec es depth a b xa xb n : forest es depth -> es !! a = Some xa -> es !! b = Some xb ->
  group_root xa = None -> group_root xb = None -> a <> b ->
  exists es', attach es a b n = Some es' /\ parents_of es' = <[a := Some b]> (parents_of es) /\ children_ok es' /\
    data_of es' = <[b := (item xb, uint32 (group_size xb + n))]> (data_of es).
Proof.
  intros [Ha Hok] Hxa Hxb Hra Hrb Hab. unfold attach. rewrite (with_element_Some es a xa) by done. cbn [mbind option_bind].
  rewrite (with_element_Some _ b xb) by by rewrite lookup_insert_ne. cbn [mbind option_bind].
  rewrite (with_element_Some _ b (set_children (group_children xb ++ [a]) xb)) by by rewrite lookup_insert_eq.
  eexists. split; [done|]. rewrite insert_insert_eq.
  set (yb := set_size _ _). set (es1 := <[a := set_root (Some b) xa]> es).
  assert (Hes1 : es1 !! b = Some xb) by (unfold es1; by rewrite lookup_insert_ne).
  assert (HR : parents_of (<[b := yb]> es1) = <[a := Some b]> (parents_of es)).
  { rewrite (parents_insert_same es1 b xb) by done. unfold es1. by rewrite parents_insert. }
  split_and!; [exact HR| |].
  - apply (children_moved es _ a b None xa); [done|done|done|exact HR|done|]. intros q y Hq.
    destruct (decide (q = b)) as [->|Hqb].
    { rewrite lookup_insert_eq in Hq. injection Hq as <-. by exists xb. }
    rewrite lookup_insert_ne in Hq by done. unfold es1 in Hq. destruct (decide (q = a)) as [->|Hqa].
    { rewrite lookup_insert_eq in Hq. injection Hq as <-. by exists xa. }
    rewrite lookup_insert_ne in Hq by done. by exists y.
  - unfold data_of at 1. rewrite fmap_insert. fold (data_of es1). unfold es1. by rewrite (data_insert_same es a xa).
Qed.

(** ** Walking a group *)

Definition items_of es (l : list nat) : list A := omap (fun e => item <$> es !! e) l.

(** [func] on the items of some elements, in order. *)
Definition visit {St} es (func : A -> St -> option St) (l : list nat) (s : option St) : option St :=
  foldl (fun s e => s ← s; x ← es !! e; func (item x) s) s l.

Lemma visit_None {St} es (func : A -> St -> option St) l : visit es func l None = None.
Proof. induction l as [|e l IH]; [done|]. exact IH. Qed.

Lemma visit_app {St} es (func : A -> St -> option St) l k s : visit es func (l ++ k) s = visit es func k (visit es func l s).
Proof. apply foldl_app. Qed.

(** What a walk from [e] visits. *)
Definition walk es (l : list nat) (e : nat) : Prop := NoDup l /\ forall y, y ∈ l <-> below (parents_of es) y e.

Lemma walks es depth (cs : list nat) e :
  forest es depth -> NoDup cs -> (forall c, c ∈ cs -> parents_of es !! c = Some (Some e)) ->
  forall ls, Forall2 (walk es) ls cs ->
  NoDup (concat ls) /\ forall y, y ∈ concat ls <-> exists c, c ∈ cs /\ below (parents_of es) y c.
Proof.
  intros [Ha _] Hnd Hpar ls HF. induction HF as [|l c ls cs [Hl Hlb] HF IH]; cbn [concat].
  { split; [constructor|]. intros y. split; [by intros ?%elem_of_nil|]. intros (c & Hc & _). by apply elem_of_nil in Hc. }
  apply NoDup_cons in Hnd as [Hni Hnd]. destruct IH as [Hnd' Hin]; [done|intros; apply Hpar; set_solver|]. split.
  - apply NoDup_app. split_and!; [done| |done]. intros y Hy Hy'. apply Hlb in Hy. apply Hin in Hy' as (c' & Hc' & Hy').
    assert (Hpc : parents_of es !! c = Some (Some e)) by (apply Hpar; set_solver).
    assert (Hpc' : parents_of es !! c' = Some (Some e)) by (apply Hpar; set_solver).
    assert (Hup : forall a b, parents_of es !! a = Some (Some e) -> parents_of es !! b = Some (Some e) ->
      below (parents_of es) a b -> a = b).
    { intros a b Hpa Hpb Hb. inversion Hb as [|? q ? Hq Hqb]; subst; [done|]. assert (q = e) as -> by congruence.
      destruct (Ha _ _ Hpb) as [_ ?]. destruct (below_depth _ _ _ _ Ha Hqb) as [->|]; lia. }
    assert (c = c') as ->; [|done].
    destruct (below_linear _ _ _ _ Hy Hy') as [Hb|Hb]; [by apply Hup|symmetry; by apply Hup].
  - intros y. rewrite elem_of_app, Hlb, Hin. split.
    + intros [Hy|(c' & Hc' & Hy)]; [exists c; set_solver|exists c'; set_solver].
    + intros (c' & [->|Hc']%elem_of_cons & Hy); [by left|right; by exists c'].
Qed.

Lemma group_dfs_spec es depth : forest es depth -> forall fuel e, e ∈ dom es ->
  (higher (parents_of es) depth e < fuel)%nat ->
  exists l, walk es l e /\ forall St (func : A -> St -> option St) s,
    pip_cset_group_dfs fuel es func e s = visit es func l (Some s).
Proof.
  intros Hf fuel. induction fuel as [|fuel IH]; intros e He Hfuel; [lia|]. pose proof Hf as [Ha Hok].
  apply elem_of_dom in He as [x Hx]. destruct (Hok e x Hx) as [Hnd Hch].
  assert (Hls : exists ls, Forall2 (walk es) ls (group_children x) /\
    forall St (func : A -> St -> option St) s,
      foldl (fun s c => s ← s; pip_cset_group_dfs fuel es func c s) s (group_children x) = visit es func (concat ls) s).
  { assert (Hsub : forall cs, (forall c, c ∈ cs -> parents_of es !! c = Some (Some e)) -> exists ls, Forall2 (walk es) ls cs /\
      forall St (func : A -> St -> option St) s,
        foldl (fun s c => s ← s; pip_cset_group_dfs fuel es func c s) s cs = visit es func (concat ls) s).
    { induction cs as [|c cs IHc]; intros Hcs; [by exists []; split; [constructor|]|].
      destruct IHc as (ls & HF & Hv); [intros; apply Hcs; set_solver|].
      assert (Hc : parents_of es !! c = Some (Some e)) by (apply Hcs; set_solver).
      pose proof (higher_child _ _ _ _ Ha Hc). destruct (IH c) as (l & Hl & Hvl); [|lia|].
      { rewrite <- parents_dom. apply elem_of_dom. by eexists. }
      exists (l :: ls). split; [by constructor|]. intros St func s. cbn [foldl concat]. rewrite Hv, visit_app. f_equal.
      destruct s as [s|]; [apply Hvl|symmetry; apply visit_None]. }
    apply Hsub. intros c Hc. by apply Hch. }
  destruct Hls as (ls & HF & Hv). destruct (walks es depth _ e Hf Hnd (fun c Hc => proj1 (Hch c) Hc) ls HF) as [Hnd' Hin].
  exists (e :: concat ls). split; [split|].
  - apply NoDup_cons. split; [|done]. intros (c & Hc & Hb)%Hin. apply Hch in Hc. destruct (Ha _ _ Hc) as [_ Hlt].
    destruct (below_depth _ _ _ _ Ha Hb) as [->|]; lia.
  - intros y. rewrite elem_of_cons, Hin. split.
    + intros [->|(c & Hc & Hb)].
      * apply below_refl. rewrite parents_dom. apply elem_of_dom. by eexists.
      * eapply below_trans; [exact Hb|]. apply Hch in Hc. eapply below_step; [exact Hc|]. apply below_refl.
        rewrite parents_dom. apply elem_of_dom. by eexists.
    + intros Hb. clear -Hb Hch. induction Hb as [|c p e Hc Hb IH]; [by left|]. right.
      destruct IH as [->|(c' & Hc' & Hb')]; [exact Hch|exists c|exists c'].
      * split; [by apply Hch|]. apply below_refl, elem_of_dom. by eexists.
      * split; [done|]. by eapply below_step.
  - intros St func s. cbn [pip_cset_group_dfs]. rewrite Hx. cbn [mbind option_bind]. unfold visit. cbn [foldl].
    fold (visit es func (concat ls)). cbn [mbind option_bind]. rewrite Hx. cbn [mbind option_bind].
    destruct (func (item x) s) as [s'|]; [apply Hv|]. symmetry. apply visit_None.
Qed.
End Forest.

(** ** The operations of connected sets

    For a comparator that orders the items, a set that satisfies [cset_ok] has a search
    tree over its items and a partition of them: adding an item makes a group of its
    own, linking merges two groups, and nothing else changes. *)

Open Scope Z_scope.
#[local] Set Default Proof Using "Type*".

(** What the comparator has to satisfy. *)
Class Comparator {A} (cmp : A -> A -> Z) := {
  cmp_refl x : cmp x x = 0;
  cmp_eq x y z : cmp x z = 0 -> cmp y z = 0 -> cmp x y = 0;
  cmp_lt x y z : cmp x y < 0 -> cmp y z = 0 -> cmp x z < 0;
  cmp_gt x y z : cmp x y > 0 -> cmp y z = 0 -> cmp x z > 0 }.

#[export] Instance pip_variable_sort_comparator {F} : Comparator (pip_variable_sort (F := F)).
Proof.
  split; intros *; unfold pip_variable_sort;
    repeat match goal with |- context [?a <? ?b] => destruct (Z.ltb_spec a b) end; lia.
Qed.

Section Partition.
Context {A : Type} (cmp : A -> A -> Z) `{Comparator A cmp}.
Implicit Types (es : elements A) (set : pip_cset A) (i j k : A) (e r : nat).

Lemma cmp_sym i j : cmp i j = 0 -> cmp j i = 0.
Proof. intros Hij. eapply cmp_eq; [apply cmp_refl|exact Hij]. Qed.
Lemma cmp_trans i j k : cmp i j = 0 -> cmp j k = 0 -> cmp i k = 0.
Proof. intros Hij Hjk. eapply cmp_eq; [exact Hij|by apply cmp_sym]. Qed.

(** ** The search tree *)

Definition item_at es e : option A := item <$> es !! e.

Fixpoint ordered es (t : sort_tree) : Prop :=
  match t with
  | SLeaf => True
  | SNode l e r => exists i, item_at es e = Some i /\
      (forall b j, b ∈ in_order l -> item_at es b = Some j -> cmp i j < 0) /\
      (forall b j, b ∈ in_order r -> item_at es b = Some j -> cmp i j > 0) /\
      ordered es l /\ ordered es r
  end.

Lemma ordered_ext es es' t : (forall e, e ∈ in_order t -> item_at es' e = item_at es e) -> ordered es t -> ordered es' t.
Proof.
  induction t as [|l IHl e r IHr]; [done|]. cbn [ordered in_order]. intros Heq (i & Hi & Hl & Hr & Hol & Hor).
  exists i. rewrite Heq by set_solver. split; [done|]. split_and!.
  - intros b j Hb. rewrite Heq by set_solver. by apply Hl.
  - intros b j Hb. rewrite Heq by set_solver. by apply Hr.
  - apply IHl; [set_solver|done].
  - apply IHr; [set_solver|done].
Qed.

(** The elements that equal an item. *)
Definition elem es i e : Prop := exists j, item_at es e = Some j /\ cmp j i = 0.

Lemma find_node_spec es t i : ordered es t -> exists res, pip_cset_find_node cmp es t i = Some res /\
  match res with
  | Some e => e ∈ in_order t /\ elem es i e
  | None => forall e, e ∈ in_order t -> ~ elem es i e
  end.
Proof.
  induction t as [|l IHl e r IHr]; cbn [ordered in_order pip_cset_find_node].
  { intros _. exists None. split; [done|]. intros e Hn. by apply elem_of_nil in Hn. }
  intros (j & Hj & Hl & Hr & Hol & Hor). unfold item_at in Hj at 1. destruct (es !! e) as [x|] eqn:Ex; [|done].
  injection Hj as <-. cbn [mbind option_bind].
  assert (Hx : item_at es e = Some (item x)) by (unfold item_at; by rewrite Ex).
  destruct (Z.ltb_spec 0 (cmp (item x) i)) as [Hgt|Hle]; [|destruct (Z.ltb_spec (cmp (item x) i) 0) as [Hlt|Hge]].
  - destruct (IHr Hor) as (res & -> & Hres). exists res. split; [done|]. destruct res as [b|].
    + destruct Hres. split; [set_solver|done].
    + intros b [Hb|[->|Hb]%elem_of_cons]%elem_of_app (k & Hk & Hki); [| |by apply (Hres b Hb); exists k].
      2: { rewrite Hx in Hk. injection Hk as <-. lia. }
      specialize (Hl b k Hb Hk). pose proof (cmp_lt _ _ _ Hl Hki). lia.
  - destruct (IHl Hol) as (res & -> & Hres). exists res. split; [done|]. destruct res as [b|].
    + destruct Hres. split; [set_solver|done].
    + intros b [Hb|[->|Hb]%elem_of_cons]%elem_of_app (k & Hk & Hki); [by apply (Hres b Hb); exists k| |].
      * rewrite Hx in Hk. injection Hk as <-. lia.
      * specialize (Hr b k Hb Hk). pose proof (cmp_gt _ _ _ Hr Hki). lia.
  - exists (Some e). split; [done|]. split; [set_solver|]. exists (item x). split; [done|lia].
Qed.

(** An item is in at most one element. *)
Lemma ordered_unique es t i e e' : ordered es t -> NoDup (in_order t) ->
  e ∈ in_order t -> e' ∈ in_order t -> elem es i e -> elem es i e' -> e = e'.
Proof.
  induction t as [|l IHl x r IHr]; cbn [ordered in_order]; [intros _ _ Hn; by apply elem_of_nil in Hn|].
  intros (i0 & Hi0 & Hl & Hr & Hol & Hor) Hnd He He' (j & Hj & Hji) (j' & Hj' & Hji').
  apply NoDup_app in Hnd as (Hndl & Hdis & Hndr). apply NoDup_cons in Hndr as [Hxr Hndr].
  pose proof (cmp_eq _ _ _ Hji Hji') as Hjj.
  assert (Hbelow : forall b b' k k', b ∈ in_order l -> item_at es b = Some k ->
    b' ∈ x :: in_order r -> item_at es b' = Some k' -> cmp k k' = 0 -> False).
  { intros b b' k k' Hb Hk Hb' Hk' Hkk. specialize (Hl b k Hb Hk). pose proof (cmp_lt _ _ _ Hl Hkk).
    apply elem_of_cons in Hb' as [->|Hb']; [|specialize (Hr b' k' Hb' Hk'); lia].
    rewrite Hi0 in Hk'. injection Hk' as <-. pose proof (cmp_refl i0). lia. }
  assert (Hroot : forall b k, b ∈ in_order r -> item_at es b = Some k -> cmp i0 k <> 0).
  { intros b k Hb Hk Hc. specialize (Hr b k Hb Hk). lia. }
  rewrite elem_of_app in He, He'. destruct He as [He|He], He' as [He'|He'].
  - apply IHl; try done; by eexists.
  - exfalso. by eapply (Hbelow e e').
  - exfalso. eapply (Hbelow e' e); [done|done|done|done|by apply cmp_sym].
  - rewrite elem_of_cons in He, He'. destruct He as [->|He], He' as [->|He']; [done| | |].
    + exfalso. rewrite Hi0 in Hj. injection Hj as <-. by eapply Hroot.
    + exfalso. rewrite Hi0 in Hj'. injection Hj' as <-. eapply (Hroot e j); [done|done|by apply cmp_sym].
    + apply IHr; try done; by eexists.
Qed.

Lemma insert_node_spec es es' t i new : ordered es t -> pip_cset_find_node cmp es t i = Some None ->
  (forall e, e ∈ in_order t -> item_at es' e = item_at es e) -> item_at es' new = Some i -> new ∉ in_order t ->
  exists t', insert_node cmp es t i new = Some t' /\ ordered es' t' /\ in_order t' ≡ₚ new :: in_order t.
Proof.
  intros Ho Hf Heq Hnew Hni. induction t as [|l IHl e r IHr].
  { exists (SNode SLeaf new SLeaf). split; [done|]. split; [|done]. exists i. split_and!; try done;
      intros b j Hb; by apply elem_of_nil in Hb. }
  cbn [ordered in_order pip_cset_find_node insert_node] in *. destruct Ho as (j & Hj & Hl & Hr & Hol & Hor).
  unfold item_at in Hj at 1. destruct (es !! e) as [x|] eqn:Ex; [|done]. injection Hj as <-. cbn [mbind option_bind] in *.
  assert (Hx : item_at es' e = Some (item x)) by (rewrite Heq by set_solver; unfold item_at; by rewrite Ex).
  assert (Hkeepl : ordered es' l) by (eapply ordered_ext; [|exact Hol]; set_solver).
  assert (Hkeepr : ordered es' r) by (eapply ordered_ext; [|exact Hor]; set_solver).
  assert (Hl' : forall b k, b ∈ in_order l -> item_at es' b = Some k -> cmp (item x) k < 0).
  { intros b k Hb. rewrite Heq by set_solver. by apply Hl. }
  assert (Hr' : forall b k, b ∈ in_order r -> item_at es' b = Some k -> cmp (item x) k > 0).
  { intros b k Hb. rewrite Heq by set_solver. by apply Hr. }
  destruct (Z.ltb_spec 0 (cmp (item x) i)) as [Hgt|Hle]; [|destruct (Z.ltb_spec (cmp (item x) i) 0) as [Hlt|Hge]; [|done]].
  - destruct (IHr Hor Hf) as (r' & -> & Hor' & Hp); [set_solver|set_solver|]. cbn [mbind option_bind].
    eexists. split; [done|]. cbn [ordered in_order]. split; [|rewrite Hp; solve_Permutation].
    exists (item x). split_and!; try done. intros b k Hb. rewrite Hp in Hb. apply elem_of_cons in Hb as [->|Hb]; [|by apply Hr'].
    rewrite Hnew. intros [= <-]. lia.
  - destruct (IHl Hol Hf) as (l' & -> & Hol' & Hp); [set_solver|set_solver|]. cbn [mbind option_bind].
    eexists. split; [done|]. cbn [ordered in_order]. split; [|rewrite Hp; solve_Permutation].
    exists (item x). split_and!; try done. intros b k Hb. rewrite Hp in Hb. apply elem_of_cons in Hb as [->|Hb]; [|by apply Hl'].
    rewrite Hnew. intros [= <-]. lia.
Qed.
End Partition.

Arguments cmp_sym {A} {cmp} {H}.
Arguments cmp_trans {A} {cmp} {H}.
