(* ===== verification/PipSets.v ===== *)
(** * PipSets: connected sets refine partitions

    The invariant of a connected set, and the operations as operations on the partition
    of its items. *)
From S2P Require Import Prelude.
From S2P Require Import PipVar.
From S2P Require Import PipEqn.
From S2P Require Import PipSample.
From S2P Require Import PipCset.
From S2P Require Import PipCsetCorrect.
Open Scope Z_scope.
#[local] Set Default Proof Using "Type*".

Section Sets.
Context {A : Type} (cmp : A -> A -> Z) `{Comparator A cmp}.
Implicit Types (es : elements A) (set : pip_cset A) (i j k : A) (e r : nat).

(** The size of a root is the size of its group, in 32 bits. *)
Definition sizes_ok es : Prop := forall r x, es !! r = Some x -> group_root x = None ->
  exists l, NoDup l /\ (forall y, y ∈ l <-> reaches (parents_of es) y r) /\ group_size x = uint32 (Z.of_nat (length l)).

Record cset_ok (set : pip_cset A) : Prop := {
  ok_ordered : ordered cmp (els set) (sort_root set);
  ok_nodup : NoDup (in_order (sort_root set));
  ok_dom : forall e, e ∈ in_order (sort_root set) <-> e ∈ dom (els set);
  ok_fresh : forall e, e ∈ dom (els set) <-> (e < size (els set))%nat;
  ok_forest : exists depth, forest (els set) depth;
  ok_sizes : sizes_ok (els set) }.

Definition elem_of set i e : Prop := elem cmp (els set) i e.
Definition present set i : Prop := exists e, elem_of set i e.
Definition same_group set i j : Prop := exists e e' r, elem_of set i e /\ elem_of set j e' /\
  reaches (parents_of (els set)) e r /\ reaches (parents_of (els set)) e' r.

Lemma elem_dom es i e : elem cmp es i e -> e ∈ dom es.
Proof. intros (j & Hj & _). unfold item_at in Hj. destruct (es !! e) eqn:E; [|done]. apply elem_of_dom. by eexists. Qed.

Lemma elem_unique set i e e' : cset_ok set -> elem_of set i e -> elem_of set i e' -> e = e'.
Proof.
  intros Hok He He'. eapply (ordered_unique cmp); [apply (ok_ordered _ Hok)|apply (ok_nodup _ Hok)| | |exact He|exact He'];
    apply (ok_dom _ Hok); by eapply elem_dom.
Qed.

Lemma elem_cmp es i j e : elem cmp es i e -> cmp i j = 0 -> elem cmp es j e.
Proof. intros (k & Hk & Hki) Hij. exists k. split; [done|]. by eapply cmp_trans. Qed.

(** Two items in one element are equal. *)
Lemma elem_same es i j e : elem cmp es i e -> elem cmp es j e -> cmp i j = 0.
Proof. intros (k & Hk & Hki) (k' & Hk' & Hkj). assert (k' = k) as -> by congruence. eapply cmp_trans; [by apply cmp_sym|done]. Qed.

Lemma find_spec set i : cset_ok set -> exists res, pip_cset_find_node cmp (els set) (sort_root set) i = Some res /\
  match res with Some e => elem_of set i e | None => ~ present set i end.
Proof.
  intros Hok. destruct (find_node_spec cmp (els set) (sort_root set) i (ok_ordered _ Hok)) as (res & Hres & Hspec).
  exists res. split; [done|]. destruct res as [e|]; [by destruct Hspec|]. intros [e He].
  apply (Hspec e); [|done]. apply (ok_dom _ Hok). by eapply elem_dom.
Qed.

(** Equal items are in one group; groups are an equivalence on what is present. *)
Lemma same_group_refl set i : cset_ok set -> present set i -> same_group set i i.
Proof.
  intros Hok [e He]. destruct (ok_forest _ Hok) as [depth [Ha _]].
  destruct (reaches_total (parents_of (els set)) depth e Ha) as [r Hr]; [rewrite parents_dom; by eapply elem_dom|].
  by exists e, e, r.
Qed.

Lemma same_group_sym set i j : same_group set i j -> same_group set j i.
Proof. intros (e & e' & r & ? & ? & ? & ?). by exists e', e, r. Qed.

Lemma same_group_trans set i j k : cset_ok set -> same_group set i j -> same_group set j k -> same_group set i k.
Proof.
  intros Hok (e1 & e2 & r & H1 & H2 & Hr1 & Hr2) (e3 & e4 & r' & H3 & H4 & Hr3 & Hr4).
  assert (e3 = e2) as -> by exact (elem_unique set j e3 e2 Hok H3 H2). assert (r' = r) as -> by exact (reaches_fun _ _ _ _ Hr3 Hr2). by exists e1, e4, r.
Qed.

Lemma same_group_cmp set i i' j : same_group set i j -> cmp i i' = 0 -> same_group set i' j.
Proof. intros (e & e' & r & ? & ? & ? & ?) Hc. exists e, e', r. split_and!; try done. by eapply elem_cmp. Qed.

Lemma same_group_present set i j : same_group set i j -> present set i /\ present set j.
Proof. intros (e & e' & r & ? & ? & _ & _). split; by eexists. Qed.

(** ** States with the same groups *)

Lemma item_at_data es e : item_at es e = fst <$> data_of es !! e.
Proof. unfold item_at, data_of. rewrite lookup_fmap. by destruct (es !! e). Qed.

Lemma size_at_data es e : group_size <$> es !! e = snd <$> data_of es !! e.
Proof. unfold data_of. rewrite lookup_fmap. by destruct (es !! e). Qed.

Lemma root_parents es e x : es !! e = Some x -> group_root x = None <-> parents_of es !! e = Some None.
Proof. intros He. rewrite (parents_lookup _ _ _ He). split; congruence. Qed.

Lemma reaches_is_root es e x : es !! e = Some x -> group_root x = None <-> reaches (parents_of es) e e.
Proof.
  intros He. rewrite (root_parents _ _ _ He). split.
  - intros Hr. by apply reaches_root.
  - by intros [_ Hr].
Qed.

Lemma same_groups_sizes es es' : same_groups es es' -> sizes_ok es -> sizes_ok es'.
Proof.
  intros [Hd Hr] Hs r x' Hx' Hroot. apply (reaches_is_root es' r x' Hx'), Hr in Hroot.
  assert (Hsz := size_at_data es' r). rewrite Hd, <- size_at_data, Hx' in Hsz. destruct (es !! r) as [x|] eqn:Ex; [|done].
  injection Hsz as Hsz. apply (reaches_is_root es r x Ex) in Hroot. destruct (Hs r x Ex Hroot) as (l & Hnd & Hl & Hlen).
  exists l. split_and!; [done| |congruence]. intros y. by rewrite Hl, Hr.
Qed.

Lemma same_groups_ok set es' depth n lk : cset_ok set -> forest es' depth -> same_groups (els set) es' ->
  cset_ok (mk_cset (sort_root set) es' n lk).
Proof.
  intros Hok Hf Hs. pose proof (same_groups_dom _ _ Hs) as Hdom. pose proof (same_groups_size _ _ Hs) as Hsize.
  split; cbn [els sort_root].
  - apply (ordered_ext cmp (els set)); [|apply (ok_ordered _ Hok)]. intros e _. rewrite !item_at_data. by destruct Hs as [-> _].
  - apply (ok_nodup _ Hok).
  - intros e. rewrite Hdom. apply (ok_dom _ Hok).
  - intros e. rewrite Hdom, Hsize. apply (ok_fresh _ Hok).
  - by exists depth.
  - eapply same_groups_sizes; [exact Hs|]. apply (ok_sizes _ Hok).
Qed.

Lemma same_groups_partition set es' n lk : same_groups (els set) es' ->
  let set' := mk_cset (sort_root set) es' n lk in
  (forall i e, elem_of set' i e <-> elem_of set i e) /\ (forall i j, same_group set' i j <-> same_group set i j).
Proof.
  intros Hs set'. assert (Hel : forall i e, elem_of set' i e <-> elem_of set i e).
  { intros i e. unfold elem_of, elem. cbn [els set']. by rewrite !item_at_data, (proj1 Hs). }
  split; [exact Hel|]. intros i j. unfold same_group. setoid_rewrite Hel. cbn [els set']. destruct Hs as [_ Hr].
  by setoid_rewrite Hr.
Qed.

(** ** The empty set *)

Lemma init_ok : cset_ok pip_cset_init.
Proof.
  split; cbn [els sort_root pip_cset_init ordered in_order]; try done.
  - constructor.
  - intros e. rewrite dom_empty. set_solver.
  - intros e. rewrite dom_empty, map_size_empty. split; [set_solver|lia].
  - exists (fun _ => 0%nat). split; [intros c p Hc|intros p y Hp]; [unfold parents_of in Hc; by rewrite fmap_empty in Hc|done].
Qed.

Lemma init_empty i : ~ present pip_cset_init i.
Proof. by intros (e & j & Hj & _). Qed.

(** ** Adding *)

Lemma sizes_add es depth n i : forest es depth -> n ∉ dom es -> sizes_ok es -> sizes_ok (<[n := mk_element None [] 1 i]> es).
Proof.
  intros [Ha _] Hn Hs r x Hx Hr. rewrite parents_insert. cbn [group_root].
  assert (Hreach := add_reaches (parents_of es) depth n Ha). rewrite parents_dom in Hreach. specialize (Hreach Hn).
  destruct (decide (r = n)) as [->|Hne].
  - rewrite lookup_insert_eq in Hx. injection Hx as <-. exists [n]. split_and!; [apply NoDup_singleton| |done].
    intros y. rewrite list_elem_of_singleton, Hreach. split; [by right|]. intros [Hy|[-> _]]; [|done].
    destruct Hy as [Hb _]. apply below_dom in Hb as [_ Hb]. rewrite parents_dom in Hb. done.
  - rewrite lookup_insert_ne in Hx by done. destruct (Hs r x Hx Hr) as (l & Hnd & Hl & Hlen). exists l.
    split_and!; [done| |done]. intros y. rewrite Hl, Hreach. split; [by left|]. intros [?|[_ ->]]; done.
Qed.

Lemma forest_add es depth n i : forest es depth -> n ∉ dom es -> forest (<[n := mk_element None [] 1 i]> es) depth.
Proof.
  intros [Ha Hok] Hn. split.
  - rewrite parents_insert. apply add_acyclic; [done|]. by rewrite parents_dom.
  - intros p y Hp. rewrite parents_insert. cbn [group_root]. destruct (decide (p = n)) as [->|Hne].
    + rewrite lookup_insert_eq in Hp. injection Hp as <-. split; [constructor|]. intros c. cbn [group_children].
      split; [by intros ?%elem_of_nil|]. intros Hc. exfalso. destruct (decide (c = n)) as [->|Hcn].
      * by rewrite lookup_insert_eq in Hc.
      * rewrite lookup_insert_ne in Hc by done. destruct (Ha _ _ Hc) as [Hd _]. by rewrite parents_dom in Hd.
    + rewrite lookup_insert_ne in Hp by done. destruct (Hok p y Hp) as [Hnd Hc]. split; [done|]. intros c. rewrite Hc.
      destruct (decide (c = n)) as [->|Hcn]; [|by rewrite lookup_insert_ne].
      rewrite lookup_insert_eq. split; [|done]. intros Hin. exfalso. apply Hn. rewrite <- parents_dom. apply elem_of_dom. by eexists.
Qed.

(** The element of a new item. *)
Lemma elem_add es n i j e : n ∉ dom es -> elem cmp (<[n := mk_element None [] 1 i]> es) j e <->
  elem cmp es j e \/ (e = n /\ cmp i j = 0).
Proof.
  intros Hn. unfold elem, item_at. destruct (decide (e = n)) as [->|Hne].
  - rewrite lookup_insert_eq. apply not_elem_of_dom in Hn. rewrite Hn. split.
    + intros (k & [= <-] & Hk). by right.
    + intros [(k & ? & _)|[_ Hc]]; [done|by exists i].
  - rewrite lookup_insert_ne by done. split; [by left|]. intros [?|[-> _]]; done.
Qed.

Lemma add_spec set i : cset_ok set -> exists b set', pip_cset_add cmp set i = Some (b, set') /\ cset_ok set' /\
  locked set' = locked set /\ (b = true <-> ~ present set i) /\
  (forall j, present set' j <-> present set j \/ cmp i j = 0) /\
  (forall j k, same_group set' j k <-> same_group set j k \/ (cmp i j = 0 /\ cmp i k = 0)) /\
  (forall e j, item_at (els set') e = Some j -> item_at (els set) e = Some j \/ j = i).
Proof.
  intros Hok. unfold pip_cset_add. destruct (find_spec set i Hok) as (res & Hfind & Hres). rewrite Hfind.
  cbn [mbind option_bind]. destruct res as [e|].
  { exists false, set. split_and!; [done|done|done| | | |by left].
    - split; [done|]. intros Hn. exfalso. apply Hn. by exists e.
    - intros j. split; [by left|]. intros [?|Hc]; [done|]. exists e. by eapply elem_cmp.
    - intros j k. split; [by left|]. intros [?|[Hj Hk]]; [done|]. destruct (same_group_refl set i Hok) as (e1 & e2 & r & H1 & H2 & H3 & H4); [by exists e|].
      exists e1, e2, r. split_and!; [by eapply elem_cmp|by eapply elem_cmp|done|done]. }
  set (n := size (els set)). assert (Hn : n ∉ dom (els set)) by (intros Hd; apply (ok_fresh _ Hok) in Hd; unfold n in Hd; lia).
  destruct (ok_forest _ Hok) as [depth Hf].
  destruct (insert_node_spec cmp (els set) (<[n := mk_element None [] 1 i]> (els set)) (sort_root set) i n
    (ok_ordered _ Hok) Hfind) as (t & -> & Hot & Hperm).
  { intros e He. unfold item_at. rewrite lookup_insert_ne; [done|]. intros ->. by apply Hn, (ok_dom _ Hok). }
  { unfold item_at. by rewrite lookup_insert_eq. }
  { intros Hin. by apply Hn, (ok_dom _ Hok). }
  cbn [mbind option_bind]. eexists _, _. split; [done|].
  assert (Hel : forall j e, elem cmp (<[n := mk_element None [] 1 i]> (els set)) j e <-> elem_of set j e \/ (e = n /\ cmp i j = 0))
    by (intros; by apply elem_add).
  assert (Hreach := add_reaches (parents_of (els set)) depth n (proj1 Hf)). rewrite parents_dom in Hreach. specialize (Hreach Hn).
  split_and!; [|done|by split| | |].
  - split; cbn [els sort_root].
    + exact Hot.
    + rewrite Hperm. apply NoDup_cons. split; [|apply (ok_nodup _ Hok)]. intros Hin. by apply Hn, (ok_dom _ Hok).
    + intros e. rewrite Hperm, elem_of_cons, (ok_dom _ Hok), dom_insert. set_solver.
    + intros e. rewrite dom_insert, map_size_insert_None by by apply not_elem_of_dom.
      rewrite elem_of_union, elem_of_singleton, (ok_fresh _ Hok). fold n. lia.
    + exists depth. by apply forest_add.
    + eapply sizes_add; [exact Hf|done|apply (ok_sizes _ Hok)].
  - intros j. unfold present, elem_of. cbn [els]. setoid_rewrite Hel. split.
    + intros (e & [?|[_ ?]]); [left; by exists e|by right].
    + intros [(e & ?)|?]; [exists e; by left|exists n; by right].
  - intros j k. unfold same_group, elem_of. cbn [els]. rewrite parents_insert. cbn [group_root].
    setoid_rewrite Hel. setoid_rewrite Hreach. split.
    + intros (e & e' & r & Hj & Hk & Hr & Hr'). destruct Hr as [Hr|[-> ->]], Hr' as [Hr'|[He' Hrn]]; try subst e'; try subst r.
      * left. exists e, e', r. assert (forall x y, reaches (parents_of (els set)) x y -> x <> n) as Hx.
        { intros x y [Hb _] ->. apply below_dom in Hb as [Hb _]. by rewrite parents_dom in Hb. }
        pose proof (Hx _ _ Hr). pose proof (Hx _ _ Hr'). unfold elem_of. intuition.
      * exfalso. destruct Hr as [Hb _]. apply below_dom in Hb as [_ Hb]. by rewrite parents_dom in Hb.
      * exfalso. destruct Hr' as [Hb _]. apply below_dom in Hb as [_ Hb]. by rewrite parents_dom in Hb.
      * right. destruct Hj as [Hj%elem_dom|[_ ?]], Hk as [Hk%elem_dom|[_ ?]]; first [done|by split].
    + intros [(e & e' & r & ? & ? & ? & ?)|[? ?]]; [exists e, e', r|exists n, n, n]; intuition.
  - intros e j. cbn [els]. unfold item_at. destruct (decide (e = n)) as [->|Hne].
    + rewrite lookup_insert_eq. intros [= <-]. by right.
    + rewrite lookup_insert_ne by done. by left.
Qed.

(** ** Linking *)

(** Recognising the elements of a group. *)
Lemma group_decider es depth a : forest es depth ->
  exists in_a : nat -> bool, forall y, y ∈ dom (parents_of es) -> in_a y = true <-> reaches (parents_of es) y a.
Proof.
  intros Hf. exists (fun y => match find_root true es y with Some (r, _) => bool_decide (r = a) | None => false end).
  intros y Hy. rewrite parents_dom in Hy. destruct (find_root_spec depth true es y Hf Hy) as (r & es' & -> & Hr & _).
  rewrite bool_decide_eq_true. split; [by intros <-|]. intros Hra. by eapply reaches_fun.
Qed.

Lemma uint32_plus (a b : Z) : uint32 (uint32 a + uint32 b) = uint32 (a + b).
Proof. unfold uint32. by rewrite <- Z.add_mod. Qed.

Lemma data_lookup es e x : es !! e = Some x -> data_of es !! e = Some (item x, group_size x).
Proof. intros He. unfold data_of. by rewrite lookup_fmap, He. Qed.

Lemma sizes_attach es es' depth a b xa xb : forest es depth -> es !! a = Some xa -> es !! b = Some xb ->
  group_root xa = None -> group_root xb = None -> a <> b -> sizes_ok es ->
  parents_of es' = <[a := Some b]> (parents_of es) ->
  data_of es' = <[b := (item xb, uint32 (group_size xb + group_size xa))]> (data_of es) -> sizes_ok es'.
Proof.
  intros [Ha _] Hxa Hxb Hra Hrb Hab Hs HR Hd r x Hx Hr.
  pose proof (proj1 (root_parents _ _ _ Hxa) Hra) as Hpa. pose proof (proj1 (root_parents _ _ _ Hxb) Hrb) as Hpb.
  assert (Hreach := attach_reaches _ depth a b Ha Hpa Hpb Hab). rewrite <- HR in Hreach.
  pose proof (proj1 (root_parents _ _ _ Hx) Hr) as Hpr. rewrite HR in Hpr.
  assert (Hra' : r <> a) by (intros ->; by rewrite lookup_insert_eq in Hpr). rewrite lookup_insert_ne in Hpr by done.
  pose proof (data_lookup es' r x Hx) as Hdr. rewrite Hd in Hdr.
  destruct (Hs b xb Hxb Hrb) as (lb & Hndb & Hlb & Hsb). destruct (Hs a xa Hxa Hra) as (la & Hnda & Hla & Hsa).
  destruct (decide (r = b)) as [->|Hne].
  - rewrite lookup_insert_eq in Hdr. injection Hdr as _ Hsize. exists (lb ++ la). split_and!.
    + apply NoDup_app. split_and!; [done| |done]. intros y Hy%Hlb Hy'%Hla. by apply Hab, (reaches_fun (parents_of es) y).
    + intros y. rewrite elem_of_app, Hlb, Hla, Hreach. split.
      * intros [Hy|Hy]; [exists b|exists a]; (split; [done|]); [by rewrite decide_False by congruence|by rewrite decide_True].
      * intros (s & Hy & Hs'). destruct (decide (s = a)) as [->|]; [by right|left; by subst s].
    + rewrite <- Hsize, Hsb, Hsa, uint32_plus, length_app. f_equal. lia.
  - rewrite lookup_insert_ne in Hdr by done. unfold data_of in Hdr. rewrite lookup_fmap in Hdr.
    destruct (es !! r) as [x0|] eqn:Ex0; [|done]. injection Hdr as _ Hsize.
    destruct (Hs r x0 Ex0 (proj2 (root_parents _ _ _ Ex0) Hpr)) as (l & Hnd & Hl & Hlen). exists l. split_and!; [done| |congruence].
    intros y. rewrite Hl, Hreach. split.
    + intros Hy. exists r. split; [done|]. by rewrite decide_False.
    + intros (s & Hy & Hs'). destruct (decide (s = a)) as [->|]; [congruence|by subst s].
Qed.

(** One root under another: their groups become one. *)
Lemma attach_ok set es depth a b xa xb n : cset_ok set -> forest es depth -> same_groups (els set) es ->
  es !! a = Some xa -> es !! b = Some xb -> group_root xa = None -> group_root xb = None -> a <> b ->
  exists es', attach es a b (group_size xa) = Some es' /\ cset_ok (mk_cset (sort_root set) es' n false) /\
    (forall e, item_at es' e = item_at (els set) e) /\
    (forall i e, elem cmp es' i e <-> elem_of set i e) /\
    forall y s, reaches (parents_of es') y s <->
      exists r, reaches (parents_of (els set)) y r /\ s = if decide (r = a) then b else r.
Proof.
  intros Hok Hf Hsame Hxa Hxb Hra Hrb Hab.
  destruct (attach_spec es depth a b xa xb (group_size xa) Hf Hxa Hxb Hra Hrb Hab) as (es' & Hatt & HR & Hch & Hd).
  exists es'. split; [done|].
  pose proof (proj1 (root_parents _ _ _ Hxa) Hra) as Hpa. pose proof (proj1 (root_parents _ _ _ Hxb) Hrb) as Hpb.
  assert (Hitem : forall e, item_at es' e = item_at (els set) e).
  { intros e. rewrite !item_at_data, Hd, <- (proj1 Hsame). destruct (decide (e = b)) as [->|Hne].
    - rewrite lookup_insert_eq. by rewrite (data_lookup _ _ _ Hxb).
    - by rewrite lookup_insert_ne. }
  assert (Hdom : dom es' = dom (els set)).
  { rewrite <- (same_groups_dom _ _ Hsame). rewrite <- (parents_dom es'), HR, dom_insert_lookup_L by by eexists. apply parents_dom. }
  assert (Hsz : size es' = size (els set)) by by rewrite <- !size_dom, Hdom.
  split_and!.
  - split; cbn [els sort_root].
    + apply (ordered_ext cmp (els set)); [by intros e _|]. apply (ok_ordered _ Hok).
    + apply (ok_nodup _ Hok).
    + intros e. rewrite Hdom. apply (ok_dom _ Hok).
    + intros e. rewrite Hdom, Hsz. apply (ok_fresh _ Hok).
    + destruct (group_decider es depth a Hf) as [in_a Hin]. eexists. split; [|done]. rewrite HR.
      by apply attach_acyclic; [apply Hf|..].
    + apply (sizes_attach es es' depth a b xa xb); try done. eapply same_groups_sizes; [exact Hsame|]. apply (ok_sizes _ Hok).
  - exact Hitem.
  - intros i e. unfold elem_of, elem. by rewrite Hitem.
  - intros y s. rewrite HR. rewrite (attach_reaches _ depth a b (proj1 Hf) Hpa Hpb Hab). destruct Hsame as [_ Hs].
    by setoid_rewrite Hs.
Qed.

(** The partition after linking the groups of two items. *)
Definition linked set (a b : A) i j : Prop :=
  same_group set i j \/ (same_group set i a /\ same_group set b j) \/ (same_group set i b /\ same_group set a j).

Lemma attach_linked set set' a b ea eb ra rb : cset_ok set -> elem_of set a ea -> elem_of set b eb ->
  reaches (parents_of (els set)) ea ra -> reaches (parents_of (els set)) eb rb ->
  (forall i e, elem cmp (els set') i e <-> elem_of set i e) ->
  (forall y s, reaches (parents_of (els set')) y s <->
      exists r, reaches (parents_of (els set)) y r /\ s = if decide (r = ra) then rb else r) ->
  forall i j, same_group set' i j <-> linked set a b i j.
Proof.
  intros Hok Hea Heb Hra Hrb Hel Hre i j. unfold same_group at 1. unfold elem_of. setoid_rewrite Hel. setoid_rewrite Hre. split.
  - intros (e & e' & r & Hi & Hj & (s & Hs & ->) & (s' & Hs' & Heq)).
    destruct (decide (s = ra)) as [->|Hne], (decide (s' = ra)) as [->|Hne'].
    + left. by exists e, e', ra.
    + right. left. subst s'. split; [by exists e, ea, ra|by exists eb, e', rb].
    + right. right. subst s. split; [by exists e, eb, rb|by exists ea, e', ra].
    + subst s'. left. by exists e, e', s.
  - assert (Hgo : forall x y, same_group set x y -> forall e e', elem_of set x e -> elem_of set y e' ->
      forall s, reaches (parents_of (els set)) e s -> reaches (parents_of (els set)) e' s).
    { intros x y (e1 & e2 & r & H1 & H2 & H3 & H4) e e' He He' s Hs.
      rewrite (elem_unique set x e e1 Hok He H1) in Hs. rewrite (elem_unique set y e' e2 Hok He' H2).
      by rewrite (reaches_fun _ _ _ _ Hs H3). }
    intros [(e & e' & r & Hi & Hj & Hr & Hr')|[[Hia Hbj]|[Hib Haj]]].
    + exists e, e', (if decide (r = ra) then rb else r). split_and!; [done|done|by exists r|by exists r].
    + destruct (same_group_present _ _ _ Hia) as [[e He] _], (same_group_present _ _ _ Hbj) as [_ [e' He']].
      exists e, e', rb. split_and!; [done|done|exists ra|exists rb].
      * split; [|by rewrite decide_True]. eapply (Hgo a i); [by apply same_group_sym|done|done|done].
      * split; [|by destruct (decide (rb = ra))]. by eapply (Hgo b j).
    + destruct (same_group_present _ _ _ Hib) as [[e He] _], (same_group_present _ _ _ Haj) as [_ [e' He']].
      exists e, e', rb. split_and!; [done|done|exists rb|exists ra].
      * split; [|by destruct (decide (rb = ra))].
        eapply (Hgo b i); [by apply same_group_sym|done|done|done].
      * split; [|by rewrite decide_True]. by eapply (Hgo a j).
Qed.

Lemma reaches_element es e r : reaches (parents_of es) e r -> exists x, es !! r = Some x /\ group_root x = None.
Proof.
  intros [_ Hr]. unfold parents_of in Hr. rewrite lookup_fmap in Hr. destruct (es !! r) as [x|]; [|done].
  injection Hr as Hr. by exists x.
Qed.

Lemma linked_sym set a b i j : linked set a b i j <-> linked set b a i j.
Proof. unfold linked. tauto. Qed.

(** Nothing to do. *)
Lemma linked_same set a b i j : cset_ok set -> same_group set a b -> same_group set i j <-> linked set a b i j.
Proof.
  intros Hok Hab. split; [by left|]. intros [?|[[H1 H2]|[H1 H2]]]; [done| |].
  - eapply same_group_trans; [done|exact H1|]. eapply same_group_trans; [done|exact Hab|done].
  - eapply same_group_trans; [done|exact H1|]. eapply same_group_trans; [done|exact (same_group_sym _ _ _ Hab)|done].
Qed.

Lemma linked_absent set a b i j : ~ present set a \/ ~ present set b -> same_group set i j <-> linked set a b i j.
Proof.
  intros Hn. split; [by left|]. intros [?|[[H1 H2]|[H1 H2]]]; [done| |];
    apply same_group_present in H1, H2; destruct H1, H2; tauto.
Qed.

(** The roots of two elements. *)
Lemma two_roots set lk e e' : cset_ok set -> e ∈ dom (els set) -> e' ∈ dom (els set) ->
  exists r es1 r' es2 depth, find_root lk (els set) e = Some (r, es1) /\ find_root lk es1 e' = Some (r', es2) /\
    reaches (parents_of (els set)) e r /\ reaches (parents_of (els set)) e' r' /\
    forest es2 depth /\ same_groups (els set) es2.
Proof.
  intros Hok He He'. destruct (ok_forest _ Hok) as [depth Hf].
  destruct (find_root_spec depth lk _ e Hf He) as (r & es1 & H1 & Hr & Hf1 & Hs1 & _).
  assert (He1 : e' ∈ dom es1) by by rewrite (same_groups_dom _ _ Hs1).
  destruct (find_root_spec depth lk _ e' Hf1 He1) as (r' & es2 & H2 & Hr' & Hf2 & Hs2 & _).
  exists r, es1, r', es2, depth. split_and!; [done|done|done| |done|by eapply same_groups_trans].
  by apply (proj2 Hs1).
Qed.

Lemma attach_either set es depth ra rb xa xb n a b ea eb : cset_ok set -> forest es depth -> same_groups (els set) es ->
  elem_of set a ea -> elem_of set b eb ->
  reaches (parents_of (els set)) ea ra -> reaches (parents_of (els set)) eb rb ->
  es !! ra = Some xa -> es !! rb = Some xb -> ra <> rb ->
  exists es', attach es ra rb (group_size xa) = Some es' /\ cset_ok (mk_cset (sort_root set) es' n false) /\
    (forall e, item_at es' e = item_at (els set) e) /\
    (forall i, present (mk_cset (sort_root set) es' n false) i <-> present set i) /\
    forall i j, same_group (mk_cset (sort_root set) es' n false) i j <-> linked set a b i j.
Proof.
  intros Hok Hf Hs Hea Heb Hra Hrb Hxa Hxb Hne.
  assert (Hroot : forall e r x, reaches (parents_of (els set)) e r -> es !! r = Some x -> group_root x = None).
  { intros e r x Hr Hx. apply (proj2 Hs), reaches_element in Hr as (y & Hy & Hyr). congruence. }
  destruct (attach_ok set es depth ra rb xa xb n Hok Hf Hs Hxa Hxb (Hroot _ _ _ Hra Hxa) (Hroot _ _ _ Hrb Hxb) Hne)
    as (es' & Hatt & Hok' & Hitem & Hel & Hre).
  exists es'. split_and!; [done|done|done| |].
  - intros i. unfold present, elem_of. cbn [els]. by setoid_rewrite Hel.
  - by apply (attach_linked set (mk_cset (sort_root set) es' n false) a b ea eb ra rb).
Qed.

Lemma link_spec set a b : cset_ok set -> locked set = false ->
  exists set', pip_cset_link cmp set a b = Some set' /\ cset_ok set' /\ locked set' = false /\
    (forall e, item_at (els set') e = item_at (els set) e) /\
    (forall i, present set' i <-> present set i) /\ forall i j, same_group set' i j <-> linked set a b i j.
Proof.
  intros Hok Hlk. unfold pip_cset_link.
  destruct (find_spec set a Hok) as (ra & -> & Ha), (find_spec set b Hok) as (rb & -> & Hb). cbn [mbind option_bind].
  destruct ra as [ea|], rb as [eb|]; try (exists set; split_and!; try done; intros i j; apply linked_absent; tauto).
  rewrite Hlk. destruct (two_roots set false ea eb Hok (elem_dom _ _ _ Ha) (elem_dom _ _ _ Hb))
    as (r & es1 & r' & es2 & depth & -> & H2 & Hr & Hr' & Hf & Hs).
  cbn [mbind option_bind]. rewrite H2. cbn [mbind option_bind]. destruct (Nat.eqb_spec r r') as [->|Hne].
  - eexists. split; [done|]. destruct (same_groups_partition set es2 (cset_size set) false Hs) as [Hel Hsg].
    split_and!; [by eapply same_groups_ok|done| | |].
    + intros e. cbn [els]. by rewrite !item_at_data, (proj1 Hs).
    + intros i. unfold present. by setoid_rewrite Hel.
    + intros i j. rewrite Hsg. apply linked_same; [done|]. by exists ea, eb, r'.
  - destruct (reaches_element es2 ea r) as (xa & Hxa & _); [by apply (proj2 Hs)|].
    destruct (reaches_element es2 eb r') as (xb & Hxb & _); [by apply (proj2 Hs)|].
    rewrite Hxa, Hxb. cbn [mbind option_bind]. destruct (group_size xa <? group_size xb).
    + destruct (attach_either set es2 depth r r' xa xb (cset_size set) a b ea eb) as (es' & -> & Hok' & Hit & Hp & Hl); try done.
      eexists. split; [done|]. by split_and!.
    + destruct (attach_either set es2 depth r' r xb xa (cset_size set) b a eb ea) as (es' & -> & Hok' & Hit & Hp & Hl); try done.
      eexists. split; [done|]. split_and!; [done|done|done|done|]. intros i j. rewrite Hl. apply linked_sym.
Qed.

(** ** Queries *)

Lemma test_link_spec set a b : cset_ok set -> present set a -> present set b ->
  exists set' (found : bool), pip_cset_test_link cmp set a b = Some (found, set') /\ (found = true <-> same_group set a b) /\ cset_ok set' /\
    (forall i j, same_group set' i j <-> same_group set i j).
Proof.
  intros Hok [ea Ha] [eb Hb]. unfold pip_cset_test_link.
  destruct (find_spec set a Hok) as (ra & -> & Ha'), (find_spec set b Hok) as (rb & -> & Hb'). cbn [mbind option_bind].
  destruct ra as [ea'|]; [|by destruct Ha'; exists ea]. destruct rb as [eb'|]; [|by destruct Hb'; exists eb].
  assert (ea' = ea) as -> by by eapply (elem_unique set a). assert (eb' = eb) as -> by by eapply (elem_unique set b).
  cbn [mbind option_bind]. destruct (two_roots set (locked set) ea eb Hok (elem_dom _ _ _ Ha) (elem_dom _ _ _ Hb))
    as (r & es1 & r' & es2 & depth & -> & H2 & Hr & Hr' & Hf & Hs).
  cbn [mbind option_bind]. rewrite H2. eexists _, _. split; [done|]. split_and!; [|by eapply same_groups_ok|].
  - rewrite Nat.eqb_eq. split; [intros <-; by exists ea, eb, r|]. intros (e & e' & s & H1 & H3 & Hs1 & Hs2).
    rewrite (elem_unique set a e ea Hok H1 Ha) in Hs1. rewrite (elem_unique set b e' eb Hok H3 Hb) in Hs2.
    rewrite (reaches_fun _ _ _ _ Hr Hs1). by rewrite (reaches_fun _ _ _ _ Hr' Hs2).
  - intros i j. by apply same_groups_partition.
Qed.

(** The elements of the group of a root. *)
Definition members set r (l : list nat) : Prop := NoDup l /\ forall e, e ∈ l <-> reaches (parents_of (els set)) e r.

Lemma group_size_spec set r : cset_ok set -> reaches (parents_of (els set)) r r ->
  exists l, members set r l /\ pip_cset_group_size set r =
    Some (uint32 (Z.of_nat (length l)), mk_cset (sort_root set) (els set) (cset_size set) (locked set)).
Proof.
  intros Hok Hr. unfold pip_cset_group_size. rewrite find_root_root by by destruct Hr. cbn [mbind option_bind].
  destruct (reaches_element _ _ _ Hr) as (x & Hx & Hroot). rewrite Hx. cbn [mbind option_bind].
  destruct (ok_sizes _ Hok r x Hx Hroot) as (l & Hnd & Hl & ->). by exists l.
Qed.

(** Walking the group of a root. *)
Lemma iterate_group_spec set r : cset_ok set -> reaches (parents_of (els set)) r r ->
  exists l, members set r l /\ forall St (func : A -> St -> option St) s,
    pip_cset_iterate_group set func r s =
      (s ← visit (els set) func l (Some s); Some (s, mk_cset (sort_root set) (els set) (cset_size set) (locked set))).
Proof.
  intros Hok Hr. destruct (ok_forest _ Hok) as [depth Hf]. destruct Hr as [Hb Hr].
  destruct (group_dfs_spec (els set) depth Hf (S (size (els set))) r) as (l & [Hnd Hl] & Hv).
  - rewrite <- parents_dom. by eapply below_dom.
  - pose proof (higher_bound (parents_of (els set)) depth r). rewrite parents_size in *. lia.
  - exists l. split.
    + split; [done|]. intros e. rewrite Hl. split; [by split|by intros [? _]].
    + intros St func s. unfold pip_cset_iterate_group. rewrite find_root_root by done. cbn [mbind option_bind]. by rewrite Hv.
Qed.
End Sets.
