(* ===== verification/PipGroups.v ===== *)
(** * PipGroups: the variables of a clause in groups

    [pip_clause_to_cset] puts the variables of a clause into a connected set whose
    groups are the classes of the least equivalence that relates the variables of one
    atom. *)
From S2P Require Import Prelude.
From S2P Require Import PipVar.
From S2P Require Import PipEqn.
From S2P Require Import PipRep.
From S2P Require Import PipCompose.
From S2P Require Import PipSample.
From S2P Require Import PipCset.
From S2P Require Import PipCsetCorrect.
From S2P Require Import PipSets.
Open Scope Z_scope.

Section Groups.
Context {F : Type} `{Float8 F}.
Implicit Types (set : pip_cset (pip_var F)) (v w : pip_var F) (N : list (pip_var F)).

Abbreviation cmp := (pip_variable_sort (F := F)).
Abbreviation cset_ok := (cset_ok cmp).
Abbreviation present := (present cmp).
Abbreviation same_group := (same_group cmp).

(** ** Variables *)

Fixpoint nodes (t : eqn F) : list (pip_var F) :=
  match t with
  | Const _ | Sub _ => []
  | Var v => [v]
  | Mult l r | Add l r => nodes l ++ nodes r
  | Nega t => nodes t
  | Cnstrt t l r => nodes t ++ nodes l ++ nodes r
  end.

(** A variable that equals one of [N]. *)
Definition among N v : bool := existsb (pip_var_eq v) N.

Lemma occurs_nodes v t : occurs v t = among (nodes t) v.
Proof.
  unfold among. induction t as [c|w|l IHl r IHr|l IHl r IHr|t IH|t IH l IHl r IHr|k]; cbn [occurs nodes];
    rewrite ?existsb_app; try congruence; try done. cbn [existsb]. by rewrite orb_false_r.
Qed.

Lemma var_eq_cmp v w : pip_var_eq v w = true <-> cmp v w = 0.
Proof.
  unfold pip_var_eq, pip_var_id_eq, pip_variable_sort. rewrite andb_true_iff, !Z.eqb_eq.
  repeat match goal with |- context [?a <? ?b] => destruct (Z.ltb_spec a b) end; lia.
Qed.

Lemma among_spec N v : among N v = true <-> exists w, w ∈ N /\ cmp v w = 0.
Proof.
  unfold among. rewrite existsb_exists. setoid_rewrite var_eq_cmp. setoid_rewrite list_elem_of_In. done.
Qed.

Lemma among_app N M v : among (N ++ M) v = among N v || among M v.
Proof. apply existsb_app. Qed.

(** ** Clusters *)

(** [set'] is [set] with the variables [N] added and put into one group. *)
Record clustered set set' N : Prop := {
  cl_ok : cset_ok set';
  cl_unlocked : locked set' = false;
  cl_present v : present set' v <-> present set v \/ among N v = true;
  cl_keeps v w : same_group set v w -> same_group set' v w;
  cl_joins v w : among N v = true -> among N w = true -> same_group set' v w;
  cl_least (E : pip_var F -> pip_var F -> Prop) : Symmetric E -> Transitive E ->
    (forall v w, same_group set v w -> E v w) -> (forall v w, among N v = true -> among N w = true -> E v w) ->
    forall v w, same_group set' v w -> E v w;
  cl_items e v : item_at (els set') e = Some v -> item_at (els set) e = Some v \/ v ∈ N }.

Lemma clustered_nil set : cset_ok set -> locked set = false -> clustered set set [].
Proof. intros Hok Hl. split; try done; intros; auto. split; [by left|]. by intros [?|?]. Qed.

Lemma clustered_var set v : cset_ok set -> locked set = false ->
  exists b set', pip_cset_add cmp set v = Some (b, set') /\ clustered set set' [v].
Proof.
  intros Hok Hl. destruct (add_spec cmp set v Hok) as (b & set' & Hadd & Hok' & Hl' & _ & Hp & Hg & Hi).
  assert (Ham : forall w, among [v] w = true <-> cmp v w = 0).
  { intros w. unfold among. cbn [existsb]. rewrite orb_false_r, var_eq_cmp. split; apply cmp_sym. }
  exists b, set'. split; [done|]. split; [done|congruence| | | | |].
  - intros w. by rewrite Hp, Ham.
  - intros x y Hxy. apply Hg. by left.
  - intros x y Hx Hy. apply Hg. right. by rewrite <- !Ham.
  - intros E _ _ H1 H2 x y [?|[? ?]]%Hg; [by apply H1|apply H2; by apply Ham].
  - intros e w Hw. destruct (Hi e w Hw) as [?| ->]; [by left|right; by apply list_elem_of_singleton].
Qed.

(** What the function returns for some variables: one of them if there is any. *)
Definition first_spec (o : option (pip_var F)) N : Prop :=
  match o with Some v => among N v = true | None => N = [] end.

Lemma first_of_spec x y N M : first_spec x N -> first_spec y M -> first_spec (first_of x y) (N ++ M).
Proof.
  intros Hx Hy. destruct x as [v|]; cbn [first_of first_spec] in *.
  - by rewrite among_app, Hx.
  - subst N. exact Hy.
Qed.

Lemma clustered_link set set1 set2 N M x y : clustered set set1 N -> clustered set1 set2 M ->
  (first_spec x N /\ first_spec y M \/ first_spec x M /\ first_spec y N) ->
  exists set3, link_both set2 x y = Some set3 /\ clustered set set3 (N ++ M).
Proof.
  intros H1 H2 Hxy.
  assert (Hcat : (N = [] \/ M = []) -> clustered set set2 (N ++ M)).
  { intros Hempty. split; [apply (cl_ok _ _ _ H2)|apply (cl_unlocked _ _ _ H2)| | | | |].
    - intros v. rewrite (cl_present _ _ _ H2), (cl_present _ _ _ H1), among_app, orb_true_iff. tauto.
    - intros v w Hvw. by apply (cl_keeps _ _ _ H2), (cl_keeps _ _ _ H1).
    - intros v w. destruct Hempty as [-> | ->]; rewrite ?app_nil_r; cbn [app]; intros Hv Hw;
        [by apply (cl_joins _ _ _ H2)|by apply (cl_keeps _ _ _ H2), (cl_joins _ _ _ H1)].
    - intros E Hs Ht He Hj. apply (cl_least _ _ _ H2 E Hs Ht).
      + apply (cl_least _ _ _ H1 E Hs Ht He). intros v w Hv Hw. apply Hj; by rewrite among_app, ?Hv, ?Hw.
      + intros v w Hv Hw. apply Hj; by rewrite among_app, ?Hv, ?Hw, orb_true_r.
    - intros e v [[?|?]%(cl_items _ _ _ H1)|?]%(cl_items _ _ _ H2); set_solver. }
  destruct x as [a|], y as [b|]; cbn [first_spec link_both] in *.
  2-4: exists set2; split; [done|apply Hcat; tauto].
  destruct (link_spec cmp set2 a b (cl_ok _ _ _ H2) (cl_unlocked _ _ _ H2)) as (set3 & -> & Hok & Hl & Hit & Hp & Hg).
  exists set3. split; [done|].
  assert (Hjoin2 : forall v w, among N v = true -> among N w = true -> same_group set2 v w)
    by (intros; by apply (cl_keeps _ _ _ H2), (cl_joins _ _ _ H1)).
  split; [done|done| | | | |].
  - intros v. rewrite Hp, (cl_present _ _ _ H2), (cl_present _ _ _ H1), among_app, orb_true_iff. tauto.
  - intros v w Hvw. apply Hg. left. by apply (cl_keeps _ _ _ H2), (cl_keeps _ _ _ H1).
  - intros v w. rewrite !among_app, !orb_true_iff. intros Hv Hw. apply Hg. unfold linked.
    pose proof (cl_joins _ _ _ H2) as HM. destruct Hxy as [[Ha Hb]|[Ha Hb]], Hv as [Hv|Hv], Hw as [Hw|Hw]; auto.
  - intros E Hs Ht He Hj.
    assert (HE : forall v w, among (N ++ M) v = true -> among (N ++ M) w = true -> E v w) by exact Hj.
    assert (H2E : forall v w, same_group set2 v w -> E v w).
    { apply (cl_least _ _ _ H2 E Hs Ht).
      - apply (cl_least _ _ _ H1 E Hs Ht He). intros v w Hv Hw. apply Hj; by rewrite among_app, ?Hv, ?Hw.
      - intros v w Hv Hw. apply Hj; by rewrite among_app, ?Hv, ?Hw, orb_true_r. }
    assert (Hab : E a b /\ E b a).
    { destruct Hxy as [[Ha Hb]|[Ha Hb]]; split; apply Hj; by rewrite among_app, ?Ha, ?Hb, ?orb_true_r. }
    intros v w [?|[[Hva Hbw]|[Hvb Haw]]]%Hg; [by apply H2E| |].
    + apply (Ht v a w); [by apply H2E|]. apply (Ht a b w); [tauto|by apply H2E].
    + apply (Ht v b w); [by apply H2E|]. apply (Ht b a w); [tauto|by apply H2E].
  - intros e v. rewrite Hit. intros [[?|?]%(cl_items _ _ _ H1)|?]%(cl_items _ _ _ H2); set_solver.
Qed.

(** ** Equations *)

Lemma clustered_perm set set' N M : (forall v, v ∈ N <-> v ∈ M) -> clustered set set' N -> clustered set set' M.
Proof.
  intros Hp Hc. assert (Ham : forall v, among N v = true <-> among M v = true).
  { intros v. rewrite !among_spec. by setoid_rewrite Hp. }
  split; [apply (cl_ok _ _ _ Hc)|apply (cl_unlocked _ _ _ Hc)| |apply (cl_keeps _ _ _ Hc)| | |].
  - intros v. by rewrite (cl_present _ _ _ Hc), Ham.
  - intros v w Hv%Ham Hw%Ham. by apply (cl_joins _ _ _ Hc).
  - intros E Hs Ht He Hj. apply (cl_least _ _ _ Hc E Hs Ht He). intros v w Hv%Ham Hw%Ham. by apply Hj.
  - intros e v [?|?]%(cl_items _ _ _ Hc); [by left|right; by apply Hp].
Qed.

Lemma first_spec_perm x N M : (forall v, v ∈ N <-> v ∈ M) -> first_spec x N -> first_spec x M.
Proof.
  intros Hp. destruct x as [v|]; cbn [first_spec].
  - rewrite !among_spec. by setoid_rewrite Hp.
  - intros ->. destruct M as [|v M]; [done|]. assert (Hv : v ∈ []) by (apply Hp; set_solver). by apply elem_of_nil in Hv.
Qed.

Lemma to_cset_spec m b o t X : holds m b o t X -> forall fuel set, (height t <= fuel)%nat ->
  cset_ok set -> locked set = false ->
  exists x set', pip_eqn_cmpnt_to_cset fuel m b o set = Some (x, set') /\
    clustered set set' (nodes t) /\ first_spec x (nodes t).
Proof.
  induction 1 as [b o c Hc|b o w Hc|b o p k Hc|b o l r tl tr X Y Hc Hl IHl Hr IHr _ _|b o l r tl tr X Y Hc Hl IHl Hr IHr _ _
    |b o p t X Hc Ht IH _|b o l r n pl pr t tl tr X Y Z Hc Ha Ht IH Hl IHl Hr IHr _ _];
    intros fuel set Hf Hok Hlk; (destruct fuel as [|fuel]; [simpl in Hf; lia|]);
    cbn [pip_eqn_cmpnt_to_cset height nodes] in *; rewrite (read_component _ _ _ Hc); cbn [mbind option_bind].
  - exists None, set. split_and!; [done|by apply clustered_nil|done].
  - destruct (clustered_var set w Hok Hlk) as (b' & set' & -> & Hcl). cbn [mbind option_bind].
    exists (Some w), set'. split_and!; [done|done|]. cbn [first_spec]. apply among_spec. exists w.
    split; [by apply list_elem_of_singleton|apply cmp_refl].
  - exists None, set. split_and!; [done|by apply clustered_nil|done].
  - destruct (IHl fuel set) as (x & set1 & -> & H1 & Hx); [lia|done|done|]. cbn [mbind option_bind].
    destruct (IHr fuel set1) as (y & set2 & -> & H2 & Hy); [lia|apply H1|apply H1|]. cbn [mbind option_bind].
    destruct (clustered_link _ _ _ _ _ x y H1 H2) as (set3 & -> & H3); [by left|]. cbn [mbind option_bind].
    eexists _, set3. split_and!; [done|done|by apply first_of_spec].
  - destruct (IHl fuel set) as (x & set1 & -> & H1 & Hx); [lia|done|done|]. cbn [mbind option_bind].
    destruct (IHr fuel set1) as (y & set2 & -> & H2 & Hy); [lia|apply H1|apply H1|]. cbn [mbind option_bind].
    destruct (clustered_link _ _ _ _ _ x y H1 H2) as (set3 & -> & H3); [by left|]. cbn [mbind option_bind].
    eexists _, set3. split_and!; [done|done|by apply first_of_spec].
  - apply IH; [lia|done|done].
  - unfold read_atom. rewrite Ha. cbn [mbind option_bind].
    destruct (IH fuel set) as (x & set1 & -> & H1 & Hx); [lia|done|done|]. cbn [mbind option_bind].
    destruct (IHr fuel set1) as (y & set2 & -> & H2 & Hy); [lia|apply H1|apply H1|]. cbn [mbind option_bind].
    destruct (clustered_link _ _ _ _ _ x y H1 H2) as (set3 & -> & H3); [by left|]. cbn [mbind option_bind].
    destruct (IHl fuel set3) as (z & set4 & -> & H4 & Hz); [lia|apply H3|apply H3|]. cbn [mbind option_bind].
    pose proof (first_of_spec x y _ _ Hx Hy) as Hxy.
    destruct (clustered_link _ _ _ _ _ z (first_of x y) H3 H4) as (set5 & -> & H5); [by right|]. cbn [mbind option_bind].
    eexists _, set5. split_and!; [done| |].
    + eapply clustered_perm; [|exact H5]. intros v. rewrite !elem_of_app. tauto.
    + eapply first_spec_perm; [|exact (first_of_spec z _ _ _ Hz Hxy)]. intros v. rewrite !elem_of_app. tauto.
Qed.

(** ** Clauses *)

Definition atom_nodes (c : eqn F * eqn F) : list (pip_var F) := nodes (fst c) ++ nodes (snd c).

Lemma atom_to_cset_spec a c set : constraint_of a c -> cset_ok set -> locked set = false ->
  exists set', atom_to_cset true a set = Some set' /\ clustered set set' (atom_nodes c).
Proof.
  intros Ha Hok Hl. destruct Ha as [(X & Y & HX & HY & _) _]. unfold atom_to_cset.
  pose proof (holds_fuel _ _ _ _ _ HX) as Hfx. pose proof (holds_fuel _ _ _ _ _ HY) as Hfy.
  destruct (to_cset_spec _ _ _ _ _ HX (fuel_of (atom_data a)) set) as (x & set1 & -> & H1 & Hx); [lia|done|done|].
  cbn [mbind option_bind].
  destruct (to_cset_spec _ _ _ _ _ HY (fuel_of (atom_data a)) set1) as (y & set2 & -> & H2 & Hy); [lia|apply H1|apply H1|].
  cbn [mbind option_bind]. apply (clustered_link _ _ _ _ _ x y H1 H2). by left.
Qed.

(** The set of a clause: its variables, in groups. *)
Record grouped set (cs : list (eqn F * eqn F)) : Prop := {
  gr_ok : cset_ok set;
  gr_unlocked : locked set = false;
  gr_present v : present set v <-> exists c, c ∈ cs /\ among (atom_nodes c) v = true;
  gr_joins c v w : c ∈ cs -> among (atom_nodes c) v = true -> among (atom_nodes c) w = true -> same_group set v w;
  gr_least (E : pip_var F -> pip_var F -> Prop) : Symmetric E -> Transitive E ->
    (forall c v w, c ∈ cs -> among (atom_nodes c) v = true -> among (atom_nodes c) w = true -> E v w) ->
    forall v w, same_group set v w -> E v w;
  gr_items e v : item_at (els set) e = Some v -> exists c, c ∈ cs /\ v ∈ atom_nodes c }.

Lemma grouped_nil : grouped pip_cset_init [].
Proof.
  split; try done.
  - exact (init_ok cmp).
  - intros v. split; [intros Hv; by destruct (init_empty cmp v Hv)|]. intros (c & Hc & _). by apply elem_of_nil in Hc.
  - intros c v w Hc. by apply elem_of_nil in Hc.
  - intros E _ _ _ v w Hg. destruct (same_group_present cmp _ _ _ Hg) as [Hv _]. by destruct (init_empty cmp v Hv).
Qed.

Lemma grouped_snoc set set' cs c : grouped set cs -> clustered set set' (atom_nodes c) -> grouped set' (cs ++ [c]).
Proof.
  intros Hg Hc. split.
  - apply Hc.
  - apply Hc.
  - intros v. rewrite (cl_present _ _ _ Hc), (gr_present _ _ Hg). setoid_rewrite elem_of_app.
    setoid_rewrite list_elem_of_singleton. split.
    + intros [(d & ? & ?)|?]; [exists d|exists c]; split; auto.
    + intros (d & [?| ->] & ?); [left; by exists d|by right].
  - intros d v w [Hd| ->%list_elem_of_singleton]%elem_of_app Hv Hw.
    + apply (cl_keeps _ _ _ Hc). by apply (gr_joins _ _ Hg d).
    + by apply (cl_joins _ _ _ Hc).
  - intros E Hs Ht He. apply (cl_least _ _ _ Hc E Hs Ht).
    + apply (gr_least _ _ Hg E Hs Ht). intros d v w Hd. apply He. by apply elem_of_app; left.
    + intros v w. apply He, elem_of_app. right. by apply list_elem_of_singleton.
  - intros e v [(d & Hd & Hv)%(gr_items _ _ Hg)|Hv]%(cl_items _ _ _ Hc); [exists d|exists c]; set_solver.
Qed.

Lemma clause_to_cset_spec clause cs : Forall2 constraint_of clause cs ->
  exists set, pip_clause_to_cset true clause = Some set /\ grouped set cs.
Proof.
  intros HF. unfold pip_clause_to_cset.
  assert (Hgo : forall set0 cs0, grouped set0 cs0 -> exists set,
    foldl (fun o a => s ← o; atom_to_cset true a s) (Some set0) clause = Some set /\ grouped set (cs0 ++ cs)).
  { induction HF as [|a c clause cs Ha HF IH]; intros set0 cs0 Hg; [exists set0; by rewrite app_nil_r|].
    cbn [foldl mbind option_bind]. destruct (atom_to_cset_spec a c set0 Ha (gr_ok _ _ Hg) (gr_unlocked _ _ Hg)) as (set1 & -> & H1).
    destruct (IH set1 (cs0 ++ [c]) (grouped_snoc _ _ _ _ Hg H1)) as (set & Hset & Hgr). exists set. split; [done|].
    by rewrite <- app_assoc in Hgr. }
  destruct (Hgo pip_cset_init [] grouped_nil) as (set & Hset & Hg). by exists set.
Qed.
End Groups.
