(* ===== verification/PipIntegrate.v ===== *)
(** * PipIntegrate: probabilities of clauses, group by group

    [pip_group_atoms] moves the atoms of a group behind those of the groups before it,
    so that each group is integrated over exactly the atoms with one of its variables. *)
From Stdlib Require Import Permutation.
From S2P Require Import Prelude.
From S2P Require Import PipVar.
From S2P Require Import PipEqn.
From S2P Require Import PipRep.
From S2P Require Import PipCompose.
From S2P Require Import PipSample.
From S2P Require Import PipBundle.
From S2P Require Import PipCset.
From S2P Require Import PipCsetCorrect.
From S2P Require Import PipSets.
From S2P Require Import PipGroups.
Open Scope Z_scope.

Section Integrate.
Context {F : Type} `{Float8 F}.
Implicit Types (a : pip_atom F) (v w : pip_var F) (clause pre mid rest yes no : list (pip_atom F)).

(** ** Gathering the atoms of a variable *)

Definition mentions v a : bool := match pip_atom_has_var a v with Some h => negb (h =? 0) | None => false end.

Lemma mentions_spec v a c : constraint_of a c -> mentions v a = among (atom_nodes c) v.
Proof.
  intros Ha. unfold mentions. rewrite (atom_has_var_spec v a _ _ Ha). unfold atom_nodes.
  rewrite among_app, !occurs_nodes. by destruct (among (nodes (fst c)) v), (among (nodes (snd c)) v).
Qed.

Lemma has_var_valid v a : valid_atom a -> exists h, pip_atom_has_var a v = Some h /\ mentions v a = negb (h =? 0).
Proof. intros (tl & tr & Ha). unfold mentions. rewrite (atom_has_var_spec v a _ _ Ha). by eexists. Qed.

Lemma swap_atoms_spec pre x mid a rest :
  swap_atoms (pre ++ (x :: mid) ++ a :: rest) (length pre + length (x :: mid)) (length pre) =
    Some (pre ++ a :: (mid ++ [x]) ++ rest).
Proof.
  assert (Hi : (pre ++ (x :: mid) ++ a :: rest) !! (length pre + length (x :: mid))%nat = Some a).
  { rewrite lookup_app_r by lia. rewrite lookup_app_r by lia.
    by replace (length pre + length (x :: mid) - length pre - length (x :: mid))%nat with 0%nat by lia. }
  assert (Hj : (pre ++ (x :: mid) ++ a :: rest) !! length pre = Some x).
  { rewrite lookup_app_r by lia. by rewrite Nat.sub_diag. }
  unfold swap_atoms. rewrite Hi, Hj. cbn [mbind option_bind]. f_equal.
  rewrite insert_app_r_alt by lia. replace (length pre + length (x :: mid) - length pre)%nat with (length (x :: mid)) by lia.
  rewrite insert_app_r_alt by lia. rewrite Nat.sub_diag. f_equal. cbn [length app].
  change (x :: mid ++ a :: rest) with ((x :: mid) ++ a :: rest).
  replace (S (length mid)) with (length (x :: mid) + 0)%nat by (cbn [length]; lia). rewrite insert_app_r.
  cbn [app insert list_insert]. by rewrite <- app_assoc.
Qed.

(** [mid] has no atom with the variable; [rest] is not examined yet. *)
Lemma gather_loop_spec v rest : Forall valid_atom rest -> forall pre mid,
  exists yes no, gather_loop (length rest) (length pre + length mid) v (pre ++ mid ++ rest) (length pre) =
      Some (pre ++ yes ++ no, length pre + length yes)%nat /\
    yes = filter (fun a => mentions v a = true) rest /\
    no ≡ₚ mid ++ filter (fun a => mentions v a = false) rest.
Proof.
  induction 1 as [|a rest Ha HF IH]; intros pre mid.
  { exists [], mid. cbn [length gather_loop app]. rewrite !app_nil_r, Nat.add_0_r. by split_and!. }
  cbn [length gather_loop]. rewrite lookup_app_r by lia. replace (length pre + length mid - length pre)%nat with (length mid) by lia.
  rewrite lookup_app_r by lia. rewrite Nat.sub_diag. cbn [lookup list_lookup mbind option_bind].
  destruct (has_var_valid v a Ha) as (h & -> & Hm). cbn [mbind option_bind]. rewrite !filter_cons, Hm.
  destruct (h =? 0) eqn:Eh; cbn [negb].
  - destruct (IH pre (mid ++ [a])) as (yes & no & Hg & Hy & Hn). exists yes, no.
    rewrite length_app in Hg. cbn [length] in Hg. rewrite <- app_assoc in Hg.
    replace (S (length pre + length mid)) with (length pre + (length mid + 1))%nat by lia.
    rewrite decide_False by done. rewrite decide_True by done. split_and!; [exact Hg|done|]. by rewrite Hn, <- app_assoc.
  - rewrite decide_True by done. rewrite decide_False by done. destruct mid as [|x mid].
    + cbn [length app]. rewrite Nat.add_0_r, Nat.eqb_refl. cbn [mbind option_bind].
      destruct (IH (pre ++ [a]) []) as (yes & no & Hg & Hy & Hn). exists (a :: yes), no.
      rewrite length_app in Hg. cbn [length app] in Hg. rewrite <- !app_assoc in Hg. cbn [app] in Hg.
      replace (length pre + 1 + 0)%nat with (S (length pre)) in Hg by lia. replace (length pre + 1)%nat with (S (length pre)) in Hg by lia.
      split_and!; [|by rewrite Hy|done]. rewrite Hg. cbn [length]. do 2 f_equal. lia.
    + rewrite (proj2 (Nat.eqb_neq _ _)) by (cbn [length]; lia). rewrite swap_atoms_spec. cbn [mbind option_bind].
      destruct (IH (pre ++ [a]) (mid ++ [x])) as (yes & no & Hg & Hy & Hn). exists (a :: yes), no.
      rewrite !length_app in Hg. cbn [length] in Hg. rewrite <- !app_assoc in Hg. cbn [app] in Hg.
      replace (length pre + 1 + (length mid + 1))%nat with (S (length pre + length (x :: mid))) in Hg by (cbn [length]; lia).
      replace (length pre + 1)%nat with (S (length pre)) in Hg by lia. rewrite <- app_assoc. cbn [app].
      split_and!; [|by rewrite Hy|].
      * rewrite Hg. cbn [length]. do 2 f_equal. lia.
      * rewrite Hn. cbn [app]. by rewrite <- Permutation_cons_append.
Qed.

(** ** Gathering the atoms of several variables *)

Definition mentions_any (vs : list (pip_var F)) a : bool := existsb (fun v => mentions v a) vs.

Lemma gather_spec v pre rest : Forall valid_atom rest ->
  exists yes no, pip_gather_atoms v (pre ++ rest, length pre) = Some (pre ++ yes ++ no, length pre + length yes)%nat /\
    yes ≡ₚ filter (fun a => mentions v a = true) rest /\ no ≡ₚ filter (fun a => mentions v a = false) rest.
Proof.
  intros HF. destruct (gather_loop_spec v rest HF pre []) as (yes & no & Hg & -> & Hn).
  exists (filter (fun a => mentions v a = true) rest), no. split_and!; [|done|by rewrite Hn]. unfold pip_gather_atoms.
  rewrite length_app. replace (length pre + length rest - length pre)%nat with (length rest) by lia.
  cbn [length app] in Hg. by rewrite Nat.add_0_r in Hg.
Qed.

Lemma filter_filter_or (p q : pip_atom F -> bool) (l : list (pip_atom F)) :
  filter (fun a => p a = true) l ++ filter (fun a => q a = true) (filter (fun a => p a = false) l) ≡ₚ
    filter (fun a => p a || q a = true) l.
Proof.
  induction l as [|a l IH]; [done|]. rewrite !filter_cons. destruct (p a); cbn [orb].
  - rewrite decide_True by done. rewrite decide_False by done. rewrite decide_True by done. cbn [app]. by rewrite IH.
  - rewrite decide_False by done. rewrite decide_True by done. rewrite filter_cons. destruct (q a).
    + rewrite !decide_True by done. rewrite <- Permutation_middle. by rewrite IH.
    + rewrite !decide_False by done. exact IH.
Qed.

Lemma filter_filter_and (p q : pip_atom F -> bool) (l : list (pip_atom F)) :
  filter (fun a => q a = false) (filter (fun a => p a = false) l) = filter (fun a => p a || q a = false) l.
Proof.
  induction l as [|a l IH]; [done|]. rewrite !filter_cons. destruct (p a); cbn [orb].
  - rewrite !decide_False by done. exact IH.
  - rewrite decide_True by done. rewrite filter_cons. destruct (q a); [by rewrite !decide_False by done|].
    rewrite !decide_True by done. by rewrite IH.
Qed.

Lemma valid_filter (p : pip_atom F -> Prop) `{forall a, Decision (p a)} (l : list (pip_atom F)) :
  Forall valid_atom l -> Forall valid_atom (filter p l).
Proof. rewrite !Forall_forall. intros HF a [_ Ha]%list_elem_of_filter. by apply HF. Qed.

Lemma gather_all vs : forall pre rest, Forall valid_atom rest ->
  exists yes no, foldl (fun s v => s ← s; pip_gather_atoms v s) (Some (pre ++ rest, length pre)) vs =
      Some (pre ++ yes ++ no, length pre + length yes)%nat /\
    yes ≡ₚ filter (fun a => mentions_any vs a = true) rest /\
    no ≡ₚ filter (fun a => mentions_any vs a = false) rest.
Proof.
  induction vs as [|v vs IH]; intros pre rest HF.
  { exists [], rest. cbn [foldl app length]. rewrite Nat.add_0_r. split_and!; [done| |].
    - assert (filter (fun a => mentions_any [] a = true) rest = []) as ->; [|done]. clear HF. by induction rest.
    - assert (filter (fun a => mentions_any [] a = false) rest = rest) as ->; [|done]. clear HF. induction rest as [|x l IHl]; [done|].
      rewrite filter_cons. rewrite decide_True by done. by rewrite IHl. }
  cbn [foldl mbind option_bind]. destruct (gather_spec v pre rest HF) as (y1 & n1 & -> & Hy1 & Hn1).
  assert (HF1 : Forall valid_atom n1) by (rewrite Hn1; by apply valid_filter).
  destruct (IH (pre ++ y1) n1 HF1) as (y2 & n2 & Hg & Hy2 & Hn2). exists (y1 ++ y2), n2.
  rewrite length_app, <- !app_assoc in Hg. rewrite Hg. split_and!.
  - rewrite length_app, <- !app_assoc. do 2 f_equal. lia.
  - rewrite Hy2, Hy1, Hn1. exact (filter_filter_or (mentions v) (mentions_any vs) rest).
  - rewrite Hn2, Hn1. by rewrite (filter_filter_and (mentions v) (mentions_any vs) rest).
Qed.

(** ** The atoms of a group *)

Abbreviation vset := (pip_cset (pip_var F)).

Lemma visit_items {St} (es : elements (pip_var F)) (func : pip_var F -> St -> option St) l s :
  (forall e, e ∈ l -> e ∈ dom es) ->
  visit es func l s = foldl (fun s v => s ← s; func v s) s (items_of es l).
Proof.
  revert s. induction l as [|e l IH]; intros s Hd; [done|].
  change (visit es func (e :: l) s) with (visit es func l (s ← s; x ← es !! e; func (item x) s)).
  rewrite IH by set_solver. destruct (proj1 (elem_of_dom es e) (Hd e ltac:(set_solver))) as [x Hx].
  unfold items_of. cbn [omap list_omap]. rewrite Hx. cbn [fmap option_fmap option_map foldl]. f_equal.
Qed.

(** The items of a group, in the order of the walk. *)
Definition group_items (set : vset) (r : nat) : list (pip_var F) :=
  match pip_cset_iterate_group set (fun v l => Some (l ++ [v])) r [] with Some (l, _) => l | None => [] end.

Lemma visit_collect (es : elements (pip_var F)) l acc : (forall e, e ∈ l -> e ∈ dom es) ->
  visit es (fun v l => Some (l ++ [v])) l (Some acc) = Some (acc ++ items_of es l).
Proof.
  intros Hd. rewrite visit_items by done. generalize (items_of es l) as vs. clear. intros vs. revert acc.
  induction vs as [|v vs IH]; intros acc; [by rewrite app_nil_r|]. cbn [foldl mbind option_bind].
  rewrite (IH (acc ++ [v])). by rewrite <- app_assoc.
Qed.

(** A group of a set, by its root. *)
Definition root_of (set : vset) (r : nat) : Prop := reaches (parents_of (els set)) r r.

Definition touches (set : vset) (r : nat) a : bool := mentions_any (group_items set r) a.

Lemma group_spec (set : vset) r : cset_ok pip_variable_sort set -> root_of set r ->
  exists l, members set r l /\ group_items set r = items_of (els set) l /\
    forall St (func : pip_var F -> St -> option St) s,
      pip_cset_iterate_group set func r s =
        (s ← foldl (fun s v => s ← s; func v s) (Some s) (group_items set r);
         Some (s, mk_cset (sort_root set) (els set) (cset_size set) (locked set))).
Proof.
  intros Hok Hr. destruct (iterate_group_spec _ set r Hok Hr) as (l & Hm & Hit). exists l. split; [done|].
  assert (Hd : forall e, e ∈ l -> e ∈ dom (els set)).
  { intros e He. apply Hm in He as [Hb _]. rewrite <- parents_dom. by apply below_dom in Hb as [? _]. }
  assert (Hitems : group_items set r = items_of (els set) l).
  { unfold group_items. rewrite Hit, visit_collect by done. done. }
  split; [done|]. intros St func s. by rewrite Hit, visit_items, Hitems.
Qed.

Lemma group_atoms_spec (set : vset) r pre rest : cset_ok pip_variable_sort set -> root_of set r -> Forall valid_atom rest ->
  exists yes no, pip_group_atoms set r (pre ++ rest) (length pre) =
      Some (pre ++ yes ++ no, (length pre + length yes)%nat, set) /\
    yes ≡ₚ filter (fun a => touches set r a = true) rest /\
    no ≡ₚ filter (fun a => touches set r a = false) rest.
Proof.
  intros Hok Hr HF. destruct (group_spec set r Hok Hr) as (l & Hm & Hi & Hit).
  destruct (gather_all (group_items set r) pre rest HF) as (yes & no & Hg & Hy & Hn). exists yes, no.
  split_and!; [|done|done]. unfold pip_group_atoms. rewrite Hit, Hg. by destruct set.
Qed.

(** ** Integration by groups *)

Context (pip_distributions : list (pip_functable_entry F)) (random : nat -> Z).
Context (constraints : option (pip_atomset F)) (samples : Z).

(** The factor of a group: the estimate over its atoms, and the draws that it takes. *)
Definition group_factor (set : vset) (g : nat * list (pip_atom F)) (s : F * nat) : option (F * nat) :=
  let '(r, atoms) := g in
  let '(res, k) := s in
  let sample :=
    x ← pip_integrate_by_sampling pip_distributions (later random k) atoms samples constraints;
    Some (fl_mul res x, (k + Z.to_nat samples)%nat) in
  '(n, _) ← pip_cset_group_size set r;
  if n =? 0 then None
  else if n =? 1 then
    match constraints with
    | Some _ => sample
    | None =>
        x ← els set !! r;
        has_cdf ← PVAR_HAS_CDF pip_distributions (item x);
        if (has_cdf : bool) then
          y ← pip_integrate_by_cdf pip_distributions atoms (item x);
          if isnan y then sample else Some (fl_mul res y, k)
        else sample
    end
  else sample.

Lemma prob_group_spec (set : vset) r pre rest res k : cset_ok pip_variable_sort set -> root_of set r -> Forall valid_atom rest ->
  exists yes no, yes ≡ₚ filter (fun a => touches set r a = true) rest /\
    no ≡ₚ filter (fun a => touches set r a = false) rest /\
    pip_compute_prob_group pip_distributions random constraints samples r (mk_info (pre ++ rest) (length pre) res k, set) =
      (s ← group_factor set (r, yes) (res, k);
       Some (mk_info ((pre ++ yes) ++ no) (length (pre ++ yes)) (fst s) (snd s), set)).
Proof.
  intros Hok Hr HF. destruct (group_atoms_spec set r pre rest Hok Hr HF) as (yes & no & Hg & Hy & Hn).
  exists yes, no. split_and!; [done..|]. unfold pip_compute_prob_group, group_factor. cbn [clause_sorted info_clause result draws].
  rewrite Hg. cbn [mbind option_bind]. destruct (group_size_spec _ set r Hok Hr) as (l & _ & ->). cbn [mbind option_bind els].
  replace (take (length pre + length yes - length pre) (drop (length pre) (pre ++ yes ++ no))) with yes.
  2: { rewrite drop_app_length. replace (length pre + length yes - length pre)%nat with (length yes) by lia. by rewrite take_app_length. }
  rewrite length_app, <- app_assoc. replace (mk_cset (sort_root set) (els set) (cset_size set) (locked set)) with set by by destruct set.
  set (sampled := pip_integrate_by_sampling _ _ _ _ _). destruct (uint32 _ =? 0); [done|].
  destruct (uint32 _ =? 1); [|by destruct sampled]. destruct constraints as [c|]; [by destruct sampled|].
  destruct (els set !! r) as [x|]; [|done]. cbn [mbind option_bind]. destruct (PVAR_HAS_CDF _ _) as [[|]|]; [|by destruct sampled|done].
  cbn [mbind option_bind]. destruct (pip_integrate_by_cdf _ _ _) as [y|]; [|done]. cbn [mbind option_bind].
  destruct (isnan y); [by destruct sampled|done].
Qed.

Definition is_root (set : vset) (e : nat) : bool :=
  match els set !! e with Some x => bool_decide (group_root x = None) | None => false end.
Definition roots (set : vset) : list nat := filter (fun e => is_root set e = true) (in_order (sort_root set)).

Lemma is_root_spec (set : vset) e x : els set !! e = Some x ->
  (group_root x = None /\ is_root set e = true /\ root_of set e) \/ (is_Some (group_root x) /\ is_root set e = false).
Proof.
  intros Hx. unfold is_root, root_of. rewrite Hx. destruct (group_root x) as [p|] eqn:E.
  - right. split; [by eexists|done].
  - left. split_and!; [done|done|]. by apply (reaches_is_root pip_variable_sort (els set) e x).
Qed.

(** The step of [pip_cset_iterate_roots]. *)
Definition root_step (st : option (pip_prob_comp_info * vset)) (e : nat) : option (pip_prob_comp_info * vset) :=
  '(s, set) ← st; x ← els set !! e;
  match group_root x with
  | None => pip_compute_prob_group pip_distributions random constraints samples e (s, set)
  | Some _ => Some (s, set)
  end.

Definition factors (set : vset) (gs : list (nat * list (pip_atom F))) (s : option (F * nat)) : option (F * nat) :=
  foldl (fun s g => s ← s; group_factor set g s) s gs.

Lemma factors_None (set : vset) gs : factors set gs None = None.
Proof. by induction gs. Qed.
Lemma root_steps_None es : foldl root_step None es = None.
Proof. by induction es. Qed.

(** [handled r]: the atoms of [r] have been integrated. *)
Lemma roots_spec (set : vset) clause es : cset_ok pip_variable_sort set -> (forall e, e ∈ es -> e ∈ dom (els set)) -> NoDup es ->
  (forall a r r', a ∈ clause -> root_of set r -> root_of set r' -> touches set r a = true -> touches set r' a = true -> r = r') ->
  forall handled pre rest res k, (forall r, r ∈ handled -> root_of set r) -> (forall r, r ∈ es -> r ∉ handled) ->
  Forall valid_atom rest -> rest ≡ₚ filter (fun a => existsb (fun r => touches set r a) handled = false) clause ->
  exists gs, map fst gs = filter (fun e => is_root set e = true) es /\
    Forall (fun g => snd g ≡ₚ filter (fun a => touches set (fst g) a = true) clause) gs /\
    (st ← foldl root_step (Some (mk_info (pre ++ rest) (length pre) res k, set)) es; Some (result (fst st))) =
      (s ← factors set gs (Some (res, k)); Some (fst s)).
Proof.
  intros Hok Hd Hnd Hdis. induction es as [|e es IH]; intros handled pre rest res k Hh Hni HF Hrest.
  { exists []. by split_and!. }
  apply NoDup_cons in Hnd as [Hne Hnd]. destruct (proj1 (elem_of_dom (els set) e) (Hd e ltac:(set_solver))) as [x Hx].
  cbn [foldl root_step mbind option_bind]. rewrite Hx. cbn [mbind option_bind]. rewrite filter_cons.
  destruct (is_root_spec set e x Hx) as [(Hr & Hb & Hroot)|([p Hp] & Hb)]; rewrite Hb.
  - rewrite decide_True by done. rewrite Hr. destruct (prob_group_spec set e pre rest res k Hok Hroot HF) as (yes & no & Hy & Hn & ->).
    assert (Hyes : yes ≡ₚ filter (fun a => touches set e a = true) clause).
    { rewrite Hy, Hrest, list_filter_filter. apply reflexive_eq, filter_ext_in. intros a Ha. split; [by intros [? _]|].
      intros Ht. split; [done|]. apply not_true_iff_false. intros (r & Hin & Hr')%existsb_exists. apply list_elem_of_In in Hin.
      assert (r = e) as -> by (eapply Hdis; eauto). by apply (Hni e); [set_solver|]. }
    assert (HFn : Forall valid_atom no) by (rewrite Hn; by apply valid_filter).
    assert (Hrest' : no ≡ₚ filter (fun a => existsb (fun r => touches set r a) (e :: handled) = false) clause).
    { rewrite Hn, Hrest, list_filter_filter. apply reflexive_eq, filter_ext_in. intros a _. cbn [existsb].
      by rewrite orb_false_iff. }
    assert (Hgo : forall res' k', exists gs, map fst gs = filter (fun e => is_root set e = true) es /\
      Forall (fun g => snd g ≡ₚ filter (fun a => touches set (fst g) a = true) clause) gs /\
      (st ← foldl root_step (Some (mk_info ((pre ++ yes) ++ no) (length (pre ++ yes)) res' k', set)) es; Some (result (fst st))) =
        (s ← factors set gs (Some (res', k')); Some (fst s))).
    { intros res' k'. apply (IH ltac:(set_solver) Hnd (e :: handled)); [|set_solver|done|done].
      intros r [->|?]%elem_of_cons; [done|by apply Hh]. }
    destruct (group_factor set (e, yes) (res, k)) as [[res' k']|] eqn:Ef; cbn [mbind option_bind fst snd].
    + destruct (Hgo res' k') as (gs & Hm & HFg & Heq). exists ((e, yes) :: gs). split_and!; [by cbn [map fst]; rewrite Hm|by constructor|].
      rewrite Heq. unfold factors. cbn [foldl mbind option_bind]. by rewrite Ef.
    + destruct (Hgo res k) as (gs & Hm & HFg & _). exists ((e, yes) :: gs). split_and!; [by cbn [map fst]; rewrite Hm|by constructor|].
      rewrite root_steps_None. unfold factors. cbn [foldl mbind option_bind]. rewrite Ef. fold (factors set gs None). by rewrite factors_None.
  - rewrite decide_False by done. rewrite Hp. by apply (IH ltac:(set_solver) Hnd handled); [|set_solver|..].
Qed.
End Integrate.
