(* ===== verification/PipProbability.v ===== *)
(** * PipProbability: the confidence of a clause is a product over its groups

    [pip_compute_conditioned_probability] multiplies one factor per group of the
    variables of the clause, computed over exactly the atoms that mention a variable of
    the group.  For atoms with one uniform variable each the product is the exact
    probability of a box. *)
From Stdlib Require Import Permutation.
From S2P Require Import Prelude.
From S2P Require Import PipVar.
From S2P Require Import PipEqn.
From S2P Require Import PipRep.
From S2P Require Import PipCompose.
From S2P Require Import PipSolve.
From S2P Require Import PipSample.
From S2P Require Import PipCset.
From S2P Require Import PipCsetCorrect.
From S2P Require Import PipSets.
From S2P Require Import PipGroups.
From S2P Require Import PipIntegrate.
Open Scope Z_scope.

Section Conditioned.
Context {F : Type} `{Float8 F}.
Implicit Types (a : pip_atom F) (v w : pip_var F) (clause : list (pip_atom F)).
Abbreviation vset := (pip_cset (pip_var F)).
Abbreviation cset_ok := (cset_ok pip_variable_sort).
Abbreviation elem_of := (elem_of pip_variable_sort).

(** ** Atoms and groups *)

Lemma elem_of_items (es : elements (pip_var F)) l v : v ∈ items_of es l <-> exists e, e ∈ l /\ item_at es e = Some v.
Proof. unfold items_of, item_at. by rewrite list_elem_of_omap. Qed.

Lemma elem_of_item (set : vset) e v : item_at (els set) e = Some v -> elem_of set v e.
Proof. intros Hv. exists v. split; [done|apply cmp_refl]. Qed.

Lemma mentions_any_spec vs a : mentions_any vs a = true <-> exists v, v ∈ vs /\ mentions v a = true.
Proof. unfold mentions_any. rewrite existsb_exists. by setoid_rewrite list_elem_of_In. Qed.

(** An atom belongs to the group of a root when it mentions a variable of the group. *)
Lemma touches_spec (set : vset) r a : cset_ok set -> root_of set r ->
  touches set r a = true <->
    exists e v, item_at (els set) e = Some v /\ reaches (parents_of (els set)) e r /\ mentions v a = true.
Proof.
  intros Hok Hr. unfold touches. destruct (group_spec set r Hok Hr) as (l & [_ Hm] & -> & _). rewrite mentions_any_spec.
  setoid_rewrite elem_of_items. split.
  - intros (v & (e & He%Hm & Hv) & Ha). by exists e, v.
  - intros (e & v & Hv & He%Hm & Ha). exists v. split; [by exists e|done].
Qed.

Lemma constraint_in clause cs a : Forall2 constraint_of clause cs -> a ∈ clause -> exists c, c ∈ cs /\ constraint_of a c.
Proof.
  intros HF (i & Hi)%list_elem_of_lookup. destruct (Forall2_lookup_l _ _ _ _ _ HF Hi) as (c & Hc & Ha).
  exists c. split; [by eapply list_elem_of_lookup_2|done].
Qed.

Lemma clause_valid clause cs : Forall2 constraint_of clause cs -> Forall valid_atom clause.
Proof. intros HF. apply Forall_forall. intros a Ha. destruct (constraint_in _ _ _ HF Ha) as ([l r] & _ & Hc). by exists l, r. Qed.

(** The groups of different roots have different atoms. *)
Lemma touches_disjoint (set : vset) clause cs a r r' : grouped set cs -> Forall2 constraint_of clause cs ->
  a ∈ clause -> root_of set r -> root_of set r' -> touches set r a = true -> touches set r' a = true -> r = r'.
Proof.
  intros Hg HF Ha Hr Hr'. pose proof (gr_ok _ _ Hg) as Hok. rewrite !touches_spec by done.
  intros (e & v & Hv & He & Hma) (e' & v' & Hv' & He' & Hma'). destruct (constraint_in _ _ _ HF Ha) as (c & Hc & Hca).
  rewrite (mentions_spec v _ _ Hca) in Hma. rewrite (mentions_spec v' _ _ Hca) in Hma'. destruct (gr_joins _ _ Hg c v v' Hc Hma Hma') as (e1 & e2 & s & H1 & H2 & Hs1 & Hs2).
  assert (e1 = e) as -> by exact (elem_unique _ set v _ _ Hok H1 (elem_of_item _ _ _ Hv)).
  assert (e2 = e') as -> by exact (elem_unique _ set v' _ _ Hok H2 (elem_of_item _ _ _ Hv')).
  assert (s = r) as -> by exact (reaches_fun _ _ _ _ Hs1 He). exact (reaches_fun _ _ _ _ Hs2 He').
Qed.

(** ** The product *)

Context (pip_distributions : list (pip_functable_entry F)) (random : nat -> Z).
Context (constraints : option (pip_atomset F)) (samples : Z).

(** The groups of a clause, each with its atoms. *)
Record groups_of (set : vset) clause cs (gs : list (nat * list (pip_atom F))) : Prop := {
  go_grouped : grouped set cs;
  go_roots : map fst gs = roots set;
  go_atoms : Forall (fun g => snd g ≡ₚ filter (fun a => touches set (fst g) a = true) clause) gs }.

Lemma conditioned_spec clause cs : Forall2 constraint_of clause cs ->
  exists set gs, pip_clause_to_cset true clause = Some set /\ groups_of set clause cs gs /\
    pip_compute_conditioned_probability pip_distributions random constraints true clause samples =
      (s ← factors pip_distributions random constraints samples set gs (Some (fl_one, 0%nat)); Some (fst s)).
Proof.
  intros HF. destruct (clause_to_cset_spec clause cs HF) as (set & Hset & Hg). pose proof (gr_ok _ _ Hg) as Hok.
  destruct (roots_spec pip_distributions random constraints samples set clause (in_order (sort_root set)) Hok) with
    (handled := @nil nat) (pre := @nil (pip_atom F)) (rest := clause) (res := fl_one (F := F)) (k := 0%nat)
    as (gs & Hm & HFg & Heq).
  - intros e. by apply (ok_dom _ _ Hok).
  - apply (ok_nodup _ _ Hok).
  - intros a r r'. by apply (touches_disjoint set clause cs).
  - set_solver.
  - set_solver.
  - by eapply clause_valid.
  - assert (filter (fun a => existsb (fun r => touches set r a) [] = false) clause = clause) as ->; [|done].
    clear. induction clause as [|x l IH]; [done|]. rewrite filter_cons. rewrite decide_True by done. by rewrite IH.
  - exists set, gs. split_and!; [done|by split|]. rewrite <- Heq. unfold pip_compute_conditioned_probability.
    rewrite Hset. cbn [mbind option_bind]. unfold pip_cset_iterate_roots. cbn [app length].
    match goal with |- context [foldl ?f ?s ?l] => change (foldl f s l) with (foldl (root_step pip_distributions random constraints samples) s l) end.
    by destruct (foldl _ _ _) as [[info s]|].
Qed.

(** Atoms without variables are in no group. *)
Lemma no_roots (set : vset) cs : grouped set cs -> (forall c, c ∈ cs -> atom_nodes c = []) -> roots set = [].
Proof.
  intros Hg Hn. unfold roots. destruct (filter _ _) as [|e l] eqn:E; [done|]. exfalso.
  assert (He : e ∈ filter (fun e => is_root set e = true) (in_order (sort_root set))) by (rewrite E; apply list_elem_of_here).
  apply list_elem_of_filter in He as [Hr _]. unfold is_root in Hr. destruct (els set !! e) as [x|] eqn:Hx; [|done].
  destruct (gr_items _ _ Hg e (item x)) as (c & Hc & Hv); [unfold item_at; by rewrite Hx|].
  rewrite (Hn c Hc) in Hv. by apply elem_of_nil in Hv.
Qed.

Lemma constants_probability clause cs : Forall2 constraint_of clause cs -> (forall c, c ∈ cs -> atom_nodes c = []) ->
  pip_compute_conditioned_probability pip_distributions random constraints true clause samples = Some fl_one.
Proof.
  intros HF Hn. destruct (conditioned_spec clause cs HF) as (set & gs & _ & [Hg Hr _] & ->).
  rewrite (no_roots set cs Hg Hn) in Hr. by destruct gs.
Qed.
End Conditioned.

(** ** Independent uniform variables *)

Section Boxes.
Context (exponential normal poisson : pip_functable_entry ext) (random : nat -> Z) (samples : Z).
Implicit Types (a : pip_atom ext) (v w : pip_var ext) (clause : list (pip_atom ext)) (set : pip_cset (pip_var ext)).
(** The ranges of the variables, by their numbers. *)
Context (low high : Z -> Qc).
Abbreviation dists := (table exponential normal poisson).

(** An atom over one uniform variable and linear in it, so that the variable does not
    cancel out.  No term is subtracted from another one: a negation stands only where
    nothing has been added up yet ([clean]). *)
Record simple_atom a (c : eqn ext * eqn ext) : Prop := {
  sa_constraint : constraint_of a c;
  sa_clean : atom_clean (fst c) (snd c) = true;
  sa_one : atom_nodes c <> [];
  sa_same v w : v ∈ atom_nodes c -> w ∈ atom_nodes c -> pip_variable_sort v w = 0;
  sa_uniform v : v ∈ atom_nodes c -> uniform_var v (low (variable v)) (high (variable v));
  sa_linear v : among (atom_nodes c) v = true -> linear_sides v c }.

(** The solver bounds the variable of such an atom. *)
Lemma sa_solved a c v : simple_atom a c -> mentions v a = true -> ~ unsolved v a.
Proof.
  intros Ha Hm Hun. rewrite (mentions_spec v a c (sa_constraint _ _ Ha)) in Hm.
  destruct (linear_solved a v c (sa_constraint _ _ Ha) (sa_clean _ _ Ha) (sa_linear _ _ Ha v Hm)) as (q & up & Hq).
  by apply (Hun q up).
Qed.

(** A variable, and the interval that the clause leaves it. *)
Definition box_factor (box : Z * (ext * ext)) : Qc :=
  let '(i, (lo, hi)) := box in (overlap (low i) (high i) lo hi / (high i - low i))%Qc.
Definition boxes_probability (boxes : list (Z * (ext * ext))) : Qc := foldr (fun b q => box_factor b * q)%Qc 1%Qc boxes.
Definition in_boxes (x : Z -> Qc) (boxes : list (Z * (ext * ext))) : bool :=
  forallb (fun '(i, (lo, hi)) => in_interval lo hi (x i)) boxes.

(** The uniform variables have the values [x]. *)
Definition valued (val : pip_var ext -> ext) (x : Z -> Qc) : Prop := forall v, group v = 4 -> val v = Fin (x (variable v)).

Lemma cmp_fields v w : pip_variable_sort v w = 0 -> group v = group w /\ variable v = variable w.
Proof.
  unfold pip_variable_sort. repeat match goal with |- context [?a <? ?b] => destruct (Z.ltb_spec a b) end; lia.
Qed.

Lemma var_eq_fields v w : pip_var_eq v w = true <-> group v = group w /\ variable v = variable w.
Proof. unfold pip_var_eq, pip_var_id_eq. by rewrite andb_true_iff, !Z.eqb_eq. Qed.

Lemma simple_constraints clause cs : Forall2 simple_atom clause cs -> Forall2 constraint_of clause cs.
Proof. intros HF. eapply Forall2_impl; [exact HF|]. apply sa_constraint. Qed.

Lemma simple_same a c v w : simple_atom a c -> among (atom_nodes c) v = true -> among (atom_nodes c) w = true ->
  pip_variable_sort v w = 0.
Proof.
  intros Ha (v' & Hv & Hvv)%among_spec (w' & Hw & Hww)%among_spec. eapply cmp_trans; [exact Hvv|].
  eapply cmp_trans; [exact (sa_same _ _ Ha _ _ Hv Hw)|by apply cmp_sym].
Qed.

Lemma simple_in clause cs c : Forall2 simple_atom clause cs -> c ∈ cs -> exists a, simple_atom a c.
Proof.
  intros HF (i & Hi)%list_elem_of_lookup. destruct (Forall2_lookup_r _ _ _ _ _ HF Hi) as (a & _ & Ha). by exists a.
Qed.

Lemma simple_of clause cs a : Forall2 simple_atom clause cs -> a ∈ clause -> exists c, c ∈ cs /\ simple_atom a c.
Proof.
  intros HF (i & Hi)%list_elem_of_lookup. destruct (Forall2_lookup_l _ _ _ _ _ HF Hi) as (c & Hc & Ha).
  exists c. split; [by eapply list_elem_of_lookup_2|done].
Qed.

(** A group has one variable. *)
Lemma group_single set clause cs r : grouped set cs -> Forall2 simple_atom clause cs ->
  root_of set r -> members set r [r].
Proof.
  intros Hg Hs Hr. pose proof (gr_ok _ _ Hg) as Hok. split; [apply NoDup_singleton|]. intros e.
  rewrite list_elem_of_singleton. split; [by intros ->|]. intros He.
  destruct (reaches_element pip_variable_sort (els set) r r Hr) as (xr & Hxr & _).
  assert (Hde : e ∈ dom (els set)) by (rewrite <- parents_dom; destruct He as [Hb _]; by apply below_dom in Hb as [? _]).
  apply elem_of_dom in Hde as [xe Hxe].
  assert (H1 : elem_of pip_variable_sort set (item xe) e) by (apply elem_of_item; unfold item_at; by rewrite Hxe).
  assert (H2 : elem_of pip_variable_sort set (item xr) r) by (apply elem_of_item; unfold item_at; by rewrite Hxr).
  apply (elem_unique pip_variable_sort set (item xe) e r Hok H1). refine (elem_cmp pip_variable_sort (els set) (item xr) (item xe) r H2 _).
  apply (gr_least _ _ Hg (fun v w => pip_variable_sort v w = 0)); [intros ? ?; apply cmp_sym|intros ? ? ?; apply cmp_trans| |by exists r, e, r].
  intros c v w Hc Hv Hw. destruct (simple_in _ _ _ Hs Hc) as [a Ha]. exact (simple_same a c v w Ha Hv Hw).
Qed.

(** The variable of a group. *)
Lemma group_variable set clause cs r : grouped set cs -> Forall2 simple_atom clause cs ->
  root_of set r ->
  exists e, els set !! r = Some e /\ pip_cset_group_size set r = Some (1, set) /\
    uniform_var (item e) (low (variable (item e))) (high (variable (item e))) /\
    forall a, touches set r a = mentions (item e) a.
Proof.
  intros Hg Hs Hr. pose proof (gr_ok _ _ Hg) as Hok. destruct (group_single set clause cs r Hg Hs Hr) as [_ Hone].
  destruct (reaches_element pip_variable_sort (els set) r r Hr) as (e & He & _).
  assert (Hsing : forall l, members set r l -> l = [r]).
  { intros l [Hnd Hl]. apply Permutation_singleton_r. apply NoDup_Permutation; [done|apply NoDup_singleton|].
    intros y. by rewrite Hl, Hone. }
  assert (Hit : item_at (els set) r = Some (item e)) by (unfold item_at; by rewrite He).
  exists e. split_and!; [done| | |].
  - destruct (group_size_spec pip_variable_sort set r Hok Hr) as (l & Hl%Hsing & ->). subst l. by destruct set.
  - destruct (gr_items _ _ Hg r _ Hit) as (c & Hc & Hv). destruct (simple_in _ _ _ Hs Hc) as [a Ha].
    exact (sa_uniform _ _ Ha _ Hv).
  - intros a. unfold touches. destruct (group_spec set r Hok Hr) as (l & Hl%Hsing & -> & _). subst l.
    unfold items_of. cbn [omap list_omap]. rewrite He. cbn. by rewrite orb_false_r.
Qed.

Lemma valued_has_value val (x : Z -> Qc) v : valued val x -> group v = 4 -> has_value val v (x (variable v)).
Proof. intros Hv Hg w [Hgw <-]%var_eq_fields. apply Hv. congruence. Qed.

Lemma box_step set clause cs r atoms (q : Qc) k : grouped set cs -> Forall2 simple_atom clause cs ->
  root_of set r -> atoms ≡ₚ filter (fun a => touches set r a = true) clause ->
  exists e lo hi, els set !! r = Some e /\
    group_factor dists random None samples set (r, atoms) (Fin q, k) =
      Some (Fin (q * box_factor (variable (item e), (lo, hi))), k) /\
    forall val x, valued val x -> all_hold val atoms = in_interval lo hi (x (variable (item e))).
Proof.
  intros Hg Hs Hr Hp. destruct (group_variable set clause cs r Hg Hs Hr) as (e & He & Hn & Hu & Ht).
  assert (Hin : forall a, a ∈ atoms -> (exists c, simple_atom a c) /\ mentions (item e) a = true).
  { intros a Ha. rewrite Hp in Ha. apply list_elem_of_filter in Ha as [Ha Hc]. rewrite Ht in Ha. split; [|done].
    destruct (simple_of _ _ _ Hs Hc) as (c & _ & ?). by exists c. }
  destruct (integrate_uniform exponential normal poisson (item e) _ _ atoms Hu) as (res & Hres & Hcase).
  { apply Forall_forall. intros a Ha. destruct (Hin a Ha) as [[[tl tr] Hc] _]. exists tl, tr.
    by split; [apply (sa_constraint _ _ Hc)|apply (sa_clean _ _ Hc)]. }
  destruct Hcase as [[_ Hex]|(lo & hi & -> & Hall)].
  { exfalso. apply Exists_exists in Hex as (a & Ha & Hun). destruct (Hin a Ha) as [[c Hsa] Hm]. by apply (sa_solved _ _ _ Hsa Hm). }
  exists e, lo, hi. split_and!; [done| |].
  - unfold group_factor. rewrite Hn. cbn [mbind option_bind Z.eqb Pos.eqb]. rewrite He. cbn [mbind option_bind].
    rewrite uniform_has_cdf by apply Hu. cbn [mbind option_bind]. rewrite Hres. done.
  - intros val x Hv. apply Hall, valued_has_value; [done|apply Hu].
Qed.

(** The group of a root is about the variable with the number of the box. *)
Definition box_of set (g : nat * list (pip_atom ext)) (b : Z * (ext * ext)) : Prop :=
  exists e, els set !! fst g = Some e /\ fst b = variable (item e).

Lemma factors_boxes set clause cs gs (q : Qc) k : grouped set cs -> Forall2 simple_atom clause cs ->
 
  Forall (fun g => root_of set (fst g) /\ snd g ≡ₚ filter (fun a => touches set (fst g) a = true) clause) gs ->
  exists boxes, Forall2 (box_of set) gs boxes /\
    factors dists random None samples set gs (Some (Fin q, k)) = Some (Fin (q * boxes_probability boxes), k) /\
    forall val x, valued val x -> forallb (fun g => all_hold val (snd g)) gs = in_boxes x boxes.
Proof.
  intros Hg Hs HFg. revert q. induction HFg as [|[r atoms] gs [Hr Hp] HFg IH]; intros q.
  { exists []. split_and!; [done| |done]. cbn [boxes_probability foldr]. rewrite Qcmult_1_r. done. }
  destruct (box_step set clause cs r atoms q k Hg Hs Hr Hp) as (e & lo & hi & He & Hf & Hh).
  destruct (IH (q * box_factor (variable (item e), (lo, hi)))%Qc) as (boxes & Hb & Heq & Hall).
  exists ((variable (item e), (lo, hi)) :: boxes). split_and!.
  - constructor; [by exists e|done].
  - unfold factors in *. cbn [foldl]. cbn [mbind option_bind]. rewrite Hf. rewrite Heq. do 3 f_equal.
    cbn [boxes_probability foldr]. fold (boxes_probability boxes). ring.
  - intros val x Hv. cbn [forallb in_boxes snd]. rewrite (Hh val x Hv), (Hall val x Hv). done.
Qed.

Lemma roots_of set e : cset_ok pip_variable_sort set -> e ∈ roots set <-> root_of set e.
Proof.
  intros Hok. unfold roots. rewrite list_elem_of_filter, (ok_dom _ _ Hok), elem_of_dom. split.
  - intros [Hb [x Hx]]. destruct (is_root_spec set e x Hx) as [(_ & _ & ?)|[_ Hf]]; [done|congruence].
  - intros Hr. destruct (reaches_element pip_variable_sort (els set) e e Hr) as (x & Hx & Hn). split; [|by eexists].
    destruct (is_root_spec set e x Hx) as [(_ & ? & _)|[[p Hp] _]]; [done|congruence].
Qed.

(** The boxes belong to different variables. *)
Lemma boxes_nodup set clause cs gs boxes : grouped set cs -> Forall2 simple_atom clause cs ->
  NoDup (map fst gs) -> Forall (fun g => root_of set (fst g)) gs -> Forall2 (box_of set) gs boxes -> NoDup (map fst boxes).
Proof.
  intros Hg Hs Hnd Hr Hb. induction Hb as [|g b gs boxes (e & He & Hv) Hb IH]; [constructor|].
  cbn [map] in *. apply NoDup_cons in Hnd as [Hni Hnd]. apply Forall_cons in Hr as [Hrg Hr]. constructor; [|by apply IH].
  intros (b' & Heq & Hb')%list_elem_of_In%in_map_iff. apply Hni. apply list_elem_of_In in Hb'.
  apply list_elem_of_lookup in Hb' as (i & Hi). destruct (Forall2_lookup_r _ _ _ _ _ Hb Hi) as (g' & Hg' & e' & He' & Hv').
  apply list_elem_of_lookup_2 in Hg'. apply list_elem_of_In, in_map_iff. exists g'. split; [|by apply list_elem_of_In].
  assert (Hr' : root_of set (fst g')) by (by eapply Forall_forall in Hr).
  destruct (group_variable set clause cs _ Hg Hs Hrg) as (e1 & He1 & _ & Hu1 & _).
  destruct (group_variable set clause cs _ Hg Hs Hr') as (e2 & He2 & _ & Hu2 & _).
  assert (e1 = e) as -> by congruence. assert (e2 = e') as -> by congruence.
  assert (Hc : pip_variable_sort (item e) (item e') = 0).
  { apply var_eq_cmp, var_eq_fields. split; [by rewrite (proj1 Hu1), (proj1 Hu2)|congruence]. }
  apply (elem_unique pip_variable_sort set (item e') _ _ (gr_ok _ _ Hg)).
  - apply elem_of_item. unfold item_at. by rewrite He'.
  - exists (item e). split; [unfold item_at; by rewrite He|exact Hc].
Qed.

(** Every atom is in the group of its variable. *)
Lemma groups_cover set clause cs gs val : grouped set cs -> Forall2 simple_atom clause cs ->
  groups_of set clause cs gs -> all_hold val clause = forallb (fun g => all_hold val (snd g)) gs.
Proof.
  intros Hg Hs [_ Hroots Hatoms]. pose proof (gr_ok _ _ Hg) as Hok. apply bool_eq_iff.
  unfold all_hold. rewrite !forallb_forall. setoid_rewrite forallb_forall. setoid_rewrite <- list_elem_of_In. split.
  - intros Hall g Hgin a Ha. apply Hall. rewrite (proj1 (Forall_forall _ _) Hatoms g Hgin) in Ha.
    by apply list_elem_of_filter in Ha as [_ ?].
  - intros Hall a Ha. destruct (simple_of _ _ _ Hs Ha) as (c & Hc & Hsa). pose proof (sa_constraint _ _ Hsa) as Hac.
    assert (exists v, v ∈ atom_nodes c) as [v Hv].
    { pose proof (sa_one _ _ Hsa). destruct (atom_nodes c) as [|v N]; [done|]. exists v. set_solver. }
    assert (Hm' : among (atom_nodes c) v = true) by (apply among_spec; exists v; split; [done|apply cmp_refl]).
    destruct (gr_joins _ _ Hg c v v Hc Hm' Hm') as (e & e' & r & (w & Hw & Hwv) & _ & Hr & _).
    assert (Hroot : root_of set r) by (by apply reaches_root; destruct Hr).
    assert (Hin : r ∈ map fst gs) by (rewrite Hroots; by apply roots_of).
    apply list_elem_of_In, in_map_iff in Hin as (g & Hgr & Hgin%list_elem_of_In). apply (Hall g Hgin).
    rewrite (proj1 (Forall_forall _ _) Hatoms g Hgin). apply list_elem_of_filter. split; [|done]. rewrite Hgr.
    apply touches_spec; [done..|]. exists e, w. split_and!; [done..|]. rewrite (mentions_spec w a c Hac).
    apply among_spec in Hm' as (u & Hu & Huv). apply among_spec. exists u. split; [done|]. exact (cmp_trans w v u Hwv Huv).
Qed.

Lemma independent_boxes clause cs : Forall2 simple_atom clause cs ->
  exists boxes, NoDup (map fst boxes) /\
    pip_compute_independent_probability dists random true clause samples = Some (Fin (boxes_probability boxes)) /\
    forall val x, valued val x -> all_hold val clause = in_boxes x boxes.
Proof.
  intros Hs. pose proof (simple_constraints _ _ Hs) as HF.
  destruct (conditioned_spec dists random None samples clause cs HF) as (set & gs & Hset & Hgo & Heq).
  pose proof (go_grouped _ _ _ _ Hgo) as Hg. pose proof (gr_ok _ _ Hg) as Hok.
  assert (Hr : Forall (fun g => root_of set (fst g)) gs).
  { apply Forall_forall. intros g Hgin. apply roots_of; [done|]. rewrite <- (go_roots _ _ _ _ Hgo).
    apply list_elem_of_In, in_map. by apply list_elem_of_In. }
  destruct (factors_boxes set clause cs gs 1 0%nat Hg Hs) as (boxes & Hb & Hf & Hall).
  { apply Forall_and. split; [done|apply Hgo]. }
  exists boxes. split_and!.
  - eapply boxes_nodup; try done. rewrite (go_roots _ _ _ _ Hgo). apply NoDup_filter, (ok_nodup _ _ Hok).
  - unfold pip_compute_independent_probability. rewrite Heq. change (Some (fl_one, 0%nat)) with (Some (Fin 1, 0%nat)).
    rewrite Hf. cbn [mbind option_bind fst]. do 2 f_equal. ring.
  - intros val x Hv. rewrite (groups_cover set clause cs gs val Hg Hs Hgo). by apply Hall.
Qed.
End Boxes.
