(* ===== verification/Checks.v ===== *)
(** * Checks: decidable well-formedness and a worked group

    Boolean validators of the well-formedness conditions that the theorems assume
    (world tables, rows, stored clauses), each with its soundness lemma, and a
    small tuple-independent group with the states it goes through, on which the
    theorems are instantiated. *)
From Stdlib Require Strings.String.
From Stdlib Require Import Strings.String.
From S2P Require Import Prelude.
From S2P Require Import Bitset.
From S2P Require Import Worlds.
From S2P Require Import LocalCond.
From S2P Require Import Lineage.
From S2P Require Import Choice.
From S2P Require Import Condition.
From S2P Require Import WsTreeCorrect.
From S2P Require Import HashTable.
From S2P Require Import Split.
From S2P Require Import Completion.
From S2P Require Import Store.
From S2P Require Import Group.
From S2P Require Import Sort.
From S2P Require Import DTree.
From S2P Require Import DTreeCond.
From S2P Require Import DTreeExact.
From S2P Require Import Bounds.
From S2P Require Import DTreeApprox.
From S2P Require Import Appro.
From S2P Require Import Argmax.
From S2P Require Import Signature.
From S2P Require Import Sprout.
From S2P Require Import SproutAgg.
From S2P Require Import SproutScan.
From S2P Require Import SproutRefine.
From S2P Require Import SproutProb.
From S2P Require Import SigTree.
From S2P Require Import SproutGroup.
From S2P Require Import SproutJoin.

(** ** Validators *)

Definition dist_okb (d : dist) : bool :=
  bool_decide (NoDup d.*1) && forallb (fun rp => bool_decide (0 <= rp.2)%Qc) d &&
  Qeq_bool (this (mass d)) 1.

Definition table_okb (W : wtable) : bool :=
  bool_decide (NoDup W.*1) &&
  forallb (fun xd => dist_okb xd.2 && forallb (fun rp => (0 <=? rp.1)%Z) xd.2) W.

Lemma forallb_elem {A} (f : A -> bool) (l : list A) (x : A) : forallb f l = true -> x ∈ l -> f x = true.
Proof. rewrite forallb_forall. intros H Hx. by apply H, list_elem_of_In. Qed.

Lemma dist_okb_sound (d : dist) : dist_okb d = true -> dist_ok d.
Proof.
  unfold dist_okb. rewrite !andb_true_iff, bool_decide_eq_true. intros [[Hnd Hnn] Hm]. split; [done| |].
  - intros r p Hr. pose proof (forallb_elem _ _ _ Hnn Hr) as H. by apply bool_decide_eq_true in H.
  - apply Qc_is_canon. by apply Qeq_bool_eq.
Qed.

Lemma table_okb_sound (W : wtable) : table_okb W = true -> table_ok W.
Proof.
  unfold table_okb. rewrite andb_true_iff, bool_decide_eq_true. intros [Hnd Hall].
  assert (H : forall x d, (x, d) ∈ W -> dist_ok d /\ forallb (fun rp => (0 <=? rp.1)%Z) d = true).
  { intros x d Hx. pose proof (forallb_elem _ _ _ Hall Hx) as H. simpl in H.
    apply andb_true_iff in H as [H1 H2]. split; [by apply dist_okb_sound|done]. }
  split; [split; [done|]|].
  - intros x d Hx. by apply (H x d).
  - intros x d r p Hx Hr. pose proof (forallb_elem _ _ _ (proj2 (H x d Hx)) Hr) as H1.
    by apply Z.leb_le in H1.
Qed.

Definition lit_inb (W : wtable) (x r : Z) (p : Qc) : bool :=
  existsb (fun xd => (xd.1 =? x)%Z &&
    existsb (fun rp => (rp.1 =? r)%Z && bool_decide (rp.2 = p)) xd.2) W.

Lemma lit_inb_sound (W : wtable) (x r : Z) (p : Qc) : lit_inb W x r p = true -> lit_in W x r p.
Proof.
  unfold lit_inb, lit_in. rewrite existsb_exists. intros ([y d] & Hy & H). simpl in H.
  rewrite andb_true_iff, Z.eqb_eq, existsb_exists in H. destruct H as [-> ([s q] & Hs & H)].
  simpl in H. rewrite andb_true_iff, Z.eqb_eq, bool_decide_eq_true in H. destruct H as [-> ->].
  exists d. split; by apply list_elem_of_In.
Qed.

Definition row_okb (W : wtable) (n : nat) (r : row) : bool :=
  (length r =? n) && bool_decide (NoDup (row_clause r).*1) &&
  forallb (fun m => lit_inb W (var m) (rng m) (mprob m) && bool_decide (0 < mprob m)%Qc &&
    (0 <=? rng m)%Z && (rng m <? INT32_MAX)%Z && (- 2 ^ 31 <=? var m)%Z && (var m <? 2 ^ 31)%Z)
    (row_maps r).

Lemma rows_okb_sound (W : wtable) (n : nat) (rs : list row) :
  forallb (row_okb W n) rs = true -> Forall (row_ok W n) rs.
Proof.
  intros H. apply Forall_forall. intros r Hr. pose proof (forallb_elem _ _ _ H Hr) as Hb.
  unfold row_okb in Hb. rewrite !andb_true_iff, Nat.eqb_eq, bool_decide_eq_true in Hb.
  destruct Hb as [[Hlen Hnd] Hm]. split; [done..|]. apply Forall_forall. intros m Hin.
  pose proof (forallb_elem _ _ _ Hm Hin) as Hb.
  rewrite !andb_true_iff, bool_decide_eq_true, !Z.leb_le, !Z.ltb_lt in Hb.
  destruct Hb as (((((H1 & H2) & H3) & H4) & H5) & H6).
  split; [by apply lit_inb_sound|done|lia|]. unfold int32. lia.
Qed.

Definition single_rngb (cs : list clause) : bool :=
  forallb (fun c1 => forallb (fun c2 => forallb (fun l1 => forallb (fun l2 =>
    negb (l1.1 =? l2.1)%Z || (l1.2 =? l2.2)%Z) c2) c1) cs) cs.

Lemma single_rngb_sound (cs : list clause) : single_rngb cs = true -> single_rng cs.
Proof.
  intros H c1 c2 x r1 r2 H1 H2 Hl1 Hl2.
  pose proof (forallb_elem _ _ _ H H1) as Hb. pose proof (forallb_elem _ _ _ Hb H2) as Hb2.
  pose proof (forallb_elem _ _ _ Hb2 Hl1) as Hb3. pose proof (forallb_elem _ _ _ Hb3 Hl2) as Hb4.
  simpl in Hb4. rewrite Z.eqb_refl in Hb4. simpl in Hb4. by apply Z.eqb_eq.
Qed.

(** At most thirty variables always fit a bucket. *)
Lemma small_group (V : list Z) :
  length (remove_dups V) <= LIST_INIT_SIZE ->
  forall c, length (filter (fun v => cls INIT_NBITS v = c) (remove_dups V)) <= LIST_INIT_SIZE.
Proof. intros H c. etransitivity; [apply length_filter|done]. Qed.

(** Stored clauses with pointers. *)
Definition map_okb (W : wtable) (m : Map) : bool :=
  bool_decide (0 < mprob m)%Qc && ((rng m =? -1)%Z || (0 <=? rng m)%Z) &&
  match rng_entry m with
  | Some (k, i) =>
      match W !! k with
      | Some (x, d) =>
          (x =? var m)%Z &&
          match d !! i with
          | Some (r, p) => bool_decide (p = mprob m) && ((rng m =? -1)%Z || (rng m =? r)%Z)
          | None => false
          end
      | None => false
      end && bool_decide (wt_entry m = Some k)
  | None => false
  end.

Lemma map_okb_sound (W : wtable) (m : Map) : map_okb W m = true -> map_ok W m.
Proof.
  unfold map_okb. rewrite !andb_true_iff, orb_true_iff, bool_decide_eq_true, Z.eqb_eq, Z.leb_le.
  intros [[Hp Hr] H]. destruct (rng_entry m) as [[k i]|] eqn:Hre; [|done].
  apply andb_true_iff in H as [H Hwt]. apply bool_decide_eq_true in Hwt.
  destruct (W !! k) as [[x d]|] eqn:Hk; [|done]. apply andb_true_iff in H as [Hx H].
  apply Z.eqb_eq in Hx as ->. destruct (d !! i) as [[r p]|] eqn:Hd; [|done].
  rewrite andb_true_iff, bool_decide_eq_true, orb_true_iff, !Z.eqb_eq in H. destruct H as [-> H].
  split; [done|done| |by rewrite Hre]. by exists k, i, d, r.
Qed.

Definition wsd_okb (W : wtable) (w : WSD) : bool :=
  bool_decide (NoDup (var <$> data w)) && forallb (map_okb W) (data w) &&
  bool_decide (wprob w = qprod (mprob <$> filter active (data w))).

Lemma clauses_okb_sound (W : wtable) (l : list WSD) : forallb (wsd_okb W) l = true -> clauses_ok W l.
Proof.
  intros H. apply Forall_forall. intros w Hw. pose proof (forallb_elem _ _ _ H Hw) as Hb.
  unfold wsd_okb in Hb. rewrite !andb_true_iff, !bool_decide_eq_true in Hb.
  destruct Hb as [[H1 H2] H3]. split; [done| |done].
  apply Forall_forall. intros m Hm. apply map_okb_sound. by apply (forallb_elem _ _ _ H2).
Qed.

Definition fresh_okb (W : wtable) (wl : nat) (l : list WSD) : bool :=
  forallb (wsd_okb W) l && forallb (fun w => forallb (fun m => negb (rng m =? -1)%Z) (data w)) l &&
  single_rngb (lits <$> l) && forallb (fun w => length (data w) =? wl) l.

Lemma all_activeb (l : list WSD) :
  forallb (fun w => forallb (fun m => negb (rng m =? -1)%Z) (data w)) l = true ->
  Forall (fun w => Forall active (data w)) l.
Proof.
  intros H. apply Forall_forall. intros w Hw. apply Forall_forall. intros m Hm.
  pose proof (forallb_elem _ _ _ (forallb_elem _ _ _ H Hw) Hm) as Hb.
  by apply negb_true_iff, Z.eqb_neq in Hb.
Qed.

Lemma fresh_okb_sound (W : wtable) (wl : nat) (l : list WSD) :
  fresh_okb W wl l = true -> fresh_clauses W wl l.
Proof.
  unfold fresh_okb. rewrite !andb_true_iff. intros [[[H1 H2] H3] H4]. split.
  - by apply clauses_okb_sound.
  - by apply all_activeb.
  - by apply single_rngb_sound.
  - apply Forall_forall. intros w Hw. by apply Nat.eqb_eq, (forallb_elem _ _ _ H4 Hw).
Qed.

(** ** The worked group *)

Definition half_p : Qc := Q2Qc (1 # 2).
Definition third_p : Qc := Q2Qc (1 # 3).
Definition ex_junk (_ : nat) : N := 5%N.

(** Three independent variables; the last range value never occurs in a row. *)
Definition ex_table : wtable :=
  [(5, [(1, half_p); (2, half_p)]); (6, [(1, third_p); (2, Q2Qc (2 # 3))]);
   (7, [(1, half_p); (3, half_p)])]%Z.
Definition ex_vars : list Z := [5; 6; 7]%Z.
Definition ex_rows : list row :=
  [[(5, 1, half_p); (6, 1, third_p)]; [(6, 1, third_p); (7, 1, half_p)];
   [(7, 1, half_p); (5, 1, half_p)]]%Z.
(** Rows that use several values of a variable. *)
Definition ex_rows_multi : list row :=
  [[(5, 1, half_p); (6, 1, third_p)]; [(5, 2, half_p); (6, 2, Q2Qc (2 # 3))];
   [(7, 3, half_p); (6, 1, third_p)]]%Z.

Definition ex_globals : globals := mk_globals None 0 0 false (mk_state [] 0 [] ∅ 0 0).
Definition ex_appro : appro_globals := mk_appro ex_globals String.EmptyString 0%Qc.

Lemma ex_table_ok : table_ok ex_table.
Proof. by apply table_okb_sound. Qed.
Lemma ex_rows_ok : Forall (row_ok ex_table 2) ex_rows.
Proof. by apply rows_okb_sound. Qed.
Lemma ex_rows_multi_ok : Forall (row_ok ex_table 2) ex_rows_multi.
Proof. by apply rows_okb_sound. Qed.
Lemma ex_rows_vars : forall r t, r ∈ ex_rows -> t ∈ r -> t.1.1 ∈ ex_vars.
Proof.
  intros r t Hr Ht. apply (bool_decide_unpack (t.1.1 ∈ ex_vars)).
  assert (forallb (forallb (fun t => bool_decide (t.1.1 ∈ ex_vars))) ex_rows = true) as H by done.
  by rewrite (forallb_elem _ _ _ (forallb_elem _ _ _ H Hr) Ht).
Qed.
Lemma ex_rows_multi_vars : forall r t, r ∈ ex_rows_multi -> t ∈ r -> t.1.1 ∈ ex_vars.
Proof.
  intros r t Hr Ht. apply (bool_decide_unpack (t.1.1 ∈ ex_vars)).
  assert (forallb (forallb (fun t => bool_decide (t.1.1 ∈ ex_vars))) ex_rows_multi = true) as H by done.
  by rewrite (forallb_elem _ _ _ (forallb_elem _ _ _ H Hr) Ht).
Qed.
Lemma ex_single : single_rng (row_clause <$> ex_rows).
Proof. by apply single_rngb_sound. Qed.
Lemma ex_small : forall c,
  length (filter (fun v => cls INIT_NBITS v = c) (remove_dups ex_vars)) <= LIST_INIT_SIZE.
Proof. apply small_group. by apply Nat.leb_le. Qed.

(** The state after the rows, and the completed table and clauses of the end of
    the group. *)
Definition after_rows (rs : list row) : globals :=
  default ex_globals (accum_rows 2 [DInt32 0] rs ex_globals).
Definition ex_after : globals := after_rows ex_rows.
Definition ex_state : generalState := default (gstate ex_after) (getMissingRngs (gstate ex_after)).
Definition ex_clauses : list WSD := default [] (l ← gS ex_after; computeEntryPointers ex_state l).
Definition ex_wt : list worldTableEntry := wt_entries ex_state.
Definition full_set (n : nat) : bitset := default (bitset_init ex_junk n) (bitset_set (bitset_init ex_junk n)).

Lemma full_set_rep (n : nat) : Rep n (below n) (full_set n).
Proof.
  unfold full_set. destruct (bitset_set_spec (bitset_init ex_junk n) (bitset_init_ok _ _))
    as (b & -> & HR). done.
Qed.

Lemma ex_shape_ok : table_ok (shape ex_wt).
Proof. apply table_okb_sound. by vm_compute. Qed.
Lemma ex_fresh : fresh_clauses (shape ex_wt) 2 ex_clauses.
Proof. apply fresh_okb_sound. by vm_compute. Qed.
Lemma ex_length : length ex_clauses = 3.
Proof. by vm_compute. Qed.
Lemma ex_dlineage : dlineage_ok (shape ex_wt) 3 2 ex_clauses (below 3).
Proof. rewrite <- ex_length. apply fresh_lineage, ex_fresh. Qed.
Lemma ex_lineage : lineage_ok (shape ex_wt) 3 ex_clauses (below 3).
Proof. apply ex_dlineage. Qed.
Lemma ex_mu : mu ex_clauses (below 3) < 12.
Proof. by apply Nat.ltb_lt. Qed.
Lemma below_ne (n : nat) : below (S n) <> ∅.
Proof.
  intros H. assert (0 ∈ below (S n)) as Hi by (apply elem_of_below; lia).
  rewrite H in Hi. by apply not_elem_of_empty in Hi.
Qed.
Lemma ex_orep : ORep 3 (below 3) (Some (full_set 3)).
Proof. split; [apply full_set_rep|]. right. apply below_ne. Qed.
Lemma ex_clauses_ok : clauses_ok (shape ex_wt) ex_clauses.
Proof. apply ex_fresh. Qed.

(** The accumulated group satisfies the invariant of the accumulation. *)
Lemma ex_inv : group_inv ex_table 2 ex_vars ex_rows ex_after.
Proof.
  destruct (accum_rows_spec ex_table ex_table_ok 2 ex_vars ex_small [DInt32 0] ex_rows ex_globals)
    as (g & Hg & Hi & _); [done|done|done|exact ex_rows_ok|exact ex_rows_vars|].
  unfold ex_after, after_rows. by rewrite Hg.
Qed.

Definition ex_stored : list WSD := default [] (gS ex_after).
Lemma ex_gS : gS ex_after = Some ex_stored.
Proof. by vm_compute. Qed.
Lemma ex_store : store_ok (wt_entries (gstate ex_after)) ex_stored.
Proof. exact (proj1 (group_prob ex_table ex_table_ok 2 ex_vars ex_rows ex_after _ ex_inv ex_gS)). Qed.
Lemma ex_stored_length (w : WSD) : w ∈ ex_stored -> length (data w) = 2.
Proof.
  exact (proj1 (proj2 (proj2 (group_prob ex_table ex_table_ok 2 ex_vars ex_rows ex_after _ ex_inv ex_gS))) w).
Qed.
Lemma ex_cxt : groupcxt ex_after = true.
Proof. by vm_compute. Qed.
Lemma ex_wsd_len : WSD_LEN ex_after = 2.
Proof. by vm_compute. Qed.
Lemma ex_stored_ne : ex_stored <> [].
Proof. apply (group_ne ex_rows); [done|]. by vm_compute. Qed.
Lemma ex_stored_fits (w : WSD) : w ∈ ex_stored -> length (data w) <= WSD_LEN ex_after.
Proof. intros Hw. rewrite ex_wsd_len, (ex_stored_length w Hw). done. Qed.

(** ** A worked hierarchical query

    Decision procedures for the shape of lineage, and the query

      R(x), S(x, y), T(x, y, z), V(x, w) joined on R.x = S.x = T.x = V.x, S.y = T.y

    with its signature and the lineage of one group; and the query

      R(x, u), S(x, v) joined on R.x = S.x

    without keys, whose signature R* S* needs an aggregation, with a group of
    two key values. *)

Open Scope string_scope.
Open Scope nat_scope.
Open Scope list_scope.

(** ** Decision procedures *)

Fixpoint shapedb (t : tree) (bs : list block) : bool :=
  let 'T cs := t in
  negb (bool_decide (bs = [])) && bool_decide (NoDup (bvar <$> bs)) &&
  forallb (fun b => (fix all (cs : list tree) (ls : list (list block)) : bool :=
    match cs, ls with
    | [], [] => true
    | c :: cs, l :: ls => shapedb c l && all cs ls
    | _, _ => false
    end) cs (bsub b)) bs.

(** [rows] with repetitions. *)
Definition repeated (ks : list nat) (rows : list arow) : list arow := mjoin (zip_with (fun k r => replicate (S k) r) ks rows).

Definition knownb (val : Z -> Z) (W : wtable) (l : arow) : bool :=
  forallb (fun xp => lit_inb W xp.1 (val xp.1) xp.2) l.

(** ** The query *)

Definition rel (r : string) : node := RangeVar None None r None.
Definition eqs (a b : list string) : expr := A_Expr (Some "=") (Some (ColumnRef a)) (Some (ColumnRef b)).
Definition conj (a b : expr) : expr := A_Expr None (Some a) (Some b).

Definition sp_natts (n : node) : nat :=
  match n with
  | RangeVar _ _ r _ => if bool_decide (r = "R") then 1 else if bool_decide (r = "T") then 3 else 2
  | _ => 0
  end.
Definition sp_pkeys (n : node) : list string := [].
Definition sp_from : list node := [rel "R"; rel "S"; rel "T"; rel "V"].
Definition sp_where : expr :=
  conj (eqs ["R"; "x"] ["S"; "x"])
    (conj (eqs ["S"; "x"] ["T"; "x"])
      (conj (eqs ["T"; "x"] ["V"; "x"]) (eqs ["S"; "y"] ["T"; "y"]))).
Definition sp_lists : list sgList :=
  default [] (geneSGList (fun _ => []) (Some sp_where) [] sp_from).
Definition sp_sig : signature :=
  default (mk_signature (SgTreeNode true 0 [] []) (SigNode zero_info []) false [])
    (ProcessSignature sp_natts sp_pkeys sp_from sp_lists).

(** Two tuples of R; the first joins two of V and two of S. *)
Definition sp_half : Qc := Q2Qc (1 # 2).
Definition leafb (x : Z) : block := B x sp_half [].
Definition sp_blocks : list block :=
  [B 1 sp_half [[leafb 10; leafb 11]; [B 20 sp_half [[leafb 30; leafb 31]]; B 21 sp_half [[leafb 32]]]];
   B 2 sp_half [[leafb 12]; [B 22 sp_half [[leafb 33]]]]]%Z.
Definition sp_rows : list arow := repeated [0; 1; 0; 0; 2; 0; 0] (rows_of sp_blocks).
Definition sp_world : wtable :=
  (fun xp => (xp.1, [(1%Z, sp_half); (0%Z, sp_half)])) <$> bases sp_blocks.
Definition sp_val (x : Z) : Z := 1.
Definition sp_agg (strategy : AggStrategy) : sproutAgg :=
  mk_sprout false sp_sig strategy (zero_state, mk_lineage [] 0) (zero_state, mk_lineage [] 0).
Definition sp_lineage : lineageTable := mk_lineage ((fun r => mk_varprob r.*1 r.*2) <$> sp_rows) 0.

(** ** Soundness and the facts about the query *)

Lemma shapedb_sound (t : tree) (bs : list block) : shapedb t bs = true -> shaped t bs.
Proof.
  revert bs. induction t as [cs IH] using tree_ind'. intros bs H. cbn [shapedb] in H.
  apply andb_true_iff in H as [H Hall]. apply andb_true_iff in H as [Hne Hnd].
  apply shaped_unfold. apply negb_true_iff, bool_decide_eq_false in Hne. apply bool_decide_eq_true in Hnd.
  split_and!; try done. apply Forall_forall. intros b Hb.
  pose proof (forallb_elem _ _ _ Hall Hb) as H. cbn beta in H. revert H. generalize (bsub b). clear -IH.
  induction IH as [|c cs Hc _ IH]; intros [|l ls] H; try done.
  apply andb_true_iff in H as [H1 H2]. constructor; [by apply Hc|by apply IH].
Qed.

Lemma repeated_grouped (ks : list nat) (rows : list arow) :
  length ks = length rows -> grouped [] rows (repeated ks rows).
Proof.
  revert ks. induction rows as [|r rows IH]; intros [|k ks] H; try done; [constructor|].
  change (repeated (k :: ks) (r :: rows)) with (replicate (S k) r ++ repeated ks rows).
  constructor.
  - done.
  - apply Forall_forall. intros r' [-> _]%elem_of_replicate. exists []. by rewrite app_nil_r.
  - apply IH. simpl in H. lia.
Qed.

Lemma knownb_sound (val : Z -> Z) (W : wtable) (l : arow) : knownb val W l = true -> Forall (known val W) l.
Proof.
  intros H. apply Forall_forall. intros xp Hx. apply lit_inb_sound. exact (forallb_elem _ _ _ H Hx).
Qed.

Lemma wtable_okb_sound (W : wtable) :
  bool_decide (NoDup W.*1) && forallb (fun xd => dist_okb xd.2) W = true -> wtable_ok W.
Proof.
  rewrite andb_true_iff, bool_decide_eq_true. intros [H1 H2]. constructor; [done|].
  intros x d Hx. apply dist_okb_sound. exact (forallb_elem _ _ _ H2 Hx).
Qed.

Lemma sp_process : ProcessSignature sp_natts sp_pkeys sp_from sp_lists = Some sp_sig.
Proof. reflexivity. Qed.
Lemma sp_shaped : shaped (sig_tree (sigTreeRoot sp_sig)) sp_blocks.
Proof. by apply shapedb_sound. Qed.
Lemma sp_grouped : grouped [] (rows_of sp_blocks) sp_rows.
Proof. by apply repeated_grouped. Qed.
Lemma sp_rows_length : Forall (fun r => length r = leafDescendentCount (sigTreeRoot sp_sig)) sp_rows.
Proof.
  assert (H : forallb (fun r => length r =? leafDescendentCount (sigTreeRoot sp_sig)) sp_rows = true) by reflexivity.
  apply Forall_forall. intros r Hr. apply Nat.eqb_eq. exact (forallb_elem _ _ _ H Hr).
Qed.
Lemma sp_nodup : NoDup (bases sp_blocks).*1.
Proof. by apply (bool_decide_unpack _). Qed.
Lemma sp_known : Forall (known sp_val sp_world) (bases sp_blocks).
Proof. by apply knownb_sound. Qed.
Lemma sp_world_ok : wtable_ok sp_world.
Proof. by apply wtable_okb_sound. Qed.
Lemma sp_fresh (st : AggStrategy) : fresh_agg sp_sig (sp_agg st).
Proof. split; [done|]. by destruct st. Qed.

(** ** The query with an aggregation *)

Definition st_natts (n : node) : nat := 3.
Definition st_from : list node := [rel "R"; rel "S"].
Definition st_lists : list sgList :=
  default [] (geneSGList (fun _ => []) (Some (eqs ["R"; "x"] ["S"; "x"])) [] st_from).
Definition st_sig : signature :=
  default sp_sig (ProcessSignature st_natts sp_pkeys st_from st_lists).

(** Two tuples of R join two of S, and one more of each. *)
Definition st_groups : list sgroup :=
  [mk_sgroup [(1, sp_half); (4, sp_half)] [[leafb 2; leafb 3]];
   mk_sgroup [(5, sp_half)] [[leafb 6]]]%Z.
Definition st_rows : list arow := repeated [0; 2; 0; 1; 0] (join_rows st_groups).
Definition st_world : wtable :=
  (fun xp => (xp.1, [(1%Z, sp_half); (0%Z, sp_half)])) <$> mjoin (group_base <$> st_groups).
Definition st_agg : sproutAgg :=
  mk_sprout false st_sig AGG_HASHED (zero_state, mk_lineage [] 0) (zero_state, mk_lineage [] 0).

Lemma st_process : ProcessSignature st_natts sp_pkeys st_from st_lists = Some st_sig.
Proof. reflexivity. Qed.
Lemma st_shaped : forall cs, cs = [T []] -> Forall (group_ok cs) st_groups.
Proof.
  intros cs ->. repeat apply Forall_cons_2; [..|apply Forall_nil_2].
  all: (split; [done|]); constructor; [by apply shapedb_sound|constructor].
Qed.
Lemma st_grouped : grouped [] (join_rows st_groups) st_rows.
Proof. by apply repeated_grouped. Qed.
Lemma st_nodup : NoDup (mjoin (group_base <$> st_groups)).*1.
Proof. by apply (bool_decide_unpack _). Qed.
Lemma st_known : Forall (known sp_val st_world) (mjoin (group_base <$> st_groups)).
Proof. by apply knownb_sound. Qed.
Lemma st_world_ok : wtable_ok st_world.
Proof. by apply wtable_okb_sound. Qed.
