(* ===== verification/ConfTheorems.v ===== *)
(** * ConfTheorems: what the exact confidence computation guarantees

    The properties of [localcond.c] and [ws-tree.c], from a whole group of rows
    down to the steps of the recursion, each with an instance on the worked group
    of [Checks]. *)
From S2P Require Import Prelude.
From S2P Require Import Bitset.
From S2P Require Import Worlds.
From S2P Require Import LocalCond.
From S2P Require Import HashTable.
From S2P Require Import Split.
From S2P Require Import WsTree.
From S2P Require Import Lineage.
From S2P Require Import Choice.
From S2P Require Import Condition.
From S2P Require Import WsTreeCorrect.
From S2P Require Import Completion.
From S2P Require Import Store.
From S2P Require Import Group.
From S2P Require Import Checks.

(** C1: the aggregate [conf] on a group.  Running the transition function over the
    rows and then [conf_final_ge] terminates without error, returns the probability
    under the global world table that some row of the group is present, and frees
    the group's memory. *)
Theorem conf_group_probability (W : wtable) (n : nat) (V : list Z) (junk : nat -> N) (rs : list row)
    (g : globals) :
  table_ok W ->
  (forall c, length (filter (fun v => cls INIT_NBITS v = c) (remove_dups V)) <= LIST_INIT_SIZE) ->
  gS g = None -> rs <> [] -> Forall (row_ok W n) rs ->
  (forall r t, r ∈ rs -> t ∈ r -> t.1.1 ∈ V) ->
  exists g', conf_group n junk rs g = Some (Pr W (sat_dnf (row_clause <$> rs)), g') /\
    groupcxt g' = false /\ gS g' = None.
Proof. intros HW HV. by apply conf_group_spec. Qed.

Lemma conf_group_probability_witness :
  exists g', conf_group 2 ex_junk ex_rows_multi ex_globals =
    Some (Pr ex_table (sat_dnf (row_clause <$> ex_rows_multi)), g') /\ groupcxt g' = false /\ gS g' = None.
Proof.
  apply (conf_group_probability ex_table 2 ex_vars ex_junk ex_rows_multi ex_globals);
    [exact ex_table_ok|exact ex_small|reflexivity|discriminate|exact ex_rows_multi_ok|exact ex_rows_multi_vars].
Defined.

(** C2: the recursion on any set of well-formed clauses.  With fuel above the
    measure (clauses plus live assignments) [indve_compute_prob] returns the exact
    probability of the set's disjunction, leaves the clause array as it found it and
    changes nothing of the world table but its counters. *)
Theorem indve_compute_prob_exact (W : wtable) (junk : nat -> N) (NUM fuel : nat) (l : list WSD)
    (X : gset nat) (set : option bitset) (wt : list worldTableEntry) :
  table_ok W -> lineage_ok W NUM l X -> ORep NUM X set -> mu l X < fuel -> shape wt = W ->
  exists wt', indve_compute_prob junk NUM fuel set (mk_st l wt) = Some (PrS W l X, mk_st l wt') /\
    shape wt' = W.
Proof. intros HW. by apply indve_rec_ok. Qed.

Lemma indve_compute_prob_exact_witness :
  exists wt', indve_compute_prob ex_junk 3 12 (Some (full_set 3)) (mk_st ex_clauses ex_wt) =
    Some (PrS (shape ex_wt) ex_clauses (below 3), mk_st ex_clauses wt') /\ shape wt' = shape ex_wt.
Proof.
  apply (indve_compute_prob_exact (shape ex_wt));
    [exact ex_shape_ok|exact ex_lineage|exact ex_orep|exact ex_mu|reflexivity].
Defined.

(** The fuel is enough.  [conf_final_ge] on an accumulated store returns the
    probability of the stored clauses under the completed local world table. *)
Theorem conf_final_ge_exact (junk : nat -> N) (g : globals) (l : list WSD) :
  groupcxt g = true -> gS g = Some l -> l <> [] -> store_ok (wt_entries (gstate g)) l ->
  (forall w, w ∈ l -> length (data w) <= WSD_LEN g) ->
  exists g', conf_final_ge junk g =
    Some (Pr (complete_table (wt_entries (gstate g))) (sat_dnf (clause_of <$> l)), g') /\
    groupcxt g' = false /\ gS g' = None.
Proof. apply conf_final_correct. Qed.

Lemma conf_final_ge_exact_witness :
  exists g', conf_final_ge ex_junk ex_after =
    Some (Pr (complete_table (wt_entries (gstate ex_after))) (sat_dnf (clause_of <$> ex_stored)), g') /\
    groupcxt g' = false /\ gS g' = None.
Proof.
  apply conf_final_ge_exact;
    [exact ex_cxt|exact ex_gS|exact ex_stored_ne|exact ex_store|exact ex_stored_fits].
Defined.

(** Independent partitioning.  The split returned for a non-empty set is a
    non-empty part of it that shares no live variable with the rest, so that the
    probability of the set is the independent disjunction of the two parts. *)
Theorem find_independent_split_independent (W : wtable) (junk : nat -> N) (NUM : nat) (l : list WSD)
    (X : gset nat) (set : bitset) :
  wtable_ok W -> length l = NUM -> Rep NUM X set -> X <> ∅ ->
  exists t T, find_independent_split junk NUM l (Some set) = Some (Some t) /\ Rep NUM T t /\
    T <> ∅ /\ T ⊆ X /\
    (forall i j wi wj x, i ∈ T -> j ∈ X ∖ T -> l !! i = Some wi -> l !! j = Some wj ->
       x ∈ (lits wi).*1 -> x ∉ (lits wj).*1) /\
    PrS W l X = (PrS W l T + PrS W l (X ∖ T) - PrS W l T * PrS W l (X ∖ T))%Qc.
Proof.
  intros HW Hlen HX Hne.
  destruct (find_independent_split_spec l NUM Hlen junk X set HX Hne) as (t & T & Hs & HT & _ & Hco).
  exists t, T. split_and!; [done|done|apply Hco|apply Hco| |by apply PrS_split].
  intros i j wi wj x Hi [HjX HjT]%elem_of_difference Hwi Hwj Hx.
  apply (proj1 (wsd_ind_true wi wj)); [|done].
  destruct (wsd_ind wi wj) eqn:Hd; [done|]. exfalso.
  apply (co_closed l X T Hco i j Hi HjX HjT). by exists wi, wj.
Qed.

Lemma find_independent_split_independent_witness :
  exists t T, find_independent_split ex_junk 3 ex_clauses (Some (full_set 3)) = Some (Some t) /\
    Rep 3 T t /\ T <> ∅ /\ T ⊆ below 3 /\
    (forall i j wi wj x, i ∈ T -> j ∈ below 3 ∖ T -> ex_clauses !! i = Some wi -> ex_clauses !! j = Some wj ->
       x ∈ (lits wi).*1 -> x ∉ (lits wj).*1) /\
    PrS (shape ex_wt) ex_clauses (below 3) =
      (PrS (shape ex_wt) ex_clauses T + PrS (shape ex_wt) ex_clauses (below 3 ∖ T) -
       PrS (shape ex_wt) ex_clauses T * PrS (shape ex_wt) ex_clauses (below 3 ∖ T))%Qc.
Proof.
  apply (find_independent_split_independent (shape ex_wt));
    [exact (to_wtable _ ex_shape_ok)|exact ex_length|apply full_set_rep|apply below_ne].
Defined.

(** The variable to eliminate.  The minlog heuristic keeps the world table but
    for its counters; it returns nothing exactly when every assignment is dropped,
    and otherwise the entry of a live assignment whose estimate is least among the
    variables with a live assignment (estimates being non-negative). *)
Theorem choose_var_minlog_least (W : wtable) (NUM : nat) (l : list WSD) (X : gset nat) (set : bitset)
    (wt : list worldTableEntry) :
  length l = NUM -> clauses_ok W l -> Rep NUM X set -> shape wt = W ->
  exists n res wt', choose_var_minlog NUM l set wt = Some (res, wt') /\ shape wt' = W /\
    count_loop NUM l set (resetCount wt) = Some (n, wt') /\
    match res with
    | None => forall m, occurs l X m -> ~ active m
    | Some k =>
        (exists m i, occurs l X m /\ active m /\ rng_entry m = Some (k, i)) /\
        exists e, wt' !! k = Some e /\
          ((forall k' e', wt' !! k' = Some e' -> 0 <= new_val n e')%Z ->
           forall k' e', wt' !! k' = Some e' -> candidate e' -> (new_val n e <= new_val n e')%Z)
    end.
Proof.
  intros Hlen Hok HX Hsh.
  destruct (choose_var_minlog_spec NUM l W Hlen Hok X set wt HX Hsh) as (res & wt' & Hc & Hsh' & Hres).
  unfold choose_var_minlog in Hc |- *.
  destruct (count_loop NUM l set (resetCount wt)) as [[n wt1]|] eqn:Hl; [|done].
  simpl in Hc. injection Hc as Hsel <-. exists n, res, wt1. simpl. rewrite Hsel. split_and!; [done..|].
  destruct res as [k|]; [|done]. split; [done|]. unfold select_var in Hsel.
  pose proof (select_least n (imap pair wt1)) as Hle. unfold least in Hle. rewrite Hsel in Hle.
  destruct Hle as (e & He%elem_of_imap_pair & _ & _ & Hmin). exists e. split; [done|].
  intros Hnn k' e' He' Hcand. apply (Hmin) with k'; [|by apply elem_of_imap_pair|done].
  intros k1 e1 H1%elem_of_imap_pair. by eapply Hnn.
Qed.

Lemma choose_var_minlog_least_witness :
  exists n res wt', choose_var_minlog 3 ex_clauses (full_set 3) ex_wt = Some (res, wt') /\
    shape wt' = shape ex_wt /\ count_loop 3 ex_clauses (full_set 3) (resetCount ex_wt) = Some (n, wt') /\
    match res with
    | None => forall m, occurs ex_clauses (below 3) m -> ~ active m
    | Some k =>
        (exists m i, occurs ex_clauses (below 3) m /\ active m /\ rng_entry m = Some (k, i)) /\
        exists e, wt' !! k = Some e /\
          ((forall k' e', wt' !! k' = Some e' -> 0 <= new_val n e')%Z ->
           forall k' e', wt' !! k' = Some e' -> candidate e' -> (new_val n e <= new_val n e')%Z)
    end.
Proof.
  apply (choose_var_minlog_least (shape ex_wt));
    [exact ex_length|exact ex_clauses_ok|apply full_set_rep|reflexivity].
Defined.

(** Conditioning in place is undone.  [find_wsds_with_var_rng] drops the
    assignment from the clauses that have it; resetting the returned set restores
    the clause array, and without a returned set nothing was changed. *)
Theorem condition_then_reset (W : wtable) (junk : nat -> N) (NUM : nat) (l : list WSD) (X : gset nat)
    (set : bitset) (v r : Z) :
  length l = NUM -> clauses_ok W l -> Rep NUM X set ->
  exists o l', find_wsds_with_var_rng junk NUM l set v r = Some (o, l') /\
    match o with
    | None => l' = l /\ forall i w, i ∈ X -> l !! i = Some w -> ~ has_lit v r w
    | Some b => reset_wsds_var_rng NUM l' b v r = Some l
    end.
Proof.
  intros Hlen Hok HX.
  destruct (find_wsds_with_var_rng_spec junk NUM W l X set v r Hlen Hok HX)
    as (o & [[Hf HB]|(b & i & w & -> & Hf & HR & _)]); rewrite Hf; eexists _, _; (split; [done|]).
  - destruct o as [b|]; simpl in HB; cbn iota beta.
    + rewrite (reset_wsds_var_rng_spec NUM _ (having v r l X)) by (apply HB || unfold drop_on; by rewrite upd_on_length).
      f_equal. apply list_eq. intros j. unfold reset_on, drop_on. rewrite !upd_on_lookup.
      destruct (l !! j) as [w|] eqn:Hw; [|done]. simpl. f_equal.
      destruct (decide (j ∈ having v r l X)) as [Hj|]; [|done].
      apply (reset_dropw W); [by eapply clause_ok|]. by apply (elem_of_having v r l X j w Hw).
    + rewrite HB. unfold drop_on. rewrite upd_on_empty. split; [done|]. intros i w Hi Hw Hl.
      assert (i ∈ having v r l X) as Hin by (by apply (elem_of_having v r l X i w Hw)).
      rewrite HB in Hin. by apply not_elem_of_empty in Hin.
  - cbn iota beta. rewrite (reset_wsds_var_rng_spec NUM _ ∅) by done. f_equal. apply upd_on_empty.
Qed.

Lemma condition_then_reset_witness :
  exists o l', find_wsds_with_var_rng ex_junk 3 ex_clauses (full_set 3) 5 1 = Some (o, l') /\
    match o with
    | None => l' = ex_clauses /\ forall i w, i ∈ below 3 -> ex_clauses !! i = Some w -> ~ has_lit 5 1 w
    | Some b => reset_wsds_var_rng 3 l' b 5 1 = Some ex_clauses
    end.
Proof.
  apply (condition_then_reset (shape ex_wt));
    [exact ex_length|exact ex_clauses_ok|apply full_set_rep].
Defined.
