(* ===== verification/StoreTheorems.v ===== *)
(** * StoreTheorems: what the lineage store guarantees

    The properties of [localcond.c]: the hash table of variables, its growth, the
    registration of assignments, the accumulation of rows and the completion of
    the local world table. *)
From S2P Require Import Prelude.
From S2P Require Import Worlds.
From S2P Require Import LocalCond.
From S2P Require Import HashTable.
From S2P Require Import Split.
From S2P Require Import Lineage.
From S2P Require Import WsTreeCorrect.
From S2P Require Import Completion.
From S2P Require Import Store.
From S2P Require Import Group.
From S2P Require Import Checks.

(** ** Helpers *)

(** The entry of a variable is found again. *)
Lemma find_again (s : generalState) (x : nat) (e : worldTableEntry) :
  state_ok s -> wt_entries s !! x = Some e ->
  find_or_create_entry s (wt_var e) = Some (x, s).
Proof.
  intros [Hht _ _ _ _] He.
  destruct (ht_find _ _ Hht x e) as (l & b & Hs & Hb & Hin); [by apply lookup_lt_Some in He|done|].
  unfold find_or_create_entry. unfold slot_of in Hs. rewrite Hs. cbn [mbind option_bind].
  rewrite Hb. cbn [mbind option_bind].
  assert (Hi : (0 <= HASHFUNC (wt_var e) (gs_mask s))%Z).
  { rewrite (ht_mask _ _ Hht), HASHFUNC_cls. apply cls_range. }
  destruct (ht_bucket_ok _ _ Hht _ l Hi Hs) as (b' & Hb' & Hbo).
  assert (b' = b) as -> by congruence.
  rewrite (search_spec b _ x (bo_nodup _ _ _ Hbo) Hin).
  destruct (Z.eqb_spec (Z.of_nat x) KEY_NOT_FOUND) as [H|_]; [unfold KEY_NOT_FOUND in H; lia|].
  by rewrite Nat2Z.id.
Qed.

(** The two halves of a bucket of one class are all of it. *)
Lemma halves (n : nat) (c : Z) (items : list (Z * nat)) :
  (forall k x, (k, x) ∈ items -> cls n k = c) ->
  half (S n) c items ++ half (S n) (c + 2 ^ Z.of_nat n) items ≡ₚ items.
Proof.
  intros Hc. pose proof (pow2_pos n).
  induction items as [|[k x] items IH] using rev_ind; [done|].
  assert (Hk : cls n k = c) by (apply (Hc k x); set_solver).
  specialize (IH ltac:(intros k' x' Hk'; apply (Hc k' x'); set_solver)).
  rewrite !half_snoc. destruct (low_high n k c Hk) as [->| ->].
  - rewrite decide_True, decide_False, app_nil_r by (done || lia).
    transitivity ((half (S n) c items ++ half (S n) (c + 2 ^ Z.of_nat n) items) ++ [(k, x)]);
      [|by rewrite IH].
    rewrite <- !app_assoc. apply Permutation_app_head, Permutation_app_comm.
  - rewrite decide_False, decide_True, app_nil_r by (done || lia). rewrite app_assoc. by rewrite IH.
Qed.

(** What one comparison of [advance] keeps: [i] rounds are done, and round [i] up
    to [j]. *)
Record dedup (d0 : list Map) (i j : nat) (d : list Map) : Prop := {
  dd_len : length d = length d0;
  dd_same : forall k m m0, d !! k = Some m -> d0 !! k = Some m0 -> m = m0 \/ m = reserve m0;
  dd_pairs : forall a b ma mb, a < b -> a < i \/ (a = i /\ b < j) -> d !! a = Some ma ->
    d !! b = Some mb -> var ma = var mb -> var mb = RESERVED_VAR }.

Lemma reserve_reserve (m : Map) : reserve (reserve m) = reserve m.
Proof. done. Qed.

Lemma dedup_step (d0 d : list Map) (i j : nat) :
  dedup d0 i j d -> i < j -> j < length d0 ->
  exists d', (mi ← d !! i; mj ← d !! j;
              if (var mi =? var mj)%Z then Some (<[j := reserve mj]> d) else Some d) = Some d' /\
    dedup d0 i (S j) d'.
Proof.
  intros [Hlen Hsame Hpairs] Hij Hj.
  destruct (lookup_lt_is_Some_2 d i) as [mi Hmi]; [lia|].
  destruct (lookup_lt_is_Some_2 d j) as [mj Hmj]; [lia|]. rewrite Hmi, Hmj. cbn [mbind option_bind].
  destruct (Z.eqb_spec (var mi) (var mj)) as [He|Hne].
  - eexists. split; [done|]. split; [by rewrite length_insert| |].
    + intros k m m0 Hk Hk0. apply list_lookup_insert_Some in Hk as [(<- & <- & _)|(_ & Hk)]; [|by apply (Hsame k)].
      right. destruct (Hsame j mj m0 Hmj Hk0) as [->| ->]; [done|apply reserve_reserve].
    + intros a b ma mb Hab Hp Ha Hb Hv.
      apply list_lookup_insert_Some in Hb as [(<- & <- & _)|(Hnb & Hb)]; [done|].
      apply list_lookup_insert_Some in Ha as [(<- & <- & _)|(_ & Ha)]; [lia|].
      apply (Hpairs a b ma mb); [done|lia|done..].
  - exists d. split; [done|]. split; [done..|]. intros a b ma mb Hab Hp Ha Hb Hv.
    destruct (decide (a = i /\ b = j)) as [[-> ->]|Hn]; [congruence|].
    apply (Hpairs a b ma mb); [done|lia|done..].
Qed.

Lemma dedup_weaken (d0 d : list Map) (i j i' j' : nat) :
  (forall a b, a < b -> b < length d0 -> a < i' \/ (a = i' /\ b < j') -> a < i \/ (a = i /\ b < j)) ->
  dedup d0 i j d -> dedup d0 i' j' d.
Proof.
  intros H [Hlen Hsame Hp]. split; [done..|]. intros a b ma mb Hab Hc Ha Hb.
  apply (Hp a b ma mb); [done| |done..]. apply H; [done| |done].
  rewrite <- Hlen. by apply lookup_lt_Some in Hb.
Qed.

Lemma drop_duplicates_spec (n : nat) (d0 : list Map) :
  length d0 = n -> exists d, drop_duplicates n d0 = Some d /\ dedup d0 (n - 1) 0 d.
Proof.
  intros Hn. unfold drop_duplicates.
  apply (for_upto_inv (fun i d => dedup d0 i 0 d)).
  - split; [done|intros; left; congruence|]. intros a b ma mb Hab Hc. lia.
  - intros i d Hi Hd.
    edestruct (for_list_inv (fun l d => dedup d0 i (S i + length l) d) (seq (S i) (n - S i)))
      as (d' & Hd' & Hdd); [| |exists d'; split; [exact Hd'|]].
    + eapply dedup_weaken; [|exact Hd]. simpl. lia.
    + intros l1 j l2 d1 Hsplit Hd1.
      assert (j = S i + length l1 /\ j < n) as [Hj Hjn].
      { pose proof (f_equal (fun l => l !! length l1) Hsplit) as Hlk. simpl in Hlk.
        rewrite lookup_app_r, Nat.sub_diag in Hlk by lia. apply lookup_seq in Hlk. lia. }
      rewrite <- Hj in Hd1.
      destruct (dedup_step d0 d1 i j Hd1) as (d2 & Hd2 & Hdd2); [lia..|].
      exists d2. split; [exact Hd2|]. rewrite length_app. simpl.
      by replace (S (i + (length l1 + 1))) with (S j) by lia.
    + rewrite length_seq in Hdd. eapply dedup_weaken; [|exact Hdd]. lia.
Qed.

(** ** A bucket of thirty variables *)

(** Thirty variables whose numbers agree modulo 1024. *)
Definition ex_crowd_vars : list Z := (fun k => 5 + 1024 * Z.of_nat k)%Z <$> seq 0 30.
Definition ex_crowd_table : wtable := (fun v => (v, [(1%Z, half_p); (2%Z, half_p)])) <$> ex_crowd_vars.
Definition ex_crowd_rows : list row := (fun v => [(v, 1%Z, half_p)]) <$> ex_crowd_vars.
Definition ex_crowd : generalState :=
  gstate (default ex_globals (accum_rows 1 [DInt32 0] ex_crowd_rows ex_globals)).
Definition ex_new_var : Z := (5 + 1024 * 77)%Z.

Lemma ex_crowd_inv : store_inv ex_crowd_table ex_crowd_vars ex_crowd.
Proof.
  destruct (accum_rows_spec ex_crowd_table ltac:(by apply table_okb_sound) 1 ex_crowd_vars
    (small_group ex_crowd_vars ltac:(by apply Nat.leb_le)) [DInt32 0] ex_crowd_rows ex_globals)
    as (g & Hg & Hi & _); [done|done|done|by apply rows_okb_sound| |].
  - intros r t (v & -> & Hv)%list_elem_of_fmap Ht%list_elem_of_singleton. by subst t.
  - unfold ex_crowd. rewrite Hg. apply (gi_store _ _ _ _ _ Hi).
Qed.

Lemma ex_crowd_ok : state_ok ex_crowd.
Proof. apply ex_crowd_inv. Qed.

Lemma ex_crowd_slot : slot_of ex_crowd ex_new_var = slot_of ex_crowd 5.
Proof. by vm_compute. Qed.

Definition ex_bucket : nat * mList := default (0, mlist_make 0) (ht_bucket ex_crowd 5).
Lemma ex_crowd_bucket :
  slot_of ex_crowd ex_new_var = Some (Some ex_bucket.1) /\ mheap ex_crowd !! ex_bucket.1 = Some ex_bucket.2 /\
  BUCKETISFULL ex_bucket.2 = true /\ ml_nbits ex_bucket.2 = 10 /\ gs_nbits ex_crowd = 10 /\
  wt_entry_count ex_crowd = 30.
Proof. by vm_compute. Qed.

(** The crowded table after one expansion: its bucket uses fewer bits than the table. *)
Definition ex_wide : generalState := default ex_crowd (expand_hashtable ex_crowd).
Lemma ex_wide_ok : ht_ok (wt_entry_count ex_crowd) ex_wide.
Proof.
  destruct (expand_spec ex_crowd _ (sk_ht _ ex_crowd_ok)) as (s' & He & Hok & _).
  - destruct ex_crowd_bucket as (_ & _ & _ & _ & -> & _). lia.
  - unfold ex_wide. by rewrite He.
Qed.
Lemma ex_wide_bucket :
  slot_of ex_wide ex_new_var = Some (Some ex_bucket.1) /\ mheap ex_wide !! ex_bucket.1 = Some ex_bucket.2 /\
  ml_nbits ex_bucket.2 < gs_nbits ex_wide.
Proof. split_and!; [by vm_compute|by vm_compute|]. apply Nat.ltb_lt. by vm_compute. Qed.

(** A map with a second range value of a known variable. *)
Definition ex_map : Map := create_map (5 + 1024) 2 0 half_p.
Lemma ex_map_row : row_map ex_crowd_table ex_map.
Proof. split; [by apply lit_inb_sound|done|done|done]. Qed.
Lemma ex_map_slot : slot_of ex_crowd (var ex_map) = slot_of ex_crowd ex_new_var.
Proof. by vm_compute. Qed.

(** ** The hash table *)

(** Variables are found again.  [find_or_create_entry] (step 1 of
    [updateWorldTable]) on a consistent store returns the position of the variable's
    entry, creating at most that one entry; the new store is consistent, and asking
    for the variable again returns the same position and changes nothing. *)
Theorem find_or_create_entry_lookup (s : generalState) (v : Z) :
  state_ok s -> int32 v -> slot_free s v ->
  exists x s' e, find_or_create_entry s v = Some (x, s') /\ state_ok s' /\
    wt_entries s' !! x = Some e /\ wt_var e = v /\
    (wt_entries s' = wt_entries s \/ wt_entries s' = wt_entries s ++ [e]) /\
    find_or_create_entry s' v = Some (x, s').
Proof.
  intros Hok Hv Hfree.
  destruct (find_or_create_spec s v Hok Hv Hfree) as (x & s' & Hf & [Hok' (e & He & Hev) Hents _]).
  exists x, s', e. split_and!; [done..| |rewrite <- Hev; by apply find_again].
  destruct Hents as [?|(_ & Hents & ->)]; [by left|right].
  rewrite Hents, lookup_app_r, Nat.sub_diag in He by done. injection He as <-. done.
Qed.

Lemma find_or_create_entry_lookup_witness :
  exists x s' e, find_or_create_entry ex_crowd ex_new_var = Some (x, s') /\ state_ok s' /\
    wt_entries s' !! x = Some e /\ wt_var e = ex_new_var /\
    (wt_entries s' = wt_entries ex_crowd \/ wt_entries s' = wt_entries ex_crowd ++ [e]) /\
    find_or_create_entry s' ex_new_var = Some (x, s').
Proof.
  apply find_or_create_entry_lookup;
    [exact ex_crowd_ok|split; [discriminate|reflexivity]|left; rewrite (proj1 ex_crowd_bucket); discriminate].
Defined.

(** Growing the table.  [expand_hashtable] doubles the slots without losing a
    variable: the table stays consistent and every variable hashes to the bucket it
    was in. *)
Theorem expand_hashtable_keeps (n : nat) (s : generalState) :
  ht_ok n s -> gs_nbits s < 30 ->
  exists s', expand_hashtable s = Some s' /\ ht_ok n s' /\ length (HT s') = 2 * length (HT s) /\
    mheap s' = mheap s /\ wt_entries s' = wt_entries s /\ forall v, slot_of s' v = slot_of s v.
Proof.
  intros Hok Hlt. destruct (expand_spec s n Hok Hlt) as (s' & He & Hok' & Hn & Hw & _ & Hh & Hsl).
  exists s'. split_and!; [done|done| |done|done|].
  - unfold expand_hashtable in He. destruct (30 <=? gs_nbits s); [done|]. injection He as <-.
    simpl. rewrite length_app. lia.
  - intros v. rewrite (slot_of_cls n s') by done. rewrite Hn, Hsl by apply cls_range.
    rewrite cls_cls by lia. symmetry. by apply (slot_of_cls n).
Qed.

Lemma expand_hashtable_keeps_witness :
  exists s', expand_hashtable ex_crowd = Some s' /\ ht_ok (wt_entry_count ex_crowd) s' /\
    length (HT s') = 2 * length (HT ex_crowd) /\ mheap s' = mheap ex_crowd /\
    wt_entries s' = wt_entries ex_crowd /\ forall v, slot_of s' v = slot_of ex_crowd v.
Proof.
  apply (expand_hashtable_keeps (wt_entry_count ex_crowd));
    [exact (sk_ht _ ex_crowd_ok)|destruct ex_crowd_bucket as (_ & _ & _ & _ & -> & _); lia].
Defined.

(** Splitting a bucket.  [distribute_elements] on a full bucket that uses fewer
    bits than the table replaces it by two buckets that together hold exactly its
    elements, each element in the bucket of its next hash bit, and keeps the table
    consistent. *)
Theorem distribute_elements_splits (n : nat) (s : generalState) (key : Z) (old : nat) (b : mList) :
  ht_ok n s -> slot_of s key = Some (Some old) -> mheap s !! old = Some b ->
  BUCKETISFULL b = true -> ml_nbits b < gs_nbits s ->
  exists s' l1 l2 b1 b2, distribute_elements s key (HASHFUNC key (gs_mask s)) = Some s' /\
    ht_ok n s' /\ l1 <> l2 /\ mheap s' !! l1 = Some b1 /\ mheap s' !! l2 = Some b2 /\
    ml_items b1 ++ ml_items b2 ≡ₚ ml_items b /\
    ml_nbits b1 = S (ml_nbits b) /\ ml_nbits b2 = S (ml_nbits b) /\
    (forall k x, (k, x) ∈ ml_items b1 -> cls (S (ml_nbits b)) k = cls (ml_nbits b) key) /\
    (forall k x, (k, x) ∈ ml_items b2 ->
       cls (S (ml_nbits b)) k = (cls (ml_nbits b) key + 2 ^ Z.of_nat (ml_nbits b))%Z).
Proof.
  intros Hok Hs Hb Hfull Hlt.
  destruct (distribute_spec s n key old b Hok Hs Hb Hfull Hlt) as (s' & l1 & l2 & Hd & HS).
  pose proof (heap_new s s' key old l1 l2 b Hb HS) as Hheap.
  destruct (ss_fresh _ _ _ _ _ _ _ HS) as (Hne & _ & _).
  eexists s', l1, l2, _, _. split; [done|]. split; [by apply (split_ok s s' n key old l1 l2 b)|].
  split; [done|]. split; [rewrite Hheap; by rewrite decide_True|].
  split; [rewrite Hheap; by rewrite decide_False, decide_True|].
  cbn [ml_items ml_nbits]. split_and!; [|done|done|..].
  - apply halves. intros k x Hin. pose proof Hs as Hs0. rewrite (slot_of_cls n) in Hs0 by done.
    destruct (ht_bucket_ok n s Hok _ old (proj1 (cls_range _ _)) Hs0) as (b0 & Hb0 & Hbo).
    assert (b0 = b) as -> by congruence. destruct (bo_items _ _ _ Hbo k x Hin) as [Hc _].
    rewrite Hc, cls_cls; [done|lia].
  - intros k x Hin. by apply elem_of_half in Hin as [? _].
  - intros k x Hin. by apply elem_of_half in Hin as [? _].
Qed.

Lemma distribute_elements_splits_witness :
  exists s' l1 l2 b1 b2, distribute_elements ex_wide ex_new_var (HASHFUNC ex_new_var (gs_mask ex_wide)) = Some s' /\
    ht_ok (wt_entry_count ex_crowd) s' /\ l1 <> l2 /\ mheap s' !! l1 = Some b1 /\ mheap s' !! l2 = Some b2 /\
    ml_items b1 ++ ml_items b2 ≡ₚ ml_items ex_bucket.2 /\
    ml_nbits b1 = S (ml_nbits ex_bucket.2) /\ ml_nbits b2 = S (ml_nbits ex_bucket.2) /\
    (forall k x, (k, x) ∈ ml_items b1 ->
       cls (S (ml_nbits ex_bucket.2)) k = cls (ml_nbits ex_bucket.2) ex_new_var) /\
    (forall k x, (k, x) ∈ ml_items b2 -> cls (S (ml_nbits ex_bucket.2)) k =
       (cls (ml_nbits ex_bucket.2) ex_new_var + 2 ^ Z.of_nat (ml_nbits ex_bucket.2))%Z).
Proof.
  apply (distribute_elements_splits _ ex_wide ex_new_var ex_bucket.1 ex_bucket.2);
    [exact ex_wide_ok|apply ex_wide_bucket|apply ex_wide_bucket|apply ex_crowd_bucket|apply ex_wide_bucket].
Defined.

(** Making room terminates.  For 32-bit variables and at most 28 hash bits the
    loop of [updateWorldTable] that expands and splits ends within the fuel of the
    model with a bucket that has a free place, and neither entries nor lookups are
    lost. *)
Theorem make_room_terminates (n : nat) (s : generalState) (v : Z) (l : nat) (b : mList) :
  ht_ok n s -> Forall (fun e => int32 (wt_var e)) (wt_entries s) -> gs_nbits s <= 28 ->
  slot_of s v = Some (Some l) -> mheap s !! l = Some b ->
  exists s' l' b', make_room 31 s v = Some s' /\ ht_ok n s' /\ wt_entries s' = wt_entries s /\
    gs_nbits s' <= 28 /\ slot_of s' v = Some (Some l') /\ mheap s' !! l' = Some b' /\
    ml_count b' < ml_size b'.
Proof.
  intros Hok H32 H28 Hs Hb.
  destruct (make_room_spec 31 n s v l b Hok H32 H28 Hs Hb ltac:(lia))
    as (s' & Hr & [R1 R2 R3 R4 (l' & b' & R5 & R6 & R7 & _)]).
  exists s', l', b'. split_and!; [done..|].
  pose proof R5 as Hs0. rewrite (slot_of_cls n) in Hs0 by done.
  destruct (ht_bucket_ok n s' R1 _ l' (proj1 (cls_range _ _)) Hs0) as (b0 & Hb0 & Hbo).
  assert (b0 = b') as -> by congruence. pose proof (bo_count _ _ _ Hbo).
  unfold BUCKETISFULL in R7. apply Nat.eqb_neq in R7. lia.
Qed.

Lemma make_room_terminates_witness :
  exists s' l' b', make_room 31 ex_crowd ex_new_var = Some s' /\ ht_ok (wt_entry_count ex_crowd) s' /\
    wt_entries s' = wt_entries ex_crowd /\ gs_nbits s' <= 28 /\
    slot_of s' ex_new_var = Some (Some l') /\ mheap s' !! l' = Some b' /\ ml_count b' < ml_size b'.
Proof.
  apply (make_room_terminates _ ex_crowd ex_new_var ex_bucket.1 ex_bucket.2);
    [exact (sk_ht _ ex_crowd_ok)|exact (sk_int32 _ ex_crowd_ok)|exact (sk_nbits _ ex_crowd_ok)
    |apply ex_crowd_bucket|apply ex_crowd_bucket].
Defined.

(** ** Rows and clauses *)

(** Repeated variables in a clause.  The comparison loops of [advance] turn a
    map into the reserved map only where its variable occurs before it, and
    afterwards no variable but the reserved one occurs twice. *)
Theorem drop_duplicates_distinct (n : nat) (d0 : list Map) :
  length d0 = n ->
  exists d, drop_duplicates n d0 = Some d /\ length d = n /\
    (forall k m m0, d !! k = Some m -> d0 !! k = Some m0 -> m = m0 \/ m = reserve m0) /\
    (forall a b ma mb, a < b -> d !! a = Some ma -> d !! b = Some mb -> var ma = var mb ->
       var mb = RESERVED_VAR).
Proof.
  intros Hn. destruct (drop_duplicates_spec n d0 Hn) as (d & Hd & [Hlen Hsame Hp]).
  exists d. split_and!; [done|lia|done|]. intros a b ma mb Hab Ha Hb. apply (Hp a b); [done| |done..].
  left. apply lookup_lt_Some in Hb. lia.
Qed.

Lemma drop_duplicates_distinct_witness :
  let d0 := [create_map 5 1 0 half_p; create_map 6 1 0 half_p; create_map 5 2 0 half_p] in
  exists d, drop_duplicates 3 d0 = Some d /\ length d = 3 /\
    (forall k m m0, d !! k = Some m -> d0 !! k = Some m0 -> m = m0 \/ m = reserve m0) /\
    (forall a b ma mb, a < b -> d !! a = Some ma -> d !! b = Some mb -> var ma = var mb ->
       var mb = RESERVED_VAR).
Proof. intros d0. apply drop_duplicates_distinct. reflexivity. Defined.

(** Registering an assignment.  [updateWorldTable] on a consistent store adds at
    most the variable and the range value of the map, keeps every entry and range
    value at its position, and sets the offsets of the map to its variable's entry
    and its range value's entry. *)
Theorem updateWorldTable_registers (W : wtable) (s : generalState) (m : Map) :
  wtable_ok W -> state_ok s -> Forall (entry_part W) (wt_entries s) ->
  Forall filled (wt_entries s) -> row_map W m -> slot_free s (var m) ->
  exists s' m', updateWorldTable s m = Some (s', m') /\ state_ok s' /\
    Forall (entry_part W) (wt_entries s') /\ grows (wt_entries s) (wt_entries s') /\
    map_ref (wt_entries s') m' /\ var m' = var m /\ rng m' = rng m /\ mprob m' = mprob m /\
    (forall v, v ∈ (wt_var <$> wt_entries s') -> v ∈ (wt_var <$> wt_entries s) \/ v = var m).
Proof.
  intros HW Hok Hp Hf Hm Hfree.
  destruct (updateWorldTable_spec W HW s m Hok Hp Hf Hm Hfree)
    as (s' & m' & Hu & [R1 R2 R3 R4 R5 (R6 & R7 & R8) R9 _]).
  exists s', m'. by split_and!.
Qed.

Lemma updateWorldTable_registers_witness :
  exists s' m', updateWorldTable ex_crowd ex_map = Some (s', m') /\ state_ok s' /\
    Forall (entry_part ex_crowd_table) (wt_entries s') /\ grows (wt_entries ex_crowd) (wt_entries s') /\
    map_ref (wt_entries s') m' /\ var m' = var ex_map /\ rng m' = rng ex_map /\ mprob m' = mprob ex_map /\
    (forall v, v ∈ (wt_var <$> wt_entries s') -> v ∈ (wt_var <$> wt_entries ex_crowd) \/ v = var ex_map).
Proof.
  apply (updateWorldTable_registers ex_crowd_table);
    [apply to_wtable, table_okb_sound; reflexivity|exact ex_crowd_ok|exact (sv_part _ _ _ ex_crowd_inv)
    |exact (sv_filled _ _ _ ex_crowd_inv)|exact ex_map_row
    |left; rewrite ex_map_slot, (proj1 ex_crowd_bucket); discriminate].
Defined.

(** C15: accumulating a group.  After the transition function ran over the rows, the
    store is well formed, holds exactly the clauses of the rows in order, and the
    completed local world table gives them the probability they have under the
    global one. *)
Theorem accum_rows_store (W : wtable) (n : nat) (V : list Z) (pre : list datum) (rs : list row)
    (g : globals) :
  table_ok W ->
  (forall c, length (filter (fun v => cls INIT_NBITS v = c) (remove_dups V)) <= LIST_INIT_SIZE) ->
  pre <> [] -> gS g = None -> rs <> [] -> Forall (row_ok W n) rs ->
  (forall r t, r ∈ rs -> t ∈ r -> t.1.1 ∈ V) ->
  exists g' l, accum_rows n pre rs g = Some g' /\ gS g' = Some l /\ groupcxt g' = true /\
    store_ok (wt_entries (gstate g')) l /\ clause_of <$> l = row_clause <$> rs /\
    Pr (complete_table (wt_entries (gstate g'))) (sat_dnf (clause_of <$> l)) =
      Pr W (sat_dnf (row_clause <$> rs)).
Proof.
  intros HW HV Hpre Hg Hne Hok Hvars.
  destruct (accum_rows_spec W HW n V HV pre rs g Hpre Hg Hne Hok Hvars) as (g' & Ha & Hinv & _).
  destruct (gi_clauses _ _ _ _ _ Hinv) as (l & Hl & _).
  destruct (group_prob W HW n V rs g' l Hinv Hl) as (Hso & Heq & _ & HP).
  exists g', l. split_and!; [done|done|by apply (gi_cxt _ _ _ _ _ Hinv)|done..].
Qed.

Lemma accum_rows_store_witness :
  exists g' l, accum_rows 2 [DInt32 0] ex_rows_multi ex_globals = Some g' /\ gS g' = Some l /\
    groupcxt g' = true /\ store_ok (wt_entries (gstate g')) l /\
    clause_of <$> l = row_clause <$> ex_rows_multi /\
    Pr (complete_table (wt_entries (gstate g'))) (sat_dnf (clause_of <$> l)) =
      Pr ex_table (sat_dnf (row_clause <$> ex_rows_multi)).
Proof.
  apply (accum_rows_store ex_table 2 ex_vars);
    [exact ex_table_ok|exact ex_small|discriminate|reflexivity|discriminate|exact ex_rows_multi_ok
    |exact ex_rows_multi_vars].
Defined.

(** Completing the local world table.  [getMissingRngs] gives every variable a
    distribution of mass one over non-negative values: the known range values keep
    their positions and probabilities, and the missing probability goes to one new
    value beyond them. *)
Theorem getMissingRngs_completes (s : generalState) :
  NoDup (wt_var <$> wt_entries s) -> Forall entry_ok (wt_entries s) ->
  exists s', getMissingRngs s = Some s' /\ table_ok (shape (wt_entries s')) /\
    length (wt_entries s') = length (wt_entries s) /\
    forall k e, wt_entries s !! k = Some e ->
      exists e', wt_entries s' !! k = Some e' /\ wt_var e' = wt_var e /\
        (entry_dist e' = entry_dist e \/
         exists r p, entry_dist e' = entry_dist e ++ [(r, p)] /\
           forall r' p', (r', p') ∈ entry_dist e -> (r' < r)%Z).
Proof.
  intros Hnd Hok. destruct (getMissingRngs_spec s Hok) as (s' & Hg & Hs).
  exists s'. split; [done|]. rewrite Hs. split; [by apply complete_table_ok|].
  pose proof (f_equal length Hs) as Hlen. unfold shape, complete_table in Hlen.
  rewrite !length_fmap in Hlen. split; [done|]. intros k e He.
  assert (Hk : shape (wt_entries s') !! k = Some (wt_var e, complete_dist (entry_dist e))).
  { rewrite Hs. unfold complete_table. by rewrite list_lookup_fmap, He. }
  unfold shape in Hk. rewrite list_lookup_fmap in Hk.
  destruct (wt_entries s' !! k) as [e'|] eqn:He'; [|done]. injection Hk as Hv Hd.
  exists e'. split; [done|]. split; [done|]. fold (entry_dist e') in Hd. rewrite Hd.
  unfold complete_dist. destruct (decide _); [right|by left].
  eexists _, _. split; [done|]. intros r' p' Hin. pose proof (max_rng_ge _ _ _ Hin). lia.
Qed.

Lemma getMissingRngs_completes_witness :
  exists s', getMissingRngs (gstate ex_after) = Some s' /\ table_ok (shape (wt_entries s')) /\
    length (wt_entries s') = length (wt_entries (gstate ex_after)) /\
    forall k e, wt_entries (gstate ex_after) !! k = Some e ->
      exists e', wt_entries s' !! k = Some e' /\ wt_var e' = wt_var e /\
        (entry_dist e' = entry_dist e \/
         exists r p, entry_dist e' = entry_dist e ++ [(r, p)] /\
           forall r' p', (r', p') ∈ entry_dist e -> (r' < r)%Z).
Proof.
  apply getMissingRngs_completes; [exact (so_vars _ _ ex_store)|exact (so_entries _ _ ex_store)].
Defined.
