(* ===== verification/DTreeTheorems.v ===== *)
(** * DTreeTheorems: what the decomposition tree guarantees

    The properties of [d-tree.c]: the aggregate on a whole group, exact and
    approximate, the two recursions, the bounds, the sort, and the functions in
    which the file differs from [ws-tree.c]. *)
From Stdlib Require Import Strings.String.
From S2P Require Import Prelude.
From S2P Require Import Bitset.
From S2P Require Import Worlds.
From S2P Require Import LocalCond.
From S2P Require Import Lineage.
From S2P Require Import Choice.
From S2P Require Import Condition.
From S2P Require Import WsTreeCorrect.
From S2P Require Import HashTable.
From S2P Require Import Store.
From S2P Require Import Group.
From S2P Require Import Sort.
From S2P Require Import DTree.
From S2P Require Import DTreeCond.
From S2P Require Import DTreeExact.
From S2P Require Import Bounds.
From S2P Require Import DTreeApprox.
From S2P Require Import Appro.
From S2P Require Import Checks.

(** C12: the aggregate with epsilon 0 on a group in which every variable has one
    range value.  Accumulating the rows and running [conf_appro_final_ge] returns
    exactly the probability that some row is present and frees the group. *)
Theorem conf_appro_exact (W : wtable) (n : nat) (V : list Z) (junk : nat -> N) (approach : String.string)
    (rel : bool) (eps : Qc) (rs : list row) (g : appro_globals) :
  table_ok W ->
  (forall c, length (filter (fun v => cls INIT_NBITS v = c) (remove_dups V)) <= LIST_INIT_SIZE) ->
  approach_of approach = Some rel -> (eps <= 0)%Qc -> gS (ag_store g) = None -> rs <> [] ->
  Forall (row_ok W n) rs -> (forall r t, r ∈ rs -> t ∈ r -> t.1.1 ∈ V) ->
  single_rng (row_clause <$> rs) ->
  exists g', appro_group n junk approach eps rs g =
      Some (inr (Pr W (sat_dnf (row_clause <$> rs)), g')) /\
    groupcxt (ag_store g') = false /\ gS (ag_store g') = None.
Proof.
  intros HW HV Ha He Hg Hne Hok Hvars Hsr.
  destruct (appro_group_spec W HW n V HV junk approach rel eps rs g Ha Hg Hne Hok Hvars Hsr)
    as (g1 & result & g' & Hrows & Hrun & Hcx & HS & Hres).
  rewrite decide_False in Hres by (by apply Qcle_not_lt). exists g'. unfold appro_group.
  rewrite Hrows. cbn [mbind option_bind]. rewrite Hrun, Hres. done.
Qed.

Lemma conf_appro_exact_witness :
  exists g', appro_group 2 ex_junk "R"%string 0%Qc ex_rows ex_appro =
      Some (inr (Pr ex_table (sat_dnf (row_clause <$> ex_rows)), g')) /\
    groupcxt (ag_store g') = false /\ gS (ag_store g') = None.
Proof.
  apply (conf_appro_exact ex_table 2 ex_vars ex_junk "R"%string true 0%Qc);
    [exact ex_table_ok|exact ex_small|reflexivity|apply Qcle_refl|reflexivity|discriminate|exact ex_rows_ok
    |exact ex_rows_vars|exact ex_single].
Defined.

(** C11: the aggregate with a positive epsilon, on a group in which every variable has
    one range value.  The rows are accumulated, the completed clauses sorted and bounded
    by bucketing; when these bounds do not pass the stopping test, the approximate
    recursion refines them.  The final function terminates with the combination of the
    bounds [u] and [lo] of this run, their mean or the mean weighted by 1 - epsilon and
    1 + epsilon, and frees the group.  The bounds enclose the probability that some row
    is present, and when the stopping condition was reached the result is within epsilon
    of it, absolute or relative. *)
Theorem conf_appro_sound (W : wtable) (n : nat) (V : list Z) (junk : nat -> N) (approach : String.string)
    (rel : bool) (eps : Qc) (rs : list row) (g : appro_globals) :
  table_ok W ->
  (forall c, length (filter (fun v => cls INIT_NBITS v = c) (remove_dups V)) <= LIST_INIT_SIZE) ->
  approach_of approach = Some rel -> (0 < eps)%Qc -> gS (ag_store g) = None -> rs <> [] ->
  Forall (row_ok W n) rs -> (forall r t, r ∈ rs -> t ∈ r -> t.1.1 ∈ V) ->
  single_rng (row_clause <$> rs) ->
  let P := Pr W (sat_dnf (row_clause <$> rs)) in
  exists g1 l b wt q u0 lo0 u lo s result g',
    appro_rows n approach eps rs g = Some g1 /\ appro_inputs junk (ag_store g1) l b wt /\
    quicksort (S (length l)) l 0 (Z.of_nat (length l) - 1) = Some q /\
    compute_upper_and_lower_bounds (length l) (Some b) q = Some (u0, lo0) /\
    (if stop_test rel (stopping_number_of rel eps) u0 lo0 then u = u0 /\ lo = lo0 /\ s = mk_dst q wt true
     else decomposition_tree_approximate junk (length l) rel (stopping_number_of rel eps)
            (WsTree.indve_fuel (length l) n) (Some b) 1 initial_info (-1) (mk_dst q wt false) = Some (u, lo, s)) /\
    conf_appro_final_ge junk g1 = Some (inr (result, g')) /\
    groupcxt (ag_store g') = false /\ gS (ag_store g') = None /\
    (result * Q2Qc 2 = if rel then u * (1 - eps) + lo * (1 + eps) else u + lo)%Qc /\
    (0 <= lo)%Qc /\ (lo <= P)%Qc /\ (P <= u)%Qc /\ (u <= 1)%Qc /\
    (has_satisfied_stopping_condition s = true -> (eps < 1)%Qc -> within rel eps P result).
Proof.
  intros HW HV Ha He Hg Hne Hok Hvars Hsr P.
  destruct (appro_group_spec W HW n V HV junk approach rel eps rs g Ha Hg Hne Hok Hvars Hsr)
    as (g1 & result & g' & Hrows & Hrun & Hcx & HS & Hres).
  rewrite decide_True in Hres by done.
  destruct Hres as (l & b & wt & u & lo & s & Hin & -> & Hab & Hs & Hstop).
  destruct (approximate_bounds_steps _ _ _ _ _ _ _ _ _ _ _ Hab) as (q & u0 & lo0 & Hq & Hu0 & Href).
  exists g1, l, b, wt, q, u0, lo0, u, lo, s, (approx_result rel eps u lo), g'. pose proof Hs as [H1 H2 H3 H4].
  split_and!; try done; [apply approx_result_double|].
  intros Hst He1. specialize (Hstop Hst). destruct rel; [by apply result_relative|by apply result_absolute].
Qed.

Lemma conf_appro_sound_witness :
  let P := Pr ex_table (sat_dnf (row_clause <$> ex_rows)) in
  exists g1 l b wt q u0 lo0 u lo s result g',
    appro_rows 2 "R"%string third_p ex_rows ex_appro = Some g1 /\ appro_inputs ex_junk (ag_store g1) l b wt /\
    quicksort (S (length l)) l 0 (Z.of_nat (length l) - 1) = Some q /\
    compute_upper_and_lower_bounds (length l) (Some b) q = Some (u0, lo0) /\
    (if stop_test true (stopping_number_of true third_p) u0 lo0 then u = u0 /\ lo = lo0 /\ s = mk_dst q wt true
     else decomposition_tree_approximate ex_junk (length l) true (stopping_number_of true third_p)
            (WsTree.indve_fuel (length l) 2) (Some b) 1 initial_info (-1) (mk_dst q wt false) = Some (u, lo, s)) /\
    conf_appro_final_ge ex_junk g1 = Some (inr (result, g')) /\
    groupcxt (ag_store g') = false /\ gS (ag_store g') = None /\
    (result * Q2Qc 2 = if true then u * (1 - third_p) + lo * (1 + third_p) else u + lo)%Qc /\
    (0 <= lo)%Qc /\ (lo <= P)%Qc /\ (P <= u)%Qc /\ (u <= 1)%Qc /\
    (has_satisfied_stopping_condition s = true -> (third_p < 1)%Qc -> within true third_p P result).
Proof.
  apply (conf_appro_sound ex_table 2 ex_vars ex_junk "R"%string true third_p);
    [exact ex_table_ok|exact ex_small|reflexivity|reflexivity|reflexivity|discriminate|exact ex_rows_ok
    |exact ex_rows_vars|exact ex_single].
Defined.

(** C13: the error bound.  When [approximate_bounds] (the approximate branch of
    [conf_appro_final_ge]) ends with the stopping condition satisfied, the returned
    result is an epsilon-approximation of the probability of the clauses: within
    epsilon of it in the absolute mode, within a factor of 1 - epsilon and 1 +
    epsilon in the relative mode. *)
Theorem approximate_bounds_within (W : wtable) (wl : nat) (junk : nat -> N) (l : list WSD) (b : bitset)
    (wt : list worldTableEntry) (rel : bool) (eps : Qc) :
  table_ok W -> l <> [] -> fresh_clauses W wl l -> Rep (length l) (below (length l)) b ->
  shape wt = W -> (0 < eps)%Qc -> (eps < 1)%Qc ->
  exists u lo s, approximate_bounds junk (length l) rel eps (WsTree.indve_fuel (length l) wl) b l wt =
      Some (u, lo, s) /\
    (has_satisfied_stopping_condition s = true ->
     within rel eps (Pr W (sat_dnf (lits <$> l))) (approx_result rel eps u lo)).
Proof.
  intros HW Hne Hf HR Hsh He He1.
  destruct (approximate_bounds_spec W HW wl junk l b wt rel eps Hne Hf HR Hsh)
    as (u & lo & s & Hrun & Hs & Hstop).
  exists u, lo, s. split; [done|]. intros H. specialize (Hstop H).
  destruct rel; [by apply result_relative|by apply result_absolute].
Qed.

Lemma approximate_bounds_within_witness :
  exists u lo s, approximate_bounds ex_junk (length ex_clauses) true third_p
      (WsTree.indve_fuel (length ex_clauses) 2) (full_set (length ex_clauses)) ex_clauses ex_wt = Some (u, lo, s) /\
    (has_satisfied_stopping_condition s = true ->
     within true third_p (Pr (shape ex_wt) (sat_dnf (lits <$> ex_clauses))) (approx_result true third_p u lo)).
Proof.
  apply (approximate_bounds_within (shape ex_wt));
    [exact ex_shape_ok|intros H; pose proof ex_length as Hl; rewrite H in Hl; discriminate
    |exact ex_fresh|apply full_set_rep|reflexivity|reflexivity|reflexivity].
Defined.

(** C14: the approximate recursion on any set of clauses.  With fuel above the
    measure it terminates, restores the clauses, returns bounds that enclose the
    probability of the set, and sets [has_satisfied_stopping_condition] only when
    the bounds it returns pass the stopping test of the whole tree. *)
Theorem decomposition_tree_approximate_sound (W : wtable) (NUM wl : nat) (junk : nat -> N) (rel : bool)
    (stopping : Qc) (fuel : nat) (l : list WSD) (X : gset nat) (set : option bitset) (path_prob : Qc)
    (bi : bound_information) (col : Z) (wt : list worldTableEntry) :
  table_ok W -> dlineage_ok W NUM wl l X -> ORep NUM X set -> mu l X < fuel -> shape wt = W ->
  exists u lo wt' stop,
    decomposition_tree_approximate junk NUM rel stopping fuel set path_prob bi col (mk_dst l wt false) =
      Some (u, lo, mk_dst l wt' stop) /\ shape wt' = W /\
    (0 <= lo)%Qc /\ (lo <= PrS W l X)%Qc /\ (PrS W l X <= u)%Qc /\ (u <= 1)%Qc /\
    (stop = true -> stop_test rel stopping
       (coefficient_upper bi * u + constant_upper bi) (coefficient_lower bi * lo + constant_lower bi) = true).
Proof.
  intros HW HL HX Hmu Hsh.
  destruct (approx_rec_ok W HW NUM wl junk rel stopping fuel l X set path_prob bi col wt HL HX Hmu Hsh)
    as (u & lo & wt' & stop & Hrun & Hsh' & [H1 H2 H3 H4] & Hst).
  exists u, lo, wt', stop. by split_and!.
Qed.

Lemma decomposition_tree_approximate_sound_witness :
  exists u lo wt' stop,
    decomposition_tree_approximate ex_junk 3 false third_p 12 (Some (full_set 3)) 1 initial_info (-1)
      (mk_dst ex_clauses ex_wt false) = Some (u, lo, mk_dst ex_clauses wt' stop) /\ shape wt' = shape ex_wt /\
    (0 <= lo)%Qc /\ (lo <= PrS (shape ex_wt) ex_clauses (below 3))%Qc /\
    (PrS (shape ex_wt) ex_clauses (below 3) <= u)%Qc /\ (u <= 1)%Qc /\
    (stop = true -> stop_test false third_p (coefficient_upper initial_info * u + constant_upper initial_info)
       (coefficient_lower initial_info * lo + constant_lower initial_info) = true).
Proof.
  apply (decomposition_tree_approximate_sound (shape ex_wt) 3 2);
    [exact ex_shape_ok|exact ex_dlineage|exact ex_orep|exact ex_mu|reflexivity].
Defined.

(** The exact recursion on any set of clauses in which every variable has one
    range value returns the probability of the set and restores the clauses,
    whatever column the variables are chosen from. *)
Theorem decomposition_tree_exact_correct (W : wtable) (NUM wl : nat) (junk : nat -> N) (fuel : nat)
    (l : list WSD) (X : gset nat) (set : option bitset) (col : Z) (wt : list worldTableEntry) (stop : bool) :
  table_ok W -> dlineage_ok W NUM wl l X -> ORep NUM X set -> mu l X < fuel -> shape wt = W ->
  exists wt', decomposition_tree_exact junk NUM fuel set col (mk_dst l wt stop) =
    Some (PrS W l X, mk_dst l wt' stop) /\ shape wt' = W.
Proof. intros HW. by apply exact_rec_ok. Qed.

Lemma decomposition_tree_exact_correct_witness :
  exists wt', decomposition_tree_exact ex_junk 3 12 (Some (full_set 3)) (-1) (mk_dst ex_clauses ex_wt false) =
    Some (PrS (shape ex_wt) ex_clauses (below 3), mk_dst ex_clauses wt' false) /\ shape wt' = shape ex_wt.
Proof.
  apply (decomposition_tree_exact_correct (shape ex_wt) 3 2);
    [exact ex_shape_ok|exact ex_dlineage|exact ex_orep|exact ex_mu|reflexivity].
Defined.

(** C34: the bucketing bounds of [compute_upper_and_lower_bounds] enclose the
    probability of the set of clauses and are probabilities; this holds for
    multi-valued variables too. *)
Theorem compute_bounds_sound (W : wtable) (wl NUM : nat) (l : list WSD) (X : gset nat) (set : bitset) :
  wtable_ok W -> clauses_ok W l -> (forall w, w ∈ l -> length (data w) = wl) -> length l = NUM ->
  Rep NUM X set ->
  exists u lo, compute_upper_and_lower_bounds NUM (Some set) l = Some (u, lo) /\
    (0 <= lo)%Qc /\ (lo <= PrS W l X)%Qc /\ (PrS W l X <= u)%Qc /\ (u <= 1)%Qc.
Proof. intros HW Hok Hwl Hlen HX. by apply (compute_bounds_spec W HW l wl Hok Hwl NUM). Qed.

Lemma compute_bounds_sound_witness :
  exists u lo, compute_upper_and_lower_bounds 3 (Some (full_set 3)) ex_clauses = Some (u, lo) /\
    (0 <= lo)%Qc /\ (lo <= PrS (shape ex_wt) ex_clauses (below 3))%Qc /\
    (PrS (shape ex_wt) ex_clauses (below 3) <= u)%Qc /\ (u <= 1)%Qc.
Proof.
  apply (compute_bounds_sound (shape ex_wt) 2);
    [exact (to_wtable _ ex_shape_ok)|exact ex_clauses_ok|exact (dl_wl _ _ _ _ _ ex_dlineage)|exact ex_length
    |apply full_set_rep].
Defined.

(** The sort.  [quicksort] over the whole array terminates, permutes the clauses
    and leaves them by decreasing probability. *)
Theorem quicksort_sorts (array : list WSD) :
  exists array', quicksort (S (length array)) array 0 (Z.of_nat (length array) - 1) = Some array' /\
    array' ≡ₚ array /\
    forall i j wi wj, i < j -> array' !! i = Some wi -> array' !! j = Some wj -> (wprob wj <= wprob wi)%Qc.
Proof.
  destruct (quicksort_range (length array) array 0 (Z.of_nat (length array) - 1))
    as (a & Hq & Hp & Hd); [lia..|].
  exists a. split; [done|]. split; [by apply Hp|]. intros i j wi wj Hij Hi Hj.
  apply (Hd i j wi wj); [lia|done| |done..].
  pose proof (lookup_lt_Some _ _ _ Hj). rewrite (pm_perm _ _ _ _ Hp) in H. lia.
Qed.

(** The two conditioning functions agree.  On clauses over distinct variables
    [find_wsds_with_var_rng] of [d-tree.c], which drops every matching map, computes
    the same set and the same clauses as that of [ws-tree.c], which drops the first. *)
Theorem find_wsds_with_var_rng_agree (junk : nat -> N) (NUM : nat) (l : list WSD) (set : bitset) (v r : Z) :
  Forall (fun w => NoDup (var <$> data w)) l -> r <> (-1)%Z ->
  find_wsds_with_var_rng junk NUM l set v r = WsTree.find_wsds_with_var_rng junk NUM l set v r.
Proof. apply find_wsds_with_var_rng_eq. Qed.

Lemma find_wsds_with_var_rng_agree_witness :
  find_wsds_with_var_rng ex_junk 3 ex_clauses (full_set 3) 5 1 =
    WsTree.find_wsds_with_var_rng ex_junk 3 ex_clauses (full_set 3) 5 1.
Proof.
  apply find_wsds_with_var_rng_agree; [exact (clauses_nodup _ _ ex_clauses_ok)|discriminate].
Defined.

(** Removing subsumed clauses.  [bitset_union_removing_subsumption] keeps the
    first set and a part of the second, and the result denotes the same event as the
    union when no variable has two range values in it. *)
Theorem union_removing_subsumption_event (W : wtable) (NUM : nat) (junk : nat -> N) (l : list WSD)
    (X1 X2 : gset nat) (b1 b2 : bitset) :
  length l = NUM -> Rep NUM X1 b1 -> Clean b1 -> X1 <> ∅ -> Rep NUM X2 b2 -> Clean b2 -> X2 <> ∅ ->
  coherent l (X1 ∪ X2) -> single_valued l (X1 ∪ X2) ->
  exists b Y, bitset_union_removing_subsumption junk NUM l b1 (Some b2) = Some b /\ Rep NUM Y b /\
    X1 ⊆ Y /\ Y ⊆ X1 ∪ X2 /\ PrS W l Y = PrS W l (X1 ∪ X2).
Proof.
  intros Hlen HR1 HC1 Hne1 HR2 HC2 Hne2 Hcoh Hs.
  destruct (union_subsumption_spec NUM junk l X1 X2 b1 (Some b2) Hlen) as (b & Z & Hu & (HR & _) & HP);
    [by split_and!|by split_and!|].
  exists b, (X1 ∪ Z). split_and!; [done|done| | |by apply PrS_pruned].
  - apply union_subseteq_l.
  - apply union_mono_l. by destruct HP.
Qed.

(** The bounds of the event theorem's instance. *)
Definition ex_first : bitset := default (full_set 3) (bitset_set_bit (WsTree.new_set ex_junk 3) 0).
Definition ex_second : bitset := default (full_set 3) (bitset_set_bit (WsTree.new_set ex_junk 3) 2).
Lemma ex_bit_rep (i : nat) : i < 3 ->
  Rep 3 {[i]} (default (full_set 3) (bitset_set_bit (WsTree.new_set ex_junk 3) i)) /\
  Clean (default (full_set 3) (bitset_set_bit (WsTree.new_set ex_junk 3) i)).
Proof.
  intros Hi. destruct (bitset_fresh_spec ex_junk 3) as [HR HC]. unfold WsTree.new_set.
  destruct (bitset_set_bit_spec _ _ _ i HR Hi) as (b & -> & HRb & HCb). simpl.
  rewrite (right_id_L ∅ (∪)) in HRb. auto.
Qed.
Lemma ex_pair_sub : {[0]} ∪ {[2]} ⊆ below 3.
Proof. intros i. rewrite elem_of_union, !elem_of_singleton, elem_of_below. lia. Qed.

Lemma union_removing_subsumption_event_witness :
  exists b Y, bitset_union_removing_subsumption ex_junk 3 ex_clauses ex_first (Some ex_second) = Some b /\
    Rep 3 Y b /\ {[0]} ⊆ Y /\ Y ⊆ {[0]} ∪ {[2]} /\
    PrS (shape ex_wt) ex_clauses Y = PrS (shape ex_wt) ex_clauses ({[0]} ∪ {[2]}).
Proof.
  apply (union_removing_subsumption_event (shape ex_wt));
    [exact ex_length|exact (proj1 (ex_bit_rep 0 ltac:(lia)))|exact (proj2 (ex_bit_rep 0 ltac:(lia)))
    |apply non_empty_singleton_L|exact (proj1 (ex_bit_rep 2 ltac:(lia)))|exact (proj2 (ex_bit_rep 2 ltac:(lia)))
    |apply non_empty_singleton_L
    |exact (coherent_sub _ _ _ (li_coh _ _ _ _ (dl_line _ _ _ _ _ ex_dlineage)) ex_pair_sub)
    |exact (single_valued_sub _ _ _ (dl_single _ _ _ _ _ ex_dlineage) ex_pair_sub)].
Defined.
