(* ===== verification/AconfTheorems.v ===== *)
(** * AconfTheorems: what the Monte Carlo approximation guarantees

    The properties of [aconf.c]: drawing from a distribution, one run of the
    estimator, its expected value, and termination of the whole algorithm for every
    stream of random numbers. *)
From Stdlib Require Import Qround.
From S2P Require Import Prelude.
From S2P Require Import Worlds.
From S2P Require Import LocalCond.
From S2P Require Import Lineage.
From S2P Require Import WsTreeCorrect.
From S2P Require Import Completion.
From S2P Require Import Store.
From S2P Require Import Group.
From S2P Require Import Aconf.
From S2P Require Import AconfCorrect.
From S2P Require Import Checks.

(** ** Helpers *)

Definition qsum (l : list Qc) : Qc := foldr Qcplus 0%Qc l.

Lemma pick_loop_spec (R pick offset : Qc) (i : nat) (distrib : list Qc) :
  R = Zq RAND_MAX ->
  match pick_loop pick offset i distrib with
  | Some j => exists k, j = i + k /\ k < length distrib /\
      (pick <= offset + qsum (take (S k) distrib) * R)%Qc /\
      forall k', k' < k -> (offset + qsum (take (S k') distrib) * R < pick)%Qc
  | None => forall k', k' < length distrib -> (offset + qsum (take (S k') distrib) * R < pick)%Qc
  end.
Proof.
  intros HR. revert offset i.
  induction distrib as [|d distrib IH]; intros offset i; cbn [pick_loop]; [simpl; intros; lia|].
  rewrite <- HR. specialize (IH (offset + d * R)%Qc (S i)). clear HR.
  assert (Hz : (offset + qsum (take 1 (d :: distrib)) * R)%Qc = (offset + d * R)%Qc) by (simpl; ring).
  assert (Hsh : forall k, (offset + d * R + qsum (take (S k) distrib) * R)%Qc =
    (offset + qsum (take (S (S k)) (d :: distrib)) * R)%Qc) by (intros k; simpl; ring).
  destruct (decide (pick <= offset + d * R)%Qc) as [Hle|Hgt].
  { exists 0. split_and!; [lia|simpl; lia|by rewrite Hz|intros; lia]. }
  apply Qcnot_le_lt in Hgt.
  destruct (pick_loop _ _ _ _) as [j|].
  - destruct IH as (k & -> & Hk & Hp & Hlt). exists (S k).
    split_and!; [lia|simpl; lia|by rewrite <- Hsh|].
    intros [|k'] Hk'; [by rewrite Hz|]. rewrite <- Hsh. apply Hlt. lia.
  - intros [|k'] Hk'; [by rewrite Hz|]. rewrite <- Hsh. apply IH. simpl in Hk'. lia.
Qed.

(** Some number of steps is beyond every bound. *)
Lemma fuel_exists (bound : Qc) (n : nat) :
  0 < n -> exists fuel, (bound <= Zq (Z.of_nat fuel) * (1 / Zq (Z.of_nat n)))%Qc.
Proof.
  intros Hn. exists (Z.to_nat (Qceiling bound) * n).
  destruct n as [|n]; [lia|]. pose proof (Zq_pos n) as Hpos.
  assert (Hm : Zq (Z.of_nat (Z.to_nat (Qceiling bound) * S n)) =
    (Zq (Z.of_nat (Z.to_nat (Qceiling bound))) * Zq (Z.of_nat (S n)))%Qc).
  { rewrite Nat2Z.inj_mul. unfold Zq. apply Qc_is_canon. rewrite this_mult. simpl this.
    rewrite !Qred_correct. by rewrite inject_Z_mult. }
  rewrite Hm.
  replace (_ * _ * (1 / Zq (Z.of_nat (S n))))%Qc with (Zq (Z.of_nat (Z.to_nat (Qceiling bound)))).
  2: { field. intros H0. by rewrite H0 in Hpos. }
  eapply Qcle_trans with (Zq (Qceiling bound)); [|apply Zq_mono; lia].
  unfold Zq, Qcle. simpl this. rewrite Qred_correct. apply Qle_ceiling.
Qed.

(** ** Drawing *)

(** Drawing from the clause weights.  [choose_with_distribution] inverts the
    cumulative distribution: it returns the first position whose accumulated weight,
    scaled by RAND_MAX, reaches the random number, or the last position when
    rounding leaves none. *)
Theorem choose_with_distribution_inverts (r : Z) (distrib : list Qc) :
  distrib <> [] ->
  exists k, choose_with_distribution r distrib = Z.of_nat k /\ k < length distrib /\
    (forall k', k' < k -> (qsum (take (S k') distrib) * Zq RAND_MAX < Zq r)%Qc) /\
    ((Zq r <= qsum (take (S k) distrib) * Zq RAND_MAX)%Qc \/ k = length distrib - 1).
Proof.
  intros Hne. unfold choose_with_distribution.
  pose proof (pick_loop_spec (Zq RAND_MAX) (Zq r) 0 0 distrib eq_refl) as H.
  revert H. generalize (Zq RAND_MAX) as R. intros R H. destruct (pick_loop _ _ _ _) as [j|].
  - destruct H as (k & -> & Hk & Hp & Hlt). exists k. split_and!; [done|done| |left].
    + intros k' Hk'. rewrite <- (Qcplus_0_l (_ * R)). by apply Hlt.
    + rewrite <- (Qcplus_0_l (_ * R)). done.
  - destruct distrib as [|d distrib]; [done|]. exists (length distrib). split_and!.
    + simpl length. lia.
    + simpl; lia.
    + intros k' Hk'. rewrite <- (Qcplus_0_l (_ * R)). apply H. simpl. lia.
    + right. simpl. lia.
Qed.

Lemma choose_with_distribution_inverts_witness :
  exists k, choose_with_distribution 1073741824 [third_p; half_p; third_p] = Z.of_nat k /\ k < 3 /\
    (forall k', k' < k -> (qsum (take (S k') [third_p; half_p; third_p]) * Zq RAND_MAX < Zq 1073741824)%Qc) /\
    ((Zq 1073741824 <= qsum (take (S k) [third_p; half_p; third_p]) * Zq RAND_MAX)%Qc \/ k = 3 - 1).
Proof. apply choose_with_distribution_inverts. discriminate. Defined.

(** ** The estimator *)

(** The completed clauses of the worked group. *)
Lemma ex_sim : sim_ok (shape ex_wt) ex_clauses [third_p; third_p; third_p] ex_wt.
Proof.
  destruct (aconf_prepare (gstate ex_after) ex_stored ex_store ex_stored_ne)
    as (s' & l' & Hg & Hc & Hsh & _ & _ & _ & Hsim).
  assert (Hst : ex_state = s') by (unfold ex_state; by rewrite Hg).
  assert (Hcl : ex_clauses = l') by (unfold ex_clauses; by rewrite ex_gS, Hst; cbn [mbind option_bind]; rewrite Hc).
  unfold ex_wt. rewrite Hst, Hcl, Hsh. apply Hsim. by rewrite <- Hcl, ex_length.
Qed.

(** One estimate.  For every stream of random numbers [compute_estimator] draws a
    world that satisfies the lineage and returns the reciprocal of the number of
    clauses true in it; it changes only the truth assignment of the world table. *)
Theorem compute_estimator_range (rand : nat -> Z) (W : wtable) (l : list WSD) (ps : list Qc)
    (wt : list worldTableEntry) (n : nat) :
  sim_ok W l ps wt ->
  exists wt' n' c, compute_estimator rand l ps wt n = Some ((1 / Zq (Z.of_nat c))%Qc, wt', n') /\
    shape wt' = W /\ c = csat l (world_of wt') /\ 1 <= c <= length l.
Proof.
  intros [<- H1 H2 H3 H4 H5].
  destruct (compute_estimator_spec rand l ps wt n H1 H2 H3 H4 H5) as (wt' & n' & He & Hsh & Hc).
  exists wt', n', (csat l (world_of wt')). split_and!; try done; apply Hc.
Qed.

Lemma compute_estimator_range_witness :
  exists wt' n' c, compute_estimator (fun n => Z.of_nat n * 1000)%Z ex_clauses [third_p; third_p; third_p] ex_wt 0 =
      Some ((1 / Zq (Z.of_nat c))%Qc, wt', n') /\
    shape wt' = shape ex_wt /\ c = csat ex_clauses (world_of wt') /\ 1 <= c <= length ex_clauses.
Proof. apply (compute_estimator_range _ (shape ex_wt)). exact ex_sim. Defined.

(** C21: the estimator is unbiased.  On the clauses and the completed world table of a
    group, the expected value of the estimator, with draws replaced by exact
    expectations, times the sum of the clause weights is the probability of the
    lineage. *)
Theorem estimator_unbiased (s : generalState) (l : list WSD) :
  l <> [] -> store_ok (wt_entries s) l ->
  exists s' l', getMissingRngs s = Some s' /\ computeEntryPointers s' l = Some l' /\
    (expected_estimate l' ((fun w => (wprob w / bag_sum l')%Qc) <$> l') (wt_entries s') * bag_sum l')%Qc
    = Pr (complete_table (wt_entries s)) (sat_dnf (clause_of <$> l)).
Proof. apply aconf_unbiased. Qed.

Lemma estimator_unbiased_witness :
  exists s' l', getMissingRngs (gstate ex_after) = Some s' /\ computeEntryPointers s' ex_stored = Some l' /\
    (expected_estimate l' ((fun w => (wprob w / bag_sum l')%Qc) <$> l') (wt_entries s') * bag_sum l')%Qc
    = Pr (complete_table (wt_entries (gstate ex_after))) (sat_dnf (clause_of <$> ex_stored)).
Proof. apply estimator_unbiased; [exact ex_stored_ne|exact ex_store]. Defined.

(** ** The algorithm *)

(** C22: the aggregate terminates, for a positive epsilon and a delta between 0 and 2.
    When log is positive above 1 and sqrt on positive numbers, there is for every stream
    of random numbers a number of steps within which the three loops of [AA_algorithm]
    end, so that [aconf_final] returns a value and frees the group.  The counters of the
    loops are unbounded here (they are of type int in the code, so this is about fewer
    than 2^31 rounds). *)
Theorem aconf_final_terminates (rand : nat -> Z) (log sqrt : Qc -> option Qc) (pos : nat) (a : aconf_globals)
    (l : list WSD) :
  groupcxt (ac_g a) = true -> gS (ac_g a) = Some l -> l <> [] ->
  store_ok (wt_entries (gstate (ac_g a))) l -> log_sqrt_ok log sqrt ->
  (0 < ac_epsilon a)%Qc -> (0 < ac_delta a)%Qc -> (ac_delta a < q 2)%Qc ->
  exists fuel r g', aconf_final rand log sqrt fuel pos a = Some (r, g') /\
    groupcxt g' = false /\ gS g' = None.
Proof.
  intros Hg Hl Hne Hst Hls He Hd Hd2.
  destruct (upsilon1_sra_pos log sqrt Hls _ _ He Hd Hd2) as (bound & Hb & _).
  destruct (fuel_exists bound (length l)) as [fuel Hf]; [destruct l; [done|simpl; lia]|].
  exists fuel. by apply (aconf_final_spec rand log sqrt fuel pos a l bound).
Qed.

(** A logarithm and a root that are positive where they have to be. *)
Definition ex_log (x : Qc) : option Qc := if decide (1 < x)%Qc then Some (x - 1)%Qc else None.
Definition ex_sqrt (x : Qc) : option Qc := if decide (0 <= x)%Qc then Some x else None.
Lemma ex_log_sqrt_ok : log_sqrt_ok ex_log ex_sqrt.
Proof.
  split; intros x Hx; unfold ex_log, ex_sqrt.
  - rewrite decide_True by done. eexists. split; [done|]. qc_lra.
  - rewrite decide_True by (by apply Qclt_le_weak). by exists x.
Qed.

Lemma aconf_final_terminates_witness :
  exists fuel r g', aconf_final (fun n => Z.of_nat n * 1000)%Z ex_log ex_sqrt fuel 0
      (mk_aconf ex_after third_p third_p) = Some (r, g') /\ groupcxt g' = false /\ gS g' = None.
Proof.
  apply (aconf_final_terminates _ _ _ 0 (mk_aconf ex_after third_p third_p) ex_stored);
    [exact ex_cxt|exact ex_gS|exact ex_stored_ne|exact ex_store|exact ex_log_sqrt_ok|reflexivity..].
Defined.

(** With epsilon 0 the bound of the stopping rule is infinite, and no number of steps
    gives a result: the loop of step 1 does not end. *)
Lemma aconf_epsilon_zero (rand : nat -> Z) (log sqrt : Qc -> option Qc) (fuel pos : nat) (a : aconf_globals) :
  groupcxt (ac_g a) = true -> ac_epsilon a = 0%Qc -> aconf_final rand log sqrt fuel pos a = None.
Proof.
  intros Hg He. unfold aconf_final. rewrite Hg. destruct (getMissingRngs _) as [s|]; [|done]. cbn [mbind option_bind].
  destruct (gS _) as [l|]; [|done]. cbn [mbind option_bind].
  destruct (computeEntryPointers s l) as [l'|]; [|done]. cbn [mbind option_bind].
  assert (H : upsilon2 log sqrt 0 (ac_delta a) = None).
  { unfold upsilon2. destruct (sqrt 0%Qc) as [s0|]; [|done]. destruct (log (Q2Qc (3 # 2))) as [l0|]; [|done]. cbn [mbind option_bind].
    destruct (fdiv (q 2) (ac_delta a)) as [x|] eqn:Hx; [|done]. cbn [mbind option_bind].
    destruct (log x) as [lg|] eqn:Hlg; [|done]. cbn [mbind option_bind].
    destruct (fdiv _ lg) as [y0|]; [|done]. cbn [mbind option_bind]. unfold upsilon. rewrite Hx. cbn [mbind option_bind].
    by rewrite Hlg. }
  unfold AA_algorithm. by rewrite He, H.
Qed.
