(* ===== verification/ValueTheorems.v ===== *)
(** * ValueTheorems: tuple confidence, argmax and bitsets

    The properties of [tupleconf.c], [argmax.c] and [bitset.c], each with an
    instance on small inputs. *)
From Stdlib Require Import SpecFloat.
From S2P Require Import Prelude.
From S2P Require Import Bitset.
From S2P Require Import Worlds.
From S2P Require Import LocalCond.
From S2P Require Import Lineage.
From S2P Require Import Choice.
From S2P Require Import Condition.
From S2P Require Import WsTreeCorrect.
From S2P Require Import TupleConf.
From S2P Require Import Argmax.
From S2P Require Import Checks.

(** C20: confidence of a tuple.  On the [n] condition triples of a row of a
    probabilistic relation, repeated or contradictory variables included,
    [product_ge] returns the probability that all the conditions hold. *)
Theorem product_ge_probability (W : wtable) (ts : list (Z * Z * Qc)) :
  wtable_ok W -> Forall (triple_ok W) (triple_maps ts) ->
  product_ge (length ts) (triple_args ts) = Some (Pr W (all_hold (triple_maps ts))).
Proof. apply product_ge_spec. Qed.

(** A repeated condition, a contradiction, and the reserved variable. *)
Definition ex_triples : list (Z * Z * Qc) :=
  [(5, 1, half_p); (6, 1, third_p); (5, 1, half_p); (RESERVED_VAR, RNG_FOR_RESERVED_VAR, 1%Qc);
   (6, 2, Q2Qc (2 # 3))]%Z.

Definition triple_okb (W : wtable) (m : Map) : bool :=
  if decide (var m = RESERVED_VAR)
  then bool_decide (mprob m = (if (rng m =? RNG_FOR_RESERVED_VAR)%Z then 1 else 0)%Qc)
  else lit_inb W (var m) (rng m) (mprob m).

Lemma triples_okb_sound (W : wtable) (l : list Map) :
  forallb (triple_okb W) l = true -> Forall (triple_ok W) l.
Proof.
  intros H. apply Forall_forall. intros m Hm. pose proof (forallb_elem _ _ _ H Hm) as Hb.
  unfold triple_okb in Hb. unfold triple_ok. case_decide.
  - by apply bool_decide_eq_true in Hb.
  - by apply lit_inb_sound.
Qed.

Lemma product_ge_probability_witness :
  product_ge 5 (triple_args ex_triples) = Some (Pr ex_table (all_hold (triple_maps ex_triples))).
Proof.
  apply (product_ge_probability ex_table ex_triples);
    [exact (to_wtable _ ex_table_ok)|apply triples_okb_sound; by vm_compute].
Defined.

(** The comparison of the float versions is a total order on all IEEE values:
    antisymmetric and transitive, with zeros of both signs equal and NaN above
    everything. *)
Theorem float_comparison_total :
  TotalCmp float4_cmp_internal /\ TotalCmp float8_cmp_internal /\
  float4_cmp_internal (S754_zero true) (S754_zero false) = 0%Z /\
  (forall f, isnan f = false -> float4_cmp_internal S754_nan f = 1%Z).
Proof.
  split; [apply _|]. split; [apply _|]. split; [done|]. intros f Hf. unfold float4_cmp_internal. by rewrite Hf.
Qed.

(** Argmax over a float8 column.  Over a group, starting with transition value
    [old] and any state, the result is the value of the last row whose key is
    maximal, and the state keeps that key; [old] is returned only when the maximum
    held before the group exceeds every key. *)
Theorem argmax_float8_run (Datum : Type) (a : AggState) (old : Datum) (rows : list (Datum * spec_float)) :
  let '(res, a') := argmax_run (argmax_varchar_float8_accum Datum) a old rows in
  is_argmax float8_cmp_internal (float8MAX (get_argmax_state a)) old rows res
    (float8MAX (get_argmax_state a')).
Proof. apply (argmax_run_spec float8_cmp_internal float8MAX set_float8MAX). Qed.

(** The same for an int4 column. *)
Theorem argmax_int4_run (Datum : Type) (a : AggState) (old : Datum) (rows : list (Datum * Z)) :
  let '(res, a') := argmax_run (argmax_varchar_int4_accum Datum) a old rows in
  is_argmax int_cmp (int32MAX (get_argmax_state a)) old rows res (int32MAX (get_argmax_state a')).
Proof. apply (argmax_int_run_spec int32MAX set_int32MAX). Qed.

(** C35: argmax.  Over a group, starting with transition value [old] and any state, the
    result is the value of the last row whose key is maximal, and the state keeps that
    key; [old] is returned only when the maximum held before the group exceeds every
    key.  This holds for IEEE keys, NaN above everything, and for integer keys. *)
Theorem argmax_group (Datum : Type) (a : AggState) (old : Datum) (frows : list (Datum * spec_float))
    (irows : list (Datum * Z)) :
  (let '(res, a') := argmax_run (argmax_varchar_float8_accum Datum) a old frows in
   is_argmax float8_cmp_internal (float8MAX (get_argmax_state a)) old frows res
     (float8MAX (get_argmax_state a'))) /\
  (let '(res, a') := argmax_run (argmax_varchar_int4_accum Datum) a old irows in
   is_argmax int_cmp (int32MAX (get_argmax_state a)) old irows res (int32MAX (get_argmax_state a'))).
Proof. split; [apply argmax_float8_run|apply argmax_int4_run]. Qed.

(** [test_from_0_to_1] accepts exactly the numbers that compare between 0 and
    1, and [test_negative] those that do not compare below 0; both return their
    argument unchanged. *)
Theorem probability_checks (w : spec_float) :
  (test_negative w = if decide (0 <= float4_cmp_internal w f_zero)%Z then Some w else None) /\
  (test_from_0_to_1 w =
     if decide (0 <= float4_cmp_internal w f_zero /\ float4_cmp_internal w f_one <= 0)%Z
     then Some w else None).
Proof.
  unfold test_negative, test_from_0_to_1.
  destruct (Z.ltb_spec (float4_cmp_internal w f_zero) 0); simpl.
  - by rewrite !decide_False by lia.
  - destruct (Z.gtb_spec (float4_cmp_internal w f_one) 0); repeat case_decide; done || lia.
Qed.

(** The float comparison and the checks built on it.  The comparison is a total
    order on all IEEE values, zeros of both signs equal and NaN on top;
    [test_from_0_to_1] accepts exactly the numbers that compare between 0 and 1, and
    [test_negative] those that do not compare below 0, both unchanged. *)
Theorem weight_checks (w : spec_float) :
  TotalCmp float4_cmp_internal /\ TotalCmp float8_cmp_internal /\
  (test_negative w = if decide (0 <= float4_cmp_internal w f_zero)%Z then Some w else None) /\
  (test_from_0_to_1 w =
     if decide (0 <= float4_cmp_internal w f_zero /\ float4_cmp_internal w f_one <= 0)%Z
     then Some w else None).
Proof.
  destruct float_comparison_total as (H4 & H8 & _). split; [done|]. split; [done|].
  apply probability_checks.
Qed.

(** Single positions.  Inside the capacity, setting and clearing a bit change
    that position only, testing reads it; outside, all three abort. *)
Theorem bitset_positions (n : nat) (X : gset nat) (b : bitset) (i : nat) :
  Rep n X b ->
  (i < n -> bitset_test_bit b i = Some (bool_decide (i ∈ X)) /\
     (exists b', bitset_set_bit b i = Some b' /\ Rep n ({[i]} ∪ X) b') /\
     (exists b', bitset_clear_bit b i = Some b' /\ Rep n (X ∖ {[i]}) b')) /\
  (n <= i -> bitset_test_bit b i = None /\ bitset_set_bit b i = None /\ bitset_clear_bit b i = None).
Proof.
  intros HR. split; intros Hi.
  - split_and!; [by eapply bitset_test_bit_spec| |].
    + destruct (bitset_set_bit_spec _ _ _ _ HR Hi) as (b' & H & HR' & _). by exists b'.
    + destruct (bitset_clear_bit_spec _ _ _ _ HR Hi) as (b' & H & HR' & _). by exists b'.
  - unfold bitset_test_bit, bitset_set_bit, bitset_clear_bit.
    replace (nbits b) with n by (symmetry; apply HR). by rewrite (proj2 (Nat.leb_le n i) Hi).
Qed.

(** C36: the set algebra.  Union, subtraction, complement, negation, reset and copy
    of sets of equal capacity compute the set operations they are named after, bit
    by bit over all the words; negation flips the second set on the first. *)
Theorem bitset_algebra (junk : nat -> N) (n : nat) (X Y : gset nat) (a b : bitset) :
  Rep n X a -> Rep n Y b ->
  (exists c, bitset_union a (Some b) = Some c /\ Rep n (X ∪ Y) c) /\
  (exists c, bitset_subtract a b = Some c /\ Rep n (X ∖ Y) c) /\
  (exists c, bitset_complement junk (Some a) (Some b) = Some (Some c) /\ Rep n (X ∖ Y) c) /\
  (exists c, bitset_negate a b = Some c /\ Rep n ((X ∖ Y) ∪ (Y ∖ X)) c) /\
  (exists c, bitset_copy a b = Some c /\ Rep n X c) /\
  (exists c, bitset_set a = Some c /\ Rep n (below n) c) /\
  Rep n ∅ (bitset_reset a).
Proof.
  intros HX HY. pose proof HX as (Hok & Hn & _). pose proof HY as (HokY & HnY & _). split_and!.
  - destruct (bitset_union_spec n X Y a b HX HY) as (c & H & HR & _). by exists c.
  - destruct (bitset_subtract_spec n X Y a b HX HY) as (c & H & HR & _). by exists c.
  - destruct (bitset_complement_spec junk n X Y a b HX HY) as (c & H & HR & _). by exists c.
  - destruct (bitset_negate_spec n X Y a b HX HY) as (c & H & HR & _). by exists c.
  - destruct (bitset_copy_spec n X a b HX HokY HnY) as (c & H & HR & _). by exists c.
  - rewrite <- Hn. by apply bitset_set_spec.
  - rewrite <- Hn. by apply bitset_reset_spec.
Qed.

Lemma bitset_algebra_witness :
  (exists c, bitset_union (full_set 70) (Some (full_set 70)) = Some c /\ Rep 70 (below 70 ∪ below 70) c) /\
  (exists c, bitset_subtract (full_set 70) (full_set 70) = Some c /\ Rep 70 (below 70 ∖ below 70) c) /\
  (exists c, bitset_complement ex_junk (Some (full_set 70)) (Some (full_set 70)) = Some (Some c) /\
     Rep 70 (below 70 ∖ below 70) c) /\
  (exists c, bitset_negate (full_set 70) (full_set 70) = Some c /\
     Rep 70 ((below 70 ∖ below 70) ∪ (below 70 ∖ below 70)) c) /\
  (exists c, bitset_copy (full_set 70) (full_set 70) = Some c /\ Rep 70 (below 70) c) /\
  (exists c, bitset_set (full_set 70) = Some c /\ Rep 70 (below 70) c) /\
  Rep 70 ∅ (bitset_reset (full_set 70)).
Proof.
  apply (bitset_algebra ex_junk 70 (below 70) (below 70) (full_set 70) (full_set 70)); apply full_set_rep.
Defined.

(** Reading a set.  The count is the cardinality, the first bit is the least
    element or -1, the singleton test returns the element exactly for singletons,
    and the word-wise emptiness test answers exactly when the unused bits of the
    last word are clear. *)
Theorem bitset_queries (n : nat) (X : gset nat) (b : bitset) :
  Rep n X b ->
  bitset_count_set b = Some (size X) /\
  (exists z, bitset_first_bit_set (Some b) = Some z /\
     (z = (-1)%Z /\ X = ∅ \/ exists k, z = Z.of_nat k /\ k ∈ X /\ forall j, j ∈ X -> k <= j)) /\
  (exists z, bitset_test_singleton (Some b) = Some z /\
     (z = (-1)%Z /\ size X <> 1 \/ exists k, z = Z.of_nat k /\ X = {[k]})) /\
  (exists r, bitset_test_empty (Some b) = Some r /\ (r = true -> X = ∅) /\ (Clean b -> X = ∅ -> r = true)).
Proof.
  intros HR. split_and!; [by eapply bitset_count_set_spec| | |by eapply bitset_test_empty_spec].
  - destruct (bitset_first_bit_set_spec n X b HR) as [[HX ->]|(k & Hk & Hm & ->)];
      eexists; (split; [done|]); [by left|right]. by exists k.
  - destruct (bitset_test_singleton_spec n X b HR) as [(k & HX & ->)|[HX ->]];
      eexists; (split; [done|]); [right; by exists k|by left].
Qed.

(** Access to a set.  Inside the capacity, setting and clearing a bit change that
    position only and testing reads it; outside, all three abort.  The count is the
    cardinality, the first bit is the least element or -1, the singleton test returns
    the element exactly for singletons. *)
Theorem bitset_access (n : nat) (X : gset nat) (b : bitset) (i : nat) :
  Rep n X b ->
  (i < n -> bitset_test_bit b i = Some (bool_decide (i ∈ X)) /\
     (exists b', bitset_set_bit b i = Some b' /\ Rep n ({[i]} ∪ X) b') /\
     (exists b', bitset_clear_bit b i = Some b' /\ Rep n (X ∖ {[i]}) b')) /\
  (n <= i -> bitset_test_bit b i = None /\ bitset_set_bit b i = None /\ bitset_clear_bit b i = None) /\
  bitset_count_set b = Some (size X) /\
  (exists z, bitset_first_bit_set (Some b) = Some z /\
     (z = (-1)%Z /\ X = ∅ \/ exists k, z = Z.of_nat k /\ k ∈ X /\ forall j, j ∈ X -> k <= j)) /\
  (exists z, bitset_test_singleton (Some b) = Some z /\
     (z = (-1)%Z /\ size X <> 1 \/ exists k, z = Z.of_nat k /\ X = {[k]})).
Proof.
  intros HR. destruct (bitset_positions n X b i HR) as [Hin Hout].
  destruct (bitset_queries n X b HR) as (Hc & Hf & Hs & _). by split_and!.
Qed.

Lemma bitset_access_witness :
  (3 < 70 -> bitset_test_bit (full_set 70) 3 = Some (bool_decide (3 ∈ below 70)) /\
     (exists b', bitset_set_bit (full_set 70) 3 = Some b' /\ Rep 70 ({[3]} ∪ below 70) b') /\
     (exists b', bitset_clear_bit (full_set 70) 3 = Some b' /\ Rep 70 (below 70 ∖ {[3]}) b')) /\
  (70 <= 3 -> bitset_test_bit (full_set 70) 3 = None /\ bitset_set_bit (full_set 70) 3 = None /\
     bitset_clear_bit (full_set 70) 3 = None) /\
  bitset_count_set (full_set 70) = Some (size (below 70)) /\
  (exists z, bitset_first_bit_set (Some (full_set 70)) = Some z /\
     (z = (-1)%Z /\ below 70 = ∅ \/ exists k, z = Z.of_nat k /\ k ∈ below 70 /\ forall j, j ∈ below 70 -> k <= j)) /\
  (exists z, bitset_test_singleton (Some (full_set 70)) = Some z /\
     (z = (-1)%Z /\ size (below 70) <> 1 \/ exists k, z = Z.of_nat k /\ below 70 = {[k]})).
Proof. apply (bitset_access 70 (below 70) (full_set 70) 3). apply full_set_rep. Defined.

