(* ===== verification/SproutTheorems.v ===== *)
(** * SproutTheorems: what the query signatures guarantee

    The properties of [signature.c]: comparison of subgoal lists, the hierarchy test,
    the subgoal tree, and the numbering of the signature tree. *)
From Stdlib Require Import Strings.String.
From S2P Require Import Prelude.
From S2P Require Import Signature.
From S2P Require Import SproutScan.
From S2P Require Import SproutRefine.
From S2P Require Import SigTree.
From S2P Require Import SigLists.
From S2P Require Import Checks.
From S2P Require Import Worlds.
From S2P Require Import LocalCond.
From S2P Require Import Argmax.
From S2P Require Import Sprout.
From S2P Require Import SproutAgg.
From S2P Require Import SproutProb.
From S2P Require Import SproutGroup.
From S2P Require Import SproutAggCorrect.
From S2P Require Import SproutJoin.
From S2P Require Import SproutPipeline.

Open Scope nat_scope.
Open Scope list_scope.

(** [sgListcmp] compares the sets of relations of two subgoal lists.  For lists with
    one subgoal per relation it answers equality, strict inclusion either way,
    disjointness or proper intersection of the sets, and never [SG_UNKNOWCMP]. *)
Theorem sgListcmp_sets (l1 l2 : sgList) :
  distinct_rels l1 -> distinct_rels l2 -> set_relation (keys l1) (keys l2) (sgListcmp l1 l2).
Proof. apply cmp_set_relation. Qed.

(** A decision procedure for the hypothesis. *)
Definition distinct_relsb (l : sgList) : bool := bool_decide (NoDup (rel_key <$> l)).

Lemma sgListcmp_sets_witness :
  set_relation (keys (nth 0 sp_lists [])) (keys (nth 1 sp_lists []))
    (sgListcmp (nth 0 sp_lists []) (nth 1 sp_lists [])).
Proof.
  apply (sgListcmp_sets (nth 0 sp_lists []) (nth 1 sp_lists [])); by apply (bool_decide_unpack _).
Defined.




(** [buildSGTree] terminates.  With one more recursive call than there are lists it
    returns a tree that holds exactly the given lists, each below a node strictly
    included in a list of the node. *)
Theorem buildSGTree_terminates (l : list sgList) (n : nat) :
  exists t, buildSGTree (S (length l)) l n = Some t /\ tree_lists t ≡ₚ l /\ nested t.
Proof.
  destruct (buildSGTree_total (S (length l)) l n ltac:(lia)) as (t & Ht & Hp).
  exists t. split_and!; try done. by apply (buildSGTree_nested (S (length l)) l n); [lia|].
Qed.

(** The loops of [findMax] split the lists into the maximal ones and the others,
    and those of [findDisjoint] into the first list with the ones that meet it, and
    the ones disjoint from it. *)
Theorem list_loops (x : sgList) (l : list sgList) :
  findMax l = Some (rev (filter (fun x => is_max l x = true) l), filter (fun x => is_max l x = false) l) /\
  findDisjoint (x :: l) =
    Some (rev (filter (fun y => joins x y = true) l) ++ [x], filter (fun y => joins x y = false) l).
Proof. split; [apply findMax_spec|apply findDisjoint_spec]. Qed.

(** C19: the signature that [ProcessSignature] builds numbers its leaves from left to
    right, which is the order in which [getVarOrder] lists their columns. *)
Theorem signature_positions (natts : node -> nat) (pkeys : node -> list string) (fr : list node)
    (l : list sgList) (g : signature) :
  ProcessSignature natts pkeys fr l = Some g ->
  pos <$> fillLeafNode (sigTreeRoot g) = seq 0 (leafDescendentCount (sigTreeRoot g)) /\
  exists order, getVarOrder (sigTreeRoot g) [] = Some order /\
    length order = leafDescendentCount (sigTreeRoot g) /\
    forall i info, fillLeafNode (sigTreeRoot g) !! i = Some info ->
      exists s, sg info = Some s /\ order !! i = Some (fields s).
Proof.
  intros Hp. destruct (process_leaves natts pkeys fr l g Hp) as (raw & Hraw & _ & Hl).
  assert (Hcount : leafDescendentCount (sigTreeRoot g) = leafDescendentCount raw).
  { rewrite Hraw, <- leafDescendentCount_skel, decorate_skel. by rewrite leafDescendentCount_skel. }
  split; [by rewrite Hraw, decorate_pos, <- Hraw, Hcount|].
  assert (Hsg : Forall (fun i => is_Some (sg i)) (fillLeafNode (sigTreeRoot g))).
  { assert (Hs : Forall (fun i => is_Some (sg i)) (skel_info <$> fillLeafNode (sigTreeRoot g))).
    { rewrite skel_fill, Hraw, decorate_skel, <- skel_fill. apply Forall_fmap.
      eapply Forall_impl; [exact Hl|]. by intros i [_ Hi]. }
    exact (proj1 (Forall_fmap skel_info _ _) Hs). }
  destruct (getVarOrder_leaves (sigTreeRoot g) [] Hsg) as (order & Ho & HF). exists order.
  split_and!; [done| |].
  - rewrite leafDescendentCount_fill. symmetry. by eapply Forall2_length.
  - intros i info Hi. destruct (Forall2_lookup_l _ _ _ _ _ HF Hi) as (f & Hf & s & Hs & ->). by exists s.
Qed.

Lemma signature_positions_witness :
  pos <$> fillLeafNode (sigTreeRoot sp_sig) = seq 0 (leafDescendentCount (sigTreeRoot sp_sig)) /\
  exists order, getVarOrder (sigTreeRoot sp_sig) [] = Some order /\
    length order = leafDescendentCount (sigTreeRoot sp_sig) /\
    forall i info, fillLeafNode (sigTreeRoot sp_sig) !! i = Some info ->
      exists s, sg info = Some s /\ order !! i = Some (fields s).
Proof. exact (signature_positions sp_natts sp_pkeys sp_from sp_lists sp_sig sp_process). Defined.

(** C18: the attributes of a one-scan signature describe a tree of columns: the first
    leaf of every node is its head, with the number of columns below it as domain and
    the number of its subtrees as the probabilities to combine. *)
Theorem one_scan_columns (t : sigNode) :
  is1Scan t = Some true -> Forall fresh (fillLeafNode t) ->
  cols_of (fillLeafNode (decorate t)) = tcols (sig_tree t) /\
  Forall (fun i => type i = NOTAGGREGATED) (fillLeafNode (decorate t)).
Proof.
  intros H1. apply cols_decorate. by rewrite <- is1Scan_skel, decorate_skel, is1Scan_skel.
Qed.

Lemma one_scan_columns_witness :
  cols_of (fillLeafNode (decorate (skel (sigTreeRoot sp_sig)))) = tcols (sig_tree (skel (sigTreeRoot sp_sig))) /\
  Forall (fun i => type i = NOTAGGREGATED) (fillLeafNode (decorate (skel (sigTreeRoot sp_sig)))).
Proof. apply (one_scan_columns (skel (sigTreeRoot sp_sig))); [reflexivity|by repeat constructor]. Defined.

(** ** What the operator for hierarchical queries guarantees

    The properties of [SPROUT.c], each with an instance on the worked query of
    [SproutChecks]. *)

Open Scope nat_scope.
Open Scope list_scope.

(** The signature of [ProcessSignature] fulfils what the scan needs. *)
Lemma process_one_scan (natts : node -> nat) (pkeys : node -> list string) (fr : list node)
    (l : list sgList) (g : signature) :
  ProcessSignature natts pkeys fr l = Some g -> isOneScan g = true -> one_scan_ok g.
Proof.
  intros Hp H1. destruct (process_leaves natts pkeys fr l g Hp) as (raw & Hraw & H1s & Hl).
  rewrite H1 in H1s. destruct (cols_decorate raw H1s) as [Hc Ht].
  { eapply Forall_impl; [exact Hl|]. by intros i [? _]. }
  constructor; rewrite ?Hraw; try done. rewrite Hc.
  by rewrite <- (sig_tree_skel (decorate raw)), decorate_skel, sig_tree_skel.
Qed.

(** C3: the aggregate conf of a hierarchical query with a one-scan signature, on the first
    group that uses the state of the aggregation.  When the rows of the group come sorted
    by the columns of the signature, repetitions included, the transition functions and
    the final function return the probability that some row is present.  The operator is
    not ready for the next group: the final function deletes the context that holds the
    columns but keeps their number, so in the state it leaves, the one a sorted
    aggregation uses for all its groups, any further row reads freed memory, a failure of
    the transition function here. *)
Theorem hierarchical_conf_probability (natts : node -> nat) (pkeys : node -> list string) (fr : list node)
    (l : list sgList) (g : signature) (val : Z -> Z) (W : wtable) (a : sproutAgg) (bs : list block)
    (R : list arow) :
  ProcessSignature natts pkeys fr l = Some g -> isOneScan g = true -> fresh_agg g a ->
  shaped (sig_tree (sigTreeRoot g)) bs -> grouped [] (rows_of bs) R ->
  Forall (fun r => length r = leafDescendentCount (sigTreeRoot g)) R ->
  wtable_ok W -> NoDup (bases bs).*1 -> Forall (known val W) (bases bs) ->
  exists a1 a2,
    for_list R (fun r => accumulate (leafDescendentCount (sigTreeRoot g)) (var_args r)) a = Some a1 /\
    conf_final natts pkeys a1 = Some (Pr W (sat_rows val R), a2) /\
    sp_signature a2 = g /\ sp_groupcxt a2 = false /\
    forall r, length r = leafDescendentCount (sigTreeRoot g) ->
      accumulate (leafDescendentCount (sigTreeRoot g)) (var_args r) a2 = None.
Proof.
  intros Hp H1 Ha Hsh HR Hlen HW Hnd Hk. rewrite leafDescendentCount_fill in *.
  by apply (group_probability natts pkeys g val W HW a bs R (process_one_scan natts pkeys fr l g Hp H1)).
Qed.

Lemma hierarchical_conf_probability_witness :
  exists a1 a2, for_list sp_rows (fun r => accumulate 4 (var_args r)) (sp_agg AGG_SORTED) = Some a1 /\
    conf_final sp_natts sp_pkeys a1 = Some (Pr sp_world (sat_rows sp_val sp_rows), a2) /\
    sp_signature a2 = sp_sig /\ sp_groupcxt a2 = false /\
    forall r, length r = 4 -> accumulate 4 (var_args r) a2 = None.
Proof.
  exact (hierarchical_conf_probability sp_natts sp_pkeys sp_from sp_lists sp_sig sp_val sp_world
    (sp_agg AGG_SORTED) sp_blocks sp_rows sp_process eq_refl (sp_fresh AGG_SORTED) sp_shaped sp_grouped
    sp_rows_length sp_world_ok sp_nodup sp_known).
Defined.



(** The scan of a stored lineage, as it is made after the aggregations: on the
    columns at the positions of the leaves, [oneScan] returns the probability of the
    lineage whatever state the operator was in. *)
Theorem lineage_scan_probability (val : Z -> Z) (W : wtable) (root : sigNode) (s : stateData)
    (l : lineageTable) (bs : list block) (R : list arow) :
  is1Scan root = Some true -> Forall fresh (fillLeafNode root) ->
  mapM (fun v => fetch v (pos <$> fillLeafNode (attributes root))) (drop (lt_cursor l) (lt_tuples l))
    = Some ((fun r => (r.*1, r.*2)) <$> R) ->
  shaped (sig_tree root) bs -> grouped [] (rows_of bs) R ->
  Forall (fun r => length r = size (sig_tree root)) R ->
  wtable_ok W -> NoDup (bases bs).*1 -> Forall (known val W) (bases bs) ->
  exists s', oneScan s (attributes root) l = Some (Pr W (sat_rows val R), s').
Proof.
  intros H1 Hf Hm Hsh HR Hlen HW Hnd Hk. destruct (cols_attributes root H1 Hf) as [Hc Ht].
  by apply (oneScan_probability val W (attributes root) (sig_tree root) s l bs R).
Qed.

(** The signature tree of the query before the counts are attached. *)
Definition sp_root : sigNode := (derivePos (skel (sigTreeRoot sp_sig)) 0).1.

Lemma lineage_scan_probability_witness :
  exists s', oneScan zero_state (attributes sp_root) sp_lineage
    = Some (Pr sp_world (sat_rows sp_val sp_rows), s').
Proof.
  apply (lineage_scan_probability sp_val sp_world sp_root zero_state sp_lineage sp_blocks sp_rows).
  - reflexivity.
  - by repeat constructor.
  - reflexivity.
  - exact sp_shaped.
  - exact sp_grouped.
  - exact sp_rows_length.
  - exact sp_world_ok.
  - exact sp_nodup.
  - exact sp_known.
Defined.

(** C16: [processTuple] implements the frame machine.  From the first tuple of a group
    on, on any further tuples, sorted or not, on which the machine runs, the arrays
    [sum] and [tempSum], the cursor and the ready list follow the machine, and at the
    end of the group the probability is the one that closing all frames leaves. *)
Theorem process_refines_machine (infos : list sigInfo) (t : tree) (s : stateData) (r : arow) (R : list arow)
    (pre : list Z) (m : machine) (q : Qc) :
  Forall (fun i => type i = NOTAGGREGATED) infos -> cols_of infos = tcols t ->
  static infos s -> sd_counter s = 0 -> Forall (fun r => length r = length infos) (r :: R) ->
  mrun (cols_of infos) R (r.*1, mk_machine (fresh_frames r.*2) []) = Some (pre, m) ->
  close_to (cols_of infos) 0 m = Some (mk_machine [] [q]) ->
  exists s1 s2, for_list (r :: R) process_row s = Some s1 /\ sim infos s1 (pre, m) /\
    processTuple true s1 = Some (s2, Some q).
Proof.
  intros Ht Hc Hst Hcnt [Hr HR]%Forall_cons Hrun Hcl.
  assert (Hwf : wf_cols (cols_of infos)) by (rewrite Hc; apply wf_tcols).
  assert (Hn : length infos = size t).
  { rewrite <- length_tcols, <- Hc. unfold cols_of. by rewrite length_fmap. }
  destruct (tcols_last t) as [v Hv]. rewrite <- Hn, <- Hc in Hv.
  destruct (first_sim 0 infos Ht s r v eq_refl Hst Hcnt Hr Hv) as (s0 & Hp0 & Hs0).
  destruct (run_sim 0 infos Ht Hwf R s0 r.*1 pre _ m Hs0 HR (Forall_true _ _ (fun _ => eq_refl)) Hrun) as (s1 & Hrun1%static_run & Hs1).
  destruct (first_col infos t Hc) as (d & v0 & Hc0 & Hd0).
  destruct (final_sim infos s1 pre m q d v0 Hs1 Hcl Hc0 Hd0) as (s2 & Hf & _).
  exists s1, s2. split_and!; try done. cbn [for_list]. by rewrite (process_row_eq _ _ _ _ Hp0).
Qed.

Definition sp_infos : list sigInfo := fillLeafNode (sigTreeRoot sp_sig).
Definition sp_state : stateData := set_vars zero_state 4 sp_infos.
Definition sp_first : arow := hd [] sp_rows.
Definition sp_machine : list Z * machine :=
  default ([], mk_machine [] []) (mrun (cols_of sp_infos) (tl sp_rows) (sp_first.*1, mk_machine (fresh_frames sp_first.*2) [])).
Definition sp_result : Qc := hd 0%Qc (ready (default (mk_machine [] []) (close_to (cols_of sp_infos) 0 sp_machine.2))).

Lemma process_refines_machine_witness :
  exists s1 s2, for_list (sp_first :: tl sp_rows) process_row sp_state = Some s1 /\
    sim sp_infos s1 sp_machine /\ processTuple true s1 = Some (s2, Some sp_result).
Proof.
  apply (process_refines_machine sp_infos (sig_tree (sigTreeRoot sp_sig)) sp_state sp_first (tl sp_rows)
    sp_machine.1 sp_machine.2 sp_result).
  - by repeat constructor.
  - reflexivity.
  - by constructor.
  - reflexivity.
  - exact sp_rows_length.
  - vm_compute. reflexivity.
  - vm_compute. reflexivity.
Defined.

(** ** Aggregations *)

(** The hash tables of the aggregations are finite maps on the non-negative
    variables: a variable that has just been entered is found with its entry, and the
    others keep theirs, whatever collides. *)
Theorem hash_table_roundtrip (v w : Z) (k : nat) (ht : varTable) :
  (0 <= v)%Z -> (0 <= w)%Z -> clean ht -> getPTEFromHT ht v = Some None ->
  exists ht', newVarEntry v (Some k) ht = Some ht' /\ clean ht' /\
    getPTEFromHT ht' w = if decide (w = v) then Some (Some k) else getPTEFromHT ht w.
Proof.
  intros Hv Hw Hc Hn. destruct (newVarEntry_total v k ht Hv Hc) as (ht' & E & Hc').
  exists ht'. split_and!; try done. by apply (getPTE_new v w k ht ht').
Qed.

(** Two variables that hash to the same bucket. *)
Lemma hash_table_roundtrip_witness :
  exists ht', newVarEntry 7 (Some 3) ∅ = Some ht' /\ clean ht' /\
    getPTEFromHT ht' 10000007 = if decide (10000007 = 7)%Z then Some (Some 3) else getPTEFromHT ∅ 10000007.
Proof. by apply (hash_table_roundtrip 7 10000007 3 ∅). Defined.

(** [simpleAggregation].  When every variable lies in one group and a tuple of a known
    group shares one of its two variables with an earlier tuple, the table has one entry per group, in the order of first occurrence, represented by
    the first left variable, with the probability of the disjunction of the distinct
    left variables of the group. *)
Theorem simple_aggregation_table (grp : triple -> Z) (info0 info1 : sigInfo) (lt : lineageTable)
    (ts : list triple) :
  type info0 = NOTAGGREGATED -> type info1 = NOTAGGREGATED ->
  mapM (read_triple info0 info1) (drop (lt_cursor lt) (lt_tuples lt)) = Some ts ->
  Forall (fun u => 0 <= tx u /\ 0 <= ty u)%Z ts ->
  (forall l1 t l2, ts = l1 ++ t :: l2 -> recognised grp l1 t) ->
  simpleAggregation info0 info1 lt = Some (agg_table grp ts, resetLineageCursor lt).
Proof. intros. by apply simpleAggregation_spec. Qed.

(** The groups are the right variables when each left variable has one. *)
Lemma recognised_right (ts : list triple) :
  (forall t u, t ∈ ts -> u ∈ ts -> tx u = tx t -> ty u = ty t) ->
  forall l1 t l2, ts = l1 ++ t :: l2 -> recognised ty l1 t.
Proof.
  intros H l1 t l2 ->. split_and!; [|done|by right].
  intros u Hu. apply H; set_solver.
Qed.

Definition ag_info (p : nat) : sigInfo := set_pos (leaf_info true (mk_sg [] None)) p.
Definition ag_triples : list triple :=
  [mk_triple 1 sp_half 5; mk_triple 2 sp_half 5; mk_triple 3 sp_half 6; mk_triple 1 sp_half 5]%Z.
Definition ag_lineage : lineageTable :=
  mk_lineage ((fun t => mk_varprob [tx t; ty t] [tp t; 1%Qc]) <$> ag_triples) 0.

Lemma simple_aggregation_table_witness :
  simpleAggregation (ag_info 0) (ag_info 1) ag_lineage = Some (agg_table ty ag_triples, ag_lineage).
Proof.
  apply (simple_aggregation_table ty (ag_info 0) (ag_info 1) ag_lineage ag_triples).
  - reflexivity.
  - reflexivity.
  - reflexivity.
  - by repeat constructor.
  - apply recognised_right. intros t u Ht Hu. unfold ag_triples in *. set_solver.
Defined.
