(* ===== verification/PipTheorems.v ===== *)
(** * PipTheorems: what the plugin for continuous distributions guarantees

    The properties of the PIP plugin, each with an instance. *)
From Stdlib Require Import Sorted.
From S2P Require Import Prelude.
From S2P Require Import Presample.
From S2P Require Import PipVar.
From S2P Require Import PipEqn.
From S2P Require Import PipRep.
From S2P Require Import PipCompose.
From S2P Require Import PipSolve.
From S2P Require Import PipBundle.
From S2P Require Import PipSample.
From S2P Require Import PipCset.
From S2P Require Import PipSampler.
From S2P Require Import PipCsetCorrect.
From S2P Require Import PipSets.
From S2P Require Import PipGroups.
From S2P Require Import PipIntegrate.
From S2P Require Import PipProbability.
Open Scope Z_scope.

(** ** Presampling *)

(** C29: the presampler.  Whatever [random] returns and whenever the generator is stored
    and read back, a generator for [size] numbers hands out exactly [size] numbers, in
    ascending order and of 32 bits, and then reports that it is done. *)
Theorem presampler_sorted (random : nat -> Z) (reload : nat -> bool) (size : Z) (d : nat) :
  0 <= size ->
  exists t l, pip_presample_tree_init random size d = Some t /\
    samples random reload (S (Z.to_nat size)) 0 t = Some l /\
    Z.of_nat (length l) = size /\ Sorted Z.le l /\ Forall (fun x => 0 <= x < 2 ^ 32) l.
Proof.
  intros Hs. destruct (init_tree_ok random size d Hs) as (t & Ht & Hok & Hp & Hr).
  destruct (samples_spec random reload (S (Z.to_nat size)) 0 t Hok ltac:(lia)) as (l & Hl & Hlen & Hsort & HF).
  exists t, l. rewrite Hp in HF. rewrite Hr in Hlen. by split_and!.
Qed.

Definition ex_random (k : nat) : Z := (1103515245 * (Z.of_nat k + 7) ^ 2 + 12345) mod 2 ^ 31.

Lemma presampler_sorted_witness :
  exists t l, pip_presample_tree_init ex_random 20 0 = Some t /\
    samples ex_random Nat.even 21 0 t = Some l /\
    Z.of_nat (length l) = 20 /\ Sorted Z.le l /\ Forall (fun x => 0 <= x < 2 ^ 32) l.
Proof. by apply (presampler_sorted ex_random Nat.even 20 0). Defined.

(** Bits of the presampler that are not random.  Of a value of [random], which has
    31 bits, the macro uses 63, and the higher 32 are always 0; a generator that was
    read back starts with a zero value and gives 55 zero bits. *)
Theorem presampler_zero_bits (random : nat -> Z) (t : pip_presample_tree) (n : nat) :
  (0 <= rand t < 2 ^ 31 -> 31 <= rand_pos t < 63 -> fst (GET_BIT random t) = 0) /\
  ((n <= 55)%nat -> fst (pip_presample_tree_count_bits random (stored t) (Z.of_nat n)) = 0).
Proof.
  split.
  - intros Hr Hp. by rewrite get_bit_high.
  - intros Hn. unfold pip_presample_tree_count_bits. rewrite Nat2Z.id. apply count_bits_zero; simpl; lia.
Qed.

(** ** Equations *)

(** C27: the operators of the equation type.  On equations whose buffers stay below 32
    KB, sums, products, differences and negations compose without an error to buffers
    that represent the tree of the operation, and their value under any valuation of
    the variables is the operation on the values; a constant becomes the left operand.
    Whatever the arithmetic of doubles is. *)
Theorem operators_evaluate {F : Type} `{Float8 F} (val : pip_var F -> F) (x y : pip_eqn F) (tx ty : eqn F) (k : F) :
  eqn_ok x tx -> eqn_ok y ty -> 160 + eqn_varsize x + eqn_varsize y <= 2 ^ 15 ->
  let evaluates f t := exists e, f = Some e /\ eqn_ok e t /\ pip_eqn_evaluate val e = Some (value val t) in
  evaluates (pip_eqn_sum_ee x y) (Add tx ty) /\ evaluates (pip_eqn_mul_ee x y) (Mult tx ty) /\
  evaluates (pip_eqn_sub_ee x y) (Add tx (Nega ty)) /\ evaluates (pip_eqn_neg x) (Nega tx) /\
  evaluates (pip_eqn_sum_ef x k) (Add (Const k) tx) /\ evaluates (pip_eqn_sum_fe k x) (Add (Const k) tx) /\
  evaluates (pip_eqn_mul_ef x k) (Mult (Const k) tx) /\ evaluates (pip_eqn_mul_fe k x) (Mult (Const k) tx) /\
  evaluates (pip_eqn_sub_ef x k) (Add (Const (fl_opp k)) tx) /\ evaluates (pip_eqn_sub_fe k x) (Add (Const k) (Nega tx)).
Proof.
  intros Hx Hy Hsize evaluates. pose proof (data_ok_pos _ _ _ Hx). pose proof (data_ok_pos _ _ _ Hy).
  unfold sizeof_pip_eqn in *.
  assert (Hev : forall f t n, (exists e, f = Some e /\ eqn_ok e t /\ eqn_varsize e = n) -> evaluates f t).
  { intros f t n (e & He & Ht & _). exists e. split_and!; [done|done|by apply evaluate_spec]. }
  destruct (compose_one_spec y ty Hy) as (ny & Hny & Hnyt & Hnys); [unfold sizeof_component; lia|].
  destruct (compose_one_spec x tx Hx) as (nx & Hnx & Hnxt & Hnxs); [unfold sizeof_component; lia|].
  unfold sizeof_component in *. split_and!.
  - eapply Hev, (compose_ee_spec false); [done|done|unfold sizeof_component; lia].
  - eapply Hev, (compose_ee_spec true); [done|done|unfold sizeof_component; lia].
  - unfold pip_eqn_sub_ee. rewrite Hny. eapply Hev, (compose_ee_spec false); [done|done|unfold sizeof_component; lia].
  - eapply Hev. by exists nx.
  - eapply Hev, (compose_ef_spec false); [done|unfold sizeof_component; lia].
  - eapply Hev, (compose_ef_spec false); [done|unfold sizeof_component; lia].
  - eapply Hev, (compose_ef_spec true); [done|unfold sizeof_component; lia].
  - eapply Hev, (compose_ef_spec true); [done|unfold sizeof_component; lia].
  - eapply Hev, (compose_ef_spec false); [done|unfold sizeof_component; lia].
  - unfold pip_eqn_sub_fe. rewrite Hnx. eapply Hev, (compose_ef_spec false); [done|unfold sizeof_component; lia].
Qed.

(** Two uniform variables. *)
Definition var_x : pip_var ext := mk_var 1 4 0 [Fin 0; Fin 1].
Definition var_y : pip_var ext := mk_var 2 4 0 [Fin 0; Fin (1 + 1)].
Definition half : Qc := (1 / (1 + 1))%Qc.
Definition ex_val (v : pip_var ext) : ext := if variable v =? 1 then Fin half else Fin 1.

Lemma operators_evaluate_witness :
  exists e, pip_eqn_sub_ee (pip_eqn_for_var var_x) (pip_eqn_for_var var_y) = Some e /\
    eqn_ok e (Add (Var var_x) (Nega (Var var_y))) /\ pip_eqn_evaluate ex_val e = Some (Fin (half + (0 - 1))).
Proof.
  pose proof (operators_evaluate ex_val (pip_eqn_for_var var_x) (pip_eqn_for_var var_y) (Var var_x) (Var var_y) (Fin 1)
    (for_var_ok var_x) (for_var_ok var_y) ltac:(by apply Z.leb_le)) as (_ & _ & (e & H1 & H2 & H3) & _).
  exists e. split_and!; [exact H1|exact H2|rewrite H3; vm_compute; reflexivity].
Defined.

(** C28: the sum aggregate.  Adding a row with constraint atoms to the equation of the
    rows so far yields an equation whose value, in exact arithmetic, is the value of
    the rows so far, plus the value of the row in the worlds where its atoms hold. *)
Theorem compile_sum_evaluates (val : pip_var ext -> ext) (left right : pip_eqn ext) (tl tr : eqn ext)
    (atoms : list (pip_atom ext)) (cs : list (eqn ext * eqn ext)) :
  eqn_ok left tl -> eqn_ok right tr -> Forall2 constraint_of atoms cs ->
  eqn_varsize left + eqn_varsize right + sizeof_component + atoms_size atoms <= 2 ^ 15 ->
  exists e t, pip_eqn_compile_sum left right atoms = Some e /\ eqn_ok e t /\
    pip_eqn_evaluate val e =
      Some (ext_add (value val tl) (if all_hold val atoms then value val tr else Fin 0)).
Proof.
  intros Hl Hr HF Hsize. destruct (compile_sum_spec left right tl tr atoms cs Hl Hr HF Hsize) as (e & He & Hok & _).
  exists e, (slot false tl (constr cs tr)). split_and!; [done|done|]. rewrite (evaluate_spec val _ _ Hok), value_slot, value_constr.
  do 2 f_equal. enough (all_hold val atoms = forallb (fun '(l, r) => fl_gt (value val l) (value val r)) cs) as -> by done.
  clear -HF. induction HF as [|a [l r] atoms cs Ha HF IH]; [done|]. cbn [all_hold forallb].
  fold (all_hold val atoms). rewrite IH, (atom_evaluate_spec val a l r Ha). f_equal.
  by destruct (fl_gt (value val l) (value val r)).
Qed.

(** The row [y] with the constraint [x > 1/2]. *)
Lemma compile_sum_evaluates_witness :
  exists a e, pip_atom_compose_gtf (pip_eqn_for_var var_x) (Fin half) = Some a /\
    pip_eqn_compile_sum (pip_eqn_for_var var_x) (pip_eqn_for_var var_y) [a] = Some e /\
    pip_eqn_evaluate ex_val e = Some (Fin (half + 0)).
Proof.
  destruct (atom_compose_spec (eqn_data (pip_eqn_for_var var_x)) (const_component (Fin half)) _ _ _ _
    (for_var_ok var_x) (const_component_ok (Fin half))) as (a & Ha & Hok & Hsize); [by apply Z.leb_le|].
  assert (Hs : atom_varsize a = 104) by (rewrite Hsize; vm_compute; reflexivity).
  destruct (compile_sum_evaluates ex_val (pip_eqn_for_var var_x) (pip_eqn_for_var var_y) (Var var_x) (Var var_y) [a]
    [(Var var_x, Const (Fin half))] (for_var_ok var_x) (for_var_ok var_y)) as (e & t & He & _ & Hv).
  - by constructor; [|constructor].
  - unfold atoms_size. cbn [foldr]. rewrite Hs. by apply Z.leb_le.
  - exists a, e. split_and!; [exact Ha|exact He|]. rewrite Hv. cbn [all_hold forallb].
    rewrite (atom_evaluate_spec ex_val a _ _ Hok). vm_compute. reflexivity.
Defined.

(** ** Integration *)

(** Integration with a distribution function.  For a variable that is uniform on
    [[a, b]] and atoms without negations inside sums, [pip_integrate_by_cdf] returns
    NaN, which makes the caller sample, when some atom gives no bound, or the exact
    probability: the atoms hold together just when the variable is in some interval,
    and the result is the share of [[a, b]] that lies in it. *)
Theorem integrate_by_cdf_uniform (exponential normal poisson : pip_functable_entry ext) (v : pip_var ext) (a b : Qc)
    (atoms : list (pip_atom ext)) :
  uniform_var v a b -> Forall clean_atom atoms ->
  exists r, pip_integrate_by_cdf (table exponential normal poisson) atoms v = Some r /\
    ((r = NaN /\ Exists (unsolved v) atoms) \/ exists lo hi, r = Fin (overlap a b lo hi / (b - a)) /\
      forall val x, has_value val v x -> all_hold val atoms = in_interval lo hi x).
Proof. apply integrate_uniform. Qed.

(** [y] is uniform on [[0, 2]], and [1/2 + y > 1]: the probability is [3/4]. *)
Lemma integrate_by_cdf_uniform_witness :
  exists e a r, pip_eqn_sum_ef (pip_eqn_for_var var_y) (Fin half) = Some e /\
    pip_atom_compose_gtf e (Fin 1) = Some a /\
    pip_integrate_by_cdf (table zero zero zero) [a] var_y = Some r /\
    ((r = NaN /\ Exists (unsolved var_y) [a]) \/ exists lo hi, r = Fin (overlap 0 (1 + 1) lo hi / ((1 + 1) - 0)) /\
      forall val x, has_value val var_y x -> all_hold val [a] = in_interval lo hi x) /\
    ext_eq r (Fin (1 - half * half)) = true.
Proof.
  destruct (compose_ef_spec false (pip_eqn_for_var var_y) (Fin half) (Var var_y) (for_var_ok var_y))
    as (e & He & Hok & Hsize); [by apply Z.leb_le|].
  destruct (atom_compose_spec (eqn_data e) (const_component (Fin 1)) _ _ _ _ Hok (const_component_ok (Fin 1)))
    as (a & Ha & Hok' & _); [rewrite Hsize; by apply Z.leb_le|].
  destruct (integrate_by_cdf_uniform zero zero zero var_y 0 (1 + 1) [a]) as (r & Hr & Hcase).
  - split_and!; [done|done|by apply Qclt_alt].
  - constructor; [|constructor]. exists (Add (Const (Fin half)) (Var var_y)), (Const (Fin 1)). by split.
  - exists e, a, r. split_and!; [exact He|exact Ha|exact Hr|exact Hcase|].
    assert (Hcomp : (e ← pip_eqn_sum_ef (pip_eqn_for_var var_y) (Fin half); a ← pip_atom_compose_gtf e (Fin 1);
      r ← pip_integrate_by_cdf (table zero zero zero) [a] var_y; Some (ext_eq r (Fin (1 - half * half)))) = Some true)
      by (vm_compute; reflexivity).
    change (pip_eqn_sum_ef (pip_eqn_for_var var_y) (Fin half)) with (pip_eqn_compose_ef T_ADD (pip_eqn_for_var var_y) (Fin half)) in Hcomp.
    change (ty_of false) with T_ADD in He. rewrite He in Hcomp. cbn [mbind option_bind] in Hcomp.
    unfold pip_atom_compose_gtf in Hcomp. rewrite Ha in Hcomp. cbn [mbind option_bind] in Hcomp. rewrite Hr in Hcomp.
    by injection Hcomp.
Defined.

(** A negation drops the constant that was accumulated before it.  The difference
    [k - x], which the plugin builds as a sum with a negation, exceeds [d] just when
    [x] is below [k - d]; [pip_solve_bound] reports the bound [-d]. *)
Theorem negation_drops_constant (v : pip_var ext) (k d : Qc) :
  (length (group_state v) <= 100)%nat ->
  exists e a, pip_eqn_sub_fe (Fin k) (pip_eqn_for_var v) = Some e /\ pip_atom_compose_gtf e (Fin d) = Some a /\
    pip_solve_bound a v = Some (Fin (- d), Some true) /\
    forall val x, val v = Fin x -> pip_atom_evaluate val a = Some (bool_decide (x < k - d)%Qc).
Proof.
  intros Hlen. assert (Hsize : eqn_varsize (pip_eqn_for_var v) <= 1000).
  { unfold pip_eqn_for_var, VARSIZE_var, sizeof_component, sizeof_pip_var, sizeof_pip_eqn. simpl. lia. }
  destruct (compose_one_spec _ _ (for_var_ok v)) as (n & Hn & Hnok & Hns); [unfold sizeof_component; lia|].
  destruct (compose_ef_spec false n (Fin k) _ Hnok) as (e & He & Heok & Hes); [unfold sizeof_component in *; lia|].
  destruct (atom_compose_spec (eqn_data e) (const_component (Fin d)) _ _ _ _ Heok (const_component_ok (Fin d)))
    as (a & Ha & Haok & _); [unfold sizeof_component, sizeof_pip_eqn in *; lia|].
  exists e, a. split_and!; [by unfold pip_eqn_sub_fe; rewrite Hn|exact Ha|by apply negation_bound with k|].
  intros val x Hx. rewrite (atom_evaluate_spec val a _ _ Haok). cbn [value Bin]. rewrite Hx.
  cbn [fl_gt fl_add fl_sub fl_zero ext_float8 ext_add ext_opp ext_gt]. f_equal. apply bool_decide_iff. split; intros; qc_lra.
Qed.

Lemma negation_drops_constant_witness :
  exists e a, pip_eqn_sub_fe (Fin 1) (pip_eqn_for_var var_x) = Some e /\ pip_atom_compose_gtf e (Fin half) = Some a /\
    pip_solve_bound a var_x = Some (Fin (- half), Some true) /\
    forall val x, val var_x = Fin x -> pip_atom_evaluate val a = Some (bool_decide (x < 1 - half)%Qc).
Proof. apply (negation_drops_constant var_x 1 half). by apply Nat.leb_le. Defined.

(** C33: the uniform distribution.  The inverse distribution function is the inverse of
    the distribution function on the probabilities and on the range, and a generated
    value lies in the range whatever the seed. *)
Theorem uniform_distribution (v : pip_var ext) (a b : Qc) :
  uniform_var v a b ->
  (forall p, (0 <= p)%Qc -> (p <= 1)%Qc -> pip_uniform_cdf v (pip_uniform_icdf v (Fin p)) = Fin p) /\
  (forall x, (a <= x)%Qc -> (x <= b)%Qc -> pip_uniform_icdf v (pip_uniform_cdf v (Fin x)) = Fin x) /\
  (forall seed, exists x, pip_uniform_gen v seed = Fin x /\ (a <= x)%Qc /\ (x <= b)%Qc).
Proof.
  intros Hu. split_and!; intros.
  - by eapply uniform_cdf_icdf.
  - by eapply uniform_icdf_cdf.
  - by apply uniform_gen_range.
Qed.

Lemma uniform_distribution_witness :
  (forall p, (0 <= p)%Qc -> (p <= 1)%Qc -> pip_uniform_cdf var_y (pip_uniform_icdf var_y (Fin p)) = Fin p) /\
  exists x, pip_uniform_gen var_y 42 = Fin x /\ (0 <= x)%Qc /\ (x <= 1 + 1)%Qc.
Proof.
  destruct (uniform_distribution var_y 0 (1 + 1)) as (H1 & _ & H3); [split_and!; [done|done|by apply Qclt_alt]|].
  split; [exact H1|exact (H3 42)].
Defined.

(** ** Sampling *)

(** C32: integration by sampling.  On valid atoms and constraints, [num_samples] draws of
    [random] give the share of the seeds in whose world all atoms hold and none of the
    (inverted) constraints. *)
Theorem integrate_by_sampling_counts {F : Type} `{Float8 F} (pip_distributions : list (pip_functable_entry F))
    (random : nat -> Z) (clause : list (pip_atom F)) (n : Z) (constraints : option (pip_atomset F)) :
  0 <= n -> (forall k, 0 <= random k < 2 ^ 31) -> Forall valid_atom clause ->
  (forall s, constraints = Some s -> set_ok s) ->
  pip_integrate_by_sampling pip_distributions random clause n constraints =
    Some (fl_div (fl_of_Z (Z.of_nat (length (hits pip_distributions random clause constraints n)))) (fl_of_Z n)).
Proof. apply integrate_by_sampling_spec. Qed.

(** [x > 1/2] for the uniform [x]. *)
Lemma integrate_by_sampling_counts_witness :
  exists a, pip_atom_compose_gtf (pip_eqn_for_var var_x) (Fin half) = Some a /\
    let random k := (48271 * (Z.of_nat k + 1)) mod 2 ^ 31 in
    pip_integrate_by_sampling (table zero zero zero) random [a] 8 None =
      Some (fl_div (fl_of_Z (Z.of_nat (length (hits (table zero zero zero) random [a] None 8)))) (fl_of_Z 8)).
Proof.
  destruct (atom_compose_spec (eqn_data (pip_eqn_for_var var_x)) (const_component (Fin half)) _ _ _ _
    (for_var_ok var_x) (const_component_ok (Fin half))) as (a & Ha & Hok & _); [by apply Z.leb_le|].
  exists a. split; [exact Ha|]. cbn zeta. apply integrate_by_sampling_counts; [lia| | |done].
  - intros k. by apply Z.mod_pos_bound.
  - constructor; [|constructor]. by eexists _, _.
Defined.

(** A sample has two worlds.  A variable that is not stored in a sample set is
    generated from the seed of the sample cut to 32 bits; the vector aggregates use the
    whole seed.  There are a set, a sample and a uniform variable that the two give
    different values. *)
Theorem sample_seed_truncated :
  exists (set : pip_sample_set ext) (v : pip_var ext) (x y : ext),
    pip_sample_var_val (table zero zero zero) set 0 v = Some x /\
    seed_val (table zero zero zero) (pip_sample_seed set 0) v = y /\
    fl_eq x x = true /\ fl_eq y y = true /\ fl_eq x y = false.
Proof.
  exists (mk_set 1 0 0 1 []), var_x. eexists _, _. split; [reflexivity|]. split; [reflexivity|].
  split_and!; vm_compute; reflexivity.
Qed.

(** Tallies.  When no count is full, the aggregate over a row and a sample set
    terminates without an error and adds one to the count of each sample of the set in
    which the clause of the row holds; it enters a group for the set when it has none,
    and changes no other count. *)
Theorem conf_sample_tally {F : Type} `{Float8 F} (pip_distributions : list (pip_functable_entry F)) (n : Z -> Z)
    (t : pip_conf_tally) (clause : list (pip_atom F)) (set : pip_sample_set F) (holds : Z -> bool) :
  tally_ok n t -> 0 <= sample_cnt set -> n (ssid set) = sample_cnt set ->
  (forall i, 0 <= i < sample_cnt set -> pip_sample_test_clause pip_distributions set i clause = Some (holds i)) ->
  (forall i, 0 <= i < sample_cnt set -> 0 <= tally_of t (ssid set) i < 2 ^ 31 - 1) ->
  exists t', pip_atom_conf_sample_g pip_distributions t clause set = Some t' /\ tally_ok n t' /\
    forall s i, 0 <= i < n s ->
      tally_of t' s i = tally_of t s i + (if decide (s = ssid set /\ holds i = true) then 1 else 0).
Proof. apply conf_sample_g_spec. Qed.

(** Two samples, no atoms, an empty tally. *)
Definition two_samples : pip_sample_set ext := mk_set 2 0 7 1 [].

Lemma conf_sample_tally_witness :
  exists t', pip_atom_conf_sample_g (table zero zero zero) (pip_conf_tally_create 0 0) [] two_samples = Some t' /\
    tally_ok (fun _ => 2) t' /\ forall s i, 0 <= i < 2 -> tally_of t' s i = 0 + (if decide (s = 7 /\ true = true) then 1 else 0).
Proof.
  destruct (conf_sample_tally (table zero zero zero) (fun _ => 2) (pip_conf_tally_create 0 0) [] two_samples (fun _ => true))
    as (t' & H1 & H2 & H3); [by split; [constructor|]|done|done|done|done|].
  exists t'. split_and!; [exact H1|exact H2|exact H3].
Defined.

(** ** Sample-first mode *)

(** C30: confidence in the sample-first mode.  A row that starts in [n] worlds and is
    filtered by comparisons of bundles has, as its confidence, the share of the worlds
    in which no comparison fails, where [<=] makes one fail. *)
Theorem sample_first_confidence {F : Type} `{Float8 F} (n : Z) (cs : list (pip_value_bundle F * pip_value_bundle F))
    (vals : list ((Z -> F) * (Z -> F))) :
  0 <= n -> Forall2 (fun c v => has_values n (fst c) (fst v) /\ has_values n (snd c) (snd v)) cs vals ->
  exists wp, filtered n cs = Some wp /\
    pip_world_presence_count wp =
      Some (fl_div (fl_of_Z (Z.of_nat (length
        (filter (fun i => forallb (fun '(f, g) => negb (fl_le (f i) (g i))) vals = true) (range 0 n))))) (fl_of_Z n)).
Proof.
  intros Hn HF. destruct (filtered_spec n cs vals Hn HF) as (wp & Hwp & Hok & Hw & Hp). exists wp. split; [done|].
  unfold pip_world_presence_count. rewrite (count_worlds_spec wp Hok). cbn [mbind option_bind]. rewrite Hw.
  do 5 f_equal. apply filter_ext_in. intros i Hi%elem_of_range. by rewrite Hp.
Qed.

Definition bundle_of (l : list ext) : pip_value_bundle ext := mk_vb 0 (Z.of_nat (length l)) l.

Lemma bundle_of_values (l : list ext) : has_values (Z.of_nat (length l)) (bundle_of l) (fun i => nth (Z.to_nat i) l NaN).
Proof. split; [done|]. intros i Hi. by apply at_index_nth. Qed.

(** Ten worlds; the left value exceeds the right one in three of them. *)
Definition ten_left : list ext := [Fin 1; Fin 0; Fin 1; Fin 0; Fin 0; Fin 0; Fin 0; Fin 0; Fin 0; Fin 1].
Definition ten_right : list ext := replicate 10 (Fin half).

Lemma sample_first_confidence_witness :
  exists wp, filtered 10 [(bundle_of ten_left, bundle_of ten_right)] = Some wp /\
    pip_world_presence_count (F := ext) wp = Some (fl_div (fl_of_Z 3) (fl_of_Z 10)).
Proof.
  destruct (sample_first_confidence 10 [(bundle_of ten_left, bundle_of ten_right)]
    [((fun i => nth (Z.to_nat i) ten_left NaN), (fun i => nth (Z.to_nat i) ten_right NaN))]) as (wp & H1 & H2).
  - lia.
  - constructor; [|constructor]. split; apply bundle_of_values.
  - exists wp. split; [exact H1|]. rewrite H2. do 4 f_equal.
Defined.

(** C31: expectation in the sample-first mode.  The sum aggregate over rows with a value
    and a presence, followed by the expectation, is the mean over the worlds of the sum
    of the values of the rows that exist in the world. *)
Theorem sample_first_expectation {F : Type} `{Float8 F} (pip_distributions : list (pip_functable_entry F)) (n : Z)
    (rows : list (pip_value_bundle F * pip_world_presence)) (vals : list (Z -> F)) :
  0 < n -> rows <> [] ->
  Forall2 (fun row f => has_values n (fst row) f /\ wp_ok (snd row) /\ worldcount (snd row) = n) rows vals ->
  exists vb, summed pip_distributions rows = Some (Some vb) /\
    pip_value_bundle_expect vb None None =
      Some (fl_div (foldl fl_add fl_zero
        (map (fun i => foldl (row_step i) fl_zero (zip vals (map snd rows))) (range 0 n))) (fl_of_Z n)).
Proof.
  intros Hn Hne HF. destruct (summed_spec pip_distributions n rows vals Hne HF) as (vb & Hvb & Hv). exists vb.
  split; [done|]. by apply expect_spec.
Qed.

Lemma sample_first_expectation_witness :
  exists vb, summed (table zero zero zero) [(bundle_of ten_left, mk_wp 10 [192; 0]); (bundle_of ten_left, mk_wp 10 [0; 192])] = Some (Some vb) /\
    pip_value_bundle_expect vb None None = Some (fl_div (Fin (0 + 1 + 1)) (fl_of_Z 10)).
Proof.
  destruct (sample_first_expectation (table zero zero zero) 10
    [(bundle_of ten_left, mk_wp 10 [192; 0]); (bundle_of ten_left, mk_wp 10 [0; 192])]
    [(fun i => nth (Z.to_nat i) ten_left NaN); (fun i => nth (Z.to_nat i) ten_left NaN)]) as (vb & H1 & H2).
  - lia.
  - done.
  - constructor; [|constructor; [|constructor]]; (split; [apply bundle_of_values|done]).
  - exists vb. split; [exact H1|]. rewrite H2. vm_compute. reflexivity.
Defined.

(** ** Groups of variables *)

(** C26: the connected set refines a partition.  On a well-formed set that is not locked,
    with any comparator that orders the items, adding puts an item that was not there
    into a group of its own, linking joins the groups of two items that are present and
    does nothing else, and the test says whether two present items share a group; the
    set stays well formed, with an ordered tree, an acyclic forest whose lists of
    children agree with it, and group sizes that count the members. *)
Theorem connected_set_partition {A : Type} (cmp : A -> A -> Z) `{Comparator A cmp} (set : pip_cset A) (i j : A) :
  cset_ok cmp set -> locked set = false ->
  (exists fresh set', pip_cset_add cmp set i = Some (fresh, set') /\ cset_ok cmp set' /\ locked set' = false /\
    (fresh = true <-> ~ present cmp set i) /\ (forall k, present cmp set' k <-> present cmp set k \/ cmp i k = 0) /\
    (forall k l, same_group cmp set' k l <-> same_group cmp set k l \/ (cmp i k = 0 /\ cmp i l = 0))) /\
  (exists set', pip_cset_link cmp set i j = Some set' /\ cset_ok cmp set' /\ locked set' = false /\
    (forall k, present cmp set' k <-> present cmp set k) /\
    (forall k l, same_group cmp set' k l <-> linked cmp set i j k l)) /\
  (present cmp set i -> present cmp set j ->
    exists (found : bool) set', pip_cset_test_link cmp set i j = Some (found, set') /\ (found = true <-> same_group cmp set i j) /\
      cset_ok cmp set' /\ (forall k l, same_group cmp set' k l <-> same_group cmp set k l)).
Proof.
  intros Hok Hl. split_and!.
  - destruct (add_spec cmp set i Hok) as (b & set' & ? & ? & Hl' & ? & ? & ? & _). rewrite Hl in Hl'. exists b, set'. tauto.
  - destruct (link_spec cmp set i j Hok Hl) as (set' & ? & ? & ? & _ & ? & ?). exists set'. tauto.
  - intros Hi Hj. destruct (test_link_spec cmp set i j Hok Hi Hj) as (set' & b & ? & ? & ? & ?). exists b, set'. tauto.
Qed.

Lemma connected_set_partition_witness :
  exists set', pip_cset_add pip_variable_sort (pip_cset_init (A := pip_var ext)) var_x = Some (true, set') /\
    same_group pip_variable_sort set' var_x var_x /\ ~ same_group pip_variable_sort set' var_x var_y.
Proof.
  destruct (connected_set_partition (pip_variable_sort (F := ext)) pip_cset_init var_x var_y
    (init_ok pip_variable_sort) eq_refl) as ((b & set' & Hadd & _ & _ & Hb & _ & Hg) & _ & _).
  assert (b = true) as -> by (apply Hb; exact (init_empty pip_variable_sort var_x)). exists set'. split_and!; [exact Hadd|by apply Hg; right|].
  rewrite Hg. intros [Hs|[_ Hc]]; [|discriminate]. destruct (same_group_present pip_variable_sort _ _ _ Hs) as [Hp _].
  exact (init_empty pip_variable_sort var_x Hp).
Defined.

(** C24: the groups of a clause.  [pip_clause_to_cset] groups the variables of a clause by
    the least equivalence that relates the variables of one atom, and the conditioned
    probability is the product of one factor per group, in the order of the roots, each
    computed over exactly the atoms of the clause that mention a variable of the group. *)
Theorem clause_groups {F : Type} `{Float8 F} (pip_distributions : list (pip_functable_entry F)) (random : nat -> Z)
    (constraints : option (pip_atomset F)) (samples : Z) (clause : list (pip_atom F)) (cs : list (eqn F * eqn F)) :
  Forall2 constraint_of clause cs ->
  exists set gs, pip_clause_to_cset true clause = Some set /\ groups_of set clause cs gs /\
    pip_compute_conditioned_probability pip_distributions random constraints true clause samples =
      (s ← factors pip_distributions random constraints samples set gs (Some (fl_one, 0%nat)); Some (fst s)).
Proof. apply conditioned_spec. Qed.

(** Atoms without variables are ignored.  No group has them, so the probability of a
    clause that consists of comparisons of constants is 1 even when they are false. *)
Theorem constant_atoms_ignored {F : Type} `{Float8 F} (pip_distributions : list (pip_functable_entry F)) (random : nat -> Z)
    (constraints : option (pip_atomset F)) (samples : Z) (clause : list (pip_atom F)) (cs : list (eqn F * eqn F)) :
  Forall2 constraint_of clause cs -> (forall c, c ∈ cs -> atom_nodes c = []) ->
  pip_compute_conditioned_probability pip_distributions random constraints true clause samples = Some fl_one.
Proof. apply constants_probability. Qed.

(** [1/2 > 1] has the probability 1. *)
Lemma constant_atoms_ignored_witness :
  exists a, pip_atom_compose_cmpnt (const_component (Fin half)) sizeof_component (const_component (Fin 1)) sizeof_component = Some a /\
    pip_atom_evaluate ex_val a = Some false /\
    pip_compute_conditioned_probability (table zero zero zero) (fun _ => 0) None true [a] 100 = Some fl_one.
Proof.
  destruct (atom_compose_spec (const_component (Fin half)) (const_component (Fin 1)) _ _ _ _
    (const_component_ok (Fin half)) (const_component_ok (Fin 1))) as (a & Ha & Hok & _); [by apply Z.leb_le|].
  exists a. split_and!; [exact Ha|rewrite (atom_evaluate_spec ex_val a _ _ Hok); by vm_compute|].
  apply (constant_atoms_ignored (table zero zero zero) (fun _ => 0) None 100 [a] [(Const (Fin half), Const (Fin 1))]).
  - by constructor; [|constructor].
  - by intros c ->%list_elem_of_singleton.
Defined.

(** C23: confidence of independent comparisons in which no term is subtracted.  When
    every atom is over one uniform variable, linear in it on both sides with different
    coefficients, and a negation stands only at the beginning of a sum (the solver loses
    the terms before a subtracted one, [negation_drops_constant], and the result is then
    wrong, [subtracted_confidence]), [pip_compute_independent_probability] is exact and
    draws no sample: there is a box, with an interval for each variable, such that the atoms
    hold together just when the variables lie in the box, and the result is the
    product of the shares of the ranges. *)
Theorem independent_uniform (exponential normal poisson : pip_functable_entry ext) (random : nat -> Z) (samples : Z)
    (low high : Z -> Qc) (clause : list (pip_atom ext)) (cs : list (eqn ext * eqn ext)) :
  Forall2 (simple_atom low high) clause cs ->
  exists boxes, NoDup (map fst boxes) /\
    pip_compute_independent_probability (table exponential normal poisson) random true clause samples =
      Some (Fin (boxes_probability low high boxes)) /\
    forall val x, valued val x -> all_hold val clause = in_boxes x boxes.
Proof. apply independent_boxes. Qed.

(** With a subtracted term it is not: for [1 - x > 1/2] and [x] uniform on [[0, 1]] the
    confidence is 0, though the comparison holds on [[0, 1/2)]. *)
Lemma subtracted_confidence :
  exists e a, pip_eqn_sub_fe (Fin 1) (pip_eqn_for_var var_x) = Some e /\ pip_atom_compose_gtf e (Fin half) = Some a /\
    (exists r, pip_compute_independent_probability (table zero zero zero) (fun _ => 0) true [a] 100 = Some r /\
       ext_eq r fl_zero = true) /\
    forall val x, val var_x = Fin x -> pip_atom_evaluate val a = Some (bool_decide (x < 1 - half)%Qc).
Proof.
  destruct (negation_drops_constant var_x 1 half) as (e & a & He & Ha & _ & Hev); [by apply Nat.leb_le|].
  exists e, a. split_and!; [done|done| |exact Hev].
  assert (Hc : (e ← pip_eqn_sub_fe (Fin 1) (pip_eqn_for_var var_x); a ← pip_atom_compose_gtf e (Fin half);
      r ← pip_compute_independent_probability (table zero zero zero) (fun _ => 0) true [a] 100; Some (ext_eq r fl_zero))
    = Some true) by (vm_compute; reflexivity).
  rewrite He in Hc. cbn [mbind option_bind] in Hc. rewrite Ha in Hc. cbn [mbind option_bind] in Hc.
  apply bind_Some in Hc as (r & Hr & [= Heq]). by exists r.
Qed.

Definition ex_high (i : Z) : Qc := if i =? 1 then 1%Qc else (1 + 1)%Qc.

(** A variable compared with one half. *)
Definition above_half (v : pip_var ext) : option (pip_atom ext) := pip_atom_compose_gtf (pip_eqn_for_var v) (Fin half).

Lemma above_half_simple (v : pip_var ext) a : v = var_x \/ v = var_y -> above_half v = Some a ->
  simple_atom (fun _ => 0%Qc) ex_high a (Var v, Const (Fin half)).
Proof.
  intros Hv Ha. destruct (atom_compose_spec (eqn_data (pip_eqn_for_var v)) (const_component (Fin half)) _ _ _ _
    (for_var_ok v) (const_component_ok (Fin half))) as (a' & Ha' & Hok & _); [by destruct Hv as [-> | ->]; apply Z.leb_le|].
  assert (a' = a) as -> by (unfold above_half, pip_atom_compose_gtf in Ha; congruence).
  split; [done|done|done| | |].
  - intros x y Hx%list_elem_of_singleton Hy%list_elem_of_singleton. subst. apply cmp_refl.
  - intros x Hx%list_elem_of_singleton. subst x. destruct Hv as [-> | ->]; (split_and!; [done|done|by apply Qclt_alt]).
  - intros w (u & Hu%list_elem_of_singleton & Hc)%among_spec. cbn in Hu. subst u. apply cmp_fields in Hc as [Hg Hi].
    exists 0%Qc, 1%Qc, half, 0%Qc. cbn [fst snd coefficients].
    assert (pip_var_eq v w = true) as -> by (by apply var_eq_fields). by split_and!.
Qed.

Lemma clause_groups_witness :
  exists ax ay set (gs : list (nat * list (pip_atom ext))), above_half var_x = Some ax /\ above_half var_y = Some ay /\
    pip_clause_to_cset true [ax; ay] = Some set /\ roots set = [1%nat; 0%nat] /\ map fst gs = [1%nat; 0%nat].
Proof.
  destruct (above_half var_x) as [ax|] eqn:Hx; [|vm_compute in Hx; discriminate].
  destruct (above_half var_y) as [ay|] eqn:Hy; [|vm_compute in Hy; discriminate].
  destruct (clause_groups (table zero zero zero) (fun _ => 0) None 100 [ax; ay]
    [(Var var_x, Const (Fin half)); (Var var_y, Const (Fin half))]) as (set & gs & H1 & H2 & _).
  - constructor; [|constructor; [|constructor]].
    + apply (sa_constraint _ _ _ _ (above_half_simple var_x ax (or_introl eq_refl) Hx)).
    + apply (sa_constraint _ _ _ _ (above_half_simple var_y ay (or_intror eq_refl) Hy)).
  - exists ax, ay, set, gs. rewrite (go_roots _ _ _ _ H2).
    enough (Hr : roots set = [1%nat; 0%nat]) by by split_and!.
    assert (Hc : (ax ← above_half var_x; ay ← above_half var_y; roots <$> pip_clause_to_cset true [ax; ay]) = Some [1%nat; 0%nat])
      by (vm_compute; reflexivity).
    rewrite Hx, Hy in Hc. cbn [mbind option_bind] in Hc. rewrite H1 in Hc. by injection Hc.
Defined.

(** [x > 1/2] and [y > 1/2]: the probability is [1/2 * 3/4]. *)
Lemma independent_uniform_witness :
  exists ax ay boxes, above_half var_x = Some ax /\ above_half var_y = Some ay /\ NoDup (map fst boxes) /\
    pip_compute_independent_probability (table zero zero zero) (fun _ => 0) true [ax; ay] 100 =
      Some (Fin (boxes_probability (fun _ => 0%Qc) ex_high boxes)) /\
    ext_eq (Fin (boxes_probability (fun _ => 0%Qc) ex_high boxes)) (Fin (half * (1 - half * half))) = true.
Proof.
  destruct (above_half var_x) as [ax|] eqn:Hx; [|vm_compute in Hx; discriminate].
  destruct (above_half var_y) as [ay|] eqn:Hy; [|vm_compute in Hy; discriminate].
  destruct (independent_uniform zero zero zero (fun _ => 0) 100 (fun _ => 0%Qc) ex_high [ax; ay]
    [(Var var_x, Const (Fin half)); (Var var_y, Const (Fin half))]) as (boxes & H1 & H2 & _).
  - constructor; [by apply above_half_simple; [left|]|]. constructor; [by apply above_half_simple; [right|]|constructor].
  - exists ax, ay, boxes. split_and!; [done|done|exact H1|exact H2|].
    assert (Hc : (ax ← above_half var_x; ay ← above_half var_y;
      r ← pip_compute_independent_probability (table zero zero zero) (fun _ => 0) true [ax; ay] 100;
      Some (ext_eq r (Fin (half * (1 - half * half))))) = Some true) by (vm_compute; reflexivity).
    rewrite Hx, Hy in Hc. cbn [mbind option_bind] in Hc. rewrite H2 in Hc. by injection Hc.
Defined.

(** C25: rejection sampling of a group.  With fuel for ten million trials the loops return,
    unless a candidate or the test of its atoms accesses what is not there.  When they
    return, there is for every sample a number of candidates, of which all but the last
    were rejected, and which ends with an accepted one or at the limit of ten million
    trials in all; the result is the state after the last of these candidates, with the
    probability of the group multiplied by the number of samples over the sum of these
    numbers.  Below the limit the atoms of the group hold in every sample, although all
    candidates are written to the same set. *)
Theorem rejection_sample_accepts {F : Type} `{Float8 F} (pip_distributions : list (pip_functable_entry F))
    (random : nat -> Z) (fuel group : nat) (state : pip_sampler_state) (set : pip_cset (pip_var F)) :
  curr_sample state = 0 -> 0 < sample_cnt (sampler_samples state) < 2 ^ 30 ->
  (MAX_TRIALS < Z.of_nat fuel ->
     is_Some (rejection_sample pip_distributions random fuel group (state, set)) \/
     exists st, sampling_reaches pip_distributions random group (state, set) st /\
       candidate_fails pip_distributions random group st) /\
  forall state' set', rejection_sample pip_distributions random fuel group (state, set) = Some (state', set') ->
    exists ks state1, let cnt := Z.of_nat (sum_list ks) in
      sampled pip_distributions random group 0 (state, set) ks (state1, set') /\
      Z.of_nat (length ks) = sample_cnt (sampler_samples state) /\
      state' = with_probability (fl_mul (probability state)
        (fl_div (fl_of_Z (sample_cnt (sampler_samples state))) (fl_of_Z cnt))) state1 /\
      (cnt < MAX_TRIALS -> forall i, 0 <= i < sample_cnt (sampler_samples state) ->
         pip_sample_test_clause pip_distributions (sampler_samples state') i (group_clause state) = Some true).
Proof.
  intros Hcur Htot. assert (Hm : MAX_TRIALS = 10000000) by done. unfold rejection_sample. cbn [fst].
  rewrite Hcur, Z.sub_0_r. set (n := Z.to_nat (sample_cnt (sampler_samples state))). split.
  - intros Hfuel. destruct (rejection_samples_total pip_distributions random fuel n group (state, set) (state, set) 0)
      as [[[[state1 set1] cnt] ->]|Hfail]; [lia..|constructor|left; by eexists|by right].
  - intros state' set' ([[state1 set1] cnt] & Hs & Heq)%bind_Some.
    destruct (rejection_samples_spec pip_distributions random fuel n group state set 0 state1 set1 cnt)
      as (_ & Hsame & Hb & Hacc); [lia|lia|done|].
    destruct (rejection_samples_run pip_distributions random fuel n group (state, set) (state1, set1) 0 cnt)
      as (ks & Hlen & -> & Hks); [lia|lia|done|]. rewrite Z.add_0_l in *.
    rewrite (proj2 (Z.ltb_lt _ _)) in Heq by lia. injection Heq as <- <-. exists ks, state1. cbn zeta. split_and!.
    + exact Hks.
    + rewrite Hlen. lia.
    + by rewrite (sm_probability _ _ _ Hsame).
    + intros Hlt i Hi. apply Hacc; [done|]. rewrite Hcur. lia.
Qed.

Definition sampler_random (n : nat) : Z := pip_prng_step (Z.of_nat n + 17).

(** Three samples of [x], which is to exceed one half. *)
Definition ex_sampling : option (pip_sampler_state * pip_cset (pip_var ext)) :=
  a ← above_half var_x;
  set ← pip_clause_to_cset true [a];
  Some (mk_sampler (pip_sample_set_create (fun _ => vid var_x) 0 1 3 1).1 0 [a] 0 1 0 1 fl_one 1, set).

Lemma rejection_sample_accepts_witness :
  exists state set state' set', ex_sampling = Some (state, set) /\
    rejection_sample (table zero zero zero) sampler_random 100 0 (state, set) = Some (state', set') /\
    exists ks state1, sampled (table zero zero zero) sampler_random 0 0 (state, set) ks (state1, set') /\ length ks = 3%nat /\
      state' = with_probability (ext_mul (Fin 1) (ext_div (fl_of_Z 3) (fl_of_Z (Z.of_nat (sum_list ks))))) state1 /\
      (Z.of_nat (sum_list ks) < MAX_TRIALS -> forall i, 0 <= i < 3 ->
         pip_sample_test_clause (table zero zero zero) (sampler_samples state') i (group_clause state) = Some true).
Proof.
  destruct ex_sampling as [[state set]|] eqn:Hs; [|vm_compute in Hs; discriminate].
  destruct (rejection_sample (table zero zero zero) sampler_random 100 0 (state, set)) as [[state' set']|] eqn:Hr.
  - exists state, set, state', set'. split_and!; [done|done|].
    assert (Hst : curr_sample state = 0 /\ sample_cnt (sampler_samples state) = 3 /\ probability state = Fin 1)
      by (vm_compute in Hs; injection Hs as <- _; done).
    destruct Hst as (Hc & Hn & Hp).
    destruct (rejection_sample_accepts (table zero zero zero) sampler_random 100 0 state set Hc) as [_ Hacc]; [rewrite Hn; lia|].
    destruct (Hacc state' set' Hr) as (ks & state1 & H1 & H2 & H3 & H4). rewrite Hn, ?Hp in *. exists ks, state1.
    split_and!; [done|lia|done|done].
  - exfalso. assert (Hc : is_Some (st ← ex_sampling; rejection_sample (table zero zero zero) sampler_random 100 0 st))
      by (vm_compute; by eexists). rewrite Hs in Hc. cbn [mbind option_bind] in Hc. rewrite Hr in Hc. by destruct Hc.
Defined.

(** C40: sampling independent variables overruns the sample set.  When the group of a
    single variable is sampled through its inverse distribution function, the index of
    the next entry to name advances by two, though one entry has been named: the next
    entry keeps what the allocator left there.  When there were two entries left, so that
    the next variable would have fitted, its name is written past the last entry: the
    write fails, and with it the sampling of every further group. *)
Theorem independent_groups_overrun {F : Type} `{Float8 F} (pip_distributions : list (pip_functable_entry F))
    (random : nat -> Z) (fuel r last : nat) (v : pip_var F) (state state' : pip_sampler_state)
    (set : pip_cset (pip_var F)) (clause : list (pip_atom F)) (s : pip_sample_set F) :
  els set !! r = Some (mk_element None [] 1 v) -> 0 <= last_var state ->
  pip_gather_atoms v (sampler_clause state, last_atom state) = Some (clause, last) ->
  pip_sample_name_set (sampler_samples state) (last_var state) (vid v) = Some s ->
  cdf_sample_var pip_distributions random fuel v (named_state clause last s state) = Some (true, state') ->
  sample_lineage_group pip_distributions random fuel true r (state, set) = Some (state', set) /\
  last_var state' = last_var state + 2 /\
  (forall i, pip_sample_name_get (sampler_samples state') i =
     if decide (i = last_var state) then Some (vid v) else pip_sample_name_get (sampler_samples state) i) /\
  (Z.of_nat (length (mappings (sampler_samples state))) = last_var state + 2 ->
   (forall name, is_Some (pip_sample_name_set (sampler_samples state') (last_var state + 1) name) /\
      pip_sample_name_set (sampler_samples state') (last_var state') name = None) /\
   forall fuel' enable r' set', sample_lineage_group pip_distributions random fuel' enable r' (state', set') = None).
Proof.
  intros Hr H0 Hg Hs Hc. pose proof (single_group _ _ fuel r v state set clause last s state' Hr Hg Hs Hc) as Hrun.
  apply cdf_sample_var_last in Hc as [Hl [Hlen Hnames]%changes_names].
  pose proof (name_set_spec (sampler_samples state) (last_var state) (vid v)) as Hn. rewrite Hs in Hn.
  destruct Hn as (_ & Hlen' & Hget). cbn in Hl, Hlen, Hnames. rewrite Hlen' in Hlen.
  assert (Hlast : last_var state' = last_var state + 2) by lia. split_and!; [exact Hrun|exact Hlast| |].
  - intros i. by rewrite Hnames, Hget.
  - intros Htwo. split.
    + intros name. split.
      * pose proof (name_set_spec (sampler_samples state') (last_var state + 1) name) as Hn.
        destruct (pip_sample_name_set (sampler_samples state') (last_var state + 1) name); [by eexists|lia].
      * pose proof (name_set_spec (sampler_samples state') (last_var state') name) as Hn.
        destruct (pip_sample_name_set (sampler_samples state') (last_var state') name); [lia|done].
    + intros fuel' enable r' set'. apply group_overrun. lia.
Qed.

(** [x > 1/2] and [y > 1/2]: the clause can be sampled by rejection, and the first group
    through the distribution function, but then the second group cannot. *)
Definition ex_two : option (pip_sampler_state * pip_cset (pip_var ext)) :=
  ax ← above_half var_x;
  ay ← above_half var_y;
  set ← pip_clause_to_cset true [ax; ay];
  Some (mk_sampler (pip_sample_set_create (fun _ => vid var_x) 0 1 3 (pip_cset_size set)).1 0 [ax; ay] 0 0 0 0 fl_one 1,
    pip_cset_lock set).

Lemma independent_groups_overrun_witness :
  exists state set state', ex_two = Some (state, set) /\
    sample_lineage_group (table zero zero zero) sampler_random 100 true 1 (state, set) = Some (state', set) /\
    last_var state' = last_var state + 2 /\
    (forall i, pip_sample_name_get (sampler_samples state') i =
       if decide (i = last_var state) then Some (vid var_y) else pip_sample_name_get (sampler_samples state) i) /\
    (forall name, is_Some (pip_sample_name_set (sampler_samples state') (last_var state + 1) name) /\
       pip_sample_name_set (sampler_samples state') (last_var state') name = None) /\
    forall fuel' enable r' set', sample_lineage_group (table zero zero zero) sampler_random fuel' enable r' (state', set') = None.
Proof.
  destruct ex_two as [[state set]|] eqn:He; [|vm_compute in He; discriminate].
  destruct (pip_gather_atoms var_y (sampler_clause state, last_atom state)) as [[clause last]|] eqn:Hg;
    [|vm_compute in He; injection He as <- <-; vm_compute in Hg; discriminate].
  destruct (pip_sample_name_set (sampler_samples state) (last_var state) (vid var_y)) as [s|] eqn:Hs;
    [|vm_compute in He; injection He as <- <-; vm_compute in Hs; discriminate].
  destruct (cdf_sample_var (table zero zero zero) sampler_random 100 var_y (named_state clause last s state))
    as [[[] state']|] eqn:Hc.
  2-3: exfalso; vm_compute in He; injection He as <- <-; vm_compute in Hg; injection Hg as <- <-;
    vm_compute in Hs; injection Hs as <-; vm_compute in Hc; discriminate.
  assert (Hset : els set !! 1%nat = Some (mk_element None [] 1 var_y) /\ last_var state = 0 /\
      length (mappings (sampler_samples state)) = 2%nat)
    by (vm_compute in He; injection He as <- <-; split_and!; reflexivity).
  destruct Hset as (Hr & Hl & Hlen).
  destruct (independent_groups_overrun (table zero zero zero) sampler_random 100 1 last var_y state state' set clause s
    Hr ltac:(lia) Hg Hs Hc) as (H1 & H2 & H3 & H4).
  destruct (H4 ltac:(rewrite Hlen, Hl; reflexivity)) as [H5 H6].
  exists state, set, state'. split_and!; try done.
Defined.

Example independent_groups_runs :
  let run enable clause := c ← mapM id clause;
    (fun r => bool_decide (is_Some r)) <$> pip_sample_by_clause (table zero zero zero) sampler_random 100 enable true (fun _ => vid var_x) 0 c 3 in
  run true [above_half var_x] = Some true /\ run true [above_half var_y] = Some true /\
  run false [above_half var_x; above_half var_y] = Some true /\
  run true [above_half var_x; above_half var_y] = None.
Proof. vm_compute. done. Qed.
