(* ===== verification/Findings.v ===== *)
(** * Findings: inputs on which the code departs from what it means to compute

    Each theorem runs the model on a concrete group outside the hypotheses of the
    correctness theorems and shows what the code returns there, next to the
    probability it should have returned. *)
From Stdlib Require Import Strings.String SpecFloat.
From S2P Require Import Prelude.
From S2P Require Import Bitset.
From S2P Require Import Worlds.
From S2P Require Import LocalCond.
From S2P Require Import Lineage.
From S2P Require Import Choice.
From S2P Require Import Condition.
From S2P Require Import WsTreeCorrect.
From S2P Require Import HashTable.
From S2P Require Import Split.
From S2P Require Import Completion.
From S2P Require Import Store.
From S2P Require Import Group.
From S2P Require Import Argmax.
From S2P Require Import Sort.
From S2P Require Import DTree.
From S2P Require Import DTreeCond.
From S2P Require Import DTreeExact.
From S2P Require Import Bounds.
From S2P Require Import DTreeApprox.
From S2P Require Import Appro.
From S2P Require Import Checks.
From S2P Require Import Signature.
From S2P Require Import Sprout.
From S2P Require Import SproutAgg.
From S2P Require Import SproutScan.
From S2P Require Import SproutProb.
From S2P Require Import SigLists.
From S2P Require Import SproutGroup.

(** Canonical rationals are compared by their fractions, so that results computed
    in different ways can be compared by evaluation. *)
Lemma this_some (o : option Qc) (p : Qc) : (this <$> o) = Some (this p) -> o = Some p.
Proof.
  destruct o as [q|]; simpl; [|done]. intros [= H]. f_equal. apply Qc_is_canon. by rewrite H.
Qed.

Lemma this_eq (p q : Qc) : this p = this q -> p = q.
Proof. intros H. apply Qc_is_canon. by rewrite H. Qed.

(** ** Repeated triples *)

(** Two variables with three values; the first and the last row repeat a triple
    three times, so that [advance] leaves two reserved maps in their clauses. *)
Definition rep_table : wtable :=
  [(5, [(1, half_p); (2, third_p); (3, Q2Qc (1 # 6))]);
   (6, [(1, half_p); (2, third_p); (3, Q2Qc (1 # 6))])]%Z.
Definition rep_rows : list row :=
  [[(5, 1, half_p); (5, 1, half_p); (5, 1, half_p)];
   [(5, 2, third_p); (6, 1, half_p); (6, 1, half_p)];
   [(6, 2, third_p); (6, 2, third_p); (6, 2, third_p)]]%Z.

(** C37: clauses with two reserved maps.  [find_wsds_with_var_rng] drops only the
    first map that matches, so a clause keeps its second reserved map when the
    reserved variable is eliminated: [conf] returns 2/3 on this group, whose
    probability is 5/6. *)
Theorem conf_two_reserved_maps :
  table_ok rep_table /\ forallb (forallb (fun t => lit_inb rep_table t.1.1 t.1.2 t.2)) rep_rows = true /\
  (fst <$> conf_group 3 ex_junk rep_rows ex_globals) = Some (Q2Qc (2 # 3)) /\
  Pr rep_table (sat_dnf (row_clause <$> rep_rows)) = Q2Qc (5 # 6).
Proof.
  split_and!.
  - by apply table_okb_sound.
  - by vm_compute.
  - apply this_some. by vm_compute.
  - apply this_eq. by vm_compute.
Qed.

(** ** The table of distinct variables *)

(** Variables that agree in their low ten bits, all in one bucket. *)
Definition crowded_rows (n : nat) : list row :=
  (fun k => [(5 + 1024 * Z.of_nat k, 1, half_p)]%Z) <$> seq 0 n.

(** New buckets after the table has grown.  [update_buckets] adds the multiples
    of the block size to the index of the bucket, which must be the index modulo
    the initial size, but [search] passes the index in the grown table.  After
    thirty-one variables of one class have doubled the table, a variable whose
    bucket is in the lower half is accepted and one in the upper half is stored past
    the end of the table, an error of the model. *)
Theorem crowded_bucket_overrun :
  is_Some (accum_rows 1 [DInt32 0] (crowded_rows 31) ex_globals) /\
  is_Some (accum_rows 1 [DInt32 0] (crowded_rows 31 ++ [[(6, 1, half_p)]])%Z ex_globals) /\
  accum_rows 1 [DInt32 0] (crowded_rows 31 ++ [[(1031, 1, half_p)]])%Z ex_globals = None.
Proof.
  split_and!.
  - apply is_Some_alt. by vm_compute.
  - apply is_Some_alt. by vm_compute.
  - by vm_compute.
Qed.

(** ** Subsumption on variables only *)

Definition two_values : dist := [(1, half_p); (2, half_p)]%Z.
Definition sub_table : wtable := [(5, two_values); (6, two_values); (7, two_values)]%Z.
(** The second and the third clause agree with the first on a variable, with other
    values. *)
Definition sub_rows : list row :=
  [[(5, 1, half_p); (6, 1, half_p)]; [(5, 2, half_p); (7, 1, half_p)];
   [(6, 2, half_p); (7, 2, half_p)]]%Z.

Definition appro_value (o : option (appro_globals + prob * appro_globals)) : option Qc :=
  match o with Some (inr (p, _)) => Some p | _ => None end.

(** C38: subsumption in the approximate computation.
    [bitset_union_removing_subsumption] drops a clause whose variables include the
    variables of another one, whatever their values; on this group, outside the
    one-value-per-variable use, [conf_appro_final_ge] with error 0 returns
    1/2 where [conf] returns the probability, 3/4. *)
Theorem appro_subsumption_by_variables :
  table_ok sub_table /\ Forall (row_ok sub_table 2) sub_rows /\
  appro_value (appro_group 2 ex_junk "R"%string 0%Qc sub_rows ex_appro) = Some (Q2Qc (1 # 2)) /\
  (fst <$> conf_group 2 ex_junk sub_rows ex_globals) = Some (Q2Qc (3 # 4)) /\
  Pr sub_table (sat_dnf (row_clause <$> sub_rows)) = Q2Qc (3 # 4).
Proof.
  split_and!.
  - by apply table_okb_sound.
  - by apply rows_okb_sound.
  - apply this_some. by vm_compute.
  - apply this_some. by vm_compute.
  - apply this_eq. by vm_compute.
Qed.

(** ** The initial maximum *)

Definition zero_agg (s : AggStrategy) : AggState := mk_agg s argmax_zero argmax_zero.

(** Argmax of negative keys.  The running maximum starts as the zero of
    [palloc0] and no row is treated as the first one, so a group whose keys are all
    negative returns the initial transition value, none of its rows. *)
Theorem argmax_all_negative (Datum : Type) (old : Datum) (s : AggStrategy) (rows : list (Datum * Z)) :
  (forall d x, (d, x) ∈ rows -> (x < 0)%Z) ->
  fst (argmax_run (argmax_varchar_int4_accum Datum) (zero_agg s) old rows) = old.
Proof.
  intros Hneg. pose proof (argmax_int_run_spec int32MAX set_int32MAX (zero_agg s) old rows) as H.
  change (argmax_int int32MAX set_int32MAX) with (argmax_varchar_int4_accum Datum) in H.
  destruct (argmax_run _ _ _ _) as [res a']. simpl. destruct H as [_ Hs Hv].
  destruct Hv as [(-> & _ & _)|(l1 & l2 & Hr & _)]; [done|]. exfalso.
  assert (int32MAX (get_argmax_state a') < 0)%Z as Hlt.
  { apply (Hneg res). rewrite Hr. apply elem_of_app. right. apply list_elem_of_here. }
  assert (int32MAX (get_argmax_state (zero_agg s)) = 0)%Z as H0 by (by destruct s).
  rewrite H0 in Hs. unfold int_cmp in Hs.
  destruct (Z.gtb_spec 0 (int32MAX (get_argmax_state a'))); lia.
Qed.

Lemma argmax_all_negative_witness :
  fst (argmax_run (argmax_varchar_int4_accum bool) (zero_agg AGG_HASHED) false [(true, -1); (true, -2)]%Z) = false.
Proof.
  apply argmax_all_negative. intros d x Hx.
  repeat (apply elem_of_cons in Hx as [Hx|Hx]; [by injection Hx as _ ->|]). by apply elem_of_nil in Hx.
Defined.

(** ** Signatures and aggregations of hierarchical queries *)

Definition four : list node := [rel "R"; rel "S"; rel "T"; rel "U"]%string.
Definition three_columns (n : node) : nat := 3.

(** [conf] on a group of rows, with the signature of the query. *)
Definition sprout_conf (e : expr) (frm : list node) (rows : list arow) : option Qc :=
  l ← geneSGList (fun _ => []) (Some e) [] frm;
  g ← ProcessSignature three_columns sp_pkeys frm l;
  a ← for_list rows (fun r => accumulate (length r) (var_args r))
    (mk_sprout false g AGG_SORTED (zero_state, mk_lineage [] 0) (zero_state, mk_lineage [] 0));
  fst <$> conf_final three_columns sp_pkeys a.

(** [R(a), S(a)] joined on [a], [T(b), U(b)] joined on [b]: two combinations of T and U
    with one of R and S. *)
Definition apart_query : expr := (conj (eqs ["R"; "a"] ["S"; "a"]) (eqs ["T"; "b"] ["U"; "b"]))%string.
Definition half_row (l : list Z) : arow := (fun x => (x, sp_half)) <$> l.
Definition apart_rows : list arow := [half_row [1; 2; 5; 6]; half_row [3; 4; 5; 6]]%Z.
Definition half_world (n : nat) : wtable :=
  (fun k => (Z.of_nat (S k), [(1%Z, sp_half); (0%Z, sp_half)])) <$> seq 0 n.

(** The stages of [conf] on the two rows: attribute lists, signature, the accumulated
    rows, what [schedule] leaves, and the scan up to the first row. *)
Definition apart_lists : list sgList := default [] (geneSGList (fun _ => []) (Some apart_query) [] four).
Definition apart_sig : signature := default sp_sig (ProcessSignature three_columns sp_pkeys four apart_lists).
Definition apart_start : sproutAgg :=
  mk_sprout false apart_sig AGG_SORTED (zero_state, mk_lineage [] 0) (zero_state, mk_lineage [] 0).
Definition apart_agg : sproutAgg :=
  default apart_start (for_list apart_rows (fun r => accumulate 4 (var_args r)) apart_start).
Definition apart_plan : sigNode * lineageTable :=
  default (sigTreeRoot apart_sig, mk_lineage [] 0) (schedule (sigTreeRoot apart_sig) (getStateAndLineage apart_agg).2).
Definition apart_scan : stateData :=
  set_vars (set_counter (getStateAndLineage apart_agg).1 0) (leafDescendentCount apart_plan.1) (fillLeafNode apart_plan.1).
Definition apart_tuple (k : nat) : list varprob := take 1 (drop k (lt_tuples apart_plan.2)).
Definition apart_first : stateData :=
  default zero_state (scan_tuples (pos <$> fillLeafNode apart_plan.1) (apart_tuple 0) apart_scan).
Definition apart_R : sigInfo := default zero_info (sd_vars apart_first !! 2).
(** The same state with one more entry in the table of the column of R. *)
Definition apart_refilled : stateData :=
  set_vars apart_first 4 (<[2 := set_pt apart_R (Some [(5%Z, sp_half)])]> (sd_vars apart_first)).

(** C39: joins that are not connected.  [isHQ] accepts the query, the signature is built,
    both rows are accumulated and [schedule] aggregates two columns.  But [buildSigTree]
    has read the first of the two maximal lists only, so T and U are starred leaves of
    the root in front of the node that joins R and S.  The table of the aggregated column
    of R has one entry, for the one tuple of R; the scan consumes it at the first row and
    needs it again at the second, when the column of T changes: the access to the empty
    table is what makes [conf_final] fail, where the probability is 7/64. *)
Theorem disconnected_joins_fail :
  geneSGList (fun _ => []) (Some apart_query) [] four = Some apart_lists /\ isHQ apart_lists = Some true /\
  ProcessSignature three_columns sp_pkeys four apart_lists = Some apart_sig /\
  for_list apart_rows (fun r => accumulate 4 (var_args r)) apart_start = Some apart_agg /\
  schedule (sigTreeRoot apart_sig) (getStateAndLineage apart_agg).2 = Some apart_plan /\
  map sg (fillLeafNode apart_plan.1) =
    map (fun f => Some (mk_sg f.1 (Some (rel f.2))))
      [(["T"; "fake"], "T"); (["U"; "fake"], "U"); (["R"; "a"], "R"); (["S"; "a"], "S")]%string /\
  scan_tuples (pos <$> fillLeafNode apart_plan.1) (apart_tuple 0) apart_scan = Some apart_first /\
  sd_vars apart_first !! 2 = Some apart_R /\ type apart_R = AGGREGATED /\ pt apart_R = Some [] /\
  lookup apart_R 5 sp_half = None /\
  scan_tuples (pos <$> fillLeafNode apart_plan.1) (apart_tuple 1) apart_first = None /\
  is_Some (scan_tuples (pos <$> fillLeafNode apart_plan.1) (apart_tuple 1) apart_refilled) /\
  conf_final three_columns sp_pkeys apart_agg = None /\
  Pr (half_world 6) (sat_rows sp_val apart_rows) = Q2Qc (7 # 64).
Proof.
  split_and!; try (vm_compute; reflexivity); [|apply this_eq; by vm_compute].
  vm_compute. by eexists.
Qed.

(** R, S, T and U joined on [x], R and S also on [y], T and U also on [z]: the
    signature is (R* S* )* (T* U* )*. *)
Definition pairs_query : expr :=
  (conj (eqs ["R"; "x"] ["S"; "x"])
    (conj (eqs ["S"; "x"] ["T"; "x"])
      (conj (eqs ["T"; "x"] ["U"; "x"]) (conj (eqs ["R"; "y"] ["S"; "y"]) (eqs ["T"; "z"] ["U"; "z"])))))%string.

(** Aggregating a subtree whose first column is itself aggregated.  For the first
    tuple [complexAggregation] looks the probabilities up twice, and each lookup
    consumes the head of the table: on one row the second lookup reads an empty table,
    where the probability is 1/16. *)
Theorem aggregated_lookup_twice :
  sprout_conf pairs_query four [half_row [1; 2; 3; 4]%Z] = None /\
  Pr (half_world 4) (sat_rows sp_val [half_row [1; 2; 3; 4]%Z]) = Q2Qc (1 # 16).
Proof. split_and!; [by vm_compute|apply this_eq; by vm_compute]. Qed.
