(* ===== verification/ParseTree.v ===== *)
(** * ParseTree: raw parse trees (nodes/parsenodes.h, with the fields MayBMS adds)

    The trees that the rewriter reads and changes, the outcome of a fallible
    operation on them, and the constructors of nodes of rewrite_utils.c.  A function
    call carries the address of its C object, since the rewriter keeps pointers to
    calls inside a target list and fills in their arguments later. *)
From Stdlib Require Import Strings.String Strings.Ascii.
From stdpp Require Import strings.
From S2P Require Import Prelude.
Open Scope nat_scope.
#[local] Set Warnings "-register-all".

(** ** Outcomes *)

(** A value; [elog(ERROR)]; undefined behaviour (a null pointer is followed); not
    enough fuel. *)
Inductive outcome (A : Type) :=
  | Ok (a : A)
  | Elog (msg : string)
  | Undefined
  | NoFuel.
Arguments Ok {A} a.
Arguments Elog {A} msg.
Arguments Undefined {A}.
Arguments NoFuel {A}.

#[export] Instance outcome_ret : MRet outcome := fun _ a => Ok a.
#[export] Instance outcome_bind : MBind outcome := fun A B f m =>
  match m with
  | Ok a => f a
  | Elog msg => Elog msg
  | Undefined => Undefined
  | NoFuel => NoFuel
  end.

Definition deref {A} (o : option A) : outcome A :=
  match o with Some a => Ok a | None => Undefined end.

Lemma outcome_bind_Ok {A B} (f : A -> outcome B) (m : outcome A) (b : B) :
  m ≫= f = Ok b <-> exists a, m = Ok a /\ f a = Ok b.
Proof.
  split; [destruct m; [by eauto|done..]|]. by intros (a & -> & <-).
Qed.

Section OutcomeLists.
Context {A B : Type}.

(** A loop that returns true at the first element that passes the test. *)
Section Any.
Context (test : A -> outcome bool).
Fixpoint any_of (l : list A) : outcome bool :=
  match l with
  | [] => Ok false
  | a :: l => b ← test a; if (b : bool) then Ok true else any_of l
  end.

(** A loop that returns false at the first element that fails it. *)
Fixpoint all_of (l : list A) : outcome bool :=
  match l with
  | [] => Ok true
  | a :: l => b ← test a; if (b : bool) then all_of l else Ok false
  end.
End Any.

Section Map.
Context (f : A -> outcome B).
Fixpoint map_outcome (l : list A) : outcome (list B) :=
  match l with
  | [] => Ok []
  | a :: l => b ← f a; l ← map_outcome l; Ok (b :: l)
  end.

Definition option_outcome (o : option A) : outcome (option B) :=
  match o with None => Ok None | Some a => b ← f a; Ok (Some b) end.
End Map.

Lemma map_outcome_Forall2 (f : A -> outcome B) (l : list A) (k : list B) :
  map_outcome f l = Ok k <-> Forall2 (fun a b => f a = Ok b) l k.
Proof.
  revert k. induction l as [|a l IH]; intros k; simpl.
  - split; [by intros [= <-]|]. by intros ->%Forall2_nil_inv_l.
  - rewrite outcome_bind_Ok. split.
    + intros (b & Hb & (k' & Hk & [= <-])%outcome_bind_Ok). constructor; [done|]. by apply IH.
    + intros (b & k' & Hb & Hk & ->)%Forall2_cons_inv_l. exists b. split; [done|].
      apply IH in Hk as ->. done.
Qed.
End OutcomeLists.

(** C's [a && b] and [a || b] on fallible tests. *)
Definition and_then (a b : outcome bool) : outcome bool :=
  x ← a; if (x : bool) then b else Ok false.
Definition or_else (a b : outcome bool) : outcome bool :=
  x ← a; if (x : bool) then Ok true else b.

(** ** Trees *)

(** A [Value]. *)
Inductive Value :=
  | V_Integer (i : Z)
  | V_Float (str : string)
  | V_String (str : string)
  | V_Null.

Inductive A_Expr_Kind :=
  | AEXPR_OP | AEXPR_AND | AEXPR_OR | AEXPR_NOT | AEXPR_OP_ANY | AEXPR_OP_ALL
  | AEXPR_DISTINCT | AEXPR_NULLIF | AEXPR_OF | AEXPR_IN.

Inductive SubLinkType :=
  | EXISTS_SUBLINK | ALL_SUBLINK | ANY_SUBLINK | ROWCOMPARE_SUBLINK | EXPR_SUBLINK | ARRAY_SUBLINK.

Inductive SetOperation := SETOP_NONE | SETOP_UNION | SETOP_INTERSECT | SETOP_EXCEPT.

#[export] Instance value_eq_dec : EqDecision Value.
Proof. solve_decision. Defined.
#[export] Instance kind_eq_dec : EqDecision A_Expr_Kind.
Proof. solve_decision. Defined.
#[export] Instance sublink_type_eq_dec : EqDecision SubLinkType.
Proof. solve_decision. Defined.
#[export] Instance set_operation_eq_dec : EqDecision SetOperation.
Proof. solve_decision. Defined.

(** The types of a table and of the result of a select ([TABLETYPE_CERTAIN] and so
    on); a node made by [makeNode] has the null character. *)
Definition TABLETYPE_CERTAIN : ascii := "C".
Definition TABLETYPE_INDEPENDENT : ascii := "I".
Definition TABLETYPE_URELATION : ascii := "U".
Definition NUL : ascii := Ascii.zero.

Record RangeVar := mk_rv {
  catalogname : option string;
  schemaname : option string;
  relname : string;
  rv_alias : option string }.

Record IntoClause := mk_into { into_rel : RangeVar; into_tabletype : ascii }.

(** A target: its optional name and its value. *)
Record ResTarget (A : Type) := mk_res { name : option string; val : A }.
Arguments mk_res {A} name val.
Arguments name {A} r : rename.
Arguments val {A} r : rename.

(** A select over nodes [A].  [distinctClause] is absent for NULL and empty for
    [lcons(NIL, NIL)]; the list of a [SortBy] is its expressions; [larg] and [rarg]
    are selects. *)
Record SelectStmt (A : Type) := mk_select {
  distinctClause : option (list A);
  intoClause : option IntoClause;
  targetList : list (ResTarget A);
  fromClause : list A;
  whereClause : option A;
  groupClause : list A;
  havingClause : option A;
  valuesLists : list (list A);
  sortClause : list A;
  limitOffset : option A;
  limitCount : option A;
  possible : bool;
  repairkey : list (ResTarget A);
  weightby : option (ResTarget A);
  tabletype : ascii;
  dimension : nat;
  isFromRepairKey : option (list bool);
  pickingType : ascii;
  prob : option (ResTarget A);
  op : SetOperation;
  all : bool;
  larg : option A;
  rarg : option A }.
Arguments mk_select {A}.
Arguments distinctClause {A} s : rename.
Arguments intoClause {A} s : rename.
Arguments targetList {A} s : rename.
Arguments fromClause {A} s : rename.
Arguments whereClause {A} s : rename.
Arguments groupClause {A} s : rename.
Arguments havingClause {A} s : rename.
Arguments valuesLists {A} s : rename.
Arguments sortClause {A} s : rename.
Arguments limitOffset {A} s : rename.
Arguments limitCount {A} s : rename.
Arguments possible {A} s : rename.
Arguments repairkey {A} s : rename.
Arguments weightby {A} s : rename.
Arguments tabletype {A} s : rename.
Arguments dimension {A} s : rename.
Arguments isFromRepairKey {A} s : rename.
Arguments pickingType {A} s : rename.
Arguments prob {A} s : rename.
Arguments op {A} s : rename.
Arguments all {A} s : rename.
Arguments larg {A} s : rename.
Arguments rarg {A} s : rename.

(** Nodes.  [OtherStmt] is a statement that [requiresRewriting] lists as needing no
    rewriting, [OtherNode] any other node. *)
Inductive node :=
  | N_RangeVar (rv : RangeVar)
  | RangeSubselect (subquery : node) (alias : string)
  | JoinExpr (isNatural : bool) (j_larg j_rarg : node)
  | RangeFunction
  | ColumnRef (fields : list string)
  | A_Const (v : Value) (typename : list string)
  | A_Expr (kind : A_Expr_Kind) (opname : list string) (lexpr rexpr : option node)
  | FuncCall (addr : nat) (funcname : list string) (args : list node) (agg_star : bool)
  | TypeCast (arg : node) (typename : list string)
  | SubLink (subLinkType : SubLinkType) (testexpr : option node) (subselect : node)
  | CaseExpr
  | A_Indirection (arg : node)
  | CoalesceExpr (args : list node)
  | NullTest (arg : node)
  | BooleanTest (arg : node)
  | ArrayExpr
  | RowExpr (args : list node)
  | XmlExpr
  | XmlSerialize (expr : node)
  | CurrentOfExpr
  | Select (s : SelectStmt node)
  | InsertStmt (relation : RangeVar) (cols : list string) (selectStmt : option node)
  | UpdateStmt (relation : RangeVar) (targets : list (ResTarget node)) (where_ : option node)
      (from : list node)
  | DeleteStmt (relation : RangeVar) (usingClause : list node) (where_ : option node)
  | ViewStmt (query : node)
  | CreateStmt (type : ascii)
  | AlterTableStmt (relation : RangeVar)
  | OtherStmt
  | OtherNode.

Abbreviation target := (ResTarget node).
Abbreviation select := (SelectStmt node).

Definition IsA_ColumnRef (n : node) : bool := match n with ColumnRef _ => true | _ => false end.
Definition IsA_A_Const (n : node) : bool := match n with A_Const _ _ => true | _ => false end.
Definition IsA_FuncCall (n : node) : bool := match n with FuncCall _ _ _ _ => true | _ => false end.
Definition IsA_CaseExpr (n : node) : bool := match n with CaseExpr => true | _ => false end.

(** A pointer to a select that is never null and never another node. *)
Definition as_select (o : option node) : outcome select :=
  match o with Some (Select s) => Ok s | _ => Undefined end.

(** ** Assignments to the fields of a select *)

Definition set_distinctClause (x : option (list node)) (s : select) : select :=
  mk_select x (intoClause s) (targetList s) (fromClause s) (whereClause s) (groupClause s)
    (havingClause s) (valuesLists s) (sortClause s) (limitOffset s) (limitCount s) (possible
    s) (repairkey s) (weightby s) (tabletype s) (dimension s) (isFromRepairKey s)
    (pickingType s) (prob s) (op s) (all s) (larg s) (rarg s).
Definition set_intoClause (x : option IntoClause) (s : select) : select :=
  mk_select (distinctClause s) x (targetList s) (fromClause s) (whereClause s) (groupClause
    s) (havingClause s) (valuesLists s) (sortClause s) (limitOffset s) (limitCount s)
    (possible s) (repairkey s) (weightby s) (tabletype s) (dimension s) (isFromRepairKey s)
    (pickingType s) (prob s) (op s) (all s) (larg s) (rarg s).
Definition set_targetList (x : list target) (s : select) : select :=
  mk_select (distinctClause s) (intoClause s) x (fromClause s) (whereClause s) (groupClause
    s) (havingClause s) (valuesLists s) (sortClause s) (limitOffset s) (limitCount s)
    (possible s) (repairkey s) (weightby s) (tabletype s) (dimension s) (isFromRepairKey s)
    (pickingType s) (prob s) (op s) (all s) (larg s) (rarg s).
Definition set_fromClause (x : list node) (s : select) : select :=
  mk_select (distinctClause s) (intoClause s) (targetList s) x (whereClause s) (groupClause
    s) (havingClause s) (valuesLists s) (sortClause s) (limitOffset s) (limitCount s)
    (possible s) (repairkey s) (weightby s) (tabletype s) (dimension s) (isFromRepairKey s)
    (pickingType s) (prob s) (op s) (all s) (larg s) (rarg s).
Definition set_whereClause (x : option node) (s : select) : select :=
  mk_select (distinctClause s) (intoClause s) (targetList s) (fromClause s) x (groupClause
    s) (havingClause s) (valuesLists s) (sortClause s) (limitOffset s) (limitCount s)
    (possible s) (repairkey s) (weightby s) (tabletype s) (dimension s) (isFromRepairKey s)
    (pickingType s) (prob s) (op s) (all s) (larg s) (rarg s).
Definition set_groupClause (x : list node) (s : select) : select :=
  mk_select (distinctClause s) (intoClause s) (targetList s) (fromClause s) (whereClause s)
    x (havingClause s) (valuesLists s) (sortClause s) (limitOffset s) (limitCount s)
    (possible s) (repairkey s) (weightby s) (tabletype s) (dimension s) (isFromRepairKey s)
    (pickingType s) (prob s) (op s) (all s) (larg s) (rarg s).
Definition set_valuesLists (x : list (list node)) (s : select) : select :=
  mk_select (distinctClause s) (intoClause s) (targetList s) (fromClause s) (whereClause s)
    (groupClause s) (havingClause s) x (sortClause s) (limitOffset s) (limitCount s)
    (possible s) (repairkey s) (weightby s) (tabletype s) (dimension s) (isFromRepairKey s)
    (pickingType s) (prob s) (op s) (all s) (larg s) (rarg s).
Definition set_possible (x : bool) (s : select) : select :=
  mk_select (distinctClause s) (intoClause s) (targetList s) (fromClause s) (whereClause s)
    (groupClause s) (havingClause s) (valuesLists s) (sortClause s) (limitOffset s)
    (limitCount s) x (repairkey s) (weightby s) (tabletype s) (dimension s) (isFromRepairKey
    s) (pickingType s) (prob s) (op s) (all s) (larg s) (rarg s).
Definition set_sortClause (x : list node) (s : select) : select :=
  mk_select (distinctClause s) (intoClause s) (targetList s) (fromClause s) (whereClause s)
    (groupClause s) (havingClause s) (valuesLists s) x (limitOffset s) (limitCount s)
    (possible s) (repairkey s) (weightby s) (tabletype s) (dimension s) (isFromRepairKey s)
    (pickingType s) (prob s) (op s) (all s) (larg s) (rarg s).
Definition set_repairkey (x : list target) (s : select) : select :=
  mk_select (distinctClause s) (intoClause s) (targetList s) (fromClause s) (whereClause s)
    (groupClause s) (havingClause s) (valuesLists s) (sortClause s) (limitOffset s)
    (limitCount s) (possible s) x (weightby s) (tabletype s) (dimension s) (isFromRepairKey
    s) (pickingType s) (prob s) (op s) (all s) (larg s) (rarg s).
Definition set_tabletype (x : ascii) (s : select) : select :=
  mk_select (distinctClause s) (intoClause s) (targetList s) (fromClause s) (whereClause s)
    (groupClause s) (havingClause s) (valuesLists s) (sortClause s) (limitOffset s)
    (limitCount s) (possible s) (repairkey s) (weightby s) x (dimension s) (isFromRepairKey
    s) (pickingType s) (prob s) (op s) (all s) (larg s) (rarg s).
Definition set_dimension (x : nat) (s : select) : select :=
  mk_select (distinctClause s) (intoClause s) (targetList s) (fromClause s) (whereClause s)
    (groupClause s) (havingClause s) (valuesLists s) (sortClause s) (limitOffset s)
    (limitCount s) (possible s) (repairkey s) (weightby s) (tabletype s) x (isFromRepairKey
    s) (pickingType s) (prob s) (op s) (all s) (larg s) (rarg s).
Definition set_isFromRepairKey (x : option (list bool)) (s : select) : select :=
  mk_select (distinctClause s) (intoClause s) (targetList s) (fromClause s) (whereClause s)
    (groupClause s) (havingClause s) (valuesLists s) (sortClause s) (limitOffset s)
    (limitCount s) (possible s) (repairkey s) (weightby s) (tabletype s) (dimension s) x
    (pickingType s) (prob s) (op s) (all s) (larg s) (rarg s).
Definition set_pickingType (x : ascii) (s : select) : select :=
  mk_select (distinctClause s) (intoClause s) (targetList s) (fromClause s) (whereClause s)
    (groupClause s) (havingClause s) (valuesLists s) (sortClause s) (limitOffset s)
    (limitCount s) (possible s) (repairkey s) (weightby s) (tabletype s) (dimension s)
    (isFromRepairKey s) x (prob s) (op s) (all s) (larg s) (rarg s).
Definition set_weightby (x : option target) (s : select) : select :=
  mk_select (distinctClause s) (intoClause s) (targetList s) (fromClause s) (whereClause s)
    (groupClause s) (havingClause s) (valuesLists s) (sortClause s) (limitOffset s)
    (limitCount s) (possible s) (repairkey s) x (tabletype s) (dimension s) (isFromRepairKey
    s) (pickingType s) (prob s) (op s) (all s) (larg s) (rarg s).
Definition set_prob (x : option target) (s : select) : select :=
  mk_select (distinctClause s) (intoClause s) (targetList s) (fromClause s) (whereClause s)
    (groupClause s) (havingClause s) (valuesLists s) (sortClause s) (limitOffset s)
    (limitCount s) (possible s) (repairkey s) (weightby s) (tabletype s) (dimension s)
    (isFromRepairKey s) (pickingType s) x (op s) (all s) (larg s) (rarg s).
Definition set_larg (x : option node) (s : select) : select :=
  mk_select (distinctClause s) (intoClause s) (targetList s) (fromClause s) (whereClause s)
    (groupClause s) (havingClause s) (valuesLists s) (sortClause s) (limitOffset s)
    (limitCount s) (possible s) (repairkey s) (weightby s) (tabletype s) (dimension s)
    (isFromRepairKey s) (pickingType s) (prob s) (op s) (all s) x (rarg s).
Definition set_rarg (x : option node) (s : select) : select :=
  mk_select (distinctClause s) (intoClause s) (targetList s) (fromClause s) (whereClause s)
    (groupClause s) (havingClause s) (valuesLists s) (sortClause s) (limitOffset s)
    (limitCount s) (possible s) (repairkey s) (weightby s) (tabletype s) (dimension s)
    (isFromRepairKey s) (pickingType s) (prob s) (op s) (all s) (larg s) x.

(** [makeNode(SelectStmt)]. *)
Definition new_select : select :=
  mk_select None None [] [] None [] None [] [] None None false [] None NUL 0 None NUL None
    SETOP_NONE false None None.

(** ** Copies *)

(** [copyObject].  The copy of a select has none of the fields of MayBMS, which
    [_copySelectStmt] does not list. *)
Definition copy_target (copy : node -> node) (r : target) : target := mk_res (name r) (copy (val r)).

Definition copy_select (copy : node -> node) (s : select) : select :=
  mk_select (map copy <$> distinctClause s) (intoClause s) (map (copy_target copy) (targetList s))
    (map copy (fromClause s)) (copy <$> whereClause s) (map copy (groupClause s))
    (copy <$> havingClause s) (map (map copy) (valuesLists s)) (map copy (sortClause s))
    (copy <$> limitOffset s) (copy <$> limitCount s) false [] None NUL 0 None NUL None
    (op s) (all s) (copy <$> larg s) (copy <$> rarg s).

Fixpoint copyObject (n : node) : node :=
  match n with
  | RangeSubselect q alias => RangeSubselect (copyObject q) alias
  | JoinExpr natural l r => JoinExpr natural (copyObject l) (copyObject r)
  | A_Expr kind opname l r => A_Expr kind opname (copyObject <$> l) (copyObject <$> r)
  | FuncCall addr funcname args star => FuncCall addr funcname (map copyObject args) star
  | TypeCast arg typename => TypeCast (copyObject arg) typename
  | SubLink t test q => SubLink t (copyObject <$> test) (copyObject q)
  | A_Indirection arg => A_Indirection (copyObject arg)
  | CoalesceExpr args => CoalesceExpr (map copyObject args)
  | NullTest arg => NullTest (copyObject arg)
  | BooleanTest arg => BooleanTest (copyObject arg)
  | RowExpr args => RowExpr (map copyObject args)
  | XmlSerialize expr => XmlSerialize (copyObject expr)
  | Select s => Select (copy_select copyObject s)
  | InsertStmt rel cols q => InsertStmt rel cols (copyObject <$> q)
  | UpdateStmt rel ts w from =>
      UpdateStmt rel (map (copy_target copyObject) ts) (copyObject <$> w) (map copyObject from)
  | DeleteStmt rel us w => DeleteStmt rel (map copyObject us) (copyObject <$> w)
  | ViewStmt q => ViewStmt (copyObject q)
  | N_RangeVar _ | RangeFunction | ColumnRef _ | A_Const _ _ | CaseExpr | ArrayExpr | XmlExpr
  | CurrentOfExpr | CreateStmt _ | AlterTableStmt _ | OtherStmt | OtherNode => n
  end.

(** ** Function calls inside a target list *)

(** [strcmp(strVal(linitial(func->funcname)), name) == 0] *)
Definition is_func (funcname : list string) (nm : string) : bool :=
  match funcname with f :: _ => bool_decide (f = nm) | [] => false end.

Section First.
Context {A B : Type} (f : A -> option B).
Fixpoint first_some (l : list A) : option B :=
  match l with
  | [] => None
  | a :: l => match f a with Some b => Some b | None => first_some l end
  end.
End First.

(** [lookup_func_in_node]: the first call of the function, in preorder. *)
Fixpoint lookup_func_in_node (nm : string) (n : node) : option node :=
  match n with
  | FuncCall _ funcname args _ =>
      if is_func funcname nm then Some n else first_some (lookup_func_in_node nm) args
  | A_Expr _ _ lexpr rexpr =>
      match (match lexpr with Some e => lookup_func_in_node nm e | None => None end) with
      | Some f => Some f
      | None => match rexpr with Some e => lookup_func_in_node nm e | None => None end
      end
  | TypeCast arg _ => lookup_func_in_node nm arg
  | _ => None
  end.

Definition lookup_func_in_list (l : list node) (nm : string) : option node :=
  first_some (lookup_func_in_node nm) l.

Definition lookup_func_in_targets (l : list target) (nm : string) : option node :=
  lookup_func_in_list (val <$> l) nm.

(** [lookup_res_by_func]: the position of the first target with a call. *)
Definition lookup_res_by_func (l : list target) (nm : string) : option nat :=
  fst <$> list_find (fun r => is_Some (lookup_func_in_node nm (val r))) l.

(** [count_func_in_node]; a cast assigns its count. *)
Fixpoint count_func_in_node (nm : string) (n : node) : nat :=
  match n with
  | FuncCall _ funcname args _ =>
      (if is_func funcname nm then 1 else 0) + sum_list_with (count_func_in_node nm) args
  | A_Expr _ _ lexpr rexpr =>
      match lexpr with Some e => count_func_in_node nm e | None => 0 end +
      match rexpr with Some e => count_func_in_node nm e | None => 0 end
  | TypeCast arg _ => count_func_in_node nm arg
  | _ => 0
  end.

Definition count_func_in_list (l : list node) (nm : string) : nat :=
  sum_list_with (count_func_in_node nm) l.

(** The pointer of a call, and a change of the object behind it. *)
Definition addr_of (n : node) : option nat :=
  match n with FuncCall addr _ _ _ => Some addr | _ => None end.

Fixpoint update_call (a : nat) (f : node -> node) (n : node) : node :=
  match n with
  | FuncCall addr funcname args star =>
      if addr =? a then f n else FuncCall addr funcname (map (update_call a f) args) star
  | A_Expr kind opname l r => A_Expr kind opname (update_call a f <$> l) (update_call a f <$> r)
  | TypeCast arg typename => TypeCast (update_call a f arg) typename
  | _ => n
  end.

Definition update_targets (a : nat) (f : node -> node) (l : list target) : list target :=
  map (fun r => mk_res (name r) (update_call a f (val r))) l.

(** An address that no call of the list has: [makeNode(FuncCall)]. *)
Fixpoint max_addr (n : node) : nat :=
  match n with
  | FuncCall addr _ args _ => addr `max` foldr (fun n m => max_addr n `max` m) 0 args
  | A_Expr _ _ l r =>
      match l with Some e => max_addr e | None => 0 end `max`
      match r with Some e => max_addr e | None => 0 end
  | TypeCast arg _ => max_addr arg
  | _ => 0
  end.

Definition fresh_addr (l : list target) : nat :=
  S (foldr (fun r m => max_addr (val r) `max` m) 0 l).

(** ** Induction over expressions *)

Section ExprInd.
Context (P : node -> Prop).
Context (H_expr : forall kind opname l r,
  (forall e, l = Some e -> P e) -> (forall e, r = Some e -> P e) -> P (A_Expr kind opname l r)).
Context (H_cast : forall arg typename, P arg -> P (TypeCast arg typename)).
Context (H_call : forall addr funcname args star, Forall P args -> P (FuncCall addr funcname args star)).
Context (H_other : forall n,
  match n with A_Expr _ _ _ _ | TypeCast _ _ | FuncCall _ _ _ _ => False | _ => True end -> P n).

Fixpoint expr_ind (n : node) : P n.
Proof using H_expr H_cast H_call H_other.
  destruct n; try (apply H_other; exact I).
  - apply H_expr; intros e He; [destruct lexpr as [e'|]|destruct rexpr as [e'|]]; try discriminate He;
      injection He as <-; apply expr_ind.
  - apply H_call. induction args as [|a args IH]; constructor; [apply expr_ind | exact IH].
  - apply H_cast, expr_ind.
Defined.
End ExprInd.
