(* ===== verification/RewriteUtils.v ===== *)
(** * RewriteUtils: utilities of the rewriting ([rewrite_utils.c])

    Makers of nodes, the names of condition columns, the triples of a from clause and
    the preparation of a set operation.  The catalog of the server is a parameter. *)
From Stdlib Require Import Strings.String Strings.Ascii.
From stdpp Require Import strings.
From S2P Require Import Prelude.
From S2P Require Import ParseTree.
From S2P Require Signature.
Open Scope string_scope.
Open Scope list_scope.
Open Scope nat_scope.

(** ** Names of condition columns *)

(** The digits of [my_itoa], the last one first. *)
Fixpoint digits (fuel n : nat) : list ascii :=
  match fuel with
  | 0 => []
  | S fuel =>
      ascii_of_nat (n mod 10 + nat_of_ascii "0") :: if n / 10 =? 0 then [] else digits fuel (n / 10)
  end.

Definition my_itoa (n : nat) : string := string_of_list_ascii (rev (digits (S n) n)).

(** [catStrInt]; the buffers hold numbers below 10000 ([itoa_fits]). *)
Definition catStrInt (str : string) (number : nat) : string := String.append str (my_itoa number).

Definition VARNAME := "_v".
Definition DOMAINNAME := "_d".
Definition PROBNAME := "_p".
Definition TUPLECONF := "tconf".
Definition CONF := "conf".
Definition ACONF := "aconf".
Definition ARGMAX := "argmax".
Definition ESUM := "esum".
Definition ECOUNT := "ecount".
Definition TESTNEGATIVE := "test_negative".
Definition TESTFROMZEROTOONE := "test_from_0_to_1".
Definition DOMAINIDSEQ := "domid".
Definition VARIDSEQ := "varid".

(** [isConditionAttribute] of supported.c: the name starts with one of the prefixes. *)
Definition isConditionAttribute (nm : string) : bool :=
  String.prefix VARNAME nm || String.prefix PROBNAME nm || String.prefix DOMAINNAME nm.

(** ** Makers *)

Definition makeResTargetWithColumnRef (resname : option string) (columnname : string) : target :=
  mk_res resname (ColumnRef [columnname]).

Definition makeRangeSubselect (alias : string) (s : select) : node := RangeSubselect (Select s) alias.

Definition makeNextValFuncCall (seqname : string) : node :=
  FuncCall 0 ["nextval"] [A_Const (V_String seqname) []] false.

Definition makeFloatConst (value : string) : node := A_Const (V_Float value) [].

Definition delLastAppendOne {A} (l : list A) (p : A) : list A := take (length l - 1) l ++ [p].

Definition makeColumnRef (attr : string) (number : nat) (rel : list string) : node :=
  ColumnRef (delLastAppendOne rel (catStrInt attr number)).

Definition makeA_Expr (kind : A_Expr_Kind) (opname : list string) (l r : node) : node :=
  A_Expr kind opname (Some l) (Some r).

(** The constant TRUE. *)
Definition true_const : node := A_Const (V_String "t") ["pg_catalog"; "bool"].

Definition fill_where_clause (s : select) : select :=
  match whereClause s with
  | None => set_whereClause (Some true_const) s
  | Some _ => s
  end.

Definition type_cast_to_int4 (r : target) : target :=
  mk_res (name r) (TypeCast (val r) ["pg_catalog"; "int4"]).

Definition make_ResTarget_with_func_char (resname : option string) (funcname constname : string) : target :=
  mk_res resname (FuncCall 0 [funcname] [A_Const (V_String constname) []] false).

Definition type_cast_weight_by (r : target) : target :=
  mk_res (name r) (TypeCast (val r) ["pg_catalog"; "float4"]).

Definition make_ResTarget_with_float (resname : option string) (constant : string) : target :=
  mk_res resname (A_Const (V_Float constant) []).

Definition make_ResTarget_with_int (resname : option string) (constant : Z) : target :=
  mk_res resname (A_Const (V_Integer constant) []).

(** ** The from clause *)

(** What the rewriter reads of the catalog. *)
Record Relation := mk_rel {
  rd_id : N;
  rd_tabletype : ascii;
  attnames : list string;
  pkeys : list string }.

(** The nodes as signature.c reads them. *)
Definition sig_node (n : node) : Signature.node :=
  match n with
  | N_RangeVar rv =>
      Signature.RangeVar (catalogname rv) (schemaname rv) (relname rv) (rv_alias rv)
  | RangeSubselect _ alias => Signature.RangeSubselect alias
  | _ => Signature.OtherNode
  end.

Fixpoint sig_expr (n : node) : Signature.expr :=
  match n with
  | A_Expr _ opname l r => Signature.A_Expr (head opname) (sig_expr <$> l) (sig_expr <$> r)
  | ColumnRef fields => Signature.ColumnRef fields
  | _ => Signature.OtherExpr
  end.

Definition nodeGetFields (n : node) : list string := Signature.nodeGetFields (sig_node n).

Section Catalog.
Context (catalog : RangeVar -> option Relation).

Definition relation_openrv (rv : RangeVar) : outcome Relation :=
  match catalog rv with Some r => Ok r | None => Elog "relation does not exist" end.

(** The number of triples of a table, and of a subselect from its annotations. *)
Definition relation_triples (r : Relation) : nat :=
  if bool_decide (rd_tabletype r = TABLETYPE_INDEPENDENT) then 1
  else if bool_decide (rd_tabletype r = TABLETYPE_URELATION)
  then length (filter (fun a => isConditionAttribute a = true) (attnames r)) / 3
  else 0.

Definition select_triples (s : select) : nat :=
  if bool_decide (tabletype s = TABLETYPE_URELATION) then dimension s
  else if bool_decide (tabletype s = TABLETYPE_INDEPENDENT) then 1
  else 0.

Definition tripleCount (n : node) : outcome nat :=
  match n with
  | N_RangeVar rv => r ← relation_openrv rv; Ok (relation_triples r)
  | Select s => Ok (select_triples s)
  | RangeSubselect q _ => s ← as_select (Some q); Ok (select_triples s)
  | _ => Ok 0
  end.

Definition getTripleCounts (flist : list node) : outcome (list nat) := map_outcome tripleCount flist.
End Catalog.

(** ** Set operations *)

(** [get_targets_from_set_operation]. *)
Definition set_operation_target (r : target) : outcome target :=
  match name r with
  | Some nm => Ok (makeResTargetWithColumnRef None nm)
  | None =>
      match val r with
      | ColumnRef fields =>
          if 1 <? length fields then l ← deref (last fields); Ok (mk_res None (ColumnRef [l]))
          else Ok (copy_target copyObject r)
      | _ => Elog "Name the column with an alias"
      end
  end.

Definition get_targets_from_set_operation (old : list target) : outcome (list target) :=
  map_outcome set_operation_target old.

(** A new select on top of a set operation.  The weight and the probability of the
    operation are not copied. *)
Definition rewrite_set_operation (s : select) : outcome select :=
  match op s with
  | SETOP_NONE => Ok s
  | _ =>
      l ← as_select (larg s);
      tl ← get_targets_from_set_operation (targetList l);
      let keys := map (copy_target copyObject) (repairkey s) in
      let picking := match repairkey s with
        | [] => if bool_decide (pickingType s = " "%char) then NUL else pickingType s
        | _ => NUL
        end in
      let l' := set_intoClause None l in
      let from := makeRangeSubselect "temp" (set_larg (Some (Select l')) s) in
      Ok (set_dimension (dimension l) (set_tabletype (tabletype l)
            (set_intoClause (intoClause l) (set_pickingType picking (set_repairkey keys
              (set_targetList tl (set_fromClause [from] new_select)))))))
  end.

(** [remove_relation_reference]: an unnamed column [R.a] becomes [a]. *)
Definition remove_relation_reference (tl : list target) : list target :=
  map (fun r =>
    match name r, val r with
    | None, ColumnRef fields =>
        match last fields with
        | Some l => if 1 <? length fields then mk_res None (ColumnRef [l]) else r
        | None => r
        end
    | _, _ => r
    end) tl.
