(* ===== verification/Supported.v ===== *)
(** * Supported: which queries are certain, need rewriting, are supported ([supported.c])

    The tests over a parse tree that decide whether the rewriter is entered. *)
From Stdlib Require Import Strings.String Strings.Ascii.
From stdpp Require Import strings.
From S2P Require Import Prelude.
From S2P Require Import ParseTree.
From S2P Require Import RewriteUtils.
Open Scope string_scope.
Open Scope list_scope.
Open Scope nat_scope.

(** A test of an optional node; a null pointer gives [d]. *)
Definition test_opt (d : bool) (test : node -> outcome bool) (o : option node) : outcome bool :=
  match o with None => Ok d | Some n => test n end.

Definition not_ (a : outcome bool) : outcome bool := x ← a; Ok (negb x).

(** ** Aggregates *)

Definition approx_names : list string := [CONF; TUPLECONF; ACONF; ARGMAX; ESUM; ECOUNT].

Definition hasApproxAggregate (l : list node) : bool :=
  existsb (fun nm => bool_decide (is_Some (lookup_func_in_list l nm))) approx_names.

Definition isApproxAggregate (funcname : list string) : bool :=
  existsb (is_func funcname) [CONF; ACONF; TUPLECONF; ESUM; ECOUNT; ARGMAX].

(** A condition without subqueries. *)
Fixpoint isSimpleCondition (cond : node) : bool :=
  match cond with
  | ColumnRef _ | A_Const _ _ => true
  | A_Expr kind _ lexpr rexpr =>
      let simple o := match o with None => true | Some e => isSimpleCondition e end in
      match kind with
      | AEXPR_OP | AEXPR_AND | AEXPR_OR => simple lexpr && simple rexpr
      | AEXPR_NOT => simple rexpr
      | _ => false
      end
  | _ => false
  end.

Section Catalog.
Context (catalog : RangeVar -> option Relation).

(** ** Certain queries *)

Definition isCertainRelation (rv : RangeVar) : outcome bool :=
  rel ← relation_openrv catalog rv;
  Ok (bool_decide (rd_tabletype rel = TABLETYPE_CERTAIN)
      || (negb (bool_decide (rd_tabletype rel = TABLETYPE_INDEPENDENT))
          && negb (bool_decide (rd_tabletype rel = TABLETYPE_URELATION)))).

(** The bodies of the mutually recursive tests, over the test [certain] of a node and
    [where_certain] of a condition. *)
Definition isCertainSimpleSelect_ (certain where_certain : node -> outcome bool) (s : select)
    : outcome bool :=
  if possible s then Ok true
  else match op s with
  | SETOP_NONE =>
      if hasApproxAggregate (val <$> targetList s) then Ok true
      else and_then (all_of certain (fromClause s)) (test_opt true where_certain (whereClause s))
  | _ => and_then (test_opt true certain (larg s)) (test_opt true certain (rarg s))
  end.

Definition isCertainSelect_ (certain where_certain : node -> outcome bool) (s : select) : outcome bool :=
  match repairkey s with
  | _ :: _ => Ok false
  | [] =>
      if bool_decide (pickingType s = "I"%char) then Ok false
      else isCertainSimpleSelect_ certain where_certain s
  end.

Fixpoint isCertain (n : node) : outcome bool :=
  match n with
  | N_RangeVar rv => isCertainRelation rv
  | Select s => isCertainSelect_ isCertain isCertainWhereClause s
  | RangeSubselect (Select s) _ => isCertainSimpleSelect_ isCertain isCertainWhereClause s
  | RangeSubselect _ _ => Undefined
  | JoinExpr _ l r => and_then (isCertain l) (isCertain r)
  | _ => Ok false
  end
with isCertainWhereClause (n : node) : outcome bool :=
  match n with
  | ColumnRef _ | A_Const _ _ => Ok true
  | A_Expr kind _ lexpr rexpr =>
      match kind with
      | AEXPR_OP | AEXPR_AND | AEXPR_OR =>
          and_then (test_opt true isCertainWhereClause lexpr)
            (test_opt true isCertainWhereClause rexpr)
      | AEXPR_NOT => test_opt true isCertainWhereClause rexpr
      | _ => Ok false
      end
  | SubLink t _ subselect =>
      match t with
      | EXISTS_SUBLINK | ANY_SUBLINK | EXPR_SUBLINK => isCertain subselect
      | _ => Ok false
      end
  | _ => Ok false
  end.

Definition isCertainSimpleSelect : select -> outcome bool :=
  isCertainSimpleSelect_ isCertain isCertainWhereClause.
Definition isCertainSelect : select -> outcome bool := isCertainSelect_ isCertain isCertainWhereClause.
Definition isCertainFromClause (l : list node) : outcome bool := all_of isCertain l.

(** ** Queries that need rewriting *)

Definition isCast_arg (n : node) : bool :=
  IsA_ColumnRef n || IsA_A_Const n || IsA_FuncCall n || IsA_CaseExpr n.

(** [requiresRewritingFromClause]: one item of the from clause. *)
Definition from_requires (req : node -> outcome bool) (n : node) : outcome bool :=
  match n with
  | N_RangeVar rv => not_ (isCertainRelation rv)
  | RangeSubselect q _ => req q
  | JoinExpr _ l r => or_else (req l) (req r)
  | FuncCall _ _ _ _ | RangeFunction => Ok false
  | _ => Ok true
  end.

(** The switch over a target.  A [CoalesceExpr] falls through to the next case, which
    reads it as a [NullTest]. *)
Definition target_requires (req where_req : node -> outcome bool) (n : node) : outcome bool :=
  match n with
  | FuncCall _ funcname _ _ => Ok (isApproxAggregate funcname)
  | SubLink _ _ subselect => req subselect
  | CoalesceExpr args => b ← any_of where_req args; if (b : bool) then Ok true else Undefined
  | NullTest arg => where_req arg
  | RowExpr args => any_of where_req args
  | XmlSerialize expr => where_req expr
  | TypeCast _ _ | ColumnRef _ | A_Const _ _ | A_Expr _ _ _ _ | CaseExpr | A_Indirection _
  | ArrayExpr | XmlExpr => Ok false
  | _ => Ok true
  end.

(** The arguments of a set operation are selects, on which [requiresRewriting] is
    [requiresRewritingSelect]. *)
Definition requiresRewritingSelect_ (req where_req : node -> outcome bool) (s : select) : outcome bool :=
  match repairkey s with
  | _ :: _ => Ok true
  | [] =>
      if bool_decide (pickingType s = "I"%char) then Ok true
      else match op s with
      | SETOP_NONE =>
          or_else (any_of (from_requires req) (fromClause s))
            (or_else (any_of (fun r => target_requires req where_req (val r)) (targetList s))
              (test_opt false where_req (whereClause s)))
      | _ =>
          or_else (match larg s with Some l => req l | None => Undefined end)
            (match rarg s with Some r => req r | None => Undefined end)
      end
  end.

Definition requiresRewritingExpression_ (where_req : node -> outcome bool) (kind : A_Expr_Kind)
    (lexpr rexpr : option node) : outcome bool :=
  match kind with
  | AEXPR_OP | AEXPR_AND | AEXPR_OR | AEXPR_DISTINCT | AEXPR_OP_ANY | AEXPR_NULLIF =>
      or_else (test_opt false where_req lexpr) (test_opt false where_req rexpr)
  | AEXPR_NOT => test_opt false where_req rexpr
  | AEXPR_IN => Ok false
  | _ => Ok true
  end.

Fixpoint requiresRewriting (n : node) : outcome bool :=
  match n with
  | N_RangeVar rv => not_ (isCertainRelation rv)
  | JoinExpr _ l r => or_else (requiresRewriting l) (requiresRewriting r)
  | FuncCall _ _ _ _ | RangeFunction => Ok false
  | RangeSubselect q _ => requiresRewriting q
  | Select s => requiresRewritingSelect_ requiresRewriting requiresRewritingWhereClause s
  | ViewStmt q => requiresRewriting q
  | CreateStmt type => Ok (negb (bool_decide (type = TABLETYPE_CERTAIN)))
  | InsertStmt rel _ q =>
      or_else (not_ (isCertainRelation rel))
        (match q with
         | Some (Select s) =>
             match valuesLists s with
             | [] => Ok false
             | _ => requiresRewritingSelect_ requiresRewriting requiresRewritingWhereClause s
             end
         | Some _ => Undefined
         | None => Ok false
         end)
  | DeleteStmt rel _ w =>
      or_else (not_ (isCertainRelation rel)) (test_opt false requiresRewritingWhereClause w)
  | UpdateStmt rel _ w from =>
      or_else (not_ (isCertainRelation rel))
        (or_else (any_of (from_requires requiresRewriting) from)
          (test_opt false requiresRewritingWhereClause w))
  | AlterTableStmt rel => not_ (isCertainRelation rel)
  | OtherStmt => Ok false
  | _ => Ok true
  end
with requiresRewritingWhereClause (n : node) : outcome bool :=
  match n with
  | ColumnRef _ | A_Const _ _ | NullTest _ | CaseExpr | FuncCall _ _ _ _ | CurrentOfExpr | ArrayExpr
  | XmlExpr => Ok false
  | TypeCast arg _ =>
      match arg with
      | ColumnRef _ | A_Const _ _ | FuncCall _ _ _ _ | CaseExpr => Ok false
      | A_Expr kind _ l r => requiresRewritingExpression_ requiresRewritingWhereClause kind l r
      | _ => Ok true
      end
  | A_Expr kind _ l r => requiresRewritingExpression_ requiresRewritingWhereClause kind l r
  | SubLink _ _ subselect => requiresRewriting subselect
  | BooleanTest arg | A_Indirection arg => requiresRewritingWhereClause arg
  | CoalesceExpr args | RowExpr args => any_of requiresRewritingWhereClause args
  | _ => Ok true
  end.

Definition requiresRewritingSelect : select -> outcome bool :=
  requiresRewritingSelect_ requiresRewriting requiresRewritingWhereClause.

(** ** Supported queries *)

(** The result and [*error], which some paths leave unset. *)
Inductive verdict :=
  | Supported
  | Unsupported (error : option string).

Definition unsupported (msg : string) : outcome verdict := Ok (Unsupported (Some msg)).

(** [if (!test) return false; k] *)
Definition provided (test : outcome verdict) (k : outcome verdict) : outcome verdict :=
  v ← test; match v with Supported => k | Unsupported _ => Ok v end.

(** [if (!test) { *error = msg; return false; } k] *)
Definition require (test : outcome bool) (msg : string) (k : outcome verdict) : outcome verdict :=
  b ← test; if (b : bool) then k else unsupported msg.

Definition getTripleCountSelect (s : select) : outcome nat :=
  counts ← getTripleCounts catalog (fromClause s); Ok (sum_list_with id counts).

(** The relations and the condition of the select are certain. *)
Definition certain_input (s : select) : outcome bool :=
  and_then (isCertainFromClause (fromClause s)) (test_opt true isCertainWhereClause (whereClause s)).

Definition isSupportedFrom_ (supp : node -> outcome verdict) (n : node) : outcome verdict :=
  match n with
  | N_RangeVar _ => Ok Supported
  | RangeSubselect q _ => supp q
  | JoinExpr _ _ _ => unsupported "JOIN expression currently not supported."
  | _ => unsupported "unsupported expression in the FROM clause."
  end.

(** The loop over the target list; [has_conf] records a confidence computation. *)
Section Targets.
Context (supp_node : node -> outcome verdict) (s : select).
Fixpoint isSupportedTargets (l : list target) (has_conf : bool) : outcome verdict :=
  match l with
  | [] => Ok Supported
  | r :: l =>
      match val r with
      | TypeCast _ _ | ColumnRef _ | A_Const _ _ => isSupportedTargets l has_conf
      | FuncCall _ funcname _ _ =>
          if isApproxAggregate funcname then
            if has_conf then unsupported "multiple approximate aggregation nodes not supported."
            else isSupportedTargets l true
          else
            require (certain_input s) "function calls only allowed on certain relations."
              (isSupportedTargets l has_conf)
      | _ => provided (supp_node (val r)) (isSupportedTargets l has_conf)
      end
  end.
End Targets.

Section AllSupported.
Context (supp : node -> outcome verdict).
Fixpoint all_supported (l : list node) : outcome verdict :=
  match l with
  | [] => Ok Supported
  | n :: l => provided (supp n) (all_supported l)
  end.
End AllSupported.

Definition supported_opt (supp : node -> outcome verdict) (o : option node) : outcome verdict :=
  match o with None => Ok Supported | Some n => supp n end.

(** The bodies of the recursive tests; [supp] is [isSupported], [supp_node] is
    [isSupportedNode] for a select. *)
Definition isSupportedSimpleSelect_ (supp : node -> outcome verdict)
    (supp_node : select -> node -> outcome verdict) (s : select) : outcome verdict :=
  let certain_args l r :=
    and_then (test_opt true isCertain l) (test_opt true isCertain r) in
  match op s with
  | SETOP_UNION =>
      provided (supported_opt supp (larg s)) (provided (supported_opt supp (rarg s))
        (if negb (all s) then
           require (certain_args (larg s) (rarg s))
             "UNION supported only on certain relations. Use 'UNION ALL' for uncertain ones."
             (Ok Supported)
         else
           l ← as_select (larg s); r ← as_select (rarg s);
           lcount ← getTripleCountSelect l; rcount ← getTripleCountSelect r;
           if lcount =? rcount then Ok Supported
           else unsupported "UNION queries have different number of condition columns."))
  | SETOP_INTERSECT | SETOP_EXCEPT =>
      provided (supported_opt supp (larg s)) (provided (supported_opt supp (rarg s))
        (require (certain_args (larg s) (rarg s))
           "set operations supported on certain relations only." (Ok Supported)))
  | SETOP_NONE =>
      if possible s && hasApproxAggregate (val <$> targetList s) then
        unsupported "no confidence computation functions allowed with possible."
      else
        provided (all_supported (isSupportedFrom_ supp) (fromClause s))
          (require
             (match distinctClause s, groupClause s with
              | None, [] => Ok true
              | _, _ => isCertainSimpleSelect s
              end)
             "DISTINCT and GROUP BY not allowed on uncertain relations."
             (provided (isSupportedTargets (supp_node s) s (targetList s) false)
               (supported_opt (supp_node s) (whereClause s))))
  end.

Definition isSupportedSelect_ (supp : node -> outcome verdict)
    (supp_node : select -> node -> outcome verdict) (s : select) : outcome verdict :=
  provided (isSupportedSimpleSelect_ supp supp_node s)
    (let keyed := match repairkey s with [] => false | _ => true end in
     let picked := bool_decide (pickingType s = "I"%char) in
     if keyed || picked then
       require
         (if keyed && picked then Ok false
          else if possible s || hasApproxAggregate (val <$> targetList s) then Ok true
          else certain_input s)
         "REPAIR KEY and PICK TUPLES not supported on uncertain relations." (Ok Supported)
     else Ok Supported).

Definition isSupportedInsert_ (supp : node -> outcome verdict) (cols : list string) (q : option node)
    : outcome verdict :=
  match q with
  | None => unsupported "DEFAULT VALUES in INSERT currently not supported."
  | Some q =>
      if existsb isConditionAttribute cols then
        unsupported "no direct manipulation allowed on condition columns."
      else match q with
      | Select s => match valuesLists s with [] => supp q | _ => Ok Supported end
      | _ => Undefined
      end
  end.

Definition isSupportedUpdate (targets : list target) (w : option node) (from : list node)
    : outcome verdict :=
  match from with
  | _ :: _ => unsupported "no FROM clause allowed in UPDATE statements."
  | [] =>
      require (test_opt true isCertainWhereClause w) "WHERE condition of UPDATE statement must be certain."
        (names ← map_outcome (fun r : target => deref (name r)) targets;
         if existsb isConditionAttribute names
         then unsupported "no direct manipulation allowed on condition columns."
         else Ok Supported)
  end.

Definition isSupportedDelete (usingClause : list node) (w : option node) : outcome verdict :=
  match usingClause with
  | _ :: _ => unsupported "USING clause not supported in DELETE."
  | [] =>
      if match w with None => true | Some w => isSimpleCondition w end then Ok Supported
      else unsupported "subqueries in WHERE condition of DELETE not supported"
  end.

Fixpoint isSupported (n : node) {struct n} : outcome verdict :=
  match n with
  | AlterTableStmt _ => Ok Supported
  | ViewStmt q => isSupported q
  | CreateStmt _ => Ok Supported
  | Select s => isSupportedSelect_ isSupported isSupportedNode s
  | InsertStmt _ cols q => isSupportedInsert_ isSupported cols q
  | UpdateStmt _ targets w from => isSupportedUpdate targets w from
  | DeleteStmt _ us w => isSupportedDelete us w
  | _ => Ok (Unsupported None)
  end
with isSupportedNode (s : select) (n : node) {struct n} : outcome verdict :=
  match n with
  | ColumnRef _ | A_Const _ _ => Ok Supported
  | A_Expr kind _ lexpr rexpr =>
      match kind with
      | AEXPR_OP | AEXPR_AND | AEXPR_OR =>
          provided (supported_opt (isSupportedNode s) lexpr)
            (provided (supported_opt (isSupportedNode s) rexpr)
              (if hasApproxAggregate (option_list lexpr) && hasApproxAggregate (option_list rexpr)
               then unsupported "multiple approximate aggregation nodes not supported."
               else Ok Supported))
      | AEXPR_NOT =>
          provided (supported_opt (isSupportedNode s) rexpr)
            (require (test_opt true isCertainWhereClause rexpr)
               "NOT only supported on certain expressions." (Ok Supported))
      | _ => unsupported "unsupported expression node"
      end
  | SubLink t _ subselect =>
      match t with
      | EXISTS_SUBLINK | ANY_SUBLINK | EXPR_SUBLINK =>
          provided (isSupported subselect)
            (require (isCertain subselect)
               "currently only certain subqueries supported in WHERE clause." (Ok Supported))
      | _ => unsupported "subquery in WHERE clause currently not supported."
      end
  | FuncCall _ funcname _ _ =>
      if isApproxAggregate funcname then Ok Supported
      else require (certain_input s) "function calls not supported on uncertain relations." (Ok Supported)
  | _ => require (certain_input s) "unsupported expression" (Ok Supported)
  end.
End Catalog.
