(* ===== verification/RepairKey.v ===== *)
(** * RepairKey: the rewriting of repair-key ([repair_key.c])

    The result joins the input with a select that numbers its distinct tuples and one
    that numbers its keys and sums their weights.  The target of the weight is one C
    object: both eliminations of duplicates put a call around its value and share it,
    so [duplicate_removal] gives its select as a function of the object's final
    value. *)
From Stdlib Require Import Strings.String Strings.Ascii.
From stdpp Require Import strings.
From S2P Require Import Prelude.
From S2P Require Import ParseTree.
From S2P Require Import RewriteUtils.

Open Scope string_scope.
Open Scope list_scope.
Open Scope nat_scope.

Definition column (c : string) : node := ColumnRef [c].

Definition make_natural_join (table1 table2 : node) : node := JoinExpr true table1 table2.

Definition make_division_expr (dividend divisor : string) : node :=
  makeA_Expr AEXPR_OP ["/"] (column dividend) (column divisor).

Definition make_ResTarget_with_Func_ColumnRef (resname funcname columnname : string) : target :=
  mk_res (Some resname) (FuncCall 0 [funcname] [column columnname] false).

Definition make_ResTarget_with_AExpr (resname : string) (expr : node) : target :=
  mk_res (Some resname) expr.

(** The data columns: a named target is referred to by its name. *)
Definition get_repair_key_target_list (s : select) : list target :=
  map (fun r => match name r with
                | Some nm => mk_res None (column nm)
                | None => copy_target copyObject r
                end) (targetList s).

Definition target_list_to_ColumnRef (l : list target) : list node :=
  map (fun r => match name r with Some nm => column nm | None => val r end) l.

Definition zero_const : node := A_Const (V_Float "0") [].

(** The call that [duplicate_removal] puts around the value of the weight. *)
Definition tested_weight (r : target) : target :=
  mk_res (name r) (FuncCall 0 [TESTNEGATIVE] [val (type_cast_weight_by r)] false).

(** [duplicate_removal]: the select, given the final value of the shared target, and
    the target after this call.  The test against 0 keeps the value it has now. *)
Definition duplicate_removal (s : select) (tl : list target) (distinct : list node)
    (w : option target) : (option target -> select) * option target :=
  let w' := tested_weight <$> w in
  (fun final =>
     let last_target := match final with
       | Some r => r
       | None => make_ResTarget_with_float (Some "_W") "1.0"
       end in
     set_whereClause ((fun r => makeA_Expr AEXPR_OP ["<>"] (val r) zero_const) <$> w')
       (set_fromClause [makeRangeSubselect "temp" (set_weightby final s)]
         (set_distinctClause (Some [])
           (set_groupClause distinct
             (set_targetList (tl ++ [last_target]) new_select)))),
   w').

Definition assign_domain_ID (s : select) (tl : list target) (distinct : list node)
    (w : option target) : (option target -> select) * option target :=
  let '(new, w') := duplicate_removal s tl distinct w in
  (fun final =>
     let n := new final in
     set_targetList (targetList n ++
       [make_ResTarget_with_func_char (Some (catStrInt DOMAINNAME 0)) "nextval" DOMAINIDSEQ]) n,
   w').

Definition assign_var_ID (s : select) (tl : list target) (distinct : list node) (keys : list target)
    (w : option target) : (option target -> select) * option target :=
  let '(sub, w') := duplicate_removal s tl distinct w in
  (fun final =>
     set_distinctClause (Some [])
       (set_groupClause (target_list_to_ColumnRef keys)
         (set_fromClause [makeRangeSubselect "temp" (sub final)]
           (set_targetList
             (keys ++ [make_ResTarget_with_func_char (Some (catStrInt VARNAME 0)) "nextval" VARIDSEQ;
                       make_ResTarget_with_Func_ColumnRef "_S" "sum" "_W"]) new_select))),
   w').

Definition rewrite_repair_key (s : select) : select :=
  let keys := repairkey s in
  let tl := get_repair_key_target_list s in
  let distinct := target_list_to_ColumnRef tl in
  let into := intoClause s in
  let s := set_intoClause None s in
  let '(domains, w) := assign_domain_ID s tl distinct (weightby s) in
  let '(vars, w) := assign_var_ID s tl distinct keys w in
  let sub1 := makeRangeSubselect "temp1" (set_weightby w s) in
  let sub2 := makeRangeSubselect "temp2" (domains w) in
  let sub3 := makeRangeSubselect "temp3" (vars w) in
  let join := make_natural_join (make_natural_join sub1 sub2) sub3 in
  set_intoClause into (set_fromClause [join] (set_targetList
    (tl ++ [type_cast_to_int4 (makeResTargetWithColumnRef None (catStrInt VARNAME 0));
            type_cast_to_int4 (makeResTargetWithColumnRef None (catStrInt DOMAINNAME 0));
            type_cast_weight_by (make_ResTarget_with_AExpr (catStrInt PROBNAME 0)
              (make_division_expr "_W" "_S"))]) new_select)).

(** Marks the result as a table of the given type with one new triple. *)
Definition set_into_type (t : ascii) (s : select) : select :=
  set_intoClause ((fun i => mk_into (into_rel i) t) <$> intoClause s) s.

Definition ProcessRepairKey (s : select) : outcome select :=
  s ← rewrite_set_operation s;
  let s := set_targetList (remove_relation_reference (targetList s)) s in
  let s := rewrite_repair_key s in
  Ok (set_isFromRepairKey (Some [true]) (set_dimension 1
        (set_into_type TABLETYPE_URELATION (set_tabletype TABLETYPE_URELATION s)))).

(** ** The rewriting of pick-tuples ([pick_tuples.c]) *)

Open Scope string_scope.
Open Scope list_scope.
Open Scope nat_scope.

(** The call around the value of the probability; the target is changed in place, so
    the test against 0 reads the same call. *)
Definition tested_prob (r : target) : target :=
  mk_res (name r) (FuncCall 0 [TESTFROMZEROTOONE] [val (type_cast_weight_by r)] false).

Definition rewrite_pick_tuples (s : select) : select :=
  let tl := targetList s ++
    [type_cast_to_int4 (make_ResTarget_with_func_char (Some (catStrInt VARNAME 0)) "nextval" VARIDSEQ);
     make_ResTarget_with_int (Some (catStrInt DOMAINNAME 0)) 1] in
  match prob s with
  | Some r =>
      let r := tested_prob r in
      let s := fill_where_clause (set_targetList (tl ++ [r]) (set_prob (Some r) s)) in
      set_whereClause
        (Some (A_Expr AEXPR_AND [] (whereClause s)
                 (Some (makeA_Expr AEXPR_OP ["<>"] (val r) zero_const)))) s
  | None => set_targetList (tl ++ [make_ResTarget_with_float (Some "_p0") "0.5"]) s
  end.

Definition ProcessPickTuples (s : select) : outcome select :=
  s ← rewrite_set_operation s;
  let s := set_targetList (remove_relation_reference (targetList s)) s in
  let s := rewrite_pick_tuples s in
  Ok (set_isFromRepairKey (Some [true])
        (set_into_type TABLETYPE_INDEPENDENT (set_tabletype TABLETYPE_INDEPENDENT s))).
