(* ===== verification/Rewrite.v ===== *)
(** * Rewrite: the rewriting of select statements ([rewrite.c])

    A select is rewritten bottom-up: subqueries first, then the confidence
    computations, [possible], repair-key and pick-tuples; the result of any other
    select over uncertain relations carries their condition columns.  The entries of
    the parallel arrays [typeArray], [tripleCount], [fields] and [isFromRepairKey] are
    a record. *)
From Stdlib Require Import Strings.String Strings.Ascii.
From stdpp Require Import strings.
From S2P Require Import Prelude.
From S2P Require Signature.
From S2P Require Import ParseTree.
From S2P Require Import RewriteUtils.
From S2P Require Import Supported.
From S2P Require Import RepairKey.

Open Scope string_scope.
Open Scope list_scope.
Open Scope nat_scope.

(** One relation or subquery of a from clause. *)
Record rel_info := mk_info {
  ri_type : ascii;
  ri_triples : nat;
  ri_fields : list string;
  ri_repairkey : option (list bool);
  ri_node : node }.

(** The qualified name of column [nm] number [j] of a relation: the placeholder at the
    end of its fields is replaced. *)
Definition condition_column (fields : list string) (nm : string) (j : nat) : node :=
  ColumnRef (delLastAppendOne fields (catStrInt nm j)).

Definition generateFields (flist : list node) : list (list string) := map nodeGetFields flist.

(** [remove_mutual_exclusiveness]: the conjuncts that it puts in front of the
    condition, the last one first. *)
Definition exclusion (f1 : list string) (k : nat) (f2 : list string) (l : nat) : node :=
  makeA_Expr AEXPR_OR []
    (makeA_Expr AEXPR_OP ["<>"] (makeColumnRef VARNAME k f1) (makeColumnRef VARNAME l f2))
    (makeA_Expr AEXPR_OP ["="] (makeColumnRef DOMAINNAME k f1) (makeColumnRef DOMAINNAME l f2)).

Definition is_urelation (r : rel_info) : bool := bool_decide (ri_type r = TABLETYPE_URELATION).

Fixpoint exclusions (rels : list rel_info) : list node :=
  match rels with
  | [] => []
  | r1 :: rest =>
      (if is_urelation r1 then
         r2 ← rest;
         if is_urelation r2 then
           k ← seq 0 (ri_triples r1); l ← seq 0 (ri_triples r2);
           [exclusion (ri_fields r1) k (ri_fields r2) l]
         else []
       else []) ++ exclusions rest
  end.

Definition conjoin (w : option node) (e : node) : option node := Some (A_Expr AEXPR_AND [] (Some e) w).

Definition remove_mutual_exclusiveness (s : select) (rels : list rel_info) : select :=
  let s := fill_where_clause s in
  set_whereClause (foldl conjoin (whereClause s) (exclusions rels)) s.

Definition all_relations_are_certain (types : list ascii) : bool :=
  forallb (fun t => negb (bool_decide (t = TABLETYPE_INDEPENDENT))
                    && negb (bool_decide (t = TABLETYPE_URELATION))) types.

(** The boolean result of [is_a_general_case]. *)
Definition is_a_general_case (types : list ascii) : bool :=
  existsb (fun t => negb (bool_decide (t = TABLETYPE_INDEPENDENT))) types.

Definition calculate_total_triples (rels : list rel_info) : nat := sum_list_with ri_triples rels.

(** ** Condition columns as targets and arguments *)

(** Every triple of the from clause with its number. *)
Definition numbered_triples (rels : list rel_info) : list (nat * (rel_info * nat)) :=
  imap pair (r ← rels; j ← seq 0 (ri_triples r); [(r, j)]).

Definition condition_target (nm : string) (t : nat * (rel_info * nat)) : target :=
  mk_res (Some (catStrInt nm t.1)) (condition_column (ri_fields t.2.1) nm t.2.2).

Definition put_args_to_conf_general (rels : list rel_info) (nm : string) : list target :=
  map (condition_target nm) (numbered_triples rels).

Definition condition_targets (rels : list rel_info) : list target :=
  t ← numbered_triples rels;
  [condition_target VARNAME t; condition_target DOMAINNAME t; condition_target PROBNAME t].

(** [add_condition_columns]; the flag of a triple is read from the array of its
    relation. *)
Definition add_condition_columns (s : select) (rels : list rel_info) : outcome select :=
  flags ← map_outcome (fun t : rel_info * nat =>
            arr ← deref (ri_repairkey t.1); deref (arr !! t.2))
          (r ← rels; j ← seq 0 (ri_triples r); [(r, j)]);
  Ok (set_isFromRepairKey (Some flags) (set_targetList (targetList s ++ condition_targets rels) s)).

(** A change of the arguments of a call, which also clears [agg_star]. *)
Definition set_args (f : list node -> list node) (n : node) : node :=
  match n with FuncCall a fn args _ => FuncCall a fn (f args) false | _ => n end.

Definition put_args_general (n : nat) (args : list node) : list node :=
  args ++ (i ← seq 0 n;
           [column (catStrInt VARNAME i); column (catStrInt DOMAINNAME i); column (catStrInt PROBNAME i)]).

Definition put_args_HQ (n : nat) (args : list node) : list node :=
  args ++ (i ← seq 0 n; [column (catStrInt VARNAME i); column (catStrInt PROBNAME i)]).

Definition put_args_one_relation_HQ (args : list node) : list node :=
  args ++ [column (catStrInt VARNAME 0); column (catStrInt PROBNAME 0)].

Definition put_args_to_tconf_independent (rels : list rel_info) (args : list node) : list node :=
  args ++ (r ← rels;
           if bool_decide (ri_type r = TABLETYPE_INDEPENDENT)
           then [condition_column (ri_fields r) PROBNAME 0] else []).

Definition urelation_args (r : rel_info) : list node :=
  if is_urelation r then
    i ← seq 0 (ri_triples r);
    [condition_column (ri_fields r) VARNAME i; condition_column (ri_fields r) DOMAINNAME i;
     condition_column (ri_fields r) PROBNAME i]
  else [].

(** The product of a call over the U-relations and one over the independent
    relations; both copy the call. *)
Definition put_args_to_tconf (rels : list rel_info) (call : node) : node :=
  let func_urelation :=
    set_args (fun args => args ++ (r ← rels; urelation_args r)) (copyObject call) in
  let func_independent := set_args (put_args_to_tconf_independent rels) (copyObject call) in
  set_args (fun _ => [makeA_Expr AEXPR_OP ["*"] func_urelation func_independent]) call.

Definition valid_types (types : list ascii) : bool :=
  forallb (fun t => bool_decide (t ∈ [TABLETYPE_CERTAIN; TABLETYPE_INDEPENDENT; TABLETYPE_URELATION]))
    types.

(** ** References to relations *)

Definition concat_fields (fields : list string) : string :=
  foldl (fun s f => String.append s (String.append "_" f)) "" fields.

(** [remove_relation_reference_in_node]: the changed node and the alias; the absent
    operand of a unary operator is followed. *)
Fixpoint remove_relation_reference_in_node (n : node) : outcome (node * option string) :=
  match n with
  | ColumnRef fields =>
      if 1 <? length fields then Ok (ColumnRef [concat_fields fields], last fields) else Ok (n, None)
  | A_Expr kind opname lexpr rexpr =>
      l ← match lexpr with Some e => remove_relation_reference_in_node e | None => Undefined end;
      r ← match rexpr with Some e => remove_relation_reference_in_node e | None => Undefined end;
      Ok (A_Expr kind opname (Some l.1) (Some r.1), None)
  | TypeCast arg typename =>
      a ← remove_relation_reference_in_node arg; Ok (TypeCast a.1 typename, None)
  | FuncCall addr funcname args star =>
      args ← map_outcome remove_relation_reference_in_node args;
      Ok (FuncCall addr funcname args.*1 star, None)
  | _ => Ok (n, None)
  end.

(** The targets of the inner select get names, those of the outer one refer to them. *)
Definition name_reference (r : target) : target :=
  match name r, val r with
  | None, ColumnRef fields =>
      if 1 <? length fields then mk_res (Some (concat_fields fields)) (val r) else r
  | _, _ => r
  end.

Definition outer_reference (r : target) : outcome target :=
  v ← remove_relation_reference_in_node (val r);
  Ok (mk_res (match name r with Some nm => Some nm | None => v.2 end) v.1).

Definition group_reference (n : node) : node :=
  match n with
  | ColumnRef fields => if 1 <? length fields then ColumnRef [concat_fields fields] else n
  | _ => n
  end.

(** [handle_relation_reference]: the outer and the inner select. *)
Definition handle_relation_reference (outSel inSel : select) : outcome (select * select) :=
  tl ← map_outcome outer_reference (targetList outSel);
  Ok (set_groupClause (map group_reference (groupClause outSel)) (set_targetList tl outSel),
      set_targetList (map name_reference (targetList inSel)) inSel).

(** [add_referenced_columns]: the columns of the group clause. *)
Definition referenced_columns (outer : select) : outcome (list target) :=
  map_outcome (fun n =>
    match n with
    | ColumnRef _ => Ok (mk_res None n)
    | _ => Elog "Only column ferences are allowed in the group clause"
    end) (groupClause outer).

Definition get_sort_clause (tl : list target) : list node := filter (fun n => IsA_ColumnRef n = true) (val <$> tl).

(** ** Expected sums and counts *)

Definition set_res_name (nm : string) (r : target) : target :=
  mk_res (match name r with Some n => Some n | None => Some nm end) (val r).

Definition name_res (tl : list target) (nm : string) : list target :=
  match lookup_res_by_func tl nm with
  | Some i => alter (set_res_name nm) i tl
  | None => tl
  end.

(** The rewritten target list and the address of the new call of tconf. *)
Definition rewrite_esum (tl : list target) (esum : node) : outcome (list target * nat) :=
  match esum with
  | FuncCall a _ args star =>
      let tconf := fresh_addr tl in
      let tl := name_res tl ESUM in
      match args with
      | [arg] =>
          let product := makeA_Expr AEXPR_OP ["*"] arg (FuncCall tconf [TUPLECONF] [] false) in
          let cast := TypeCast product ["pg_catalog"; "float4"] in
          Ok (update_targets a (fun _ => FuncCall a ["sum"] [cast] star) tl, tconf)
      | _ => Elog "Number of arguments for esum is not correct"
      end
  | _ => Undefined
  end.

Definition rewrite_ecount (tl : list target) (ecount : node) : outcome (list target * nat) :=
  match ecount with
  | FuncCall a _ args star =>
      let tconf := fresh_addr tl in
      let tl := name_res tl ECOUNT in
      if 1 <? length args then Elog "Number of arguments for ecount is not correct"
      else
        Ok (update_targets a
              (fun _ => FuncCall a ["sum"] [FuncCall tconf [TUPLECONF] [] false] star) tl, tconf)
  | _ => Undefined
  end.

Section Catalog.
Context (catalog : RangeVar -> option Relation).

(** ** The relations of the from clause *)

(** The entry of [typeArray]; other nodes leave it null. *)
Definition table_type (n : node) : outcome ascii :=
  match n with
  | N_RangeVar rv => rel ← relation_openrv catalog rv; Ok (rd_tabletype rel)
  | RangeSubselect q _ => s ← as_select (Some q); Ok (tabletype s)
  | _ => Ok NUL
  end.

(** The entry of [get_repairkey_columns]. *)
Definition repairkey_columns (n : node) (triples : nat) : outcome (option (list bool)) :=
  match n with
  | N_RangeVar _ => Ok (Some (replicate triples false))
  | RangeSubselect q _ => s ← as_select (Some q); Ok (isFromRepairKey s)
  | _ => Ok None
  end.

Definition rel_info_of (n : node) : outcome rel_info :=
  t ← table_type n;
  c ← tripleCount catalog n;
  k ← repairkey_columns n c;
  Ok (mk_info t c (nodeGetFields n) k n).

Definition relations (flist : list node) : outcome (list rel_info) := map_outcome rel_info_of flist.

(** ** The expansion of "*" *)

(** The name under which a column of a subquery is visible. *)
Definition column_name (r : target) : outcome string :=
  match name r with
  | Some nm => Ok nm
  | None =>
      match val r with
      | ColumnRef fields => deref (last fields)
      | FuncCall _ funcname _ _ => deref (last funcname)
      | _ => Elog "Every selected target should have a name"
      end
  end.

Definition unnamed_column (fields : list string) (c : string) : target :=
  mk_res None (ColumnRef (fields ++ [c])).

Definition condition_width (r : rel_info) : nat :=
  if bool_decide (ri_type r ∈ [TABLETYPE_INDEPENDENT; TABLETYPE_URELATION]) then ri_triples r * 3 else 0.

(** The qualifier: the fields without the placeholder. *)
Definition qualifier (r : rel_info) : list string := take (length (ri_fields r) - 1) (ri_fields r).

Definition expand_columnref_star_one_relation (r : rel_info) : outcome (list target) :=
  match ri_node r with
  | N_RangeVar rv =>
      rel ← relation_openrv catalog rv;
      Ok (map (unnamed_column (qualifier r))
            (filter (fun a => isConditionAttribute a = false) (attnames rel)))
  | RangeSubselect q _ =>
      s ← as_select (Some q);
      names ← map_outcome column_name (take (length (targetList s) - condition_width r) (targetList s));
      Ok (map (unnamed_column (qualifier r)) names)
  | _ => Ok []
  end.

(** Do all strings but the last one agree? *)
Definition star_matches (star : list string) (r : rel_info) : bool :=
  (length star =? length (ri_fields r))
  && bool_decide (take (length star - 1) star = take (length star - 1) (ri_fields r)).

Definition expand_columnref_star (rels : list rel_info) (star : list string) : outcome (list target) :=
  if length star =? 1 then ts ← map_outcome expand_columnref_star_one_relation rels; Ok (concat ts)
  else match list_find (fun r => star_matches star r = true) rels with
  | Some (_, r) => expand_columnref_star_one_relation r
  | None => Ok []
  end.

(** A target that is a column reference ending in "*". *)
Definition star_of (r : target) : option (list string) :=
  match val r with
  | ColumnRef fields => if bool_decide (last fields = Some "*") then Some fields else None
  | _ => None
  end.

(** The loop over the growing target list. *)
Fixpoint transform_targetList (fuel i : nat) (rels : list rel_info) (tl : list target)
    : outcome (list target) :=
  match tl !! i with
  | None => Ok tl
  | Some r =>
      match fuel with
      | 0 => NoFuel
      | S fuel =>
          match star_of r with
          | Some star =>
              new ← expand_columnref_star rels star;
              transform_targetList fuel (S i) rels (take i tl ++ new ++ drop (S i) tl)
          | None => transform_targetList fuel (S i) rels tl
          end
      end
  end.

(** Rounds that are enough: a round for every target of every expansion. *)
Definition rel_width (n : node) : nat :=
  match n with
  | N_RangeVar rv => match catalog rv with Some r => length (attnames r) | None => 0 end
  | RangeSubselect (Select s) _ => length (targetList s)
  | _ => 0
  end.

Definition star_fuel (rels : list rel_info) (tl : list target) : nat :=
  length tl * S (sum_list_with (fun r => rel_width (ri_node r)) rels).

(** ** Signatures: the parse tree as signature.c reads it *)

Definition sig_relation (n : Signature.node) : option Relation :=
  match n with
  | Signature.RangeVar c s r a => catalog (mk_rv c s r a)
  | _ => None
  end.
Definition sig_columns (n : Signature.node) : list string := from_option attnames [] (sig_relation n).
Definition sig_natts (n : Signature.node) : nat := length (sig_columns n).
Definition sig_pkeys (n : Signature.node) : list string := from_option pkeys [] (sig_relation n).
Definition sig_rd_id (n : Signature.node) : N := from_option rd_id 0%N (sig_relation n).

(** The variable order of a hierarchical query, [None] for another one. *)
Definition hierarchical_order (s : select) : outcome (option (list (list string))) :=
  let from := map sig_node (fromClause s) in
  sglist ← deref (Signature.geneSGList sig_columns (sig_expr <$> whereClause s) [] from);
  hq ← deref (Signature.isHQ sglist);
  self ← (if (hq : bool) then deref (Signature.is_self_join sig_rd_id from) else Ok false);
  if hq && negb self then
    sign ← deref (Signature.ProcessSignature sig_natts sig_pkeys from sglist);
    order ← deref (Signature.getVarOrder (Signature.sigTreeRoot sign) []);
    Ok (Some order)
  else Ok None.

Definition newResTargets (varOrder : list (list string)) (nm : string) : list target :=
  imap (fun i fields => mk_res (Some (catStrInt nm i)) (condition_column fields nm 0)) varOrder.

(** ** Confidence computations *)

(** [processWhereClause]: the subqueries of a condition are rewritten by [process]. *)
Section Where.
Context (process : node -> outcome node).
Fixpoint processWhereClause (n : node) : outcome node :=
  match n with
  | A_Expr kind opname lexpr rexpr =>
      match kind with
      | AEXPR_OP | AEXPR_AND | AEXPR_OR =>
          l ← option_outcome processWhereClause lexpr;
          r ← option_outcome processWhereClause rexpr;
          Ok (A_Expr kind opname l r)
      | AEXPR_NOT =>
          r ← option_outcome processWhereClause rexpr; Ok (A_Expr kind opname lexpr r)
      | _ => Ok n
      end
  | SubLink t test subselect => q ← process subselect; Ok (SubLink t test q)
  | _ => Ok n
  end.

Definition process_where (s : select) : outcome select :=
  w ← option_outcome processWhereClause (whereClause s); Ok (set_whereClause w s).

Definition rewrite_possible (s : select) (rels : list rel_info) : outcome select :=
  s ← process_where s;
  Ok (set_distinctClause (Some []) (remove_mutual_exclusiveness s rels)).

(** The select that [generalRewrite] puts below: sorted group columns, condition
    columns and the consistency check. *)
Definition general_subselect (s : select) (rels : list rel_info) : outcome select :=
  let subsel := set_intoClause None (set_groupClause [] (copy_select copyObject s)) in
  cols ← referenced_columns s;
  let tl := cols ++ put_args_to_conf_general rels VARNAME ++ put_args_to_conf_general rels DOMAINNAME
    ++ put_args_to_conf_general rels PROBNAME in
  let subsel := set_targetList tl (set_sortClause (get_sort_clause cols) subsel) in
  subsel ← process_where subsel;
  Ok (remove_mutual_exclusiveness subsel rels).

(** The outer select over the inner one, whose arguments the call at [func] gets. *)
Definition outer_select (s subsel : select) (func : nat) (args : list node -> list node)
    : outcome select :=
  let s := set_whereClause None
    (set_targetList (update_targets func (set_args args) (targetList s)) s) in
  '(s, subsel) ← handle_relation_reference s subsel;
  Ok (set_fromClause [makeRangeSubselect "temp" subsel] s).

Definition generalRewrite (s : select) (rels : list rel_info) (func : nat) : outcome select :=
  subsel ← general_subselect s rels;
  outer_select s subsel func (put_args_general (calculate_total_triples rels)).

Definition HQ_rewriting (s : select) (varOrder : list (list string)) (func : nat) : outcome select :=
  let subsel := set_intoClause None (set_groupClause [] (copy_select copyObject s)) in
  cols ← referenced_columns s;
  let tl := cols ++ newResTargets varOrder VARNAME in
  let subsel := set_targetList (tl ++ newResTargets varOrder PROBNAME)
    (set_sortClause (get_sort_clause tl) subsel) in
  outer_select s subsel func (put_args_HQ (length (fromClause subsel))).

(** A change of the call at an address of the target list. *)
Definition change_call (func : nat) (f : node -> node) (s : select) : select :=
  set_targetList (update_targets func f (targetList s)) s.

Definition rewrite_tconf (s : select) (rels : list rel_info) (tconf : nat) : outcome select :=
  let types := ri_type <$> rels in
  if negb (is_a_general_case types) then
    Ok (change_call tconf (set_args (put_args_to_tconf_independent rels)) s)
  else if negb (valid_types types) then Elog "Invalid table type!"
  else
    s ← process_where (change_call tconf (put_args_to_tconf rels) s);
    Ok (remove_mutual_exclusiveness s rels).

Definition rewrite_aconf (s : select) (rels : list rel_info) (aconf : nat) (args : list node)
    : outcome select :=
  if length args =? 2 then generalRewrite s rels aconf else Elog "aconf takes two parameters".

Definition rewrite_conf (s : select) (rels : list rel_info) (conf : nat) (args : list node)
    : outcome select :=
  let types := ri_type <$> rels in
  if (length args =? 2) || is_a_general_case types then generalRewrite s rels conf
  else if (length (fromClause s) =? 1) && bool_decide (head types = Some TABLETYPE_INDEPENDENT) then
    Ok (change_call conf (set_args put_args_one_relation_HQ) s)
  else
    order ← hierarchical_order s;
    match order with
    | Some varOrder => HQ_rewriting s varOrder conf
    | None => generalRewrite s rels conf
    end.
End Where.

(** ** Selects *)

(** [process_subquery]. *)
Definition process_subquery (process_select : select -> outcome select) (s : select) : outcome select :=
  from ← map_outcome (fun n =>
    match n with
    | RangeSubselect q alias =>
        q ← as_select (Some q); q ← process_select q; Ok (RangeSubselect (Select q) alias)
    | _ => Ok n
    end) (fromClause s);
  let s := set_fromClause from s in
  match op s with
  | SETOP_NONE => Ok s
  | _ =>
      l ← as_select (larg s); l ← process_select l;
      r ← as_select (rarg s); r ← process_select r;
      Ok (set_rarg (Some (Select r)) (set_larg (Some (Select l)) s))
  end.

(** The calls of the confidence computations: the address and the arguments. *)
Definition pointer (o : option node) : option (nat * list node) :=
  match o with Some (FuncCall a _ args _) => Some (a, args) | _ => None end.

(** [esum] and [ecount]: the target list and the call of tconf they made. *)
Definition rewrite_expectations (tl : list target) : outcome (list target * option nat) :=
  let esum := lookup_func_in_targets tl ESUM in
  let ecount := lookup_func_in_targets tl ECOUNT in
  '(tl, tconf) ← match esum with
    | Some f => '(tl, t) ← rewrite_esum tl f; Ok (tl, Some t)
    | None => Ok (tl, None)
    end;
  match ecount with
  | Some f => '(tl, t) ← rewrite_ecount tl f; Ok (tl, Some t)
  | None => Ok (tl, tconf)
  end.

(** The end of [process_select]: the result is certain, or it gets the condition
    columns and the consistency check. *)
Definition attach_condition_columns (s : select) (rels : list rel_info) (isCertainSel : bool)
    : outcome select :=
  if all_relations_are_certain (ri_type <$> rels) || isCertainSel
  then Ok (set_tabletype TABLETYPE_CERTAIN s)
  else
    let s := set_into_type TABLETYPE_URELATION (set_tabletype TABLETYPE_URELATION s) in
    let s := set_dimension (calculate_total_triples rels) s in
    s ← add_condition_columns s rels;
    Ok (remove_mutual_exclusiveness s rels).

Definition process_select_ (process_select : select -> outcome select)
    (process : node -> outcome node) (s : select) : outcome select :=
  s ← process_subquery process_select s;
  '(tl, made) ← rewrite_expectations (targetList s);
  let tconf := match made with
    | Some a => Some a
    | None => fst <$> pointer (lookup_func_in_targets tl TUPLECONF)
    end in
  let conf := pointer (lookup_func_in_targets tl CONF) in
  let aconf := pointer (lookup_func_in_targets tl ACONF) in
  rels ← relations (fromClause s);
  tl ← transform_targetList (star_fuel rels tl) 0 rels tl;
  let s := set_targetList tl s in
  let computes := bool_decide (is_Some tconf) || bool_decide (is_Some conf) || bool_decide (is_Some aconf) in
  if all_relations_are_certain (ri_type <$> rels) && bool_decide (length (repairkey s) = 0)
     && negb (bool_decide (pickingType s = "I"%char)) && negb (possible s) && computes
  then Elog "Query not supported: tconf, conf, aconf, esum and ecount cannot used be in a certain query"
  else
    s ← match tconf, aconf, conf with
        | Some a, _, _ => rewrite_tconf process s rels a
        | None, Some (a, args), _ => rewrite_aconf process s rels a args
        | None, None, Some (a, args) => rewrite_conf process s rels a args
        | None, None, None => Ok s
        end;
    s' ← (if possible s then rewrite_possible process s rels else Ok s);
    match repairkey s' with
    | _ :: _ => ProcessRepairKey s'
    | [] =>
        if bool_decide (pickingType s' = "I"%char) then ProcessPickTuples s'
        else attach_condition_columns s' rels (computes || possible s)
    end.
End Catalog.

(** ** Statements ([rewrite_updates.c] and [process] of [rewrite.c])

    Inserts are padded with new triples, conditions of updates are rewritten, and
    [process] dispatches over the statements.  Its fuel bounds the nesting of
    subqueries ([process_total]). *)

Open Scope string_scope.
Open Scope list_scope.
Open Scope nat_scope.

Section Catalog.
Context (catalog : RangeVar -> option Relation).

(** [getTripleCount] and [getTripleCountRelation]. *)
Definition getTripleCountRelation (rv : RangeVar) : outcome nat :=
  rel ← relation_openrv catalog rv; Ok (relation_triples rel).

Definition getTripleCount (n : node) : outcome nat :=
  certain ← isCertain catalog n;
  if (certain : bool) then Ok 0
  else match n with
  | N_RangeVar rv => getTripleCountRelation rv
  | Select s => getTripleCountSelect catalog s
  | _ => Elog "unsupported node!"
  end.

Definition getAttributes (rv : RangeVar) : outcome (list string) :=
  rel ← relation_openrv catalog rv; Ok (attnames rel).

(** The values of a new triple. *)
Definition new_triple : list node :=
  [makeNextValFuncCall VARIDSEQ; makeNextValFuncCall DOMAINIDSEQ; makeFloatConst "1.0"].

Definition pad_triples (n : nat) : list node := concat (replicate n new_triple).

(** A list of values is extended in place; the result for an empty one is not stored. *)
Definition pad_values (n : nat) (l : list node) : list node :=
  match l with [] => [] | _ => l ++ pad_triples n end.

Definition triple_columns (n : nat) : list string :=
  i ← seq 0 n; [catStrInt VARNAME i; catStrInt DOMAINNAME i; catStrInt PROBNAME i].

(** [processInsert]; an insert of default values has no select. *)
Definition processInsert (process : node -> outcome node) (rel : RangeVar) (cols : list string)
    (q : option node) : outcome node :=
  n ← getTripleCountRelation rel;
  cols ← match cols with
         | [] => getAttributes rel
         | _ => Ok (cols ++ triple_columns n)
         end;
  s ← as_select q;
  match valuesLists s with
  | _ :: _ =>
      Ok (InsertStmt rel cols
            (Some (Select (set_valuesLists (map (pad_values n) (valuesLists s)) s))))
  | [] =>
      q' ← process (Select s);
      s' ← as_select (Some q');
      let pad := map (mk_res None) (pad_triples (n - select_triples s')) in
      Ok (InsertStmt rel cols (Some (Select (set_targetList (targetList s' ++ pad) s'))))
  end.

Definition processUpdate (process : node -> outcome node) (rel : RangeVar) (targets : list target)
    (w : option node) (from : list node) : outcome node :=
  w ← option_outcome (processWhereClause process) w; Ok (UpdateStmt rel targets w from).

Definition processDelete (rel : RangeVar) (us : list node) (w : option node) : outcome node :=
  Ok (DeleteStmt rel us w).

(** The body of [process]: the error of an unsupported query is not raised. *)
Definition process_ (process_select : select -> outcome select) (process : node -> outcome node)
    (n : node) : outcome node :=
  needed ← requiresRewriting catalog n;
  if negb needed then Ok n
  else
    _ ← isSupported catalog n;
    match n with
    | Select s => s ← process_select s; Ok (Select s)
    | InsertStmt rel cols q => processInsert process rel cols q
    | UpdateStmt rel targets w from => processUpdate process rel targets w from
    | DeleteStmt rel us w => processDelete rel us w
    | _ => Ok n
    end.

Fixpoint process (fuel : nat) (n : node) : outcome node :=
  match fuel with
  | 0 => NoFuel
  | S fuel => process_ (process_select fuel) (process fuel) n
  end
with process_select (fuel : nat) (s : select) : outcome select :=
  match fuel with
  | 0 => NoFuel
  | S fuel => process_select_ catalog (process_select fuel) (process fuel) s
  end.
End Catalog.
