(* ===== verification/Sql.v ===== *)
(** * Sql: the meaning of parse trees

    The specification that the rewriting is measured against: the result of a select
    over a database, for the fragment that the theorems speak of (a from clause of
    relations and subqueries, a condition in three-valued logic, expressions over
    columns, [*], grouping with aggregates, DISTINCT and sorting).  Names are resolved
    before any row is read, as the server does.  Operators, casts, scalar functions
    and aggregates other than the comparisons are parameters. *)
From Stdlib Require Import Strings.String Strings.Ascii.
From stdpp Require Import strings.
From S2P Require Import Prelude.
From S2P Require Import ParseTree.
From S2P Require Import RewriteUtils.
From S2P Require Import Worlds.
From S2P Require Import Supported.

Open Scope string_scope.
Open Scope list_scope.
Open Scope nat_scope.

(** ** Values and tables *)

Inductive value :=
  | VInt (z : Z)
  | VReal (q : Qc)
  | VText (s : string)
  | VBool (b : bool)
  | VNull.

#[export] Instance sql_value_eq_dec : EqDecision value.
Proof. solve_decision. Defined.

Abbreviation row := (list value).

Record table := mk_table { columns : list string; rows : list row }.

(** A value as a function of a row. *)
Abbreviation fn := (row -> value).

(** The relations in sight: the qualifier and the columns of each. *)
Abbreviation scope := (list (list string * list string)).

(** What the server supplies. *)
Record sql_ops := mk_ops {
  operator : string -> value -> value -> value;
  cast : list string -> value -> value;
  float_value : string -> value;
  scalar : string -> option (list value -> value);
  aggregate : string -> option (list (list value) -> value);
  sort_rows : list (row -> value) -> list row -> list row }.

(** ** Three-valued logic *)

Definition is_true (v : value) : bool := match v with VBool b => b | _ => false end.
Definition is_false (v : value) : bool := match v with VBool b => negb b | _ => false end.

Definition and3 (a b : value) : value :=
  if is_false a || is_false b then VBool false
  else if is_true a && is_true b then VBool true else VNull.
Definition or3 (a b : value) : value :=
  if is_true a || is_true b then VBool true
  else if is_false a && is_false b then VBool false else VNull.
Definition not3 (a : value) : value :=
  match a with VBool b => VBool (negb b) | _ => VNull end.

Definition equal3 (a b : value) : value :=
  match a, b with
  | VNull, _ | _, VNull => VNull
  | _, _ => VBool (bool_decide (a = b))
  end.

Section Sql.
Context (ops : sql_ops).

Definition apply_op (op : string) (a b : value) : value :=
  if bool_decide (op = "=") then equal3 a b
  else if bool_decide (op = "<>") then not3 (equal3 a b)
  else operator ops op a b.

Definition constant (v : Value) (typename : list string) : value :=
  match v with
  | V_Integer i => VInt i
  | V_Float s => float_value ops s
  | V_Null => VNull
  | V_String s =>
      if bool_decide (typename = ["pg_catalog"; "bool"] /\ s = "t") then VBool true
      else match typename with [] => VText s | _ => cast ops typename (VText s) end
  end.

(** ** Names *)

Definition paths (sc : scope) : list (list string) :=
  concat (map (fun '(q, cs) => map (fun c => q ++ [c]) cs) sc).

(** The only column whose qualified name ends in the reference. *)
Definition resolve (ps : list (list string)) (fields : list string) : option nat :=
  match filter (fun ip => fields `suffix_of` ip.2) (imap pair ps) with
  | [(i, _)] => Some i
  | _ => None
  end.

(** ** Expressions *)

Definition nth_value (i : nat) : fn := fun r => default VNull (r !! i).

Section MapM.
Context {A B : Type} (f : A -> option B).
Fixpoint map_option (l : list A) : option (list B) :=
  match l with
  | [] => Some []
  | a :: l => b ← f a; l ← map_option l; Some (b :: l)
  end.
End MapM.

Fixpoint eval_expr (ps : list (list string)) (n : node) : option fn :=
  match n with
  | ColumnRef fields => nth_value <$> resolve ps fields
  | A_Const v typename => Some (fun _ => constant v typename)
  | A_Expr kind opname lexpr rexpr =>
      let l := match lexpr with Some e => eval_expr ps e | None => None end in
      let r := match rexpr with Some e => eval_expr ps e | None => None end in
      match kind, opname with
      | AEXPR_OP, [op] => f ← l; g ← r; Some (fun row => apply_op op (f row) (g row))
      | AEXPR_AND, _ => f ← l; g ← r; Some (fun row => and3 (f row) (g row))
      | AEXPR_OR, _ => f ← l; g ← r; Some (fun row => or3 (f row) (g row))
      | AEXPR_NOT, _ => g ← r; Some (fun row => not3 (g row))
      | _, _ => None
      end
  | TypeCast arg typename => f ← eval_expr ps arg; Some (fun row => cast ops typename (f row))
  | FuncCall _ [nm] args _ =>
      s ← scalar ops nm; fs ← map_option (eval_expr ps) args;
      Some (fun row => s (map (fun f : fn => f row) fs))
  | _ => None
  end.

(** An expression over a group of rows: an aggregate reads all rows, a column the
    first one. *)
Fixpoint eval_group (ps : list (list string)) (n : node) : option (list row -> value) :=
  match n with
  | ColumnRef fields =>
      i ← resolve ps fields; Some (fun g => match g with r :: _ => nth_value i r | [] => VNull end)
  | A_Const v typename => Some (fun _ => constant v typename)
  | A_Expr AEXPR_OP [op] (Some l) (Some r) =>
      f ← eval_group ps l; g ← eval_group ps r; Some (fun rs => apply_op op (f rs) (g rs))
  | TypeCast arg typename => f ← eval_group ps arg; Some (fun rs => cast ops typename (f rs))
  | FuncCall _ [nm] args _ =>
      match aggregate ops nm with
      | Some agg =>
          fs ← map_option (eval_expr ps) args;
          Some (fun rs => agg (map (fun r => map (fun f : fn => f r) fs) rs))
      | None =>
          s ← scalar ops nm; fs ← map_option (eval_group ps) args;
          Some (fun rs => s (map (fun f : list row -> value => f rs) fs))
      end
  | _ => None
  end.

Fixpoint has_aggregate (n : node) : bool :=
  match n with
  | A_Expr _ _ l r =>
      match l with Some e => has_aggregate e | None => false end
      || match r with Some e => has_aggregate e | None => false end
  | TypeCast arg _ => has_aggregate arg
  | FuncCall _ funcname args _ =>
      match funcname with
      | [nm] => bool_decide (is_Some (aggregate ops nm)) | _ => false
      end || existsb has_aggregate args
  | _ => false
  end.

(** ** Targets *)

(** The name that the server gives a column ([FigureColname]). *)
Fixpoint figure_colname (n : node) : string :=
  match n with
  | ColumnRef fields => default "?column?" (last fields)
  | FuncCall _ funcname _ _ => default "?column?" (last funcname)
  | TypeCast arg _ => figure_colname arg
  | _ => "?column?"
  end.

Definition target_name (r : target) : string :=
  match name r with Some nm => nm | None => figure_colname (val r) end.

(** The columns of the relations of which [*] or [R.*] speaks; [R] is one relation. *)
Definition star_relations (sc : scope) (fields : list string) : option (list (nat * list string)) :=
  let starts := imap (fun i '(q, cs) => (q, (length (paths (take i sc)), cs))) sc in
  match removelast fields with
  | [] => Some starts.*2
  | q =>
      match filter (fun e => q `suffix_of` e.1) starts with
      | [e] => Some [e.2]
      | _ => None
      end
  end.

Definition star_columns (rel : nat * list string) : list (string * fn) :=
  imap (fun i c => (c, nth_value (rel.1 + i))) rel.2.

Definition eval_target (sc : scope) (r : target) : option (list (string * fn)) :=
  match val r with
  | ColumnRef fields =>
      if bool_decide (last fields = Some "*") then
        rels ← star_relations sc fields; Some (concat (map star_columns rels))
      else f ← eval_expr (paths sc) (val r); Some [(target_name r, f)]
  | n => f ← eval_expr (paths sc) n; Some [(target_name r, f)]
  end.

(** ** Selects *)

(** The product of the rows of the relations, the last one varying fastest. *)
Fixpoint product (ts : list (list row)) : list row :=
  match ts with
  | [] => [[]]
  | t :: ts => r ← t; r' ← product ts; [r ++ r']
  end.

(** The clauses outside the fragment are absent. *)
Definition in_fragment (s : select) : bool :=
  bool_decide (op s = SETOP_NONE) && negb (possible s)
  && match repairkey s, valuesLists s with [], [] => true | _, _ => false end
  && negb (bool_decide (pickingType s = "I"%char))
  && match havingClause s, limitOffset s, limitCount s with None, None, None => true | _, _, _ => false end.

Definition grouped (s : select) : bool :=
  match groupClause s with [] => existsb (fun r => has_aggregate (val r)) (targetList s) | _ => true end.

Definition group_target (ps : list (list string)) (r : target) : option (string * (list row -> value)) :=
  f ← eval_group ps (val r); Some (target_name r, f).

(** The groups of the rows, in the order of their keys' last occurrences. *)
Definition groups_by (key : row -> list value) (rs : list row) : list (list row) :=
  map (fun k => filter (fun r => key r = k) rs) (remove_dups (map key rs)).

Definition select_where (s : select) (sc : scope) : option fn :=
  match whereClause s with None => Some (fun _ => VBool true) | Some e => eval_expr (paths sc) e end.

(** The rows after the where clause. *)
Definition filtered (w : fn) (ts : list table) : list row :=
  filter (fun r => is_true (w r) = true) (product (map rows ts)).

Definition distinct_rows (s : select) (rs : list row) : option (list row) :=
  match distinctClause s with
  | None => Some rs
  | Some [] => Some (remove_dups rs)
  | Some _ => None
  end.

Definition project (fs : list fn) (r : row) : row := map (fun f : fn => f r) fs.

(** A select over the tables of its from clause, each with its qualifier. *)
Definition eval_over (s : select) (ts : list (list string * table)) : option table :=
  let sc := map (fun '(q, t) => (q, columns t)) ts in
  w ← select_where s sc;
  let rs := filtered w ts.*2 in
  if grouped s then
    match sortClause s with
    | [] =>
        keys ← map_option (eval_expr (paths sc)) (groupClause s);
        tl ← map_option (group_target (paths sc)) (targetList s);
        let gs := match keys with [] => [rs] | _ => groups_by (project keys) rs end in
        out ← distinct_rows s (map (fun g => map (fun f : list row -> value => f g) tl.*2) gs);
        Some (mk_table tl.*1 out)
    | _ => None
    end
  else
    keys ← map_option (eval_expr (paths sc)) (sortClause s);
    tl ← map_option (eval_target sc) (targetList s);
    let rs := match keys with [] => rs | _ => sort_rows ops keys rs end in
    out ← distinct_rows s (map (project (concat tl).*2) rs);
    Some (mk_table (concat tl).*1 out).

Section Database.
Context (db : RangeVar -> option table).

(** A member of the from clause: its qualifier and its rows. *)
Fixpoint eval_from (n : node) : option (list string * table) :=
  match n with
  | N_RangeVar rv => t ← db rv; Some (removelast (nodeGetFields n), t)
  | RangeSubselect (Select s) alias =>
      t ← (if in_fragment s then ts ← map_option eval_from (fromClause s); eval_over s ts else None);
      Some ([alias], t)
  | _ => None
  end.

Definition eval_select (s : select) : option table :=
  if in_fragment s then ts ← map_option eval_from (fromClause s); eval_over s ts else None.
End Database.
End Sql.

(** ** The worlds of a U-relational database

    A U-relation with [n] triples of condition columns stands for a relation in every
    world: the data columns of the rows whose triples hold there.  The database of a
    world has the instance of every table.  [plain] is the fragment of selects whose
    rewriting the theorem of [RewriteCorrect] covers. *)

Open Scope string_scope.
Open Scope list_scope.
Open Scope nat_scope.

(** The elements at the positions of a mask. *)
Fixpoint keep {A} (m : list bool) (l : list A) : list A :=
  match m, l with
  | b :: m, a :: l => if b then a :: keep m l else keep m l
  | _, _ => []
  end.

(** The value of the first column with a name. *)
Fixpoint lookup_column (cs : list string) (c : string) (r : row) : option value :=
  match cs, r with
  | c' :: cs, v :: r => if bool_decide (c' = c) then Some v else lookup_column cs c r
  | _, _ => None
  end.

Definition is_data (c : string) : bool := negb (isConditionAttribute c).

Definition data_mask (cs : list string) : list bool := map is_data cs.

(** Does triple [k] of a row hold in a world? *)
Definition triple_holds (th : world) (cs : list string) (r : row) (k : nat) : bool :=
  match lookup_column cs (catStrInt VARNAME k) r, lookup_column cs (catStrInt DOMAINNAME k) r with
  | Some (VInt v), Some (VInt d) => sat_lit (v, d) th
  | _, _ => false
  end.

Definition row_holds (th : world) (n : nat) (cs : list string) (r : row) : bool :=
  forallb (triple_holds th cs r) (seq 0 n).

(** The relation of a world. *)
Definition instance (th : world) (n : nat) (t : table) : table :=
  mk_table (keep (data_mask (columns t)) (columns t))
    (map (keep (data_mask (columns t)))
       (filter (fun r => row_holds th n (columns t) r = true) (rows t))).

Section Database.
Context (catalog : RangeVar -> option Relation) (db : RangeVar -> option table).

Definition world_db (th : world) (rv : RangeVar) : option table :=
  rel ← catalog rv; t ← db rv; Some (instance th (relation_triples rel) t).

(** The tables agree with the catalog; a U-relation has its triples, a certain table
    has no column that is named like a condition column; some column holds data. *)
Record table_ok (rel : Relation) (t : table) : Prop := {
  tok_columns : columns t = attnames rel;
  tok_rows : Forall (fun r => length r = length (columns t)) (rows t);
  tok_triples : forall k, k < relation_triples rel ->
    catStrInt VARNAME k ∈ columns t /\ catStrInt DOMAINNAME k ∈ columns t;
  tok_prob : forall k, k < relation_triples rel -> catStrInt PROBNAME k ∈ columns t;
  tok_nodup : NoDup (columns t);
  tok_data : exists c, c ∈ columns t /\ is_data c = true;
  tok_star : "*" ∉ columns t }.

Definition database_ok : Prop :=
  forall rv rel t, catalog rv = Some rel -> db rv = Some t -> table_ok rel t.
End Database.

(** ** Numbers from sequences and natural joins

    The selects that repair-key and pick-tuples build number their rows and join
    subqueries on the columns of the same name.  A sequence is the number it gives next.
    Every row of the result takes one, before duplicates are removed. *)

Open Scope string_scope.
Open Scope list_scope.
Open Scope nat_scope.

Abbreviation sequences := (string -> Z).

Section Numbers.
Context (ops : sql_ops).

(** A call of [nextval], maybe under casts: the sequence, and the value for a number. *)
Fixpoint numbering (n : node) : option (string * (Z -> value)) :=
  match n with
  | FuncCall _ ["nextval"] [A_Const (V_String q) []] _ => Some (q, VInt)
  | TypeCast arg typename => '(q, f) ← numbering arg; Some (q, fun z => cast ops typename (f z))
  | _ => None
  end.

Definition is_numbering (r : target) : bool := bool_decide (is_Some (numbering (val r))).

(** The numbers between the other values of row [i], and their names between the other
    columns. *)
Fixpoint weave_row (seqs : sequences) (i : nat) (tl : list target) (vals : row) : row :=
  match tl with
  | [] => []
  | r :: tl =>
      match numbering (val r), vals with
      | Some (q, f), _ => f (seqs q + Z.of_nat i)%Z :: weave_row seqs i tl vals
      | None, v :: vals => v :: weave_row seqs i tl vals
      | None, [] => []
      end
  end.

Fixpoint weave_names (tl : list target) (names : list string) : list string :=
  match tl with
  | [] => []
  | r :: tl =>
      if is_numbering r then target_name r :: weave_names tl names
      else match names with nm :: names => nm :: weave_names tl names | [] => [] end
  end.

(** A select whose targets may take numbers, each sequence at most once; beside them, a
    target is one column. *)
Definition eval_numbered (s : select) (ts : list (list string * table)) (seqs : sequences)
    : option (table * sequences) :=
  match omap (fun r => numbering (val r)) (targetList s) with
  | [] => t ← eval_over ops s ts; Some (t, seqs)
  | qs =>
      let others := filter (fun r => is_numbering r = false) (targetList s) in
      t ← eval_over ops (set_distinctClause None (set_targetList others s)) ts;
      if bool_decide (NoDup qs.*1) && bool_decide (sortClause s = []) && (length (columns t) =? length others) then
        out ← distinct_rows s (imap (fun i r => weave_row seqs i (targetList s) r) (rows t));
        Some (mk_table (weave_names (targetList s) (columns t)) out,
              fun q => if bool_decide (q ∈ qs.*1) then (seqs q + Z.of_nat (length (rows t)))%Z else seqs q)
      else None
  end.

(** Rows that agree on the common columns, none of them null; the common columns come
    first, then the others of either side. *)
Definition common_columns (t1 t2 : table) : list string := filter (fun c => c ∈ columns t2) (columns t1).

Definition column_value (cs : list string) (r : row) (c : string) : value := default VNull (lookup_column cs c r).

Definition others_of {A} (common cs : list string) (l : list A) : list A :=
  keep (map (fun c => bool_decide (c ∉ common)) cs) l.

Definition natural_join (t1 t2 : table) : option table :=
  let common := common_columns t1 t2 in
  let once cs c := length (filter (fun c' => c' = c) cs) =? 1 in
  let matches r1 r2 := forallb (fun c => is_true (equal3 (column_value (columns t1) r1 c) (column_value (columns t2) r2 c))) common in
  if forallb (fun c => once (columns t1) c && once (columns t2) c) common then
    Some (mk_table
      (common ++ others_of common (columns t1) (columns t1) ++ others_of common (columns t2) (columns t2))
      (r1 ← rows t1; r2 ← filter (fun r2 => matches r1 r2 = true) (rows t2);
       [map (column_value (columns t1) r1) common ++ others_of common (columns t1) r1 ++ others_of common (columns t2) r2]))
  else None.

(** The fields that only the rewriting reads. *)
Definition server_view (s : select) : select := set_pickingType NUL (set_repairkey [] s).

Section Thread.
Context {A B : Type} (f : A -> sequences -> option (B * sequences)).
Fixpoint thread (l : list A) (seqs : sequences) : option (list B * sequences) :=
  match l with
  | [] => Some ([], seqs)
  | a :: l => '(b, seqs) ← f a seqs; '(l, seqs) ← thread l seqs; Some (b :: l, seqs)
  end.
End Thread.

Section Database.
Context (db : RangeVar -> option table).

Fixpoint run_from (n : node) (seqs : sequences) : option (list string * table * sequences) :=
  match n with
  | N_RangeVar rv => t ← db rv; Some (removelast (nodeGetFields n), t, seqs)
  | RangeSubselect (Select s) alias =>
      if in_fragment (server_view s) then
        '(ts, seqs) ← thread run_from (fromClause s) seqs;
        '(t, seqs) ← eval_numbered s ts seqs;
        Some ([alias], t, seqs)
      else None
  | JoinExpr true l r =>
      '(_, t1, seqs) ← run_from l seqs;
      '(_, t2, seqs) ← run_from r seqs;
      t ← natural_join t1 t2;
      Some ([], t, seqs)
  | _ => None
  end.

Definition run_select (s : select) (seqs : sequences) : option (table * sequences) :=
  if in_fragment (server_view s) then
    '(ts, seqs) ← thread run_from (fromClause s) seqs; eval_numbered s ts seqs
  else None.
End Database.
End Numbers.

(** ** Plain selects *)

Section Plain.
Context (ops : sql_ops).

(** An expression over data columns, without confidence computations. *)
Fixpoint data_expr (n : node) : bool :=
  match n with
  | ColumnRef fields => match last fields with Some c => is_data c | None => false end
  | A_Const _ _ => true
  | A_Expr _ _ l r =>
      match l with Some e => data_expr e | None => true end
      && match r with Some e => data_expr e | None => true end
  | TypeCast arg _ => data_expr arg
  | FuncCall _ _ args _ => forallb data_expr args
  | _ => false
  end.

(** [R.*] names a relation of the from clause, [*] has one to speak of. *)
Definition star_known (from : list node) (r : target) : bool :=
  match val r with
  | ColumnRef fields =>
      if bool_decide (last fields = Some "*") then
        match removelast fields with
        | [] => match from with [] => false | _ => true end
        | q => bool_decide (q ∈ map (fun n => removelast (nodeGetFields n)) from)
        end
      else true
  | _ => true
  end.

Definition plain_target (from : list node) (r : target) : bool :=
  data_expr (val r) && is_data (target_name r) && negb (has_aggregate ops (val r))
  && negb (bool_decide (target_name r = "*" /\ ~ (name r = None /\ IsA_ColumnRef (val r) = true)))
  && star_known from r.

(** No qualifier of the from clause ends in another one. *)
Definition qualifiers_ok (from : list node) : Prop :=
  forall i j n1 n2, from !! i = Some n1 -> from !! j = Some n2 ->
    removelast (nodeGetFields n1) `suffix_of` removelast (nodeGetFields n2) -> i = j.

Definition plain_clauses (s : select) : bool :=
  in_fragment s
  && match distinctClause s, groupClause s, sortClause s with None, [], [] => true | _, _, _ => false end
  && negb (hasApproxAggregate (val <$> targetList s))
  && bool_decide (targetList s <> [])
  && forallb (plain_target (fromClause s)) (targetList s)
  && match whereClause s with Some e => data_expr e | None => true end.

(** Selects over relations and plain subqueries. *)
Inductive plain : select -> Prop :=
  | plain_intro s :
      plain_clauses s = true -> qualifiers_ok (fromClause s) ->
      Forall plain_from (fromClause s) -> plain s
with plain_from : node -> Prop :=
  | plain_range rv : plain_from (N_RangeVar rv)
  | plain_subselect s alias : plain s -> plain_from (RangeSubselect (Select s) alias).
End Plain.
