(* ===== verification/SqlFacts.v ===== *)
(** * SqlFacts: laws of the evaluation of selects

    Masks and joined rows, the resolution of names, and the evaluation of an expression
    over data columns, which does not see the condition columns. *)
From Stdlib Require Import Strings.String Strings.Ascii.
From stdpp Require Import strings.
From S2P Require Import Prelude.
From S2P Require Import Worlds.
From S2P Require Import ParseTree.
From S2P Require Import RewriteUtils.
From S2P Require Import Sql.
From S2P Require Import Rewrite.

Open Scope string_scope.
Open Scope list_scope.
Open Scope nat_scope.

(** ** Lists *)

Lemma map_option_Forall2 {A B} (f : A -> option B) (l : list A) (k : list B) :
  map_option f l = Some k <-> Forall2 (fun a b => f a = Some b) l k.
Proof.
  revert k. induction l as [|a l IH]; intros k; simpl.
  - split; [by intros [= <-]|]. by intros ->%Forall2_nil_inv_l.
  - split.
    + intros (b & Hb & (k' & Hk & [= <-])%bind_Some)%bind_Some. constructor; [done|]. by apply IH.
    + intros (b & k' & -> & Hk & ->)%Forall2_cons_inv_l. simpl. apply IH in Hk as ->. done.
Qed.

Lemma map_option_app {A B} (f : A -> option B) (l1 l2 : list A) (k : list B) :
  map_option f (l1 ++ l2) = Some k <->
  exists k1 k2, map_option f l1 = Some k1 /\ map_option f l2 = Some k2 /\ k = k1 ++ k2.
Proof.
  rewrite map_option_Forall2. split.
  - intros (k1 & k2 & H1 & H2 & ->)%Forall2_app_inv_l. exists k1, k2.
    by rewrite !map_option_Forall2.
  - intros (k1 & k2 & H1%map_option_Forall2 & H2%map_option_Forall2 & ->). by apply Forall2_app.
Qed.

Lemma filter_cons_bool {A} (p : A -> bool) (a : A) (l : list A) :
  filter (fun a => p a = true) (a :: l) =
  (if p a then [a] else []) ++ filter (fun a => p a = true) l.
Proof. rewrite filter_cons. by destruct (p a). Qed.

Lemma lookup_map {A B} (f : A -> B) (l : list A) (i : nat) : map f l !! i = f <$> l !! i.
Proof. apply list_lookup_fmap. Qed.

Section Filter.
Context {A B : Type}.

Lemma filter_map_bool (p : B -> bool) (f : A -> B) (l : list A) :
  filter (fun b => p b = true) (map f l) = map f (filter (fun a => p (f a) = true) l).
Proof.
  induction l as [|a l IH]; [done|]. simpl map. rewrite !filter_cons_bool, IH.
  by destruct (p (f a)).
Qed.

Lemma filter_filter_bool (p q : A -> bool) (l : list A) :
  filter (fun a => p a = true) (filter (fun a => q a = true) l) =
  filter (fun a => p a && q a = true) l.
Proof.
  induction l as [|a l IH]; [done|]. rewrite !filter_cons_bool.
  destruct (q a); simpl; rewrite ?filter_cons_bool, IH; by destruct (p a).
Qed.

(** Two ways to filter and map that agree on the members of the list. *)
Lemma filter_map_ext (p q : A -> bool) (f g : A -> B) (l : list A) :
  (forall a, a ∈ l -> p a = q a) -> (forall a, a ∈ l -> q a = true -> f a = g a) ->
  map f (filter (fun a => p a = true) l) = map g (filter (fun a => q a = true) l).
Proof.
  intros Hp Hf. induction l as [|a l IH]; [done|].
  rewrite !filter_cons_bool, !map_app, (Hp a) by left.
  rewrite IH; [|intros; apply Hp; by right|intros; apply Hf; [by right|done]].
  destruct (q a) eqn:Hq; [|done]. simpl. by rewrite (Hf a) by (done || left).
Qed.
End Filter.

Lemma filter_ext_bool {A} (p q : A -> bool) (l : list A) :
  (forall a, p a = q a) -> filter (fun a => p a = true) l = filter (fun a => q a = true) l.
Proof. intros H. induction l as [|a l IH]; [done|]. by rewrite !filter_cons_bool, H, IH. Qed.

Lemma forallb_ext_in {A} (f g : A -> bool) (l : list A) :
  (forall a, In a l -> f a = g a) -> forallb f l = forallb g l.
Proof.
  induction l as [|a l IH]; intros H; [done|]. simpl. f_equal; [apply H; by left|].
  apply IH. intros b Hb. apply H. by right.
Qed.

Lemma forallb_Forall_true {A} (f : A -> bool) (l : list A) :
  forallb f l = true -> Forall (fun a => f a = true) l.
Proof. rewrite forallb_forall, Forall_forall. intros H a Ha. by apply H, list_elem_of_In. Qed.

Lemma filter_none_bool {A} (l : list A) : filter (fun _ => false = true) l = [].
Proof. induction l as [|a l IH]; [done|]. by rewrite filter_cons_False. Qed.

Lemma bind_singleton {A B} (f : A -> B) (l : list A) : (l ≫= fun a => [f a]) = map f l.
Proof. induction l as [|a l IH]; [done|]. by rewrite bind_cons, IH. Qed.

(** ** Masks *)

Section Keep.
Context {A B : Type}.

Lemma keep_app (m1 m2 : list bool) (l1 l2 : list A) :
  length m1 = length l1 -> keep (m1 ++ m2) (l1 ++ l2) = keep m1 l1 ++ keep m2 l2.
Proof.
  revert l1. induction m1 as [|b m1 IH]; intros [|a l1] Hl; try done.
  simpl in *. injection Hl as Hl. rewrite IH by done. by destruct b.
Qed.

Lemma keep_true (m : list bool) (l : list A) :
  length m = length l -> Forall (fun b => b = true) m -> keep m l = l.
Proof.
  revert l. induction m as [|b m IH]; intros [|a l] Hl Hm; try done.
  apply Forall_cons in Hm as [-> Hm]. simpl in *. rewrite IH by (done || lia). done.
Qed.

Lemma keep_false (m : list bool) (l : list A) :
  Forall (fun b => b = false) m -> keep m l = [].
Proof.
  revert l. induction m as [|b m IH]; intros [|a l] Hm; try done.
  apply Forall_cons in Hm as [-> Hm]. simpl. by apply IH.
Qed.

Lemma keep_zip (m : list bool) (l : list A) (k : list B) :
  length l = length k -> keep m (zip l k) = zip (keep m l) (keep m k).
Proof.
  revert l k. induction m as [|b m IH]; intros [|a l] [|c k] Hl; try done; simpl in *.
  rewrite IH by lia. by destruct b.
Qed.

Lemma keep_map (m : list bool) (f : A -> B) (l : list A) : keep m (map f l) = map f (keep m l).
Proof.
  revert l. induction m as [|b m IH]; intros [|a l]; try done. simpl. rewrite IH. by destruct b.
Qed.

Lemma length_keep (m : list bool) (l : list A) (k : list B) :
  length l = length k -> length (keep m l) = length (keep m k).
Proof.
  revert l k. induction m as [|b m IH]; intros [|a l] [|c k] Hl; try done; simpl in *.
  destruct b; simpl; by rewrite (IH l k) by lia.
Qed.

(** Positions that the filter drops may be masked. *)
Lemma filter_keep (p : A -> Prop) `{forall a, Decision (p a)} (m : list bool) (l : list A) :
  (forall i a, l !! i = Some a -> p a -> m !! i = Some true) ->
  filter p (keep m l) = filter p l.
Proof.
  revert m. induction l as [|a l IH]; intros m Hp; [by destruct m|].
  assert (Hl : filter p (keep (tail m) l) = filter p l).
  { apply IH. intros i a' Hi Ha. specialize (Hp (S i) a' Hi Ha). by destruct m. }
  destruct m as [|[] m]; cbn [keep tail] in *.
  - rewrite (filter_cons_False _ a); [by rewrite <- Hl|]. intros Ha. by specialize (Hp 0 a eq_refl Ha).
  - by rewrite !filter_cons, Hl.
  - rewrite (filter_cons_False _ a); [done|]. intros Ha. by specialize (Hp 0 a eq_refl Ha).
Qed.
End Keep.

Lemma keep_data_mask (cs : list string) :
  keep (data_mask cs) cs = filter (fun c => is_data c = true) cs.
Proof.
  induction cs as [|c cs IH]; [done|]. rewrite filter_cons_bool, <- IH. simpl.
  by destruct (is_data c).
Qed.

(** ** Products of rows *)

(** The choices of one row from each table. *)
Fixpoint cross {A} (ts : list (list A)) : list (list A) :=
  match ts with
  | [] => [[]]
  | t :: ts => r ← t; rs ← cross ts; [r :: rs]
  end.

Lemma bind_map {A B C} (f : A -> B) (g : B -> list C) (l : list A) : map f l ≫= g = l ≫= (g ∘ f).
Proof. induction l as [|a l IH]; [done|]. cbn [map]. by rewrite !bind_cons, IH. Qed.

Lemma map_bind {A B C} (f : B -> C) (g : A -> list B) (l : list A) :
  map f (l ≫= g) = l ≫= (fun a => map f (g a)).
Proof. induction l as [|a l IH]; [done|]. by rewrite !bind_cons, map_app, IH. Qed.

Lemma product_cross (ts : list (list row)) : product ts = map (@concat value) (cross ts).
Proof.
  induction ts as [|t ts IH]; [done|]. cbn [product cross]. rewrite map_bind.
  apply list_bind_ext; [|done]. intros r. rewrite IH, bind_map, map_bind. by apply list_bind_ext.
Qed.

Lemma elem_of_cross {A} (ts : list (list A)) (rs : list A) :
  rs ∈ cross ts <-> Forall2 (fun r t => r ∈ t) rs ts.
Proof.
  revert rs. induction ts as [|t ts IH]; intros rs; simpl.
  - rewrite list_elem_of_singleton. split; [by intros ->|]. by intros ->%Forall2_nil_inv_r.
  - rewrite list_elem_of_bind. setoid_rewrite list_elem_of_bind. split.
    + intros (r & (rs' & ->%list_elem_of_singleton & Hrs) & Hr). constructor; [done|]. by apply IH.
    + intros (r & rs' & Hr & Hrs & ->)%Forall2_cons_inv_r. exists r. split; [|done].
      exists rs'. split; [by left|]. by apply IH.
Qed.

(** Filtering and mapping the rows of each table filters and maps the choices. *)
Section CrossInstance.
Context {A B T : Type} (rows : T -> list A) (holds : T -> A -> bool) (f : T -> A -> B).

Definition all_hold (ts : list T) (rs : list A) : bool := forallb (fun p => holds p.1 p.2) (zip ts rs).

Lemma all_hold_cons (t : T) (r : A) (ts : list T) (rs : list A) :
  all_hold (t :: ts) (r :: rs) = holds t r && all_hold ts rs.
Proof. done. Qed.

Lemma cross_filter_map (ts : list T) :
  cross (map (fun t => map (f t) (filter (fun r => holds t r = true) (rows t))) ts) =
  map (fun rs => zip_with f ts rs) (filter (fun rs => all_hold ts rs = true) (cross (map rows ts))).
Proof.
  induction ts as [|t ts IH]; [done|]. cbn [map cross]. rewrite IH. clear IH.
  induction (rows t) as [|r R IH]; [done|].
  rewrite bind_cons, filter_app, map_app, <- IH, filter_cons_bool, map_app, bind_app. f_equal. clear IH.
  rewrite !bind_singleton, filter_map_bool, !map_map.
  rewrite (filter_ext_bool (fun rs => all_hold (t :: ts) (r :: rs))
             (fun rs => holds t r && all_hold ts rs)) by done.
  destruct (holds t r); simpl; rewrite ?app_nil_r, ?bind_singleton, ?map_map; [done|].
  by rewrite filter_none_bool.
Qed.
End CrossInstance.

(** ** Names *)

Lemma imap_filter_snd {A} (p : A -> Prop) `{forall a, Decision (p a)} (f : nat -> nat) (l : list A) :
  (filter (fun ia => p ia.2) (imap (fun i a => (f i, a)) l)).*2 = filter p l.
Proof.
  revert f. induction l as [|a l IH]; intros f; [done|].
  rewrite imap_cons, !filter_cons. cbn [snd].
  destruct (decide (p a)); [cbn|]; by rewrite <- (IH (f ∘ S)).
Qed.

Lemma filter_zip_fst {A B} (p : A -> Prop) `{forall a, Decision (p a)} (l : list A) (r : list B) :
  length r = length l -> (filter (fun ab => p ab.1) (zip l r)).*1 = filter p l.
Proof.
  revert r. induction l as [|a l IH]; intros [|b r] Hl; try done. simpl in Hl.
  cbn [zip_with]. rewrite !filter_cons. cbn [fst].
  destruct (decide (p a)); [rewrite fmap_cons|]; by rewrite IH by lia.
Qed.

Lemma filter_zip_imap {A B} (p : A -> Prop) `{forall a, Decision (p a)} (l : list A) (r : list B)
    (k i : nat) (a : A) :
  length r = length l ->
  filter (fun ia => p ia.2) (imap (fun j a => (k + j, a)) l) = [(i, a)] ->
  exists b, k <= i /\ r !! (i - k) = Some b /\ filter (fun ab => p ab.1) (zip l r) = [(a, b)].
Proof.
  revert r k. induction l as [|a0 l IH]; intros [|b r] k Hl; try done. simpl in Hl.
  rewrite imap_cons. cbn [zip_with]. rewrite !filter_cons. cbn [fst snd].
  destruct (decide (p a0)) as [Ha|Ha].
  - intros [= <- <- Hrest]. exists b. rewrite Nat.add_0_r, Nat.sub_diag. split_and!; [lia|done|].
    f_equal. apply (fmap_nil_inv fst). rewrite filter_zip_fst by lia.
    rewrite <- (imap_filter_snd p (fun j => k + S j)). apply (f_equal (fmap snd)) in Hrest. exact Hrest.
  - intros Hrest. destruct (IH r (S k)) as (b' & Hk & Hb & Hf); [lia| |].
    + rewrite <- Hrest. f_equal. apply imap_ext. intros. simpl. f_equal. lia.
    + exists b'. split_and!; [lia| |done]. replace (i - k) with (S (i - S k)) by lia. done.
Qed.

(** The value of a resolved name is that of the only matching column. *)
Lemma resolve_Some (ps : list (list string)) (fields : list string) (i : nat) (r : row) :
  resolve ps fields = Some i -> length r = length ps ->
  exists p, filter (fun pv => fields `suffix_of` pv.1) (zip ps r) = [(p, nth_value i r)].
Proof.
  unfold resolve, nth_value. intros Hr Hl.
  destruct (filter _ (imap pair ps)) as [|[i' p] [|]] eqn:Hf; simplify_eq.
  destruct (filter_zip_imap (fun q => fields `suffix_of` q) ps r 0 i p Hl) as (b & _ & Hb & Hz).
  { by rewrite <- Hf. }
  exists p. rewrite Nat.sub_0_r in Hb. by rewrite Hb.
Qed.

Lemma resolve_is_Some (ps : list (list string)) (fields : list string) :
  is_Some (resolve ps fields) <-> length (filter (fun p => fields `suffix_of` p) ps) = 1.
Proof.
  rewrite <- (imap_filter_snd (fun p => fields `suffix_of` p) id ps), length_fmap. unfold resolve, id.
  change (imap (fun i a => (i, a)) ps) with (imap pair ps).
  destruct (filter _ _) as [|[i p] [|]]; simpl; split; first [done | by eauto | by intros []].
Qed.

(** ** Data columns *)

Definition path_mask (ps : list (list string)) : list bool :=
  map (fun p => match last p with Some c => is_data c | None => false end) ps.

Lemma suffix_last {A} (l k : list A) (a : A) :
  l `suffix_of` k -> last l = Some a -> last k = Some a.
Proof. intros [z ->] Hl. by rewrite last_app, Hl. Qed.

(** A reference to a data column resolves in the data columns, to the same value. *)
Lemma resolve_keep (ps : list (list string)) (fields : list string) (c : string) :
  last fields = Some c -> is_data c = true ->
  match resolve ps fields, resolve (keep (path_mask ps) ps) fields with
  | Some i, Some j => forall r, length r = length ps -> nth_value j (keep (path_mask ps) r) = nth_value i r
  | None, None => True
  | _, _ => False
  end.
Proof.
  intros Hlast Hc.
  assert (Hm : forall p i, ps !! i = Some p -> fields `suffix_of` p -> path_mask ps !! i = Some true).
  { intros p i Hi Hp. unfold path_mask. rewrite list_lookup_fmap, Hi. simpl.
    by rewrite (suffix_last _ _ _ Hp Hlast), Hc. }
  assert (Hlen : is_Some (resolve ps fields) <-> is_Some (resolve (keep (path_mask ps) ps) fields)).
  { rewrite !resolve_is_Some, filter_keep; [done|]. intros i p Hi Hp. by apply (Hm p). }
  destruct (resolve ps fields) as [i|] eqn:Hi, (resolve (keep _ ps) fields) as [j|] eqn:Hj;
    [|by destruct (proj1 Hlen ltac:(by eexists))|by destruct (proj2 Hlen ltac:(by eexists))|done].
  intros r Hr. destruct (resolve_Some _ _ _ r Hi Hr) as (p & Hz).
  destruct (resolve_Some _ _ _ (keep (path_mask ps) r) Hj) as (q & Hz').
  { by apply length_keep. }
  rewrite <- keep_zip in Hz' by done. rewrite filter_keep in Hz'; [congruence|].
  intros k [p' v] Hk Hp. apply (Hm p'); [|done]. by apply lookup_zip_Some in Hk as [? _].
Qed.

Section Expressions.
Context (ops : sql_ops).

(** The function on whole rows and that on their data columns agree. *)
Definition agree (m : list bool) (n : nat) (f g : fn) : Prop :=
  forall r, length r = n -> g (keep m r) = f r.

Definition agree_opt (m : list bool) (n : nat) (f g : option fn) : Prop := option_Forall2 (agree m n) f g.

Lemma agree_bind (m : list bool) (n : nat) (f1 g1 : option fn) (k l : fn -> option fn) :
  agree_opt m n f1 g1 -> (forall f g, agree m n f g -> agree_opt m n (k f) (l g)) ->
  agree_opt m n (f1 ≫= k) (g1 ≫= l).
Proof. intros [f g Hfg|] Hk; [by apply Hk | constructor]. Qed.

Lemma agree_list (m : list bool) (n : nat) (e1 e2 : node -> option fn) (args : list node) :
  Forall (fun a => agree_opt m n (e1 a) (e2 a)) args ->
  option_Forall2 (Forall2 (agree m n)) (map_option e1 args) (map_option e2 args).
Proof.
  induction 1 as [|a args Ha _ IH]; cbn [map_option]; [by repeat constructor|].
  destruct Ha as [f g Hfg|]; cbn [mbind option_bind]; [|constructor].
  destruct IH; cbn [mbind option_bind]; by repeat constructor.
Qed.

Lemma eval_expr_data (ps : list (list string)) (n : node) :
  data_expr n = true ->
  agree_opt (path_mask ps) (length ps) (eval_expr ops ps n) (eval_expr ops (keep (path_mask ps) ps) n).
Proof.
  induction n as [kind opname l r IHl IHr|arg t IH|addr f args star IH|n Hn] using expr_ind;
    simpl; intros Hd.
  - apply andb_prop in Hd as [Hl Hr].
    assert (Al : agree_opt (path_mask ps) (length ps)
      (match l with Some e => eval_expr ops ps e | None => None end)
      (match l with Some e => eval_expr ops (keep (path_mask ps) ps) e | None => None end)).
    { destruct l; [by apply IHl | constructor]. }
    assert (Ar : agree_opt (path_mask ps) (length ps)
      (match r with Some e => eval_expr ops ps e | None => None end)
      (match r with Some e => eval_expr ops (keep (path_mask ps) ps) e | None => None end)).
    { destruct r; [by apply IHr | constructor]. }
    destruct kind, opname as [|op [|]]; try constructor;
      repeat (apply agree_bind; [done|]; intros ?? ?; cbv beta); constructor; intros row Hrow;
      repeat match goal with H : agree _ _ _ _ |- _ => rewrite (H _ Hrow) end; done.
  - apply agree_bind; [by apply IH|]. intros g h Hag. constructor. intros row Hrow.
    by rewrite (Hag _ Hrow).
  - destruct f as [|nm [|]]; try constructor. destruct (scalar ops nm) as [s|]; simpl; [|constructor].
    pose proof (agree_list (path_mask ps) (length ps) (eval_expr ops ps)
      (eval_expr ops (keep (path_mask ps) ps)) args) as Hargs.
    destruct Hargs as [fs gs Hfs|]; [|simpl; constructor; intros row Hrow|constructor].
    + rewrite forallb_forall in Hd. apply Forall_forall. intros a Ha.
      rewrite Forall_forall in IH. apply IH; [done|]. by apply Hd, list_elem_of_In.
    + f_equal. induction Hfs as [|g h fs gs Hgh _ IHfs]; [done|]. simpl. by rewrite (Hgh _ Hrow), IHfs.
  - destruct n; try discriminate Hd; try done; simpl.
    + simpl in Hd. destruct (last fields) as [c|] eqn:Hc; [|discriminate Hd].
      pose proof (resolve_keep ps fields c Hc Hd) as Hres.
      destruct (resolve ps fields), (resolve (keep _ ps) fields); try done; constructor.
      intros row Hrow. by apply Hres.
    + by constructor.
Qed.
End Expressions.

(** ** A copy of a select means the same

    [copyObject] drops the fields of MayBMS; the meaning of a select that does not use
    them is kept, and so are expressions without subqueries themselves. *)

Open Scope string_scope.
Open Scope list_scope.
Open Scope nat_scope.

Lemma copy_data_expr (n : node) : data_expr n = true -> copyObject n = n.
Proof.
  induction n as [kind opname l r IHl IHr|arg t IH|addr f args star IH|n Hn] using expr_ind; simpl; intros Hd.
  - apply andb_prop in Hd as [Hl Hr]. f_equal.
    + destruct l as [e|]; [|done]. simpl. by rewrite (IHl e).
    + destruct r as [e|]; [|done]. simpl. by rewrite (IHr e).
  - by rewrite IH.
  - f_equal. apply forallb_Forall_true in Hd. induction IH as [|a args Ha _ IHa]; [done|].
    apply Forall_cons in Hd as [Hda Hd]. simpl. by rewrite Ha, IHa.
  - by destruct n.
Qed.

(** [processWhereClause] does nothing without subqueries. *)
Lemma processWhereClause_data (process : node -> outcome node) (n : node) :
  data_expr n = true -> processWhereClause process n = Ok n.
Proof.
  induction n as [kind opname l r IHl IHr|arg t IH|addr f args star IH|n Hn] using expr_ind; simpl; intros Hd;
    [|done|done|by destruct n].
  apply andb_prop in Hd as [Hl Hr].
  assert (El : option_outcome (processWhereClause process) l = Ok l).
  { destruct l as [e|]; [|done]. simpl. by rewrite (IHl e). }
  assert (Er : option_outcome (processWhereClause process) r = Ok r).
  { destruct r as [e|]; [|done]. simpl. by rewrite (IHr e). }
  destruct kind; rewrite ?El, ?Er; done.
Qed.

Section Copy.
Context (ops : sql_ops).

Lemma map_option_copy {B} (e : node -> option B) (args : list node) :
  Forall (fun a => e (copyObject a) = e a) args -> map_option e (map copyObject args) = map_option e args.
Proof. induction 1 as [|a args Ha _ IH]; [done|]. simpl. by rewrite Ha, IH. Qed.

Lemma eval_expr_copy (ps : list (list string)) (n : node) :
  eval_expr ops ps (copyObject n) = eval_expr ops ps n.
Proof.
  induction n as [kind opname l r IHl IHr|arg t IH|addr f args star IH|n Hn] using expr_ind.
  - simpl.
    replace (match copyObject <$> l with Some e => eval_expr ops ps e | None => None end)
      with (match l with Some e => eval_expr ops ps e | None => None end)
      by (destruct l as [e|]; [simpl; by rewrite (IHl e)|done]).
    replace (match copyObject <$> r with Some e => eval_expr ops ps e | None => None end)
      with (match r with Some e => eval_expr ops ps e | None => None end)
      by (destruct r as [e|]; [simpl; by rewrite (IHr e)|done]).
    done.
  - simpl. by rewrite IH.
  - simpl. destruct f as [|nm [|]]; try done. destruct (scalar ops nm); [|done]. simpl.
    by rewrite (map_option_copy _ args IH).
  - by destruct n.
Qed.

Lemma eval_group_copy (ps : list (list string)) (n : node) :
  eval_group ops ps (copyObject n) = eval_group ops ps n.
Proof.
  induction n as [kind opname l r IHl IHr|arg t IH|addr f args star IH|n Hn] using expr_ind.
  - simpl. destruct kind, opname as [|op [|]], l as [l|], r as [r|]; try done. simpl.
    by rewrite (IHl l), (IHr r).
  - simpl. by rewrite IH.
  - simpl. destruct f as [|nm [|]]; try done. destruct (aggregate ops nm).
    + by rewrite map_option_copy by (apply Forall_forall; intros a _; apply eval_expr_copy).
    + destruct (scalar ops nm); [|done]. simpl. by rewrite (map_option_copy _ args IH).
  - by destruct n.
Qed.

Lemma has_aggregate_copy (n : node) : has_aggregate ops (copyObject n) = has_aggregate ops n.
Proof.
  induction n as [kind opname l r IHl IHr|arg t IH|addr f args star IH|n Hn] using expr_ind.
  - simpl. f_equal; [destruct l as [e|]; [by apply (IHl e)|done]|destruct r as [e|]; [by apply (IHr e)|done]].
  - simpl. by rewrite IH.
  - simpl. f_equal. induction IH as [|a args Ha _ IHa]; [done|]. simpl. by rewrite Ha, IHa.
  - by destruct n.
Qed.

Lemma figure_colname_copy (n : node) : figure_colname (copyObject n) = figure_colname n.
Proof.
  induction n as [kind opname l r IHl IHr|arg t IH|addr f args star IH|n Hn] using expr_ind; try done.
  by destruct n.
Qed.

Lemma target_name_copy (r : target) : target_name (copy_target copyObject r) = target_name r.
Proof. unfold target_name, copy_target. simpl. by rewrite figure_colname_copy. Qed.

Lemma eval_target_copy (sc : scope) (r : target) :
  eval_target ops sc (copy_target copyObject r) = eval_target ops sc r.
Proof.
  assert (H : forall r, IsA_ColumnRef (val r) = false ->
    eval_target ops sc r = (f ← eval_expr ops (paths sc) (val r); Some [(target_name r, f)])).
  { clear r. intros [nm v]. unfold eval_target. simpl. by destruct v. }
  destruct (IsA_ColumnRef (val r)) eqn:Hc.
  - destruct r as [nm v]. simpl in Hc. by destruct v.
  - rewrite !H; [|done|].
    + rewrite target_name_copy. unfold copy_target. cbn [val]. by rewrite eval_expr_copy.
    + unfold copy_target. cbn [val]. by destruct (val r).
Qed.

Lemma map_option_map {A B C} (f : B -> option C) (g : A -> B) (l : list A) :
  map_option f (map g l) = map_option (fun a => f (g a)) l.
Proof. induction l as [|a l IH]; [done|]. simpl. by rewrite IH. Qed.

Lemma map_option_ext {A B} (f g : A -> option B) (l : list A) :
  (forall a, a ∈ l -> f a = g a) -> map_option f l = map_option g l.
Proof.
  induction l as [|a l IH]; intros H; [done|]. simpl. rewrite (H a) by by left.
  by rewrite IH by (intros b Hb; apply H; by right).
Qed.

Lemma existsb_map {A B} (f : B -> bool) (g : A -> B) (l : list A) :
  existsb f (map g l) = existsb (fun a => f (g a)) l.
Proof. induction l as [|a l IH]; [done|]. simpl. by rewrite IH. Qed.

Lemma in_fragment_copy (s : select) : in_fragment s = true -> in_fragment (copy_select copyObject s) = true.
Proof.
  unfold in_fragment. simpl. destruct (repairkey s), (valuesLists s), (havingClause s), (limitOffset s), (limitCount s);
    simpl; rewrite ?andb_true_iff; try tauto; try (intros [[[[] _] _] _]; done).
Qed.

Lemma eval_over_copy (s : select) (ts : list (list string * table)) :
  eval_over ops (copy_select copyObject s) ts = eval_over ops s ts.
Proof.
  unfold eval_over.
  assert (Hw : forall sc, select_where ops (copy_select copyObject s) sc = select_where ops s sc).
  { intros sc. unfold select_where. simpl. destruct (whereClause s); [apply eval_expr_copy | done]. }
  assert (Hg : grouped ops (copy_select copyObject s) = grouped ops s).
  { unfold grouped. simpl. destruct (groupClause s); [|done]. simpl. rewrite existsb_map.
    induction (targetList s) as [|r l IH]; [done|]. simpl. rewrite has_aggregate_copy. by f_equal. }
  assert (Hd : forall rs, distinct_rows (copy_select copyObject s) rs = distinct_rows s rs).
  { intros rs. unfold distinct_rows. simpl. by destruct (distinctClause s) as [[|]|]. }
  rewrite Hw, Hg. destruct (select_where ops s _); [|done]. cbn [mbind option_bind]. simpl sortClause.
  destruct (grouped ops s).
  - destruct (sortClause s); [|done]. simpl. rewrite !map_option_map.
    rewrite (map_option_ext _ (eval_expr ops (paths (map (fun '(q, t) => (q, columns t)) ts))))
      by (intros; apply eval_expr_copy).
    destruct (map_option _ (groupClause s)); [|done]. simpl.
    rewrite (map_option_ext _ (group_target ops (paths (map (fun '(q, t) => (q, columns t)) ts)))).
    + destruct (map_option _ (targetList s)); [|done]. simpl. by rewrite Hd.
    + intros r _. unfold group_target. rewrite target_name_copy. simpl. by rewrite eval_group_copy.
  - rewrite map_option_map.
    rewrite (map_option_ext _ (eval_expr ops (paths (map (fun '(q, t) => (q, columns t)) ts))))
      by (intros; apply eval_expr_copy).
    destruct (map_option _ (sortClause s)); [|done]. simpl. rewrite map_option_map.
    rewrite (map_option_ext _ (eval_target ops (map (fun '(q, t) => (q, columns t)) ts)))
      by (intros; apply eval_target_copy).
    destruct (map_option _ (targetList s)); [|done]. simpl. by rewrite Hd.
Qed.
End Copy.
