(* ===== verification/ScopeFacts.v ===== *)
(** * ScopeFacts: the relations of a from clause and their joined rows

    The items of a from clause are its relations with their tables.  A joined row
    consists of a part for each of them; masking the condition columns of the joined row
    masks them in every part, and a qualified name reads a column of one part. *)
From Stdlib Require Import Strings.String Strings.Ascii.
From stdpp Require Import strings.
From S2P Require Import Prelude.
From S2P Require Import Worlds.
From S2P Require Import ParseTree.
From S2P Require Import RewriteUtils.
From S2P Require Import Rewrite.
From S2P Require Import Sql.
From S2P Require Import SqlFacts.
Open Scope string_scope.
Open Scope list_scope.
Open Scope nat_scope.

Abbreviation item := (rel_info * table)%type.

Definition item_table (it : item) : list string * table := (qualifier it.1, it.2).
Definition item_scope (it : item) : list string * list string := (qualifier it.1, columns it.2).

(** The item in a world. *)
Definition item_world (th : world) (it : item) : list string * table :=
  (qualifier it.1, instance th (ri_triples it.1) it.2).
Definition data_scope (it : item) : list string * list string :=
  (qualifier it.1, keep (data_mask (columns it.2)) (columns it.2)).

Definition part_of (it : item) (p : row) : Prop := length p = length (columns it.2).
Definition data_part (it : item) (p : row) : row := keep (data_mask (columns it.2)) p.
Definition part_holds (th : world) (it : item) (p : row) : bool :=
  row_holds th (ri_triples it.1) (columns it.2) p.

Lemma paths_cons (q : list string) (cs : list string) (sc : scope) :
  paths ((q, cs) :: sc) = map (fun c => q ++ [c]) cs ++ paths sc.
Proof. done. Qed.

Lemma paths_app (sc1 sc2 : scope) : paths (sc1 ++ sc2) = paths sc1 ++ paths sc2.
Proof.
  induction sc1 as [|[q cs] sc1 IH]; [done|]. rewrite <- app_comm_cons, !paths_cons, IH.
  by rewrite app_assoc.
Qed.

Lemma path_mask_app (ps1 ps2 : list (list string)) :
  path_mask (ps1 ++ ps2) = path_mask ps1 ++ path_mask ps2.
Proof. apply map_app. Qed.

Lemma path_mask_qualified (q cs : list string) :
  path_mask (map (fun c => q ++ [c]) cs) = data_mask cs.
Proof. unfold path_mask. rewrite map_map. apply map_ext. intros c. by rewrite last_snoc. Qed.

Lemma length_path_mask (ps : list (list string)) : length (path_mask ps) = length ps.
Proof. apply length_map. Qed.

Lemma length_data_mask (cs : list string) : length (data_mask cs) = length cs.
Proof. apply length_map. Qed.

Lemma paths_data (its : list item) :
  keep (path_mask (paths (map item_scope its))) (paths (map item_scope its)) =
  paths (map data_scope its).
Proof.
  induction its as [|it its IH]; [done|]. cbn [map]. unfold item_scope at 1 3, data_scope at 1.
  rewrite !paths_cons, path_mask_app, keep_app, IH by apply length_path_mask.
  by rewrite path_mask_qualified, keep_map.
Qed.

Lemma length_parts (its : list item) (parts : list row) :
  Forall2 part_of its parts -> length (concat parts) = length (paths (map item_scope its)).
Proof.
  induction 1 as [|it p its parts Hp _ IH]; [done|]. cbn [map concat].
  unfold item_scope at 1. rewrite paths_cons, !length_app, length_map, IH. by rewrite Hp.
Qed.

Lemma keep_parts (its : list item) (parts : list row) :
  Forall2 part_of its parts ->
  keep (path_mask (paths (map item_scope its))) (concat parts) = concat (zip_with data_part its parts).
Proof.
  induction 1 as [|it p its parts Hp _ IH]; [done|]. cbn [map concat zip_with].
  unfold item_scope at 1. rewrite paths_cons, path_mask_app, path_mask_qualified, keep_app, IH; [done|].
  by rewrite length_data_mask.
Qed.

(** ** Qualified names *)

Lemma lookup_column_zip (q : list string) (cs : list string) (c : string) (p : row) (v : value) :
  lookup_column cs c p = Some v -> (q ++ [c], v) ∈ zip (map (fun c => q ++ [c]) cs) p.
Proof.
  revert p. induction cs as [|c' cs IH]; intros [|v' p]; simpl; try done.
  case_bool_decide as Hc; [intros [= ->]; subst; by left|]. intros H. right. by apply IH.
Qed.

Lemma lookup_column_is_Some (cs : list string) (c : string) (p : row) :
  c ∈ cs -> length p = length cs -> is_Some (lookup_column cs c p).
Proof.
  revert p. induction cs as [|c' cs IH]; intros [|v p]; simpl; try done.
  - by intros ?%not_elem_of_nil.
  - intros [->|Hc]%elem_of_cons [= Hl]; [by rewrite bool_decide_eq_true_2 by done; eexists|].
    case_bool_decide; [by eexists | by apply IH].
Qed.

Lemma zip_app_eq {A B} (l1 l2 : list A) (k1 k2 : list B) :
  length l1 = length k1 -> zip (l1 ++ l2) (k1 ++ k2) = zip l1 k1 ++ zip l2 k2.
Proof. intros H. by apply zip_with_app. Qed.

Lemma elem_of_zip_Forall2 {A B} (R : A -> B -> Prop) (l : list A) (k : list B) (a : A) (b : B) :
  Forall2 R l k -> (a, b) ∈ zip l k -> R a b.
Proof.
  induction 1 as [|a' b' l k Hab _ IH]; [by intros ?%not_elem_of_nil|].
  intros [[= -> ->]|Hin]%elem_of_cons; [done | by apply IH].
Qed.

Lemma elem_of_zip_parts (its : list item) (parts : list row) (it : item) (p : row) (x : list string * value) :
  Forall2 part_of its parts -> (it, p) ∈ zip its parts ->
  x ∈ zip (map (fun c => qualifier it.1 ++ [c]) (columns it.2)) p ->
  x ∈ zip (paths (map item_scope its)) (concat parts).
Proof.
  induction 1 as [|it' p' its parts Hp _ IH]; [by intros ?%not_elem_of_nil|].
  cbn [map concat zip_with]. intros Hin Hx. unfold item_scope at 1. rewrite paths_cons, zip_app_eq.
  - apply elem_of_app. apply elem_of_cons in Hin as [[= -> ->]|Hin]; [by left | right; by apply IH].
  - by rewrite length_map, Hp.
Qed.

(** A qualified name that resolves reads its column in the part of its item. *)
Lemma resolve_part (its : list item) (parts : list row) (it : item) (p : row) (c : string) (i : nat) :
  Forall2 part_of its parts -> (it, p) ∈ zip its parts -> c ∈ columns it.2 ->
  resolve (paths (map item_scope its)) (qualifier it.1 ++ [c]) = Some i ->
  lookup_column (columns it.2) c p = Some (nth_value i (concat parts)).
Proof.
  intros Hp Hin Hc Hi.
  destruct (resolve_Some _ _ _ (concat parts) Hi) as (path & Hz); [by apply length_parts|].
  assert (Hlen : length p = length (columns it.2)).
  { by apply (elem_of_zip_Forall2 _ _ _ _ _ Hp Hin). }
  destruct (lookup_column_is_Some _ c p Hc Hlen) as [v Hv].
  assert (Hx : (qualifier it.1 ++ [c], v) ∈ filter (fun pv => qualifier it.1 ++ [c] `suffix_of` pv.1)
                 (zip (paths (map item_scope its)) (concat parts))).
  { apply list_elem_of_filter. split; [done|].
    apply (elem_of_zip_parts _ _ it p); [done..|]. by apply lookup_column_zip. }
  rewrite Hz in Hx. apply list_elem_of_singleton in Hx. congruence.
Qed.

Lemma resolve_unique (ps : list (list string)) (fields path : list string) (i j : nat) :
  resolve ps fields = Some i -> ps !! j = Some path -> fields `suffix_of` path -> i = j.
Proof.
  unfold resolve. intros Hi Hj Hs. assert (H : (j, path) ∈ filter (fun ip => fields `suffix_of` ip.2) (imap pair ps)).
  { apply list_elem_of_filter. split; [done|]. apply list_elem_of_lookup. exists j.
    by rewrite list_lookup_imap, Hj. }
  destruct (filter _ _) as [|[i' p'] [|]]; simplify_eq.
  apply list_elem_of_singleton in H. congruence.
Qed.

(** ** The rows of a world *)

Definition item_rows (it : item) : list row := rows it.2.

Lemma world_rows (th : world) (its : list item) :
  product (map rows (map (item_world th) its).*2) =
  map (fun parts => concat (zip_with data_part its parts))
    (filter (fun parts => all_hold (part_holds th) its parts = true) (cross (map item_rows its))).
Proof.
  rewrite product_cross.
  replace (map rows (map (item_world th) its).*2) with
    (map (fun it => map (data_part it) (filter (fun p => part_holds th it p = true) (item_rows it))) its)
    by (change (@fmap list _) with @map; by rewrite !map_map).
  by rewrite cross_filter_map, map_map.
Qed.

Lemma cross_parts (its : list item) (parts : list row) :
  Forall (fun it => Forall (fun r => length r = length (columns it.2)) (rows it.2)) its ->
  parts ∈ cross (map item_rows its) -> Forall2 part_of its parts.
Proof.
  intros Hits Hin%elem_of_cross. revert parts Hin. induction Hits as [|it its Hit _ IH]; intros parts Hin.
  - by apply Forall2_nil_inv_r in Hin as ->.
  - apply Forall2_cons_inv_r in Hin as (p & parts' & Hp & Hin & ->). constructor; [|by apply IH].
    rewrite Forall_forall in Hit. by apply Hit.
Qed.

Lemma all_hold_part (th : world) (its : list item) (parts : list row) (it : item) (p : row) :
  all_hold (part_holds th) its parts = true -> (it, p) ∈ zip its parts -> part_holds th it p = true.
Proof.
  unfold all_hold. rewrite forallb_forall. intros H Hin. apply (H (it, p)). by apply list_elem_of_In.
Qed.

Lemma zip_part (its : list item) (parts : list row) (it : item) :
  length parts = length its -> it ∈ its -> exists p, (it, p) ∈ zip its parts.
Proof.
  intros Hl (i & Hi)%list_elem_of_lookup.
  destruct (lookup_lt_is_Some_2 parts i) as [p Hp].
  { rewrite Hl. by apply lookup_lt_Some in Hi. }
  exists p. apply list_elem_of_lookup. exists i. apply lookup_zip_Some. done.
Qed.

(** ** The consistency check *)

(** What an item needs for its triples to be found. *)
Definition has_triples (it : item) : Prop :=
  forall k, k < ri_triples it.1 ->
    catStrInt VARNAME k ∈ columns it.2 /\ catStrInt DOMAINNAME k ∈ columns it.2.

Lemma part_triple (th : world) (it : item) (p : row) (k : nat) :
  part_holds th it p = true -> k < ri_triples it.1 ->
  exists v d, lookup_column (columns it.2) (catStrInt VARNAME k) p = Some (VInt v) /\
    lookup_column (columns it.2) (catStrInt DOMAINNAME k) p = Some (VInt d) /\ th !! v = Some d.
Proof.
  unfold part_holds, row_holds. rewrite forallb_forall. intros H Hk.
  specialize (H k). rewrite in_seq in H. specialize (H ltac:(lia)). unfold triple_holds in H.
  destruct (lookup_column _ (catStrInt VARNAME k) p) as [[v| | | |]|]; try done.
  destruct (lookup_column _ (catStrInt DOMAINNAME k) p) as [[d| | | |]|]; try done.
  exists v, d. split_and!; [done..|]. unfold sat_lit in H. by apply bool_decide_eq_true in H.
Qed.

Lemma elem_of_exclusions (rels : list rel_info) (e : node) :
  e ∈ exclusions rels -> exists r1 r2 k l, r1 ∈ rels /\ r2 ∈ rels /\ k < ri_triples r1 /\ l < ri_triples r2 /\
    e = exclusion (ri_fields r1) k (ri_fields r2) l.
Proof.
  induction rels as [|r1 rels IH]; [by intros ?%not_elem_of_nil|]. simpl.
  intros [H|H]%elem_of_app.
  - destruct (is_urelation r1); [|by apply not_elem_of_nil in H].
    apply list_elem_of_bind in H as (r2 & H & Hr2).
    destruct (is_urelation r2); [|by apply not_elem_of_nil in H].
    apply list_elem_of_bind in H as (k & (l & ->%list_elem_of_singleton & Hl)%list_elem_of_bind & Hk).
    apply elem_of_seq in Hk, Hl. exists r1, r2, k, l. split_and!; [by left|by right|lia|lia|done].
  - destruct (IH H) as (r & r2 & k & l & ? & ? & ?). exists r, r2, k, l. split_and!; [by right|by right|naive_solver..].
Qed.

Lemma eval_condition_column (ops : sql_ops) (its : list item) (parts : list row) (it : item) (p : row)
    (nm : string) (k : nat) (v : value) (f : fn) :
  Forall2 part_of its parts -> (it, p) ∈ zip its parts ->
  lookup_column (columns it.2) (catStrInt nm k) p = Some v -> catStrInt nm k ∈ columns it.2 ->
  eval_expr ops (paths (map item_scope its)) (makeColumnRef nm k (ri_fields it.1)) = Some f ->
  f (concat parts) = v.
Proof.
  intros Hp Hin Hv Hc. cbn [makeColumnRef eval_expr]. intros (i & Hi & ->)%fmap_Some.
  rewrite (resolve_part its parts it p _ i Hp Hin Hc Hi) in Hv. by simplify_eq.
Qed.

(** An exclusion on the values of its four columns. *)
Lemma eval_exclusion (ops : sql_ops) (its : list item) (parts : list row) (it1 it2 : item) (p1 p2 : row)
    (k l : nat) (v1 d1 v2 d2 : Z) (f : fn) :
  Forall has_triples its -> Forall2 part_of its parts -> (it1, p1) ∈ zip its parts -> (it2, p2) ∈ zip its parts ->
  k < ri_triples it1.1 -> l < ri_triples it2.1 ->
  lookup_column (columns it1.2) (catStrInt VARNAME k) p1 = Some (VInt v1) ->
  lookup_column (columns it1.2) (catStrInt DOMAINNAME k) p1 = Some (VInt d1) ->
  lookup_column (columns it2.2) (catStrInt VARNAME l) p2 = Some (VInt v2) ->
  lookup_column (columns it2.2) (catStrInt DOMAINNAME l) p2 = Some (VInt d2) ->
  eval_expr ops (paths (map item_scope its)) (exclusion (ri_fields it1.1) k (ri_fields it2.1) l) = Some f ->
  is_true (f (concat parts)) = negb (bool_decide (v1 = v2)) || bool_decide (d1 = d2).
Proof.
  intros Htr Hp Hz1 Hz2 Hk Hl Hv1 Hd1 Hv2 Hd2 Hf. rewrite Forall_forall in Htr.
  destruct (Htr it1 (elem_of_zip_l _ _ _ _ Hz1) k Hk) as [Hcv1 Hcd1], (Htr it2 (elem_of_zip_l _ _ _ _ Hz2) l Hl) as [Hcv2 Hcd2].
  unfold exclusion, makeA_Expr in Hf. cbn [eval_expr] in Hf.
  apply bind_Some in Hf as (fi & (fv1 & Ev1 & (fv2 & Ev2 & [= <-])%bind_Some)%bind_Some & Hf).
  apply bind_Some in Hf as (fe & (fd1 & Ed1 & (fd2 & Ed2 & [= <-])%bind_Some)%bind_Some & [= <-]).
  rewrite (eval_condition_column ops its parts it1 p1 VARNAME k _ _ Hp Hz1 Hv1 Hcv1 Ev1).
  rewrite (eval_condition_column ops its parts it2 p2 VARNAME l _ _ Hp Hz2 Hv2 Hcv2 Ev2).
  rewrite (eval_condition_column ops its parts it1 p1 DOMAINNAME k _ _ Hp Hz1 Hd1 Hcd1 Ed1).
  rewrite (eval_condition_column ops its parts it2 p2 DOMAINNAME l _ _ Hp Hz2 Hd2 Hcd2 Ed2).
  unfold apply_op, equal3. simpl.
  repeat case_bool_decide; simpl; try done; congruence.
Qed.

(** In a row whose triples hold in a world no two triples contradict each other. *)
Lemma exclusion_true (ops : sql_ops) (th : world) (its : list item) (parts : list row) (e : node) (f : fn) :
  Forall has_triples its -> Forall2 part_of its parts ->
  all_hold (part_holds th) its parts = true -> e ∈ exclusions its.*1 ->
  eval_expr ops (paths (map item_scope its)) e = Some f -> is_true (f (concat parts)) = true.
Proof.
  intros Htr Hp Hall (r1 & r2 & k & l & Hr1 & Hr2 & Hk & Hl & ->)%elem_of_exclusions Hf.
  pose proof (Forall2_length _ _ _ Hp) as Hlen.
  apply list_elem_of_fmap in Hr1 as (it1 & -> & H1), Hr2 as (it2 & -> & H2).
  destruct (zip_part its parts it1) as [p1 Hz1]; [done..|].
  destruct (zip_part its parts it2) as [p2 Hz2]; [done..|].
  destruct (part_triple th it1 p1 k) as (v1 & d1 & Hv1 & Hd1 & Ht1); [by eapply all_hold_part|done|].
  destruct (part_triple th it2 p2 l) as (v2 & d2 & Hv2 & Hd2 & Ht2); [by eapply all_hold_part|done|].
  rewrite (eval_exclusion ops its parts it1 it2 p1 p2 k l v1 d1 v2 d2 f) by done.
  repeat case_bool_decide; simpl; try done. congruence.
Qed.

Lemma conjoin_true (ops : sql_ops) (ps : list (list string)) (es : list node) (w : node) (w' : option node) (f : fn) :
  foldl conjoin (Some w) es = w' -> (e ← w'; eval_expr ops ps e) = Some f ->
  exists g hs, eval_expr ops ps w = Some g /\ Forall2 (fun e h => eval_expr ops ps e = Some h) es hs /\
    forall r, is_true (f r) = is_true (g r) && forallb (fun h : fn => is_true (h r)) hs.
Proof.
  revert w. induction es as [|e es IH]; intros w; simpl; intros <-; simpl.
  - intros Hf. exists f, []. split_and!; [done|constructor|]. intros r. by rewrite andb_true_r.
  - intros Hf. destruct (IH _ eq_refl Hf) as (g & hs & Hg & Hhs & Heq). cbn [eval_expr] in Hg.
    apply bind_Some in Hg as (h & Hh & (g' & Hg' & [= <-])%bind_Some).
    exists g', (h :: hs). split_and!; [done|by constructor|]. intros r. rewrite Heq. simpl. unfold and3.
    destruct (h r) as [| | |[]|], (g' r) as [| | |[]|]; done.
Qed.
