(* ===== verification/TargetFacts.v ===== *)
(** * TargetFacts: the expansion of "*" keeps the meaning of a target list

    The targets that the rewriter makes of a target list read, on the joined rows of the
    U-relations, what the original targets read on the rows of a world. *)
From Stdlib Require Import Strings.String Strings.Ascii.
From stdpp Require Import strings.
From S2P Require Import Prelude.
From S2P Require Import Worlds.
From S2P Require Import ParseTree.
From S2P Require Import RewriteUtils.
From S2P Require Import Rewrite.
From S2P Require Import Sql.
From S2P Require Import SqlFacts.
From S2P Require Import ScopeFacts.

Open Scope string_scope.
Open Scope list_scope.
Open Scope nat_scope.

Section Targets.
Context (catalog : RangeVar -> option Relation) (ops : sql_ops).

Definition data_columns (it : item) : list string := keep (data_mask (columns it.2)) (columns it.2).

(** What the rewriter and the evaluation know of an item. *)
Record item_ok (it : item) : Prop := {
  io_fields : ri_fields it.1 = qualifier it.1 ++ ["fake"];
  io_rows : Forall (fun r => length r = length (columns it.2)) (rows it.2);
  io_triples : has_triples it;
  io_data : data_columns it <> [];
  io_star : "*" ∉ columns it.2;
  io_expand : forall new, expand_columnref_star_one_relation catalog it.1 = Ok new ->
    new = map (unnamed_column (qualifier it.1)) (data_columns it) }.

Section Scope.
Context (its : list item).
Let ps := paths (map item_scope its).

(** The same name, and agreeing functions. *)
Definition agree_column (x y : string * fn) : Prop := x.1 = y.1 /\ agree (path_mask ps) (length ps) x.2 y.2.

Lemma elem_of_keep_data (cs : list string) (c : string) :
  c ∈ keep (data_mask cs) cs <-> c ∈ cs /\ is_data c = true.
Proof. rewrite keep_data_mask, list_elem_of_filter. tauto. Qed.

Lemma agree_position (q : list string) (c : string) (i k : nat) :
  is_data c = true -> resolve ps (q ++ [c]) = Some i ->
  paths (map data_scope its) !! k = Some (q ++ [c]) ->
  agree (path_mask ps) (length ps) (nth_value i) (nth_value k).
Proof.
  intros Hc Hi Hk. pose proof (resolve_keep ps (q ++ [c]) c (last_snoc _ _) Hc) as H.
  rewrite Hi in H. unfold ps in H. rewrite paths_data in H. fold ps in H.
  destruct (resolve (paths (map data_scope its)) _) as [j|] eqn:Hj; [|done].
  by rewrite (resolve_unique _ _ _ _ _ Hj Hk) in H by done.
Qed.

Lemma star_agree (q : list string) (cs : list string) (start : nat) (fss : list (list (string * fn))) :
  "*" ∉ cs -> Forall (fun c => is_data c = true) cs ->
  (forall k c, cs !! k = Some c -> paths (map data_scope its) !! (start + k) = Some (q ++ [c])) ->
  map_option (eval_target ops (map item_scope its)) (map (unnamed_column q) cs) = Some fss ->
  Forall2 agree_column (concat fss) (star_columns (start, cs)).
Proof.
  intros Hstar Hd. revert start fss. unfold star_columns. cbn [fst snd].
  induction Hd as [|c cs Hc _ IH]; intros start fss Hk Hm; simpl in Hm; [by simplify_eq|].
  apply bind_Some in Hm as (fs & Hf & (fss' & Hm & [= <-])%bind_Some).
  unfold eval_target in Hf. cbn [unnamed_column val] in Hf. rewrite last_snoc, bool_decide_eq_false_2 in Hf
    by (intros [= ->]; set_solver).
  apply bind_Some in Hf as (f & (i & Hi & ->)%fmap_Some & [= <-]).
  cbn [concat app]. rewrite imap_cons. constructor.
  - split; [unfold target_name; simpl; by rewrite last_snoc|].
    apply (agree_position q c); [done..|]. by apply (Hk 0).
  - erewrite imap_ext; [apply (IH ltac:(set_solver) (S start) fss'); [|done]|].
    + intros k c' Hc'. rewrite <- (Hk (S k) c' Hc'). f_equal. lia.
    + intros k c' _. simpl. do 2 f_equal. lia.
Qed.
End Scope.

Lemma star_item_agree (its its1 its2 : list item) (it : item) (new : list target)
    (fss : list (list (string * fn))) :
  its = its1 ++ it :: its2 -> item_ok it -> expand_columnref_star_one_relation catalog it.1 = Ok new ->
  map_option (eval_target ops (map item_scope its)) new = Some fss ->
  Forall2 (agree_column its) (concat fss)
    (star_columns (length (paths (map data_scope its1)), data_columns it)).
Proof.
  intros Hits Hok Hnew Hf. rewrite (io_expand _ Hok _ Hnew) in Hf.
  eapply star_agree; [| | |exact Hf].
  - intros [H _]%elem_of_keep_data. by destruct (io_star _ Hok).
  - apply Forall_forall. intros c Hc. by apply elem_of_keep_data in Hc as [_ ?].
  - intros k c Hk. rewrite Hits, map_app, paths_app. cbn [map].
    change (data_scope it) with (qualifier it.1, data_columns it).
    rewrite paths_cons, lookup_app_r, Nat.add_comm, Nat.add_sub, lookup_app_l by
      (rewrite ?length_map; try lia; by apply lookup_lt_Some in Hk).
    by rewrite list_lookup_fmap, Hk.
Qed.

Lemma map_option_concat {A B} (f : A -> option B) (ls : list (list A)) (k : list B) :
  map_option f (concat ls) = Some k ->
  exists ks, Forall2 (fun l k => map_option f l = Some k) ls ks /\ k = concat ks.
Proof.
  revert k. induction ls as [|l ls IH]; intros k; cbn [concat]; [intros [= <-]; by exists []|].
  intros (k1 & k2 & H1 & (ks & Hks & ->)%IH & ->)%map_option_app. exists (k1 :: ks). split; [by constructor|done].
Qed.

Lemma Forall2_concat {A B} (R : A -> B -> Prop) (ls : list (list A)) (ks : list (list B)) :
  Forall2 (Forall2 R) ls ks -> Forall2 R (concat ls) (concat ks).
Proof. induction 1; [constructor|]. by apply Forall2_app. Qed.

Lemma concat_concat {A} (ls : list (list (list A))) : concat (concat ls) = concat (map (@concat A) ls).
Proof. induction ls as [|l ls IH]; [done|]. cbn [concat map]. by rewrite concat_app, IH. Qed.

Definition star_starts (sc : scope) : list (list string * (nat * list string)) :=
  imap (fun i '(q, cs) => (q, (length (paths (take i sc)), cs))) sc.

Lemma star_starts_lookup (its : list item) (i : nat) :
  star_starts (map data_scope its) !! i =
  (fun it => (qualifier it.1, (length (paths (map data_scope (take i its))), data_columns it))) <$> its !! i.
Proof.
  unfold star_starts. rewrite list_lookup_imap, list_lookup_fmap. destruct (its !! i) as [it|]; [|done].
  simpl. do 3 f_equal. change (@map item) with (@fmap list _ item). by rewrite <- fmap_take.
Qed.

(** [*]. *)
Lemma star_all_agree (its : list item) (news : list (list target)) (fss : list (list (string * fn))) :
  Forall item_ok its -> map_outcome (expand_columnref_star_one_relation catalog) its.*1 = Ok news ->
  map_option (eval_target ops (map item_scope its)) (concat news) = Some fss ->
  Forall2 (agree_column its) (concat fss) (concat (map star_columns (star_starts (map data_scope its)).*2)).
Proof.
  intros Hok Hnews%map_outcome_Forall2 Hf.
  destruct (map_option_concat _ _ _ Hf) as (ks & Hks & ->). rewrite concat_concat.
  apply Forall2_concat. apply Forall2_same_length_lookup.
  apply Forall2_length in Hks as Hl1. apply Forall2_length in Hnews as Hl2. rewrite length_fmap in Hl2.
  assert (Hls : length (star_starts (map data_scope its)) = length its).
  { unfold star_starts. by rewrite length_imap, length_map. }
  split; [rewrite ?length_map, ?length_fmap; lia|].
  intros i x y Hx Hy. rewrite lookup_map in Hx. rewrite lookup_map, list_lookup_fmap, star_starts_lookup in Hy.
  apply fmap_Some in Hx as (fs & Hfs & ->). destruct (its !! i) as [it|] eqn:Hit; [|done].
  simpl in Hy. injection Hy as <-.
  destruct (lookup_lt_is_Some_2 news i) as [new Hnew]; [apply lookup_lt_Some in Hfs; lia|].
  apply (star_item_agree its (take i its) (drop (S i) its) it new).
  - by rewrite take_drop_middle.
  - rewrite Forall_forall in Hok. apply Hok. by apply list_elem_of_lookup_2 in Hit.
  - apply (Forall2_lookup_lr _ _ _ i _ _ Hnews); [|done]. by rewrite list_lookup_fmap, Hit.
  - by apply (Forall2_lookup_lr _ _ _ i _ _ Hks).
Qed.

(** ** One target *)

Definition expand_target (rels : list rel_info) (r : target) : outcome (list target) :=
  match star_of r with
  | Some star => expand_columnref_star catalog rels star
  | None => Ok [r]
  end.

Lemma star_of_Some (r : target) (fields : list string) :
  star_of r = Some fields <-> val r = ColumnRef fields /\ last fields = Some "*".
Proof.
  unfold star_of. destruct (val r); try (split; [done|by intros [? _]]).
  case_bool_decide as H; split; [by intros [= <-]|by intros [[= ->] _]|done|by intros [[= ->] ?]].
Qed.

Lemma eval_target_plain (sc : scope) (r : target) :
  star_of r = None ->
  eval_target ops sc r = (f ← eval_expr ops (paths sc) (val r); Some [(target_name r, f)]).
Proof. unfold star_of, eval_target. destruct (val r); try done. by case_bool_decide. Qed.

Lemma plain_agree (its : list item) (r : target) (fss : list (list (string * fn))) :
  star_of r = None -> data_expr (val r) = true ->
  map_option (eval_target ops (map item_scope its)) [r] = Some fss ->
  exists gs, eval_target ops (map data_scope its) r = Some gs /\ Forall2 (agree_column its) (concat fss) gs.
Proof.
  intros Hs Hd. cbn [map_option]. rewrite !eval_target_plain by done.
  pose proof (eval_expr_data ops (paths (map item_scope its)) (val r) Hd) as Hag.
  rewrite paths_data in Hag. intros (fs & (f & Hf & [= <-])%bind_Some & [= <-])%bind_Some.
  rewrite Hf in Hag. inversion Hag as [f' g Hfg Hf' Hg|]; subst.
  exists [(target_name r, g)]. split; [done|]. repeat constructor. exact Hfg.
Qed.

(** No qualifier of an item ends in that of another one. *)
Definition distinct_qualifiers (its : list item) : Prop :=
  forall i j it1 it2, its !! i = Some it1 -> its !! j = Some it2 ->
    qualifier it1.1 `suffix_of` qualifier it2.1 -> i = j.

Lemma star_matches_qualifier (it : item) (fields : list string) (a : string) :
  ri_fields it.1 = qualifier it.1 ++ ["fake"] -> last fields = Some a ->
  star_matches fields it.1 = true <-> removelast fields = qualifier it.1.
Proof.
  intros Hf Hlast. unfold star_matches. rewrite Hf, andb_true_iff, Nat.eqb_eq, bool_decide_eq_true.
  apply last_Some in Hlast as [l ->]. rewrite !length_app, removelast_last. cbn [length].
  rewrite !Nat.add_sub, take_app_length.
  split.
  - intros [Hl H]. rewrite H. rewrite take_app_le, take_ge by lia. done.
  - intros ->. split; [done|]. by rewrite take_app_length.
Qed.

Lemma filter_unique {A} (p : A -> Prop) `{forall a, Decision (p a)} (l : list A) (i : nat) (a : A) :
  l !! i = Some a -> p a -> (forall j b, l !! j = Some b -> p b -> j = i) -> filter p l = [a].
Proof.
  revert i. induction l as [|b l IH]; intros i Hi Ha Hu; [done|]. rewrite filter_cons.
  destruct i as [|i]; simpl in Hi.
  - injection Hi as ->. rewrite decide_True by done. f_equal.
    destruct (filter p l) as [|c k] eqn:Hf; [done|].
    assert (Hc : c ∈ filter p l) by (rewrite Hf; by left).
    apply list_elem_of_filter in Hc as [Hc (j & Hj)%list_elem_of_lookup]. by specialize (Hu (S j) c Hj Hc).
  - rewrite decide_False.
    + apply (IH i); [done..|]. intros j c Hj Hc. specialize (Hu (S j) c Hj Hc). lia.
    + intros Hb. by specialize (Hu 0 b eq_refl Hb).
Qed.

Lemma star_one_agree (its : list item) (fields : list string) (new : list target)
    (fss : list (list (string * fn))) :
  Forall item_ok its -> distinct_qualifiers its -> last fields = Some "*" -> removelast fields <> [] ->
  removelast fields ∈ map (fun it : item => qualifier it.1) its ->
  expand_columnref_star catalog its.*1 fields = Ok new ->
  map_option (eval_target ops (map item_scope its)) new = Some fss ->
  exists rels, star_relations (map data_scope its) fields = Some rels /\
    Forall2 (agree_column its) (concat fss) (concat (map star_columns rels)).
Proof.
  intros Hok Hq Hlast Hne Hin Hexp Hf. unfold expand_columnref_star in Hexp.
  destruct (length fields =? 1) eqn:Hlen.
  { apply Nat.eqb_eq in Hlen. destruct fields as [|f [|]]; done. }
  apply list_elem_of_fmap in Hin as (it0 & Hit0 & (i0 & Hi0)%list_elem_of_lookup).
  rewrite Forall_forall in Hok.
  assert (Hfields : forall i it, its !! i = Some it -> star_matches fields it.1 = true ->
            i = i0).
  { intros i it Hi Hm. apply (star_matches_qualifier it fields "*") in Hm; [|by eapply io_fields, Hok, list_elem_of_lookup_2|done].
    apply (Hq i i0 it it0); [done..|]. by rewrite <- Hm, Hit0. }
  assert (H0 : star_matches fields it0.1 = true).
  { apply (star_matches_qualifier it0 fields "*"); [|done..]. by eapply io_fields, Hok, list_elem_of_lookup_2. }
  destruct (list_find _ its.*1) as [[i ri]|] eqn:Hfind.
  2: { apply list_find_None in Hfind. rewrite Forall_forall in Hfind. destruct (Hfind it0.1); [|done].
       apply list_elem_of_fmap. exists it0. split; [done|]. by eapply list_elem_of_lookup_2. }
  apply list_find_Some in Hfind as (Hi & Hm & _).
  rewrite list_lookup_fmap in Hi. apply fmap_Some in Hi as (it & Hi & ->).
  rewrite (Hfields i it Hi Hm) in Hi. rewrite Hi0 in Hi. injection Hi as <-.
  exists [(length (paths (map data_scope (take i0 its))), data_columns it0)]. split.
  - unfold star_relations. fold (star_starts (map data_scope its)). destruct (removelast fields) eqn:Hr; [done|].
    rewrite <- Hr.
    rewrite (filter_unique _ _ i0 (qualifier it0.1,
      (length (paths (map data_scope (take i0 its))), data_columns it0))); [done| | |].
    + by rewrite star_starts_lookup, Hi0.
    + simpl. by rewrite Hr, Hit0.
    + intros j e He Hs. rewrite star_starts_lookup in He. apply fmap_Some in He as (it & Hit & ->).
      symmetry. apply (Hq i0 j it0 it); [done..|]. by rewrite <- Hit0, <- Hr.
  - cbn [map concat]. rewrite app_nil_r.
    apply (star_item_agree its (take i0 its) (drop (S i0) its) it0 new); [|apply Hok|done..].
    + by rewrite take_drop_middle.
    + by eapply list_elem_of_lookup_2.
Qed.

Definition star_known_item (its : list item) (r : target) : Prop :=
  forall fields, star_of r = Some fields ->
    (removelast fields = [] -> its <> []) /\
    (removelast fields <> [] -> removelast fields ∈ map (fun it : item => qualifier it.1) its).

(** What the targets made of a target read agrees with what it reads itself. *)
Lemma target_agree (its : list item) (r : target) (new : list target) (fss : list (list (string * fn))) :
  Forall item_ok its -> distinct_qualifiers its -> data_expr (val r) = true -> star_known_item its r ->
  expand_target its.*1 r = Ok new ->
  map_option (eval_target ops (map item_scope its)) new = Some fss ->
  exists gs, eval_target ops (map data_scope its) r = Some gs /\ Forall2 (agree_column its) (concat fss) gs.
Proof.
  intros Hok Hq Hd Hk. unfold expand_target. destruct (star_of r) as [fields|] eqn:Hs.
  2: { intros [= <-] Hf. by apply plain_agree. }
  intros Hexp Hf. apply star_of_Some in Hs as Hv. destruct Hv as [Hv Hlast].
  assert (Hrels : exists rels, star_relations (map data_scope its) fields = Some rels /\
            Forall2 (agree_column its) (concat fss) (concat (map star_columns rels))).
  { destruct (decide (removelast fields = [])) as [Hr|Hr].
    - unfold expand_columnref_star in Hexp.
      apply last_Some in Hlast as [l ->]. rewrite removelast_last in Hr. subst l.
      simpl in Hexp. apply outcome_bind_Ok in Hexp as (news & Hnews & [= <-]).
      exists (star_starts (map data_scope its)).*2. split; [done|]. by eapply star_all_agree.
    - eapply star_one_agree; eauto. by apply (Hk fields Hs). }
  destruct Hrels as (rels & Hrels & Hag). exists (concat (map star_columns rels)). split; [|done].
  unfold eval_target. rewrite Hv, bool_decide_eq_true_2 by done. by rewrite Hrels.
Qed.

(** ** The shape of an expansion *)

(** Not a "*", and without aggregates. *)
Definition proper_target (r : target) : Prop := star_of r = None /\ has_aggregate ops (val r) = false.

Lemma unnamed_proper (q : list string) (c : string) : c <> "*" -> proper_target (unnamed_column q c).
Proof.
  intros Hc. split; [|done]. unfold star_of. simpl. rewrite last_snoc, bool_decide_eq_false_2; congruence.
Qed.

Lemma expand_item_proper (it : item) (new : list target) :
  item_ok it -> expand_columnref_star_one_relation catalog it.1 = Ok new ->
  new <> [] /\ Forall proper_target new.
Proof.
  intros Hok Hnew. rewrite (io_expand _ Hok _ Hnew). split.
  - intros H%map_eq_nil. by apply (io_data _ Hok).
  - apply Forall_map, Forall_forall. intros c [Hc _]%elem_of_keep_data. apply unnamed_proper.
    intros ->. by apply (io_star _ Hok).
Qed.

Lemma expand_proper (its : list item) (r : target) (new : list target) :
  Forall item_ok its -> star_known_item its r -> has_aggregate ops (val r) = false ->
  expand_target its.*1 r = Ok new -> new <> [] /\ Forall proper_target new.
Proof.
  intros Hok Hk Ha. unfold expand_target. destruct (star_of r) as [fields|] eqn:Hs.
  2: { intros [= <-]. by repeat constructor. }
  apply star_of_Some in Hs as Hv. destruct Hv as [_ Hlast].
  destruct (Hk fields Hs) as [Hne Hin]. unfold expand_columnref_star.
  destruct (length fields =? 1) eqn:Hlen.
  - intros (news & Hnews%map_outcome_Forall2 & [= <-])%outcome_bind_Ok.
    assert (Hits : its <> []).
    { apply Hne. apply Nat.eqb_eq in Hlen. by destruct fields as [|f [|]]. }
    clear Hne Hin. apply Forall2_fmap_l in Hnews.
    assert (H : Forall (fun new => new <> [] /\ Forall proper_target new) news).
    { clear -Hnews Hok. induction Hnews as [|it new its news Hnew _ IH]; [constructor|].
      apply Forall_cons in Hok as [Hit Hok]. constructor; [by eapply expand_item_proper|]. by apply IH. }
    split.
    + destruct H as [|x news' [Hx _] _]; [by apply Forall2_nil_inv_r in Hnews|]. by destruct x.
    + clear -H. induction H as [|x news' [_ Hn] _ IH]; [constructor|]. by apply Forall_app.
  - destruct (list_find _ its.*1) as [[i ri]|] eqn:Hfind.
    + apply list_find_Some in Hfind as (Hi & _ & _). rewrite list_lookup_fmap in Hi.
      apply fmap_Some in Hi as (it & Hi & ->). apply expand_item_proper.
      rewrite Forall_forall in Hok. by eapply Hok, list_elem_of_lookup_2.
    + intros _. exfalso.
      assert (Hr : removelast fields <> []).
      { apply last_Some in Hlast as [l ->]. rewrite removelast_last. intros ->. done. }
      apply list_elem_of_fmap in Hin as (it & Hit & Hin); [|done].
      apply list_find_None in Hfind. rewrite Forall_forall in Hfind. rewrite Forall_forall in Hok.
      apply (Hfind it.1); [by apply list_elem_of_fmap; exists it|].
      apply (star_matches_qualifier it fields "*"); [by apply io_fields, Hok|done..].
Qed.
End Targets.

(** ** Names of condition columns and the loop over a target list *)

Open Scope string_scope.
Open Scope list_scope.
Open Scope nat_scope.

(** ** Decimal numbers *)

Definition digit_value (c : ascii) : nat := nat_of_ascii c - 48.

Definition digits_value (l : list ascii) : nat := foldr (fun c n => digit_value c + 10 * n) 0 l.

Lemma digits_spec (fuel n : nat) : n < fuel -> digits_value (digits fuel n) = n.
Proof.
  revert n. induction fuel as [|fuel IH]; intros n Hn; [lia|].
  unfold digits_value in *. cbn [digits foldr].
  assert (Hd : digit_value (ascii_of_nat (n mod 10 + 48)) = n mod 10).
  { pose proof (Nat.mod_upper_bound n 10 ltac:(lia)). unfold digit_value.
    rewrite nat_ascii_embedding by lia. lia. }
  change (nat_of_ascii "0") with 48. rewrite Hd.
  pose proof (Nat.div_mod n 10 ltac:(lia)).
  destruct (n / 10 =? 0) eqn:H0.
  - apply Nat.eqb_eq in H0. cbn [foldr]. lia.
  - rewrite IH; [lia|]. apply Nat.eqb_neq in H0. assert (n / 10 < n) by (apply Nat.div_lt; lia). lia.
Qed.

Lemma my_itoa_inj (i j : nat) : my_itoa i = my_itoa j -> i = j.
Proof.
  unfold my_itoa. intros H. apply (f_equal list_ascii_of_string) in H.
  rewrite !list_ascii_of_string_of_list_ascii in H. apply (f_equal (@rev ascii)) in H.
  rewrite !rev_involutive in H. apply (f_equal digits_value) in H. by rewrite !digits_spec in H by lia.
Qed.

Lemma catStrInt_inj (nm : string) (i j : nat) : catStrInt nm i = catStrInt nm j -> i = j.
Proof.
  unfold catStrInt. intros H. apply my_itoa_inj. by apply (inj (String.append nm)).
Qed.

Lemma var_ne_domain (i j : nat) : catStrInt VARNAME i <> catStrInt DOMAINNAME j.
Proof. done. Qed.
Lemma var_ne_prob (i j : nat) : catStrInt VARNAME i <> catStrInt PROBNAME j.
Proof. done. Qed.
Lemma domain_ne_prob (i j : nat) : catStrInt DOMAINNAME i <> catStrInt PROBNAME j.
Proof. done. Qed.

Lemma condition_not_data (nm : string) (k : nat) :
  nm ∈ [VARNAME; DOMAINNAME; PROBNAME] -> is_data (catStrInt nm k) = false.
Proof.
  unfold is_data, isConditionAttribute.
  intros [->|[->|[->|[]%not_elem_of_nil]%elem_of_cons]%elem_of_cons]%elem_of_cons; simpl; by destruct (my_itoa k).
Qed.

Lemma length_digits (fuel n k : nat) : n < 10 ^ S k -> length (digits fuel n) <= S k.
Proof.
  revert n k. induction fuel as [|fuel IH]; intros n k Hn; cbn [digits length]; [lia|].
  destruct (n / 10 =? 0) eqn:H0; [cbn [length]; apply le_n_S, Nat.le_0_l|]. destruct k as [|k].
  - change (10 ^ 1) with 10 in Hn. apply Nat.eqb_neq in H0. rewrite (Nat.div_small n 10) in H0 by lia. done.
  - apply le_n_S, IH. apply Nat.Div0.div_lt_upper_bound. by rewrite <- Nat.pow_succ_r'.
Qed.

(** The buffer of [catStrInt] holds four digits. *)
Lemma itoa_fits (n : nat) : n < 10000 -> String.length (my_itoa n) <= 4.
Proof.
  intros Hn. unfold my_itoa.
  assert (Hs : forall l, String.length (string_of_list_ascii l) = length l).
  { induction l as [|c l IH]; [done|]. simpl. by rewrite IH. }
  rewrite Hs, length_rev. by apply (length_digits _ n 3).
Qed.

(** ** The loop of [transform_targetList] *)

Section Transform.
Context (catalog : RangeVar -> option Relation) (rels : list rel_info).

(** Every expansion gives targets, none of which is a "*". *)
Definition proper_expansion (r : target) : Prop :=
  forall new, expand_target catalog rels r = Ok new -> new <> [] /\ Forall (fun r => star_of r = None) new.

Lemma transform_spec (fuel : nat) (done fresh tl tl' : list target) :
  Forall (fun r => star_of r = None) fresh -> Forall proper_expansion tl ->
  transform_targetList catalog fuel (length done) rels (done ++ fresh ++ tl) = Ok tl' ->
  exists news, map_outcome (expand_target catalog rels) tl = Ok news /\ tl' = done ++ fresh ++ concat news.
Proof.
  revert done fresh tl. induction fuel as [|fuel IH]; intros done fresh tl Hf Htl; simpl;
    rewrite lookup_app_r, Nat.sub_diag by lia.
  all: destruct Hf as [|r fresh Hr Hf]; simpl.
  - destruct tl; [|done]. intros [= <-]. by exists [].
  - done.
  - destruct tl as [|r tl]; simpl; [intros [= <-]; by exists []|].
    apply Forall_cons in Htl as [Hr Htl].
    destruct (star_of r) as [star|] eqn:Hs.
    + intros (new & Hnew & H)%outcome_bind_Ok.
      assert (He : expand_target catalog rels r = Ok new) by (unfold expand_target; by rewrite Hs).
      destruct (Hr new He) as [Hne Hfresh].
      destruct new as [|n new]; [done|]. apply Forall_cons in Hfresh as [_ Hfresh].
      replace (take (length done) (done ++ r :: tl) ++ (n :: new) ++ drop (S (length done)) (done ++ r :: tl))
        with ((done ++ [n]) ++ new ++ tl) in H.
      2: { rewrite take_app_length, drop_app_ge, <- app_assoc by lia.
           by replace (S (length done) - length done) with 1 by lia. }
      replace (S (length done)) with (length (done ++ [n])) in H by (rewrite length_app; simpl; lia).
      destruct (IH _ _ _ Hfresh Htl H) as (news & Hnews & ->). rewrite He, Hnews. simpl.
      exists ((n :: new) :: news). split; [done|]. by rewrite <- app_assoc.
    + assert (He : expand_target catalog rels r = Ok [r]) by (unfold expand_target; by rewrite Hs).
      intros H. replace (done ++ r :: tl) with ((done ++ [r]) ++ [] ++ tl) in H by (by rewrite <- app_assoc).
      replace (S (length done)) with (length (done ++ [r])) in H by (rewrite length_app; simpl; lia).
      destruct (IH _ _ _ ltac:(constructor) Htl H) as (news & Hnews & ->). rewrite He, Hnews. simpl.
      exists ([r] :: news). split; [done|]. by rewrite <- app_assoc.
  - rewrite Hr. intros H.
    replace (done ++ r :: fresh ++ tl) with ((done ++ [r]) ++ fresh ++ tl) in H by (by rewrite <- app_assoc).
    replace (S (length done)) with (length (done ++ [r])) in H by (rewrite length_app; simpl; lia).
    destruct (IH _ _ _ Hf Htl H) as (news & Hnews & ->). exists news. split; [done|]. by rewrite <- app_assoc.
Qed.
End Transform.

(** ** The triples of the result of a select

    The condition columns that a rewritten select appends hold in a world exactly when
    the triples of all parts of the joined row do. *)

Open Scope string_scope.
Open Scope list_scope.
Open Scope nat_scope.

Section Conditions.
Context (ops : sql_ops) (its : list item) (parts : list row).
Let sc := map item_scope its.

(** A triple of a part of the joined row. *)
Abbreviation part_triple := (item * row * nat)%type.

Definition part_triples : list part_triple :=
  '(it, p) ← zip its parts; j ← seq 0 (ri_triples it.1); [((it, p), j)].

Definition triple_of (x : part_triple) : rel_info * nat := (x.1.1.1, x.2).

Lemma triples_of_parts :
  length parts = length its ->
  (r ← its.*1; j ← seq 0 (ri_triples r); [(r, j)]) = map triple_of part_triples.
Proof.
  unfold part_triples. clear sc. revert parts. induction its as [|it its' IH]; intros [|p parts'] Hl; try done.
  cbn [zip_with]. rewrite fmap_cons, !bind_cons, map_app, <- IH by (simpl in Hl; lia). f_equal.
  rewrite !bind_singleton, map_map. done.
Qed.

Lemma all_hold_triples (th : world) :
  forallb (fun x : part_triple => triple_holds th (columns x.1.1.2) x.1.2 x.2) part_triples =
  all_hold (part_holds th) its parts.
Proof.
  unfold part_triples, all_hold. clear sc. revert parts.
  induction its as [|it its' IH]; intros [|p parts']; try done.
  cbn [zip_with forallb]. rewrite bind_cons, forallb_app, IH. f_equal.
  unfold part_holds, row_holds. rewrite bind_singleton. cbn [fst snd].
  induction (seq 0 (ri_triples it.1)) as [|j l IHl]; [done|]. simpl. by rewrite IHl.
Qed.

Lemma elem_of_part_triples (x : part_triple) :
  x ∈ part_triples -> x.1 ∈ zip its parts /\ x.2 < ri_triples x.1.1.1.
Proof.
  unfold part_triples. intros ([it p] & (j & ->%list_elem_of_singleton & Hj)%list_elem_of_bind & Hin)%list_elem_of_bind.
  apply elem_of_seq in Hj. split; [done|]. simpl. lia.
Qed.

Lemma part_triples_intro (it : item) (p : row) (k : nat) :
  (it, p) ∈ zip its parts -> k < ri_triples it.1 -> (it, p, k) ∈ part_triples.
Proof.
  intros Hin Hk. apply list_elem_of_bind. exists (it, p). split; [|done].
  apply list_elem_of_bind. exists k. split; [by left|]. apply elem_of_seq. lia.
Qed.

(** The three targets of a numbered triple. *)
Definition triple_targets (t : nat * (rel_info * nat)) : list target :=
  [condition_target VARNAME t; condition_target DOMAINNAME t; condition_target PROBNAME t].

Lemma condition_star (nm : string) (t : nat * (rel_info * nat)) :
  nm ∈ [VARNAME; DOMAINNAME; PROBNAME] -> star_of (condition_target nm t) = None.
Proof.
  intros Hnm. destruct (star_of _) as [fields|] eqn:Hs; [|done].
  apply star_of_Some in Hs as [[= <-] Hlast]. unfold delLastAppendOne in Hlast.
  rewrite last_snoc in Hlast. injection Hlast as Hlast.
  pose proof (condition_not_data nm t.2.2 Hnm) as Hd. by rewrite Hlast in Hd.
Qed.

Lemma eval_condition_target (nm : string) (i : nat) (rj : rel_info * nat) (fs : list (string * fn)) :
  nm ∈ [VARNAME; DOMAINNAME; PROBNAME] -> eval_target ops sc (condition_target nm (i, rj)) = Some fs ->
  exists f, fs = [(catStrInt nm i, f)] /\
    eval_expr ops (paths sc) (makeColumnRef nm rj.2 (ri_fields rj.1)) = Some f.
Proof.
  intros Hnm. rewrite eval_target_plain by by apply condition_star.
  intros (f & Hf & [= <-])%bind_Some. by exists f.
Qed.

Lemma triple_holds_skip (th : world) (k c : nat) (a b p : value) (cs : list string) (r : row) :
  k <> c ->
  triple_holds th (catStrInt VARNAME k :: catStrInt DOMAINNAME k :: catStrInt PROBNAME k :: cs)
    (a :: b :: p :: r) c = triple_holds th cs r c.
Proof.
  intros Hkc. unfold triple_holds. cbn [lookup_column].
  rewrite !bool_decide_eq_false_2; [done|..]; intros H; try (by apply catStrInt_inj in H); done.
Qed.

Lemma conditions_hold (th : world) (k : nat) (L : list part_triple) (css : list (list (string * fn))) :
  Forall2 part_of its parts -> Forall has_triples its ->
  Forall (fun x => x ∈ part_triples) L ->
  map_option (eval_target ops sc) (concat (imap (fun i x => triple_targets (k + i, triple_of x)) L)) = Some css ->
  forallb (triple_holds th (concat css).*1 (project (concat css).*2 (concat parts))) (seq k (length L)) =
  forallb (fun x : part_triple => triple_holds th (columns x.1.1.2) x.1.2 x.2) L.
Proof.
  intros Hp Htr HL. revert k css. induction HL as [|x L Hx _ IH]; intros k css; [done|].
  rewrite imap_cons. cbn [concat]. rewrite Nat.add_0_r.
  intros (cs1 & cs2 & H1 & H2 & ->)%map_option_app.
  apply elem_of_part_triples in Hx as [Hin Hj]. destruct x as [[it p] j]. cbn [fst snd] in *.
  unfold triple_targets in H1. cbn [map_option] in H1.
  apply bind_Some in H1 as (fs1 & E1 & (l1 & (fs2 & E2 & (l2 & (fs3 & E3 & [= <-])%bind_Some & [= <-])%bind_Some)%bind_Some & [= <-])%bind_Some).
  apply eval_condition_target in E1 as (fv & -> & Ev); [|set_solver].
  apply eval_condition_target in E2 as (fd & -> & Ed); [|set_solver].
  apply eval_condition_target in E3 as (fp & -> & _); [|set_solver].
  cbn [triple_of fst snd] in Ev, Ed.
  assert (Hit : has_triples it).
  { rewrite Forall_forall in Htr. apply Htr. apply list_elem_of_lookup in Hin as (n & [Hn _]%lookup_zip_Some).
    by eapply list_elem_of_lookup_2. }
  destruct (Hit j Hj) as [Hcv Hcd]. pose proof (elem_of_zip_Forall2 _ _ _ _ _ Hp Hin) as Hlen.
  destruct (lookup_column_is_Some _ _ p Hcv Hlen) as [v Hv], (lookup_column_is_Some _ _ p Hcd Hlen) as [d Hd].
  pose proof (eval_condition_column ops its parts it p VARNAME j v fv Hp Hin Hv Hcv Ev) as Hfv.
  pose proof (eval_condition_column ops its parts it p DOMAINNAME j d fd Hp Hin Hd Hcd Ed) as Hfd.
  cbn [concat app length seq forallb]. rewrite !fmap_cons. cbn [fst snd project map]. f_equal.
  - unfold triple_holds at 2. cbn [fst snd]. rewrite Hv, Hd. unfold triple_holds. cbn [lookup_column].
    rewrite bool_decide_eq_true_2 by done. rewrite bool_decide_eq_false_2 by done.
    rewrite bool_decide_eq_true_2 by done. by rewrite Hfv, Hfd.
  - rewrite <- (IH (S k) cs2).
    + apply forallb_ext_in. intros c Hc%in_seq. apply triple_holds_skip. lia.
    + rewrite <- H2. f_equal. f_equal. apply imap_ext. intros i x _. simpl. do 2 f_equal. lia.
Qed.
End Conditions.
