(* ===== verification/RewriteCorrect.v ===== *)
(** * RewriteCorrect: the rewriting of a select represents its answer in every world

    For a plain select, nested at will, the rewritten select over the U-relations gives
    a U-relation whose instance in a world is the answer of the original select over the
    relations of that world. *)
From Stdlib Require Import Strings.String Strings.Ascii.
From stdpp Require Import strings.
From S2P Require Import Prelude.
From S2P Require Import Worlds.
From S2P Require Import ParseTree.
From S2P Require Import RewriteUtils.
From S2P Require Import Supported.
From S2P Require Import Rewrite.
From S2P Require Import Sql.
From S2P Require Import SqlFacts.
From S2P Require Import ScopeFacts.
From S2P Require Import TargetFacts.
Open Scope string_scope.
Open Scope list_scope.
Open Scope nat_scope.

#[local] Set Default Proof Using "Type*".

(** ** Names of results *)

Section Names.
Context (catalog : RangeVar -> option Relation) (ops : sql_ops).

Lemma star_free_columns (sc : scope) (tl : list target) (fss : list (list (string * fn))) :
  Forall (fun r => star_of r = None) tl -> map_option (eval_target ops sc) tl = Some fss ->
  (concat fss).*1 = map target_name tl.
Proof.
  intros Htl. revert fss. induction Htl as [|r tl Hr _ IH]; intros fss; simpl; [by intros [= <-]|].
  rewrite eval_target_plain by done.
  intros (fs & (f & _ & [= <-])%bind_Some & (fss' & H & [= <-])%bind_Some)%bind_Some.
  cbn [concat app]. rewrite fmap_cons, (IH _ H). done.
Qed.

Lemma column_name_target (r : target) (c : string) : column_name r = Ok c -> c = target_name r.
Proof.
  unfold column_name, target_name. destruct (name r) as [nm|]; [by intros [= <-]|].
  destruct (val r); try done; simpl; by destruct (last _); simpl; try intros [= <-].
Qed.

Definition good_name (c : string) : Prop := is_data c = true /\ c <> "*".

Lemma data_columns_good (it : item) (c : string) : item_ok catalog it -> c ∈ data_columns it -> good_name c.
Proof.
  intros Hok [Hc Hd]%elem_of_keep_data. split; [done|]. intros ->. by apply (io_star _ _ Hok).
Qed.

(** The names that a plain target gives in a world. *)
Lemma plain_target_names (its : list item) (from : list node) (r : target) (gs : list (string * fn)) :
  Forall (item_ok catalog) its -> plain_target ops from r = true ->
  eval_target ops (map data_scope its) r = Some gs -> Forall good_name gs.*1.
Proof.
  intros Hok Hp. destruct (star_of r) as [fields|] eqn:Hs.
  - apply star_of_Some in Hs as [Hv Hlast]. unfold eval_target. rewrite Hv, bool_decide_eq_true_2 by done.
    intros (rels & Hrels & [= <-])%bind_Some. apply Forall_forall. intros c (x & -> & Hx)%list_elem_of_fmap.
    apply list_elem_of_In, in_concat in Hx as (l & (rel & <- & Hrel)%in_map_iff & Hx).
    apply list_elem_of_In, list_elem_of_lookup in Hx as (i & Hx). unfold star_columns in Hx.
    rewrite list_lookup_imap in Hx. apply fmap_Some in Hx as (c & Hc & ->).
    apply list_elem_of_In in Hrel. unfold star_relations in Hrels. fold (star_starts (map data_scope its)) in Hrels.
    assert (Hin : exists e, e ∈ star_starts (map data_scope its) /\ rel = e.2).
    { destruct (removelast fields); [|destruct (filter _ _) as [|e [|]] eqn:Hf; try done].
      - injection Hrels as <-. apply list_elem_of_fmap in Hrel as (e & -> & He). by exists e.
      - injection Hrels as <-. apply list_elem_of_singleton in Hrel as ->. exists e. split; [|done].
        assert (He : e ∈ [e]) by by left. rewrite <- Hf in He. by apply list_elem_of_filter in He as [_ He]. }
    destruct Hin as (e & (k & Hk)%list_elem_of_lookup & ->). rewrite star_starts_lookup in Hk.
    apply fmap_Some in Hk as (it & Hit & ->). apply (data_columns_good it).
    + rewrite Forall_forall in Hok. by eapply Hok, list_elem_of_lookup_2.
    + simpl in Hc. by eapply list_elem_of_lookup_2.
  - rewrite eval_target_plain by done. intros (f & _ & [= <-])%bind_Some. repeat constructor.
    + unfold plain_target in Hp. rewrite !andb_true_iff in Hp. apply Hp.
    + unfold plain_target in Hp. rewrite !andb_true_iff, !negb_true_iff, bool_decide_eq_false in Hp.
      destruct Hp as (((_ & _) & H) & _). intros Hn. apply H. split; [exact Hn|].
      intros [Hnone Hc]. unfold target_name in Hn. simpl in Hn. rewrite Hnone in Hn.
      unfold star_of in Hs. destruct (val r); try done. simpl in Hn. case_bool_decide; [done|].
      destruct (last fields); simpl in Hn; [|done]. congruence.
Qed.
End Names.

(** ** Plain selects *)

Record plain_parts (ops : sql_ops) (s : select) : Prop := {
  pp_fragment : in_fragment s = true;
  pp_distinct : distinctClause s = None;
  pp_group : groupClause s = [];
  pp_sort : sortClause s = [];
  pp_approx : hasApproxAggregate (val <$> targetList s) = false;
  pp_nonempty : targetList s <> [];
  pp_targets : Forall (fun r => plain_target ops (fromClause s) r = true) (targetList s);
  pp_where : match whereClause s with Some e => data_expr e | None => true end = true }.

Lemma plain_clauses_parts (ops : sql_ops) (s : select) : plain_clauses ops s = true -> plain_parts ops s.
Proof.
  unfold plain_clauses. rewrite !andb_true_iff, negb_true_iff, bool_decide_eq_true.
  intros (((((Hf & Hc) & Ha) & Hn) & Ht) & Hw).
  destruct (distinctClause s) eqn:Hd, (groupClause s) eqn:Hg, (sortClause s) eqn:Hs; try done.
  split; try done. by apply forallb_Forall_true.
Qed.

Lemma plain_target_parts (ops : sql_ops) (from : list node) (r : target) :
  plain_target ops from r = true ->
  data_expr (val r) = true /\ has_aggregate ops (val r) = false /\ star_known from r = true.
Proof. unfold plain_target. rewrite !andb_true_iff, !negb_true_iff. tauto. Qed.

(** ** Triples *)

Lemma length_triples (rels : list rel_info) :
  length (r ← rels; j ← seq 0 (ri_triples r); [(r, j)]) = calculate_total_triples rels.
Proof.
  unfold calculate_total_triples. induction rels as [|r rels IH]; [done|].
  rewrite bind_cons, length_app, IH, bind_singleton, length_map, length_seq. done.
Qed.

Lemma lookup_column_app (cs1 cs2 : list string) (c : string) (r1 r2 : row) :
  c ∉ cs1 -> length cs1 = length r1 -> lookup_column (cs1 ++ cs2) c (r1 ++ r2) = lookup_column cs2 c r2.
Proof.
  revert r1. induction cs1 as [|c1 cs1 IH]; intros [|v r1] Hc Hl; try done. simpl in *.
  rewrite bool_decide_eq_false_2 by set_solver. apply IH; [set_solver | lia].
Qed.

Lemma row_holds_app (th : world) (n : nat) (cs1 cs2 : list string) (r1 r2 : row) :
  Forall good_name cs1 -> length cs1 = length r1 ->
  row_holds th n (cs1 ++ cs2) (r1 ++ r2) = row_holds th n cs2 r2.
Proof.
  intros Hcs Hl. unfold row_holds. apply forallb_ext_in. intros k _. unfold triple_holds.
  rewrite Forall_forall in Hcs.
  rewrite !lookup_column_app; [done|..]; try done; intros [Hd _]%Hcs;
    (rewrite condition_not_data in Hd by set_solver; done).
Qed.

Section ConditionTargets.
Context (rels : list rel_info).

Lemma condition_targets_concat :
  condition_targets rels =
  concat (imap (fun i rj => triple_targets (i, rj)) (r ← rels; j ← seq 0 (ri_triples r); [(r, j)])).
Proof.
  unfold condition_targets, numbered_triples.
  generalize (r ← rels; j ← seq 0 (ri_triples r); [(r, j)]). intros l.
  assert (H : forall k, imap (fun i x => (k + i, x)) l ≫= triple_targets =
    concat (imap (fun i rj => triple_targets (k + i, rj)) l)); [|apply (H 0)].
  induction l as [|x l IH]; intros k; [done|]. rewrite !imap_cons, bind_cons. cbn [concat]. f_equal.
  specialize (IH (S k)). etransitivity; [|etransitivity; [exact IH|]].
  - f_equal. apply imap_ext. intros i y _. simpl. f_equal. lia.
  - f_equal. apply imap_ext. intros i y _. simpl. do 2 f_equal. lia.
Qed.

Lemma condition_targets_star : Forall (fun r => star_of r = None) (condition_targets rels).
Proof.
  apply Forall_forall. intros r (t & Hr & _)%list_elem_of_bind.
  assert (H : r = condition_target VARNAME t \/ r = condition_target DOMAINNAME t \/ r = condition_target PROBNAME t)
    by set_solver.
  destruct H as [->|[->| ->]]; apply condition_star; set_solver.
Qed.

Lemma condition_names (c : string) :
  c ∈ map target_name (condition_targets rels) -> is_data c = false /\ c <> "*".
Proof.
  intros (r & -> & (t & Hr & _)%list_elem_of_bind)%list_elem_of_fmap.
  assert (H : exists nm, nm ∈ [VARNAME; DOMAINNAME; PROBNAME] /\ r = condition_target nm t).
  { assert (H : r = condition_target VARNAME t \/ r = condition_target DOMAINNAME t \/ r = condition_target PROBNAME t)
      by set_solver.
    destruct H as [->|[->| ->]]; eexists; (split; [|done]); set_solver. }
  destruct H as (nm & Hnm & ->). unfold target_name. simpl.
  pose proof (condition_not_data nm t.1 Hnm) as Hd. split; [done|]. intros Heq. by rewrite Heq in Hd.
Qed.

Lemma condition_names_triples (k : nat) :
  k < calculate_total_triples rels ->
  catStrInt VARNAME k ∈ map target_name (condition_targets rels) /\
  catStrInt DOMAINNAME k ∈ map target_name (condition_targets rels).
Proof.
  rewrite <- length_triples. intros [rj Hrj]%lookup_lt_is_Some_2.
  assert (Ht : (k, rj) ∈ numbered_triples rels).
  { unfold numbered_triples. apply list_elem_of_lookup. exists k. by rewrite list_lookup_imap, Hrj. }
  split; apply list_elem_of_fmap.
  - exists (condition_target VARNAME (k, rj)). split; [done|]. apply list_elem_of_bind.
    exists (k, rj). split; [by left|done].
  - exists (condition_target DOMAINNAME (k, rj)). split; [done|]. apply list_elem_of_bind.
    exists (k, rj). split; [right; by left|done].
Qed.

Lemma condition_names_prob (k : nat) :
  k < calculate_total_triples rels -> catStrInt PROBNAME k ∈ map target_name (condition_targets rels).
Proof.
  rewrite <- length_triples. intros [rj Hrj]%lookup_lt_is_Some_2. apply list_elem_of_fmap.
  exists (condition_target PROBNAME (k, rj)). split; [done|]. apply list_elem_of_bind.
  exists (k, rj). split; [right; right; by left|].
  unfold numbered_triples. apply list_elem_of_lookup. exists k. by rewrite list_lookup_imap, Hrj.
Qed.

Lemma elem_of_numbered (t : nat * (rel_info * nat)) :
  t ∈ numbered_triples rels -> (r ← rels; j ← seq 0 (ri_triples r); [(r, j)]) !! t.1 = Some t.2.
Proof.
  unfold numbered_triples. intros (i & Hi)%list_elem_of_lookup. rewrite list_lookup_imap in Hi.
  by apply fmap_Some in Hi as (x & Hx & ->).
Qed.

Lemma NoDup_imap_pair {A} (l : list A) : NoDup (imap pair l).
Proof.
  apply NoDup_alt. intros i j x Hi Hj. rewrite list_lookup_imap in Hi, Hj.
  apply fmap_Some in Hi as (a & _ & ->), Hj as (b & _ & [= -> _]). done.
Qed.

Lemma condition_names_NoDup : NoDup (map target_name (condition_targets rels)).
Proof.
  unfold condition_targets. rewrite map_bind.
  assert (Hin : forall t c, c ∈ map target_name [condition_target VARNAME t; condition_target DOMAINNAME t;
            condition_target PROBNAME t] -> exists nm, nm ∈ [VARNAME; DOMAINNAME; PROBNAME] /\ c = catStrInt nm t.1).
  { intros t c Hc. cbn [map] in Hc. unfold target_name in Hc. simpl in Hc.
    repeat (apply elem_of_cons in Hc as [->|Hc]; [eexists; split; [|done]; set_solver|]). by apply not_elem_of_nil in Hc. }
  apply NoDup_bind.
  - intros t1 t2 c H1%elem_of_numbered H2%elem_of_numbered (n1 & Hn1 & ->)%Hin (n2 & Hn2 & Heq)%Hin.
    assert (Hi : t1.1 = t2.1).
    { repeat (apply elem_of_cons in Hn1 as [->|Hn1]); [..|by apply not_elem_of_nil in Hn1];
        repeat (apply elem_of_cons in Hn2 as [->|Hn2]); try (by apply not_elem_of_nil in Hn2); try done;
        by apply catStrInt_inj in Heq. }
    destruct t1 as [i1 x1], t2 as [i2 x2]. simpl in *. subst. congruence.
  - intros t _. unfold target_name. simpl. repeat constructor; set_solver.
  - apply NoDup_imap_pair.
Qed.

Lemma condition_aggregates (ops : sql_ops) : Forall (fun r => has_aggregate ops (val r) = false) (condition_targets rels).
Proof.
  apply Forall_forall. intros r (t & Hr & _)%list_elem_of_bind.
  assert (H : r = condition_target VARNAME t \/ r = condition_target DOMAINNAME t \/ r = condition_target PROBNAME t)
    by set_solver.
  by destruct H as [->|[->| ->]].
Qed.
End ConditionTargets.

Lemma project_app (xs cs : list (string * fn)) (r : row) :
  project (xs ++ cs).*2 r = project xs.*2 r ++ project cs.*2 r.
Proof. unfold project. by rewrite fmap_app, map_app. Qed.

Lemma items_triples (catalog : RangeVar -> option Relation) (its : list item) :
  Forall (item_ok catalog) its -> Forall has_triples its.
Proof. intros H. eapply Forall_impl; [exact H|]. intros it Hit. apply (io_triples _ _ Hit). Qed.

(** ** One select *)

Section Core.
Context (catalog : RangeVar -> option Relation) (ops : sql_ops).
Context (its : list item).
Context (Hok : Forall (item_ok catalog) its) (Hq : distinct_qualifiers its).
Let sc := map item_scope its.

Lemma targets_agree (tl : list target) (news : list (list target)) (fss : list (list (string * fn))) :
  Forall (fun r => data_expr (val r) = true /\ star_known_item its r) tl ->
  map_outcome (expand_target catalog its.*1) tl = Ok news ->
  map_option (eval_target ops sc) (concat news) = Some fss ->
  exists gss, map_option (eval_target ops (map data_scope its)) tl = Some gss /\
    Forall2 (agree_column its) (concat fss) (concat gss).
Proof.
  intros Htl Hnews%map_outcome_Forall2. revert fss.
  induction Hnews as [|r new tl news Hnew _ IH]; intros fss; cbn [concat map_option].
  - intros [= <-]. by exists [].
  - apply Forall_cons in Htl as [[Hd Hk] Htl]. intros (f1 & f2 & H1 & H2 & ->)%map_option_app.
    destruct (target_agree catalog ops its r new f1) as (gs & Hgs & Hag); [done..|].
    destruct (IH Htl f2 H2) as (gss & Hgss & Hag2). exists (gs :: gss). rewrite Hgs. simpl. rewrite Hgss.
    split; [done|]. rewrite concat_app. by apply Forall2_app.
Qed.

Lemma targets_names (from : list node) (tl : list target) (gss : list (list (string * fn))) :
  Forall (fun r => plain_target ops from r = true) tl ->
  map_option (eval_target ops (map data_scope its)) tl = Some gss -> Forall good_name (concat gss).*1.
Proof.
  intros Htl Hgss%map_option_Forall2. induction Hgss as [|r gs tl gss Hr _ IH]; [constructor|].
  apply Forall_cons in Htl as [Hp Htl]. cbn [concat]. rewrite fmap_app. apply Forall_app. split; [|by apply IH].
  by eapply plain_target_names.
Qed.

(** What the projections of the two selects give. *)
Lemma agree_project (xs ys : list (string * fn)) (r : row) :
  Forall2 (agree_column its) xs ys -> length r = length (paths sc) ->
  xs.*1 = ys.*1 /\ project xs.*2 r = project ys.*2 (keep (path_mask (paths sc)) r).
Proof.
  intros H Hr. induction H as [|x y xs ys [Hn Hf] _ [IH1 IH2]]; [done|].
  rewrite !fmap_cons. cbn [project map]. split; [by f_equal|]. f_equal; [|done]. by rewrite Hf.
Qed.

(** The condition of the rewritten select: that of the original one and tests that are
    true whenever the triples of a row hold. *)
Definition guarded (s s' : select) : Prop :=
  forall f, select_where ops s' sc = Some f ->
    exists g hs es, select_where ops s sc = Some g /\ es = exclusions its.*1 /\
      Forall2 (fun e h => eval_expr ops (paths sc) e = Some h) es hs /\
      forall r, is_true (f r) = is_true (g r) && forallb (fun h : fn => is_true (h r)) hs.

Lemma guarded_agree (th : world) (s s' : select) (f : fn) (parts : list row) :
  match whereClause s with Some e => data_expr e | None => true end = true ->
  guarded s s' -> select_where ops s' sc = Some f ->
  exists g, select_where ops s (map data_scope its) = Some g /\
    (Forall2 part_of its parts -> all_hold (part_holds th) its parts = true ->
     is_true (f (concat parts)) = is_true (g (concat (zip_with data_part its parts)))).
Proof.
  intros Hd Hg Hf. destruct (Hg f Hf) as (g & hs & es & Hs & Hes & Hhs & Heq). unfold select_where in *.
  assert (Hag : exists g', match whereClause s with None => Some (fun _ : row => VBool true)
            | Some e => eval_expr ops (paths (map data_scope its)) e end = Some g' /\
            agree (path_mask (paths sc)) (length (paths sc)) g g').
  { destruct (whereClause s) as [e|].
    - pose proof (eval_expr_data ops (paths sc) e Hd) as H. unfold sc in H. rewrite paths_data in H.
      fold sc in H. rewrite Hs in H. inversion H as [f0 g' Hgg' E1 E2|]; subst. by exists g'.
    - injection Hs as <-. by eexists. }
  destruct Hag as (g' & Hg' & Hgg'). exists g'. split; [done|]. intros Hp Hall.
  rewrite Heq, <- (keep_parts its parts Hp), Hgg' by by apply length_parts.
  replace (forallb _ hs) with true; [by rewrite andb_true_r|]. symmetry. apply forallb_forall.
  intros h Hh%list_elem_of_In. apply list_elem_of_lookup in Hh as (i & Hi).
  destruct (Forall2_lookup_r _ _ _ _ _ Hhs Hi) as (e & He & Heh).
  rewrite (exclusion_true ops th its parts e h); [done| |done|done| |done].
  - by apply (items_triples catalog).
  - rewrite <- Hes. by eapply list_elem_of_lookup_2.
Qed.

Lemma scope_tables : map (fun '(q, t) => (q, columns t)) (map item_table its) = sc.
Proof. unfold sc. rewrite map_map. done. Qed.

Lemma scope_world (th : world) :
  map (fun '(q, t) => (q, columns t)) (map (item_world th) its) = map data_scope its.
Proof. rewrite map_map. done. Qed.

Lemma rows_tables : map rows (map item_table its).*2 = map item_rows its.
Proof. change (@fmap list _) with @map. by rewrite !map_map. Qed.

(** The shape of the rewritten target list. *)
Lemma expansions_proper (from : list node) (tl : list target) (news : list (list target)) :
  tl <> [] -> Forall (fun r => plain_target ops from r = true /\ star_known_item its r) tl ->
  map_outcome (expand_target catalog its.*1) tl = Ok news ->
  concat news <> [] /\ Forall (proper_target ops) (concat news).
Proof.
  intros Hne Htl Hnews%map_outcome_Forall2.
  assert (H : Forall (fun new => new <> [] /\ Forall (proper_target ops) new) news).
  { clear Hne. induction Hnews as [|r new tl news Hnew _ IH]; [constructor|].
    apply Forall_cons in Htl as [[Hp Hk] Htl]. constructor; [|by apply IH].
    unfold plain_target in Hp. rewrite !andb_true_iff, !negb_true_iff in Hp.
    eapply expand_proper; [done..| |done]. apply Hp. }
  split.
  - destruct Hnews; [done|]. apply Forall_cons in H as [[Hn _] _]. by destruct y.
  - clear -H. induction H as [|new news [_ Hn] _ IH]; [constructor|]. by apply Forall_app.
Qed.

Lemma condition_rows (th : world) (parts : list row) (css : list (list (string * fn))) :
  Forall2 part_of its parts ->
  map_option (eval_target ops sc) (condition_targets its.*1) = Some css ->
  row_holds th (calculate_total_triples its.*1) (concat css).*1 (project (concat css).*2 (concat parts)) =
  all_hold (part_holds th) its parts.
Proof.
  intros Hp. pose proof (Forall2_length _ _ _ Hp) as Hlen.
  rewrite condition_targets_concat, (triples_of_parts its parts) by done. intros Hcss.
  rewrite <- all_hold_triples, <- length_triples, (triples_of_parts its parts), length_map by done.
  unfold row_holds. apply (conditions_hold ops its parts th 0 (part_triples its parts) css); [done| |by apply Forall_forall|].
  - by apply (items_triples catalog).
  - rewrite <- Hcss. do 2 f_equal. clear. generalize (part_triples its parts). intros L.
    rewrite imap_fmap. done.
Qed.

Lemma not_grouped (s : select) :
  groupClause s = [] -> Forall (fun r => has_aggregate ops (val r) = false) (targetList s) -> grouped ops s = false.
Proof.
  unfold grouped. intros -> H. induction H as [|r l Hr _ IH]; [done|]. simpl. by rewrite Hr.
Qed.

(** A select without grouping, sorting and DISTINCT. *)
Lemma eval_over_plain (s : select) (ts : list (list string * table)) (sc0 : scope) :
  groupClause s = [] -> sortClause s = [] -> distinctClause s = None ->
  Forall (fun r => has_aggregate ops (val r) = false) (targetList s) ->
  map (fun '(q, t) => (q, columns t)) ts = sc0 ->
  eval_over ops s ts =
  (w ← select_where ops s sc0; tl ← map_option (eval_target ops sc0) (targetList s);
   Some (mk_table (concat tl).*1 (map (project (concat tl).*2) (filtered w ts.*2)))).
Proof.
  intros Hg Hs Hd Ha <-. unfold eval_over. destruct (select_where _ _ _) as [w|]; [|done].
  cbn [mbind option_bind]. rewrite not_grouped, Hs by done. cbn [map_option mbind option_bind].
  destruct (map_option _ (targetList s)) as [tl|]; [|done]. cbn [mbind option_bind].
  unfold distinct_rows. by rewrite Hd.
Qed.

(** The instance of the joined and projected rows, part by part. *)
Lemma core_rows (th : world) (f g : fn) (xs ys cs : list (string * fn)) :
  Forall2 (agree_column its) xs ys -> Forall good_name xs.*1 ->
  Forall (fun c => is_data c = false) cs.*1 ->
  (forall parts, Forall2 part_of its parts ->
     row_holds th (calculate_total_triples its.*1) cs.*1 (project cs.*2 (concat parts)) =
     all_hold (part_holds th) its parts) ->
  (forall parts, Forall2 part_of its parts -> all_hold (part_holds th) its parts = true ->
     is_true (f (concat parts)) = is_true (g (concat (zip_with data_part its parts)))) ->
  mk_table ys.*1 (map (project ys.*2) (filtered g (map (item_world th) its).*2)) =
  instance th (calculate_total_triples its.*1)
    (mk_table (xs ++ cs).*1 (map (project (xs ++ cs).*2) (filtered f (map item_table its).*2))).
Proof.
  intros Hag Hgood Hbad Hcond Hw. unfold instance. cbn [columns rows].
  assert (Hmask : forall A (l1 l2 : list A), length l1 = length xs ->
            keep (data_mask (xs ++ cs).*1) (l1 ++ l2) = l1).
  { intros A l1 l2 Hl. rewrite fmap_app. unfold data_mask. rewrite map_app, keep_app by
      (rewrite length_map, length_fmap; done).
    rewrite keep_true, keep_false, app_nil_r; [done|by apply Forall_map| |].
    - rewrite length_map, length_fmap; done.
    - apply Forall_map. eapply Forall_impl; [exact Hgood|]. by intros c []. }
  assert (Hnames : xs.*1 = ys.*1).
  { clear -Hag. induction Hag as [|x y xs ys [Hn _] _ IH]; [done|]. rewrite !fmap_cons. by f_equal. }
  assert (Hcols : keep (data_mask (xs ++ cs).*1) (xs ++ cs).*1 = ys.*1).
  { rewrite <- Hnames. etransitivity; [|apply (Hmask _ xs.*1 cs.*1), length_fmap]. by rewrite <- fmap_app. }
  assert (Hrows : Forall (fun it : item => Forall (fun r => length r = length (columns it.2)) (rows it.2)) its).
  { eapply Forall_impl; [exact Hok|]. intros it Hit. apply (io_rows _ _ Hit). }
  rewrite Hcols. f_equal. unfold filtered. rewrite world_rows, rows_tables, product_cross.
  rewrite !filter_map_bool, !map_map, !filter_filter_bool.
  apply filter_map_ext.
  - intros parts Hin%cross_parts; [|done]. rewrite fmap_app, project_app.
    rewrite row_holds_app; [|done|by unfold project; rewrite length_map, !length_fmap].
    rewrite Hcond by done.
    destruct (all_hold _ its parts) eqn:Hall; [|by rewrite andb_false_r]. by rewrite andb_true_r, (Hw parts).
  - intros parts Hin%cross_parts _; [|done].
    destruct (agree_project xs ys (concat parts) Hag) as [_ Hproj]; [by apply length_parts|].
    rewrite project_app, Hmask by by unfold project; rewrite length_map, length_fmap.
    rewrite Hproj. f_equal. symmetry. by apply keep_parts.
Qed.

Lemma eval_core (s s' : select) (news : list (list target)) (t' : table) :
  plain_parts ops s -> Forall (star_known_item its) (targetList s) ->
  map_outcome (expand_target catalog its.*1) (targetList s) = Ok news ->
  targetList s' = concat news ++ condition_targets its.*1 -> guarded s s' ->
  groupClause s' = [] -> sortClause s' = [] -> distinctClause s' = None ->
  eval_over ops s' (map item_table its) = Some t' ->
  (forall th, eval_over ops s (map (item_world th) its) =
     Some (instance th (calculate_total_triples its.*1) t')) /\
  columns t' = map target_name (targetList s') /\
  Forall good_name (map target_name (concat news)) /\
  Forall (fun r => length r = length (columns t')) (rows t').
Proof.
  intros Hp Hstar Hnews Htl Hguard Hg Hs Hd.
  assert (Htargets : Forall (fun r => plain_target ops (fromClause s) r = true /\ star_known_item its r) (targetList s)).
  { apply Forall_and. split; [by apply pp_targets | done]. }
  destruct (expansions_proper (fromClause s) (targetList s) news (pp_nonempty _ _ Hp) Htargets Hnews) as [_ Hproper].
  rewrite (eval_over_plain s' _ sc Hg Hs Hd); [|..|apply scope_tables].
  2: { rewrite Htl. apply Forall_app. split; [|apply condition_aggregates].
       eapply Forall_impl; [exact Hproper|]. by intros r []. }
  rewrite Htl. intros (f & Hf & (fss & Hfss & [= <-])%bind_Some)%bind_Some.
  assert (Hcols : (concat fss).*1 = map target_name (concat news ++ condition_targets its.*1)).
  { apply (star_free_columns ops sc); [|done]. apply Forall_app. split; [|apply condition_targets_star].
    eapply Forall_impl; [exact Hproper|]. by intros r []. }
  apply map_option_app in Hfss as (f1 & css & Hf1 & Hcss & ->). rewrite concat_app in *.
  destruct (targets_agree (targetList s) news f1) as (gss & Hgss & Hag); [|done..|].
  { eapply Forall_impl; [exact Htargets|]. intros r [Hr ?]. by apply plain_target_parts in Hr as (? & _). }
  assert (Hnames : (concat f1).*1 = (concat gss).*1).
  { clear -Hag. induction Hag as [|x y xs ys [Hn _] _ IH]; [done|]. rewrite !fmap_cons. by f_equal. }
  assert (Hgood : Forall good_name (concat f1).*1).
  { rewrite Hnames. eapply targets_names; [by apply pp_targets | exact Hgss]. }
  assert (Hf1n : (concat f1).*1 = map target_name (concat news)).
  { apply (star_free_columns ops sc); [|done]. eapply Forall_impl; [exact Hproper|]. by intros r []. }
  assert (Hcn : (concat css).*1 = map target_name (condition_targets its.*1)).
  { apply (star_free_columns ops sc); [apply condition_targets_star|done]. }
  split_and!; [|done|by rewrite <- Hf1n|].
  - intros th. rewrite (eval_over_plain s _ (map data_scope its)); try by apply Hp.
    2: { eapply Forall_impl; [by apply (pp_targets _ _ Hp)|]. intros r Hr. by apply plain_target_parts in Hr as (_ & ? & _). }
    2: apply scope_world.
    destruct (guarded_agree th s s' f [] (pp_where _ _ Hp) Hguard Hf) as (g & Hgg & _).
    rewrite Hgg, Hgss. cbn [mbind option_bind]. f_equal. apply core_rows; [done..| | |].
    + rewrite Hcn. apply Forall_forall. intros c Hc. by apply (condition_names its.*1).
    + intros parts Hparts. by apply condition_rows.
    + intros parts Hparts Hall.
      destruct (guarded_agree th s s' f parts (pp_where _ _ Hp) Hguard Hf) as (g' & Hgg' & Heq).
      rewrite Hgg in Hgg'. injection Hgg' as <-. by apply Heq.
  - cbn [rows columns]. apply Forall_map, Forall_forall. intros r _. unfold project.
    by rewrite length_map, !length_fmap.
Qed.
End Core.

Lemma conjoin_not_None (w : node) (es : list node) : foldl conjoin (Some w) es <> None.
Proof. revert w. induction es as [|e es IH]; intros w; simpl; [done|]. apply IH. Qed.

Lemma guarded_where (ops : sql_ops) (its : list item) (s s' : select) :
  whereClause s' = whereClause s /\ exclusions its.*1 = [] \/
    whereClause s' = foldl conjoin (Some (default true_const (whereClause s))) (exclusions its.*1) ->
  guarded ops its s s'.
Proof.
  intros Hw f Hf. unfold select_where in *. destruct Hw as [[H He]|H]; rewrite H in Hf.
  - exists f, [], []. split_and!; [done|done|constructor|].
    intros r. by rewrite andb_true_r.
  - destruct (foldl conjoin _ _) as [e|] eqn:Hfold.
    2: { by apply conjoin_not_None in Hfold. }
    destruct (conjoin_true ops (paths (map item_scope its)) _ _ _ f Hfold) as (g & hs & Hg & Hhs & Heq); [done|].
    destruct (whereClause s) as [w|]; simpl in Hg.
    + exists g, hs, (exclusions its.*1). split_and!; [done|done|done|]. exact Heq.
    + injection Hg as <-. exists (fun _ => VBool true), hs, (exclusions its.*1).
      split_and!; [done|done|done|]. exact Heq.
Qed.

Lemma length_condition_targets (rels : list rel_info) :
  length (condition_targets rels) = calculate_total_triples rels * 3.
Proof.
  unfold condition_targets, numbered_triples. rewrite <- length_triples.
  generalize (r ← rels; j ← seq 0 (ri_triples r); [(r, j)]). intros L.
  generalize (@pair nat (rel_info * nat)). induction L as [|x L IHL]; intros g; [done|].
  rewrite imap_cons, bind_cons, length_app, IHL. simpl. lia.
Qed.

(** ** The rewriting of a plain select *)

Section Process.
Context (catalog : RangeVar -> option Relation) (ops : sql_ops).

Lemma no_calls (tl : list target) (nm : string) :
  hasApproxAggregate (val <$> tl) = false -> nm ∈ approx_names -> lookup_func_in_targets tl nm = None.
Proof.
  unfold hasApproxAggregate, lookup_func_in_targets. intros H Hnm.
  destruct (lookup_func_in_list (val <$> tl) nm) eqn:Hl; [|done].
  apply not_true_iff_false in H as []. apply existsb_exists. exists nm.
  split; [by apply list_elem_of_In|]. rewrite Hl. by apply bool_decide_eq_true_2.
Qed.

Definition rewrite_from (ps : select -> outcome select) (n : node) : outcome node :=
  match n with
  | RangeSubselect q alias => q ← as_select (Some q); q ← ps q; Ok (RangeSubselect (Select q) alias)
  | _ => Ok n
  end.

Lemma process_plain_eq (ps : select -> outcome select) (pr : node -> outcome node) (s : select) :
  plain_parts ops s ->
  process_select_ catalog ps pr s =
    (from ← map_outcome (rewrite_from ps) (fromClause s);
     rels ← relations catalog from;
     tl ← transform_targetList catalog (star_fuel catalog rels (targetList s)) 0 rels (targetList s);
     attach_condition_columns (set_targetList tl (set_fromClause from s)) rels false).
Proof.
  intros Hp. pose proof (pp_fragment _ _ Hp) as Hf. unfold in_fragment in Hf. rewrite !andb_true_iff in Hf.
  destruct Hf as ((((Hop & Hposs) & Hkey) & Hpick) & _). apply bool_decide_eq_true in Hop.
  apply negb_true_iff in Hposs. destruct (repairkey s) eqn:Hrk; [|done]. clear Hkey.
  apply negb_true_iff in Hpick.
  assert (Hno : forall nm, nm ∈ approx_names -> lookup_func_in_targets (targetList s) nm = None).
  { intros nm. apply no_calls, (pp_approx _ _ Hp). }
  unfold process_select_, process_subquery, rewrite_from.
  destruct (map_outcome _ (fromClause s)) as [from| | |]; cbn [mbind outcome_bind]; [|done..].
  simpl op. rewrite Hop. cbn [targetList set_fromClause fromClause mbind outcome_bind].
  unfold rewrite_expectations. rewrite !Hno by (unfold approx_names; set_solver).
  cbn [mbind outcome_bind pointer fst fmap option_fmap option_map].
  destruct (relations catalog from) as [rels| | |]; cbn [mbind outcome_bind]; [|done..].
  destruct (transform_targetList _ _ _ _ _) as [tl| | |]; cbn [mbind outcome_bind]; [|done..].
  simpl. rewrite Hrk, Hpick, Hposs, !Hno by (unfold approx_names; set_solver).
  simpl. rewrite andb_false_r. simpl. rewrite Hposs. simpl. by rewrite Hrk, Hpick.
Qed.

Lemma process_plain (ps : select -> outcome select) (pr : node -> outcome node) (s s' : select) :
  plain_parts ops s -> process_select_ catalog ps pr s = Ok s' ->
  exists from rels tl, map_outcome (rewrite_from ps) (fromClause s) = Ok from /\
    relations catalog from = Ok rels /\
    transform_targetList catalog (star_fuel catalog rels (targetList s)) 0 rels (targetList s) = Ok tl /\
    attach_condition_columns (set_targetList tl (set_fromClause from s)) rels false = Ok s'.
Proof.
  intros Hp. rewrite process_plain_eq by done.
  intros (from & Hfrom & (rels & Hrels & (tl & Htl & Hatt)%outcome_bind_Ok)%outcome_bind_Ok)%outcome_bind_Ok.
  by exists from, rels, tl.
Qed.

(** What [attach_condition_columns] makes of a select. *)
Record attached (s : select) (rels : list rel_info) (s' : select) : Prop := {
  at_targets : targetList s' = targetList s ++ condition_targets rels;
  at_where : whereClause s' = whereClause s /\ exclusions rels = [] \/
    whereClause s' = foldl conjoin (Some (default true_const (whereClause s))) (exclusions rels);
  at_from : fromClause s' = fromClause s;
  at_fragment : in_fragment s' = in_fragment s;
  at_group : groupClause s' = groupClause s;
  at_sort : sortClause s' = sortClause s;
  at_distinct : distinctClause s' = distinctClause s;
  at_type : tabletype s' ∈ [TABLETYPE_CERTAIN; TABLETYPE_URELATION];
  at_triples : select_triples s' = calculate_total_triples rels }.

(** A relation that is neither independent nor a U-relation has no triples. *)
Definition typed_triples (r : rel_info) : Prop :=
  ri_type r ∉ [TABLETYPE_INDEPENDENT; TABLETYPE_URELATION] -> ri_triples r = 0.

Lemma certain_exclusions (rels : list rel_info) :
  all_relations_are_certain (ri_type <$> rels) = true -> exclusions rels = [].
Proof.
  unfold all_relations_are_certain. induction rels as [|r rels IH]; [done|]. rewrite fmap_cons. simpl.
  intros [[_ H]%andb_prop Hc]%andb_prop. apply negb_true_iff in H. unfold is_urelation. rewrite H. by apply IH.
Qed.

Lemma attached_columns (s s' : select) (rels : list rel_info) :
  Forall typed_triples rels -> attach_condition_columns s rels false = Ok s' -> attached s rels s'.
Proof.
  intros Ht. unfold attach_condition_columns. rewrite orb_false_r.
  destruct (all_relations_are_certain _) eqn:Hc.
  - intros [= <-].
    assert (H0 : Forall (fun r => ri_triples r = 0) rels).
    { unfold all_relations_are_certain in Hc. clear s. induction Ht as [|r rels Hr _ IH]; [constructor|].
      rewrite fmap_cons in Hc. simpl in Hc. apply andb_prop in Hc as [Hr0 Hc]. constructor; [|by apply IH].
      apply Hr. apply andb_prop in Hr0 as [H1 H2]. apply negb_true_iff, bool_decide_eq_false in H1.
      apply negb_true_iff, bool_decide_eq_false in H2. set_solver. }
    assert (Hnone : (r ← rels; j ← seq 0 (ri_triples r); [(r, j)]) = []).
    { clear -H0. induction H0 as [|r rels Hr _ IH]; [done|]. rewrite bind_cons, Hr, IH. done. }
    split; try done.
    + unfold condition_targets, numbered_triples. simpl. rewrite Hnone. simpl. by rewrite app_nil_r.
    + left. split; [done|]. by apply certain_exclusions.
    + simpl. set_solver.
    + unfold select_triples. simpl. rewrite <- length_triples, Hnone. done.
  - intros (s1 & Hs1 & [= <-])%outcome_bind_Ok. unfold add_condition_columns in Hs1.
    apply outcome_bind_Ok in Hs1 as (flags & _ & [= <-]).
    unfold remove_mutual_exclusiveness, fill_where_clause. simpl.
    destruct (whereClause s) as [w|] eqn:Hw; split; simpl; rewrite ?Hw; try done; try (by right);
      by apply list_elem_of_further, list_elem_of_here.
Qed.

(** ** The items of a from clause *)

Context (db : RangeVar -> option table) (Hdb : database_ok catalog db).

(** An original node, its rewriting's entry and table: what holds in every world. *)
Record item_represents (n : node) (it : item) : Prop := {
  ir_ok : item_ok catalog it;
  ir_typed : typed_triples it.1;
  ir_qualifier : removelast (nodeGetFields n) = qualifier it.1;
  ir_world : forall th, eval_from ops (world_db catalog db th) n = Some (item_world th it) }.

Lemma nodeGetFields_fake (n : node) : nodeGetFields n = removelast (nodeGetFields n) ++ ["fake"].
Proof. unfold nodeGetFields, Signature.nodeGetFields. by rewrite removelast_last. Qed.

Lemma removelast_take {A} (l : list A) : take (length l - 1) l = removelast l.
Proof.
  destruct l as [|a l] using rev_ind; [done|]. rewrite removelast_last, length_app. simpl.
  by rewrite Nat.add_sub, take_app_length.
Qed.

Lemma filter_data (cs : list string) :
  filter (fun a => isConditionAttribute a = false) cs = keep (data_mask cs) cs.
Proof.
  induction cs as [|c cs IH]; [done|]. rewrite filter_cons, IH. simpl. unfold is_data.
  destruct (isConditionAttribute c); [by rewrite decide_False | by rewrite decide_True].
Qed.

Lemma range_item (rv : RangeVar) (ri : rel_info) (qt : list string * table) :
  rel_info_of catalog (N_RangeVar rv) = Ok ri -> eval_from ops db (N_RangeVar rv) = Some qt ->
  exists it, it.1 = ri /\ item_table it = qt /\ item_represents (N_RangeVar rv) it.
Proof.
  unfold rel_info_of, table_type, tripleCount, relation_openrv. cbn [eval_from].
  destruct (catalog rv) as [rel|] eqn:Hrel; [|done]. cbn [mbind outcome_bind repairkey_columns].
  intros [= <-] (t & Ht & [= <-])%bind_Some. pose proof (Hdb rv rel t Hrel Ht) as Hok.
  exists (mk_info (rd_tabletype rel) (relation_triples rel) (nodeGetFields (N_RangeVar rv))
    (Some (replicate (relation_triples rel) false)) (N_RangeVar rv), t).
  split_and!; [done| |].
  - unfold item_table, qualifier. cbn [fst snd ri_fields]. by rewrite removelast_take.
  - split.
    + split; cbn [fst snd ri_fields].
      * unfold qualifier. cbn [fst ri_fields]. rewrite removelast_take. apply nodeGetFields_fake.
      * apply (tok_rows _ _ Hok).
      * intros k Hk. by apply (tok_triples _ _ Hok).
      * destruct (tok_data _ _ Hok) as (c & Hc). intros Hnil.
        apply elem_of_keep_data in Hc. unfold data_columns in Hnil. cbn [snd] in Hnil. rewrite Hnil in Hc.
        by apply not_elem_of_nil in Hc.
      * apply (tok_star _ _ Hok).
      * unfold expand_columnref_star_one_relation, relation_openrv. cbn [ri_node]. rewrite Hrel.
        cbn [mbind outcome_bind]. intros new [= <-]. unfold data_columns. cbn [snd].
        by rewrite filter_data, (tok_columns _ _ Hok).
    + unfold typed_triples. cbn [fst ri_type ri_triples]. intros Hty. unfold relation_triples.
      rewrite !bool_decide_eq_false_2 by set_solver. done.
    + unfold qualifier. cbn [fst ri_fields]. by rewrite removelast_take.
    + intros th. cbn [eval_from]. unfold world_db. rewrite Hrel, Ht. cbn [mbind option_bind].
      unfold item_world, qualifier. cbn [fst snd ri_fields ri_triples]. by rewrite removelast_take.
Qed.

(** What a rewritten subquery promises to the select around it. *)
Record result_ok (s' : select) (t : table) : Prop := {
  ro_rows : Forall (fun r => length r = length (columns t)) (rows t);
  ro_triples : forall k, k < select_triples s' ->
    catStrInt VARNAME k ∈ columns t /\ catStrInt DOMAINNAME k ∈ columns t;
  ro_prob : forall k, k < select_triples s' -> catStrInt PROBNAME k ∈ columns t;
  ro_nodup : NoDup (keep (data_mask (columns t)) (columns t)) -> NoDup (columns t);
  ro_star : "*" ∉ columns t;
  ro_type : tabletype s' ∈ [TABLETYPE_CERTAIN; TABLETYPE_URELATION];
  ro_targets : exists tl cs, targetList s' = tl ++ cs /\ tl <> [] /\ length cs = select_triples s' * 3 /\
    map target_name tl = keep (data_mask (columns t)) (columns t) }.

Definition represents (s s' : select) : Prop :=
  forall t, eval_select ops db s' = Some t ->
    result_ok s' t /\
    forall th, eval_select ops (world_db catalog db th) s = Some (instance th (select_triples s') t).

Lemma map_column_name (tl : list target) (names : list string) :
  map_outcome column_name tl = Ok names -> names = map target_name tl.
Proof.
  intros H%map_outcome_Forall2. induction H as [|r c tl names Hr _ IH]; [done|].
  simpl. by rewrite <- IH, (column_name_target _ _ Hr).
Qed.

Lemma subselect_item (s s' : select) (alias : string) (ri : rel_info) (qt : list string * table) :
  represents s s' -> rel_info_of catalog (RangeSubselect (Select s') alias) = Ok ri ->
  eval_from ops db (RangeSubselect (Select s') alias) = Some qt ->
  exists it, it.1 = ri /\ item_table it = qt /\ item_represents (RangeSubselect (Select s) alias) it.
Proof.
  intros Hrep [= <-]. cbn [eval_from]. intros (t & Ht & [= <-])%bind_Some.
  destruct (Hrep t Ht) as [Hok Hw].
  exists (mk_info (tabletype s') (select_triples s') [alias; "fake"] (isFromRepairKey s')
    (RangeSubselect (Select s') alias), t).
  split_and!; [done|done|]. destruct (ro_targets _ _ Hok) as (tl & cs & Htl & Hne & Hcs & Hnames).
  assert (Hwidth : condition_width (mk_info (tabletype s') (select_triples s') [alias; "fake"]
            (isFromRepairKey s') (RangeSubselect (Select s') alias)) = length cs).
  { unfold condition_width. cbn [ri_type ri_triples]. rewrite Hcs. case_bool_decide as Hty; [done|].
    unfold select_triples. rewrite !bool_decide_eq_false_2 by set_solver. done. }
  split; [split|..].
  - done.
  - apply (ro_rows _ _ Hok).
  - intros k Hk. by apply (ro_triples _ _ Hok).
  - unfold data_columns. cbn [snd]. rewrite <- Hnames. by destruct tl.
  - apply (ro_star _ _ Hok).
  - intros new. unfold expand_columnref_star_one_relation. cbn [fst ri_node as_select mbind outcome_bind].
    rewrite Hwidth, Htl, length_app, Nat.add_sub, take_app_length.
    intros (names & Hn%map_column_name & [= <-])%outcome_bind_Ok. by rewrite Hn, Hnames.
  - unfold typed_triples. cbn [fst ri_type ri_triples]. intros Hty. unfold select_triples.
    by rewrite !bool_decide_eq_false_2 by set_solver.
  - done.
  - intros th. specialize (Hw th). cbn [eval_from]. unfold eval_select in Hw. by rewrite Hw.
Qed.

Lemma items_of (ps : select -> outcome select) (from from' : list node) (rels : list rel_info)
    (ts : list (list string * table)) :
  (forall s s', ps s = Ok s' -> plain ops s -> represents s s') ->
  Forall (plain_from ops) from -> map_outcome (rewrite_from ps) from = Ok from' ->
  relations catalog from' = Ok rels -> map_option (eval_from ops db) from' = Some ts ->
  exists its, its.*1 = rels /\ map item_table its = ts /\ Forall2 item_represents from its.
Proof.
  intros Hps Hfrom. revert from' rels ts. induction Hfrom as [|n from Hn _ IH]; intros from' rels ts.
  - intros [= <-] [= <-] [= <-]. by exists [].
  - intros (n' & Hn' & (from'' & Hf' & [= <-])%outcome_bind_Ok)%outcome_bind_Ok.
    intros (ri & Hri & (rels' & Hrels & [= <-])%outcome_bind_Ok)%outcome_bind_Ok.
    cbn [map_option]. intros (qt & Hqt & (ts' & Hts & [= <-])%bind_Some)%bind_Some.
    destruct (IH _ _ _ Hf' Hrels Hts) as (its & <- & <- & Hits).
    assert (Hit : exists it, it.1 = ri /\ item_table it = qt /\ item_represents n it).
    { destruct Hn as [rv|s alias Hs].
      - injection Hn' as <-. by apply range_item.
      - cbn [rewrite_from as_select mbind outcome_bind] in Hn'.
        apply outcome_bind_Ok in Hn' as (s' & Hs' & [= <-]). apply (subselect_item s s'); [|done..]. by apply Hps. }
    destruct Hit as (it & <- & <- & Hit). exists (it :: its). split_and!; [done..|]. by constructor.
Qed.

Lemma items_qualifiers (from : list node) (its : list item) :
  Forall2 item_represents from its -> qualifiers_ok from -> distinct_qualifiers its.
Proof.
  intros Hits Hq i j it1 it2 H1 H2 Hs.
  destruct (Forall2_lookup_r _ _ _ _ _ Hits H1) as (n1 & Hn1 & Hr1).
  destruct (Forall2_lookup_r _ _ _ _ _ Hits H2) as (n2 & Hn2 & Hr2).
  apply (Hq i j n1 n2); [done..|]. by rewrite (ir_qualifier _ _ Hr1), (ir_qualifier _ _ Hr2).
Qed.

Lemma items_known (from : list node) (its : list item) (r : target) :
  Forall2 item_represents from its -> star_known from r = true -> star_known_item its r.
Proof.
  intros Hits Hk fields [Hv Hlast]%star_of_Some. unfold star_known in Hk.
  rewrite Hv, bool_decide_eq_true_2 in Hk by done.
  assert (Hq : map (fun n => removelast (nodeGetFields n)) from = map (fun it : item => qualifier it.1) its).
  { clear Hk. induction Hits as [|n it from its Hit _ IH]; [done|]. simpl. by rewrite IH, (ir_qualifier _ _ Hit). }
  rewrite <- Hq. split.
  - intros Hr. rewrite Hr in Hk. intros ->. by apply Forall2_nil_inv_r in Hits as ->.
  - intros Hr. destruct (removelast fields); [done|]. by apply bool_decide_eq_true in Hk.
Qed.

Lemma guarded_attached (its : list item) (s s0 s' : select) :
  whereClause s0 = whereClause s -> attached s0 its.*1 s' -> guarded ops its s s'.
Proof. intros Hw Hat. apply guarded_where. rewrite <- Hw. apply (at_where _ _ _ Hat). Qed.

Lemma expansions_of_transform (its : list item) (s : select) (tl : list target) :
  Forall (item_ok catalog) its -> plain_parts ops s -> Forall (star_known_item its) (targetList s) ->
  transform_targetList catalog (star_fuel catalog its.*1 (targetList s)) 0 its.*1 (targetList s) = Ok tl ->
  exists news, map_outcome (expand_target catalog its.*1) (targetList s) = Ok news /\ tl = concat news.
Proof.
  intros Hok Hp Hk. apply (transform_spec catalog its.*1 _ [] []); [constructor|].
  apply Forall_forall. intros r Hr new Hnew.
  pose proof (pp_targets _ _ Hp) as Ht. rewrite Forall_forall in Ht, Hk.
  destruct (plain_target_parts _ _ _ (Ht r Hr)) as (_ & Ha & _).
  destruct (expand_proper catalog ops its r new Hok (Hk r Hr) Ha Hnew) as [Hne Hpr].
  split; [done|]. eapply Forall_impl; [exact Hpr|]. by intros r' [].
Qed.

(** What the rewriting of a plain select makes of it, given the items of its from
    clause. *)
Record rewritten (s s' : select) (from : list node) (its : list item) (news : list (list target)) : Prop := {
  rw_ok : Forall (item_ok catalog) its;
  rw_qualifiers : distinct_qualifiers its;
  rw_known : Forall (star_known_item its) (targetList s);
  rw_news : map_outcome (expand_target catalog its.*1) (targetList s) = Ok news;
  rw_proper : concat news <> [] /\ Forall (proper_target ops) (concat news);
  rw_attached : attached (set_targetList (concat news) (set_fromClause from s)) its.*1 s' }.

Lemma attach_from (s s' : select) (rels : list rel_info) (c : bool) :
  attach_condition_columns s rels c = Ok s' -> fromClause s' = fromClause s /\ in_fragment s' = in_fragment s.
Proof.
  unfold attach_condition_columns. case_match; [by intros [= <-]|].
  intros (s1 & (fl & _ & [= <-])%outcome_bind_Ok & [= <-])%outcome_bind_Ok.
  unfold remove_mutual_exclusiveness, fill_where_clause. simpl. by destruct (whereClause s).
Qed.

(** The targets of a plain select after the expansion of stars. *)
Record expanded (s : select) (its : list item) (news : list (list target)) : Prop := {
  ex_ok : Forall (item_ok catalog) its;
  ex_qualifiers : distinct_qualifiers its;
  ex_known : Forall (star_known_item its) (targetList s);
  ex_news : map_outcome (expand_target catalog its.*1) (targetList s) = Ok news;
  ex_proper : concat news <> [] /\ Forall (proper_target ops) (concat news) }.

Lemma expanded_items (s : select) (its : list item) (tl : list target) :
  plain_parts ops s -> qualifiers_ok (fromClause s) -> Forall2 item_represents (fromClause s) its ->
  transform_targetList catalog (star_fuel catalog its.*1 (targetList s)) 0 its.*1 (targetList s) = Ok tl ->
  exists news, tl = concat news /\ expanded s its news.
Proof.
  intros Hp Hq Hits Htl.
  assert (Hok : Forall (item_ok catalog) its).
  { apply Forall_forall. intros it (i & Hi)%list_elem_of_lookup.
    destruct (Forall2_lookup_r _ _ _ _ _ Hits Hi) as (n & _ & Hr). apply (ir_ok _ _ Hr). }
  assert (Hknown : Forall (star_known_item its) (targetList s)).
  { eapply Forall_impl; [by apply (pp_targets _ _ Hp)|]. intros r Hr.
    apply (items_known (fromClause s)); [done|]. by apply plain_target_parts in Hr as (_ & _ & ?). }
  destruct (expansions_of_transform its s tl Hok Hp Hknown Htl) as (news & Hnews & ->).
  pose proof (items_qualifiers _ _ Hits Hq) as Hdq. exists news. split; [done|]. split; [done..|].
  apply (expansions_proper catalog ops its Hok Hdq (fromClause s) (targetList s) news);
    [by apply pp_nonempty in Hp| |done].
  apply Forall_and. split; [by apply pp_targets | done].
Qed.

Lemma rewritten_items (s s' : select) (from : list node) (its : list item) (tl : list target) :
  plain_parts ops s -> qualifiers_ok (fromClause s) -> Forall2 item_represents (fromClause s) its ->
  transform_targetList catalog (star_fuel catalog its.*1 (targetList s)) 0 its.*1 (targetList s) = Ok tl ->
  attach_condition_columns (set_targetList tl (set_fromClause from s)) its.*1 false = Ok s' ->
  exists news, rewritten s s' from its news.
Proof.
  intros Hp Hq Hits Htl Hatt. destruct (expanded_items s its tl) as (news & -> & [Hok Hdq Hknown Hnews Hproper]); [done..|].
  assert (Htyped : Forall typed_triples its.*1).
  { apply Forall_fmap, Forall_forall. intros it (i & Hi)%list_elem_of_lookup.
    destruct (Forall2_lookup_r _ _ _ _ _ Hits Hi) as (n & _ & Hr). apply (ir_typed _ _ Hr). }
  exists news. split; [done..|by apply attached_columns].
Qed.

Lemma rewritten_result (s s' : select) (from : list node) (its : list item) (news : list (list target)) (t' : table) :
  plain_parts ops s -> rewritten s s' from its news ->
  columns t' = map target_name (targetList s') -> Forall good_name (map target_name (concat news)) ->
  Forall (fun r => length r = length (columns t')) (rows t') -> result_ok s' t'.
Proof.
  intros Hp [_ _ _ _ [Hne _] Hat] Hcols Hgood Hrows.
  pose proof (at_targets _ _ _ Hat) as Htg. cbn [targetList set_targetList] in Htg.
  rewrite Htg, map_app in Hcols.
  assert (Hdata : keep (data_mask (columns t')) (columns t') = map target_name (concat news)).
  { rewrite Hcols. unfold data_mask. rewrite map_app, keep_app by by rewrite length_map.
    rewrite keep_true, keep_false, app_nil_r; [done| |by rewrite length_map|].
    - apply Forall_map, Forall_forall. intros c Hc. by apply (condition_names its.*1).
    - apply Forall_map. eapply Forall_impl; [exact Hgood|]. by intros c []. }
  rewrite Forall_forall in Hgood. split; [done| | | | |apply (at_type _ _ _ Hat)|].
  - intros k Hk. rewrite (at_triples _ _ _ Hat) in Hk. rewrite Hcols, !elem_of_app.
    destruct (condition_names_triples its.*1 k Hk). tauto.
  - intros k Hk. rewrite (at_triples _ _ _ Hat) in Hk. rewrite Hcols, elem_of_app. right.
    by apply condition_names_prob.
  - rewrite Hdata. intros Hnd. rewrite Hcols. apply NoDup_app. split_and!; [done| |apply condition_names_NoDup].
    intros c Hc Hc'. destruct (Hgood c Hc) as [Hd _]. apply (condition_names its.*1) in Hc' as [Hd' _]. congruence.
  - rewrite Hcols. intros [Hin|Hin]%elem_of_app; [by apply (Hgood "*")|].
    by apply (condition_names its.*1) in Hin as [_ ?].
  - exists (concat news), (condition_targets its.*1). rewrite (at_triples _ _ _ Hat), Hdata.
    split_and!; [done..|apply length_condition_targets|done].
Qed.

Lemma items_world (from : list node) (its : list item) (th : world) :
  Forall2 item_represents from its ->
  map_option (eval_from ops (world_db catalog db th)) from = Some (map (item_world th) its).
Proof.
  intros Hits. apply map_option_Forall2, Forall2_fmap_r. eapply Forall2_impl; [exact Hits|].
  intros n it Hr. apply (ir_world _ _ Hr).
Qed.

Lemma process_represents (fuel : nat) (s s' : select) :
  process_select catalog fuel s = Ok s' -> plain ops s -> represents s s'.
Proof.
  revert s s'. induction fuel as [|fuel IH]; intros s s'; [done|]. cbn [process_select].
  intros Hproc Hplain t' Ht'. destruct Hplain as [s Hcl Hq Hfrom]. apply plain_clauses_parts in Hcl as Hp.
  destruct (process_plain _ _ s s' Hp Hproc) as (from & rels & tl & Hf & Hrels & Htl & Hatt).
  unfold eval_select in Ht'. destruct (in_fragment s') eqn:Hfrag; [|done].
  apply bind_Some in Ht' as (ts & Hts & Heval).
  rewrite (proj1 (attach_from _ _ _ _ Hatt)) in Hts. cbn [fromClause set_targetList set_fromClause] in Hts.
  destruct (items_of _ (fromClause s) from rels ts IH Hfrom Hf Hrels Hts) as (its & <- & <- & Hits).
  destruct (rewritten_items s s' from its tl Hp Hq Hits Htl Hatt) as (news & Hrw).
  pose proof (rw_attached _ _ _ _ _ Hrw) as Hat.
  destruct (eval_core catalog ops its (rw_ok _ _ _ _ _ Hrw) (rw_qualifiers _ _ _ _ _ Hrw) s s' news t' Hp
    (rw_known _ _ _ _ _ Hrw) (rw_news _ _ _ _ _ Hrw)) as (Hworld & Hcols & Hgood & Hrows).
  - apply (at_targets _ _ _ Hat).
  - eapply guarded_attached; [|exact Hat]. done.
  - rewrite (at_group _ _ _ Hat). apply (pp_group _ _ Hp).
  - rewrite (at_sort _ _ _ Hat). apply (pp_sort _ _ Hp).
  - rewrite (at_distinct _ _ _ Hat). apply (pp_distinct _ _ Hp).
  - done.
  - split; [by apply (rewritten_result s s' from its news)|]. intros th. unfold eval_select.
    rewrite (pp_fragment _ _ Hp), (items_world _ _ th Hits), (at_triples _ _ _ Hat). apply Hworld.
Qed.
End Process.
