(* ===== verification/RewriteDefined.v ===== *)
(** * RewriteDefined: the rewriting succeeds, and a rewritten select has an answer

    Fuel above the nesting of the subqueries is enough, the loop over the target list
    ends, and no error is raised when the catalog knows the relations and the targets of
    subqueries have names.
    When the original select has an answer over the relations of some world, the
    rewritten one has an answer over the U-relations: the names of columns that it uses
    are found, those of the condition columns included. *)
From Stdlib Require Import Strings.String Strings.Ascii.
From stdpp Require Import strings.
From S2P Require Import Prelude.
From S2P Require Import Worlds.
From S2P Require Import ParseTree.
From S2P Require Import RewriteUtils.
From S2P Require Import Supported.
From S2P Require Import Rewrite.
From S2P Require Import Sql.
From S2P Require Import SqlFacts.
From S2P Require Import ScopeFacts.
From S2P Require Import TargetFacts.
From S2P Require Import RewriteCorrect.
Open Scope string_scope.
Open Scope list_scope.
Open Scope nat_scope.

#[local] Set Default Proof Using "Type*".

(** ** The rewriting of a plain select succeeds *)

(** The nesting of subqueries in a from clause. *)
Fixpoint node_depth (n : node) : nat :=
  match n with
  | RangeSubselect (Select s) _ => S (max_list (map node_depth (fromClause s)))
  | _ => 0
  end.
Definition select_depth (s : select) : nat := max_list (map node_depth (fromClause s)).

Lemma node_depth_le (from : list node) (n : node) :
  n ∈ from -> node_depth n <= max_list (map node_depth from).
Proof. intros Hn. apply max_list_elem_of_le, list_elem_of_fmap. by exists n. Qed.

Section Total.
Context (catalog : RangeVar -> option Relation) (ops : sql_ops).

Definition named (r : target) : Prop := exists c, column_name r = Ok c.

(** The relations are in the catalog, the targets of subqueries have names. *)
Inductive known : select -> Prop :=
  | known_intro s : Forall known_from (fromClause s) -> known s
with known_from : node -> Prop :=
  | known_range rv rel c :
      catalog rv = Some rel -> c ∈ attnames rel -> is_data c = true -> "*" ∉ attnames rel ->
      known_from (N_RangeVar rv)
  | known_subselect s alias :
      known s -> Forall named (targetList s) -> known_from (RangeSubselect (Select s) alias).

(** ** The loop over the target list *)

Section Loop.
Context (rels : list rel_info) (B : nat).

Definition visit (r : target) : nat := match star_of r with Some _ => B | None => 1 end.
Definition visits (tl : list target) : nat := sum_list_with visit tl.

Lemma visits_star_free (tl : list target) :
  Forall (fun r => star_of r = None) tl -> visits tl = length tl.
Proof. induction 1 as [|r tl Hr _ IH]; [done|]. unfold visits in *. simpl. rewrite IH. unfold visit. by rewrite Hr. Qed.

Lemma visits_le (tl : list target) : 0 < B -> visits tl <= length tl * B.
Proof.
  intros HB. unfold visits. induction tl as [|r tl IH]; simpl; [lia|]. unfold visit at 1. destruct (star_of r); lia.
Qed.

Definition small_expansion (r : target) : Prop :=
  forall star, star_of r = Some star ->
    exists new, expand_columnref_star catalog rels star = Ok new /\ length new <= B /\
      Forall (fun r => star_of r = None) new.

Lemma transform_total (fuel i : nat) (tl : list target) :
  0 < B -> Forall small_expansion (drop i tl) -> visits (drop i tl) <= fuel ->
  exists tl', transform_targetList catalog fuel i rels tl = Ok tl'.
Proof.
  intros HB. revert i tl. induction fuel as [|fuel IH]; intros i tl Hs Hv; simpl;
    destruct (tl !! i) as [r|] eqn:Hr; try by eexists.
  all: rewrite (drop_S _ _ _ Hr) in Hs, Hv; unfold visits, visit in Hv; simpl in Hv.
  { destruct (star_of r); lia. }
  apply Forall_cons in Hs as [Hsr Hs].
  destruct (star_of r) as [star|] eqn:Hstar; [|apply IH; [done|unfold visits, visit; lia]].
  destruct (Hsr star Hstar) as (new & -> & Hl & Hf). cbn [mbind outcome_bind].
  assert (Hlen : length (take i tl) = i) by (apply length_take_le; apply lookup_lt_Some in Hr; lia).
  assert (Hd : drop (S i) (take i tl ++ new ++ drop (S i) tl) = tail (new ++ drop (S i) tl)).
  { rewrite drop_app_ge, Hlen by lia. replace (S i - i) with 1 by lia. by destruct (new ++ _). }
  apply IH; rewrite Hd; clear Hd.
  - apply Forall_tail, Forall_app. split; [|done]. eapply Forall_impl; [exact Hf|].
    intros r' Hr' star'. by rewrite Hr'.
  - pose proof (visits_star_free _ Hf) as Hfree. unfold visits, visit in *. destruct new as [|n new].
    + simpl. destruct (drop (S i) tl); simpl in *; lia.
    + simpl in *. rewrite sum_list_with_app. apply Forall_cons in Hf as [Hn Hf]. rewrite Hn in Hfree. lia.
Qed.
End Loop.

(** ** Expansions *)

(** What is known of a relation without its rows. *)
Record rel_ok (r : rel_info) : Prop := {
  rel_fields : ri_fields r = qualifier r ++ ["fake"];
  rel_expand : exists cs, expand_columnref_star_one_relation catalog r = Ok (map (unnamed_column (qualifier r)) cs) /\
    cs <> [] /\ "*" ∉ cs /\ length cs <= rel_width catalog (ri_node r);
  rel_flags : match ri_repairkey r with Some l => ri_triples r <= length l | None => ri_triples r = 0 end;
  rel_typed : typed_triples r }.

Definition rel_known (rels : list rel_info) (r : target) : Prop :=
  forall fields, star_of r = Some fields ->
    (removelast fields = [] -> rels <> []) /\
    (removelast fields <> [] -> removelast fields ∈ map qualifier rels).

(** A target that an expansion makes. *)
Definition result_target (r r' : target) : Prop :=
  star_of r' = None /\ target_name r' <> "*" /\ (named r -> named r').

Definition width (rels : list rel_info) : nat := sum_list_with (fun r => rel_width catalog (ri_node r)) rels.

Lemma unnamed_result (r : target) (q cs : list string) :
  "*" ∉ cs -> Forall (result_target r) (map (unnamed_column q) cs).
Proof.
  intros Hs. apply Forall_map, Forall_forall. intros c Hc. assert (c <> "*") by set_solver.
  split_and!.
  - unfold star_of. simpl. rewrite last_snoc, bool_decide_eq_false_2; congruence.
  - unfold target_name. simpl. by rewrite last_snoc.
  - intros _. exists c. unfold column_name. simpl. by rewrite last_snoc.
Qed.

Lemma expand_all (rels : list rel_info) (r : target) :
  Forall rel_ok rels ->
  exists news, map_outcome (expand_columnref_star_one_relation catalog) rels = Ok news /\
    (rels <> [] -> concat news <> []) /\ length (concat news) <= width rels /\
    Forall (result_target r) (concat news).
Proof.
  induction 1 as [|ri rels Hri _ (news & Hn & _ & Hl & Hf)]; [by exists []|].
  destruct (rel_expand _ Hri) as (cs & Hcs & Hne & Hs & Hw).
  exists (map (unnamed_column (qualifier ri)) cs :: news). simpl. rewrite Hcs, Hn. split_and!; [done| | |].
  - intros _. by destruct cs.
  - unfold width in *. simpl. rewrite length_app, length_map. lia.
  - apply Forall_app. split; [by apply unnamed_result|done].
Qed.

Lemma expand_total (rels : list rel_info) (r : target) :
  Forall rel_ok rels -> rel_known rels r -> (star_of r = None -> target_name r <> "*") ->
  exists new, expand_target catalog rels r = Ok new /\ new <> [] /\ length new <= S (width rels) /\
    Forall (result_target r) new.
Proof.
  intros Hrels Hk Hname. unfold expand_target. destruct (star_of r) as [fields|] eqn:Hs.
  2: { exists [r]. split_and!; [done..|simpl; lia|]. repeat constructor; auto. }
  destruct (Hk fields Hs) as [Hne Hin]. apply star_of_Some in Hs as [_ Hlast]. unfold expand_columnref_star.
  destruct (length fields =? 1) eqn:Hlen.
  - destruct (expand_all rels r Hrels) as (news & -> & Hn & Hl & Hf). exists (concat news).
    split_and!; [done| |lia|done]. apply Hn, Hne. apply Nat.eqb_eq in Hlen. by destruct fields as [|f [|]].
  - assert (Hr : removelast fields <> []).
    { apply last_Some in Hlast as [l ->]. rewrite removelast_last. by intros ->. }
    rewrite Forall_forall in Hrels.
    destruct (list_find _ rels) as [[i ri]|] eqn:Hfind.
    + apply list_find_Some in Hfind as (Hi & _ & _). apply list_elem_of_lookup_2 in Hi as Hin'.
      destruct (rel_expand _ (Hrels _ Hin')) as (cs & -> & Hne' & Hs & Hw).
      exists (map (unnamed_column (qualifier ri)) cs). split_and!; [done|by destruct cs| |by apply unnamed_result].
      rewrite length_map. unfold width. pose proof (sum_list_with_in ri (fun r => rel_width catalog (ri_node r)) rels Hin').
      simpl in *. lia.
    + exfalso. apply list_find_None in Hfind. rewrite Forall_forall in Hfind.
      apply list_elem_of_fmap in Hin as (ri & Hq & Hi); [|done]. apply (Hfind ri Hi).
      apply (star_matches_qualifier (ri, mk_table [] []) fields "*"); [by apply rel_fields, Hrels|done..].
Qed.

Lemma transform_plain (rels : list rel_info) (tl : list target) :
  Forall rel_ok rels -> Forall (fun r => rel_known rels r /\ (star_of r = None -> target_name r <> "*")) tl ->
  exists news, transform_targetList catalog (star_fuel catalog rels tl) 0 rels tl = Ok (concat news) /\
    Forall2 (fun r new => new <> [] /\ Forall (result_target r) new) tl news.
Proof.
  intros Hrels Htl.
  assert (Hexp : Forall (fun r => exists new, expand_target catalog rels r = Ok new /\ new <> [] /\
            length new <= S (width rels) /\ Forall (result_target r) new) tl).
  { eapply Forall_impl; [exact Htl|]. intros r [Hk Hn]. by apply expand_total. }
  destruct (transform_total rels (S (width rels)) (star_fuel catalog rels tl) 0 tl) as [tl' Htl']; [lia| | |].
  - rewrite drop_0. eapply Forall_impl; [exact Hexp|]. intros r (new & Hnew & _ & Hl & Hf) star Hs.
    unfold expand_target in Hnew. rewrite Hs in Hnew. exists new. split_and!; [done..|].
    eapply Forall_impl; [exact Hf|]. by intros r' [].
  - rewrite drop_0. apply visits_le. lia.
  - destruct (transform_spec catalog rels (star_fuel catalog rels tl) [] [] tl tl') as (news & Hnews & ->);
      [constructor| |done|].
    + eapply Forall_impl; [exact Hexp|]. intros r (new & Hnew & Hne & _ & Hf) new' Hnew'.
      rewrite Hnew in Hnew'. injection Hnew' as <-. split; [done|]. eapply Forall_impl; [exact Hf|]. by intros r' [].
    + exists news. split; [done|]. apply map_outcome_Forall2 in Hnews. clear -Hexp Hnews.
      induction Hnews as [|r new tl news Hr _ IH]; [constructor|]. apply Forall_cons in Hexp as [(new' & Hn & ?) Hexp].
      rewrite Hr in Hn. injection Hn as <-. constructor; [tauto|]. by apply IH.
Qed.

(** ** The result *)

(** What the select around a rewritten subquery reads of it; [P] is that the targets of
    the original one have names. *)
Record shape (P : Prop) (s' : select) : Prop := {
  sh_targets : exists tl cs, targetList s' = tl ++ cs /\ length cs = select_triples s' * 3 /\ tl <> [] /\
    Forall (fun r => target_name r <> "*" /\ (P -> named r)) tl;
  sh_flags : match isFromRepairKey s' with Some l => select_triples s' <= length l | None => select_triples s' = 0 end;
  sh_type : tabletype s' ∈ [TABLETYPE_CERTAIN; TABLETYPE_URELATION] }.

Lemma map_outcome_total {A B} (f : A -> outcome B) (l : list A) :
  Forall (fun a => exists b, f a = Ok b) l -> exists k, map_outcome f l = Ok k /\ length k = length l.
Proof.
  induction 1 as [|a l [b Hb] _ (k & Hk & Hl)]; [by exists []|]. exists (b :: k). simpl. by rewrite Hb, Hk, Hl.
Qed.

Lemma attach_total (s : select) (rels : list rel_info) :
  Forall rel_ok rels ->
  exists s', attach_condition_columns s rels false = Ok s' /\
    match isFromRepairKey s' with Some l => select_triples s' <= length l | None => select_triples s' = 0 end.
Proof.
  intros Hrels. unfold attach_condition_columns. case_match.
  { eexists. split; [done|]. simpl. unfold select_triples. simpl. case_match; [lia|done]. }
  unfold add_condition_columns.
  destruct (map_outcome_total (fun t : rel_info * nat => arr ← deref (ri_repairkey t.1); deref (arr !! t.2))
    (r ← rels; j ← seq 0 (ri_triples r); [(r, j)])) as (flags & -> & Hl).
  - apply Forall_forall. intros t (r & (j & ->%list_elem_of_singleton & Hj%elem_of_seq)%list_elem_of_bind & Hr)%list_elem_of_bind.
    rewrite Forall_forall in Hrels. pose proof (rel_flags _ (Hrels r Hr)) as Hf. simpl.
    destruct (ri_repairkey r) as [l|]; [|lia]. simpl.
    destruct (lookup_lt_is_Some_2 l j) as [b ->]; [lia|]. by exists b.
  - cbn [mbind outcome_bind]. eexists. split; [done|]. rewrite length_triples in Hl.
    unfold remove_mutual_exclusiveness, fill_where_clause. simpl.
    destruct (whereClause s); simpl; unfold select_triples; simpl; lia.
Qed.

Lemma subselect_rel (s s' : select) (alias : string) :
  Forall named (targetList s) -> shape (Forall named (targetList s)) s' ->
  exists ri, rel_info_of catalog (RangeSubselect (Select s') alias) = Ok ri /\ rel_ok ri /\ qualifier ri = [alias].
Proof.
  intros Hn [(tl & cs & Htl & Hcs & Hne & Hf) Hflags Hty]. eexists. split; [done|]. split; [|done]. split; try done.
  - assert (Hnames : exists names, map_outcome column_name tl = Ok names /\ length names = length tl).
    { apply map_outcome_total. eapply Forall_impl; [exact Hf|]. intros r [_ H]. by apply H. }
    destruct Hnames as (names & Hnames & Hl). exists names. split_and!.
    + unfold expand_columnref_star_one_relation. cbn [ri_node as_select mbind outcome_bind].
      unfold condition_width. cbn [ri_type ri_triples].
      assert (Hw : (if bool_decide (tabletype s' ∈ [TABLETYPE_INDEPENDENT; TABLETYPE_URELATION])
                    then select_triples s' * 3 else 0) = length cs).
      { rewrite Hcs. case_bool_decide; [done|]. unfold select_triples.
        rewrite !bool_decide_eq_false_2 by set_solver. done. }
      rewrite Hw, Htl, length_app, Nat.add_sub, take_app_length, Hnames. done.
    + intros ->. by destruct tl.
    + rewrite (map_column_name tl names Hnames). intros (r & Hr & Hin)%list_elem_of_fmap.
      rewrite Forall_forall in Hf. by destruct (Hf r Hin) as [H _].
    + simpl. rewrite Hl, Htl, length_app. lia.
  - unfold typed_triples. simpl. intros H. unfold select_triples. by rewrite !bool_decide_eq_false_2 by set_solver.
Qed.

Lemma range_rel (rv : RangeVar) (rel : Relation) (c : string) :
  catalog rv = Some rel -> c ∈ attnames rel -> is_data c = true -> "*" ∉ attnames rel ->
  exists ri, rel_info_of catalog (N_RangeVar rv) = Ok ri /\ rel_ok ri /\
    qualifier ri = removelast (nodeGetFields (N_RangeVar rv)).
Proof.
  intros Hrel Hc Hd Hs. unfold rel_info_of, table_type, tripleCount, relation_openrv. rewrite Hrel.
  eexists. split; [done|].
  assert (Hq : qualifier (mk_info (rd_tabletype rel) (relation_triples rel) (nodeGetFields (N_RangeVar rv))
      (Some (replicate (relation_triples rel) false)) (N_RangeVar rv)) = removelast (nodeGetFields (N_RangeVar rv))).
  { unfold qualifier. cbn [ri_fields]. apply removelast_take. }
  split; [|exact Hq]. split.
  - rewrite Hq. apply nodeGetFields_fake.
  - exists (filter (fun a => isConditionAttribute a = false) (attnames rel)). split_and!.
    + unfold expand_columnref_star_one_relation, relation_openrv. cbn [ri_node]. rewrite Hrel. done.
    + intros Hnil. assert (H : c ∈ filter (fun a => isConditionAttribute a = false) (attnames rel)).
      { apply list_elem_of_filter. split; [|done]. by apply negb_true_iff. }
      rewrite Hnil in H. by apply not_elem_of_nil in H.
    + intros [_ H]%list_elem_of_filter. done.
    + simpl. rewrite Hrel. apply length_filter.
  - simpl. by rewrite length_replicate.
  - unfold typed_triples. simpl. intros H. unfold relation_triples. by rewrite !bool_decide_eq_false_2 by set_solver.
Qed.

Lemma from_total (ps : select -> outcome select) (from : list node) (fuel : nat) :
  (forall s, plain ops s -> known s -> select_depth s < fuel ->
     exists s', ps s = Ok s' /\ shape (Forall named (targetList s)) s') ->
  Forall (plain_from ops) from -> Forall known_from from -> max_list (map node_depth from) < S fuel ->
  exists from' rels, map_outcome (rewrite_from ps) from = Ok from' /\ relations catalog from' = Ok rels /\
    Forall rel_ok rels /\ map qualifier rels = map (fun n => removelast (nodeGetFields n)) from.
Proof.
  intros Hps Hp Hk. induction Hp as [|n from Hn _ IH]; intros Hd; [by exists [], []|].
  apply Forall_cons in Hk as [Hkn Hk]. simpl in Hd. assert (Hdn : node_depth n < S fuel) by lia.
  destruct (IH Hk ltac:(lia)) as (from' & rels & Hf & Hr & Hok & Hq).
  assert (Hone : exists n' ri, rewrite_from ps n = Ok n' /\ rel_info_of catalog n' = Ok ri /\ rel_ok ri /\
            qualifier ri = removelast (nodeGetFields n)).
  { destruct Hn as [rv|s alias Hs].
    - inversion Hkn as [rv' rel c Hrel Hc Hcd Hstar|]; subst.
      destruct (range_rel rv rel c Hrel Hc Hcd Hstar) as (ri & Hri & ? & ?). by exists (N_RangeVar rv), ri.
    - inversion Hkn as [|s0 a0 Hks Hns]; subst. destruct (Hps s Hs Hks) as (s' & Hs' & Hsh).
      { unfold select_depth. simpl in Hdn. lia. }
      destruct (subselect_rel s s' alias Hns Hsh) as (ri & Hri & Hriok & Hriq).
      exists (RangeSubselect (Select s') alias), ri. split_and!; [|done..]. simpl. by rewrite Hs'. }
  destruct Hone as (n' & ri & Hn' & Hri & Hriok & Hriq). exists (n' :: from'), (ri :: rels).
  split_and!; [simpl; by rewrite Hn', Hf| |by constructor|simpl; by rewrite Hriq, Hq].
  unfold relations in *. simpl. by rewrite Hri, Hr.
Qed.

Lemma rels_known (from : list node) (rels : list rel_info) (r : target) :
  map qualifier rels = map (fun n => removelast (nodeGetFields n)) from -> star_known from r = true -> rel_known rels r.
Proof.
  intros Hq Hk fields [Hv Hlast]%star_of_Some. unfold star_known in Hk.
  rewrite Hv, bool_decide_eq_true_2 in Hk by done. rewrite <- Hq in Hk. split; intros Hr.
  - rewrite Hr in Hk. intros ->. by destruct from.
  - destruct (removelast fields); [done|]. by apply bool_decide_eq_true in Hk.
Qed.

Lemma plain_target_name (from : list node) (r : target) :
  plain_target ops from r = true -> star_of r = None -> target_name r <> "*".
Proof.
  unfold plain_target. rewrite !andb_true_iff, !negb_true_iff, bool_decide_eq_false.
  intros (((_ & _) & H) & _) Hs Hn. apply H. split; [done|]. intros [Hnone Hc].
  unfold target_name in Hn. rewrite Hnone in Hn. unfold star_of in Hs. destruct (val r); try done. simpl in Hn.
  case_bool_decide; [done|]. destruct (last fields); simpl in Hn; [congruence|done].
Qed.

Lemma process_total (fuel : nat) (s : select) :
  plain ops s -> known s -> select_depth s < fuel ->
  exists s', process_select catalog fuel s = Ok s' /\ shape (Forall named (targetList s)) s'.
Proof.
  revert s. induction fuel as [|fuel IH]; intros s Hplain Hknown Hd; [lia|]. cbn [process_select].
  destruct Hplain as [s Hcl Hq Hfrom]. apply plain_clauses_parts in Hcl as Hp. inversion Hknown as [s1 Hk]; subst s1.
  destruct (from_total _ (fromClause s) fuel IH Hfrom Hk Hd) as (from & rels & Hf & Hr & Hrels & Hqual).
  assert (Htl : Forall (fun r => rel_known rels r /\ (star_of r = None -> target_name r <> "*")) (targetList s)).
  { eapply Forall_impl; [by apply (pp_targets _ _ Hp)|]. intros r Hr'. split; [|by apply (plain_target_name (fromClause s))].
    apply (rels_known (fromClause s)); [done|]. by apply plain_target_parts in Hr' as (_ & _ & ?). }
  destruct (transform_plain rels (targetList s) Hrels Htl) as (news & Htr & Hnews).
  destruct (attach_total (set_targetList (concat news) (set_fromClause from s)) rels Hrels) as (s' & Hat & Hflags).
  exists s'. rewrite (process_plain_eq catalog ops) by done. rewrite Hf. cbn [mbind outcome_bind]. rewrite Hr. cbn [mbind outcome_bind].
  rewrite Htr. cbn [mbind outcome_bind]. split; [done|].
  assert (Htyped : Forall typed_triples rels) by (eapply Forall_impl; [exact Hrels|]; apply rel_typed).
  pose proof (attached_columns _ _ _ Htyped Hat) as Hs'. split; [|done|apply (at_type _ _ _ Hs')].
  exists (concat news), (condition_targets rels). rewrite (at_triples _ _ _ Hs'), (at_targets _ _ _ Hs').
  split_and!; [done|apply length_condition_targets| |].
  - pose proof (pp_nonempty _ _ Hp) as Hne0. destruct Hnews as [|r new tl news [Hne _] _]; [done|]. by destruct new.
  - clear -Hnews. induction Hnews as [|r new tl news [_ Hf] _ IH]; [constructor|]. cbn [concat]. apply Forall_app. split.
    + eapply Forall_impl; [exact Hf|]. intros r' (_ & ? & Hn). split; [done|]. intros Hall. apply Hn.
      by apply Forall_cons in Hall as [? _].
    + eapply Forall_impl; [exact IH|]. intros r' (? & Hn). split; [done|]. intros Hall. apply Hn.
      by apply Forall_cons in Hall as [_ ?].
Qed.
End Total.

(** ** Names resolve *)

Lemma suffix_snoc_iff {A} (q q' : list A) (c c' : A) :
  q ++ [c] `suffix_of` q' ++ [c'] <-> q `suffix_of` q' /\ c = c'.
Proof.
  split.
  - intros H. split; [by eapply suffix_snoc_inv_2|by eapply suffix_snoc_inv_1].
  - intros [[z ->] ->]. exists z. by rewrite app_assoc.
Qed.

Lemma filter_own (q cs : list string) (c : string) :
  NoDup cs -> c ∈ cs ->
  length (filter (fun p => q ++ [c] `suffix_of` p) (map (fun c => q ++ [c]) cs)) = 1.
Proof.
  induction 1 as [|c' cs Hc' _ IH]; [by intros ?%not_elem_of_nil|].
  cbn [map]. rewrite filter_cons. intros [->|Hc]%elem_of_cons.
  - rewrite decide_True by done. simpl. f_equal. clear IH.
    destruct (filter _ _) as [|p l] eqn:Hf; [done|]. exfalso. assert (Hp : p ∈ p :: l) by by left.
    rewrite <- Hf in Hp. apply list_elem_of_filter in Hp as [Hs (c & -> & Hc)%list_elem_of_fmap].
    apply suffix_snoc_iff in Hs as [_ ->]. done.
  - rewrite decide_False; [by apply IH|]. intros [_ ->]%suffix_snoc_iff. done.
Qed.

Lemma filter_other (q : list string) (c : string) (its : list item) :
  Forall (fun it : item => ~ q `suffix_of` qualifier it.1) its ->
  filter (fun p => q ++ [c] `suffix_of` p) (paths (map item_scope its)) = [].
Proof.
  induction 1 as [|it its Hit _ IH]; [done|]. cbn [map]. unfold item_scope at 1. rewrite paths_cons, filter_app, IH.
  rewrite app_nil_r. induction (columns it.2) as [|c' cs IHc]; [done|]. cbn [map]. rewrite filter_cons, decide_False; [done|].
  intros [? _]%suffix_snoc_iff. done.
Qed.

Section Names.
Context (ops : sql_ops) (its : list item).
Context (Hq : distinct_qualifiers its).

Lemma resolve_item (it : item) (c : string) :
  it ∈ its -> NoDup (columns it.2) -> c ∈ columns it.2 ->
  is_Some (resolve (paths (map item_scope its)) (qualifier it.1 ++ [c])).
Proof.
  intros Hit Hnd Hc. apply resolve_is_Some. apply list_elem_of_lookup in Hit as (i & Hi).
  assert (Hother : forall j it', its !! j = Some it' -> j <> i -> ~ qualifier it.1 `suffix_of` qualifier it'.1).
  { intros j it' Hj Hne Hs. apply Hne. symmetry. by apply (Hq i j it it'). }
  rewrite <- (take_drop_middle its i it Hi), map_app, paths_app. cbn [map]. unfold item_scope at 2.
  rewrite paths_cons, !filter_app, !filter_other; [rewrite app_nil_r; by apply filter_own|..].
  - apply Forall_forall. intros it' (j & Hj)%list_elem_of_lookup. rewrite lookup_drop in Hj.
    apply (Hother (S i + j)); [done|lia].
  - apply Forall_forall. intros it' (j & Hj)%list_elem_of_lookup. apply lookup_take_Some in Hj as [Hj Hlt].
    apply (Hother j); [done|lia].
Qed.

(** An item in which the names of columns are distinct and the triples complete. *)
Record item_defined (it : item) : Prop := {
  id_nodup : NoDup (columns it.2);
  id_triples : has_triples it;
  id_prob : forall k, k < ri_triples it.1 -> catStrInt PROBNAME k ∈ columns it.2 }.

Context (Hdef : Forall item_defined its).

Lemma condition_column_defined (it : item) (nm : string) (k : nat) :
  it ∈ its -> k < ri_triples it.1 -> nm ∈ [VARNAME; DOMAINNAME; PROBNAME] ->
  is_Some (eval_expr ops (paths (map item_scope its)) (makeColumnRef nm k (ri_fields it.1))).
Proof.
  intros Hit Hk Hnm. cbn [makeColumnRef eval_expr]. apply fmap_is_Some.
  rewrite Forall_forall in Hdef. pose proof (Hdef it Hit) as [Hnd Htr Hp]. apply resolve_item; [done..|].
  destruct (Htr k Hk) as [Hv Hd]. pose proof (Hp k Hk).
  repeat (apply elem_of_cons in Hnm as [->|Hnm]; [done|]). by apply not_elem_of_nil in Hnm.
Qed.

Lemma exclusions_defined (e : node) :
  e ∈ exclusions its.*1 -> is_Some (eval_expr ops (paths (map item_scope its)) e).
Proof.
  intros (r1 & r2 & k & l & Hr1 & Hr2 & Hk & Hl & ->)%elem_of_exclusions.
  apply list_elem_of_fmap in Hr1 as (it1 & -> & H1), Hr2 as (it2 & -> & H2).
  destruct (condition_column_defined it1 VARNAME k) as [f1 E1]; [done..|set_solver|].
  destruct (condition_column_defined it2 VARNAME l) as [f2 E2]; [done..|set_solver|].
  destruct (condition_column_defined it1 DOMAINNAME k) as [f3 E3]; [done..|set_solver|].
  destruct (condition_column_defined it2 DOMAINNAME l) as [f4 E4]; [done..|set_solver|].
  unfold exclusion, makeA_Expr. cbn [eval_expr]. rewrite E1, E2, E3, E4. by eexists.
Qed.

Lemma conjoin_defined (es : list node) (w : node) (ps : list (list string)) :
  is_Some (eval_expr ops ps w) -> Forall (fun e => is_Some (eval_expr ops ps e)) es ->
  exists w', foldl conjoin (Some w) es = Some w' /\ is_Some (eval_expr ops ps w').
Proof.
  intros Hw Hes. revert w Hw. induction Hes as [|e es [f He] _ IH]; intros w [g Hw]; [by exists w|].
  apply (IH (A_Expr AEXPR_AND [] (Some e) (Some w))). cbn [eval_expr]. rewrite He, Hw. by eexists.
Qed.
End Names.

(** ** Targets *)

Section Targets.
Context (catalog : RangeVar -> option Relation) (ops : sql_ops) (its : list item).
Context (Hok : Forall (item_ok catalog) its) (Hq : distinct_qualifiers its) (Hdef : Forall item_defined its).

(** The targets of an expanded star are columns of the items. *)
Definition item_column (r : target) : Prop :=
  exists it c, it ∈ its /\ c ∈ data_columns it /\ r = unnamed_column (qualifier it.1) c.

Lemma expand_one_columns (it : item) (new : list target) :
  it ∈ its -> expand_columnref_star_one_relation catalog it.1 = Ok new -> Forall item_column new.
Proof.
  intros Hit Hnew. rewrite Forall_forall in Hok. rewrite (io_expand _ _ (Hok it Hit) _ Hnew).
  apply Forall_map, Forall_forall. intros c Hc. by exists it, c.
Qed.

Lemma expand_columns (star : list string) (new : list target) :
  expand_columnref_star catalog its.*1 star = Ok new -> Forall item_column new.
Proof.
  unfold expand_columnref_star. destruct (length star =? 1).
  - intros (news & Hnews%map_outcome_Forall2 & [= <-])%outcome_bind_Ok. apply Forall2_fmap_l in Hnews.
    apply Forall_concat, Forall_forall. intros new (i & Hi)%list_elem_of_lookup.
    destruct (Forall2_lookup_r _ _ _ _ _ Hnews Hi) as (it & Hit & Hnew).
    apply (expand_one_columns it); [by eapply list_elem_of_lookup_2|done].
  - destruct (list_find _ its.*1) as [[i ri]|] eqn:Hfind; [|intros [= <-]; constructor].
    apply list_find_Some in Hfind as (Hi & _ & _). rewrite list_lookup_fmap in Hi.
    apply fmap_Some in Hi as (it & Hi & ->). apply expand_one_columns. by eapply list_elem_of_lookup_2.
Qed.

Lemma item_column_defined (r : target) :
  item_column r -> is_Some (eval_target ops (map item_scope its) r).
Proof.
  intros (it & c & Hit & Hc & ->). rewrite Forall_forall in Hok, Hdef.
  apply elem_of_keep_data in Hc as [Hc _].
  assert (Hs : c <> "*") by (intros ->; by apply (io_star _ _ (Hok it Hit))).
  rewrite eval_target_plain by by apply (unnamed_proper ops).
  destruct (resolve_item its Hq it c Hit (id_nodup _ (Hdef it Hit)) Hc) as [i Hi].
  cbn [unnamed_column val eval_expr]. rewrite Hi. by eexists.
Qed.

Lemma map_option_defined {A B} (f : A -> option B) (l : list A) :
  Forall (fun a => is_Some (f a)) l -> is_Some (map_option f l).
Proof. induction 1 as [|a l [b Hb] _ [k Hk]]; [by eexists|]. simpl. rewrite Hb, Hk. by eexists. Qed.

Lemma map_option_members {A B} (f : A -> option B) (l : list A) (k : list B) :
  map_option f l = Some k -> Forall (fun a => is_Some (f a)) l.
Proof. intros H%map_option_Forall2. induction H as [|a b l k Hab _ IH]; constructor; [by eexists|done]. Qed.

Lemma targets_defined (tl : list target) (news : list (list target)) (gss : list (list (string * fn))) :
  Forall (fun r => data_expr (val r) = true) tl ->
  map_outcome (expand_target catalog its.*1) tl = Ok news ->
  map_option (eval_target ops (map data_scope its)) tl = Some gss ->
  is_Some (map_option (eval_target ops (map item_scope its)) (concat news)).
Proof.
  intros Hd Hnews%map_outcome_Forall2 Hgss%map_option_members. apply map_option_defined, Forall_concat.
  induction Hnews as [|r new tl news Hr _ IH]; [constructor|].
  apply Forall_cons in Hd as [Hdr Hd], Hgss as [[gs Hgs] Hgss]. constructor; [|by apply IH].
  unfold expand_target in Hr. destruct (star_of r) as [star|] eqn:Hs.
  - eapply Forall_impl; [by eapply expand_columns|]. apply item_column_defined.
  - injection Hr as <-. constructor; [|constructor]. rewrite eval_target_plain in Hgs |- * by done.
    apply bind_Some in Hgs as (g & Hg & _).
    pose proof (eval_expr_data ops (paths (map item_scope its)) (val r) Hdr) as Hag. rewrite paths_data, Hg in Hag.
    inversion Hag as [f ? ? Hf|]; subst. by eexists.
Qed.

Lemma condition_targets_defined :
  is_Some (map_option (eval_target ops (map item_scope its)) (condition_targets its.*1)).
Proof.
  apply map_option_defined, Forall_forall. intros r (t & Hr & Ht)%list_elem_of_bind.
  apply elem_of_numbered, list_elem_of_lookup_2 in Ht.
  apply list_elem_of_bind in Ht as (ri & (j & Hj & Hlt%elem_of_seq)%list_elem_of_bind & Hri).
  apply list_elem_of_singleton in Hj. apply list_elem_of_fmap in Hri as (it & -> & Hit).
  assert (Hnm : exists nm, nm ∈ [VARNAME; DOMAINNAME; PROBNAME] /\ r = condition_target nm t).
  { repeat (apply elem_of_cons in Hr as [->|Hr]; [eexists; split; [|done]; set_solver|]). by apply not_elem_of_nil in Hr. }
  destruct Hnm as (nm & Hnm & ->). rewrite eval_target_plain by by apply condition_star.
  destruct (condition_column_defined ops its Hq Hdef it nm j Hit ltac:(lia) Hnm) as [f Hf].
  unfold condition_target. rewrite Hj. cbn [fst snd val]. change (condition_column (ri_fields it.1) nm j)
    with (makeColumnRef nm j (ri_fields it.1)). rewrite Hf. by eexists.
Qed.

Lemma where_defined (s s' : select) (w : fn) :
  match whereClause s with Some e => data_expr e | None => true end = true ->
  whereClause s' = whereClause s /\ exclusions its.*1 = [] \/
    whereClause s' = foldl conjoin (Some (default true_const (whereClause s))) (exclusions its.*1) ->
  select_where ops s (map data_scope its) = Some w -> is_Some (select_where ops s' (map item_scope its)).
Proof.
  intros Hd Hw' Hw.
  assert (Hbase : is_Some (eval_expr ops (paths (map item_scope its)) (default true_const (whereClause s)))).
  { unfold select_where in Hw. destruct (whereClause s) as [e|]; [|by eexists]. simpl.
    pose proof (eval_expr_data ops (paths (map item_scope its)) e Hd) as Hag. rewrite paths_data, Hw in Hag.
    inversion Hag as [f ? ? Hf|]; subst. by eexists. }
  unfold select_where. destruct Hw' as [[-> _]| ->].
  - destruct (whereClause s); [done|by eexists].
  - destruct (conjoin_defined ops (exclusions its.*1) _ (paths (map item_scope its)) Hbase) as (w' & -> & Hdef').
    + apply Forall_forall. intros e He. by apply exclusions_defined.
    + done.
Qed.
End Targets.

(** ** Selects *)

Section Process.
Context (catalog : RangeVar -> option Relation) (ops : sql_ops).
Context (db : RangeVar -> option table) (Hdb : database_ok catalog db).

(** The columns of subqueries have distinct names. *)
Inductive distinct_names : select -> Prop :=
  | distinct_names_intro s : Forall distinct_names_from (fromClause s) -> distinct_names s
with distinct_names_from : node -> Prop :=
  | distinct_range rv : distinct_names_from (N_RangeVar rv)
  | distinct_subselect s alias :
      distinct_names s ->
      (forall th u, eval_select ops (world_db catalog db th) s = Some u -> NoDup (columns u)) ->
      distinct_names_from (RangeSubselect (Select s) alias).

(** An answer in a world gives one of the rewritten select. *)
Definition answered (s s' : select) : Prop :=
  forall th u, eval_select ops (world_db catalog db th) s = Some u -> is_Some (eval_select ops db s').

Lemma range_defined (rv : RangeVar) (ri : rel_info) (th : world) (wt : list string * table) :
  rel_info_of catalog (N_RangeVar rv) = Ok ri ->
  eval_from ops (world_db catalog db th) (N_RangeVar rv) = Some wt ->
  exists it, it.1 = ri /\ eval_from ops db (N_RangeVar rv) = Some (item_table it) /\
    item_represents catalog ops db (N_RangeVar rv) it /\ item_defined it.
Proof.
  intros Hri Hwt. pose proof Hwt as Hwt'. cbn [eval_from] in Hwt'. apply bind_Some in Hwt' as (t & Ht & _).
  unfold world_db in Ht. apply bind_Some in Ht as (rel & Hrel & (t0 & Ht0 & _)%bind_Some).
  assert (Hq : eval_from ops db (N_RangeVar rv) = Some (removelast (nodeGetFields (N_RangeVar rv)), t0)).
  { cbn [eval_from]. by rewrite Ht0. }
  destruct (range_item catalog ops db Hdb rv ri _ Hri Hq) as (it & <- & Hit & Hrep). exists it.
  rewrite Hq, Hit. split_and!; [done..|].
  assert (Ht2 : it.2 = t0) by (by injection Hit). assert (Htr : ri_triples it.1 = relation_triples rel).
  { unfold rel_info_of, table_type, tripleCount, relation_openrv in Hri. rewrite Hrel in Hri. by injection Hri as <-. }
  pose proof (Hdb rv rel t0 Hrel Ht0) as Htok. split; [rewrite Ht2|unfold has_triples; rewrite Ht2|rewrite Ht2].
  - apply (tok_nodup _ _ Htok).
  - intros k. rewrite Htr. apply (tok_triples _ _ Htok).
  - intros k. rewrite Htr. apply (tok_prob _ _ Htok).
Qed.

Lemma subselect_defined (s s' : select) (alias : string) (ri : rel_info) (th : world) (wt : list string * table) :
  represents catalog ops db s s' -> answered s s' ->
  (forall th u, eval_select ops (world_db catalog db th) s = Some u -> NoDup (columns u)) ->
  rel_info_of catalog (RangeSubselect (Select s') alias) = Ok ri ->
  eval_from ops (world_db catalog db th) (RangeSubselect (Select s) alias) = Some wt ->
  exists it, it.1 = ri /\ eval_from ops db (RangeSubselect (Select s') alias) = Some (item_table it) /\
    item_represents catalog ops db (RangeSubselect (Select s) alias) it /\ item_defined it.
Proof.
  intros Hrep Hans Hnd Hri Hwt. cbn [eval_from] in Hwt. apply bind_Some in Hwt as (u & Hu & _).
  change (eval_select ops (world_db catalog db th) s = Some u) in Hu.
  destruct (Hans th u Hu) as [t Ht].
  assert (Hq : eval_from ops db (RangeSubselect (Select s') alias) = Some ([alias], t)).
  { cbn [eval_from]. unfold eval_select in Ht. by rewrite Ht. }
  destruct (subselect_item catalog ops db Hdb s s' alias ri _ Hrep Hri Hq) as (it & <- & Hit & Hir). exists it.
  rewrite Hq, Hit. split_and!; [done..|]. assert (Ht2 : it.2 = t) by (by injection Hit).
  assert (Htr : ri_triples it.1 = select_triples s') by (by injection Hri as <-).
  destruct (Hrep t Ht) as [Hro Hw]. specialize (Hw th). rewrite Hw in Hu. injection Hu as <-.
  split; [rewrite Ht2|unfold has_triples; rewrite Ht2|rewrite Ht2].
  - apply (ro_nodup _ _ Hro). apply (Hnd th _ (Hw)).
  - intros k. rewrite Htr. apply (ro_triples _ _ Hro).
  - intros k. rewrite Htr. apply (ro_prob _ _ Hro).
Qed.

Lemma items_defined (ps : select -> outcome select) (from from' : list node) (rels : list rel_info)
    (th : world) (wts : list (list string * table)) :
  (forall s s', ps s = Ok s' -> plain ops s -> represents catalog ops db s s') ->
  (forall s s', ps s = Ok s' -> plain ops s -> distinct_names s -> answered s s') ->
  Forall (plain_from ops) from -> Forall distinct_names_from from ->
  map_outcome (rewrite_from ps) from = Ok from' -> relations catalog from' = Ok rels ->
  map_option (eval_from ops (world_db catalog db th)) from = Some wts ->
  exists its, its.*1 = rels /\ map_option (eval_from ops db) from' = Some (map item_table its) /\
    Forall2 (item_represents catalog ops db) from its /\ Forall item_defined its.
Proof.
  intros Hps Hans Hfrom. revert from' rels wts. induction Hfrom as [|n from Hn _ IH]; intros from' rels wts Hd.
  - intros [= <-] [= <-] _. by exists [].
  - apply Forall_cons in Hd as [Hdn Hd].
    intros (n' & Hn' & (from'' & Hf' & [= <-])%outcome_bind_Ok)%outcome_bind_Ok.
    intros (ri & Hri & (rels' & Hrels & [= <-])%outcome_bind_Ok)%outcome_bind_Ok.
    cbn [map_option]. intros (wt & Hwt & (wts' & Hwts & _)%bind_Some)%bind_Some.
    destruct (IH _ _ _ Hd Hf' Hrels Hwts) as (its & <- & Hits & Hrep & Hdef).
    assert (Hit : exists it, it.1 = ri /\ eval_from ops db n' = Some (item_table it) /\
              item_represents catalog ops db n it /\ item_defined it).
    { destruct Hn as [rv|s alias Hs].
      - injection Hn' as <-. by eapply range_defined.
      - cbn [rewrite_from as_select mbind outcome_bind] in Hn'. apply outcome_bind_Ok in Hn' as (s' & Hs' & [= <-]).
        inversion Hdn as [|s0 a0 Hds Hnd]; subst. eapply subselect_defined; eauto. }
    destruct Hit as (it & <- & Hev & Hir & Hid). exists (it :: its). rewrite Hev, Hits. cbn [mbind option_bind].
    split_and!; [done..|by constructor|by constructor].
Qed.

Lemma process_defined (fuel : nat) (s s' : select) :
  process_select catalog fuel s = Ok s' -> plain ops s -> distinct_names s -> answered s s'.
Proof.
  revert s s'. induction fuel as [|fuel IH]; intros s s'; [done|]. cbn [process_select].
  intros Hproc Hplain Hdn th u Hu. destruct Hplain as [s Hcl Hq Hfrom]. apply plain_clauses_parts in Hcl as Hp.
  inversion Hdn as [s1 Hd]; subst s1.
  destruct (process_plain _ _ _ _ s s' Hp Hproc) as (from & rels & tl & Hf & Hrels & Htl & Hatt).
  unfold eval_select in Hu. rewrite (pp_fragment _ _ Hp) in Hu. apply bind_Some in Hu as (wts & Hwts & Hov).
  destruct (items_defined _ (fromClause s) from rels th wts
    (process_represents catalog ops db Hdb fuel) IH Hfrom Hd Hf Hrels Hwts) as (its & <- & Hts & Hits & Hdef).
  destruct (rewritten_items catalog ops db Hdb s s' from its tl Hp Hq Hits Htl Hatt) as (news & [Hok Hdq Hknown Hnews Hproper Hat]).
  rewrite (items_world catalog ops db Hdb _ _ th Hits) in Hwts. injection Hwts as <-.
  rewrite (eval_over_plain ops s _ (map data_scope its)) in Hov; try by apply Hp.
  2: { eapply Forall_impl; [by apply (pp_targets _ _ Hp)|]. intros r Hr. by apply plain_target_parts in Hr as (_ & ? & _). }
  2: apply (scope_world catalog its Hok Hdq).
  apply bind_Some in Hov as (w & Hw & (gss & Hgss & _)%bind_Some).
  destruct (attach_from _ _ _ _ Hatt) as [Hfs Hfr]. unfold eval_select. rewrite Hfr, Hfs.
  change (in_fragment (set_targetList tl (set_fromClause from s))) with (in_fragment s).
  rewrite (pp_fragment _ _ Hp). cbn [fromClause set_targetList set_fromClause]. rewrite Hts.
  cbn [mbind option_bind].
  pose proof (at_targets _ _ _ Hat) as Htg. cbn [targetList set_targetList] in Htg.
  rewrite (eval_over_plain ops s' _ (map item_scope its)); [|by rewrite (at_group _ _ _ Hat); apply Hp
    |by rewrite (at_sort _ _ _ Hat); apply Hp|by rewrite (at_distinct _ _ _ Hat); apply Hp| |apply (scope_tables catalog its Hok Hdq)].
  2: { rewrite Htg. apply Forall_app. split; [|apply condition_aggregates].
       eapply Forall_impl; [apply (proj2 Hproper)|]. by intros r []. }
  destruct (where_defined catalog ops its Hok Hdq Hdef s s' w (pp_where _ _ Hp) (at_where _ _ _ Hat) Hw) as [w' ->].
  cbn [mbind option_bind]. rewrite Htg.
  destruct (targets_defined catalog ops its Hok Hdq Hdef (targetList s) news gss) as [fss Hfss]; [|done..|].
  { eapply Forall_impl; [by apply (pp_targets _ _ Hp)|]. intros r Hr. by apply plain_target_parts in Hr as (? & _). }
  destruct (condition_targets_defined catalog ops its Hok Hdq Hdef) as [css Hcss].
  rewrite (proj2 (map_option_app _ _ _ (fss ++ css))) by by exists fss, css. by eexists.
Qed.
End Process.
