(* ===== verification/Consistent.v ===== *)
(** * Consistent: the rows of a rewritten select belong to some world

    [remove_mutual_exclusiveness] keeps the joined rows whose triples do not contradict
    each other.  When every row of the tables belongs to some world, so does every row of
    a rewritten select, and [select possible] lists exactly the answers of all worlds. *)
From Stdlib Require Import Strings.String Strings.Ascii.
From stdpp Require Import strings.
From S2P Require Import Prelude.
From S2P Require Import Worlds.
From S2P Require Import ParseTree.
From S2P Require Import RewriteUtils.
From S2P Require Import Supported.
From S2P Require Import Rewrite.
From S2P Require Import Sql.
From S2P Require Import SqlFacts.
From S2P Require Import ScopeFacts.
From S2P Require Import TargetFacts.
From S2P Require Import RewriteCorrect.
From S2P Require Import RewriteDefined.
Open Scope string_scope.
Open Scope list_scope.
Open Scope nat_scope.

#[local] Set Default Proof Using "Type*".

(** ** Worlds of assignments *)

(** Assignments that do not contradict each other hold together in a world. *)
Lemma assignments_world (L : list (Z * Z)) :
  (forall v d1 d2, (v, d1) ∈ L -> (v, d2) ∈ L -> d1 = d2) ->
  exists th : world, forall v d, th !! v = Some d <-> (v, d) ∈ L.
Proof.
  intros Hfun. exists (list_to_map L). intros v d. split; [apply elem_of_list_to_map_2|]. intros Hin.
  destruct (list_to_map L !! v) as [d'|] eqn:Hd.
  - f_equal. apply elem_of_list_to_map_2 in Hd. by apply (Hfun v).
  - apply not_elem_of_list_to_map_2 in Hd. destruct Hd. apply list_elem_of_fmap. by exists (v, d).
Qed.

Lemma exclusion_between (rels : list rel_info) (i j k l : nat) (r1 r2 : rel_info) :
  rels !! i = Some r1 -> rels !! j = Some r2 -> i < j -> is_urelation r1 = true -> is_urelation r2 = true ->
  k < ri_triples r1 -> l < ri_triples r2 -> exclusion (ri_fields r1) k (ri_fields r2) l ∈ exclusions rels.
Proof.
  intros Hi Hj Hij H1 H2 Hk Hl. revert i j Hi Hj Hij. induction rels as [|r rels IH]; intros i j Hi Hj Hij; [done|].
  simpl. apply elem_of_app. destruct j as [|j]; [lia|]. simpl in Hj. destruct i as [|i].
  - left. injection Hi as ->. rewrite H1. apply list_elem_of_bind. exists r2. split; [|by eapply list_elem_of_lookup_2].
    rewrite H2. apply list_elem_of_bind. exists k. split; [|apply elem_of_seq; lia].
    apply list_elem_of_bind. exists l. split; [|apply elem_of_seq; lia]. by left.
  - right. apply (IH i j); [done..|lia].
Qed.

(** The assignment of a triple of a row. *)
Definition assigned (cs : list string) (r : row) (k : nat) (v d : Z) : Prop :=
  lookup_column cs (catStrInt VARNAME k) r = Some (VInt v) /\
  lookup_column cs (catStrInt DOMAINNAME k) r = Some (VInt d).
Definition assigns (it : item) (p : row) (k : nat) (v d : Z) : Prop := assigned (columns it.2) p k v d.

(** The assignments of a row with [n] triples. *)
Definition row_assignments (n : nat) (cs : list string) (r : row) : list (Z * Z) :=
  omap (fun k =>
    match lookup_column cs (catStrInt VARNAME k) r, lookup_column cs (catStrInt DOMAINNAME k) r with
    | Some (VInt v), Some (VInt d) => Some (v, d)
    | _, _ => None
    end) (seq 0 n).

Lemma elem_of_row_assignments (n : nat) (cs : list string) (r : row) (v d : Z) :
  (v, d) ∈ row_assignments n cs r <-> exists k, k < n /\ assigned cs r k v d.
Proof.
  unfold row_assignments, assigned. rewrite list_elem_of_omap. setoid_rewrite elem_of_seq. split.
  - intros (k & Hk & E). exists k. split; [lia|].
    destruct (lookup_column _ (catStrInt VARNAME k) r) as [[]|]; try done.
    destruct (lookup_column _ (catStrInt DOMAINNAME k) r) as [[]|]; try done. by simplify_eq.
  - intros (k & Hk & Hv & Hd). exists k. rewrite Hv, Hd. split; [lia|done].
Qed.

Section Assignments.
(** The assignments of the tables. *)
Context (lits : Z -> Z -> Prop).

(** The variable has one value only. *)
Definition fixed (v d : Z) : Prop := forall d', lits v d' -> d' = d.

(** The world assigns only what the tables do. *)
Definition drawn_from (th : world) : Prop := forall v d, th !! v = Some d -> lits v d.

(** An item whose rows belong to worlds.  Only U-relations and tuple-independent
    relations have triples, and no other row contradicts the triples of the latter. *)
Record item_consistent (it : item) : Prop := {
  ic_type : 0 < ri_triples it.1 -> is_urelation it.1 = true \/
    forall p k v d, p ∈ item_rows it -> k < ri_triples it.1 -> assigns it p k v d -> fixed v d;
  ic_rows : forall p, p ∈ item_rows it -> exists th, part_holds th it p = true /\ drawn_from th }.

Lemma item_assigns (it : item) (p : row) (k : nat) (v d : Z) :
  item_consistent it -> p ∈ item_rows it -> k < ri_triples it.1 -> assigns it p k v d -> lits v d.
Proof using Type.
  intros Hc Hp Hk [Hv Hd]. destruct (ic_rows it Hc p Hp) as (th & Hth & Hdr).
  destruct (part_triple th it p k Hth Hk) as (v' & d' & Hv' & Hd' & Hl). apply Hdr. congruence.
Qed.

Section Joint.
Context (catalog : RangeVar -> option Relation) (ops : sql_ops) (its : list item).
Context (Hok : Forall (item_ok catalog) its) (Hcons : Forall item_consistent its).

Lemma nth_consistent (i : nat) (it : item) : its !! i = Some it -> item_consistent it.
Proof. intros Hi. rewrite Forall_forall in Hcons. apply Hcons. by eapply list_elem_of_lookup_2. Qed.

Lemma part_in_rows (parts : list row) (i : nat) (it : item) (p : row) :
  parts ∈ cross (map item_rows its) -> its !! i = Some it -> parts !! i = Some p -> p ∈ item_rows it.
Proof using Type.
  intros Hin%elem_of_cross Hi Hp. destruct (Forall2_lookup_l _ _ _ _ _ Hin Hp) as (t & Ht & Hpt).
  rewrite lookup_map, Hi in Ht. by injection Ht as <-.
Qed.

Lemma part_consistent (parts : list row) (i : nat) (it : item) (p : row) :
  parts ∈ cross (map item_rows its) -> its !! i = Some it -> parts !! i = Some p ->
  exists th, part_holds th it p = true /\ drawn_from th.
Proof. intros Hin Hi Hp. apply (ic_rows it); [by eapply nth_consistent|by eapply part_in_rows]. Qed.

Lemma exclusion_agree (parts : list row) (i j k l : nat) (it1 it2 : item) (p1 p2 : row) (v d1 d2 : Z) :
  parts ∈ cross (map item_rows its) -> Forall2 part_of its parts ->
  (forall e, e ∈ exclusions its.*1 -> exists h : fn,
     eval_expr ops (paths (map item_scope its)) e = Some h /\ is_true (h (concat parts)) = true) ->
  its !! i = Some it1 -> its !! j = Some it2 -> parts !! i = Some p1 -> parts !! j = Some p2 -> i < j ->
  k < ri_triples it1.1 -> l < ri_triples it2.1 -> assigns it1 p1 k v d1 -> assigns it2 p2 l v d2 -> d1 = d2.
Proof.
  intros Hin Hp Hex Hi Hj Hp1 Hp2 Hij Hk Hl H1 H2.
  pose proof (nth_consistent i it1 Hi) as C1. pose proof (nth_consistent j it2 Hj) as C2.
  pose proof (part_in_rows parts i it1 p1 Hin Hi Hp1) as R1. pose proof (part_in_rows parts j it2 p2 Hin Hj Hp2) as R2.
  destruct (ic_type it1 C1 ltac:(lia)) as [Hu1|Hfix];
    [|symmetry; by apply (Hfix p1 k v d1 R1 Hk H1), (item_assigns it2 p2 l)].
  destruct (ic_type it2 C2 ltac:(lia)) as [Hu2|Hfix];
    [|by apply (Hfix p2 l v d2 R2 Hl H2), (item_assigns it1 p1 k)].
  destruct H1 as [Hv1 Hd1], H2 as [Hv2 Hd2].
  assert (Hz : forall n it p, its !! n = Some it -> parts !! n = Some p -> (it, p) ∈ zip its parts).
  { intros n it p Hn Hnp. apply list_elem_of_lookup. exists n. apply lookup_zip_Some. done. }
  destruct (Hex (exclusion (ri_fields it1.1) k (ri_fields it2.1) l)) as (h & Hh & Ht).
  { apply (exclusion_between _ i j); by rewrite ?list_lookup_fmap, ?Hi, ?Hj. }
  rewrite (eval_exclusion ops its parts it1 it2 p1 p2 k l v d1 v d2 h) in Ht by eauto using items_triples.
  rewrite bool_decide_eq_true_2 in Ht by done. by apply bool_decide_eq_true in Ht.
Qed.

(** The assignments of a joined row. *)
Definition literal (x : item * row * nat) : option (Z * Z) :=
  match lookup_column (columns x.1.1.2) (catStrInt VARNAME x.2) x.1.2,
        lookup_column (columns x.1.1.2) (catStrInt DOMAINNAME x.2) x.1.2 with
  | Some (VInt v), Some (VInt d) => Some (v, d)
  | _, _ => None
  end.

Definition literals (parts : list row) : list (Z * Z) := omap literal (part_triples its parts).

Lemma elem_of_literals (parts : list row) (v d : Z) :
  (v, d) ∈ literals parts <->
  exists i it p k, its !! i = Some it /\ parts !! i = Some p /\ k < ri_triples it.1 /\ assigns it p k v d.
Proof using Type.
  unfold literals. rewrite list_elem_of_omap. split.
  - intros ([[it p] k] & [Hz Hk]%elem_of_part_triples & Hlit). cbn [fst snd] in *.
    apply list_elem_of_lookup in Hz as (i & [Hi Hpi]%lookup_zip_Some). exists i, it, p, k.
    unfold literal in Hlit. cbn [fst snd] in Hlit. unfold assigns, assigned. split_and!; [done..| |].
    all: destruct (lookup_column _ (catStrInt VARNAME k) p) as [[]|]; try done;
      destruct (lookup_column _ (catStrInt DOMAINNAME k) p) as [[]|]; try done; congruence.
  - intros (i & it & p & k & Hi & Hp & Hk & [Hv Hd]). exists (it, p, k). split.
    + apply part_triples_intro; [|done]. apply list_elem_of_lookup. exists i. by apply lookup_zip_Some.
    + unfold literal. cbn [fst snd]. by rewrite Hv, Hd.
Qed.

(** The joined rows that pass the exclusions belong to a world. *)
Lemma joined_world (parts : list row) :
  parts ∈ cross (map item_rows its) -> Forall2 part_of its parts ->
  (forall e, e ∈ exclusions its.*1 -> exists h : fn,
     eval_expr ops (paths (map item_scope its)) e = Some h /\ is_true (h (concat parts)) = true) ->
  exists th, all_hold (part_holds th) its parts = true /\ drawn_from th.
Proof.
  intros Hin Hp Hex.
  destruct (assignments_world (literals parts)) as (th & Hth).
  { intros v d1 d2 (i & it1 & p1 & k & Hi & Hpi & Hk & H1)%elem_of_literals (j & it2 & p2 & l & Hj & Hpj & Hl & H2)%elem_of_literals.
    destruct (Nat.lt_trichotomy i j) as [Hij|[<-|Hij]].
    - by apply (exclusion_agree parts i j k l it1 it2 p1 p2 v).
    - rewrite Hi in Hj. rewrite Hpi in Hpj. injection Hj as <-. injection Hpj as <-.
      destruct (part_consistent parts i it1 p1 Hin Hi Hpi) as (th & Hth & _).
      destruct (part_triple th it1 p1 k Hth Hk) as (v' & d' & Hv & Hd & Ht), H1 as [Hv1 Hd1].
      destruct (part_triple th it1 p1 l Hth Hl) as (v'' & d'' & Hv' & Hd' & Ht'), H2 as [Hv2 Hd2]. congruence.
    - symmetry. by apply (exclusion_agree parts j i l k it2 it1 p2 p1 v). }
  exists th. split.
  2: { intros v d (i & it & p & k & Hi & Hpi & Hk & H)%Hth%elem_of_literals.
    apply (item_assigns it p k); [by eapply nth_consistent|by eapply part_in_rows|done..]. }
  rewrite <- all_hold_triples. apply forallb_forall. intros x Hx%list_elem_of_In.
  apply elem_of_part_triples in Hx as [Hz Hk]. destruct x as [[it p] k]. cbn [fst snd] in *.
  apply list_elem_of_lookup in Hz as (i & [Hi Hpi]%lookup_zip_Some).
  destruct (part_consistent parts i it p Hin Hi Hpi) as (th0 & Hth0 & _).
  destruct (part_triple th0 it p k Hth0 Hk) as (v & d & Hv & Hd & _). unfold triple_holds. rewrite Hv, Hd.
  unfold sat_lit. apply bool_decide_eq_true_2. apply Hth, elem_of_literals. by exists i, it, p, k.
Qed.
End Joint.
End Assignments.

(** ** One select *)

Section Select.
Context (catalog : RangeVar -> option Relation) (ops : sql_ops) (its : list item).
Context (Hok : Forall (item_ok catalog) its) (Hq : distinct_qualifiers its).
Let sc := map item_scope its.

Lemma elem_of_joined (f : fn) (r : row) :
  r ∈ filtered f (map item_table its).*2 <->
  exists parts, parts ∈ cross (map item_rows its) /\ is_true (f (concat parts)) = true /\ r = concat parts.
Proof.
  unfold filtered. rewrite (rows_tables catalog its Hok Hq), product_cross, list_elem_of_filter, list_elem_of_fmap.
  naive_solver.
Qed.

Lemma elem_of_world (th : world) (g : fn) (r : row) :
  r ∈ filtered g (map (item_world th) its).*2 <->
  exists parts, parts ∈ cross (map item_rows its) /\ all_hold (part_holds th) its parts = true /\
    is_true (g (concat (zip_with data_part its parts))) = true /\ r = concat (zip_with data_part its parts).
Proof.
  unfold filtered. rewrite world_rows, list_elem_of_filter, list_elem_of_fmap.
  setoid_rewrite list_elem_of_filter. naive_solver.
Qed.

Lemma joined_parts (parts : list row) : parts ∈ cross (map item_rows its) -> Forall2 part_of its parts.
Proof.
  apply cross_parts. eapply Forall_impl; [exact Hok|]. intros it Hit. apply (io_rows _ _ Hit).
Qed.

(** A row that passes the condition of a rewritten select passes its exclusions. *)
Lemma guarded_exclusions (s s' : select) (f : fn) (r : row) :
  guarded ops its s s' -> select_where ops s' sc = Some f -> is_true (f r) = true ->
  forall e, e ∈ exclusions its.*1 -> exists h : fn, eval_expr ops (paths sc) e = Some h /\ is_true (h r) = true.
Proof.
  intros Hg Hf Ht e He. destruct (Hg f Hf) as (g & hs & es & _ & -> & Hhs & Heq). rewrite Heq in Ht.
  apply andb_prop in Ht as [_ Ht]. rewrite forallb_forall in Ht. apply list_elem_of_lookup in He as (i & Hi).
  destruct (Forall2_lookup_l _ _ _ _ _ Hhs Hi) as (h & Hh & Hev). exists h. split; [done|].
  apply Ht, list_elem_of_In. by eapply list_elem_of_lookup_2.
Qed.

(** The condition columns of a row of the result say when its joined row holds. *)
Lemma core_conditions (s s' : select) (news : list (list target)) (t' : table) (r : row) :
  plain_parts ops s -> Forall (star_known_item its) (targetList s) ->
  map_outcome (expand_target catalog its.*1) (targetList s) = Ok news ->
  targetList s' = concat news ++ condition_targets its.*1 -> guarded ops its s s' ->
  groupClause s' = [] -> sortClause s' = [] -> distinctClause s' = None ->
  eval_over ops s' (map item_table its) = Some t' -> r ∈ rows t' ->
  exists f parts, select_where ops s' sc = Some f /\ parts ∈ cross (map item_rows its) /\
    is_true (f (concat parts)) = true /\
    forall th, row_holds th (calculate_total_triples its.*1) (columns t') r = all_hold (part_holds th) its parts.
Proof.
  intros Hp Hstar Hnews Htl Hguard Hg Hs Hd Hev Hr.
  destruct (eval_core catalog ops its Hok Hq s s' news t') as (_ & Hcols & Hgood & _); [done..|].
  assert (Htargets : Forall (fun r => plain_target ops (fromClause s) r = true /\ star_known_item its r) (targetList s)).
  { apply Forall_and. split; [by apply pp_targets | done]. }
  destruct (expansions_proper catalog ops its Hok Hq (fromClause s) (targetList s) news (pp_nonempty _ _ Hp) Htargets Hnews) as [_ Hproper].
  rewrite (eval_over_plain ops s' _ sc Hg Hs Hd) in Hev; [|..|apply (scope_tables catalog its Hok Hq)].
  2: { rewrite Htl. apply Forall_app. split; [|apply condition_aggregates].
       eapply Forall_impl; [exact Hproper|]. by intros ? []. }
  rewrite Htl in Hev. apply bind_Some in Hev as (f & Hf & (fss & Hfss & [= <-])%bind_Some).
  apply map_option_app in Hfss as (f1 & css & Hf1 & Hcss & ->). rewrite concat_app in *. cbn [rows columns] in *.
  apply list_elem_of_fmap in Hr as (r0 & -> & (parts & Hin & Ht & ->)%elem_of_joined).
  exists f, parts. split_and!; [done..|]. intros th.
  assert (Hcn : (concat css).*1 = map target_name (condition_targets its.*1)).
  { apply (star_free_columns ops sc); [apply condition_targets_star|done]. }
  assert (Hf1n : (concat f1).*1 = map target_name (concat news)).
  { apply (star_free_columns ops sc); [|done]. eapply Forall_impl; [exact Hproper|]. by intros ? []. }
  rewrite project_app, fmap_app, row_holds_app; [|by rewrite Hf1n|by unfold project; rewrite length_map, !length_fmap].
  by apply (condition_rows catalog ops its Hok Hq); [apply joined_parts|].
Qed.

(** Every row of the result belongs to a world. *)
Lemma core_consistent (lits : Z -> Z -> Prop) (s s' : select) (news : list (list target)) (t' : table) (r : row) :
  Forall (item_consistent lits) its ->
  plain_parts ops s -> Forall (star_known_item its) (targetList s) ->
  map_outcome (expand_target catalog its.*1) (targetList s) = Ok news ->
  targetList s' = concat news ++ condition_targets its.*1 -> guarded ops its s s' ->
  groupClause s' = [] -> sortClause s' = [] -> distinctClause s' = None ->
  eval_over ops s' (map item_table its) = Some t' -> r ∈ rows t' ->
  exists th, row_holds th (calculate_total_triples its.*1) (columns t') r = true /\ drawn_from lits th.
Proof.
  intros Hcons Hp Hstar Hnews Htl Hguard Hg Hs Hd Hev Hr.
  destruct (core_conditions s s' news t' r) as (f & parts & Hf & Hin & Ht & Hrow); [done..|].
  destruct (joined_world lits catalog ops its Hok Hcons parts Hin (joined_parts parts Hin)) as (th & Hth & Hdr).
  - by apply (guarded_exclusions s s' f).
  - exists th. by rewrite Hrow.
Qed.

(** The rows of a select without condition columns, against those of the worlds. *)
Lemma core_answers (s s1 : select) (news : list (list target)) (t : table) :
  plain_parts ops s -> Forall (star_known_item its) (targetList s) ->
  map_outcome (expand_target catalog its.*1) (targetList s) = Ok news ->
  targetList s1 = concat news -> guarded ops its s s1 ->
  groupClause s1 = [] -> sortClause s1 = [] -> distinctClause s1 = Some [] ->
  eval_over ops s1 (map item_table its) = Some t ->
  NoDup (rows t) /\ exists f xs, select_where ops s1 sc = Some f /\
    (forall key, key ∈ rows t <-> exists parts, parts ∈ cross (map item_rows its) /\
       is_true (f (concat parts)) = true /\ project xs (concat parts) = key) /\
    forall th, exists u, eval_over ops s (map (item_world th) its) = Some u /\
      forall key, key ∈ rows u <-> exists parts, parts ∈ cross (map item_rows its) /\
        all_hold (part_holds th) its parts = true /\ is_true (f (concat parts)) = true /\
        project xs (concat parts) = key.
Proof.
  intros Hp Hstar Hnews Htl Hguard Hg Hs Hd Hev.
  assert (Htargets : Forall (fun r => plain_target ops (fromClause s) r = true /\ star_known_item its r) (targetList s)).
  { apply Forall_and. split; [by apply pp_targets | done]. }
  destruct (expansions_proper catalog ops its Hok Hq (fromClause s) (targetList s) news (pp_nonempty _ _ Hp) Htargets Hnews) as [_ Hproper].
  unfold eval_over in Hev. rewrite (scope_tables catalog its Hok Hq) in Hev. apply bind_Some in Hev as (f & Hf & Hev).
  rewrite not_grouped in Hev; [|done|].
  2: { rewrite Htl. eapply Forall_impl; [exact Hproper|]. by intros ? []. }
  unfold distinct_rows in Hev. rewrite Hs, Htl, Hd in Hev. cbn [map_option mbind option_bind] in Hev.
  apply bind_Some in Hev as (fss & Hfss & [= <-]). cbn [rows].
  split; [apply NoDup_remove_dups|]. exists f, (concat fss).*2. split_and!; [done| |].
  - intros key. rewrite elem_of_remove_dups, list_elem_of_fmap. setoid_rewrite elem_of_joined. naive_solver.
  - intros th. destruct (targets_agree catalog ops its Hok Hq (targetList s) news fss) as (gss & Hgss & Hag); [|done..|].
    { eapply Forall_impl; [exact Htargets|]. intros r [Hr ?]. by apply plain_target_parts in Hr as (? & _). }
    rewrite (eval_over_plain ops s _ (map data_scope its)); try by apply Hp.
    2: { eapply Forall_impl; [by apply (pp_targets _ _ Hp)|]. intros r Hr. by apply plain_target_parts in Hr as (_ & ? & _). }
    2: apply (scope_world catalog its Hok Hq).
    destruct (guarded_agree catalog ops its Hok Hq th s s1 f [] (pp_where _ _ Hp) Hguard Hf) as (g & Hgg & _).
    rewrite Hgg, Hgss. cbn [mbind option_bind]. eexists. split; [done|]. intros key. cbn [rows].
    assert (Hproj : forall parts, parts ∈ cross (map item_rows its) ->
              project (concat fss).*2 (concat parts) = project (concat gss).*2 (concat (zip_with data_part its parts))).
    { intros parts Hin%joined_parts. rewrite <- keep_parts by done.
      apply (agree_project catalog its Hok Hq); [done|by apply length_parts]. }
    assert (Hwhere : forall parts, parts ∈ cross (map item_rows its) -> all_hold (part_holds th) its parts = true ->
              is_true (f (concat parts)) = is_true (g (concat (zip_with data_part its parts)))).
    { intros parts Hin%joined_parts Hall.
      destruct (guarded_agree catalog ops its Hok Hq th s s1 f parts (pp_where _ _ Hp) Hguard Hf) as (g' & Hg' & H).
      rewrite Hgg in Hg'. injection Hg' as <-. by apply H. }
    rewrite list_elem_of_fmap. setoid_rewrite elem_of_world. split.
    + intros (r & -> & parts & Hin & Hall & Ht & ->). exists parts. by rewrite Hwhere, Hproj.
    + intros (parts & Hin & Hall & Ht & <-). exists (concat (zip_with data_part its parts)).
      rewrite <- Hproj by done. split; [done|]. exists parts. by rewrite <- Hwhere.
Qed.
End Select.

(** ** Nested selects *)

Section Process.
Context (catalog : RangeVar -> option Relation) (ops : sql_ops) (db : RangeVar -> option table).
Context (Hdb : database_ok catalog db).

(** The assignments of the rows of the tables. *)
Definition table_assignment (v d : Z) : Prop :=
  exists rv rel t r k, catalog rv = Some rel /\ db rv = Some t /\ r ∈ rows t /\
    k < relation_triples rel /\ assigned (columns t) r k v d.

(** Every row of the tables belongs to some world, and the variables of the rows of
    tuple-independent relations have the same value in all rows of all tables: they say
    whether their tuple is there, and nothing else depends on them. *)
Record consistent_database : Prop := {
  cd_rows : forall rv rel t r, catalog rv = Some rel -> db rv = Some t -> r ∈ rows t ->
    exists th, row_holds th (relation_triples rel) (columns t) r = true;
  cd_independent : forall rv rel t r k v d, catalog rv = Some rel -> db rv = Some t -> r ∈ rows t ->
    rd_tabletype rel = TABLETYPE_INDEPENDENT -> k < relation_triples rel ->
    assigned (columns t) r k v d -> fixed table_assignment v d }.

Definition consistent_result (s' : select) : Prop :=
  forall t r, eval_select ops db s' = Some t -> r ∈ rows t ->
    exists th, row_holds th (select_triples s') (columns t) r = true /\ drawn_from table_assignment th.

Context (Hcdb : consistent_database).

(** A row of a table belongs to a world that makes no other assignments than its own. *)
Lemma row_world (n : nat) (cs : list string) (r : row) (th : world) :
  row_holds th n cs r = true ->
  exists th', row_holds th' n cs r = true /\
    forall v d, th' !! v = Some d -> exists k, k < n /\ assigned cs r k v d.
Proof using Type.
  intros Hth. unfold row_holds in *. rewrite forallb_forall in Hth.
  assert (Hk : forall k, k < n -> exists v d, assigned cs r k v d /\ th !! v = Some d).
  { intros k Hk. specialize (Hth k ltac:(apply in_seq; lia)). unfold triple_holds in Hth. unfold assigned.
    destruct (lookup_column _ (catStrInt VARNAME k) r) as [[v| | | |]|]; try done.
    destruct (lookup_column _ (catStrInt DOMAINNAME k) r) as [[d| | | |]|]; try done.
    exists v, d. split; [done|]. by apply bool_decide_eq_true in Hth. }
  destruct (assignments_world (row_assignments n cs r)) as (th' & Hth').
  { intros v d1 d2 (k & Hk1 & A1)%elem_of_row_assignments (l & Hl & A2)%elem_of_row_assignments.
    destruct (Hk k Hk1) as (v1 & e1 & [B1 B1'] & E1), (Hk l Hl) as (v2 & e2 & [B2 B2'] & E2), A1, A2. congruence. }
  exists th'. split.
  - apply forallb_forall. intros k Hin%in_seq. destruct (Hk k ltac:(lia)) as (v & d & [Hv Hd] & _).
    unfold triple_holds. rewrite Hv, Hd. apply bool_decide_eq_true_2, Hth', elem_of_row_assignments. exists k. split; [lia|done].
  - intros v d ?%Hth'. by apply elem_of_row_assignments.
Qed.

Lemma typed_urelation (ri : rel_info) :
  ri_type ri <> TABLETYPE_INDEPENDENT -> typed_triples ri -> 0 < ri_triples ri -> is_urelation ri = true.
Proof using Type.
  intros Hi Ht Hlt. unfold is_urelation. apply bool_decide_eq_true. unfold typed_triples in Ht.
  destruct (decide (ri_type ri = TABLETYPE_URELATION)) as [|Hu]; [done|].
  rewrite Ht in Hlt; [lia|].
  by intros [?|[?|?%not_elem_of_nil]%elem_of_cons]%elem_of_cons.
Qed.

Lemma range_consistent (rv : RangeVar) (it : item) :
  rel_info_of catalog (N_RangeVar rv) = Ok it.1 -> eval_from ops db (N_RangeVar rv) = Some (item_table it) ->
  typed_triples it.1 -> item_consistent table_assignment it.
Proof.
  intros Hri Hev Hty. destruct it as [ri t]. cbn [eval_from] in Hev. apply bind_Some in Hev as (t0 & Ht & Heq).
  injection Heq as _ ->. unfold rel_info_of, table_type, tripleCount, relation_openrv in Hri.
  destruct (catalog rv) as [rel|] eqn:Hrel; [|done]. cbn [mbind outcome_bind] in Hri. cbn [fst snd] in *.
  assert (Ht' : ri_type ri = rd_tabletype rel /\ ri_triples ri = relation_triples rel) by (by injection Hri as <-).
  destruct Ht' as [Ety Etr]. split; cbn [fst].
  - intros Hlt. destruct (decide (ri_type ri = TABLETYPE_INDEPENDENT)) as [Hi|Hi].
    + right. intros p k v d Hp Hk Ha. rewrite Ety in Hi. rewrite Etr in Hk. by apply (cd_independent Hcdb rv rel t p k).
    + left. by apply typed_urelation.
  - intros p Hp. destruct (cd_rows Hcdb rv rel t p Hrel Ht Hp) as (th & Hth).
    destruct (row_world _ _ _ th Hth) as (th' & Hth' & Ha). exists th'. unfold part_holds. cbn [fst snd]. rewrite Etr.
    split; [done|]. intros v d (k & Hk & H)%Ha. by exists rv, rel, t, p, k.
Qed.

Lemma subselect_consistent (s s' : select) (alias : string) (it : item) :
  represents catalog ops db s s' -> consistent_result s' ->
  rel_info_of catalog (RangeSubselect (Select s') alias) = Ok it.1 ->
  eval_from ops db (RangeSubselect (Select s') alias) = Some (item_table it) ->
  typed_triples it.1 -> item_consistent table_assignment it.
Proof.
  intros Hrep Hcons Hri Hev Hty. destruct it as [ri t]. cbn [eval_from] in Hev. apply bind_Some in Hev as (t0 & Ht & Heq).
  injection Heq as _ ->. change (eval_select ops db s' = Some t) in Ht. cbn [fst snd] in *.
  assert (Ht' : ri_type ri = tabletype s' /\ ri_triples ri = select_triples s') by (by injection Hri as <-).
  destruct Ht' as [Ety Etr]. split; cbn [fst].
  - intros Hlt. left. apply typed_urelation; [|done..]. rewrite Ety. destruct (Hrep t Ht) as [Hro _]. pose proof (ro_type _ _ Hro) as H.
    intros E. rewrite E in H. by apply elem_of_cons in H as [H|[H|H%not_elem_of_nil]%elem_of_cons].
  - intros p Hp. unfold part_holds. cbn [fst snd]. rewrite Etr. by apply (Hcons t).
Qed.

Lemma items_consistent (ps : select -> outcome select) (from from' : list node) (its : list item) :
  (forall s s', ps s = Ok s' -> plain ops s -> represents catalog ops db s s') ->
  (forall s s', ps s = Ok s' -> plain ops s -> consistent_result s') ->
  Forall (plain_from ops) from -> map_outcome (rewrite_from ps) from = Ok from' ->
  relations catalog from' = Ok its.*1 -> map_option (eval_from ops db) from' = Some (map item_table its) ->
  Forall2 (item_represents catalog ops db) from its -> Forall (item_consistent table_assignment) its.
Proof.
  intros Hps Hcons Hfrom Hf Hrels Hts Hits. revert from' Hf Hrels Hts.
  induction Hits as [|n it from its Hit _ IH]; intros from' Hf Hrels Hts; [constructor|].
  apply Forall_cons in Hfrom as [Hn Hfrom].
  apply outcome_bind_Ok in Hf as (n' & Hn' & (from'' & Hf' & [= <-])%outcome_bind_Ok).
  apply outcome_bind_Ok in Hrels as (ri & Hri & (rels' & Hrels & [= -> ->])%outcome_bind_Ok).
  apply bind_Some in Hts as (qt & Hqt & (ts & Hts & [= -> ->])%bind_Some).
  constructor; [|by apply (IH Hfrom from'')]. pose proof (ir_typed _ _ _ _ _ Hit) as Hty.
  destruct Hn as [rv|s alias Hs].
  - injection Hn' as <-. by eapply range_consistent.
  - cbn [rewrite_from as_select mbind outcome_bind] in Hn'. apply outcome_bind_Ok in Hn' as (s' & Hs' & [= <-]).
    eapply subselect_consistent; eauto.
Qed.

Lemma process_consistent (fuel : nat) (s s' : select) :
  process_select catalog fuel s = Ok s' -> plain ops s -> consistent_result s'.
Proof.
  revert s s'. induction fuel as [|fuel IH]; intros s s'; [done|]. cbn [process_select].
  intros Hproc Hplain t' r Ht' Hr. destruct Hplain as [s Hcl Hq Hfrom]. apply plain_clauses_parts in Hcl as Hp.
  destruct (process_plain _ _ _ _ s s' Hp Hproc) as (from & rels & tl & Hf & Hrels & Htl & Hatt).
  unfold eval_select in Ht'. destruct (in_fragment s') eqn:Hfrag; [|done].
  apply bind_Some in Ht' as (ts & Hts & Heval).
  rewrite (proj1 (attach_from _ _ _ _ Hatt)) in Hts. cbn [fromClause set_targetList set_fromClause] in Hts.
  pose proof (process_represents catalog ops db Hdb fuel) as Hrep.
  destruct (items_of catalog ops db Hdb _ (fromClause s) from rels ts Hrep Hfrom Hf Hrels Hts) as (its & <- & <- & Hits).
  pose proof (items_consistent _ _ _ its Hrep IH Hfrom Hf Hrels Hts Hits) as Hcons.
  destruct (rewritten_items catalog ops db Hdb s s' from its tl Hp Hq Hits Htl Hatt) as (news & Hrw).
  pose proof (rw_attached _ _ _ _ _ _ _ Hrw) as Hat. rewrite (at_triples _ _ _ Hat).
  apply (core_consistent catalog ops its (rw_ok _ _ _ _ _ _ _ Hrw) (rw_qualifiers _ _ _ _ _ _ _ Hrw) table_assignment s s' news t' r Hcons Hp
    (rw_known _ _ _ _ _ _ _ Hrw) (rw_news _ _ _ _ _ _ _ Hrw)); try done.
  - apply (at_targets _ _ _ Hat).
  - eapply guarded_attached; [|exact Hat]. done.
  - rewrite (at_group _ _ _ Hat). apply (pp_group _ _ Hp).
  - rewrite (at_sort _ _ _ Hat). apply (pp_sort _ _ Hp).
  - rewrite (at_distinct _ _ _ Hat). apply (pp_distinct _ _ Hp).
Qed.
End Process.

(** ** [select possible]

    The server does not look at the flag of a rewritten select. *)

Definition possible_rewritten (s : select) (from : list node) (rels : list rel_info) (tl : list target) : select :=
  set_tabletype TABLETYPE_CERTAIN
    (set_distinctClause (Some [])
      (remove_mutual_exclusiveness
        (set_whereClause (whereClause s) (set_targetList tl (set_fromClause from (set_possible true s)))) rels)).

Section Possible.
Context (catalog : RangeVar -> option Relation) (ops : sql_ops).

Lemma process_possible_eq (ps : select -> outcome select) (pr : node -> outcome node) (s : select) :
  plain_parts ops s ->
  process_select_ catalog ps pr (set_possible true s) =
    (from ← map_outcome (rewrite_from ps) (fromClause s);
     rels ← relations catalog from;
     tl ← transform_targetList catalog (star_fuel catalog rels (targetList s)) 0 rels (targetList s);
     Ok (possible_rewritten s from rels tl)).
Proof.
  intros Hp. pose proof (pp_fragment _ _ Hp) as Hf. unfold in_fragment in Hf. rewrite !andb_true_iff in Hf.
  destruct Hf as ((((Hop & Hposs) & Hkey) & Hpick) & _). apply bool_decide_eq_true in Hop.
  destruct (repairkey s) eqn:Hrk; [|done]. clear Hkey. apply negb_true_iff in Hpick.
  assert (Hno : forall nm, nm ∈ approx_names -> lookup_func_in_targets (targetList s) nm = None).
  { intros nm. apply no_calls, (pp_approx _ _ Hp). }
  unfold process_select_, process_subquery, rewrite_from. cbn [fromClause set_possible].
  destruct (map_outcome _ (fromClause s)) as [from| | |]; cbn [mbind outcome_bind]; [|done..].
  simpl op. rewrite Hop. cbn [targetList set_fromClause fromClause set_possible mbind outcome_bind].
  unfold rewrite_expectations. rewrite !Hno by (unfold approx_names; set_solver).
  cbn [mbind outcome_bind pointer fst fmap option_fmap option_map].
  destruct (relations catalog from) as [rels| | |]; cbn [mbind outcome_bind]; [|done..].
  destruct (transform_targetList _ _ _ _ _) as [tl| | |]; cbn [mbind outcome_bind]; [|done..].
  simpl. rewrite !Hno by (unfold approx_names; set_solver). simpl. rewrite !andb_false_r. simpl.
  unfold rewrite_possible, process_where. cbn [whereClause set_targetList set_fromClause set_possible].
  pose proof (pp_where _ _ Hp) as Hw.
  assert (Hwc : option_outcome (processWhereClause pr) (whereClause s) = Ok (whereClause s)).
  { destruct (whereClause s) as [e|]; [|done]. simpl. by rewrite processWhereClause_data. }
  rewrite Hwc. cbn [mbind outcome_bind].
  set (s1 := set_distinctClause (Some []) _).
  assert (Hr : repairkey s1 = [] /\ pickingType s1 = pickingType s).
  { unfold s1, remove_mutual_exclusiveness, fill_where_clause. simpl. by destruct (whereClause s). }
  destruct Hr as [-> ->]. rewrite Hpick. unfold attach_condition_columns. by rewrite orb_true_r.
Qed.

(** What the answer reads of the rewritten select. *)
Record possible_clauses (s s1 : select) (from : list node) (rels : list rel_info) (tl : list target) : Prop := {
  pc_fragment : in_fragment s1 = true;
  pc_from : fromClause s1 = from;
  pc_targets : targetList s1 = tl;
  pc_where : whereClause s1 = foldl conjoin (Some (default true_const (whereClause s))) (exclusions rels);
  pc_group : groupClause s1 = [];
  pc_sort : sortClause s1 = [];
  pc_distinct : distinctClause s1 = Some [] }.

Lemma possible_rewritten_clauses (s : select) (from : list node) (rels : list rel_info) (tl : list target) :
  plain_parts ops s ->
  possible_clauses s (set_possible false (possible_rewritten s from rels tl)) from rels tl.
Proof.
  intros Hp. pose proof (pp_fragment _ _ Hp) as Hf. pose proof (pp_group _ _ Hp) as Hg. pose proof (pp_sort _ _ Hp) as Hs.
  unfold in_fragment in Hf. rewrite !andb_true_iff in Hf. destruct Hf as ((((Hop & _) & Hkey) & Hpick) & Hl).
  unfold possible_rewritten, remove_mutual_exclusiveness, fill_where_clause.
  destruct (whereClause s) as [w|] eqn:Hw; split; simpl; rewrite ?Hw; try done; unfold in_fragment; simpl; by rewrite Hop, Hkey, Hpick, Hl.
Qed.

Context (db : RangeVar -> option table) (Hdb : database_ok catalog db) (Hcdb : consistent_database catalog db).

(** The answer is that of all worlds. *)
Lemma possible_represents (fuel : nat) (s s1 : select) (from : list node) (rels : list rel_info) (tl : list target) (t : table) :
  plain ops s -> map_outcome (rewrite_from (process_select catalog fuel)) (fromClause s) = Ok from ->
  relations catalog from = Ok rels ->
  transform_targetList catalog (star_fuel catalog rels (targetList s)) 0 rels (targetList s) = Ok tl ->
  possible_clauses s s1 from rels tl -> eval_select ops db s1 = Some t ->
  NoDup (rows t) /\
  (forall th, is_Some (eval_select ops (world_db catalog db th) s)) /\
  forall key, key ∈ rows t <->
    exists th u, eval_select ops (world_db catalog db th) s = Some u /\ key ∈ rows u.
Proof.
  intros Hplain Hf Hrels Htl Hc Ht. destruct Hplain as [s Hcl Hq Hfrom]. apply plain_clauses_parts in Hcl as Hp. unfold eval_select in Ht.
  rewrite (pc_fragment _ _ _ _ _ Hc), (pc_from _ _ _ _ _ Hc) in Ht. apply bind_Some in Ht as (ts & Hts & Hev).
  pose proof (process_represents catalog ops db Hdb fuel) as Hrep.
  destruct (items_of catalog ops db Hdb _ (fromClause s) from rels ts Hrep Hfrom Hf Hrels Hts) as (its & <- & <- & Hits).
  pose proof (items_consistent catalog ops db Hdb Hcdb _ _ _ its Hrep (process_consistent catalog ops db Hdb Hcdb fuel)
    Hfrom Hf Hrels Hts Hits) as Hcons.
  destruct (expanded_items catalog ops db Hdb s its tl Hp Hq Hits Htl) as (news & -> & [Hok Hdq Hknown Hnews _]).
  assert (Hguard : guarded ops its s s1).
  { apply guarded_where. right. apply (pc_where _ _ _ _ _ Hc). }
  destruct (core_answers catalog ops its Hok Hdq s s1 news t Hp Hknown Hnews (pc_targets _ _ _ _ _ Hc) Hguard
    (pc_group _ _ _ _ _ Hc) (pc_sort _ _ _ _ _ Hc) (pc_distinct _ _ _ _ _ Hc) Hev) as (Hnd & f & xs & Hsf & Hrows & Hworld).
  assert (Hw : forall th, eval_select ops (world_db catalog db th) s = eval_over ops s (map (item_world th) its)).
  { intros th. unfold eval_select. by rewrite (pp_fragment _ _ Hp), (items_world catalog ops db Hdb (fromClause s) its th Hits). }
  split_and!; [done| |].
  - intros th. rewrite Hw. destruct (Hworld th) as (u & -> & _). by eexists.
  - intros key. rewrite Hrows. split.
    + intros (parts & Hin & Ht & <-). pose proof (joined_parts catalog its Hok Hdq parts Hin) as Hpp.
      destruct (joined_world (table_assignment catalog db) catalog ops its Hok Hcons parts Hin Hpp) as (th & Hth & _).
      { by apply (guarded_exclusions catalog ops its Hok Hdq s s1 f _ Hguard Hsf). }
      destruct (Hworld th) as (u & Hu & Hkeys). exists th, u. rewrite Hw. split; [done|]. apply Hkeys. by exists parts.
    + intros (th & u & Hu & Hkey). destruct (Hworld th) as (u' & Hu' & Hkeys). rewrite Hw, Hu' in Hu. injection Hu as <-.
      apply Hkeys in Hkey as (parts & Hin & _ & Ht & Hproj). by exists parts.
Qed.

(** When the select without [possible] has an answer, so has the rewritten one. *)
Lemma possible_eval_defined (s s1 s' : select) (from : list node) (its : list item) (news : list (list target)) (t' : table) :
  plain_parts ops s -> expanded catalog ops s its news ->
  attached (set_targetList (concat news) (set_fromClause from s)) its.*1 s' ->
  possible_clauses s s1 from its.*1 (concat news) ->
  eval_over ops s' (map item_table its) = Some t' -> is_Some (eval_over ops s1 (map item_table its)).
Proof using Type.
  intros Hp [Hok Hdq _ _ [_ Hproper]] Hat Hc Hev.
  pose proof (at_targets _ _ _ Hat) as Htg. cbn [targetList set_targetList] in Htg.
  assert (Haggr : Forall (fun r => has_aggregate ops (val r) = false) (concat news)).
  { eapply Forall_impl; [exact Hproper|]. by intros ? []. }
  rewrite (eval_over_plain ops s' _ (map item_scope its)) in Hev; [|by rewrite (at_group _ _ _ Hat); apply Hp
    |by rewrite (at_sort _ _ _ Hat); apply Hp|by rewrite (at_distinct _ _ _ Hat); apply Hp
    |by rewrite Htg; apply Forall_app; split; [|apply condition_aggregates]|apply (scope_tables catalog its Hok Hdq)].
  apply bind_Some in Hev as (f & Hf & (fss & Hfss & _)%bind_Some). rewrite Htg in Hfss.
  apply map_option_app in Hfss as (f1 & css & Hf1 & _ & _).
  unfold eval_over. rewrite (scope_tables catalog its Hok Hdq).
  assert (Hwd : is_Some (select_where ops s1 (map item_scope its))).
  { unfold select_where in *. rewrite (pc_where _ _ _ _ _ Hc).
    destruct (at_where _ _ _ Hat) as [[Hw He]|Hw]; cbn [whereClause set_targetList set_fromClause] in Hw; rewrite Hw in Hf.
    - rewrite He. simpl. destruct (whereClause s); [by eexists|by eexists].
    - by eexists. }
  destruct Hwd as [f' ->]. cbn [mbind option_bind].
  rewrite not_grouped; [|apply (pc_group _ _ _ _ _ Hc)|by rewrite (pc_targets _ _ _ _ _ Hc)].
  rewrite (pc_sort _ _ _ _ _ Hc), (pc_targets _ _ _ _ _ Hc). cbn [map_option mbind option_bind]. rewrite Hf1.
  cbn [mbind option_bind]. unfold distinct_rows. rewrite (pc_distinct _ _ _ _ _ Hc). by eexists.
Qed.

Lemma possible_defined (fuel : nat) (s s1 : select) (from : list node) (rels : list rel_info) (tl : list target)
    (th : world) (u : table) :
  plain ops s -> distinct_names catalog ops db s ->
  map_outcome (rewrite_from (process_select catalog fuel)) (fromClause s) = Ok from ->
  relations catalog from = Ok rels ->
  transform_targetList catalog (star_fuel catalog rels (targetList s)) 0 rels (targetList s) = Ok tl ->
  (exists s', attach_condition_columns (set_targetList tl (set_fromClause from s)) rels false = Ok s') ->
  possible_clauses s s1 from rels tl ->
  eval_select ops (world_db catalog db th) s = Some u -> is_Some (eval_select ops db s1).
Proof.
  intros Hplain Hdn Hf Hrels Htl [s' Hatt] Hc Hu. pose proof Hplain as Hplain'. destruct Hplain as [s Hcl Hq Hfrom].
  apply plain_clauses_parts in Hcl as Hp.
  assert (Hproc : process_select catalog (S fuel) s = Ok s').
  { cbn [process_select]. rewrite (process_plain_eq catalog ops) by done. rewrite Hf. cbn [mbind outcome_bind].
    rewrite Hrels. cbn [mbind outcome_bind]. by rewrite Htl. }
  destruct (process_defined catalog ops db Hdb (S fuel) s s' Hproc Hplain' Hdn th u Hu) as [t' Ht'].
  unfold eval_select in Ht'. destruct (in_fragment s'); [|done]. apply bind_Some in Ht' as (ts & Hts & Hev).
  rewrite (proj1 (attach_from _ _ _ _ Hatt)) in Hts. cbn [fromClause set_targetList set_fromClause] in Hts.
  unfold eval_select. rewrite (pc_fragment _ _ _ _ _ Hc), (pc_from _ _ _ _ _ Hc), Hts. cbn [mbind option_bind].
  pose proof (process_represents catalog ops db Hdb fuel) as Hrep.
  destruct (items_of catalog ops db Hdb _ (fromClause s) from rels ts Hrep Hfrom Hf Hrels Hts) as (its & <- & <- & Hits).
  destruct (expanded_items catalog ops db Hdb s its tl Hp Hq Hits Htl) as (news & -> & Hex).
  destruct (rewritten_items catalog ops db Hdb s s' from its _ Hp Hq Hits Htl Hatt) as (news' & Hrw).
  assert (Heq : news' = news).
  { pose proof (rw_news _ _ _ _ _ _ _ Hrw) as H1. rewrite (ex_news _ _ _ _ _ Hex) in H1. by injection H1. }
  subst news'. by apply (possible_eval_defined s s1 s' from its news t' Hp Hex (rw_attached _ _ _ _ _ _ _ Hrw) Hc).
Qed.

Lemma possible_total (fuel : nat) (s : select) :
  plain ops s -> known catalog s -> select_depth s < S fuel ->
  exists from rels tl, map_outcome (rewrite_from (process_select catalog fuel)) (fromClause s) = Ok from /\
    relations catalog from = Ok rels /\
    transform_targetList catalog (star_fuel catalog rels (targetList s)) 0 rels (targetList s) = Ok tl /\
    exists s', attach_condition_columns (set_targetList tl (set_fromClause from s)) rels false = Ok s'.
Proof using Type.
  intros Hplain Hk Hd. destruct (process_total catalog ops (S fuel) s Hplain Hk Hd) as (s' & Hs' & _).
  destruct Hplain as [s Hcl _ _]. apply plain_clauses_parts in Hcl as Hp. cbn [process_select] in Hs'.
  destruct (process_plain _ _ _ _ s s' Hp Hs') as (from & rels & tl & Hf & Hrels & Htl & Hatt).
  exists from, rels, tl. split_and!; [done..|]. by exists s'.
Qed.
End Possible.
