(* ===== verification/ConfQuery.v ===== *)
(** * ConfQuery: confidence queries

    [select keys, conf() from ... where ... group by keys] is rewritten into a grouping
    over a sorted subquery with the condition columns.  Each group is a key of the
    answer of [select keys from ... where ...] in some world, and the aggregate reads the
    lineage of the key: the worlds in which the key is in the answer. *)
From Stdlib Require Import Strings.String Strings.Ascii.
From stdpp Require Import strings.
From S2P Require Import Prelude.
From S2P Require Import Worlds.
From S2P Require Import ParseTree.
From S2P Require Import RewriteUtils.
From S2P Require Import Supported.
From S2P Require Import RepairKey.
From S2P Require Import Rewrite.
From S2P Require Import Sql.
From S2P Require Import SqlFacts.
From S2P Require Import ScopeFacts.
From S2P Require Import TargetFacts.
From S2P Require Import RewriteCorrect.
Open Scope string_scope.
Open Scope list_scope.
Open Scope nat_scope.

#[local] Set Default Proof Using "Type*".

(** ** The two queries *)

Definition key_target (k : list string) : target := mk_res None (ColumnRef k).

Definition base_query (from : list node) (w : option node) (keys : list (list string)) : select :=
  set_whereClause w (set_fromClause from (set_targetList (map key_target keys) new_select)).

Definition conf_call (a : nat) (args : list node) (star : bool) : node := FuncCall a [CONF] args star.

Definition conf_query (from : list node) (w : option node) (keys : list (list string))
    (nm : option string) (a : nat) (star : bool) : select :=
  set_groupClause (map ColumnRef keys)
    (set_targetList (map key_target keys ++ [mk_res nm (conf_call a [] star)]) (base_query from w keys)).

(** The arguments of a call hold in a world: triples of a variable, a range value and a
    probability. *)
Definition pair_holds (th : world) (v d : value) : bool :=
  match v, d with VInt v, VInt d => sat_lit (v, d) th | _, _ => false end.

Fixpoint args_hold (th : world) (args : list value) : bool :=
  match args with
  | v :: d :: _ :: args => pair_holds th v d && args_hold th args
  | [] => true
  | _ => false
  end.

(** Some relation of the from clause is a U-relation. *)
Definition uncertain_from (catalog : RangeVar -> option Relation) (from : list node) : Prop :=
  exists rv rel, N_RangeVar rv ∈ from /\ catalog rv = Some rel /\ rd_tabletype rel = TABLETYPE_URELATION.

(** ** Copies of rewritten selects *)

Section Copies.
Context (catalog : RangeVar -> option Relation) (ops : sql_ops) (db : RangeVar -> option table).

Definition copies_well (n : node) : Prop := eval_from ops db (copyObject n) = eval_from ops db n.

Lemma rewritten_from_copies (ps : select -> outcome select) (from from' : list node) :
  (forall s s', ps s = Ok s' -> plain ops s ->
     eval_select ops db (copy_select copyObject s') = eval_select ops db s') ->
  Forall (plain_from ops) from -> map_outcome (rewrite_from ps) from = Ok from' ->
  Forall copies_well from'.
Proof.
  intros Hps Hfrom Hf%map_outcome_Forall2. induction Hf as [|n n' from from' Hn _ IH]; [constructor|].
  apply Forall_cons in Hfrom as [Hpn Hfrom]. constructor; [|by apply IH].
  destruct Hpn as [rv|s alias Hs]; [by injection Hn as <-|].
  cbn [rewrite_from as_select mbind outcome_bind] in Hn. apply outcome_bind_Ok in Hn as (s' & Hs' & [= <-]).
  unfold copies_well. specialize (Hps s s' Hs' Hs). unfold eval_select in Hps.
  cbn [copyObject eval_from]. by rewrite Hps.
Qed.

Lemma map_option_copies (from : list node) :
  Forall copies_well from -> map_option (eval_from ops db) (map copyObject from) = map_option (eval_from ops db) from.
Proof. induction 1 as [|n from Hn _ IH]; [done|]. simpl. by rewrite Hn, IH. Qed.

Lemma process_copies (fuel : nat) (s s' : select) :
  process_select catalog fuel s = Ok s' -> plain ops s ->
  eval_select ops db (copy_select copyObject s') = eval_select ops db s'.
Proof.
  revert s s'. induction fuel as [|fuel IH]; intros s s'; [done|]. cbn [process_select].
  intros Hproc Hplain. destruct Hplain as [s Hcl Hq Hfrom]. apply plain_clauses_parts in Hcl as Hp.
  destruct (process_plain catalog ops _ _ s s' Hp Hproc) as (from & rels & tl & Hf & _ & _ & Hatt).
  apply attach_from in Hatt as (Hfs & Hfr). simpl in Hfs.
  assert (Hin : in_fragment s' = true) by (rewrite Hfr; apply (pp_fragment _ _ Hp)).
  pose proof (rewritten_from_copies _ _ _ IH Hfrom Hf) as Hc.
  unfold eval_select. rewrite Hin, in_fragment_copy by done. simpl. rewrite Hfs, map_option_copies by done.
  destruct (map_option _ from) as [ts|]; [|done]. apply eval_over_copy.
Qed.
End Copies.

(** ** The rewritten query *)

(** The column of a key in the subquery. *)
Definition key_col (k : list string) : string :=
  if 1 <? length k then concat_fields k else default "" (last k).

Definition inner_key (k : list string) : target :=
  mk_res (if 1 <? length k then Some (concat_fields k) else None) (ColumnRef k).
Definition outer_key (k : list string) : target :=
  mk_res (if 1 <? length k then last k else None) (ColumnRef [key_col k]).

Lemma name_reference_key (k : list string) : name_reference (key_target k) = inner_key k.
Proof. unfold name_reference, inner_key, key_target. simpl. by destruct (1 <? length k). Qed.

Lemma short_key (k : list string) (c : string) : (1 <? length k) = false -> last k = Some c -> k = [c].
Proof.
  intros Hl Hc. apply Nat.ltb_ge in Hl. destruct k as [|x [|y k]]; simpl in *; [done| |lia].
  by injection Hc as ->.
Qed.

Lemma outer_reference_key (k : list string) (c : string) :
  last k = Some c -> outer_reference (key_target k) = Ok (outer_key k).
Proof.
  intros Hc. unfold outer_reference, outer_key, key_col, key_target. simpl.
  destruct (1 <? length k) eqn:Hl; [done|]. simpl. rewrite Hc. simpl. by rewrite (short_key k c).
Qed.

Lemma group_reference_key (k : list string) (c : string) :
  last k = Some c -> group_reference (ColumnRef k) = ColumnRef [key_col k].
Proof.
  intros Hc. unfold group_reference, key_col. destruct (1 <? length k) eqn:Hl; [done|].
  rewrite Hc. simpl. by rewrite (short_key k c).
Qed.

Definition inner_targets (keys : list (list string)) (rels : list rel_info) : list target :=
  map inner_key keys ++ put_args_to_conf_general rels VARNAME ++ put_args_to_conf_general rels DOMAINNAME
  ++ put_args_to_conf_general rels PROBNAME.

Definition inner_select (from : list node) (w : option node) (keys : list (list string))
    (rels : list rel_info) : select :=
  set_targetList (inner_targets keys rels)
    (remove_mutual_exclusiveness
      (set_sortClause (map ColumnRef keys) (set_whereClause w (set_fromClause (map copyObject from) new_select))) rels).

Definition outer_targets (keys : list (list string)) (nm : option string) (a : nat) (rels : list rel_info)
    : list target :=
  map outer_key keys ++ [mk_res nm (conf_call a (put_args_general (calculate_total_triples rels) []) false)].

Lemma name_reference_conditions (rels : list rel_info) (nm : string) :
  map name_reference (put_args_to_conf_general rels nm) = put_args_to_conf_general rels nm.
Proof. unfold put_args_to_conf_general. rewrite map_map. by apply map_ext. Qed.

(** ** The rewriting *)

Definition conf_rewritten (from : list node) (w : option node) (keys : list (list string))
    (nm : option string) (a : nat) (rels : list rel_info) : select :=
  set_tabletype TABLETYPE_CERTAIN
    (set_groupClause (map (fun k => ColumnRef [key_col k]) keys)
      (set_targetList (outer_targets keys nm a rels)
        (set_fromClause [makeRangeSubselect "temp" (inner_select from w keys rels)] new_select))).

(** A key is a data column. *)
Definition key_ok (k : list string) : Prop := exists c, last k = Some c /\ is_data c = true /\ c <> "*".

Lemma plain_select_parts (ops : sql_ops) (s : select) : plain ops s -> plain_parts ops s.
Proof. intros [s' Hcl _ _]. by apply plain_clauses_parts. Qed.

Section Rewriting.
Context (catalog : RangeVar -> option Relation) (ops : sql_ops).
Context (from : list node) (w : option node) (keys : list (list string)).
Context (nm : option string) (a : nat) (star : bool).
Context (Hplain : plain ops (base_query from w keys)) (Hkeys : Forall key_ok keys).
Context (Hfrom : uncertain_from catalog from).

Lemma where_data : match w with Some e => data_expr e | None => true end = true.
Proof using Hplain. apply (pp_where _ _ (plain_select_parts ops _ Hplain)). Qed.

Lemma keys_nonempty : keys <> [].
Proof using Hplain.
  intros H. apply (pp_nonempty _ _ (plain_select_parts ops _ Hplain)). simpl. by rewrite H.
Qed.

Lemma lookup_keys (f : string) (tl : list target) :
  lookup_func_in_targets (map key_target keys ++ tl) f = lookup_func_in_targets tl f.
Proof.
  unfold lookup_func_in_targets, lookup_func_in_list. clear. rewrite fmap_app.
  induction keys as [|k ks IH]; [done|]. simpl. apply IH.
Qed.

Lemma star_free_keys : Forall (fun r => star_of r = None) (map key_target keys ++ [mk_res nm (conf_call a [] star)]).
Proof.
  apply Forall_app. split; [|by repeat constructor]. apply Forall_map. eapply Forall_impl; [exact Hkeys|].
  intros k (c & Hc & _ & Hne). unfold star_of. simpl. rewrite Hc, bool_decide_eq_false_2; congruence.
Qed.

Lemma transform_star_free (rels : list rel_info) (fuel i : nat) (tl : list target) :
  Forall (fun r => star_of r = None) tl -> length tl <= fuel + i ->
  transform_targetList catalog fuel i rels tl = Ok tl.
Proof.
  intros Htl. revert i. induction fuel as [|fuel IH]; intros i Hl; cbn [transform_targetList].
  - by rewrite lookup_ge_None_2 by lia.
  - destruct (tl !! i) as [r|] eqn:Hr; [|done]. rewrite Forall_forall in Htl.
    rewrite (Htl r) by by eapply list_elem_of_lookup_2. apply IH. lia.
Qed.

Lemma update_keys (f : node -> node) :
  update_targets a f (map key_target keys ++ [mk_res nm (conf_call a [] star)]) =
  map key_target keys ++ [mk_res nm (f (conf_call a [] star))].
Proof.
  unfold update_targets. rewrite map_app, map_map. simpl. rewrite Nat.eqb_refl. done.
Qed.

Lemma referenced_keys (s : select) :
  groupClause s = map ColumnRef keys -> referenced_columns s = Ok (map key_target keys).
Proof.
  intros H. unfold referenced_columns. rewrite H. clear. induction keys as [|k ks IH]; [done|].
  simpl. by rewrite IH.
Qed.

Lemma sort_keys : get_sort_clause (map key_target keys) = map ColumnRef keys.
Proof. unfold get_sort_clause. clear. induction keys as [|k ks IH]; [done|]. cbn [map].
  rewrite fmap_cons, filter_cons, decide_True by done. by rewrite IH. Qed.

Lemma outer_references (args : list node) :
  Forall (fun n => exists c, n = ColumnRef [c]) args ->
  map_outcome outer_reference (map key_target keys ++ [mk_res nm (FuncCall a [CONF] args false)]) =
  Ok (map outer_key keys ++ [mk_res nm (FuncCall a [CONF] args false)]).
Proof.
  intros Hargs.
  assert (Hcall : outer_reference (mk_res nm (FuncCall a [CONF] args false)) = Ok (mk_res nm (FuncCall a [CONF] args false))).
  { unfold outer_reference. simpl.
    assert (Hm : map_outcome remove_relation_reference_in_node args = Ok (map (fun n => (n, None)) args)).
    { clear -Hargs. induction Hargs as [|n args [c ->] _ IH]; [done|]. simpl. by rewrite IH. }
    rewrite Hm. simpl. change (@fmap list _) with @map. rewrite map_map. cbn [fst]. rewrite map_id. by destruct nm. }
  pose proof Hkeys as Hk. clear -Hk Hcall. induction Hk as [|k ks (c & Hc & _) _ IH]; cbn [map app map_outcome].
  - by rewrite Hcall.
  - rewrite (outer_reference_key k c Hc). cbn [mbind outcome_bind]. by rewrite IH.
Qed.

Lemma general_args (n : nat) : Forall (fun n => exists c, n = ColumnRef [c]) (put_args_general n []).
Proof.
  unfold put_args_general. simpl. apply Forall_forall.
  intros x (i & Hx & _)%list_elem_of_bind. unfold column in Hx.
  repeat (apply elem_of_cons in Hx as [->|Hx]; [by eexists|]). by apply not_elem_of_nil in Hx.
Qed.

Lemma group_references : map group_reference (map ColumnRef keys) = map (fun k => ColumnRef [key_col k]) keys.
Proof.
  pose proof Hkeys as Hk. clear -Hk. induction Hk as [|k ks (c & Hc & _) _ IH]; [done|]. cbn [map].
  by rewrite (group_reference_key k c Hc), IH.
Qed.

Lemma inner_names (rels : list rel_info) :
  map name_reference (map key_target keys ++ put_args_to_conf_general rels VARNAME ++
    put_args_to_conf_general rels DOMAINNAME ++ put_args_to_conf_general rels PROBNAME) = inner_targets keys rels.
Proof.
  unfold inner_targets. rewrite !map_app, !name_reference_conditions, map_map. f_equal.
  apply map_ext. intros k. apply name_reference_key.
Qed.

Lemma where_copied (process : node -> outcome node) :
  option_outcome (processWhereClause process) (copyObject <$> w) = Ok w.
Proof.
  pose proof where_data as Hd. destruct w as [e|]; [|done]. simpl. rewrite copy_data_expr by done.
  by rewrite processWhereClause_data.
Qed.

(** The inner select before its targets get names. *)
Definition unnamed_inner (from' : list node) (rels : list rel_info) : select :=
  set_targetList (map key_target keys ++ put_args_to_conf_general rels VARNAME ++
      put_args_to_conf_general rels DOMAINNAME ++ put_args_to_conf_general rels PROBNAME)
    (remove_mutual_exclusiveness
      (set_sortClause (map ColumnRef keys) (set_whereClause w (set_fromClause (map copyObject from') new_select))) rels).

Lemma general_subselect_eq (process : node -> outcome node) (s : select) (rels : list rel_info) :
  groupClause s = map ColumnRef keys -> whereClause s = w ->
  general_subselect process s rels =
    Ok (remove_mutual_exclusiveness
         (set_whereClause w
           (set_targetList (map key_target keys ++ put_args_to_conf_general rels VARNAME ++
               put_args_to_conf_general rels DOMAINNAME ++ put_args_to_conf_general rels PROBNAME)
             (set_sortClause (map ColumnRef keys)
               (set_intoClause None (set_groupClause [] (copy_select copyObject s)))))) rels).
Proof.
  intros Hg Hw. unfold general_subselect. rewrite referenced_keys by done. cbn [mbind outcome_bind].
  rewrite sort_keys. unfold process_where.
  assert (Hcopy : forall k l, whereClause (set_targetList k (set_sortClause l
     (set_intoClause None (set_groupClause [] (copy_select copyObject s))))) = copyObject <$> w) by (intros; by rewrite <- Hw).
  by rewrite Hcopy, where_copied.
Qed.

Lemma general_subselect_conf (process : node -> outcome node) (from' : list node) (rels : list rel_info) :
  general_subselect process (set_fromClause from' (conf_query from w keys nm a star)) rels =
  Ok (unnamed_inner from' rels).
Proof.
  rewrite general_subselect_eq by done. apply f_equal. unfold unnamed_inner, remove_mutual_exclusiveness, fill_where_clause.
  destruct w; reflexivity.
Qed.

Lemma handle_conf (out inn : select) (args : list node) :
  Forall (fun n => exists c, n = ColumnRef [c]) args ->
  targetList out = map key_target keys ++ [mk_res nm (FuncCall a [CONF] args false)] ->
  groupClause out = map ColumnRef keys ->
  handle_relation_reference out inn =
    Ok (set_groupClause (map (fun k => ColumnRef [key_col k]) keys)
          (set_targetList (map outer_key keys ++ [mk_res nm (FuncCall a [CONF] args false)]) out),
        set_targetList (map name_reference (targetList inn)) inn).
Proof.
  intros Hargs Htl Hg. unfold handle_relation_reference. rewrite Htl, outer_references by done.
  cbn [mbind outcome_bind]. by rewrite Hg, group_references.
Qed.

Lemma outer_select_eq (s inn : select) (rels : list rel_info) :
  targetList s = map key_target keys ++ [mk_res nm (conf_call a [] star)] ->
  groupClause s = map ColumnRef keys ->
  outer_select s inn a (put_args_general (calculate_total_triples rels)) =
    Ok (set_fromClause [makeRangeSubselect "temp" (set_targetList (map name_reference (targetList inn)) inn)]
         (set_groupClause (map (fun k => ColumnRef [key_col k]) keys)
           (set_targetList (outer_targets keys nm a rels) (set_whereClause None s)))).
Proof.
  intros Htl Hg. unfold outer_select. rewrite Htl, update_keys.
  rewrite (handle_conf _ _ (put_args_general (calculate_total_triples rels) [])); [done|apply general_args|done|done].
Qed.

Lemma outer_select_conf (from' : list node) (rels : list rel_info) :
  outer_select (set_fromClause from' (conf_query from w keys nm a star)) (unnamed_inner from' rels) a
    (put_args_general (calculate_total_triples rels)) =
  Ok (set_tabletype (tabletype new_select) (conf_rewritten from' w keys nm a rels)).
Proof.
  rewrite outer_select_eq by done.
  change (targetList (unnamed_inner from' rels)) with
    (map key_target keys ++ put_args_to_conf_general rels VARNAME ++
      put_args_to_conf_general rels DOMAINNAME ++ put_args_to_conf_general rels PROBNAME).
  by rewrite inner_names.
Qed.

Lemma generalRewrite_conf (process : node -> outcome node) (from' : list node) (rels : list rel_info) :
  generalRewrite process (set_fromClause from' (conf_query from w keys nm a star)) rels a =
  Ok (set_tabletype (tabletype new_select) (conf_rewritten from' w keys nm a rels)).
Proof. unfold generalRewrite. rewrite general_subselect_conf. apply outer_select_conf. Qed.

(** The from clause is rewritten as that of a plain select; the relations include a
    U-relation. *)
Lemma uncertain_types (ps : select -> outcome select) (from' : list node) (rels : list rel_info) :
  map_outcome (rewrite_from ps) from = Ok from' -> relations catalog from' = Ok rels ->
  TABLETYPE_URELATION ∈ ri_type <$> rels.
Proof.
  destruct Hfrom as (rv & rel & Hin & Hrel & Hty). clear -Hin Hrel Hty. revert from' rels.
  induction from as [|n l IH]; intros from' rels; [by apply not_elem_of_nil in Hin|].
  intros (n' & Hn' & (from'' & Hf' & [= <-])%outcome_bind_Ok)%outcome_bind_Ok.
  intros (ri & Hri & (rels' & Hrels & [= <-])%outcome_bind_Ok)%outcome_bind_Ok. rewrite fmap_cons, elem_of_cons.
  apply elem_of_cons in Hin as [<-|Hin]; [left|right; by apply (IH Hin from'' rels')].
  injection Hn' as <-. unfold rel_info_of, table_type, tripleCount, relation_openrv in Hri. rewrite Hrel in Hri.
  injection Hri as <-. done.
Qed.

Lemma uncertain_not_certain (types : list ascii) :
  TABLETYPE_URELATION ∈ types -> all_relations_are_certain types = false /\ is_a_general_case types = true.
Proof.
  intros Hin. split.
  - apply not_true_iff_false. unfold all_relations_are_certain. rewrite forallb_forall. intros H.
    by specialize (H _ (proj1 (list_elem_of_In _ _) Hin)).
  - apply existsb_exists. exists TABLETYPE_URELATION. split; [by apply list_elem_of_In|done].
Qed.

Lemma process_conf (ps : select -> outcome select) (pr : node -> outcome node) :
  process_select_ catalog ps pr (conf_query from w keys nm a star) =
    (from' ← map_outcome (rewrite_from ps) from; rels ← relations catalog from';
     Ok (conf_rewritten from' w keys nm a rels)).
Proof.
  unfold process_select_, process_subquery. fold (rewrite_from ps).
  change (fromClause (conf_query from w keys nm a star)) with from.
  change (map_outcome _ from) with (map_outcome (rewrite_from ps) from).
  destruct (map_outcome (rewrite_from ps) from) as [from'| | |] eqn:Hf; cbn [mbind outcome_bind]; [|done..].
  change (op (set_fromClause from' (conf_query from w keys nm a star))) with SETOP_NONE. cbn [mbind outcome_bind].
  change (targetList (set_fromClause from' (conf_query from w keys nm a star))) with
    (map key_target keys ++ [mk_res nm (conf_call a [] star)]).
  unfold rewrite_expectations. rewrite !lookup_keys.
  change (lookup_func_in_targets [mk_res nm (conf_call a [] star)] ESUM) with (@None node).
  change (lookup_func_in_targets [mk_res nm (conf_call a [] star)] ECOUNT) with (@None node).
  cbn [mbind outcome_bind]. rewrite !lookup_keys.
  change (fromClause (set_fromClause from' (conf_query from w keys nm a star))) with from'.
  destruct (relations catalog from') as [rels| | |] eqn:Hr; cbn [mbind outcome_bind]; [|done..].
  rewrite transform_star_free; [|apply star_free_keys|unfold star_fuel; lia]. cbn [mbind outcome_bind].
  destruct (uncertain_not_certain _ (uncertain_types ps from' rels Hf Hr)) as [Hc Hg]. rewrite Hc. cbn [andb].
  change (set_targetList (map key_target keys ++ [mk_res nm (conf_call a [] star)])
    (set_fromClause from' (conf_query from w keys nm a star))) with (set_fromClause from' (conf_query from w keys nm a star)).
  change (lookup_func_in_targets [mk_res nm (conf_call a [] star)] TUPLECONF) with (@None node).
  change (lookup_func_in_targets [mk_res nm (conf_call a [] star)] CONF) with (Some (conf_call a [] star)).
  change (lookup_func_in_targets [mk_res nm (conf_call a [] star)] ACONF) with (@None node).
  cbn [pointer conf_call fmap option_fmap option_map]. unfold rewrite_conf. cbn [length Nat.eqb orb]. rewrite Hg.
  rewrite generalRewrite_conf. cbn [mbind outcome_bind].
  change (possible (set_tabletype (tabletype new_select) (conf_rewritten from' w keys nm a rels))) with false.
  cbn [mbind outcome_bind].
  change (repairkey (set_tabletype (tabletype new_select) (conf_rewritten from' w keys nm a rels))) with (@nil target).
  change (pickingType (set_tabletype (tabletype new_select) (conf_rewritten from' w keys nm a rels))) with NUL.
  unfold attach_condition_columns. rewrite Hc. reflexivity.
Qed.
End Rewriting.
