(* ===== verification/ConfAnswer.v ===== *)
(** * ConfAnswer: what a rewritten confidence query computes

    The rows of the inner select are the keys with the triples of a joined row; the
    outer select groups them by key and hands the triples of a group to the aggregate.
    The triples of a row hold in a world exactly when the joined row belongs to it. *)
From Stdlib Require Import Strings.String Strings.Ascii.
From stdpp Require Import strings.
From S2P Require Import Prelude.
From S2P Require Import Worlds.
From S2P Require Import ParseTree.
From S2P Require Import RewriteUtils.
From S2P Require Import RepairKey.
From S2P Require Import Rewrite.
From S2P Require Import Sql.
From S2P Require Import SqlFacts.
From S2P Require Import ScopeFacts.
From S2P Require Import TargetFacts.
From S2P Require Import RewriteCorrect.
From S2P Require Import Consistent.
From S2P Require Import ConfQuery.
Open Scope string_scope.
Open Scope list_scope.
Open Scope nat_scope.

#[local] Set Default Proof Using "Type*".

(** The clauses of the inner select. *)
Record inner_clauses (from : list node) (w : option node) (keys : list (list string)) (rels : list rel_info)
    (s : select) : Prop := {
  ic_fragment : in_fragment s = true;
  ic_from : fromClause s = map copyObject from;
  ic_sort : sortClause s = map ColumnRef keys;
  ic_distinct : distinctClause s = None;
  ic_group : groupClause s = [];
  ic_where : whereClause s = foldl conjoin (Some (default true_const w)) (exclusions rels) }.

Lemma inner_select_clauses (from : list node) (w : option node) (keys : list (list string)) (rels : list rel_info) :
  inner_clauses from w keys rels (inner_select from w keys rels).
Proof. unfold inner_select, remove_mutual_exclusiveness, fill_where_clause. by destruct w; split. Qed.

Section Inner.
Context (ops : sql_ops).

Lemma star_free_functions (sc : scope) (tl : list target) (fss : list (list (string * fn))) :
  Forall (fun r => star_of r = None) tl -> map_option (eval_target ops sc) tl = Some fss ->
  map_option (eval_expr ops (paths sc)) (map val tl) = Some (concat fss).*2 /\
  (concat fss).*1 = map target_name tl.
Proof.
  intros Htl. revert fss. induction Htl as [|r tl Hr _ IH]; intros fss; simpl; [by intros [= <-]|].
  rewrite eval_target_plain by done.
  intros (fs & (f & Hf & [= <-])%bind_Some & (fss' & H & [= <-])%bind_Some)%bind_Some.
  destruct (IH _ H) as [H1 H2]. rewrite Hf. cbn [mbind option_bind]. rewrite H1. cbn [mbind option_bind concat app].
  by rewrite !fmap_cons, H2.
Qed.

Context (from0 : list node) (w : option node) (keys : list (list string)) (its : list item).
Context (Hkeys : Forall key_ok keys) (Hne : keys <> []).
Let sc := map item_scope its.
Let inner := inner_select from0 w keys its.*1.

Lemma inner_key_star : Forall (fun r => star_of r = None) (map inner_key keys).
Proof.
  apply Forall_map. eapply Forall_impl; [exact Hkeys|]. intros k (c & Hc & _ & Hs).
  unfold star_of, inner_key. simpl. rewrite Hc, bool_decide_eq_false_2; congruence.
Qed.

Lemma inner_key_name (k : list string) : key_ok k -> target_name (inner_key k) = key_col k.
Proof.
  intros (c & Hc & _). unfold target_name, inner_key, key_col. destruct (1 <? length k); [done|]. simpl. by rewrite Hc.
Qed.

Lemma conditions_star (nm : string) :
  nm ∈ [VARNAME; DOMAINNAME; PROBNAME] ->
  Forall (fun r => star_of r = None) (put_args_to_conf_general its.*1 nm).
Proof. intros Hnm. apply Forall_map, Forall_forall. intros t _. by apply condition_star. Qed.

Lemma inner_ungrouped : grouped ops inner = false.
Proof.
  apply not_grouped; [apply (ic_group _ _ _ _ _ (inner_select_clauses _ _ _ _))|].
  change (targetList inner) with (inner_targets keys its.*1). unfold inner_targets, put_args_to_conf_general.
  repeat (apply Forall_app; split); by apply Forall_map, Forall_forall.
Qed.

(** The functions of an inner row. *)
Record inner_row := mk_inner { ir_keys : list fn; ir_vars : list fn; ir_doms : list fn; ir_probs : list fn }.

Definition inner_values (x : inner_row) (r : row) : row :=
  project (ir_keys x) r ++ project (ir_vars x) r ++ project (ir_doms x) r ++ project (ir_probs x) r.

Definition functions (l : list target) (fs : list fn) : Prop :=
  map_option (eval_expr ops (paths sc)) (map val l) = Some fs.

Lemma inner_eval (ti : table) :
  eval_over ops inner (map item_table its) = Some ti ->
  exists f x l, select_where ops inner sc = Some f /\
    functions (map inner_key keys) (ir_keys x) /\
    functions (put_args_to_conf_general its.*1 VARNAME) (ir_vars x) /\
    functions (put_args_to_conf_general its.*1 DOMAINNAME) (ir_doms x) /\
    functions (put_args_to_conf_general its.*1 PROBNAME) (ir_probs x) /\
    columns ti = map target_name (inner_targets keys its.*1) /\
    rows ti = map (inner_values x) l /\
    exists ks, l = sort_rows ops ks (filtered f (map item_table its).*2).
Proof.
  unfold eval_over. rewrite inner_ungrouped.
  change (map (fun '(q, t) => (q, columns t)) (map item_table its)) with (map (fun '(q, t) => (q, columns t)) (map item_table its)).
  assert (Hsc : map (fun '(q, t) => (q, columns t)) (map item_table its) = sc) by (unfold sc; by rewrite map_map).
  rewrite Hsc. intros (f & Hf & (ks & Hks & (tl & Htl & (out & Hout & [= <-])%bind_Some)%bind_Some)%bind_Some)%bind_Some.
  pose proof (ic_distinct _ _ _ _ _ (inner_select_clauses from0 w keys its.*1)) as Hd. fold inner in Hd.
  unfold distinct_rows in Hout. rewrite Hd in Hout. injection Hout as <-.
  change (targetList inner) with (inner_targets keys its.*1) in Htl.
  assert (Hstar : Forall (fun r => star_of r = None) (inner_targets keys its.*1)).
  { unfold inner_targets. repeat (apply Forall_app; split); [apply inner_key_star|apply conditions_star; set_solver..]. }
  destruct (star_free_functions sc _ tl Hstar Htl) as [Hfs Hnames].
  unfold inner_targets in Hfs. rewrite !map_app in Hfs.
  apply map_option_app in Hfs as (fk & rest & H1 & Hr & Heq). apply map_option_app in Hr as (fv & rest2 & H2 & Hr & ->).
  apply map_option_app in Hr as (fd & fp & H3 & H4 & ->).
  exists f, (mk_inner fk fv fd fp), (sort_rows ops ks (filtered f (map item_table its).*2)).
  split_and!; [done..| | |by exists ks].
  - done.
  - cbn [rows]. rewrite Heq.
    assert (Hsort : ks <> []).
    { intros ->. apply map_option_Forall2, Forall2_nil_inv_r in Hks.
      unfold inner in Hks. rewrite (ic_sort _ _ _ _ _ (inner_select_clauses _ _ _ _)) in Hks. by apply map_eq_nil in Hks. }
    destruct ks as [|k ks]; [done|]. apply map_ext. intros r. unfold project, inner_values, project. simpl.
    by rewrite !map_app.
Qed.
End Inner.

(** ** Triples and keys of a joined row *)

Section Rows.
Context (catalog : RangeVar -> option Relation) (ops : sql_ops) (its : list item).
Context (Hok : Forall (item_ok catalog) its) (Hq : distinct_qualifiers its).
Let sc := map item_scope its.

Lemma condition_functions (nm : string) (parts : list row) (fs : list fn) :
  length parts = length its -> functions ops its (put_args_to_conf_general its.*1 nm) fs ->
  Forall2 (fun x f => eval_expr ops (paths sc) (makeColumnRef nm x.2 (ri_fields x.1.1.1)) = Some f)
    (part_triples its parts) fs.
Proof.
  intros Hl Hf%map_option_Forall2. unfold put_args_to_conf_general in Hf. rewrite map_map in Hf.
  unfold numbered_triples in Hf. rewrite (triples_of_parts its parts Hl) in Hf.
  assert (Hm : map (fun x => val (condition_target nm x)) (imap pair (map triple_of (part_triples its parts))) =
    map (fun x => makeColumnRef nm x.2 (ri_fields x.1.1.1)) (part_triples its parts)).
  { generalize (part_triples its parts). intros L. change (@map (item * row * nat)) with (@fmap list _ (item * row * nat)).
    rewrite imap_fmap. change (@map (nat * (rel_info * nat))) with (@fmap list _ (nat * (rel_info * nat))).
    rewrite fmap_imap. generalize 0. unfold compose, triple_of. clear. induction L as [|x L IH]; intros n; [done|].
    rewrite imap_cons, fmap_cons. f_equal. unfold compose in IH. by rewrite <- (IH n). }
  rewrite Hm in Hf. by apply Forall2_fmap_l in Hf.
Qed.

Lemma pair_triple (th : world) (parts : list row) (x : item * row * nat) (fv fd : fn) :
  Forall2 part_of its parts -> x ∈ part_triples its parts ->
  eval_expr ops (paths sc) (makeColumnRef VARNAME x.2 (ri_fields x.1.1.1)) = Some fv ->
  eval_expr ops (paths sc) (makeColumnRef DOMAINNAME x.2 (ri_fields x.1.1.1)) = Some fd ->
  pair_holds th (fv (concat parts)) (fd (concat parts)) = triple_holds th (columns x.1.1.2) x.1.2 x.2.
Proof.
  intros Hp [Hin Hj]%elem_of_part_triples Ev Ed. destruct x as [[it p] j]. cbn [fst snd] in *.
  assert (Hit : has_triples it).
  { pose proof (items_triples catalog its Hok) as H. rewrite Forall_forall in H. apply H.
    apply list_elem_of_lookup in Hin as (n & [Hn _]%lookup_zip_Some). by eapply list_elem_of_lookup_2. }
  destruct (Hit j Hj) as [Hcv Hcd]. pose proof (elem_of_zip_Forall2 _ _ _ _ _ Hp Hin) as Hlen.
  destruct (lookup_column_is_Some _ _ p Hcv Hlen) as [v Hv], (lookup_column_is_Some _ _ p Hcd Hlen) as [d Hd].
  rewrite (eval_condition_column ops its parts it p VARNAME j v fv Hp Hin Hv Hcv Ev).
  rewrite (eval_condition_column ops its parts it p DOMAINNAME j d fd Hp Hin Hd Hcd Ed).
  unfold triple_holds. rewrite Hv, Hd. by destruct v, d.
Qed.

(** The pairs of an inner row. *)
Definition pairs_hold (th : world) (vs ds : list value) : bool :=
  forallb (fun vd => pair_holds th vd.1 vd.2) (zip vs ds).

Lemma pairs_hold_triples (th : world) (parts : list row) (L : list (item * row * nat)) (vs ds : list fn) :
  Forall2 part_of its parts -> Forall (fun x => x ∈ part_triples its parts) L ->
  Forall2 (fun x f => eval_expr ops (paths sc) (makeColumnRef VARNAME x.2 (ri_fields x.1.1.1)) = Some f) L vs ->
  Forall2 (fun x f => eval_expr ops (paths sc) (makeColumnRef DOMAINNAME x.2 (ri_fields x.1.1.1)) = Some f) L ds ->
  pairs_hold th (project vs (concat parts)) (project ds (concat parts)) =
  forallb (fun x => triple_holds th (columns x.1.1.2) x.1.2 x.2) L.
Proof.
  intros Hp HL Hv. revert ds. induction Hv as [|x f L vs Hx _ IH]; intros ds Hd.
  - by apply Forall2_nil_inv_l in Hd as ->.
  - apply Forall2_cons_inv_l in Hd as (d & ds' & Hxd & Hd & ->). apply Forall_cons in HL as [HxL HL].
    unfold pairs_hold in *. cbn [project map zip_with forallb fst snd]. rewrite (pair_triple th parts x f d Hp HxL Hx Hxd).
    f_equal. by apply IH.
Qed.

Lemma pairs_hold_parts (th : world) (parts : list row) (vs ds : list fn) :
  Forall2 part_of its parts ->
  functions ops its (put_args_to_conf_general its.*1 VARNAME) vs ->
  functions ops its (put_args_to_conf_general its.*1 DOMAINNAME) ds ->
  pairs_hold th (project vs (concat parts)) (project ds (concat parts)) = all_hold (part_holds th) its parts.
Proof.
  intros Hp Hv Hd. pose proof (Forall2_length _ _ _ Hp) as Hlen.
  apply (condition_functions VARNAME parts) in Hv; [|done]. apply (condition_functions DOMAINNAME parts) in Hd; [|done].
  rewrite <- all_hold_triples. apply pairs_hold_triples; [done| |done|done]. by apply Forall_forall.
Qed.

(** ** The answer in a world *)

Lemma data_functions (es : list node) (fs : list fn) :
  Forall (fun e => data_expr e = true) es -> map_option (eval_expr ops (paths sc)) es = Some fs ->
  exists gs, map_option (eval_expr ops (paths (map data_scope its))) es = Some gs /\
    forall parts, Forall2 part_of its parts ->
      project fs (concat parts) = project gs (concat (zip_with data_part its parts)).
Proof.
  intros Hd Hfs. pose proof (agree_list (path_mask (paths sc)) (length (paths sc)) (eval_expr ops (paths sc))
    (eval_expr ops (paths (map data_scope its))) es) as Hag. rewrite Hfs in Hag.
  destruct (map_option (eval_expr ops (paths (map data_scope its))) es) as [gs|] eqn:Hgs.
  2: { exfalso. assert (H : option_Forall2 (Forall2 (agree (path_mask (paths sc)) (length (paths sc)))) (Some fs) None);
       [|by inversion H]. apply Hag. eapply Forall_impl; [exact Hd|]. intros e He.
       pose proof (eval_expr_data ops (paths sc) e He) as H. unfold sc in H. by rewrite paths_data in H. }
  exists gs. split; [done|]. intros parts Hp.
  assert (H : option_Forall2 (Forall2 (agree (path_mask (paths sc)) (length (paths sc)))) (Some fs) (Some gs)).
  { apply Hag. eapply Forall_impl; [exact Hd|]. intros e He.
    pose proof (eval_expr_data ops (paths sc) e He) as H. unfold sc in H. by rewrite paths_data in H. }
  inversion H as [? ? Hfg|]; subst. rewrite <- (keep_parts its parts Hp). fold sc.
  assert (Hlen : length (concat parts) = length (paths sc)) by by apply length_parts.
  clear -Hfg Hlen. induction Hfg as [|f g fs gs Hfg _ IH]; [done|]. simpl. by rewrite IH, (Hfg _ Hlen).
Qed.

Context (from0 : list node) (w : option node) (keys : list (list string)).
Context (Hkeys : Forall key_ok keys).
Context (Hw : match w with Some e => data_expr e | None => true end = true).

Lemma key_star_free : Forall (fun r => star_of r = None) (map key_target keys).
Proof.
  apply Forall_map. eapply Forall_impl; [exact Hkeys|]. intros k (c & Hc & _ & Hs).
  unfold star_of. simpl. rewrite Hc, bool_decide_eq_false_2; congruence.
Qed.

Lemma key_data : Forall (fun e => data_expr e = true) (map val (map inner_key keys)).
Proof.
  rewrite map_map. apply Forall_map. eapply Forall_impl; [exact Hkeys|]. intros k (c & Hc & Hd & _). simpl. by rewrite Hc.
Qed.

Lemma world_answer (th : world) (f : fn) (ks : list fn) :
  select_where ops (inner_select from0 w keys its.*1) sc = Some f ->
  functions ops its (map inner_key keys) ks ->
  exists u, eval_over ops (base_query from0 w keys) (map (item_world th) its) = Some u /\
    forall key, key ∈ rows u <->
      exists parts, parts ∈ cross (map item_rows its) /\ all_hold (part_holds th) its parts = true /\
        is_true (f (concat parts)) = true /\ project ks (concat parts) = key.
Proof.
  intros Hf Hks. destruct (data_functions _ ks key_data Hks) as (gs & Hgs & Hproj).
  rewrite (eval_over_plain ops (base_query from0 w keys) _ (map data_scope its)); [|done..| |by apply (scope_world catalog its Hok Hq)].
  2: { apply Forall_map, Forall_forall. done. }
  assert (Hguard : guarded ops its (base_query from0 w keys) (inner_select from0 w keys its.*1)).
  { apply guarded_where. right. apply (ic_where _ _ _ _ _ (inner_select_clauses _ _ _ _)). }
  destruct (guarded_agree catalog ops its Hok Hq th (base_query from0 w keys) _ f [] Hw Hguard Hf) as (g & Hg & _).
  rewrite Hg. cbn [mbind option_bind].
  assert (Htl : exists tl, map_option (eval_target ops (map data_scope its)) (targetList (base_query from0 w keys)) = Some tl /\
            (concat tl).*2 = gs).
  { change (targetList (base_query from0 w keys)) with (map key_target keys).
    assert (He : map val (map inner_key keys) = map val (map key_target keys)) by by rewrite !map_map.
    rewrite He in Hgs. pose proof key_star_free as Hs. clear -Hgs Hs. revert gs Hgs.
    induction Hs as [|r tl Hr _ IH]; intros gs; simpl; [intros [= <-]; by exists []|].
    intros (g & Hg & (gs' & Hgs & [= <-])%bind_Some)%bind_Some. destruct (IH gs' Hgs) as (tl' & Htl & <-).
    rewrite eval_target_plain, Hg, Htl by done. by eexists. }
  destruct Htl as (tl & -> & Hgs'). cbn [mbind option_bind]. eexists. split; [done|]. intros key. cbn [rows].
  rewrite list_elem_of_fmap, Hgs'. unfold filtered. rewrite world_rows.
  assert (Hgf : forall parts, Forall2 part_of its parts -> all_hold (part_holds th) its parts = true ->
            is_true (f (concat parts)) = is_true (g (concat (zip_with data_part its parts)))).
  { intros parts Hp Hall. destruct (guarded_agree catalog ops its Hok Hq th (base_query from0 w keys) _ f parts Hw Hguard Hf)
      as (g' & Hg' & H). rewrite Hg in Hg'. injection Hg' as <-. by apply H. }
  split.
  - intros (r & -> & [Hr (parts & -> & [Hall Hin]%list_elem_of_filter)%list_elem_of_fmap]%list_elem_of_filter).
    pose proof (joined_parts catalog its Hok Hq parts Hin) as Hp. exists parts. rewrite (Hgf parts Hp Hall). split_and!; [done..|by apply Hproj].
  - intros (parts & Hin & Hall & Ht & <-). pose proof (joined_parts catalog its Hok Hq parts Hin) as Hp.
    exists (concat (zip_with data_part its parts)). split; [by apply Hproj|]. apply list_elem_of_filter.
    split; [by rewrite <- Hgf|]. apply list_elem_of_fmap. exists parts. split; [done|]. by apply list_elem_of_filter.
Qed.
End Rows.

(** ** The outer select *)

Lemma condition_names_seq (rels : list rel_info) (nm : string) :
  map target_name (put_args_to_conf_general rels nm) = map (catStrInt nm) (seq 0 (calculate_total_triples rels)).
Proof.
  unfold put_args_to_conf_general, numbered_triples. rewrite <- length_triples, map_map.
  generalize (r ← rels; j ← seq 0 (ri_triples r); [(r, j)]). intros L.
  assert (H : forall k, map (fun x => target_name (condition_target nm x)) (imap (fun i x => (k + i, x)) L) =
    map (catStrInt nm) (seq k (length L))); [|apply (H 0)].
  induction L as [|x L IH]; intros k; [done|]. rewrite imap_cons. cbn [map length seq]. rewrite Nat.add_0_r. f_equal.
  rewrite <- (IH (S k)). f_equal. apply imap_ext. intros i y _. simpl. f_equal. lia.
Qed.

(** A row of the inner select: [n] key columns, then [c] variables, values and
    probabilities; the arguments of the aggregate. *)
Definition row_args (n c : nat) (r : row) : list value :=
  concat (map (fun i => [nth_value (n + i) r; nth_value (n + c + i) r; nth_value (n + c + c + i) r]) (seq 0 c)).

Lemma args_hold_triples (th : world) (a b p : nat -> value) (l : list nat) :
  args_hold th (concat (map (fun i => [a i; b i; p i]) l)) = forallb (fun i => pair_holds th (a i) (b i)) l.
Proof. induction l as [|i l IH]; [done|]. simpl. by rewrite IH. Qed.

Lemma pairs_hold_seq (th : world) (vs ds : list value) :
  length vs = length ds ->
  pairs_hold th vs ds = forallb (fun i => pair_holds th (nth_value i vs) (nth_value i ds)) (seq 0 (length vs)).
Proof.
  unfold pairs_hold, nth_value. revert ds. induction vs as [|v vs IH]; intros [|d ds] Hl; try done. simpl in Hl.
  cbn [zip_with forallb length seq]. cbn [lookup list_lookup default]. f_equal. rewrite IH by lia.
  rewrite <- seq_shift. generalize (seq 0 (length vs)). induction l as [|i l IHl]; [done|]. simpl. by rewrite IHl.
Qed.

Lemma nth_value_app_r (l r : row) (i : nat) : nth_value (length l + i) (l ++ r) = nth_value i r.
Proof. unfold nth_value. rewrite lookup_app_r by lia. by rewrite Nat.add_comm, Nat.add_sub. Qed.

Lemma nth_value_app_l (l r : row) (i : nat) : i < length l -> nth_value i (l ++ r) = nth_value i l.
Proof. intros Hi. unfold nth_value. by rewrite lookup_app_l. Qed.

Lemma row_args_hold (th : world) (ks vs ds ps : list value) (n c : nat) :
  length ks = n -> length vs = c -> length ds = c ->
  args_hold th (row_args n c (ks ++ vs ++ ds ++ ps)) = pairs_hold th vs ds.
Proof.
  intros <- <- Hd. unfold row_args. rewrite args_hold_triples, pairs_hold_seq by done.
  apply forallb_ext_in. intros i Hi%in_seq. rewrite <- Nat.add_assoc, !nth_value_app_r.
  rewrite (nth_value_app_l vs), (nth_value_app_l ds) by lia. done.
Qed.

Lemma project_seq (n : nat) (r : row) : n <= length r -> map (fun i => nth_value i r) (seq 0 n) = take n r.
Proof.
  revert r. induction n as [|n IH]; intros [|v r] Hl; simpl in Hl; try done; try lia.
  cbn [seq map take]. unfold nth_value at 1. cbn [lookup list_lookup default]. f_equal.
  rewrite <- seq_shift, map_map. rewrite <- IH by lia. by apply map_ext.
Qed.

Section Outer.
Context (ops : sql_ops) (keys : list (list string)) (rels : list rel_info).
Context (Hkeys : Forall key_ok keys) (Hne : keys <> []).
Context (ti : table) (Hcols : columns ti = map target_name (inner_targets keys rels)).
#[local] Set Default Proof Using "All".
Let n := length keys.
Let c := calculate_total_triples rels.
Let ps := paths [(["temp"], columns ti)].

Lemma outer_columns :
  columns ti = map key_col keys ++ map (catStrInt VARNAME) (seq 0 c) ++ map (catStrInt DOMAINNAME) (seq 0 c) ++
    map (catStrInt PROBNAME) (seq 0 c).
Proof.
  rewrite Hcols. unfold inner_targets. rewrite !map_app, !condition_names_seq, map_map. f_equal.
  apply map_ext_in. intros k Hk%list_elem_of_In. apply inner_key_name. rewrite Forall_forall in Hkeys. by apply Hkeys.
Qed.

Lemma resolve_column (col : string) (i j : nat) :
  resolve ps [col] = Some i -> columns ti !! j = Some col -> i = j.
Proof.
  intros Hi Hj. apply (resolve_unique ps [col] ["temp"; col] i j Hi); [|by exists ["temp"]].
  unfold ps. rewrite paths_cons. simpl. rewrite app_nil_r. change (@map string) with (@fmap list _ string).
  by rewrite list_lookup_fmap, Hj.
Qed.

Lemma key_position (i : nat) (k : list string) : keys !! i = Some k -> columns ti !! i = Some (key_col k).
Proof.
  intros Hk. rewrite outer_columns, lookup_app_l by (rewrite length_map; by apply lookup_lt_Some in Hk).
  by rewrite lookup_map, Hk.
Qed.

Lemma condition_position (i : nat) :
  i < c -> columns ti !! (n + i) = Some (catStrInt VARNAME i) /\
    columns ti !! (n + c + i) = Some (catStrInt DOMAINNAME i) /\
    columns ti !! (n + c + c + i) = Some (catStrInt PROBNAME i).
Proof.
  intros Hi. rewrite outer_columns.
  assert (Hl : forall s, length (map (catStrInt s) (seq 0 c)) = c) by (intros; by rewrite length_map, length_seq).
  assert (Hs : forall s, map (catStrInt s) (seq 0 c) !! i = Some (catStrInt s i)).
  { intros s. rewrite lookup_map, lookup_seq_lt by done. done. }
  assert (Hk : length (map key_col keys) = n) by by rewrite length_map.
  split_and!.
  - rewrite lookup_app_r, Hk by lia. rewrite Nat.add_comm, Nat.add_sub, lookup_app_l by (rewrite Hl; lia). apply Hs.
  - rewrite lookup_app_r, Hk by lia. rewrite lookup_app_r, Hl by (rewrite Hl; lia).
    replace (n + c + i - n - c) with i by lia. rewrite lookup_app_l by (rewrite Hl; lia). apply Hs.
  - rewrite lookup_app_r, Hk by lia. rewrite lookup_app_r, Hl by (rewrite Hl; lia).
    rewrite lookup_app_r, Hl by (rewrite Hl; lia). replace (n + c + c + i - n - c - c) with i by lia. apply Hs.
Qed.

Lemma outer_keys (fs : list fn) :
  map_option (eval_expr ops ps) (map (fun k => ColumnRef [key_col k]) keys) = Some fs ->
  fs = map nth_value (seq 0 n).
Proof.
  intros Hfs%map_option_Forall2. apply Forall2_fmap_l in Hfs. apply list_eq_Forall2.
  apply Forall2_same_length_lookup. rewrite length_map, length_seq, <- (Forall2_length _ _ _ Hfs). split; [done|].
  intros i f g Hf Hg. destruct (Forall2_lookup_r _ _ _ _ _ Hfs Hf) as (k & Hk & Hev). cbn [eval_expr] in Hev.
  apply fmap_Some in Hev as (j & Hj & ->). rewrite (resolve_column _ _ _ Hj (key_position i k Hk)).
  rewrite lookup_map in Hg. apply fmap_Some in Hg as (i' & Hi' & ->). apply lookup_seq in Hi' as [-> _]. done.
Qed.

Lemma outer_args (fs : list fn) :
  map_option (eval_expr ops ps) (put_args_general c []) = Some fs ->
  fs = concat (map (fun i => [nth_value (n + i); nth_value (n + c + i); nth_value (n + c + c + i)]) (seq 0 c)).
Proof.
  unfold put_args_general. simpl. assert (Hsub : Forall (fun i => i < c) (seq 0 c)).
  { apply Forall_forall. intros i Hi%elem_of_seq. lia. }
  revert fs. induction Hsub as [|i l Hi _ IH]; intros fs; [by intros [= <-]|].
  rewrite bind_cons. intros (f1 & f2 & H1 & H2 & ->)%map_option_app. cbn [map concat]. rewrite (IH _ H2). f_equal.
  destruct (condition_position i Hi) as (Hv & Hd & Hp). unfold column in H1. cbn [map_option eval_expr] in H1.
  apply bind_Some in H1 as (x & (jv & Ev & ->)%fmap_Some & (l1 & (y & (jd & Ed & ->)%fmap_Some & (l2 & (z & (jp & Ep & ->)%fmap_Some & [= <-])%bind_Some & [= <-])%bind_Some)%bind_Some & [= <-])%bind_Some).
  by rewrite (resolve_column _ _ _ Ev Hv), (resolve_column _ _ _ Ed Hd), (resolve_column _ _ _ Ep Hp).
Qed.

(** The value of a group's target in the first row. *)
Definition first_value (i : nat) (g : list row) : value :=
  match g with r :: _ => nth_value i r | [] => VNull end.

Lemma outer_key_targets (tl : list (string * (list row -> value))) (g : list row) :
  map_option (group_target ops ps) (map outer_key keys) = Some tl ->
  map (fun f : list row -> value => f g) tl.*2 = map (fun i => first_value i g) (seq 0 n).
Proof.
  intros Htl%map_option_Forall2. apply Forall2_fmap_l in Htl. apply list_eq_Forall2, Forall2_same_length_lookup.
  rewrite !length_map, length_seq, <- (Forall2_length _ _ _ Htl). split; [done|]. intros i v v' Hv Hv'.
  rewrite lookup_map in Hv. rewrite lookup_map in Hv'.
  apply fmap_Some in Hv' as (i' & [-> _]%lookup_seq & ->). cbn [Nat.add].
  apply fmap_Some in Hv as (f & Hf & ->). apply list_lookup_fmap_Some in Hf as ([nm f'] & -> & Hf). cbn [snd].
  destruct (Forall2_lookup_r _ _ _ _ _ Htl Hf) as (k & Hk & Hev).
  unfold group_target, outer_key in Hev. cbn [val eval_group] in Hev.
  apply bind_Some in Hev as (f0 & (j & Hj & [= <-])%bind_Some & [= _ <-]).
  by rewrite (resolve_column _ _ _ Hj (key_position i k Hk)).
Qed.

Context (agg : list (list value) -> value) (Hagg : aggregate ops CONF = Some agg).

Lemma outer_call (nm : option string) (a : nat) (f : list row -> value) (g : list row) :
  eval_group ops ps (conf_call a (put_args_general c []) false) = Some f -> f g = agg (map (row_args n c) g).
Proof.
  unfold conf_call. cbn [eval_group]. rewrite Hagg. intros (fs & Hfs & [= <-])%bind_Some.
  apply f_equal, map_ext. intros r. rewrite (outer_args fs Hfs). unfold row_args.
  rewrite concat_map, map_map. done.
Qed.

Lemma first_values (g : list row) (r : row) :
  n <= length r -> map (fun i => first_value i (r :: g)) (seq 0 n) = take n r.
Proof. intros Hl. rewrite <- project_seq by done. done. Qed.

Lemma filter_all {A} (l : list A) : filter (fun _ => true = true) l = l.
Proof. clear. induction l as [|x l IH]; [done|]. by rewrite filter_cons_True, IH. Qed.

Lemma filtered_single (t : table) : filtered (fun _ => VBool true) [t] = rows t.
Proof.
  unfold filtered. cbn [is_true map product]. rewrite filter_all. clear. induction (rows t) as [|r l IH]; [done|].
  rewrite bind_cons, IH. cbn. by rewrite app_nil_r.
Qed.

(** The rows of a group start with its key. *)
Lemma group_row (nm : option string) (a : nat) (tl : list (string * (list row -> value))) (k : list value) :
  map_option (group_target ops ps) (outer_targets keys nm a rels) = Some tl ->
  Forall (fun r => n <= length r) (rows ti) -> k ∈ map (take n) (rows ti) ->
  map (fun f : list row -> value => f (filter (fun r => take n r = k) (rows ti))) tl.*2 =
  k ++ [agg (map (row_args n c) (filter (fun r => take n r = k) (rows ti)))].
Proof.
  intros (tk & tc & Htk & Htc & ->)%map_option_app Hl Hk. rewrite fmap_app, map_app, (outer_key_targets tk) by done.
  cbn [map_option] in Htc. apply bind_Some in Htc as (x & (f & Hf & [= <-])%bind_Some & [= <-]).
  cbn [map fmap list_fmap snd]. rewrite (outer_call nm a f) by done. f_equal.
  destruct (filter _ (rows ti)) as [|r g] eqn:Hg.
  - apply list_elem_of_fmap in Hk as (r & -> & Hr). exfalso.
    assert (H : r ∈ filter (fun r' => take n r' = take n r) (rows ti)) by by apply list_elem_of_filter.
    rewrite Hg in H. by apply not_elem_of_nil in H.
  - assert (Hr : r ∈ filter (fun r => take n r = k) (rows ti)) by (rewrite Hg; by left).
    apply list_elem_of_filter in Hr as [<- Hr]. rewrite Forall_forall in Hl. apply first_values. by apply Hl.
Qed.

Lemma filter_key_ext (f g : row -> list value) (k : list value) (l : list row) :
  Forall (fun r => f r = g r) l -> filter (fun r => f r = k) l = filter (fun r => g r = k) l.
Proof. clear. induction 1 as [|r l Hr _ IH]; [done|]. by rewrite !filter_cons, Hr, IH. Qed.

Lemma groups_take :
  Forall (fun r => n <= length r) (rows ti) ->
  groups_by (project (map nth_value (seq 0 n))) (rows ti) =
  map (fun k => filter (fun r => take n r = k) (rows ti)) (remove_dups (map (take n) (rows ti))).
Proof.
  intros Hl. assert (He : Forall (fun r => project (map nth_value (seq 0 n)) r = take n r) (rows ti)).
  { eapply Forall_impl; [exact Hl|]. intros r Hr. unfold project. rewrite map_map. by apply project_seq. }
  unfold groups_by. replace (map (project (map nth_value (seq 0 n))) (rows ti)) with (map (take n) (rows ti)).
  - apply map_ext. intros k. by apply filter_key_ext.
  - symmetry. clear -He. induction He as [|r l Hr _ IH]; [done|]. cbn [map]. by rewrite Hr, IH.
Qed.

Context (from : list node) (w : option node) (nm : option string) (a : nat).

Lemma outer_eval (t : table) :
  Forall (fun r => n <= length r) (rows ti) ->
  eval_over ops (conf_rewritten from w keys nm a rels) [(["temp"], ti)] = Some t ->
  rows t = map (fun k => k ++ [agg (map (row_args n c) (filter (fun r => take n r = k) (rows ti)))])
    (remove_dups (map (take n) (rows ti))).
Proof.
  intros Hl. unfold eval_over.
  change (map (fun '(q, t0) => (q, columns t0)) [(["temp"], ti)]) with [(["temp"], columns ti)]. fold ps.
  change (select_where ops (conf_rewritten from w keys nm a rels) [(["temp"], columns ti)]) with
    (Some (fun _ : row => VBool true)). cbn [mbind option_bind].
  change ([(["temp"], ti)].*2) with [ti]. rewrite filtered_single.
  assert (Hg : grouped ops (conf_rewritten from w keys nm a rels) = true).
  { unfold grouped. change (groupClause _) with (map (fun k => ColumnRef [key_col k]) keys). by destruct keys. }
  rewrite Hg. change (sortClause (conf_rewritten from w keys nm a rels)) with (@nil node).
  change (groupClause (conf_rewritten from w keys nm a rels)) with (map (fun k => ColumnRef [key_col k]) keys).
  change (targetList (conf_rewritten from w keys nm a rels)) with (outer_targets keys nm a rels).
  cbv iota. intros (fs & Hfs & (tl & Htl & (out & Hout & [= <-])%bind_Some)%bind_Some)%bind_Some.
  change (distinct_rows _ ?l) with (Some l) in Hout. injection Hout as <-. cbn [rows].
  apply outer_keys in Hfs. rewrite Hfs.
  assert (Hcons : map nth_value (seq 0 n) <> []) by (intros H%map_eq_nil%(f_equal length); rewrite length_seq in H; unfold n in H; by destruct keys).
  replace (match map nth_value (seq 0 n) with [] => [rows ti] | _ => groups_by (project (map nth_value (seq 0 n))) (rows ti) end)
    with (groups_by (project (map nth_value (seq 0 n))) (rows ti)) by by destruct (map nth_value (seq 0 n)).
  rewrite groups_take, map_map by done. apply map_ext_in. intros k Hk%list_elem_of_In.
  rewrite elem_of_remove_dups in Hk. by apply (group_row nm a).
Qed.
End Outer.

(** ** The answer *)

(** The lineage of a key: the arguments of its rows. *)
Definition answer_lineage (n c : nat) (rs : list row) : list (row * list (list value)) :=
  map (fun k => (k, map (row_args n c) (filter (fun r => take n r = k) rs))) (remove_dups (map (take n) rs)).

(** A table whose rows are keys with an aggregate of their lineages. *)
Definition aggregates (agg : list (list value) -> value) (t : table) (lineage : list (row * list (list value))) : Prop :=
  rows t = map (fun kl => kl.1 ++ [agg kl.2]) lineage /\ NoDup lineage.*1.

(** The lineages say in which worlds a key is in an answer. *)
Definition lineage_of (answer : world -> option table) (lineage : list (row * list (list value))) : Prop :=
  forall th, exists u, answer th = Some u /\
    (forall key, key ∈ rows u -> key ∈ lineage.*1) /\
    forall key args, (key, args) ∈ lineage -> (existsb (args_hold th) args = true <-> key ∈ rows u).

Lemma lineage_keys (n c : nat) (rs : list row) : (answer_lineage n c rs).*1 = remove_dups (map (take n) rs).
Proof. unfold answer_lineage. rewrite <- list_fmap_compose. apply list_fmap_id. Qed.

Lemma elem_of_lineage (n c : nat) (rs : list row) (key : row) (args : list (list value)) (th : world) :
  (key, args) ∈ answer_lineage n c rs ->
  existsb (args_hold th) args = true <->
  exists r, r ∈ rs /\ take n r = key /\ args_hold th (row_args n c r) = true.
Proof.
  intros (k & [= -> ->] & _)%list_elem_of_fmap. rewrite existsb_exists. split.
  - intros (a & Ha%list_elem_of_In & Hold). apply list_elem_of_fmap in Ha as (r & -> & [Hk Hr]%list_elem_of_filter).
    by exists r.
  - intros (r & Hr & Hk & Hold). exists (row_args n c r). split; [|done]. apply list_elem_of_In, list_elem_of_fmap.
    exists r. split; [done|]. by apply list_elem_of_filter.
Qed.

Section Answer.
Context (catalog : RangeVar -> option Relation) (ops : sql_ops) (its : list item).
Context (Hsort : forall ks l, sort_rows ops ks l ≡ₚ l).
Context (Hok : Forall (item_ok catalog) its) (Hq : distinct_qualifiers its).
Context (from0 : list node) (w : option node) (keys : list (list string)).
Context (Hkeys : Forall key_ok keys) (Hne : keys <> []).
Context (Hw : match w with Some e => data_expr e | None => true end = true).
Let n := length keys.
Let c := calculate_total_triples its.*1.

Lemma length_functions (l : list target) (fs : list fn) (r : row) :
  functions ops its l fs -> length (project fs r) = length l.
Proof.
  intros Hf%map_option_Forall2%Forall2_length. unfold project. rewrite length_map, <- Hf. apply length_map.
Qed.

Lemma length_conditions (nm : string) : length (put_args_to_conf_general its.*1 nm) = c.
Proof.
  pose proof (f_equal length (condition_names_seq its.*1 nm)) as H. by rewrite !length_map, length_seq in H.
Qed.

Lemma inner_rows (ti : table) :
  eval_over ops (inner_select from0 w keys its.*1) (map item_table its) = Some ti ->
  exists f x, select_where ops (inner_select from0 w keys its.*1) (map item_scope its) = Some f /\
    functions ops its (map inner_key keys) (ir_keys x) /\
    columns ti = map target_name (inner_targets keys its.*1) /\
    (forall r, r ∈ rows ti <-> exists parts, parts ∈ cross (map item_rows its) /\
       is_true (f (concat parts)) = true /\ r = inner_values x (concat parts)) /\
    (forall r, take n (inner_values x r) = project (ir_keys x) r /\ n <= length (inner_values x r)) /\
    forall th parts, parts ∈ cross (map item_rows its) ->
      args_hold th (row_args n c (inner_values x (concat parts))) = all_hold (part_holds th) its parts.
Proof.
  intros (f & x & l & Hf & H1 & H2 & H3 & H4 & Hc & Hr & ks & Hl)%inner_eval; [|done..].
  exists f, x. split_and!; [done..| | |].
  - intros r. rewrite Hr, list_elem_of_fmap, Hl. setoid_rewrite (Hsort ks _).
    setoid_rewrite (elem_of_joined catalog its Hok Hq). naive_solver.
  - intros r. pose proof (length_functions _ _ r H1) as Hlen. rewrite length_map in Hlen.
    unfold inner_values. rewrite take_app_length' by done. split; [done|]. rewrite length_app, Hlen. unfold n. lia.
  - intros th parts Hin. unfold inner_values. rewrite row_args_hold.
    + apply (pairs_hold_parts catalog ops its Hok Hq th parts); [by apply (joined_parts catalog its Hok Hq)|done..].
    + rewrite (length_functions _ _ _ H1). apply length_map.
    + rewrite (length_functions _ _ _ H2). apply length_conditions.
    + rewrite (length_functions _ _ _ H3). apply length_conditions.
Qed.

Lemma answer_of_items (agg : list (list value) -> value) (from : list node) (nm : option string) (a : nat) (ti t : table) :
  aggregate ops CONF = Some agg ->
  eval_over ops (inner_select from0 w keys its.*1) (map item_table its) = Some ti ->
  eval_over ops (conf_rewritten from w keys nm a its.*1) [(["temp"], ti)] = Some t ->
  exists lineage, aggregates agg t lineage /\
    lineage_of (fun th => eval_over ops (base_query from0 w keys) (map (item_world th) its)) lineage.
Proof.
  intros Hagg Hti Ht. destruct (inner_rows ti Hti) as (f & x & Hf & Hks & Hcols & Hrows & Hkey & Hargs).
  assert (Hlen : Forall (fun r => n <= length r) (rows ti)).
  { apply Forall_forall. intros r (parts & _ & _ & ->)%Hrows. apply Hkey. }
  exists (answer_lineage n c (rows ti)). split; [split|].
  - rewrite (outer_eval ops keys its.*1 Hkeys Hne ti Hcols agg Hagg from w nm a t Hlen Ht).
    unfold answer_lineage. by rewrite map_map.
  - rewrite lineage_keys. apply NoDup_remove_dups.
  - intros th. destruct (world_answer catalog ops its Hok Hq from0 w keys Hkeys Hw th f (ir_keys x) Hf Hks) as (u & Hu & Hans).
    exists u. split; [done|]. split.
    + intros key (parts & Hin & _ & Htrue & <-)%Hans. rewrite lineage_keys, elem_of_remove_dups, list_elem_of_fmap.
      exists (inner_values x (concat parts)). split; [by rewrite (proj1 (Hkey _))|]. apply Hrows. by exists parts.
    + intros key args Hin. rewrite (elem_of_lineage _ _ _ _ _ th Hin), Hans. split.
      * intros (r & (parts & Hp & Htrue & ->)%Hrows & <- & Hold). exists parts.
        rewrite <- (Hargs th parts Hp). by rewrite (proj1 (Hkey _)).
      * intros (parts & Hp & Hold & Htrue & <-). exists (inner_values x (concat parts)).
        rewrite (proj1 (Hkey _)), (Hargs th parts Hp). split_and!; [|done..]. apply Hrows. by exists parts.
Qed.
End Answer.

(** ** The rewritten query *)

Section Query.
Context (catalog : RangeVar -> option Relation) (ops : sql_ops) (db : RangeVar -> option table).
Context (Hdb : database_ok catalog db) (Hsort : forall ks l, sort_rows ops ks l ≡ₚ l).
Context (from : list node) (w : option node) (keys : list (list string)).
Context (Hplain : plain ops (base_query from w keys)) (Hkeys : Forall key_ok keys).

Lemma base_parts : plain_parts ops (base_query from w keys) /\ qualifiers_ok from /\ Forall (plain_from ops) from.
Proof using Hplain. split; [by apply plain_select_parts|]. by inversion Hplain. Qed.

Lemma base_where : match w with Some e => data_expr e | None => true end = true.
Proof using Hplain. apply (pp_where _ _ (proj1 base_parts)). Qed.

Lemma eval_base (db' : RangeVar -> option table) :
  eval_select ops db' (base_query from w keys) =
  (ts ← map_option (eval_from ops db') from; eval_over ops (base_query from w keys) ts).
Proof using Hplain. unfold eval_select. by rewrite (pp_fragment _ _ (proj1 base_parts)). Qed.

Lemma eval_conf (fuel : nat) (from' : list node) (rels : list rel_info) (nm : option string) (a : nat) :
  map_outcome (rewrite_from (process_select catalog fuel)) from = Ok from' ->
  eval_select ops db (conf_rewritten from' w keys nm a rels) =
  (ts ← map_option (eval_from ops db) from'; ti ← eval_over ops (inner_select from' w keys rels) ts;
   eval_over ops (conf_rewritten from' w keys nm a rels) [(["temp"], ti)]).
Proof using Hplain.
  intros Hf. unfold eval_select. change (in_fragment (conf_rewritten from' w keys nm a rels)) with true. cbv iota.
  change (fromClause (conf_rewritten from' w keys nm a rels)) with
    [makeRangeSubselect "temp" (inner_select from' w keys rels)].
  cbn [map_option makeRangeSubselect eval_from]. rewrite (ic_fragment _ _ _ _ _ (inner_select_clauses _ _ _ _)), (ic_from _ _ _ _ _ (inner_select_clauses _ _ _ _)).
  rewrite map_option_copies.
  - destruct (map_option _ from') as [ts|]; [|done]. cbn [mbind option_bind].
    by destruct (eval_over ops (inner_select from' w keys rels) ts).
  - apply (rewritten_from_copies ops db (process_select catalog fuel) from);
      [intros s s'; apply process_copies|apply base_parts|done].
Qed.

(** The answer of the rewritten query. *)
Lemma conf_represents (fuel : nat) (from' : list node) (rels : list rel_info) (nm : option string) (a : nat)
    (agg : list (list value) -> value) (t : table) :
  map_outcome (rewrite_from (process_select catalog fuel)) from = Ok from' -> relations catalog from' = Ok rels ->
  aggregate ops CONF = Some agg -> eval_select ops db (conf_rewritten from' w keys nm a rels) = Some t ->
  exists lineage, aggregates agg t lineage /\
    lineage_of (fun th => eval_select ops (world_db catalog db th) (base_query from w keys)) lineage.
Proof.
  intros Hf Hrels Hagg Ht. rewrite (eval_conf fuel) in Ht by done.
  apply bind_Some in Ht as (ts & Hts & (ti & Hti & Ht)%bind_Some). destruct base_parts as (Hp & Hq & Hfrom).
  destruct (items_of catalog ops db Hdb (process_select catalog fuel) from from' rels ts) as (its & <- & <- & Hits); [|done..|].
  { intros s s'. by apply process_represents. }
  assert (Hok : Forall (item_ok catalog) its).
  { apply Forall_forall. intros it (i & Hi)%list_elem_of_lookup.
    destruct (Forall2_lookup_r _ _ _ _ _ Hits Hi) as (n & _ & Hr). apply (ir_ok _ _ _ _ _ Hr). }
  destruct (answer_of_items catalog ops its Hsort Hok (items_qualifiers catalog ops db Hdb from its Hits Hq) from' w keys Hkeys
    (keys_nonempty ops from w keys Hplain) base_where agg from' nm a ti t Hagg Hti Ht) as (lineage & Hagg' & Hlin).
  exists lineage. split; [done|]. intros th. destruct (Hlin th) as (u & Hu & H). exists u. split; [|done].
  rewrite eval_base, (items_world catalog ops db Hdb from its th Hits). done.
Qed.
End Query.
