(* ===== verification/ConfValue.v ===== *)
(** * ConfValue: confidence queries compute probabilities

    An answer of the query without [conf] in some world gives one of the rewritten
    confidence query, since every name of the inner and of the outer select resolves.
    With the aggregate of [Group], the value of a key is the probability, under the world
    table, that the key is in the answer. *)
From Stdlib Require Import Strings.String Strings.Ascii.
From stdpp Require Import strings.
From S2P Require Import Prelude.
From S2P Require Import Worlds.
From S2P Require Import LocalCond.
From S2P Require Import HashTable.
From S2P Require Import WsTreeCorrect.
From S2P Require Import Store.
From S2P Require Import Group.
From S2P Require Import ParseTree.
From S2P Require Import RewriteUtils.
From S2P Require Import RepairKey.
From S2P Require Import Rewrite.
From S2P Require Import Sql.
From S2P Require Import SqlFacts.
From S2P Require Import ScopeFacts.
From S2P Require Import TargetFacts.
From S2P Require Import RewriteCorrect.
From S2P Require Import RewriteDefined.
From S2P Require Import ConfQuery.
From S2P Require Import ConfAnswer.
#[local] Set Default Proof Using "Type*".

Open Scope string_scope.
Open Scope list_scope.
Open Scope nat_scope.

(** The names of the keys in the subquery. *)
Definition key_names_ok (keys : list (list string)) : Prop :=
  NoDup (map key_col keys) /\ Forall (fun k => is_data (key_col k) = true) keys.

Lemma resolve_single (q cs : list string) (c : string) :
  NoDup cs -> c ∈ cs -> is_Some (resolve (paths [(q, cs)]) [c]).
Proof.
  intros Hnd Hc. apply resolve_is_Some. rewrite paths_cons. simpl. rewrite app_nil_r.
  induction Hnd as [|c' cs Hc' _ IH]; [by apply not_elem_of_nil in Hc|].
  cbn [map]. rewrite filter_cons. apply elem_of_cons in Hc as [->|Hc].
  - rewrite decide_True by by exists q. cbn [length]. f_equal. clear IH.
    destruct (filter _ _) as [|p l] eqn:Hf; [done|]. exfalso. assert (Hp : p ∈ p :: l) by by left.
    rewrite <- Hf in Hp. apply list_elem_of_filter in Hp as [Hs (c & -> & Hc)%list_elem_of_fmap].
    by apply (suffix_snoc_iff []) in Hs as [_ ->].
  - rewrite decide_False; [by apply IH|]. intros [_ ->]%(suffix_snoc_iff []). done.
Qed.

(** ** The inner select *)

Section Inner.
Context (catalog : RangeVar -> option Relation) (ops : sql_ops) (its : list item).
Context (Hok : Forall (item_ok catalog) its) (Hq : distinct_qualifiers its) (Hdef : Forall item_defined its).
Context (from0 : list node) (w : option node) (keys : list (list string)).
Context (Hkeys : Forall key_ok keys).
Context (Hw : match w with Some e => data_expr e | None => true end = true).

Lemma key_defined (k : list string) :
  key_ok k -> is_Some (resolve (paths (map data_scope its)) k) -> is_Some (resolve (paths (map item_scope its)) k).
Proof.
  intros (c & Hc & Hd & _) [j Hj]. pose proof (resolve_keep (paths (map item_scope its)) k c Hc Hd) as H.
  rewrite paths_data, Hj in H. by destruct (resolve (paths (map item_scope its)) k).
Qed.

Lemma keys_resolve (gss : list (list (string * fn))) :
  map_option (eval_target ops (map data_scope its)) (map key_target keys) = Some gss ->
  Forall (fun k => is_Some (resolve (paths (map item_scope its)) k)) keys.
Proof.
  intros Hgss%map_option_members. rewrite Forall_map in Hgss. pose proof Hkeys as Hk.
  eapply Forall_impl; [exact (proj2 (Forall_and _ _) (conj Hk Hgss))|].
  intros k [Hok' [gs Hgs]]. apply key_defined; [done|]. destruct Hok' as (c & Hc & _ & Hs).
  rewrite eval_target_plain in Hgs by (unfold star_of; simpl; rewrite Hc, bool_decide_eq_false_2; congruence).
  apply bind_Some in Hgs as (f & Hf & _). cbn [key_target val eval_expr] in Hf.
  by apply fmap_Some in Hf as (j & -> & _).
Qed.

Lemma condition_defined (nm : string) (t : nat * (rel_info * nat)) :
  t ∈ numbered_triples its.*1 -> nm ∈ [VARNAME; DOMAINNAME; PROBNAME] ->
  is_Some (eval_target ops (map item_scope its) (condition_target nm t)).
Proof.
  intros Ht%elem_of_numbered%list_elem_of_lookup_2 Hnm.
  apply list_elem_of_bind in Ht as (ri & (j & Hj & Hlt%elem_of_seq)%list_elem_of_bind & Hri).
  apply list_elem_of_singleton in Hj. apply list_elem_of_fmap in Hri as (it & -> & Hit).
  rewrite eval_target_plain by by apply condition_star.
  destruct (condition_column_defined ops its Hq Hdef it nm j Hit ltac:(lia) Hnm) as [f Hf].
  unfold condition_target. rewrite Hj. cbn [fst snd val]. change (condition_column (ri_fields it.1) nm j)
    with (makeColumnRef nm j (ri_fields it.1)). rewrite Hf. by eexists.
Qed.

Lemma inner_defined (th : world) (u : table) :
  eval_over ops (base_query from0 w keys) (map (item_world th) its) = Some u ->
  is_Some (eval_over ops (inner_select from0 w keys its.*1) (map item_table its)).
Proof.
  rewrite (eval_over_plain ops (base_query from0 w keys) _ (map data_scope its));
    [|done..|by apply Forall_map, Forall_forall|by apply (scope_world catalog its Hok Hq)].
  intros (f & Hf & (gss & Hgss & _)%bind_Some)%bind_Some. apply keys_resolve in Hgss as Hres.
  unfold eval_over. rewrite inner_ungrouped.
  rewrite (scope_tables catalog its Hok Hq).
  destruct (where_defined catalog ops its Hok Hq Hdef (base_query from0 w keys) (inner_select from0 w keys its.*1) f Hw)
    as [f' ->]; [|done|].
  { right. apply (ic_where _ _ _ _ _ (inner_select_clauses _ _ _ _)). }
  cbn [mbind option_bind].
  pose proof (inner_select_clauses from0 w keys its.*1) as Hic.
  rewrite (ic_sort _ _ _ _ _ Hic). destruct (map_option_defined (eval_expr ops (paths (map item_scope its))) (map ColumnRef keys)) as [ks ->].
  { apply Forall_map. eapply Forall_impl; [exact Hres|]. intros k [i Hi]. simpl. rewrite Hi. by eexists. }
  cbn [mbind option_bind]. change (targetList (inner_select from0 w keys its.*1)) with (inner_targets keys its.*1).
  destruct (map_option_defined (eval_target ops (map item_scope its)) (inner_targets keys its.*1)) as [tl ->].
  { unfold inner_targets, put_args_to_conf_general. apply Forall_app. split.
    - apply Forall_map. apply Forall_forall. intros k Hk. pose proof Hkeys as Hk'.
      rewrite Forall_forall in Hres, Hk'. destruct (Hres k Hk) as [i Hi], (Hk' k Hk) as (c & Hc & _ & Hs).
      rewrite eval_target_plain by (unfold star_of; simpl; rewrite Hc, bool_decide_eq_false_2; congruence).
      cbn [inner_key val eval_expr]. rewrite Hi. by eexists.
    - repeat (apply Forall_app; split); apply Forall_map, Forall_forall; intros t Ht; apply condition_defined; (done || set_solver). }
  cbn [mbind option_bind]. unfold distinct_rows. rewrite (ic_distinct _ _ _ _ _ Hic). by eexists.
Qed.
End Inner.

(** ** The outer select *)

Section Outer.
Context (ops : sql_ops) (keys : list (list string)) (rels : list rel_info).
Context (Hkeys : Forall key_ok keys) (Hne : keys <> []) (Hnames : key_names_ok keys).
Context (ti : table) (Hcols : columns ti = map target_name (inner_targets keys rels)).
#[local] Set Default Proof Using "All".
Let c := calculate_total_triples rels.

Lemma names_NoDup : NoDup (columns ti).
Proof.
  rewrite (outer_columns ops keys rels Hkeys Hne ti Hcols). destruct Hnames as [Hnd Hdata].
  assert (Hseq : forall nm, NoDup (map (catStrInt nm) (seq 0 c))).
  { intros nm. apply (NoDup_fmap_2_strong (catStrInt nm)); [|apply NoDup_seq]. intros i j _ _. apply catStrInt_inj. }
  assert (Hin : forall nm x, x ∈ map (catStrInt nm) (seq 0 c) -> exists i, x = catStrInt nm i).
  { intros nm x (i & -> & _)%list_elem_of_fmap. by exists i. }
  repeat (apply NoDup_app; split_and!); try done; try apply Hseq.
  - intros x (k & -> & Hk)%list_elem_of_fmap Hx. rewrite Forall_forall in Hdata. specialize (Hdata k Hk).
    assert (Hd : is_data (key_col k) = false); [|congruence].
    repeat (apply elem_of_app in Hx as [Hx|Hx]); apply Hin in Hx as [i ->]; apply condition_not_data; set_solver.
  - intros x [i ->]%Hin. intros [Hx|Hx]%elem_of_app; by apply Hin in Hx as [j Hj].
  - intros x [i ->]%Hin. intros [j Hj]%Hin. by apply domain_ne_prob in Hj.
Qed.

Lemma outer_resolves (col : string) : col ∈ columns ti -> is_Some (resolve (paths [(["temp"], columns ti)]) [col]).
Proof. intros Hc. apply resolve_single; [apply names_NoDup|done]. Qed.

Lemma outer_key_resolves (k : list string) :
  k ∈ keys -> is_Some (resolve (paths [(["temp"], columns ti)]) [key_col k]).
Proof.
  intros Hk. apply outer_resolves. rewrite (outer_columns ops keys rels Hkeys Hne ti Hcols). apply elem_of_app. left.
  by apply list_elem_of_fmap_2.
Qed.

Lemma outer_args_defined :
  is_Some (map_option (eval_expr ops (paths [(["temp"], columns ti)])) (put_args_general c [])).
Proof.
  apply map_option_defined. unfold put_args_general. simpl. apply Forall_forall.
  intros x (i & Hx & Hi%elem_of_seq)%list_elem_of_bind.
  assert (Hcol : exists nm, x = ColumnRef [catStrInt nm i] /\ catStrInt nm i ∈ columns ti).
  { rewrite (outer_columns ops keys rels Hkeys Hne ti Hcols).
    assert (Hm : forall nm, catStrInt nm i ∈ map (catStrInt nm) (seq 0 c)).
    { intros nm. apply list_elem_of_fmap_2, elem_of_seq. lia. }
    repeat (apply elem_of_cons in Hx as [->|Hx]); [..|by apply not_elem_of_nil in Hx];
      (eexists; split; [reflexivity|]); rewrite !elem_of_app; eauto. }
  destruct Hcol as (nm & -> & Hc). cbn [eval_expr]. destruct (outer_resolves _ Hc) as [j ->]. by eexists.
Qed.

Context (agg : list (list value) -> value) (Hagg : aggregate ops CONF = Some agg).

Lemma outer_defined (from : list node) (w : option node) (nm : option string) (a : nat) :
  is_Some (eval_over ops (conf_rewritten from w keys nm a rels) [(["temp"], ti)]).
Proof.
  unfold eval_over.
  change (map (fun '(q, t0) => (q, columns t0)) [(["temp"], ti)]) with [(["temp"], columns ti)].
  change (select_where ops (conf_rewritten from w keys nm a rels) [(["temp"], columns ti)]) with
    (Some (fun _ : row => VBool true)). cbn [mbind option_bind].
  assert (Hg : grouped ops (conf_rewritten from w keys nm a rels) = true).
  { unfold grouped. change (groupClause _) with (map (fun k => ColumnRef [key_col k]) keys). by destruct keys. }
  rewrite Hg. change (sortClause (conf_rewritten from w keys nm a rels)) with (@nil node).
  change (groupClause (conf_rewritten from w keys nm a rels)) with (map (fun k => ColumnRef [key_col k]) keys).
  change (targetList (conf_rewritten from w keys nm a rels)) with (outer_targets keys nm a rels).
  cbv iota. set (ps := paths [(["temp"], columns ti)]).
  destruct (map_option_defined (eval_expr ops ps) (map (fun k => ColumnRef [key_col k]) keys)) as [ks ->].
  { apply Forall_map, Forall_forall. intros k Hk. cbn [eval_expr].
    destruct (outer_key_resolves k Hk) as [j Hj]. fold ps in Hj. rewrite Hj. by eexists. }
  cbn [mbind option_bind].
  destruct (map_option_defined (group_target ops ps) (outer_targets keys nm a rels)) as [tl ->]; [|by eexists].
  apply Forall_app. split.
  - apply Forall_map, Forall_forall. intros k Hk. unfold group_target, outer_key. cbn [val eval_group].
    destruct (outer_key_resolves k Hk) as [j Hj]. fold ps in Hj. rewrite Hj. by eexists.
  - constructor; [|constructor]. unfold group_target, conf_call. cbn [val eval_group]. rewrite Hagg.
    destruct outer_args_defined as [fs Hfs]. fold ps c in Hfs |- *. rewrite Hfs. by eexists.
Qed.
End Outer.

(** ** The query *)

Section Query.
Context (catalog : RangeVar -> option Relation) (ops : sql_ops) (db : RangeVar -> option table).
Context (Hdb : database_ok catalog db) (Hsort : forall ks l, sort_rows ops ks l ≡ₚ l).
Context (from : list node) (w : option node) (keys : list (list string)).
Context (Hplain : plain ops (base_query from w keys)) (Hkeys : Forall key_ok keys) (Hnames : key_names_ok keys).
Context (Hdistinct : distinct_names catalog ops db (base_query from w keys)).

Lemma conf_defined (fuel : nat) (from' : list node) (rels : list rel_info) (nm : option string) (a : nat)
    (agg : list (list value) -> value) (th : world) (u : table) :
  map_outcome (rewrite_from (process_select catalog fuel)) from = Ok from' -> relations catalog from' = Ok rels ->
  aggregate ops CONF = Some agg ->
  eval_select ops (world_db catalog db th) (base_query from w keys) = Some u ->
  is_Some (eval_select ops db (conf_rewritten from' w keys nm a rels)).
Proof.
  intros Hf Hrels Hagg Hu. destruct (base_parts ops from w keys Hplain) as (Hp & Hq & Hfrom).
  rewrite (eval_base ops from w keys Hplain) in Hu. apply bind_Some in Hu as (wts & Hwts & Hu).
  inversion Hdistinct as [s0 Hd]; subst s0.
  destruct (items_defined catalog ops db Hdb (process_select catalog fuel) from from' rels th wts)
    as (its & <- & Hts & Hits & Hdef); [| |exact Hfrom|exact Hd|exact Hf|exact Hrels|exact Hwts|].
  { intros s s'. by apply process_represents. }
  { intros s s'. by apply process_defined. }
  assert (Hok : Forall (item_ok catalog) its).
  { apply Forall_forall. intros it (i & Hi)%list_elem_of_lookup.
    destruct (Forall2_lookup_r _ _ _ _ _ Hits Hi) as (n & _ & Hr). apply (ir_ok _ _ _ _ _ Hr). }
  rewrite (items_world catalog ops db Hdb from its th Hits) in Hwts. injection Hwts as <-.
  destruct (inner_defined catalog ops its Hok (items_qualifiers catalog ops db Hdb from its Hits Hq) Hdef from' w keys Hkeys
    (base_where ops from w keys Hplain) th u Hu) as [ti Hti].
  rewrite (eval_conf catalog ops db from w keys Hplain fuel from' its.*1 nm a Hf), Hts. cbn [mbind option_bind].
  rewrite Hti. cbn [mbind option_bind].
  destruct (inner_eval ops from' w keys its Hkeys (keys_nonempty ops from w keys Hplain) ti Hti) as
    (f & x & l & _ & _ & _ & _ & _ & Hcols & _).
  by apply (outer_defined ops keys its.*1 Hkeys (keys_nonempty ops from w keys Hplain) Hnames ti Hcols agg Hagg).
Qed.
End Query.

(** ** The aggregate *)

(** The triples of a row of arguments. *)
Fixpoint arg_triples (args : list value) : option (list (Z * Z * Qc)) :=
  match args with
  | [] => Some []
  | VInt v :: VInt d :: VReal p :: args => l ← arg_triples args; Some ((v, d, p) :: l)
  | _ => None
  end.

(** The aggregate [conf] over the argument rows of a group. *)
Definition conf_aggregate (junk : nat -> N) (g : globals) (args : list (list value)) : value :=
  match map_option arg_triples args with
  | Some rs =>
      match conf_group (length (default [] (head rs))) junk rs g with
      | Some (p, _) => VReal p
      | None => VNull
      end
  | None => VNull
  end.

(** The arguments are triples of a world table, at most [LIST_INIT_SIZE] of its variables
    in a hash class. *)
Record args_ok (W : wtable) (args : list (list value)) : Prop := mk_args_ok {
  ao_rows : list (list (Z * Z * Qc));
  ao_parse : map_option arg_triples args = Some ao_rows;
  ao_some : ao_rows <> [];
  ao_ok : exists n, Forall (Group.row_ok W n) ao_rows;
  ao_vars : exists V, (forall r t, r ∈ ao_rows -> t ∈ r -> t.1.1 ∈ V) /\
    forall c, length (filter (fun v => cls INIT_NBITS v = c) (remove_dups V)) <= LIST_INIT_SIZE }.

Lemma arg_triples_hold (th : world) (args : list value) (r : list (Z * Z * Qc)) :
  arg_triples args = Some r -> args_hold th args = sat_clause (row_clause r) th.
Proof.
  revert r. induction args as [args IH] using (induction_ltof1 _ (@length value)); unfold ltof in IH.
  intros r. destruct args as [|[v| | | |] [|[d| | | |] [|[|p| | |] args]]]; try done; [by intros [= <-]|].
  simpl. intros (l & Hl & [= <-])%bind_Some. rewrite (IH args) with (r := l) by (simpl; lia || done). done.
Qed.

Lemma lineage_holds (th : world) (args : list (list value)) (rs : list (list (Z * Z * Qc))) :
  map_option arg_triples args = Some rs -> existsb (args_hold th) args = sat_dnf (row_clause <$> rs) th.
Proof.
  revert rs. induction args as [|a args IH]; intros rs; [by intros [= <-]|]. cbn [map_option].
  intros (r & Hr & (rs' & Hrs & [= <-])%bind_Some)%bind_Some. simpl. by rewrite (arg_triples_hold th a r), (IH rs').
Qed.

(** The value of the aggregate is the probability of the lineage. *)
Lemma conf_aggregate_Pr (W : wtable) (junk : nat -> N) (g : globals) (args : list (list value)) :
  WsTreeCorrect.table_ok W -> gS g = None -> args_ok W args ->
  conf_aggregate junk g args = VReal (Pr W (fun th => existsb (args_hold th) args)).
Proof.
  intros HW Hg [rs Hrs Hne [n Hok] (V & HV & Hsmall)]. unfold conf_aggregate. rewrite Hrs.
  destruct rs as [|r rs]; [done|].
  change (length (default [] (head (r :: rs)))) with (length r).
  assert (Hn : length r = n) by by apply Forall_cons in Hok as [[] _]. rewrite Hn.
  destruct (conf_group_spec W HW n V Hsmall junk (r :: rs) g Hg Hne Hok HV) as (g' & -> & _). f_equal.
  apply Pr_ext. intros th. symmetry. by apply lineage_holds.
Qed.

(** ** The theorem *)

(** Is a key in the answer of a world? *)
Definition answer_has (answer : world -> option table) (key : row) (th : world) : bool :=
  match answer th with Some u => bool_decide (key ∈ rows u) | None => false end.

Section Values.
Context (catalog : RangeVar -> option Relation) (ops : sql_ops) (db : RangeVar -> option table).
Context (Hdb : database_ok catalog db) (Hsort : forall ks l, sort_rows ops ks l ≡ₚ l).
Context (from : list node) (w : option node) (keys : list (list string)).
Context (Hplain : plain ops (base_query from w keys)) (Hkeys : Forall key_ok keys) (Hnames : key_names_ok keys).
Context (Hfrom : uncertain_from catalog from) (Hknown : known catalog (base_query from w keys)).
Context (Hdistinct : distinct_names catalog ops db (base_query from w keys)).

(** The answer of the query without [conf] in a world. *)
Definition base_answer (th : world) : option table :=
  eval_select ops (world_db catalog db th) (base_query from w keys).

Lemma conf_query_lineage (fuel : nat) (nm : option string) (a : nat) (star : bool) (agg : list (list value) -> value) :
  aggregate ops CONF = Some agg -> select_depth (base_query from w keys) < fuel ->
  exists s', process_select catalog fuel (conf_query from w keys nm a star) = Ok s' /\
    match eval_select ops db s' with
    | Some t => exists lineage, aggregates agg t lineage /\ lineage_of base_answer lineage
    | None => forall th, base_answer th = None
    end.
Proof using Hdb Hsort Hplain Hkeys Hnames Hfrom Hknown Hdistinct.
  intros Hagg Hfuel. destruct fuel as [|fuel]; [lia|]. cbn [process_select].
  destruct (base_parts ops from w keys Hplain) as (Hp & Hq & Hpf). inversion Hknown as [s1 Hk]; subst s1.
  destruct (from_total catalog ops (process_select catalog fuel) from fuel) as (from' & rels & Hf & Hr & _);
    [intros s; apply process_total|exact Hpf|exact Hk|exact Hfuel|].
  rewrite (process_conf catalog ops from w keys nm a star Hplain Hkeys Hfrom), Hf. cbn [mbind outcome_bind].
  rewrite Hr. cbn [mbind outcome_bind]. eexists. split; [done|].
  destruct (eval_select ops db (conf_rewritten from' w keys nm a rels)) as [t|] eqn:Ht.
  - by apply (conf_represents catalog ops db Hdb Hsort from w keys Hplain Hkeys fuel from' rels nm a agg t).
  - intros th. destruct (base_answer th) as [u|] eqn:Hu; [|done]. exfalso.
    destruct (conf_defined catalog ops db Hdb Hsort from w keys Hplain Hkeys Hnames Hdistinct fuel from' rels nm a agg th u Hf Hr Hagg Hu).
    congruence.
Qed.

(** With the aggregate of [Group]: the value of every key whose lineage is well formed is
    its probability. *)
Lemma conf_query_value (W : wtable) (junk : nat -> N) (g : globals) (t : table)
    (lineage : list (row * list (list value))) :
  WsTreeCorrect.table_ok W -> gS g = None ->
  aggregates (conf_aggregate junk g) t lineage -> lineage_of base_answer lineage ->
  forall key args, (key, args) ∈ lineage -> args_ok W args ->
    key ++ [VReal (Pr W (answer_has base_answer key))] ∈ rows t.
Proof using Type.
  intros HW Hg [Hrows _] Hlin key args Hin Hok. rewrite Hrows. apply list_elem_of_fmap. exists (key, args).
  split; [|done]. cbn [fst snd]. rewrite (conf_aggregate_Pr W junk g args HW Hg Hok). do 3 f_equal.
  apply Pr_ext. intros th. unfold answer_has. destruct (Hlin th) as (u & -> & _ & H).
  apply eq_bool_prop_intro. rewrite bool_decide_spec. specialize (H key args Hin). rewrite Is_true_true. by symmetry.
Qed.
End Values.
