(* ===== verification/RepairCorrect.v ===== *)
(** * RepairCorrect: the rows and the worlds of a repair

    The select that repair-key builds is run step by step: the distinct tuples with their
    weights, the numbers of tuples and keys, and the two natural joins.  The rows of the
    result are the tuples of the input, each with the variable of its key, the value of
    the tuple, and its share of the weight of the key.  The select of pick-tuples gives
    every row a variable of its own. *)
From Stdlib Require Import Strings.String Strings.Ascii.
From stdpp Require Import strings.
From S2P Require Import Prelude.
From S2P Require Import Worlds.
From S2P Require Import ParseTree.
From S2P Require Import RewriteUtils.
From S2P Require Import RepairKey.
From S2P Require Import Rewrite.
From S2P Require Import Sql.
From S2P Require Import SqlFacts.
From S2P Require Import ScopeFacts.
From S2P Require Import RewriteDefined.
Open Scope string_scope.
Open Scope list_scope.
Open Scope nat_scope.

(** ** Lists *)

Lemma remove_dups_id {A} `{EqDecision A} (l : list A) : NoDup l -> remove_dups l = l.
Proof. induction 1 as [|a l Ha _ IH]; [done|]. simpl. case_decide; [done|]. by rewrite IH. Qed.

Lemma remove_dups_map {A B} `{EqDecision A, EqDecision B} (f : A -> B) (l : list A) :
  (forall a b, a ∈ l -> b ∈ l -> f a = f b -> a = b) -> remove_dups (map f l) = map f (remove_dups l).
Proof.
  induction l as [|a l IH]; intros Hinj; [done|]. cbn [map remove_dups].
  assert (Hl : forall a b, a ∈ l -> b ∈ l -> f a = f b -> a = b) by (intros; apply Hinj; [by right..|done]).
  destruct (decide (f a ∈ map f l)) as [Hf|Hf], (decide (a ∈ l)) as [Ha|Ha].
  - repeat case_decide; try done. by rewrite IH.
  - exfalso. apply list_elem_of_fmap in Hf as (b & Hab & Hb). apply Ha.
    rewrite (Hinj a b); [done|by left|by right|done].
  - destruct Hf. by apply list_elem_of_fmap_2.
  - repeat case_decide; try done. by rewrite IH.
Qed.

(** The position of an element. *)
Fixpoint position {A} `{EqDecision A} (a : A) (l : list A) : nat :=
  match l with [] => 0 | b :: l => if bool_decide (a = b) then 0 else S (position a l) end.

Lemma position_lookup {A} `{EqDecision A} (a : A) (l : list A) : a ∈ l -> l !! position a l = Some a.
Proof.
  induction l as [|b l IH]; [by intros ?%not_elem_of_nil|]. intros Ha. simpl. case_bool_decide; [by subst|].
  apply elem_of_cons in Ha as [->|Ha]; [done|]. by apply IH.
Qed.

Lemma position_inj {A} `{EqDecision A} (a b : A) (l : list A) : a ∈ l -> b ∈ l -> position a l = position b l -> a = b.
Proof. intros Ha%position_lookup Hb%position_lookup Hp. rewrite Hp in Ha. congruence. Qed.

Lemma imap_position {A B} `{EqDecision A} (f : nat -> A -> B) (l : list A) :
  NoDup l -> imap f l = map (fun a => f (position a l) a) l.
Proof.
  intros Hl. revert f. induction Hl as [|a l Ha Hl IH]; intros f; [done|]. rewrite imap_cons, IH. cbn [map position].
  rewrite bool_decide_eq_true_2 by done. f_equal. apply map_ext_in. intros b Hb%list_elem_of_In.
  cbn [compose]. rewrite bool_decide_eq_false_2 by (intros ->; done). done.
Qed.

Lemma filter_one {A} `{EqDecision A} (p : A -> bool) (a : A) (l : list A) :
  NoDup l -> (forall b, b ∈ l -> p b = true <-> b = a) ->
  filter (fun b => p b = true) l = if bool_decide (a ∈ l) then [a] else [].
Proof.
  induction 1 as [|b l Hb Hl IH]; intros Hp; [done|]. rewrite filter_cons_bool, IH by (intros; apply Hp; by right).
  pose proof (Hp b ltac:(by left)) as Hpb. destruct (p b).
  - destruct Hpb as [Hpb _]. specialize (Hpb eq_refl) as ->.
    rewrite bool_decide_eq_false_2 by done. rewrite bool_decide_eq_true_2; [done|by left].
  - case_bool_decide; case_bool_decide; try done; exfalso; set_solver.
Qed.

Lemma bind_optional {A B C} (f : A -> B -> C) (g : A -> B) (p : A -> bool) (l : list A) :
  (l ≫= fun a => map (f a) (if p a then [g a] else [])) = map (fun a => f a (g a)) (filter (fun a => p a = true) l).
Proof. induction l as [|a l IH]; [done|]. rewrite bind_cons, filter_cons_bool, IH, map_app. by destruct (p a). Qed.

(** ** Columns of one relation *)

Lemma column_value_lookup (cs : list string) (c : string) (i : nat) (r : row) :
  NoDup cs -> cs !! i = Some c -> column_value cs r c = nth_value i r.
Proof.
  intros Hcs. unfold column_value, nth_value. revert i r. induction Hcs as [|c' cs Hc' _ IH]; intros i r Hi; [done|].
  destruct r as [|v r], i as [|i]; simpl in *; try done.
  - by rewrite bool_decide_eq_true_2 by congruence.
  - rewrite bool_decide_eq_false_2; [by apply IH|]. intros ->. apply Hc'. by eapply list_elem_of_lookup_2.
Qed.

Lemma column_value_all (cs : list string) (r : row) : NoDup cs -> length r = length cs -> map (column_value cs r) cs = r.
Proof.
  intros Hcs Hl. apply list_eq. intros i. rewrite lookup_map. destruct (cs !! i) as [c|] eqn:Hc; simpl.
  - rewrite (column_value_lookup _ _ i) by done. unfold nth_value.
    destruct (r !! i) eqn:Hr; [done|]. apply lookup_ge_None in Hr. apply lookup_lt_Some in Hc. lia.
  - symmetry. apply lookup_ge_None. apply lookup_ge_None in Hc. lia.
Qed.

Lemma column_value_app_l (cs1 cs2 : list string) (r1 r2 : row) (c : string) :
  length r1 = length cs1 -> c ∈ cs1 -> column_value (cs1 ++ cs2) (r1 ++ r2) c = column_value cs1 r1 c.
Proof.
  unfold column_value. revert r1. induction cs1 as [|c' cs1 IH]; intros [|v r1] Hl Hc; try done; [by apply not_elem_of_nil in Hc|].
  simpl in *. case_bool_decide; [done|]. apply elem_of_cons in Hc as [->|Hc]; [done|]. apply IH; [lia|done].
Qed.

Lemma column_value_app_r (cs1 cs2 : list string) (r1 r2 : row) (c : string) :
  length r1 = length cs1 -> c ∉ cs1 -> column_value (cs1 ++ cs2) (r1 ++ r2) c = column_value cs2 r2 c.
Proof.
  unfold column_value. revert r1. induction cs1 as [|c' cs1 IH]; intros [|v r1] Hl Hc; try done. simpl in *.
  apply not_elem_of_cons in Hc as [Hc1 Hc]. rewrite bool_decide_eq_false_2 by done. apply IH; [lia|done].
Qed.

(** A column of the only relation of a scope. *)
Lemma resolve_only (q cs : list string) (c : string) :
  NoDup cs -> c ∈ cs -> exists i, resolve (paths [(q, cs)]) [c] = Some i /\ cs !! i = Some c.
Proof.
  intros Hcs Hc. pose proof (position_lookup c cs Hc) as Hi. set (ps := paths [(q, cs)]).
  assert (Hps : ps = map (fun c => q ++ [c]) cs) by (unfold ps; rewrite paths_cons; apply app_nil_r).
  assert (Hs : is_Some (resolve ps [c])).
  { apply resolve_is_Some. rewrite Hps. clear -Hcs Hc. induction Hcs as [|c' cs Hc' Hcs IH]; [by apply not_elem_of_nil in Hc|].
    assert (Hend : forall d, [c] `suffix_of` q ++ [d] <-> c = d).
    { intros d. pose proof (suffix_snoc_iff [] q c d) as H. rewrite H. split; [by intros [_ ->]|intros ->].
      split; [apply suffix_nil|done]. }
    cbn [map]. rewrite filter_cons. destruct (decide _) as [Hd|Hd]; rewrite Hend in Hd.
    - subst c'. cbn [length]. f_equal. clear IH. destruct (filter _ _) as [|p l] eqn:Hf; [done|]. exfalso.
      assert (Hp : p ∈ p :: l) by by left. rewrite <- Hf in Hp.
      apply list_elem_of_filter in Hp as [Hs (d & -> & Hd)%list_elem_of_fmap]. apply Hend in Hs as ->. done.
    - apply IH. by apply elem_of_cons in Hc as [->|Hc]. }
  destruct Hs as [i Hi']. exists i. split; [done|].
  enough (i = position c cs) as -> by done.
  eapply resolve_unique; [exact Hi'| |]; [rewrite Hps, list_lookup_fmap, Hi; done|by apply suffix_app_r].
Qed.

Definition plain_column (c : string) : target := mk_res None (column c).

Section Columns.
Context (ops : sql_ops) (q cs : list string) (Hcs : NoDup cs).

Lemma eval_column (c : string) :
  c ∈ cs -> exists i, resolve (paths [(q, cs)]) [c] = Some i /\ forall r, nth_value i r = column_value cs r c.
Proof using Hcs.
  intros Hc. destruct (resolve_only q cs c Hcs Hc) as (i & Hi & Hl). exists i. split; [done|]. intros r.
  symmetry. by apply column_value_lookup.
Qed.

Lemma eval_columns (l : list string) :
  (forall c, c ∈ l -> c ∈ cs) ->
  exists fs, map_option (eval_expr ops (paths [(q, cs)])) (map column l) = Some fs /\ length fs = length l /\
    forall r, project fs r = map (column_value cs r) l.
Proof using Hcs.
  induction l as [|c l IH]; intros Hl; [by exists []|].
  destruct (eval_column c) as (i & Hi & Hv); [apply Hl; by left|].
  destruct IH as (fs & Hfs & Hlen & Hr); [intros; apply Hl; by right|].
  exists (nth_value i :: fs). split_and!; [cbn [map map_option column eval_expr]; by rewrite Hi, Hfs|by cbn; f_equal|].
  intros r. cbn. by rewrite Hv, <- Hr.
Qed.

Lemma group_columns (l : list string) :
  (forall c, c ∈ l -> c ∈ cs) ->
  exists tl, map_option (group_target ops (paths [(q, cs)])) (map plain_column l) = Some tl /\ tl.*1 = l /\
    forall r g, map (fun f : list row -> value => f (r :: g)) tl.*2 = map (column_value cs r) l.
Proof using Hcs.
  induction l as [|c l IH]; intros Hl; [by exists []|].
  destruct (eval_column c) as (i & Hi & Hv); [apply Hl; by left|].
  destruct IH as (tl & Htl & Hnames & Hr); [intros; apply Hl; by right|].
  assert (Hg : group_target ops (paths [(q, cs)]) (plain_column c) =
    Some (c, fun g => match g with r :: _ => nth_value i r | [] => VNull end)).
  { unfold group_target, plain_column, column. cbn [val eval_group]. by rewrite Hi. }
  eexists. split_and!; [cbn [map map_option]; rewrite Hg, Htl; reflexivity| |].
  { cbn. by rewrite Hnames. }
  intros r g. cbn. by rewrite Hv, Hr.
Qed.

Lemma target_columns (l : list string) :
  (forall c, c ∈ l -> c ∈ cs) -> "*" ∉ l ->
  exists tl, map_option (eval_target ops [(q, cs)]) (map plain_column l) = Some tl /\ (concat tl).*1 = l /\
    forall r, project (concat tl).*2 r = map (column_value cs r) l.
Proof using Hcs.
  induction l as [|c l IH]; intros Hl Hstar; [by exists []|]. apply not_elem_of_cons in Hstar as [Hc Hstar].
  destruct (eval_column c) as (i & Hi & Hv); [apply Hl; by left|].
  destruct IH as (tl & Htl & Hnames & Hr); [intros; apply Hl; by right|done|].
  assert (He : eval_target ops [(q, cs)] (plain_column c) = Some [(c, nth_value i)]).
  { unfold eval_target, plain_column, column. cbn [val last]. rewrite bool_decide_eq_false_2 by congruence.
    cbn [eval_expr]. by rewrite Hi. }
  exists ([(c, nth_value i)] :: tl). split_and!; [cbn [map map_option]; by rewrite He, Htl|by cbn; rewrite Hnames|].
  intros r. cbn. by rewrite Hv, <- Hr.
Qed.
End Columns.

(** ** Groups *)

Lemma groups_by_map {A} (key : row -> list value) (key' : A -> list value) (ext : A -> row) (l : list A) :
  (forall a, a ∈ l -> key (ext a) = key' a) ->
  groups_by key (map ext l) =
  map (fun k => map ext (filter (fun a => key' a = k) l)) (remove_dups (map key' l)).
Proof.
  intros Hk. unfold groups_by. rewrite map_map.
  replace (map (fun a => key (ext a)) l) with (map key' l)
    by (apply map_ext_in; intros a Ha%list_elem_of_In; symmetry; by apply Hk).
  apply map_ext. intros k. revert Hk. induction l as [|a l IH]; intros Hk; [done|]. cbn [map].
  rewrite !filter_cons, (Hk a) by by left. rewrite IH by (intros; apply Hk; by right). by case_decide.
Qed.

(** The value that an expression without aggregates has in a group is that of its first row. *)
Lemma eval_group_first (ops : sql_ops) (ps : list (list string)) (n : node) (f : fn) (g : list row -> value) :
  has_aggregate ops n = false -> eval_expr ops ps n = Some f -> eval_group ops ps n = Some g ->
  forall r rs, g (r :: rs) = f r.
Proof.
  revert f g. induction n as [kind opname l r IHl IHr|arg t IH|addr nm args star IH|n Hn] using expr_ind;
    intros f g; cbn [has_aggregate].
  - intros [Hal Har]%orb_false_iff He Hg. destruct kind, opname as [|op [|]]; try done.
    destruct l as [l|], r as [r|]; cbn [eval_expr eval_group] in *; try done.
    apply bind_Some in He as (fl & Hfl & (fr & Hfr & [= <-])%bind_Some).
    apply bind_Some in Hg as (gl & Hgl & (gr & Hgr & [= <-])%bind_Some).
    intros r0 rs. by rewrite (IHl _ eq_refl fl gl), (IHr _ eq_refl fr gr).
  - cbn [eval_expr eval_group]. intros Ha (fa & Hfa & [= <-])%bind_Some (ga & Hga & [= <-])%bind_Some r rs.
    by rewrite (IH fa ga).
  - cbn [eval_expr eval_group]. destruct nm as [|nm [|]]; try done.
    destruct (aggregate ops nm); [done|]. rewrite bool_decide_eq_false_2 by (intros [? ?]; done). cbn [orb].
    intros Ha (s & Hs & (fs & Hfs & [= <-])%bind_Some)%bind_Some (s' & Hs' & (gs & Hgs & [= <-])%bind_Some)%bind_Some r rs.
    rewrite Hs in Hs'. injection Hs' as <-. f_equal. revert fs gs Hfs Hgs.
    induction IH as [|a args IHa _ IHargs]; intros fs gs; cbn [map_option]; [by intros [= <-] [= <-]|].
    cbn [existsb] in Ha. apply orb_false_iff in Ha as [Ha Hargs].
    intros (fa & Hfa & (fs' & Hfs & [= <-])%bind_Some)%bind_Some (ga & Hga & (gs' & Hgs & [= <-])%bind_Some)%bind_Some.
    cbn [map]. f_equal; [by apply IHa|by apply IHargs].
  - destruct n; cbn [eval_expr eval_group]; try done.
    + intros _. destruct (resolve ps fields) as [i|]; [|done]. by intros [= <-] [= <-] r rs.
    + by intros _ [= <-] [= <-] r rs.
Qed.

Lemma filter_ext_elem {A} (p q : A -> bool) (l : list A) :
  (forall a, a ∈ l -> p a = q a) -> filter (fun a => p a = true) l = filter (fun a => q a = true) l.
Proof. intros H. pose proof (filter_map_ext p q id id l H) as Hf. rewrite !map_id in Hf. by apply Hf. Qed.

Lemma filter_true {A} (l : list A) : filter (fun _ => true = true) l = l.
Proof. induction l as [|a l IH]; [done|]. by rewrite filter_cons_True, IH. Qed.

(** ** The tuples and keys of a repair *)

Section Repair.
Context (t : table) (keys : list string) (weight : row -> Qc) (seqs : sequences).

Definition weighs (r : row) : bool := negb (bool_decide (weight r = 0%Qc)).

(** The distinct tuples, the keys, the tuples of a key and their weight. *)
Definition tuples : list row := remove_dups (filter (fun r => weighs r = true) (rows t)).
Definition key_of (r : row) : list value := map (column_value (columns t) r) keys.
Definition key_values : list (list value) := remove_dups (map key_of tuples).
Definition alternatives (k : list value) : list row := filter (fun r => key_of r = k) tuples.
Definition key_weight (k : list value) : Qc := foldr (fun r acc => (weight r + acc)%Qc) 0%Qc (alternatives k).

(** Keys and tuples are numbered by the two sequences. *)
Definition key_variable (k : list value) : Z := (seqs VARIDSEQ + Z.of_nat (position k key_values))%Z.
Definition tuple_value (r : row) : Z := (seqs DOMAINIDSEQ + Z.of_nat (position r tuples))%Z.

Definition repair_triple (r : row) : row :=
  [VInt (key_variable (key_of r)); VInt (tuple_value r); VReal (weight r / key_weight (key_of r))%Qc].

(** The U-relation of the repairs. *)
Definition repaired : table :=
  mk_table (columns t ++ ["_v0"; "_d0"; "_p0"])
    (map (fun r => r ++ repair_triple r) (filter (fun r => weighs r = true) (rows t))).

(** Its world table: a variable for each key, a value for each of its tuples. *)
Definition repair_worlds : wtable :=
  map (fun k => (key_variable k, map (fun r => (tuple_value r, weight r / key_weight k)%Qc) (alternatives k))) key_values.

(** What the input has to be like: distinct columns, no nulls, and no name that the
    rewriting uses itself. *)
Record repair_input : Prop := {
  rin_columns : NoDup (columns t);
  rin_data : Forall (fun c => is_data c = true) (columns t);
  rin_names : Forall (fun c => c <> "*" /\ c <> "_W" /\ c <> "_S") (columns t);
  rin_rows : Forall (fun r => length r = length (columns t)) (rows t);
  rin_nulls : Forall (fun r => VNull ∉ r) (rows t);
  rin_keys : NoDup keys;
  rin_some : keys <> [];
  rin_known : forall k, k ∈ keys -> k ∈ columns t;
  rin_weight : forall r, r ∈ rows t -> (0 <= weight r)%Qc }.
Context (Hin : repair_input).

Lemma elem_of_tuples (r : row) : r ∈ tuples <-> r ∈ rows t /\ weight r <> 0%Qc.
Proof.
  unfold tuples. rewrite elem_of_remove_dups, list_elem_of_filter. unfold weighs.
  rewrite negb_true_iff, bool_decide_eq_false. tauto.
Qed.

Lemma tuple_row (r : row) : r ∈ tuples -> length r = length (columns t).
Proof using Hin. intros [Hr _]%elem_of_tuples. pose proof (rin_rows Hin) as H. rewrite Forall_forall in H. by apply H. Qed.

Lemma elem_of_alternatives (k : list value) (r : row) : r ∈ alternatives k <-> r ∈ tuples /\ key_of r = k.
Proof. unfold alternatives. rewrite list_elem_of_filter. tauto. Qed.

Lemma elem_of_key_values (k : list value) : k ∈ key_values <-> exists r, r ∈ alternatives k.
Proof.
  unfold key_values. rewrite elem_of_remove_dups, list_elem_of_fmap. setoid_rewrite elem_of_alternatives.
  split; [intros (r & -> & Hr)|intros (r & Hr & <-)]; by exists r.
Qed.

Lemma condition_fresh (c : string) : is_data c = false -> c ∉ columns t.
Proof using Hin. intros Hc H. pose proof (rin_data Hin) as HF. rewrite Forall_forall in HF. rewrite HF in Hc; done. Qed.

Lemma reserved_fresh (c : string) : c = "*" \/ c = "_W" \/ c = "_S" -> c ∉ columns t.
Proof using Hin.
  intros Hc H. pose proof (rin_names Hin) as HF. rewrite Forall_forall in HF. apply HF in H as (H1 & H2 & H3).
  by destruct Hc as [?|[?|?]].
Qed.

(** The weight of a key is positive. *)
Lemma key_weight_positive (k : list value) : k ∈ key_values -> (0 < key_weight k)%Qc.
Proof using Hin.
  intros (r & Hr)%elem_of_key_values. unfold key_weight.
  assert (Hpos : Forall (fun r => (0 < weight r)%Qc) (alternatives k)).
  { apply Forall_forall. intros a [[Ha Hw]%elem_of_tuples _]%elem_of_alternatives.
    destruct (Qcle_lt_or_eq _ _ (rin_weight Hin a Ha)) as [H|H]; [done|by rewrite H in Hw]. }
  destruct (alternatives k) as [|a l]; [by apply not_elem_of_nil in Hr|]. clear r Hr.
  apply Forall_cons in Hpos as [Ha Hl]. cbn [foldr].
  assert (Hs : (0 <= foldr (fun r acc => (weight r + acc)%Qc) 0%Qc l)%Qc).
  { clear -Hl. induction Hl as [|b l Hb _ IH]; [apply Qcle_refl|]. cbn [foldr].
    rewrite <- (Qcplus_0_r 0). apply Qcplus_le_compat; [by apply Qclt_le_weak|done]. }
  apply (Qclt_le_trans _ (weight a + 0)%Qc); [by rewrite Qcplus_0_r|]. apply Qcplus_le_compat; [apply Qcle_refl|done].
Qed.

(** ** The worlds of a repair *)

Lemma key_variable_inj (k1 k2 : list value) :
  k1 ∈ key_values -> k2 ∈ key_values -> key_variable k1 = key_variable k2 -> k1 = k2.
Proof. intros H1 H2 He. apply (position_inj k1 k2 key_values); [done..|]. unfold key_variable in He. lia. Qed.

Lemma tuple_value_inj (r1 r2 : row) : r1 ∈ tuples -> r2 ∈ tuples -> tuple_value r1 = tuple_value r2 -> r1 = r2.
Proof. intros H1 H2 He. apply (position_inj r1 r2 tuples); [done..|]. unfold tuple_value in He. lia. Qed.

Lemma mass_shares (k : list value) (l : list row) :
  mass (map (fun r => (tuple_value r, weight r / key_weight k)%Qc) l) =
  (foldr (fun r acc => (weight r + acc)%Qc) 0%Qc l / key_weight k)%Qc.
Proof.
  induction l as [|r l IH]; [by unfold Qcdiv; rewrite Qcmult_0_l|]. cbn [map mass foldr fst snd].
  fold (mass (map (fun r => (tuple_value r, weight r / key_weight k)%Qc) l)). rewrite IH. unfold Qcdiv. ring.
Qed.

Lemma repair_worlds_ok : wtable_ok repair_worlds.
Proof using Hin.
  unfold repair_worlds. split.
  - rewrite <- list_fmap_compose. apply NoDup_fmap_2_strong; [|apply NoDup_remove_dups].
    intros k1 k2 H1 H2. cbn. by apply key_variable_inj.
  - intros x d (k & [= -> ->] & Hk)%list_elem_of_fmap. pose proof (key_weight_positive k Hk) as Hpos. split.
    + rewrite <- list_fmap_compose. apply NoDup_fmap_2_strong.
      * intros r1 r2 [H1 _]%elem_of_alternatives [H2 _]%elem_of_alternatives. cbn. by apply tuple_value_inj.
      * apply NoDup_filter, NoDup_remove_dups.
    + intros v p (r & [= -> ->] & [[Hr _]%elem_of_tuples _]%elem_of_alternatives)%list_elem_of_fmap.
      unfold Qcdiv. rewrite <- (Qcmult_0_l (/ key_weight k)). apply Qcmult_le_compat_r; [by apply (rin_weight Hin)|].
      by apply Qclt_le_weak, Qcinv_pos.
    + rewrite mass_shares. unfold Qcdiv. apply Qcmult_inv_r. intros H. rewrite H in Hpos. by apply Qclt_not_eq in Hpos.
Qed.

#[export] Instance table_eq_dec : EqDecision table.
Proof. solve_decision. Defined.

(** The tuples that a choice of one tuple for each key keeps. *)
Definition repair_of (pick : list value -> row) : table :=
  mk_table (columns t)
    (filter (fun r => weighs r && bool_decide (pick (key_of r) = r) = true) (rows t)).

Lemma lookup_column_skip (cs cs' : list string) (r r' : row) (c : string) :
  length r = length cs -> c ∉ cs -> lookup_column (cs ++ cs') c (r ++ r') = lookup_column cs' c r'.
Proof.
  revert r. induction cs as [|c' cs IH]; intros [|v r] Hl Hc; try done. simpl in *.
  apply not_elem_of_cons in Hc as [Hc1 Hc]. rewrite bool_decide_eq_false_2 by done. apply IH; [lia|done].
Qed.

Lemma instance_repaired (th : world) :
  instance th 1 repaired =
  mk_table (columns t) (filter (fun r => weighs r && sat_lit (key_variable (key_of r), tuple_value r) th = true) (rows t)).
Proof using Hin.
  pose proof (rin_data Hin) as Hdata. pose proof (rin_rows Hin) as Hrows. rewrite Forall_forall in Hrows.
  unfold instance, repaired. cbn [columns rows].
  assert (Hm : Forall (fun b => b = true) (data_mask (columns t)))
    by (apply Forall_fmap; eapply Forall_impl; [exact Hdata|done]).
  unfold data_mask in *. rewrite map_app.
  assert (Hkeep : forall A (l l' : list A), length l = length (columns t) ->
    keep (map is_data (columns t) ++ map is_data ["_v0"; "_d0"; "_p0"]) (l ++ l') = l).
  { intros A l l' Hl. rewrite keep_app by (by rewrite length_map). rewrite keep_true by (rewrite ?length_map; done).
    rewrite (keep_false (map is_data _)) by by repeat constructor. apply app_nil_r. }
  f_equal; [by apply Hkeep|]. rewrite filter_map_bool, filter_filter_bool, map_map.
  rewrite (filter_map_ext _ (fun r => weighs r && sat_lit (key_variable (key_of r), tuple_value r) th) _ id).
  - apply map_id.
  - intros r Hr. rewrite andb_comm. f_equal. unfold row_holds. cbn [seq forallb]. rewrite andb_true_r.
    unfold triple_holds. rewrite !lookup_column_skip by (by apply Hrows || by apply condition_fresh). done.
  - intros r Hr _. apply Hkeep. by apply Hrows.
Qed.

Section Pick.
Context (pick : list value -> row) (Hpick : forall k, k ∈ key_values -> pick k ∈ alternatives k).

Definition picked_clause : clause := map (fun k => (key_variable k, tuple_value (pick k))) key_values.

(** The instance of a world is the repair of a choice when the variable of every key has
    the value of the chosen tuple. *)
Lemma instance_repair (th : world) :
  instance th 1 repaired = repair_of pick <-> sat_clause picked_clause th = true.
Proof using Hin Hpick.
  rewrite instance_repaired. unfold repair_of, sat_clause, picked_clause. rewrite forallb_forall. split.
  - intros [= Hrows] l (k & <- & Hk%list_elem_of_In)%in_map_iff. pose proof (Hpick k Hk) as [Ht Hkey]%elem_of_alternatives.
    apply elem_of_tuples in Ht as [Hr Hw].
    assert (Hp : pick k ∈ filter (fun r => weighs r && bool_decide (pick (key_of r) = r) = true) (rows t)).
    { apply list_elem_of_filter. split; [|done]. rewrite Hkey, bool_decide_eq_true_2 by done.
      unfold weighs. by rewrite bool_decide_eq_false_2. }
    rewrite <- Hrows in Hp. apply list_elem_of_filter in Hp as [[_ Hs]%andb_prop _]. by rewrite Hkey in Hs.
  - intros Hall. f_equal. apply filter_ext_elem. intros r Hr.
    destruct (weighs r) eqn:Hw; [|done]. cbn [andb].
    assert (Ht : r ∈ tuples).
    { apply elem_of_tuples. split; [done|]. unfold weighs in Hw. by apply negb_true_iff, bool_decide_eq_false in Hw. }
    assert (Hk : key_of r ∈ key_values) by (apply elem_of_key_values; exists r; by apply elem_of_alternatives).
    specialize (Hall _ (in_map _ _ _ (proj1 (list_elem_of_In _ _) Hk))). unfold sat_lit in *. cbn [fst snd] in *.
    apply bool_decide_eq_true in Hall. rewrite Hall. apply bool_decide_ext.
    pose proof (Hpick _ Hk) as [Hp _]%elem_of_alternatives. split; [|by intros ->].
    intros [= He]. by apply tuple_value_inj.
Qed.

(** Its probability is the product of the shares. *)
Lemma picked_probability :
  Pr repair_worlds (sat_clause picked_clause) = qprod (map (fun k => weight (pick k) / key_weight k)%Qc key_values).
Proof using Hin Hpick.
  apply Pr_clause; [apply repair_worlds_ok|..].
  - unfold picked_clause. rewrite <- list_fmap_compose. apply NoDup_fmap_2_strong; [|apply NoDup_remove_dups].
    intros k1 k2 H1 H2. cbn. by apply key_variable_inj.
  - unfold picked_clause. apply Forall2_fmap, Forall_Forall2_diag, Forall_forall. intros k Hk. cbn [fst snd].
    exists (map (fun r => (tuple_value r, weight r / key_weight k)%Qc) (alternatives k)).
    split; apply list_elem_of_fmap; [by exists k|]. exists (pick k). split; [done|by apply Hpick].
Qed.

Lemma repair_probability :
  Pr repair_worlds (fun th => bool_decide (instance th 1 repaired = repair_of pick)) =
  qprod (map (fun k => weight (pick k) / key_weight k)%Qc key_values).
Proof using Hin Hpick.
  rewrite <- picked_probability. apply Pr_ext. intros th. pose proof (instance_repair th) as H.
  destruct (sat_clause picked_clause th); [by apply bool_decide_eq_true, H|]. apply bool_decide_eq_false. by intros ?%H.
Qed.
End Pick.

(** In every world each key has one of its tuples. *)
Lemma world_repair (th : world) :
  (forall k, k ∈ key_values -> exists r, r ∈ alternatives k /\ th !! key_variable k = Some (tuple_value r)) ->
  exists pick, (forall k, k ∈ key_values -> pick k ∈ alternatives k) /\ instance th 1 repaired = repair_of pick.
Proof using Hin.
  intros Hth. set (holds := fun k r => sat_lit (key_variable k, tuple_value r) th).
  set (pick := fun k => default [] (head (filter (fun r => holds k r = true) (alternatives k)))).
  assert (Hp : forall k, k ∈ key_values -> pick k ∈ alternatives k /\ holds k (pick k) = true).
  { intros k Hk. destruct (Hth k Hk) as (r & Hr & Hv). unfold pick.
    assert (Hin' : r ∈ filter (fun r => holds k r = true) (alternatives k)).
    { apply list_elem_of_filter. split; [|done]. unfold holds, sat_lit. by apply bool_decide_eq_true. }
    destruct (filter _ (alternatives k)) as [|a l] eqn:Hf; [by apply not_elem_of_nil in Hin'|]. cbn [head default].
    assert (Ha : a ∈ filter (fun r => holds k r = true) (alternatives k)) by (rewrite Hf; by left).
    by apply list_elem_of_filter in Ha as [??]. }
  exists pick. split; [by intros k Hk; apply Hp|]. apply instance_repair; [by intros k Hk; apply Hp|].
  unfold sat_clause, picked_clause. apply forallb_forall. intros l (k & <- & Hk%list_elem_of_In)%in_map_iff. by apply Hp.
Qed.
End Repair.

(** ** The select of the distinct tuples *)

(** What the server computes, exactly: casts of numbers, the test of weights, sums and
    quotients. *)
Record server_ok (ops : sql_ops) : Prop := {
  sv_float4 : forall q, cast ops ["pg_catalog"; "float4"] (VReal q) = VReal q;
  sv_int4 : forall z, (- 2 ^ 31 <= z < 2 ^ 31)%Z -> cast ops ["pg_catalog"; "int4"] (VInt z) = VInt z;
  sv_zero : float_value ops "0" = VReal 0%Qc;
  sv_one : float_value ops "1.0" = VReal 1%Qc;
  sv_test : aggregate ops TESTNEGATIVE = None /\
    exists f, scalar ops TESTNEGATIVE = Some f /\ forall q, (0 <= q)%Qc -> f [VReal q] = VReal q;
  sv_sum : exists f, aggregate ops "sum" = Some f /\
    forall qs, qs <> [] -> f (map (fun q => [VReal q]) qs) = VReal (foldr Qcplus 0%Qc qs);
  sv_div : forall a b, b <> 0%Qc -> operator ops "/" (VReal a) (VReal b) = VReal (a / b)%Qc }.

Section Weights.
Context (ops : sql_ops) (t : table) (weight : row -> Qc).

Abbreviation input_paths := (paths [(["temp"], columns t)]).

(** An expression over the input whose cast is the weight of the rows. *)
Definition weight_node (n : node) : Prop :=
  has_aggregate ops n = false /\ exists f g,
    eval_expr ops input_paths n = Some f /\ eval_group ops input_paths n = Some g /\
    forall r, r ∈ rows t -> cast ops ["pg_catalog"; "float4"] (f r) = VReal (weight r).

(** The weight of repair-key; without one every tuple has weight 1. *)
Definition weight_by (w : option target) : Prop :=
  match w with
  | Some r => name r = Some "_W" /\ weight_node (val r)
  | None => forall r, weight r = 1%Qc
  end.

Context (Hserver : server_ok ops) (Hpos : forall r, r ∈ rows t -> (0 <= weight r)%Qc).

(** The tested weight is the weight, and is a weight again. *)
Lemma tested_weight_node (r : target) :
  weight_node (val r) ->
  weight_node (val (tested_weight r)) /\ exists f, eval_expr ops input_paths (val (tested_weight r)) = Some f /\
    forall a, a ∈ rows t -> f a = VReal (weight a).
Proof using Hserver Hpos.
  intros (Hagg & f & g & Hf & Hg & Hv). destruct (sv_test _ Hserver) as (Hna & test & Htest & Ht).
  unfold tested_weight, type_cast_weight_by. cbn [val].
  set (n := FuncCall 0 [TESTNEGATIVE] [TypeCast (val r) ["pg_catalog"; "float4"]] false).
  set (f' := fun a => test [cast ops ["pg_catalog"; "float4"] (f a)]).
  assert (Hf' : eval_expr ops input_paths n = Some f') 
    by (unfold n; cbn [eval_expr]; rewrite Htest; cbn [mbind option_bind map_option eval_expr]; by rewrite Hf).
  assert (Hv' : forall a, a ∈ rows t -> f' a = VReal (weight a)).
  { intros a Ha. unfold f'. rewrite (Hv a Ha). by apply Ht, Hpos. }
  assert (Hn : has_aggregate ops n = false).
  { unfold n. cbn [has_aggregate existsb]. rewrite Hna, Hagg. by rewrite bool_decide_eq_false_2 by (by intros []). }
  split; [|by exists f']. split; [done|]. eexists f', _. split_and!; [done| |].
  - unfold n. cbn [eval_group]. rewrite Hna, Htest. cbn [mbind option_bind map_option eval_group]. rewrite Hg. reflexivity.
  - intros a Ha. rewrite Hv' by done. apply (sv_float4 _ Hserver).
Qed.
End Weights.

Section Distinct.
Context (ops : sql_ops) (t : table) (keys : list string) (weight : row -> Qc) (Hin : repair_input t keys weight).

Abbreviation tuples := (tuples t weight).

Definition weighted_rows : table :=
  mk_table (columns t ++ ["_W"]) (map (fun r => r ++ [VReal (weight r)]) tuples).

Lemma filtered_one (w : fn) (u : table) : filtered w [u] = filter (fun r => is_true (w r) = true) (rows u).
Proof.
  unfold filtered. cbn [map product]. f_equal. induction (rows u) as [|r l IH]; [done|].
  rewrite bind_cons, IH. cbn. by rewrite app_nil_r.
Qed.

Lemma columns_nonempty : exists c cs, columns t = c :: cs.
Proof using Hin.
  destruct keys as [|k ks] eqn:Hk; [by destruct (rin_some _ _ _ Hin)|].
  pose proof (rin_known _ _ _ Hin k ltac:(by left)) as H. destruct (columns t) as [|c cs]; [by apply not_elem_of_nil in H|].
  by exists c, cs.
Qed.

Lemma distinct_tuples (s : select) (wt : target) (w : fn) (g : list row -> value) :
  targetList s = map plain_column (columns t) ++ [wt] -> groupClause s = map column (columns t) ->
  sortClause s = [] -> (distinctClause s = None \/ distinctClause s = Some []) ->
  group_target ops (paths [(["temp"], columns t)]) wt = Some ("_W", g) ->
  (forall r rs, r ∈ rows t -> g (r :: rs) = VReal (weight r)) ->
  select_where ops s [(["temp"], columns t)] = Some w ->
  (forall r, r ∈ rows t -> is_true (w r) = weighs weight r) ->
  eval_over ops s [(["temp"], t)] = Some weighted_rows.
Proof using Hin.
  intros Htl Hgc Hsort Hd Hwt Hg Hw Hwv.
  destruct (eval_columns ops ["temp"] (columns t) (rin_columns _ _ _ Hin) (columns t)) as (fs & Hfs & Hlen & Hr); [done|].
  destruct (group_columns ops ["temp"] (columns t) (rin_columns _ _ _ Hin) (columns t)) as (tl & Htls & Hnames & Hrow); [done|].
  assert (Hself : forall r, r ∈ rows t -> map (column_value (columns t) r) (columns t) = r).
  { intros r Hin'. apply column_value_all; [apply Hin|]. pose proof (rin_rows _ _ _ Hin) as H.
    rewrite Forall_forall in H. by apply H. }
  assert (Hgr : grouped ops s = true).
  { unfold grouped. rewrite Hgc. destruct columns_nonempty as (c & cs & ->). done. }
  unfold eval_over. cbn [map fst snd]. rewrite Hw, Hgr, Hsort, Hgc, Hfs, Htl. cbn [mbind option_bind fmap list_fmap snd].
  rewrite (proj2 (map_option_app _ _ _ (tl ++ [("_W", g)]))).
  2: { exists tl, [("_W", g)]. split_and!; [done| |done]. cbn [map_option]. by rewrite Hwt. }
  cbn [mbind option_bind]. rewrite filtered_one, (filter_ext_elem _ (weighs weight)) by done.
  assert (Hfl : forall A (x y : A), match fs with [] => x | _ => y end = y).
  { intros A x y. destruct fs; [|done]. destruct columns_nonempty as (c & cs & Hc). by rewrite Hc in Hlen. }
  rewrite Hfl. set (l := filter (fun r => weighs weight r = true) (rows t)).
  assert (Hl : forall r, r ∈ l -> r ∈ rows t) by by intros r [_ ?]%list_elem_of_filter.
  rewrite <- (map_id l) at 1. rewrite (groups_by_map _ id id l) by (intros r Hrl; rewrite Hr; by apply Hself, Hl).
  rewrite map_id. fold tuples. rewrite map_map.
  assert (Hout : map (fun k => map (fun f : list row -> value => f (map id (filter (fun a => id a = k) l))) (tl ++ [("_W", g)]).*2) tuples
    = map (fun r => r ++ [VReal (weight r)]) tuples).
  { apply map_ext_in. intros r Hrt%list_elem_of_In. apply elem_of_tuples in Hrt as [Hrr Hrw].
    rewrite map_id. destruct (filter (fun a => id a = r) l) as [|a l'] eqn:Hf.
    - exfalso. assert (Hrf : r ∈ filter (fun a => id a = r) l).
      { apply list_elem_of_filter. split; [done|]. apply list_elem_of_filter. split; [|done]. unfold weighs.
        by rewrite bool_decide_eq_false_2. }
      rewrite Hf in Hrf. by apply not_elem_of_nil in Hrf.
    - assert (Ha : a ∈ filter (fun a => id a = r) l) by (rewrite Hf; by left).
      apply list_elem_of_filter in Ha as [Ha Hal]. unfold id in Ha. subst a.
      rewrite fmap_app, map_app, Hrow, Hself by done. cbn. by rewrite Hg. }
  unfold tuples, RepairCorrect.tuples in Hout |- *. fold l in Hout |- *. rewrite Hout.
  assert (Hdist : distinct_rows s (map (fun r => r ++ [VReal (weight r)]) (remove_dups l)) =
    Some (map (fun r => r ++ [VReal (weight r)]) (remove_dups l))).
  { unfold distinct_rows. destruct Hd as [-> | ->]; [done|]. f_equal. apply remove_dups_id, NoDup_fmap_2_strong; [|apply NoDup_remove_dups].
    intros r1 r2 _ _ [He _]%app_inj_tail. done. }
  rewrite Hdist. cbn [mbind option_bind]. rewrite fmap_app, Hnames. done.
Qed.
End Distinct.

(** ** Numbered rows *)

Section Numbered.
Context (ops : sql_ops).

Abbreviation numbered r := (is_numbering ops r).

Lemma numbering_others (tl : list target) :
  Forall (fun r => numbered r = false) tl ->
  omap (fun r => numbering ops (val r)) tl = [] /\ filter (fun r => numbered r = false) tl = tl.
Proof.
  induction 1 as [|r tl Hr _ [IH1 IH2]]; [done|]. rewrite filter_cons_True, IH2 by done. split; [|done].
  unfold is_numbering in Hr. apply bool_decide_eq_false in Hr. cbn [omap list_omap].
  destruct (numbering ops (val r)); [by destruct Hr|done].
Qed.

Lemma weave_row_others (seqs : sequences) (i : nat) (tl tl' : list target) (v v' : row) :
  Forall (fun r => numbered r = false) tl -> length v = length tl ->
  weave_row ops seqs i (tl ++ tl') (v ++ v') = v ++ weave_row ops seqs i tl' v'.
Proof.
  intros Htl. revert v. induction Htl as [|r tl Hr _ IH]; intros [|x v] Hl; try done. cbn [app weave_row].
  unfold is_numbering in Hr. apply bool_decide_eq_false in Hr. destruct (numbering ops (val r)); [by destruct Hr|].
  f_equal. apply IH. by injection Hl.
Qed.

Lemma weave_names_others (tl tl' : list target) (v v' : list string) :
  Forall (fun r => numbered r = false) tl -> length v = length tl ->
  weave_names ops (tl ++ tl') (v ++ v') = v ++ weave_names ops tl' v'.
Proof.
  intros Htl. revert v. induction Htl as [|r tl Hr _ IH]; intros [|x v] Hl; try done. cbn [app weave_names].
  rewrite Hr. f_equal. apply IH. by injection Hl.
Qed.

(** One number for each row, between the columns [before] and [behind]. *)
Lemma eval_numbered_one {A} (s : select) (ts : list (list string * table)) (seqs : sequences) (tl1 tl2 : list target)
    (nt : target) (nm q : string) (num : Z -> value) (before behind : list string) (f g : A -> row) (l : list A)
    `{EqDecision A} :
  targetList s = tl1 ++ nt :: tl2 -> Forall (fun r => numbered r = false) tl1 -> Forall (fun r => numbered r = false) tl2 ->
  numbering ops (val nt) = Some (q, num) -> name nt = Some nm ->
  sortClause s = [] -> (distinctClause s = None \/ distinctClause s = Some [] /\ num = VInt) -> NoDup l ->
  length tl1 = length before -> length tl2 = length behind ->
  (forall a, a ∈ l -> length (f a) = length before /\ length (g a) = length behind) ->
  eval_over ops (set_distinctClause None (set_targetList (tl1 ++ tl2) s)) ts =
    Some (mk_table (before ++ behind) (map (fun a => f a ++ g a) l)) ->
  exists seqs', (forall q', q' <> q -> seqs' q' = seqs q') /\
    eval_numbered ops s ts seqs =
      Some (mk_table (before ++ nm :: behind)
        (map (fun a => f a ++ num (seqs q + Z.of_nat (position a l))%Z :: g a) l), seqs').
Proof.
  intros Htl H1 H2 Hnt Hnm Hsort Hd Hl L1 L2 Hlen Hev.
  destruct (numbering_others tl1 H1) as [O1 F1], (numbering_others tl2 H2) as [O2 F2].
  assert (Hisn : numbered nt = true) by (unfold is_numbering; rewrite Hnt; by apply bool_decide_eq_true_2; eexists).
  set (sum := fun q' => if bool_decide (q' ∈ [q]) then (seqs q' + Z.of_nat (length (map (fun a => f a ++ g a) l)))%Z else seqs q').
  exists sum. split.
  { intros q' Hq. unfold sum. by rewrite bool_decide_eq_false_2 by (by intros ?%list_elem_of_singleton). }
  unfold eval_numbered. rewrite Htl, omap_app, O1. cbn [omap list_omap app]. rewrite Hnt, O2.
  rewrite filter_app, F1, filter_cons_False, F2 by (by rewrite Hisn). rewrite Hev. cbn [mbind option_bind columns rows].
  rewrite bool_decide_eq_true_2 by (apply NoDup_singleton). rewrite bool_decide_eq_true_2 by done.
  rewrite !length_app, L1, L2, Nat.eqb_refl. cbn [andb].
  assert (Hrows : imap (fun i r => weave_row ops seqs i (tl1 ++ nt :: tl2) r) (map (fun a => f a ++ g a) l) =
    map (fun a => f a ++ num (seqs q + Z.of_nat (position a l))%Z :: g a) l).
  { rewrite imap_fmap, imap_position by done. apply map_ext_in. intros a Ha%list_elem_of_In.
    destruct (Hlen a Ha) as [La Lb]. cbn [compose]. rewrite weave_row_others by (done || by rewrite La).
    f_equal. cbn [weave_row]. rewrite Hnt. f_equal. rewrite <- (app_nil_r tl2), <- (app_nil_r (g a)).
    rewrite weave_row_others by (done || by rewrite Lb). by rewrite !app_nil_r. }
  rewrite Hrows, weave_names_others by done.
  assert (Hnames : weave_names ops (nt :: tl2) behind = nm :: behind).
  { cbn [weave_names]. rewrite Hisn. unfold target_name. rewrite Hnm. f_equal.
    rewrite <- (app_nil_r tl2), <- (app_nil_r behind). rewrite weave_names_others by done. by rewrite !app_nil_r. }
  rewrite Hnames. unfold distinct_rows. destruct Hd as [-> |[-> ->]]; cbn [mbind option_bind]; [done|].
  rewrite remove_dups_id; [done|]. apply NoDup_fmap_2_strong; [|done]. intros a b Ha Hb He.
  apply app_inj_1 in He as [_ [= He _]]; [|by rewrite (proj1 (Hlen a Ha)), (proj1 (Hlen b Hb))].
  apply (position_inj a b l); [done..|lia].
Qed.

Lemma plain_column_not_numbering (l : list string) : Forall (fun r => numbered r = false) (map plain_column l).
Proof. apply Forall_fmap, Forall_forall. intros c _. done. Qed.
End Numbered.

Section Subselects.
Context (ops : sql_ops) (t : table) (keys : list string) (weight : row -> Qc) (seqs : sequences).
Context (Hin : repair_input t keys weight) (Hserver : server_ok ops).

Abbreviation tuples := (tuples t weight).
Abbreviation key_of := (key_of t keys).
Abbreviation key_values := (key_values t keys weight).

(** The tuples with weight and value. *)
Definition valued_rows : table :=
  mk_table (columns t ++ ["_W"; "_d0"])
    (map (fun r => r ++ [VReal (weight r); VInt (tuple_value t weight seqs r)]) tuples).

Lemma valued_tuples (s : select) (wt : target) (w : fn) (g : list row -> value) :
  targetList s = (map plain_column (columns t) ++ [wt]) ++ [make_ResTarget_with_func_char (Some "_d0") "nextval" DOMAINIDSEQ] ->
  is_numbering ops wt = false -> groupClause s = map column (columns t) ->
  sortClause s = [] -> distinctClause s = Some [] ->
  group_target ops (paths [(["temp"], columns t)]) wt = Some ("_W", g) ->
  (forall r rs, r ∈ rows t -> g (r :: rs) = VReal (weight r)) ->
  select_where ops s [(["temp"], columns t)] = Some w ->
  (forall r, r ∈ rows t -> is_true (w r) = weighs weight r) ->
  exists seqs', (forall q, q <> DOMAINIDSEQ -> seqs' q = seqs q) /\
    eval_numbered ops s [(["temp"], t)] seqs = Some (valued_rows, seqs').
Proof using Hin.
  intros Htl Hn Hgc Hsort Hd Hwt Hg Hw Hwv.
  destruct (eval_numbered_one ops s [(["temp"], t)] seqs (map plain_column (columns t) ++ [wt]) []
    (make_ResTarget_with_func_char (Some "_d0") "nextval" DOMAINIDSEQ) "_d0" DOMAINIDSEQ VInt (columns t ++ ["_W"]) []
    (fun r => r ++ [VReal (weight r)]) (fun _ => []) tuples) as (seqs' & Hs' & He); try done.
  - apply Forall_app. split; [apply plain_column_not_numbering|by repeat constructor].
  - by right.
  - apply NoDup_remove_dups.
  - by rewrite !length_app, length_map.
  - intros r Hr. split; [|done]. rewrite !length_app. by rewrite (tuple_row t keys weight Hin r Hr).
  - rewrite !app_nil_r. rewrite (distinct_tuples ops t keys weight Hin _ wt w g); try done; [|by left].
    unfold weighted_rows. do 2 f_equal. apply map_ext. intros r. by rewrite app_nil_r.
  - exists seqs'. split; [done|]. rewrite He. unfold valued_rows, tuple_value. do 3 f_equal; [by rewrite <- app_assoc|].
    apply map_ext. intros r. by rewrite <- app_assoc.
Qed.

(** The keys with variable and weight. *)
Definition keyed_rows : table :=
  mk_table (keys ++ ["_v0"; "_S"])
    (map (fun k => k ++ [VInt (key_variable t keys weight seqs k); VReal (key_weight t keys weight k)]) key_values).

Lemma keyed_tuples (s : select) :
  targetList s = map plain_column keys ++ [make_ResTarget_with_func_char (Some "_v0") "nextval" VARIDSEQ;
    make_ResTarget_with_Func_ColumnRef "_S" "sum" "_W"] ->
  groupClause s = map column keys -> whereClause s = None -> sortClause s = [] -> distinctClause s = Some [] ->
  exists seqs', (forall q, q <> VARIDSEQ -> seqs' q = seqs q) /\
    eval_numbered ops s [(["temp"], weighted_rows t weight)] seqs = Some (keyed_rows, seqs').
Proof using Hin Hserver.
  intros Htl Hgc Hw Hsort Hd. destruct (sv_sum _ Hserver) as (sum & Hsum & Hsv).
  set (cs := columns t ++ ["_W"]).
  assert (Hcs : NoDup cs).
  { apply NoDup_app. split_and!; [apply Hin| |apply NoDup_singleton]. intros c Hc ->%list_elem_of_singleton.
    by apply (reserved_fresh t keys weight Hin "_W"); [naive_solver|]. }
  assert (Hkeys : forall c, c ∈ keys -> c ∈ cs) by (intros c Hc; apply elem_of_app; left; by apply (rin_known _ _ _ Hin)).
  destruct (eval_columns ops ["temp"] cs Hcs keys Hkeys) as (fs & Hfs & Hlen & Hr).
  destruct (group_columns ops ["temp"] cs Hcs keys Hkeys) as (tl & Htls & Hnames & Hrow).
  destruct (eval_column ["temp"] cs Hcs "_W") as (iw & Hiw & Hvw); [apply elem_of_app; right; by left|].
  set (ext := fun r => r ++ [VReal (weight r)]).
  assert (Hext : forall r, r ∈ tuples -> map (column_value cs (ext r)) keys = key_of r /\ column_value cs (ext r) "_W" = VReal (weight r)).
  { intros r Hrt. pose proof (tuple_row t keys weight Hin r Hrt) as Hrl. split.
    - apply map_ext_in. intros c Hc%list_elem_of_In. apply column_value_app_l; [done|by apply Hin].
    - unfold cs, ext. rewrite column_value_app_r; [done|done|]. apply (reserved_fresh t keys weight Hin); naive_solver. }
  set (sumt := make_ResTarget_with_Func_ColumnRef "_S" "sum" "_W").
  set (g := fun rs : list row => sum (map (fun r => map (fun f : fn => f r) [nth_value iw]) rs)).
  assert (Hg : group_target ops (paths [(["temp"], cs)]) sumt = Some ("_S", g)).
  { unfold group_target, sumt, make_ResTarget_with_Func_ColumnRef, column. cbn [val eval_group]. rewrite Hsum.
    cbn [map_option eval_expr]. rewrite Hiw. done. }
  destruct (eval_numbered_one ops s [(["temp"], weighted_rows t weight)] seqs (map plain_column keys) [sumt]
    (make_ResTarget_with_func_char (Some "_v0") "nextval" VARIDSEQ) "_v0" VARIDSEQ VInt keys ["_S"]
    (fun k => k) (fun k => [VReal (key_weight t keys weight k)]) key_values) as (seqs' & Hs' & He); try done.
  - apply plain_column_not_numbering.
  - by repeat constructor.
  - by right.
  - apply NoDup_remove_dups.
  - by rewrite length_map.
  - intros k (r & [_ <-]%elem_of_alternatives)%elem_of_key_values. split; [|done]. unfold RepairCorrect.key_of. by rewrite length_map.
  - assert (Hgr : forall x, grouped ops (set_distinctClause None (set_targetList x s)) = true).
    { intros x. unfold grouped. cbn [groupClause set_distinctClause set_targetList]. rewrite Hgc.
      pose proof (rin_some _ _ _ Hin). by destruct keys. }
    unfold eval_over. rewrite Hgr. unfold select_where.
    cbn [map fst snd groupClause sortClause whereClause targetList distinctClause set_distinctClause set_targetList columns weighted_rows].
    rewrite Hw, Hsort, Hgc. fold cs. rewrite Hfs. cbn [mbind option_bind fmap list_fmap snd].
    rewrite (proj2 (map_option_app _ _ _ (tl ++ [("_S", g)]))).
    2: { exists tl, [("_S", g)]. split_and!; [done| |done]. cbn [map_option]. by rewrite Hg. }
    cbn [mbind option_bind]. rewrite filtered_one. cbn [is_true rows weighted_rows].
    rewrite filter_true. fold ext.
    assert (Hfl : forall A (x y : A), match fs with [] => x | _ => y end = y).
    { intros A x y. destruct fs; [|done]. pose proof (rin_some _ _ _ Hin). by destruct keys. }
    rewrite Hfl, (groups_by_map _ key_of ext tuples) by (intros r Hrt; rewrite Hr; by apply Hext).
    unfold distinct_rows. cbn [distinctClause set_distinctClause mbind option_bind]. rewrite fmap_app, Hnames.
    do 2 f_equal. rewrite map_map. apply map_ext_in. intros k Hk%list_elem_of_In.
    fold (alternatives t keys weight k).
    assert (Hne : alternatives t keys weight k <> []).
    { apply elem_of_key_values in Hk as (r & Hra). intros H. rewrite H in Hra. by apply not_elem_of_nil in Hra. }
    assert (Hall : forall r, r ∈ alternatives t keys weight k -> r ∈ tuples /\ key_of r = k) by (intros r; apply elem_of_alternatives).
    rewrite fmap_app, map_app. cbn [fmap list_fmap map snd]. f_equal.
    + destruct (alternatives t keys weight k) as [|r l]; [done|]. cbn [map]. rewrite Hrow.
      destruct (Hall r) as [Hrt <-]; [by left|]. by apply Hext.
    + f_equal. unfold g, key_weight. rewrite map_map.
      replace (map (fun r => map (fun f : fn => f (ext r)) [nth_value iw]) (alternatives t keys weight k))
        with (map (fun q => [VReal q]) (map weight (alternatives t keys weight k))).
      * rewrite Hsv; [|by destruct (alternatives t keys weight k)]. f_equal. clear. induction (alternatives t keys weight k) as [|r l IH]; [done|].
        cbn [map foldr]. by rewrite IH.
      * rewrite map_map. apply map_ext_in. intros r Hra%list_elem_of_In. cbn [map]. rewrite Hvw.
        by rewrite (proj2 (Hext r (proj1 (Hall r Hra)))).
  - exists seqs'. split; [done|]. rewrite He. done.
Qed.
End Subselects.

(** ** Natural joins *)

Lemma equal3_true (a b : value) : is_true (equal3 a b) = true <-> a <> VNull /\ a = b.
Proof.
  assert (Heq : forall x y : value, is_true (VBool (bool_decide (x = y))) = true <-> x = y) by (intros; apply bool_decide_eq_true).
  destruct a, b; unfold equal3; rewrite ?Heq; naive_solver.
Qed.

Lemma once_NoDup (cs : list string) (c : string) : NoDup cs -> c ∈ cs -> length (filter (fun c' => c' = c) cs) = 1.
Proof.
  induction 1 as [|c' cs Hc' _ IH]; [by intros ?%not_elem_of_nil|]. intros Hc. rewrite filter_cons. case_decide as Hd.
  - subst c'. simpl. f_equal. destruct (filter _ cs) as [|d l] eqn:Hf; [done|]. exfalso.
    assert (Hin : d ∈ d :: l) by by left. rewrite <- Hf in Hin. apply list_elem_of_filter in Hin as [-> ?]. done.
  - apply IH. by apply elem_of_cons in Hc as [->|Hc].
Qed.

Section Joined.
Context (cs1 cs2 : list string) (H1 : NoDup cs1) (H2 : NoDup cs2).

Abbreviation common := (filter (fun c => c ∈ cs2) cs1).
Definition joined_columns : list string := common ++ others_of common cs1 cs1 ++ others_of common cs2 cs2.
Definition joined_row (r1 r2 : row) : row :=
  map (column_value cs1 r1) common ++ others_of common cs1 r1 ++ others_of common cs2 r2.

Lemma elem_of_others (co cs : list string) (c : string) : c ∈ others_of co cs cs <-> c ∈ cs /\ c ∉ co.
Proof.
  unfold others_of. induction cs as [|d cs IH]; cbn [map keep]; [split; [intros ?%not_elem_of_nil|intros [?%not_elem_of_nil _]]; done|].
  case_bool_decide; rewrite ?elem_of_cons, IH; naive_solver.
Qed.

Lemma NoDup_others (co cs : list string) : NoDup cs -> NoDup (others_of co cs cs).
Proof.
  induction 1 as [|d cs Hd _ IH]; [constructor|]. unfold others_of in *. cbn [map keep].
  case_bool_decide; [|done]. constructor; [|done]. intros [? _]%(elem_of_others co cs). done.
Qed.

Lemma others_value (co cs : list string) (r : row) (c : string) :
  length r = length cs -> c ∉ co -> column_value (others_of co cs cs) (others_of co cs r) c = column_value cs r c.
Proof.
  unfold column_value, others_of. intros Hl Hc. f_equal. revert r Hl.
  induction cs as [|d cs IH]; intros [|v r] Hl; try done. cbn [map keep lookup_column]. simpl in Hl.
  destruct (decide (d ∈ co)) as [Hd|Hd].
  - rewrite (bool_decide_eq_false_2 (d ∉ co)) by (by intros ?). rewrite (bool_decide_eq_false_2 (d = c)) by congruence.
    apply IH. lia.
  - rewrite (bool_decide_eq_true_2 (d ∉ co)) by done. cbn [lookup_column]. case_bool_decide; [done|]. apply IH. lia.
Qed.

Lemma mapped_value (f : string -> value) (cs : list string) (c : string) : c ∈ cs -> column_value cs (map f cs) c = f c.
Proof.
  unfold column_value. induction cs as [|d cs IH]; intros Hc; [by apply not_elem_of_nil in Hc|]. cbn [map lookup_column].
  case_bool_decide; [by subst|]. apply IH. by apply elem_of_cons in Hc as [->|Hc].
Qed.

Lemma length_others (co cs : list string) (r : row) : length r = length cs -> length (others_of co cs r) = length (others_of co cs cs).
Proof. apply length_keep. Qed.

Lemma NoDup_joined : NoDup joined_columns.
Proof using H1 H2.
  unfold joined_columns. apply NoDup_app. split_and!; [by apply NoDup_filter| |].
  - intros c [Hc2 Hc1]%list_elem_of_filter. rewrite elem_of_app, !elem_of_others, list_elem_of_filter. tauto.
  - apply NoDup_app. split_and!; [by apply NoDup_others| |by apply NoDup_others].
    intros c. rewrite !elem_of_others, list_elem_of_filter. tauto.
Qed.

Lemma elem_of_joined_columns (c : string) : c ∈ cs1 \/ c ∈ cs2 -> c ∈ joined_columns.
Proof.
  unfold joined_columns. rewrite !elem_of_app, !elem_of_others, list_elem_of_filter. intros Hc.
  destruct (decide (c ∈ cs1)), (decide (c ∈ cs2)); naive_solver.
Qed.

Lemma joined_value_l (r1 r2 : row) (c : string) :
  length r1 = length cs1 -> length r2 = length cs2 -> c ∈ cs1 -> column_value joined_columns (joined_row r1 r2) c = column_value cs1 r1 c.
Proof.
  intros L1 L2 Hc. unfold joined_columns, joined_row. destruct (decide (c ∈ common)) as [Hin|Hin].
  - rewrite column_value_app_l; [by apply mapped_value|by rewrite length_map|done].
  - rewrite column_value_app_r; [|by rewrite length_map|done].
    rewrite column_value_app_l; [by apply others_value|by apply length_others|by apply elem_of_others].
Qed.

Lemma joined_value_r (r1 r2 : row) (c : string) :
  length r1 = length cs1 -> length r2 = length cs2 -> c ∉ cs1 -> column_value joined_columns (joined_row r1 r2) c = column_value cs2 r2 c.
Proof.
  intros L1 L2 Hc. unfold joined_columns, joined_row.
  assert (Hin : c ∉ common) by (by intros [_ ?]%list_elem_of_filter).
  rewrite column_value_app_r; [|by rewrite length_map|done].
  rewrite column_value_app_r; [by apply others_value|by apply length_others|]. by intros [? _]%elem_of_others.
Qed.

Lemma length_joined (r1 r2 : row) :
  length r1 = length cs1 -> length r2 = length cs2 -> length (joined_row r1 r2) = length joined_columns.
Proof.
  intros L1 L2. unfold joined_row, joined_columns. rewrite !length_app, length_map.
  by rewrite (length_others common cs1 r1 L1), (length_others common cs2 r2 L2).
Qed.
End Joined.

(** A join in which every row has at most one partner. *)
Lemma natural_join_unique {A B} `{EqDecision A} (cs1 cs2 : list string) (f : B -> row) (g : A -> row) (h : B -> A)
    (l1 : list B) (l2 : list A) :
  NoDup cs1 -> NoDup cs2 -> NoDup l2 ->
  (forall b a, b ∈ l1 -> a ∈ l2 ->
     (forall c, c ∈ cs1 -> c ∈ cs2 -> column_value cs1 (f b) c <> VNull /\ column_value cs1 (f b) c = column_value cs2 (g a) c)
     <-> a = h b) ->
  natural_join (mk_table cs1 (map f l1)) (mk_table cs2 (map g l2)) =
  Some (mk_table (joined_columns cs1 cs2)
    (map (fun b => joined_row cs1 cs2 (f b) (g (h b))) (filter (fun b => bool_decide (h b ∈ l2) = true) l1))).
Proof.
  intros H1 H2 Hl2 Hm. unfold natural_join, common_columns. cbn [columns rows].
  rewrite (proj2 (forallb_forall _ _)).
  2: { intros c Hc%list_elem_of_In. apply list_elem_of_filter in Hc as [Hc2 Hc1].
       rewrite !once_NoDup by done. done. }
  f_equal. unfold joined_columns. f_equal. rewrite bind_map. fold (joined_row cs1 cs2).
  rewrite <- (bind_optional (fun b r2 => joined_row cs1 cs2 (f b) r2) (fun b => g (h b)) (fun b => bool_decide (h b ∈ l2))).
  revert Hm. induction l1 as [|b l1 IH]; intros Hm; [done|]. rewrite !bind_cons, IH by (intros; apply Hm; [by right|done]).
  f_equal. cbn [compose]. rewrite bind_singleton, filter_map_bool.
  rewrite (filter_one _ (h b) l2) by (done || (intros a Ha; rewrite <- (Hm b a) by (done || left);
    rewrite forallb_forall; setoid_rewrite <- list_elem_of_In; setoid_rewrite list_elem_of_filter; setoid_rewrite equal3_true;
    split; [intros Hc c Hc1 Hc2; by apply Hc|intros Hc c [Hc2 Hc1]; by apply Hc])).
  by case_bool_decide.
Qed.

(** ** The rewritten select *)

Lemma length_remove_dups {A} `{EqDecision A} (l : list A) : length (remove_dups l) <= length l.
Proof. induction l as [|a l IH]; [done|]. simpl. case_decide; simpl; lia. Qed.

Lemma position_bound {A} `{EqDecision A} (a : A) (l : list A) : a ∈ l -> position a l < length l.
Proof. intros Ha%position_lookup. by eapply lookup_lt_Some. Qed.

Section Joins.
Context (t : table) (keys : list string) (weight : row -> Qc) (seqs : sequences).
Context (Hin : repair_input t keys weight).

Abbreviation present := (filter (fun r => weighs weight r = true) (rows t)).

Lemma present_tuple (r : row) : r ∈ present -> r ∈ tuples t weight /\ r ∈ rows t.
Proof using Type. intros Hr. split; [by apply elem_of_remove_dups|]. by apply list_elem_of_filter in Hr as [_ ?]. Qed.

Lemma tuple_key (r : row) : r ∈ tuples t weight -> key_of t keys r ∈ key_values t keys weight.
Proof using Type. intros Hr. apply elem_of_key_values. exists r. by apply elem_of_alternatives. Qed.

(** The input joined with the valued tuples, and the result with the keys. *)
Definition valued_columns : list string := columns t ++ ["_W"; "_d0"].
Definition valued_row (r : row) : row := r ++ [VReal (weight r); VInt (tuple_value t weight seqs r)].
Definition keyed_columns : list string := keys ++ ["_v0"; "_S"].
Definition keyed_row (k : list value) : row :=
  k ++ [VInt (key_variable t keys weight seqs k); VReal (key_weight t keys weight k)].
Definition first_columns : list string := joined_columns (columns t) valued_columns.
Definition first_row (r : row) : row := joined_row (columns t) valued_columns r (valued_row r).
Definition second_columns : list string := joined_columns first_columns keyed_columns.
Definition second_row (r : row) : row := joined_row first_columns keyed_columns (first_row r) (keyed_row (key_of t keys r)).

Lemma new_columns (c : string) : c ∈ ["_v0"; "_d0"; "_W"; "_S"] -> c ∉ columns t.
Proof using Hin.
  intros Hc. repeat (apply elem_of_cons in Hc as [->|Hc]); try by apply not_elem_of_nil in Hc.
  1,2: by apply (condition_fresh t keys weight Hin).
  - apply (reserved_fresh t keys weight Hin). by right; left.
  - apply (reserved_fresh t keys weight Hin). by right; right.
Qed.

Lemma input_length (r : row) : r ∈ rows t -> length r = length (columns t).
Proof using Hin. pose proof (rin_rows _ _ _ Hin) as H. rewrite Forall_forall in H. by apply H. Qed.

Lemma input_value (r : row) (c : string) : r ∈ rows t -> c ∈ columns t -> column_value (columns t) r c <> VNull.
Proof using Hin.
  intros Hr Hc Hv. pose proof (rin_nulls _ _ _ Hin) as Hnulls. rewrite Forall_forall in Hnulls. apply (Hnulls r Hr).
  destruct (lookup_column_is_Some (columns t) c r Hc (input_length r Hr)) as [v Hl]. unfold column_value in Hv.
  rewrite Hl in Hv. simpl in Hv. subst v. apply lookup_column_zip with (q := []) in Hl. by apply elem_of_zip_r in Hl.
Qed.

Lemma valued_NoDup : NoDup valued_columns.
Proof using Hin.
  apply NoDup_app. split_and!; [apply Hin| |by apply (bool_decide_unpack _); vm_compute].
  intros c Hc Hc'. apply (new_columns c); [clear -Hc'; set_solver|done].
Qed.

Lemma keyed_NoDup : NoDup keyed_columns.
Proof using Hin.
  apply NoDup_app. split_and!; [apply Hin| |by apply (bool_decide_unpack _); vm_compute].
  intros c Hc Hc'. apply (new_columns c); [clear -Hc'; set_solver|by apply Hin].
Qed.

Lemma first_NoDup : NoDup first_columns.
Proof using Hin. apply NoDup_joined; [apply Hin|apply valued_NoDup]. Qed.

Lemma valued_length (r : row) : r ∈ rows t -> length (valued_row r) = length valued_columns.
Proof using Hin. intros Hr. unfold valued_row, valued_columns. by rewrite !length_app, (input_length r Hr). Qed.

Lemma keyed_length (r : row) : length (keyed_row (key_of t keys r)) = length keyed_columns.
Proof using Type. unfold keyed_row, keyed_columns, key_of. by rewrite !length_app, length_map. Qed.

Lemma first_length (r : row) : r ∈ rows t -> length (first_row r) = length first_columns.
Proof using Hin. intros Hr. apply length_joined; [by apply input_length|by apply valued_length]. Qed.

Lemma first_value (r : row) (c : string) :
  r ∈ rows t -> c ∈ columns t -> column_value first_columns (first_row r) c = column_value (columns t) r c.
Proof using Hin. intros Hr Hc. apply joined_value_l; [by apply input_length|by apply valued_length|done]. Qed.

Lemma first_new_value (r : row) (c : string) :
  r ∈ rows t -> c ∈ ["_W"; "_d0"] ->
  column_value first_columns (first_row r) c =
  column_value ["_W"; "_d0"] [VReal (weight r); VInt (tuple_value t weight seqs r)] c.
Proof using Hin.
  intros Hr Hc. assert (Hc' : c ∉ columns t) by (apply new_columns; set_solver).
  etrans; [apply joined_value_r; [by apply input_length|by apply valued_length|done]|].
  apply column_value_app_r; [by apply input_length|done].
Qed.

Lemma first_without (c : string) : c ∈ ["_v0"; "_S"] -> c ∉ first_columns.
Proof using Hin.
  intros Hc. unfold first_columns, joined_columns. rewrite !elem_of_app, !elem_of_others, list_elem_of_filter.
  assert (Hc' : c ∉ columns t) by (apply new_columns; clear -Hc; set_solver).
  intros [[_ ?]|[[? _]|[H _]]]; [done..|]. unfold valued_columns in H. rewrite elem_of_app in H. destruct H as [?|H]; [done|].
  repeat (apply elem_of_cons in Hc as [->|Hc]); try by apply not_elem_of_nil in Hc. all: clear -H; set_solver.
Qed.

Lemma first_join : natural_join t (valued_rows t weight seqs) = Some (mk_table first_columns (map first_row present)).
Proof using Hin.
  pose proof (natural_join_unique (columns t) valued_columns (fun r => r) valued_row (fun r => r) (rows t) (tuples t weight)) as H.
  rewrite map_id in H. replace t with (mk_table (columns t) (rows t)) at 1 by by destruct t.
  unfold valued_rows. fold valued_columns valued_row. rewrite H; [|apply Hin|apply valued_NoDup|apply NoDup_remove_dups|].
  - do 3 f_equal. apply filter_ext_elem. intros r Hr. unfold weighs. destruct (bool_decide (weight r = 0%Qc)) eqn:Hw.
    + apply bool_decide_eq_false. intros [_ Hne]%elem_of_tuples. by apply bool_decide_eq_true in Hw.
    + apply bool_decide_eq_true, elem_of_tuples. by apply bool_decide_eq_false in Hw.
  - intros r a Hr [Ha _]%elem_of_tuples. split.
    + intros Heq. rewrite <- (column_value_all (columns t) a), <- (column_value_all (columns t) r)
        by (by apply Hin || by apply input_length).
      apply map_ext_in. intros c Hc%list_elem_of_In. destruct (Heq c Hc) as [_ ->]; [by apply elem_of_app; left|].
      symmetry. apply column_value_app_l; [by apply input_length|done].
    + intros -> c Hc _. split; [by apply input_value|]. symmetry. apply column_value_app_l; [by apply input_length|done].
Qed.

Lemma second_join :
  natural_join (mk_table first_columns (map first_row present)) (keyed_rows t keys weight seqs) =
  Some (mk_table second_columns (map second_row present)).
Proof using Hin.
  assert (Hkl : forall k, k ∈ key_values t keys weight -> length k = length keys).
  { intros k (r & [_ <-]%elem_of_alternatives)%elem_of_key_values. unfold key_of. by rewrite length_map. }
  unfold keyed_rows. fold keyed_columns keyed_row.
  rewrite (natural_join_unique first_columns keyed_columns first_row keyed_row (key_of t keys));
    [|apply first_NoDup|apply keyed_NoDup|apply NoDup_remove_dups|].
  - do 3 f_equal. rewrite <- (filter_true present) at 2. apply filter_ext_elem. intros r [Ht _]%present_tuple.
    apply bool_decide_eq_true. by apply tuple_key.
  - intros r k [_ Hr]%present_tuple Hk.
    assert (Hkey : forall c, c ∈ keys -> column_value keyed_columns (keyed_row k) c = column_value keys k c).
    { intros c Hc. apply column_value_app_l; [by apply Hkl|done]. }
    split.
    + intros Heq. rewrite <- (column_value_all keys k) by (by apply Hin || by apply Hkl). unfold key_of. apply map_ext_in.
      intros c Hc%list_elem_of_In. rewrite <- Hkey by done. destruct (Heq c) as [_ <-].
      * apply elem_of_joined_columns. left. by apply Hin.
      * by apply elem_of_app; left.
      * apply first_value; [done|by apply Hin].
    + intros -> c Hc1 [Hc|Hc]%elem_of_app; [|by destruct (first_without c Hc)].
      rewrite Hkey, first_value by (done || by apply Hin). split; [apply input_value; [done|by apply Hin]|].
      unfold key_of. symmetry. by apply mapped_value.
Qed.

(** The columns of the joins and the values of a joined row. *)
Lemma second_columns_spec :
  NoDup second_columns /\ (forall c, c ∈ columns t -> c ∈ second_columns) /\
  (forall c, c ∈ ["_v0"; "_d0"; "_W"; "_S"] -> c ∈ second_columns).
Proof using Hin.
  split_and!; [apply NoDup_joined; [apply first_NoDup|apply keyed_NoDup]|..]; intros c Hc; apply elem_of_joined_columns.
  - left. apply elem_of_joined_columns. by left.
  - destruct (decide (c ∈ ["_v0"; "_S"])) as [?|Hn]; [right; by apply elem_of_app; right|].
    left. apply elem_of_joined_columns. right. apply elem_of_app; right. clear -Hc Hn; set_solver.
Qed.

Definition second_values (cs : list string) (f : row -> row) (r : row) : Prop :=
  (forall c, c ∈ columns t -> column_value cs (f r) c = column_value (columns t) r c) /\
  column_value cs (f r) "_v0" = VInt (key_variable t keys weight seqs (key_of t keys r)) /\
  column_value cs (f r) "_d0" = VInt (tuple_value t weight seqs r) /\
  column_value cs (f r) "_W" = VReal (weight r) /\
  column_value cs (f r) "_S" = VReal (key_weight t keys weight (key_of t keys r)).

Lemma second_row_values (r : row) : r ∈ present -> second_values second_columns second_row r.
Proof using Hin.
  intros [_ Hr]%present_tuple.
  assert (Hkey : forall c, c ∈ ["_v0"; "_S"] -> column_value second_columns (second_row r) c =
    column_value ["_v0"; "_S"] [VInt (key_variable t keys weight seqs (key_of t keys r));
      VReal (key_weight t keys weight (key_of t keys r))] c).
  { intros c Hc. etrans; [apply joined_value_r; [by apply first_length|apply keyed_length|by apply first_without]|].
    apply column_value_app_r; [unfold key_of; by rewrite length_map|].
    intros Hk. apply (new_columns c); [set_solver|by apply Hin]. }
  assert (Hfirst : forall c, c ∈ first_columns -> column_value second_columns (second_row r) c =
    column_value first_columns (first_row r) c).
  { intros c Hc. apply joined_value_l; [by apply first_length|apply keyed_length|done]. }
  assert (Hnew : forall c, c ∈ ["_W"; "_d0"] -> c ∈ first_columns).
  { intros c Hc. apply elem_of_joined_columns. right. by apply elem_of_app; right. }
  split; [|split_and!].
  - intros c Hc. rewrite Hfirst; [by apply first_value|]. apply elem_of_joined_columns. by left.
  - rewrite Hkey by set_solver. done.
  - rewrite Hfirst by (apply Hnew; set_solver). rewrite first_new_value by (done || set_solver). done.
  - rewrite Hfirst by (apply Hnew; set_solver). rewrite first_new_value by (done || set_solver). done.
  - rewrite Hkey by set_solver. done.
Qed.
End Joins.

Section Outer.
Context (ops : sql_ops) (t : table) (keys : list string) (weight : row -> Qc) (seqs : sequences).
Context (Hin : repair_input t keys weight) (Hserver : server_ok ops).
Context (Hfit : forall q, q = VARIDSEQ \/ q = DOMAINIDSEQ ->
  (0 <= seqs q)%Z /\ (seqs q + Z.of_nat (length (rows t)) < 2 ^ 31)%Z).

Abbreviation present := (filter (fun r => weighs weight r = true) (rows t)).

Lemma numbers_fit (r : row) :
  r ∈ tuples t weight ->
  (- 2 ^ 31 <= key_variable t keys weight seqs (key_of t keys r) < 2 ^ 31)%Z /\
  (- 2 ^ 31 <= tuple_value t weight seqs r < 2 ^ 31)%Z.
Proof using Hfit.
  intros Hr. pose proof (position_bound _ _ Hr) as Hp. pose proof (position_bound _ _ (tuple_key t keys weight r Hr)) as Hk.
  assert (Ht : length (tuples t weight) <= length (rows t)).
  { etrans; [apply length_remove_dups|]. apply length_filter. }
  assert (Hks : length (key_values t keys weight) <= length (tuples t weight)).
  { unfold key_values. etrans; [apply length_remove_dups|]. by rewrite length_map. }
  destruct (Hfit VARIDSEQ) as [V1 V2]; [by left|]. destruct (Hfit DOMAINIDSEQ) as [D1 D2]; [by right|].
  unfold key_variable, tuple_value. lia.
Qed.

Definition repair_targets : list target :=
  map plain_column (columns t) ++
  [type_cast_to_int4 (makeResTargetWithColumnRef None (catStrInt VARNAME 0));
   type_cast_to_int4 (makeResTargetWithColumnRef None (catStrInt DOMAINNAME 0));
   type_cast_weight_by (make_ResTarget_with_AExpr (catStrInt PROBNAME 0) (make_division_expr "_W" "_S"))].

(** The outer select over joined rows with the right values. *)
Lemma repaired_rows (s : select) (cs : list string) (f : row -> row) :
  NoDup cs -> (forall c, c ∈ columns t -> c ∈ cs) ->
  (forall c, c ∈ ["_v0"; "_d0"; "_W"; "_S"] -> c ∈ cs) ->
  (forall r, r ∈ present -> second_values t keys weight seqs cs f r) ->
  targetList s = repair_targets -> whereClause s = None -> groupClause s = [] -> sortClause s = [] ->
  distinctClause s = None ->
  eval_over ops s [([], mk_table cs (map f present))] = Some (repaired t keys weight seqs).
Proof using Hin Hserver Hfit.
  intros Hcs Hcols Hnew Hf Htl Hw Hg Hsort Hd.
  destruct (target_columns ops [] cs Hcs (columns t) Hcols) as (tl & Htls & Hnames & Hrow).
  { apply (reserved_fresh t keys weight Hin). by left. }
  destruct (eval_column [] cs Hcs "_v0") as (iv & Hiv & Hvv); [apply Hnew; set_solver|].
  destruct (eval_column [] cs Hcs "_d0") as (idom & Hid & Hvd); [apply Hnew; set_solver|].
  destruct (eval_column [] cs Hcs "_W") as (iw & Hiw & Hvw); [apply Hnew; set_solver|].
  destruct (eval_column [] cs Hcs "_S") as (isum & His & Hvs); [apply Hnew; set_solver|].
  assert (Hgr : grouped ops s = false).
  { unfold grouped. rewrite Hg, Htl. unfold repair_targets. rewrite existsb_app. apply orb_false_iff. split; [|done].
    clear. induction (columns t) as [|c l IH]; [done|]. done. }
  set (int4 := cast ops ["pg_catalog"; "int4"]). set (float4 := cast ops ["pg_catalog"; "float4"]).
  set (last := [[("_v0", fun r => int4 (nth_value iv r))]; [("_d0", fun r => int4 (nth_value idom r))];
    [("_p0", fun r => float4 (apply_op ops "/" (nth_value iw r) (nth_value isum r)))]]).
  assert (Hall : map_option (eval_target ops [([], cs)]) (targetList s) = Some (tl ++ last)).
  { rewrite Htl. unfold repair_targets. apply map_option_app. exists tl, last. split_and!; [done| |done].
    unfold eval_target, type_cast_to_int4, type_cast_weight_by, makeResTargetWithColumnRef, make_ResTarget_with_AExpr,
      make_division_expr, makeA_Expr, column. cbn [map_option val eval_expr mbind option_bind].
    change (catStrInt VARNAME 0) with "_v0". change (catStrInt DOMAINNAME 0) with "_d0". rewrite Hiv, Hid, Hiw, His. done. }
  unfold eval_over. cbn [map fst snd columns]. rewrite Hgr, Hsort. unfold select_where. rewrite Hw.
  cbn [mbind option_bind map_option]. rewrite Hall. cbn [mbind option_bind fmap list_fmap snd].
  rewrite filtered_one. cbn [is_true rows]. rewrite filter_true. unfold distinct_rows. rewrite Hd. cbn [mbind option_bind].
  rewrite concat_app, !fmap_app, Hnames. unfold repaired. do 2 f_equal.
  rewrite map_map. apply map_ext_in. intros r Hr%list_elem_of_In. destruct (Hf r Hr) as (Hc & Hv & Hdv & Hwv & Hsv).
  destruct (present_tuple t weight r Hr) as [Ht Hrr]. destruct (numbers_fit r Ht) as [Bv Bd].
  unfold project. rewrite map_app. fold (project (concat tl).*2 (f r)). rewrite Hrow. f_equal.
  - transitivity (map (column_value (columns t) r) (columns t)); [apply map_ext_in; intros c Hin'%list_elem_of_In; by apply Hc|].
    apply column_value_all; [apply Hin|]. by apply (tuple_row t keys weight Hin).
  - unfold last. cbn [concat app fmap list_fmap snd map]. rewrite Hvv, Hvd, Hvw, Hvs, Hv, Hdv, Hwv, Hsv.
    unfold int4, float4. rewrite !(sv_int4 _ Hserver) by done. unfold repair_triple. do 3 f_equal.
    change (apply_op ops "/" ?a ?b) with (operator ops "/" a b). rewrite (sv_div _ Hserver); [apply (sv_float4 _ Hserver)|].
    pose proof (key_weight_positive t keys weight Hin _ (tuple_key t keys weight r Ht)) as Hpos. intros H0. rewrite H0 in Hpos.
    by apply Qclt_not_eq in Hpos.
Qed.

End Outer.

(** ** Running the rewritten select *)

Section Run.
Context (ops : sql_ops) (db : RangeVar -> option table).

Lemma run_subselect (s : select) (alias : string) (seqs : sequences) :
  run_from ops db (makeRangeSubselect alias s) seqs = '(t, seqs) ← run_select ops db s seqs; Some ([alias], t, seqs).
Proof.
  unfold run_select. cbn [makeRangeSubselect run_from]. destruct (in_fragment (server_view s)); [|done].
  destruct (thread (run_from ops db) (fromClause s) seqs) as [[ts seqs']|]; [|done]. cbn [mbind option_bind].
  by destruct (eval_numbered ops s ts seqs') as [[t seqs'']|].
Qed.

(** A select over one relation. *)
Lemma run_over (s : select) (n : node) (q : list string) (t : table) (seqs seqs' : sequences) :
  in_fragment (server_view s) = true -> fromClause s = [n] -> run_from ops db n seqs = Some (q, t, seqs') ->
  run_select ops db s seqs = eval_numbered ops s [(q, t)] seqs'.
Proof. intros Hf Hfrom Hn. unfold run_select. rewrite Hf, Hfrom. cbn [thread]. by rewrite Hn. Qed.

Lemma eval_unnumbered (s : select) (ts : list (list string * table)) (seqs : sequences) :
  Forall (fun r => is_numbering ops r = false) (targetList s) ->
  eval_numbered ops s ts seqs = t ← eval_over ops s ts; Some (t, seqs).
Proof. intros H. unfold eval_numbered. by rewrite (proj1 (numbering_others ops _ H)). Qed.

(** The fields that repair-key sets, the server does not read. *)
Lemma run_without_into (s : select) (w : option target) (i : option IntoClause) :
  run_select ops db (set_weightby w (set_intoClause i s)) = run_select ops db s.
Proof. by destruct s. Qed.

Lemma run_marked (s : select) (i : option IntoClause) (b : option (list bool)) (n : nat) (ty : ascii) :
  run_select ops db (set_isFromRepairKey b (set_dimension n (set_intoClause i (set_tabletype ty s)))) = run_select ops db s.
Proof. by destruct s. Qed.

Lemma run_into (s : select) (i : option IntoClause) : run_select ops db (set_intoClause i s) = run_select ops db s.
Proof. by destruct s. Qed.
End Run.

Section Rewritten.
Context (ops : sql_ops) (db : RangeVar -> option table) (s : select).
Context (t : table) (keys : list string) (weight : row -> Qc).

(** The column that a target names. *)
Definition simple_name (r : target) : option string :=
  match name r, val r with
  | Some nm, _ => Some nm
  | None, ColumnRef [c] => Some c
  | _, _ => None
  end.

(** The select below repair-key: the server runs it to [t] and takes no numbers; its
    targets name the columns; the keys are columns and the weight is an expression over them. *)
Record repair_select : Prop := {
  rs_run : forall seqs, run_select ops db s seqs = Some (t, seqs);
  rs_targets : map simple_name (targetList s) = map Some (columns t);
  rs_keys : repairkey s = map plain_column keys;
  rs_weight : weight_by ops t weight (weightby s);
  rs_input : repair_input t keys weight }.
Context (Hs : repair_select) (Hserver : server_ok ops).

Lemma repair_columns : get_repair_key_target_list s = map plain_column (columns t).
Proof using Hs.
  pose proof (rs_targets Hs) as H. unfold get_repair_key_target_list. revert H. generalize (targetList s) (columns t).
  intros tl. induction tl as [|r tl IH]; intros [|c cs]; [done..|]. cbn [map]. intros [= Hr Htl]. rewrite (IH cs) by done.
  f_equal. destruct r as [[nm|] v]; cbn in *; [by injection Hr as ->|].
  destruct v; try done. destruct fields as [|d [|]]; try done. by injection Hr as ->.
Qed.

Lemma column_references (l : list string) : target_list_to_ColumnRef (map plain_column l) = map column l.
Proof. unfold target_list_to_ColumnRef. by rewrite map_map. Qed.

Definition last_target (w : option target) : target :=
  match w with Some r => r | None => make_ResTarget_with_float (Some "_W") "1.0" end.

Definition weight_test (w : option target) : option node :=
  (fun r => makeA_Expr AEXPR_OP ["<>"] (val r) zero_const) <$> w.

(** A tested weight as a target and as a condition. *)
Lemma tested_weight_by (w : option target) :
  weight_by ops t weight w ->
  let w' := tested_weight <$> w in
  weight_by ops t weight w' /\ is_numbering ops (last_target w') = false /\
  (exists g, group_target ops (paths [(["temp"], columns t)]) (last_target w') = Some ("_W", g) /\
     forall r rs, r ∈ rows t -> g (r :: rs) = VReal (weight r)) /\
  exists f, match weight_test w' with
            | None => Some (fun _ => VBool true)
            | Some e => eval_expr ops (paths [(["temp"], columns t)]) e
            end = Some f /\ forall r, r ∈ rows t -> is_true (f r) = weighs weight r.
Proof using Hs Hserver.
  intros Hw w'. destruct w as [r|]; cbn [fmap option_fmap option_map] in w'; unfold w'.
  - destruct Hw as [Hnm Hw].
    destruct (tested_weight_node ops t weight Hserver (rin_weight _ _ _ (rs_input Hs)) r Hw) as [Hw' (f & Hf & Hv)].
    split; [by split|]. split; [by unfold is_numbering; apply bool_decide_eq_false; intros [? ?]|]. split.
    + destruct Hw' as (Hagg & f' & g & Hf' & Hg & Hv'). rewrite Hf in Hf'. injection Hf' as <-.
      exists g. split; [|intros a rs Ha; rewrite <- (Hv a Ha); by apply (eval_group_first _ _ _ _ _ Hagg Hf Hg)].
      unfold group_target, last_target. rewrite Hg. unfold target_name. cbn [name tested_weight]. by rewrite Hnm.
    + set (test := makeA_Expr AEXPR_OP ["<>"] (val (tested_weight r)) zero_const).
      assert (Ht : eval_expr ops (paths [(["temp"], columns t)]) test =
        Some (fun a => apply_op ops "<>" (f a) (float_value ops "0"))).
      { unfold test, makeA_Expr, zero_const. cbn [eval_expr]. by rewrite Hf. }
      exists (fun a => apply_op ops "<>" (f a) (float_value ops "0")). split; [exact Ht|].
      intros a Ha. rewrite (Hv a Ha), (sv_zero _ Hserver). unfold weighs.
      change (is_true (apply_op ops "<>" (VReal (weight a)) (VReal 0%Qc)))
        with (negb (bool_decide (VReal (weight a) = VReal 0%Qc))). f_equal. apply bool_decide_ext. split; [by intros [= ?]|by intros ->].
  - split; [done|]. split; [done|]. split.
    + exists (fun _ => float_value ops "1.0"). split; [done|]. intros a rs _. rewrite (sv_one _ Hserver). by rewrite Hw.
    + eexists. split; [done|]. intros a _. unfold weighs. rewrite Hw. by rewrite bool_decide_eq_false_2.
Qed.

(** The input as the subqueries see it. *)
Lemma run_input (w : option target) (alias : string) (seqs : sequences) :
  run_from ops db (makeRangeSubselect alias (set_weightby w (set_intoClause None s))) seqs = Some ([alias], t, seqs).
Proof using Hs. by rewrite run_subselect, run_without_into, (rs_run Hs). Qed.

Lemma run_domains (seqs : sequences) (w w1 : option target) (new : option target -> select) :
  weight_by ops t weight w ->
  assign_domain_ID (set_intoClause None s) (map plain_column (columns t)) (map column (columns t)) w = (new, w1) ->
  w1 = tested_weight <$> w /\
  forall w2, weight_by ops t weight w2 -> exists seqs', (forall q, q <> DOMAINIDSEQ -> seqs' q = seqs q) /\
    run_from ops db (makeRangeSubselect "temp2" (new (tested_weight <$> w2))) seqs =
      Some (["temp2"], valued_rows t weight seqs, seqs').
Proof using Hs Hserver.
  intros Hw. unfold assign_domain_ID, duplicate_removal. intros [= <- <-]. split; [done|]. intros w2 Hw2.
  destruct (tested_weight_by w Hw) as (_ & _ & _ & f & Hf & Hfv).
  destruct (tested_weight_by w2 Hw2) as (_ & Hn & (g & Hg & Hgv) & _).
  fold (weight_test (tested_weight <$> w)) (last_target (tested_weight <$> w2)).
  set (from := makeRangeSubselect "temp" _). set (new := set_targetList _ _).
  destruct (valued_tuples ops t keys weight seqs (rs_input Hs) new (last_target (tested_weight <$> w2)) f g)
    as (seqs' & Hseqs & Hev); try done.
  exists seqs'. split; [done|]. rewrite run_subselect.
  rewrite (run_over ops db new from ["temp"] t seqs seqs) by (done || apply run_input). by rewrite Hev.
Qed.

Lemma run_vars (seqs : sequences) (w w2 : option target) (new : option target -> select) :
  weight_by ops t weight w ->
  assign_var_ID (set_intoClause None s) (map plain_column (columns t)) (map column (columns t)) (map plain_column keys) w = (new, w2) ->
  w2 = tested_weight <$> w /\ exists seqs', (forall q, q <> VARIDSEQ -> seqs' q = seqs q) /\
    run_from ops db (makeRangeSubselect "temp3" (new w2)) seqs = Some (["temp3"], keyed_rows t keys weight seqs, seqs').
Proof using Hs Hserver.
  intros Hw. unfold assign_var_ID, duplicate_removal. intros [= <- <-]. split; [done|].
  destruct (tested_weight_by w Hw) as (_ & Hn & (g & Hg & Hgv) & f & Hf & Hfv).
  fold (weight_test (tested_weight <$> w)) (last_target (tested_weight <$> w)).
  set (from := makeRangeSubselect "temp" (set_weightby _ _)). set (sub := set_whereClause _ _).
  rewrite column_references. set (new := set_distinctClause _ _).
  destruct (keyed_tuples ops t keys weight seqs (rs_input Hs) Hserver new) as (seqs' & Hseqs & Hev); try done.
  exists seqs'. split; [done|]. rewrite run_subselect.
  assert (Hsub : run_from ops db (makeRangeSubselect "temp" sub) seqs = Some (["temp"], weighted_rows t weight, seqs)).
  { rewrite run_subselect. rewrite (run_over ops db sub from ["temp"] t seqs seqs) by (done || apply run_input).
    rewrite eval_unnumbered.
    - rewrite (distinct_tuples ops t keys weight (rs_input Hs) sub (last_target (tested_weight <$> w)) f g); try done. by right.
    - cbn. apply Forall_app. split; [apply plain_column_not_numbering|by repeat constructor]. }
  rewrite (run_over ops db new (makeRangeSubselect "temp" sub) ["temp"] (weighted_rows t weight) seqs seqs) by done. by rewrite Hev.
Qed.

(** The numbers of the sequences fit the columns of 32 bits. *)
Definition numbers_ok (seqs : sequences) : Prop := forall q, q = VARIDSEQ \/ q = DOMAINIDSEQ ->
  (0 <= seqs q)%Z /\ (seqs q + Z.of_nat (length (rows t)) < 2 ^ 31)%Z.

Lemma run_rewritten (seqs : sequences) :
  numbers_ok seqs ->
  exists seqs', run_select ops db (rewrite_repair_key s) seqs = Some (repaired t keys weight seqs, seqs').
Proof using Hs Hserver.
  intros Hfit. unfold rewrite_repair_key. rewrite repair_columns, column_references, (rs_keys Hs).
  destruct (assign_domain_ID _ _ _ _) as [domains w1] eqn:Hd. destruct (assign_var_ID _ _ _ _ w1) as [vars w2] eqn:Hv.
  assert (Hw : weightby (set_intoClause None s) = weightby s) by by destruct s. rewrite Hw in Hd.
  destruct (run_domains seqs _ _ _ (rs_weight Hs) Hd) as [-> Hdom].
  assert (Hw1 : weight_by ops t weight (tested_weight <$> weightby s)) by apply (tested_weight_by _ (rs_weight Hs)).
  destruct (Hdom _ Hw1) as (seqs1 & Hseqs1 & Hrun2).
  destruct (run_vars seqs1 _ _ _ Hw1 Hv) as (-> & seqs2 & _ & Hrun3).
  assert (Hkeyed : keyed_rows t keys weight seqs1 = keyed_rows t keys weight seqs).
  { unfold keyed_rows, key_variable. by rewrite Hseqs1. }
  rewrite Hkeyed in Hrun3.
  destruct (second_columns_spec t keys weight (rs_input Hs)) as (Hcs & Hcols & Hnew).
  set (sub2 := makeRangeSubselect "temp2" _) in *. set (sub3 := makeRangeSubselect "temp3" _) in *.
  set (sub1 := makeRangeSubselect "temp1" _). exists seqs2. rewrite run_into.
  set (outer := set_fromClause _ _). set (cs := second_columns t keys) in *. set (f := second_row t keys weight seqs).
  rewrite (run_over ops db outer (make_natural_join (make_natural_join sub1 sub2) sub3) []
    (mk_table cs (map f (filter (fun r => weighs weight r = true) (rows t)))) seqs seqs2); [|done|done|].
  - rewrite eval_unnumbered.
    + rewrite (repaired_rows ops t keys weight seqs (rs_input Hs) Hserver Hfit outer cs f); try done.
      apply (second_row_values t keys weight seqs (rs_input Hs)).
    + cbn. apply Forall_app. split; [apply plain_column_not_numbering|by repeat constructor].
  - unfold make_natural_join. cbn [run_from]. unfold sub1. rewrite run_input. cbn [mbind option_bind].
    rewrite Hrun2. cbn [mbind option_bind]. rewrite (first_join t keys weight seqs (rs_input Hs)).
    cbn [mbind option_bind]. rewrite Hrun3. cbn [mbind option_bind].
    by rewrite (second_join t keys weight seqs (rs_input Hs)).
Qed.
End Rewritten.

(** The statement as the server gets it: the input with unqualified columns, rewritten and
    marked as a U-relation with one triple. *)
Definition repair_source (s : select) : select := set_targetList (remove_relation_reference (targetList s)) s.

Lemma process_repair_key (ops : sql_ops) (db : RangeVar -> option table) (s : select) (t : table) (keys : list string)
    (weight : row -> Qc) (seqs : sequences) :
  op s = SETOP_NONE -> repair_select ops db (repair_source s) t keys weight -> server_ok ops -> numbers_ok t seqs ->
  exists s' seqs', ProcessRepairKey s = Ok s' /\ dimension s' = 1 /\ tabletype s' = TABLETYPE_URELATION /\
    run_select ops db s' seqs = Some (repaired t keys weight seqs, seqs').
Proof.
  intros Hop Hs Hserver Hfit. unfold ProcessRepairKey, rewrite_set_operation. rewrite Hop. cbn [mbind outcome_bind].
  fold (repair_source s). destruct (run_rewritten ops db (repair_source s) t keys weight Hs Hserver seqs Hfit) as (seqs' & Hrun).
  eexists _, seqs'. split_and!; [reflexivity|..]; [done|done|]. unfold set_into_type. by rewrite run_marked.
Qed.

(** ** The worlds of picked tuples

    Every row with a probability other than 0 gets a variable of its own, with value 1 when
    the row is picked. *)

Section Picked.
Context (names : list string) (data : row -> row) (p : row -> Qc) (candidates : list row) (first : Z).

(** [candidates] are the joined rows below pick-tuples, [data] their columns in the answer. *)
Definition pickable : list row := filter (fun j => weighs p j = true) candidates.

Definition pick_variable (i : nat) : Z := (first + Z.of_nat i)%Z.

Definition picked : table :=
  mk_table (names ++ ["_v0"; "_d0"; "_p0"])
    (imap (fun i j => data j ++ [VInt (pick_variable i); VInt 1; VReal (p j)]) pickable).

Definition pick_worlds : wtable := imap (fun i j => (pick_variable i, [(1%Z, p j); (0%Z, (1 - p j)%Qc)])) pickable.

(** The rows that a world picks. *)
Definition picks (th : world) : list bool := imap (fun i _ => sat_lit (pick_variable i, 1%Z) th) pickable.

Context (Hnames : Forall (fun c => is_data c = true) names).
Context (Hdata : forall j, j ∈ candidates -> length (data j) = length names).
Context (Hp : forall j, j ∈ candidates -> (0 <= p j)%Qc /\ (p j <= 1)%Qc).

Lemma elem_of_pickable (j : row) : j ∈ pickable -> j ∈ candidates.
Proof. by intros [_ ?]%list_elem_of_filter. Qed.

(** The relation of a world has the data of the rows that it picks. *)
Lemma instance_picked (th : world) : instance th 1 picked = mk_table names (keep (picks th) (map data pickable)).
Proof using Hnames Hdata.
  unfold instance, picked, picks. cbn [columns rows].
  assert (Hm : Forall (fun b => b = true) (map is_data names)) by (apply Forall_fmap; eapply Forall_impl; [exact Hnames|done]).
  unfold data_mask. rewrite map_app.
  assert (Hkeep : forall A (l l' : list A), length l = length names ->
    keep (map is_data names ++ map is_data ["_v0"; "_d0"; "_p0"]) (l ++ l') = l).
  { intros A l l' Hl. rewrite keep_app by (by rewrite length_map). rewrite keep_true by (rewrite ?length_map; done).
    rewrite (keep_false (map is_data _)) by by repeat constructor. apply app_nil_r. }
  set (mask := map is_data names ++ map is_data ["_v0"; "_d0"; "_p0"]) in Hkeep |- *. clearbody mask.
  f_equal; [by apply Hkeep|].
  assert (Hfresh : forall c, is_data c = false -> c ∉ names).
  { intros c Hc Hin. rewrite Forall_forall in Hnames. rewrite Hnames in Hc; done. }
  assert (Hl : forall j, j ∈ pickable -> length (data j) = length names) by (intros j Hj; by apply Hdata, elem_of_pickable).
  revert Hl. generalize pick_variable. induction pickable as [|j l IH]; intros v Hl; [done|].
  rewrite !imap_cons, filter_cons_bool, map_app. cbn [map keep].
  assert (Hh : row_holds th 1 (names ++ ["_v0"; "_d0"; "_p0"]) (data j ++ [VInt (v 0); VInt 1; VReal (p j)]) = sat_lit (v 0, 1%Z) th).
  { unfold row_holds. cbn [seq forallb]. rewrite andb_true_r. unfold triple_holds.
    rewrite !lookup_column_skip by (first [apply Hl; by left | by apply Hfresh]). done. }
  rewrite Hh. pose proof (IH (v ∘ S) ltac:(intros; apply Hl; by right)) as IH'. unfold compose in IH' |- *. cbv beta in IH' |- *. rewrite IH'.
  destruct (sat_lit (v 0, 1%Z) th); [|done]. cbn [map app]. f_equal. apply Hkeep, Hl. by left.
Qed.

Lemma pick_worlds_ok : wtable_ok pick_worlds.
Proof using Hp.
  unfold pick_worlds. split.
  - rewrite fmap_imap. apply NoDup_alt. intros i j x. rewrite !list_lookup_imap. cbn [compose fst].
    destruct (pickable !! i), (pickable !! j); cbn; try done. unfold pick_variable. intros [= <-] [= He]. lia.
  - intros x d Hd. apply list_elem_of_lookup in Hd as [i Hi]. rewrite list_lookup_imap in Hi.
    destruct (pickable !! i) as [j|] eqn:Hj; [|done]. injection Hi as <- <-.
    destruct (Hp j) as [H0 H1]; [apply elem_of_pickable; by eapply list_elem_of_lookup_2|]. split.
    + by apply (bool_decide_unpack _); vm_compute.
    + intros r q Hin. repeat (apply elem_of_cons in Hin as [[= -> ->]|Hin]); [done| |by apply not_elem_of_nil in Hin].
      by apply Qcle_minus_iff in H1.
    + unfold mass. cbn [foldr snd]. ring.
Qed.

(** One pick. *)
Lemma pick_probability (W : wtable) (v : Z) (q : Qc) (b : bool) :
  wtable_ok W -> (v, [(1%Z, q); (0%Z, (1 - q)%Qc)]) ∈ W ->
  Pr W (fun th => bool_decide (sat_lit (v, 1%Z) th = b)) = (if b then q else 1 - q)%Qc.
Proof.
  intros HW Hv. rewrite (Pr_shannon W HW _ v _ Hv). unfold wsum. cbn [foldr fst snd].
  assert (Hs : forall r, Pr W (fun w => bool_decide (sat_lit (v, 1%Z) (<[v := r]> w) = b)) = ind (bool_decide (bool_decide (r = 1%Z) = b))).
  { intros r. rewrite <- (Pr_const W HW). apply Pr_ext. intros w. unfold sat_lit. cbn [fst snd]. rewrite lookup_insert_eq.
    apply bool_decide_ext. rewrite (bool_decide_ext (Some r = Some 1%Z) (r = 1%Z)); [done|]. split; [by intros [= ->]|by intros ->]. }
  rewrite !Hs. destruct b.
  - change (ind (bool_decide (bool_decide (1%Z = 1%Z) = true))) with 1%Qc.
    change (ind (bool_decide (bool_decide (0%Z = 1%Z) = true))) with 0%Qc. ring.
  - change (ind (bool_decide (bool_decide (1%Z = 1%Z) = false))) with 0%Qc.
    change (ind (bool_decide (bool_decide (0%Z = 1%Z) = false))) with 1%Qc. ring.
Qed.

Lemma picks_independent (W : wtable) (v : nat -> Z) (l : list row) (m : list bool) :
  wtable_ok W -> (forall i j, v i = v j -> i = j) ->
  (forall i j, l !! i = Some j -> (v i, [(1%Z, p j); (0%Z, (1 - p j)%Qc)]) ∈ W) -> length m = length l ->
  Pr W (fun th => bool_decide (imap (fun i _ => sat_lit (v i, 1%Z) th) l = m)) =
  qprod (zip_with (fun b j => if b : bool then p j else (1 - p j)%Qc) m l).
Proof.
  intros HW. revert v m. induction l as [|j l IH]; intros v [|b m] Hv Hl Hm; try done.
  - exact (Pr_const W HW true).
  - cbn [zip_with]. rewrite qprod_cons, <- (pick_probability W (v 0) (p j) b HW (Hl 0 j eq_refl)).
    rewrite <- (IH (v ∘ S) m); [|intros x y H; by injection (Hv _ _ H)|intros i a Ha; by apply (Hl (S i))|by injection Hm].
    rewrite <- Pr_and_indep; [|done|].
    + apply Pr_ext. intros th. rewrite imap_cons. rewrite <- bool_decide_and. apply bool_decide_ext. unfold compose.
      split; [by intros [= -> ->]|by intros [-> ->]].
    + intros x _. destruct (decide (x = v 0)) as [->|Hne].
      * right. intros w r. apply bool_decide_ext. f_equiv. apply imap_ext. intros i a _. unfold compose, sat_lit. cbn [fst].
        rewrite lookup_insert_ne; [done|]. intros He. by apply Hv in He.
      * left. intros w r. unfold sat_lit. cbn [fst]. by rewrite lookup_insert_ne.
Qed.

(** The picks are independent. *)
Lemma picks_probability (m : list bool) :
  length m = length pickable ->
  Pr pick_worlds (fun th => bool_decide (picks th = m)) =
  qprod (zip_with (fun b j => if b : bool then p j else (1 - p j)%Qc) m pickable).
Proof using Hp.
  intros Hm. apply picks_independent; [apply pick_worlds_ok|intros i j; unfold pick_variable; lia| |done].
  intros i j Hj. unfold pick_worlds. apply list_elem_of_lookup. exists i. by rewrite list_lookup_imap, Hj.
Qed.
End Picked.

(** ** Running pick-tuples *)

(** The members of a list with their positions. *)
Lemma NoDup_numbered {A} (l : list A) : NoDup (imap pair l).
Proof.
  apply NoDup_alt. intros i j [k a]. rewrite !list_lookup_imap. destruct (l !! i), (l !! j); cbn; try done.
  intros [= ? ?] [= ? ?]. congruence.
Qed.

Lemma position_numbered {A} `{EqDecision A} (l : list A) (i : nat) (a : A) :
  l !! i = Some a -> position (i, a) (imap pair l) = i.
Proof.
  intros Hi. assert (Hin : imap pair l !! i = Some (i, a)) by (by rewrite list_lookup_imap, Hi).
  pose proof (position_lookup _ _ (list_elem_of_lookup_2 _ _ _ Hin)) as Hp.
  by apply (proj1 (NoDup_alt _) (NoDup_numbered l) _ _ _ Hp).
Qed.

Lemma map_numbered {A B} (f : nat * A -> B) (l : list A) : map f (imap pair l) = imap (fun i a => f (i, a)) l.
Proof. apply (fmap_imap pair f l). Qed.

Lemma imap_map {A B} (f : A -> B) (l : list A) : imap (fun _ a => f a) l = map f l.
Proof. induction l as [|a l IH]; [done|]. rewrite imap_cons. cbn [map]. f_equal. exact IH. Qed.

Record pick_server_ok (ops : sql_ops) : Prop := {
  ps_int4 : forall z, (- 2 ^ 31 <= z < 2 ^ 31)%Z -> cast ops ["pg_catalog"; "int4"] (VInt z) = VInt z;
  ps_zero : float_value ops "0" = VReal 0%Qc;
  ps_half : float_value ops "0.5" = VReal (Q2Qc (1 # 2));
  ps_test : aggregate ops TESTFROMZEROTOONE = None /\
    exists f, scalar ops TESTFROMZEROTOONE = Some f /\ forall q, (0 <= q)%Qc -> (q <= 1)%Qc -> f [VReal q] = VReal q }.

Section RunPicked.
Context (ops : sql_ops) (db : RangeVar -> option table) (s : select).
Context (ts : list (list string * table)) (w : fn) (fs : list (string * fn)) (p : row -> Qc).

Abbreviation sc := (map (fun '(q, t) => (q, columns t)) ts).
Abbreviation candidates := (filtered w ts.*2).

(** The probability of pick-tuples; without one it is one half. *)
Definition probability_by (o : option target) : Prop :=
  match o with
  | Some r => name r = Some "_p0" /\ has_aggregate ops (val r) = false /\
      exists f, eval_expr ops (paths sc) (val r) = Some f /\
        forall j, j ∈ candidates -> cast ops ["pg_catalog"; "float4"] (f j) = VReal (p j)
  | None => forall j, p j = Q2Qc (1 # 2)
  end.

(** The select below pick-tuples: its from clause, condition and targets have a meaning,
    every target is one data column. *)
Record pick_select : Prop := {
  pk_fragment : in_fragment (server_view s) = true;
  pk_from : forall seqs, thread (run_from ops db) (fromClause s) seqs = Some (ts, seqs);
  pk_plain : groupClause s = [] /\ sortClause s = [] /\ distinctClause s = None;
  pk_where : select_where ops s sc = Some w;
  pk_targets : map_option (eval_target ops sc) (targetList s) = Some (map (fun c => [c]) fs);
  pk_simple : Forall (fun r => is_numbering ops r = false /\ has_aggregate ops (val r) = false) (targetList s);
  pk_data : Forall (fun c => is_data c = true) fs.*1;
  pk_prob : probability_by (prob s);
  pk_range : forall j, j ∈ candidates -> (0 <= p j)%Qc /\ (p j <= 1)%Qc }.
Context (Hs : pick_select) (Hserver : pick_server_ok ops).

Definition variable_target : target :=
  type_cast_to_int4 (make_ResTarget_with_func_char (Some "_v0") "nextval" VARIDSEQ).

Lemma and3_true (a b : value) : is_true (and3 a b) = is_true a && is_true b.
Proof. by destruct a as [| | |[]|], b as [| | |[]|]. Qed.

(** Any select with the rows and the targets of the rewritten one. *)
Lemma pick_rows (s2 : select) (pt : target) (w2 pf : fn) (seqs : sequences) :
  targetList s2 = targetList s ++ [variable_target; make_ResTarget_with_int (Some "_d0") 1; pt] ->
  groupClause s2 = [] -> sortClause s2 = [] -> distinctClause s2 = None ->
  select_where ops s2 sc = Some w2 -> filtered w2 ts.*2 = pickable p candidates ->
  eval_target ops sc pt = Some [("_p0", pf)] -> is_numbering ops pt = false -> has_aggregate ops (val pt) = false ->
  (forall j, j ∈ candidates -> pf j = VReal (p j)) ->
  (0 <= seqs VARIDSEQ)%Z -> (seqs VARIDSEQ + Z.of_nat (length candidates) < 2 ^ 31)%Z ->
  exists seqs', eval_numbered ops s2 ts seqs =
    Some (picked fs.*1 (project fs.*2) p candidates (seqs VARIDSEQ), seqs').
Proof using Hs Hserver.
  intros Htl Hg Hsort Hd Hw Hrows Hpt Hpn Hpa Hpf H0 Hmax.
  set (R := pickable p candidates). set (int4 := cast ops ["pg_catalog"; "int4"]).
  assert (Hn : Forall (fun r => is_numbering ops r = false) (targetList s)).
  { eapply Forall_impl; [exact (pk_simple Hs)|]. by intros r [? _]. }
  assert (Hlen : length (targetList s) = length fs).
  { pose proof (pk_targets Hs) as H. apply map_option_Forall2, Forall2_length in H. by rewrite H, length_map. }
  destruct (eval_numbered_one ops s2 ts seqs (targetList s) [make_ResTarget_with_int (Some "_d0") 1; pt] variable_target
    "_v0" VARIDSEQ (fun z => int4 (VInt z)) fs.*1 ["_d0"; "_p0"] (fun a => project fs.*2 a.2)
    (fun a => [VInt 1; VReal (p a.2)]) (imap pair R)) as (seqs' & _ & He); try done.
  - by repeat constructor.
  - by left.
  - apply NoDup_numbered.
  - by rewrite length_fmap.
  - intros a _. split; [|done]. unfold project. by rewrite length_map, !length_fmap.
  - assert (Hgr : grouped ops (set_distinctClause None (set_targetList (targetList s ++ [make_ResTarget_with_int (Some "_d0") 1; pt]) s2)) = false).
    { unfold grouped. cbn [groupClause targetList set_distinctClause set_targetList]. rewrite Hg, existsb_app.
      cbn [existsb make_ResTarget_with_int val has_aggregate]. rewrite Hpa, !orb_false_r.
      pose proof (pk_simple Hs) as Hsimple. clear -Hsimple. induction Hsimple as [|r l [_ Hr] _ IH]; [done|]. cbn [existsb]. by rewrite Hr, IH. }
    unfold eval_over. rewrite Hgr. unfold select_where in Hw |- *.
    cbn [whereClause sortClause targetList distinctClause set_distinctClause set_targetList]. rewrite Hw, Hsort.
    cbn [mbind option_bind map_option].
    rewrite (proj2 (map_option_app _ _ _ (map (fun c => [c]) fs ++ [[("_d0", fun _ => VInt 1)]; [("_p0", pf)]]))).
    2: { eexists _, _. split_and!; [exact (pk_targets Hs)| |done]. cbn [map_option]. by rewrite Hpt. }
    cbn [mbind option_bind]. rewrite Hrows. unfold distinct_rows. cbn [distinctClause set_distinctClause mbind option_bind].
    rewrite concat_app. replace (concat (map (fun c => [c]) fs)) with fs
      by (clear; induction fs as [|c l IH]; [done|]; cbn; by rewrite <- IH).
    rewrite !fmap_app. do 2 f_equal. fold R.
    transitivity (map (fun j => project fs.*2 j ++ [VInt 1; VReal (p j)]) R).
    + apply map_ext_in. intros j Hj%list_elem_of_In. unfold project. rewrite map_app. cbn. do 3 f_equal. f_equal.
      apply Hpf. by apply list_elem_of_filter in Hj as [_ ?].
    + rewrite map_numbered. symmetry. exact (imap_map (fun j => project fs.*2 j ++ [VInt 1; VReal (p j)]) R).
  - exists seqs'. rewrite He. unfold picked. do 3 f_equal. fold R. rewrite map_numbered. apply imap_ext.
    intros i j Hj. cbn [snd]. rewrite position_numbered by done. do 2 f_equal. apply (ps_int4 _ Hserver).
    apply lookup_lt_Some in Hj. assert (length R <= length candidates) by apply length_filter. unfold pick_variable. lia.
Qed.

Definition picking_ok (seqs : sequences) : Prop :=
  (0 <= seqs VARIDSEQ)%Z /\ (seqs VARIDSEQ + Z.of_nat (length candidates) < 2 ^ 31)%Z.

(** The probability is tested, and rows with probability 0 are left out. *)
Lemma run_pick_tuples (seqs : sequences) :
  picking_ok seqs ->
  exists seqs', run_select ops db (rewrite_pick_tuples s) seqs =
    Some (picked fs.*1 (project fs.*2) p candidates (seqs VARIDSEQ), seqs').
Proof using Hs Hserver.
  intros [H0 Hmax]. destruct (ps_test _ Hserver) as (Hna & test & Htest & Ht).
  destruct (pk_plain Hs) as (Hg & Hsort & Hd). pose proof (pk_prob Hs) as Hprob. unfold rewrite_pick_tuples.
  destruct (prob s) as [r|] eqn:Hpr.
  - destruct Hprob as (Hnm & Hagg & f & Hf & Hv). set (r' := tested_prob r).
    set (pf := fun j => test [cast ops ["pg_catalog"; "float4"] (f j)]).
    assert (Hpf : forall j, j ∈ candidates -> pf j = VReal (p j)).
    { intros j Hj. unfold pf. rewrite (Hv j Hj). by apply Ht; apply (pk_range Hs). }
    assert (Hef : eval_expr ops (paths sc) (val r') = Some pf)
      by (unfold r', tested_prob, type_cast_weight_by; cbn [val eval_expr]; rewrite Htest; cbn [mbind option_bind map_option eval_expr]; by rewrite Hf).
    set (w0 := match whereClause s with None => fun _ => VBool true | Some _ => w end).
    set (w2 := fun j => and3 (w0 j) (apply_op ops "<>" (pf j) (float_value ops "0"))).
    assert (Hw0 : forall j, is_true (w0 j) = is_true (w j)).
    { intros j. unfold w0. pose proof (pk_where Hs) as Hw. unfold select_where in Hw.
      destruct (whereClause s); [done|]. by injection Hw as <-. }
    assert (Hrows : filtered w2 ts.*2 = pickable p candidates).
    { unfold filtered, pickable. rewrite filter_filter_bool. apply filter_ext_elem. intros j Hj. unfold w2.
      rewrite and3_true, Hw0, andb_comm. destruct (is_true (w j)) eqn:Hwj; [|by rewrite !andb_false_r].
      rewrite !andb_true_r, Hpf, (ps_zero _ Hserver) by (apply list_elem_of_filter; by split).
      unfold weighs. change (negb (bool_decide (VReal (p j) = VReal 0%Qc)) = negb (bool_decide (p j = 0%Qc))).
      f_equal. apply bool_decide_ext. split; [by intros [= ?]|by intros ->]. }
    pose proof (pk_where Hs) as Hw. unfold select_where in Hw. set (s2 := set_whereClause _ _).
    assert (Hw2 : targetList s2 = targetList s ++ [variable_target; make_ResTarget_with_int (Some "_d0") 1; r'] /\
      groupClause s2 = [] /\ sortClause s2 = [] /\ distinctClause s2 = None /\ select_where ops s2 sc = Some w2 /\
      fromClause s2 = fromClause s /\ in_fragment (server_view s2) = true).
    { assert (Hand : forall e, eval_expr ops (paths sc) e = Some w0 ->
        eval_expr ops (paths sc) (A_Expr AEXPR_AND [] (Some e) (Some (makeA_Expr AEXPR_OP ["<>"] (val r') zero_const))) = Some w2).
      { intros e He. unfold makeA_Expr, zero_const. cbn [eval_expr]. by rewrite He, Hef. }
      pose proof (pk_fragment Hs) as Hfr. unfold s2, fill_where_clause, select_where, w0 in *.
      cbn [whereClause set_targetList set_prob]. destruct (whereClause s) as [e|] eqn:He;
        cbn [whereClause targetList groupClause sortClause distinctClause fromClause set_whereClause set_targetList set_prob];
        rewrite <- ?app_assoc; (split_and!; [done..| |done|exact Hfr]); rewrite ?He; apply Hand; [exact Hw|done]. }
    destruct Hw2 as (T2 & G2 & S2' & D2 & W2 & F2 & I2).
    destruct (pick_rows s2 r' w2 pf seqs) as (seqs' & He); try done.
    + unfold eval_target. unfold r', tested_prob, type_cast_weight_by in Hef |- *. cbn [val] in Hef |- *.
      rewrite Hef. unfold target_name. cbn [name]. by rewrite Hnm.
    + unfold r', tested_prob, type_cast_weight_by. cbn [val has_aggregate existsb]. rewrite Hna, Hagg.
      by rewrite bool_decide_eq_false_2 by (by intros []).
    + exists seqs'. unfold run_select. rewrite I2, F2, (pk_from Hs). exact He.
  - set (pt := make_ResTarget_with_float (Some "_p0") "0.5"). set (s2 := set_targetList _ s).
    destruct (pick_rows s2 pt w (fun _ => float_value ops "0.5") seqs) as (seqs' & He); try done.
    + unfold s2. cbn [targetList set_targetList]. by rewrite <- app_assoc.
    + exact (pk_where Hs).
    + unfold pickable. rewrite <- (filter_true candidates) at 1. apply filter_ext_elem. intros j _. unfold weighs.
      rewrite Hprob. by rewrite bool_decide_eq_false_2 by (by intros [=]).
    + intros j _. by rewrite (ps_half _ Hserver), Hprob.
    + exists seqs'. unfold run_select. pose proof (pk_fragment Hs) as Hfr.
      change (in_fragment (server_view s2)) with (in_fragment (server_view s)). rewrite Hfr.
      change (fromClause s2) with (fromClause s). rewrite (pk_from Hs). exact He.
Qed.
End RunPicked.

Lemma process_pick_tuples (ops : sql_ops) (db : RangeVar -> option table) (s : select) (ts : list (list string * table))
    (w : fn) (fs : list (string * fn)) (p : row -> Qc) (seqs : sequences) :
  op s = SETOP_NONE -> pick_select ops db (repair_source s) ts w fs p -> pick_server_ok ops -> picking_ok ts w seqs ->
  exists s' seqs', ProcessPickTuples s = Ok s' /\ tabletype s' = TABLETYPE_INDEPENDENT /\
    run_select ops db s' seqs = Some (picked fs.*1 (project fs.*2) p (filtered w ts.*2) (seqs VARIDSEQ), seqs').
Proof.
  intros Hop Hs Hserver Hfit. unfold ProcessPickTuples, rewrite_set_operation. rewrite Hop. cbn [mbind outcome_bind].
  fold (repair_source s). destruct (run_pick_tuples ops db (repair_source s) ts w fs p Hs Hserver seqs Hfit) as (seqs' & Hrun).
  eexists _, seqs'. split_and!; [reflexivity|done|]. unfold set_into_type. rewrite <- Hrun. generalize (rewrite_pick_tuples (repair_source s)).
  intros s2. by destruct s2.
Qed.
