(* ===== verification/RewriteChecks.v ===== *)
(** * RewriteChecks: a small U-relational database and queries over it

    Two U-relations [r(a, b)] and [s(b, c)] and a certain relation [c(a, b)], and a
    nested query that joins them. *)
From Stdlib Require Import Strings.String Strings.Ascii.
From stdpp Require Import strings.
From S2P Require Import Prelude.
From S2P Require Import Worlds.
From S2P Require Import LocalCond.
From S2P Require Import HashTable.
From S2P Require Import WsTreeCorrect.
From S2P Require Import Store.
From S2P Require Import Group.
From S2P Require Import Checks.
From S2P Require Import ParseTree.
From S2P Require Import RewriteUtils.
From S2P Require Import Supported.
From S2P Require Import Rewrite.
From S2P Require Import Sql.
From S2P Require Import RewriteCorrect.
From S2P Require Import RewriteDefined.
From S2P Require Import Consistent.
From S2P Require Import ConfQuery.
From S2P Require Import ConfAnswer.
From S2P Require Import ConfValue.
From S2P Require Import RepairKey.
From S2P Require Import RepairCorrect.
Open Scope string_scope.
Open Scope list_scope.
Open Scope nat_scope.

Definition ex_q (n : Z) (d : positive) : Qc := Q2Qc (n # d).

Definition ex_relations : list (string * Relation * table) :=
  [("r", mk_rel 1 TABLETYPE_URELATION ["a"; "b"; "_v0"; "_d0"; "_p0"] [],
    mk_table ["a"; "b"; "_v0"; "_d0"; "_p0"]
      [[VInt 1; VInt 10; VInt 1; VInt 1; VReal (ex_q 1 2)];
       [VInt 2; VInt 20; VInt 1; VInt 2; VReal (ex_q 1 2)];
       [VInt 1; VInt 20; VInt 2; VInt 1; VReal (ex_q 1 3)]]);
   ("s", mk_rel 2 TABLETYPE_URELATION ["b"; "c"; "_v0"; "_d0"; "_p0"] [],
    mk_table ["b"; "c"; "_v0"; "_d0"; "_p0"]
      [[VInt 10; VInt 5; VInt 2; VInt 2; VReal (ex_q 2 3)];
       [VInt 20; VInt 6; VInt 1; VInt 1; VReal (ex_q 1 2)];
       [VInt 20; VInt 7; VInt 2; VInt 1; VReal (ex_q 1 3)]]);
   ("c", mk_rel 3 TABLETYPE_CERTAIN ["a"; "b"] [],
    mk_table ["a"; "b"] [[VInt 1; VInt 10]; [VInt 3; VInt 10]]);
   ("i", mk_rel 4 TABLETYPE_INDEPENDENT ["b"; "e"; "_v0"; "_d0"; "_p0"] [],
    mk_table ["b"; "e"; "_v0"; "_d0"; "_p0"]
      [[VInt 10; VInt 8; VInt 3; VInt 1; VReal (ex_q 1 4)];
       [VInt 20; VInt 9; VInt 4; VInt 1; VReal (ex_q 1 5)]])].

Definition ex_entry (rv : RangeVar) : option (string * Relation * table) :=
  head (filter (fun e => e.1.1 = relname rv) ex_relations).

Definition ex_catalog (rv : RangeVar) : option Relation := e ← ex_entry rv; Some e.1.2.
Definition ex_db (rv : RangeVar) : option table := e ← ex_entry rv; Some e.2.

(** Insertion sort by integer keys. *)
Fixpoint key_le (k1 k2 : list value) : bool :=
  match k1, k2 with
  | VInt a :: k1, VInt b :: k2 => (a <? b)%Z || ((a =? b)%Z && key_le k1 k2)
  | _, _ => true
  end.
Fixpoint insert_by (key : row -> list value) (r : row) (l : list row) : list row :=
  match l with
  | [] => [r]
  | r' :: l => if key_le (key r) (key r') then r :: r' :: l else r' :: insert_by key r l
  end.
Definition ex_sort (keys : list (row -> value)) (l : list row) : list row :=
  foldr (insert_by (fun r => map (fun k : row -> value => k r) keys)) [] l.

Definition ex_ops : sql_ops :=
  mk_ops (fun _ _ _ => VNull) (fun _ v => v) (fun _ => VNull) (fun _ => None) (fun _ => None) ex_sort.

Definition ex_rel (nm : string) (alias : option string) : node := N_RangeVar (mk_rv None None nm alias).

Definition ex_eq (l r : list string) : node :=
  A_Expr AEXPR_OP ["="] (Some (ColumnRef l)) (Some (ColumnRef r)).

(** [select x.*, t.c from r x, (select * from s where b = 20) t where x.b = t.b] *)
Definition ex_inner : select :=
  set_whereClause (Some (A_Expr AEXPR_OP ["="] (Some (ColumnRef ["b"])) (Some (A_Const (V_Integer 20) []))))
    (set_fromClause [ex_rel "s" None] (set_targetList [mk_res None (ColumnRef ["*"])] new_select)).
Definition ex_query : select :=
  set_whereClause (Some (ex_eq ["x"; "b"] ["t"; "b"]))
    (set_fromClause [ex_rel "r" (Some "x"); RangeSubselect (Select ex_inner) "t"]
      (set_targetList [mk_res None (ColumnRef ["x"; "*"]); mk_res None (ColumnRef ["t"; "c"])] new_select)).

Definition ex_rewritten : select :=
  match process_select ex_catalog 3 ex_query with Ok s => s | _ => new_select end.
Definition ex_result : table := default (mk_table [] []) (eval_select ex_ops ex_db ex_rewritten).

Lemma ex_process : process_select ex_catalog 3 ex_query = Ok ex_rewritten.
Proof. vm_compute. reflexivity. Qed.

Lemma ex_eval : eval_select ex_ops ex_db ex_rewritten = Some ex_result.
Proof. vm_compute. reflexivity. Qed.

(** A world of the two variables. *)
Definition ex_world : world := {[ 1%Z := 2%Z; 2%Z := 1%Z ]}.

(** Three joined rows are consistent; one pair of triples is not. *)
Example ex_result_columns :
  columns ex_result = ["a"; "b"; "c"; "_v0"; "_d0"; "_p0"; "_v1"; "_d1"; "_p1"] /\ length (rows ex_result) = 3.
Proof. vm_compute. done. Qed.

Lemma ex_entry_in (rv : RangeVar) (e : string * Relation * table) : ex_entry rv = Some e -> e ∈ ex_relations.
Proof.
  unfold ex_entry. destruct (filter _ ex_relations) as [|e' l] eqn:Hf; [done|]. intros [= <-].
  assert (H : e' ∈ e' :: l) by by left. rewrite <- Hf in H. by apply list_elem_of_filter in H as [_ ?].
Qed.

Lemma ex_database_ok : database_ok ex_catalog ex_db.
Proof.
  intros rv rel t (e & He & [= <-])%bind_Some (e' & He' & [= <-])%bind_Some.
  rewrite He in He'. injection He' as <-. apply ex_entry_in in He.
  repeat (apply elem_of_cons in He as [->|He]); [..|by apply not_elem_of_nil in He].
  all: split; cbn [fst snd columns rows attnames]; [done|by repeat constructor| | | | |].
  all: try (intros [|k] Hk; [|vm_compute in Hk; lia]; try split; vm_compute; set_solver).
  all: try (apply (bool_decide_unpack _); vm_compute; exact I).
  all: try (exists "b"; split; [|done]; set_solver).
  all: intros k Hk; vm_compute in Hk; lia.
Qed.

Lemma ex_qualifiers_ok (from : list node) :
  forallb (fun ip => forallb (fun jq => negb (bool_decide (ip.2 `suffix_of` jq.2)) || bool_decide (ip.1 = jq.1))
    (imap (fun i n => (i, removelast (nodeGetFields n))) from))
    (imap (fun i n => (i, removelast (nodeGetFields n))) from) = true ->
  qualifiers_ok from.
Proof.
  intros H i j n1 n2 Hi Hj Hs. rewrite forallb_forall in H.
  assert (Hin : forall i n, from !! i = Some n ->
    In (i, removelast (nodeGetFields n)) (imap (fun i n => (i, removelast (nodeGetFields n))) from)).
  { intros k n Hk. apply list_elem_of_In, list_elem_of_lookup. exists k. by rewrite list_lookup_imap, Hk. }
  specialize (H _ (Hin i n1 Hi)). rewrite forallb_forall in H. specialize (H _ (Hin j n2 Hj)).
  cbn [fst snd] in H. rewrite bool_decide_eq_true_2 in H by done. simpl in H. by apply bool_decide_eq_true in H.
Qed.

Lemma ex_inner_plain : plain ex_ops ex_inner.
Proof.
  apply plain_intro; [done|by apply ex_qualifiers_ok|]. constructor; [apply plain_range|constructor].
Qed.

Lemma ex_query_plain : plain ex_ops ex_query.
Proof.
  apply plain_intro; [done|by apply ex_qualifiers_ok|]. constructor; [apply plain_range|].
  constructor; [exact (plain_subselect _ ex_inner "t" ex_inner_plain)|constructor].
Qed.

Lemma ex_known (rv : RangeVar) :
  bool_decide (relname rv ∈ ["r"; "s"; "c"; "i"]) = true -> known_from ex_catalog (N_RangeVar rv).
Proof.
  intros H%bool_decide_eq_true. unfold ex_catalog, ex_entry.
  assert (Hrel : exists rel, ex_catalog rv = Some rel /\ "b" ∈ attnames rel /\ "*" ∉ attnames rel).
  { unfold ex_catalog, ex_entry.
    repeat (apply elem_of_cons in H as [->|H]); [..|by apply not_elem_of_nil in H];
      (eexists; split; [done|]; split; apply (bool_decide_unpack _); vm_compute; exact I). }
  destruct Hrel as (rel & Hr & Hb & Hs). by apply (known_range _ rv rel "b").
Qed.

Lemma ex_query_known : known ex_catalog ex_query.
Proof.
  constructor. constructor; [by apply ex_known|]. constructor; [|constructor].
  apply known_subselect; [constructor; constructor; [by apply ex_known|constructor]|].
  constructor; [by exists "*"|constructor].
Qed.

(** The columns of the answer of a select do not depend on the world. *)
Lemma ex_inner_columns (th : world) (u : table) :
  eval_select ex_ops (world_db ex_catalog ex_db th) ex_inner = Some u -> columns u = ["b"; "c"].
Proof.
  intros H. destruct (process_total ex_catalog ex_ops 1 ex_inner ex_inner_plain) as (s' & Hs' & _);
    [constructor; constructor; [by apply ex_known|constructor]|vm_compute; lia|].
  vm_compute in Hs'. injection Hs' as Hs'. symmetry in Hs'.
  destruct (eval_select ex_ops ex_db s') as [t|] eqn:Ht; [|by rewrite Hs' in Ht].
  assert (Hp : process_select ex_catalog 1 ex_inner = Ok s') by (by rewrite Hs').
  destruct (process_represents ex_catalog ex_ops ex_db ex_database_ok 1 ex_inner s' Hp ex_inner_plain t Ht) as [_ Hw].
  rewrite Hw in H. injection H as <-. rewrite Hs' in Ht. vm_compute in Ht. injection Ht as <-. done.
Qed.

Lemma ex_query_names : distinct_names ex_catalog ex_ops ex_db ex_query.
Proof.
  constructor. constructor; [apply distinct_range|]. constructor; [|constructor].
  apply distinct_subselect; [constructor; constructor; [apply distinct_range|constructor]|].
  intros th u Hu%ex_inner_columns. rewrite Hu. apply (bool_decide_unpack _). vm_compute. exact I.
Qed.

(** ** Every row belongs to a world *)

Definition ex_all_worlds : list world :=
  d1 ← [1; 2]%Z; d2 ← [1; 2]%Z; [{[ 1%Z := d1; 2%Z := d2; 3%Z := 1%Z; 4%Z := 1%Z ]}].

Definition ex_assignments (e : string * Relation * table) : list (Z * Z) :=
  r ← rows e.2; row_assignments (relation_triples e.1.2) (columns e.2) r.

Lemma ex_elem_assignments (e : string * Relation * table) (r : row) (k : nat) (v d : Z) :
  r ∈ rows e.2 -> k < relation_triples e.1.2 -> assigned (columns e.2) r k v d -> (v, d) ∈ ex_assignments e.
Proof.
  intros Hr Hk Ha. apply list_elem_of_bind. exists r. split; [|done]. apply elem_of_row_assignments. by exists k.
Qed.

Lemma ex_entries (rv : RangeVar) (rel : Relation) (t : table) :
  ex_catalog rv = Some rel -> ex_db rv = Some t -> exists e, e ∈ ex_relations /\ e.1.2 = rel /\ e.2 = t.
Proof.
  intros (e & He & [= <-])%bind_Some (e' & He' & [= <-])%bind_Some.
  rewrite He in He'. injection He' as <-. exists e. split; [|done]. by apply (ex_entry_in rv).
Qed.

Lemma ex_consistent : consistent_database ex_catalog ex_db.
Proof.
  assert (Hrows : forallb (fun e =>
      forallb (fun r => existsb (fun th => row_holds th (relation_triples e.1.2) (columns e.2) r) ex_all_worlds) (rows e.2))
    ex_relations = true) by (vm_compute; reflexivity).
  assert (Hfix : forallb (fun e => negb (bool_decide (rd_tabletype e.1.2 = TABLETYPE_INDEPENDENT)) ||
      forallb (fun x => forallb (fun e' => forallb (fun y => negb (x.1 =? y.1)%Z || (y.2 =? x.2)%Z) (ex_assignments e'))
        ex_relations) (ex_assignments e)) ex_relations = true) by (vm_compute; reflexivity).
  split.
  - intros rv rel t r Hrel Ht Hr. destruct (ex_entries rv rel t Hrel Ht) as (e & He & <- & <-).
    pose proof (forallb_elem _ _ _ Hrows He) as Hb.
    pose proof (forallb_elem _ _ _ Hb Hr) as (th & _ & Hth)%existsb_exists. by exists th.
  - intros rv rel t r k v d Hrel Ht Hr Hi Hk Ha d' (rv' & rel' & t' & r' & k' & Hrel' & Ht' & Hr' & Hk' & Ha').
    destruct (ex_entries rv rel t Hrel Ht) as (e & He & <- & <-).
    destruct (ex_entries rv' rel' t' Hrel' Ht') as (e' & He' & <- & <-).
    pose proof (forallb_elem _ _ _ Hfix He) as H. cbv beta in H. rewrite bool_decide_eq_true_2 in H by done. cbn [negb orb] in H.
    pose proof (forallb_elem _ _ _ H (ex_elem_assignments e r k v d Hr Hk Ha)) as H'.
    pose proof (forallb_elem _ _ _ (forallb_elem _ _ _ H' He') (ex_elem_assignments e' r' k' v d' Hr' Hk' Ha')) as E.
    cbn [fst snd] in E. rewrite Z.eqb_refl in E. by apply Z.eqb_eq in E.
Qed.

(** A join of two U-relations and a tuple-independent one:
    [select x.a, y.c, z.e from r x, s y, i z where x.b = z.b]. *)
Definition ex_three : select :=
  set_whereClause (Some (ex_eq ["x"; "b"] ["z"; "b"]))
    (set_fromClause [ex_rel "r" (Some "x"); ex_rel "s" (Some "y"); ex_rel "i" (Some "z")]
      (set_targetList [mk_res None (ColumnRef ["x"; "a"]); mk_res None (ColumnRef ["y"; "c"]);
        mk_res None (ColumnRef ["z"; "e"])] new_select)).
Definition ex_three_rewritten : select :=
  match process_select ex_catalog 1 ex_three with Ok s => s | _ => new_select end.
Definition ex_three_result : table := default (mk_table [] []) (eval_select ex_ops ex_db ex_three_rewritten).

Lemma ex_three_process : process_select ex_catalog 1 ex_three = Ok ex_three_rewritten.
Proof. vm_compute. reflexivity. Qed.

Lemma ex_three_eval : eval_select ex_ops ex_db ex_three_rewritten = Some ex_three_result.
Proof. vm_compute. reflexivity. Qed.

Lemma ex_three_plain : plain ex_ops ex_three.
Proof.
  apply plain_intro; [done|by apply ex_qualifiers_ok|]. repeat (constructor; [apply plain_range|]). constructor.
Qed.

Example ex_possible_result :
  (s ← (match process_select ex_catalog 2 (set_possible true ex_query) with Ok s => Some s | _ => None end);
   t ← eval_select ex_ops ex_db (set_possible false s); Some (length (rows t))) = Some 3.
Proof. vm_compute. reflexivity. Qed.

(** ** A confidence query

    [select x.a, conf() from r x, s t where t.c = 5 or (x.b = t.b and t.c = 6) group by
    x.a], over the world table of the two variables. *)

Definition ex_worlds : wtable :=
  [(1, [(1, ex_q 1 2); (2, ex_q 1 2)]); (2, [(1, ex_q 1 3); (2, ex_q 2 3)])]%Z.

Definition conf_ops : sql_ops :=
  mk_ops (fun _ _ _ => VNull) (fun _ v => v) (fun _ => VNull) (fun _ => None)
    (fun nm => if bool_decide (nm = CONF) then Some (conf_aggregate ex_junk ex_globals) else None) ex_sort.

Definition ex_is (l : list string) (z : Z) : node :=
  A_Expr AEXPR_OP ["="] (Some (ColumnRef l)) (Some (A_Const (V_Integer z) [])).

Definition ex_from : list node := [ex_rel "r" (Some "x"); ex_rel "s" (Some "t")].
Definition ex_where : node :=
  A_Expr AEXPR_OR [] (Some (ex_is ["t"; "c"] 5))
    (Some (A_Expr AEXPR_AND [] (Some (ex_eq ["x"; "b"] ["t"; "b"])) (Some (ex_is ["t"; "c"] 6)))).
Definition ex_keys : list (list string) := [["x"; "a"]].
Definition ex_conf : select := conf_query ex_from (Some ex_where) ex_keys None 7 false.

Definition ex_conf_rewritten : select :=
  match process_select ex_catalog 2 ex_conf with Ok s => s | _ => new_select end.

Example ex_conf_result :
  (t ← eval_select conf_ops ex_db ex_conf_rewritten;
   Some (bool_decide (rows t = [[VInt 1; VReal (ex_q 1 2)]; [VInt 2; VReal (ex_q 1 3)]]))) = Some true.
Proof. vm_compute. reflexivity. Qed.

Lemma insert_by_perm (key : row -> list value) (r : row) (l : list row) : insert_by key r l ≡ₚ r :: l.
Proof.
  induction l as [|r' l IH]; [done|]. simpl. destruct (key_le (key r) (key r')); [done|]. rewrite IH. apply perm_swap.
Qed.

Lemma ex_sort_perm (ks : list (row -> value)) (l : list row) : sort_rows conf_ops ks l ≡ₚ l.
Proof.
  unfold conf_ops, sort_rows, ex_sort. induction l as [|r l IH]; [done|]. simpl. by rewrite insert_by_perm, IH.
Qed.

Lemma ex_conf_aggregate : aggregate conf_ops CONF = Some (conf_aggregate ex_junk ex_globals).
Proof. done. Qed.

Lemma ex_worlds_ok : WsTreeCorrect.table_ok ex_worlds.
Proof. by apply table_okb_sound. Qed.

Lemma ex_base_plain : plain conf_ops (base_query ex_from (Some ex_where) ex_keys).
Proof.
  apply plain_intro; [by vm_compute|by apply ex_qualifiers_ok|]. repeat (constructor; [apply plain_range|]). constructor.
Qed.

Lemma ex_keys_ok : Forall key_ok ex_keys.
Proof. constructor; [|constructor]. by exists "a". Qed.

Lemma ex_key_names : key_names_ok ex_keys.
Proof. split; [apply (bool_decide_unpack _); by vm_compute|by repeat constructor]. Qed.

Lemma ex_uncertain : uncertain_from ex_catalog ex_from.
Proof. eexists _, _. split; [by left|]. by split. Qed.

Lemma ex_base_known : known ex_catalog (base_query ex_from (Some ex_where) ex_keys).
Proof. constructor. repeat (constructor; [by apply ex_known|]). constructor. Qed.

Lemma ex_base_names : distinct_names ex_catalog conf_ops ex_db (base_query ex_from (Some ex_where) ex_keys).
Proof. constructor. repeat (constructor; [apply distinct_range|]). constructor. Qed.

(** ** A repair

    [repair key x in (select x, r.a, w from r) weight by w]: one key has two tuples, one
    of them twice, and a tuple has weight 0. *)

Definition to_real (v : value) : value := match v with VInt z => VReal (Q2Qc (inject_Z z)) | v => v end.

Definition repair_ops : sql_ops :=
  mk_ops (fun op a b => match a, b with VReal x, VReal y => VReal (x / y)%Qc | _, _ => VNull end)
    (fun ty v => if bool_decide (ty = ["pg_catalog"; "float4"]) then to_real v else v)
    (fun s => if bool_decide (s = "1.0") then VReal 1%Qc else VReal 0%Qc)
    (fun nm => if bool_decide (nm = TESTNEGATIVE) then Some (fun vs => default VNull (head vs)) else None)
    (fun nm => if bool_decide (nm = "sum") then
       Some (fun vs => VReal (foldr (fun v acc => match v with [VReal q] => (q + acc)%Qc | _ => acc end) 0%Qc vs))
     else None) ex_sort.

Definition repair_table : table :=
  mk_table ["x"; "a"; "w"]
    [[VInt 1; VInt 10; VInt 3]; [VInt 1; VInt 20; VInt 1]; [VInt 2; VInt 10; VInt 5]; [VInt 1; VInt 10; VInt 3];
     [VInt 2; VInt 30; VInt 0]].
Definition repair_db (rv : RangeVar) : option table := Some repair_table.

Definition repair_query : select :=
  set_weightby (Some (mk_res (Some "_W") (column "w"))) (set_repairkey [mk_res None (column "x")]
    (set_fromClause [ex_rel "r" None]
      (set_targetList [mk_res None (column "x"); mk_res None (ColumnRef ["r"; "a"]); mk_res None (column "w")] new_select))).

Definition row_weight (r : row) : Qc := match r with [_; _; VInt z] => Q2Qc (inject_Z z) | _ => 0%Qc end.
Definition repair_seqs : sequences := fun _ => 100%Z.

Lemma repair_server : server_ok repair_ops.
Proof.
  split; try done.
  - split; [done|]. by eexists.
  - eexists. split; [done|]. intros qs _. induction qs as [|q qs IH]; [done|]. cbn [map foldr]. injection IH as IH. by rewrite IH.
Qed.

Lemma repair_query_ok :
  repair_select repair_ops repair_db (repair_source repair_query) repair_table ["x"] row_weight.
Proof.
  split; [by intros seqs|done|done| |].
  - split; [done|]. split; [done|]. exists (nth_value 2). eexists. split_and!; [done..|].
    intros r Hr. repeat (apply elem_of_cons in Hr as [->|Hr]); [..|by apply not_elem_of_nil in Hr]; done.
  - split.
    + apply (bool_decide_unpack _). by vm_compute.
    + by repeat constructor.
    + by repeat constructor.
    + by repeat constructor.
    + apply (bool_decide_unpack _). by vm_compute.
    + apply (bool_decide_unpack _). by vm_compute.
    + done.
    + intros k Hk. apply list_elem_of_singleton in Hk as ->. by left.
    + intros r Hr. repeat (apply elem_of_cons in Hr as [->|Hr]); [..|by apply not_elem_of_nil in Hr]; by apply Qle_bool_imp_le.
Qed.

Lemma repair_numbers : numbers_ok repair_table repair_seqs.
Proof. intros q _. vm_compute. split; [discriminate|reflexivity]. Qed.

(** [pick tuples from (select r.x from r where x <> 4) with probability q] *)

Definition pick_ops : sql_ops :=
  mk_ops (fun _ _ _ => VNull) (fun _ v => v)
    (fun s => if bool_decide (s = "0.5") then VReal (Q2Qc (1 # 2)) else VReal 0%Qc)
    (fun nm => if bool_decide (nm = TESTFROMZEROTOONE) then Some (fun vs => default VNull (head vs)) else None)
    (fun _ => None) ex_sort.

Definition pick_table : table :=
  mk_table ["x"; "q"]
    [[VInt 1; VReal (ex_q 1 2)]; [VInt 2; VReal (ex_q 1 3)]; [VInt 3; VReal 0%Qc]; [VInt 4; VReal (ex_q 1 5)];
     [VInt 1; VReal 1%Qc]].
Definition pick_db (rv : RangeVar) : option table := Some pick_table.

Definition pick_query : select :=
  set_prob (Some (mk_res (Some "_p0") (column "q"))) (set_pickingType "I"%char
    (set_whereClause (Some (makeA_Expr AEXPR_OP ["<>"] (column "x") (A_Const (V_Integer 4) [])))
      (set_fromClause [ex_rel "r" None] (set_targetList [mk_res None (ColumnRef ["r"; "x"])] new_select)))).

Definition pick_where : fn := fun r => apply_op pick_ops "<>" (nth_value 0 r) (VInt 4).
Definition row_probability (r : row) : Qc := match r with [_; VReal q] => q | _ => 0%Qc end.
Definition pick_tables : list (list string * table) := [(["r"], pick_table)].
Definition pick_columns : list (string * fn) := [("x", nth_value 0)].

Lemma pick_server : pick_server_ok pick_ops.
Proof. split; try done. split; [done|]. by eexists. Qed.

Lemma pick_query_ok :
  pick_select pick_ops pick_db (repair_source pick_query) pick_tables pick_where pick_columns row_probability.
Proof.
  split; try done; [by repeat constructor|by repeat constructor|..].
  - split; [done|]. split; [done|]. exists (nth_value 1). split; [done|].
    intros j Hj. vm_compute in Hj. repeat (apply elem_of_cons in Hj as [->|Hj]); [..|by apply not_elem_of_nil in Hj]; done.
  - intros j Hj. vm_compute in Hj. repeat (apply elem_of_cons in Hj as [->|Hj]); [..|by apply not_elem_of_nil in Hj];
      split; by apply Qle_bool_imp_le.
Qed.

Lemma pick_numbers : picking_ok pick_tables pick_where repair_seqs.
Proof. vm_compute. split; [discriminate|reflexivity]. Qed.
