(* ===== verification/RewriteTheorems.v ===== *)
(** * RewriteTheorems: what the rewriting of queries guarantees *)
From Stdlib Require Import Strings.String Strings.Ascii.
From stdpp Require Import strings.
From S2P Require Import Prelude.
From S2P Require Import Worlds.
From S2P Require Import LocalCond.
From S2P Require Import WsTreeCorrect.
From S2P Require Import Checks.
From S2P Require Import ParseTree.
From S2P Require Import RewriteUtils.
From S2P Require Import Supported.
From S2P Require Import Rewrite.
From S2P Require Import Sql.
From S2P Require Import RewriteCorrect.
From S2P Require Import RewriteDefined.
From S2P Require Import Consistent.
From S2P Require Import ConfQuery.
From S2P Require Import ConfAnswer.
From S2P Require Import ConfValue.
From S2P Require Import RepairKey.
From S2P Require Import RepairCorrect.
From S2P Require Import RewriteChecks.
Open Scope string_scope.
Open Scope list_scope.
Open Scope nat_scope.

(** C5: the rewriting of a select over U-relations, nested at will, represents the
    select in every world.  Fuel above the nesting is enough for the rewriting to
    succeed, and for every world the answer of the original select over the relations of
    that world is the answer of the rewritten one over the U-relations, of which the rows
    whose triples hold are kept and the condition columns are removed; one of the two
    fails to find a name exactly when the other does. *)
Theorem rewriting_represents (catalog : RangeVar -> option Relation) (ops : sql_ops)
    (db : RangeVar -> option table) (fuel : nat) (s : select) :
  database_ok catalog db -> plain ops s -> known catalog s -> distinct_names catalog ops db s ->
  select_depth s < fuel ->
  exists s', process_select catalog fuel s = Ok s' /\
    forall th, eval_select ops (world_db catalog db th) s =
      (t ← eval_select ops db s'; Some (instance th (select_triples s') t)).
Proof.
  intros Hdb Hs Hk Hd Hf. destruct (process_total catalog ops fuel s Hs Hk Hf) as (s' & Hs' & _).
  exists s'. split; [done|]. intros th. destruct (eval_select ops db s') as [t|] eqn:Ht.
  - by apply (process_represents catalog ops db Hdb fuel s s' Hs' Hs t Ht).
  - destruct (eval_select ops (world_db catalog db th) s) as [u|] eqn:Hu; [|done].
    destruct (process_defined catalog ops db Hdb fuel s s' Hs' Hs Hd th u Hu) as [t Ht']. congruence.
Qed.

Lemma rewriting_represents_witness :
  exists s', process_select ex_catalog 2 ex_query = Ok s' /\
    forall th, eval_select ex_ops (world_db ex_catalog ex_db th) ex_query =
      (t ← eval_select ex_ops ex_db s'; Some (instance th (select_triples s') t)).
Proof.
  apply (rewriting_represents ex_catalog ex_ops ex_db 2 ex_query);
    [exact ex_database_ok|exact ex_query_plain|exact ex_query_known|exact ex_query_names|vm_compute; constructor].
Defined.

(** The rewriting of a plain select succeeds.  When the catalog knows the relations
    and the targets of subqueries have names, fuel above the nesting of the subqueries
    is enough, the loop that expands stars in the growing target list ends, and no error
    is raised. *)
Theorem rewriting_total (catalog : RangeVar -> option Relation) (ops : sql_ops) (fuel : nat) (s : select) :
  plain ops s -> known catalog s -> select_depth s < fuel ->
  exists s', process_select catalog fuel s = Ok s'.
Proof.
  intros Hs Hk Hf. destruct (process_total catalog ops fuel s Hs Hk Hf) as (s' & Hs' & _). by exists s'.
Qed.

Lemma rewriting_total_witness : exists s', process_select ex_catalog 2 ex_query = Ok s'.
Proof.
  apply (rewriting_total ex_catalog ex_ops 2 ex_query);
    [exact ex_query_plain|exact ex_query_known|vm_compute; constructor].
Defined.

(** C6: [select keys, conf() from ... where ... group by keys] computes the confidence of
    every possible answer.  The rewriting succeeds; the rewritten query has an answer when
    the query without [conf] has one in some world; its rows are the keys, each once, with
    the aggregate of their lineage.  Every key of every world occurs, a lineage holds in
    the worlds whose answer has the key, and when its triples are those of the world table
    the value is the probability that the key is in the answer. *)
Theorem conf_query_probability (catalog : RangeVar -> option Relation) (ops : sql_ops)
    (db : RangeVar -> option table) (W : wtable) (junk : nat -> N) (g : globals)
    (from : list node) (w : option node) (keys : list (list string)) (nm : option string) (a : nat)
    (star : bool) (fuel : nat) :
  database_ok catalog db -> (forall ks l, sort_rows ops ks l ≡ₚ l) ->
  WsTreeCorrect.table_ok W -> gS g = None -> aggregate ops CONF = Some (conf_aggregate junk g) ->
  plain ops (base_query from w keys) -> Forall key_ok keys -> key_names_ok keys ->
  uncertain_from catalog from -> known catalog (base_query from w keys) ->
  distinct_names catalog ops db (base_query from w keys) -> select_depth (base_query from w keys) < fuel ->
  exists s', process_select catalog fuel (conf_query from w keys nm a star) = Ok s' /\
    match eval_select ops db s' with
    | Some t => exists lineage,
        aggregates (conf_aggregate junk g) t lineage /\
        lineage_of (base_answer catalog ops db from w keys) lineage /\
        forall key args, (key, args) ∈ lineage -> args_ok W args ->
          key ++ [VReal (Pr W (answer_has (base_answer catalog ops db from w keys) key))] ∈ rows t
    | None => forall th, base_answer catalog ops db from w keys th = None
    end.
Proof.
  intros Hdb Hsort HW Hg Hagg Hplain Hkeys Hnames Hfrom Hknown Hdistinct Hfuel.
  destruct (conf_query_lineage catalog ops db Hdb Hsort from w keys Hplain Hkeys Hnames Hfrom Hknown Hdistinct
    fuel nm a star _ Hagg Hfuel) as (s' & Hs' & H). exists s'. split; [done|].
  destruct (eval_select ops db s') as [t|]; [|done]. destruct H as (lineage & Ht & Hlin).
  exists lineage. split_and!; [done..|]. by apply (conf_query_value catalog ops db from w keys W junk g t lineage HW Hg).
Qed.

Lemma conf_query_probability_witness :
  exists s', process_select ex_catalog 2 ex_conf = Ok s' /\
    match eval_select conf_ops ex_db s' with
    | Some t => exists lineage,
        aggregates (conf_aggregate ex_junk ex_globals) t lineage /\
        lineage_of (base_answer ex_catalog conf_ops ex_db ex_from (Some ex_where) ex_keys) lineage /\
        forall key args, (key, args) ∈ lineage -> args_ok ex_worlds args ->
          key ++ [VReal (Pr ex_worlds (answer_has (base_answer ex_catalog conf_ops ex_db ex_from (Some ex_where) ex_keys) key))] ∈ rows t
    | None => forall th, base_answer ex_catalog conf_ops ex_db ex_from (Some ex_where) ex_keys th = None
    end.
Proof.
  apply (conf_query_probability ex_catalog conf_ops ex_db ex_worlds ex_junk ex_globals ex_from (Some ex_where) ex_keys
    None 7 false 2); [exact ex_database_ok|exact ex_sort_perm|exact ex_worlds_ok|reflexivity|exact ex_conf_aggregate
    |exact ex_base_plain|exact ex_keys_ok|exact ex_key_names|exact ex_uncertain|exact ex_base_known|exact ex_base_names
    |vm_compute; repeat constructor].
Defined.

(** C7: [select possible] lists the answers of all worlds, each once, when every row of
    the tables belongs to some world and no row contradicts the triples of a row of a
    tuple-independent relation: the variable of such a row has one value in all tables.
    The checks that the rewriting adds skip tuple-independent relations, so the second
    condition is needed.  The rewriting succeeds, and the rewritten select,
    whose flag the server does not read, has an answer when the select without [possible]
    has one in some world. *)
Theorem possible_answers (catalog : RangeVar -> option Relation) (ops : sql_ops)
    (db : RangeVar -> option table) (fuel : nat) (s : select) :
  database_ok catalog db -> consistent_database catalog db -> plain ops s -> known catalog s ->
  distinct_names catalog ops db s -> select_depth s < fuel ->
  exists s', process_select catalog fuel (set_possible true s) = Ok s' /\
    match eval_select ops db (set_possible false s') with
    | Some t =>
        NoDup (rows t) /\ (forall th, is_Some (eval_select ops (world_db catalog db th) s)) /\
        forall key, key ∈ rows t <->
          exists th u, eval_select ops (world_db catalog db th) s = Some u /\ key ∈ rows u
    | None => forall th, eval_select ops (world_db catalog db th) s = None
    end.
Proof.
  intros Hdb Hcdb Hs Hk Hd Hf. destruct fuel as [|fuel]; [lia|].
  destruct (possible_total catalog ops fuel s Hs Hk Hf) as (from & rels & tl & Hfrom & Hrels & Htl & Hatt).
  pose proof (plain_select_parts ops s Hs) as Hp. exists (possible_rewritten s from rels tl). split.
  - cbn [process_select]. rewrite (process_possible_eq catalog ops) by done. rewrite Hfrom. cbn [mbind outcome_bind].
    rewrite Hrels. cbn [mbind outcome_bind]. by rewrite Htl.
  - pose proof (possible_rewritten_clauses ops s from rels tl Hp) as Hc.
    revert Hc. generalize (set_possible false (possible_rewritten s from rels tl)). intros s1 Hc.
    destruct (eval_select ops db s1) as [t|] eqn:Ht.
    + by apply (possible_represents catalog ops db Hdb Hcdb fuel s s1 from rels tl).
    + intros th. destruct (eval_select ops (world_db catalog db th) s) as [u|] eqn:Hu; [|done].
      destruct (possible_defined catalog ops db Hdb Hcdb fuel s s1 from rels tl th u Hs Hd Hfrom Hrels Htl Hatt Hc Hu). congruence.
Qed.

Lemma possible_answers_witness :
  exists s', process_select ex_catalog 2 (set_possible true ex_query) = Ok s' /\
    match eval_select ex_ops ex_db (set_possible false s') with
    | Some t =>
        NoDup (rows t) /\ (forall th, is_Some (eval_select ex_ops (world_db ex_catalog ex_db th) ex_query)) /\
        forall key, key ∈ rows t <->
          exists th u, eval_select ex_ops (world_db ex_catalog ex_db th) ex_query = Some u /\ key ∈ rows u
    | None => forall th, eval_select ex_ops (world_db ex_catalog ex_db th) ex_query = None
    end.
Proof.
  apply (possible_answers ex_catalog ex_ops ex_db 2 ex_query); [exact ex_database_ok|exact ex_consistent
    |exact ex_query_plain|exact ex_query_known|exact ex_query_names|vm_compute; constructor].
Defined.

(** C10: a rewritten select has no row that is in no world.  When every row of the tables
    belongs to some world, and the variable of a row of a tuple-independent relation has one
    value in all tables, every row of the result belongs to some world: the joins keep only
    rows whose triples do not contradict each other, at every level of nesting.  The checks
    skip tuple-independent relations, which is why the second condition is needed. *)
Theorem rewriting_consistent (catalog : RangeVar -> option Relation) (ops : sql_ops)
    (db : RangeVar -> option table) (fuel : nat) (s s' : select) (t : table) (r : row) :
  database_ok catalog db -> consistent_database catalog db -> plain ops s ->
  process_select catalog fuel s = Ok s' -> eval_select ops db s' = Some t -> r ∈ rows t ->
  exists th, row_holds th (select_triples s') (columns t) r = true.
Proof.
  intros Hdb Hcdb Hs Hproc Ht Hr.
  destruct (process_consistent catalog ops db Hdb Hcdb fuel s s' Hproc Hs t r Ht Hr) as (th & Hth & _). by exists th.
Qed.

Lemma rewriting_consistent_witness :
  exists th, row_holds th (select_triples ex_three_rewritten) (columns ex_three_result)
    (default [] (head (rows ex_three_result))) = true.
Proof.
  apply (rewriting_consistent ex_catalog ex_ops ex_db 1 ex_three ex_three_rewritten ex_three_result); [exact ex_database_ok
    |exact ex_consistent|exact ex_three_plain|exact ex_three_process|exact ex_three_eval|vm_compute; left].
Defined.

(** C8: repair-key makes the space of all repairs.  On an answer with distinct columns,
    without nulls, with non-negative weights, the rewritten select is run by the server to
    a U-relation with one triple.  Its world table has one variable for each key and one
    value for each distinct tuple of the key that has a weight; for every choice of one
    tuple for each key, the probability that the relation of the world is the chosen
    repair is the product of the tuples' shares of the weights of their keys; and every
    world is such a repair. *)
Theorem repair_key_worlds (ops : sql_ops) (db : RangeVar -> option table) (s : select) (t : table)
    (keys : list string) (weight : row -> Qc) (seqs : sequences) :
  op s = SETOP_NONE -> repair_select ops db (repair_source s) t keys weight -> server_ok ops -> numbers_ok t seqs ->
  let W := repair_worlds t keys weight seqs in
  let chooses pick := forall k, k ∈ key_values t keys weight -> pick k ∈ alternatives t keys weight k in
  exists s' u seqs', ProcessRepairKey s = Ok s' /\ run_select ops db s' seqs = Some (u, seqs') /\
    wtable_ok W /\
    (forall pick, chooses pick ->
       Pr W (fun th => bool_decide (instance th (select_triples s') u = repair_of t keys weight pick)) =
       qprod (map (fun k => weight (pick k) / key_weight t keys weight k)%Qc (key_values t keys weight))) /\
    forall th, (forall k, k ∈ key_values t keys weight -> exists r, r ∈ alternatives t keys weight k /\
                  th !! key_variable t keys weight seqs k = Some (tuple_value t weight seqs r)) ->
      exists pick, chooses pick /\ instance th (select_triples s') u = repair_of t keys weight pick.
Proof.
  intros Hop Hs Hserver Hfit W chooses. pose proof (rs_input _ _ _ _ _ _ Hs) as Hin.
  destruct (process_repair_key ops db s t keys weight seqs Hop Hs Hserver Hfit) as (s' & seqs' & Hs' & Hdim & Hty & Hrun).
  assert (Htr : select_triples s' = 1) by (unfold select_triples; by rewrite bool_decide_eq_true_2).
  exists s', (repaired t keys weight seqs), seqs'. rewrite Htr. split_and!; [done|done|..].
  - by apply repair_worlds_ok.
  - intros pick Hpick. by apply repair_probability.
  - intros th Hth. by apply world_repair.
Qed.

Lemma repair_key_worlds_witness :
  exists s' u seqs', ProcessRepairKey repair_query = Ok s' /\
    run_select repair_ops repair_db s' repair_seqs = Some (u, seqs') /\
    Pr (repair_worlds repair_table ["x"] row_weight repair_seqs)
      (fun th => bool_decide (instance th (select_triples s') u =
         mk_table ["x"; "a"; "w"] [[VInt 1; VInt 10; VInt 3]; [VInt 2; VInt 10; VInt 5]; [VInt 1; VInt 10; VInt 3]])) =
    Q2Qc (3 # 4).
Proof.
  set (pick := fun k : list value => if bool_decide (k = [VInt 1]) then [VInt 1; VInt 10; VInt 3] else [VInt 2; VInt 10; VInt 5]).
  destruct (repair_key_worlds repair_ops repair_db repair_query repair_table ["x"] row_weight repair_seqs eq_refl
    repair_query_ok repair_server repair_numbers) as (s' & u & seqs' & Hs' & Hrun & _ & Hpr & _).
  exists s', u, seqs'. split; [exact Hs'|]. split; [exact Hrun|].
  etransitivity; [|etransitivity; [exact (Hpr pick ltac:(apply Forall_forall, (bool_decide_unpack _); vm_compute; exact I))|]].
  - apply f_equal. vm_compute (repair_of _ _ _ _). reflexivity.
  - apply Qc_is_canon. vm_compute. reflexivity.
Defined.

(** C9: pick-tuples makes the space of all subsets, with independent picks.  On a select
    whose targets are data columns and whose probabilities are between 0 and 1, the
    rewritten select is run by the server to a U-relation with a new variable for every row
    of a probability other than 0; the relation of a world has the data of the rows that it
    picks, and every set of rows is picked with the product of the probabilities of its rows
    and of the complements of the others. *)
Theorem pick_tuples_worlds (ops : sql_ops) (db : RangeVar -> option table) (s : select)
    (ts : list (list string * table)) (w : fn) (fs : list (string * fn)) (p : row -> Qc) (seqs : sequences) :
  op s = SETOP_NONE -> pick_select ops db (repair_source s) ts w fs p -> pick_server_ok ops -> picking_ok ts w seqs ->
  let rs := pickable p (filtered w ts.*2) in
  let W := pick_worlds p (filtered w ts.*2) (seqs VARIDSEQ) in
  let picked_rows := picks p (filtered w ts.*2) (seqs VARIDSEQ) in
  exists s' u seqs', ProcessPickTuples s = Ok s' /\ run_select ops db s' seqs = Some (u, seqs') /\
    wtable_ok W /\
    (forall th, instance th (select_triples s') u =
       mk_table fs.*1 (keep (picked_rows th) (map (project fs.*2) rs))) /\
    forall m, length m = length rs ->
      Pr W (fun th => bool_decide (picked_rows th = m)) =
      qprod (zip_with (fun b j => if b : bool then p j else (1 - p j)%Qc) m rs).
Proof.
  intros Hop Hs Hserver Hfit rs W picked_rows. pose proof (pk_range _ _ _ _ _ _ _ Hs) as Hp.
  destruct (process_pick_tuples ops db s ts w fs p seqs Hop Hs Hserver Hfit) as (s' & seqs' & Hs' & Hty & Hrun).
  assert (Htr : select_triples s' = 1)
    by (unfold select_triples; rewrite Hty; reflexivity).
  eexists s', _, seqs'. rewrite Htr. split_and!; [done|exact Hrun|..].
  - by apply pick_worlds_ok.
  - intros th. apply instance_picked; [exact (pk_data _ _ _ _ _ _ _ Hs)|].
    intros j _. unfold project. by rewrite length_map, !length_fmap.
  - intros m Hm. by apply picks_probability.
Qed.

Lemma pick_tuples_worlds_witness :
  exists s' u seqs', ProcessPickTuples pick_query = Ok s' /\ run_select pick_ops pick_db s' repair_seqs = Some (u, seqs') /\
    (forall th, instance th (select_triples s') u =
       mk_table ["x"] (keep (picks row_probability (filtered pick_where [pick_table]) 100 th) [[VInt 1]; [VInt 2]; [VInt 1]])) /\
    Pr (pick_worlds row_probability (filtered pick_where [pick_table]) 100)
      (fun th => bool_decide (picks row_probability (filtered pick_where [pick_table]) 100 th = [true; false; true])) = ex_q 1 3.
Proof.
  destruct (pick_tuples_worlds pick_ops pick_db pick_query pick_tables pick_where pick_columns row_probability repair_seqs
    eq_refl pick_query_ok pick_server pick_numbers) as (s' & u & seqs' & Hs' & Hrun & _ & Hinst & Hpr).
  exists s', u, seqs'. split; [exact Hs'|]. split; [exact Hrun|]. split; [exact Hinst|].
  etransitivity; [exact (Hpr [true; false; true] eq_refl)|]. apply Qc_is_canon. vm_compute. reflexivity.
Defined.
